(* ===== verification/_CoqProject ===== *)
-Q . S2P
Prelude.v
Values.v
Codec.v
Checksum.v
Bloom.v
Wal.v
Sst.v
Store.v
Manifest.v
Mvcc.v
Engine.v
EngineReads.v
EngineWrites.v
Recovery.v
EngineFaults.v
Txn.v
Locks.v
Doubles.v
BufferPool.v
Eval.v
Session.v
Query.v
Sorting.v
Joins.v
Scans.v
Aggregates.v
Tables.v
Storage.v
Indexes.v
Dml.v
DmlTxn.v
DmlAuto.v
Control.v
Commit.v
Logical.v
Physical.v
Folding.v
Rewrites.v
Access.v
Optimizer.v
Lexer.v
Parser.v
ParserTotal.v
Printer.v
ParserRoundtrip.v
ParserQueries.v
ParserStatements.v
Crypto.v
Users.v
PlanCache.v
Subqueries.v
Processor.v
ProcessorSafety.v
Replication.v
Replica.v
Statistics.v
Selectivity.v
Protocol.v
Server.v
