(* ===== verification/Prelude.v ===== *)
(** * CoroDB: a verification development

    CoroDB is a relational database server in C++ ([src/include/corodb] and
    [src/src] of the repository; paths below leave [src/] and [corodb/] out).  A
    statement arrives as a line of text on a connection, is parsed, admitted,
    planned and executed; rows live in an LSM tree with versions, a write-ahead log
    and page-checked files; transactions read a snapshot and install their buffered
    writes at one commit timestamp; changes are shipped to read-only replicas.

    Bytes are Standard Library bytes; machine integers are [Z] with the wrap-around
    written out ([u8] ... [u64], [to_signed]); doubles are 64-bit IEEE patterns.  An
    exception is [Throw], undefined behaviour [UB], both values of [res]; stateful
    code is state passing in the monad [ST] of this file.  Threads, crashes and
    interleavings are step relations.  Hash maps whose order the program can show
    are lists, and theorems quantify over the order; other maps are [gmap].

    ** Files

    Storage.
    - [Prelude]: bytes, machine integers, little-endian codes, [res], [ST], hints.
    - [Values]: [common/types.h], the comparators of [storage/table.cpp].
    - [Codec], [Checksum], [Bloom], [Wal]: [storage/storage_engine_common.cpp]: values,
      rows, keys, schemas; FNV-1a and CRC-32C; the Bloom filter and the SSTable
      footer; log records, the writer, torn tails and the group commit.
    - [Sst], [Store], [Manifest], [Mvcc], [Engine]: [storage/lsm_storage_engine.cpp]:
      files byte for byte; the class [SstStore] with laws [SstLaws] through which the
      engine uses them, and its instances; the manifest and start-up reconciliation;
      version order, memtable, merge, collection of versions and the three read
      paths; the state and every operation of the engine.
    - [EngineReads], [EngineWrites], [Recovery], [EngineFaults]: theorems on the engine.
    - [BufferPool]: [storage/buffer_pool.cpp].
    - [Tables], [Storage], [Indexes]: [storage/table.cpp] over the storage interface of
      [storage/storage_engine_base.h], a class that the LSM engine instantiates.
    - [Statistics]: [storage/statistics.cpp], the statistics file.

    Transactions.
    - [Txn]: [txn/transaction_manager.cpp].  [Locks]: [txn/row_lock_manager.cpp] and
      [txn/lock_manager.cpp].  [Session]: [db/session.h].
    - [Control], [Commit]: [process/transaction_controller.cpp] and its theorems.

    Queries.
    - [Lexer], [Parser]: [sql/parser.cpp] with [ast/ast.h]; [ParserTotal], [Printer],
      [ParserRoundtrip], [ParserQueries], [ParserStatements]: termination and round
      trips.
    - [Doubles], [Eval]: [executor/expression_evaluator.cpp],
      [executor/bool_evaluator.cpp].
    - [Query], [Sorting], [Joins], [Scans], [Aggregates]: [executor/executor.cpp],
      reading plan nodes; [Dml], [DmlTxn], [DmlAuto]: its writing plan nodes.
    - [Logical], [Folding], [Rewrites]: [optimizer/logical]; [Physical], [Access]:
      [optimizer/physical]; [Optimizer]: the planning of a SELECT as a whole;
      [Selectivity]: [optimizer/stats/selectivity.cpp].
    - [PlanCache], [Subqueries], [Processor], [ProcessorSafety]:
      [process/query_processor.cpp].

    Server.
    - [Crypto]: [common/crypto.cpp].  [Users]: [UserManager] of [db/database.cpp].
    - [Replication], [Replica]: [replication/replication.cpp], and the engine as its
      source and target.
    - [Protocol]: [server/sql_protocol.h], the reading of an answer in
      [net/network.cpp] and [csql/main.cpp].  [Server]: [threading/connection.cpp],
      the line loop, rate limit and close callback of [server/server.cpp], worker
      threads and loop tasks.

    ** Theorems

    - Reads and writes of the engine: lookups and scans at a snapshot return the
      newest version at or below it, through memtable, cache and files
      ([EngineReads]); writes, flushes and compactions, as long as the files they
      write read back, change what readers see exactly as they should
      ([EngineWrites]); in the mode Durable a commit that does not flush survives a
      crash, and recovery brings back the committed records, or all where there is no
      commit log ([Recovery]); which files and log records read back, and that damage
      is noticed ([Sst], [Wal], [Checksum]).
    - Transactions: the manager keeps its invariant and the horizon protects running
      readers ([Txn]); row locks refine a map from rows to owners and table locks are
      obtained in the end ([Locks]); COMMIT is atomic, ROLLBACK and savepoints undo
      ([Commit]); a statement in a transaction does what it says or fails for a
      stated reason, and so does one outside, if it does not fail half-way through
      an UPDATE or DELETE ([DmlTxn], [DmlAuto]).
    - Executor: joins, sorting, limits, aggregates, scans and index scans against
      definitions over lists ([Joins], [Sorting], [Aggregates], [Scans], [Indexes]);
      predicates against three-valued logic ([Eval]).
    - Planner: folding, pushdown, pruning, reordering and access paths keep the rows
      of a query ([Folding], [Rewrites], [Access], [Optimizer]), under conditions on
      its predicates and values that the theorems state.
    - Parser: it always answers, and reads back every statement without DOUBLE
      literals that the printer writes.
    - Processor: a read-only session writes nothing of its own (its COMMIT may install
      what was buffered before the login), a replica takes no statement that writes,
      and a session without login changes nothing but its login ([ProcessorSafety]); correlated subqueries mean the joined predicate
      ([Subqueries]); the plan cache stays within its limit.
    - Server: the streaming SHA-256 is the digest of the padded message; a follower
      applies a prefix of what was broadcast, and a replica follows its primary; the
      client gets the table the server sent, however it is cut; with one worker
      thread a connection carries the answers of its statements in order.
    - Lemmas named [..._anomaly] evaluate executions in which the code does not do
      what its comments say.

    ** Fuel

    Recursion that is not structural has fuel that is proved or seen to be enough: the
    length of the input for the decoding loops of logs, files and digests; the number
    of tokens plus one for the parser ([ParserTotal]); the sum of the lengths for
    merges; twice the number of frames plus one for the clock; pattern and text for
    LIKE; sixteen rounds of the rule set and nine levels of subqueries, as in the
    code; sixty-four shifts for a logarithm; the number of bounds for the search in
    a histogram; the chain of prepared texts for EXECUTE, which may be infinite and
    for which theorems hold at any fuel.

    ** Not modelled

    - The cost model and the estimate of distinct values ([log2] and [pow] of the C
      library), and the random sampling of ANALYZE: plans are proved correct
      whatever the estimates are.
    - Sockets, TLS, polling, signals, admission and idle time-outs of connections:
      system calls.  What a system call returns is an argument where a model needs it.
    - Configuration files, logging, metrics, the audit log, the admin HTTP endpoint,
      rendering of tables and of EXPLAIN, the file copying of BACKUP: input and output
      without influence on the data.
    - The constructor of [Database], which wires the parts together and starts the
      checkpoint thread; the random salt of a password is an argument.
    - Data races: a step of a model is what the code does under one lock or in one
      thread; two workers running statements of one session at once is a data race in
      the code ([Server]).  The operations of the buffer pool run one after the other,
      but for one evaluated execution of a pin in two parts.  In [Server] the database
      changes through the statements of the one connection only.
    - Limits of the machine: the depth of the C++ stack (the parser recurses on its
      input), failures of allocation (the reserve of a top-N heap), sizes in memory
      and of files beyond [size_t], and names that the file system identifies. *)
From Stdlib Require Import ZArith Lia Strings.Byte.
From stdpp Require Import base numbers list gmap strings.
Local Open Scope Z_scope.

(** * Bytes *)

Abbreviation byte := Byte.byte.
Abbreviation bytes := (list Byte.byte).

(** The unsigned value of a byte, and the truncation of an integer to a byte
    (what a C++ conversion to [uint8_t] does). *)
Definition b2z (b : byte) : Z := Z.of_N (Byte.to_N b).

Definition z2b (z : Z) : byte :=
  match Byte.of_N (Z.to_N (z mod 256)) with Some b => b | None => Byte.x00 end.

Definition blen (bs : bytes) : Z := Z.of_nat (length bs).

(** The bytes of a string literal. *)
Definition str (s : string) : bytes := String.list_byte_of_string s.

Lemma b2z_range b : 0 <= b2z b < 256.
Proof. unfold b2z. pose proof (Byte.to_N_bounded b). lia. Qed.

Lemma b2z_z2b z : b2z (z2b z) = z mod 256.
Proof.
  unfold b2z, z2b. pose proof (Z.mod_pos_bound z 256 ltac:(lia)).
  destruct (Byte.of_N _) as [b|] eqn:E.
  - apply Byte.to_of_N in E. lia.
  - apply Byte.of_N_None_iff in E. lia.
Qed.

Lemma z2b_b2z b : z2b (b2z b) = b.
Proof.
  unfold z2b. rewrite Z.mod_small by apply b2z_range.
  unfold b2z. rewrite N2Z.id, Byte.of_to_N. reflexivity.
Qed.

Lemma b2z_inj a b : b2z a = b2z b -> a = b.
Proof. intros H. rewrite <- (z2b_b2z a), <- (z2b_b2z b), H. reflexivity. Qed.

#[export] Instance byte_eq_dec : EqDecision Byte.byte := Byte.byte_eq_dec.

#[export] Program Instance byte_countable : Countable Byte.byte :=
  inj_countable Byte.to_N Byte.of_N _.
Next Obligation. apply Byte.of_to_N. Qed.

(** * Fixed-width unsigned integers *)

(** Conversion of a mathematical integer to an unsigned [w]-bit integer, and the
    two's-complement reading of an unsigned [w]-bit integer. *)
Definition wrap (w z : Z) : Z := z mod 2 ^ w.
Definition to_signed (w u : Z) : Z := if u <? 2 ^ (w - 1) then u else u - 2 ^ w.

Abbreviation u8 := (wrap 8).
Abbreviation u16 := (wrap 16).
Abbreviation u32 := (wrap 32).
Abbreviation u64 := (wrap 64).
Definition UINT64_MAX : Z := 2 ^ 64 - 1.

Lemma wrap_small w z : 0 <= z < 2 ^ w -> wrap w z = z.
Proof. intros. unfold wrap. apply Z.mod_small. lia. Qed.

Lemma wrap_range w z : 0 <= w -> 0 <= wrap w z < 2 ^ w.
Proof. intros. unfold wrap. apply Z.mod_pos_bound, Z.pow_pos_nonneg; lia. Qed.

(** * Little-endian images of integers, as [memcpy] of a scalar gives them *)

Fixpoint le_enc (n : nat) (z : Z) : bytes :=
  match n with O => [] | S n => z2b z :: le_enc n (z / 256) end.

Fixpoint le_dec (bs : bytes) : Z :=
  match bs with [] => 0 | b :: bs => b2z b + 256 * le_dec bs end.

Lemma length_le_enc n z : length (le_enc n z) = n.
Proof. revert z. induction n; intros; cbn; auto. Qed.

Lemma le_dec_enc n z : le_dec (le_enc n z) = z mod 2 ^ (8 * Z.of_nat n).
Proof.
  revert z. induction n as [|n IH]; intros z.
  - cbn. symmetry. apply Z.mod_1_r.
  - cbn [le_enc le_dec]. rewrite IH, b2z_z2b.
    replace (8 * Z.of_nat (S n)) with (8 + 8 * Z.of_nat n) by lia.
    rewrite Z.pow_add_r by lia. change (2 ^ 8) with 256.
    rewrite Z.rem_mul_r; [reflexivity | lia |].
    apply Z.pow_pos_nonneg; lia.
Qed.

Lemma le_dec_range bs : 0 <= le_dec bs < 2 ^ (8 * blen bs).
Proof.
  induction bs as [|b bs IH]; cbn [le_dec].
  - split; [lia | reflexivity].
  - pose proof (b2z_range b). unfold blen in *. cbn [length].
    replace (8 * Z.of_nat (S (length bs))) with (8 + 8 * Z.of_nat (length bs)) by lia.
    rewrite Z.pow_add_r by lia. change (2 ^ 8) with 256.
    generalize dependent (2 ^ (8 * Z.of_nat (length bs))). intros p. lia.
Qed.

Lemma le_enc_dec bs : le_enc (length bs) (le_dec bs) = bs.
Proof.
  induction bs as [|b bs IH]; cbn [length le_enc le_dec]; [reflexivity|].
  pose proof (b2z_range b). f_equal.
  - apply b2z_inj. rewrite b2z_z2b.
    rewrite (Z.mul_comm 256), Z_mod_plus_full. apply Z.mod_small. lia.
  - replace ((b2z b + 256 * le_dec bs) / 256) with (le_dec bs); [exact IH|].
    rewrite Z.mul_comm, Z_div_plus by lia. rewrite Z.div_small by lia. lia.
Qed.

Lemma le_dec_u16 z : 0 <= z < 2 ^ 16 -> le_dec (le_enc 2 z) = z.
Proof. intros. rewrite le_dec_enc. apply Z.mod_small. exact H. Qed.
Lemma le_dec_u32 z : 0 <= z < 2 ^ 32 -> le_dec (le_enc 4 z) = z.
Proof. intros. rewrite le_dec_enc. apply Z.mod_small. exact H. Qed.
Lemma le_dec_u64 z : 0 <= z < 2 ^ 64 -> le_dec (le_enc 8 z) = z.
Proof. intros. rewrite le_dec_enc. apply Z.mod_small. exact H. Qed.

Lemma le_dec_s64 z :
  - 2 ^ 63 <= z < 2 ^ 63 -> to_signed 64 (le_dec (le_enc 8 z)) = z.
Proof.
  intros H. rewrite le_dec_enc. change (8 * Z.of_nat 8) with 64. unfold to_signed.
  destruct (Z.ltb_spec (z mod 2 ^ 64) (2 ^ (64 - 1))) as [E|E];
    change (2 ^ (64 - 1)) with 9223372036854775808 in E;
    change (2 ^ 63) with 9223372036854775808 in H;
    change (2 ^ 64) with 18446744073709551616 in *.
  - destruct (Z_lt_ge_dec z 0).
    + rewrite <- (Z_mod_plus_full z 1) in E. rewrite Z.mod_small in E by lia. lia.
    + rewrite Z.mod_small; lia.
  - destruct (Z_lt_ge_dec z 0).
    + rewrite <- (Z_mod_plus_full z 1). rewrite Z.mod_small; lia.
    + rewrite Z.mod_small in E; lia.
Qed.

(** * Outcomes of C++ code: a value, a thrown exception, or undefined behaviour *)

Inductive res (A : Type) : Type :=
| Ok (a : A)
| Throw (what : string)
| UB (what : string).
Arguments Ok {A} a.
Arguments Throw {A} what.
Arguments UB {A} what.

#[export] Instance res_ret : MRet res := fun A => @Ok A.
#[export] Instance res_bind : MBind res := fun A B f r =>
  match r with Ok a => f a | Throw e => Throw e | UB e => UB e end.
#[export] Instance res_fmap : FMap res := fun A B f r =>
  match r with Ok a => Ok (f a) | Throw e => Throw e | UB e => UB e end.

Definition is_ok {A} (r : res A) : bool := match r with Ok _ => true | _ => false end.

Lemma bind_Ok {A B} (f : A -> res B) r b :
  (r ≫= f) = Ok b -> exists a, r = Ok a /\ f a = Ok b.
Proof. destruct r; cbn; [eauto | discriminate | discriminate]. Qed.

(** * Stateful code that can fail

    A computation on a mutable object of type [S]: the object after it, and its
    outcome.  An exception keeps the changes made before it was thrown. *)
Definition ST (S A : Type) : Type := S -> S * res A.

#[export] Instance st_ret S : MRet (ST S) := fun A a s => (s, Ok a).
#[export] Instance st_bind S : MBind (ST S) := fun A B f m s =>
  match m s with
  | (s', Ok a) => f a s'
  | (s', Throw e) => (s', Throw e)
  | (s', UB e) => (s', UB e)
  end.

Definition gets {S A} (f : S -> A) : ST S A := fun s => (s, Ok (f s)).
Definition modify {S} (f : S -> S) : ST S unit := fun s => (f s, Ok tt).
Definition lift {S A} (r : res A) : ST S A := fun s => (s, r).
Definition throw {S A} (what : string) : ST S A := fun s => (s, Throw what).

Lemma st_bind_Ok {S A B} (m : ST S A) (f : A -> ST S B) s s' a :
  m s = (s', Ok a) -> (m ≫= f) s = f a s'.
Proof. intros H. unfold mbind, st_bind. by rewrite H. Qed.

(** * Input streams

    [std::istream] over a byte string.  A read of [n] bytes that finds fewer
    stores what is left, leaves the rest of the (zero-initialised) destination
    untouched and sets [failbit]; every later read then stores nothing. *)
(** Are there at least [n] bytes? (Stops after [n] of them.) *)
Fixpoint has_bytes (n : Z) (d : bytes) : bool :=
  if n <=? 0 then true else match d with [] => false | _ :: d => has_bytes (n - 1) d end.

Record istream := IStream { sdata : bytes; sok : bool }.

Definition sread (n : Z) (s : istream) : bytes * istream :=
  if sok s then
    if has_bytes n (sdata s)
    then (take (Z.to_nat n) (sdata s), IStream (drop (Z.to_nat n) (sdata s)) true)
    else (sdata s ++ replicate (Z.to_nat n - length (sdata s)) Byte.x00, IStream [] false)
  else (replicate (Z.to_nat n) Byte.x00, s).

(** A read whose result is only used when the stream is still good afterwards. *)
Definition sread_ok (n : Z) (s : istream) : option (bytes * istream) :=
  if sok s && has_bytes n (sdata s)
  then Some (take (Z.to_nat n) (sdata s), IStream (drop (Z.to_nat n) (sdata s)) true)
  else None.

(** Reading a scalar of [n] bytes. *)
Definition sread_uint (n : Z) (s : istream) : Z * istream :=
  let '(bs, s) := sread n s in (le_dec bs, s).

(** [is.peek() == EOF]. *)
Definition s_eof (s : istream) : bool :=
  negb (sok s) || match sdata s with [] => true | _ => false end.

Lemma blen_app (a b : bytes) : blen (a ++ b) = blen a + blen b.
Proof. unfold blen. rewrite length_app. lia. Qed.

Lemma blen_nonneg (a : bytes) : 0 <= blen a.
Proof. unfold blen. lia. Qed.

Lemma blen_le_enc n z : blen (le_enc n z) = Z.of_nat n.
Proof. unfold blen. rewrite length_le_enc. reflexivity. Qed.

Lemma to_nat_blen (a : bytes) : Z.to_nat (blen a) = length a.
Proof. unfold blen. lia. Qed.

Lemma has_bytes_spec n d : has_bytes n d = (n <=? blen d).
Proof.
  revert n. induction d as [|b d IH]; intros n; cbn [has_bytes].
  - change (blen []) with 0. by destruct (n <=? 0).
  - rewrite IH. unfold blen. cbn [length].
    destruct (Z.leb_spec n 0), (Z.leb_spec (n - 1) (Z.of_nat (length d))),
      (Z.leb_spec n (Z.of_nat (S (length d)))); lia || done.
Qed.

Lemma sread_app bs rest n :
  n = blen bs -> sread n (IStream (bs ++ rest) true) = (bs, IStream rest true).
Proof.
  intros ->. unfold sread. cbn [sok sdata]. rewrite has_bytes_spec, blen_app.
  destruct (Z.leb_spec (blen bs) (blen bs + blen rest)) as [_|E];
    [|pose proof (blen_nonneg rest); lia].
  rewrite to_nat_blen, take_app_length, drop_app_length. reflexivity.
Qed.

Lemma sread_ok_app bs rest n :
  n = blen bs -> sread_ok n (IStream (bs ++ rest) true) = Some (bs, IStream rest true).
Proof.
  intros ->. unfold sread_ok. cbn [sok sdata andb]. rewrite has_bytes_spec, blen_app.
  destruct (Z.leb_spec (blen bs) (blen bs + blen rest)) as [_|E];
    [|pose proof (blen_nonneg rest); lia].
  rewrite to_nat_blen, take_app_length, drop_app_length. reflexivity.
Qed.

Lemma sread_uint_app n z rest :
  sread_uint (Z.of_nat n) (IStream (le_enc n z ++ rest) true) =
  (z mod 2 ^ (8 * Z.of_nat n), IStream rest true).
Proof.
  unfold sread_uint. rewrite sread_app by (symmetry; apply blen_le_enc).
  rewrite le_dec_enc. reflexivity.
Qed.

Lemma sread_u8_app z rest :
  sread_uint 1 (IStream (z2b z :: rest) true) = (z mod 256, IStream rest true).
Proof.
  change (z2b z :: rest) with (le_enc 1 z ++ rest). apply (sread_uint_app 1).
Qed.
Lemma sread_u16_app z rest :
  sread_uint 2 (IStream (le_enc 2 z ++ rest) true) = (z mod 2 ^ 16, IStream rest true).
Proof. apply (sread_uint_app 2). Qed.
Lemma sread_u32_app z rest :
  sread_uint 4 (IStream (le_enc 4 z ++ rest) true) = (z mod 2 ^ 32, IStream rest true).
Proof. apply (sread_uint_app 4). Qed.
Lemma sread_u64_app z rest :
  sread_uint 8 (IStream (le_enc 8 z ++ rest) true) = (z mod 2 ^ 64, IStream rest true).
Proof. apply (sread_uint_app 8). Qed.

(** * Automation *)

Create HintDb corodb.
Create Rewrite HintDb corodb.
Create Rewrite HintDb stream.
#[export] Hint Resolve blen_nonneg b2z_range : corodb.
#[export] Hint Rewrite blen_app blen_le_enc length_le_enc b2z_z2b z2b_b2z : corodb.
#[export] Hint Rewrite sread_u8_app sread_u16_app sread_u32_app sread_u64_app : stream.

(** Case split on the boolean tests and matches of the goal, simplifying as it goes. *)
Ltac crush_if :=
  repeat (case_match; simplify_eq/=); try done; try lia.

(** Turn boolean hypotheses into propositions. *)
Ltac to_prop :=
  repeat match goal with
  | H : _ && _ = true |- _ => apply andb_prop in H as [? ?]
  | H : _ && _ = false |- _ => apply andb_false_iff in H
  | H : _ || _ = true |- _ => apply orb_true_iff in H
  | H : _ || _ = false |- _ => apply orb_false_iff in H as [? ?]
  | H : negb _ = true |- _ => apply negb_true_iff in H
  | H : negb _ = false |- _ => apply negb_false_iff in H
  | H : (_ <? _) = true |- _ => apply Z.ltb_lt in H
  | H : (_ <? _) = false |- _ => apply Z.ltb_ge in H
  | H : (_ <=? _) = true |- _ => apply Z.leb_le in H
  | H : (_ <=? _) = false |- _ => apply Z.leb_gt in H
  | H : (_ =? _) = true |- _ => apply Z.eqb_eq in H
  | H : (_ =? _) = false |- _ => apply Z.eqb_neq in H
  end.

Lemma Forall_sublist {A : Type} (P : A -> Prop) (a b : list A) : sublist a b -> Forall P b -> Forall P a.
Proof.
  induction 1 as [|x l1 l2 S IH|x l1 l2 S IH]; intros F; [done|..];
    apply Forall_cons in F as [? ?]; auto.
Qed.

Lemma filter_none {A} (f : A -> bool) (l : list A) : (forall x, x ∈ l -> f x = false) -> List.filter f l = [].
Proof.
  induction l as [|x l IH]; intros H; [done|]. cbn. rewrite (H x) by (by left).
  apply IH. intros y Hy. apply H. by right.
Qed.

Lemma filter_every {A} (f : A -> bool) (l : list A) : (forall x, x ∈ l -> f x = true) -> List.filter f l = l.
Proof.
  induction l as [|x l IH]; intros H; [done|]. cbn. rewrite (H x) by (by left).
  rewrite IH; [done|]. intros y Hy. apply H. by right.
Qed.

Lemma existsb_none {A} (f : A -> bool) (l : list A) : (forall x, x ∈ l -> f x = false) -> existsb f l = false.
Proof.
  induction l as [|x l IH]; intros H; [done|]. cbn. rewrite (H x) by (by left).
  apply IH. intros y Hy. apply H. by right.
Qed.

Lemma existsb_elem {A} (f : A -> bool) (l : list A) x : x ∈ l -> f x = true -> existsb f l = true.
Proof. intros Hx Hf. apply existsb_exists. exists x. split; [by apply list_elem_of_In|done]. Qed.
