(* ===== verification/Values.v ===== *)
(** Values, rows and columns: [include/corodb/common/types.h],
    [src/common/types.cpp], the comparators of [src/storage/table.cpp] and the
    data types of [include/corodb/storage/table.h].

    A [double] is carried as its IEEE 754 binary64 bit pattern, so that the
    codecs are exact; [dbl_lt] and [dbl_eq] are the C++ comparisons on patterns. *)
From Stdlib Require Import ZArith Lia Sorted Strings.Byte.
From stdpp Require Import base numbers list gmap strings.
From S2P Require Import Prelude.
Local Open Scope Z_scope.

(** * Types *)

Inductive SqlBool := SqlTrue | SqlFalse | SqlUnknown.

Inductive TypeKind := Int64 | Text | Null | Float64 | Boolean | Date | Decimal.

#[export] Instance SqlBool_eq_dec : EqDecision SqlBool.
Proof. solve_decision. Defined.
#[export] Instance TypeKind_eq_dec : EqDecision TypeKind.
Proof. solve_decision. Defined.

(** [std::variant<NullValue, int64_t, double, std::string>]. *)
Inductive Value :=
| VNull
| VInt (n : Z)
| VDouble (bits : Z)
| VText (s : bytes).

#[export] Instance Value_eq_dec : EqDecision Value.
Proof. solve_decision. Defined.

Definition is_null (v : Value) : bool := match v with VNull => true | _ => false end.

Definition type_name (k : TypeKind) : string :=
  match k with
  | Int64 => "int64" | Text => "text" | Float64 => "float64" | Null => "null"
  | Boolean => "boolean" | Date => "date" | Decimal => "decimal"
  end.

Definition value_type (v : Value) : TypeKind :=
  match v with VNull => Null | VInt _ => Int64 | VDouble _ => Float64 | VText _ => Text end.

(** [std::variant::index]. *)
Definition vindex (v : Value) : Z :=
  match v with VNull => 0 | VInt _ => 1 | VDouble _ => 2 | VText _ => 3 end.

(** * IEEE 754 comparison of binary64 bit patterns *)

Definition dbl_is_nan (b : Z) : bool := 2047 * 2 ^ 52 <? b mod 2 ^ 63.

(** The position of a pattern on the number line: sign and magnitude. *)
Definition dbl_key (b : Z) : Z := if b <? 2 ^ 63 then b else 2 ^ 63 - b.

Definition dbl_lt (a b : Z) : bool :=
  negb (dbl_is_nan a) && negb (dbl_is_nan b) && (dbl_key a <? dbl_key b).
Definition dbl_eq (a b : Z) : bool :=
  negb (dbl_is_nan a) && negb (dbl_is_nan b) && (dbl_key a =? dbl_key b).

(** * Lexicographic order on byte strings ([std::string::operator<]) *)

Fixpoint bytes_lt (a b : bytes) : bool :=
  match a, b with
  | _, [] => false
  | [], _ :: _ => true
  | x :: a, y :: b => if b2z x <? b2z y then true else if b2z y <? b2z x then false else bytes_lt a b
  end.

Definition bytes_eq (a b : bytes) : bool := bool_decide (a = b).

(** * [ValueEq] and [ValueLess] *)

Definition ValueEq (a b : Value) : bool :=
  match a, b with
  | VNull, VNull => true
  | VInt x, VInt y => x =? y
  | VDouble x, VDouble y => dbl_eq x y
  | VText x, VText y => bytes_eq x y
  | _, _ => false
  end.

Definition ValueLess (a b : Value) : bool :=
  if negb (vindex a =? vindex b) then vindex a <? vindex b
  else match a, b with
       | VInt x, VInt y => x <? y
       | VDouble x, VDouble y => dbl_lt x y
       | VText x, VText y => bytes_lt x y
       | _, _ => false
       end.

(** * Rows and columns *)

Record Row := mkRow { values : list Value }.

Record Column := mkColumn {
  col_table : bytes;
  col_name : bytes;
  col_type : TypeKind;
  column_oid : Z;
  table_oid : Z;
  not_null : bool;
  primary_key : bool
}.

Definition qualified_name (c : Column) : bytes :=
  if decide (col_table c = []) then col_name c
  else col_table c ++ Byte.x2e :: col_name c.

#[export] Instance Row_eq_dec : EqDecision Row.
Proof. solve_decision. Defined.
#[export] Instance Column_eq_dec : EqDecision Column.
Proof. solve_decision. Defined.

(** * Well-formed values and keys *)

(** What a C++ [Value] can hold, and what its 4-byte length field can carry. *)
Definition value_wf (v : Value) : Prop :=
  match v with
  | VNull => True
  | VInt n => - 2 ^ 63 <= n < 2 ^ 63
  | VDouble b => 0 <= b < 2 ^ 64
  | VText s => blen s < 2 ^ 32
  end.

Definition row_wf (r : Row) : Prop := Forall value_wf (values r).

#[export] Instance value_wf_dec v : Decision (value_wf v).
Proof. destruct v; cbn; apply _. Defined.
#[export] Instance row_wf_dec r : Decision (row_wf r).
Proof. apply _. Defined.

(** Keys on which [ValueEq] is equality and [ValueLess] a strict total order:
    a [double] key is neither NaN nor the negative zero. *)
Definition key_ok (v : Value) : Prop :=
  match v with
  | VDouble b => 0 <= b < 2 ^ 64 /\ dbl_is_nan b = false /\ b <> 2 ^ 63
  | _ => True
  end.

#[export] Instance key_ok_dec v : Decision (key_ok v).
Proof. destruct v; cbn; apply _. Defined.

(** * Order lemmas *)

Lemma dbl_key_inj a b :
  0 <= a < 2 ^ 64 -> 0 <= b < 2 ^ 64 -> a <> 2 ^ 63 -> b <> 2 ^ 63 ->
  dbl_key a = dbl_key b -> a = b.
Proof.
  unfold dbl_key. intros. destruct (Z.ltb_spec a (2 ^ 63)), (Z.ltb_spec b (2 ^ 63)); lia.
Qed.

Lemma bytes_lt_irrefl a : bytes_lt a a = false.
Proof. induction a as [|x a IH]; cbn; [done|]. rewrite Z.ltb_irrefl. exact IH. Qed.

Lemma bytes_lt_trans a b c :
  bytes_lt a b = true -> bytes_lt b c = true -> bytes_lt a c = true.
Proof.
  revert b c. induction a as [|x a IH]; intros [|y b] [|z c]; cbn; try done.
  repeat match goal with |- context [?u <? ?v] => destruct (Z.ltb_spec u v) end;
    try done; try lia; eauto.
Qed.

Lemma bytes_lt_total a b : a = b \/ bytes_lt a b = true \/ bytes_lt b a = true.
Proof.
  revert b. induction a as [|x a IH]; intros [|y b]; cbn; auto.
  repeat match goal with |- context [?u <? ?v] => destruct (Z.ltb_spec u v) end; auto.
  assert (x = y) as -> by (apply b2z_inj; lia).
  destruct (IH b) as [->|[?|?]]; auto.
Qed.

Lemma ValueLess_irrefl a : ValueLess a a = false.
Proof.
  unfold ValueLess. rewrite Z.eqb_refl. cbn. destruct a; auto using bytes_lt_irrefl.
  - apply Z.ltb_irrefl.
  - unfold dbl_lt. rewrite Z.ltb_irrefl, andb_false_r. reflexivity.
Qed.

Lemma ValueLess_trans a b c :
  ValueLess a b = true -> ValueLess b c = true -> ValueLess a c = true.
Proof.
  unfold ValueLess, dbl_lt. destruct a, b, c; cbn; try done; intros; to_prop.
  - apply Z.ltb_lt. lia.
  - apply andb_true_intro. split; [apply andb_true_intro; split; by apply negb_true_iff|].
    apply Z.ltb_lt. lia.
  - eauto using bytes_lt_trans.
Qed.

Lemma ValueLess_total a b :
  key_ok a -> key_ok b -> a = b \/ ValueLess a b = true \/ ValueLess b a = true.
Proof.
  unfold ValueLess. destruct a as [|x|x|x], b as [|y|y|y]; cbn; auto.
  - intros _ _. destruct (Z.lt_total x y) as [?|[->|?]]; auto;
      [right; left | right; right]; apply Z.ltb_lt; lia.
  - intros (Hx & Nx & Zx) (Hy & Ny & Zy). unfold dbl_lt. rewrite Nx, Ny. cbn.
    destruct (Z.lt_total (dbl_key x) (dbl_key y)) as [?|[?|?]].
    + right; left. apply Z.ltb_lt. lia.
    + left. f_equal. by apply dbl_key_inj.
    + right; right. apply Z.ltb_lt. lia.
  - intros _ _. destruct (bytes_lt_total x y) as [->|[?|?]]; auto.
Qed.

Lemma ValueEq_eq a b : key_ok a -> key_ok b -> (ValueEq a b = true <-> a = b).
Proof.
  destruct a as [|x|x|x], b as [|y|y|y]; cbn; try (split; done).
  - intros _ _. rewrite Z.eqb_eq. split; congruence.
  - intros (Hx & Nx & Zx) (Hy & Ny & Zy). unfold dbl_eq. rewrite Nx, Ny. cbn.
    rewrite Z.eqb_eq. split; [|congruence]. intros. f_equal. by apply dbl_key_inj.
  - intros _ _. unfold bytes_eq. rewrite bool_decide_eq_true. split; congruence.
Qed.

Lemma ValueEq_refl a : key_ok a -> ValueEq a a = true.
Proof. intros. by apply ValueEq_eq. Qed.

Lemma ValueLess_asym a b : ValueLess a b = true -> ValueLess b a = false.
Proof.
  intros H. destruct (ValueLess b a) eqn:E; [|done].
  rewrite <- (ValueLess_irrefl a). symmetry. eauto using ValueLess_trans.
Qed.

Lemma ValueEq_ne a b : key_ok a -> key_ok b -> ValueEq a b = false -> a <> b.
Proof. intros Ha Hb H ->. by rewrite ValueEq_refl in H. Qed.

(** Without the key condition the comparators disagree with equality: the two
    zeroes are equal for [ValueEq] and NaN is not equal to itself. *)
Lemma ValueEq_zeroes : ValueEq (VDouble 0) (VDouble (2 ^ 63)) = true.
Proof. reflexivity. Qed.
Lemma ValueEq_nan : ValueEq (VDouble (2 ^ 63 - 1)) (VDouble (2 ^ 63 - 1)) = false.
Proof. reflexivity. Qed.

#[export] Hint Resolve ValueLess_irrefl ValueEq_refl ValueLess_asym : corodb.
