(* ===== verification/Codec.v ===== *)
(** The binary formats of [src/storage/storage_engine_common.cpp]: wire types,
    schemas, values, rows, keys and index files, with their round trips. *)
From Stdlib Require Import ZArith Lia Strings.Byte.
From stdpp Require Import base numbers list gmap strings.
From S2P Require Import Prelude Values.
Local Open Scope Z_scope.

(** * Wire types *)

Definition type_to_wire (t : TypeKind) : Z :=
  match t with
  | Int64 => 1 | Text => 2 | Null => 0 | Float64 => 3 | Boolean => 4 | Date => 5 | Decimal => 6
  end.

Definition wire_to_type (w : Z) : TypeKind :=
  if w =? 1 then Int64 else if w =? 2 then Text else if w =? 3 then Float64
  else if w =? 4 then Boolean else if w =? 5 then Date else if w =? 6 then Decimal
  else Null.

(** * Values *)

Definition write_value (v : Value) : bytes :=
  match v with
  | VNull => [z2b 0]
  | VInt n => z2b 1 :: le_enc 8 n
  | VDouble b => z2b 3 :: le_enc 8 b
  | VText s => z2b 2 :: le_enc 4 (u32 (blen s)) ++ s
  end.

Definition read_value (s : istream) : res (Value * istream) :=
  let '(tag, s) := sread_uint 1 s in
  if tag =? 0 then Ok (VNull, s)
  else if tag =? 1 then
    let '(u, s) := sread_uint 8 s in Ok (VInt (to_signed 64 u), s)
  else if tag =? 2 then
    let '(len, s) := sread_uint 4 s in
    let '(str, s) := sread len s in Ok (VText str, s)
  else if tag =? 3 then
    let '(u, s) := sread_uint 8 s in Ok (VDouble u, s)
  else Throw "Unknown value tag while reading table".

(** * Schemas *)

Definition schema_type_byte (c : Column) : Z :=
  let t := type_to_wire (col_type c) in
  let t := if not_null c then Z.lor t 64 else t in
  if primary_key c then Z.lor t 128 else t.

Definition serialize_column (c : Column) : bytes :=
  le_enc 2 (u16 (blen (col_name c))) ++ col_name c ++ [z2b (schema_type_byte c)].

Definition serialize_schema (columns : list Column) : bytes :=
  le_enc 4 (u32 (Z.of_nat (length columns))) ++ concat (map serialize_column columns).

Definition column_of_wire (table_name name : bytes) (t : Z) : Column :=
  mkColumn table_name name (wire_to_type (Z.land t 63)) 0 0
    (negb (Z.land t 64 =? 0)) (negb (Z.land t 128 =? 0)).

Definition deserialize_column (table_name : bytes) (s : istream) : Column * istream :=
  let '(name_len, s) := sread_uint 2 s in
  let '(name, s) := sread name_len s in
  let '(t, s) := sread_uint 1 s in
  (column_of_wire table_name name t, s).

Fixpoint deserialize_columns (n : nat) (table_name : bytes) (s : istream)
    : list Column * istream :=
  match n with
  | O => ([], s)
  | S n => let '(c, s) := deserialize_column table_name s in
           let '(cs, s) := deserialize_columns n table_name s in (c :: cs, s)
  end.

Definition deserialize_schema (s : istream) (table_name : bytes) : res (list Column) :=
  let '(col_count, s) := sread_uint 4 s in
  if negb (sok s) then Throw "Failed to read schema"
  else Ok (deserialize_columns (Z.to_nat col_count) table_name s).1.

(** * Rows *)

Definition encode_row (row : Row) : bytes :=
  le_enc 4 (u32 (Z.of_nat (length (values row)))) ++ concat (map write_value (values row)).

Fixpoint read_values (n : nat) (s : istream) : res (list Value * istream) :=
  match n with
  | O => Ok ([], s)
  | S n => '(v, s) ← read_value s; '(vs, s) ← read_values n s; Ok (v :: vs, s)
  end.

Definition decode_row (rec : bytes) (columns : list Column) : res Row :=
  let '(value_count, s) := sread_uint 4 (IStream rec true) in
  if negb (value_count =? Z.of_nat (length columns))
  then Throw "Row width mismatch while decoding WAL"
  else '(vs, _) ← read_values (length columns) s; Ok (mkRow vs).

Definition write_len_prefixed_row (row : Row) : bytes :=
  le_enc 4 (u32 (blen (encode_row row))) ++ encode_row row.

Definition read_len_prefixed_row (s : istream) (columns : list Column) : res (Row * istream) :=
  let '(len, s) := sread_uint 4 s in
  if negb (sok s) then Throw "Failed to read record length"
  else match sread_ok len s with
       | None => Throw "Failed to read record payload"
       | Some (rec, s) => r ← decode_row rec columns; Ok (r, s)
       end.

(** * Keys *)

Definition encode_key (key : Value) : bytes := write_value key.

Definition decode_key (bs : bytes) : res Value :=
  '(v, _) ← read_value (IStream bs true); Ok v.

Definition extract_int_key (row : Row) : Z :=
  match values row with VInt n :: _ => n | _ => 0 end.

Definition extract_key1 (row : Row) : Value :=
  match values row with [] => VNull | v :: _ => v end.

Definition pk_count (columns : list Column) : nat :=
  length (filter (fun c => primary_key c = true) columns).

Fixpoint composite_from (i : nat) (columns : list Column) (row : Row) : bytes :=
  match columns with
  | [] => []
  | c :: cs =>
      (if primary_key c then encode_key (default VNull (values row !! i)) else [])
      ++ composite_from (S i) cs row
  end.

Definition extract_key (row : Row) (columns : list Column) : Value :=
  if (pk_count columns <? 2)%nat then extract_key1 row
  else VText (composite_from 0 columns row).

(** * Index files

    A file is [None] when it does not exist. *)

Definition kIndexMagic : Z := 0x53494458.

Definition write_index_entry (e : Value * Value) : bytes :=
  write_value e.1 ++ write_value e.2.

Definition index_chunk (entries : list (Value * Value)) : bytes :=
  le_enc 4 kIndexMagic ++ le_enc 4 (u32 (Z.of_nat (length entries)))
  ++ concat (map write_index_entry entries).

(** An empty batch truncates the file, any other batch appends a chunk. *)
Definition write_index_file (file : option bytes) (entries : list (Value * Value)) : bytes :=
  match entries with
  | [] => index_chunk []
  | _ => default [] file ++ index_chunk entries
  end.

(** The inner loop of [read_index_file]: [count] entries, stopping on a failed read. *)
Fixpoint read_index_entries (fuel : nat) (count : Z) (s : istream)
    : res (list (Value * Value) * istream) :=
  if count <=? 0 then Ok ([], s)
  else match fuel with
  | O => Ok ([], s)
  | S fuel =>
      '(v, s) ← read_value s;
      if negb (sok s) then Ok ([], s) else
      '(pk, s) ← read_value s;
      if negb (sok s) then Ok ([], s) else
      '(es, s) ← read_index_entries fuel (count - 1) s;
      Ok ((v, pk) :: es, s)
  end.

Fixpoint read_index_chunks (fuel : nat) (s : istream) : res (list (Value * Value)) :=
  match fuel with
  | O => Ok []
  | S fuel =>
      if s_eof s then Ok [] else
      let '(magic, s) := sread_uint 4 s in
      let '(count, s) := sread_uint 4 s in
      if negb (sok s) || negb (magic =? kIndexMagic) then Ok []
      else '(es, s) ← read_index_entries (S (length (sdata s))) count s;
           rest ← read_index_chunks fuel s;
           Ok (es ++ rest)
  end.

Definition read_index_file (file : option bytes) : res (list (Value * Value)) :=
  match file with
  | None => Ok []
  | Some data => read_index_chunks (S (length data)) (IStream data true)
  end.

Definition compact_index_file (file : option bytes) : res bytes :=
  entries ← read_index_file file; Ok (index_chunk entries).

(** * Round trips *)

Lemma wire_type_roundtrip t : wire_to_type (type_to_wire t) = t.
Proof. by destruct t. Qed.

Lemma u32_blen s : blen s < 2 ^ 32 -> u32 (blen s) mod 2 ^ 32 = blen s.
Proof. intros. pose proof (blen_nonneg s). rewrite wrap_small, Z.mod_small; lia. Qed.

Lemma read_value_app v rest :
  value_wf v -> read_value (IStream (write_value v ++ rest) true) = Ok (v, IStream rest true).
Proof.
  intros Hv. unfold read_value. destruct v as [|n|b|s]; cbn [write_value app].
  - by rewrite sread_u8_app.
  - rewrite sread_u8_app. cbn -[le_enc to_signed sread_uint]. rewrite sread_u64_app.
    do 2 f_equal. pose proof (le_dec_s64 n Hv) as E. rewrite le_dec_enc in E. exact (f_equal _ E).
  - rewrite sread_u8_app. cbn -[le_enc sread_uint]. rewrite sread_u64_app.
    do 2 f_equal. rewrite Z.mod_small; [done | exact Hv].
  - rewrite sread_u8_app. cbn -[le_enc sread_uint sread]. rewrite <- app_assoc, sread_u32_app.
    rewrite sread_app; [done|]. by apply u32_blen.
Qed.

Lemma read_values_app vs rest :
  Forall value_wf vs ->
  read_values (length vs) (IStream (concat (map write_value vs) ++ rest) true)
  = Ok (vs, IStream rest true).
Proof.
  induction 1 as [|v vs Hv _ IH]; [done|].
  cbn [length read_values map concat]. rewrite <- app_assoc, read_value_app by done.
  cbn. by rewrite IH.
Qed.

Lemma decode_encode_row r columns rest :
  row_wf r -> length (values r) = length columns -> Z.of_nat (length columns) < 2 ^ 32 ->
  decode_row (encode_row r ++ rest) columns = Ok r.
Proof.
  intros Hr Hl Hw. unfold decode_row, encode_row.
  rewrite <- app_assoc, sread_u32_app, Hl, wrap_small, Z.mod_small by lia.
  rewrite Z.eqb_refl. cbn [negb]. rewrite <- Hl, read_values_app by done.
  cbn. by destruct r.
Qed.

Lemma decode_encode_key v rest : value_wf v -> decode_key (encode_key v ++ rest) = Ok v.
Proof. intros. unfold decode_key, encode_key. by rewrite read_value_app. Qed.

(** A value's image is self-delimiting: no image is a proper prefix of another. *)
Lemma write_value_prefix_free a b x y :
  value_wf a -> value_wf b -> write_value a ++ x = write_value b ++ y -> a = b /\ x = y.
Proof.
  intros Ha Hb E. pose proof (read_value_app a x Ha) as R.
  rewrite E, read_value_app in R by done. by simplify_eq.
Qed.

(** ** Composite keys *)

(** The primary-key cells of a row, in column order (a missing cell is NULL). *)
Fixpoint pk_cells (i : nat) (columns : list Column) (row : Row) : list Value :=
  match columns with
  | [] => []
  | c :: cs => (if primary_key c then [default VNull (values row !! i)] else [])
               ++ pk_cells (S i) cs row
  end.

Lemma composite_pk_cells i cols r :
  composite_from i cols r = concat (map write_value (pk_cells i cols r)).
Proof.
  revert i. induction cols as [|c cols IH]; intros i; [done|].
  cbn [composite_from pk_cells]. rewrite map_app, concat_app, IH.
  destruct (primary_key c); cbn; [|done]. by rewrite app_nil_r.
Qed.

Lemma length_pk_cells i cols r r' :
  length (pk_cells i cols r) = length (pk_cells i cols r').
Proof.
  revert i. induction cols as [|c cols IH]; intros i; [done|].
  cbn. rewrite !length_app, (IH (S i)). by destruct (primary_key c).
Qed.

Lemma pk_cells_wf i cols r : row_wf r -> Forall value_wf (pk_cells i cols r).
Proof.
  intros Hr. revert i. induction cols as [|c cols IH]; intros i; cbn; [constructor|].
  apply Forall_app. split; [|apply IH]. destruct (primary_key c); [|constructor].
  constructor; [|constructor]. destruct (values r !! i) as [v|] eqn:E; cbn; [|done].
  by eapply Forall_lookup_1.
Qed.

Lemma concat_write_inj vs ws :
  Forall value_wf vs -> Forall value_wf ws -> length vs = length ws ->
  concat (map write_value vs) = concat (map write_value ws) -> vs = ws.
Proof.
  intros Hv. revert ws. induction Hv as [|v vs Hv _ IH]; intros [|w ws] Hw Hl E;
    [done|done|done|].
  inversion Hw; subst. cbn in E, Hl.
  apply write_value_prefix_free in E as [-> E]; [|done|done].
  f_equal. apply IH; [done|lia|done].
Qed.

(** ** Schemas *)

(** What a column keeps on disk: the table name comes from the file, oids are not stored. *)
Definition persisted_column (table_name : bytes) (c : Column) : Column :=
  mkColumn table_name (col_name c) (col_type c) 0 0 (not_null c) (primary_key c).

Lemma column_of_wire_byte table_name name c :
  column_of_wire table_name name (schema_type_byte c mod 256) =
  mkColumn table_name name (col_type c) 0 0 (not_null c) (primary_key c).
Proof. destruct c as [tb nm [] o1 o2 [] []]; reflexivity. Qed.

Lemma deserialize_column_app table_name c rest :
  blen (col_name c) < 2 ^ 16 ->
  deserialize_column table_name (IStream (serialize_column c ++ rest) true)
  = (persisted_column table_name c, IStream rest true).
Proof.
  intros Hn. pose proof (blen_nonneg (col_name c)).
  unfold deserialize_column, serialize_column.
  rewrite <- !app_assoc, sread_u16_app, wrap_small, Z.mod_small by lia.
  rewrite sread_app by done. cbn [app]. rewrite sread_u8_app.
  by rewrite column_of_wire_byte.
Qed.

Lemma deserialize_columns_app table_name cols rest :
  Forall (fun c => blen (col_name c) < 2 ^ 16) cols ->
  deserialize_columns (length cols) table_name
    (IStream (concat (map serialize_column cols) ++ rest) true)
  = (map (persisted_column table_name) cols, IStream rest true).
Proof.
  induction 1 as [|c cols Hc _ IH]; [done|].
  cbn [length deserialize_columns map concat]. rewrite <- app_assoc.
  rewrite deserialize_column_app by done. by rewrite IH.
Qed.

(** ** Index files *)

Definition entry_wf (e : Value * Value) : Prop := value_wf e.1 /\ value_wf e.2.

Lemma write_value_nonempty v : (1 <= length (write_value v))%nat.
Proof. destruct v; cbn; lia. Qed.

Lemma read_index_entries_app fuel es rest :
  Forall entry_wf es -> (length es <= fuel)%nat ->
  read_index_entries fuel (Z.of_nat (length es))
    (IStream (concat (map write_index_entry es) ++ rest) true) = Ok (es, IStream rest true).
Proof.
  intros Hes. revert fuel. induction Hes as [|e es [H1 H2] _ IH]; intros fuel Hf.
  { by destruct fuel. }
  destruct fuel as [|fuel]; [cbn in Hf; lia|].
  cbn [length map concat read_index_entries].
  destruct (Z.leb_spec (Z.of_nat (S (length es))) 0); [lia|].
  unfold write_index_entry at 1. rewrite <- !app_assoc.
  rewrite read_value_app by done. cbn -[read_value read_index_entries write_value].
  rewrite read_value_app by done. cbn -[read_value read_index_entries write_value].
  replace (Z.of_nat (S (length es)) - 1) with (Z.of_nat (length es)) by lia.
  rewrite IH by (cbn in Hf; lia). cbn. by destruct e.
Qed.

Lemma length_index_entries es :
  (length es <= length (concat (map write_index_entry es)))%nat.
Proof.
  induction es as [|e es IH]; cbn [map concat length]; [lia|]. unfold write_index_entry at 1.
  rewrite !length_app. pose proof (write_value_nonempty e.1). lia.
Qed.

Lemma read_index_chunks_app fuel es rest :
  Forall entry_wf es -> Z.of_nat (length es) < 2 ^ 32 ->
  read_index_chunks (S fuel) (IStream (index_chunk es ++ rest) true)
  = (tl ← read_index_chunks fuel (IStream rest true); Ok (es ++ tl)).
Proof.
  intros Hes Hn. cbn [read_index_chunks]. unfold index_chunk.
  assert (s_eof (IStream ((le_enc 4 kIndexMagic ++ le_enc 4 (u32 (Z.of_nat (length es))) ++
     concat (map write_index_entry es)) ++ rest) true) = false) as -> by done.
  rewrite <- !app_assoc, !sread_u32_app. cbn [sok negb orb].
  rewrite (Z.mod_small kIndexMagic) by (vm_compute; split; congruence).
  rewrite Z.eqb_refl. cbn [negb]. rewrite wrap_small, Z.mod_small by lia.
  rewrite read_index_entries_app; [done|done|].
  cbn [sdata]. rewrite length_app. pose proof (length_index_entries es). lia.
Qed.

(** Chunks written one after the other. *)
Definition index_image (batches : list (list (Value * Value))) : bytes :=
  concat (map index_chunk batches).

Lemma length_index_image bs : (length bs <= length (index_image bs))%nat.
Proof.
  unfold index_image. induction bs as [|b bs IH]; cbn [map concat length]; [lia|].
  rewrite length_app. unfold index_chunk at 1. rewrite length_app, length_le_enc. lia.
Qed.

Lemma read_index_image batches fuel :
  Forall (fun b => Forall entry_wf b /\ Z.of_nat (length b) < 2 ^ 32) batches ->
  (length batches < fuel)%nat ->
  read_index_chunks fuel (IStream (index_image batches) true) = Ok (concat batches).
Proof.
  intros H. revert fuel. induction H as [|b bs [Hb Hn] _ IH]; intros [|fuel] Hf;
    [cbn in Hf; lia | done | cbn in Hf; lia |].
  unfold index_image. cbn [map concat]. rewrite read_index_chunks_app by done.
  fold (index_image bs). rewrite IH by (cbn in Hf; lia). done.
Qed.

Lemma deserialize_schema_app (columns : list Column) (table_name rest : bytes) :
  Forall (fun c => blen (col_name c) < 2 ^ 16) columns ->
  Z.of_nat (length columns) < 2 ^ 32 ->
  deserialize_schema (IStream (serialize_schema columns ++ rest) true) table_name
  = Ok (map (persisted_column table_name) columns).
Proof.
  intros Hc Hn. unfold deserialize_schema, serialize_schema.
  rewrite <- app_assoc, sread_u32_app, wrap_small, Z.mod_small by lia. cbn [negb sok].
  rewrite Nat2Z.id, deserialize_columns_app by done. done.
Qed.

(** * Properties *)

(** Decoding the image of a row with the schema's width gives the row back,
    whatever bytes follow it; the length-prefixed form also hands back exactly
    the bytes that follow. *)
Theorem row_codec_roundtrip (r : Row) (columns : list Column) (rest : bytes) :
  row_wf r -> length (values r) = length columns -> Z.of_nat (length columns) < 2 ^ 32 ->
  blen (encode_row r) < 2 ^ 32 ->
  decode_row (encode_row r ++ rest) columns = Ok r /\
  read_len_prefixed_row (IStream (write_len_prefixed_row r ++ rest) true) columns
  = Ok (r, IStream rest true).
Proof.
  intros Hr Hl Hw Hb. split; [by apply decode_encode_row|].
  unfold read_len_prefixed_row, write_len_prefixed_row.
  rewrite <- app_assoc, sread_u32_app, u32_blen by done. cbn [negb sok].
  rewrite sread_ok_app by done.
  rewrite <- (app_nil_r (encode_row r)) at 1. by rewrite decode_encode_row.
Qed.

Definition ex_columns : list Column :=
  [mkColumn [] [Byte.x69; Byte.x64] Int64 0 0 false true;
   mkColumn [] [Byte.x73] Text 0 0 true true;
   mkColumn [] [Byte.x78] Float64 0 0 false false].
Definition ex_row : Row := mkRow [VInt (-5); VText [Byte.x61; Byte.x62]; VDouble 4607182418800017408].

Lemma row_codec_roundtrip_witness :
  decode_row (encode_row ex_row) ex_columns = Ok ex_row /\
  read_len_prefixed_row (IStream (write_len_prefixed_row ex_row ++ [Byte.x01]) true) ex_columns
  = Ok (ex_row, IStream [Byte.x01] true).
Proof.
  split; [reflexivity|].
  refine (proj2 (row_codec_roundtrip ex_row ex_columns [Byte.x01] _ _ _ _));
    [by apply (bool_decide_unpack _) | reflexivity | reflexivity | reflexivity].
Defined.

(** A schema read back from its image has the written columns, in order,
    with their types and their NOT NULL and PRIMARY KEY flags (the table name
    is supplied by the reader and oids are not stored). *)
Theorem schema_roundtrip (columns : list Column) (table_name rest : bytes) :
  Forall (fun c => blen (col_name c) < 2 ^ 16) columns ->
  Z.of_nat (length columns) < 2 ^ 32 ->
  deserialize_schema (IStream (serialize_schema columns ++ rest) true) table_name
  = Ok (map (persisted_column table_name) columns).
Proof. apply deserialize_schema_app. Qed.

Lemma schema_roundtrip_witness :
  deserialize_schema (IStream (serialize_schema ex_columns) true) [Byte.x74]
  = Ok (map (persisted_column [Byte.x74]) ex_columns).
Proof.
  rewrite <- (app_nil_r (serialize_schema ex_columns)).
  apply (schema_roundtrip ex_columns [Byte.x74] []);
    [by apply (bool_decide_unpack _) | reflexivity].
Defined.

(** With two or more PRIMARY KEY columns two rows have the same storage key
    exactly when they agree on every key cell: concatenating self-delimiting
    images loses nothing. *)
Theorem composite_key_injective (columns : list Column) (r r' : Row) :
  (2 <= pk_count columns)%nat -> row_wf r -> row_wf r' ->
  extract_key r columns = extract_key r' columns <->
  pk_cells 0 columns r = pk_cells 0 columns r'.
Proof.
  intros Hn Hr Hr'. unfold extract_key.
  destruct (Nat.ltb_spec (pk_count columns) 2); [lia|].
  rewrite !composite_pk_cells. split; [|congruence].
  intros E. injection E as E.
  apply concat_write_inj in E; auto using pk_cells_wf, length_pk_cells.
Qed.

Lemma composite_key_injective_witness :
  extract_key ex_row ex_columns <>
  extract_key (mkRow [VInt (-5); VText [Byte.x61]; VNull]) ex_columns.
Proof.
  intros E. apply composite_key_injective in E; [discriminate | | |].
  - vm_compute. lia.
  - by apply (bool_decide_unpack _).
  - by apply (bool_decide_unpack _).
Defined.

(** An index file that received a sequence of non-empty batches reads back
    as the concatenation of the batches, and compacting it keeps the entries. *)
Theorem index_file_roundtrip (batches : list (list (Value * Value))) :
  Forall (fun b => b <> [] /\ Forall entry_wf b /\ Z.of_nat (length b) < 2 ^ 32) batches ->
  Z.of_nat (length (concat batches)) < 2 ^ 32 ->
  let file := foldl (fun f b => Some (write_index_file f b)) (Some []) batches in
  read_index_file file = Ok (concat batches) /\
  (c ← compact_index_file file; read_index_file (Some c)) = Ok (concat batches).
Proof.
  intros Hb Hn. cbn zeta.
  assert (forall acc, foldl (fun f b => Some (write_index_file f b)) (Some acc) batches
          = Some (acc ++ index_image batches)) as Hf.
  { clear Hn. induction Hb as [|b bs [Hne _] _ IH]; intros acc; cbn [foldl].
    - by rewrite app_nil_r.
    - destruct b as [|e b]; [done|]. cbn [write_index_file default]. rewrite IH.
      unfold index_image. cbn [map concat id]. by rewrite app_assoc. }
  rewrite Hf, app_nil_l. unfold compact_index_file. cbn [read_index_file].
  assert (Forall (fun b => Forall entry_wf b /\ Z.of_nat (length b) < 2 ^ 32) batches) as Hb'.
  { eapply Forall_impl; [exact Hb|]. cbn. tauto. }
  rewrite read_index_image by (done || (pose proof (length_index_image batches); lia)).
  split; [done|]. cbn [mbind res_bind read_index_file].
  pose proof (read_index_image [concat batches]) as R. unfold index_image in R.
  cbn [map concat] in R. rewrite !app_nil_r in R. apply R.
  - constructor; [|done]. split; [|done]. apply Forall_concat.
    eapply Forall_impl; [exact Hb'|]. by intros ? [? ?].
  - pose proof (length_index_image [concat batches]) as L. unfold index_image in L.
    cbn [map concat] in L. rewrite app_nil_r in L. cbn [length] in L |- *. lia.
Qed.

Lemma index_file_roundtrip_witness :
  let batches := [[(VInt 3, VInt 1)]; [(VText [Byte.x61], VInt 2); (VNull, VInt 3)]] in
  read_index_file (foldl (fun f b => Some (write_index_file f b)) (Some []) batches)
  = Ok (concat batches).
Proof.
  refine (proj1 (index_file_roundtrip _ _ _)); [|reflexivity].
  repeat constructor; done.
Defined.
