(* ===== verification/Checksum.v ===== *)
(** Checksums of [src/storage/storage_engine_common.cpp]: the 32-bit FNV-1a of
    WAL payloads and the table-driven CRC-32C of SSTable pages and footers. *)
From Stdlib Require Import ZArith Lia Strings.Byte.
From stdpp Require Import base numbers list strings.
From S2P Require Import Prelude.
Local Open Scope Z_scope.

(** * FNV-1a *)

Definition fnv_step (hash : Z) (c : byte) : Z :=
  u32 (Z.lxor hash (b2z c) * 16777619).

Definition compute_payload_checksum (payload : bytes) : Z :=
  foldl fnv_step 2166136261 payload.

(** * CRC-32C *)

(** One bit of the table construction. *)
Definition crc_bit (c : Z) : Z :=
  if Z.testbit c 0 then Z.lxor 0x82F63B78 (Z.shiftr c 1) else Z.shiftr c 1.

Definition crc_table_entry (i : Z) : Z := Nat.iter 8 crc_bit i.

Definition crc_table : list Z :=
  Eval vm_compute in map (fun i => crc_table_entry (Z.of_nat i)) (seq 0 256).

Definition crc_step (crc : Z) (b : byte) : Z :=
  Z.lxor (nth (Z.to_nat (Z.land (Z.lxor crc (b2z b)) 255)) crc_table 0) (Z.shiftr crc 8).

Definition crc32c (data : bytes) : Z :=
  Z.lxor (foldl crc_step 0xFFFFFFFF data) 0xFFFFFFFF.

(** The check value of the CRC-32C parameter set. *)
Lemma crc32c_check_vector :
  crc32c (String.list_byte_of_string "123456789") = 0xE3069283.
Proof. vm_compute. reflexivity. Qed.

(** The bit-at-a-time definition of the same checksum, without a table. *)
Definition crc_step_ref (crc : Z) (b : byte) : Z := Nat.iter 8 crc_bit (Z.lxor crc (b2z b)).
Definition crc32c_ref (data : bytes) : Z :=
  Z.lxor (foldl crc_step_ref 0xFFFFFFFF data) 0xFFFFFFFF.

(** * Bitwise facts *)

Lemma lxor_cancel a b : Z.lxor a (Z.lxor a b) = b.
Proof. by rewrite <- Z.lxor_assoc, Z.lxor_nilpotent, Z.lxor_0_l. Qed.

Lemma land_lxor_ones w a b :
  Z.land (Z.lxor a b) (Z.ones w) = Z.lxor (Z.land a (Z.ones w)) (Z.land b (Z.ones w)).
Proof.
  apply Z.bits_inj'. intros n Hn. rewrite !Z.lxor_spec, !Z.land_spec, Z.lxor_spec.
  by destruct (Z.testbit a n), (Z.testbit b n), (Z.testbit (Z.ones w) n).
Qed.

Lemma lxor_range w a b :
  0 <= w -> 0 <= a < 2 ^ w -> 0 <= b < 2 ^ w -> 0 <= Z.lxor a b < 2 ^ w.
Proof.
  intros Hw Ha Hb. assert (Z.lxor a b = Z.land (Z.lxor a b) (Z.ones w)) as ->.
  { rewrite land_lxor_ones, !Z.land_ones by done. by rewrite !Z.mod_small. }
  rewrite Z.land_ones by done. apply Z.mod_pos_bound. lia.
Qed.

Lemma crc_bit_lxor a b : crc_bit (Z.lxor a b) = Z.lxor (crc_bit a) (crc_bit b).
Proof.
  unfold crc_bit. rewrite Z.lxor_spec, Z.shiftr_lxor.
  destruct (Z.testbit a 0), (Z.testbit b 0); cbn [xorb];
    apply Z.bits_inj'; intros n Hn; rewrite !Z.lxor_spec;
    by repeat match goal with |- context [Z.testbit ?x n] => destruct (Z.testbit x n) end.
Qed.

Lemma crc_bits_lxor n a b :
  Nat.iter n crc_bit (Z.lxor a b) = Z.lxor (Nat.iter n crc_bit a) (Nat.iter n crc_bit b).
Proof. induction n as [|n IH]; [done|]. by rewrite !Nat.iter_succ, IH, crc_bit_lxor. Qed.

Lemma crc_bit_shift n x : 0 <= n -> crc_bit (Z.shiftl x (n + 1)) = Z.shiftl x n.
Proof.
  intros Hn. unfold crc_bit. rewrite Z.shiftl_spec_low by lia.
  rewrite Z.shiftr_shiftl_l by lia. f_equal. lia.
Qed.

Lemma crc_bits_shift n x : Nat.iter n crc_bit (Z.shiftl x (Z.of_nat n)) = x.
Proof.
  induction n as [|n IH]; [by rewrite Z.shiftl_0_r|].
  rewrite Nat.iter_succ_r, Nat2Z.inj_succ, <- Z.add_1_r, crc_bit_shift by lia. exact IH.
Qed.

Lemma split_low_byte c : c = Z.lxor (Z.land c 255) (Z.shiftl (Z.shiftr c 8) 8).
Proof.
  apply Z.bits_inj'. intros n Hn.
  rewrite Z.lxor_spec, Z.land_spec, Z.shiftl_spec by lia.
  change 255 with (Z.ones 8).
  destruct (Z_lt_ge_dec n 8).
  - rewrite Z.ones_spec_low, (Z.testbit_neg_r _ (n - 8)) by lia.
    by rewrite andb_true_r, xorb_false_r.
  - rewrite Z.ones_spec_high, Z.shiftr_spec by lia. rewrite andb_false_r, xorb_false_l.
    f_equal. lia.
Qed.

Lemma land_255_range c : 0 <= Z.land c 255 < 256.
Proof. change 255 with (Z.ones 8). rewrite Z.land_ones by lia. apply Z.mod_pos_bound. lia. Qed.

Lemma crc_table_lookup i :
  0 <= i < 256 -> nth (Z.to_nat i) crc_table 0 = crc_table_entry i.
Proof.
  intros Hi. change crc_table with (map (fun i => crc_table_entry (Z.of_nat i)) (seq 0 256)).
  rewrite (nth_indep _ 0 (crc_table_entry (Z.of_nat 0))) by (rewrite length_map, length_seq; lia).
  rewrite (map_nth (fun i => crc_table_entry (Z.of_nat i))), seq_nth by lia. f_equal. lia.
Qed.

Lemma shiftr_lxor_byte c b : Z.shiftr (Z.lxor c (b2z b)) 8 = Z.shiftr c 8.
Proof.
  rewrite Z.shiftr_lxor. pose proof (b2z_range b).
  rewrite (Z.shiftr_div_pow2 (b2z b)), Z.div_small by lia. apply Z.lxor_0_r.
Qed.

Lemma crc_step_eq crc b : crc_step crc b = crc_step_ref crc b.
Proof.
  unfold crc_step, crc_step_ref.
  rewrite crc_table_lookup by apply land_255_range. unfold crc_table_entry.
  rewrite (split_low_byte (Z.lxor crc (b2z b))) at 2.
  rewrite crc_bits_lxor. f_equal.
  rewrite (crc_bits_shift 8), shiftr_lxor_byte. done.
Qed.

(** ** Injectivity *)

Lemma shiftr1_range a : 0 <= a < 2 ^ 32 -> 0 <= Z.shiftr a 1 < 2 ^ 31.
Proof. intros. rewrite Z.shiftr_div_pow2 by lia. split; [apply Z.div_pos; lia | apply Z.div_lt_upper_bound; lia]. Qed.

Lemma testbit_31_small a : 0 <= a < 2 ^ 31 -> Z.testbit a 31 = false.
Proof.
  intros [H0 H1]. rewrite Z.testbit_false by lia. rewrite Z.div_small by lia. done.
Qed.

Lemma crc_bit_top c : 0 <= c < 2 ^ 32 -> Z.testbit (crc_bit c) 31 = Z.testbit c 0.
Proof.
  intros H. apply shiftr1_range, testbit_31_small in H. unfold crc_bit.
  destruct (Z.testbit c 0); [|done]. rewrite Z.lxor_spec, H. done.
Qed.

Lemma crc_bit_inj a b :
  0 <= a < 2 ^ 32 -> 0 <= b < 2 ^ 32 -> crc_bit a = crc_bit b -> a = b.
Proof.
  intros Ha Hb E. pose proof (crc_bit_top a Ha) as Ta. pose proof (crc_bit_top b Hb) as Tb.
  assert (Z.testbit a 0 = Z.testbit b 0) as Hp by congruence.
  assert (Z.shiftr a 1 = Z.shiftr b 1) as Hs.
  { unfold crc_bit in E. rewrite <- Hp in E. destruct (Z.testbit a 0); [|done].
    apply (f_equal (Z.lxor 0x82F63B78)) in E. by rewrite !lxor_cancel in E. }
  rewrite !Z.bit0_odd in Hp. rewrite <- !Z.div2_spec in Hs.
  rewrite (Z.div2_odd a), (Z.div2_odd b). by rewrite Hp, Hs.
Qed.

Lemma crc_bit_range a : 0 <= a < 2 ^ 32 -> 0 <= crc_bit a < 2 ^ 32.
Proof.
  intros H. pose proof (shiftr1_range a H). unfold crc_bit.
  destruct (Z.testbit a 0); [|lia]. apply lxor_range; lia.
Qed.

Lemma crc_bits_range n a : 0 <= a < 2 ^ 32 -> 0 <= Nat.iter n crc_bit a < 2 ^ 32.
Proof. intros. induction n as [|n IH]; [done|]. rewrite Nat.iter_succ. by apply crc_bit_range. Qed.

Lemma crc_bits_inj n a b :
  0 <= a < 2 ^ 32 -> 0 <= b < 2 ^ 32 ->
  Nat.iter n crc_bit a = Nat.iter n crc_bit b -> a = b.
Proof.
  intros Ha Hb. induction n as [|n IH]; [done|]. rewrite !Nat.iter_succ. intros E.
  apply IH, crc_bit_inj; auto using crc_bits_range.
Qed.

Lemma b2z_range32 b : 0 <= b2z b < 2 ^ 32.
Proof. pose proof (b2z_range b). lia. Qed.

Lemma lxor_inj_l a b c : Z.lxor a c = Z.lxor b c -> a = b.
Proof.
  intros E. apply (f_equal (Z.lxor c)) in E.
  rewrite (Z.lxor_comm a), (Z.lxor_comm b), !lxor_cancel in E. done.
Qed.

(** * A corrupted byte always changes the checksum

    Any running state [step s b], injective in [s] for a fixed byte and in [b]
    for a fixed state, maps two strings that differ in one byte to different
    results. *)
Section single_byte.
Context (step : Z -> byte -> Z) (P : Z -> Prop).
Hypothesis step_range : forall s b, P s -> P (step s b).
Hypothesis step_inj_state : forall s s' b, P s -> P s' -> step s b = step s' b -> s = s'.
Hypothesis step_inj_byte : forall s b b', P s -> step s b = step s b' -> b = b'.

Lemma fold_range s l : P s -> P (foldl step s l).
Proof. revert s. induction l; cbn; auto. Qed.

Lemma fold_inj_state l s s' :
  P s -> P s' -> foldl step s l = foldl step s' l -> s = s'.
Proof. revert s s'. induction l as [|b l IH]; cbn; eauto. Qed.

Lemma fold_single_byte s l1 l2 b b' :
  P s -> b <> b' -> foldl step s (l1 ++ b :: l2) <> foldl step s (l1 ++ b' :: l2).
Proof.
  intros Hs Hb E. rewrite !foldl_app in E. cbn in E.
  apply fold_inj_state in E; auto using fold_range.
  apply Hb. eapply step_inj_byte; [|exact E]. auto using fold_range.
Qed.
End single_byte.

Lemma crc_step_range s b : 0 <= s < 2 ^ 32 -> 0 <= crc_step s b < 2 ^ 32.
Proof.
  intros. rewrite crc_step_eq. apply crc_bits_range, lxor_range; auto using b2z_range32. lia.
Qed.

Lemma crc_step_inj_state s s' b :
  0 <= s < 2 ^ 32 -> 0 <= s' < 2 ^ 32 -> crc_step s b = crc_step s' b -> s = s'.
Proof.
  intros. rewrite !crc_step_eq in *. eapply lxor_inj_l, crc_bits_inj; [| |eassumption];
    apply lxor_range; auto using b2z_range32; lia.
Qed.

Lemma crc_step_inj_byte s b b' : 0 <= s < 2 ^ 32 -> crc_step s b = crc_step s b' -> b = b'.
Proof.
  intros. rewrite !crc_step_eq in *. apply b2z_inj.
  rewrite <- (lxor_cancel s (b2z b)), <- (lxor_cancel s (b2z b')). f_equal.
  eapply crc_bits_inj; [| |eassumption]; apply lxor_range; auto using b2z_range32; lia.
Qed.

(** 16777619 is odd, hence invertible modulo [2 ^ 32]. *)
Lemma fnv_prime_inj a b :
  0 <= a < 2 ^ 32 -> 0 <= b < 2 ^ 32 -> u32 (a * 16777619) = u32 (b * 16777619) -> a = b.
Proof.
  intros Ha Hb E. unfold wrap in E. apply (f_equal (fun x => (x * 899433627) mod 2 ^ 32)) in E.
  rewrite !Z.mul_mod_idemp_l in E by lia. rewrite <- !Z.mul_assoc in E.
  rewrite !(Z.mul_mod _ (16777619 * 899433627)) in E by lia.
  change ((16777619 * 899433627) mod 2 ^ 32) with 1 in E.
  rewrite !Z.mul_1_r, !Z.mod_mod, !Z.mod_small in E by lia. done.
Qed.

Lemma fnv_step_inj_state s s' b :
  0 <= s < 2 ^ 32 -> 0 <= s' < 2 ^ 32 -> fnv_step s b = fnv_step s' b -> s = s'.
Proof.
  intros. eapply lxor_inj_l, fnv_prime_inj; [| |eassumption];
    apply lxor_range; auto using b2z_range32; lia.
Qed.

Lemma fnv_step_inj_byte s b b' : 0 <= s < 2 ^ 32 -> fnv_step s b = fnv_step s b' -> b = b'.
Proof.
  intros. apply b2z_inj.
  rewrite <- (lxor_cancel s (b2z b)), <- (lxor_cancel s (b2z b')). f_equal.
  eapply fnv_prime_inj; [| |eassumption]; apply lxor_range; auto using b2z_range32; lia.
Qed.

Lemma fnv_step_range s b : 0 <= fnv_step s b < 2 ^ 32.
Proof. apply wrap_range. lia. Qed.

Lemma payload_checksum_range p : 0 <= compute_payload_checksum p < 2 ^ 32.
Proof.
  apply (fold_range fnv_step (fun s => 0 <= s < 2 ^ 32)); [|lia].
  intros. apply fnv_step_range.
Qed.

Lemma crc32c_range p : 0 <= crc32c p < 2 ^ 32.
Proof.
  apply lxor_range; [lia| |lia].
  apply (fold_range crc_step (fun s => 0 <= s < 2 ^ 32)); [|lia]. intros. by apply crc_step_range.
Qed.

#[export] Hint Resolve payload_checksum_range crc32c_range : corodb.

(** * Properties *)

(** The table-driven CRC-32C equals the bit-at-a-time definition of the
    reflected polynomial 0x82F63B78 on every input. *)
Theorem crc32c_table_correct (data : bytes) : crc32c data = crc32c_ref data.
Proof.
  unfold crc32c, crc32c_ref. f_equal. generalize 0xFFFFFFFF.
  induction data as [|b data IH]; intros s; cbn; [done|]. by rewrite crc_step_eq, IH.
Qed.

(** Changing one byte of a payload or page always changes both its FNV-1a
    and its CRC-32C, so a single corrupted byte is always detected. *)
Theorem checksum_detects_byte (pre post : bytes) (b b' : byte) :
  b <> b' ->
  compute_payload_checksum (pre ++ b :: post) <> compute_payload_checksum (pre ++ b' :: post) /\
  crc32c (pre ++ b :: post) <> crc32c (pre ++ b' :: post).
Proof.
  intros Hb. split.
  - apply (fold_single_byte fnv_step (fun s => 0 <= s < 2 ^ 32));
      eauto using fnv_step_range, fnv_step_inj_state, fnv_step_inj_byte. lia.
  - intros E. apply lxor_inj_l in E. revert E.
    apply (fold_single_byte crc_step (fun s => 0 <= s < 2 ^ 32));
      eauto using crc_step_range, crc_step_inj_state, crc_step_inj_byte. lia.
Qed.

Lemma checksum_detects_byte_witness :
  compute_payload_checksum [Byte.x01; Byte.x02] <> compute_payload_checksum [Byte.x01; Byte.x03] /\
  crc32c [Byte.x01; Byte.x02] <> crc32c [Byte.x01; Byte.x03].
Proof. apply (checksum_detects_byte [Byte.x01] [] Byte.x02 Byte.x03). discriminate. Defined.
