(* ===== verification/Bloom.v ===== *)
(** The Bloom filter and the SSTable footer of
    [src/storage/storage_engine_common.cpp]. *)
From Stdlib Require Import ZArith Lia Strings.Byte.
From stdpp Require Import base numbers list strings.
From S2P Require Import Prelude Checksum.
Local Open Scope Z_scope.

(** * BloomFilter *)

Record BloomFilter := mkBloom {
  bl_size : Z;          (* size_ : uint32_t, in bits *)
  bl_hashes : Z;        (* num_hashes_ : uint8_t *)
  bl_bits : bytes       (* bits_ *)
}.

Definition empty_bloom : BloomFilter := mkBloom 0 3 [].

Definition bloom_valid (f : BloomFilter) : bool := negb (bool_decide (bl_bits f = [])).

Definition bloom_mix (h byte : Z) : Z := u64 (Z.lxor h byte * 1099511628211).

Definition bloom_hash (key : bytes) : Z * Z :=
  foldl (fun '(h1, h2) c => (bloom_mix h1 (b2z c), bloom_mix h2 (Z.lxor (b2z c) 0x5A)))
        (14695981039346656037, 14695981039346656037) key.

(** The bit numbers probed for a key. *)
Definition bloom_probes (size num_hashes : Z) (key : bytes) : list Z :=
  let '(h1, h2) := bloom_hash key in
  map (fun i => u64 (h1 + u64 (Z.of_nat i * h2)) mod size) (seq 0 (Z.to_nat num_hashes)).

Definition set_bit (bits : bytes) (bit : Z) : bytes :=
  let i := Z.to_nat (bit / 8) in
  <[i := z2b (Z.lor (b2z (nth i bits Byte.x00)) (u8 (Z.shiftl 1 (bit mod 8))))]> bits.

Definition test_bit (bits : bytes) (bit : Z) : bool :=
  negb (Z.land (b2z (nth (Z.to_nat (bit / 8)) bits Byte.x00)) (Z.shiftl 1 (bit mod 8)) =? 0).

Definition bloom_build (f : BloomFilter) (keys : list bytes) : BloomFilter :=
  match keys with
  | [] => f
  | _ =>
      let size := u32 (Z.of_nat (length keys) * 8) in
      let size := if size <? 64 then 64 else size in
      let bits := replicate (Z.to_nat (u32 (size + 7) / 8)) Byte.x00 in
      let bits := foldl (fun bits k => foldl set_bit bits (bloom_probes size (bl_hashes f) k))
                        bits keys in
      mkBloom size (bl_hashes f) bits
  end.

Definition maybe_contains (f : BloomFilter) (key : bytes) : bool :=
  if bool_decide (bl_bits f = []) then true
  else forallb (test_bit (bl_bits f)) (bloom_probes (bl_size f) (bl_hashes f) key).

Definition bloom_serialize (f : BloomFilter) : bytes :=
  le_enc 4 (bl_size f) ++ z2b (bl_hashes f) :: bl_bits f.

(** Returns whether the data was accepted, and the filter afterwards (a refused
    filter may already have its size and hash count overwritten). *)
Definition bloom_deserialize (f : BloomFilter) (data : bytes) : bool * BloomFilter :=
  if blen data <? 5 then (false, f) else
  let size := le_dec (take 4 data) in
  let hashes := b2z (nth 4 data Byte.x00) in
  let nbytes := (size + 7) / 8 in
  if blen data <? 5 + nbytes then (false, mkBloom size hashes (bl_bits f))
  else (true, mkBloom size hashes (take (Z.to_nat nbytes) (drop 5 data))).

(** * SstFooter *)

Definition kFooterMagic : Z := 0x46543031.

Record SstFooter := mkFooter { ft_bloom : BloomFilter; page_crcs : list Z }.

Definition empty_footer : SstFooter := mkFooter empty_bloom [].

Definition footer_serialize (f : SstFooter) : bytes :=
  let bloom_data := bloom_serialize (ft_bloom f) in
  le_enc 4 kFooterMagic ++ le_enc 4 (u32 (blen bloom_data)) ++ bloom_data
  ++ le_enc 4 (u32 (Z.of_nat (length (page_crcs f)))) ++ concat (map (le_enc 4) (page_crcs f)).

(** Splitting a byte string into little-endian 32-bit words. *)
Fixpoint words32 (n : nat) (bs : bytes) : list Z :=
  match n with O => [] | S n => le_dec (take 4 bs) :: words32 n (drop 4 bs) end.

(** The bytes after [data] may be read through [std::string(p, bloom_len)] when
    the length field exceeds what is left: that read is undefined behaviour. *)
Definition footer_deserialize (f : SstFooter) (data : bytes) : res (bool * SstFooter) :=
  if blen data <? 8 then Ok (false, f) else
  if negb (le_dec (take 4 data) =? kFooterMagic) then Ok (false, f) else
  let bloom_len := le_dec (take 4 (drop 4 data)) in
  let p := drop 8 data in
  if blen p <? bloom_len then UB "SstFooter: bloom length past the end" else
  let '(ok, bloom) := if bloom_len =? 0 then (true, ft_bloom f)
                      else bloom_deserialize (ft_bloom f) (take (Z.to_nat bloom_len) p) in
  if negb ok then Ok (false, mkFooter bloom (page_crcs f)) else
  let p := drop (Z.to_nat bloom_len) p in
  let remaining := blen p in
  if 4 <=? remaining then
    let n := le_dec (take 4 p) in
    if remaining =? 4 + n * 4
    then Ok (true, mkFooter bloom (words32 (Z.to_nat n) (drop 4 p)))
    else Ok (true, mkFooter bloom [])
  else Ok (true, mkFooter bloom []).

Definition serialize_sst_footer (f : SstFooter) : bytes :=
  let body := footer_serialize f in
  body ++ le_enc 4 (u32 (blen body)) ++ le_enc 4 (crc32c body).

(** [std::string::rfind]. *)
Fixpoint rfind_from (pat s : bytes) (i : Z) (acc : option Z) : option Z :=
  let acc := if bool_decide (take (length pat) s = pat) then Some i else acc in
  match s with [] => acc | _ :: s => rfind_from pat s (i + 1) acc end.
Definition rfind (pat s : bytes) : option Z := rfind_from pat s 0 None.

Definition load_footer_v1 (file : bytes) : res (bool * SstFooter) :=
  let window := 256 * 1024 in
  let tail := drop (Z.to_nat (if window <? blen file then blen file - window else 0)) file in
  match rfind (le_enc 4 kFooterMagic) tail with
  | None => Ok (false, empty_footer)
  | Some pos => footer_deserialize empty_footer (drop (Z.to_nat pos) tail)
  end.

Definition load_sst_footer (file : bytes) : res (bool * SstFooter) :=
  let file_len := blen file in
  if file_len <? 8 then Ok (false, empty_footer) else
  if 16 <=? file_len then
    let tr := drop (Z.to_nat (file_len - 8)) file in
    let body_len := le_dec (take 4 tr) in
    let body_crc := le_dec (drop 4 tr) in
    if (8 <=? body_len) && (body_len + 8 <=? file_len) then
      let body := take (Z.to_nat body_len) (drop (Z.to_nat (file_len - 8 - body_len)) file) in
      if crc32c body =? body_crc then
        '(ok, f) ← footer_deserialize empty_footer body;
        if (ok : bool) then Ok (true, f) else load_footer_v1 file
      else load_footer_v1 file
    else load_footer_v1 file
  else load_footer_v1 file.

Definition sst_footer_trailer_crc (file : bytes) : Z :=
  let len := blen file in
  if len <? 16 then 0 else
  let tr := drop (Z.to_nat (len - 8)) file in
  let body_len := le_dec (take 4 tr) in
  let body_crc := le_dec (drop 4 tr) in
  if (body_len <? 8) || (len <? body_len + 8) then 0 else body_crc.

(** * Bits *)

Lemma land_shiftl_1 x k : 0 <= k -> (Z.land x (Z.shiftl 1 k) =? 0) = negb (Z.testbit x k).
Proof.
  intros Hk. destruct (Z.testbit x k) eqn:E; cbn.
  - apply Z.eqb_neq. intros H. apply (f_equal (fun z => Z.testbit z k)) in H.
    rewrite Z.land_spec, E, Z.shiftl_spec, Z.sub_diag, Z.bits_0 in H by lia. done.
  - apply Z.eqb_eq, Z.bits_inj'. intros n Hn. rewrite Z.land_spec, Z.bits_0.
    destruct (Z.eq_dec n k) as [->|]; [by rewrite E|].
    rewrite Z.shiftl_1_l, Z.pow2_bits_false by lia. apply andb_false_r.
Qed.

Lemma testbit_z2b x k : 0 <= k < 8 -> Z.testbit (b2z (z2b x)) k = Z.testbit x k.
Proof. intros. rewrite b2z_z2b. change 256 with (2 ^ 8). by rewrite Z.mod_pow2_bits_low by lia. Qed.

Lemma test_bit_spec bits bit :
  test_bit bits bit = Z.testbit (b2z (nth (Z.to_nat (bit / 8)) bits Byte.x00)) (bit mod 8).
Proof.
  unfold test_bit. rewrite land_shiftl_1 by (apply Z.mod_pos_bound; lia). apply negb_involutive.
Qed.

Lemma nth_insert_eq (l : bytes) i x d : (i < length l)%nat -> nth i (<[i:=x]> l) d = x.
Proof. intros. rewrite nth_lookup, list_lookup_insert_eq; done. Qed.
Lemma nth_insert_ne (l : bytes) i j x d : i <> j -> nth j (<[i:=x]> l) d = nth j l d.
Proof. intros. by rewrite !nth_lookup, list_lookup_insert_ne. Qed.

Lemma length_set_bit bits b : length (set_bit bits b) = length bits.
Proof. apply length_insert. Qed.

Lemma test_set_bit bits p q :
  0 <= p -> 0 <= q -> (Z.to_nat (p / 8) < length bits)%nat ->
  test_bit (set_bit bits p) q = test_bit bits q || (p =? q).
Proof.
  intros Hp Hq Hl. rewrite !test_bit_spec. unfold set_bit.
  pose proof (Z.mod_pos_bound p 8 ltac:(lia)). pose proof (Z.mod_pos_bound q 8 ltac:(lia)).
  pose proof (Z.div_mod p 8 ltac:(lia)). pose proof (Z.div_mod q 8 ltac:(lia)).
  pose proof (Z.div_pos p 8 ltac:(lia) ltac:(lia)). pose proof (Z.div_pos q 8 ltac:(lia) ltac:(lia)).
  destruct (decide (Z.to_nat (p / 8) = Z.to_nat (q / 8))) as [E|E].
  - rewrite <- E, nth_insert_eq by done. rewrite testbit_z2b, Z.lor_spec by done. f_equal.
    unfold wrap. rewrite Z.mod_pow2_bits_low by lia.
    rewrite Z.shiftl_1_l, Z.pow2_bits_eqb by lia.
    destruct (Z.eqb_spec p q); [subst; apply Z.eqb_refl|]. apply Z.eqb_neq. lia.
  - rewrite nth_insert_ne by done.
    destruct (Z.eqb_spec p q); [subst; done|]. by rewrite orb_false_r.
Qed.

Definition in_range (bits : bytes) (p : Z) : Prop :=
  0 <= p /\ (Z.to_nat (p / 8) < length bits)%nat.

Lemma length_set_bits ps bits : length (foldl set_bit bits ps) = length bits.
Proof. revert bits. induction ps as [|p ps IH]; intros; cbn; [done|]. by rewrite IH, length_set_bit. Qed.

Lemma test_set_bits ps bits q :
  Forall (in_range bits) ps -> 0 <= q ->
  test_bit (foldl set_bit bits ps) q = test_bit bits q || existsb (fun p => p =? q) ps.
Proof.
  intros H Hq. revert bits H. induction ps as [|p ps IH]; intros bits H; cbn.
  - by rewrite orb_false_r.
  - inversion H as [|? ? [Hp Hl] Hps]; subst. rewrite IH.
    + rewrite test_set_bit by done. by rewrite orb_assoc.
    + eapply Forall_impl; [exact Hps|]. unfold in_range. by rewrite length_set_bit.
Qed.

Lemma bloom_probes_range size n key :
  0 < size -> Forall (fun p => 0 <= p < size) (bloom_probes size n key).
Proof.
  intros Hs. unfold bloom_probes. destruct (bloom_hash key) as [h1 h2].
  apply Forall_forall. intros p Hp. apply list_elem_of_In, in_map_iff in Hp as (i & <- & _).
  by apply Z.mod_pos_bound.
Qed.

Lemma length_add_keys size n keys bits :
  length (foldl (fun bits k => foldl set_bit bits (bloom_probes size n k)) bits keys)
  = length bits.
Proof. revert bits. induction keys as [|k ks IH]; intros; cbn; [done|]. by rewrite IH, length_set_bits. Qed.

(** Adding keys keeps every bit set, and sets every probe of every added key. *)
Lemma test_add_keys size n keys bits q :
  0 < size -> (forall p, 0 <= p < size -> in_range bits p) -> 0 <= q ->
  test_bit (foldl (fun bits k => foldl set_bit bits (bloom_probes size n k)) bits keys) q =
  test_bit bits q || existsb (fun k => existsb (fun p => p =? q) (bloom_probes size n k)) keys.
Proof.
  intros Hs Hb Hq. revert bits Hb. induction keys as [|k ks IH]; intros bits Hb; cbn.
  { by rewrite orb_false_r. }
  rewrite IH.
  - rewrite test_set_bits, <- orb_assoc; [done| |done].
    eapply Forall_impl; [by apply bloom_probes_range|]. exact Hb.
  - intros p Hp. specialize (Hb p Hp). unfold in_range in *. by rewrite length_set_bits.
Qed.

(** The size a build chooses, and the filter it leaves. *)
Definition build_size (keys : list bytes) : Z :=
  let size := u32 (Z.of_nat (length keys) * 8) in if size <? 64 then 64 else size.

Lemma build_size_range keys : 64 <= build_size keys <= 2 ^ 32 - 8.
Proof.
  unfold build_size. pose proof (wrap_range 32 (Z.of_nat (length keys) * 8) ltac:(lia)).
  assert (u32 (Z.of_nat (length keys) * 8) mod 8 = 0) as E.
  { unfold wrap. apply Z.mod_divide; [lia|]. apply Z.divide_add_cancel_r
      with (2 ^ 32 * (Z.of_nat (length keys) * 8 / 2 ^ 32)).
    - apply Z.divide_mul_l. exists (2 ^ 29). reflexivity.
    - rewrite <- Z.div_mod by lia. by apply Z.divide_factor_r. }
  destruct (Z.ltb_spec (u32 (Z.of_nat (length keys) * 8)) 64); [lia|].
  pose proof (Z.div_mod (u32 (Z.of_nat (length keys) * 8)) 8 ltac:(lia)). lia.
Qed.

Lemma build_bits_in_range size p :
  64 <= size <= 2 ^ 32 - 8 -> 0 <= p < size ->
  in_range (replicate (Z.to_nat (u32 (size + 7) / 8)) Byte.x00) p.
Proof.
  intros Hs Hp. split; [lia|]. rewrite length_replicate, wrap_small by lia.
  apply Z2Nat.inj_lt; [apply Z.div_pos; lia | apply Z.div_pos; lia |].
  apply Z.div_lt_upper_bound; [lia|].
  pose proof (Z.div_mod (size + 7) 8 ltac:(lia)).
  pose proof (Z.mod_pos_bound (size + 7) 8 ltac:(lia)). lia.
Qed.

(** ** Serialised filters and footers *)

Definition bloom_wf (f : BloomFilter) : Prop :=
  0 <= bl_size f < 2 ^ 32 /\ 0 <= bl_hashes f < 256 /\ blen (bl_bits f) = (bl_size f + 7) / 8.

Lemma blen_bloom_serialize f : blen (bloom_serialize f) = 5 + blen (bl_bits f).
Proof. unfold bloom_serialize. rewrite blen_app, blen_le_enc. unfold blen. cbn. lia. Qed.

Lemma bloom_deserialize_serialize f0 f :
  bloom_wf f -> bloom_deserialize f0 (bloom_serialize f) = (true, f).
Proof.
  intros (Hs & Hh & Hb). unfold bloom_deserialize. rewrite blen_bloom_serialize.
  pose proof (blen_nonneg (bl_bits f)).
  destruct (Z.ltb_spec (5 + blen (bl_bits f)) 5); [lia|]. unfold bloom_serialize.
  rewrite (take_app_length' (le_enc 4 (bl_size f))) by reflexivity.
  rewrite le_dec_u32 by done.
  rewrite (app_nth2 (le_enc 4 (bl_size f))), length_le_enc by (rewrite length_le_enc; lia).
  cbn [nth Nat.sub]. rewrite b2z_z2b, Z.mod_small by done.
  rewrite <- Hb. destruct (Z.ltb_spec (5 + blen (bl_bits f)) (5 + blen (bl_bits f))); [lia|].
  change (drop 5 (le_enc 4 (bl_size f) ++ z2b (bl_hashes f) :: bl_bits f)) with (bl_bits f).
  rewrite to_nat_blen, take_ge by lia. by destruct f.
Qed.

Lemma bloom_build_wf f keys :
  0 <= bl_hashes f < 256 -> keys <> [] -> bloom_wf (bloom_build f keys).
Proof.
  intros Hh Hk. destruct keys as [|k ks]; [done|]. cbn [bloom_build].
  fold (build_size (k :: ks)). pose proof (build_size_range (k :: ks)) as Hs.
  unfold bloom_wf. cbn [bl_size bl_hashes bl_bits]. repeat split; try lia.
  unfold blen. rewrite length_add_keys, length_replicate, wrap_small by lia.
  rewrite Z2Nat.id; [done|]. apply Z.div_pos; lia.
Qed.

Lemma words32_app ws rest :
  Forall (fun w => 0 <= w < 2 ^ 32) ws ->
  words32 (length ws) (concat (map (le_enc 4) ws) ++ rest) = ws.
Proof.
  induction 1 as [|w ws Hw _ IH]; [done|]. cbn [length words32 map concat].
  rewrite <- app_assoc, (take_app_length' (le_enc 4 w)), (drop_app_length' (le_enc 4 w))
    by reflexivity.
  by rewrite le_dec_u32, IH.
Qed.

Lemma blen_words ws : blen (concat (map (le_enc 4) ws)) = Z.of_nat (length ws) * 4.
Proof.
  induction ws as [|w ws IH]; [done|]. cbn [map concat length].
  rewrite blen_app, blen_le_enc, IH. lia.
Qed.

Definition footer_wf (f : SstFooter) : Prop :=
  bloom_wf (ft_bloom f) /\ Forall (fun w => 0 <= w < 2 ^ 32) (page_crcs f) /\
  blen (footer_serialize f) < 2 ^ 32.

Lemma blen_footer f :
  blen (footer_serialize f) =
  12 + blen (bloom_serialize (ft_bloom f)) + Z.of_nat (length (page_crcs f)) * 4.
Proof. unfold footer_serialize. rewrite !blen_app, !blen_le_enc, blen_words. lia. Qed.

Lemma footer_deserialize_serialize f0 f :
  footer_wf f -> footer_deserialize f0 (footer_serialize f) = Ok (true, f).
Proof.
  intros (Hb & Hc & Hl). rewrite blen_footer in Hl.
  pose proof (blen_bloom_serialize (ft_bloom f)) as Hbl.
  pose proof (blen_nonneg (bl_bits (ft_bloom f))).
  unfold footer_deserialize. rewrite blen_footer.
  destruct (Z.ltb_spec (12 + blen (bloom_serialize (ft_bloom f)) +
    Z.of_nat (length (page_crcs f)) * 4) 8); [lia|].
  unfold footer_serialize.
  set (rest := le_enc 4 (u32 (Z.of_nat (length (page_crcs f)))) ++ _).
  rewrite (take_app_length' (le_enc 4 kFooterMagic)) by reflexivity.
  change (le_dec (le_enc 4 kFooterMagic) =? kFooterMagic) with true. cbn [negb].
  rewrite (drop_app_length' (le_enc 4 kFooterMagic) _ 4) by reflexivity.
  rewrite (take_app_length' (le_enc 4 (u32 _))) by reflexivity.
  rewrite wrap_small, le_dec_u32 by lia.
  assert (drop 8 (le_enc 4 kFooterMagic ++ le_enc 4 (blen (bloom_serialize (ft_bloom f))) ++
     bloom_serialize (ft_bloom f) ++ rest) = bloom_serialize (ft_bloom f) ++ rest) as ->.
  { rewrite app_assoc. by apply drop_app_length'. }
  rewrite blen_app. pose proof (blen_nonneg rest).
  destruct (Z.ltb_spec (blen (bloom_serialize (ft_bloom f)) + blen rest)
              (blen (bloom_serialize (ft_bloom f)))); [lia|].
  destruct (Z.eqb_spec (blen (bloom_serialize (ft_bloom f))) 0); [lia|].
  rewrite to_nat_blen, take_app_length, drop_app_length.
  rewrite bloom_deserialize_serialize by done. cbn [negb].
  subst rest. rewrite blen_app, blen_le_enc, blen_words.
  destruct (Z.leb_spec 4 (Z.of_nat 4 + Z.of_nat (length (page_crcs f)) * 4)); [|lia].
  rewrite (take_app_length' (le_enc 4 (u32 _))), (drop_app_length' (le_enc 4 (u32 _)))
    by reflexivity.
  rewrite wrap_small, le_dec_u32 by lia. change (Z.of_nat 4) with 4.
  rewrite Z.eqb_refl, Nat2Z.id.
  rewrite <- (app_nil_r (concat _)), words32_app by done. by destruct f.
Qed.

Lemma drop_suffix (a b : bytes) n : n = blen a -> drop (Z.to_nat n) (a ++ b) = b.
Proof. intros ->. rewrite to_nat_blen. apply drop_app_length. Qed.

Lemma footer_load_app (f : SstFooter) (data : bytes) :
  footer_wf f ->
  load_sst_footer (data ++ serialize_sst_footer f) = Ok (true, f) /\
  sst_footer_trailer_crc (data ++ serialize_sst_footer f) = crc32c (footer_serialize f).
Proof.
  intros Hf. pose proof Hf as (_ & _ & Hl).
  pose proof (blen_footer f) as E. pose proof (blen_bloom_serialize (ft_bloom f)).
  pose proof (blen_nonneg (bl_bits (ft_bloom f))). pose proof (blen_nonneg data).
  unfold load_sst_footer, sst_footer_trailer_crc, serialize_sst_footer.
  set (body := footer_serialize f) in *. rewrite (wrap_small 32) by lia.
  rewrite !blen_app, !blen_le_enc. change (Z.of_nat 4) with 4.
  repeat match goal with |- context [?a <? ?b] => destruct (Z.ltb_spec a b); [lia|] end.
  destruct (Z.leb_spec 16 (blen data + (blen body + (4 + 4)))); [|lia].
  rewrite app_assoc. rewrite drop_suffix by (rewrite blen_app; lia).
  rewrite (take_app_length' (le_enc 4 (blen body))), (drop_app_length' (le_enc 4 (blen body)))
    by reflexivity.
  rewrite !le_dec_u32 by (auto with corodb || lia).
  destruct (Z.leb_spec 8 (blen body)); [|lia].
  destruct (Z.leb_spec (blen body + 8) (blen data + (blen body + (4 + 4)))); [|lia].
  destruct (Z.ltb_spec (blen body) 8); [lia|].
  destruct (Z.ltb_spec (blen data + (blen body + (4 + 4))) (blen body + 8)); [lia|].
  cbn [andb orb]. split; [|done].
  rewrite <- app_assoc, drop_suffix by lia.
  rewrite to_nat_blen, take_app_length, Z.eqb_refl.
  unfold body. by rewrite footer_deserialize_serialize.
Qed.

Lemma maybe_contains_built (f : BloomFilter) (keys : list bytes) (k : bytes) :
  In k keys -> maybe_contains (bloom_build f keys) k = true.
Proof.
  intros Hk. unfold maybe_contains. destruct (bool_decide _); [done|].
  destruct keys as [|k0 ks]; [done|]. cbn [bloom_build].
  fold (build_size (k0 :: ks)). cbn [bl_bits bl_size bl_hashes].
  set (size := build_size (k0 :: ks)). pose proof (build_size_range (k0 :: ks)) as Hs.
  fold size in Hs. apply forallb_forall. intros p Hp.
  pose proof (bloom_probes_range size (bl_hashes f) k ltac:(lia)) as HF.
  rewrite Forall_forall in HF. specialize (HF p ltac:(by apply list_elem_of_In)).
  rewrite test_add_keys by (lia || (intros; by apply build_bits_in_range)).
  apply orb_true_iff. right. apply existsb_exists. exists k. split; [done|].
  apply existsb_exists. exists p. split; [done|]. apply Z.eqb_refl.
Qed.

(** * Properties *)

(** A filter built from a set of keys answers "maybe" for each of them:
    the Bloom filter never causes a stored key to be skipped. *)
Theorem bloom_no_false_negative (f : BloomFilter) (keys : list bytes) (k : bytes) :
  In k keys -> maybe_contains (bloom_build f keys) k = true.
Proof. apply maybe_contains_built. Qed.

Lemma bloom_no_false_negative_witness :
  maybe_contains (bloom_build empty_bloom [[Byte.x01]; [Byte.x02; Byte.x03]]) [Byte.x01] = true.
Proof. apply bloom_no_false_negative. cbn. auto. Defined.

(** Whatever data precedes it, a footer appended to an SSTable file is found
    again through its trailer and read back with its Bloom filter and its table
    of page checksums; the trailer CRC is the fingerprint the manifest records. *)
Theorem footer_load_roundtrip (f : SstFooter) (data : bytes) :
  footer_wf f ->
  load_sst_footer (data ++ serialize_sst_footer f) = Ok (true, f) /\
  sst_footer_trailer_crc (data ++ serialize_sst_footer f) = crc32c (footer_serialize f).
Proof. apply footer_load_app. Qed.

Lemma footer_load_roundtrip_witness :
  let f := mkFooter (bloom_build empty_bloom [[Byte.x01]]) [crc32c [Byte.x07]] in
  load_sst_footer ([Byte.x07] ++ serialize_sst_footer f) = Ok (true, f) /\
  sst_footer_trailer_crc ([Byte.x07] ++ serialize_sst_footer f) = crc32c (footer_serialize f).
Proof.
  cbn zeta. apply footer_load_roundtrip. split; [|split].
  - apply bloom_build_wf; [cbn; lia | discriminate].
  - constructor; [apply crc32c_range | constructor].
  - vm_compute. reflexivity.
Defined.
