(* ===== verification/Wal.v ===== *)
(** The write-ahead log of [src/storage/storage_engine_common.cpp]: the record
    format, the writer and manager, torn-tail recovery, and the leader/follower
    group commit as a step relation. *)
From Stdlib Require Import ZArith Lia Strings.Byte.
From stdpp Require Import base numbers list gmap strings relations.
From S2P Require Import Prelude Checksum.
Local Open Scope Z_scope.

Definition kWalMagic : Z := 0x57414c31.
Definition kWalCommitBarrier : Z := 14.

Record WalRecord := mkWal { wal_type : Z; payload : bytes }.

(** The bytes [WalWriter::append] writes for one record. *)
Definition wal_record_image (type : Z) (payload : bytes) : bytes :=
  z2b type :: le_enc 4 (u32 (blen payload)) ++ le_enc 4 (compute_payload_checksum payload) ++ payload.

Definition record_image (r : WalRecord) : bytes := wal_record_image (wal_type r) (payload r).

Definition wal_header : bytes := le_enc 4 kWalMagic.

(** * WalWriter and WalManager

    [wal_files] are the files as the operating system shows them, [wal_writers] the
    open writers with their [needs_group_sync_] flag, [wal_durable] what the last
    [fsync] of a file covered; in the mode [Fast] there is no [fsync].  The mode is
    the global [g_wal_sync_mode], which the server sets from its configuration
    ("durable" unless told otherwise). *)
Inductive WalSyncMode := Fast | Durable.

Record WalManager := mkWalManager {
  wal_files : gmap bytes bytes;
  wal_writers : gmap bytes bool;
  wal_durable : gmap bytes bytes;
  wal_mode : WalSyncMode
}.

(** What is durable after the calls of [fsync_path] that the mode allows. *)
Definition sync_content (m : WalManager) (path f : bytes) : gmap bytes bytes :=
  match wal_mode m with Durable => <[path := f]> (wal_durable m) | Fast => wal_durable m end.

(** Opening for append; a file that does not exist gets the magic header. *)
Definition open_writer (m : WalManager) (path : bytes) : WalManager :=
  mkWalManager
    (match wal_files m !! path with
     | Some _ => wal_files m | None => <[path := wal_header]> (wal_files m) end)
    (<[path := false]> (wal_writers m)) (wal_durable m) (wal_mode m).

Definition get_writer (m : WalManager) (path : bytes) : WalManager :=
  match wal_writers m !! path with Some _ => m | None => open_writer m path end.

Definition writer_append (m : WalManager) (path : bytes) (type : Z) (payload : bytes) : WalManager :=
  mkWalManager (alter (fun f => f ++ wal_record_image type payload) path (wal_files m))
    (<[path := true]> (wal_writers m)) (wal_durable m) (wal_mode m).

Definition commit_sync (m : WalManager) (path : bytes) : WalManager :=
  match wal_writers m !! path with
  | Some true =>
      mkWalManager (wal_files m) (<[path := false]> (wal_writers m))
        (match wal_files m !! path with Some f => sync_content m path f | None => wal_durable m end) (wal_mode m)
  | _ => m
  end.

(** A truncated writer keeps its dirty flag; its file is the header again, synced if the mode says so.
    A log without an open writer is left alone. *)
Definition wal_truncate (m : WalManager) (path : bytes) : WalManager :=
  match wal_writers m !! path with
  | Some _ => mkWalManager (<[path := wal_header]> (wal_files m)) (wal_writers m)
                (sync_content m path wal_header) (wal_mode m)
  | None => m
  end.

Definition remove_writer (m : WalManager) (path : bytes) : WalManager :=
  mkWalManager (wal_files m) (delete path (wal_writers m)) (wal_durable m) (wal_mode m).

Definition clear_all (m : WalManager) : WalManager :=
  mkWalManager (wal_files m) ∅ (wal_durable m) (wal_mode m).

Definition sync_all_pending (m : WalManager) : WalManager :=
  foldl commit_sync m (map_to_list (wal_writers m)).*1.

Definition wal_append_record_no_wait (m : WalManager) (path : bytes) (type : Z) (payload : bytes) :=
  writer_append (get_writer m path) path type payload.

(** Uncontended group commit: the caller is the leader. *)
Definition wal_sync_path (m : WalManager) (path : bytes) : WalManager :=
  sync_all_pending (get_writer m path).

Definition wal_append_record (m : WalManager) (path : bytes) (type : Z) (payload : bytes) :=
  sync_all_pending (wal_append_record_no_wait m path type payload).

(** * Reading *)

Fixpoint wal_read_loop (fuel : nat) (s : istream) : list WalRecord :=
  match fuel with
  | O => []
  | S fuel =>
      if s_eof s then [] else
      let '(type, s) := sread_uint 1 s in
      let '(len, s) := sread_uint 4 s in
      if negb (sok s) then [] else
      let '(checksum, s) := sread_uint 4 s in
      if negb (sok s) then [] else
      match sread_ok len s with
      | None => []
      | Some (rec, s) =>
          if negb (compute_payload_checksum rec =? checksum) then []
          else mkWal type rec :: wal_read_loop fuel s
      end
  end.

Definition wal_read_records (file : option bytes) : list WalRecord :=
  match file with
  | None => []
  | Some data =>
      let '(magic, s) := sread_uint 4 (IStream data true) in
      if negb (sok s) || negb (magic =? kWalMagic) then []
      else wal_read_loop (S (length data)) s
  end.

(** * Reading back what was written *)

Definition record_wf (r : WalRecord) : Prop :=
  0 <= wal_type r < 256 /\ blen (payload r) < 2 ^ 32.

#[export] Instance record_wf_dec r : Decision (record_wf r).
Proof. unfold record_wf. apply _. Defined.

Definition wal_image (rs : list WalRecord) : bytes := concat (map record_image rs).

Lemma wal_read_loop_app fuel r rest :
  record_wf r ->
  wal_read_loop (S fuel) (IStream (record_image r ++ rest) true)
  = r :: wal_read_loop fuel (IStream rest true).
Proof.
  intros [Ht Hl]. pose proof (blen_nonneg (payload r)).
  unfold record_image, wal_record_image. cbn [wal_read_loop app].
  assert (s_eof (IStream (z2b (wal_type r) :: (le_enc 4 (u32 (blen (payload r))) ++
    le_enc 4 (compute_payload_checksum (payload r)) ++ payload r) ++ rest) true) = false) as -> by done.
  rewrite sread_u8_app, <- !app_assoc, !sread_u32_app.
  cbn [negb sok]. rewrite (wrap_small 32), (Z.mod_small (blen _)) by lia.
  rewrite sread_ok_app by done.
  rewrite (Z.mod_small (compute_payload_checksum _)) by auto with corodb.
  rewrite Z.eqb_refl, Z.mod_small by lia. cbn [negb]. by destruct r.
Qed.

Lemma length_wal_image rs : (length rs <= length (wal_image rs))%nat.
Proof.
  unfold wal_image. induction rs as [|r rs IH]; cbn [map concat length]; [lia|].
  rewrite length_app. unfold record_image at 1, wal_record_image at 1. cbn [length]. lia.
Qed.

Lemma sread_fail n s : sok s = false -> sread n s = (replicate (Z.to_nat n) Byte.x00, s).
Proof. intros H. unfold sread. by rewrite H. Qed.

Lemma sread_short n d :
  blen d < n -> exists b, sread_uint n (IStream d true) = (b, IStream [] false).
Proof.
  intros H. unfold sread_uint, sread. cbn [sok sdata]. rewrite has_bytes_spec.
  destruct (Z.leb_spec n (blen d)); [lia|]. eauto.
Qed.

Lemma sread_uint_fail n : exists b, sread_uint n (IStream [] false) = (b, IStream [] false).
Proof. unfold sread_uint. rewrite sread_fail by done. eauto. Qed.

Lemma sread_uint_long n d :
  0 <= n <= blen d ->
  sread_uint n (IStream d true) = (le_dec (take (Z.to_nat n) d), IStream (drop (Z.to_nat n) d) true).
Proof.
  intros H. unfold sread_uint, sread. cbn [sok sdata]. rewrite has_bytes_spec.
  destruct (Z.leb_spec n (blen d)); [done|lia].
Qed.

Lemma blen_take n (d : bytes) : (n <= length d)%nat -> blen (take n d) = Z.of_nat n.
Proof. intros. unfold blen. rewrite length_take. lia. Qed.
Lemma blen_drop n (d : bytes) : blen (drop n d) = Z.max 0 (blen d - Z.of_nat n).
Proof. unfold blen. rewrite length_drop. lia. Qed.

(** A proper prefix of a record contributes no record. *)
Lemma wal_read_loop_torn fuel r k :
  record_wf r -> (k < length (record_image r))%nat ->
  wal_read_loop fuel (IStream (take k (record_image r)) true) = [].
Proof.
  intros [Ht Hl] Hk. destruct fuel as [|fuel]; [done|]. cbn [wal_read_loop].
  destruct (s_eof _); [done|]. pose proof (blen_nonneg (payload r)).
  set (d := take k (record_image r)).
  assert (blen d = Z.of_nat k) as Hd by (apply blen_take; lia).
  assert (length (record_image r) = (9 + length (payload r))%nat) as Hlen.
  { unfold record_image, wal_record_image. cbn [length]. rewrite !length_app, !length_le_enc. lia. }
  destruct (sread_uint 1 (IStream d true)) as [t s1] eqn:E1.
  destruct (decide (k < 9)%nat) as [Hs|Hs].
  - (* the header itself is torn *)
    destruct (decide (k < 1)%nat).
    { destruct (sread_short 1 d) as [b Eb]; [lia|]. rewrite Eb in E1. simplify_eq.
      destruct (sread_uint_fail 4) as [b' ->]. done. }
    rewrite sread_uint_long in E1 by lia. simplify_eq.
    set (d1 := drop _ d). assert (blen d1 = Z.of_nat k - 1) as Hd1.
    { unfold d1. rewrite blen_drop. lia. }
    destruct (decide (k < 5)%nat).
    { destruct (sread_short 4 d1) as [b ->]; [lia|]. done. }
    rewrite (sread_uint_long 4) by lia. cbn [negb sok].
    set (d2 := drop _ d1). assert (blen d2 = Z.of_nat k - 5) as Hd2.
    { unfold d2. rewrite blen_drop. lia. }
    destruct (sread_short 4 d2) as [b ->]; [lia|]. done.
  - (* the header is whole, the payload is short *)
    assert (exists p, d = z2b (wal_type r) :: le_enc 4 (u32 (blen (payload r))) ++
      le_enc 4 (compute_payload_checksum (payload r)) ++ p /\ blen p < blen (payload r)) as (p & Ep & Hp).
    { exists (take (k - 9) (payload r)). split.
      - unfold d, record_image, wal_record_image.
        replace k with (S (4 + (4 + (k - 9))))%nat at 1 by lia.
        reflexivity.
      - rewrite blen_take by lia. unfold blen. lia. }
    rewrite Ep, sread_u8_app in E1. simplify_eq.
    rewrite !sread_u32_app. cbn [negb sok].
    rewrite (wrap_small 32), (Z.mod_small (blen _)) by lia.
    unfold sread_ok. cbn [sok sdata andb]. rewrite has_bytes_spec.
    destruct (Z.leb_spec (blen (payload r)) (blen p)); [lia|done].
Qed.

(** Records contained completely in the first [k] bytes of a log body. *)
Fixpoint whole_records (k : nat) (rs : list WalRecord) : list WalRecord :=
  match rs with
  | [] => []
  | r :: rs => if (length (record_image r) <=? k)%nat
               then r :: whole_records (k - length (record_image r)) rs else []
  end.

Lemma length_record_image r : (1 <= length (record_image r))%nat.
Proof. apply le_n_S, Nat.le_0_l. Qed.

Lemma length_whole_records k rs :
  (length (whole_records k rs) <= length (take k (wal_image rs)))%nat.
Proof.
  revert k. unfold wal_image. induction rs as [|r rs IH]; intros k; cbn [whole_records map concat].
  { apply Nat.le_0_l. }
  pose proof (length_record_image r).
  destruct (Nat.leb_spec (length (record_image r)) k) as [Hk|Hk]; [|cbn; lia].
  rewrite take_app_ge by done. rewrite length_app. cbn [length].
  specialize (IH (k - length (record_image r))%nat). lia.
Qed.

Lemma wal_read_cut fuel k rs :
  Forall record_wf rs -> (length (whole_records k rs) < fuel)%nat ->
  wal_read_loop fuel (IStream (take k (wal_image rs)) true) = whole_records k rs.
Proof.
  intros H. revert fuel k. induction H as [|r rs Hr _ IH]; intros fuel k Hf.
  { unfold wal_image. by destruct k, fuel. }
  destruct fuel as [|fuel]; [lia|]. unfold wal_image. cbn [map concat whole_records] in *.
  revert Hf. destruct (Nat.leb_spec (length (record_image r)) k); intros Hf.
  - rewrite take_app_ge, wal_read_loop_app by done. f_equal. apply IH. cbn [length] in Hf. lia.
  - rewrite take_app_le by lia. by apply wal_read_loop_torn.
Qed.

Lemma whole_records_all rs : whole_records (length (wal_image rs)) rs = rs.
Proof.
  unfold wal_image. induction rs as [|r rs IH]; [done|]. cbn [map concat whole_records].
  rewrite length_app.
  destruct (Nat.leb_spec (length (record_image r))
    (length (record_image r) + length (concat (map record_image rs)))); [|lia].
  f_equal. rewrite Nat.add_comm, Nat.add_sub. exact IH.
Qed.

(** * Group commit

    [WalGroupCommitter::request_sync] with [WalManager::sync_all_pending], one
    thread per request.  A writer is its sequence of records (by number), how
    many of them the last sync covered, and the dirty flag.  [gc_mgr] is the
    manager's mutex. *)
Module GroupCommit.

Record gwriter := mkGW { gw_len : nat; gw_durable : nat; gw_needs : bool }.

Inductive pc :=
| Idle
| HasWriter (w : nat)                       (* get_writer returned *)
| Appended (w n : nat)                      (* record n of w is written *)
| LeaderEntered (w n : nat)                 (* pending_count_ == 1, lock released *)
| LeaderIter (w n : nat) (todo : list nat)  (* inside sync_all_pending *)
| LeaderSynced (w n : nat)
| Follower (w n : nat) (my_epoch : Z)       (* waits for current_epoch_ > my_epoch *)
| Done (w n : nat) (leader : bool).         (* request_sync returned *)

Record state := mkGC {
  gc_writers : list gwriter;
  gc_epoch : Z;
  gc_pending : Z;
  gc_mgr : bool;
  gc_pc : gmap nat pc
}.

Definition append1 (g : gwriter) : gwriter := mkGW (S (gw_len g)) (gw_durable g) true.
Definition sync1 (g : gwriter) : gwriter :=
  if gw_needs g then mkGW (gw_len g) (gw_len g) false else g.

Inductive step : state -> state -> Prop :=
| step_get_writer ws e p t pcs w :
    pcs !! t = Some Idle -> (w < length ws)%nat ->
    step (mkGC ws e p false pcs) (mkGC ws e p false (<[t := HasWriter w]> pcs))
| step_append ws e p m t pcs w g :
    pcs !! t = Some (HasWriter w) -> ws !! w = Some g ->
    step (mkGC ws e p m pcs)
         (mkGC (<[w := append1 g]> ws) e p m (<[t := Appended w (gw_len g)]> pcs))
| step_enter_leader ws e m t pcs w n :
    pcs !! t = Some (Appended w n) ->
    step (mkGC ws e 0 m pcs) (mkGC ws e 1 m (<[t := LeaderEntered w n]> pcs))
| step_enter_follower ws e p m t pcs w n :
    pcs !! t = Some (Appended w n) -> 0 < p ->
    step (mkGC ws e p m pcs) (mkGC ws e (p + 1) m (<[t := Follower w n e]> pcs))
| step_leader_lock ws e p t pcs w n :
    pcs !! t = Some (LeaderEntered w n) ->
    step (mkGC ws e p false pcs)
         (mkGC ws e p true (<[t := LeaderIter w n (seq 0 (length ws))]> pcs))
| step_leader_sync ws e p m t pcs w n x g todo :
    pcs !! t = Some (LeaderIter w n (x :: todo)) -> ws !! x = Some g ->
    step (mkGC ws e p m pcs)
         (mkGC (<[x := sync1 g]> ws) e p m (<[t := LeaderIter w n todo]> pcs))
| step_leader_unlock ws e p t pcs w n :
    pcs !! t = Some (LeaderIter w n []) ->
    step (mkGC ws e p true pcs) (mkGC ws e p false (<[t := LeaderSynced w n]> pcs))
| step_leader_finish ws e p m t pcs w n :
    pcs !! t = Some (LeaderSynced w n) ->
    step (mkGC ws e p m pcs) (mkGC ws (e + 1) 0 m (<[t := Done w n true]> pcs))
| step_follower_return ws e p m t pcs w n my :
    pcs !! t = Some (Follower w n my) -> my < e ->
    step (mkGC ws e p m pcs) (mkGC ws e p m (<[t := Done w n false]> pcs)).

Definition init (nwriters : nat) (threads : list nat) : state :=
  mkGC (replicate nwriters (mkGW 0 0 false)) 0 0 false
    (list_to_map (map (fun t => (t, Idle)) threads)).

(** Record [n] of writer [w] has been written, or is covered by a sync. *)
Definition written (ws : list gwriter) (w n : nat) : Prop :=
  exists g, ws !! w = Some g /\ (n < gw_len g)%nat.
Definition durable (ws : list gwriter) (w n : nat) : Prop :=
  exists g, ws !! w = Some g /\ (n < gw_durable g)%nat.

Definition writer_ok (g : gwriter) : Prop :=
  (gw_durable g <= gw_len g)%nat /\ (gw_needs g = false -> gw_durable g = gw_len g).

Definition pc_ok (ws : list gwriter) (c : pc) : Prop :=
  match c with
  | Idle | HasWriter _ => True
  | Appended w n | LeaderEntered w n | Follower w n _ | Done w n false => written ws w n
  | LeaderIter w n todo =>
      written ws w n /\ (w ∈ todo \/ durable ws w n)
  | LeaderSynced w n | Done w n true => durable ws w n
  end.

Record inv (s : state) : Prop := {
  inv_writers : Forall writer_ok (gc_writers s);
  inv_pcs : map_Forall (fun _ c => pc_ok (gc_writers s) c) (gc_pc s)
}.

(** What a step may do to a writer: it grows, and stays durable where it was. *)
Definition grows (ws ws' : list gwriter) : Prop :=
  forall w g, ws !! w = Some g ->
    exists g', ws' !! w = Some g' /\ (gw_len g <= gw_len g')%nat /\ (gw_durable g <= gw_durable g')%nat.

Lemma grows_refl ws : grows ws ws.
Proof. intros w g H. exists g. auto. Qed.

Lemma grows_insert ws w g g' :
  ws !! w = Some g -> (gw_len g <= gw_len g')%nat -> (gw_durable g <= gw_durable g')%nat ->
  grows ws (<[w := g']> ws).
Proof.
  intros Hw Hl Hd w' h Hh. destruct (decide (w = w')) as [<-|].
  - exists g'. rewrite list_lookup_insert_eq by eauto using lookup_lt_Some.
    simplify_eq. auto.
  - exists h. rewrite list_lookup_insert_ne by done. auto.
Qed.

Lemma written_grows ws ws' w n : grows ws ws' -> written ws w n -> written ws' w n.
Proof. intros G (g & Hg & Hn). destruct (G _ _ Hg) as (g' & ? & ? & ?). exists g'. split; [done|lia]. Qed.
Lemma durable_grows ws ws' w n : grows ws ws' -> durable ws w n -> durable ws' w n.
Proof. intros G (g & Hg & Hn). destruct (G _ _ Hg) as (g' & ? & ? & ?). exists g'. split; [done|lia]. Qed.

Lemma pc_ok_grows ws ws' c : grows ws ws' -> pc_ok ws c -> pc_ok ws' c.
Proof.
  intros G. destruct c as [| | | |? ? ?| | |? ? []]; cbn;
    eauto using written_grows, durable_grows.
  intros [? [?|?]]; split; eauto using written_grows, durable_grows.
Qed.

Lemma pcs_ok_update ws ws' (pcs : gmap nat pc) t c :
  grows ws ws' -> map_Forall (fun _ c => pc_ok ws c) pcs -> pc_ok ws' c ->
  map_Forall (fun _ c => pc_ok ws' c) (<[t := c]> pcs).
Proof.
  intros G H Hc. apply map_Forall_insert_2; [done|].
  eapply map_Forall_impl; [exact H|]. eauto using pc_ok_grows.
Qed.

Lemma sync1_durable g : writer_ok g -> gw_durable (sync1 g) = gw_len g.
Proof. intros [_ H]. unfold sync1. destruct (gw_needs g) eqn:E; [done|]. by apply H. Qed.
Lemma sync1_len g : gw_len (sync1 g) = gw_len g.
Proof. unfold sync1. by destruct (gw_needs g). Qed.
Lemma sync1_ok g : writer_ok g -> writer_ok (sync1 g).
Proof.
  intros Hg. split; [|intros _]; rewrite (sync1_durable g Hg), sync1_len; lia.
Qed.
Lemma append1_ok g : writer_ok g -> writer_ok (append1 g).
Proof. intros [H _]. split; cbn; [lia|done]. Qed.

Lemma step_inv s s' : step s s' -> inv s -> inv s'.
Proof.
  intros Hs [Hw Hp]; destruct Hs; cbn [gc_writers gc_pc] in *;
    match goal with H : ?m !! _ = Some ?c, Hm : map_Forall _ ?m |- _ =>
      pose proof (map_Forall_lookup_1 _ _ _ _ Hm H) as Hc; cbn in Hc end;
    try match goal with H : ?l !! _ = Some ?g, Hl : Forall writer_ok ?l |- _ =>
      assert (writer_ok g) as Hg by (eapply Forall_lookup_1; eassumption) end;
    (constructor; cbn [gc_writers gc_pc];
     [try done | try (eapply pcs_ok_update; [apply grows_refl|done|try done])]).
  - apply Forall_insert; [done|]. by apply append1_ok.
  - eapply pcs_ok_update; [|done|].
    + eapply grows_insert; [done| |]; cbn; lia.
    + exists (append1 g). rewrite list_lookup_insert_eq by eauto using lookup_lt_Some.
      split; [done|]. cbn. lia.
  - destruct Hc as (g & Hg & Hn). split; [by exists g|]. left.
    apply elem_of_seq. apply lookup_lt_Some in Hg. lia.
  - apply Forall_insert; [done|]. by apply sync1_ok.
  - destruct Hg as [Hle Hne]. assert (writer_ok g) as Hg by done.
    assert (grows ws (<[x := sync1 g]> ws)) as G.
    { eapply grows_insert; [done| |]; rewrite ?sync1_len, ?sync1_durable by done; lia. }
    eapply pcs_ok_update; [exact G|done|]. destruct Hc as [Hwr Hc].
    split; [by eapply written_grows|].
    destruct Hc as [Hin|Hd]; [|right; by eapply durable_grows].
    apply elem_of_cons in Hin as [->|Hin]; [|by left]. right.
    destruct Hwr as (h & Hh & Hn). assert (h = g) as -> by congruence. exists (sync1 g).
    rewrite list_lookup_insert_eq by eauto using lookup_lt_Some.
    split; [done|]. by rewrite sync1_durable.
  - destruct Hc as [_ [Hc|Hc]]; [by apply elem_of_nil in Hc|done].
Qed.

Lemma init_inv n ts : inv (init n ts).
Proof.
  constructor; cbn.
  - apply Forall_replicate. by split.
  - intros t c Hc. apply elem_of_list_to_map_2 in Hc.
    apply list_elem_of_In, in_map_iff in Hc as (t' & E & _). by simplify_eq.
Qed.

Lemma reachable_inv n ts s : rtc step (init n ts) s -> inv s.
Proof.
  apply (rtc_ind_r inv); [apply init_inv|]. intros. by eapply step_inv.
Qed.

End GroupCommit.

(** * Properties *)

(** C38: cutting a log file anywhere after its header (a crash in the middle of
    an append) makes the reader return exactly the records that are completely
    contained in what is left, in order; with no cut it returns all of them. *)
Theorem wal_torn_tail (rs : list WalRecord) (k : nat) :
  Forall record_wf rs ->
  wal_read_records (Some (wal_header ++ take k (wal_image rs))) = whole_records k rs /\
  wal_read_records (Some (wal_header ++ wal_image rs)) = rs.
Proof.
  intros Hr.
  assert (forall j, wal_read_records (Some (wal_header ++ take j (wal_image rs)))
    = whole_records j rs) as E.
  { intros j. unfold wal_read_records, wal_header. rewrite sread_u32_app.
    change (negb _ || negb _) with false. cbv iota.
    apply wal_read_cut; [done|]. rewrite length_app. pose proof (length_whole_records j rs). lia. }
  split; [apply E|]. specialize (E (length (wal_image rs))).
  rewrite take_ge, whole_records_all in E by lia. exact E.
Qed.

Definition ex_records : list WalRecord :=
  [mkWal 11 [Byte.x01; Byte.x02]; mkWal kWalCommitBarrier [Byte.x03]].

Lemma wal_torn_tail_witness :
  wal_read_records (Some (wal_header ++ take 20 (wal_image ex_records)))
  = [mkWal 11 [Byte.x01; Byte.x02]].
Proof.
  refine (proj1 (wal_torn_tail ex_records 20 _)). by apply (bool_decide_unpack _).
Defined.


Lemma commit_sync_files m p : wal_files (commit_sync m p) = wal_files m.
Proof. unfold commit_sync. by destruct (wal_writers m !! p) as [[]|]. Qed.

Lemma commit_sync_mode m p : wal_mode (commit_sync m p) = wal_mode m.
Proof. unfold commit_sync. by destruct (wal_writers m !! p) as [[]|]. Qed.

Lemma fold_sync_mode ps m : wal_mode (foldl commit_sync m ps) = wal_mode m.
Proof. revert m. induction ps as [|p ps IH]; intros m; [done|]. cbn [foldl]. by rewrite IH, commit_sync_mode. Qed.

Lemma sync_content_ne m p path f : p <> path -> sync_content m p f !! path = wal_durable m !! path.
Proof. unfold sync_content. destruct (wal_mode m); [done|]. apply lookup_insert_ne. Qed.

Lemma commit_sync_synced m p path :
  wal_durable m !! path = wal_files m !! path ->
  wal_durable (commit_sync m p) !! path = wal_files (commit_sync m p) !! path.
Proof.
  intros H. rewrite commit_sync_files. unfold commit_sync.
  destruct (wal_writers m !! p) as [[]|]; [|done|done]. cbn [wal_durable].
  destruct (wal_files m !! p) as [f|] eqn:E; [|done].
  destruct (decide (p = path)) as [->|]; [|by rewrite sync_content_ne].
  unfold sync_content. destruct (wal_mode m); [done|]. by rewrite lookup_insert_eq.
Qed.

Lemma commit_sync_self m path :
  wal_mode m = Durable -> wal_writers m !! path = Some true -> is_Some (wal_files m !! path) ->
  wal_durable (commit_sync m path) !! path = wal_files m !! path.
Proof.
  intros D H [f Hf]. unfold commit_sync. rewrite H. cbn. rewrite Hf. unfold sync_content. rewrite D. apply lookup_insert_eq.
Qed.

Lemma commit_sync_writers_ne m p path :
  p <> path -> wal_writers (commit_sync m p) !! path = wal_writers m !! path.
Proof.
  intros H. unfold commit_sync. destruct (wal_writers m !! p) as [[]|]; [|done|done].
  cbn. by rewrite lookup_insert_ne.
Qed.

Lemma fold_sync ps m path :
  wal_mode m = Durable -> is_Some (wal_files m !! path) ->
  (wal_durable m !! path = wal_files m !! path \/
   (path ∈ ps /\ wal_writers m !! path = Some true)) ->
  wal_files (foldl commit_sync m ps) = wal_files m /\
  wal_durable (foldl commit_sync m ps) !! path = wal_files m !! path.
Proof.
  revert m. induction ps as [|p ps IH]; intros m Md Hf H; cbn [foldl].
  { destruct H as [H|[H _]]; [done|]. by apply elem_of_nil in H. }
  rewrite <- (commit_sync_files m p). apply IH; [by rewrite commit_sync_mode|by rewrite commit_sync_files|].
  destruct H as [H|[H Hw]]; [left; by apply commit_sync_synced|].
  destruct (decide (p = path)) as [->|].
  - left. rewrite commit_sync_files. by apply commit_sync_self.
  - right. apply elem_of_cons in H as [->|H]; [done|].
    split; [done|]. by rewrite commit_sync_writers_ne.
Qed.

Lemma get_writer_file m path f :
  wal_files m !! path = Some f -> wal_files (get_writer m path) = wal_files m.
Proof.
  intros H. unfold get_writer. destruct (wal_writers m !! path); [done|].
  unfold open_writer. cbn. by rewrite H.
Qed.

Lemma get_writer_mode m path : wal_mode (get_writer m path) = wal_mode m.
Proof. unfold get_writer. by destruct (wal_writers m !! path). Qed.

Lemma append_no_wait_file m path type p f :
  wal_files m !! path = Some f ->
  wal_files (wal_append_record_no_wait m path type p) !! path = Some (f ++ wal_record_image type p).
Proof.
  intros H. unfold wal_append_record_no_wait, writer_append. cbn.
  rewrite (get_writer_file _ _ f) by done. by rewrite lookup_alter_eq, H.
Qed.

Lemma wal_image_snoc rs r : wal_image (rs ++ [r]) = wal_image rs ++ record_image r.
Proof. unfold wal_image. rewrite map_app, concat_app. cbn. by rewrite app_nil_r. Qed.

Lemma wal_read_image rs :
  Forall record_wf rs -> wal_read_records (Some (wal_header ++ wal_image rs)) = rs.
Proof.
  intros Hr. unfold wal_read_records, wal_header. rewrite sread_u32_app.
  change (negb _ || negb _) with false. cbv iota.
  pose proof (wal_read_cut (S (length (wal_header ++ wal_image rs))) (length (wal_image rs)) rs Hr) as E.
  rewrite take_ge, whole_records_all in E by lia. apply E.
  rewrite length_app. pose proof (length_wal_image rs). lia.
Qed.

(** A record appended through the manager to a log that holds [rs] is read
    back after them, and the synchronous append leaves no byte of that log
    outside the last sync in the mode [Durable]. *)
Theorem wal_append_read (m : WalManager) (path : bytes) (rs : list WalRecord) (r : WalRecord) :
  wal_mode m = Durable -> Forall record_wf rs -> record_wf r ->
  wal_files m !! path = Some (wal_header ++ wal_image rs) ->
  let m' := wal_append_record m path (wal_type r) (payload r) in
  wal_read_records (wal_files m' !! path) = rs ++ [r] /\
  wal_durable m' !! path = wal_files m' !! path.
Proof.
  intros Md Hrs Hr Hf. cbn zeta. unfold wal_append_record, sync_all_pending.
  set (m1 := wal_append_record_no_wait m path (wal_type r) (payload r)).
  assert (wal_files m1 !! path = Some (wal_header ++ wal_image (rs ++ [r]))) as E.
  { unfold m1. erewrite append_no_wait_file by done.
    by rewrite wal_image_snoc, <- app_assoc. }
  assert (wal_writers m1 !! path = Some true) as W by apply lookup_insert_eq.
  destruct (fold_sync (map_to_list (wal_writers m1)).*1 m1 path) as [F D].
  - unfold m1, wal_append_record_no_wait. cbn. by rewrite get_writer_mode.
  - by rewrite E.
  - right. split; [|done]. apply list_elem_of_fmap. exists (path, true). split; [done|].
    by apply elem_of_map_to_list.
  - rewrite D, F, E. split; [|done]. apply wal_read_image, Forall_app. auto.
Qed.

Lemma wal_append_read_witness :
  let m := mkWalManager {[ [Byte.x61] := wal_header ++ wal_image ex_records ]} ∅ ∅ Durable in
  let m' := wal_append_record m [Byte.x61] 12 [Byte.x09] in
  wal_read_records (wal_files m' !! [Byte.x61]) = ex_records ++ [mkWal 12 [Byte.x09]] /\
  wal_durable m' !! [Byte.x61] = wal_files m' !! [Byte.x61].
Proof.
  apply (wal_append_read _ _ ex_records (mkWal 12 [Byte.x09])); [reflexivity|
    by apply (bool_decide_unpack _) | by apply (bool_decide_unpack _) | reflexivity].
Defined.

(** In every interleaving, when [request_sync] returns to the thread that
    was the leader, the record that thread had appended is covered by a sync. *)
Theorem group_commit_leader_durable (nw : nat) (threads : list nat) (s : GroupCommit.state)
    (t w n : nat) :
  rtc GroupCommit.step (GroupCommit.init nw threads) s ->
  GroupCommit.gc_pc s !! t = Some (GroupCommit.Done w n true) ->
  GroupCommit.durable (GroupCommit.gc_writers s) w n.
Proof.
  intros Hr Ht. apply GroupCommit.reachable_inv in Hr as [_ Hp].
  by specialize (Hp t _ Ht).
Qed.

Import GroupCommit.

(** The first thread leads; the second appends to the same log after the leader
    has synced it and returns as a follower of the leader's epoch. *)
Lemma follower_trace :
  exists s, rtc step (init 1 [0; 1]%nat) s /\
    gc_pc s !! 1%nat = Some (Done 0 1 false) /\ gc_pc s !! 0%nat = Some (Done 0 0 true) /\
    gc_writers s = [mkGW 2 1 true].
Proof.
  eexists. split; [|split; [|split]].
  - eapply rtc_l; [eapply (step_get_writer _ _ _ 0 _ 0); [reflexivity|cbn; lia]|].
    eapply rtc_l; [eapply (step_get_writer _ _ _ 1 _ 0); [reflexivity|cbn; lia]|].
    eapply rtc_l; [eapply (step_append _ _ _ _ 0); reflexivity|].
    eapply rtc_l; [eapply (step_enter_leader _ _ _ 0); reflexivity|].
    eapply rtc_l; [eapply (step_leader_lock _ _ _ 0); reflexivity|].
    eapply rtc_l; [eapply (step_leader_sync _ _ _ _ 0); reflexivity|].
    eapply rtc_l; [eapply (step_append _ _ _ _ 1); reflexivity|].
    eapply rtc_l; [eapply (step_enter_follower _ _ _ _ 1); [reflexivity|lia]|].
    eapply rtc_l; [eapply (step_leader_unlock _ _ _ 0); reflexivity|].
    eapply rtc_l; [eapply (step_leader_finish _ _ _ _ 0); reflexivity|].
    eapply rtc_l; [eapply (step_follower_return _ _ _ _ 1); [reflexivity|lia]|].
    apply rtc_refl.
  - reflexivity.
  - reflexivity.
  - reflexivity.
Qed.

Lemma group_commit_leader_durable_witness :
  exists s, rtc step (init 1 [0; 1]%nat) s /\ durable (gc_writers s) 0 0.
Proof.
  destruct follower_trace as (s & Hr & _ & Ht & _). exists s. split; [exact Hr|].
  exact (group_commit_leader_durable 1 [0; 1]%nat s 0 0 0 Hr Ht).
Defined.

(** A follower gets no such guarantee: there is an interleaving in which
    [request_sync] returns to a follower whose record no sync has covered (the
    leader had already passed its log; the code does one pass, where its
    comment promises further rounds). *)
Theorem group_commit_follower_lost :
  exists s t w n, rtc step (init 1 [0; 1]%nat) s /\
    gc_pc s !! t = Some (Done w n false) /\
    written (gc_writers s) w n /\ ~ durable (gc_writers s) w n.
Proof.
  destruct follower_trace as (s & Hr & Ht & _ & Hw). exists s, 1%nat, 0%nat, 1%nat.
  split; [exact Hr|]. split; [exact Ht|]. rewrite Hw. split.
  - exists (mkGW 2 1 true). split; [reflexivity|cbn; lia].
  - intros (g & Hg & Hn). injection Hg as <-. cbn in Hn. lia.
Qed.
