(* ===== verification/Sst.v ===== *)
(** SSTable files of [src/storage/lsm_storage_engine.cpp], byte for byte:
    [write_sstable], the buffered reader [read_sstable] with its page checks, the
    streaming reader [next_rec] of [scan_visible_stream], and the timestamp scan
    of [max_observed_commit_ts]. *)
From Stdlib Require Import ZArith Lia Strings.Byte.
From stdpp Require Import base numbers list gmap strings.
From S2P Require Import Prelude Values Codec Checksum Bloom Wal.
Local Open Scope Z_scope.

Definition kDefaultPageSize : Z := 8192.
Definition kLsmMagic : Z := 0x4c534d32.

Definition align_up (n align : Z) : Z := (n + align - 1) / align * align.

(** One version of one row. *)
Record MemEntry := mkEntry { pk : Value; row : Row; tombstone : bool; commit_ts : Z }.

#[export] Instance MemEntry_eq_dec : EqDecision MemEntry.
Proof. solve_decision. Defined.

(** [std::vector<char>(n, 0)]. *)
Definition zeros (n : Z) : bytes := replicate (Z.to_nat n) Byte.x00.

(** * write_sstable *)

Definition entry_rec (e : MemEntry) : bytes :=
  if tombstone e then encode_key (pk e) else encode_row (row e).

Definition entry_image (e : MemEntry) : bytes :=
  z2b (if tombstone e then 2 else 1) :: le_enc 8 (commit_ts e)
  ++ le_enc 4 (u32 (blen (entry_rec e))) ++ entry_rec e.

Definition sst_payload (entries : list MemEntry) : bytes := concat (map entry_image entries).

Definition sst_header_raw (columns : list Column) : bytes :=
  let schema_buf := serialize_schema columns in
  le_enc 4 kLsmMagic ++ le_enc 4 (u32 (blen schema_buf)) ++ schema_buf.

Definition sst_header (columns : list Column) : bytes :=
  let raw := sst_header_raw columns in
  raw ++ zeros (align_up (blen raw) kDefaultPageSize - blen raw).

Definition page_count (data_bytes : Z) : Z :=
  if data_bytes =? 0 then 0 else (data_bytes + kDefaultPageSize - 1) / kDefaultPageSize.

(** Page [i] of a byte region, zero-filled to the page size. *)
Definition page_of (data : bytes) : bytes :=
  let p := take (Z.to_nat kDefaultPageSize) data in
  p ++ zeros (kDefaultPageSize - blen p).

Fixpoint pages_of (n : nat) (data : bytes) : list bytes :=
  match n with
  | O => []
  | S n => page_of data :: pages_of n (drop (Z.to_nat kDefaultPageSize) data)
  end.

Definition sst_pages (entries : list MemEntry) : list bytes :=
  let payload := sst_payload entries in
  pages_of (Z.to_nat (page_count (blen payload))) payload.

(** The keys given to the Bloom filter: adjacent duplicates once. *)
Fixpoint dedup_adjacent (acc : list bytes) (ks : list bytes) : list bytes :=
  match ks with
  | [] => rev acc
  | k :: ks => match acc with
               | k' :: _ => if bool_decide (k' = k) then dedup_adjacent acc ks
                            else dedup_adjacent (k :: acc) ks
               | [] => dedup_adjacent [k] ks
               end
  end.

Definition sst_footer (entries : list MemEntry) : SstFooter :=
  mkFooter
    (match entries with
     | [] => empty_bloom
     | _ => bloom_build empty_bloom (dedup_adjacent [] (map (fun e => encode_key (pk e)) entries))
     end)
    (map crc32c (sst_pages entries)).

Definition write_sstable (columns : list Column) (entries : list MemEntry) : bytes :=
  sst_header columns ++ concat (sst_pages entries) ++ serialize_sst_footer (sst_footer entries).

(** * read_sstable *)

(** The record loop over the data region (which ends with padding and footer). *)
Fixpoint decode_records (fuel : nat) (columns : list Column) (s : istream) : res (list MemEntry) :=
  match fuel with
  | O => Ok []
  | S fuel =>
      if s_eof s then Ok [] else
      let '(type, s) := sread_uint 1 s in
      let '(ts, s) := sread_uint 8 s in
      let '(len, s) := sread_uint 4 s in
      if negb (sok s) then Ok [] else
      match sread_ok len s with
      | None => Ok []
      | Some (rec, s) =>
          if type =? 1 then
            r ← decode_row rec columns;
            rest ← decode_records fuel columns s;
            Ok (mkEntry (extract_key r columns) r false ts :: rest)
          else if type =? 2 then
            k ← (match rec with [] => Ok VNull | _ => decode_key rec end);
            rest ← decode_records fuel columns s;
            Ok (mkEntry k (mkRow []) true ts :: rest)
          else decode_records fuel columns s
      end
  end.

(** [verify_page_crc] of page [i] of the data region: only the pages the
    footer's table covers are checked. *)
Definition verify_page_crc (crcs : list Z) (region : bytes) (i : nat) : res unit :=
  match crcs !! i with
  | None => Ok tt
  | Some c => if crc32c (page_of (drop (i * Z.to_nat kDefaultPageSize) region)) =? c then Ok tt
              else Throw "[LSM] SSTable page checksum mismatch"
  end.

Fixpoint verify_pages (crcs : list Z) (region : bytes) (i n : nat) : res unit :=
  match n with
  | O => Ok tt
  | S n => _ ← verify_page_crc crcs region i; verify_pages crcs region (S i) n
  end.

(** The data region of a file: what follows the page-aligned header. *)
Definition sst_data_region (file : bytes) : option bytes :=
  let '(magic, s) := sread_uint 4 (IStream file true) in
  let '(schema_bytes, s) := sread_uint 4 s in
  if negb (sok s) || negb (magic =? kLsmMagic) then None
  else let aligned := align_up (8 + schema_bytes) kDefaultPageSize in
       if blen file <? aligned then None else Some (drop (Z.to_nat aligned) file).

Definition read_sstable (file : option bytes) (columns : list Column) : res (list MemEntry) :=
  match file with
  | None => Ok []
  | Some file =>
      match sst_data_region file with
      | None => Ok []
      | Some data =>
          '(_, footer) ← load_sst_footer file;
          _ ← verify_pages (page_crcs footer) data 0 (Z.to_nat (page_count (blen data)));
          decode_records (S (length data)) columns (IStream data true)
      end
  end.

(** * The streaming reader *)

(** [read_bytes]: [n] bytes at [off] of the data region, each page touched being
    verified as it is pinned. *)
Definition read_bytes (crcs : list Z) (region : bytes) (off n : Z) : res bytes :=
  if n <=? 0 then Ok [] else
  let first := off / kDefaultPageSize in
  let last := (off + n - 1) / kDefaultPageSize in
  _ ← verify_pages crcs region (Z.to_nat first) (Z.to_nat (last - first + 1));
  Ok (take (Z.to_nat n) (drop (Z.to_nat off) region)).

(** [next_rec]: the record at [pos], with the position after it. *)
Definition next_rec (columns : list Column) (crcs : list Z) (region : bytes) (pos : Z)
    : res (option (MemEntry * Z)) :=
  if blen region <? pos + 13 then Ok None else
  h ← read_bytes crcs region pos 13;
  let type := b2z (nth 0 h Byte.x00) in
  if negb (type =? 1) && negb (type =? 2) then Ok None else
  let ts := le_dec (take 8 (drop 1 h)) in
  let len := le_dec (take 4 (drop 9 h)) in
  if blen region <? pos + 13 + len then Ok None else
  rec ← read_bytes crcs region (pos + 13) len;
  if type =? 1 then
    r ← decode_row rec columns;
    Ok (Some (mkEntry (extract_key r columns) r false ts, pos + 13 + len))
  else
    k ← (match rec with [] => Ok VNull | _ => decode_key rec end);
    Ok (Some (mkEntry k (mkRow []) true ts, pos + 13 + len)).

(** All records a stream source yields. *)
Fixpoint stream_records (fuel : nat) (columns : list Column) (crcs : list Z)
    (region : bytes) (pos : Z) : res (list MemEntry) :=
  match fuel with
  | O => Ok []
  | S fuel =>
      o ← next_rec columns crcs region pos;
      match o with
      | None => Ok []
      | Some (e, pos) => es ← stream_records fuel columns crcs region pos; Ok (e :: es)
      end
  end.

Definition stream_sstable (file : option bytes) (columns : list Column) : res (list MemEntry) :=
  match file with
  | None => Ok []
  | Some file =>
      match sst_data_region file with
      | None => Ok []
      | Some region =>
          '(_, footer) ← load_sst_footer file;
          stream_records (S (length region)) columns (page_crcs footer) region 0
      end
  end.

(** * max_observed_commit_ts *)

(** [seekg(len, cur)] on a good stream; seeking past the end leaves EOF next. *)
Definition seek_cur (len : Z) (s : istream) : istream :=
  IStream (if has_bytes len (sdata s) then drop (Z.to_nat len) (sdata s) else []) (sok s).

Fixpoint max_ts_loop (fuel : nat) (max_ts : Z) (s : istream) : Z :=
  match fuel with
  | O => max_ts
  | S fuel =>
      if s_eof s then max_ts else
      let '(type, s) := sread_uint 1 s in
      let '(ts, s) := sread_uint 8 s in
      let '(len, s) := sread_uint 4 s in
      if negb (sok s) then max_ts
      else max_ts_loop fuel (Z.max max_ts ts) (seek_cur len s)
  end.

(** The scan of one SSTable file: it starts right after the schema, not at the
    page-aligned data region. *)
Definition max_ts_sstable (max_ts : Z) (file : bytes) : Z :=
  let '(magic, s) := sread_uint 4 (IStream file true) in
  let '(schema_bytes, s) := sread_uint 4 s in
  if negb (sok s) || negb (magic =? kLsmMagic) then max_ts
  else max_ts_loop (S (length file)) max_ts (seek_cur schema_bytes s).

(** The scan of one WAL file: records of type 11 and 12 carry their timestamp first. *)
Definition max_ts_wal (max_ts : Z) (file : bytes) : Z :=
  foldl (fun m r =>
    if ((wal_type r =? 11) || (wal_type r =? 12)) && (8 <=? blen (payload r))
    then Z.max m (le_dec (take 8 (payload r))) else m)
    max_ts (wal_read_records (Some file)).

Definition max_observed_commit_ts (wals ssts : list bytes) : Z :=
  foldl max_ts_sstable (foldl max_ts_wal 0 wals) ssts.

(** * Layout of a written file *)

Lemma page_size_pos : 0 < kDefaultPageSize.
Proof. reflexivity. Qed.

#[local] Opaque kDefaultPageSize.

Lemma blen_zeros n : 0 <= n -> blen (zeros n) = n.
Proof. intros. unfold blen, zeros. rewrite length_replicate. lia. Qed.

Lemma align_up_bounds n a : 0 < a -> 0 <= n -> n <= align_up n a < n + a.
Proof.
  intros Ha Hn. unfold align_up.
  pose proof (Z.div_mod (n + a - 1) a ltac:(lia)).
  pose proof (Z.mod_pos_bound (n + a - 1) a ltac:(lia)). lia.
Qed.

Lemma blen_page_of d : blen (page_of d) = kDefaultPageSize.
Proof.
  unfold page_of. rewrite blen_app, blen_zeros; [lia|].
  unfold blen. rewrite length_take. pose proof page_size_pos. lia.
Qed.

Lemma length_page_of d : length (page_of d) = Z.to_nat kDefaultPageSize.
Proof. pose proof (blen_page_of d). unfold blen in *. lia. Qed.

Lemma length_pages_of n d : length (pages_of n d) = n.
Proof. revert d. induction n; intros; cbn; auto. Qed.

Lemma page_count_bounds d :
  0 <= d -> d <= page_count d * kDefaultPageSize < d + kDefaultPageSize.
Proof.
  intros H. pose proof page_size_pos. unfold page_count. destruct (Z.eqb_spec d 0); [lia|].
  pose proof (align_up_bounds d kDefaultPageSize ltac:(lia) ltac:(lia)). unfold align_up in *. lia.
Qed.

Lemma page_count_nonneg d : 0 <= d -> 0 <= page_count d.
Proof. intros H. pose proof (page_count_bounds d H). pose proof page_size_pos. nia. Qed.

(** The pages laid end to end are the payload followed by zeros. *)
Lemma concat_pages_of n d :
  (length d <= n * Z.to_nat kDefaultPageSize)%nat ->
  concat (pages_of n d) = d ++ zeros (Z.of_nat n * kDefaultPageSize - blen d).
Proof.
  pose proof page_size_pos as Hp. revert d. induction n as [|n IH]; intros d Hd.
  { destruct d; [done|]. cbn in Hd. lia. }
  cbn [pages_of concat].
  destruct (decide (length d <= Z.to_nat kDefaultPageSize)%nat) as [Hs|Hs].
  - rewrite (drop_ge d) by done. rewrite IH by (cbn; lia).
    unfold page_of. rewrite take_ge by done. rewrite <- app_assoc. f_equal.
    unfold zeros, blen. cbn [length app]. rewrite <- replicate_add. f_equal. lia.
  - rewrite IH by (rewrite length_drop; lia). unfold page_of.
    rewrite (blen_take _ d) by lia. rewrite Z2Nat.id, Z.sub_diag by lia.
    change (zeros 0) with (@nil byte). rewrite app_nil_r, app_assoc, take_drop.
    f_equal. f_equal. rewrite blen_drop. unfold blen. lia.
Qed.

Lemma pages_of_lookup n d i p :
  pages_of n d !! i = Some p -> p = page_of (drop (i * Z.to_nat kDefaultPageSize) d).
Proof.
  revert d i. induction n as [|n IH]; intros d i H; [done|]. destruct i as [|i].
  - cbn in H. by simplify_eq.
  - cbn in H. apply IH in H. rewrite H, drop_drop. done.
Qed.

(** Dropping whole pages of a concatenation. *)
Lemma drop_concat_pages (ps : list bytes) i rest :
  Forall (fun p => length p = Z.to_nat kDefaultPageSize) ps -> (i <= length ps)%nat ->
  drop (i * Z.to_nat kDefaultPageSize) (concat ps ++ rest) = concat (drop i ps) ++ rest.
Proof.
  intros H. revert i. induction H as [|p ps Hp _ IH]; intros i Hi.
  { cbn in Hi. by replace i with 0%nat by lia. }
  destruct i as [|i]; [done|]. cbn [concat drop Nat.mul].
  rewrite <- app_assoc, drop_app_add' by done. apply IH. cbn in Hi. lia.
Qed.

Lemma page_of_concat p (ps : list bytes) rest :
  length p = Z.to_nat kDefaultPageSize -> page_of (concat (p :: ps) ++ rest) = p.
Proof.
  intros Hp. pose proof page_size_pos. unfold page_of. cbn [concat].
  rewrite <- app_assoc, take_app_length' by done.
  replace (kDefaultPageSize - blen p) with 0 by (unfold blen; lia). apply app_nil_r.
Qed.

Lemma verify_page_written (ps : list bytes) rest i :
  Forall (fun p => length p = Z.to_nat kDefaultPageSize) ps ->
  verify_page_crc (map crc32c ps) (concat ps ++ rest) i = Ok tt.
Proof.
  intros H. unfold verify_page_crc. change (map crc32c ps) with (crc32c <$> ps).
  rewrite list_lookup_fmap. destruct (ps !! i) as [p|] eqn:E; [|done]. cbn [fmap option_fmap option_map].
  pose proof (lookup_lt_Some _ _ _ E). rewrite drop_concat_pages by (done || lia).
  rewrite (drop_S ps p i) by done. rewrite page_of_concat by (exact (Forall_lookup_1 _ _ _ _ H E)).
  by rewrite Z.eqb_refl.
Qed.

Lemma verify_pages_written (ps : list bytes) rest i n :
  Forall (fun p => length p = Z.to_nat kDefaultPageSize) ps ->
  verify_pages (map crc32c ps) (concat ps ++ rest) i n = Ok tt.
Proof.
  intros H. revert i. induction n as [|n IH]; intros i; [done|]. cbn [verify_pages].
  rewrite verify_page_written by done. cbn. apply IH.
Qed.

Lemma sst_pages_length es :
  Forall (fun p => length p = Z.to_nat kDefaultPageSize) (sst_pages es).
Proof.
  apply Forall_forall. intros p Hp. apply list_elem_of_lookup in Hp as [i Hi].
  apply pages_of_lookup in Hi as ->. apply length_page_of.
Qed.

(** What follows the records in the data region: zero padding, then the footer. *)
Definition sst_tail (es : list MemEntry) : bytes :=
  zeros (page_count (blen (sst_payload es)) * kDefaultPageSize - blen (sst_payload es))
  ++ serialize_sst_footer (sst_footer es).

Lemma sst_region_eq es :
  concat (sst_pages es) ++ serialize_sst_footer (sst_footer es) = sst_payload es ++ sst_tail es.
Proof.
  unfold sst_pages, sst_tail. pose proof (blen_nonneg (sst_payload es)) as H.
  pose proof (page_count_bounds _ H) as B. pose proof (page_count_nonneg _ H).
  pose proof page_size_pos.
  rewrite concat_pages_of by (unfold blen in *; nia).
  rewrite Z2Nat.id by done. by rewrite <- app_assoc.
Qed.

Lemma sst_data_region_app columns rest :
  blen (serialize_schema columns) < 2 ^ 32 ->
  sst_data_region (sst_header columns ++ rest) = Some rest.
Proof.
  intros Hs. pose proof (blen_nonneg (serialize_schema columns)) as H0. pose proof page_size_pos.
  pose proof (blen_nonneg rest).
  assert (blen (sst_header_raw columns) = 8 + blen (serialize_schema columns)) as Hr.
  { unfold sst_header_raw. rewrite !blen_app, !blen_le_enc. lia. }
  pose proof (align_up_bounds (8 + blen (serialize_schema columns)) kDefaultPageSize
                ltac:(lia) ltac:(lia)) as Ha.
  assert (blen (sst_header columns) = align_up (8 + blen (serialize_schema columns)) kDefaultPageSize) as Hh.
  { unfold sst_header. rewrite blen_app, Hr, blen_zeros by lia. lia. }
  unfold sst_data_region. rewrite blen_app, Hh.
  unfold sst_header at 1, sst_header_raw at 1. rewrite <- !app_assoc, !sread_u32_app.
  rewrite (Z.mod_small kLsmMagic) by (vm_compute; split; congruence).
  rewrite (wrap_small 32), Z.mod_small by lia.
  rewrite Z.eqb_refl. cbn [negb orb sok].
  match goal with |- context [?a <? ?b] => destruct (Z.ltb_spec a b); [lia|] end.
  f_equal. by apply drop_suffix.
Qed.

(** * Well-formed tables *)

Definition sst_entry_ok (columns : list Column) (e : MemEntry) : Prop :=
  0 <= commit_ts e < 2 ^ 64 /\ blen (entry_rec e) < 2 ^ 32 /\
  if tombstone e then value_wf (pk e) /\ row e = mkRow []
  else row_wf (row e) /\ length (values (row e)) = length columns /\
       pk e = extract_key (row e) columns.

Definition sst_ok (columns : list Column) (es : list MemEntry) : Prop :=
  Forall (sst_entry_ok columns) es /\
  Z.of_nat (length columns) < 2 ^ 32 /\ blen (serialize_schema columns) < 2 ^ 32 /\
  blen (footer_serialize (sst_footer es)) < 2 ^ 32.

#[export] Instance sst_entry_ok_dec columns e : Decision (sst_entry_ok columns e).
Proof. unfold sst_entry_ok. destruct (tombstone e); apply _. Defined.
#[export] Instance sst_ok_dec columns es : Decision (sst_ok columns es).
Proof. unfold sst_ok. apply _. Defined.

Lemma dedup_adjacent_nonempty acc ks : acc <> [] \/ ks <> [] -> dedup_adjacent acc ks <> [].
Proof.
  revert acc. induction ks as [|k ks IH]; intros acc H; cbn.
  - destruct H as [H|H]; [|done]. intros E. apply H. rewrite <- (rev_involutive acc), E. done.
  - destruct acc as [|k' acc]; [by apply IH; left|].
    destruct (bool_decide _); apply IH; by left.
Qed.

Lemma sst_footer_wf es : blen (footer_serialize (sst_footer es)) < 2 ^ 32 -> footer_wf (sst_footer es).
Proof.
  intros H. split; [|split; [|done]].
  - destruct es as [|e es]; [vm_compute; intuition congruence|].
    apply bloom_build_wf; [cbn; lia|]. apply dedup_adjacent_nonempty. by right.
  - cbn [page_crcs sst_footer]. apply Forall_map, Forall_true. intros. apply crc32c_range.
Qed.

Lemma load_written_footer columns es :
  sst_ok columns es -> load_sst_footer (write_sstable columns es) = Ok (true, sst_footer es).
Proof.
  intros (_ & _ & _ & Hf). unfold write_sstable. rewrite app_assoc.
  by apply footer_load_app, sst_footer_wf.
Qed.

Lemma written_region columns es :
  sst_ok columns es ->
  sst_data_region (write_sstable columns es) = Some (sst_payload es ++ sst_tail es).
Proof.
  intros (_ & _ & Hs & _). unfold write_sstable. by rewrite sst_data_region_app, sst_region_eq.
Qed.

(** * Decoding *)

Lemma decode_entry_rec columns e :
  sst_entry_ok columns e -> Z.of_nat (length columns) < 2 ^ 32 ->
  (if tombstone e
   then match entry_rec e with [] => Ok VNull | _ => decode_key (entry_rec e) end
        = Ok (pk e) /\ row e = mkRow []
   else decode_row (entry_rec e) columns = Ok (row e) /\ pk e = extract_key (row e) columns).
Proof.
  intros (_ & _ & H) Hc. unfold entry_rec in *. destruct (tombstone e).
  - destruct H as [Hw Hr]. split; [|done].
    rewrite <- (app_nil_r (encode_key (pk e))).
    pose proof (decode_encode_key (pk e) [] Hw) as D.
    destruct (encode_key (pk e) ++ []) eqn:E; [|exact D].
    destruct (pk e); done.
  - destruct H as (Hw & Hl & Hp). split; [|done].
    rewrite <- (app_nil_r (encode_row (row e))). by apply decode_encode_row.
Qed.

Lemma decode_records_cons fuel columns e rest :
  sst_entry_ok columns e -> Z.of_nat (length columns) < 2 ^ 32 ->
  decode_records (S fuel) columns (IStream (entry_image e ++ rest) true)
  = (tl ← decode_records fuel columns (IStream rest true); Ok (e :: tl)).
Proof.
  intros He Hc. pose proof (decode_entry_rec _ _ He Hc) as D. destruct He as (Ht & Hl & _).
  pose proof (blen_nonneg (entry_rec e)).
  cbn [decode_records]. unfold entry_image. cbn [app].
  match goal with |- context [s_eof ?s] => change (s_eof s) with false end. cbv iota.
  rewrite sread_u8_app, <- !app_assoc, sread_u64_app, sread_u32_app.
  rewrite (wrap_small 32), (Z.mod_small (blen _)), (Z.mod_small (commit_ts e)) by lia.
  cbn [negb sok]. rewrite sread_ok_app by done.
  destruct e as [k r tb ts]. cbn [tombstone pk row commit_ts] in *. destruct tb.
  - destruct D as [D ->]. change (2 mod 256 =? 1) with false. change (2 mod 256 =? 2) with true.
    cbv iota. rewrite D. cbn. by destruct (decode_records _ _ _).
  - destruct D as [D ->]. change (1 mod 256 =? 1) with true. cbv iota. rewrite D. cbn.
    by destruct (decode_records _ _ _).
Qed.

Lemma decode_records_app fuel columns es rest :
  Forall (sst_entry_ok columns) es -> Z.of_nat (length columns) < 2 ^ 32 ->
  decode_records (length es + fuel) columns (IStream (sst_payload es ++ rest) true)
  = (tl ← decode_records fuel columns (IStream rest true); Ok (es ++ tl)).
Proof.
  intros H Hc. unfold sst_payload. induction H as [|e es He _ IH].
  - cbn. by destruct (decode_records _ _ _).
  - cbn [length Nat.add map concat]. rewrite <- app_assoc, decode_records_cons, IH by done.
    unfold mbind, res_bind.
    by destruct (decode_records fuel columns (IStream rest true)).
Qed.

(** The fuel of the record loop is enough: a round consumes at least its header. *)
Lemma sread_len n s b s' :
  sread_uint n s = (b, s') -> 0 <= n ->
  (length (sdata s') <= length (sdata s))%nat /\
  (sok s' = true -> sok s = true /\ Z.of_nat (length (sdata s')) = blen (sdata s) - n).
Proof.
  unfold sread_uint, sread. rewrite has_bytes_spec. intros H Hn. destruct (sok s) eqn:E.
  - destruct (Z.leb_spec n (blen (sdata s))); simplify_eq; cbn.
    + rewrite length_drop. split; [lia|]. unfold blen in *. split; [done|lia].
    + split; [lia|done].
  - simplify_eq. split; [lia|congruence].
Qed.

Lemma decode_records_fuel f1 f2 columns s :
  (length (sdata s) < f1)%nat -> (length (sdata s) < f2)%nat ->
  decode_records f1 columns s = decode_records f2 columns s.
Proof.
  revert f2 s. induction f1 as [|f1 IH]; intros [|f2] s H1 H2; [lia|lia|lia|].
  cbn [decode_records]. destruct (s_eof s); [done|].
  destruct (sread_uint 1 s) as [ty s1] eqn:E1. apply sread_len in E1 as [L1 K1]; [|lia].
  destruct (sread_uint 8 s1) as [ts s2] eqn:E2. apply sread_len in E2 as [L2 K2]; [|lia].
  destruct (sread_uint 4 s2) as [len s3] eqn:E3. apply sread_len in E3 as [L3 K3]; [|lia].
  destruct (sok s3) eqn:Ok3; cbn [negb]; [|done].
  destruct (K3 eq_refl) as [Ok2 D3]. destruct (K2 Ok2) as [Ok1 D2]. destruct (K1 Ok1) as [_ D1].
  unfold sread_ok. destruct (sok s3 && has_bytes len (sdata s3)); [|done].
  assert (forall s', (length (sdata s') <= length (sdata s3))%nat ->
    decode_records f1 columns s' = decode_records f2 columns s') as R.
  { intros s' Hs'. apply IH; unfold blen in *; lia. }
  rewrite R by (cbn [sdata]; rewrite length_drop; lia). done.
Qed.

Lemma length_payload es : (length es <= length (sst_payload es))%nat.
Proof.
  unfold sst_payload. induction es as [|e es IH]; cbn [map concat length]; [lia|].
  rewrite length_app. unfold entry_image at 1. cbn [length]. lia.
Qed.

Lemma read_bytes_ok crcs region off n :
  (forall i m, verify_pages crcs region i m = Ok tt) -> 0 <= n ->
  read_bytes crcs region off n = Ok (take (Z.to_nat n) (drop (Z.to_nat off) region)).
Proof.
  intros Hv Hn. unfold read_bytes. destruct (Z.leb_spec n 0).
  - by replace n with 0 by lia.
  - by rewrite Hv.
Qed.

Lemma blen_entry_image e : blen (entry_image e) = 13 + blen (entry_rec e).
Proof.
  unfold entry_image. rewrite <- (app_nil_r (le_enc 8 _ ++ _)).
  change (?a :: ?l) with ([a] ++ l). rewrite !blen_app, !blen_le_enc. unfold blen. cbn [length]. lia.
Qed.

Lemma next_rec_entry columns crcs pre e rest :
  (forall i m, verify_pages crcs (pre ++ entry_image e ++ rest) i m = Ok tt) ->
  sst_entry_ok columns e -> Z.of_nat (length columns) < 2 ^ 32 ->
  next_rec columns crcs (pre ++ entry_image e ++ rest) (blen pre)
  = Ok (Some (e, blen pre + blen (entry_image e))).
Proof.
  intros Hv He Hc. pose proof (decode_entry_rec _ _ He Hc) as D. destruct He as (Ht & Hl & _).
  pose proof (blen_nonneg (entry_rec e)). pose proof (blen_nonneg rest). pose proof (blen_nonneg pre).
  unfold next_rec. rewrite !read_bytes_ok by (done || lia).
  rewrite !blen_app, !blen_entry_image.
  destruct (Z.ltb_spec (blen pre + (13 + blen (entry_rec e) + blen rest)) (blen pre + 13)); [lia|].
  rewrite drop_suffix by done.
  assert (take (Z.to_nat 13) (entry_image e ++ rest)
    = z2b (if tombstone e then 2 else 1) :: le_enc 8 (commit_ts e) ++
      le_enc 4 (u32 (blen (entry_rec e)))) as -> by reflexivity.
  cbn [mbind res_bind nth]. rewrite b2z_z2b.
  assert (take 8 (drop 1 (z2b (if tombstone e then 2 else 1) :: le_enc 8 (commit_ts e) ++
      le_enc 4 (u32 (blen (entry_rec e))))) = le_enc 8 (commit_ts e)) as -> by reflexivity.
  assert (take 4 (drop 9 (z2b (if tombstone e then 2 else 1) :: le_enc 8 (commit_ts e) ++
      le_enc 4 (u32 (blen (entry_rec e))))) = le_enc 4 (u32 (blen (entry_rec e)))) as -> by reflexivity.
  rewrite (wrap_small 32), le_dec_u64, le_dec_u32 by lia.
  destruct (Z.ltb_spec (blen pre + (13 + blen (entry_rec e) + blen rest))
             (blen pre + 13 + blen (entry_rec e))); [lia|].
  rewrite read_bytes_ok by (done || lia).
  assert (take (Z.to_nat (blen (entry_rec e))) (drop (Z.to_nat (blen pre + 13))
    (pre ++ entry_image e ++ rest)) = entry_rec e) as ->.
  { replace (pre ++ entry_image e ++ rest)
      with ((pre ++ z2b (if tombstone e then 2 else 1) :: le_enc 8 (commit_ts e) ++
             le_enc 4 (u32 (blen (entry_rec e)))) ++ entry_rec e ++ rest).
    - rewrite drop_suffix, to_nat_blen, take_app_length; [done|].
      rewrite blen_app. unfold blen. cbn [length]. rewrite length_app, !length_le_enc. lia.
    - unfold entry_image. cbn [app]. rewrite <- !app_assoc. cbn [app]. by rewrite <- !app_assoc. }
  destruct e as [k r tb ts]. cbn [tombstone pk row commit_ts mbind res_bind] in *.
  destruct tb; destruct D as [D ->].
  - change (2 mod 256) with 2. cbn [Z.eqb Pos.eqb negb andb]. rewrite D. cbn [mbind res_bind].
    by rewrite Z.add_assoc.
  - change (1 mod 256) with 1. cbn [Z.eqb Pos.eqb negb andb]. rewrite D. cbn [mbind res_bind].
    by rewrite Z.add_assoc.
Qed.

(** The byte after the last record is zero padding or the footer's magic. *)
Lemma sst_tail_head es :
  exists b t, sst_tail es = b :: t /\ (b2z b =? 1) = false /\ (b2z b =? 2) = false.
Proof.
  unfold sst_tail. set (k := _ * _ - _). unfold zeros. destruct (Z.to_nat k) as [|n]; cbn.
  - eexists _, _. split; [reflexivity|]. done.
  - eexists _, _. split; [reflexivity|]. done.
Qed.

Lemma next_rec_tail columns crcs es :
  (forall i m, verify_pages crcs (sst_payload es ++ sst_tail es) i m = Ok tt) ->
  next_rec columns crcs (sst_payload es ++ sst_tail es) (blen (sst_payload es)) = Ok None.
Proof.
  intros Hv. unfold next_rec. destruct (Z.ltb_spec (blen (sst_payload es ++ sst_tail es))
    (blen (sst_payload es) + 13)); [done|].
  rewrite read_bytes_ok by (done || lia). rewrite drop_suffix by done.
  destruct (sst_tail_head es) as (b & t & -> & E1 & E2). cbn [mbind res_bind].
  change (take (Z.to_nat 13) (b :: t)) with (b :: take 12 t). cbn [nth]. by rewrite E1, E2.
Qed.

Lemma stream_records_from columns crcs es1 es2 fuel :
  (forall i m, verify_pages crcs (sst_payload (es1 ++ es2) ++ sst_tail (es1 ++ es2)) i m = Ok tt) ->
  Forall (sst_entry_ok columns) es2 -> Z.of_nat (length columns) < 2 ^ 32 ->
  (length es2 < fuel)%nat ->
  stream_records fuel columns crcs (sst_payload (es1 ++ es2) ++ sst_tail (es1 ++ es2))
    (blen (sst_payload es1)) = Ok es2.
Proof.
  intros Hv H Hc. revert es1 fuel Hv. induction H as [|e es2 He _ IH]; intros es1 fuel Hv Hf;
    destruct fuel as [|fuel]; try lia; cbn [stream_records].
  - rewrite app_nil_r in *. by rewrite next_rec_tail.
  - assert (sst_payload (es1 ++ e :: es2) ++ sst_tail (es1 ++ e :: es2) =
      sst_payload es1 ++ entry_image e ++ (sst_payload es2 ++ sst_tail (es1 ++ e :: es2))) as E.
    { unfold sst_payload at 1 2 3. rewrite map_app, concat_app. cbn [map concat].
      by rewrite <- !app_assoc. }
    rewrite E in *. rewrite next_rec_entry by done. cbn [mbind res_bind].
    rewrite <- E in *.
    replace (blen (sst_payload es1) + blen (entry_image e)) with (blen (sst_payload (es1 ++ [e]))).
    + replace (es1 ++ e :: es2) with ((es1 ++ [e]) ++ es2) in * by (by rewrite <- app_assoc).
      rewrite IH; [done|done|cbn in Hf; lia].
    + unfold sst_payload. rewrite map_app, concat_app, blen_app. cbn. by rewrite app_nil_r.
Qed.

Lemma read_written (columns : list Column) (es : list MemEntry) :
  sst_ok columns es ->
  read_sstable (Some (write_sstable columns es)) columns
  = (tl ← decode_records (S (length (sst_tail es))) columns (IStream (sst_tail es) true);
     Ok (es ++ tl)).
Proof.
  intros Hok. unfold read_sstable. rewrite written_region, load_written_footer by done.
  cbn [mbind res_bind page_crcs sst_footer].
  rewrite <- sst_region_eq at 1. rewrite verify_pages_written by apply sst_pages_length.
  cbn [mbind res_bind]. destruct Hok as (He & Hc & _).
  set (data := sst_payload es ++ sst_tail es).
  rewrite (decode_records_fuel _ (length es + S (length data))) by (cbn [sdata]; lia).
  unfold data at 2. rewrite decode_records_app by done.
  rewrite (decode_records_fuel (S (length data)) (S (length (sst_tail es)))); [done| |cbn; lia].
  unfold data. cbn [sdata]. rewrite length_app. lia.
Qed.

Lemma stream_written (columns : list Column) (es : list MemEntry) :
  sst_ok columns es -> stream_sstable (Some (write_sstable columns es)) columns = Ok es.
Proof.
  intros Hok. unfold stream_sstable. rewrite written_region, load_written_footer by done.
  cbn [mbind res_bind page_crcs sst_footer]. destruct Hok as (He & Hc & _).
  apply (stream_records_from columns (map crc32c (sst_pages es)) [] es); [|done|done|].
  - intros i m. cbn [app]. rewrite <- sst_region_eq. apply verify_pages_written, sst_pages_length.
  - rewrite length_app. pose proof (length_payload es). lia.
Qed.

(** * Properties *)

(** C36: reading back a written SSTable passes every page check and yields the
    written entries followed by whatever the record loop makes of the zero
    padding and footer bytes, which the reader does not separate from the data. *)
Theorem sstable_read_written (columns : list Column) (es : list MemEntry) :
  sst_ok columns es ->
  read_sstable (Some (write_sstable columns es)) columns
  = (tl ← decode_records (S (length (sst_tail es))) columns (IStream (sst_tail es) true);
     Ok (es ++ tl)).
Proof. apply read_written. Qed.


Definition ex_cols : list Column :=
  [mkColumn [] (str "id") Int64 0 0 false false; mkColumn [] (str "name") Text 0 0 false false].
Definition ex_entry (id : Z) (name : string) : MemEntry :=
  mkEntry (VInt id) (mkRow [VInt id; VText (str name)]) false 7.

Lemma sstable_read_written_witness :
  read_sstable (Some (write_sstable ex_cols [ex_entry 1 "bob"])) ex_cols = Ok [ex_entry 1 "bob"].
Proof.
  rewrite (sstable_read_written ex_cols [ex_entry 1 "bob"]) by (apply (bool_decide_unpack _); vm_compute; exact I).
  vm_compute. reflexivity.
Defined.

(** The streaming reader stops at the padding, so it reads a written
    SSTable back as exactly the written entries. *)
Theorem sstable_stream_roundtrip (columns : list Column) (es : list MemEntry) :
  sst_ok columns es -> stream_sstable (Some (write_sstable columns es)) columns = Ok es.
Proof. apply stream_written. Qed.

Lemma sstable_stream_roundtrip_witness :
  stream_sstable (Some (write_sstable ex_cols [ex_entry 39 "alice"])) ex_cols
  = Ok [ex_entry 39 "alice"].
Proof.
  apply sstable_stream_roundtrip. apply (bool_decide_unpack _); vm_compute; exact I.
Defined.

(** The buffered reader can fail on a file it wrote itself.  For the table
    (id INT, name TEXT) holding the single row (39, 'alice') the footer's page
    count is parsed as a row record of length zero and reading the table throws,
    while the streaming reader returns the row. *)
Theorem sstable_read_rejects_own_file :
  sst_ok ex_cols [ex_entry 39 "alice"] /\
  is_ok (read_sstable (Some (write_sstable ex_cols [ex_entry 39 "alice"])) ex_cols) = false /\
  stream_sstable (Some (write_sstable ex_cols [ex_entry 39 "alice"])) ex_cols
  = Ok [ex_entry 39 "alice"].
Proof.
  assert (sst_ok ex_cols [ex_entry 39 "alice"]) as Hok
    by (apply (bool_decide_unpack _); vm_compute; exact I).
  split; [done|]. rewrite read_written, stream_written by done. split; [|done].
  vm_compute. reflexivity.
Qed.

(** After a flush truncated the log, the restart scan for the largest commit
    timestamp can miss every version of a table: it starts at the unaligned end
    of the schema, so for the table (a INT) whose row has commit timestamp 7 it
    returns 0, and new transactions reuse timestamps that are already taken. *)
Lemma max_observed_ts_misses_versions :
  let cols := [mkColumn [] (str "a") Int64 0 0 false false] in
  let e := mkEntry (VInt 39) (mkRow [VInt 39]) false 7 in
  sst_ok cols [e] /\
  stream_sstable (Some (write_sstable cols [e])) cols = Ok [e] /\
  max_observed_commit_ts [wal_header] [write_sstable cols [e]] = 0.
Proof.
  cbn zeta. set (e := mkEntry _ _ _ _).
  assert (sst_ok [mkColumn [] (str "a") Int64 0 0 false false] [e]) as Hok
    by (apply (bool_decide_unpack _); vm_compute; exact I).
  split; [done|]. rewrite stream_written by done. split; [done|].
  vm_compute. reflexivity.
Qed.
