(* ===== verification/Store.v ===== *)
(** The interface between the LSM engine and its SSTable files, with two
    implementations: the byte files of [Sst] and files kept decoded.

    The engine's operations and theorems are stated over [SstStore]/[SstLaws];
    [sst_fits] is the condition under which a written file reads back.  For byte
    files it also asks that the record loop of [read_sstable] finds nothing in
    the padding and footer it runs into (see [Sst.sstable_read_rejects_own_file]). *)
From Stdlib Require Import ZArith Lia Strings.Byte.
From stdpp Require Import base numbers list gmap strings.
From S2P Require Import Prelude Values Codec Checksum Bloom Wal Sst.
Local Open Scope Z_scope.

Class SstStore (F : Type) := {
  (** [write_sstable] *)
  sst_write : list Column -> list MemEntry -> F;
  (** the header is complete, carries the magic and the data region exists *)
  sst_valid : F -> bool;
  (** [read_sstable] and the records of the streaming reader, on a valid file *)
  sst_read : F -> list Column -> res (list MemEntry);
  sst_stream : F -> list Column -> res (list MemEntry);
  (** the schema in the header, as [load_state_locked] reads it *)
  sst_schema : F -> bytes -> res (list Column);
  (** [read_sstable_header_schema] *)
  sst_header_schema : F -> bytes -> res (option (list Column));
  sst_load_footer : F -> res SstFooter;
  sst_file_size : F -> Z;
  sst_trailer_crc : F -> Z
}.

(** What a footer promises about the keys of its file. *)
Definition bloom_covers (ft : SstFooter) (es : list MemEntry) : Prop :=
  forall e, e ∈ es -> bloom_valid (ft_bloom ft) = true ->
    maybe_contains (ft_bloom ft) (encode_key (pk e)) = true.

Class SstLaws (F : Type) `{SstStore F} := {
  sst_fits : list Column -> list MemEntry -> Prop;
  sst_valid_write cols es : sst_fits cols es -> sst_valid (sst_write cols es) = true;
  sst_read_write cols es : sst_fits cols es -> sst_read (sst_write cols es) cols = Ok es;
  sst_stream_write cols es : sst_fits cols es -> sst_stream (sst_write cols es) cols = Ok es;
  sst_schema_write cols es name :
    sst_fits cols es -> sst_schema (sst_write cols es) name = Ok (map (persisted_column name) cols);
  sst_footer_write cols es :
    sst_fits cols es -> exists ft, sst_load_footer (sst_write cols es) = Ok ft /\ bloom_covers ft es
}.

(** * Byte files *)

Definition read_schema (file : bytes) (name : bytes) : res (list Column) :=
  let '(magic, s) := sread_uint 4 (IStream file true) in
  let '(schema_bytes, s) := sread_uint 4 s in
  if negb (sok s) || negb (magic =? kLsmMagic) then Throw "Invalid LSM table header"
  else let '(buf, _) := sread schema_bytes s in deserialize_schema (IStream buf true) name.

Definition read_sstable_header_schema (file : bytes) (name : bytes) : res (option (list Column)) :=
  let '(magic, s) := sread_uint 4 (IStream file true) in
  let '(schema_bytes, s) := sread_uint 4 s in
  if negb (sok s) || negb (magic =? kLsmMagic) || (schema_bytes =? 0) || (2 ^ 20 <? schema_bytes)
  then Ok None
  else match sread_ok schema_bytes s with
       | None => Ok None
       | Some (buf, _) =>
           cols ← deserialize_schema (IStream buf true) name;
           Ok (match cols with [] => None | _ => Some cols end)
       end.

#[export] Instance byte_store : SstStore bytes := {
  sst_write := write_sstable;
  sst_valid f := match sst_data_region f with Some _ => true | None => false end;
  sst_read f cols := read_sstable (Some f) cols;
  sst_stream f cols := stream_sstable (Some f) cols;
  sst_schema := read_schema;
  sst_header_schema := read_sstable_header_schema;
  sst_load_footer f := '(_, ft) ← load_sst_footer f; Ok ft;
  sst_file_size := blen;
  sst_trailer_crc := sst_footer_trailer_crc
}.

(** The record loop finds no further record after those of the file. *)
Definition tail_clean (columns : list Column) (es : list MemEntry) : Prop :=
  decode_records (S (length (sst_tail es))) columns (IStream (sst_tail es) true) = Ok [].

Definition byte_fits (columns : list Column) (es : list MemEntry) : Prop :=
  sst_ok columns es /\ Forall (fun c => blen (col_name c) < 2 ^ 16) columns /\ tail_clean columns es.

Lemma elem_dedup_adjacent acc ks k : k ∈ acc \/ k ∈ ks -> k ∈ dedup_adjacent acc ks.
Proof.
  revert acc. induction ks as [|k' ks IH]; intros acc H; cbn [dedup_adjacent].
  - destruct H as [H|H]; [|by apply elem_of_nil in H]. apply list_elem_of_In. rewrite <- in_rev. by apply list_elem_of_In.
  - destruct acc as [|k0 acc].
    + apply IH. destruct H as [H|H]; [by apply elem_of_nil in H|].
      apply elem_of_cons in H as [->|H]; [left; by constructor|by right].
    + case_bool_decide as E; apply IH; rewrite ?elem_of_cons in *; destruct H as [H|[->|H]]; subst; tauto.
Qed.

Lemma sst_footer_covers es : bloom_covers (sst_footer es) es.
Proof.
  intros e He _. unfold sst_footer. cbn [ft_bloom]. destruct es as [|e0 es]; [by apply elem_of_nil in He|].
  apply maybe_contains_built, list_elem_of_In, elem_dedup_adjacent. right.
  by apply (list_elem_of_fmap_2 (fun e => encode_key (pk e)) (e0 :: es) e).
Qed.

Lemma read_schema_written columns es name :
  byte_fits columns es ->
  read_schema (write_sstable columns es) name = Ok (map (persisted_column name) columns).
Proof.
  intros ((_ & Hn & Hs & _) & Hc & _). pose proof (blen_nonneg (serialize_schema columns)).
  unfold read_schema, write_sstable, sst_header, sst_header_raw.
  rewrite <- !app_assoc, !sread_u32_app.
  rewrite (Z.mod_small kLsmMagic) by (vm_compute; split; congruence).
  rewrite (wrap_small 32), Z.mod_small by lia. rewrite Z.eqb_refl. cbn [negb orb sok].
  rewrite sread_app by done. rewrite <- (app_nil_r (serialize_schema columns)).
  by apply deserialize_schema_app.
Qed.

#[export] Instance byte_laws : SstLaws bytes.
Proof.
  refine {| sst_fits := byte_fits |}; intros cols es.
  - intros ((_ & _ & Hs & _) & _). cbn [sst_valid sst_write byte_store]. unfold write_sstable. by rewrite sst_data_region_app.
  - intros (Hok & _ & Ht). cbn [sst_read sst_write byte_store]. rewrite read_written by done. rewrite Ht. cbn. by rewrite app_nil_r.
  - intros (Hok & _). by apply stream_written.
  - intros name. apply read_schema_written.
  - intros (Hok & _). exists (sst_footer es). split; [|apply sst_footer_covers].
    cbn [sst_load_footer sst_write byte_store]. by rewrite (load_written_footer cols).
Defined.

(** ** Size of a written file, without writing it *)

Definition sst_size (columns : list Column) (es : list MemEntry) : Z :=
  let payload := foldr (fun e n => 13 + blen (entry_rec e) + n) 0 es in
  let bloom_bits := match es with
                    | [] => 0
                    | _ => build_size (dedup_adjacent [] (map (fun e => encode_key (pk e)) es)) / 8
                    end in
  align_up (8 + blen (serialize_schema columns)) kDefaultPageSize
  + page_count payload * kDefaultPageSize + (12 + 5 + bloom_bits + page_count payload * 4) + 8.

Lemma blen_sst_payload es :
  blen (sst_payload es) = foldr (fun e n => 13 + blen (entry_rec e) + n) 0 es.
Proof.
  unfold sst_payload. induction es as [|e es IH]; [done|]. cbn [map concat foldr].
  by rewrite blen_app, blen_entry_image, IH.
Qed.

Lemma blen_concat_pages ps :
  Forall (fun p : bytes => length p = Z.to_nat kDefaultPageSize) ps ->
  blen (concat ps) = Z.of_nat (length ps) * kDefaultPageSize.
Proof.
  induction 1 as [|p ps Hp _ IH]; [done|]. cbn [concat length]. rewrite blen_app, IH.
  unfold blen. rewrite Hp. pose proof page_size_pos. lia.
Qed.

Lemma build_size_mod8 ks : build_size ks mod 8 = 0.
Proof.
  unfold build_size. destruct (_ <? 64); [done|]. unfold wrap.
  apply Z.mod_divide; [lia|]. apply Z.divide_add_cancel_r
      with (2 ^ 32 * (Z.of_nat (length ks) * 8 / 2 ^ 32)).
  - apply Z.divide_mul_l. exists (2 ^ 29). reflexivity.
  - rewrite <- Z.div_mod by lia. by apply Z.divide_factor_r.
Qed.

Lemma blen_bloom_bits es :
  blen (bl_bits (ft_bloom (sst_footer es))) =
  match es with [] => 0 | _ => build_size (dedup_adjacent [] (map (fun e => encode_key (pk e)) es)) / 8 end.
Proof.
  destruct es as [|e es]; [done|]. cbn [sst_footer ft_bloom].
  set (ks := dedup_adjacent _ _). assert (ks <> []) as N by (apply dedup_adjacent_nonempty; by right).
  destruct (bloom_build_wf empty_bloom ks) as (_ & _ & E); [cbn; lia|done|]. rewrite E.
  destruct ks as [|k ks']; [done|]. cbn [bloom_build bl_size]. fold (build_size (k :: ks')).
  pose proof (build_size_mod8 (k :: ks')) as M. set (n := build_size (k :: ks')) in *.
  pose proof (Z.div_mod n 8 ltac:(lia)). rewrite (Z.mul_comm 8) in *.
  replace (n + 7) with (7 + n / 8 * 8) by lia. rewrite Z.div_add by lia. done.
Qed.

Lemma sst_size_correct columns es : blen (write_sstable columns es) = sst_size columns es.
Proof.
  unfold write_sstable, sst_size, serialize_sst_footer. rewrite !blen_app, !blen_le_enc, blen_footer.
  rewrite blen_bloom_serialize, blen_bloom_bits, <- blen_sst_payload.
  rewrite blen_concat_pages by apply sst_pages_length.
  assert (Z.of_nat (length (sst_pages es)) = page_count (blen (sst_payload es))) as E.
  { unfold sst_pages. rewrite length_pages_of, Z2Nat.id; [done|].
    apply page_count_nonneg, blen_nonneg. }
  cbn [page_crcs sst_footer]. rewrite length_map, E.
  assert (blen (sst_header columns) = align_up (8 + blen (serialize_schema columns)) kDefaultPageSize) as ->.
  { pose proof (blen_nonneg (serialize_schema columns)). pose proof page_size_pos.
    pose proof (align_up_bounds (8 + blen (serialize_schema columns)) kDefaultPageSize ltac:(lia) ltac:(lia)).
    assert (blen (sst_header_raw columns) = 8 + blen (serialize_schema columns)) as Hr
      by (unfold sst_header_raw; rewrite !blen_app, !blen_le_enc; lia).
    unfold sst_header. rewrite blen_app, Hr, blen_zeros by lia. lia. }
  lia.
Qed.

(** * Decoded files *)

(** An SSTable file by its content: what a reader recovers from it and the size
    its bytes would have. *)
Record DecodedFile := mkDecoded { df_columns : list Column; df_entries : list MemEntry }.

#[export] Instance decoded_store : SstStore DecodedFile := {
  sst_write := mkDecoded;
  sst_valid _ := true;
  sst_read f _ := Ok (df_entries f);
  sst_stream f _ := Ok (df_entries f);
  sst_schema f name := Ok (map (persisted_column name) (df_columns f));
  sst_header_schema f name :=
    Ok (match df_columns f with [] => None | cols => Some (map (persisted_column name) cols) end);
  sst_load_footer f :=
    Ok (mkFooter (match df_entries f with
                  | [] => empty_bloom
                  | es => bloom_build empty_bloom (dedup_adjacent [] (map (fun e => encode_key (pk e)) es))
                  end) []);
  sst_file_size f := sst_size (df_columns f) (df_entries f);
  sst_trailer_crc f := compute_payload_checksum (concat (map entry_image (df_entries f)))
}.

#[export] Instance decoded_laws : SstLaws DecodedFile.
Proof.
  refine {| sst_fits := fun _ _ => True |}; intros cols es; try done.
  intros _. eexists. split; [reflexivity|]. intros e He V.
  pose proof (sst_footer_covers es e He) as C. unfold sst_footer in C. cbn [ft_bloom df_entries sst_write decoded_store] in *.
  destruct es; by apply C.
Defined.
