(* ===== verification/Manifest.v ===== *)
(** The MANIFEST of [src/storage/lsm_storage_engine.cpp]: level file names, the
    manifest file format, [write_manifest] and the start-up reconciliation. *)
From Stdlib Require Import ZArith Lia Sorted Strings.Byte.
From stdpp Require Import base numbers list gmap strings.
From S2P Require Import Prelude Values Codec Checksum Bloom Wal Sst Store.
Local Open Scope Z_scope.

(** * Level file names *)

(** [std::to_string] of a non-negative level. *)
Fixpoint dec_digits (fuel : nat) (n : Z) : bytes :=
  match fuel with
  | O => []
  | S fuel => if n <? 10 then [z2b (48 + n)] else dec_digits fuel (n / 10) ++ [z2b (48 + n mod 10)]
  end.
Definition to_string (n : Z) : bytes := dec_digits (S (Z.to_nat n)) n.

Definition level_marker : bytes := str ".lsm.L".

Definition level_file_name (name : bytes) (level : Z) : bytes :=
  name ++ level_marker ++ to_string level.

(** The digit loop of [parse_level_file_name]; [None] for a non-digit or a level
    above 1000. *)
Fixpoint parse_level (lvl : Z) (suffix : bytes) : option Z :=
  match suffix with
  | [] => Some lvl
  | c :: suffix =>
      if (b2z c <? 48) || (57 <? b2z c) then None
      else let lvl := lvl * 10 + (b2z c - 48) in
           if 1000 <? lvl then None else parse_level lvl suffix
  end.

Definition parse_level_file_name (fname : bytes) : option (bytes * Z) :=
  match rfind level_marker fname with
  | None => None
  | Some pos =>
      if pos =? 0 then None else
      match drop (Z.to_nat pos + length level_marker) fname with
      | [] => None
      | suffix => match parse_level 0 suffix with
                  | None => None
                  | Some lvl => Some (take (Z.to_nat pos) fname, lvl)
                  end
      end
  end.

(** * The manifest file *)

Definition kManifestMagic : Z := 0x314E464D.

Record ManifestLevel := mkLevel { ml_level : Z; ml_size_bytes : Z; ml_footer_crc : Z }.

(** [std::map<std::string, std::vector<ManifestLevel>>], in key order. *)
Record ManifestState := mkManifest {
  mf_version : Z;
  mf_tables : list (bytes * list ManifestLevel)
}.

Definition empty_manifest : ManifestState := mkManifest 0 [].

(** [tables.emplace(name, levels)]: an existing name is kept. *)
Fixpoint tables_emplace (t : list (bytes * list ManifestLevel)) (name : bytes) (lv : list ManifestLevel)
    : list (bytes * list ManifestLevel) :=
  match t with
  | [] => [(name, lv)]
  | (n', lv') :: t' =>
      if bytes_lt name n' then (name, lv) :: t
      else if bytes_lt n' name then (n', lv') :: tables_emplace t' name lv
      else t
  end.

Fixpoint tables_find (t : list (bytes * list ManifestLevel)) (name : bytes) : option (list ManifestLevel) :=
  match t with
  | [] => None
  | (n', lv) :: t => if bool_decide (n' = name) then Some lv else tables_find t name
  end.

Definition level_image (lv : ManifestLevel) : bytes :=
  z2b (ml_level lv) :: le_enc 8 (ml_size_bytes lv) ++ le_enc 4 (ml_footer_crc lv).

Definition table_image (t : bytes * list ManifestLevel) : bytes :=
  le_enc 2 (u16 (blen t.1)) ++ t.1 ++ le_enc 4 (u32 (Z.of_nat (length t.2)))
  ++ concat (map level_image t.2).

Definition manifest_body (m : ManifestState) : bytes :=
  le_enc 4 kManifestMagic ++ le_enc 8 (mf_version m)
  ++ le_enc 4 (u32 (Z.of_nat (length (mf_tables m)))) ++ concat (map table_image (mf_tables m)).

Definition serialize_manifest (m : ManifestState) : bytes :=
  let out := manifest_body m in out ++ le_enc 4 (crc32c out).

(** The level loop: [level_count] records of 13 bytes each, bounds-checked. *)
Fixpoint parse_levels (n : nat) (p : bytes) : option (list ManifestLevel * bytes) :=
  match n with
  | O => Some ([], p)
  | S n =>
      if negb (has_bytes 13 p) then None else
      let lv := mkLevel (b2z (nth 0 p Byte.x00)) (le_dec (take 8 (drop 1 p))) (le_dec (take 4 (drop 9 p))) in
      match parse_levels n (drop 13 p) with
      | None => None
      | Some (lvs, p) => Some (lv :: lvs, p)
      end
  end.

Fixpoint parse_tables (n : nat) (tables : list (bytes * list ManifestLevel)) (p : bytes)
    : option (list (bytes * list ManifestLevel) * bytes) :=
  match n with
  | O => Some (tables, p)
  | S n =>
      if negb (has_bytes 2 p) then None else
      let name_len := le_dec (take 2 p) in
      let p := drop 2 p in
      if negb (has_bytes (name_len + 4) p) then None else
      let name := take (Z.to_nat name_len) p in
      let p := drop (Z.to_nat name_len) p in
      let level_count := le_dec (take 4 p) in
      match parse_levels (Z.to_nat level_count) (drop 4 p) with
      | None => None
      | Some (levels, p) => parse_tables n (tables_emplace tables name levels) p
      end
  end.

Definition deserialize_manifest (data : bytes) : option ManifestState :=
  if negb (has_bytes 20 data) then None else
  if negb (le_dec (take 4 data) =? kManifestMagic) then None else
  let version := le_dec (take 8 (drop 4 data)) in
  let table_count := le_dec (take 4 (drop 12 data)) in
  match parse_tables (Z.to_nat table_count) [] (drop 16 data) with
  | None => None
  | Some (tables, p) =>
      if negb (blen p =? 4) then None else
      if le_dec p =? crc32c (take (length data - length p) data)
      then Some (mkManifest version tables) else None
  end.

(** * Directory contents: level files by table and level *)

Section Files.
Context {F : Type} `{SstStore F}.

(** The level files of the directory; a path is a table name and a level. *)
Abbreviation path := (bytes * nat)%type.
Abbreviation dir := (gmap path F).

(** [std::map<int, path>] of one table, in level order. *)
Fixpoint lm_insert (m : list (nat * path)) (l : nat) (p : path) : list (nat * path) :=
  match m with
  | [] => [(l, p)]
  | (l', p') :: m' => if (l <? l')%nat then (l, p) :: m
                      else if (l' <? l)%nat then (l', p') :: lm_insert m' l p
                      else (l, p) :: m'
  end.

Fixpoint lm_find (m : list (nat * path)) (l : nat) : option path :=
  match m with
  | [] => None
  | (l', p) :: m => if (l' =? l)%nat then Some p else lm_find m l
  end.

Definition lm_erase (m : list (nat * path)) (l : nat) : list (nat * path) :=
  filter (fun lp => lp.1 <> l) m.

Definition lm_max (m : list (nat * path)) : nat := foldr (fun lp n => Nat.max lp.1 n) 0%nat m.

(** The level files of a table found in the directory. *)
Definition found_levels (files : dir) (name : bytes) : list (nat * path) :=
  foldr (fun pf m => if bool_decide (pf.1.1 = name) then lm_insert m pf.1.2 pf.1 else m)
    [] (map_to_list files).

Definition table_names (files : dir) : list bytes :=
  foldr (fun pf ns => if bool_decide (pf.1.1 ∈ ns) then ns else pf.1.1 :: ns) [] (map_to_list files).

(** [file_size] (an error when the file is missing) and the trailer CRC. *)
Definition file_size (files : dir) (p : path) : option Z := sst_file_size <$> files !! p.
Definition trailer_crc (files : dir) (p : path) : Z :=
  match files !! p with Some f => sst_trailer_crc f | None => 0 end.

Definition manifest_record (files : dir) (lp : nat * path) : ManifestLevel :=
  mkLevel (Z.of_nat lp.1) (default 0 (file_size files lp.2)) (trailer_crc files lp.2).

(** [write_manifest]: a snapshot of the directory under the next version number. *)
Definition write_manifest (files : dir) (m : ManifestState) : ManifestState :=
  mkManifest (u64 (mf_version m + 1))
    (foldr (fun name t => tables_emplace t name (map (manifest_record files) (found_levels files name)))
       [] (table_names files)).

(** [load_manifest]: a missing or damaged file leaves the empty baseline. *)
Definition load_manifest (file : option bytes) : ManifestState :=
  match file with
  | None => empty_manifest
  | Some data => default empty_manifest (deserialize_manifest data)
  end.

(** * Reconciliation *)

(** [rename] of level files, ignoring a missing source. *)
Definition rename_file (files : dir) (src dst : path) : dir :=
  match files !! src with Some f => <[dst := f]> (delete src files) | None => files end.

(** Shifting levels [j], [j+1], ..., [max] down by [shift].  The map keeps the
    path the file had before the rename; a level missing in between makes the
    code dereference the end iterator. *)
Fixpoint shift_levels (n : nat) (name : bytes) (j shift : nat) (files : dir) (levels : list (nat * path))
    : res (dir * list (nat * path)) :=
  match n with
  | O => Ok (files, levels)
  | S n =>
      match lm_find levels j with
      | None => UB "end iterator dereferenced"
      | Some p =>
          shift_levels n name (S j) shift
            (rename_file files (name, j) (name, j - shift)%nat)
            (lm_erase (lm_insert levels (j - shift) p) j)
      end
  end.

Fixpoint first_at_or_above (n k : nat) (levels : list (nat * path)) : option nat :=
  match n with
  | O => None
  | S n => match lm_find levels k with Some _ => Some k | None => first_at_or_above n (S k) levels end
  end.

(** Step 3: the first missing level with a deeper one present. *)
Fixpoint fill_gap (fuel k : nat) (name : bytes) (files : dir) (levels : list (nat * path))
    : res (dir * list (nat * path)) :=
  match fuel with
  | O => Ok (files, levels)
  | S fuel =>
      match lm_find levels k with
      | Some _ => fill_gap fuel (S k) name files levels
      | None =>
          let max_lvl := lm_max levels in
          if bool_decide (levels = []) || (max_lvl <=? k)%nat then Ok (files, levels) else
          match first_at_or_above (S max_lvl) (S k) levels with
          | None => Ok (files, levels)
          | Some m => shift_levels (max_lvl - m + 1) name m (m - k) files levels
          end
      end
  end.

Definition find_level (recs : list ManifestLevel) (l : nat) : option ManifestLevel :=
  foldl (fun acc lv => if ml_level lv =? Z.of_nat l then Some lv else acc) None recs.

(** Size and fingerprint of a file against its manifest record. *)
Definition level_matches (files : dir) (p : path) (lv : ManifestLevel) : bool :=
  match file_size files p with
  | None => false
  | Some sz => (sz =? ml_size_bytes lv)
               && ((ml_footer_crc lv =? 0) || (trailer_crc files p =? ml_footer_crc lv))
  end.

(** Emptying level 0 or removing a deeper source level. *)
Definition clear_source (name : bytes) (k_prev : nat) (p : path) (files : dir) : res dir :=
  if (k_prev =? 0)%nat then
    match files !! p with
    | None => Ok files
    | Some f =>
        o ← sst_header_schema f name;
        Ok (match o with
            | Some cols => <[(name, 0%nat) := sst_write cols []]> files
            | None => delete p files
            end)
    end
  else Ok (delete p files).

(** Step 4, over consecutive pairs of present levels. *)
Fixpoint finish_step (name : bytes) (recs : list ManifestLevel) (files : dir) (levels : list (nat * path))
    : res dir :=
  match levels with
  | (k_prev, p_prev) :: (((k, p) :: _) as rest) =>
      if negb (k =? S k_prev)%nat then finish_step name recs files rest else
      let cur_matches := match find_level recs k with
                         | Some lv => level_matches files p lv
                         | None => false
                         end in
      if cur_matches then finish_step name recs files rest else
      match find_level recs k_prev with
      | Some lv => if level_matches files p_prev lv then clear_source name k_prev p_prev files
                   else finish_step name recs files rest
      | None => finish_step name recs files rest
      end
  | _ => Ok files
  end.

Definition reconcile_table (m : ManifestState) (name : bytes) (files : dir) (levels : list (nat * path)) : res dir :=
  '(files, levels) ← fill_gap (S (lm_max levels)) 0 name files levels;
  match tables_find (mf_tables m) name with
  | None => Ok files
  | Some recs => finish_step name recs files levels
  end.

(** The start-up reconciliation: every table, with the levels enumerated before,
    then the new baseline manifest. *)
Definition reconcile_with_manifest (m : ManifestState) (files : dir) : res (dir * ManifestState) :=
  files' ← foldr (fun name acc => fs ← acc; reconcile_table m name fs (found_levels files name))
             (Ok files) (table_names files);
  Ok (files', write_manifest files' m).

End Files.

(** * Level names round trip *)

Lemma dec_digits_parse fuel n acc rest :
  0 <= n -> (Z.to_nat n < fuel)%nat -> 0 <= acc -> acc * 10 ^ (Z.of_nat (length (dec_digits fuel n))) + n <= 1000 ->
  parse_level acc (dec_digits fuel n ++ rest)
  = parse_level (acc * 10 ^ (Z.of_nat (length (dec_digits fuel n))) + n) rest.
Proof.
  revert n acc rest. induction fuel as [|fuel IH]; intros n acc rest Hn Hf Ha Hb; [lia|].
  cbn [dec_digits] in *. destruct (Z.ltb_spec n 10).
  - cbn [length app parse_level] in *. change (10 ^ Z.of_nat 1) with 10 in *. rewrite b2z_z2b, Z.mod_small by lia.
    destruct (Z.ltb_spec (48 + n) 48), (Z.ltb_spec 57 (48 + n)); try lia. cbn [orb].
    replace (acc * 10 + (48 + n - 48)) with (acc * 10 + n) by lia.
    by destruct (Z.ltb_spec 1000 (acc * 10 + n)); [lia|].
  - rewrite length_app in *. cbn [length] in *.
    pose proof (Z.div_mod n 10 ltac:(lia)). pose proof (Z.mod_pos_bound n 10 ltac:(lia)).
    assert (n / 10 < n) by (apply Z.div_lt; lia). assert (0 <= n / 10) by (apply Z.div_pos; lia).
    replace (Z.of_nat (length (dec_digits fuel (n / 10)) + 1)) with (1 + Z.of_nat (length (dec_digits fuel (n / 10)))) in * by lia.
    rewrite Z.pow_add_r in * by lia. change (10 ^ 1) with 10 in *.
    set (p := 10 ^ Z.of_nat (length (dec_digits fuel (n / 10)))) in *.
    assert (0 < p) by (apply Z.pow_pos_nonneg; lia).
    rewrite <- app_assoc, IH by (fold p; nia). fold p.
    cbn [app parse_level]. rewrite b2z_z2b, Z.mod_small by lia.
    destruct (Z.ltb_spec (48 + n mod 10) 48), (Z.ltb_spec 57 (48 + n mod 10)); try lia. cbn [orb].
    replace ((acc * p + n / 10) * 10 + (48 + n mod 10 - 48)) with (acc * (10 * p) + n) by nia.
    by destruct (Z.ltb_spec 1000 (acc * (10 * p) + n)); [lia|].
Qed.

Lemma to_string_parse n : 0 <= n <= 1000 -> parse_level 0 (to_string n) = Some n.
Proof.
  intros H. unfold to_string. rewrite <- (app_nil_r (dec_digits _ _)).
  rewrite dec_digits_parse by lia. done.
Qed.

Definition is_digit (c : byte) : Prop := 48 <= b2z c <= 57.

Lemma dec_digits_digits fuel n : 0 <= n -> Forall is_digit (dec_digits fuel n).
Proof.
  revert n. induction fuel as [|fuel IH]; intros n Hn; [constructor|]. cbn.
  pose proof (Z.mod_pos_bound n 10 ltac:(lia)).
  destruct (Z.ltb_spec n 10).
  - constructor; [|constructor]. unfold is_digit. rewrite b2z_z2b, Z.mod_small; lia.
  - apply Forall_app. split; [apply IH, Z.div_pos; lia|]. constructor; [|constructor].
    unfold is_digit. rewrite b2z_z2b, Z.mod_small; lia.
Qed.

Lemma rfind_from_absent pat s i acc :
  (forall n, (n <= length s)%nat -> take (length pat) (drop n s) <> pat) -> rfind_from pat s i acc = acc.
Proof.
  revert i acc. induction s as [|c s IH]; intros i acc H; cbn [rfind_from].
  - rewrite bool_decide_eq_false_2; [done|]. apply (H 0%nat). cbn. lia.
  - rewrite bool_decide_eq_false_2 by (apply (H 0%nat); cbn; lia).
    apply IH. intros n Hn. apply (H (S n)). cbn. lia.
Qed.

Lemma rfind_from_app pat pre s i acc :
  take (length pat) s = pat -> s <> [] ->
  (forall n, (1 <= n <= length s)%nat -> take (length pat) (drop n s) <> pat) ->
  rfind_from pat (pre ++ s) i acc = Some (i + blen pre).
Proof.
  intros H N F. revert i acc. induction pre as [|c pre IH]; intros i acc.
  - cbn [app]. destruct s as [|c s]; [done|]. cbn [rfind_from]. rewrite bool_decide_eq_true_2 by done.
    rewrite rfind_from_absent; [f_equal; change (blen []) with 0; lia|].
    intros n Hn. apply (F (S n)). cbn. lia.
  - cbn [app rfind_from]. rewrite IH. f_equal. unfold blen. cbn [length]. lia.
Qed.

(** The marker does not occur again after its last place in a level file name. *)
Lemma marker_once ds n :
  Forall is_digit ds -> (1 <= n <= length (level_marker ++ ds))%nat ->
  take (length level_marker) (drop n (level_marker ++ ds)) <> level_marker.
Proof.
  intros D Hn. do 6 (destruct n as [|n]; [try lia; cbn; congruence|]).
  change (drop (S (S (S (S (S (S n)))))) (level_marker ++ ds)) with (drop n ds).
  destruct (drop n ds) as [|c l] eqn:E; [done|].
  assert (is_digit c) as Dc.
  { apply (Forall_drop _ n) in D. rewrite E in D. by apply Forall_cons in D as [D _]. }
  cbn. intros [= -> _]. destruct Dc as [D1 _]. by apply D1.
Qed.

Lemma level_name_roundtrip name level :
  name <> [] -> 0 <= level <= 1000 -> parse_level_file_name (level_file_name name level) = Some (name, level).
Proof.
  intros Hn Hl. unfold parse_level_file_name, level_file_name, rfind.
  assert (Forall is_digit (to_string level)) as D by (apply dec_digits_digits; lia).
  rewrite rfind_from_app; [|done|done|intros; by apply marker_once].
  destruct (Z.eqb_spec (0 + blen name) 0) as [E|_].
  { destruct name; [done|]. unfold blen in E. cbn in E. lia. }
  rewrite Z.add_0_l, to_nat_blen, <- drop_drop, drop_app_length.
  rewrite (drop_app_length level_marker). rewrite take_app_length.
  destruct (to_string level) as [|c l] eqn:E.
  { unfold to_string in E. cbn [dec_digits] in E. destruct (level <? 10); [done|].
    by apply app_nil in E as [_ E]. }
  rewrite <- E, to_string_parse by lia. done.
Qed.

(** * The manifest round trip *)

Definition level_wf (lv : ManifestLevel) : Prop :=
  0 <= ml_level lv < 256 /\ 0 <= ml_size_bytes lv < 2 ^ 64 /\ 0 <= ml_footer_crc lv < 2 ^ 32.

Definition table_wf (t : bytes * list ManifestLevel) : Prop :=
  blen t.1 < 2 ^ 16 /\ Z.of_nat (length t.2) < 2 ^ 32 /\ Forall level_wf t.2.

#[export] Instance level_wf_dec lv : Decision (level_wf lv).
Proof. unfold level_wf. apply _. Defined.
#[export] Instance table_wf_dec t : Decision (table_wf t).
Proof. unfold table_wf. apply _. Defined.

(** Table names strictly ascending, as the [std::map] keeps them. *)
Definition manifest_wf (m : ManifestState) : Prop :=
  0 <= mf_version m < 2 ^ 64 /\ Z.of_nat (length (mf_tables m)) < 2 ^ 32 /\
  Forall table_wf (mf_tables m) /\
  StronglySorted (fun a b => bytes_lt a.1 b.1 = true) (mf_tables m).

Lemma has_bytes_app n (a b : bytes) : n <= blen a -> has_bytes n (a ++ b) = true.
Proof. intros. rewrite has_bytes_spec, blen_app. apply Z.leb_le. pose proof (blen_nonneg b). lia. Qed.

Lemma parse_levels_app lvs rest :
  Forall level_wf lvs -> parse_levels (length lvs) (concat (map level_image lvs) ++ rest) = Some (lvs, rest).
Proof.
  induction 1 as [|lv lvs Hlv _ IH]; [done|]. destruct Hlv as (Hl & Hs & Hc).
  cbn [length parse_levels map concat]. rewrite <- app_assoc.
  rewrite has_bytes_app by (unfold level_image, blen; cbn [length]; rewrite length_app, !length_le_enc; lia).
  cbn [negb].
  change (drop 13 (level_image lv ++ ?r)) with r. rewrite IH.
  change (take 8 (drop 1 (level_image lv ++ ?r))) with (le_enc 8 (ml_size_bytes lv)).
  change (take 4 (drop 9 (level_image lv ++ ?r))) with (le_enc 4 (ml_footer_crc lv)).
  change (nth 0 (level_image lv ++ ?r) Byte.x00) with (z2b (ml_level lv)).
  rewrite b2z_z2b, Z.mod_small, le_dec_u64, le_dec_u32 by done. by destruct lv.
Qed.

Lemma tables_emplace_last ts name lvs :
  Forall (fun t => bytes_lt t.1 name = true) ts -> tables_emplace ts name lvs = ts ++ [(name, lvs)].
Proof.
  induction 1 as [|[n l] ts H _ IH]; [done|]. cbn in *. rewrite H, IH.
  destruct (bytes_lt name n) eqn:E; [|done].
  pose proof (bytes_lt_trans _ _ _ H E) as X. by rewrite bytes_lt_irrefl in X.
Qed.

Lemma parse_tables_app pre ts rest :
  Forall table_wf ts -> StronglySorted (fun a b => bytes_lt a.1 b.1 = true) (pre ++ ts) ->
  parse_tables (length ts) pre (concat (map table_image ts) ++ rest) = Some (pre ++ ts, rest).
Proof.
  intros H. revert pre. induction H as [|[name lvs] ts Ht _ IH]; intros pre S; [by rewrite app_nil_r|].
  destruct Ht as (Hn & Hc & Hl). cbn [fst snd] in *. pose proof (blen_nonneg name).
  cbn [length parse_tables map concat]. rewrite <- (app_assoc (table_image (name, lvs))).
  set (R := concat (map table_image ts) ++ rest) in *.
  assert (table_image (name, lvs) ++ R = le_enc 2 (u16 (blen name)) ++ name ++
    le_enc 4 (u32 (Z.of_nat (length lvs))) ++ concat (map level_image lvs) ++ R) as ->.
  { unfold table_image. cbn [fst snd]. by rewrite <- !app_assoc. }
  rewrite (has_bytes_app 2) by (rewrite blen_le_enc; lia). cbn [negb].
  rewrite (take_app_length' (le_enc 2 _)), (drop_app_length' (le_enc 2 _)) by (by rewrite length_le_enc).
  rewrite (wrap_small 16), le_dec_u16 by lia.
  assert (has_bytes (blen name + 4) (name ++ le_enc 4 (u32 (Z.of_nat (length lvs))) ++
    concat (map level_image lvs) ++ R) = true) as ->.
  { rewrite app_assoc. apply has_bytes_app. rewrite blen_app, blen_le_enc. lia. }
  cbn [negb]. rewrite to_nat_blen, take_app_length, drop_app_length.
  rewrite (take_app_length' (le_enc 4 _)), (drop_app_length' (le_enc 4 _)) by (by rewrite length_le_enc).
  rewrite wrap_small, le_dec_u32, Nat2Z.id by lia. rewrite parse_levels_app by done.
  rewrite tables_emplace_last.
  - rewrite IH; [by rewrite <- app_assoc|by rewrite <- app_assoc].
  - clear -S. induction pre as [|p pre IH]; [constructor|]. cbn in S.
    apply StronglySorted_inv in S as [S F]. constructor; [|by apply IH].
    apply Forall_app in F as [_ F]. by apply Forall_cons in F as [F _].
Qed.

Lemma manifest_parse m :
  manifest_wf m -> deserialize_manifest (serialize_manifest m) = Some m.
Proof.
  intros (Hv & Hn & Ht & S). unfold deserialize_manifest, serialize_manifest. cbv zeta.
  set (body := manifest_body m). set (crc := crc32c body).
  assert (16 <= blen body) as L.
  { unfold body, manifest_body. rewrite !blen_app, !blen_le_enc.
    pose proof (blen_nonneg (concat (map table_image (mf_tables m)))). lia. }
  assert (has_bytes 20 (body ++ le_enc 4 crc) = true) as ->.
  { rewrite has_bytes_spec, blen_app, blen_le_enc. apply Z.leb_le. lia. }
  cbn [negb]. assert (body ++ le_enc 4 crc = le_enc 4 kManifestMagic ++ le_enc 8 (mf_version m)
    ++ le_enc 4 (u32 (Z.of_nat (length (mf_tables m)))) ++ concat (map table_image (mf_tables m)) ++ le_enc 4 crc) as E.
  { unfold body, manifest_body. by rewrite <- !app_assoc. }
  assert (take 4 (body ++ le_enc 4 crc) = le_enc 4 kManifestMagic) as -> by (by rewrite E).
  assert (take 8 (drop 4 (body ++ le_enc 4 crc)) = le_enc 8 (mf_version m)) as -> by (by rewrite E).
  assert (take 4 (drop 12 (body ++ le_enc 4 crc)) = le_enc 4 (u32 (Z.of_nat (length (mf_tables m))))) as ->
    by (by rewrite E).
  assert (drop 16 (body ++ le_enc 4 crc) = concat (map table_image (mf_tables m)) ++ le_enc 4 crc) as ->
    by (by rewrite E).
  rewrite (wrap_small 32), !le_dec_u32, le_dec_u64, Nat2Z.id by (lia || (vm_compute; split; congruence)).
  rewrite Z.eqb_refl. cbn [negb]. rewrite (parse_tables_app []) by done. cbn [app].
  rewrite blen_le_enc. change (Z.of_nat 4 =? 4) with true. cbn [negb].
  rewrite length_app, length_le_enc, Nat.add_sub, take_app_length.
  rewrite le_dec_u32 by apply crc32c_range. rewrite Z.eqb_refl. by destruct m.
Qed.

(** * Reconciliation of directories without gaps *)

Section Reconcile.
Context {F : Type} `{SstStore F}.

(** Levels [0 .. n-1] of a table, each at its own path. *)
Definition contiguous (name : bytes) (from n : nat) : list (nat * (bytes * nat)) :=
  map (fun l => (l, (name, l))) (seq from n).

(** Level [l] is the file the manifest recorded. *)
Definition recorded (recs : list ManifestLevel) (files : gmap (bytes * nat) F) (name : bytes) (l : nat) : bool :=
  match find_level recs l with Some lv => level_matches files (name, l) lv | None => false end.

Lemma lm_find_contiguous (name : bytes) from (n k : nat) :
  lm_find (contiguous name from n) k =
  if decide (from <= k < from + n)%nat then Some (name, k) else None.
Proof.
  revert from. induction n as [|n IH]; intros from.
  { cbn. case_decide; [lia|done]. }
  change (contiguous name from (S n)) with ((from, (name, from)) :: contiguous name (S from) n).
  cbn [lm_find].
  destruct (Nat.eqb_spec from k) as [->|N]; [by rewrite decide_True by lia|].
  rewrite IH. repeat case_decide; done || lia.
Qed.

Lemma lm_max_contiguous (name : bytes) from (n : nat) : lm_max (contiguous name from (S n)) = (from + n)%nat.
Proof.
  revert from. induction n as [|n IH]; intros from.
  - cbn. lia.
  - change (contiguous name from (S (S n))) with ((from, (name, from)) :: contiguous name (S from) (S n)).
    cbn [lm_max foldr fst]. fold (lm_max (contiguous name (S from) (S n))). rewrite IH. lia.
Qed.

Lemma fill_gap_contiguous (fuel k : nat) (name : bytes) (files : gmap (bytes * nat) F) (n : nat) :
  fill_gap fuel k name files (contiguous name 0 (S n)) = Ok (files, contiguous name 0 (S n)).
Proof.
  revert k. induction fuel as [|fuel IH]; intros k; [done|]. cbn [fill_gap].
  rewrite lm_find_contiguous. case_decide; [apply IH|].
  rewrite lm_max_contiguous. destruct (Nat.leb_spec (0 + n) k); [by rewrite orb_true_r|lia].
Qed.

Lemma finish_contiguous (name : bytes) (recs : list ManifestLevel) (files : gmap (bytes * nat) F) (from : nat) (n : nat) :
  (forall l, (from < l < from + n)%nat -> recorded recs files name l = true) ->
  finish_step name recs files (contiguous name from n) = Ok files.
Proof.
  revert from. induction n as [|n IH]; intros from Hm; [done|]. destruct n as [|n]; [done|].
  change (contiguous name from (S (S n))) with
    ((from, (name, from)) :: (S from, (name, S from)) :: contiguous name (S (S from)) n).
  cbn [finish_step]. rewrite Nat.eqb_refl. cbn [negb].
  pose proof (Hm (S from) ltac:(lia)) as M. unfold recorded in M. rewrite M.
  change ((S from, (name, S from)) :: contiguous name (S (S from)) n) with (contiguous name (S from) (S n)).
  apply IH. intros l Hl. apply Hm. lia.
Qed.

Lemma finish_interrupted (name : bytes) (recs : list ManifestLevel) (files : gmap (bytes * nat) F) (from : nat) (n k : nat) :
  (from < k < from + n)%nat ->
  (forall l, (from < l < k)%nat -> recorded recs files name l = true) ->
  recorded recs files name k = false -> recorded recs files name (k - 1) = true ->
  finish_step name recs files (contiguous name from n) = clear_source name (k - 1) (name, (k - 1)%nat) files.
Proof.
  revert from. induction n as [|n IH]; intros from Hk Hm Hf Hp; [lia|]. destruct n as [|n]; [lia|].
  change (contiguous name from (S (S n))) with
    ((from, (name, from)) :: (S from, (name, S from)) :: contiguous name (S (S from)) n).
  cbn [finish_step]. rewrite Nat.eqb_refl. cbn [negb].
  destruct (decide (k = S from)) as [->|N].
  - unfold recorded in Hf, Hp. rewrite Hf.
    replace (S from - 1)%nat with from in * by lia.
    destruct (find_level recs from); [|done]. by rewrite Hp.
  - pose proof (Hm (S from) ltac:(lia)) as M. unfold recorded in M. rewrite M.
    change ((S from, (name, S from)) :: contiguous name (S (S from)) n) with (contiguous name (S from) (S n)).
    apply IH; [lia| |done|done]. intros l Hl. apply Hm. lia.
Qed.

End Reconcile.

(** * Properties *)

(** A manifest read back from its file is the one written (magic, bounds and
    checksum all pass), and the name of a level file gives back its table and
    level, so the directory scan sees exactly the files the engine wrote. *)
Theorem manifest_roundtrip (m : ManifestState) (name : bytes) (level : Z) :
  manifest_wf m -> name <> [] -> 0 <= level <= 1000 ->
  deserialize_manifest (serialize_manifest m) = Some m /\
  parse_level_file_name (level_file_name name level) = Some (name, level).
Proof. intros. split; [by apply manifest_parse | by apply level_name_roundtrip]. Qed.

Definition ex_manifest : ManifestState :=
  mkManifest 7 [(str "a", [mkLevel 0 8200 5; mkLevel 1 16400 9]); (str "b", [mkLevel 0 8200 0])].

Lemma manifest_roundtrip_witness :
  deserialize_manifest (serialize_manifest ex_manifest) = Some ex_manifest /\
  parse_level_file_name (level_file_name (str "t.lsm.L0") 12) = Some (str "t.lsm.L0", 12).
Proof.
  apply manifest_roundtrip; [|done|lia].
  split; [done|]. split; [done|]. split; [by apply (bool_decide_unpack _)|].
  repeat constructor.
Defined.

(** Reconciliation of a table whose levels are contiguous.  When every level
    above 0 is the file the manifest recorded nothing is touched; when the first
    level that differs is [k] and its source [k-1] is still the recorded file,
    the interrupted compaction step is completed by clearing exactly that source. *)
Theorem reconcile_contiguous {F : Type} `{SstStore F} (m : ManifestState) (name : bytes)
    (files : gmap (bytes * nat) F) (recs : list ManifestLevel) (n : nat) :
  tables_find (mf_tables m) name = Some recs ->
  ((forall l, (0 < l < S n)%nat -> recorded recs files name l = true) ->
   reconcile_table m name files (contiguous name 0 (S n)) = Ok files) /\
  (forall k, (0 < k < S n)%nat ->
     (forall l, (0 < l < k)%nat -> recorded recs files name l = true) ->
     recorded recs files name k = false -> recorded recs files name (k - 1) = true ->
     reconcile_table m name files (contiguous name 0 (S n))
     = clear_source name (k - 1) (name, (k - 1)%nat) files).
Proof.
  intros Hr. unfold reconcile_table. rewrite fill_gap_contiguous. cbn [mbind res_bind]. rewrite Hr. split.
  - intros Hm. apply finish_contiguous. intros l Hl. apply Hm. lia.
  - intros k Hk Hm Hf Hp. apply finish_interrupted; done || lia.
Qed.

Definition ex_decoded (k : Z) : DecodedFile :=
  mkDecoded ex_cols [ex_entry k "x"].

(** Level 0 is recorded; level 1 has been rewritten since. *)
Definition ex_crashed : gmap (bytes * nat) DecodedFile :=
  {[ (str "t", 0%nat) := ex_decoded 1; (str "t", 1%nat) := ex_decoded 2 ]}.
Definition ex_crashed_manifest : ManifestState :=
  write_manifest (<[(str "t", 1%nat) := ex_decoded 3]> ex_crashed) empty_manifest.

Lemma reconcile_contiguous_witness :
  exists recs, tables_find (mf_tables ex_crashed_manifest) (str "t") = Some recs /\
    reconcile_table ex_crashed_manifest (str "t") ex_crashed (contiguous (str "t") 0 2)
    = clear_source (str "t") 0 (str "t", 0%nat) ex_crashed.
Proof.
  eexists. split; [vm_compute; reflexivity|].
  refine (proj2 (reconcile_contiguous ex_crashed_manifest (str "t") ex_crashed _ 1 _) 1%nat _ _ _ _);
    [vm_compute; reflexivity|lia|intros l Hl; lia|vm_compute; reflexivity|vm_compute; reflexivity].
Defined.

(** The entries at a level of table "t" after reconciliation. *)
Definition entries_after (r : res (gmap (bytes * nat) DecodedFile * ManifestState)) (l : nat)
    : option (option (list MemEntry)) :=
  match r with Ok (files, _) => Some (df_entries <$> files !! (str "t", l)) | _ => None end.

(** A gap in the levels.  The directory holds level 0 with row 1 and level 2
    with row 2 (what a completed cascade L0 -> L1 -> L2 followed by a flush
    leaves), and the manifest records exactly these files.  Start-up shifts level
    2 to level 1, then takes the shifted level for the target of an interrupted
    step, because it looks it up under its old path, and empties level 0: row 1
    is gone.  With levels 0, 2 and 4 the shift dereferences an end iterator. *)
Lemma reconcile_gap_loses_level0 :
  let files : gmap (bytes * nat) DecodedFile :=
    {[ (str "t", 0%nat) := ex_decoded 1; (str "t", 2%nat) := ex_decoded 2 ]} in
  let m := write_manifest files empty_manifest in
  entries_after (reconcile_with_manifest m files) 0 = Some (Some []) /\
  entries_after (reconcile_with_manifest m files) 1 = Some (Some [ex_entry 2 "x"]) /\
  entries_after (reconcile_with_manifest m files) 2 = Some None /\
  reconcile_with_manifest m (<[(str "t", 4%nat) := ex_decoded 3]> files)
  = UB "end iterator dereferenced".
Proof.
  cbn zeta. split_and!; vm_compute; reflexivity.
Qed.
