(* ===== verification/Mvcc.v ===== *)
(** Multi-version core of [src/storage/lsm_storage_engine.cpp]: the version key
    and its order, the memtable, the two-way merge of flush and compaction, the
    garbage collection of old versions, and the three read paths (point lookup,
    buffered scan, streaming k-way merge) as functions of the sources they read.
    The specification they are compared with is [best]: among all versions of a
    key, the newest one not younger than the snapshot. *)
From Stdlib Require Import ZArith Lia Sorted.
From stdpp Require Import base numbers list gmap strings sorting.
From S2P Require Import Prelude Values Codec Sst.
Local Open Scope Z_scope.

(** * Version keys *)

Record MVCCKey := mkKey { k_pk : Value; k_ts : Z }.

(** Primary key ascending, newer versions first within a key. *)
Definition MVCCKeyCompare (a b : MVCCKey) : bool :=
  if ValueLess (k_pk a) (k_pk b) then true
  else if ValueLess (k_pk b) (k_pk a) then false
  else k_ts b <? k_ts a.

Definition key_of (e : MemEntry) : MVCCKey := mkKey (pk e) (commit_ts e).

(** * The memtable: [std::map<MVCCKey, MemEntry, MVCCKeyCompare>] *)

Abbreviation memtable_t := (list (MVCCKey * MemEntry)).

(** [memtable[k] = e]: an equivalent key is kept and its entry replaced. *)
Fixpoint mem_put (m : memtable_t) (k : MVCCKey) (e : MemEntry) : memtable_t :=
  match m with
  | [] => [(k, e)]
  | (k', e') :: m' =>
      if MVCCKeyCompare k k' then (k, e) :: m
      else if MVCCKeyCompare k' k then (k', e') :: mem_put m' k e
      else (k', e) :: m'
  end.

(** [memtable.lower_bound(k)]: the entries whose key is not before [k]. *)
Fixpoint mem_lower_bound (m : memtable_t) (k : MVCCKey) : memtable_t :=
  match m with
  | [] => []
  | (k', e') :: m' => if MVCCKeyCompare k' k then mem_lower_bound m' k else m
  end.

(** * Merging two sorted runs, the first one winning on equal keys *)

Fixpoint merge_runs (hi : memtable_t) : memtable_t -> list MemEntry :=
  fix go (lo : memtable_t) : list MemEntry :=
    match hi, lo with
    | [], _ => map snd lo
    | _, [] => map snd hi
    | (hk, he) :: hi', (lk, le) :: lo' =>
        if MVCCKeyCompare hk lk then he :: merge_runs hi' lo
        else if MVCCKeyCompare lk hk then le :: go lo'
        else he :: merge_runs hi' lo'
    end.

(** Entries of a file with the key the code derives from each. *)
Definition keyed (es : list MemEntry) : memtable_t := map (fun e => (key_of e, e)) es.

(** * Garbage collection in compaction *)

(** The leading segment of versions of the first entry's key, and the rest. *)
Fixpoint segment (k : Value) (es : list MemEntry) : list MemEntry * list MemEntry :=
  match es with
  | [] => ([], [])
  | e :: es' => if ValueEq (pk e) k then let '(a, b) := segment k es' in (e :: a, b) else ([], es)
  end.

(** The versions younger than the horizon, and from the anchor on. *)
Fixpoint anchor_split (h : Z) (seg : list MemEntry) : list MemEntry * list MemEntry :=
  match seg with
  | [] => ([], [])
  | e :: seg' => if commit_ts e <=? h then ([], seg)
                 else let '(a, b) := anchor_split h seg' in (e :: a, b)
  end.

Definition gc_segment (h : Z) (seg : list MemEntry) : list MemEntry :=
  match anchor_split h seg with
  | (newer, []) => newer
  | (newer, anchor :: _) =>
      if tombstone anchor && bool_decide (newer = []) then [] else newer ++ [anchor]
  end.

Fixpoint gc_versions (fuel : nat) (h : Z) (es : list MemEntry) : list MemEntry :=
  match fuel, es with
  | S fuel, e :: _ =>
      let '(seg, rest) := segment (pk e) es in gc_segment h seg ++ gc_versions fuel h rest
  | _, _ => []
  end.

(** The rewriting of one compaction step. *)
Definition compact_merge (gc_horizon : Z) (curr next : list MemEntry) : list MemEntry :=
  let merged := merge_runs (keyed curr) (keyed next) in
  if 0 <? gc_horizon then gc_versions (length merged) gc_horizon merged else merged.

(** * Point lookup *)

(** First version not younger than the snapshot in the run of versions of [k]. *)
Fixpoint first_visible (k : Value) (snapshot_ts : Z) (l : memtable_t) : option MemEntry :=
  match l with
  | [] => None
  | (k', e) :: l' =>
      if ValueEq (k_pk k') k
      then if k_ts k' <=? snapshot_ts then Some e else first_visible k snapshot_ts l'
      else None
  end.

(** [std::lower_bound] over the entries of a file: the first index in
    [first, first + len) whose key is not less than [k]. *)
Fixpoint lower_bound_loop (fuel : nat) (es : list MemEntry) (k : Value) (first len : nat) : nat :=
  match fuel with
  | O => first
  | S fuel =>
      if (len =? 0)%nat then first else
      let half := Nat.div2 len in
      match es !! (first + half)%nat with
      | Some e => if ValueLess (pk e) k
                  then lower_bound_loop fuel es k (first + half + 1) (len - half - 1)
                  else lower_bound_loop fuel es k first half
      | None => first
      end
  end.

Definition lower_bound (es : list MemEntry) (k : Value) : nat :=
  lower_bound_loop (S (length es)) es k 0 (length es).

Definition mem_candidate (m : memtable_t) (k : Value) (snapshot_ts : Z) : option MemEntry :=
  first_visible k snapshot_ts (mem_lower_bound m (mkKey k UINT64_MAX)).

Definition sst_candidate (es : list MemEntry) (k : Value) (snapshot_ts : Z) : option MemEntry :=
  first_visible k snapshot_ts (keyed (drop (lower_bound es k) es)).

(** [std::max_element] by timestamp: the first of the largest. *)
Definition max_element (cands : list MemEntry) : option MemEntry :=
  foldl (fun best e => match best with
                       | None => Some e
                       | Some b => if commit_ts b <? commit_ts e then Some e else best
                       end) None cands.

Definition row_of (best : option MemEntry) : option Row :=
  match best with
  | None => None
  | Some e => if tombstone e then None else Some (row e)
  end.

(** * Buffered scan *)

Record Best := mkBest { b_ts : Z; b_tombstone : bool; b_row : Row }.

(** [best[pk]] in a [std::map<Value, Best, ValueLess>]; a fresh entry is unseen. *)
Fixpoint best_update (m : list (Value * Best)) (k : Value) (b : Best) : list (Value * Best) :=
  match m with
  | [] => [(k, b)]
  | (k', b') :: m' =>
      if ValueLess k k' then (k, b) :: m
      else if ValueLess k' k then (k', b') :: best_update m' k b
      else if b_ts b' <? b_ts b then (k', b) :: m' else m
  end.

Definition consider (snapshot_ts : Z) (acc : list (Value * Best) * Z) (ke : MVCCKey * MemEntry)
    : list (Value * Best) * Z :=
  let '(m, observed) := acc in
  let '(k, e) := ke in
  let observed := if observed <? k_ts k then k_ts k else observed in
  if snapshot_ts <? k_ts k then (m, observed)
  else (best_update m (k_pk k) (mkBest (k_ts k) (tombstone e) (row e)), observed).

Definition scan_rows (m : list (Value * Best)) : list Row :=
  omap (fun kb => if negb (b_tombstone kb.2) && negb (bool_decide (values (b_row kb.2) = []))
                  then Some (b_row kb.2) else None) m.

(** The rebuild of [scan_visible]: every level, then the memtable; the rows and
    the largest timestamp seen. *)
Definition scan_rebuild (levels : list (list MemEntry)) (m : memtable_t) (snapshot_ts : Z)
    : list Row * Z :=
  let '(best, observed) := foldl (consider snapshot_ts) ([], 0) (keyed (concat levels) ++ m) in
  (scan_rows best, observed).

(** * Streaming scan: the k-way merge *)

(** Index of the smallest head, the first one on ties. *)
Fixpoint min_head (i : nat) (best : option (nat * MemEntry)) (srcs : list (list MemEntry))
    : option (nat * MemEntry) :=
  match srcs with
  | [] => best
  | [] :: srcs => min_head (S i) best srcs
  | (e :: _) :: srcs =>
      match best with
      | None => min_head (S i) (Some (i, e)) srcs
      | Some (_, b) => if MVCCKeyCompare (key_of e) (key_of b) then min_head (S i) (Some (i, e)) srcs
                       else min_head (S i) best srcs
      end
  end.

(** Index of the newest head of key [k], the first one on ties. *)
Fixpoint newest_head (k : Value) (i : nat) (best : option (nat * MemEntry)) (srcs : list (list MemEntry))
    : option (nat * MemEntry) :=
  match srcs with
  | [] => best
  | [] :: srcs => newest_head k (S i) best srcs
  | (e :: _) :: srcs =>
      if ValueEq (pk e) k then
        match best with
        | None => newest_head k (S i) (Some (i, e)) srcs
        | Some (_, b) => if commit_ts b <? commit_ts e then newest_head k (S i) (Some (i, e)) srcs
                         else newest_head k (S i) best srcs
        end
      else newest_head k (S i) best srcs
  end.

(** [refill(i)]: drop the head of source [i]. *)
Definition refill (i : nat) (srcs : list (list MemEntry)) : list (list MemEntry) :=
  alter tail i srcs.

(** Consume every version of [k], keeping the first visible one. *)
Fixpoint consume (fuel : nat) (k : Value) (snapshot_ts : Z) (chosen : option MemEntry)
    (srcs : list (list MemEntry)) : option MemEntry * list (list MemEntry) :=
  match fuel with
  | O => (chosen, srcs)
  | S fuel =>
      match newest_head k 0 None srcs with
      | None => (chosen, srcs)
      | Some (gi, e) =>
          let chosen := match chosen with
                        | Some _ => chosen
                        | None => if commit_ts e <=? snapshot_ts then Some e else None
                        end in
          consume fuel k snapshot_ts chosen (refill gi srcs)
      end
  end.

Definition total_length (srcs : list (list MemEntry)) : nat := length (concat srcs).

Definition emit (chosen : option MemEntry) : list Row :=
  match chosen with
  | Some e => if negb (tombstone e) && negb (bool_decide (values (row e) = [])) then [row e] else []
  | None => []
  end.

Fixpoint stream_merge (fuel : nat) (snapshot_ts : Z) (srcs : list (list MemEntry)) : list Row :=
  match fuel with
  | O => []
  | S fuel =>
      match min_head 0 None srcs with
      | None => []
      | Some (_, e) =>
          let '(chosen, srcs') := consume (S (total_length srcs)) (pk e) snapshot_ts None srcs in
          emit chosen ++ stream_merge fuel snapshot_ts srcs'
      end
  end.

Definition stream_visible (m : memtable_t) (levels : list (list MemEntry)) (snapshot_ts : Z) : list Row :=
  let srcs := map (fun ke => mkEntry (k_pk ke.1) (row ke.2) (tombstone ke.2) (commit_ts ke.2)) m :: levels in
  stream_merge (S (total_length srcs)) snapshot_ts srcs.

(** * Specification: the newest visible version *)

(** An entry as a candidate for key [k] at snapshot [s]. *)
Definition vis (s : Z) (k : Value) (e : MemEntry) : option MemEntry :=
  if ValueEq (pk e) k && (commit_ts e <=? s) then Some e else None.

(** The newer of two candidates, the first one on equal timestamps. *)
Definition newer (a b : option MemEntry) : option MemEntry :=
  match a, b with
  | Some x, Some y => if commit_ts x <? commit_ts y then b else a
  | None, _ => b
  | _, None => a
  end.

Definition best (s : Z) (k : Value) (es : list MemEntry) : option MemEntry :=
  foldr (fun e acc => newer (vis s k e) acc) None es.

(** The order of entries within a run, and runs as files and memtables hold them. *)
Definition entry_lt (a b : MemEntry) : Prop := MVCCKeyCompare (key_of a) (key_of b) = true.

Definition run_ok (es : list MemEntry) : Prop :=
  StronglySorted entry_lt es /\ Forall (fun e => key_ok (pk e)) es.

(** The memtable's map keys are those of its entries, with 64-bit timestamps. *)
Definition mem_ok (m : memtable_t) : Prop :=
  run_ok (map snd m) /\ Forall (fun ke => ke.1 = key_of ke.2 /\ 0 <= commit_ts ke.2 <= UINT64_MAX) m.

(** The keys of a list of entries, ascending and without repetition. *)
Fixpoint insert_key (k : Value) (ks : list Value) : list Value :=
  match ks with
  | [] => [k]
  | k' :: ks' => if ValueLess k k' then k :: ks
                 else if ValueLess k' k then k' :: insert_key k ks' else ks
  end.

Definition sorted_keys (es : list MemEntry) : list Value := foldr (fun e => insert_key (pk e)) [] es.

(** The rows of a table at a snapshot, in key order. *)
Definition visible_rows (s : Z) (es : list MemEntry) : list Row :=
  concat (map (fun k => emit (best s k es)) (sorted_keys es)).

(** * Lemmas on candidates *)

Lemma newer_assoc a b c : newer a (newer b c) = newer (newer a b) c.
Proof.
  destruct a as [x|], b as [y|], c as [z|]; cbn; try done;
    repeat match goal with |- context [?u <? ?v] => destruct (Z.ltb_spec u v); cbn end; try done; lia.
Qed.

Lemma newer_None_r a : newer a None = a.
Proof. by destruct a. Qed.

Lemma newer_comm a b :
  (forall x y, a = Some x -> b = Some y -> commit_ts x <> commit_ts y) -> newer a b = newer b a.
Proof.
  intros H. destruct a as [x|], b as [y|]; cbn; try done. specialize (H x y eq_refl eq_refl).
  destruct (Z.ltb_spec (commit_ts x) (commit_ts y)), (Z.ltb_spec (commit_ts y) (commit_ts x)); done || lia.
Qed.

(** An entry at least as new as every later candidate is chosen. *)
Lemma newer_max x b :
  (forall y, b = Some y -> commit_ts y <= commit_ts x) -> newer (Some x) b = Some x.
Proof.
  intros H. destruct b as [y|]; cbn; [|done]. specialize (H y eq_refl).
  by destruct (Z.ltb_spec (commit_ts x) (commit_ts y)); [lia|].
Qed.

Lemma best_cons s k e es : best s k (e :: es) = newer (vis s k e) (best s k es).
Proof. done. Qed.

Lemma best_app s k a b : best s k (a ++ b) = newer (best s k a) (best s k b).
Proof.
  induction a as [|e a IH]; [done|].
  change ((e :: a) ++ b) with (e :: a ++ b). by rewrite !best_cons, IH, newer_assoc.
Qed.

Lemma vis_Some s k e x : vis s k e = Some x -> x = e /\ ValueEq (pk e) k = true /\ commit_ts e <= s.
Proof.
  unfold vis. intros H. destruct (ValueEq (pk e) k) eqn:E, (Z.leb_spec (commit_ts e) s);
    cbn in H; try done. by simplify_eq.
Qed.

Lemma best_Some s k es x :
  best s k es = Some x -> x ∈ es /\ ValueEq (pk x) k = true /\ commit_ts x <= s.
Proof.
  induction es as [|e es IH]; [done|]. rewrite best_cons. intros H.
  destruct (vis s k e) as [v|] eqn:V.
  - apply vis_Some in V as (-> & ? & ?). destruct (best s k es) as [y|] eqn:B; cbn in H.
    + destruct (commit_ts e <? commit_ts y); simplify_eq.
      * destruct (IH eq_refl) as (? & ? & ?). split_and!; [by right|done|done].
      * split_and!; [by left|done|done].
    + simplify_eq. split_and!; [by left|done|done].
  - cbn in H. destruct (IH H) as (? & ? & ?). split_and!; [by right|done|done].
Qed.

Lemma vis_other s k e : ValueEq (pk e) k = false -> vis s k e = None.
Proof. unfold vis. by intros ->. Qed.

Lemma best_None s k es : Forall (fun e => ValueEq (pk e) k = false) es -> best s k es = None.
Proof. induction 1 as [|e es He _ IH]; [done|]. by rewrite best_cons, vis_other, IH. Qed.

Lemma best_Forall_None s k es : Forall (fun e => vis s k e = None) es -> best s k es = None.
Proof. induction 1 as [|e es He _ IH]; [done|]. by rewrite best_cons, He, IH. Qed.

(** * The order of versions *)

Lemma ValueLess_not_eq a b : ValueLess a b = true -> ValueEq a b = false.
Proof.
  unfold ValueLess. destruct a, b; cbn; try done; intros H; to_prop.
  - apply Z.eqb_neq. lia.
  - unfold dbl_lt, dbl_eq in *. to_prop.
    replace (dbl_key bits =? dbl_key bits0) with false by (symmetry; apply Z.eqb_neq; lia).
    by rewrite andb_false_r.
  - apply bool_decide_eq_false. intros ->. by rewrite bytes_lt_irrefl in H.
Qed.

Lemma ValueEq_sym a b : ValueEq a b = ValueEq b a.
Proof.
  destruct a, b; cbn; try done.
  - apply Z.eqb_sym.
  - unfold dbl_eq. by rewrite Z.eqb_sym, (andb_comm (negb (dbl_is_nan bits))).
  - apply bool_decide_ext. done.
Qed.

Lemma MVCCKeyCompare_irrefl a : MVCCKeyCompare a a = false.
Proof. unfold MVCCKeyCompare. by rewrite ValueLess_irrefl, Z.ltb_irrefl. Qed.

Lemma entry_lt_alt a b :
  key_ok (pk a) -> key_ok (pk b) ->
  entry_lt a b <-> ValueLess (pk a) (pk b) = true \/ (pk a = pk b /\ commit_ts b < commit_ts a).
Proof.
  intros Ha Hb. unfold entry_lt, MVCCKeyCompare. cbn.
  destruct (ValueLess_total (pk a) (pk b) Ha Hb) as [E|[E|E]].
  - rewrite E, ValueLess_irrefl, Z.ltb_lt. split; [by right|]. intros [?|[? ?]]; done.
  - rewrite E. split; [by left|done].
  - rewrite (ValueLess_asym _ _ E), E. split; [done|].
    intros [?|[F ?]]; [done|]. by rewrite F, ValueLess_irrefl in E.
Qed.

Lemma entry_lt_trans a b c :
  key_ok (pk a) -> key_ok (pk b) -> key_ok (pk c) -> entry_lt a b -> entry_lt b c -> entry_lt a c.
Proof.
  intros Ha Hb Hc. rewrite !entry_lt_alt by done. intros [H|[E H]] [H'|[E' H']].
  - left. eauto using ValueLess_trans.
  - left. by rewrite <- E'.
  - left. by rewrite E.
  - right. split; [congruence | lia].
Qed.

(** The three outcomes of comparing two keys. *)
Lemma MVCCKeyCompare_cases a b :
  key_ok (pk a) -> key_ok (pk b) ->
  (MVCCKeyCompare (key_of a) (key_of b) = true /\ entry_lt a b) \/
  (MVCCKeyCompare (key_of a) (key_of b) = false /\ MVCCKeyCompare (key_of b) (key_of a) = true
   /\ entry_lt b a) \/
  (MVCCKeyCompare (key_of a) (key_of b) = false /\ MVCCKeyCompare (key_of b) (key_of a) = false
   /\ pk a = pk b /\ commit_ts a = commit_ts b).
Proof.
  intros Ha Hb. unfold entry_lt. destruct (MVCCKeyCompare (key_of a) (key_of b)) eqn:E; [by left|].
  destruct (MVCCKeyCompare (key_of b) (key_of a)) eqn:E'; [by right; left|]. right; right.
  split_and!; try done; unfold MVCCKeyCompare in *; cbn in *;
    destruct (ValueLess_total (pk a) (pk b) Ha Hb) as [F|[F|F]]; try done.
  all: rewrite F in *; try done.
  all: try (rewrite ValueLess_irrefl in *); try (rewrite (ValueLess_asym _ _ F) in *); try done.
  to_prop. lia.
Qed.

Lemma run_ok_cons e es : run_ok (e :: es) -> run_ok es /\ key_ok (pk e) /\ Forall (entry_lt e) es.
Proof.
  intros [H K]. apply StronglySorted_inv in H as [H F]. apply Forall_cons in K as [K Ks]. done.
Qed.

Lemma run_ok_nil : run_ok [].
Proof. split; constructor. Qed.

Lemma run_ok_cons_2 e es : run_ok es -> key_ok (pk e) -> Forall (entry_lt e) es -> run_ok (e :: es).
Proof. intros [H K] Ke F. split; constructor; done. Qed.

(** Within a run, what follows an entry of [k] is an older version of [k] or another key. *)
Lemma after_same_key e es k :
  run_ok (e :: es) -> key_ok k -> ValueEq (pk e) k = true ->
  Forall (fun x => ValueEq (pk x) k = true -> commit_ts x < commit_ts e) es.
Proof.
  intros H Hk E. destruct (run_ok_cons _ _ H) as ([_ K] & Ke & F).
  apply Forall_forall. intros x Hx Ex. rewrite Forall_forall in F, K.
  specialize (F x Hx). specialize (K x Hx). apply entry_lt_alt in F; [|done|done].
  apply ValueEq_eq in E; [|done|done]. apply ValueEq_eq in Ex; [|done|done].
  destruct F as [F|[_ F]]; [|done]. by rewrite E, Ex, ValueLess_irrefl in F.
Qed.

Lemma after_larger_key e es k :
  run_ok (e :: es) -> key_ok k -> ValueLess k (pk e) = true ->
  Forall (fun x => ValueLess k (pk x) = true) es.
Proof.
  intros H Hk E. destruct (run_ok_cons _ _ H) as ([_ K] & Ke & F).
  apply Forall_forall. intros x Hx. rewrite Forall_forall in F, K.
  specialize (F x Hx). specialize (K x Hx). apply entry_lt_alt in F; [|done|done].
  destruct F as [F|[F _]]; [eauto using ValueLess_trans | by rewrite <- F].
Qed.

Lemma best_head e es s k :
  run_ok (e :: es) -> key_ok k -> ValueEq (pk e) k = true -> commit_ts e <= s ->
  best s k (e :: es) = Some e.
Proof.
  intros H Hk E L. rewrite best_cons. unfold vis. rewrite E.
  destruct (Z.leb_spec (commit_ts e) s); [|lia]. cbn [andb]. apply newer_max.
  intros y B. apply best_Some in B as (B & Ey & _).
  pose proof (after_same_key _ _ _ H Hk E) as A. rewrite Forall_forall in A. specialize (A y B Ey). lia.
Qed.

(** * Point lookup meets the specification *)

Lemma first_visible_best s k es :
  run_ok es -> key_ok k -> Forall (fun e => ValueLess (pk e) k = false) es ->
  first_visible k s (keyed es) = best s k es.
Proof.
  intros H Hk. induction es as [|e es IH]; intros F; [done|].
  destruct (run_ok_cons _ _ H) as (Hes & Ke & _). apply Forall_cons in F as [Fe F].
  cbn [keyed map first_visible key_of k_pk k_ts]. destruct (ValueEq (pk e) k) eqn:E.
  - destruct (Z.leb_spec (commit_ts e) s).
    + by rewrite best_head.
    + fold (keyed es). rewrite (IH Hes F), best_cons. unfold vis. rewrite E.
      by destruct (Z.leb_spec (commit_ts e) s); [lia|].
  - destruct (ValueLess_total (pk e) k Ke Hk) as [Eq|[L|L]];
      [by rewrite Eq, ValueEq_refl in E|congruence|].
    rewrite best_cons, vis_other by done. rewrite best_None; [done|].
    eapply Forall_impl; [exact (after_larger_key _ _ _ H Hk L)|].
    intros x Lx. rewrite ValueEq_sym. by apply ValueLess_not_eq.
Qed.

(** The entries of a file split at [k]. *)
Lemma run_ok_partition es k :
  run_ok es -> key_ok k ->
  exists n, (n <= length es)%nat /\
    Forall (fun e => ValueLess (pk e) k = true) (take n es) /\
    Forall (fun e => ValueLess (pk e) k = false) (drop n es).
Proof.
  intros H Hk. induction es as [|e es IH].
  { exists 0%nat. cbn. done. }
  destruct (run_ok_cons _ _ H) as (Hes & Ke & F). destruct (IH Hes) as (n & Hn & Ht & Hd).
  destruct (ValueLess (pk e) k) eqn:E.
  - exists (S n). cbn [take drop length]. split_and!; [lia|by constructor|done].
  - exists 0%nat. cbn [take drop length]. split_and!; [lia|done|]. constructor; [done|].
    destruct H as [_ K]. apply Forall_cons in K as [_ K].
    rewrite Forall_forall in *. intros x Hx. specialize (F x Hx).
    apply entry_lt_alt in F; [|done|by apply K].
    destruct (ValueLess (pk x) k) eqn:Ex; [|done].
    destruct F as [F|[F _]]; [|congruence].
    by rewrite (ValueLess_trans _ _ _ F Ex) in E.
Qed.

Lemma lower_bound_loop_spec fuel es k n first len :
  (forall i e, es !! i = Some e -> ValueLess (pk e) k = bool_decide (i < n)%nat) ->
  (first <= n <= first + len)%nat -> (first + len <= length es)%nat -> (len < fuel)%nat ->
  lower_bound_loop fuel es k first len = n.
Proof.
  intros P. revert first len. induction fuel as [|fuel IH]; intros first len B L F; [lia|].
  cbn [lower_bound_loop]. destruct (Nat.eqb_spec len 0); [lia|].
  assert (Nat.div2 len < len)%nat as Hh by (apply Nat.lt_div2; lia).
  destruct (lookup_lt_is_Some_2 es (first + Nat.div2 len) ltac:(lia)) as [e He].
  rewrite He, (P _ _ He). set (h := Nat.div2 len) in *. clearbody h.
  case_bool_decide; apply IH; lia.
Qed.

(** The binary search finds the split point. *)
Lemma lower_bound_spec es k :
  run_ok es -> key_ok k ->
  Forall (fun e => ValueLess (pk e) k = true) (take (lower_bound es k) es) /\
  Forall (fun e => ValueLess (pk e) k = false) (drop (lower_bound es k) es).
Proof.
  intros H Hk. destruct (run_ok_partition es k H Hk) as (n & Hn & Ht & Hd).
  assert (lower_bound es k = n) as ->; [|done].
  apply lower_bound_loop_spec; [|lia|lia|lia].
  intros i e He. case_bool_decide.
  - rewrite Forall_forall in Ht. apply Ht. apply list_elem_of_lookup. exists i.
    by rewrite lookup_take_lt.
  - rewrite Forall_forall in Hd. apply Hd. apply list_elem_of_lookup. exists (i - n)%nat.
    rewrite lookup_drop. by replace (n + (i - n))%nat with i by lia.
Qed.

Lemma run_ok_drop n es : run_ok es -> run_ok (drop n es).
Proof.
  revert es. induction n as [|n IH]; intros es H; [done|]. destruct es as [|e es]; [done|].
  cbn. apply IH. by destruct (run_ok_cons _ _ H).
Qed.

Lemma best_less s k es : Forall (fun e => ValueLess (pk e) k = true) es -> best s k es = None.
Proof.
  intros H. apply best_None. eapply Forall_impl; [exact H|]. cbn. intros. by apply ValueLess_not_eq.
Qed.

Lemma sst_candidate_best s k es :
  run_ok es -> key_ok k -> sst_candidate es k s = best s k es.
Proof.
  intros H Hk. destruct (lower_bound_spec es k H Hk) as [Ht Hd]. unfold sst_candidate.
  rewrite first_visible_best by (done || by apply run_ok_drop).
  rewrite <- (take_drop (lower_bound es k) es) at 3. by rewrite best_app, (best_less _ _ (take _ _)).
Qed.

(** Keys of a well-formed memtable are redundant. *)
Lemma mem_ok_keyed m : mem_ok m -> m = keyed (map snd m).
Proof.
  intros [_ H]. induction H as [|[k e] m [E _] _ IH]; [done|]. cbn in E. rewrite E.
  cbn [map snd keyed]. f_equal. exact IH.
Qed.

Lemma mem_ok_cons k e m :
  mem_ok ((k, e) :: m) ->
  mem_ok m /\ k = key_of e /\ key_ok (pk e) /\ 0 <= commit_ts e <= UINT64_MAX
  /\ Forall (fun ke => entry_lt e ke.2) m.
Proof.
  intros [H F]. apply Forall_cons in F as [[E T] F]. cbn [map snd] in *.
  destruct (run_ok_cons _ _ H) as (Hm & K & L). split; [by split|].
  split; [done|]. split; [done|]. split; [done|].
  apply Forall_forall. intros x Hx. rewrite Forall_forall in L. apply L.
  by apply list_elem_of_fmap_2.
Qed.

Lemma mem_lower_bound_spec m k :
  mem_ok m -> key_ok k ->
  exists n, mem_lower_bound m (mkKey k UINT64_MAX) = drop n m /\
    Forall (fun e => ValueLess (pk e) k = true) (map snd (take n m)) /\
    Forall (fun e => ValueLess (pk e) k = false) (map snd (drop n m)).
Proof.
  intros H Hk. induction m as [|[k' e] m IH].
  { exists 0%nat. cbn. done. }
  destruct (mem_ok_cons _ _ _ H) as (Hm & -> & Ke & T & _). destruct (IH Hm) as (n & E & Ht & Hd).
  assert (MVCCKeyCompare (key_of e) (mkKey k UINT64_MAX) = ValueLess (pk e) k) as C.
  { unfold MVCCKeyCompare. cbn. destruct (ValueLess (pk e) k); [done|].
    destruct (ValueLess k (pk e)); [done|]. apply Z.ltb_ge. lia. }
  cbn [mem_lower_bound]. rewrite C. destruct (ValueLess (pk e) k) eqn:L.
  - exists (S n). cbn. split_and!; [done| by constructor |done].
  - exists 0%nat. cbn. split_and!; [done|done|].
    destruct H as [H _]. destruct (run_ok_partition _ _ H Hk) as ([|n'] & _ & Ht' & Hd').
    + exact Hd'.
    + cbn in Ht'. apply Forall_cons in Ht' as [? _]. congruence.
Qed.

Lemma mem_ok_drop n m : mem_ok m -> mem_ok (drop n m).
Proof.
  intros [H F]. split; [|by apply Forall_drop]. change (map snd (drop n m)) with (snd <$> drop n m).
  rewrite fmap_drop. by apply run_ok_drop.
Qed.

Lemma mem_candidate_best s k m :
  mem_ok m -> key_ok k -> mem_candidate m k s = best s k (map snd m).
Proof.
  intros H Hk. destruct (mem_lower_bound_spec m k H Hk) as (n & E & Ht & Hd).
  unfold mem_candidate. rewrite E, (mem_ok_keyed (drop n m)) by by apply mem_ok_drop.
  rewrite first_visible_best; [|apply (mem_ok_drop n m H)|done|done].
  rewrite <- (take_drop n m) at 2. by rewrite map_app, best_app, (best_less _ _ (map snd (take _ _))).
Qed.

Lemma max_element_newer cands : max_element cands = foldr (fun e acc => newer (Some e) acc) None cands.
Proof.
  unfold max_element.
  assert (forall b, foldl (fun best e => match best with
                       | None => Some e
                       | Some b => if commit_ts b <? commit_ts e then Some e else best
                       end) b cands = newer b (foldr (fun e acc => newer (Some e) acc) None cands)) as G.
  { induction cands as [|e es IH]; intros b; cbn [foldl foldr]; [by rewrite newer_None_r|].
    rewrite IH, newer_assoc. f_equal; by destruct b. }
  apply G.
Qed.

(** The best of the per-source candidates is the best of all sources. *)
Lemma max_element_sources s k (srcs : list (list MemEntry)) :
  max_element (omap (best s k) srcs) = best s k (concat srcs).
Proof.
  rewrite max_element_newer. induction srcs as [|es srcs IH]; [done|].
  cbn [omap list_omap concat]. rewrite best_app, <- IH.
  by destruct (best s k es).
Qed.

(** * Memtable updates *)

Lemma key_of_inj_ts a b : pk a = pk b -> commit_ts a = commit_ts b -> key_of a = key_of b.
Proof. unfold key_of. by intros -> ->. Qed.

(** Replacing an older entry of the same key and timestamp. *)
Lemma newer_replace s k e e' b :
  pk e = pk e' -> commit_ts e = commit_ts e' ->
  newer (vis s k e) (newer (vis s k e') b) = newer (vis s k e) b.
Proof.
  intros E T. unfold vis. rewrite <- E, <- T.
  destruct (ValueEq (pk e) k && (commit_ts e <=? s)); [|done].
  rewrite newer_assoc. f_equal. cbn [newer]. rewrite T, Z.ltb_irrefl. done.
Qed.

(** A version older than, or of another key than, everything in a run commutes with it. *)
Lemma newer_swap s k e es b :
  key_ok k -> key_ok (pk e) -> Forall (fun x => key_ok (pk x) /\ entry_lt e x) es ->
  newer (best s k es) (newer (vis s k e) b) = newer (vis s k e) (newer (best s k es) b).
Proof.
  intros Hk Ke F. rewrite !newer_assoc. f_equal. apply newer_comm. intros x y Hx Hy.
  apply best_Some in Hx as (Hx & Ex & _). apply vis_Some in Hy as (-> & Ey & _).
  rewrite Forall_forall in F. destruct (F x Hx) as [Kx L].
  apply entry_lt_alt in L; [|done|done]. apply ValueEq_eq in Ex; [|done|done].
  apply ValueEq_eq in Ey; [|done|done]. destruct L as [L|[_ L]]; [|lia].
  by rewrite Ey, Ex, ValueLess_irrefl in L.
Qed.

Lemma run_ok_keys es : run_ok es -> Forall (fun e => key_ok (pk e)) es.
Proof. by intros [_ H]. Qed.

Lemma Forall_key_lt e es :
  run_ok es -> Forall (entry_lt e) es -> Forall (fun x => key_ok (pk x) /\ entry_lt e x) es.
Proof. intros [_ K] F. by apply Forall_and. Qed.

Lemma Forall_lt_trans e e' es :
  key_ok (pk e) -> key_ok (pk e') -> run_ok es -> entry_lt e e' -> Forall (entry_lt e') es ->
  Forall (entry_lt e) es.
Proof.
  intros Ke Ke' [_ K] L F. rewrite Forall_forall in *. eauto using entry_lt_trans.
Qed.

Lemma mem_put_lt x m k e :
  entry_lt x e -> Forall (fun ke => entry_lt x ke.2) m ->
  Forall (fun ke => entry_lt x ke.2) (mem_put m k e).
Proof.
  intros L. induction 1 as [|[k' e'] m H F IH]; cbn; [by repeat constructor|].
  repeat case_match; by repeat constructor.
Qed.

Lemma mem_ok_cons_2 e m :
  mem_ok m -> key_ok (pk e) -> 0 <= commit_ts e <= UINT64_MAX ->
  Forall (fun ke => entry_lt e ke.2) m -> mem_ok ((key_of e, e) :: m).
Proof.
  intros [H F] K T L. split; [|by constructor]. apply run_ok_cons_2; [done|done|].
  apply Forall_fmap. exact L.
Qed.

(** Writing a version keeps the memtable well-formed, and what every reader sees
    is the new version against what was there. *)
Lemma mem_put_spec m e :
  mem_ok m -> key_ok (pk e) -> 0 <= commit_ts e <= UINT64_MAX ->
  mem_ok (mem_put m (key_of e) e) /\
  forall s k, key_ok k ->
    best s k (map snd (mem_put m (key_of e) e)) = newer (vis s k e) (best s k (map snd m)).
Proof.
  intros H Ke T. induction m as [|[k' e'] m IH].
  { split; [|done]. apply mem_ok_cons_2; done || by constructor. }
  pose proof H as [Hr _]. destruct (mem_ok_cons _ _ _ H) as (Hm & -> & Ke' & T' & L).
  destruct (IH Hm) as [I1 I2]. cbn [mem_put].
  destruct (MVCCKeyCompare_cases e e' Ke Ke') as [[C O]|[(C & C' & O)|(C & C' & E & Et)]];
    rewrite C; [|rewrite C'..].
  - split; [|done]. apply mem_ok_cons_2; [done..|]. constructor; [done|].
    rewrite Forall_forall in *. intros [kx x] Hx. specialize (L _ Hx). cbn in *.
    destruct Hm as [[_ K] _]. rewrite Forall_forall in K.
    apply (entry_lt_trans e e' x); [done|done| |done|done]. apply K. by apply (list_elem_of_fmap_2 snd m (kx, x)).
  - split; [apply mem_ok_cons_2; [done..|by apply mem_put_lt]|].
    intros s k Hk. cbn [map snd]. rewrite !best_cons, I2 by done.
    rewrite !newer_assoc. f_equal. apply newer_comm. intros x y Hx Hy.
    apply vis_Some in Hx as (-> & Ex & _). apply vis_Some in Hy as (-> & Ey & _).
    apply entry_lt_alt in O; [|done|done]. apply ValueEq_eq in Ex, Ey; try done.
    destruct O as [O|[_ O]]; [|lia]. by rewrite Ex, Ey, ValueLess_irrefl in O.
  - split.
    + rewrite <- (key_of_inj_ts _ _ E Et). apply mem_ok_cons_2; [done..|].
      eapply Forall_impl; [exact L|]. intros [? x]. cbn. unfold entry_lt.
      by rewrite (key_of_inj_ts _ _ E Et).
    + intros s k Hk. cbn [map snd]. rewrite !best_cons. by rewrite newer_replace.
Qed.

(** * Merging *)

Lemma snd_keyed es : map snd (keyed es) = es.
Proof. unfold keyed. rewrite map_map. by rewrite map_id. Qed.

Lemma merge_runs_nil_l lo : merge_runs [] lo = map snd lo.
Proof. by destruct lo. Qed.

Lemma merge_runs_nil_r hi : merge_runs hi [] = map snd hi.
Proof. by destruct hi as [|[? ?] ?]. Qed.

Lemma Forall_merge_runs (P : MemEntry -> Prop) hi lo :
  Forall P (map snd hi) -> Forall P (map snd lo) -> Forall P (merge_runs hi lo).
Proof.
  revert lo. induction hi as [|[hk he] hi IH]; intros lo Hh Hl; [by destruct lo|].
  induction lo as [|[lk le] lo IHl]; [done|].
  pose proof Hh as Hh'. pose proof Hl as Hl'. cbn [map snd] in Hh', Hl'.
  apply Forall_cons in Hh' as [? ?]. apply Forall_cons in Hl' as [? ?].
  cbn [merge_runs]. repeat case_match; constructor; auto.
Qed.

Lemma merge_runs_cons he hi le lo :
  merge_runs (keyed (he :: hi)) (keyed (le :: lo)) =
  if MVCCKeyCompare (key_of he) (key_of le) then he :: merge_runs (keyed hi) (keyed (le :: lo))
  else if MVCCKeyCompare (key_of le) (key_of he) then le :: merge_runs (keyed (he :: hi)) (keyed lo)
  else he :: merge_runs (keyed hi) (keyed lo).
Proof. reflexivity. Qed.

Lemma merge_runs_spec hi lo :
  run_ok hi -> run_ok lo ->
  run_ok (merge_runs (keyed hi) (keyed lo)) /\
  forall s k, key_ok k ->
    best s k (merge_runs (keyed hi) (keyed lo)) = newer (best s k hi) (best s k lo).
Proof.
  revert lo. induction hi as [|he hi IH]; intros lo Hh Hl.
  { change (keyed []) with (@nil (MVCCKey * MemEntry)). by rewrite merge_runs_nil_l, snd_keyed. }
  induction lo as [|le lo IHl].
  { rewrite merge_runs_nil_r, snd_keyed. split; [done|]. intros. by rewrite newer_None_r. }
  destruct (run_ok_cons _ _ Hh) as (Hh' & Kh & Lh). destruct (run_ok_cons _ _ Hl) as (Hl' & Kl & Ll).
  specialize (IHl Hl'). rewrite merge_runs_cons.
  destruct (MVCCKeyCompare_cases he le Kh Kl) as [[C O]|[(C & C' & O)|(C & C' & E & Et)]];
    rewrite C; [|rewrite C'..].
  - destruct (IH (le :: lo) Hh' Hl) as [I1 I2]. split.
    + apply run_ok_cons_2; [exact I1|done|]. apply Forall_merge_runs; rewrite ?snd_keyed; [done|].
      constructor; [done|]. by apply (Forall_lt_trans _ le).
    + intros s k Hk. rewrite best_cons, (I2 s k Hk). by rewrite newer_assoc.
  - destruct IHl as [I1 I2]. split.
    + apply run_ok_cons_2; [exact I1|done|].
      apply (Forall_merge_runs _ (keyed (he :: hi)) (keyed lo)); rewrite ?snd_keyed; [|done].
      constructor; [done|]. by apply (Forall_lt_trans _ he).
    + intros s k Hk. rewrite best_cons. etransitivity; [apply f_equal, (I2 s k Hk)|].
      rewrite (best_cons s k le). symmetry. apply newer_swap; [done|done|].
      apply Forall_key_lt; [done|]. constructor; [done|]. by apply (Forall_lt_trans _ he).
  - destruct (IH lo Hh' Hl') as [I1 I2]. split.
    + apply run_ok_cons_2; [exact I1|done|].
      apply Forall_merge_runs; rewrite ?snd_keyed; [done|].
      eapply Forall_impl; [exact Ll|]. unfold entry_lt. by rewrite (key_of_inj_ts _ _ E Et).
    + intros s k Hk. rewrite !best_cons, (I2 s k Hk).
      rewrite <- (newer_assoc (vis s k he) (best s k hi)).
      assert (Forall (fun x => key_ok (pk x) /\ entry_lt le x) hi) as F.
      { apply Forall_key_lt; [done|]. eapply Forall_impl; [exact Lh|]. unfold entry_lt.
        by rewrite (key_of_inj_ts _ _ E Et). }
      rewrite (newer_swap s k le hi) by done. by rewrite newer_replace.
Qed.

(** * Garbage collection *)

Lemma run_ok_sublist a b : sublist a b -> run_ok b -> run_ok a.
Proof.
  intros S [H K]. split; [|by eapply Forall_sublist].
  revert H K. induction S as [|x l1 l2 S IH|x l1 l2 S IH]; intros H K; [constructor|..];
    apply StronglySorted_inv in H as [H F]; apply Forall_cons in K as [_ K].
  - constructor; [by apply IH|]. by eapply Forall_sublist.
  - by apply IH.
Qed.

Lemma run_ok_app_r a b : run_ok (a ++ b) -> run_ok b.
Proof. apply run_ok_sublist. by apply sublist_inserts_l. Qed.
Lemma run_ok_app_l a b : run_ok (a ++ b) -> run_ok a.
Proof. apply run_ok_sublist. by apply sublist_inserts_r. Qed.

Lemma segment_spec k es a b :
  segment k es = (a, b) ->
  es = a ++ b /\ Forall (fun e => ValueEq (pk e) k = true) a /\
  match b with [] => True | e :: _ => ValueEq (pk e) k = false end.
Proof.
  revert a b. induction es as [|e es IH]; intros a b H; cbn in H; simplify_eq; [done|].
  destruct (ValueEq (pk e) k) eqn:E; [|by simplify_eq].
  destruct (segment k es) as [a' b'] eqn:S. destruct (IH _ _ eq_refl) as (-> & F & B).
  simplify_eq. split_and!; [done|by constructor|done].
Qed.

(** What follows the segment of a key in a run holds no version of that key. *)
Lemma after_segment k a b :
  run_ok (a ++ b) -> key_ok k -> a <> [] -> Forall (fun e => ValueEq (pk e) k = true) a ->
  match b with [] => True | e :: _ => ValueEq (pk e) k = false end ->
  Forall (fun e => ValueEq (pk e) k = false) b.
Proof.
  intros H Hk Ha F B. destruct b as [|e b]; [done|]. destruct a as [|x a]; [done|].
  apply Forall_cons in F as [Ex _]. destruct (run_ok_cons _ _ H) as (_ & Kx & Lx).
  apply run_ok_app_r in H. destruct (run_ok_cons _ _ H) as (_ & Ke & _).
  assert (ValueLess k (pk e) = true) as L.
  { apply Forall_app in Lx as [_ Lx]. apply Forall_cons in Lx as [Lx _].
    apply entry_lt_alt in Lx; [|done|done]. apply ValueEq_eq in Ex; [|done|done]. subst k.
    destruct Lx as [Lx|[Lx _]]; [done|]. by rewrite Lx, ValueEq_refl in B. }
  constructor; [done|]. eapply Forall_impl; [exact (after_larger_key _ _ _ H Hk L)|].
  cbn. intros y Ly. rewrite ValueEq_sym. by apply ValueLess_not_eq.
Qed.

Lemma anchor_split_spec h seg a b :
  anchor_split h seg = (a, b) ->
  seg = a ++ b /\ match b with [] => True | e :: _ => commit_ts e <= h end.
Proof.
  revert a b. induction seg as [|e seg IH]; intros a b H; cbn in H; simplify_eq; [done|].
  destruct (Z.leb_spec (commit_ts e) h); [by simplify_eq|].
  destruct (anchor_split h seg) as [a' b'] eqn:S. destruct (IH _ _ eq_refl) as (-> & B).
  by simplify_eq.
Qed.

Lemma gc_segment_sublist h seg : sublist (gc_segment h seg) seg.
Proof.
  unfold gc_segment. destruct (anchor_split h seg) as [a [|e b]] eqn:S;
    apply anchor_split_spec in S as [-> _].
  - by rewrite app_nil_r.
  - destruct (_ && _); [apply sublist_nil_l|]. apply sublist_app; [done|].
    apply sublist_skip, sublist_nil_l.
Qed.

Lemma gc_versions_sublist fuel h es : sublist (gc_versions fuel h es) es.
Proof.
  revert es. induction fuel as [|fuel IH]; intros es; [apply sublist_nil_l|].
  destruct es as [|e es]; [done|]. cbn [gc_versions].
  destruct (segment (pk e) (e :: es)) as [a b] eqn:S. apply segment_spec in S as (-> & _).
  apply sublist_app; [apply gc_segment_sublist|apply IH].
Qed.

(** The dropped tombstone: nothing is left of the key, which was deleted. *)
Definition tombstone_dropped (before after : option MemEntry) : Prop :=
  after = None /\ exists t, before = Some t /\ tombstone t = true.

Lemma gc_segment_best h seg s k :
  run_ok seg -> key_ok k -> Forall (fun e => ValueEq (pk e) k = true) seg -> h <= s ->
  best s k (gc_segment h seg) = best s k seg \/
  tombstone_dropped (best s k seg) (best s k (gc_segment h seg)).
Proof.
  intros H Hk F Hs. unfold gc_segment.
  destruct (anchor_split h seg) as [a b] eqn:S. apply anchor_split_spec in S as [-> B].
  destruct b as [|e b]; [left; by rewrite app_nil_r|].
  pose proof (run_ok_app_r _ _ H) as Hb. apply Forall_app in F as [Fa Fb].
  apply Forall_cons in Fb as [Fe Fb]. assert (best s k (e :: b) = Some e) as Be by (apply best_head; done || lia).
  destruct (tombstone e) eqn:T; cbn [andb].
  - case_bool_decide as E.
    + subst a. right. split; [done|]. exists e. done.
    + left. rewrite !best_app, Be. f_equal. rewrite best_head; [done| |done|done|lia].
      eapply run_ok_sublist; [|exact Hb]. apply sublist_skip, sublist_nil_l.
  - left. rewrite !best_app, Be. f_equal. rewrite best_head; [done| |done|done|lia].
    eapply run_ok_sublist; [|exact Hb]. apply sublist_skip, sublist_nil_l.
Qed.

Lemma gc_versions_best fuel h es s k :
  run_ok es -> key_ok k -> (length es <= fuel)%nat -> h <= s ->
  best s k (gc_versions fuel h es) = best s k es \/
  tombstone_dropped (best s k es) (best s k (gc_versions fuel h es)).
Proof.
  intros H Hk. revert es H. induction fuel as [|fuel IH]; intros es H Hf Hs.
  { destruct es; [by left|]. cbn in Hf. lia. }
  destruct es as [|e es]; [by left|]. cbn [gc_versions].
  destruct (segment (pk e) (e :: es)) as [a b] eqn:S.
  destruct (run_ok_cons _ _ H) as (_ & Ke & _).
  assert (a <> []) as Ha.
  { cbn in S. rewrite ValueEq_refl in S by done. destruct (segment (pk e) es). by simplify_eq. }
  apply segment_spec in S as (E & Fa & B). rewrite E in *.
  pose proof (after_segment _ _ _ H Ke Ha Fa B) as Fb.
  assert (length b <= fuel)%nat as Hfb.
  { destruct a; [done|]. rewrite length_app in Hf. cbn in Hf. lia. }
  rewrite !best_app. destruct (decide (pk e = k)) as [<-|N].
  - rewrite (best_None _ _ b Fb).
    rewrite (best_None _ _ (gc_versions fuel h b)) by (eapply Forall_sublist; [apply gc_versions_sublist|done]).
    rewrite !newer_None_r. apply gc_segment_best; try done. by eapply run_ok_app_l.
  - assert (Forall (fun x => ValueEq (pk x) k = false) a) as Fa'.
    { apply run_ok_app_l in H. destruct H as [_ K]. rewrite Forall_forall in *. intros x Hx.
      specialize (Fa x Hx). specialize (K x Hx). apply ValueEq_eq in Fa; [|done|done].
      destruct (ValueEq (pk x) k) eqn:Ex; [|done]. apply ValueEq_eq in Ex; [|done|done]. congruence. }
    rewrite (best_None _ _ a Fa').
    rewrite (best_None _ _ (gc_segment h a)) by (eapply Forall_sublist; [apply gc_segment_sublist|done]).
    apply IH; [by eapply run_ok_app_r|done|done].
Qed.

(** One compaction step: the merged file is a run, and at every snapshot from the
    horizon on each key shows what the two levels showed, up to a dropped tombstone. *)
Lemma compact_merge_spec h curr next :
  run_ok curr -> run_ok next ->
  run_ok (compact_merge h curr next) /\
  forall s k, key_ok k -> h <= s ->
    best s k (compact_merge h curr next) = best s k (curr ++ next) \/
    tombstone_dropped (best s k (curr ++ next)) (best s k (compact_merge h curr next)).
Proof.
  intros Hc Hn. destruct (merge_runs_spec curr next Hc Hn) as [Hm Bm]. unfold compact_merge.
  destruct (0 <? h).
  - split; [eapply run_ok_sublist; [apply gc_versions_sublist|done]|].
    intros s k Hk Hs. rewrite best_app, <- Bm by done. by apply gc_versions_best.
  - split; [done|]. intros s k Hk _. left. by rewrite Bm, best_app.
Qed.

Lemma Forall_compact_merge (P : MemEntry -> Prop) h curr next :
  Forall P curr -> Forall P next -> Forall P (compact_merge h curr next).
Proof.
  intros Hc Hn. assert (Forall P (merge_runs (keyed curr) (keyed next)))
    by (apply Forall_merge_runs; by rewrite snd_keyed).
  unfold compact_merge. destruct (0 <? h); [|done].
  eapply Forall_sublist; [apply gc_versions_sublist|done].
Qed.

(** * Keys in order *)

Definition vless (a b : Value) : Prop := ValueLess a b = true.

#[export] Instance vless_antisymm : AntiSymm (=) vless.
Proof. intros a b H H'. apply ValueLess_asym in H. unfold vless in H'. congruence. Qed.

Lemma sorted_NoDup ks : StronglySorted vless ks -> NoDup ks.
Proof.
  induction 1 as [|k ks _ IH F]; constructor; [|done]. intros Hk. rewrite Forall_forall in F.
  specialize (F k Hk). unfold vless in F. by rewrite ValueLess_irrefl in F.
Qed.

(** A strictly ascending list is determined by its members. *)
Lemma sorted_ext ks ks' :
  StronglySorted vless ks -> StronglySorted vless ks' -> (forall k, k ∈ ks <-> k ∈ ks') -> ks = ks'.
Proof.
  intros H H' E. apply (StronglySorted_unique vless); [done|done|].
  apply NoDup_Permutation; auto using sorted_NoDup.
Qed.

Lemma elem_insert_key k ks x :
  key_ok k -> Forall key_ok ks -> x ∈ insert_key k ks <-> x = k \/ x ∈ ks.
Proof.
  intros Hk. induction 1 as [|k' ks Hk' _ IH]; cbn [insert_key].
  { rewrite list_elem_of_singleton, elem_of_nil. tauto. }
  destruct (ValueLess_total k k' Hk Hk') as [->|[L|L]].
  - rewrite ValueLess_irrefl, !elem_of_cons. tauto.
  - rewrite L, !elem_of_cons. tauto.
  - rewrite (ValueLess_asym _ _ L), L. rewrite !elem_of_cons, IH. tauto.
Qed.

Lemma sorted_insert_key k ks :
  key_ok k -> Forall key_ok ks -> StronglySorted vless ks -> StronglySorted vless (insert_key k ks).
Proof.
  intros Hk F S. induction S as [|k' ks S IH L]; cbn [insert_key]; [by repeat constructor|].
  apply Forall_cons in F as [Hk' F].
  destruct (ValueLess_total k k' Hk Hk') as [->|[L'|L']].
  - rewrite ValueLess_irrefl. by constructor.
  - rewrite L'. repeat constructor; try done. rewrite Forall_forall in *. intros x Hx.
    specialize (L x Hx). unfold vless in *. eauto using ValueLess_trans.
  - rewrite (ValueLess_asym _ _ L'), L'. constructor; [by apply IH|].
    rewrite Forall_forall in *. intros x Hx. apply elem_insert_key in Hx as [->|Hx];
      [done|by apply L|done|by apply Forall_forall].
Qed.

Definition keys_ok (es : list MemEntry) : Prop := Forall (fun e => key_ok (pk e)) es.

Lemma keys_ok_elem es e : keys_ok es -> e ∈ es -> key_ok (pk e).
Proof. unfold keys_ok. rewrite Forall_forall. auto. Qed.

Lemma elem_sorted_keys es k :
  keys_ok es -> (k ∈ sorted_keys es <-> exists e, e ∈ es /\ pk e = k) /\ Forall key_ok (sorted_keys es).
Proof.
  intros H. revert k. induction H as [|e es Ke _ IH]; intros k.
  { split; [|by constructor]. split; [by intros ?%elem_of_nil|]. by intros (? & ?%elem_of_nil & _). }
  assert (Forall key_ok (sorted_keys es)) as F by apply (IH k). cbn [sorted_keys foldr].
  fold (sorted_keys es). split.
  - rewrite elem_insert_key by done. destruct (IH k) as [-> _]. split.
    + intros [->|(x & ? & ?)]; [exists e|exists x]; split; done || by constructor.
    + intros (x & [->|Hx]%elem_of_cons & <-); [by left|]. right. eauto.
  - apply Forall_forall. intros x Hx. apply elem_insert_key in Hx as [->|Hx]; [done| |done|done].
    rewrite Forall_forall in F. by apply F.
Qed.

Lemma sorted_sorted_keys es : keys_ok es -> StronglySorted vless (sorted_keys es).
Proof.
  induction 1 as [|e es Ke H IH]; [constructor|]. cbn [sorted_keys foldr]. fold (sorted_keys es).
  apply sorted_insert_key; [done|by apply (elem_sorted_keys es (pk e))|done].
Qed.

(** * The streaming merge *)

Definition drop_key (k : Value) (es : list MemEntry) : list MemEntry := (segment k es).2.

(** The head of a source, if it is a version of [k], is older than [t]. *)
Definition head_lt (k : Value) (t : Z) (src : list MemEntry) : Prop :=
  match src with e :: _ => ValueEq (pk e) k = true -> commit_ts e < t | [] => True end.
Definition head_other (k : Value) (src : list MemEntry) : Prop :=
  match src with e :: _ => ValueEq (pk e) k = false | [] => True end.

Ltac close_head :=
  split_and!; cbn; try done; try lia; try (intros ? ? [= <- <-]; lia);
  try (constructor; [cbn; first [done | congruence | lia] | done]).

Lemma newest_head_spec k i b srcs :
  match newest_head k i b srcs with
  | None => b = None /\ Forall (head_other k) srcs
  | Some (j, e) =>
      (b = Some (j, e) /\ Forall (head_lt k (commit_ts e + 1)) srcs) \/
      exists pre rest post, srcs = pre ++ (e :: rest) :: post /\ j = (i + length pre)%nat /\
        ValueEq (pk e) k = true /\ (forall j' b', b = Some (j', b') -> commit_ts b' < commit_ts e) /\
        Forall (head_lt k (commit_ts e)) pre /\ Forall (head_lt k (commit_ts e + 1)) post
  end.
Proof.
  revert i b. induction srcs as [|[|e es] srcs IH]; intros i b; cbn [newest_head].
  - destruct b as [[j e]|]; [left|]; by repeat constructor.
  - specialize (IH (S i) b). destruct (newest_head k (S i) b srcs) as [[j e]|].
    + destruct IH as [[-> F]|(pre & rest & post & -> & -> & E & B & F1 & F2)].
      * left. split; [done|by constructor].
      * right. exists ([] :: pre), rest, post. close_head.
    + destruct IH as [-> F]. by repeat constructor.
  - destruct (ValueEq (pk e) k) eqn:Ee.
    + destruct b as [[j0 b0]|]; [destruct (Z.ltb_spec (commit_ts b0) (commit_ts e)) as [Lt|Ge]|].
      * specialize (IH (S i) (Some (i, e))). destruct (newest_head k (S i) _ srcs) as [[j x]|]; [|by destruct IH].
        right. destruct IH as [[[= <- <-] F]|(pre & rest & post & -> & -> & E & B & F1 & F2)].
        -- exists [], es, srcs. close_head.
        -- specialize (B _ _ eq_refl). exists ((e :: es) :: pre), rest, post. close_head.
      * specialize (IH (S i) (Some (j0, b0))). destruct (newest_head k (S i) _ srcs) as [[j x]|]; [|by destruct IH].
        destruct IH as [[[= <- <-] F]|(pre & rest & post & -> & -> & E & B & F1 & F2)].
        -- left. split; [done|]. constructor; [cbn; lia|done].
        -- right. specialize (B _ _ eq_refl). exists ((e :: es) :: pre), rest, post. close_head.
      * specialize (IH (S i) (Some (i, e))). destruct (newest_head k (S i) _ srcs) as [[j x]|]; [|by destruct IH].
        right. destruct IH as [[[= <- <-] F]|(pre & rest & post & -> & -> & E & B & F1 & F2)].
        -- exists [], es, srcs. close_head.
        -- specialize (B _ _ eq_refl). exists ((e :: es) :: pre), rest, post. close_head.
    + specialize (IH (S i) b). destruct (newest_head k (S i) b srcs) as [[j x]|].
      * destruct IH as [[-> F]|(pre & rest & post & -> & -> & E & B & F1 & F2)].
        -- left. split; [done|]. constructor; [cbn; congruence|done].
        -- right. exists ((e :: es) :: pre), rest, post. close_head.
      * destruct IH as [-> F]. by repeat constructor.
Qed.

(** Sources of the merge: sorted runs in which no key is below [k]. *)
Definition above (k : Value) (src : list MemEntry) : Prop :=
  run_ok src /\ Forall (fun e => ValueLess (pk e) k = false) src.

Lemma above_tail k e src : above k (e :: src) -> above k src.
Proof.
  intros [H F]. apply Forall_cons in F as [_ F]. by destruct (run_ok_cons _ _ H).
Qed.

Lemma head_lt_best k t src s y :
  above k src -> key_ok k -> head_lt k t src -> best s k src = Some y -> commit_ts y < t.
Proof.
  intros [H F] Hk L B. destruct src as [|e src]; [done|]. apply best_Some in B as (Hy & Ey & _).
  destruct (run_ok_cons _ _ H) as ([_ K] & Ke & Lt). apply Forall_cons in F as [Fe _]. cbn in L.
  apply elem_of_cons in Hy as [->|Hy]; [by apply L|].
  rewrite Forall_forall in Lt, K. specialize (Lt y Hy). specialize (K y Hy).
  apply entry_lt_alt in Lt; [|done|done]. apply ValueEq_eq in Ey; [|done|done]. subst k.
  destruct Lt as [Lt|[E Lt]]; [congruence|]. rewrite E in L. rewrite ValueEq_refl in L by done.
  specialize (L eq_refl). lia.
Qed.

Lemma heads_lt_best k t srcs s y :
  Forall (above k) srcs -> key_ok k -> Forall (head_lt k t) srcs ->
  best s k (concat srcs) = Some y -> commit_ts y < t.
Proof.
  intros A Hk L B. induction srcs as [|src srcs IH]; [done|].
  apply Forall_cons in A as [A As]. apply Forall_cons in L as [L Ls].
  cbn [concat] in B. rewrite best_app in B.
  destruct (best s k src) as [x|] eqn:Bx, (best s k (concat srcs)) as [z|]; cbn in B; simplify_eq; auto.
  - destruct (commit_ts x <? commit_ts z); simplify_eq; eauto using head_lt_best.
  - eauto using head_lt_best.
Qed.

Lemma head_other_above k src :
  above k src -> key_ok k -> head_other k src ->
  Forall (fun e => ValueEq (pk e) k = false) src.
Proof.
  intros [H F] Hk O. destruct src as [|e src]; [done|]. cbn in O. apply Forall_cons in F as [Fe _].
  destruct (run_ok_cons _ _ H) as (_ & Ke & _).
  destruct (ValueLess_total (pk e) k Ke Hk) as [E|[L|L]]; [by rewrite E, ValueEq_refl in O|congruence|].
  constructor; [done|]. eapply Forall_impl; [exact (after_larger_key _ _ _ H Hk L)|].
  cbn. intros x Lx. rewrite ValueEq_sym. by apply ValueLess_not_eq.
Qed.

Lemma drop_key_other k src : head_other k src -> drop_key k src = src.
Proof. unfold drop_key. destruct src as [|e src]; [done|]. cbn. by intros ->. Qed.

Lemma drop_key_cons k e src : ValueEq (pk e) k = true -> drop_key k (e :: src) = drop_key k src.
Proof. unfold drop_key. cbn. intros ->. by destruct (segment k src). Qed.

Lemma refill_app pre src post : refill (length pre) (pre ++ src :: post) = pre ++ tail src :: post.
Proof. unfold refill. rewrite alter_app_r_alt by lia. by rewrite Nat.sub_diag. Qed.

(** Consuming the newest head decides the key if it is visible. *)
Lemma consume_step k s pre e rest post :
  Forall (above k) (pre ++ (e :: rest) :: post) -> key_ok k -> ValueEq (pk e) k = true ->
  Forall (head_lt k (commit_ts e)) pre -> Forall (head_lt k (commit_ts e + 1)) post ->
  best s k (concat (pre ++ (e :: rest) :: post)) =
  if commit_ts e <=? s then Some e else best s k (concat (pre ++ rest :: post)).
Proof.
  intros A Hk E F1 F2. apply Forall_app in A as [A1 A2]. apply Forall_cons in A2 as [Ae A2].
  rewrite !concat_app, !best_app. cbn [concat]. rewrite !best_app, best_cons. unfold vis. rewrite E.
  destruct (Z.leb_spec (commit_ts e) s) as [L|L]; cbn [andb]; [|done].
  assert (newer (newer (Some e) (best s k rest)) (best s k (concat post)) = Some e) as ->.
  { rewrite <- newer_assoc. apply newer_max. intros y B.
    destruct (best s k rest) as [x|] eqn:Bx, (best s k (concat post)) as [z|] eqn:Bz; cbn in B;
      try done; [destruct (commit_ts x <? commit_ts z)| |]; simplify_eq.
    all: try (assert (commit_ts y < commit_ts e + 1) by (eauto using heads_lt_best); lia).
    all: apply best_Some in Bx as (Hx & Ex & _); destruct Ae as [Ae _].
    all: pose proof (after_same_key _ _ _ Ae Hk E) as F; rewrite Forall_forall in F.
    all: specialize (F _ Hx Ex); lia. }
  rewrite newer_comm; [apply newer_max|].
  - intros y B. assert (commit_ts y < commit_ts e) by (eauto using heads_lt_best). lia.
  - intros x y Bx [= <-]. assert (commit_ts x < commit_ts e) by (eauto using heads_lt_best). lia.
Qed.

Lemma consume_spec fuel k s chosen srcs :
  Forall (above k) srcs -> key_ok k -> (total_length srcs < fuel)%nat ->
  consume fuel k s chosen srcs =
  (match chosen with Some _ => chosen | None => best s k (concat srcs) end, map (drop_key k) srcs).
Proof.
  intros A Hk. revert chosen srcs A. induction fuel as [|fuel IH]; intros chosen srcs A Hf; [lia|].
  cbn [consume]. pose proof (newest_head_spec k 0 None srcs) as N.
  destruct (newest_head k 0 None srcs) as [[gi e]|].
  - destruct N as [[? _]|(pre & rest & post & -> & -> & E & _ & F1 & F2)]; [done|]. cbn [Nat.add].
    rewrite refill_app. cbn [tail]. rewrite IH.
    + f_equal.
      * rewrite (consume_step k s pre e rest post) by done. by destruct chosen, (commit_ts e <=? s).
      * rewrite !map_app. cbn [map]. by rewrite (drop_key_cons k e rest).
    + apply Forall_app in A as [A1 A2]. apply Forall_cons in A2 as [Ae A2].
      apply Forall_app. split; [done|]. constructor; [by eapply above_tail|done].
    + unfold total_length in *. rewrite concat_app, length_app in *. cbn [concat] in *.
      rewrite length_app in *. cbn [length] in Hf. lia.
  - destruct N as [_ F]. f_equal.
    + destruct chosen; [done|]. symmetry. apply best_None, Forall_concat. rewrite Forall_forall in *.
      intros src Hs. apply head_other_above; auto.
    + clear -F. induction F as [|src srcs H _ IH]; [done|]. cbn. by rewrite <- IH, drop_key_other.
Qed.

Definition head_not_before (b : MemEntry) (src : list MemEntry) : Prop :=
  match src with e :: _ => ~ entry_lt e b | [] => True end.
Definition head_key_ok (src : list MemEntry) : Prop :=
  match src with e :: _ => key_ok (pk e) | [] => True end.

Lemma not_lt_trans a b c :
  key_ok (pk a) -> key_ok (pk b) -> key_ok (pk c) -> entry_lt c b -> ~ entry_lt a b -> ~ entry_lt a c.
Proof. intros Ha Hb Hc L N L'. apply N. by apply (entry_lt_trans a c b). Qed.

Lemma min_head_spec i b srcs :
  Forall head_key_ok srcs -> (forall j x, b = Some (j, x) -> key_ok (pk x)) ->
  match min_head i b srcs with
  | None => b = None /\ Forall (fun src => src = []) srcs
  | Some (j, e) => Forall (head_not_before e) srcs /\ key_ok (pk e) /\
      (forall j' b', b = Some (j', b') -> ~ entry_lt b' e) /\
      (b = Some (j, e) \/ exists rest, (e :: rest) ∈ srcs)
  end.
Proof.
  intros K. revert i b. induction K as [|src srcs Ks _ IH]; intros i b Kb; cbn [min_head].
  { destruct b as [[j e]|]; [|done]. split_and!; [done|eauto| |by left].
    intros ? ? [= <- <-]. unfold entry_lt. by rewrite MVCCKeyCompare_irrefl. }
  destruct src as [|e src]; cbn in Ks.
  { specialize (IH (S i) b Kb). destruct (min_head (S i) b srcs) as [[j x]|].
    - destruct IH as (F & Kx & B & D). split_and!; [by constructor|done|done|].
      destruct D as [D|[rest D]]; [by left|]. right. exists rest. by right.
    - destruct IH as [-> F]. by repeat constructor. }
  destruct b as [[j0 b0]|]; [destruct (MVCCKeyCompare (key_of e) (key_of b0)) eqn:C|].
  - specialize (IH (S i) (Some (i, e)) ltac:(naive_solver)).
    destruct (min_head (S i) _ srcs) as [[j x]|]; [|by destruct IH]. destruct IH as (F & Kx & B & D).
    split_and!; [|done| |].
    + constructor; [cbn; eauto|done].
    + intros ? ? [= <- <-]. specialize (B _ _ eq_refl). intros L.
      apply B. apply (entry_lt_trans e b0 x); eauto.
    + right. destruct D as [[= <- <-]|[rest D]]; [exists src; by left|exists rest; by right].
  - specialize (IH (S i) (Some (j0, b0)) ltac:(naive_solver)).
    destruct (min_head (S i) _ srcs) as [[j x]|]; [|by destruct IH]. destruct IH as (F & Kx & B & D).
    split_and!; [|done|eauto|].
    + constructor; [|done]. cbn. specialize (B _ _ eq_refl). intros L.
      assert (~ entry_lt e b0) as N by (unfold entry_lt; congruence).
      specialize (Kb _ _ eq_refl).
      destruct (MVCCKeyCompare_cases e b0 Ks Kb) as [[? ?]|[(_ & _ & O)|(_ & _ & E & Et)]]; [done|..].
      * apply B. by apply (entry_lt_trans b0 e x).
      * apply B. unfold entry_lt in *. by rewrite <- (key_of_inj_ts e b0).
    + destruct D as [[= <- <-]|[rest D]]; [by left|]. right. exists rest. by right.
  - specialize (IH (S i) (Some (i, e)) ltac:(naive_solver)).
    destruct (min_head (S i) _ srcs) as [[j x]|]; [|by destruct IH]. destruct IH as (F & Kx & B & D).
    split_and!; [|done|done|].
    + constructor; [cbn; eauto|done].
    + right. destruct D as [[= <- <-]|[rest D]]; [exists src; by left|exists rest; by right].
Qed.

Lemma keys_ok_concat srcs : Forall run_ok srcs -> keys_ok (concat srcs).
Proof.
  intros H. apply Forall_concat. eapply Forall_impl; [exact H|]. intros es Hes. by apply run_ok_keys.
Qed.

(** The smallest head bounds every entry of every source. *)
Lemma min_head_above e srcs :
  Forall run_ok srcs -> key_ok (pk e) -> Forall (head_not_before e) srcs -> Forall (above (pk e)) srcs.
Proof.
  intros H Ke F. apply Forall_forall. intros src Hs. rewrite Forall_forall in H, F.
  specialize (H src Hs). specialize (F src Hs). split; [done|].
  destruct src as [|h src]; [done|]. cbn in F. destruct (run_ok_cons _ _ H) as ([_ K] & Kh & L).
  assert (ValueLess (pk h) (pk e) = false) as Lh.
  { destruct (ValueLess (pk h) (pk e)) eqn:E; [|done]. destruct F. apply entry_lt_alt; auto. }
  constructor; [done|]. apply Forall_forall. intros x Hx. rewrite Forall_forall in K, L.
  specialize (L x Hx). apply entry_lt_alt in L; [|done|by apply K].
  destruct (ValueLess (pk x) (pk e)) eqn:E; [|done].
  destruct L as [L|[L _]]; [|congruence]. by rewrite (ValueLess_trans _ _ _ L E) in Lh.
Qed.

Lemma drop_key_spec k es :
  above k es -> key_ok k ->
  run_ok (drop_key k es) /\
  forall e, e ∈ drop_key k es <-> e ∈ es /\ pk e <> k.
Proof.
  intros [H F] Hk. unfold drop_key. destruct (segment k es) as [a b] eqn:S.
  apply segment_spec in S as (-> & Fa & B). cbn [snd].
  assert (Forall (fun e => ValueEq (pk e) k = false) b) as Fb.
  { apply head_other_above; [|done|by destruct b].
    split; [by eapply run_ok_app_r|]. by apply Forall_app in F as [_ F]. }
  split; [by eapply run_ok_app_r|]. pose proof (run_ok_keys _ H) as K.
  rewrite Forall_forall in Fa, Fb, K. intros e. rewrite elem_of_app. split.
  - intros He. split; [by right|]. intros E. specialize (Fb e He).
    by rewrite E, ValueEq_refl in Fb.
  - intros [[He|He] N]; [|done]. destruct N. specialize (Fa e He). apply ValueEq_eq in Fa; [done| |done].
    apply K. apply elem_of_app. by left.
Qed.

Lemma elem_drop_keys k srcs e :
  Forall (above k) srcs -> key_ok k ->
  e ∈ concat (map (drop_key k) srcs) <-> e ∈ concat srcs /\ pk e <> k.
Proof.
  intros A Hk. induction A as [|src srcs A _ IH]; cbn [map concat].
  { rewrite elem_of_nil. tauto. }
  rewrite !elem_of_app, IH. destruct (drop_key_spec k src A Hk) as [_ ->]. tauto.
Qed.

Lemma best_drop_keys s k k' srcs :
  Forall (above k) srcs -> key_ok k -> key_ok k' -> k <> k' ->
  best s k' (concat (map (drop_key k) srcs)) = best s k' (concat srcs).
Proof.
  intros A Hk Hk' N. induction A as [|src srcs A _ IH]; [done|]. cbn [map concat].
  rewrite !best_app, IH. f_equal. destruct A as [[_ K] _].
  unfold drop_key. destruct (segment k src) as [a b] eqn:S.
  apply segment_spec in S as (-> & Fa & _). cbn [snd]. rewrite best_app.
  rewrite (best_None s k' a); [done|]. apply Forall_app in K as [K _].
  rewrite Forall_forall in *. intros e He. specialize (Fa e He).
  apply ValueEq_eq in Fa; [|by apply K|done]. destruct (ValueEq (pk e) k') eqn:E; [|done].
  apply ValueEq_eq in E; [|by apply K|done]. congruence.
Qed.

(** The keys of the sources are the smallest one and those of what is left. *)
Lemma sorted_keys_head e rest srcs :
  Forall (above (pk e)) srcs -> key_ok (pk e) -> (e :: rest) ∈ srcs ->
  sorted_keys (concat srcs) = pk e :: sorted_keys (concat (map (drop_key (pk e)) srcs)).
Proof.
  intros A Hk Hin.
  assert (keys_ok (concat srcs)) as K by (apply keys_ok_concat; eapply Forall_impl; [exact A|by intros ? [? _]]).
  assert (forall x, x ∈ concat srcs -> pk x <> pk e -> ValueLess (pk e) (pk x) = true) as Above.
  { intros x Hx N.
    destruct (ValueLess_total (pk e) (pk x) Hk (keys_ok_elem _ _ K Hx)) as [E|[L|L]]; [congruence|done|].
    apply list_elem_of_In, in_concat in Hx as (src & Hs & Hx%list_elem_of_In). apply list_elem_of_In in Hs.
    rewrite Forall_forall in A. destruct (A src Hs) as [_ F]. rewrite Forall_forall in F.
    specialize (F x Hx). congruence. }
  assert (keys_ok (concat (map (drop_key (pk e)) srcs))) as K'.
  { apply Forall_forall. intros x [Hx _]%elem_drop_keys; [|done|done]. by eapply keys_ok_elem. }
  apply sorted_ext; [by apply sorted_sorted_keys|constructor; [by apply sorted_sorted_keys|]|].
  - apply Forall_forall. intros k Hk'. apply elem_sorted_keys in Hk' as (x & Hx & <-); [|done].
    apply elem_drop_keys in Hx as [Hx N]; [|done|done]. by apply Above.
  - intros k. rewrite elem_of_cons. destruct (elem_sorted_keys _ k K) as [-> _].
    destruct (elem_sorted_keys _ k K') as [-> _]. split.
    + intros (x & Hx & <-). destruct (decide (pk x = pk e)) as [->|N]; [by left|]. right.
      exists x. split; [|done]. by apply elem_drop_keys.
    + intros [->|(x & Hx & <-)].
      * exists e. split; [|done]. apply list_elem_of_In, in_concat. exists (e :: rest).
        split; [by apply list_elem_of_In|by left].
      * apply elem_drop_keys in Hx as [Hx _]; [|done|done]. eauto.
Qed.

Lemma total_length_drop_keys k e rest srcs :
  (e :: rest) ∈ srcs -> ValueEq (pk e) k = true ->
  (total_length (map (drop_key k) srcs) < total_length srcs)%nat.
Proof.
  intros Hin E. unfold total_length.
  assert (forall src, (length (drop_key k src) <= length src)%nat) as L.
  { intros src. unfold drop_key. destruct (segment k src) as [a b] eqn:S.
    apply segment_spec in S as (-> & _). rewrite length_app. cbn. lia. }
  assert (forall ss : list (list MemEntry), (length (concat (map (drop_key k) ss)) <= length (concat ss))%nat) as Ls.
  { induction ss as [|src ss IH]; cbn [map concat length]; rewrite ?length_app; [lia|]. specialize (L src). lia. }
  apply list_elem_of_split in Hin as (l1 & l2 & ->).
  rewrite map_app, !concat_app. cbn [map concat]. rewrite !length_app, drop_key_cons by done.
  pose proof (L rest). pose proof (Ls l1). pose proof (Ls l2). cbn [length]. lia.
Qed.

Lemma stream_merge_spec fuel s srcs :
  Forall run_ok srcs -> (total_length srcs < fuel)%nat ->
  stream_merge fuel s srcs = visible_rows s (concat srcs).
Proof.
  revert srcs. induction fuel as [|fuel IH]; intros srcs H Hf; [lia|]. cbn [stream_merge].
  assert (Forall head_key_ok srcs) as K.
  { eapply Forall_impl; [exact H|]. intros [|e src] Hs; [done|]. by destruct (run_ok_cons _ _ Hs) as (_ & ? & _). }
  pose proof (min_head_spec 0 None srcs K ltac:(done)) as M.
  destruct (min_head 0 None srcs) as [[j e]|].
  - destruct M as (F & Ke & _ & [?|[rest Hin]]); [done|].
    pose proof (min_head_above e srcs H Ke F) as A.
    rewrite consume_spec by (done || lia). cbn [fst snd]. rewrite IH.
    + unfold visible_rows. rewrite (sorted_keys_head e rest srcs) by done. cbn [map concat]. f_equal.
      f_equal. apply map_ext_in. intros k Hk%list_elem_of_In. f_equal.
      assert (keys_ok (concat (map (drop_key (pk e)) srcs))) as K'.
      { apply Forall_forall. intros x [Hx _]%elem_drop_keys; [|done|done].
        eapply keys_ok_elem; [by apply keys_ok_concat|done]. }
      destruct (elem_sorted_keys _ k K') as [Ek Kk]. rewrite Forall_forall in Kk. specialize (Kk k Hk).
      apply Ek in Hk as (x & Hx & <-). apply elem_drop_keys in Hx as [_ N]; [|done|done].
      by apply best_drop_keys.
    + apply Forall_fmap. eapply Forall_impl; [exact A|]. intros src As. by apply drop_key_spec.
    + pose proof (total_length_drop_keys (pk e) e rest srcs Hin ltac:(by apply ValueEq_refl)). lia.
  - destruct M as [_ F]. replace (concat srcs) with (@nil MemEntry); [done|].
    clear -F. induction F as [|src srcs -> _ IH]; [done|]. exact IH.
Qed.

(** * The buffered scan *)

Fixpoint best_get (m : list (Value * Best)) (k : Value) : option Best :=
  match m with
  | [] => None
  | (k', b) :: m => if decide (k' = k) then Some b else best_get m k
  end.

Definition best_of_entry (e : MemEntry) : Best := mkBest (commit_ts e) (tombstone e) (row e).

(** The map the scan has built after considering the entries [es]. *)
Record scan_inv (s : Z) (es : list MemEntry) (m : list (Value * Best)) : Prop := {
  si_sorted : StronglySorted vless (map fst m);
  si_keys : Forall key_ok (map fst m);
  si_get : forall k, key_ok k -> best_get m k = best_of_entry <$> best s k es
}.

Lemma best_get_None m k : best_get m k = None <-> k ∉ map fst m.
Proof.
  induction m as [|[k' b] m IH]; cbn [best_get map fst].
  { split; [by intros _ ?%elem_of_nil|done]. }
  rewrite elem_of_cons. destruct (decide (k' = k)) as [->|N]; [split; [done|tauto]|].
  rewrite IH. split; [intros H [?|?]; congruence|tauto].
Qed.

Lemma best_get_above m k :
  Forall (vless k) (map fst m) -> best_get m k = None.
Proof.
  intros H. apply best_get_None. intros Hk. rewrite Forall_forall in H. specialize (H k Hk).
  unfold vless in H. by rewrite ValueLess_irrefl in H.
Qed.

Lemma elem_best_update m k b x :
  x ∈ map fst (best_update m k b) -> x = k \/ x ∈ map fst m.
Proof.
  induction m as [|[k' b'] m IH]; cbn [best_update map fst].
  { rewrite list_elem_of_singleton. auto. }
  repeat case_match; cbn [map fst]; rewrite ?elem_of_cons; try tauto.
Qed.

Lemma best_update_spec m k b :
  key_ok k -> Forall key_ok (map fst m) -> StronglySorted vless (map fst m) ->
  StronglySorted vless (map fst (best_update m k b)) /\
  forall x, best_get (best_update m k b) x =
    if decide (x = k) then Some (match best_get m k with
                                 | Some b' => if b_ts b' <? b_ts b then b else b'
                                 | None => b end)
    else best_get m x.
Proof.
  intros Hk K S. induction m as [|[k' b'] m IH]; cbn [best_update map fst] in *.
  { split; [by repeat constructor|]. intros x. cbn. by repeat case_decide; subst. }
  apply Forall_cons in K as [Kk' K]. apply StronglySorted_inv in S as [S F].
  destruct (IH K S) as [I1 I2]. destruct (ValueLess_total k k' Hk Kk') as [->|[L|L]].
  - rewrite ValueLess_irrefl. cbn [best_get]. rewrite (decide_True (P := k' = k')) by done.
    destruct (b_ts b' <? b_ts b); (split; [by constructor|]); intros x; cbn [best_get];
      by repeat case_decide; subst.
  - rewrite L. assert (Forall (vless k) (map fst m)) as F'.
    { rewrite Forall_forall in *. intros x Hx. specialize (F x Hx). unfold vless in *. eauto using ValueLess_trans. }
    split; [repeat constructor; done|]. intros x. cbn [best_get].
    rewrite (best_get_above m k) by done.
    destruct (decide (k' = k)) as [->|N]; [by rewrite ValueLess_irrefl in L|].
    by repeat case_decide; subst.
  - rewrite (ValueLess_asym _ _ L), L. split.
    + cbn [map fst]. constructor; [done|]. rewrite Forall_forall in *. intros x Hx.
      apply elem_best_update in Hx as [->|Hx]; [done|by apply F].
    + intros x. cbn [best_get]. rewrite I2.
      destruct (decide (k' = k)) as [->|N]; [by rewrite ValueLess_irrefl in L|].
      by repeat case_decide; subst.
Qed.

Lemma Forall_best_update m k b :
  key_ok k -> Forall key_ok (map fst m) -> Forall key_ok (map fst (best_update m k b)).
Proof.
  intros Hk K. rewrite Forall_forall in *. intros x Hx. apply elem_best_update in Hx as [->|Hx]; auto.
Qed.

Lemma consider_inv s es e m o :
  key_ok (pk e) -> scan_inv s es m ->
  scan_inv s (es ++ [e]) (consider s (m, o) (key_of e, e)).1.
Proof.
  intros Ke [S K G]. cbn [consider key_of k_pk k_ts].
  assert (forall k, best s k (es ++ [e]) = newer (best s k es) (vis s k e)) as B.
  { intros k. rewrite best_app, best_cons. by rewrite newer_None_r. }
  destruct (Z.ltb_spec s (commit_ts e)) as [L|L]; cbn [fst].
  { split; [done|done|]. intros k Hk. rewrite G, B by done. unfold vis.
    destruct (Z.leb_spec (commit_ts e) s); [lia|]. by rewrite andb_false_r, newer_None_r. }
  destruct (best_update_spec m (pk e) (best_of_entry e) Ke K S) as [S' G'].
  split; [done|by apply Forall_best_update|]. intros k Hk. rewrite B. etransitivity; [apply G'|].
  unfold vis. destruct (Z.leb_spec (commit_ts e) s); [|lia]. rewrite andb_true_r.
  destruct (decide (k = pk e)) as [->|N].
  - rewrite ValueEq_refl, G by done. destruct (best s (pk e) es) as [x|]; cbn; [|done].
    by destruct (commit_ts x <? commit_ts e).
  - rewrite G by done. destruct (ValueEq (pk e) k) eqn:E; [|by rewrite newer_None_r].
    apply ValueEq_eq in E; done.
Qed.

Lemma consider_fold s es es' m o :
  keys_ok es' -> scan_inv s es m ->
  scan_inv s (es ++ es') (foldl (consider s) (m, o) (keyed es')).1.
Proof.
  intros K. revert es m o. induction K as [|e es' Ke _ IH]; intros es m o H.
  { by rewrite app_nil_r. }
  pose proof (consider_inv s es e m o Ke H) as H'. cbn [keyed map foldl].
  destruct (consider s (m, o) (key_of e, e)) as [m' o']. cbn [fst] in H'.
  replace (es ++ e :: es') with ((es ++ [e]) ++ es') by (by rewrite <- app_assoc). by apply IH.
Qed.

Definition emit_best (b : Best) : list Row :=
  if negb (b_tombstone b) && negb (bool_decide (values (b_row b) = [])) then [b_row b] else [].

Lemma emit_best_entry e : emit_best (best_of_entry e) = emit (Some e).
Proof. done. Qed.

Lemma scan_rows_concat m : scan_rows m = concat (map (fun kb => emit_best kb.2) m).
Proof.
  unfold scan_rows, emit_best. induction m as [|[k b] m IH]; [done|]. cbn [omap list_omap map concat snd].
  rewrite IH. by destruct (negb (b_tombstone b) && negb (bool_decide (values (b_row b) = []))).
Qed.

Lemma scan_rows_keys m :
  NoDup (map fst m) ->
  scan_rows m = concat (map (fun k => match best_get m k with Some b => emit_best b | None => [] end) (map fst m)).
Proof.
  intros H. rewrite scan_rows_concat. f_equal. rewrite map_map. apply map_ext_in.
  intros [k b] Hin%list_elem_of_In. cbn [fst snd].
  assert (best_get m k = Some b) as ->; [|done].
  induction m as [|[k' b'] m IH]; [by apply elem_of_nil in Hin|].
  cbn [map fst] in H. apply NoDup_cons in H as [N H]. cbn [best_get].
  apply elem_of_cons in Hin as [[= -> ->]|Hin]; [by rewrite decide_True|].
  rewrite decide_False; [by apply IH|]. intros ->. apply N. by apply (list_elem_of_fmap_2 fst m (k, b)).
Qed.

(** Keys with no visible version contribute nothing. *)
Lemma concat_filter_keys {A} (f : Value -> list A) (P : Value -> Prop) {D0 : forall k, Decision (P k)} ks :
  (forall k, ~ P k -> f k = []) -> concat (map f (filter P ks)) = concat (map f ks).
Proof.
  intros E. induction ks as [|k ks IH]; [done|]. rewrite filter_cons. case_decide as D; cbn [map concat].
  - by rewrite IH.
  - by rewrite IH, (E k D).
Qed.

Lemma sorted_filter (P : Value -> Prop) {D0 : forall k, Decision (P k)} ks :
  StronglySorted vless ks -> StronglySorted vless (filter P ks).
Proof.
  induction 1 as [|k ks S IH F]; [constructor|]. rewrite filter_cons. case_decide; [|done].
  constructor; [done|]. rewrite Forall_forall in *. intros x Hx. apply F.
  by apply list_elem_of_filter in Hx as [_ Hx].
Qed.

Lemma scan_inv_rows s es m : keys_ok es -> scan_inv s es m -> scan_rows m = visible_rows s es.
Proof.
  intros K [S Km G]. rewrite scan_rows_keys by by apply sorted_NoDup. unfold visible_rows.
  rewrite <- (concat_filter_keys _ (fun k => is_Some (best s k es)) (sorted_keys es)).
  2:{ intros k Hn. destruct (best s k es); [|done]. destruct Hn. eauto. }
  assert (map fst m = filter (fun k => is_Some (best s k es)) (sorted_keys es)) as E.
  { apply sorted_ext; [done|by apply sorted_filter, sorted_sorted_keys|]. intros k.
    rewrite list_elem_of_filter. destruct (elem_sorted_keys es k K) as [Ek Kk].
    rewrite Forall_forall in Kk, Km. split.
    - intros Hk. specialize (Km k Hk). specialize (G k Km).
      destruct (best s k es) as [x|] eqn:B; [|by apply best_get_None in G].
      split; [done|]. apply Ek. apply best_Some in B as (Hx & Ex & _). exists x. split; [done|].
      apply ValueEq_eq in Ex; [done|by eapply keys_ok_elem|done].
    - intros [[x Hx] Hk]. specialize (Kk k Hk). specialize (G k Kk). rewrite Hx in G.
      destruct (decide (k ∈ map fst m)) as [?|N]; [done|]. apply best_get_None in N. by rewrite N in G. }
  rewrite <- E. f_equal. apply map_ext_in. intros k Hk%list_elem_of_In.
  rewrite Forall_forall in Km. rewrite G by by apply Km. by destruct (best s k es).
Qed.

Lemma scan_rebuild_spec s levels m :
  Forall run_ok levels -> mem_ok m ->
  (scan_rebuild levels m s).1 = visible_rows s (concat levels ++ map snd m).
Proof.
  intros H Hm. unfold scan_rebuild. rewrite (mem_ok_keyed m) at 1 by done.
  assert (keys_ok (concat levels ++ map snd m)) as K.
  { apply Forall_app. split; [by apply keys_ok_concat|]. destruct Hm as [Hm _]. by apply run_ok_keys. }
  unfold keyed. rewrite <- map_app.
  pose proof (consider_fold s [] (concat levels ++ map snd m) [] 0 K) as C.
  destruct (foldl _ _ _) as [b o]. cbn [fst] in *. apply scan_inv_rows; [done|]. apply C.
  split; [constructor|constructor|done].
Qed.

Lemma stream_visible_spec s levels m :
  Forall run_ok levels -> mem_ok m ->
  stream_visible m levels s = visible_rows s (map snd m ++ concat levels).
Proof.
  intros H Hm. unfold stream_visible.
  assert (map (fun ke => mkEntry (k_pk ke.1) (row ke.2) (tombstone ke.2) (commit_ts ke.2)) m = map snd m) as ->.
  { destruct Hm as [_ F]. apply map_ext_in. intros [k e] Hin%list_elem_of_In. rewrite Forall_forall in F.
    destruct (F _ Hin) as [E _]. cbn in *. subst k. by destruct e. }
  apply stream_merge_spec; [|lia]. constructor; [by destruct Hm|done].
Qed.

(** The candidates of all sources together. *)
Lemma lookup_sources_best s k m levels :
  mem_ok m -> Forall run_ok levels -> key_ok k ->
  max_element (omap id (mem_candidate m k s :: map (fun es => sst_candidate es k s) levels))
  = best s k (map snd m ++ concat levels).
Proof.
  intros Hm H Hk. change (map snd m ++ concat levels) with (concat (map snd m :: levels)).
  rewrite <- max_element_sources. f_equal.
  cbn [omap list_omap]. rewrite mem_candidate_best by done. cbn [id].
  assert (omap id (map (fun es => sst_candidate es k s) levels) = omap (best s k) levels) as ->; [|done].
  induction H as [|es ls Hes _ IH]; [done|]. cbn [omap list_omap map].
  rewrite sst_candidate_best by done. by rewrite IH.
Qed.

(** * Agreement of the read paths *)

(** Two collections never hold different entries for one version of a key. *)
Definition versions_agree (a b : list MemEntry) : Prop :=
  forall x y, x ∈ a -> y ∈ b -> pk x = pk y -> commit_ts x = commit_ts y -> x = y.

Lemma versions_agree_alt a b :
  Forall (fun x => Forall (fun y => pk x = pk y -> commit_ts x = commit_ts y -> x = y) b) a ->
  versions_agree a b.
Proof. intros F x y Hx Hy. rewrite Forall_forall in F. specialize (F x Hx). rewrite Forall_forall in F. auto. Qed.

Lemma best_app_comm s k a b :
  keys_ok a -> keys_ok b -> key_ok k -> versions_agree a b -> best s k (a ++ b) = best s k (b ++ a).
Proof.
  intros Ka Kb Hk A. rewrite !best_app.
  destruct (best s k a) as [x|] eqn:Ba, (best s k b) as [y|] eqn:Bb; cbn; try done.
  apply best_Some in Ba as (Hx & Ex & _). apply best_Some in Bb as (Hy & Ey & _).
  apply ValueEq_eq in Ex; [|by apply (keys_ok_elem a)|done].
  apply ValueEq_eq in Ey; [|by apply (keys_ok_elem b)|done].
  destruct (Z.ltb_spec (commit_ts x) (commit_ts y)), (Z.ltb_spec (commit_ts y) (commit_ts x)); try lia; try done.
  f_equal. apply A; done || congruence || lia.
Qed.

Lemma visible_rows_ext s a b :
  keys_ok a -> keys_ok b -> (forall e, e ∈ a <-> e ∈ b) ->
  (forall k, key_ok k -> best s k a = best s k b) -> visible_rows s a = visible_rows s b.
Proof.
  intros Ka Kb E B. unfold visible_rows.
  assert (sorted_keys a = sorted_keys b) as ->.
  { apply sorted_ext; [by apply sorted_sorted_keys..|]. intros k.
    destruct (elem_sorted_keys a k Ka) as [-> _]. destruct (elem_sorted_keys b k Kb) as [-> _].
    by setoid_rewrite E. }
  f_equal. apply map_ext_in. intros k Hk%list_elem_of_In. f_equal. apply B.
  destruct (elem_sorted_keys b k Kb) as [_ F]. rewrite Forall_forall in F. by apply F.
Qed.

Lemma elem_visible_rows s es r :
  keys_ok es ->
  r ∈ visible_rows s es <-> exists k, key_ok k /\ row_of (best s k es) = Some r /\ values r <> [].
Proof.
  intros K. unfold visible_rows. rewrite list_elem_of_In, in_concat. split.
  - intros (l & (k & <- & Hk%list_elem_of_In)%in_map_iff & Hr%list_elem_of_In).
    destruct (elem_sorted_keys es k K) as [_ F]. rewrite Forall_forall in F. exists k.
    split; [by apply F|]. unfold emit in Hr. destruct (best s k es) as [e|]; [|by apply elem_of_nil in Hr].
    cbn. destruct (tombstone e); cbn in *; [by apply elem_of_nil in Hr|].
    case_bool_decide; cbn in Hr; [by apply elem_of_nil in Hr|].
    apply list_elem_of_singleton in Hr as ->. done.
  - intros (k & Hk & R & N). destruct (best s k es) as [e|] eqn:B; [|done]. cbn in R.
    destruct (tombstone e) eqn:T; simplify_eq. exists (emit (Some e)). split.
    + apply in_map_iff. exists k. rewrite B. split; [done|]. apply list_elem_of_In.
      apply elem_sorted_keys; [done|]. apply best_Some in B as (He & Ee & _). exists e.
      split; [done|]. apply ValueEq_eq in Ee; [done|by eapply keys_ok_elem|done].
    + cbn. rewrite T. cbn. case_bool_decide; [done|]. by left.
Qed.

(** * Properties *)

(** The streaming scan (lazy k-way merge of the memtable and every level)
    yields, in ascending key order, exactly the newest version of each key not
    younger than the snapshot, deleted keys left out; the merge terminates with
    fuel equal to the number of versions. *)
Theorem stream_scan_correct (m : memtable_t) (levels : list (list MemEntry)) (s : Z) :
  mem_ok m -> Forall run_ok levels ->
  stream_visible m levels s = visible_rows s (map snd m ++ concat levels).
Proof. intros. by apply stream_visible_spec. Qed.

Definition ex_mem : memtable_t :=
  keyed [mkEntry (VInt 1) (mkRow [VInt 1; VInt 30]) false 9; mkEntry (VInt 2) (mkRow []) true 8].
Definition ex_levels : list (list MemEntry) :=
  [[mkEntry (VInt 1) (mkRow [VInt 1; VInt 20]) false 5; mkEntry (VInt 3) (mkRow [VInt 3; VInt 7]) false 6];
   [mkEntry (VInt 1) (mkRow [VInt 1; VInt 10]) false 2; mkEntry (VInt 2) (mkRow [VInt 2; VInt 4]) false 3]].

Lemma ex_sources_ok : mem_ok ex_mem /\ Forall run_ok ex_levels.
Proof. split; repeat (constructor || split); done. Qed.

Lemma stream_scan_correct_witness :
  stream_visible ex_mem ex_levels 8 = [mkRow [VInt 1; VInt 20]; mkRow [VInt 3; VInt 7]] /\
  stream_visible ex_mem ex_levels 8 = visible_rows 8 (map snd ex_mem ++ concat ex_levels).
Proof.
  split; [reflexivity|]. apply (stream_scan_correct ex_mem ex_levels 8); apply ex_sources_ok.
Defined.

(** When memtable and levels never hold two different entries for one
    version, the buffered scan, the streaming scan and the point lookup agree:
    both scans return the same list, and its members are the non-empty rows the
    point lookup returns for some key. *)
Theorem read_paths_agree (m : memtable_t) (levels : list (list MemEntry)) (s : Z) :
  mem_ok m -> Forall run_ok levels -> versions_agree (map snd m) (concat levels) ->
  (scan_rebuild levels m s).1 = stream_visible m levels s /\
  forall r, r ∈ stream_visible m levels s <->
    exists k, key_ok k /\ values r <> [] /\
      row_of (max_element (omap id (mem_candidate m k s :: map (fun es => sst_candidate es k s) levels))) = Some r.
Proof.
  intros Hm H A. rewrite scan_rebuild_spec, stream_visible_spec by done.
  assert (keys_ok (map snd m)) as Km by (destruct Hm as [Hm _]; by apply run_ok_keys).
  pose proof (keys_ok_concat _ H) as Kl. split.
  - apply visible_rows_ext; [by apply Forall_app..| |].
    + intros e. rewrite !elem_of_app. tauto.
    + intros k Hk. symmetry. by apply best_app_comm.
  - intros r. rewrite elem_visible_rows by by apply Forall_app. split; intros (k & Hk & R); exists k;
      rewrite lookup_sources_best in * by done; tauto.
Qed.

Lemma read_paths_agree_witness :
  (scan_rebuild ex_levels ex_mem 8).1 = stream_visible ex_mem ex_levels 8.
Proof.
  apply (read_paths_agree ex_mem ex_levels 8); [apply ex_sources_ok..|].
  apply versions_agree_alt. apply (bool_decide_unpack _). vm_compute. exact I.
Defined.
