(* ===== verification/Engine.v ===== *)
(** The storage engine [LSMTreeEngine] of [src/storage/lsm_storage_engine.cpp]:
    its state and every public operation, over the file interface of [Store],
    the log of [Wal], the version algebra of [Mvcc] and the manifest.

    One operation runs at a time; the places where the code releases the table
    lock inside an operation are separate functions ([append_row_locked],
    [flush_memtable_internal]), so that interleavings can be written down. *)
From Stdlib Require Import ZArith Lia Strings.Byte.
From stdpp Require Import base numbers list gmap strings.
From S2P Require Import Prelude Values Codec Checksum Bloom Wal Sst Store Manifest Mvcc.
Local Open Scope Z_scope.

(** * State *)

Record Config := mkConfig {
  memtable_limit_bytes : Z;
  l0_threshold : Z;
  lsm_max_level : Z
}.
Definition default_config : Config := mkConfig (1024 * 1024) (64 * 1024) 3.

Record ScanCache := mkScanCache {
  scan_cache : list Row;
  scan_cache_version : Z;
  scan_cache_ts : Z;
  scan_cache_max_commit_ts : Z
}.

(** [TableState]; the cache is absent until [scan_cache_valid]. *)
Record TableState := mkTable {
  schema : list Column;
  memtable : memtable_t;
  memtable_bytes : Z;
  write_version : Z;
  cache : option ScanCache
}.
Definition empty_table : TableState := mkTable [] [] 0 0 None.

(** [ReplicationRecord], by its type tag. *)
Inductive ReplicationRecord :=
| ApplyRow (table : bytes) (ts : Z) (row_wire : bytes)
| ApplyDelete (table : bytes) (ts : Z) (row_wire : bytes)
| Commit (ts : Z)
| CreateTable (table : bytes) (columns : list Column)
| DropTable (table : bytes).

(** Paths inside the base directory. *)
Definition wal_path (name : bytes) : bytes := name ++ str ".wal".
Definition commit_log_path : bytes := str "_commit.wal".

Section Engine.
Context {F : Type} `{SstStore F}.

Record Engine := mkEngine {
  cfg : Config;
  files : gmap (bytes * nat) F;                (* <name>.lsm.L<k> *)
  wal : WalManager;                            (* <name>.wal, _commit.wal *)
  index_files : gmap (bytes * bytes) bytes;    (* <table>.<column>.idx *)
  registries : gmap bytes bytes;               (* <table>.idx_names *)
  states : gmap bytes TableState;
  footers : gmap (bytes * nat) SstFooter;      (* sst_footer_cache_ *)
  committed_ts : gset Z;
  committed_loaded : bool;
  commit_log_present : bool;
  manifest : ManifestState;
  gc_horizon : Z;                              (* what gc_horizon_fn_ returns *)
  pool : bool;                                 (* a thread pool is attached *)
  pending : list (bytes * list Column);        (* submitted compactions *)
  repl_sink : option (list ReplicationRecord)  (* attached sink and its output *)
}.

Abbreviation ENG := (ST Engine).

Definition set_files (x : gmap (bytes * nat) F) (e : Engine) : Engine :=
  mkEngine (cfg e) x (wal e) (index_files e) (registries e) (states e) (footers e) (committed_ts e)
    (committed_loaded e) (commit_log_present e) (manifest e) (gc_horizon e) (pool e) (pending e) (repl_sink e).
Definition set_wal (x : WalManager) (e : Engine) : Engine :=
  mkEngine (cfg e) (files e) x (index_files e) (registries e) (states e) (footers e) (committed_ts e)
    (committed_loaded e) (commit_log_present e) (manifest e) (gc_horizon e) (pool e) (pending e) (repl_sink e).
Definition set_index_files (x : gmap (bytes * bytes) bytes) (e : Engine) : Engine :=
  mkEngine (cfg e) (files e) (wal e) x (registries e) (states e) (footers e) (committed_ts e)
    (committed_loaded e) (commit_log_present e) (manifest e) (gc_horizon e) (pool e) (pending e) (repl_sink e).
Definition set_registries (x : gmap bytes bytes) (e : Engine) : Engine :=
  mkEngine (cfg e) (files e) (wal e) (index_files e) x (states e) (footers e) (committed_ts e)
    (committed_loaded e) (commit_log_present e) (manifest e) (gc_horizon e) (pool e) (pending e) (repl_sink e).
Definition set_states (x : gmap bytes TableState) (e : Engine) : Engine :=
  mkEngine (cfg e) (files e) (wal e) (index_files e) (registries e) x (footers e) (committed_ts e)
    (committed_loaded e) (commit_log_present e) (manifest e) (gc_horizon e) (pool e) (pending e) (repl_sink e).
Definition set_footers (x : gmap (bytes * nat) SstFooter) (e : Engine) : Engine :=
  mkEngine (cfg e) (files e) (wal e) (index_files e) (registries e) (states e) x (committed_ts e)
    (committed_loaded e) (commit_log_present e) (manifest e) (gc_horizon e) (pool e) (pending e) (repl_sink e).
Definition set_committed (x : gset Z) (loaded present : bool) (e : Engine) : Engine :=
  mkEngine (cfg e) (files e) (wal e) (index_files e) (registries e) (states e) (footers e) x
    loaded present (manifest e) (gc_horizon e) (pool e) (pending e) (repl_sink e).
Definition set_manifest (x : ManifestState) (e : Engine) : Engine :=
  mkEngine (cfg e) (files e) (wal e) (index_files e) (registries e) (states e) (footers e) (committed_ts e)
    (committed_loaded e) (commit_log_present e) x (gc_horizon e) (pool e) (pending e) (repl_sink e).
Definition set_gc_horizon (x : Z) (e : Engine) : Engine :=
  mkEngine (cfg e) (files e) (wal e) (index_files e) (registries e) (states e) (footers e) (committed_ts e)
    (committed_loaded e) (commit_log_present e) (manifest e) x (pool e) (pending e) (repl_sink e).
Definition set_pending (x : list (bytes * list Column)) (e : Engine) : Engine :=
  mkEngine (cfg e) (files e) (wal e) (index_files e) (registries e) (states e) (footers e) (committed_ts e)
    (committed_loaded e) (commit_log_present e) (manifest e) (gc_horizon e) (pool e) x (repl_sink e).
Definition set_repl (x : option (list ReplicationRecord)) (e : Engine) : Engine :=
  mkEngine (cfg e) (files e) (wal e) (index_files e) (registries e) (states e) (footers e) (committed_ts e)
    (committed_loaded e) (commit_log_present e) (manifest e) (gc_horizon e) (pool e) (pending e) x.

Definition put_state (name : bytes) (st : TableState) (e : Engine) : Engine :=
  set_states (<[name := st]> (states e)) e.

(** [repl_sink_(r)] when a sink is attached. *)
Definition sink (r : ReplicationRecord) : ENG unit :=
  modify (fun e => set_repl ((fun out => out ++ [r]) <$> repl_sink e) e).

(** * Tables *)

Definition get_or_create_state (name : bytes) : ENG TableState := fun e =>
  match states e !! name with
  | Some st => (e, Ok st)
  | None => (put_state name empty_table e, Ok empty_table)
  end.

Definition table_exists (name : bytes) (e : Engine) : bool :=
  bool_decide (is_Some (wal_files (wal e) !! wal_path name))
  || existsb (fun p => bool_decide (p.1 = name)) (map_to_list (files e)).*1
  || existsb (fun p => bool_decide (p.1 = name)) (map_to_list (index_files e)).*1.

(** Unlinking a log file. *)
Definition wal_unlink (m : WalManager) (path : bytes) : WalManager :=
  mkWalManager (delete path (wal_files m)) (wal_writers m) (delete path (wal_durable m)) (wal_mode m).

Definition drop_table_files (name : bytes) : ENG unit := modify (fun e =>
  set_wal (wal_unlink (remove_writer (wal e) (wal_path name)) (wal_path name))
    (set_files (filter (fun pf => pf.1.1 <> name) (files e))
      (set_index_files (filter (fun pf => pf.1.1 <> name) (index_files e)) e))).

(** [write_sstable] of a level: the file is replaced and its caches dropped. *)
Definition write_level (name : bytes) (l : nat) (columns : list Column) (es : list MemEntry) : ENG unit :=
  modify (fun e => set_files (<[(name, l) := sst_write columns es]> (files e))
                     (set_footers (delete (name, l) (footers e)) e)).

Definition record_manifest : ENG unit :=
  modify (fun e => set_manifest (write_manifest (files e) (manifest e)) e).

(** Creating a log file with only its header, synced if the mode says so. *)
Definition wal_create (m : WalManager) (path : bytes) : WalManager :=
  mkWalManager (<[path := wal_header]> (wal_files m)) (wal_writers m) (sync_content m path wal_header) (wal_mode m).

Definition create_table (name : bytes) (columns : list Column) : ENG unit :=
  st ← get_or_create_state name;
  _ ← modify (put_state name (mkTable columns [] 0 (write_version st) (cache st)));
  _ ← drop_table_files name;
  _ ← write_level name 0 columns [];
  _ ← modify (fun e => set_wal (wal_create (wal e) (wal_path name)) e);
  _ ← record_manifest;
  sink (CreateTable name columns).

(** * Commit log *)

Definition barrier_ts (r : WalRecord) : option Z :=
  if (wal_type r =? kWalCommitBarrier) && (8 <=? blen (payload r))
  then Some (le_dec (take 8 (payload r))) else None.

Definition ensure_committed_loaded : ENG unit := modify (fun e =>
  if committed_loaded e then e else
  match wal_files (wal e) !! commit_log_path with
  | None => set_committed (committed_ts e) true false e
  | Some log => set_committed (committed_ts e ∪ list_to_set (omap barrier_ts (wal_read_records (Some log))))
                  true true e
  end).

Definition mark_committed (ts : Z) : ENG unit :=
  if ts =? 0 then mret tt else
  _ ← ensure_committed_loaded;
  _ ← modify (fun e => set_wal (wal_append_record (wal e) commit_log_path kWalCommitBarrier (le_enc 8 ts)) e);
  _ ← modify (fun e => set_committed ({[ts]} ∪ committed_ts e) (committed_loaded e) true e);
  sink (Commit ts).

(** * Recovery of a table's memtable from its log *)

(** One log record; [None] when it is skipped. *)
Definition replay_record (ts_committed : Z -> bool) (columns : list Column) (r : WalRecord)
    : res (option MemEntry) :=
  let p := payload r in
  if wal_type r =? 2 then
    k ← (match p with [] => Ok VNull | _ => decode_key p end); Ok (Some (mkEntry k (mkRow []) true 0))
  else if wal_type r =? 1 then
    row ← decode_row p columns; Ok (Some (mkEntry (extract_key row columns) row false 0))
  else if (wal_type r =? 12) || (wal_type r =? 11) then
    if negb (has_bytes 8 p) then Ok None else
    let ts := le_dec (take 8 p) in
    if negb (ts_committed ts) then Ok None else
    if wal_type r =? 12 then
      k ← (match drop 8 p with [] => Ok VNull | kb => decode_key kb end); Ok (Some (mkEntry k (mkRow []) true ts))
    else
      row ← decode_row (drop 8 p) columns; Ok (Some (mkEntry (extract_key row columns) row false ts))
  else Ok None.

(** The replay loop; an exception leaves what was replayed before it. *)
Fixpoint replay (ts_committed : Z -> bool) (columns : list Column) (m : memtable_t) (rs : list WalRecord)
    : memtable_t * res unit :=
  match rs with
  | [] => (m, Ok tt)
  | r :: rs =>
      match replay_record ts_committed columns r with
      | Ok None => replay ts_committed columns m rs
      | Ok (Some e) => replay ts_committed columns (mem_put m (key_of e) e) rs
      | Throw w => (m, Throw w)
      | UB w => (m, UB w)
      end
  end.

Definition ts_committed (e : Engine) (ts : Z) : bool :=
  negb (commit_log_present e) || bool_decide (ts ∈ committed_ts e).

Definition replay_log (name : bytes) (columns : list Column) (st : TableState) : ENG unit := fun e =>
  let '(m, r) := replay (ts_committed e) columns (memtable st)
                   (wal_read_records (wal_files (wal e) !! wal_path name)) in
  (put_state name (mkTable columns m (memtable_bytes st) (write_version st) (cache st)) e, r).

Definition load_state_locked (name : bytes) : ENG unit :=
  st ← get_or_create_state name;
  match schema st with
  | _ :: _ => mret tt
  | [] =>
      f ← gets (fun e => files e !! (name, 0%nat));
      match f with
      | None => throw "LSM table not found"
      | Some f =>
          columns ← lift (sst_schema f name);
          _ ← modify (put_state name (mkTable columns (memtable st) (memtable_bytes st) (write_version st) (cache st)));
          _ ← ensure_committed_loaded;
          replay_log name columns st
      end
  end.

(** [load_state_if_needed] followed by the access to the table's state. *)
Definition loaded_state (name : bytes) : ENG TableState :=
  _ ← load_state_locked name; get_or_create_state name.

Definition load_schema (name : bytes) : ENG (list Column) :=
  st ← loaded_state name; mret (schema st).

(** * Reading levels *)

(** Number of consecutive levels 1, 2, ... present. *)
Fixpoint max_level_from (fuel l : nat) (name : bytes) (fs : gmap (bytes * nat) F) : nat :=
  match fuel with
  | O => l
  | S fuel => match fs !! (name, S l) with Some _ => max_level_from fuel (S l) name fs | None => l end
  end.
Definition max_level (name : bytes) (e : Engine) : nat := max_level_from (size (files e)) 0 name (files e).

(** The level files the read paths visit. *)
Definition visited (name : bytes) (e : Engine) : list (nat * F) :=
  omap (fun l => (fun f => (l, f)) <$> files e !! (name, l)) (seq 0 (S (max_level name e))).

(** [get_footer_cached]. *)
Definition get_footer_cached (name : bytes) (l : nat) (f : F) : ENG SstFooter := fun e =>
  match footers e !! (name, l) with
  | Some ft => (e, Ok ft)
  | None => match sst_load_footer f with
            | Ok ft => (set_footers (<[(name, l) := ft]> (footers e)) e, Ok ft)
            | Throw w => (e, Throw w)
            | UB w => (e, UB w)
            end
  end.

(** [read_sstable] of a level file; the decoded result is cached by path and
    modification time, which the model leaves out. *)
Definition read_level (name : bytes) (l : nat) (columns : list Column) : ENG (list MemEntry) :=
  f ← gets (fun e => files e !! (name, l));
  match f with
  | None => mret []
  | Some f => if negb (sst_valid f) then mret []
              else _ ← get_footer_cached name l f; lift (sst_read f columns)
  end.

(** The Bloom check of a point lookup: only a footer that is already cached counts. *)
Definition bloom_skips (e : Engine) (name : bytes) (l : nat) (k : Value) : bool :=
  match footers e !! (name, l) with
  | Some ft => bloom_valid (ft_bloom ft) && negb (maybe_contains (ft_bloom ft) (encode_key k))
  | None => false
  end.

Fixpoint lookup_levels (name : bytes) (columns : list Column) (k : Value) (snapshot_ts : Z) (ls : list nat)
    : ENG (list MemEntry) :=
  match ls with
  | [] => mret []
  | l :: ls =>
      skip ← gets (fun e => bloom_skips e name l k);
      if (skip : bool) then lookup_levels name columns k snapshot_ts ls else
      es ← read_level name l columns;
      rest ← lookup_levels name columns k snapshot_ts ls;
      mret (match sst_candidate es k snapshot_ts with Some c => c :: rest | None => rest end)
  end.

Definition lookup_visible (name : bytes) (columns : list Column) (k : Value) (snapshot_ts : Z)
    : ENG (option Row) :=
  st ← loaded_state name;
  ls ← gets (fun e => (visited name e).*1);
  cands ← lookup_levels name columns k snapshot_ts ls;
  mret (row_of (max_element (match mem_candidate (memtable st) k snapshot_ts with
                             | Some c => c :: cands | None => cands end))).

Fixpoint read_levels (name : bytes) (columns : list Column) (ls : list nat) : ENG (list (list MemEntry)) :=
  match ls with
  | [] => mret []
  | l :: ls => es ← read_level name l columns; rest ← read_levels name columns ls; mret (es :: rest)
  end.

(** When a cached scan may be served. *)
Definition cache_hit (st : TableState) (snapshot_ts : Z) : option (list Row) :=
  match cache st with
  | Some c => if (scan_cache_version c =? write_version st) && (scan_cache_ts c <=? snapshot_ts)
                 && (scan_cache_max_commit_ts c <=? scan_cache_ts c)
              then Some (scan_cache c) else None
  | None => None
  end.

Definition scan_visible (name : bytes) (columns : list Column) (snapshot_ts : Z) : ENG (list Row) :=
  st ← loaded_state name;
  match cache_hit st snapshot_ts with
  | Some rows => mret rows
  | None =>
      ls ← gets (fun e => (visited name e).*1);
      levels ← read_levels name columns ls;
      let '(rows, observed) := scan_rebuild levels (memtable st) snapshot_ts in
      _ ← modify (put_state name (mkTable (schema st) (memtable st) (memtable_bytes st) (write_version st)
                    (Some (mkScanCache rows (write_version st) snapshot_ts observed))));
      mret rows
  end.

Definition load_rows (name : bytes) (columns : list Column) : ENG (list Row) :=
  scan_visible name columns UINT64_MAX.

(** Opening the sources of a streaming scan, then merging them to the end. *)
Fixpoint stream_sources (name : bytes) (columns : list Column) (ls : list nat) : ENG (list (list MemEntry)) :=
  match ls with
  | [] => mret []
  | l :: ls =>
      f ← gets (fun e => files e !! (name, l));
      match f with
      | Some f =>
          if negb (sst_valid f) then stream_sources name columns ls else
          _ ← get_footer_cached name l f;
          rest ← stream_sources name columns ls;
          es ← lift (sst_stream f columns);
          mret (es :: rest)
      | None => stream_sources name columns ls
      end
  end.

Definition scan_visible_stream (name : bytes) (columns : list Column) (snapshot_ts : Z) : ENG (list Row) :=
  st ← loaded_state name;
  ls ← gets (fun e => (visited name e).*1);
  srcs ← stream_sources name columns ls;
  mret (stream_visible (memtable st) srcs snapshot_ts).

Definition estimate_row_count (name : bytes) : ENG Z :=
  st ← loaded_state name;
  vs ← gets (visited name);
  mret (foldl (fun est lf => let sz := sst_file_size lf.2 in
                             if sz <=? 2 * kDefaultPageSize then est else u64 (est + sz / 64))
          (Z.of_nat (length (memtable st))) vs).

(** * Compaction *)

Fixpoint compact_loop (fuel : nat) (name : bytes) (columns : list Column) (h : Z) (level : nat) : ENG unit :=
  match fuel with
  | O => mret tt
  | S fuel =>
      c ← gets cfg;
      if lsm_max_level c <? Z.of_nat level then mret tt else
      fs ← gets files;
      match fs !! (name, level) with
      | None => mret tt
      | Some _ =>
          curr ← read_level name level columns;
          next ← read_level name (S level) columns;
          let merged := compact_merge h curr next in
          _ ← write_level name (S level) columns merged;
          _ ← (if (level =? 0)%nat then write_level name 0 columns []
               else modify (fun e => set_files (delete (name, level) (files e)) e));
          _ ← record_manifest;
          if lsm_max_level c <=? Z.of_nat (S level) then mret tt else
          if sst_file_size (sst_write columns merged) <? Z.shiftl (l0_threshold c) (Z.of_nat (S level)) then mret tt
          else compact_loop fuel name columns h (S level)
      end
  end.

Definition compact_levels (name : bytes) (columns : list Column) : ENG unit :=
  f ← gets (fun e => files e !! (name, 0%nat));
  match f with
  | None => mret tt
  | Some f =>
      c ← gets cfg;
      if sst_file_size f <? l0_threshold c then mret tt else
      _ ← get_or_create_state name;
      h ← gets gc_horizon;
      compact_loop (Z.to_nat (lsm_max_level c) + 1) name columns h 0
  end.

(** A submitted compaction runs on the pool. *)
Definition run_pending : ENG unit :=
  p ← gets pending;
  match p with
  | [] => mret tt
  | (name, columns) :: rest => _ ← modify (set_pending rest); compact_levels name columns
  end.

(** * Flush *)

Definition flush_memtable_internal (name : bytes) (columns : list Column) (mem_snapshot : memtable_t)
    (defer_compaction : bool) : ENG unit :=
  l0 ← read_level name 0 columns;
  _ ← write_level name 0 columns (merge_runs mem_snapshot (keyed l0));
  _ ← record_manifest;
  p ← gets pool;
  _ ← (if (p : bool)
       then if defer_compaction then modify (fun e => set_pending (pending e ++ [(name, columns)]) e)
            else compact_levels name columns
       else mret tt);
  modify (fun e => set_wal (wal_truncate (wal e) (wal_path name)) e).

(** Moving the memtable out under the lock. *)
Definition take_memtable (name : bytes) : ENG memtable_t :=
  st ← get_or_create_state name;
  _ ← modify (put_state name (mkTable (schema st) [] 0 (write_version st) (cache st)));
  mret (memtable st).

Definition flush_memtable (name : bytes) (columns : list Column) : ENG unit :=
  snapshot ← take_memtable name;
  flush_memtable_internal name columns snapshot true.

(** * Writes *)

(** The part of a write under the table lock: the version enters the memtable
    and the log. *)
Definition put_version (name : bytes) (en : MemEntry) (bytes_delta : Z) (type : Z) (payload : bytes) : ENG unit :=
  st ← get_or_create_state name;
  _ ← modify (put_state name (mkTable (schema st) (mem_put (memtable st) (key_of en) en)
                (memtable_bytes st + bytes_delta) (u64 (write_version st + 1)) (cache st)));
  modify (fun e => set_wal (wal_append_record_no_wait (wal e) (wal_path name) type payload) e).

(** [append_row] up to [lock.unlock()]: the snapshot to flush, if the limit is reached. *)
Definition append_row_locked (name : bytes) (columns : list Column) (row : Row) (ts : Z)
    : ENG (option memtable_t) :=
  _ ← load_state_locked name;
  let rec := encode_row row in
  _ ← put_version name (mkEntry (extract_key row columns) row false ts) (blen rec)
        (if ts =? 0 then 1 else 11) (if ts =? 0 then rec else le_enc 8 ts ++ rec);
  _ ← sink (ApplyRow name ts rec);
  st ← get_or_create_state name;
  limit ← gets (fun e => memtable_limit_bytes (cfg e));
  if limit <=? memtable_bytes st then snapshot ← take_memtable name; mret (Some snapshot) else mret None.

(** [append_row] after the lock is released. *)
Definition append_row_finish (name : bytes) (columns : list Column) (snapshot : option memtable_t) : ENG unit :=
  _ ← modify (fun e => set_wal (wal_sync_path (wal e) (wal_path name)) e);
  match snapshot with
  | Some m => flush_memtable_internal name columns m true
  | None => mret tt
  end.

Definition append_row (name : bytes) (columns : list Column) (row : Row) (ts : Z) : ENG unit :=
  snapshot ← append_row_locked name columns row ts;
  append_row_finish name columns snapshot.

Fixpoint append_rows (name : bytes) (columns : list Column) (rows : list Row) (ts : Z) : ENG unit :=
  match rows with
  | [] => mret tt
  | r :: rows => _ ← append_row name columns r ts; append_rows name columns rows ts
  end.

Definition delete_row_by_key (name : bytes) (key : Value) (ts : Z) : ENG unit :=
  _ ← load_state_locked name;
  let enc := encode_key key in
  _ ← put_version name (mkEntry key (mkRow []) true ts) 0
        (if ts =? 0 then 2 else 12) (if ts =? 0 then enc else le_enc 8 ts ++ enc);
  _ ← sink (ApplyDelete name ts enc);
  modify (fun e => set_wal (wal_sync_path (wal e) (wal_path name)) e).

Definition rewrite_table (name : bytes) (columns : list Column) (rows : list Row) : ENG unit :=
  st ← loaded_state name;
  _ ← modify (put_state name (mkTable (schema st) [] 0 (u64 (write_version st + 1)) (cache st)));
  _ ← drop_table_files name;
  _ ← write_level name 0 columns (map (fun r => mkEntry (extract_key r columns) r false 0) rows);
  _ ← modify (fun e => set_wal (wal_truncate (wal e) (wal_path name)) e);
  record_manifest.

(** * Indexes *)

Definition list_indexes (name : bytes) (e : Engine) : list bytes :=
  omap (fun p => if bool_decide (p.1 = name) && negb (bool_decide (p.2 = [])) then Some p.2 else None)
    (map_to_list (index_files e)).*1.

Definition drop_index (name column : bytes) : ENG bool := fun e =>
  match index_files e !! (name, column) with
  | None => (e, Ok false)
  | Some _ => (set_index_files (delete (name, column) (index_files e)) e, Ok true)
  end.

Definition write_index_rows (name column : bytes) (entries : list (Value * Value)) : ENG unit :=
  modify (fun e => set_index_files
    (<[(name, column) := write_index_file (index_files e !! (name, column)) entries]> (index_files e)) e).

Definition create_index_file (name column : bytes) : ENG unit :=
  f ← gets (fun e => index_files e !! (name, column));
  match f with Some _ => mret tt | None => write_index_rows name column [] end.

Definition append_index_entry (name column : bytes) (value k : Value) : ENG unit :=
  write_index_rows name column [(value, k)].

Definition load_index_rows (name column : bytes) (e : Engine) : res (list (Value * Value)) :=
  read_index_file (index_files e !! (name, column)).

(** The registry file: one [name:column] line per index. *)
Definition registry_line (ic : bytes * bytes) : bytes := ic.1 ++ str ":" ++ ic.2 ++ [Byte.x0a].

Definition save_index_registry (name : bytes) (registry : list (bytes * bytes)) : ENG unit :=
  modify (fun e => set_registries (<[name := concat (map registry_line registry)]> (registries e)) e).

(** [std::getline] over the whole file: the lines, the last one possibly unterminated. *)
Fixpoint getlines (cur : bytes) (s : bytes) : list bytes :=
  match s with
  | [] => match cur with [] => [] | _ => [rev cur] end
  | c :: s => if bool_decide (c = Byte.x0a) then rev cur :: getlines [] s else getlines (c :: cur) s
  end.

(** Splitting a line at its first colon. *)
Fixpoint split_colon (pre : bytes) (s : bytes) : option (bytes * bytes) :=
  match s with
  | [] => None
  | c :: s => if bool_decide (c = Byte.x3a) then Some (rev pre, s) else split_colon (c :: pre) s
  end.

Definition load_index_registry (name : bytes) (e : Engine) : gmap bytes bytes :=
  match registries e !! name with
  | None => ∅
  | Some data => foldl (fun reg line => match split_colon [] line with
                                        | Some (i, c) => <[i := c]> reg
                                        | None => reg end) ∅ (getlines [] data)
  end.

(** * Dropping a table *)

(** The loop over levels 0 to 9, stopping at the first missing one. *)
Fixpoint drop_levels (n l : nat) (name : bytes) (fs : gmap (bytes * nat) F) : gmap (bytes * nat) F :=
  match n with
  | O => fs
  | S n => match fs !! (name, l) with
           | None => fs
           | Some _ => drop_levels n (S l) name (delete (name, l) fs)
           end
  end.

Definition drop_table (name : bytes) : ENG bool :=
  b ← gets (table_exists name);
  if negb b then mret false else
  _ ← modify (fun e => set_wal (wal_unlink (remove_writer (wal e) (wal_path name)) (wal_path name)) e);
  _ ← modify (fun e => set_files (drop_levels 10 0 name (files e)) e);
  _ ← modify (fun e => set_index_files (foldr (fun c m => delete (name, c) m) (index_files e) (list_indexes name e)) e);
  _ ← modify (fun e => set_states (delete name (states e)) e);
  _ ← record_manifest;
  _ ← sink (DropTable name);
  mret true.

(** * Checkpoint *)

Fixpoint checkpoint_flush (names : list bytes) : ENG unit :=
  match names with
  | [] => mret tt
  | name :: names =>
      st ← loaded_state name;
      _ ← (match memtable st with
           | [] => mret tt
           | _ => snapshot ← take_memtable name;
                  flush_memtable_internal name (schema st) snapshot false
           end);
      checkpoint_flush names
  end.

Fixpoint checkpoint_compact (names : list bytes) : ENG unit :=
  match names with
  | [] => mret tt
  | name :: names =>
      st ← get_or_create_state name;
      _ ← compact_levels name (schema st);
      checkpoint_compact names
  end.

(** Loaded tables, then those with a level-0 file on disk. *)
Definition checkpoint_tables (e : Engine) : list bytes :=
  let loaded := (map_to_list (states e)).*1 in
  loaded ++ omap (fun p => if (p.2 =? 0)%nat && negb (bool_decide (p.1 ∈ loaded)) then Some p.1 else None)
              (map_to_list (files e)).*1.

Definition checkpoint : ENG unit :=
  names ← gets checkpoint_tables;
  _ ← checkpoint_flush names;
  _ ← checkpoint_compact names;
  _ ← modify (fun e => set_wal (foldl (fun m n => wal_truncate m (wal_path n)) (wal e) names) e);
  _ ← modify (fun e => set_wal (wal_truncate (wal e) commit_log_path) e);
  modify (fun e => set_committed ∅ (committed_loaded e) (commit_log_present e) e).

(** * Replication *)

Definition resolve_local_schema (name : bytes) : ENG (option (list Column)) := fun e =>
  match states e !! name with
  | Some (mkTable (c :: cs) _ _ _ _) => (e, Ok (Some (c :: cs)))
  | _ => if negb (table_exists name e) then (e, Ok None) else
         (cols ← load_schema name; mret (match cols with [] => None | _ => Some cols end)) e
  end.

Definition apply_replication_record (r : ReplicationRecord) : ENG bool :=
  match r with
  | CreateTable name columns =>
      b ← gets (table_exists name);
      if (b : bool) then mret true else _ ← create_table name columns; mret true
  | DropTable name =>
      b ← gets (table_exists name);
      if (b : bool) then _ ← drop_table name; mret true else mret true
  | Commit ts => _ ← mark_committed ts; mret true
  | ApplyRow name ts wire =>
      cols ← resolve_local_schema name;
      match cols with
      | None => mret false
      | Some cols => row ← lift (decode_row wire cols); _ ← append_row name cols row ts; mret true
      end
  | ApplyDelete name ts wire =>
      cols ← resolve_local_schema name;
      match cols with
      | None => mret false
      | Some _ => k ← lift (match wire with [] => Ok VNull | _ => decode_key wire end);
                  _ ← delete_row_by_key name k ts; mret true
      end
  end.

(** * Process start *)

(** A new process over the same directory: the constructor's reconciliation,
    with every in-memory structure empty. *)
Definition reopen (e : Engine) : res Engine :=
  '(fs, m) ← reconcile_with_manifest (manifest e) (files e);
  Ok (mkEngine (cfg e) fs (clear_all (wal e)) (index_files e) (registries e) ∅ ∅ ∅ false false m
        UINT64_MAX false [] None).

(** A power failure keeps of each log what its last [fsync] covered. *)
Definition crash (e : Engine) : res Engine :=
  reopen (set_wal (mkWalManager (wal_durable (wal e)) (wal_writers (wal e)) (wal_durable (wal e)) (wal_mode (wal e))) e).

End Engine.
Arguments Engine F : clear implicits.
