(* ===== verification/EngineReads.v ===== *)
(** Correctness of the engine's read paths: with a table's files readable and
    its memtable well-formed, the point lookup, the buffered scan behind its
    cache and the streaming scan return what the version specification of
    [Mvcc] says, and leave the table as it was. *)
From Stdlib Require Import ZArith Lia Strings.Byte.
From stdpp Require Import base numbers list gmap strings.
From S2P Require Import Prelude Values Codec Checksum Bloom Wal Sst Store Manifest Mvcc Engine.
Local Open Scope Z_scope.

Section Reads.
Context {F : Type} `{SstStore F}.
Implicit Types (e : Engine F) (name : bytes) (st : TableState) (ls : list (list MemEntry)).

(** * Tables in good order *)

(** A level file holds the run [es], for the buffered and the streaming reader,
    its footer covers the keys and a cached footer is that of the file. *)
Definition level_ok e name (cols : list Column) (lf : nat * F) (es : list MemEntry) : Prop :=
  files e !! (name, lf.1) = Some lf.2 /\ sst_valid lf.2 = true /\
  sst_read lf.2 cols = Ok es /\ sst_stream lf.2 cols = Ok es /\ run_ok es /\
  (exists ft, sst_load_footer lf.2 = Ok ft /\ bloom_covers ft es) /\
  (forall ft, footers e !! (name, lf.1) = Some ft -> sst_load_footer lf.2 = Ok ft).

(** The table is loaded with state [st], and the levels the read paths visit
    hold the runs [ls], newest first. *)
Record table_ok e name (cols : list Column) st ls : Prop := {
  to_state : states e !! name = Some st;
  to_schema : schema st <> [];
  to_mem : mem_ok (memtable st);
  to_levels : Forall2 (level_ok e name cols) (visited name e) ls
}.

(** All versions of the table, newest source first. *)
Definition contents st ls : list MemEntry := map snd (memtable st) ++ concat ls.

(** Reading may only add footers of existing files to the footer cache. *)
Definition footer_ext e e' : Prop :=
  exists fts, e' = set_footers fts e /\
    forall p ft, fts !! p = Some ft ->
      footers e !! p = Some ft \/ exists f, files e !! p = Some f /\ sst_load_footer f = Ok ft.

Lemma footer_ext_refl e : footer_ext e e.
Proof. exists (footers e). split; [by destruct e|]. auto. Qed.

Lemma footer_ext_trans e1 e2 e3 : footer_ext e1 e2 -> footer_ext e2 e3 -> footer_ext e1 e3.
Proof.
  intros (f1 & -> & H1) (f2 & -> & H2). exists f2. split; [done|]. cbn in *.
  intros p ft Hp. destruct (H2 p ft Hp) as [Hf|?]; [by apply H1|by right].
Qed.

Lemma footer_ext_visited e e' name : footer_ext e e' -> visited name e' = visited name e.
Proof. by intros (f & -> & _). Qed.

Lemma footer_ext_level e e' name cols lf es :
  footer_ext e e' -> level_ok e name cols lf es -> level_ok e' name cols lf es.
Proof.
  intros (f & -> & X) (Hf & V & R & S & K & B & C). split_and!; try done.
  cbn. intros ft Hft. destruct (X _ _ Hft) as [?|(f' & Hf' & L)]; [by apply C|].
  rewrite Hf in Hf'. by simplify_eq.
Qed.

Lemma footer_ext_table e e' name cols st ls :
  footer_ext e e' -> table_ok e name cols st ls -> table_ok e' name cols st ls.
Proof.
  intros X [S C M L]. split; [by destruct X as (f & -> & _)|done|done|].
  rewrite (footer_ext_visited e) by done. eapply Forall2_impl; [exact L|].
  intros lf es. by apply footer_ext_level.
Qed.

(** * Computing with loaded tables *)

Lemma get_state_ok e name st : states e !! name = Some st -> get_or_create_state name e = (e, Ok st).
Proof. intros E. unfold get_or_create_state. by rewrite E. Qed.

Lemma load_state_ok e name st :
  states e !! name = Some st -> schema st <> [] -> load_state_locked name e = (e, Ok tt).
Proof.
  intros E N. unfold load_state_locked. erewrite st_bind_Ok by by apply get_state_ok.
  by destruct (schema st).
Qed.

Lemma loaded_state_ok e name st :
  states e !! name = Some st -> schema st <> [] -> loaded_state name e = (e, Ok st).
Proof.
  intros E N. unfold loaded_state. erewrite st_bind_Ok by by eapply load_state_ok.
  by apply get_state_ok.
Qed.

Lemma gets_ok {A} (f : Engine F -> A) e : gets f e = (e, Ok (f e)).
Proof. done. Qed.

Lemma modify_ok (f : Engine F -> Engine F) e : modify f e = (f e, Ok tt).
Proof. done. Qed.

(** * Reading one level *)

Lemma get_footer_ok e name cols l f es :
  level_ok e name cols (l, f) es ->
  exists e' ft, get_footer_cached name l f e = (e', Ok ft) /\ footer_ext e e'.
Proof.
  intros (Hf & _ & _ & _ & _ & (ft & L & _) & _). unfold get_footer_cached. cbn in *.
  destruct (footers e !! (name, l)) as [ft'|].
  - exists e, ft'. split; [done|apply footer_ext_refl].
  - rewrite L. exists (set_footers (<[(name, l):=ft]> (footers e)) e), ft. split; [done|].
    eexists. split; [done|]. intros p x. destruct (decide ((name, l) = p)) as [<-|N].
    + rewrite lookup_insert_eq. intros [= <-]. right. eauto.
    + rewrite lookup_insert_ne by done. by left.
Qed.

Lemma read_level_ok e name cols l f es :
  level_ok e name cols (l, f) es ->
  exists e', read_level name l cols e = (e', Ok es) /\ footer_ext e e'.
Proof.
  intros L. destruct (get_footer_ok _ _ _ _ _ _ L) as (e' & ft & G & X).
  destruct L as (Hf & V & R & _). cbn in *. exists e'. split; [|done].
  unfold read_level. erewrite st_bind_Ok by apply gets_ok. rewrite Hf, V. cbn [negb].
  erewrite st_bind_Ok by done. unfold lift. by rewrite R.
Qed.

Lemma read_levels_ok e name cols vs ls :
  Forall2 (level_ok e name cols) vs ls ->
  exists e', read_levels name cols vs.*1 e = (e', Ok ls) /\ footer_ext e e'.
Proof.
  intros L. revert e ls L. induction vs as [|[l f] vs IH]; intros e ls L.
  { apply Forall2_nil_inv_l in L as ->. exists e. split; [done|apply footer_ext_refl]. }
  apply Forall2_cons_inv_l in L as (es & ls' & Le & L & ->).
  destruct (read_level_ok _ _ _ _ _ _ Le) as (e1 & R & X1). cbn [fmap list_fmap read_levels fst].
  erewrite st_bind_Ok by done. destruct (IH e1 ls') as (e2 & R2 & X2).
  { eapply Forall2_impl; [exact L|]. intros. by eapply footer_ext_level. }
  exists e2. split; [|by eapply footer_ext_trans]. by erewrite st_bind_Ok by done.
Qed.

Lemma stream_sources_ok e name cols vs ls :
  Forall2 (level_ok e name cols) vs ls ->
  exists e', stream_sources name cols vs.*1 e = (e', Ok ls) /\ footer_ext e e'.
Proof.
  intros L. revert e ls L. induction vs as [|[l f] vs IH]; intros e ls L.
  { apply Forall2_nil_inv_l in L as ->. exists e. split; [done|apply footer_ext_refl]. }
  apply Forall2_cons_inv_l in L as (es & ls' & Le & L & ->).
  destruct (get_footer_ok _ _ _ _ _ _ Le) as (e1 & ft & G & X1).
  destruct Le as (Hf & V & _ & S & _). cbn in Hf, V, S. cbn [fmap list_fmap stream_sources fst].
  erewrite st_bind_Ok by apply gets_ok. rewrite Hf, V. cbn [negb]. erewrite st_bind_Ok by done.
  destruct (IH e1 ls') as (e2 & R2 & X2).
  { eapply Forall2_impl; [exact L|]. intros. by eapply footer_ext_level. }
  exists e2. split; [|by eapply footer_ext_trans]. erewrite st_bind_Ok by done.
  unfold lift. by erewrite st_bind_Ok by (by rewrite S).
Qed.

(** * Point lookup *)

(** A level skipped by its Bloom filter holds no version of the key. *)
Lemma bloom_skip_none e name cols l f es k s :
  level_ok e name cols (l, f) es -> key_ok k -> bloom_skips e name l k = true -> best s k es = None.
Proof.
  intros (Hf & _ & _ & _ & R & (ft & L & B) & C) Hk. cbn in *. unfold bloom_skips.
  destruct (footers e !! (name, l)) as [ft'|] eqn:E; [|done].
  specialize (C _ eq_refl). rewrite L in C. simplify_eq. intros [V M]%andb_prop.
  apply best_None, Forall_forall. intros x Hx. destruct (ValueEq (pk x) k) eqn:Ex; [|done].
  apply ValueEq_eq in Ex; [|eapply keys_ok_elem; [by apply run_ok_keys|done]|done]. subst k.
  rewrite (B x Hx V) in M. done.
Qed.

Lemma lookup_levels_ok e name cols k s vs ls :
  Forall2 (level_ok e name cols) vs ls -> key_ok k ->
  exists e' cands, lookup_levels name cols k s vs.*1 e = (e', Ok cands) /\ footer_ext e e' /\
    max_element cands = best s k (concat ls).
Proof.
  intros L Hk. revert e L. revert ls. induction vs as [|[l f] vs IH]; intros ls e L.
  { apply Forall2_nil_inv_l in L as ->. exists e, []. split_and!; [done|apply footer_ext_refl|done]. }
  apply Forall2_cons_inv_l in L as (es & ls' & Le & L & ->). cbn [fmap list_fmap lookup_levels fst].
  erewrite st_bind_Ok by apply gets_ok. destruct (bloom_skips e name l k) eqn:B.
  - destruct (IH ls' e L) as (e' & cands & R & X & M). exists e', cands. split_and!; [done|done|].
    cbn [concat]. by rewrite best_app, (bloom_skip_none _ _ _ _ _ _ _ _ Le Hk B), M.
  - destruct (read_level_ok _ _ _ _ _ _ Le) as (e1 & R & X1). erewrite st_bind_Ok by done.
    destruct (IH ls' e1) as (e2 & cands & R2 & X2 & M).
    { eapply Forall2_impl; [exact L|]. intros. by eapply footer_ext_level. }
    erewrite st_bind_Ok by done. eexists _, _. split_and!; [done|by eapply footer_ext_trans|].
    cbn [concat]. rewrite best_app, <- M. destruct Le as (_ & _ & _ & _ & K & _).
    rewrite sst_candidate_best by done. destruct (best s k es); [|done].
    rewrite !max_element_newer. done.
Qed.

Lemma lookup_ok e name cols st ls k s :
  table_ok e name cols st ls -> key_ok k ->
  exists e', lookup_visible name cols k s e = (e', Ok (row_of (best s k (contents st ls)))) /\ footer_ext e e'.
Proof.
  intros [S C M L] Hk. unfold lookup_visible. erewrite st_bind_Ok by by apply loaded_state_ok.
  erewrite st_bind_Ok by apply gets_ok.
  destruct (lookup_levels_ok e name cols k s _ _ L Hk) as (e' & cands & R & X & E).
  erewrite st_bind_Ok by done. exists e'. split; [|done]. unfold mret, st_ret. do 3 f_equal.
  rewrite mem_candidate_best by done. unfold contents. rewrite best_app, <- E.
  destruct (best s k (map snd (memtable st))); [|done]. by rewrite !max_element_newer.
Qed.

(** * Scans *)

Lemma level_runs e name cols vs ls : Forall2 (level_ok e name cols) vs ls -> Forall run_ok ls.
Proof. induction 1 as [|lf es vs ls L _ IH]; constructor; [|done]. by destruct L as (_ & _ & _ & _ & ? & _). Qed.

Lemma stream_ok e name cols st ls s :
  table_ok e name cols st ls ->
  exists e', scan_visible_stream name cols s e = (e', Ok (visible_rows s (contents st ls))) /\ footer_ext e e'.
Proof.
  intros [S C M L]. unfold scan_visible_stream. erewrite st_bind_Ok by by apply loaded_state_ok.
  erewrite st_bind_Ok by apply gets_ok. destruct (stream_sources_ok _ _ _ _ _ L) as (e' & R & X).
  erewrite st_bind_Ok by done. exists e'. split; [|done].
  unfold mret, st_ret. by rewrite (stream_visible_spec _ _ _ (level_runs _ _ _ _ _ L) M).
Qed.

(** What the scan cache may hold: for the current write version, the rows at its
    timestamp and a bound on every version's timestamp. *)
Definition scan_order st ls : list MemEntry := concat ls ++ map snd (memtable st).

Definition cache_ok st ls : Prop :=
  forall c, cache st = Some c ->
    scan_cache_version c <= write_version st /\
    (scan_cache_version c = write_version st ->
     scan_cache c = visible_rows (scan_cache_ts c) (scan_order st ls) /\
     Forall (fun x => commit_ts x <= scan_cache_max_commit_ts c) (scan_order st ls)).

Lemma best_all_visible s s' k es :
  Forall (fun x => commit_ts x <= s) es -> s <= s' -> best s k es = best s' k es.
Proof.
  intros B L. induction B as [|x es Hx _ IH]; [done|]. rewrite !best_cons, IH. f_equal. unfold vis.
  destruct (Z.leb_spec (commit_ts x) s), (Z.leb_spec (commit_ts x) s'); done || lia.
Qed.

Lemma visible_rows_all s s' es :
  Forall (fun x => commit_ts x <= s) es -> s <= s' -> visible_rows s es = visible_rows s' es.
Proof.
  intros B L. unfold visible_rows. f_equal. apply map_ext_in. intros k _. by rewrite (best_all_visible s s').
Qed.

Lemma consider_observed s kes m o :
  let r := foldl (consider s) (m, o) kes in o <= r.2 /\ Forall (fun ke => k_ts ke.1 <= r.2) kes.
Proof.
  revert m o. induction kes as [|[k x] kes IH]; intros m o; cbn zeta; cbn [foldl].
  { split; [cbn; lia|constructor]. }
  set (o' := if o <? k_ts k then k_ts k else o).
  assert (exists m', consider s (m, o) (k, x) = (m', o')) as [m' E].
  { cbn [consider]. fold o'. destruct (s <? k_ts k); eauto. }
  rewrite E. destruct (IH m' o') as [I1 I2]. unfold o' in *.
  destruct (Z.ltb_spec o (k_ts k)); (split; [lia|]); constructor; cbn; lia || done.
Qed.

Lemma scan_observed levels m s :
  mem_ok m -> Forall (fun x => commit_ts x <= (scan_rebuild levels m s).2) (concat levels ++ map snd m).
Proof.
  intros Hm. unfold scan_rebuild.
  assert (keyed (concat levels) ++ m = keyed (concat levels ++ map snd m)) as ->.
  { unfold keyed at 2. rewrite map_app. fold (keyed (concat levels)). fold (keyed (map snd m)).
    by rewrite <- mem_ok_keyed. }
  destruct (consider_observed s (keyed (concat levels ++ map snd m)) [] 0) as [_ B].
  destruct (foldl _ _ _) as [b o]. cbn [snd] in *.
  exact (proj1 (Forall_map _ _ _) B).
Qed.

(** The table after a scan: the cache may have been rebuilt. *)
Definition with_cache st (c : option ScanCache) : TableState :=
  mkTable (schema st) (memtable st) (memtable_bytes st) (write_version st) c.

Lemma scan_ok e name cols st ls s :
  table_ok e name cols st ls -> cache_ok st ls ->
  exists e' c, scan_visible name cols s e = (e', Ok (visible_rows s (scan_order st ls))) /\
    table_ok e' name cols (with_cache st c) ls /\ cache_ok (with_cache st c) ls /\
    files e' = files e /\ cfg e' = cfg e.
Proof.
  intros T Hc. pose proof T as [S C M L]. unfold scan_visible.
  erewrite st_bind_Ok by by apply loaded_state_ok. destruct (cache_hit st s) as [rows|] eqn:Hit.
  - exists e, (cache st). replace (with_cache st (cache st)) with st by by destruct st.
    split_and!; [|done..]. unfold cache_hit in Hit. destruct (cache st) as [c|] eqn:Ec; [|done].
    destruct (Hc c Ec) as [_ Hv]. destruct (_ && _) eqn:E; [|done]. to_prop. simplify_eq.
    destruct (Hv H0) as [-> B]. unfold mret, st_ret. do 2 f_equal. apply visible_rows_all; [|done].
    eapply Forall_impl; [exact B|]. cbn. lia.
  - erewrite st_bind_Ok by apply gets_ok. destruct (read_levels_ok _ _ _ _ _ L) as (e1 & R & X).
    erewrite st_bind_Ok by done. pose proof (scan_rebuild_spec s ls (memtable st) (level_runs _ _ _ _ _ L) M) as Sp.
    pose proof (scan_observed ls (memtable st) s M) as Ob.
    destruct (scan_rebuild ls (memtable st) s) as [rows o]. cbn [fst snd] in *.
    erewrite st_bind_Ok by apply modify_ok. eexists _, (Some (mkScanCache rows (write_version st) s o)).
    split_and!; [unfold mret, st_ret, scan_order; by rewrite <- Sp| | |by destruct X as (f & -> & _)..].
    + pose proof (footer_ext_table _ _ _ _ _ _ X T) as [S1 C1 M1 L1]. split; [|done|done|].
      * cbn. apply lookup_insert_eq.
      * eapply Forall2_impl; [exact L1|]. intros lf es Lf. exact Lf.
    + intros c [= <-]. cbn. split; [lia|]. intros _. split; [by rewrite Sp|done].
Qed.

End Reads.

(** * Example tables *)

Section Written.
Context {F : Type} `{SstLaws F}.

(** A freshly written level is in good order. *)
Lemma level_written (e : Engine F) name cols l es :
  files e !! (name, l) = Some (sst_write cols es) -> sst_fits cols es -> run_ok es ->
  footers e !! (name, l) = None -> level_ok e name cols (l, sst_write cols es) es.
Proof.
  intros Hf Fi R N. unfold level_ok. cbn [fst snd].
  rewrite sst_valid_write, sst_read_write, sst_stream_write by done.
  split_and!; try done; [by apply sst_footer_write|]. by rewrite N.
Qed.

End Written.

Lemma decoded_level (e : Engine DecodedFile) name cols l es :
  files e !! (name, l) = Some (mkDecoded cols es) -> run_ok es -> footers e !! (name, l) = None ->
  level_ok e name cols (l, mkDecoded cols es) es.
Proof. intros Hf R N. exact (level_written e name cols l es Hf I R N). Qed.

Definition t_cols : list Column :=
  [mkColumn [] (str "id") Int64 0 0 false true; mkColumn [] (str "v") Int64 0 0 false false].
Definition t_row (id v : Z) : Row := mkRow [VInt id; VInt v].
Definition t_put (id v ts : Z) : MemEntry := mkEntry (VInt id) (t_row id v) false ts.
Definition t_del (id ts : Z) : MemEntry := mkEntry (VInt id) (mkRow []) true ts.

(** An engine whose table "t" has the given memtable and levels. *)
Definition t_engine (mem : list MemEntry) (levels : list (nat * list MemEntry)) : Engine DecodedFile :=
  mkEngine default_config
    (list_to_map (map (fun le => ((str "t", le.1), mkDecoded t_cols le.2)) levels))
    (mkWalManager {[ wal_path (str "t") := wal_header ]} ∅ {[ wal_path (str "t") := wal_header ]} Durable)
    ∅ ∅ {[ str "t" := mkTable t_cols (keyed mem) 0 0 None ]} ∅ ∅ true false empty_manifest 0 false [] None.

Definition t_mem : list MemEntry := [t_put 1 30 9; t_del 2 8].
Definition t_l0 : list MemEntry := [t_put 1 20 5; t_put 3 7 6].
Definition t_l1 : list MemEntry := [t_put 1 10 2; t_put 2 4 3].

Definition ex_engine : Engine DecodedFile := t_engine t_mem [(0%nat, t_l0); (1%nat, t_l1)].
Definition ex_table : TableState := mkTable t_cols (keyed t_mem) 0 0 None.

Lemma ex_visited :
  visited (str "t") ex_engine = [(0%nat, mkDecoded t_cols t_l0); (1%nat, mkDecoded t_cols t_l1)].
Proof. vm_compute. reflexivity. Qed.

Lemma ex_table_ok : table_ok ex_engine (str "t") t_cols ex_table [t_l0; t_l1].
Proof.
  split; [reflexivity|done|split; repeat (constructor || split); done|]. rewrite ex_visited.
  apply Forall2_cons_2; [|apply Forall2_cons_2; [|apply Forall2_nil_2]];
    (apply decoded_level; [reflexivity| |reflexivity]); repeat (constructor || split); done.
Qed.

(** * Properties *)

(** C1: the engine's point lookup, through the memtable, the Bloom filters of
    the levels and the binary search in each level, returns the row of the
    newest version of the key not younger than the snapshot, or nothing when
    there is none or it is a deletion; the streaming scan returns these rows for
    all keys in key order.  Neither changes the table. *)
Theorem engine_reads_correct {F : Type} `{SstStore F} (e : Engine F) (name : bytes) (cols : list Column)
    (st : TableState) (ls : list (list MemEntry)) (k : Value) (s : Z) :
  table_ok e name cols st ls -> key_ok k ->
  (exists e', lookup_visible name cols k s e = (e', Ok (row_of (best s k (contents st ls)))) /\
     table_ok e' name cols st ls) /\
  (exists e', scan_visible_stream name cols s e = (e', Ok (visible_rows s (contents st ls))) /\
     table_ok e' name cols st ls).
Proof.
  intros T Hk. split.
  - destruct (lookup_ok _ _ _ _ _ k s T Hk) as (e' & L & X). exists e'. eauto using footer_ext_table.
  - destruct (stream_ok _ _ _ _ _ s T) as (e' & L & X). exists e'. eauto using footer_ext_table.
Qed.

Lemma engine_reads_correct_witness :
  exists e', lookup_visible (str "t") t_cols (VInt 1) 8 ex_engine = (e', Ok (Some (t_row 1 20))) /\
    table_ok e' (str "t") t_cols ex_table [t_l0; t_l1].
Proof.
  exact (proj1 (engine_reads_correct ex_engine (str "t") t_cols ex_table [t_l0; t_l1] (VInt 1) 8
                  ex_table_ok I)).
Defined.

(** C2: the buffered scan returns the newest visible version of every key, in
    key order, whether it is served from the cache of an earlier scan or
    rebuilt; the cache it leaves is again one that later scans may use. *)
Theorem scan_visible_correct {F : Type} `{SstStore F} (e : Engine F) (name : bytes) (cols : list Column)
    (st : TableState) (ls : list (list MemEntry)) (s : Z) :
  table_ok e name cols st ls -> cache_ok st ls ->
  exists e' c, scan_visible name cols s e = (e', Ok (visible_rows s (scan_order st ls))) /\
    table_ok e' name cols (with_cache st c) ls /\ cache_ok (with_cache st c) ls.
Proof.
  intros T C. destruct (scan_ok e name cols st ls s T C) as (e' & c & R & T' & C' & _). by exists e', c.
Qed.

Lemma scan_visible_correct_witness :
  exists e' c, scan_visible (str "t") t_cols 8 ex_engine = (e', Ok [t_row 1 20; t_row 3 7]) /\
    table_ok e' (str "t") t_cols (with_cache ex_table c) [t_l0; t_l1] /\
    cache_ok (with_cache ex_table c) [t_l0; t_l1].
Proof.
  apply (scan_visible_correct ex_engine (str "t") t_cols ex_table [t_l0; t_l1] 8 ex_table_ok).
  intros c [=].
Defined.
