(* ===== verification/EngineWrites.v ===== *)
(** Correctness of the engine's write paths: appending, deleting and flushing
    keep the table in good order and change what readers see exactly by the new
    version; a compaction step keeps every snapshot from the horizon on;
    recovery rebuilds the memtable from the committed records of the log. *)
From Stdlib Require Import ZArith Lia Strings.Byte.
From stdpp Require Import base numbers list gmap strings.
From S2P Require Import Prelude Values Codec Checksum Bloom Wal Sst Store Manifest Mvcc Engine EngineReads.
Local Open Scope Z_scope.

Section Writes.
Context {F : Type} `{SstLaws F}.
Implicit Types (i fuel : nat) (cols : list Column) (s ts : Z) (k : Value) (e : Engine F) (name : bytes) (st : TableState) (ls : list (list MemEntry)).

(** * Levels below level 0 *)

Definition deeper name e : list (nat * F) :=
  omap (fun l => (fun f => (l, f)) <$> files e !! (name, l)) (seq 1 (max_level name e)).

Lemma visited_cons e name f :
  files e !! (name, 0%nat) = Some f -> visited name e = (0%nat, f) :: deeper name e.
Proof. intros Hf. unfold visited. cbn [seq omap list_omap]. by rewrite Hf. Qed.

Lemma omap_levels_ext name (fs fs' : gmap (bytes * nat) F) (ls : list nat) :
  (forall l, l ∈ ls -> fs' !! (name, l) = fs !! (name, l)) ->
  omap (fun l => (fun f => (l, f)) <$> fs' !! (name, l)) ls = omap (fun l => (fun f => (l, f)) <$> fs !! (name, l)) ls.
Proof.
  induction ls as [|l ls IH]; intros E; [done|]. cbn [omap list_omap].
  rewrite (E l) by (by left). rewrite IH; [done|]. intros. apply E. by right.
Qed.

Lemma max_level_from_ext (fuel l : nat) name (fs fs' : gmap (bytes * nat) F) :
  (forall i, (l < i)%nat -> fs' !! (name, i) = fs !! (name, i)) ->
  max_level_from fuel l name fs' = max_level_from fuel l name fs.
Proof.
  revert l. induction fuel as [|fuel IH]; intros l E; [done|]. cbn [max_level_from].
  rewrite (E (S l)) by lia. destruct (fs !! (name, S l)); [|done]. apply IH. intros. apply E. lia.
Qed.

(** Rewriting level 0 leaves the deeper levels alone. *)
Lemma deeper_write0 e e' name f f' :
  files e !! (name, 0%nat) = Some f -> files e' = <[(name, 0%nat) := f']> (files e) ->
  deeper name e' = deeper name e.
Proof.
  intros Hf E. unfold deeper, max_level. rewrite E, map_size_insert, Hf.
  rewrite (max_level_from_ext _ _ name (files e)).
  2:{ intros i Hi. rewrite lookup_insert_ne; [done|]. intros [=]. lia. }
  apply omap_levels_ext. intros l Hl%elem_of_seq. rewrite lookup_insert_ne; [done|]. intros [=]. lia.
Qed.

Lemma level_ok_frame e e' name cols lf es :
  files e' !! (name, lf.1) = files e !! (name, lf.1) ->
  footers e' !! (name, lf.1) = footers e !! (name, lf.1) ->
  level_ok e name cols lf es -> level_ok e' name cols lf es.
Proof.
  intros E1 E2 (Hf & V & R & S & K & B & C). split_and!; rewrite ?E1, ?E2; done.
Qed.

Lemma table_ok_frame e e' name cols st st' ls :
  table_ok e name cols st ls -> files e' = files e -> footers e' = footers e ->
  states e' !! name = Some st' -> schema st' <> [] -> mem_ok (memtable st') ->
  table_ok e' name cols st' ls.
Proof.
  intros [S C M L] E1 E2 S' C' M'. split; [done|done|done|].
  assert (visited name e' = visited name e) as -> by (unfold visited, max_level; by rewrite E1).
  eapply Forall2_impl; [exact L|]. intros lf es Lf. eapply level_ok_frame; [..|exact Lf]; by rewrite ?E1, ?E2.
Qed.

Lemma deeper_levels_ok e name cols f l0 ls :
  Forall2 (level_ok e name cols) (visited name e) (l0 :: ls) -> files e !! (name, 0%nat) = Some f ->
  level_ok e name cols (0%nat, f) l0 /\ Forall2 (level_ok e name cols) (deeper name e) ls.
Proof. intros L Hf. rewrite (visited_cons _ _ _ Hf) in L. by apply Forall2_cons in L. Qed.

Lemma elem_deeper e name (l : nat) f : (l, f) ∈ deeper name e -> (1 <= l)%nat.
Proof.
  unfold deeper. intros Hin. apply list_elem_of_omap in Hin as (x & Hx%elem_of_seq & E).
  destruct (files e !! (name, x)); simplify_eq/=. lia.
Qed.

(** * Flush *)

(** Level 0 replaced by a written run. *)
Lemma table_ok_write0 e e' name cols st l0 ls es :
  table_ok e name cols st (l0 :: ls) -> is_Some (files e !! (name, 0%nat)) ->
  sst_fits cols es -> run_ok es ->
  files e' = <[(name, 0%nat) := sst_write cols es]> (files e) ->
  footers e' = delete (name, 0%nat) (footers e) -> states e' = states e ->
  table_ok e' name cols st (es :: ls).
Proof.
  intros [S C M L] [f Hf] Fi R Ef Et Es. split; [by rewrite Es|done|done|].
  destruct (deeper_levels_ok _ _ _ _ _ _ L Hf) as [_ Ld].
  assert (files e' !! (name, 0%nat) = Some (sst_write cols es)) as Hf' by (rewrite Ef; apply lookup_insert_eq).
  rewrite (visited_cons _ _ _ Hf'). apply Forall2_cons_2.
  - apply level_written; try done. rewrite Et. apply lookup_delete_eq.
  - rewrite (deeper_write0 e e' name f (sst_write cols es)) by done.
    apply Forall2_same_length_lookup_2; [by eapply Forall2_length|].
    intros i [l f0] es0 Hi Hes. assert (1 <= l)%nat as Hl by (eapply elem_deeper, list_elem_of_lookup_2; done).
    eapply level_ok_frame; [..|by eapply Forall2_lookup_lr]; cbn.
    + rewrite Ef, lookup_insert_ne; [done|]. intros [=]. lia.
    + rewrite Et, lookup_delete_ne; [done|]. intros [=]. lia.
Qed.

Lemma flush_ok e name cols st l0 ls m :
  table_ok e name cols st (l0 :: ls) -> is_Some (files e !! (name, 0%nat)) -> mem_ok m ->
  sst_fits cols (merge_runs m (keyed l0)) ->
  exists e', flush_memtable_internal name cols m true e = (e', Ok tt) /\
    table_ok e' name cols st (merge_runs m (keyed l0) :: ls) /\ is_Some (files e' !! (name, 0%nat)) /\
    states e' = states e /\ wal e' = wal_truncate (wal e) (wal_path name).
Proof.
  intros T [f Hf] Hm Fi. pose proof T as [S C M L].
  destruct (deeper_levels_ok _ _ _ _ _ _ L Hf) as [L0 _].
  destruct (read_level_ok _ _ _ _ _ _ L0) as (e1 & R & X).
  pose proof (footer_ext_table _ _ _ _ _ _ X T) as T1. destruct X as (fts & -> & _).
  assert (run_ok (merge_runs m (keyed l0))) as Rm.
  { rewrite (mem_ok_keyed m) by done. destruct L0 as (_ & _ & _ & _ & K & _). destruct Hm as [Hm _].
    by apply merge_runs_spec. }
  unfold flush_memtable_internal. erewrite st_bind_Ok by done. unfold write_level, record_manifest.
  do 2 (erewrite st_bind_Ok by apply modify_ok). erewrite st_bind_Ok by apply gets_ok.
  destruct (pool _); [erewrite st_bind_Ok by apply modify_ok|erewrite st_bind_Ok by done];
    (eexists; split; [apply modify_ok|]; cbn; split_and!; [|by rewrite lookup_insert_eq|done|done]);
    (eapply (table_ok_write0 (set_footers fts e)); [exact T1|by exists f|done..]).
Qed.

(** * Appends and deletions *)

Lemma put_version_ok e name st en d ty p :
  states e !! name = Some st ->
  put_version name en d ty p e =
  (set_wal (wal_append_record_no_wait (wal e) (wal_path name) ty p)
     (put_state name (mkTable (schema st) (mem_put (memtable st) (key_of en) en) (memtable_bytes st + d)
                        (u64 (write_version st + 1)) (cache st)) e), Ok tt).
Proof.
  intros S. unfold put_version. erewrite st_bind_Ok by by apply get_state_ok.
  by erewrite st_bind_Ok by apply modify_ok.
Qed.

(** What readers see after a write: the new version against what was there. *)
Definition sees_write (en : MemEntry) (before after : list MemEntry) : Prop :=
  forall s k, key_ok k -> best s k after = newer (vis s k en) (best s k before).

Lemma sees_write_mem en st st' ls :
  mem_ok (memtable st) -> key_ok (pk en) -> 0 <= commit_ts en <= UINT64_MAX ->
  memtable st' = mem_put (memtable st) (key_of en) en ->
  mem_ok (memtable st') /\ sees_write en (contents st ls) (contents st' ls).
Proof.
  intros M K T E. destruct (mem_put_spec (memtable st) en M K T) as [M' B]. rewrite E. split; [done|].
  intros s k Hk. unfold contents. rewrite E, !best_app, B by done. by rewrite newer_assoc.
Qed.

(** Moving a memtable into level 0 changes nothing for readers. *)
Lemma contents_flush st m l0 ls s k :
  mem_ok m -> run_ok l0 -> key_ok k -> memtable st = [] ->
  best s k (contents st (merge_runs m (keyed l0) :: ls)) = best s k (map snd m ++ l0 ++ concat ls).
Proof.
  intros [Hm F0] Hl Hk E. unfold contents. rewrite E. cbn [map app concat].
  rewrite (mem_ok_keyed m) at 1 by by split. rewrite !best_app.
  destruct (merge_runs_spec (map snd m) l0 Hm Hl) as [_ B]. rewrite B by done. by rewrite newer_assoc.
Qed.

Lemma mem_ok_nil : mem_ok [].
Proof. split; [apply run_ok_nil|constructor]. Qed.

(** The table after a version entered its memtable. *)
Definition with_version st (en : MemEntry) (d : Z) : TableState :=
  mkTable (schema st) (mem_put (memtable st) (key_of en) en) (memtable_bytes st + d)
    (u64 (write_version st + 1)) (cache st).

(** [append_row] up to the release of the lock: the version is in the memtable
    and the log, and at the limit the memtable moves to the caller. *)
Lemma append_locked_ok e name cols st r ts :
  states e !! name = Some st -> schema st <> [] ->
  let en := mkEntry (extract_key r cols) r false ts in
  let st1 := with_version st en (blen (encode_row r)) in
  let full := memtable_limit_bytes (cfg e) <=? memtable_bytes st1 in
  exists e', append_row_locked name cols r ts e = (e', Ok (if full then Some (memtable st1) else None)) /\
    files e' = files e /\ footers e' = footers e /\ manifest e' = manifest e /\
    states e' !! name = Some (if full then mkTable (schema st) [] 0 (write_version st1) (cache st) else st1) /\
    wal e' = wal_append_record_no_wait (wal e) (wal_path name) (if ts =? 0 then 1 else 11)
               (if ts =? 0 then encode_row r else le_enc 8 ts ++ encode_row r).
Proof.
  intros S C. cbn zeta. unfold append_row_locked. erewrite st_bind_Ok by by eapply load_state_ok.
  erewrite st_bind_Ok by by apply put_version_ok.
  unfold sink. erewrite st_bind_Ok by apply modify_ok.
  erewrite st_bind_Ok; [|apply get_state_ok; cbn; apply lookup_insert_eq].
  erewrite st_bind_Ok by apply gets_ok. cbn [memtable_bytes cfg set_repl set_wal put_state set_states with_version].
  destruct (_ <=? _) eqn:Full.
  - unfold take_memtable. erewrite st_bind_Ok; last first.
    { erewrite st_bind_Ok by (apply get_state_ok; cbn; apply lookup_insert_eq).
      erewrite st_bind_Ok by apply modify_ok. reflexivity. }
    eexists. split; [reflexivity|]. cbn. by rewrite lookup_insert_eq.
  - eexists. split; [reflexivity|]. cbn. by rewrite lookup_insert_eq.
Qed.

(** The table after an append: the version is in the memtable, or was flushed
    with it into level 0. *)
Definition appended st (en : MemEntry) (d : Z) (l0 : list MemEntry) (ls : list (list MemEntry)) st' ls' : Prop :=
  schema st' = schema st /\ cache st' = cache st /\ write_version st' = u64 (write_version st + 1) /\
  ((memtable st' = mem_put (memtable st) (key_of en) en /\ memtable_bytes st' = memtable_bytes st + d /\ ls' = l0 :: ls) \/
   (memtable st' = [] /\ memtable_bytes st' = 0 /\
    ls' = merge_runs (mem_put (memtable st) (key_of en) en) (keyed l0) :: ls)).

Lemma append_detail e name cols st l0 ls r ts :
  table_ok e name cols st (l0 :: ls) -> is_Some (files e !! (name, 0%nat)) ->
  let en := mkEntry (extract_key r cols) r false ts in
  key_ok (pk en) -> 0 <= ts <= UINT64_MAX ->
  (memtable_limit_bytes (cfg e) <= memtable_bytes st + blen (encode_row r) ->
   sst_fits cols (merge_runs (mem_put (memtable st) (key_of en) en) (keyed l0))) ->
  exists e' st' ls', append_row name cols r ts e = (e', Ok tt) /\ table_ok e' name cols st' ls' /\
    is_Some (files e' !! (name, 0%nat)) /\ sees_write en (contents st (l0 :: ls)) (contents st' ls') /\
    appended st en (blen (encode_row r)) l0 ls st' ls'.
Proof.
  intros T H0' en Ken Hts Fi. pose proof T as [S C M L].
  destruct (append_locked_ok e name cols st r ts S C) as (e1 & R & Ef & Et & Ec & Es & Ew).
  destruct (sees_write_mem en st (with_version st en (blen (encode_row r))) (l0 :: ls) M Ken Hts eq_refl) as [M' B].
  unfold append_row. erewrite st_bind_Ok by exact R. unfold append_row_finish.
  erewrite st_bind_Ok by apply modify_ok. set (e2 := set_wal _ e1).
  cbn [memtable_bytes with_version] in *. fold en in Es, Ew |- *.
  destruct (Z.leb_spec (memtable_limit_bytes (cfg e)) (memtable_bytes st + blen (encode_row r))) as [Full|Room].
  - set (st2 := mkTable (schema st) [] 0 _ _) in *.
    assert (table_ok e2 name cols st2 (l0 :: ls)) as T2.
    { apply (table_ok_frame e e2 name cols st st2); try done. apply mem_ok_nil. }
    destruct (flush_ok e2 name cols st2 l0 ls (memtable (with_version st en (blen (encode_row r)))) T2)
      as (e3 & R3 & T3 & P3 & _); [by unfold e2; cbn; rewrite Ef|done|by apply Fi|].
    exists e3, st2, (merge_runs (memtable (with_version st en (blen (encode_row r)))) (keyed l0) :: ls).
    split_and!; [exact R3|done|done| |split_and!; [done..|by right]]. intros s k Hk. rewrite <- (B s k Hk).
    apply contents_flush; try done. destruct H0' as [f Hf].
    destruct (deeper_levels_ok _ _ _ _ _ _ L Hf) as [(_ & _ & _ & _ & K & _) _]. done.
  - exists e2, (with_version st en (blen (encode_row r))), (l0 :: ls). split_and!; [done| | |done|split_and!; [done..|by left]].
    + by apply (table_ok_frame e e2 name cols st).
    + unfold e2. cbn. by rewrite Ef.
Qed.

Lemma delete_ok e name cols st ls k ts :
  table_ok e name cols st ls -> key_ok k -> 0 <= ts <= UINT64_MAX ->
  let en := mkEntry k (mkRow []) true ts in
  exists e' st', delete_row_by_key name k ts e = (e', Ok tt) /\ table_ok e' name cols st' ls /\
    files e' = files e /\ sees_write en (contents st ls) (contents st' ls) /\ st' = with_version st en 0.
Proof.
  intros T Hk Hts en. pose proof T as [S C M L].
  destruct (sees_write_mem en st (with_version st en 0) ls M Hk Hts eq_refl) as [M' B].
  unfold delete_row_by_key. erewrite st_bind_Ok by by eapply load_state_ok.
  erewrite st_bind_Ok by by apply put_version_ok. unfold sink. erewrite st_bind_Ok by apply modify_ok.
  eexists _, (with_version st en 0). split_and!; [apply modify_ok| |done|done|done].
  apply (table_ok_frame e _ name cols st); try done. cbn. apply lookup_insert_eq.
Qed.

(** * The levels of a table as a prefix *)

(** Levels [0 .. length fs - 1] are the files [fs] and the next level is missing. *)
Definition prefix_ok e name (fs : list F) : Prop :=
  (forall i f, fs !! i = Some f -> files e !! (name, i) = Some f) /\ files e !! (name, length fs) = None.

Lemma prefix_size e name n :
  (forall i, (i < n)%nat -> is_Some (files e !! (name, i))) -> (n <= size (files e))%nat.
Proof.
  intros P. set (ks := map (fun i => (name, i)) (seq 0 n)).
  assert (NoDup ks) as N by (apply NoDup_fmap_2; [intros ? ?; by intros [=]|apply NoDup_seq]).
  assert ((list_to_set ks : gset (bytes * nat)) ⊆ dom (files e)) as Sub.
  { intros p Hp%elem_of_list_to_set. apply list_elem_of_fmap in Hp as (i & -> & Hi%elem_of_seq).
    apply elem_of_dom, P. lia. }
  apply subseteq_size in Sub. rewrite size_list_to_set, size_dom in Sub by done.
  unfold ks in Sub. by rewrite length_map, length_seq in Sub.
Qed.

Lemma max_level_prefix e name fuel n l0 :
  (l0 < n)%nat -> (n - l0 <= S fuel)%nat ->
  (forall i, (i < n)%nat -> is_Some (files e !! (name, i))) -> files e !! (name, n) = None ->
  max_level_from fuel l0 name (files e) = (n - 1)%nat.
Proof.
  revert l0. induction fuel as [|fuel IH]; intros l0 L Fu P N; cbn [max_level_from]; [lia|].
  destruct (decide (S l0 = n)) as [E|D].
  - rewrite E, N. lia.
  - destruct (P (S l0) ltac:(lia)) as [f Hf]. rewrite Hf. apply IH; done || lia.
Qed.

Lemma visited_prefix e name fs :
  fs <> [] -> prefix_ok e name fs -> visited name e = zip (seq 0 (length fs)) fs.
Proof.
  intros N [P M]. assert (forall i, (i < length fs)%nat -> is_Some (files e !! (name, i))) as P'.
  { intros i Hi. destruct (lookup_lt_is_Some_2 fs i Hi) as [f Hf]. exists f. by apply P. }
  assert (1 <= length fs)%nat as L by (destruct fs; [done|cbn; lia]).
  pose proof (prefix_size e name (length fs) P').
  unfold visited, max_level. rewrite (max_level_prefix e name _ (length fs) 0) by (done || lia).
  replace (S (length fs - 1)) with (length fs) by lia. clear -P.
  assert (forall from gs, (forall i f, gs !! i = Some f -> files e !! (name, (from + i)%nat) = Some f) ->
    omap (fun l => (fun f => (l, f)) <$> files e !! (name, l)) (seq from (length gs)) = zip (seq from (length gs)) gs) as G.
  { intros from gs. revert from. induction gs as [|g gs IH]; intros from Q; [done|].
    cbn [length seq omap list_omap zip zip_with]. pose proof (Q 0%nat g eq_refl) as Q0.
    rewrite Nat.add_0_r in Q0. rewrite Q0. cbn. f_equal. apply IH. intros i f Hi.
    rewrite <- (Q (S i) f Hi). do 2 f_equal. lia. }
  apply G. intros i f Hi. by apply P.
Qed.

Lemma first_missing e name n :
  (forall i, (i < n)%nat -> is_Some (files e !! (name, i))) \/
  exists m, (m < n)%nat /\ (forall i, (i < m)%nat -> is_Some (files e !! (name, i))) /\ files e !! (name, m) = None.
Proof.
  induction n as [|n [IH|(m & L & P & M)]]; [left; lia| |right; exists m; split_and!; done || lia].
  destruct (files e !! (name, n)) as [f|] eqn:E.
  - left. intros i Hi. destruct (decide (i = n)) as [->|D]; [by rewrite E|]. apply IH. lia.
  - right. exists n. split_and!; done || lia.
Qed.

Lemma prefix_exists e name f :
  files e !! (name, 0%nat) = Some f -> exists fs, prefix_ok e name (f :: fs).
Proof.
  intros Hf. destruct (first_missing e name (S (size (files e)))) as [P|(m & _ & P & M)].
  { apply prefix_size in P. lia. }
  assert (exists gs, length gs = m /\ forall i g, gs !! i = Some g -> files e !! (name, i) = Some g) as (gs & L & Q).
  { clear M. induction m as [|m IH]; [by exists []|].
    destruct IH as (gs & L & Q); [intros i Hi; apply P; lia|]. destruct (P m ltac:(lia)) as [g Hg].
    exists (gs ++ [g]). rewrite length_app, L. split; [cbn; lia|]. intros i x Hx.
    apply lookup_app_Some in Hx as [Hx|[Hi Hx]]; [by apply Q|].
    apply list_lookup_singleton_Some in Hx as [E ->]. by replace i with m by lia. }
  destruct gs as [|g gs]; [cbn in L; subst m; by rewrite Hf in M|].
  pose proof (Q 0%nat g eq_refl) as Q0. rewrite Hf in Q0. simplify_eq. exists gs. by split.
Qed.

(** * One compaction step *)

(** Every version of a key in [a] is at least as new as every one in [b]. *)
Definition newest_first (a b : list MemEntry) : Prop :=
  forall x y, x ∈ a -> y ∈ b -> pk x = pk y -> commit_ts y <= commit_ts x.

Lemma zip_levels_ok e name cols (from : nat) (fs : list F) ls :
  Forall2 (level_ok e name cols) (zip (seq from (length fs)) fs) ls ->
  length ls = length fs.
Proof. intros L. apply Forall2_length in L. rewrite length_zip, length_seq in L. lia. Qed.

(** The state a step from level 0 to level 1 leaves, on disk and in the caches. *)
Definition stepped e e' name cols (merged : list MemEntry) (fts : gmap (bytes * nat) SstFooter) : Prop :=
  files e' = <[(name, 0%nat) := sst_write cols []]> (<[(name, 1%nat) := sst_write cols merged]> (files e)) /\
  footers e' = delete (name, 0%nat) (delete (name, 1%nat) fts) /\ states e' = states e.

Lemma read_next_ok e name cols (next : option (list MemEntry)) :
  match next with
  | Some es => exists f, level_ok e name cols (1%nat, f) es
  | None => files e !! (name, 1%nat) = None
  end ->
  exists e', read_level name 1 cols e = (e', Ok (default [] next)) /\ footer_ext e e'.
Proof.
  destruct next as [es|].
  - intros [f L]. by apply (read_level_ok e name cols 1 f).
  - intros N. exists e. split; [|apply footer_ext_refl]. unfold read_level.
    erewrite st_bind_Ok by apply gets_ok. by rewrite N.
Qed.

Lemma compact_once e name cols h fuel f l0 next :
  level_ok e name cols (0%nat, f) l0 ->
  match next with
  | Some es => exists f, level_ok e name cols (1%nat, f) es
  | None => files e !! (name, 1%nat) = None
  end ->
  let merged := compact_merge h l0 (default [] next) in
  0 <= lsm_max_level (cfg e) ->
  lsm_max_level (cfg e) <= 1 \/ sst_file_size (sst_write cols merged) < Z.shiftl (l0_threshold (cfg e)) 1 ->
  exists e' fts, compact_loop (S fuel) name cols h 0 e = (e', Ok tt) /\ footer_ext e (set_footers fts e) /\
    stepped e e' name cols merged fts.
Proof.
  intros L0 Ln merged Hmax Stop. destruct (read_level_ok _ _ _ _ _ _ L0) as (e1 & R1 & X1).
  destruct (read_next_ok e1 name cols next) as (e2 & R2 & X2).
  { destruct next; [destruct Ln as [f1 Ln]; exists f1; by eapply footer_ext_level|].
    by destruct X1 as (fts & -> & _). }
  pose proof (footer_ext_trans _ _ _ X1 X2) as X. destruct L0 as (Hf & _). cbn [fst snd] in Hf.
  cbn [compact_loop]. erewrite st_bind_Ok by apply gets_ok.
  destruct (Z.ltb_spec (lsm_max_level (cfg e)) (Z.of_nat 0)); [lia|].
  erewrite st_bind_Ok by apply gets_ok. rewrite Hf. do 2 (erewrite st_bind_Ok by done).
  fold merged. unfold write_level, record_manifest. cbn [Nat.eqb].
  do 3 (erewrite st_bind_Ok by apply modify_ok).
  pose proof X as X'. destruct X as (fts & -> & _). eexists _, fts.
  split.
  { change (Z.of_nat 1) with 1. destruct (Z.leb_spec (lsm_max_level (cfg e)) 1); [reflexivity|].
    destruct Stop as [?|Stop]; [lia|].
    destruct (Z.ltb_spec (sst_file_size (sst_write cols merged)) (Z.shiftl (l0_threshold (cfg e)) 1));
      [reflexivity|lia]. }
  split; [done|]. by unfold stepped.
Qed.

Lemma stepped_prefix e e' name cols merged fts f fs :
  prefix_ok e name (f :: fs) -> (fs = [] -> files e !! (name, 2%nat) = None) ->
  stepped e e' name cols merged fts ->
  prefix_ok e' name (sst_write cols [] :: sst_write cols merged :: tail fs).
Proof.
  intros [P M] N (Ef & _ & _). split.
  - intros [|[|i]] g Hg; cbn in Hg; simplify_eq; rewrite Ef.
    + apply lookup_insert_eq.
    + rewrite lookup_insert_ne by (intros [=]). apply lookup_insert_eq.
    + rewrite !lookup_insert_ne by (intros [=]). destruct fs as [|f1 fs]; [done|]. by apply P.
  - rewrite Ef, !lookup_insert_ne by (intros [=]). destruct fs as [|f1 fs]; [by apply N|exact M].
Qed.

Lemma compact_step e name cols st l0 (next : option (list MemEntry)) (rest : list (list MemEntry)) :
  table_ok e name cols st (l0 :: option_list next ++ rest) -> is_Some (files e !! (name, 0%nat)) ->
  (next = None -> rest = [] /\ files e !! (name, 2%nat) = None) ->
  let merged := compact_merge (gc_horizon e) l0 (default [] next) in
  sst_fits cols merged -> sst_fits cols [] ->
  (forall f, files e !! (name, 0%nat) = Some f -> l0_threshold (cfg e) <= sst_file_size f) ->
  0 <= lsm_max_level (cfg e) ->
  lsm_max_level (cfg e) <= 1 \/ sst_file_size (sst_write cols merged) < Z.shiftl (l0_threshold (cfg e)) 1 ->
  exists e', compact_levels name cols e = (e', Ok tt) /\ table_ok e' name cols st ([] :: merged :: rest).
Proof.
  intros T [f Hf] Nn merged Fm Fe Size Max Stop. pose proof T as [S C M L].
  destruct (prefix_exists e name f Hf) as [fs P]. rewrite (visited_prefix e name (f :: fs)) in L by done.
  cbn [length seq zip zip_with] in L. apply Forall2_cons in L as [L0 L].
  assert (length (option_list next ++ rest) = length fs) as Len by (by eapply (zip_levels_ok e name cols 1 fs)).
  assert (match next with
          | Some es => exists f1 fs', fs = f1 :: fs' /\ level_ok e name cols (1%nat, f1) es /\
                       Forall2 (level_ok e name cols) (zip (seq 2 (length fs')) fs') rest
          | None => fs = []
          end) as D.
  { destruct next as [es|]; cbn [option_list app] in *.
    - destruct fs as [|f1 fs]; [done|]. apply Forall2_cons in L as [? ?]. eauto.
    - destruct (Nn eq_refl) as [-> _]. by destruct fs. }
  destruct (compact_once e name cols (gc_horizon e) (Z.to_nat (lsm_max_level (cfg e))) f l0 next)
    as (e' & fts & R & X & St); [done| |done|done|].
  { destruct next; [destruct D as (f1 & _ & _ & ? & _); eauto|]. subst fs. apply P. }
  exists e'. split.
  { unfold compact_levels. do 2 (erewrite st_bind_Ok by apply gets_ok; rewrite ?Hf).
    pose proof (Size f Hf). destruct (Z.ltb_spec (sst_file_size f) (l0_threshold (cfg e))); [lia|].
    erewrite st_bind_Ok by by apply get_state_ok. erewrite st_bind_Ok by apply gets_ok.
    replace (Z.to_nat (lsm_max_level (cfg e)) + 1)%nat with (Datatypes.S (Z.to_nat (lsm_max_level (cfg e)))) by lia. done. }
  assert (prefix_ok e' name (sst_write cols [] :: sst_write cols merged :: tail fs)) as P'.
  { eapply stepped_prefix; [exact P| |exact St]. intros ->. destruct next; [by destruct D as (? & ? & ? & _)|]. by apply Nn. }
  destruct St as (Ef & Et & Es). split; [by rewrite Es|done|done|].
  rewrite (visited_prefix e' name (sst_write cols [] :: sst_write cols merged :: tail fs)) by done. cbn [length seq zip zip_with].
  apply Forall2_cons_2; [|apply Forall2_cons_2].
  - apply level_written; [apply (proj1 P' 0%nat); done|done|apply run_ok_nil|]. rewrite Et. apply lookup_delete_eq.
  - apply level_written; [apply (proj1 P' 1%nat); done|done| |].
    + apply compact_merge_spec; [by destruct L0 as (_ & _ & _ & _ & ? & _)|].
      destruct next; [|apply run_ok_nil]. destruct D as (f1 & fs' & _ & (_ & _ & _ & _ & ? & _) & _). done.
    + rewrite Et, lookup_delete_ne by (intros [=]). apply lookup_delete_eq.
  - destruct next as [es|]; [|destruct (Nn eq_refl) as [-> _]; subst fs; by apply Forall2_nil_2].
    destruct D as (f1 & fs' & -> & _ & Lr). cbn [tail]. eapply Forall2_same_length_lookup_2.
    { apply Forall2_length in Lr. done. }
    intros i [l x] es' Hi Hes. pose proof (Forall2_lookup_lr _ _ _ _ _ _ Lr Hi Hes) as Lx.
    assert (2 <= l)%nat as Hl.
    { apply lookup_zip_with_Some in Hi as (? & ? & [= <- _] & Hs%lookup_seq & _). lia. }
    apply (level_ok_frame (set_footers fts e)); [| |by eapply footer_ext_level].
    + cbn. rewrite Ef, !lookup_insert_ne by (intros [=]; lia). done.
    + cbn. rewrite Et, !lookup_delete_ne by (intros [=]; lia). done.
Qed.

End Writes.

(** * Visibility across a compaction step *)

Lemma dropped_tombstone_hidden (a x y : option MemEntry) :
  (forall u v, a = Some u -> x = Some v -> commit_ts v <= commit_ts u) ->
  y = x \/ tombstone_dropped x y -> row_of (newer a y) = row_of (newer a x).
Proof.
  intros N [->|[-> (t & -> & Tt)]]; [done|]. rewrite newer_None_r. destruct a as [u|]; cbn.
  - specialize (N u t eq_refl eq_refl). by destruct (Z.ltb_spec (commit_ts u) (commit_ts t)); [lia|].
  - by rewrite Tt.
Qed.

Lemma compact_visible st h l0 l1 rest s k :
  mem_ok (memtable st) -> run_ok l0 -> run_ok l1 -> key_ok k -> h <= s ->
  newest_first (map snd (memtable st)) (l0 ++ l1) -> best s k (concat rest) = None ->
  row_of (best s k (contents st ([] :: compact_merge h l0 l1 :: rest))) =
  row_of (best s k (contents st (l0 :: l1 :: rest))).
Proof.
  intros [Hm _] R0 R1 Hk Hs N Hr. unfold contents. cbn [concat app]. rewrite !best_app, Hr, !newer_None_r.
  destruct (compact_merge_spec h l0 l1 R0 R1) as [_ B]. specialize (B s k Hk Hs).
  rewrite best_app in B. apply dropped_tombstone_hidden; [|done]. intros u v Hu Hv.
  apply best_Some in Hu as (Hu & Eu & _). rewrite <- best_app in Hv. apply best_Some in Hv as (Hv & Ev & _).
  apply N; [done|done|]. pose proof (run_ok_keys _ Hm) as Km.
  assert (key_ok (pk v)) as Kv.
  { apply elem_of_app in Hv as [Hv|Hv]; [apply (keys_ok_elem l0)|apply (keys_ok_elem l1)]; try done;
      by apply run_ok_keys. }
  apply ValueEq_eq in Eu; [|by apply (keys_ok_elem (map snd (memtable st)))|done]. apply ValueEq_eq in Ev; [|done|done]. congruence.
Qed.

(** * Properties *)

(** C14: appending a row, whether or not it makes the memtable full and flushes it
    into level 0, succeeds, keeps the table in good order and adds exactly one
    version, provided that in case of a flush the new level-0 file is one that reads
    back ([sst_fits]; [Sst.sstable_read_rejects_own_file] is one that does not): at
    every snapshot and for every key a reader sees the newer of the appended version
    and what it saw before.  Deleting a key adds a deletion in the same way. *)
Theorem engine_writes_correct {F : Type} `{SstLaws F} (e : Engine F) (name : bytes) (cols : list Column)
    (st : TableState) (l0 : list MemEntry) (ls : list (list MemEntry)) (r : Row) (k : Value) (ts : Z) :
  table_ok e name cols st (l0 :: ls) -> is_Some (files e !! (name, 0%nat)) -> 0 <= ts <= UINT64_MAX ->
  let en := mkEntry (extract_key r cols) r false ts in
  (key_ok (pk en) ->
   (memtable_limit_bytes (cfg e) <= memtable_bytes st + blen (encode_row r) ->
    sst_fits cols (merge_runs (mem_put (memtable st) (key_of en) en) (keyed l0))) ->
   exists e' st' ls', append_row name cols r ts e = (e', Ok tt) /\ table_ok e' name cols st' ls' /\
     is_Some (files e' !! (name, 0%nat)) /\ sees_write en (contents st (l0 :: ls)) (contents st' ls')) /\
  (key_ok k ->
   exists e' st', delete_row_by_key name k ts e = (e', Ok tt) /\ table_ok e' name cols st' (l0 :: ls) /\
     sees_write (mkEntry k (mkRow []) true ts) (contents st (l0 :: ls)) (contents st' (l0 :: ls))).
Proof.
  intros T H0' Hts en. split.
  - intros Hk Fi. destruct (append_detail e name cols st l0 ls r ts T H0' Hk Hts Fi) as (e' & st' & ls' & R & T' & P & B & _).
    by exists e', st', ls'.
  - intros Hk. destruct (delete_ok e name cols st (l0 :: ls) k ts T Hk Hts) as (e' & st' & R & T' & _ & B & _). eauto.
Qed.

Lemma engine_writes_correct_witness :
  exists e' st', delete_row_by_key (str "t") (VInt 3) 12 ex_engine = (e', Ok tt) /\
    table_ok e' (str "t") t_cols st' [t_l0; t_l1] /\
    sees_write (t_del 3 12) (contents ex_table [t_l0; t_l1]) (contents st' [t_l0; t_l1]).
Proof.
  refine (proj2 (engine_writes_correct ex_engine (str "t") t_cols ex_table t_l0 [t_l1] (t_row 1 1) (VInt 3) 12
                   ex_table_ok _ _) I); [by eexists|by apply (bool_decide_unpack _)].
Defined.

(** C15: flushing the memtable into level 0, when the new file is one that reads back
    ([sst_fits]; [Sst.sstable_read_rejects_own_file] is one that does not), keeps
    the table in good order and is invisible: every key shows the same version at
    every snapshot. *)
Theorem flush_preserves_reads {F : Type} `{SstLaws F} (e : Engine F) (name : bytes) (cols : list Column)
    (st : TableState) (l0 : list MemEntry) (ls : list (list MemEntry)) :
  table_ok e name cols st (l0 :: ls) -> is_Some (files e !! (name, 0%nat)) ->
  sst_fits cols (merge_runs (memtable st) (keyed l0)) ->
  exists e' st' ls', flush_memtable name cols e = (e', Ok tt) /\ table_ok e' name cols st' ls' /\
    memtable st' = [] /\ forall s k, key_ok k -> best s k (contents st' ls') = best s k (contents st (l0 :: ls)).
Proof.
  intros T H0' Fi. pose proof T as [S C M L]. unfold flush_memtable, take_memtable.
  erewrite st_bind_Ok; last first.
  { erewrite st_bind_Ok by by apply get_state_ok. erewrite st_bind_Ok by apply modify_ok. reflexivity. }
  set (st' := mkTable (schema st) [] 0 (write_version st) (cache st)). set (e1 := put_state name st' e).
  assert (table_ok e1 name cols st' (l0 :: ls)) as T1.
  { apply (table_ok_frame e e1 name cols st st'); try done; [apply lookup_insert_eq|apply mem_ok_nil]. }
  destruct (flush_ok e1 name cols st' l0 ls (memtable st) T1 H0' M Fi) as (e2 & R & T2 & _).
  exists e2, st', (merge_runs (memtable st) (keyed l0) :: ls). split_and!; [done|done|done|].
  intros s k Hk. destruct H0' as [f Hf].
  destruct (deeper_levels_ok _ _ _ _ _ _ L Hf) as [(_ & _ & _ & _ & K & _) _].
  by apply contents_flush.
Qed.

Lemma flush_preserves_reads_witness :
  exists e' st' ls', flush_memtable (str "t") t_cols ex_engine = (e', Ok tt) /\
    table_ok e' (str "t") t_cols st' ls' /\ memtable st' = [] /\
    forall s k, key_ok k -> best s k (contents st' ls') = best s k (contents ex_table [t_l0; t_l1]).
Proof.
  apply (flush_preserves_reads ex_engine (str "t") t_cols ex_table t_l0 [t_l1] ex_table_ok); [by eexists|exact I].
Defined.

(** C16: a compaction that merges level 0 into level 1 and stops there, when the
    merged file and the empty one read back ([sst_fits]) and every version in the
    memtable is at least as new as those of its key in the two levels, keeps the
    table in good order, and every snapshot at or above the horizon sees the same
    row for each key that has no version in the levels below. *)
Theorem compaction_preserves_snapshots {F : Type} `{SstLaws F} (e : Engine F) (name : bytes)
    (cols : list Column) (st : TableState) (l0 l1 : list MemEntry) (rest : list (list MemEntry)) :
  table_ok e name cols st (l0 :: l1 :: rest) -> is_Some (files e !! (name, 0%nat)) ->
  let merged := compact_merge (gc_horizon e) l0 l1 in
  sst_fits cols merged -> sst_fits cols [] ->
  (forall f, files e !! (name, 0%nat) = Some f -> l0_threshold (cfg e) <= sst_file_size f) ->
  0 <= lsm_max_level (cfg e) ->
  lsm_max_level (cfg e) <= 1 \/ sst_file_size (sst_write cols merged) < Z.shiftl (l0_threshold (cfg e)) 1 ->
  newest_first (map snd (memtable st)) (l0 ++ l1) ->
  exists e', compact_levels name cols e = (e', Ok tt) /\
    table_ok e' name cols st ([] :: merged :: rest) /\
    forall s k, key_ok k -> gc_horizon e <= s -> best s k (concat rest) = None ->
      row_of (best s k (contents st ([] :: merged :: rest))) = row_of (best s k (contents st (l0 :: l1 :: rest))).
Proof.
  intros T H0' merged Fm Fe Size Max Stop N.
  destruct (compact_step e name cols st l0 (Some l1) rest T H0' ltac:(done) Fm Fe Size Max Stop) as (e' & R & T').
  exists e'. split_and!; [done|done|]. intros s k Hk Hs Hr. destruct T as [_ _ M L]. pose proof (level_runs _ _ _ _ _ L) as Rs.
  apply Forall_cons in Rs as [R0 Rs]. apply Forall_cons in Rs as [R1 _]. by apply compact_visible.
Qed.

(** The example engine with a one-byte threshold and horizon 8. *)
Definition ex_compacting : Engine DecodedFile :=
  mkEngine (mkConfig 1000 1 1) (files ex_engine) (wal ex_engine) ∅ ∅ (states ex_engine) ∅ ∅ true false
    empty_manifest 8 false [] None.

Lemma ex_compacting_ok : table_ok ex_compacting (str "t") t_cols ex_table [t_l0; t_l1].
Proof. by apply (table_ok_frame ex_engine ex_compacting _ _ ex_table _ _ ex_table_ok); [..|apply ex_table_ok]. Qed.

Lemma compaction_preserves_snapshots_witness :
  exists e', compact_levels (str "t") t_cols ex_compacting = (e', Ok tt) /\
    table_ok e' (str "t") t_cols ex_table [[]; compact_merge 8 t_l0 t_l1] /\
    forall s k, key_ok k -> 8 <= s -> best s k (concat []) = None ->
      row_of (best s k (contents ex_table [[]; compact_merge 8 t_l0 t_l1]))
      = row_of (best s k (contents ex_table [t_l0; t_l1])).
Proof.
  refine (compaction_preserves_snapshots ex_compacting (str "t") t_cols ex_table t_l0 t_l1 []
            ex_compacting_ok _ I I _ _ _ _); [by eexists| |by apply (bool_decide_unpack _)|by left|].
  - intros f Hf. assert (f = mkDecoded t_cols t_l0) as -> by (vm_compute in Hf; by injection Hf).
    apply (bool_decide_unpack _). vm_compute. exact I.
  - intros x y Hx Hy. unfold newest_first.
    assert (Forall (fun x => Forall (fun y => pk x = pk y -> commit_ts y <= commit_ts x) (t_l0 ++ t_l1)) t_mem) as Fa
      by (apply (bool_decide_unpack _); vm_compute; exact I).
    rewrite Forall_forall in Fa. specialize (Fa x Hx). rewrite Forall_forall in Fa. by apply Fa.
Defined.
