(* ===== verification/Recovery.v ===== *)
(** Durability and recovery of the LSM engine: what a write leaves in its log,
    and the state a table is rebuilt with from the log and the global commit log. *)
From Stdlib Require Import ZArith Lia Strings.Byte.
From stdpp Require Import base numbers list gmap strings.
From S2P Require Import Prelude Values Codec Checksum Bloom Wal Sst Store Manifest Mvcc Engine EngineReads EngineWrites.
Local Open Scope Z_scope.

(** * Log records of versions *)

(** The record [append_row] or [delete_row_by_key] writes for a version. *)
Definition log_record (en : MemEntry) : WalRecord :=
  mkWal (if tombstone en then (if commit_ts en =? 0 then 2 else 12) else (if commit_ts en =? 0 then 1 else 11))
        (if commit_ts en =? 0 then entry_rec en else le_enc 8 (commit_ts en) ++ entry_rec en).

Definition commit_record (ts : Z) : WalRecord := mkWal kWalCommitBarrier (le_enc 8 ts).

Definition log_ok (cols : list Column) (en : MemEntry) : Prop :=
  sst_entry_ok cols en /\ 8 + blen (entry_rec en) < 2 ^ 32.

#[export] Instance log_ok_dec cols en : Decision (log_ok cols en).
Proof. unfold log_ok. apply _. Defined.

Lemma log_record_wf cols en : log_ok cols en -> record_wf (log_record en).
Proof.
  intros [_ L]. pose proof (blen_nonneg (entry_rec en)). unfold record_wf, log_record. cbn [wal_type payload].
  split; [by destruct (tombstone en), (commit_ts en =? 0)|].
  destruct (commit_ts en =? 0); rewrite ?blen_app, ?blen_le_enc; lia.
Qed.

Lemma commit_record_wf ts : record_wf (commit_record ts).
Proof. done. Qed.

(** A logged version is replayed exactly when its timestamp counts as committed. *)
Lemma replay_log_record tc cols en :
  log_ok cols en -> Z.of_nat (length cols) < 2 ^ 32 ->
  replay_record tc cols (log_record en)
  = Ok (if (commit_ts en =? 0) || tc (commit_ts en) then Some en else None).
Proof.
  intros [Hok _] Hc. pose proof (decode_entry_rec _ _ Hok Hc) as D. destruct Hok as (Ht & _).
  destruct en as [k r tb ts]. unfold replay_record, log_record.
  cbn [tombstone commit_ts wal_type payload pk row] in *.
  destruct (Z.eqb_spec ts 0) as [->|Nz]; cbn [orb].
  { destruct tb; cbn [Z.eqb Pos.eqb]; destruct D as [D ->]; [|by rewrite D].
    destruct (entry_rec _); by rewrite D. }
  set (p := le_enc 8 ts ++ _). assert (has_bytes 8 p = true) as Hb.
  { rewrite has_bytes_spec. unfold p. rewrite blen_app, blen_le_enc. apply Z.leb_le.
    match goal with |- context [blen ?x] => pose proof (blen_nonneg x) end. lia. }
  assert (le_dec (take 8 p) = ts) as Hts by (unfold p; change (take 8 (le_enc 8 ts ++ ?x)) with (le_enc 8 ts); by rewrite le_dec_u64).
  assert (drop 8 p = entry_rec (mkEntry k r tb ts)) as Hd by reflexivity.
  destruct tb; cbn [Z.eqb Pos.eqb orb]; rewrite Hb, Hts, Hd; cbn [negb];
    (destruct (tc ts); [|done]); cbn [negb Z.eqb Pos.eqb]; destruct D as [D ->]; [|by rewrite D].
  destruct (entry_rec _); by rewrite D.
Qed.

(** The memtable a sequence of writes builds. *)
Definition build_memtable (m : memtable_t) (ws : list MemEntry) : memtable_t :=
  foldl (fun m en => mem_put m (key_of en) en) m ws.

Lemma replay_log_records tc cols ws m :
  Forall (log_ok cols) ws -> Z.of_nat (length cols) < 2 ^ 32 ->
  replay tc cols m (map log_record ws)
  = (build_memtable m (filter (fun en => (commit_ts en =? 0) || tc (commit_ts en) = true) ws), Ok tt).
Proof.
  intros H Hc. revert m. induction H as [|en ws Hen _ IH]; intros m; [done|].
  cbn [map replay]. rewrite (replay_log_record tc cols) by done. rewrite filter_cons.
  destruct ((commit_ts en =? 0) || tc (commit_ts en)) eqn:E.
  - rewrite IH, decide_True by done. done.
  - rewrite IH, decide_False by done. done.
Qed.

(** * Reading the commit log *)

Lemma barrier_commit_record ts : 0 <= ts < 2 ^ 64 -> barrier_ts (commit_record ts) = Some ts.
Proof.
  intros Ht. unfold barrier_ts, commit_record. cbn [wal_type payload].
  rewrite Z.eqb_refl, blen_le_enc. change (take 8 (le_enc 8 ts)) with (le_enc 8 ts).
  by rewrite le_dec_u64.
Qed.

Lemma omap_barriers cs :
  Forall (fun ts => 0 <= ts < 2 ^ 64) cs -> omap barrier_ts (map commit_record cs) = cs.
Proof.
  induction 1 as [|c cs Hc _ IH]; [done|]. cbn [map omap list_omap]. by rewrite barrier_commit_record, IH.
Qed.

Section Recovery.
Context {F : Type} `{SstStore F}.

(** * The log after a write *)

Lemma no_wait_mode m path ty p : wal_mode (wal_append_record_no_wait m path ty p) = wal_mode m.
Proof. unfold wal_append_record_no_wait. cbn. apply get_writer_mode. Qed.

Lemma sync_path_mode m path : wal_mode (wal_sync_path m path) = wal_mode m.
Proof. unfold wal_sync_path, sync_all_pending. by rewrite fold_sync_mode, get_writer_mode. Qed.

Lemma append_sync m path ty p f :
  wal_mode m = Durable -> wal_files m !! path = Some f ->
  let m' := wal_sync_path (wal_append_record_no_wait m path ty p) path in
  wal_files m' !! path = Some (f ++ wal_record_image ty p) /\ wal_durable m' !! path = wal_files m' !! path.
Proof.
  intros Md Hf. cbn zeta. set (m1 := wal_append_record_no_wait m path ty p).
  assert (wal_files m1 !! path = Some (f ++ wal_record_image ty p)) as E by (by apply append_no_wait_file).
  assert (wal_writers m1 !! path = Some true) as W by apply lookup_insert_eq.
  unfold wal_sync_path. replace (get_writer m1 path) with m1 by (unfold get_writer; by rewrite W).
  unfold sync_all_pending. destruct (fold_sync (map_to_list (wal_writers m1)).*1 m1 path) as [Fs D].
  - unfold m1. by rewrite no_wait_mode.
  - by rewrite E.
  - right. split; [|done]. apply list_elem_of_fmap. exists (path, true). split; [done|].
    by apply elem_of_map_to_list.
  - by rewrite D, Fs, E.
Qed.

(** The writes that are replayed: those without a timestamp, those whose timestamp
    is in the commit log, and all of them when there is no commit log. *)
Definition replayed (log : option (list Z)) (ws : list MemEntry) : list MemEntry :=
  filter (fun en => (commit_ts en =? 0) ||
            match log with Some cs => bool_decide (commit_ts en ∈ cs) | None => true end = true) ws.

(** Loading a table with nothing in memory. *)
Lemma load_recovers (e : Engine F) name f cols ws log :
  states e !! name = None -> files e !! (name, 0%nat) = Some f -> sst_schema f name = Ok cols ->
  Z.of_nat (length cols) < 2 ^ 32 ->
  committed_loaded e = false -> committed_ts e = ∅ ->
  wal_files (wal e) !! wal_path name = Some (wal_header ++ wal_image (map log_record ws)) ->
  wal_files (wal e) !! commit_log_path = (fun cs => wal_header ++ wal_image (map commit_record cs)) <$> log ->
  Forall (log_ok cols) ws -> Forall (fun ts => 0 <= ts < 2 ^ 64) (default [] log) ->
  exists e', load_state_locked name e = (e', Ok tt) /\ files e' = files e /\
    states e' !! name = Some (mkTable cols (build_memtable [] (replayed log ws)) 0 0 None).
Proof.
  intros Hs Hf Hsc Hc Hl Hcs Hw Hcl Hws Hts. unfold load_state_locked.
  assert (get_or_create_state name e = (put_state name empty_table e, Ok empty_table)) as G
    by (unfold get_or_create_state; by rewrite Hs).
  erewrite st_bind_Ok by exact G. cbn [schema empty_table].
  erewrite st_bind_Ok by apply gets_ok. cbn [files put_state set_states]. rewrite Hf.
  unfold lift. erewrite st_bind_Ok by (by rewrite Hsc). erewrite st_bind_Ok by apply modify_ok.
  unfold ensure_committed_loaded. erewrite st_bind_Ok by apply modify_ok.
  cbn [committed_loaded wal put_state set_states committed_ts]. rewrite Hl, Hcl.
  assert (Forall record_wf (map log_record ws)) as Hwf
    by (apply Forall_map; eapply Forall_impl; [exact Hws|]; cbn; intros; by eapply log_record_wf).
  destruct log as [cs|]; cbn [fmap option_fmap option_map default] in *.
  2: { unfold replay_log. cbn [wal set_committed put_state set_states memtable]. rewrite Hw, wal_read_image by done.
       rewrite replay_log_records by done. eexists. split; [reflexivity|]. cbn. split; [done|].
       by rewrite lookup_insert_eq. }
  unfold replay_log. cbn [wal set_committed put_state set_states memtable]. rewrite Hw.
  rewrite !wal_read_image by (done || (apply Forall_map; eapply Forall_impl; [exact Hts|]; intros; apply commit_record_wf)).
  rewrite replay_log_records, omap_barriers by done. eexists. split; [reflexivity|]. cbn. split; [done|].
  rewrite lookup_insert_eq. do 3 f_equal. apply list_filter_iff. intros en.
  unfold ts_committed. cbn. rewrite Hcs, union_empty_l_L.
  do 2 f_equiv. by rewrite (bool_decide_ext _ (commit_ts en ∈ cs)) by apply elem_of_list_to_set.
Qed.

(** * Crash and restart *)

(** The log at [path] holds exactly [rs], all of it synced, in the mode [Durable]. *)
Definition synced_log (e : Engine F) (path : bytes) (rs : list WalRecord) : Prop :=
  wal_mode (wal e) = Durable /\ wal_files (wal e) !! path = Some (wal_header ++ wal_image rs) /\
  wal_durable (wal e) !! path = wal_files (wal e) !! path.

Lemma no_wait_other m p q ty pl f :
  p <> q -> wal_files m !! p = Some f ->
  wal_files (wal_append_record_no_wait m p ty pl) !! q = wal_files m !! q /\
  wal_durable (wal_append_record_no_wait m p ty pl) !! q = wal_durable m !! q.
Proof.
  intros N Hf. unfold wal_append_record_no_wait, writer_append. cbn [wal_files wal_durable].
  rewrite lookup_alter_ne by done. rewrite (get_writer_file _ _ f) by done.
  unfold get_writer. by destruct (wal_writers m !! p).
Qed.

Lemma sync_all_other m q :
  wal_mode m = Durable -> is_Some (wal_files m !! q) -> wal_durable m !! q = wal_files m !! q ->
  wal_files (sync_all_pending m) !! q = wal_files m !! q /\
  wal_durable (sync_all_pending m) !! q = wal_files m !! q.
Proof.
  intros Md Hf Hd. unfold sync_all_pending.
  destruct (fold_sync (map_to_list (wal_writers m)).*1 m q Md Hf (or_introl Hd)) as [-> ->]. done.
Qed.

(** A synced append extends one log and leaves the others. *)
Lemma append_sync_logs (e : Engine F) p q ty pl rs rs' :
  p <> q -> 0 <= ty < 256 -> synced_log e p rs -> synced_log e q rs' ->
  let w := wal_sync_path (wal_append_record_no_wait (wal e) p ty pl) p in
  synced_log (set_wal w e) p (rs ++ [mkWal ty pl]) /\ synced_log (set_wal w e) q rs'.
Proof.
  intros N Ht (Md & Pf & Pd) (_ & Qf & Qd) w. destruct (append_sync (wal e) p ty pl _ Md Pf) as [A B]. fold w in A, B.
  assert (wal_mode w = Durable) as Mw by (unfold w; by rewrite sync_path_mode, no_wait_mode).
  split; [split; [exact Mw|split; [|exact B]]|].
  - cbn [wal set_wal]. by rewrite A, wal_image_snoc, <- app_assoc.
  - set (m1 := wal_append_record_no_wait (wal e) p ty pl) in *.
    destruct (no_wait_other (wal e) p q ty pl _ N Pf) as [F1 D1]. fold m1 in F1, D1.
    assert (wal_writers m1 !! p = Some true) as W by apply lookup_insert_eq.
    assert (w = sync_all_pending m1) as Ew
      by (unfold w, wal_sync_path, get_writer; by rewrite W).
    unfold synced_log. cbn [wal set_wal]. split; [exact Mw|]. rewrite Ew.
    destruct (sync_all_other m1 q) as [-> ->]; [by unfold m1; rewrite no_wait_mode|by rewrite F1, Qf|by rewrite F1, D1|]. by rewrite F1, Qf.
Qed.

Lemma append_logged (e : Engine F) name cols st r ts ws cs :
  states e !! name = Some st -> schema st <> [] ->
  memtable_bytes st + blen (encode_row r) < memtable_limit_bytes (cfg e) ->
  wal_path name <> commit_log_path ->
  synced_log e (wal_path name) (map log_record ws) -> synced_log e commit_log_path (map commit_record cs) ->
  exists e', append_row name cols r ts e = (e', Ok tt) /\ files e' = files e /\ manifest e' = manifest e /\
    synced_log e' (wal_path name) (map log_record (ws ++ [mkEntry (extract_key r cols) r false ts])) /\
    synced_log e' commit_log_path (map commit_record cs).
Proof.
  intros S C Room N Sw Sc.
  destruct (append_locked_ok e name cols st r ts S C) as (e1 & R & Ef & _ & Em & _ & Ew).
  cbn [memtable_bytes with_version] in R.
  destruct (Z.leb_spec (memtable_limit_bytes (cfg e)) (memtable_bytes st + blen (encode_row r))); [lia|].
  unfold append_row. erewrite st_bind_Ok by exact R. unfold append_row_finish.
  erewrite st_bind_Ok by apply modify_ok. eexists. split; [reflexivity|].
  cbn [files manifest set_wal]. split; [done|]. split; [done|]. rewrite Ew.
  rewrite map_app. cbn [map]. unfold log_record at 2. cbn [tombstone commit_ts]. unfold entry_rec.
  cbn [tombstone row].
  exact (append_sync_logs e (wal_path name) commit_log_path (if ts =? 0 then 1 else 11)
           (if ts =? 0 then encode_row r else le_enc 8 ts ++ encode_row r) _ _ N
           ltac:(destruct (ts =? 0); lia) Sw Sc).
Qed.

Lemma mark_logged (e : Engine F) name ts ws cs :
  ts <> 0 -> wal_path name <> commit_log_path ->
  synced_log e (wal_path name) ws -> synced_log e commit_log_path (map commit_record cs) ->
  exists e', mark_committed ts e = (e', Ok tt) /\ files e' = files e /\ manifest e' = manifest e /\
    synced_log e' (wal_path name) ws /\ synced_log e' commit_log_path (map commit_record (cs ++ [ts])).
Proof.
  intros Nz N Sw Sc. unfold mark_committed. destruct (Z.eqb_spec ts 0); [done|].
  unfold ensure_committed_loaded. erewrite st_bind_Ok by apply modify_ok.
  set (e1 := if committed_loaded e then e else _).
  assert (wal e1 = wal e /\ files e1 = files e /\ manifest e1 = manifest e) as (Ew & Ef & Em)
    by (unfold e1; repeat case_match; done).
  do 2 (erewrite st_bind_Ok by apply modify_ok). unfold sink. eexists. split; [apply modify_ok|].
  cbn [files manifest set_wal set_repl set_committed]. split; [done|]. split; [done|].
  rewrite map_app. cbn [map].
  destruct (append_sync_logs e1 commit_log_path (wal_path name) kWalCommitBarrier (le_enc 8 ts)
    (map commit_record cs) ws ltac:(done) ltac:(done)) as [A B].
  { unfold synced_log. by rewrite Ew. }
  { unfold synced_log. by rewrite Ew. }
  assert (wal_append_record (wal e1) commit_log_path kWalCommitBarrier (le_enc 8 ts) =
    wal_sync_path (wal_append_record_no_wait (wal e1) commit_log_path kWalCommitBarrier (le_enc 8 ts)) commit_log_path) as E.
  { unfold wal_append_record, wal_sync_path, get_writer.
    by rewrite (lookup_insert_eq _ commit_log_path true : wal_writers (wal_append_record_no_wait _ _ _ _) !! _ = _). }
  unfold synced_log in *. cbn [wal set_wal set_repl set_committed] in *. rewrite E. done.
Qed.

(** After a crash the table is rebuilt from the synced logs. *)
Lemma crash_recovers (e : Engine F) name f cols ws cs m' :
  files e !! (name, 0%nat) = Some f -> sst_schema f name = Ok cols -> Z.of_nat (length cols) < 2 ^ 32 ->
  reconcile_with_manifest (manifest e) (files e) = Ok (files e, m') ->
  synced_log e (wal_path name) (map log_record ws) -> synced_log e commit_log_path (map commit_record cs) ->
  Forall (log_ok cols) ws -> Forall (fun ts => 0 <= ts < 2 ^ 64) cs ->
  exists e1 e2, crash e = Ok e1 /\ load_state_locked name e1 = (e2, Ok tt) /\
    states e2 !! name = Some (mkTable cols (build_memtable [] (replayed (Some cs) ws)) 0 0 None).
Proof.
  intros Hf Hs Hc Hr (_ & W1 & W2) (_ & C1 & C2) Hw Hcs. unfold crash, reopen. cbn [manifest files set_wal]. rewrite Hr.
  cbn [mbind res_bind]. eexists.
  match goal with |- context [Ok ?x = Ok _] => set (e1 := x) end.
  destruct (load_recovers e1 name f cols ws (Some cs)) as (e2 & R & _ & S); try done.
  { unfold e1. cbn [wal set_wal clear_all wal_files]. by rewrite W2, W1. }
  { unfold e1. cbn [wal set_wal clear_all wal_files]. by rewrite C2, C1. }
  exists e2. done.
Qed.

End Recovery.

(** * Properties *)

Lemma build_memtable_spec ws m :
  mem_ok m -> Forall (fun en => key_ok (pk en) /\ 0 <= commit_ts en <= UINT64_MAX) ws ->
  mem_ok (build_memtable m ws) /\
  forall s k, key_ok k -> best s k (map snd (build_memtable m ws)) = best s k (rev ws ++ map snd m).
Proof.
  intros Hm F. revert m Hm. induction F as [|en ws [K T] _ IH]; intros m Hm; [done|].
  destruct (mem_put_spec m en Hm K T) as [Hm' B]. destruct (IH _ Hm') as [I1 I2]. split; [done|].
  intros s k Hk. cbn [build_memtable foldl] in *. fold (build_memtable (mem_put m (key_of en) en) ws) in *.
  rewrite I2 by done. cbn [rev]. rewrite <- app_assoc, !best_app, B by done.
  by rewrite (best_cons s k en []), newer_None_r.
Qed.

(** C20: loading a table of a new process replays its log.  The memtable is the one
    built, in order, by the logged writes that carry no timestamp or whose timestamp
    is in the global commit log, or by all logged writes when the directory has no
    commit log; it shows for each key the newest of these, the last written one
    for equal timestamps.  Nothing of the table is in memory yet, the records
    decode with the schema of the level-0 file, and keys are neither NaN nor -0.0. *)
Theorem recovery_replays_committed {F : Type} `{SstStore F} (e : Engine F) (name : bytes) (f : F)
    (cols : list Column) (ws : list MemEntry) (log : option (list Z)) :
  states e !! name = None -> files e !! (name, 0%nat) = Some f -> sst_schema f name = Ok cols ->
  Z.of_nat (length cols) < 2 ^ 32 -> committed_loaded e = false -> committed_ts e = ∅ ->
  wal_files (wal e) !! wal_path name = Some (wal_header ++ wal_image (map log_record ws)) ->
  wal_files (wal e) !! commit_log_path = (fun cs => wal_header ++ wal_image (map commit_record cs)) <$> log ->
  Forall (log_ok cols) ws -> Forall (fun ts => 0 <= ts < 2 ^ 64) (default [] log) ->
  Forall (fun en => key_ok (pk en)) ws ->
  let kept := replayed log ws in
  exists e' m, load_state_locked name e = (e', Ok tt) /\
    states e' !! name = Some (mkTable cols m 0 0 None) /\ mem_ok m /\
    forall s k, key_ok k -> best s k (map snd m) = best s k (rev kept).
Proof.
  intros Hs Hf Hsc Hc Hl Hcs Hw Hcl Hws Hts Hk kept.
  destruct (load_recovers e name f cols ws log) as (e' & R & _ & St); try done.
  exists e', (build_memtable [] kept). split; [done|]. split; [done|].
  destruct (build_memtable_spec kept [] mem_ok_nil) as [I1 I2].
  { apply Forall_forall. intros en [_ Hen]%list_elem_of_filter. rewrite Forall_forall in Hws, Hk.
    split; [by apply Hk|]. destruct (Hws en Hen) as [(Ht & _) _]. unfold UINT64_MAX. lia. }
  split; [done|]. intros s k Hkk. by rewrite I2, app_nil_r.
Qed.

(** The files of a closed engine whose table "t" logged two writes of
    transaction 5, which committed, and one of transaction 6, which did not. *)
Definition closed_engine (ws : list MemEntry) (cs : list Z) : Engine DecodedFile :=
  let logs := {[ wal_path (str "t") := wal_header ++ wal_image (map log_record ws);
                 commit_log_path := wal_header ++ wal_image (map commit_record cs) ]} in
  mkEngine default_config {[ (str "t", 0%nat) := mkDecoded t_cols [] ]}
    (mkWalManager logs ∅ logs Durable) ∅ ∅ ∅ ∅ ∅ false false
    (write_manifest ({[ (str "t", 0%nat) := mkDecoded t_cols [] ]} : gmap (bytes * nat) DecodedFile) empty_manifest)
    0 false [] None.

Definition logged_writes : list MemEntry := [t_put 1 10 5; t_del 2 5; t_put 1 99 6].

Lemma recovery_replays_committed_witness :
  exists e' m, load_state_locked (str "t") (closed_engine logged_writes [5]) = (e', Ok tt) /\
    states e' !! str "t" = Some (mkTable (map (persisted_column (str "t")) t_cols) m 0 0 None) /\ mem_ok m /\
    forall s k, key_ok k -> best s k (map snd m) = best s k [t_del 2 5; t_put 1 10 5].
Proof.
  refine (recovery_replays_committed (closed_engine logged_writes [5]) (str "t") (mkDecoded t_cols [])
            (map (persisted_column (str "t")) t_cols) logged_writes (Some [5]) _ _ _ _ _ _ _ _ _ _ _);
    try reflexivity; apply (bool_decide_unpack _); vm_compute; exact I.
Defined.

(** C19: the commit point is durable and atomic, for an append that does not fill
    the memtable, in the WAL mode [Durable].  The logs of the table and of the
    commits exist and are synced, and the manifest agrees with the files.  A row
    appended by transaction [ts] is in the synced log when [append_row] returns;
    a power failure before [mark_committed ts] rebuilds the table without it, unless
    [ts] was marked before, and one after [mark_committed ts] has returned rebuilds
    it with it.  ([EngineFaults.crash_anomalies] shows what happens to an append
    that flushes.) *)
Theorem commit_survives_crash {F : Type} `{SstStore F} (e : Engine F) (name : bytes) (cols scols : list Column)
    (st : TableState) (f : F) (m' : ManifestState) (r : Row) (ts : Z) (ws : list MemEntry) (cs : list Z) :
  states e !! name = Some st -> schema st <> [] ->
  memtable_bytes st + blen (encode_row r) < memtable_limit_bytes (cfg e) ->
  wal_path name <> commit_log_path ->
  files e !! (name, 0%nat) = Some f -> sst_schema f name = Ok scols -> Z.of_nat (length scols) < 2 ^ 32 ->
  reconcile_with_manifest (manifest e) (files e) = Ok (files e, m') ->
  synced_log e (wal_path name) (map log_record ws) -> synced_log e commit_log_path (map commit_record cs) ->
  let en := mkEntry (extract_key r cols) r false ts in
  Forall (log_ok scols) (ws ++ [en]) -> Forall (fun t => 0 <= t < 2 ^ 64) cs -> ts <> 0 ->
  let kept committed := replayed (Some committed) (ws ++ [en]) in
  exists e1 e2, append_row name cols r ts e = (e1, Ok tt) /\ mark_committed ts e1 = (e2, Ok tt) /\
    (exists c l, crash e1 = Ok c /\ load_state_locked name c = (l, Ok tt) /\
       states l !! name = Some (mkTable scols (build_memtable [] (kept cs)) 0 0 None)) /\
    (exists c l, crash e2 = Ok c /\ load_state_locked name c = (l, Ok tt) /\
       states l !! name = Some (mkTable scols (build_memtable [] (kept (cs ++ [ts]))) 0 0 None)).
Proof.
  intros S C Room N Hf Hs Hc Hr Sw Sc en Hok Hcs Nz kept.
  destruct (append_logged e name cols st r ts ws cs) as (e1 & R1 & F1 & M1 & W1 & C1); try done.
  destruct (mark_logged e1 name ts _ cs Nz N W1 C1) as (e2 & R2 & F2 & M2 & W2 & C2).
  assert (0 <= ts < 2 ^ 64) as Ht.
  { apply Forall_app in Hok as [_ Hok]. apply Forall_cons in Hok as [[(Ht & _) _] _]. exact Ht. }
  exists e1, e2. split; [done|]. split; [done|]. split.
  - apply (crash_recovers e1 name f scols (ws ++ [en]) cs m'); try done; by rewrite ?F1, ?M1.
  - apply (crash_recovers e2 name f scols (ws ++ [en]) (cs ++ [ts]) m'); try done;
      rewrite ?F2, ?M2, ?F1, ?M1; try done. apply Forall_app. split; [done|]. by constructor.
Qed.

Definition open_engine : Engine DecodedFile :=
  set_states {[ str "t" := mkTable t_cols (keyed []) 0 0 None ]} (closed_engine [] []).

Lemma commit_survives_crash_witness :
  exists e1 e2, append_row (str "t") t_cols (t_row 4 40) 7 open_engine = (e1, Ok tt) /\
    mark_committed 7 e1 = (e2, Ok tt) /\
    (exists c l, crash e1 = Ok c /\ load_state_locked (str "t") c = (l, Ok tt) /\
       states l !! str "t" = Some (mkTable (map (persisted_column (str "t")) t_cols) [] 0 0 None)) /\
    (exists c l, crash e2 = Ok c /\ load_state_locked (str "t") c = (l, Ok tt) /\
       states l !! str "t" = Some (mkTable (map (persisted_column (str "t")) t_cols) (keyed [t_put 4 40 7]) 0 0 None)).
Proof.
  refine (commit_survives_crash open_engine (str "t") t_cols (map (persisted_column (str "t")) t_cols)
            (mkTable t_cols (keyed []) 0 0 None) (mkDecoded t_cols []) _ (t_row 4 40) 7 [] []
            _ _ _ _ _ _ _ _ _ _ _ _ _);
    try reflexivity; try done; try (split_and!; reflexivity); apply (bool_decide_unpack _); vm_compute; exact I.
Defined.
