(* ===== verification/EngineFaults.v ===== *)
(** Executions of the engine that end in a state its documentation excludes:
    each is a concrete sequence of the engine's own operations, evaluated. *)
From Stdlib Require Import ZArith Lia Strings.Byte.
From stdpp Require Import base numbers list gmap strings.
From S2P Require Import Prelude Values Codec Checksum Bloom Wal Sst Store Manifest Mvcc Engine EngineReads Recovery.
Local Open Scope Z_scope.

(** The outcome of a computation, without the state. *)
Definition outcome {S A} (m : ST S A) (s : S) : res A := (m s).2.

(** A clean restart, as a step of a trace. *)
Definition restart : ST (Engine DecodedFile) unit := fun e =>
  match reopen e with Ok e' => (e', Ok tt) | Throw w => (e, Throw w) | UB w => (e, UB w) end.
Definition power_loss : ST (Engine DecodedFile) unit := fun e =>
  match crash e with Ok e' => (e', Ok tt) | Throw w => (e, Throw w) | UB w => (e, UB w) end.

Definition set_cfg (c : Config) (e : Engine DecodedFile) : Engine DecodedFile :=
  mkEngine c (files e) (wal e) (index_files e) (registries e) (states e) (footers e) (committed_ts e)
    (committed_loaded e) (commit_log_present e) (manifest e) (gc_horizon e) (pool e) (pending e) (repl_sink e).

Definition t : bytes := str "t".
Definition look (k s : Z) : ST (Engine DecodedFile) (option Row) := lookup_visible t t_cols (VInt k) s.
Definition put (k v ts : Z) : ST (Engine DecodedFile) unit := append_row t t_cols (t_row k v) ts.

(** Key 1 was deleted at 8; its row of timestamp 2 is still in level 2. *)
Definition deleted_engine : Engine DecodedFile :=
  set_gc_horizon 10 (set_cfg (mkConfig 1000 8192 1)
    (t_engine [] [(0%nat, [t_del 1 8]); (1%nat, [t_put 5 50 4]); (2%nat, [t_put 1 10 2])])).

(** One row, compacted with a threshold of one page. *)
Definition one_row_engine : Engine DecodedFile :=
  set_cfg (mkConfig 1000 8192 3) (t_engine [] [(0%nat, [t_put 1 10 5])]).

(** An open engine with an empty table and a commit log, and its memtable limit. *)
Definition fresh (limit : Z) : Engine DecodedFile := set_cfg (mkConfig limit (64 * 1024) 3) open_engine.

(** Compaction of level 0 drops a deletion whose key still has an older row
    in a deeper level, so the deleted row comes back; and a cascade that moves
    level 1 into level 2 leaves a gap at level 1, after which no read path
    reaches level 2 and the table reads as empty. *)
Theorem compaction_anomalies :
  outcome (look 1 20) deleted_engine = Ok None /\
  outcome (_ ← compact_levels t t_cols; look 1 20) deleted_engine = Ok (Some (t_row 1 10)) /\
  outcome (look 1 20) one_row_engine = Ok (Some (t_row 1 10)) /\
  outcome (_ ← compact_levels t t_cols;
           a ← look 1 20; b ← scan_visible t t_cols 20; c ← scan_visible_stream t t_cols 20;
           l2 ← gets (fun e => df_entries <$> files e !! (t, 2%nat)); mret (a, b, c, l2)) one_row_engine
  = Ok (None, [], [], Some [t_put 1 10 5]).
Proof. split_and!; vm_compute; reflexivity. Qed.

(** A scan that runs while a flush has taken the memtable but not yet written
    level 0 caches a result without the flushed rows, and because the flush does
    not change the write version every later scan at a newer snapshot is served
    from it, while the point lookup finds the row.  Two writes without a
    timestamp, one flushed and one not, read differently by scan and lookup. *)
Theorem scan_anomalies :
  outcome (_ ← put 1 10 5; m ← take_memtable t; _ ← scan_visible t t_cols 5;
           _ ← flush_memtable_internal t t_cols m true;
           rows ← scan_visible t t_cols 9; r ← look 1 9; mret (rows, r)) (fresh 1000)
  = Ok ([], Some (t_row 1 10)) /\
  outcome (_ ← put 1 10 0; _ ← flush_memtable t t_cols; _ ← put 1 20 0;
           rows ← scan_visible t t_cols 9; r ← look 1 9; mret (rows, r)) (fresh 1000)
  = Ok ([t_row 1 10], Some (t_row 1 20)).
Proof. split; vm_compute; reflexivity. Qed.

(** Flushing writes every version of the memtable to level 0, also those of
    a transaction that has not reached its commit point: after a crash before
    [mark_committed] its row is visible.  And a flush that started before another
    transaction's append ends by truncating the log, so that the other
    transaction's row, logged, synced and committed in between, is lost in a crash. *)
Theorem crash_anomalies :
  outcome (_ ← put 1 10 5; _ ← power_loss; look 1 9) (fresh 10) = Ok (Some (t_row 1 10)) /\
  outcome (_ ← put 1 10 5; _ ← power_loss; look 1 9) (fresh 1000) = Ok None /\
  outcome (_ ← put 3 30 4; snapshot ← append_row_locked t t_cols (t_row 1 10) 5;
           _ ← put 2 20 6; _ ← mark_committed 6;
           _ ← append_row_finish t t_cols snapshot; _ ← mark_committed 5;
           _ ← power_loss; a ← look 1 9; b ← look 2 9; mret (a, b)) (fresh 40)
  = Ok (Some (t_row 1 10), None).
Proof. split_and!; vm_compute; reflexivity. Qed.

(** A table named "_commit" shares its log file with the global commit log:
    creating it erases the commit log, and a restart drops every committed row
    that was not flushed. *)
Lemma commit_table_erases_commit_log :
  outcome (_ ← put 1 10 5; _ ← mark_committed 5; _ ← restart; look 1 9) (fresh 1000) = Ok (Some (t_row 1 10)) /\
  outcome (_ ← put 1 10 5; _ ← mark_committed 5; _ ← create_table (str "_commit") t_cols;
           _ ← restart; look 1 9) (fresh 1000) = Ok None.
Proof. split; vm_compute; reflexivity. Qed.

(** Dropping a table with a gap in its levels leaves the deeper file, so the
    table still exists. *)
Lemma drop_table_leaves_level :
  outcome (_ ← compact_levels t t_cols; b ← drop_table t; x ← gets (table_exists t); mret (b, x)) one_row_engine
  = Ok (true, true).
Proof. vm_compute. reflexivity. Qed.
