(* ===== verification/Txn.v ===== *)
(** The transaction manager ([src/txn/transaction_manager.cpp]): identifiers,
    read and commit timestamps, the table of running and of committed
    transactions, and the horizon below which versions may be collected.

    The counters are atomics that wrap at 64 bits; [begin] and
    [prune_committed] release or do not hold the mutex between their parts, so
    the step relation interleaves these parts between threads. *)
From Stdlib Require Import ZArith Lia.
From stdpp Require Import base numbers list gmap relations.
From S2P Require Import Prelude Values Sst Mvcc.
Local Open Scope Z_scope.

Inductive TxnState := Active | Failed | Committed | Aborted.
#[export] Instance TxnState_eq_dec : EqDecision TxnState.
Proof. solve_decision. Defined.

Record TxnRecord := mkTxn {
  txn_id : Z;
  read_ts : Z;
  txn_commit_ts : Z;
  txn_state : TxnState
}.

Record TransactionManager := mkTM {
  next_txn_id : Z;
  next_ts : Z;
  txns : gmap Z TxnRecord;
  committed : gmap Z TxnRecord;
  txn_active : Z;          (* gauge corodb_txn_active *)
  txn_committed : Z;       (* counter corodb_txn_committed_total *)
  txn_aborted : Z          (* counter corodb_txn_aborted_total *)
}.
Definition new_manager : TransactionManager := mkTM 1 1 ∅ ∅ 0 0 0.

(** [unordered_map::emplace] keeps an entry that is already there. *)
Definition emplace (id : Z) (r : TxnRecord) (m : gmap Z TxnRecord) : gmap Z TxnRecord :=
  match m !! id with Some _ => m | None => <[id := r]> m end.

(** * Operations *)

(** [next_txn_id_.fetch_add(1)] and [next_ts_.fetch_add(1)]. *)
Definition fetch_txn_id (tm : TransactionManager) : TransactionManager * Z :=
  (mkTM (u64 (next_txn_id tm + 1)) (next_ts tm) (txns tm) (committed tm)
        (txn_active tm) (txn_committed tm) (txn_aborted tm), next_txn_id tm).

Definition allocate_ts (tm : TransactionManager) : TransactionManager * Z :=
  (mkTM (next_txn_id tm) (u64 (next_ts tm + 1)) (txns tm) (committed tm)
        (txn_active tm) (txn_committed tm) (txn_aborted tm), next_ts tm).

(** The part of [begin] under the mutex. *)
Definition begin_register (id ts : Z) (tm : TransactionManager) : TransactionManager :=
  mkTM (next_txn_id tm) (next_ts tm) (emplace id (mkTxn id ts 0 Active) (txns tm)) (committed tm)
       (txn_active tm + 1) (txn_committed tm) (txn_aborted tm).

Definition begin (tm : TransactionManager) : TransactionManager * Z :=
  let (tm1, id) := fetch_txn_id tm in
  let (tm2, ts) := allocate_ts tm1 in
  (begin_register id ts tm2, id).

(** [commit] returns the commit timestamp, or nothing when the code returns
    false. *)
Definition commit (id : Z) (tm : TransactionManager) : TransactionManager * option Z :=
  match txns tm !! id with
  | Some r =>
      if decide (txn_state r = Active) then
        let ts := next_ts tm in
        let r' := mkTxn (txn_id r) (read_ts r) ts Committed in
        (mkTM (next_txn_id tm) (u64 (next_ts tm + 1)) (delete id (txns tm)) (emplace id r' (committed tm))
              (txn_active tm - 1) (txn_committed tm + 1) (txn_aborted tm), Some ts)
      else (tm, None)
  | None => (tm, None)
  end.

Definition rollback (id : Z) (tm : TransactionManager) : TransactionManager * bool :=
  match txns tm !! id with
  | Some r =>
      if decide (txn_state r = Active \/ txn_state r = Failed) then
        (mkTM (next_txn_id tm) (next_ts tm) (delete id (txns tm)) (committed tm)
              (txn_active tm - 1) (txn_committed tm) (txn_aborted tm + 1), true)
      else (tm, false)
  | None => (tm, false)
  end.

Definition mark_failed (id : Z) (tm : TransactionManager) : TransactionManager :=
  match txns tm !! id with
  | Some r =>
      if decide (txn_state r = Active) then
        mkTM (next_txn_id tm) (next_ts tm)
             (<[id := mkTxn (txn_id r) (read_ts r) (txn_commit_ts r) Failed]> (txns tm)) (committed tm)
             (txn_active tm) (txn_committed tm) (txn_aborted tm)
      else tm
  | None => tm
  end.

Definition get_state (id : Z) (tm : TransactionManager) : option TxnState :=
  match txns tm !! id with
  | Some r => Some (txn_state r)
  | None => txn_state <$> committed tm !! id
  end.

Definition get_read_ts (id : Z) (tm : TransactionManager) : option Z :=
  match txns tm !! id with
  | Some r => Some (read_ts r)
  | None => read_ts <$> committed tm !! id
  end.

Definition get_commit_ts (id : Z) (tm : TransactionManager) : option Z :=
  txn_commit_ts <$> committed tm !! id.

Definition active_count (tm : TransactionManager) : nat := size (txns tm).

(** One round of the loop of [min_active_read_ts], over [(min_ts, found)]. *)
Definition min_step (r : TxnRecord) (acc : Z * bool) : Z * bool :=
  if decide (txn_state r = Active \/ txn_state r = Failed)
  then if read_ts r <? acc.1 then (read_ts r, true) else acc
  else acc.

Definition min_active_read_ts (tm : TransactionManager) : Z :=
  let acc := map_fold (fun _ r acc => min_step r acc) (UINT64_MAX, false) (txns tm) in
  if acc.2 then acc.1 else next_ts tm.

(** The part of [prune_committed] under the exclusive lock. *)
Definition prune_below (horizon : Z) (tm : TransactionManager) : TransactionManager :=
  mkTM (next_txn_id tm) (next_ts tm) (txns tm)
       (filter (fun kv : Z * TxnRecord => horizon <= txn_commit_ts kv.2) (committed tm))
       (txn_active tm) (txn_committed tm) (txn_aborted tm).

Definition prune_committed (tm : TransactionManager) : TransactionManager :=
  prune_below (min_active_read_ts tm) tm.

(** The compare-and-swap loop raises the counter and never lowers it. *)
Definition bootstrap_min_next_ts (min_next_ts : Z) (tm : TransactionManager) : TransactionManager :=
  mkTM (next_txn_id tm) (if next_ts tm <? min_next_ts then min_next_ts else next_ts tm)
       (txns tm) (committed tm) (txn_active tm) (txn_committed tm) (txn_aborted tm).

(** * Interleavings *)

(** What a thread has done of the operation it is in. *)
Inductive pc :=
| BeganId (id : Z)
| BeganTs (id ts : Z)
| Pruning (horizon : Z).

Record sys := mkSys { tm : TransactionManager; pcs : gmap nat pc }.
Definition init_sys : sys := mkSys new_manager ∅.

Inductive step : sys -> sys -> Prop :=
| step_begin_id s t :
    pcs s !! t = None ->
    step s (mkSys (fetch_txn_id (tm s)).1 (<[t := BeganId (fetch_txn_id (tm s)).2]> (pcs s)))
| step_begin_ts s t id :
    pcs s !! t = Some (BeganId id) ->
    step s (mkSys (allocate_ts (tm s)).1 (<[t := BeganTs id (allocate_ts (tm s)).2]> (pcs s)))
| step_begin_register s t id ts :
    pcs s !! t = Some (BeganTs id ts) ->
    step s (mkSys (begin_register id ts (tm s)) (delete t (pcs s)))
| step_commit s id : step s (mkSys (commit id (tm s)).1 (pcs s))
| step_rollback s id : step s (mkSys (rollback id (tm s)).1 (pcs s))
| step_mark_failed s id : step s (mkSys (mark_failed id (tm s)) (pcs s))
| step_allocate s : step s (mkSys (allocate_ts (tm s)).1 (pcs s))
| step_prune_horizon s t :
    pcs s !! t = None ->
    step s (mkSys (tm s) (<[t := Pruning (min_active_read_ts (tm s))]> (pcs s)))
| step_prune s t h :
    pcs s !! t = Some (Pruning h) ->
    step s (mkSys (prune_below h (tm s)) (delete t (pcs s)))
| step_bootstrap s m : 0 <= m <= UINT64_MAX -> step s (mkSys (bootstrap_min_next_ts m (tm s)) (pcs s)).

(** Runs in which neither 64-bit counter wraps around. *)
Definition calm_step (s s' : sys) : Prop :=
  step s s' /\ next_txn_id (tm s) < UINT64_MAX /\ next_ts (tm s) < UINT64_MAX.

(** Who holds a transaction identifier, and for what a timestamp was given out. *)
Inductive holder := ByTxns | ByCommitted | ByThread (t : nat).
Inductive holds_id (s : sys) (id : Z) : holder -> Prop :=
| holds_txns r : txns (tm s) !! id = Some r -> holds_id s id ByTxns
| holds_committed r : committed (tm s) !! id = Some r -> holds_id s id ByCommitted
| holds_began t : pcs s !! t = Some (BeganId id) -> holds_id s id (ByThread t)
| holds_began_ts t ts : pcs s !! t = Some (BeganTs id ts) -> holds_id s id (ByThread t).

Inductive use := ReadOf (id : Z) | CommitOf (id : Z).
Inductive stamped (s : sys) (ts : Z) : use -> Prop :=
| stamp_txns id r : txns (tm s) !! id = Some r -> read_ts r = ts -> stamped s ts (ReadOf id)
| stamp_committed id r : committed (tm s) !! id = Some r -> read_ts r = ts -> stamped s ts (ReadOf id)
| stamp_commit id r : committed (tm s) !! id = Some r -> txn_commit_ts r = ts -> stamped s ts (CommitOf id)
| stamp_began t id : pcs s !! t = Some (BeganTs id ts) -> stamped s ts (ReadOf id).

(** Identifiers and timestamps are given out once; a commit is later than the
    read timestamp of its transaction; the maps hold the states they should. *)
Record manager_ok (s : sys) : Prop := {
  ok_ids : forall id h, holds_id s id h -> 1 <= id < next_txn_id (tm s);
  ok_id_once : forall id h h', holds_id s id h -> holds_id s id h' -> h = h';
  ok_stamps : forall ts u, stamped s ts u -> 1 <= ts < next_ts (tm s);
  ok_stamp_once : forall ts u u', stamped s ts u -> stamped s ts u' -> u = u';
  ok_active : forall id r, txns (tm s) !! id = Some r ->
    txn_id r = id /\ (txn_state r = Active \/ txn_state r = Failed);
  ok_committed : forall id r, committed (tm s) !! id = Some r ->
    txn_id r = id /\ txn_state r = Committed /\ read_ts r < txn_commit_ts r;
  ok_counters : 1 <= next_txn_id (tm s) <= UINT64_MAX /\ 1 <= next_ts (tm s) <= UINT64_MAX;
  ok_gauge : txn_active (tm s) = Z.of_nat (size (txns (tm s)))
}.


Lemma emplace_Some id r (m : gmap Z TxnRecord) k x :
  emplace id r m !! k = Some x -> m !! k = Some x \/ (m !! id = None /\ k = id /\ x = r).
Proof.
  unfold emplace. destruct (m !! id) eqn:E; [tauto|].
  rewrite lookup_insert_Some. intuition congruence.
Qed.

Lemma filter_committed h (m : gmap Z TxnRecord) k x :
  filter (fun kv : Z * TxnRecord => h <= txn_commit_ts kv.2) m !! k = Some x -> m !! k = Some x.
Proof. rewrite map_lookup_filter_Some. tauto. Qed.

Ltac txn_lookup :=
  repeat match goal with
  | H : emplace _ _ _ !! _ = Some _ |- _ => apply emplace_Some in H
  | H : filter _ _ !! _ = Some _ |- _ => apply filter_committed in H
  | H : <[_ := _]> _ !! _ = Some _ |- _ => apply lookup_insert_Some in H
  | H : delete _ _ !! _ = Some _ |- _ => apply lookup_delete_Some in H
  | H : _ /\ _ |- _ => destruct H
  | H : _ \/ _ |- _ => destruct H
  | H : Some _ = Some _ |- _ => injection H; clear H; intros; subst
  | H : Pruning _ = _ |- _ => discriminate H
  | H : BeganId _ = _ |- _ => injection H || discriminate H; clear H; intros; subst
  | H : BeganTs _ _ = _ |- _ => injection H || discriminate H; clear H; intros; subst
  end.

Lemma holds_subset (s s' : sys) :
  manager_ok s ->
  (forall id h, holds_id s' id h -> holds_id s id h) -> (forall ts u, stamped s' ts u -> stamped s ts u) ->
  next_txn_id (tm s') = next_txn_id (tm s) -> next_ts (tm s) <= next_ts (tm s') <= UINT64_MAX ->
  (forall id r, txns (tm s') !! id = Some r ->
     exists r0, txns (tm s) !! id = Some r0 /\ txn_id r = txn_id r0 /\ (txn_state r = txn_state r0 \/ txn_state r = Failed)) ->
  (forall id r, committed (tm s') !! id = Some r -> committed (tm s) !! id = Some r) ->
  txn_active (tm s') = Z.of_nat (size (txns (tm s'))) ->
  manager_ok s'.
Proof.
  intros [Hi Hi1 Hs Hs1 Ha Hc Hn Hg] Hid Hst En Et Htx Hco Hgauge. split.
  - intros id h H. rewrite En. eauto.
  - eauto.
  - intros ts u H. apply Hst, Hs in H. lia.
  - eauto.
  - intros id r H. destruct (Htx _ _ H) as (r0 & H0 & -> & Hst0).
    destruct (Ha _ _ H0) as [-> Hst1]. split; [reflexivity|]. destruct Hst0 as [-> | ->]; auto.
  - eauto.
  - rewrite En. lia.
  - exact Hgauge.
Qed.

Lemma u64_succ z : 1 <= z < UINT64_MAX -> u64 (z + 1) = z + 1.
Proof. unfold UINT64_MAX. intros. apply wrap_small. lia. Qed.

Lemma size_delete_some id r (m : gmap Z TxnRecord) :
  m !! id = Some r -> Z.of_nat (size (delete id m)) = Z.of_nat (size m) - 1.
Proof.
  intros H. rewrite map_size_delete, H by (rewrite ?H; eauto).
  assert (size m <> 0%nat) by (apply map_size_ne_0_lookup; eauto). lia.
Qed.

Lemma step_begin_id_ok s t :
  manager_ok s -> pcs s !! t = None -> next_txn_id (tm s) < UINT64_MAX ->
  manager_ok (mkSys (fetch_txn_id (tm s)).1 (<[t := BeganId (fetch_txn_id (tm s)).2]> (pcs s))).
Proof.
  intros [Hi Hi1 Hs Hs1 Ha Hc Hn Hg] Ht Hw. cbn.
  assert (Hold : forall id h, holds_id (mkSys (fetch_txn_id (tm s)).1 (<[t := BeganId (next_txn_id (tm s))]> (pcs s))) id h ->
            holds_id s id h \/ (id = next_txn_id (tm s) /\ h = ByThread t)).
  { intros id h H. inversion H; cbn in *; subst; txn_lookup; eauto using holds_id. }
  assert (Hst : forall ts u, stamped (mkSys (fetch_txn_id (tm s)).1 (<[t := BeganId (next_txn_id (tm s))]> (pcs s))) ts u -> stamped s ts u).
  { intros ts u H. inversion H; cbn in *; subst; txn_lookup; eauto using stamped. }
  split; cbn; try assumption.
  - intros id h H. rewrite u64_succ by lia. destruct (Hold _ _ H) as [H' | [-> _]]; [apply Hi in H'|]; lia.
  - intros id h h' H H'. destruct (Hold _ _ H) as [G | [E ->]], (Hold _ _ H') as [G' | [E' ->]]; eauto.
    + apply Hi in G. lia.
    + apply Hi in G'. lia.
  - eauto.
  - eauto.
  - rewrite u64_succ by lia. lia.
Qed.

Lemma step_begin_ts_ok s t id :
  manager_ok s -> pcs s !! t = Some (BeganId id) -> next_ts (tm s) < UINT64_MAX ->
  manager_ok (mkSys (allocate_ts (tm s)).1 (<[t := BeganTs id (allocate_ts (tm s)).2]> (pcs s))).
Proof.
  intros [Hi Hi1 Hs Hs1 Ha Hc Hn Hg] Ht Hw. cbn.
  set (s' := mkSys _ _).
  assert (Hid : forall id' h, holds_id s' id' h -> holds_id s id' h).
  { intros id' h H. inversion H; cbn in *; subst; txn_lookup; eauto using holds_id. }
  assert (Hst : forall ts u, stamped s' ts u -> stamped s ts u \/ (ts = next_ts (tm s) /\ u = ReadOf id)).
  { intros ts u H. inversion H; cbn in *; subst; txn_lookup; eauto using stamped. }
  split; cbn; try assumption.
  - eauto.
  - eauto.
  - intros ts u H. rewrite u64_succ by lia. destruct (Hst _ _ H) as [H' | [-> _]]; [apply Hs in H'|]; lia.
  - intros ts u u' H H'. destruct (Hst _ _ H) as [G | [E ->]], (Hst _ _ H') as [G' | [E' ->]]; eauto.
    + apply Hs in G. lia.
    + apply Hs in G'. lia.
  - rewrite u64_succ by lia. lia.
Qed.

Lemma step_register_ok s t id ts :
  manager_ok s -> pcs s !! t = Some (BeganTs id ts) ->
  manager_ok (mkSys (begin_register id ts (tm s)) (delete t (pcs s))).
Proof.
  intros [Hi Hi1 Hs Hs1 Ha Hc Hn Hg] Ht. set (s' := mkSys _ _).
  assert (Hth : holds_id s id (ByThread t)) by eauto using holds_id.
  assert (Hnew : txns (tm s) !! id = None).
  { destruct (txns (tm s) !! id) eqn:E; [|reflexivity].
    discriminate (Hi1 _ _ _ Hth (holds_txns _ _ _ E)). }
  assert (Hid : forall id' h, holds_id s' id' h ->
            (holds_id s id' h /\ h <> ByThread t) \/ (id' = id /\ h = ByTxns)).
  { intros id' h H. inversion H; cbn in *; subst; txn_lookup; auto; left;
      (split; [eauto using holds_id | congruence]). }
  assert (Hst : forall ts' u, stamped s' ts' u -> stamped s ts' u).
  { intros ts' u H. inversion H; cbn in *; subst; txn_lookup; subst; cbn; eauto using stamped. }
  split; cbn; try assumption.
  - intros id' h H. destruct (Hid _ _ H) as [[H' _] | [-> _]]; eauto.
  - intros id' h h' H H'. destruct (Hid _ _ H) as [[G N] | [E ->]], (Hid _ _ H') as [[G' N'] | [E' ->]]; eauto.
    + subst. destruct (N (Hi1 _ _ _ G Hth)).
    + subst. destruct (N' (Hi1 _ _ _ G' Hth)).
  - eauto.
  - eauto.
  - intros id' r H. txn_lookup; subst; cbn; eauto.
  - unfold emplace. rewrite Hnew, Hg. rewrite map_size_insert, Hnew. lia.
Qed.

Lemma step_commit_ok s id :
  manager_ok s -> next_ts (tm s) < UINT64_MAX -> manager_ok (mkSys (commit id (tm s)).1 (pcs s)).
Proof.
  intros Hok Hw. unfold commit. destruct (txns (tm s) !! id) as [r|] eqn:E; [|destruct s; exact Hok].
  case_decide as Est; [|destruct s; exact Hok]. destruct Hok as [Hi Hi1 Hs Hs1 Ha Hc Hn Hg]. cbn. set (s' := mkSys _ _).
  assert (Hold : holds_id s id ByTxns) by eauto using holds_id.
  assert (Hnew : committed (tm s) !! id = None).
  { destruct (committed (tm s) !! id) eqn:E'; [|reflexivity].
    discriminate (Hi1 _ _ _ Hold (holds_committed _ _ _ E')). }
  assert (Hid : forall id' h, holds_id s' id' h ->
            (holds_id s id' h /\ id' <> id) \/ (id' = id /\ h = ByCommitted)).
  { intros id' h H. inversion H; cbn in *; subst; txn_lookup; auto; left;
      (split; [eauto using holds_id | intros ->]); try congruence.
    all: assert (Hx : holds_id s id (ByThread t)) by eauto using holds_id; discriminate (Hi1 _ _ _ Hold Hx). }
  assert (Hst : forall ts u, stamped s' ts u -> stamped s ts u \/ (ts = next_ts (tm s) /\ u = CommitOf id)).
  { intros ts u H. inversion H; cbn in *; subst; txn_lookup; subst; cbn; eauto using stamped. }
  assert (Hrd : 1 <= read_ts r < next_ts (tm s)) by (eapply Hs; eauto using stamped).
  split; cbn; try assumption.
  - intros id' h H. destruct (Hid _ _ H) as [[H' _] | [-> _]]; eauto.
  - intros id' h h' H H'. destruct (Hid _ _ H) as [[G N] | [E1 ->]], (Hid _ _ H') as [[G' N'] | [E2 ->]];
      eauto; congruence.
  - intros ts u H. rewrite u64_succ by lia. destruct (Hst _ _ H) as [H' | [-> _]]; [apply Hs in H'|]; lia.
  - intros ts u u' H H'. destruct (Hst _ _ H) as [G | [Et ->]], (Hst _ _ H') as [G' | [Et' ->]]; eauto.
    + apply Hs in G. lia.
    + apply Hs in G'. lia.
  - intros id' r' H. txn_lookup; eauto.
  - intros id' r' H. txn_lookup; eauto. subst. cbn. destruct (Ha _ _ E). repeat split; [assumption | lia].
  - rewrite u64_succ by lia. lia.
  - rewrite (size_delete_some _ _ _ E). lia.
Qed.

(** Steps that give out nothing new. *)
Ltac nothing_new :=
  intros; match goal with
  | H : holds_id _ _ _ |- _ => inversion H; cbn in *; subst; txn_lookup; subst; eauto using holds_id
  | H : stamped _ _ _ |- _ => inversion H; cbn in *; subst; txn_lookup; subst; cbn; eauto using stamped
  end.

Lemma step_quiet_ok s s' :
  manager_ok s -> next_ts (tm s) < UINT64_MAX ->
  (exists id, s' = mkSys (rollback id (tm s)).1 (pcs s) \/ s' = mkSys (mark_failed id (tm s)) (pcs s)) \/
  s' = mkSys (allocate_ts (tm s)).1 (pcs s) \/
  (exists t h, pcs s !! t = None /\ s' = mkSys (tm s) (<[t := Pruning h]> (pcs s))) \/
  (exists t h, s' = mkSys (prune_below h (tm s)) (delete t (pcs s))) \/
  (exists m, 0 <= m <= UINT64_MAX /\ s' = mkSys (bootstrap_min_next_ts m (tm s)) (pcs s)) ->
  manager_ok s'.
Proof.
  intros Hok Hw Hs. pose proof (ok_counters _ Hok). pose proof (ok_gauge _ Hok).
  assert (Hself : manager_ok (mkSys (tm s) (pcs s))) by (destruct s; exact Hok).
  destruct Hs as [[id [-> | ->]] | [-> | [(t & h & Ht & ->) | [(t & h & ->) | (m & Hm & ->)]]]].
  - unfold rollback. destruct (txns (tm s) !! id) as [r|] eqn:E; [|exact Hself].
    case_decide; [|exact Hself]. apply (holds_subset s); auto; cbn; try nothing_new; try lia.
    + intros ? ? H'. txn_lookup; eauto 10.
    + rewrite (size_delete_some _ _ _ E). lia.
  - unfold mark_failed. destruct (txns (tm s) !! id) as [r|] eqn:E; [|exact Hself].
    case_decide; [|exact Hself]. apply (holds_subset s); auto; cbn; try nothing_new; try lia.
    + intros ? ? H'. txn_lookup; subst; cbn; eauto 10.
    + rewrite map_size_insert, E. cbn. lia.
  - apply (holds_subset s); auto; cbn; try nothing_new; try (rewrite u64_succ by lia; lia); eauto 10.
  - apply (holds_subset s); auto; cbn; try nothing_new; try lia; eauto 10.
  - apply (holds_subset s); auto; cbn; try nothing_new; try lia; eauto 10.
    intros ? ? H'. txn_lookup; eauto.
  - apply (holds_subset s); auto; cbn; try nothing_new; try (destruct (Z.ltb_spec (next_ts (tm s)) m); lia); eauto 10.
Qed.

Lemma step_ok s s' : manager_ok s -> calm_step s s' -> manager_ok s'.
Proof.
  intros Hok (Hstep & Hi & Ht). inversion Hstep; subst;
    eauto using step_begin_id_ok, step_begin_ts_ok, step_register_ok, step_commit_ok;
    eapply step_quiet_ok; eauto 10.
Qed.

Lemma init_sys_ok : manager_ok init_sys.
Proof.
  split; cbn; try reflexivity; try (unfold UINT64_MAX; lia);
    intros; repeat match goal with H : holds_id _ _ _ |- _ => inversion H; clear H
                   | H : stamped _ _ _ |- _ => inversion H; clear H end; cbn in *; simplify_map_eq.
Qed.

Lemma reachable_ok s : rtc calm_step init_sys s -> manager_ok s.
Proof. revert s. apply rtc_ind_r; eauto using init_sys_ok, step_ok. Qed.

(** * The horizon *)

Definition min_ok (acc : Z * bool) (m : gmap Z TxnRecord) : Prop :=
  (forall id r, m !! id = Some r -> txn_state r = Active \/ txn_state r = Failed ->
     acc.1 <= read_ts r \/ UINT64_MAX <= read_ts r) /\
  (acc.2 = true -> exists id r, m !! id = Some r /\ read_ts r = acc.1) /\
  (acc.2 = false -> acc.1 = UINT64_MAX).

Lemma min_ok_mono acc acc' id r (m : gmap Z TxnRecord) :
  min_ok acc m -> acc'.1 <= acc.1 -> m !! id = None ->
  (txn_state r = Active \/ txn_state r = Failed -> acc'.1 <= read_ts r \/ UINT64_MAX <= read_ts r) ->
  acc' = acc \/ acc' = (read_ts r, true) -> min_ok acc' (<[id := r]> m).
Proof.
  intros (Hle & Hex & Hf) Hacc Hid Hr Hwhich. split; [|split].
  - intros id' r' H Hst. apply lookup_insert_Some in H as [[_ <-] | [_ H]]; [auto|].
    destruct (Hle _ _ H Hst); lia.
  - intros E. destruct Hwhich as [-> | ->]; [|exists id, r; rewrite lookup_insert_eq; auto].
    destruct (Hex E) as (id' & r' & H & E'). exists id', r'. split; [|assumption].
    apply lookup_insert_Some. right. split; congruence.
  - destruct Hwhich as [-> | ->]; [assumption | discriminate].
Qed.

Lemma min_fold_ok (m : gmap Z TxnRecord) :
  min_ok (map_fold (fun _ r acc => min_step r acc) (UINT64_MAX, false) m) m.
Proof.
  apply (map_fold_weak_ind min_ok).
  - split; [|split]; cbn; try discriminate; try reflexivity.
  - intros id r m' acc Hid Hok. apply (min_ok_mono acc); auto; unfold min_step; case_decide; cbn;
      destruct (Z.ltb_spec (read_ts r) acc.1); cbn; try tauto; lia.
Qed.

Lemma horizon_spec s :
  manager_ok s ->
  min_active_read_ts (tm s) <= next_ts (tm s) /\
  (forall id r, txns (tm s) !! id = Some r -> min_active_read_ts (tm s) <= read_ts r) /\
  (min_active_read_ts (tm s) = next_ts (tm s) \/
   exists id r, txns (tm s) !! id = Some r /\ read_ts r = min_active_read_ts (tm s)).
Proof.
  intros Hok. pose proof (ok_counters _ Hok) as [_ Hts]. unfold min_active_read_ts.
  destruct (min_fold_ok (txns (tm s))) as (Hle & Hex & Hf).
  assert (Hrd : forall id r, txns (tm s) !! id = Some r -> 1 <= read_ts r < next_ts (tm s))
    by (intros; eapply ok_stamps; eauto using stamped).
  destruct (map_fold _ _ _) as [h []]; cbn in *.
  - destruct (Hex eq_refl) as (id & r & H & <-). repeat split; [apply Hrd in H; lia | | eauto].
    intros id' r' H'. destruct (Hle _ _ H' (proj2 (ok_active _ Hok _ _ H'))); [lia | apply Hrd in H'; lia].
  - specialize (Hf eq_refl). repeat split; [lia | | auto]. intros id' r' H'.
    destruct (Hle _ _ H' (proj2 (ok_active _ Hok _ _ H'))); apply Hrd in H'; lia.
Qed.

(** A value below which no transaction reads: not those running, not those that
    have taken their timestamp and are about to be registered. *)
Definition protects (h : Z) (s : sys) : Prop :=
  h <= next_ts (tm s) /\
  (forall id r, txns (tm s) !! id = Some r -> h <= read_ts r) /\
  (forall t id ts, pcs s !! t = Some (BeganTs id ts) -> h <= ts).

Lemma protects_step h s s' : manager_ok s -> protects h s -> calm_step s s' -> protects h s'.
Proof.
  intros Hok (Hn & Hr & Hp) (Hstep & Hi & Ht). pose proof (ok_counters _ Hok) as [_ Hts].
  assert (Hself : protects h (mkSys (tm s) (pcs s))) by (split; auto).
  destruct Hstep; unfold commit, rollback, mark_failed;
    repeat match goal with |- context [match ?x with Some _ => _ | None => _ end] => destruct x eqn:? end;
    repeat case_decide; try exact Hself;
    (split; cbn; [rewrite ?u64_succ by lia; try lia | split; intros; txn_lookup; subst; cbn; eauto; try lia]).
  destruct (Z.ltb_spec (next_ts (tm s)) m); lia.
Qed.

Lemma protects_later h s s' :
  manager_ok s -> protects h s -> rtc calm_step s s' -> manager_ok s' /\ protects h s'.
Proof.
  intros Hok Hp H. revert s' H. apply rtc_ind_r; [auto|].
  intros y z _ Hyz [H1 H2]. eauto using step_ok, protects_step.
Qed.

(** A [begin] that is not interrupted is its three steps. *)
Lemma begin_run (m : TransactionManager) :
  0 <= next_txn_id m < UINT64_MAX - 1 -> 0 <= next_ts m < UINT64_MAX - 1 ->
  rtc calm_step (mkSys m ∅) (mkSys (begin m).1 ∅).
Proof.
  intros Hi Ht. assert (E : forall z, 0 <= z < UINT64_MAX - 1 -> u64 (z + 1) = z + 1)
    by (unfold UINT64_MAX; intros; apply wrap_small; lia).
  eapply rtc_l; [split; [apply (step_begin_id _ 0%nat); reflexivity | cbn; lia]|].
  eapply rtc_l; [split; [eapply (step_begin_ts _ 0%nat); apply lookup_insert_eq | cbn; rewrite ?E by lia; lia]|].
  eapply rtc_l; [split; [eapply (step_begin_register _ 0%nat); apply lookup_insert_eq | cbn; rewrite ?E by lia; lia]|].
  cbn. rewrite insert_insert_eq, delete_insert_id by reflexivity. apply rtc_refl.
Qed.

(** * Properties *)

(** C28: in every interleaving of begins, commits, rollbacks and prunings in which
    the 64-bit counters do not wrap, identifiers and timestamps are unique, each
    commit is later than the reads of its transaction, a transaction is running
    or committed but not both, and the gauge counts the running ones. *)
Theorem txn_manager_invariant (s : sys) : rtc calm_step init_sys s -> manager_ok s.
Proof. apply reachable_ok. Qed.

Lemma txn_manager_invariant_witness :
  manager_ok (mkSys (commit 1 (begin (begin new_manager).1).1).1 ∅).
Proof.
  apply txn_manager_invariant.
  etransitivity; [apply begin_run; cbn; unfold UINT64_MAX; lia|].
  eapply rtc_r; [apply begin_run; split; vm_compute; try discriminate; reflexivity|].
  split; [apply (step_commit (mkSys _ _) 1) | vm_compute; auto].
Defined.

(** A horizon read while no [begin] is half way protects every transaction
    from then on: it is the smallest read timestamp of those running, or the next
    timestamp if there are none, and in every later state no running transaction
    reads below it, so the compaction that uses it keeps what they see. *)
Theorem gc_horizon_protects (s s' : sys) :
  rtc calm_step init_sys s -> (forall t id ts, pcs s !! t <> Some (BeganTs id ts)) -> rtc calm_step s s' ->
  let h := min_active_read_ts (tm s) in
  (h = next_ts (tm s) \/ exists id r, txns (tm s) !! id = Some r /\ read_ts r = h) /\
  (forall id r, txns (tm s') !! id = Some r -> h <= read_ts r) /\
  h <= next_ts (tm s').
Proof.
  intros Hs Hq Hs' h. pose proof (reachable_ok _ Hs) as Hok.
  destruct (horizon_spec _ Hok) as (H1 & H2 & H3). split; [exact H3|].
  destruct (protects_later h s s' Hok) as (_ & H4 & H5 & _); [| exact Hs' | auto].
  split; [exact H1|]. split; [exact H2|]. intros t id ts H. destruct (Hq _ _ _ H).
Qed.

Lemma gc_horizon_protects_witness :
  let s := mkSys (begin new_manager).1 ∅ in
  let s' := mkSys (begin (begin new_manager).1).1 ∅ in
  min_active_read_ts (tm s) = 1 /\ forall id r, txns (tm s') !! id = Some r -> 1 <= read_ts r.
Proof.
  cbn zeta. split; [vm_compute; reflexivity|].
  refine (proj1 (proj2 (gc_horizon_protects (mkSys (begin new_manager).1 ∅) (mkSys (begin (begin new_manager).1).1 ∅) _ _ _))).
  - apply begin_run; cbn; unfold UINT64_MAX; lia.
  - intros t id ts. cbn. rewrite lookup_empty. discriminate.
  - apply begin_run; split; vm_compute; try discriminate; reflexivity.
Defined.

(** One key with an old version at 1 and a new one at 5. *)
Definition old_version : MemEntry := mkEntry (VInt 1) (mkRow [VInt 1; VInt 10]) false 1.
Definition new_version : MemEntry := mkEntry (VInt 1) (mkRow [VInt 1; VInt 50]) false 5.

(** The horizon does not protect every reader.  A transaction that has taken
    its read timestamp 3 but is not registered yet, and a statement outside a
    transaction that reads at the timestamp 3 it allocated, are not counted: the
    horizon read then is 6, and a compaction with it drops the version both of
    them should see. *)
Lemma gc_horizon_misses_readers :
  let m := bootstrap_min_next_ts 3 new_manager in
  let m1 := (fetch_txn_id m).1 in
  let m2 := bootstrap_min_next_ts 6 (allocate_ts m1).1 in
  (allocate_ts m).2 = 3 /\
  min_active_read_ts m2 = 6 /\
  (fun r => read_ts r) <$> txns (begin_register 1 (allocate_ts m1).2 m2) !! 1 = Some 3 /\
  min_active_read_ts (begin_register 1 (allocate_ts m1).2 m2) = 3 /\
  best 3 (VInt 1) [new_version; old_version] = Some old_version /\
  best 3 (VInt 1) (compact_merge (min_active_read_ts m2) [new_version] [old_version]) = None.
Proof. vm_compute. auto 10. Qed.
