(* ===== verification/Locks.v ===== *)
(** The two lock managers of [src/txn]: the row write locks of
    [row_lock_manager.cpp], which report a conflict at once, and the table locks of
    [lock_manager.cpp], which block and are taken by scope guards. *)
From Stdlib Require Import ZArith Lia Sorted.
From stdpp Require Import base numbers list gmap relations sorting strings.
From S2P Require Import Prelude Values.
Local Open Scope Z_scope.

(** * Row locks *)

Module RowLock.

(** [unordered_map<Value, uint64_t, ValueHash, ValueEq>] as an association list. *)
Abbreviation row_map := (list (Value * Z)).

Record RowLockManager := mkRowLocks {
  by_row : gmap bytes row_map;
  by_txn : gmap Z (list (bytes * Value))
}.
Definition no_locks : RowLockManager := mkRowLocks ∅ ∅.

Fixpoint row_find (k : Value) (m : row_map) : option Z :=
  match m with
  | [] => None
  | (k', t) :: m => if ValueEq k k' then Some t else row_find k m
  end.

Fixpoint row_erase (k : Value) (m : row_map) : row_map :=
  match m with
  | [] => []
  | (k', t) :: m => if ValueEq k k' then m else (k', t) :: row_erase k m
  end.

(** Nothing when the lock was granted, otherwise the transaction that holds it. *)
Definition try_acquire (table : bytes) (k : Value) (txn : Z) (l : RowLockManager) : RowLockManager * option Z :=
  let m := default [] (by_row l !! table) in
  match row_find k m with
  | None => (mkRowLocks (<[table := (k, txn) :: m]> (by_row l))
                        (<[txn := default [] (by_txn l !! txn) ++ [(table, k)]]> (by_txn l)), None)
  | Some owner =>
      (mkRowLocks (<[table := m]> (by_row l)) (by_txn l), if owner =? txn then None else Some owner)
  end.

(** One round of the loop of [release_all]. *)
Definition release_one (txn : Z) (rows : gmap bytes row_map) (tk : bytes * Value) : gmap bytes row_map :=
  match rows !! tk.1 with
  | None => rows
  | Some m =>
      let m' := if decide (row_find tk.2 m = Some txn) then row_erase tk.2 m else m in
      if decide (m' = []) then delete tk.1 rows else <[tk.1 := m']> rows
  end.

Definition release_all (txn : Z) (l : RowLockManager) : RowLockManager :=
  match by_txn l !! txn with
  | None => l
  | Some ks => mkRowLocks (foldl (release_one txn) (by_row l) ks) (delete txn (by_txn l))
  end.

Definition held_count (l : RowLockManager) : nat :=
  map_fold (fun _ m n => (n + length m)%nat) 0%nat (by_row l).

(** ** What it promises: each row has at most one owner *)

Definition owners := bytes -> Value -> option Z.

Inductive op := Acquire (table : bytes) (k : Value) (txn : Z) | Release (txn : Z).
Definition op_ok (o : op) : Prop := match o with Acquire _ k _ => key_ok k | Release _ => True end.

Definition spec_step (o : op) (f : owners) : owners * option Z :=
  match o with
  | Acquire t k x =>
      match f t k with
      | None => (fun t' k' => if decide (t' = t /\ k' = k) then Some x else f t' k', None)
      | Some y => (f, if y =? x then None else Some y)
      end
  | Release x => (fun t k => if decide (f t k = Some x) then None else f t k, None)
  end.

Definition impl_step (o : op) (l : RowLockManager) : RowLockManager * option Z :=
  match o with
  | Acquire t k x => try_acquire t k x l
  | Release x => (release_all x l, None)
  end.

(** The results of a sequence of operations, and the state after them. *)
Fixpoint run {S : Type} (stp : op -> S -> S * option Z) (os : list op) (s : S) : S * list (option Z) :=
  match os with
  | [] => (s, [])
  | o :: os => let (s1, r) := stp o s in let (s2, rs) := run stp os s1 in (s2, r :: rs)
  end.

Definition owner (rows : gmap bytes row_map) (t : bytes) (k : Value) : option Z :=
  row_find k (default [] (rows !! t)).

(** Keys of a row map are distinct, and a lock held by a transaction is in its list. *)
Record locks_ok (l : RowLockManager) : Prop := {
  ok_rows : forall t m, by_row l !! t = Some m -> NoDup m.*1 /\ Forall key_ok m.*1;
  ok_listed : forall t k x, key_ok k -> owner (by_row l) t k = Some x ->
    exists ks, by_txn l !! x = Some ks /\ (t, k) ∈ ks;
  ok_keys : forall x ks, by_txn l !! x = Some ks -> Forall (fun tk => key_ok tk.2) ks
}.

Lemma row_find_is_Some k m : key_ok k -> Forall key_ok m.*1 -> is_Some (row_find k m) <-> k ∈ m.*1.
Proof.
  intros Hk. induction m as [|[k' t] m IH]; cbn; intros Hm.
  - split; [by intros [? ?] | inversion 1].
  - apply Forall_cons in Hm as [Hk' Hm]. rewrite elem_of_cons.
    destruct (ValueEq k k') eqn:E.
    + apply ValueEq_eq in E; auto. naive_solver.
    + rewrite IH by assumption. split; [auto|]. intros [-> | ?]; [|done].
      by rewrite ValueEq_refl in E.
Qed.

Lemma row_find_erase k k' m :
  key_ok k -> key_ok k' -> NoDup m.*1 -> Forall key_ok m.*1 ->
  row_find k' (row_erase k m) = if decide (k' = k) then None else row_find k' m.
Proof.
  intros Hk Hk'. induction m as [|[k0 t] m IH]; cbn; intros Hnd Hm; [by case_decide|].
  apply Forall_cons in Hm as [Hk0 Hm]. apply NoDup_cons in Hnd as [Hni Hnd].
  destruct (ValueEq k k0) eqn:E.
  - apply ValueEq_eq in E as <-; auto. case_decide as D; [subst|].
    + apply eq_None_not_Some. by rewrite row_find_is_Some.
    + destruct (ValueEq k' k) eqn:E; [|reflexivity]. apply ValueEq_eq in E; naive_solver.
  - cbn. destruct (ValueEq k' k0) eqn:E'; [|auto]. case_decide as D; [subst; congruence | reflexivity].
Qed.

Lemma row_erase_keys k m :
  NoDup m.*1 /\ Forall key_ok m.*1 -> NoDup (row_erase k m).*1 /\ Forall key_ok (row_erase k m).*1.
Proof.
  intros [H1 H2]. assert (Hsub : (row_erase k m).*1 `sublist_of` m.*1).
  { clear. induction m as [|[k' t] m IH]; cbn; [constructor|]. destruct (ValueEq k k'); cbn; by constructor. }
  split; [by eapply sublist_NoDup | by eapply Forall_sublist].
Qed.

(** One round releases the row if the transaction owns it and touches no other. *)
Lemma release_one_spec txn rows tk :
  key_ok tk.2 -> (forall t m, rows !! t = Some m -> NoDup m.*1 /\ Forall key_ok m.*1) ->
  (forall t m, release_one txn rows tk !! t = Some m -> NoDup m.*1 /\ Forall key_ok m.*1) /\
  forall t k, key_ok k -> owner (release_one txn rows tk) t k =
    if decide ((t, k) = tk /\ owner rows t k = Some txn) then None else owner rows t k.
Proof.
  intros Hk Hrows. destruct tk as [t0 k0]. cbn in Hk. unfold release_one, owner. cbn [fst snd].
  destruct (rows !! t0) as [m|] eqn:E.
  2:{ split; [exact Hrows|]. intros t k Hk'. case_decide as D; [|reflexivity].
      destruct D as [D Ho]. simplify_eq. rewrite E in Ho. discriminate. }
  pose proof (Hrows _ _ E) as Hm.
  set (m' := if decide (row_find k0 m = Some txn) then row_erase k0 m else m).
  assert (Hm' : NoDup m'.*1 /\ Forall key_ok m'.*1) by (unfold m'; case_decide; auto using row_erase_keys).
  assert (Hf : forall k, key_ok k -> row_find k m' = if decide (k = k0 /\ row_find k m = Some txn) then None else row_find k m).
  { intros k Hk'. unfold m'. case_decide as D.
    - rewrite row_find_erase by tauto. repeat case_decide; naive_solver.
    - case_decide; [naive_solver | reflexivity]. }
  assert (Hown : forall (rows' : gmap bytes row_map) t k, key_ok k -> default [] (rows' !! t0) = m' -> (t <> t0 -> rows' !! t = rows !! t) ->
    row_find k (default [] (rows' !! t)) =
    if decide ((t, k) = (t0, k0) /\ row_find k (default [] (rows !! t)) = Some txn) then None
    else row_find k (default [] (rows !! t))).
  { intros rows' t k Hk' E0 Ene. destruct (decide (t = t0)) as [-> | N].
    - rewrite E0, Hf, E by assumption. cbn. repeat case_decide; naive_solver.
    - rewrite Ene by assumption. case_decide; naive_solver. }
  case_decide as D; split.
  - intros t m1 H. apply lookup_delete_Some in H as [_ H]. eauto.
  - intros t k Hk'. apply Hown; [done | by rewrite lookup_delete_eq, D | intros; by rewrite lookup_delete_ne].
  - intros t m1 H. apply lookup_insert_Some in H as [[_ <-] | [_ H]]; eauto.
  - intros t k Hk'. apply Hown; [done | by rewrite lookup_insert_eq | intros; by rewrite lookup_insert_ne].
Qed.

Lemma release_fold_spec txn ks rows :
  Forall (fun tk => key_ok tk.2) ks -> (forall t m, rows !! t = Some m -> NoDup m.*1 /\ Forall key_ok m.*1) ->
  (forall t m, foldl (release_one txn) rows ks !! t = Some m -> NoDup m.*1 /\ Forall key_ok m.*1) /\
  forall t k, key_ok k -> owner (foldl (release_one txn) rows ks) t k =
    if decide ((t, k) ∈ ks /\ owner rows t k = Some txn) then None else owner rows t k.
Proof.
  revert rows. induction ks as [|tk ks IH]; cbn; intros rows Hks Hrows.
  - split; [done|]. intros. case_decide; [|done]. set_solver.
  - apply Forall_cons in Hks as [Hk Hks]. destruct (release_one_spec txn rows tk Hk Hrows) as [H1 H2].
    destruct (IH _ Hks H1) as [H3 H4]. split; [exact H3|]. intros t k Hk'.
    rewrite H4, H2 by assumption. repeat case_decide; rewrite ?elem_of_cons in *; naive_solver.
Qed.

Lemma acquire_ok t k x l (f : owners) :
  key_ok k -> locks_ok l -> (forall t' k', key_ok k' -> owner (by_row l) t' k' = f t' k') ->
  let (l', r) := try_acquire t k x l in let (f', r') := spec_step (Acquire t k x) f in
  locks_ok l' /\ r = r' /\ forall t' k', key_ok k' -> owner (by_row l') t' k' = f' t' k'.
Proof.
  intros Hk [Hr Hl Hks] Hf. unfold try_acquire, spec_step. rewrite <- (Hf t k Hk). unfold owner at 1.
  assert (Hm : NoDup (default [] (by_row l !! t)).*1 /\ Forall key_ok (default [] (by_row l !! t)).*1).
  { destruct (by_row l !! t) eqn:E; cbn; [eauto | split; constructor]. }
  assert (Hsame : forall t' k', row_find k' (default [] (<[t := default [] (by_row l !! t)]> (by_row l) !! t'))
                    = owner (by_row l) t' k').
  { intros t' k'. unfold owner. destruct (decide (t = t')) as [-> | N];
      [by rewrite lookup_insert_eq | by rewrite lookup_insert_ne]. }
  destruct (row_find k (default [] (by_row l !! t))) as [y|] eqn:E.
  - split; [|split; [reflexivity | intros; cbn; unfold owner at 1; rewrite Hsame; auto]]. split; cbn; [| |done].
    + intros t' m H. apply lookup_insert_Some in H as [[_ <-] | [_ H]]; eauto.
    + intros t' k' x' Hk' H. unfold owner in H. rewrite Hsame in H. eauto.
  - assert (Hni : k ∉ (default [] (by_row l !! t)).*1)
      by (rewrite <- row_find_is_Some by tauto; rewrite E; by intros [? ?]).
    assert (Hown : forall t' k', key_ok k' ->
      owner (<[t := (k, x) :: default [] (by_row l !! t)]> (by_row l)) t' k'
      = if decide (t' = t /\ k' = k) then Some x else owner (by_row l) t' k').
    { intros t' k' Hk'. unfold owner. destruct (decide (t = t')) as [<- | N].
      - rewrite lookup_insert_eq. cbn. destruct (ValueEq k' k) eqn:E'.
        + apply ValueEq_eq in E' as ->; auto. case_decide; naive_solver.
        + case_decide as D; [|done]. destruct D as [_ ->]. by rewrite ValueEq_refl in E'.
      - rewrite lookup_insert_ne by assumption. case_decide; naive_solver. }
    split; [|split; [reflexivity | cbn; intros; rewrite Hown by assumption; case_decide; auto]]. split; cbn.
    + intros t' m H. apply lookup_insert_Some in H as [[_ <-] | [_ H]]; [|eauto].
      cbn. split; constructor; tauto.
    + intros t' k' x' Hk' H. rewrite Hown in H by assumption. case_decide as D.
      * simplify_eq. destruct D as [-> ->]. rewrite lookup_insert_eq. eexists. split; [done|]. set_solver.
      * destruct (Hl _ _ _ Hk' H) as (ks & H1 & H2). destruct (decide (x = x')) as [<- | N].
        -- rewrite lookup_insert_eq, H1. eexists. split; [done|]. set_solver.
        -- rewrite lookup_insert_ne by assumption. eauto.
    + intros x' ks H. apply lookup_insert_Some in H as [[_ <-] | [_ H]]; [|eauto].
      apply Forall_app. split; [|by repeat constructor]. destruct (by_txn l !! x) eqn:E'; cbn; [eauto | constructor].
Qed.

Lemma release_ok x l (f : owners) :
  locks_ok l -> (forall t k, key_ok k -> owner (by_row l) t k = f t k) ->
  locks_ok (release_all x l) /\
  forall t k, key_ok k -> owner (by_row (release_all x l)) t k = (spec_step (Release x) f).1 t k.
Proof.
  intros [Hr Hl Hks] Hf. unfold release_all. cbn. destruct (by_txn l !! x) as [ks|] eqn:E.
  - destruct (release_fold_spec x ks (by_row l) (Hks _ _ E) Hr) as [H1 H2].
    assert (Hown : forall t k, key_ok k -> owner (foldl (release_one x) (by_row l) ks) t k
                     = if decide (f t k = Some x) then None else f t k).
    { intros t k Hk. rewrite H2, Hf by assumption. case_decide as D1; case_decide as D2; try tauto.
      destruct (Hl t k x Hk) as (ks' & H & ?); [by rewrite Hf|]. rewrite E in H. simplify_eq. tauto. }
    split; [split; cbn|exact Hown].
    + exact H1.
    + intros t k x' Hk H. rewrite Hown in H by assumption. case_decide; [discriminate|].
      rewrite <- Hf in * by assumption. destruct (Hl _ _ _ Hk H) as (ks' & ? & ?).
      exists ks'. rewrite lookup_delete_ne by congruence. auto.
    + intros x' ks' H. apply lookup_delete_Some in H as [_ H]. eauto.
  - split; [by split|]. intros t k Hk. rewrite Hf by assumption. case_decide as D; [|reflexivity].
    destruct (Hl t k x Hk) as (ks' & ? & ?); [by rewrite Hf | congruence].
Qed.

Lemma run_refines os l (f : owners) :
  Forall op_ok os -> locks_ok l -> (forall t k, key_ok k -> owner (by_row l) t k = f t k) ->
  (run impl_step os l).2 = (run spec_step os f).2 /\
  forall t k, key_ok k -> owner (by_row (run impl_step os l).1) t k = (run spec_step os f).1 t k.
Proof.
  revert l f. induction os as [|o os IH]; intros l f Hos Hl Hf; cbn; [auto|].
  apply Forall_cons in Hos as [Ho Hos].
  assert (Hstep : locks_ok (impl_step o l).1 /\ (impl_step o l).2 = (spec_step o f).2 /\
            forall t k, key_ok k -> owner (by_row (impl_step o l).1) t k = (spec_step o f).1 t k).
  { destruct o as [t k x|x]; cbn [impl_step].
    - pose proof (acquire_ok t k x l f Ho Hl Hf). destruct (try_acquire t k x l), (spec_step _ f). done.
    - destruct (release_ok x l f Hl Hf). done. }
  destruct (impl_step o l) as [l1 r], (spec_step o f) as [f1 r'], Hstep as (H1 & H2 & H3). cbn in *. subst r'.
  destruct (IH l1 f1 Hos H1 H3) as [H4 H5].
  destruct (run impl_step os l1), (run spec_step os f1). cbn in *. subst. auto.
Qed.

Lemma no_locks_ok : locks_ok no_locks.
Proof. split; cbn; intros *; unfold owner; rewrite ?lookup_empty; cbn; discriminate. Qed.

End RowLock.

(** * Table locks *)

Module TableLocks.

Inductive LockMode := Shared | Exclusive.
#[export] Instance LockMode_eq_dec : EqDecision LockMode.
Proof. solve_decision. Defined.

(** A [std::shared_mutex] by the threads that own it. *)
Record TableLock := mkLock { writer : option nat; readers : gset nat }.
Definition unlocked : TableLock := mkLock None ∅.

(** [lock] and [lock_shared]: nothing while the caller has to wait. *)
Definition lock_as (m : LockMode) (t : nat) (l : TableLock) : option TableLock :=
  match m, writer l with
  | Exclusive, None => if decide (readers l = ∅) then Some (mkLock (Some t) ∅) else None
  | Shared, None => Some (mkLock None ({[t]} ∪ readers l))
  | _, Some _ => None
  end.

Definition unlock_as (m : LockMode) (t : nat) (l : TableLock) : TableLock :=
  match m with
  | Exclusive => mkLock None (readers l)
  | Shared => mkLock (writer l) (readers l ∖ {[t]})
  end.

(** The 32 shards hold disjoint sets of names (the shard is a function of the
    name), so that together they are one map. *)
Record LockManager := mkManager {
  table_locks : gmap bytes TableLock;
  global_lock : TableLock
}.

Definition get_table_lock (n : bytes) (lm : LockManager) : option TableLock := table_locks lm !! n.
Definition get_or_create_table_lock (n : bytes) (lm : LockManager) : TableLock :=
  default unlocked (table_locks lm !! n).
Definition remove_table_lock (n : bytes) (lm : LockManager) : LockManager :=
  mkManager (delete n (table_locks lm)) (global_lock lm).

Definition lock_table (m : LockMode) (n : bytes) (t : nat) (lm : LockManager) : option LockManager :=
  l ← lock_as m t (get_or_create_table_lock n lm);
  Some (mkManager (<[n := l]> (table_locks lm)) (global_lock lm)).

Definition unlock_table (m : LockMode) (n : bytes) (t : nat) (lm : LockManager) : LockManager :=
  match get_table_lock n lm with
  | Some l => mkManager (<[n := unlock_as m t l]> (table_locks lm)) (global_lock lm)
  | None => lm
  end.

Definition lock_global (m : LockMode) (t : nat) (lm : LockManager) : option LockManager :=
  l ← lock_as m t (global_lock lm); Some (mkManager (table_locks lm) l).
Definition unlock_global (m : LockMode) (t : nat) (lm : LockManager) : LockManager :=
  mkManager (table_locks lm) (unlock_as m t (global_lock lm)).

(** [std::sort] of the names. *)
Fixpoint insert_name (n : bytes) (l : list bytes) : list bytes :=
  match l with
  | [] => [n]
  | x :: l => if bytes_lt x n then x :: insert_name n l else n :: x :: l
  end.
Definition sort_names (l : list bytes) : list bytes := foldr insert_name [] l.

(** ** Scope guards *)

(** A [MultiTableLockGuard] in its constructor, with the names still to lock and
    those locked, last first; after the body it unlocks them in that order.  A
    [TableLockGuard] is a guard of one name. *)
Inductive guard :=
| Acquiring (todo held : list bytes)
| Releasing (held : list bytes).

Record sys := mkSys { locks : LockManager; guards : gmap nat (LockMode * guard) }.

Definition MultiTableLockGuard (names : list bytes) : guard := Acquiring (sort_names names) [].

Inductive step : sys -> sys -> Prop :=
| step_acquire s t m n todo held lm :
    guards s !! t = Some (m, Acquiring (n :: todo) held) -> lock_table m n t (locks s) = Some lm ->
    step s (mkSys lm (<[t := (m, Acquiring todo (n :: held))]> (guards s)))
| step_body s t m held :
    guards s !! t = Some (m, Acquiring [] held) ->
    step s (mkSys (locks s) (<[t := (m, Releasing held)]> (guards s)))
| step_release s t m n held :
    guards s !! t = Some (m, Releasing (n :: held)) ->
    step s (mkSys (unlock_table m n t (locks s)) (<[t := (m, Releasing held)]> (guards s))).

Definition held_names (g : guard) : list bytes :=
  match g with Acquiring _ held => held | Releasing held => held end.
Definition todo_names (g : guard) : list bytes :=
  match g with Acquiring todo _ => todo | Releasing _ => [] end.
Definition finished (s : sys) : Prop := forall t m g, guards s !! t = Some (m, g) -> g = Releasing [].

(** One guard per thread, each over distinct names; no lock is taken. *)
Definition start (gs : gmap nat (LockMode * list bytes)) : sys :=
  mkSys (mkManager ∅ unlocked) ((fun mn => (mn.1, MultiTableLockGuard mn.2)) <$> gs).

(** The owners of a lock are the threads whose guards hold its name, in their
    mode; what a guard still wants comes after all it holds. *)
Definition holds (s : sys) (t : nat) (m : LockMode) (n : bytes) : Prop :=
  exists g, guards s !! t = Some (m, g) /\ n ∈ held_names g.

Record sys_ok (s : sys) : Prop := {
  ok_writer : forall n t, writer (get_or_create_table_lock n (locks s)) = Some t <-> holds s t Exclusive n;
  ok_readers : forall n t, t ∈ readers (get_or_create_table_lock n (locks s)) <-> holds s t Shared n;
  ok_exclusive : forall n t, holds s t Exclusive n -> readers (get_or_create_table_lock n (locks s)) = ∅;
  ok_order : forall t m g, guards s !! t = Some (m, g) ->
    StronglySorted (fun a b => bytes_lt a b = true) (reverse (held_names g) ++ todo_names g)
}.

Lemma get_insert n n' l tl g :
  get_or_create_table_lock n' (mkManager (<[n := l]> tl) g)
  = if decide (n' = n) then l else get_or_create_table_lock n' (mkManager tl g).
Proof.
  unfold get_or_create_table_lock. cbn. case_decide as D.
  - subst. by rewrite lookup_insert_eq.
  - by rewrite lookup_insert_ne by congruence.
Qed.

Lemma manager_eta lm : mkManager (table_locks lm) (global_lock lm) = lm.
Proof. by destruct lm. Qed.

Lemma holds_update s t m g g' lm t' m' n :
  guards s !! t = Some (m, g) ->
  holds (mkSys lm (<[t := (m, g')]> (guards s))) t' m' n <->
  (t' = t /\ m' = m /\ n ∈ held_names g') \/ (t' <> t /\ holds s t' m' n).
Proof.
  intros E. unfold holds. cbn. destruct (decide (t' = t)) as [-> | N].
  - rewrite lookup_insert_eq. naive_solver.
  - rewrite lookup_insert_ne by congruence. naive_solver.
Qed.

Lemma holds_self s t m g m' n :
  guards s !! t = Some (m, g) -> holds s t m' n <-> m' = m /\ n ∈ held_names g.
Proof. intros E. unfold holds. rewrite E. naive_solver. Qed.

Lemma order_update s t (m : LockMode) g' (gs := <[t := (m, g')]> (guards s)) :
  sys_ok s ->
  StronglySorted (fun a b => bytes_lt a b = true) (reverse (held_names g') ++ todo_names g') ->
  forall t' m' g0, gs !! t' = Some (m', g0) ->
    StronglySorted (fun a b => bytes_lt a b = true) (reverse (held_names g0) ++ todo_names g0).
Proof.
  intros Hok Hs t' m' g0 H. apply lookup_insert_Some in H as [[_ H] | [_ H]].
  - by simplify_eq.
  - by eapply ok_order.
Qed.

Lemma names_NoDup (l : list bytes) : StronglySorted (fun a b => bytes_lt a b = true) l -> NoDup l.
Proof.
  induction 1 as [|x l _ IH H]; constructor; [|assumption]. intros Hin.
  rewrite Forall_forall in H. specialize (H _ Hin). by rewrite bytes_lt_irrefl in H.
Qed.

Lemma guard_acquire_ok s t m n todo held lm :
  sys_ok s -> guards s !! t = Some (m, Acquiring (n :: todo) held) -> lock_table m n t (locks s) = Some lm ->
  sys_ok (mkSys lm (<[t := (m, Acquiring todo (n :: held))]> (guards s))).
Proof.
  intros Hok Hg Hl. pose proof Hok as [Hw Hr Hx Ho]. unfold lock_table in Hl.
  destruct (lock_as m t _) as [l|] eqn:El; cbn in Hl; [|discriminate]. injection Hl as <-.
  assert (Hh : forall t' m' n', holds (mkSys (mkManager (<[n := l]> (table_locks (locks s))) (global_lock (locks s)))
      (<[t := (m, Acquiring todo (n :: held))]> (guards s))) t' m' n'
      <-> holds s t' m' n' \/ (t' = t /\ m' = m /\ n' = n)).
  { intros t' m' n'. rewrite (holds_update _ _ _ _ _ _ _ _ _ Hg). cbn [held_names]. rewrite elem_of_cons.
    pose proof (holds_self _ _ _ _ m' n' Hg) as Hs. cbn [held_names] in Hs. destruct (decide (t' = t)); naive_solver. }
  assert (Hfree : forall t', ~ holds s t' Exclusive n).
  { intros t'. rewrite <- Hw. unfold lock_as in El. destruct m, (writer _); congruence. }
  assert (El' : match m with Shared => l = mkLock None ({[t]} ∪ readers (get_or_create_table_lock n (locks s)))
                | Exclusive => l = mkLock (Some t) ∅ /\ readers (get_or_create_table_lock n (locks s)) = ∅ end).
  { unfold lock_as in El. destruct m, (writer _); try discriminate; [congruence|].
    case_decide; [split; [congruence | assumption] | discriminate]. }
  split; cbn [locks guards]; [| | |apply order_update; [exact Hok|]].
  - intros n' t'. rewrite get_insert, manager_eta, Hh. case_decide as D; [subst n' | rewrite Hw; tauto].
    specialize (Hfree t'). destruct m; [subst l | destruct El' as [-> _]]; cbn.
    + split; [discriminate | intros [? | (_ & ? & _)]; [tauto | discriminate]].
    + split; [injection 1 as <-; auto | intros [? | (-> & _)]; [tauto | reflexivity]].
  - intros n' t'. rewrite get_insert, manager_eta, Hh. case_decide as D; [subst n' | rewrite Hr; tauto].
    destruct m; [subst l | destruct El' as [-> Hempty]]; cbn.
    + rewrite elem_of_union, elem_of_singleton, Hr. tauto.
    + rewrite <- Hr, Hempty. split; [set_solver|]. intros [? | (_ & ? & _)]; [set_solver | discriminate].
  - intros n' t'. rewrite get_insert, manager_eta, Hh. case_decide as D.
    + subst n'. specialize (Hfree t'). intros [? | (_ & <- & _)]; [tauto|]. by destruct El' as [-> _].
    + intros [H | (_ & _ & ?)]; [eapply Hx, H | congruence].
  - pose proof (Ho _ _ _ Hg) as H. cbn [held_names todo_names] in *. by rewrite reverse_cons, <- app_assoc.
Qed.

Lemma guard_release_ok s t m n held :
  sys_ok s -> guards s !! t = Some (m, Releasing (n :: held)) ->
  sys_ok (mkSys (unlock_table m n t (locks s)) (<[t := (m, Releasing held)]> (guards s))).
Proof.
  intros Hok Hg. pose proof Hok as [Hw Hr Hx Ho].
  pose proof (Ho _ _ _ Hg) as Hsort. cbn [held_names todo_names] in Hsort.
  rewrite app_nil_r, reverse_cons in Hsort.
  assert (Hni : n ∉ held).
  { apply names_NoDup in Hsort. apply NoDup_app in Hsort as (_ & Hd & _).
    intros Hin. apply (Hd n); [by apply elem_of_reverse | set_solver]. }
  assert (Hself : holds s t m n) by (eexists; split; [exact Hg | cbn; set_solver]).
  assert (Hh : forall lm t' m' n', holds (mkSys lm (<[t := (m, Releasing held)]> (guards s))) t' m' n'
      <-> holds s t' m' n' /\ ~ (t' = t /\ n' = n)).
  { intros lm t' m' n'. rewrite (holds_update _ _ _ _ _ _ _ _ _ Hg). cbn [held_names].
    pose proof (holds_self _ _ _ _ m' n' Hg) as Hs. cbn [held_names] in Hs. rewrite elem_of_cons in Hs.
    destruct (decide (t' = t)); naive_solver. }
  unfold unlock_table, get_table_lock. destruct (table_locks (locks s) !! n) as [l|] eqn:El.
  2:{ exfalso. destruct m; [apply Hr in Hself | apply Hw in Hself];
        unfold get_or_create_table_lock in Hself; rewrite El in Hself; cbn in Hself; [set_solver | discriminate]. }
  assert (Eg : get_or_create_table_lock n (locks s) = l) by (unfold get_or_create_table_lock; by rewrite El).
  split; cbn [locks guards]; [| | |apply order_update; [exact Hok|]].
  - intros n' t'. rewrite get_insert, manager_eta, Hh. case_decide as D; [subst n' | rewrite Hw; tauto].
    rewrite <- Hw, Eg. destruct m; cbn.
    + split; [|tauto]. intros H. split; [assumption|]. intros [-> _].
      assert (Hwt : holds s t Exclusive n) by (apply Hw; by rewrite Eg).
      apply (holds_self _ _ _ _ _ _ Hg) in Hwt as [? _]. discriminate.
    + apply Hw in Hself. rewrite Eg in Hself. rewrite Hself. split; [discriminate|].
      intros [H N]. simplify_eq. tauto.
  - intros n' t'. rewrite get_insert, manager_eta, Hh. case_decide as D; [subst n' | rewrite Hr; tauto].
    rewrite <- Hr, Eg. destruct m; cbn.
    + rewrite elem_of_difference, elem_of_singleton. tauto.
    + apply Hx in Hself. rewrite Eg in Hself. rewrite Hself. set_solver.
  - intros n' t'. rewrite get_insert, manager_eta, Hh. intros [H N]. case_decide as D; [subst n' | by eapply Hx].
    apply Hx in H. rewrite Eg in H. destruct m; cbn; set_solver.
  - cbn [held_names todo_names]. rewrite app_nil_r. by apply StronglySorted_app in Hsort as (_ & ? & _).
Qed.

Lemma body_ok s t m held :
  sys_ok s -> guards s !! t = Some (m, Acquiring [] held) ->
  sys_ok (mkSys (locks s) (<[t := (m, Releasing held)]> (guards s))).
Proof.
  intros Hok Hg. pose proof Hok as [Hw Hr Hx Ho].
  assert (Hh : forall t' m' n', holds (mkSys (locks s) (<[t := (m, Releasing held)]> (guards s))) t' m' n' <-> holds s t' m' n').
  { intros t' m' n'. rewrite (holds_update _ _ _ _ _ _ _ _ _ Hg). pose proof (holds_self _ _ _ _ m' n' Hg) as Hs.
    cbn [held_names] in *. destruct (decide (t' = t)); naive_solver. }
  split; cbn [locks guards]; [| | |apply order_update; [exact Hok | apply (Ho _ _ _ Hg)]];
    intros n' t'; rewrite Hh; first [apply Hw | apply Hr | apply Hx].
Qed.

Lemma guard_step_ok s s' : sys_ok s -> step s s' -> sys_ok s'.
Proof. intros Hok Hs. destruct Hs; eauto using guard_acquire_ok, guard_release_ok, body_ok. Qed.

(** ** Sorting *)

Lemma insert_name_perm n l : insert_name n l ≡ₚ n :: l.
Proof.
  induction l as [|x l IH]; cbn; [done|]. destruct (bytes_lt x n); [|done]. rewrite IH. constructor.
Qed.

Lemma sort_names_perm l : sort_names l ≡ₚ l.
Proof. induction l as [|x l IH]; cbn; [done|]. by rewrite insert_name_perm, IH. Qed.

Lemma insert_name_sorted n l :
  n ∉ l -> StronglySorted (fun a b => bytes_lt a b = true) l ->
  StronglySorted (fun a b => bytes_lt a b = true) (insert_name n l).
Proof.
  intros Hn. induction 1 as [|x l Hs IH Hx]; cbn; [repeat constructor|].
  apply not_elem_of_cons in Hn as [Hne Hn]. destruct (bytes_lt x n) eqn:E.
  - constructor; [auto|]. rewrite insert_name_perm. by constructor.
  - assert (Hnx : bytes_lt n x = true) by (destruct (bytes_lt_total n x) as [? | [? | ?]]; congruence).
    constructor; [by constructor|]. constructor; [assumption|].
    eapply Forall_impl; [exact Hx|]. intros y. cbn. by apply bytes_lt_trans.
Qed.

Lemma sort_names_sorted l : NoDup l -> StronglySorted (fun a b => bytes_lt a b = true) (sort_names l).
Proof.
  induction 1 as [|x l Hx _ IH]; cbn; [constructor|]. apply insert_name_sorted; [|assumption].
  by rewrite sort_names_perm.
Qed.

Definition distinct_names (gs : gmap nat (LockMode * list bytes)) : Prop :=
  forall t m names, gs !! t = Some (m, names) -> NoDup names.

Lemma start_ok gs : distinct_names gs -> sys_ok (start gs).
Proof.
  intros Hd.
  assert (Hg : forall t m g, guards (start gs) !! t = Some (m, g) ->
             exists names, NoDup names /\ g = Acquiring (sort_names names) []).
  { intros t m g. unfold start. cbn. rewrite lookup_fmap. intros H.
    destruct (gs !! t) as [[m' names]|] eqn:E; cbn in H; [|discriminate]. simplify_eq. eauto. }
  assert (Hn : forall t m n, ~ holds (start gs) t m n).
  { intros t m n (g & H & Hin). apply Hg in H as (names & _ & ->). cbn in Hin. set_solver. }
  assert (Hl : forall n, get_or_create_table_lock n (locks (start gs)) = unlocked)
    by (intros; unfold get_or_create_table_lock; cbn; by rewrite lookup_empty).
  split; intros *; rewrite ?Hl; cbn.
  - split; [discriminate | intros H; by apply Hn in H].
  - split; [set_solver | intros H; by apply Hn in H].
  - done.
  - intros H. apply Hg in H as (names & Hnd & ->). cbn. by apply sort_names_sorted.
Qed.

(** ** Progress *)

(** The work left: every step does one unit of it. *)
Definition guard_work (g : guard) : nat :=
  match g with
  | Acquiring todo held => 2 * length todo + length held + 1
  | Releasing held => length held
  end.
Definition work (s : sys) : nat := map_fold (fun _ mg n => (guard_work mg.2 + n)%nat) 0%nat (guards s).

Lemma work_update s lm t m g g' :
  guards s !! t = Some (m, g) ->
  (work (mkSys lm (<[t := (m, g')]> (guards s))) + guard_work g = work s + guard_work g')%nat.
Proof.
  intros E. unfold work. cbn. rewrite <- insert_delete_eq.
  rewrite (map_fold_delete_L _ _ t (m, g) (guards s)) by (try done; intros; lia).
  rewrite map_fold_insert_L; [cbn; lia | intros; lia | apply lookup_delete_eq].
Qed.

Lemma step_work s s' : step s s' -> (work s = S (work s'))%nat.
Proof.
  intros H. destruct H as [s t m n todo held lm E _ | s t m held E | s t m n held E];
    pose proof (fun lm g' => work_update s lm t m _ g' E) as W; cbn [guard_work length] in W.
  - specialize (W lm (Acquiring todo (n :: held))). cbn [guard_work length] in W. lia.
  - specialize (W (locks s) (Releasing held)). cbn [guard_work length] in W. lia.
  - specialize (W (unlock_table m n t (locks s)) (Releasing held)). cbn [guard_work length] in W. lia.
Qed.

Lemma list_max (l : list bytes) : l <> [] -> exists x, x ∈ l /\ Forall (fun y => bytes_lt x y = false) l.
Proof.
  induction l as [|a l IH]; [done|]. intros _. destruct (decide (l = [])) as [-> | N].
  - exists a. split; [set_solver|]. repeat constructor. apply bytes_lt_irrefl.
  - destruct (IH N) as (x & Hx & Hmax). destruct (bytes_lt x a) eqn:E.
    + exists a. split; [set_solver|]. constructor; [apply bytes_lt_irrefl|].
      eapply Forall_impl; [exact Hmax|]. cbn. intros y Hy. destruct (bytes_lt a y) eqn:E'; [|done].
      rewrite (bytes_lt_trans _ _ _ E E') in Hy. discriminate.
    + exists x. split; [set_solver | by constructor].
Qed.

(** The name a guard waits for. *)
Definition wanted (mg : LockMode * guard) : option bytes := head (todo_names mg.2).

Lemma blocked_by s t m n todo held :
  sys_ok s -> guards s !! t = Some (m, Acquiring (n :: todo) held) -> lock_table m n t (locks s) = None ->
  exists t' m', holds s t' m' n.
Proof.
  intros [Hw Hr _ _] Hg Hl. unfold lock_table in Hl.
  destruct (lock_as m t _) as [l|] eqn:E; [discriminate|]. unfold lock_as in E.
  destruct (writer (get_or_create_table_lock n (locks s))) as [t'|] eqn:Ew.
  - exists t', Exclusive. by apply Hw.
  - destruct m; [discriminate|]. case_decide as D; [discriminate|].
    apply set_choose_L in D as [t' Ht']. exists t', Shared. by apply Hr.
Qed.

(** Whether the next step of a thread can be made now. *)
Definition enabled (s : sys) (e : nat * (LockMode * guard)) : Prop :=
  match e.2.2 with
  | Acquiring (n :: _) _ => is_Some (lock_table e.2.1 n e.1 (locks s))
  | Acquiring [] _ => True
  | Releasing held => held <> []
  end.
#[export] Instance enabled_dec s e : Decision (enabled s e).
Proof. destruct e as [t [m [[|n todo] held | held]]]; cbn; apply _. Defined.

Lemma enabled_step s t mg : guards s !! t = Some mg -> enabled s (t, mg) -> exists s', step s s'.
Proof.
  destruct mg as [m [[|n todo] held | [|n held]]]; cbn; intros Hg H; try done; eauto using step.
  destruct H as [lm H]. eauto using step.
Qed.

(** If no thread can move, none has anything left: the guard that waits for the
    largest name would wait for a guard that waits for a larger one. *)
Lemma stuck_finished s :
  sys_ok s -> (forall t mg, guards s !! t = Some mg -> ~ enabled s (t, mg)) -> finished s.
Proof.
  intros Hok Hstuck.
  set (ws := omap (fun e => wanted e.2) (map_to_list (guards s))).
  assert (Hws : forall n, n ∈ ws <-> exists t m todo held, guards s !! t = Some (m, Acquiring (n :: todo) held)).
  { intros n. unfold ws. rewrite list_elem_of_omap. split.
    - intros ([t [m g]] & Hin & H). apply elem_of_map_to_list in Hin.
      destruct g as [[|n' todo] held | held]; cbn in H; simplify_eq. eauto.
    - intros (t & m & todo & held & H). exists (t, (m, Acquiring (n :: todo) held)).
      split; [by apply elem_of_map_to_list | done]. }
  assert (Hcase : forall t m g, guards s !! t = Some (m, g) -> g = Releasing [] \/
            exists n todo held, g = Acquiring (n :: todo) held /\ lock_table m n t (locks s) = None).
  { intros t m g Hg. specialize (Hstuck _ _ Hg). destruct g as [[|n todo] held | [|n held]]; cbn in Hstuck; auto;
      try (exfalso; by apply Hstuck).
    right. exists n, todo, held. split; [done|]. by apply eq_None_not_Some. }
  destruct (decide (ws = [])) as [E | N].
  - intros t m g Hg. destruct (Hcase _ _ _ Hg) as [-> | (n & todo & held & -> & _)]; [done|].
    exfalso. assert (Hn : n ∈ ws) by (apply Hws; eauto). rewrite E in Hn. set_solver.
  - exfalso. destruct (list_max ws N) as (x & Hx & Hmax). apply Hws in Hx as (t & m & todo & held & Hg).
    destruct (Hcase _ _ _ Hg) as [? | (n & todo' & held' & ? & Hl)]; simplify_eq.
    destruct (blocked_by _ _ _ _ _ _ Hok Hg Hl) as (t' & m' & g & Hg' & Hin).
    destruct (Hcase _ _ _ Hg') as [-> | (y & todo & held & -> & _)]; cbn in Hin; [set_solver|].
    pose proof (ok_order _ Hok _ _ _ Hg') as Hs. cbn [held_names todo_names] in Hs.
    rewrite Forall_forall in Hmax. assert (Hy : y ∈ ws) by (apply Hws; eauto). specialize (Hmax _ Hy).
    assert (bytes_lt n y = true); [|congruence].
    eapply (StronglySorted_app_1_elem_of _ _ _ n y Hs); [by apply elem_of_reverse | set_solver].
Qed.

Lemma progress s : sys_ok s -> finished s \/ exists s', step s s'.
Proof.
  intros Hok. destruct (decide (Exists (enabled s) (map_to_list (guards s)))) as [E | N].
  - right. apply Exists_exists in E as ([t mg] & Hin & He). apply elem_of_map_to_list in Hin.
    by eapply enabled_step.
  - left. apply stuck_finished; [assumption|]. intros t mg Hg He. apply N, Exists_exists.
    exists (t, mg). split; [by apply elem_of_map_to_list | assumption].
Qed.

Lemma reachable_ok_locks gs s : distinct_names gs -> rtc step (start gs) s -> sys_ok s.
Proof. intros Hd. revert s. apply rtc_ind_r; eauto using start_ok, guard_step_ok. Qed.

Lemma nsteps_work n s s' : nsteps step n s s' -> (n + work s' = work s)%nat.
Proof. induction 1 as [|n x y z H _ IH]; [lia|]. apply step_work in H. lia. Qed.

End TableLocks.

(** * Properties *)

(** C32: the row lock manager refines its specification.  Over any sequence of
    acquisitions and releases it answers as a table that gives each row at most
    one owner: a free row is granted, the owner may ask again, another
    transaction is told who holds it, and releasing a transaction frees exactly
    the rows it holds. *)
Theorem row_locks_refine (os : list RowLock.op) :
  Forall RowLock.op_ok os ->
  (RowLock.run RowLock.impl_step os RowLock.no_locks).2
  = (RowLock.run RowLock.spec_step os (fun _ _ => None)).2 /\
  forall t k, key_ok k ->
    RowLock.owner (RowLock.by_row (RowLock.run RowLock.impl_step os RowLock.no_locks).1) t k
    = (RowLock.run RowLock.spec_step os (fun _ _ => None)).1 t k.
Proof.
  intros Hos. apply RowLock.run_refines; [assumption | apply RowLock.no_locks_ok|].
  intros t k _. unfold RowLock.owner. cbn. by rewrite lookup_empty.
Qed.

Lemma row_locks_refine_witness :
  let os := [RowLock.Acquire (str "t") (VInt 1) 7; RowLock.Acquire (str "t") (VInt 1) 8;
             RowLock.Release 7; RowLock.Acquire (str "t") (VInt 1) 8] in
  (RowLock.run RowLock.impl_step os RowLock.no_locks).2 = [None; Some 7; None; None].
Proof.
  intros os. assert (Hos : Forall RowLock.op_ok os) by (repeat constructor).
  rewrite (proj1 (row_locks_refine os Hos)). vm_compute. reflexivity.
Defined.

(** C33: threads that each hold one table guard over distinct names never
    deadlock, since every guard locks its names in order: in every reachable state
    all guards are released or some thread can move, a name is never held
    exclusively by one thread and in any mode by another, and every run ends
    after at most as many steps as there was work. *)
Theorem table_guards_live (gs : gmap nat (TableLocks.LockMode * list bytes)) (s : TableLocks.sys) :
  TableLocks.distinct_names gs -> rtc TableLocks.step (TableLocks.start gs) s ->
  (TableLocks.finished s \/ exists s', TableLocks.step s s') /\
  (forall t t' m n, TableLocks.holds s t TableLocks.Exclusive n -> TableLocks.holds s t' m n -> t = t') /\
  (forall k s', nsteps TableLocks.step k s s' -> (k <= TableLocks.work s)%nat).
Proof.
  intros Hd Hr. pose proof (TableLocks.reachable_ok_locks _ _ Hd Hr) as Hok.
  split; [by apply TableLocks.progress|]. split.
  - intros t t' m n H H'. pose proof (TableLocks.ok_exclusive _ Hok _ _ H) as He.
    destruct m; [apply (TableLocks.ok_readers _ Hok) in H'; set_solver|].
    apply (TableLocks.ok_writer _ Hok) in H, H'. congruence.
  - intros k s' H. apply TableLocks.nsteps_work in H. lia.
Qed.

Lemma table_guards_live_witness :
  let gs : gmap nat (TableLocks.LockMode * list bytes) :=
    {[ 0%nat := (TableLocks.Exclusive, [str "b"; str "a"]); 1%nat := (TableLocks.Exclusive, [str "a"; str "b"]) ]} in
  TableLocks.finished (TableLocks.start gs) \/ exists s', TableLocks.step (TableLocks.start gs) s'.
Proof.
  cbn zeta. refine (proj1 (table_guards_live _ _ _ (rtc_refl _ _))).
  intros t m names H. apply lookup_insert_Some in H as [[_ H] | [_ H]];
    [|apply lookup_singleton_Some in H as [_ H]]; simplify_eq;
    apply (bool_decide_unpack _); vm_compute; exact I.
Defined.
