(* ===== verification/Doubles.v ===== *)
(** Arithmetic of C++ [double] on IEEE 754 binary64 bit patterns, as the
    expression evaluator uses it: conversion of [int64_t], the four operations
    (through the Standard Library's [SpecFloat], round to nearest even) and
    [std::to_string].  A computed NaN gets the canonical quiet pattern. *)
From Stdlib Require Import ZArith Lia SpecFloat Strings.Byte.
From stdpp Require Import base numbers list strings.
From S2P Require Import Prelude Values.
Local Open Scope Z_scope.

(** * From integers *)

(** The pattern of a positive integer: the leading 53 bits, rounded to nearest
    even; a carry out of the significand raises the exponent field. *)
Definition dbl_of_pos (a : Z) : Z :=
  let e := Z.log2 a in
  if e <=? 52 then (e + 1022) * 2 ^ 52 + a * 2 ^ (52 - e)
  else
    let q := a / 2 ^ (e - 52) in
    let r := a mod 2 ^ (e - 52) in
    let half := 2 ^ (e - 53) in
    let up := (half <? r) || ((half =? r) && Z.odd q) in
    (e + 1022) * 2 ^ 52 + q + Z.b2z up.

(** [static_cast<double>(int64_t)]. *)
Definition dbl_of_int (n : Z) : Z :=
  if n =? 0 then 0 else if 0 <? n then dbl_of_pos n else 2 ^ 63 + dbl_of_pos (- n).

(** * The operations *)

Definition to_sf (b : Z) : spec_float :=
  let s := 2 ^ 63 <=? b in
  let e := (b / 2 ^ 52) mod 2048 in
  let m := b mod 2 ^ 52 in
  if e =? 2047 then (if m =? 0 then S754_infinity s else S754_nan)
  else if e =? 0 then (match m with Zpos p => S754_finite s p (-1074) | _ => S754_zero s end)
  else match m + 2 ^ 52 with Zpos p => S754_finite s p (e - 1075) | _ => S754_zero s end.

Definition sign_bit (s : bool) : Z := if s then 2 ^ 63 else 0.

Definition of_sf (f : spec_float) : Z :=
  match f with
  | S754_zero s => sign_bit s
  | S754_infinity s => sign_bit s + 2047 * 2 ^ 52
  | S754_nan => 4095 * 2 ^ 51
  | S754_finite s m e => sign_bit s + (if Zpos m <? 2 ^ 52 then Zpos m else (e + 1074) * 2 ^ 52 + Zpos m)
  end.

Definition dbl_add (a b : Z) : Z := of_sf (SFadd 53 1024 (to_sf a) (to_sf b)).
Definition dbl_sub (a b : Z) : Z := of_sf (SFsub 53 1024 (to_sf a) (to_sf b)).
Definition dbl_mul (a b : Z) : Z := of_sf (SFmul 53 1024 (to_sf a) (to_sf b)).
Definition dbl_div (a b : Z) : Z := of_sf (SFdiv 53 1024 (to_sf a) (to_sf b)).

Example dbl_half : dbl_div (dbl_of_int 1) (dbl_of_int 2) = 0x3FE0000000000000.
Proof. reflexivity. Qed.
Example dbl_sum : dbl_add (dbl_of_int (2 ^ 53)) (dbl_of_int 1) = dbl_of_int (2 ^ 53).
Proof. reflexivity. Qed.

(** * Printing *)

Fixpoint digits (fuel : nat) (n : Z) (acc : bytes) : bytes :=
  match fuel with
  | O => acc
  | S fuel => let acc := z2b (48 + n mod 10) :: acc in if n <? 10 then acc else digits fuel (n / 10) acc
  end.

(** The decimal digits of a natural number. *)
Definition nat_string (n : Z) : bytes := digits (S (Z.to_nat (Z.log2 n))) n [].

(** [std::to_string(int64_t)]. *)
Definition int_to_string (n : Z) : bytes := if n <? 0 then str "-" ++ nat_string (- n) else nat_string n.

(** [num / den] rounded to the nearest integer, ties to even. *)
Definition round_div (num den : Z) : Z :=
  let q := num / den in
  let r := num mod den in
  if (den <? 2 * r) || ((den =? 2 * r) && Z.odd q) then q + 1 else q.

(** [std::to_string(double)], the format [%f]: six digits after the point. *)
Definition dbl_to_string (b : Z) : bytes :=
  let fixed (s : bool) (n : Z) :=
    (if s then str "-" else []) ++ nat_string (n / 10 ^ 6) ++ str "."
    ++ drop 1 (nat_string (10 ^ 6 + n mod 10 ^ 6)) in
  match to_sf b with
  | S754_zero s => fixed s 0
  | S754_infinity s => (if s then str "-" else []) ++ str "inf"
  | S754_nan => (if 2 ^ 63 <=? b then str "-" else []) ++ str "nan"
  | S754_finite s m e =>
      fixed s (if 0 <=? e then Zpos m * 2 ^ e * 10 ^ 6 else round_div (Zpos m * 10 ^ 6) (2 ^ (- e)))
  end.

Example dbl_print : dbl_to_string (dbl_div (dbl_of_int (-7)) (dbl_of_int 2)) = str "-3.500000".
Proof. reflexivity. Qed.
Example int_print : int_to_string (-120) = str "-120".
Proof. reflexivity. Qed.

(** * Conversion keeps the order *)

Lemma pow_split a e : 0 < a -> e = Z.log2 a -> 2 ^ e <= a < 2 ^ (e + 1).
Proof. intros Ha ->. pose proof (Z.log2_spec a Ha). rewrite <- Z.add_1_r in H. exact H. Qed.

Lemma dbl_of_pos_range a :
  0 < a -> (Z.log2 a + 1023) * 2 ^ 52 <= dbl_of_pos a <= (Z.log2 a + 1024) * 2 ^ 52 /\
           (Z.log2 a <= 52 -> dbl_of_pos a < (Z.log2 a + 1024) * 2 ^ 52).
Proof.
  intros Ha. pose proof (Z.log2_nonneg a) as He. pose proof (pow_split a _ Ha eq_refl) as [Hlo Hhi].
  unfold dbl_of_pos. set (e := Z.log2 a) in *. destruct (Z.leb_spec e 52) as [H52 | H52].
  - assert (E : 2 ^ 52 = 2 ^ e * 2 ^ (52 - e)) by (rewrite <- Z.pow_add_r by lia; f_equal; lia).
    rewrite Z.pow_add_r in Hhi by lia. change (2 ^ 1) with 2 in Hhi.
    assert (0 < 2 ^ (52 - e)) by (apply Z.pow_pos_nonneg; lia).
    assert (2 ^ 52 <= a * 2 ^ (52 - e) < 2 * 2 ^ 52) by nia. lia.
  - assert (E : 2 ^ e = 2 ^ 52 * 2 ^ (e - 52)) by (rewrite <- Z.pow_add_r by lia; f_equal; lia).
    rewrite Z.pow_add_r in Hhi by lia. change (2 ^ 1) with 2 in Hhi.
    assert (Hp : 0 < 2 ^ (e - 52)) by (apply Z.pow_pos_nonneg; lia).
    assert (Hq : 2 ^ 52 <= a / 2 ^ (e - 52) < 2 * 2 ^ 52).
    { split; [apply Z.div_le_lower_bound | apply Z.div_lt_upper_bound]; nia. }
    set (q := a / 2 ^ (e - 52)) in *. destruct (_ || _); cbn [Z.b2z]; lia.
Qed.

Lemma dbl_of_pos_same_log a b :
  0 < a <= b -> Z.log2 a = Z.log2 b ->
  dbl_of_pos a <= dbl_of_pos b /\ (Z.log2 b <= 52 -> a < b -> dbl_of_pos a < dbl_of_pos b).
Proof.
  intros Hab E. unfold dbl_of_pos. rewrite E. set (e := Z.log2 b). destruct (Z.leb_spec e 52) as [H52 | H52].
  - assert (0 < 2 ^ (52 - e)) by (apply Z.pow_pos_nonneg; lia). split; [|intros _ ?]; nia.
  - split; [|lia].
    assert (Hp : 0 < 2 ^ (e - 52)) by (apply Z.pow_pos_nonneg; lia).
    pose proof (Z.div_le_mono a b _ Hp ltac:(lia)) as Hq.
    pose proof (Z.div_mod a (2 ^ (e - 52)) ltac:(lia)) as Da. pose proof (Z.div_mod b (2 ^ (e - 52)) ltac:(lia)) as Db.
    set (qa := a / 2 ^ (e - 52)) in *. set (qb := b / 2 ^ (e - 52)) in *.
    set (ra := a mod 2 ^ (e - 52)) in *. set (rb := b mod 2 ^ (e - 52)) in *.
    destruct (Z.eq_dec qa qb) as [Eq | Nq].
    + assert (ra <= rb) by nia. rewrite Eq.
      destruct (Z.ltb_spec (2 ^ (e - 53)) ra), (Z.ltb_spec (2 ^ (e - 53)) rb),
        (Z.eqb_spec (2 ^ (e - 53)) ra), (Z.eqb_spec (2 ^ (e - 53)) rb), (Z.odd qb); cbn; lia.
    + destruct (_ || _), (_ || _); cbn [Z.b2z]; lia.
Qed.

Lemma dbl_of_pos_mono a b :
  0 < a <= b -> dbl_of_pos a <= dbl_of_pos b /\ (a < b <= 2 ^ 53 -> dbl_of_pos a < dbl_of_pos b).
Proof.
  intros Hab. pose proof (Z.log2_le_mono a b ltac:(lia)) as Hl.
  destruct (Z.eq_dec (Z.log2 a) (Z.log2 b)) as [E | N].
  - destruct (dbl_of_pos_same_log a b Hab E) as [H1 H2]. split; [assumption|]. intros H. apply H2; [|lia].
    rewrite <- E. assert (Z.log2 a < 53); [|lia]. apply Z.log2_lt_pow2; lia.
  - destruct (dbl_of_pos_range a ltac:(lia)) as [[? ?] Hs], (dbl_of_pos_range b ltac:(lia)) as [[? ?] _].
    assert (Z.log2 a + 1024 <= Z.log2 b + 1023) by lia. split; [lia|]. intros H'.
    assert (Z.log2 a <= 52). { assert (Z.log2 a < 53); [|lia]. apply Z.log2_lt_pow2; lia. }
    specialize (Hs ltac:(lia)). lia.
Qed.

(** The position of the converted integer on the number line. *)
Definition int_key (n : Z) : Z := if n =? 0 then 0 else if 0 <? n then dbl_of_pos n else - dbl_of_pos (- n).

Lemma int_key_mono a b : a <= b -> int_key a <= int_key b /\ (- 2 ^ 53 <= a -> a < b -> b <= 2 ^ 53 -> int_key a < int_key b).
Proof.
  intros Hab. assert (Hpos : forall n, 0 < n -> 0 < dbl_of_pos n).
  { intros n Hn. destruct (dbl_of_pos_range n Hn) as [[? _] _]. pose proof (Z.log2_nonneg n). lia. }
  unfold int_key. destruct (Z.eqb_spec a 0), (Z.eqb_spec b 0), (Z.ltb_spec 0 a), (Z.ltb_spec 0 b); try lia;
    try (pose proof (Hpos a ltac:(lia))); try (pose proof (Hpos b ltac:(lia)));
    try (pose proof (Hpos (- a) ltac:(lia))); try (pose proof (Hpos (- b) ltac:(lia))); try lia.
  - destruct (dbl_of_pos_mono a b ltac:(lia)). lia.
  - destruct (dbl_of_pos_mono (- b) (- a) ltac:(lia)). lia.
Qed.

Lemma dbl_of_int_key n :
  - 2 ^ 63 <= n < 2 ^ 63 -> dbl_is_nan (dbl_of_int n) = false /\ dbl_key (dbl_of_int n) = int_key n.
Proof.
  intros Hn. unfold dbl_of_int, int_key. destruct (Z.eqb_spec n 0) as [-> | N0]; [split; reflexivity|].
  assert (Hr : forall m, 0 < m <= 2 ^ 63 -> 0 < dbl_of_pos m <= 1087 * 2 ^ 52).
  { intros m Hm. destruct (dbl_of_pos_range m ltac:(lia)) as [[H1 H2] _]. pose proof (Z.log2_nonneg m).
    pose proof (Z.log2_le_mono m (2 ^ 63) ltac:(lia)) as H3. rewrite Z.log2_pow2 in H3 by lia. lia. }
  unfold dbl_is_nan, dbl_key. destruct (Z.ltb_spec 0 n).
  - specialize (Hr n ltac:(lia)). rewrite Z.mod_small by lia.
    destruct (Z.ltb_spec (2047 * 2 ^ 52) (dbl_of_pos n)), (Z.ltb_spec (dbl_of_pos n) (2 ^ 63)); split; lia.
  - specialize (Hr (- n) ltac:(lia)). set (p := dbl_of_pos (- n)) in *.
    assert (M : (2 ^ 63 + p) mod 2 ^ 63 = p).
    { replace (2 ^ 63 + p) with (p + 1 * 2 ^ 63) by lia. rewrite Z.mod_add, Z.mod_small by lia. reflexivity. }
    rewrite M. destruct (Z.ltb_spec (2047 * 2 ^ 52) p), (Z.ltb_spec (2 ^ 63 + p) (2 ^ 63)); split; lia.
Qed.

(** Converted integers compare as doubles: never the wrong way round, and exactly
    up to 2^53 in absolute value. *)
Lemma dbl_of_int_lt a b :
  - 2 ^ 63 <= a < 2 ^ 63 -> - 2 ^ 63 <= b < 2 ^ 63 ->
  dbl_lt (dbl_of_int a) (dbl_of_int b) = (int_key a <? int_key b).
Proof.
  intros Ha Hb. destruct (dbl_of_int_key a Ha) as [Na Ka], (dbl_of_int_key b Hb) as [Nb Kb].
  unfold dbl_lt. by rewrite Na, Nb, Ka, Kb.
Qed.
