(* ===== verification/BufferPool.v ===== *)
(** The page cache of [src/storage/buffer_pool.cpp]: frames, page table, free
    list and clock replacement, over files of bytes.

    [pin] releases the pool latch before it reads the page, so it is given as its
    two parts; [last_used], which only statistics read, is left out. *)
From Stdlib Require Import ZArith Lia Strings.Byte.
From stdpp Require Import base numbers list gmap strings.
From S2P Require Import Prelude.

Abbreviation PageId := (bytes * nat)%type.
Definition is_valid (id : PageId) : bool := bool_decide (id.1 <> []).
Definition no_page : PageId := ([], 0).

Record Frame := mkFrame {
  data : bytes;
  frame_id : PageId;
  dirty : bool;
  pin_count : nat;
  usage_count : nat
}.

Record Stats := mkStats { hit_count : nat; miss_count : nat; flush_count : nat; eviction_count : nat }.

Record Pool := mkPool {
  page_size : nat;
  capacity : nat;
  frames : list Frame;
  page_table : gmap PageId nat;
  free_list : list nat;
  clock_hand : nat;
  stats : Stats;
  disk : gmap bytes bytes
}.

Definition new_frame (page_size : nat) : Frame := mkFrame (replicate page_size x00) no_page false 0 0.

Definition new_pool (page_size capacity_pages : nat) (d : gmap bytes bytes) : Pool :=
  mkPool page_size capacity_pages (replicate capacity_pages (new_frame page_size)) ∅
         (seq 0 capacity_pages) 0 (mkStats 0 0 0 0) d.

(** * Pages of a file *)

(** A read at the offset of the page; what lies behind the end of the file is zero. *)
Definition page_at (ps : nat) (content : bytes) (idx : nat) : bytes :=
  let got := take ps (drop (idx * ps) content) in got ++ replicate (ps - length got) x00.

(** A write at the offset of the page; a gap before it is filled with zeros. *)
Definition write_at (ps : nat) (content : bytes) (idx : nat) (page : bytes) : bytes :=
  take (idx * ps) content ++ replicate (idx * ps - length content) x00 ++ page
  ++ drop (idx * ps + ps) content.

(** * Operations *)

Definition on_frame (g : Frame -> Frame) (i : nat) (p : Pool) : Pool :=
  mkPool (page_size p) (capacity p) (alter g i (frames p)) (page_table p) (free_list p) (clock_hand p) (stats p) (disk p).
Definition with_hand (h : nat) (p : Pool) : Pool :=
  mkPool (page_size p) (capacity p) (frames p) (page_table p) (free_list p) h (stats p) (disk p).
Definition with_table (pt : gmap PageId nat) (p : Pool) : Pool :=
  mkPool (page_size p) (capacity p) (frames p) pt (free_list p) (clock_hand p) (stats p) (disk p).
Definition with_free (fl : list nat) (p : Pool) : Pool :=
  mkPool (page_size p) (capacity p) (frames p) (page_table p) fl (clock_hand p) (stats p) (disk p).
Definition with_stats (g : Stats -> Stats) (p : Pool) : Pool :=
  mkPool (page_size p) (capacity p) (frames p) (page_table p) (free_list p) (clock_hand p) (g (stats p)) (disk p).
Definition with_disk (d : gmap bytes bytes) (p : Pool) : Pool :=
  mkPool (page_size p) (capacity p) (frames p) (page_table p) (free_list p) (clock_hand p) (stats p) d.

Definition count_hit (s : Stats) : Stats := mkStats (S (hit_count s)) (miss_count s) (flush_count s) (eviction_count s).
Definition count_miss (s : Stats) : Stats := mkStats (hit_count s) (S (miss_count s)) (flush_count s) (eviction_count s).
Definition count_flush (s : Stats) : Stats := mkStats (hit_count s) (miss_count s) (S (flush_count s)) (eviction_count s).
Definition count_eviction (s : Stats) : Stats := mkStats (hit_count s) (miss_count s) (flush_count s) (S (eviction_count s)).

Definition set_dirty (b : bool) (f : Frame) : Frame := mkFrame (data f) (frame_id f) b (pin_count f) (usage_count f).
Definition set_data (d : bytes) (f : Frame) : Frame := mkFrame d (frame_id f) (dirty f) (pin_count f) (usage_count f).

Definition size (p : Pool) : nat := size (page_table p).

Definition load_to_frame (id : PageId) (i : nat) : ST Pool unit := fun p =>
  match disk p !! id.1 with
  | None => (p, Throw "Failed to open page file")
  | Some content =>
      (on_frame (fun f => mkFrame (page_at (page_size p) content id.2) id false (pin_count f) (usage_count f)) i p, Ok tt)
  end.

Definition flush_frame (i : nat) (p : Pool) : Pool :=
  match frames p !! i with
  | Some f =>
      if dirty f then
        let content := default [] (disk p !! (frame_id f).1) in
        with_stats count_flush
          (on_frame (set_dirty false) i
             (with_disk (<[(frame_id f).1 := write_at (page_size p) content (frame_id f).2 (data f)]> (disk p)) p))
      else p
  | None => p
  end.

Definition advance (p : Pool) : Pool := with_hand ((clock_hand p + 1) mod capacity p) p.

(** The frame under the hand is given up: flushed if dirty and taken out of the
    page table. *)
Definition evict (i : nat) (p : Pool) : Pool :=
  let p1 := flush_frame i p in
  let p2 := match frames p1 !! i with
            | Some f => if is_valid (frame_id f) then with_table (delete (frame_id f) (page_table p1)) p1 else p1
            | None => p1
            end in
  with_stats count_eviction (advance p2).

(** The scan of [find_victim]; [fuel] bounds the rounds of its loop. *)
Fixpoint clock_scan (fuel start_hand passes : nat) (p : Pool) : Pool * res (option nat) :=
  match fuel with
  | O => (p, UB "the scan goes on")
  | S fuel =>
      if passes <? 2 then
        match frames p !! clock_hand p with
        | None => (p, UB "frame index out of range")
        | Some f =>
            if pin_count f =? 0 then
              if 0 <? usage_count f then
                let p1 := advance (on_frame (fun f => mkFrame (data f) (frame_id f) (dirty f) (pin_count f) (usage_count f - 1))
                                            (clock_hand p) p) in
                clock_scan fuel start_hand (if clock_hand p1 =? start_hand then S passes else passes) p1
              else (evict (clock_hand p) p, Ok (Some (clock_hand p)))
            else
              let p1 := advance p in
              clock_scan fuel start_hand (if clock_hand p1 =? start_hand then S passes else passes) p1
        end
      else (p, Ok None)
  end.

Definition find_victim : ST Pool (option nat) := fun p =>
  match free_list p with
  | i :: fl => (with_free fl p, Ok (Some i))
  | [] => clock_scan (2 * capacity p + 1) (clock_hand p) 0 p
  end.

(** [pin], up to the point where the latch is released: the frame and whether
    the page has still to be loaded into it. *)
Definition pin_latched (id : PageId) : ST Pool (nat * bool) := fun p =>
  match page_table p !! id with
  | Some i =>
      (with_stats count_hit (on_frame (fun f => mkFrame (data f) (frame_id f) (dirty f) (S (pin_count f)) 1) i p), Ok (i, false))
  | None =>
      (v ← find_victim;
       match v with
       | None => throw "Buffer pool exhausted: all pages pinned"
       | Some i =>
           _ ← modify (fun p => on_frame (fun f => mkFrame (data f) (frame_id f) (dirty f) 1 1) i
                                  (with_table (<[id := i]> (page_table p)) p));
           mret (i, true)
       end) p
  end.

Definition pin_load (id : PageId) (i : nat) : ST Pool unit :=
  _ ← load_to_frame id i; modify (with_stats count_miss).

Definition pin (id : PageId) : ST Pool nat :=
  '(i, load) ← pin_latched id;
  _ ← (if load : bool then pin_load id i else mret tt);
  mret i.

Definition allocate (id : PageId) : ST Pool nat := fun p =>
  let zeros := replicate (page_size p) x00 in
  match page_table p !! id with
  | Some i => (on_frame (fun f => mkFrame zeros (frame_id f) true (S (pin_count f)) 1) i p, Ok i)
  | None =>
      (v ← find_victim;
       match v with
       | None => throw "Buffer pool exhausted"
       | Some i =>
           _ ← modify (fun p => on_frame (fun _ => mkFrame zeros id true 1 1) i (with_table (<[id := i]> (page_table p)) p));
           mret i
       end) p
  end.

Definition mark_dirty (i : nat) (p : Pool) : Pool := on_frame (set_dirty true) i p.

(** The caller changes the bytes of a frame it has pinned and marks it. *)
Definition write_frame (i : nat) (d : bytes) (p : Pool) : Pool := mark_dirty i (on_frame (set_data d) i p).

Definition unpin (i : nat) (p : Pool) : Pool :=
  on_frame (fun f => if 0 <? pin_count f then mkFrame (data f) (frame_id f) (dirty f) (pin_count f - 1) (usage_count f) else f) i p.

Definition is_dirty (p : Pool) (i : nat) : bool := match frames p !! i with Some f => dirty f | None => false end.

Definition flush_all (p : Pool) : Pool :=
  foldl (fun q i => flush_frame i q) p (filter (fun i => is_dirty p i = true) (seq 0 (length (frames p)))).

Definition flush_page (id : PageId) (p : Pool) : Pool * bool :=
  match page_table p !! id with
  | Some i => if is_dirty p i then (flush_frame i p, true) else (p, false)
  | None => (p, false)
  end.

(** One page of the file being replaced. *)
Definition evict_page (file : bytes) (p : Pool) (e : PageId * nat) : Pool :=
  if decide (e.1.1 = file) then
    match frames p !! e.2 with
    | Some f =>
        if pin_count f =? 0 then
          with_free (free_list p ++ [e.2])
            (with_table (delete e.1 (page_table p))
               (on_frame (fun f => mkFrame (data f) no_page false (pin_count f) 0) e.2 p))
        else on_frame (set_dirty false) e.2 p
    | None => p
    end
  else p.

Definition evict_file (file : bytes) (p : Pool) : Pool :=
  foldl (evict_page file) p (map_to_list (page_table p)).

Fixpoint warmup (ids : list PageId) (p : Pool) : Pool :=
  match ids with
  | [] => p
  | id :: ids =>
      match pin id p with
      | (p1, Ok i) => warmup ids (unpin i p1)
      | (p1, _) => warmup ids p1
      end
  end.

(** [get_stats]: pages cached, dirty and pinned; the counters are [stats]. *)
Definition get_stats (p : Pool) : nat * nat * nat :=
  (size p, length (filter (fun f => dirty f = true) (frames p)),
   length (filter (fun f => 0 < pin_count f) (frames p))).
Definition reset_stats (p : Pool) : Pool := with_stats (fun _ => mkStats 0 0 0 0) p.

(** * What the pool promises: it is invisible *)

#[local] Arguments page_at : simpl never.

(** The bytes of a page as a client sees them: those of its frame, or those on disk. *)
Definition disk_page (p : Pool) (id : PageId) : bytes :=
  page_at (page_size p) (default [] (disk p !! id.1)) id.2.
Definition view (p : Pool) (id : PageId) : bytes :=
  match page_table p !! id with
  | Some i => match frames p !! i with Some f => data f | None => [] end
  | None => disk_page p id
  end.

(** A frame in use holds one page and is found by it; a clean frame has the bytes
    of the disk; the other frames are free. *)
Definition frame_ok (p : Pool) (i : nat) (f : Frame) : Prop :=
  length (data f) = page_size p /\ usage_count f <= 1 /\
  if is_valid (frame_id f)
  then page_table p !! frame_id f = Some i /\ (i ∉ free_list p) /\ (dirty f = false -> data f = disk_page p (frame_id f))
  else i ∈ free_list p /\ pin_count f = 0 /\ dirty f = false.

(** The invariant, where frame [d] may be on its way from one page to another. *)
Record pool_inv (d : option nat) (p : Pool) : Prop := {
  ok_page_size : 0 < page_size p;
  ok_capacity : length (frames p) = capacity p;
  ok_hand : clock_hand p < capacity p;
  ok_frames : forall i f, frames p !! i = Some f -> d <> Some i -> frame_ok p i f;
  ok_table : forall id i, page_table p !! id = Some i ->
    d <> Some i /\ is_valid id = true /\ exists f, frames p !! i = Some f /\ frame_id f = id;
  ok_free : NoDup (free_list p) /\ forall i, i ∈ free_list p -> d <> Some i /\ i < capacity p;
  ok_detached : forall i, d = Some i -> exists f, frames p !! i = Some f /\ length (data f) = page_size p /\
    pin_count f = 0 /\ dirty f = false
}.
Abbreviation pool_ok := (pool_inv None).

(** ** Pages *)

Definition byte_at (c : bytes) (i : nat) : byte := default x00 (c !! i).

Lemma length_page_at ps c idx : length (page_at ps c idx) = ps.
Proof. unfold page_at. rewrite length_app, length_replicate, length_take. lia. Qed.

Lemma byte_page_at ps c idx j : j < ps -> byte_at (page_at ps c idx) j = byte_at c (idx * ps + j).
Proof.
  intros Hj. unfold byte_at, page_at. destruct (decide (j < length (take ps (drop (idx * ps) c)))) as [Hl | Hl].
  - rewrite lookup_app_l by assumption. by rewrite lookup_take_lt, lookup_drop by assumption.
  - rewrite lookup_app_r by lia. rewrite length_take, length_drop in *.
    rewrite (lookup_ge_None_2 c) by lia. rewrite lookup_replicate_2 by lia. reflexivity.
Qed.

Lemma byte_write_at ps c idx page i :
  length page = ps ->
  byte_at (write_at ps c idx page) i
  = if decide (idx * ps <= i < idx * ps + ps) then byte_at page (i - idx * ps) else byte_at c i.
Proof.
  intros Hp. unfold byte_at, write_at. set (o := idx * ps).
  assert (Hl : length (take o c ++ replicate (o - length c) x00) = o)
    by (rewrite length_app, length_take, length_replicate; lia).
  rewrite app_assoc. case_decide as D.
  - rewrite lookup_app_r by lia. rewrite Hl, lookup_app_l by lia. reflexivity.
  - destruct (decide (i < o)) as [Hi | Hi].
    + rewrite lookup_app_l by lia. destruct (decide (i < length c)).
      * rewrite lookup_app_l by (rewrite length_take; lia). by rewrite lookup_take_lt by lia.
      * rewrite lookup_app_r by (rewrite length_take; lia). rewrite length_take.
        rewrite lookup_replicate_2 by lia. by rewrite (lookup_ge_None_2 c) by lia.
    + rewrite lookup_app_r by lia. rewrite Hl, lookup_app_r by lia. rewrite lookup_drop.
      do 2 f_equal. lia.
Qed.

Lemma bytes_ext (a b : bytes) : length a = length b -> (forall j, j < length a -> byte_at a j = byte_at b j) -> a = b.
Proof.
  intros Hl H. apply list_eq. intros j. destruct (decide (j < length a)) as [Hj | Hj].
  - specialize (H j Hj). unfold byte_at in H.
    destruct (lookup_lt_is_Some_2 a j Hj) as [x Hx], (lookup_lt_is_Some_2 b j ltac:(lia)) as [y Hy].
    rewrite Hx, Hy in *. cbn in H. congruence.
  - rewrite !lookup_ge_None_2 by lia. reflexivity.
Qed.

Lemma page_write_same ps c idx page : length page = ps -> page_at ps (write_at ps c idx page) idx = page.
Proof.
  intros Hp. apply bytes_ext; rewrite length_page_at; [done|]. intros j Hj.
  rewrite byte_page_at, byte_write_at by assumption. rewrite decide_True by lia. f_equal. lia.
Qed.

Lemma page_write_other ps c idx idx' page :
  length page = ps -> idx' <> idx -> page_at ps (write_at ps c idx page) idx' = page_at ps c idx'.
Proof.
  intros Hp Hne. apply bytes_ext; rewrite !length_page_at; [done|]. intros j Hj.
  rewrite !byte_page_at, byte_write_at by assumption. rewrite decide_False; [done | nia].
Qed.

(** ** Flushing *)

Lemma on_frame_lookup g i p j :
  frames (on_frame g i p) !! j = if decide (j = i) then g <$> frames p !! j else frames p !! j.
Proof.
  cbn. case_decide as D; [subst; apply list_lookup_alter_eq | by apply list_lookup_alter_ne].
Qed.

Lemma flush_disk_page i p f id :
  frames p !! i = Some f -> dirty f = true -> length (data f) = page_size p ->
  disk_page (flush_frame i p) id = if decide (id = frame_id f) then data f else disk_page p id.
Proof.
  intros Hf Hd Hl. unfold flush_frame, disk_page. rewrite Hf, Hd. cbn.
  destruct f as [dt [file idx] dy pc uc], id as [file' idx']. cbn in *.
  destruct (decide (file' = file)) as [-> | N].
  - rewrite lookup_insert_eq. cbn. case_decide as D.
    + injection D as ->. by apply page_write_same.
    + apply page_write_other; [assumption | congruence].
  - rewrite lookup_insert_ne by congruence. rewrite decide_False by congruence. reflexivity.
Qed.

(** Changing a frame's flags or counters, but neither its page nor its bytes,
    does not show. *)
Definition same_page (g : Frame -> Frame) : Prop := forall f, data (g f) = data f /\ frame_id (g f) = frame_id f.

Lemma view_on_frame g i p id : same_page g -> view (on_frame g i p) id = view p id.
Proof.
  intros Hg. unfold view. change (page_table (on_frame g i p)) with (page_table p).
  destruct (page_table p !! id) as [j|]; [|reflexivity]. rewrite on_frame_lookup.
  case_decide; [|reflexivity]. destruct (frames p !! j) as [f|]; [|reflexivity]. apply Hg.
Qed.

(** The invariant after one frame was changed in place. *)
Lemma on_frame_inv d g i p :
  pool_inv d p -> same_page g -> d <> Some i ->
  (forall f, frames p !! i = Some f -> frame_ok p i (g f)) -> pool_inv d (on_frame g i p).
Proof.
  intros [H1 H2 H3 H4 H5 H6 H7] Hg Hd Hok. split; try assumption.
  - cbn. by rewrite length_alter.
  - intros j f. rewrite on_frame_lookup. case_decide as D; [subst j | apply H4].
    intros H _. destruct (frames p !! i) as [f0|] eqn:E; cbn in H; [|discriminate]. injection H as <-. by apply Hok.
  - intros id j Hj. destruct (H5 id j Hj) as (A & B & f & C & D). split; [done|]. split; [done|].
    rewrite on_frame_lookup. case_decide; [|eauto]. rewrite C. cbn. exists (g f). split; [done|].
    by rewrite (proj2 (Hg f)).
  - intros j ->. destruct (H7 j eq_refl) as (f & C & D). exists f. rewrite on_frame_lookup.
    rewrite decide_False by congruence. done.
Qed.

Lemma with_hand_inv d h p : pool_inv d p -> h < capacity p -> pool_inv d (with_hand h p).
Proof. intros [H1 H2 H3 H4 H5 H6 H7] Hh. by split. Qed.

Lemma with_stats_inv d g p : pool_inv d p -> pool_inv d (with_stats g p).
Proof. intros [H1 H2 H3 H4 H5 H6 H7]. by split. Qed.

Lemma flush_frames i p : frames (flush_frame i p) = alter (set_dirty false) i (frames p).
Proof.
  unfold flush_frame. destruct (frames p !! i) as [f|] eqn:Hf.
  - destruct (dirty f) eqn:Hd; [reflexivity|]. symmetry. apply list_eq. intros j.
    destruct (decide (j = i)) as [-> | N]; [|by apply list_lookup_alter_ne].
    rewrite list_lookup_alter_eq, Hf. unfold set_dirty. destruct f. cbn in *. by subst.
  - symmetry. apply list_eq. intros j. destruct (decide (j = i)) as [-> | N]; [|by apply list_lookup_alter_ne].
    by rewrite list_lookup_alter_eq, Hf.
Qed.

Lemma flush_other i p :
  page_table (flush_frame i p) = page_table p /\ page_size (flush_frame i p) = page_size p /\
  free_list (flush_frame i p) = free_list p /\ capacity (flush_frame i p) = capacity p /\
  clock_hand (flush_frame i p) = clock_hand p.
Proof. unfold flush_frame. destruct (frames p !! i) as [f|]; [destruct (dirty f)|]; done. Qed.

Lemma flush_frame_ok d i p :
  pool_inv d p -> pool_inv d (flush_frame i p) /\ forall id, view (flush_frame i p) id = view p id.
Proof.
  intros Hok. pose proof Hok as [H1 H2 H3 H4 H5 H6 H7].
  destruct (frames p !! i) as [f|] eqn:Hf; [|by (unfold flush_frame; rewrite Hf)].
  destruct (dirty f) eqn:Hd; [|by (unfold flush_frame; rewrite Hf, Hd)].
  assert (Hdi : d <> Some i). { intros ->. destruct (H7 i eq_refl) as (f' & ? & ? & ? & ?). congruence. }
  destruct (H4 i f Hf Hdi) as (Hlen & Hu & Hv).
  destruct (is_valid (frame_id f)) eqn:Ev; [|destruct Hv as (_ & _ & ?); congruence].
  destruct Hv as (Hpt & Hnf & _).
  pose proof (flush_disk_page i p f) as Hdp. specialize (fun id => Hdp id Hf Hd Hlen).
  destruct (flush_other i p) as (Ept & Eps & Efl & Ecap & Eh).
  assert (Hlook : forall j f', frames (flush_frame i p) !! j = Some f' ->
            exists f0, frames p !! j = Some f0 /\ data f' = data f0 /\ frame_id f' = frame_id f0 /\
              pin_count f' = pin_count f0 /\ usage_count f' = usage_count f0 /\
              (dirty f' = dirty f0 \/ (j = i /\ dirty f' = false))).
  { intros j f' H. rewrite flush_frames in H. destruct (decide (j = i)) as [-> | N].
    - rewrite list_lookup_alter_eq, Hf in H. cbn in H. injection H as <-. exists f. cbn. auto 10.
    - rewrite list_lookup_alter_ne in H by congruence. exists f'. auto 10. }
  assert (Hclean : forall id, page_table p !! id <> Some i -> disk_page (flush_frame i p) id = disk_page p id).
  { intros id Hid. rewrite Hdp, decide_False; [done|]. intros ->. done. }
  split.
  - split; rewrite ?Ept, ?Efl, ?Eps, ?Ecap, ?Eh; auto.
    + by rewrite flush_frames, length_alter.
    + intros j f' Hj Hdj. destruct (Hlook _ _ Hj) as (f0 & E0 & Ed & Ei & Ep & Eu & Edi).
      destruct (H4 j f0 E0 Hdj) as (A & B & C). unfold frame_ok. rewrite Ed, Ei, Eu, Ep, Eps, Ept, Efl.
      split; [done|]. split; [done|]. destruct (is_valid (frame_id f0)) eqn:Ev0.
      * destruct C as (C1 & C2 & C3). split; [done|]. split; [done|]. intros Hcl.
        destruct (decide (j = i)) as [-> | N].
        -- rewrite Hf in E0. injection E0 as <-. rewrite Hdp, decide_True; done.
        -- rewrite Hclean by congruence. destruct Edi as [Edi | [? _]]; [|done]. apply C3. congruence.
      * destruct C as (C1 & C2 & C3). destruct Edi as [Edi | [_ Edi]]; rewrite Edi; done.
    + intros id j Hj. destruct (H5 id j Hj) as (A & B & f0 & C & D). split; [done|]. split; [done|].
      rewrite flush_frames. destruct (decide (j = i)) as [-> | N].
      * rewrite list_lookup_alter_eq, C. cbn. by eexists.
      * rewrite list_lookup_alter_ne by congruence. eauto.
    + intros j ->. destruct (H7 j eq_refl) as (f0 & C & D). exists f0.
      rewrite flush_frames, list_lookup_alter_ne by congruence. done.
  - intros id. unfold view. rewrite Ept. destruct (page_table p !! id) as [j|] eqn:Ej.
    + destruct (H5 id j Ej) as (_ & _ & f0 & C & _). rewrite flush_frames.
      destruct (decide (j = i)) as [-> | N]; [by rewrite list_lookup_alter_eq, C | by rewrite list_lookup_alter_ne].
    + apply Hclean. congruence.
Qed.

Lemma hand_advance h c : h < c -> (h + 1) mod c = if h + 1 =? c then 0 else h + 1.
Proof.
  intros Hh. destruct (Nat.eqb_spec (h + 1) c) as [-> | N]; [apply Nat.Div0.mod_same | apply Nat.mod_small; lia].
Qed.

Lemma advance_inv d p : pool_inv d p -> pool_inv d (advance p).
Proof.
  intros H. apply with_hand_inv; [assumption|]. pose proof (ok_hand _ _ H). rewrite hand_advance by assumption.
  destruct (Nat.eqb_spec (clock_hand p + 1) (capacity p)); lia.
Qed.

(** Taking a clean page out of the table leaves its bytes on disk. *)
Lemma detach_ok i f p :
  pool_ok p -> frames p !! i = Some f -> is_valid (frame_id f) = true -> dirty f = false -> pin_count f = 0 ->
  let p' := with_table (delete (frame_id f) (page_table p)) p in
  pool_inv (Some i) p' /\ forall id, view p' id = view p id.
Proof.
  intros [H1 H2 H3 H4 H5 H6 H7] Hf Hv Hd Hp. cbn zeta.
  destruct (H4 i f Hf ltac:(done)) as (Hl & Hu & Hc). rewrite Hv in Hc. destruct Hc as (Hpt & Hnf & Hdisk).
  split.
  - split; cbn; auto.
    + intros j f' Hj Hne. destruct (H4 j f' Hj ltac:(done)) as (A & B & C). split; [done|]. split; [done|]. cbn.
      destruct (is_valid (frame_id f')); [|done]. destruct C as (C1 & C2 & C3).
      rewrite lookup_delete_ne; [done|]. intros E. rewrite E in Hpt. congruence.
    + intros id j Hj. apply lookup_delete_Some in Hj as [Hne Hj]. destruct (H5 id j Hj) as (_ & B & f' & C & D).
      split; [|eauto]. intros [= ->]. congruence.
    + split; [apply H6|]. intros j Hj. split; [intros [= ->]; done | by apply H6].
    + intros j [= <-]. eauto.
  - intros id. unfold view. cbn. destruct (decide (id = frame_id f)) as [-> | N].
    + rewrite lookup_delete_eq, Hpt, Hf. symmetry. by apply Hdisk.
    + by rewrite lookup_delete_ne by congruence.
Qed.

Lemma evict_ok i f p :
  pool_ok p -> free_list p = [] -> frames p !! i = Some f -> pin_count f = 0 ->
  pool_inv (Some i) (evict i p) /\ forall id, view (evict i p) id = view p id.
Proof.
  intros Hok Hfl Hf Hp. destruct (flush_frame_ok None i p Hok) as [Hok1 Hview]. unfold evict.
  assert (Hf1 : frames (flush_frame i p) !! i = Some (set_dirty false f))
    by (rewrite flush_frames, list_lookup_alter_eq, Hf; done).
  assert (Hv : is_valid (frame_id f) = true).
  { destruct (ok_frames _ _ Hok i f Hf ltac:(done)) as (_ & _ & C). destruct (is_valid (frame_id f)); [done|].
    rewrite Hfl in C. set_solver. }
  rewrite Hf1. cbn [frame_id set_dirty]. rewrite Hv.
  destruct (detach_ok i (set_dirty false f) (flush_frame i p) Hok1 Hf1 Hv eq_refl Hp) as [Hok2 Hview2]. cbn [frame_id set_dirty] in *.
  split; [by apply with_stats_inv, advance_inv|]. intros id. rewrite <- Hview, <- Hview2. reflexivity.
Qed.

(** ** The scan *)

(** The frames the hand has passed since it left [start] in this round. *)
Definition passed (start hand i : nat) : Prop :=
  if decide (start <= hand) then start <= i < hand else start <= i \/ i < hand.

Definition scanned (start passes : nat) (p : Pool) : Prop :=
  forall i f, frames p !! i = Some f -> pin_count f = 0 ->
    (passes = 0 -> passed start (clock_hand p) i -> usage_count f = 0) /\
    (passes = 1 -> usage_count f = 0 /\ ~ passed start (clock_hand p) i) /\
    passes <> 2.

(** Frames left before the second round ends. *)
Definition rounds_left (start passes : nat) (p : Pool) : nat :=
  let c := capacity p in
  (2 - passes) * c - (if decide (start <= clock_hand p) then clock_hand p - start else clock_hand p + c - start).

Definition usage_down (f : Frame) : Frame := mkFrame (data f) (frame_id f) (dirty f) (pin_count f) (usage_count f - 1).

Lemma scan_advance start passes p p1 :
  clock_hand p < capacity p -> length (frames p) = capacity p -> start < capacity p -> passes < 2 ->
  capacity p1 = capacity p -> clock_hand p1 = clock_hand p ->
  scanned start passes p -> 0 < rounds_left start passes p ->
  (forall i f, frames p1 !! i = Some f -> exists f0, frames p !! i = Some f0 /\ pin_count f = pin_count f0 /\
     usage_count f <= usage_count f0) ->
  (forall f, frames p1 !! clock_hand p = Some f -> pin_count f = 0 -> passes = 0 /\ usage_count f = 0) ->
  let q := advance p1 in
  let passes' := if clock_hand q =? start then S passes else passes in
  scanned start passes' q /\ rounds_left start passes p = S (rounds_left start passes' q) /\ passes' <= 2.
Proof.
  intros Hh Hlen Hst Hps Ec Eh Hsc Hrl Hfr Hcur. cbn zeta. unfold advance, rounds_left, scanned in *. cbn [with_hand clock_hand capacity frames].
  rewrite Eh, Ec, hand_advance by assumption.
  split; [|split].
  - intros i f Hi Hpin. destruct (Hfr i f Hi) as (f0 & Hi0 & Ep & Eu). rewrite Hpin in Ep.
    destruct (Hsc i f0 Hi0 ltac:(done)) as (A & B & C).
    assert (Hil : i < capacity p) by (rewrite <- Hlen; by apply lookup_lt_Some in Hi0).
    assert (Hcuri : i = clock_hand p -> passes = 0 /\ usage_count f = 0) by (intros ->; auto).
    unfold passed in *. destruct (Nat.eqb_spec (clock_hand p + 1) (capacity p)), passes as [|[|?]];
      try lia;
      match goal with |- context [?a =? start] => destruct (Nat.eqb_spec a start) end; repeat case_decide; split; try split; intros; try lia.
  - destruct (Nat.eqb_spec (clock_hand p + 1) (capacity p)), passes as [|[|?]]; try lia;
      match goal with |- context [?a =? start] => destruct (Nat.eqb_spec a start) end; repeat case_decide; lia.
  - destruct (_ =? start); lia.
Qed.

(** What a step inside the pool keeps: the bytes of every page, the frames that
    are pinned, the pin counts, and the files. *)
Record quiet (p p' : Pool) : Prop := {
  quiet_view : forall id, view p' id = view p id;
  quiet_pinned : forall j f, frames p !! j = Some f -> pin_count f <> 0 ->
    exists f', frames p' !! j = Some f' /\ data f' = data f /\ frame_id f' = frame_id f;
  quiet_pins : forall j, pin_count <$> frames p' !! j = pin_count <$> frames p !! j;
  quiet_sizes : page_size p' = page_size p /\ capacity p' = capacity p;
  quiet_files : forall x, is_Some (disk p !! x) -> is_Some (disk p' !! x)
}.

Lemma quiet_pin_back p q j f :
  quiet p q -> frames q !! j = Some f -> exists f0, frames p !! j = Some f0 /\ pin_count f0 = pin_count f.
Proof.
  intros Hq Hj. pose proof (quiet_pins _ _ Hq j) as E. rewrite Hj in E.
  destruct (frames p !! j) as [f0|]; cbn in E; [|discriminate]. injection E as E. eauto.
Qed.

Lemma quiet_pin_forth p q j f :
  quiet p q -> frames p !! j = Some f -> exists f1, frames q !! j = Some f1 /\ pin_count f1 = pin_count f.
Proof.
  intros Hq Hj. pose proof (quiet_pins _ _ Hq j) as E. rewrite Hj in E.
  destruct (frames q !! j) as [f1|]; cbn in E; [|discriminate]. injection E as E. eauto.
Qed.

Lemma quiet_refl p : quiet p p.
Proof. split; eauto. Qed.

Lemma quiet_trans p q r : quiet p q -> quiet q r -> quiet p r.
Proof.
  intros HA HB. pose proof HA as [A1 A2 A3 A4 A5]. pose proof HB as [B1 B2 B3 B4 B5]. split.
  - intros. by rewrite B1.
  - intros j f Hj Hp. destruct (A2 j f Hj Hp) as (f' & Hj' & E1 & E2).
    destruct (quiet_pin_back _ _ _ _ HA Hj') as (f0 & Hj0 & Ep). assert (f0 = f) by congruence. subst f0.
    destruct (B2 j f' Hj' ltac:(congruence)) as (f'' & ? & ? & ?). exists f''. split_and!; congruence.
  - intros j. by rewrite B3.
  - destruct A4, B4. split; congruence.
  - auto.
Qed.

Lemma on_frame_quiet g i p :
  same_page g -> (forall f, pin_count (g f) = pin_count f) -> quiet p (on_frame g i p).
Proof.
  intros Hg Hpin. split; auto; [by intros; apply view_on_frame | |].
  - intros j f Hj _. rewrite on_frame_lookup. case_decide; [|eauto]. rewrite Hj. exists (g f). split; [done | apply Hg].
  - intros j. rewrite on_frame_lookup. case_decide; [|done]. destruct (frames p !! j) as [f|]; cbn; congruence.
Qed.

Lemma advance_quiet p : quiet p (advance p).
Proof. split; eauto. Qed.

Lemma flush_quiet i p : pool_ok p -> quiet p (flush_frame i p).
Proof.
  intros Hok. destruct (flush_frame_ok None i p Hok) as [_ Hv]. destruct (flush_other i p) as (_ & Eps & _ & Ec & _).
  destruct (on_frame_quiet (set_dirty false) i p) as [_ A2 A3 _ _]; [by intros f | done |].
  split; [exact Hv | | | auto | ]; rewrite ?flush_frames; [exact A2 | exact A3 |].
  intros x Hx. unfold flush_frame. destruct (frames p !! i) as [f|]; [|done]. destruct (dirty f); [|done]. cbn.
  destruct (decide ((frame_id f).1 = x)) as [-> | N]; [rewrite lookup_insert_eq; eauto | by rewrite lookup_insert_ne].
Qed.

Lemma evict_quiet i f p :
  pool_ok p -> free_list p = [] -> frames p !! i = Some f -> pin_count f = 0 -> quiet p (evict i p).
Proof.
  intros Hok Hfl Hf Hp. destruct (flush_quiet i p Hok) as [A1 A2 A3 A4 A5].
  destruct (evict_ok i f p Hok Hfl Hf Hp) as [_ Hv]. unfold evict in *.
  destruct (frames (flush_frame i p) !! i) as [f1|]; [destruct (is_valid (frame_id f1))|]; by split.
Qed.

(** How the scan ends. *)
Definition scan_result (p : Pool) (out : Pool * res (option nat)) : Prop :=
  match out with
  | (p', Ok (Some i)) => pool_inv (Some i) p' /\ quiet p p' /\ exists f, frames p !! i = Some f /\ pin_count f = 0
  | (p', Ok None) => pool_ok p' /\ quiet p p' /\ forall i f, frames p !! i = Some f -> pin_count f <> 0
  | _ => False
  end.

Lemma scan_result_quiet p q out : quiet p q -> scan_result q out -> scan_result p out.
Proof.
  intros Hq. destruct out as [p' [[i|]| |]]; cbn; [| |done|done].
  - intros (H1 & H2 & f & Hf & Hp). split; [done|]. split; [by eapply quiet_trans|].
    destruct (quiet_pin_back _ _ _ _ Hq Hf) as (f0 & ? & ?). exists f0. split; congruence.
  - intros (H1 & H2 & H3). split; [done|]. split; [by eapply quiet_trans|]. intros i f Hf.
    destruct (quiet_pin_forth _ _ _ _ Hq Hf) as (f1 & Hf1 & <-). eauto.
Qed.

Lemma clock_scan_eq fuel start passes p :
  clock_scan (S fuel) start passes p
  = if passes <? 2 then
      match frames p !! clock_hand p with
      | None => (p, UB "frame index out of range")
      | Some f =>
          if pin_count f =? 0 then
            if 0 <? usage_count f then
              let p1 := advance (on_frame usage_down (clock_hand p) p) in
              clock_scan fuel start (if clock_hand p1 =? start then S passes else passes) p1
            else (evict (clock_hand p) p, Ok (Some (clock_hand p)))
          else let p1 := advance p in clock_scan fuel start (if clock_hand p1 =? start then S passes else passes) p1
      end
    else (p, Ok None).
Proof. reflexivity. Qed.

Lemma usage_down_ok p i f :
  pool_ok p -> frames p !! i = Some f -> pool_ok (on_frame usage_down i p) /\ quiet p (on_frame usage_down i p).
Proof.
  intros Hok Hf. split; [|by apply on_frame_quiet].
  apply on_frame_inv; [done | done | done |]. intros f' Hf'.
  destruct (ok_frames _ _ Hok i f' Hf' ltac:(done)) as (A & B & C). split; [done|]. split; [cbn; lia | exact C].
Qed.

Lemma clock_scan_ok n start passes p :
  pool_ok p -> free_list p = [] -> start < capacity p -> passes <= 2 -> scanned start passes p ->
  rounds_left start passes p = n -> scan_result p (clock_scan (S n) start passes p).
Proof.
  revert passes p. induction n as [|n IH]; intros passes p Hok Hfl Hst Hps Hsc Hn;
    pose proof (ok_hand _ _ Hok) as Hh; pose proof (ok_capacity _ _ Hok) as Hlen; rewrite clock_scan_eq.
  all: destruct (Nat.ltb_spec passes 2) as [Hlt | Hge];
    [| split; [done|]; split; [apply quiet_refl|]; intros i f Hf Hp; destruct (Hsc i f Hf Hp) as (_ & _ & ?); lia].
  { exfalso. unfold rounds_left in Hn. destruct passes as [|[|?]]; case_decide; lia. }
  destruct (lookup_lt_is_Some_2 (frames p) (clock_hand p) ltac:(lia)) as [f Hf]. rewrite Hf.
  destruct (ok_frames _ _ Hok _ f Hf ltac:(done)) as (_ & Hu & _).
  destruct (Nat.eqb_spec (pin_count f) 0) as [Hpin | Hpin]; [destruct (Nat.ltb_spec 0 (usage_count f)) as [Hus | Hus]|].
  - destruct (Hsc _ f Hf Hpin) as (_ & H1 & _). destruct (usage_down_ok p _ f Hok Hf) as [Hok1 Hq1].
    destruct (scan_advance start passes p (on_frame usage_down (clock_hand p) p)) as (S1 & S2 & S3); try done; try lia.
    { intros i f' Hi. rewrite on_frame_lookup in Hi. case_decide; [|eauto].
      destruct (frames p !! i) as [f0|]; cbn in Hi; [|discriminate]. injection Hi as <-. exists f0. cbn. auto with lia. }
    { intros f' Hi _. rewrite on_frame_lookup, decide_True, Hf in Hi by done. injection Hi as <-. cbn. lia. }
    eapply scan_result_quiet; [eapply quiet_trans; [exact Hq1 | apply advance_quiet]|].
    apply IH; try done; [by apply advance_inv | lia].
  - split; [by eapply evict_ok|]. split; [by eapply evict_quiet | eauto].
  - destruct (scan_advance start passes p p) as (S1 & S2 & S3); try done; try lia.
    { eauto. } { intros f' Hi ?. congruence. }
    eapply scan_result_quiet; [apply advance_quiet|]. apply IH; try done; [by apply advance_inv | lia].
Qed.

Lemma find_victim_ok p : pool_ok p -> scan_result p (find_victim p).
Proof.
  intros Hok. pose proof Hok as [H1 H2 H3 H4 H5 H6 H7]. unfold find_victim. destruct (free_list p) as [|i fl] eqn:Efl.
  - rewrite Nat.add_1_r. apply clock_scan_ok; try done; [lia | | unfold rounds_left; case_decide; lia].
    intros i f Hi Hpin. unfold passed. split; [|split; [lia|lia]]. intros _ Hp. case_decide; lia.
  - destruct H6 as [Hnd Hin]. apply NoDup_cons in Hnd as [Hni Hnd].
    assert (Hi : i < capacity p) by (apply Hin; set_solver).
    destruct (lookup_lt_is_Some_2 (frames p) i ltac:(lia)) as [f Hf].
    destruct (H4 i f Hf ltac:(done)) as (A & B & C). rewrite Efl in C.
    destruct (is_valid (frame_id f)) eqn:Ev; [destruct C as (_ & C & _); set_solver|]. destruct C as (_ & Cp & Cd).
    cbn. split; [|split; [split; eauto | eauto]]. split; cbn; auto.
    + intros j f' Hj Hne. destruct (H4 j f' Hj ltac:(done)) as (A' & B' & C'). split; [done|]. split; [done|]. cbn.
      rewrite Efl in C'. destruct (is_valid (frame_id f')); [set_solver|].
      destruct C' as (C' & ?). split; [|done]. apply elem_of_cons in C' as [-> | ?]; [done|done].
    + intros id j Hj. destruct (H5 id j Hj) as (_ & B' & f' & C' & D'). split; [|eauto]. intros [= ->].
      assert (f' = f) by congruence. subst. congruence.
    + split; [done|]. intros j Hj. split; [intros [= ->]; done | apply Hin; set_solver].
    + intros j [= <-]. eauto.
Qed.

(** ** Giving a frame a new page *)

Definition attach (id : PageId) (i : nat) (f : Frame) (p : Pool) : Pool :=
  mkPool (page_size p) (capacity p) (<[i := f]> (frames p)) (<[id := i]> (page_table p)) (free_list p)
         (clock_hand p) (stats p) (disk p).

Lemma attach_ok id i f p :
  pool_inv (Some i) p -> is_valid id = true -> page_table p !! id = None ->
  length (data f) = page_size p -> usage_count f <= 1 -> frame_id f = id ->
  (dirty f = false -> data f = disk_page p id) ->
  pool_ok (attach id i f p) /\ (forall id', view (attach id i f p) id' = if decide (id' = id) then data f else view p id').
Proof.
  intros [H1 H2 H3 H4 H5 H6 H7] Hv Hnone Hl Hu Hid Hclean. destruct (H7 i eq_refl) as (f0 & Hf0 & _).
  pose proof (lookup_lt_Some _ _ _ Hf0) as Hi.
  assert (Hother : forall j, j <> i -> frames (attach id i f p) !! j = frames p !! j)
    by (intros; cbn; by apply list_lookup_insert_ne).
  assert (Hself : frames (attach id i f p) !! i = Some f) by (cbn; by rewrite list_lookup_insert_eq).
  split.
  - split; auto.
    + cbn. by rewrite length_insert.
    + intros j f' Hj _. destruct (decide (j = i)) as [-> | N].
      * rewrite Hself in Hj. injection Hj as <-. unfold frame_ok. rewrite Hid, Hv. cbn.
        rewrite lookup_insert_eq. split_and!; auto. intros Hin. by apply H6 in Hin as [? _].
      * rewrite Hother in Hj by assumption. destruct (H4 j f' Hj ltac:(congruence)) as (A & B & C).
        split; [done|]. split; [done|]. destruct (is_valid (frame_id f')); [|done]. cbn.
        destruct C as (C1 & C2 & C3). rewrite lookup_insert_ne; [done|]. congruence.
    + intros id' j Hj. cbn in Hj. apply lookup_insert_Some in Hj as [[<- <-] | [Hne Hj]]; [eauto|].
      destruct (H5 id' j Hj) as (A & B & f' & C & D). split; [done|]. split; [done|].
      rewrite Hother by congruence. eauto.
    + split; [apply H6|]. intros j Hj. split; [done | by apply H6].
    + intros j Hj. discriminate.
  - intros id'. unfold view. change (page_table (attach id i f p)) with (<[id := i]> (page_table p)). case_decide as D.
    + subst. rewrite lookup_insert_eq, Hself. reflexivity.
    + rewrite lookup_insert_ne by congruence. destruct (page_table p !! id') as [j|] eqn:Ej; [|reflexivity].
      destruct (H5 id' j Ej) as (A & _). by rewrite Hother by congruence.
Qed.

Lemma attach_alter (g : Frame -> Frame) id i p f :
  frames p !! i = Some f -> on_frame g i (with_table (<[id := i]> (page_table p)) p) = attach id i (g f) p.
Proof.
  intros Hf. unfold on_frame, attach, with_table. cbn. f_equal. apply list_eq. intros j.
  destruct (decide (j = i)) as [-> | N].
  - rewrite list_lookup_alter_eq, Hf, list_lookup_insert_eq by (by eapply lookup_lt_Some). reflexivity.
  - by rewrite list_lookup_alter_ne, list_lookup_insert_ne by congruence.
Qed.

(** The pinned frames of [p] keep their page and bytes. *)
Definition keeps_pinned (p p' : Pool) : Prop :=
  forall j f, frames p !! j = Some f -> pin_count f <> 0 ->
    exists f', frames p' !! j = Some f' /\ data f' = data f /\ frame_id f' = frame_id f /\ pin_count f <= pin_count f'.

Lemma attach_keeps p q id i f g :
  quiet p q -> frames p !! i = Some g -> pin_count g = 0 -> keeps_pinned p (attach id i f q).
Proof.
  intros Hq Hg Hpin j f0 Hj Hp. assert (j <> i) by congruence.
  destruct (quiet_pinned _ _ Hq j f0 Hj Hp) as (f' & Hj' & ? & ?).
  destruct (quiet_pin_back _ _ _ _ Hq Hj') as (f1 & ? & ?). assert (f1 = f0) by congruence. subst f1.
  exists f'. cbn. rewrite list_lookup_insert_ne by congruence. split_and!; auto. lia.
Qed.

(** A cached page gains a pin. *)
Lemma repin_ok id i p (g : Frame -> Frame) :
  pool_ok p -> page_table p !! id = Some i -> same_page g ->
  (forall f, dirty (g f) = dirty f /\ usage_count (g f) = 1 /\ pin_count (g f) = S (pin_count f)) ->
  pool_ok (on_frame g i p) /\ keeps_pinned p (on_frame g i p) /\
  exists f, frames (on_frame g i p) !! i = Some f /\ frame_id f = id /\ data f = view p id /\ 0 < pin_count f.
Proof.
  intros Hok Hi Hg Hg'. destruct (ok_table _ _ Hok id i Hi) as (_ & Hv & f & Hf & Hid).
  split; [|split].
  - apply on_frame_inv; [done | done | done |]. intros f' Hf'. assert (f' = f) by congruence. subst f'.
    destruct (ok_frames _ _ Hok i f Hf ltac:(done)) as (A & B & C). unfold frame_ok.
    destruct (Hg f) as [-> ->], (Hg' f) as (-> & -> & _). split; [done|]. split; [lia|].
    rewrite Hid, Hv in *. exact C.
  - intros j f' Hj Hp. rewrite on_frame_lookup. case_decide; [|eauto]. rewrite Hj. exists (g f').
    destruct (Hg f') as [-> ->], (Hg' f') as (_ & _ & ->). split_and!; auto.
  - rewrite on_frame_lookup, decide_True, Hf by done. exists (g f). destruct (Hg f) as [-> ->], (Hg' f) as (_ & _ & ->).
    unfold view. rewrite Hi, Hf. split_and!; auto. lia.
Qed.

(** What a pin gives: the frame holds the page with the bytes the client sees. *)
Definition pinned_page (p' : Pool) (i : nat) (id : PageId) (bs : bytes) : Prop :=
  exists f, frames p' !! i = Some f /\ frame_id f = id /\ data f = bs /\ 0 < pin_count f.

Definition all_pinned (p : Pool) : Prop := forall i f, frames p !! i = Some f -> pin_count f <> 0.

(** An operation that failed and left no trace. *)
Definition no_trace (p p' : Pool) : Prop := pool_ok p' /\ (forall id', view p' id' = view p id') /\ keeps_pinned p p'.

Definition pin_result (p : Pool) (id : PageId) (out : Pool * res nat) : Prop :=
  match out with
  | (p', Ok i) => pool_ok p' /\ (forall id', view p' id' = view p id') /\ keeps_pinned p p' /\ pinned_page p' i id (view p id)
  | (p', Throw _) => page_table p !! id = None /\ (disk p !! id.1 = None \/ (all_pinned p /\ no_trace p p'))
  | (_, UB _) => False
  end.

Lemma view_uncached p id : page_table p !! id = None -> view p id = disk_page p id.
Proof. intros H. unfold view. by rewrite H. Qed.

Lemma scan_uncached fuel start passes p id :
  page_table p !! id = None -> page_table (clock_scan fuel start passes p).1 !! id = None.
Proof.
  revert passes p. induction fuel as [|fuel IH]; intros passes p Hn; [exact Hn|]. rewrite clock_scan_eq.
  destruct (passes <? 2); [|exact Hn]. destruct (frames p !! clock_hand p) as [f|]; [|exact Hn].
  destruct (pin_count f =? 0); [destruct (0 <? usage_count f)|]; try (by apply IH).
  cbn. destruct (flush_other (clock_hand p) p) as (Ept & _). unfold evict.
  destruct (frames (flush_frame _ p) !! _) as [f1|]; [destruct (is_valid (frame_id f1))|]; cbn; rewrite Ept; [|exact Hn|exact Hn].
  apply lookup_delete_None. auto.
Qed.

Lemma evict_uncached p id : page_table p !! id = None -> page_table (find_victim p).1 !! id = None.
Proof. intros Hn. unfold find_victim. destruct (free_list p); [by apply scan_uncached | exact Hn]. Qed.

Lemma quiet_no_trace p q : pool_ok q -> quiet p q -> no_trace p q.
Proof.
  intros Hq Q. split; [done|]. split; [apply Q|]. intros j f Hj Hp.
  destruct (quiet_pinned _ _ Q j f Hj Hp) as (f' & Hf' & ? & ?). destruct (quiet_pin_forth _ _ _ _ Q Hj) as (f1 & Hf1 & Ep).
  assert (f1 = f') as -> by congruence. exists f'. split_and!; try done; lia.
Qed.

Lemma pin_ok id p : pool_ok p -> is_valid id = true -> pin_result p id (pin id p).
Proof.
  intros Hok Hv. unfold pin, pin_latched, pin_load, load_to_frame, modify, throw, mbind, mret, st_bind, st_ret.
  destruct (page_table p !! id) as [i|] eqn:Ei.
  - cbn. destruct (repin_ok id i p (fun f => mkFrame (data f) (frame_id f) (dirty f) (S (pin_count f)) 1)) as (A & B & C);
      [done | done | done | by intros |].
    split; [by apply with_stats_inv|]. split; [|split; [exact B | exact C]].
    intros id'. by apply (view_on_frame (fun f => mkFrame (data f) (frame_id f) (dirty f) (S (pin_count f)) 1)).
  - pose proof (find_victim_ok p Hok) as Hfv. pose proof (evict_uncached p id Ei) as Hun.
    destruct (find_victim p) as [q [[i|]| |]]; cbn in Hfv, Hun |- *; [| |done|done].
    2:{ destruct Hfv as (Hq' & Hqt & Hall). split; [done|]. right. split; [done|]. by apply quiet_no_trace. }
    destruct Hfv as (Hinv & Hq & f & Hf & Hp0). destruct (ok_detached _ _ Hinv i eq_refl) as (f1 & Hf1 & Hl1 & Hp1 & Hd1).
    rewrite (attach_alter _ id i q f1 Hf1). cbn [disk page_size attach].
    destruct (disk q !! id.1) as [content|] eqn:Ed.
    2:{ split; [done|]. left. destruct (disk p !! id.1) eqn:Edp; [|done]. exfalso.
        destruct (quiet_files _ _ Hq id.1) as [x Hx]; [by eexists | congruence]. }
    set (f' := mkFrame (page_at (page_size q) content id.2) id false 1 1).
    assert (Hdp : disk_page q id = data f') by (unfold disk_page; by rewrite Ed).
    assert (E : on_frame (fun f => mkFrame (page_at (page_size q) content id.2) id false (pin_count f) (usage_count f)) i
                  (attach id i (mkFrame (data f1) (frame_id f1) (dirty f1) 1 1) q) = attach id i f' q).
    { pose proof (lookup_lt_Some _ _ _ Hf1). unfold on_frame, attach. cbn. f_equal. apply list_eq. intros j.
      destruct (decide (j = i)) as [-> | N].
      - by rewrite list_lookup_alter_eq, !list_lookup_insert_eq by assumption.
      - by rewrite list_lookup_alter_ne, !list_lookup_insert_ne by congruence. }
    cbn [page_size attach] in *. rewrite E.
    destruct (attach_ok id i f' q) as [Hok' Hview]; auto; [apply length_page_at|].
    assert (Hvid : data f' = view p id) by (rewrite <- (quiet_view _ _ Hq), view_uncached; done).
    split; [by apply with_stats_inv|]. split; [|split].
    + intros id'. change (view (attach id i f' q) id' = view p id'). rewrite Hview. case_decide as D; [by subst|].
      apply Hq.
    + by apply (attach_keeps p q id i f' f).
    + exists f'. cbn. rewrite list_lookup_insert_eq by (by eapply lookup_lt_Some). cbn in Hvid. split_and!; auto.
Qed.

Lemma allocate_ok id p :
  pool_ok p -> is_valid id = true ->
  match allocate id p with
  | (p', Ok i) => pool_ok p' /\ (forall id', view p' id' = if decide (id' = id) then replicate (page_size p) x00 else view p id') /\
                  pinned_page p' i id (replicate (page_size p) x00)
  | (p', Throw _) => page_table p !! id = None /\ all_pinned p /\ no_trace p p'
  | (_, UB _) => False
  end.
Proof.
  intros Hok Hv. unfold allocate, modify, throw, mbind, mret, st_bind, st_ret.
  destruct (page_table p !! id) as [i|] eqn:Ei.
  - destruct (ok_table _ _ Hok id i Ei) as (_ & _ & f & Hf & Hid).
    set (g := fun f => mkFrame (replicate (page_size p) x00) (frame_id f) true (S (pin_count f)) 1).
    assert (Hself : frames (on_frame g i p) !! i = Some (g f)) by (rewrite on_frame_lookup, decide_True, Hf by done; done).
    split; [|split; [|exists (g f); rewrite Hself; cbn; split_and!; auto; lia]].
    + pose proof Hok as [H1 H2 H3 H4 H5 H6 H7]. split; auto.
      * cbn. by rewrite length_alter.
      * intros j f' Hj _. rewrite on_frame_lookup in Hj. case_decide; [subst j | by apply H4].
        rewrite Hf in Hj. injection Hj as <-. destruct (H4 i f Hf ltac:(done)) as (A & B & C).
        unfold frame_ok, g. cbn. rewrite length_replicate. rewrite Hid, Hv in *. destruct C as (C1 & C2 & _).
        split_and!; auto. done.
      * intros id' j Hj. destruct (H5 id' j Hj) as (A & B & f' & C & D). split; [done|]. split; [done|].
        rewrite on_frame_lookup. case_decide; [|eauto]. subst. rewrite C. cbn. eexists. split; [done|]. done.
      * done.
    + intros id'. unfold view. cbn [page_table on_frame]. case_decide as D; [subst id'|].
      * rewrite Ei, Hself. reflexivity.
      * destruct (page_table p !! id') as [j|] eqn:Ej; [|reflexivity]. rewrite on_frame_lookup.
        destruct (ok_table _ _ Hok id' j Ej) as (_ & _ & f' & Hf' & Hid'). rewrite decide_False; [done | congruence].
  - pose proof (find_victim_ok p Hok) as Hfv. pose proof (evict_uncached p id Ei) as Hun.
    destruct (find_victim p) as [q [[i|]| |]]; cbn in Hfv, Hun |- *; [| destruct Hfv as (? & ? & ?); split_and!; [done|done|by apply quiet_no_trace] |done|done].
    destruct Hfv as (Hinv & Hq & f & Hf & Hp0). destruct (ok_detached _ _ Hinv i eq_refl) as (f1 & Hf1 & Hl1 & _).
    destruct (quiet_sizes _ _ Hq) as [Eps _].
    rewrite (attach_alter (fun _ => mkFrame (replicate (page_size p) x00) id true 1 1) id i q f1 Hf1).
    destruct (attach_ok id i (mkFrame (replicate (page_size p) x00) id true 1 1) q) as [Hok' Hview]; auto; [|done|].
    { cbn. by rewrite length_replicate. }
    split; [done|]. split.
    + intros id'. rewrite Hview. case_decide; [done | apply Hq].
    + eexists. cbn. rewrite list_lookup_insert_eq by (by eapply lookup_lt_Some). split_and!; auto.
Qed.

(** A client that writes a page it has pinned changes this page and no other. *)
Lemma write_frame_ok i id d p :
  pool_ok p -> page_table p !! id = Some i -> length d = page_size p ->
  pool_ok (write_frame i d p) /\ forall id', view (write_frame i d p) id' = if decide (id' = id) then d else view p id'.
Proof.
  intros Hok Ei Hd. destruct (ok_table _ _ Hok id i Ei) as (_ & Hv & f & Hf & Hid).
  assert (Hlook : forall j, frames (write_frame i d p) !! j
            = if decide (j = i) then Some (mkFrame d (frame_id f) true (pin_count f) (usage_count f)) else frames p !! j).
  { intros j. unfold write_frame, mark_dirty. rewrite !on_frame_lookup. case_decide; [subst; by rewrite Hf | done]. }
  pose proof Hok as [H1 H2 H3 H4 H5 H6 H7]. split.
  - split; auto.
    + cbn. by rewrite !length_alter.
    + intros j f' Hj _. rewrite Hlook in Hj. case_decide; [subst j; injection Hj as <- | by apply H4].
      destruct (H4 i f Hf ltac:(done)) as (A & B & C). unfold frame_ok. cbn. rewrite Hid, Hv in *. destruct C as (C1 & C2 & _).
      split_and!; auto. done.
    + intros id' j Hj. destruct (H5 id' j Hj) as (A & B & f' & C & D). split; [done|]. split; [done|].
      rewrite Hlook. case_decide; [|eauto]. subst. assert (f' = f) by congruence. subst. eauto.
    + done.
  - intros id'. unfold view. change (page_table (write_frame i d p)) with (page_table p). case_decide as D.
    + subst. by rewrite Ei, Hlook, decide_True.
    + destruct (page_table p !! id') as [j|] eqn:Ej; [|done]. rewrite Hlook.
      destruct (H5 id' j Ej) as (_ & _ & f' & Hf' & Hid'). rewrite decide_False; [done | congruence].
Qed.

Lemma unpin_ok i p : pool_ok p -> pool_ok (unpin i p) /\ forall id, view (unpin i p) id = view p id.
Proof.
  intros Hok. set (g := fun f => if 0 <? pin_count f then mkFrame (data f) (frame_id f) (dirty f) (pin_count f - 1) (usage_count f) else f).
  assert (Hg : same_page g) by (intros f; unfold g; by destruct (0 <? pin_count f)).
  split; [|by intros; apply (view_on_frame g)]. apply (on_frame_inv None g); [done | done | done |]. intros f Hf.
  destruct (ok_frames _ _ Hok i f Hf ltac:(done)) as (A & B & C). unfold g. destruct (Nat.ltb_spec 0 (pin_count f)); [|done].
  split; [done|]. split; [done|]. cbn. destruct (is_valid (frame_id f)); [done|]. destruct C as (? & ? & ?). split_and!; auto. lia.
Qed.

(** ** Flushing everything, and replacing a file *)

Lemma flush_fold_ok l p :
  pool_ok p ->
  let q := foldl (fun q i => flush_frame i q) p l in
  pool_ok q /\ (forall id, view q id = view p id) /\
  forall j f, frames q !! j = Some f -> exists f0, frames p !! j = Some f0 /\ (dirty f = true -> dirty f0 = true /\ j ∉ l).
Proof.
  revert p. induction l as [|i l IH]; cbn; intros p Hok.
  - split; [done|]. split; [done|]. intros j f Hj. exists f. set_solver.
  - destruct (flush_frame_ok None i p Hok) as [Hok1 Hv1]. destruct (IH _ Hok1) as (A & B & C).
    split; [done|]. split; [by intros; rewrite B|]. intros j f Hj. destruct (C j f Hj) as (f1 & Hf1 & Hd1).
    rewrite flush_frames in Hf1. destruct (decide (j = i)) as [-> | N].
    + rewrite list_lookup_alter_eq in Hf1. destruct (frames p !! i) as [f0|]; cbn in Hf1; [|discriminate].
      injection Hf1 as <-. exists f0. split; [done|]. intros Hd. by destruct (Hd1 Hd) as [? _].
    + rewrite list_lookup_alter_ne in Hf1 by congruence. exists f1. split; [done|]. set_solver.
Qed.

Lemma flush_all_ok p :
  pool_ok p -> pool_ok (flush_all p) /\ forall id, view (flush_all p) id = view p id /\ disk_page (flush_all p) id = view p id.
Proof.
  intros Hok. unfold flush_all.
  destruct (flush_fold_ok (filter (fun i => is_dirty p i = true) (seq 0 (length (frames p)))) p Hok) as (Hok' & Hv & Hd).
  set (q := foldl _ _ _) in *. split; [done|]. intros id. split; [done|]. rewrite <- Hv. unfold view.
  destruct (page_table q !! id) as [i|] eqn:Ei; [|done].
  destruct (ok_table _ _ Hok' id i Ei) as (_ & Hvalid & f & Hf & Hid). rewrite Hf.
  destruct (ok_frames _ _ Hok' i f Hf ltac:(done)) as (_ & _ & C). rewrite Hid, Hvalid in C.
  symmetry. apply C. destruct (dirty f) eqn:E; [|done]. exfalso.
  destruct (Hd i f Hf) as (f0 & Hf0 & Hd0). destruct (Hd0 E) as [Hdirty Hni]. apply Hni.
  apply list_elem_of_filter. unfold is_dirty. rewrite Hf0. split; [done|]. apply elem_of_seq.
  apply lookup_lt_Some in Hf0. lia.
Qed.

Lemma evict_page_ok file e f p :
  pool_ok p -> page_table p !! e.1 = Some e.2 -> e.1.1 = file -> frames p !! e.2 = Some f -> pin_count f = 0 ->
  let p' := evict_page file p e in
  pool_ok p' /\ page_table p' = delete e.1 (page_table p) /\ disk p' = disk p /\ page_size p' = page_size p /\
  (forall j, j <> e.2 -> frames p' !! j = frames p !! j).
Proof.
  intros Hok Hpt Hfile Hf Hpin. destruct e as [id i]. cbn [fst snd] in *. unfold evict_page. cbn [fst snd].
  rewrite decide_True, Hf, Hpin by done. cbn [Nat.eqb]. cbn zeta.
  pose proof Hok as [H1 H2 H3 H4 H5 H6 H7]. destruct (H5 id i Hpt) as (_ & Hv & f' & Hf' & Hid).
  assert (f' = f) by congruence. subst f'. destruct (H4 i f Hf ltac:(done)) as (Hl & Hu & Hc). rewrite Hid, Hv in Hc.
  destruct Hc as (_ & Hnf & _).
  set (g := fun f => mkFrame (data f) no_page false (pin_count f) 0).
  assert (Hlook : forall j, frames (with_free (free_list p ++ [i]) (with_table (delete id (page_table p)) (on_frame g i p))) !! j
            = if decide (j = i) then Some (g f) else frames p !! j).
  { intros j. change (frames (on_frame g i p) !! j = if decide (j = i) then Some (g f) else frames p !! j).
    rewrite on_frame_lookup. case_decide; [subst; by rewrite Hf | done]. }
  split; [|split; [done|split; [done|split; [done|]]]].
  - split; auto.
    + cbn. by rewrite length_alter.
    + intros j f' Hj _. rewrite Hlook in Hj. unfold frame_ok. cbn. case_decide.
      * subst j. injection Hj as <-. cbn. split_and!; auto; set_solver.
      * destruct (H4 j f' Hj ltac:(done)) as (A & B & C). split; [done|]. split; [done|].
        destruct (is_valid (frame_id f')); [|set_solver]. destruct C as (C1 & C2 & C3).
        assert (Hne : id <> frame_id f') by (intros ->; pose proof (eq_trans (eq_sym Hpt) C1) as E; injection E; auto).
        rewrite lookup_delete_ne by assumption. split; [done|]. split; [set_solver | exact C3].
    + intros id' j Hj. cbn in Hj. apply lookup_delete_Some in Hj as [Hne Hj]. destruct (H5 id' j Hj) as (A & B & f' & C & D).
      split; [done|]. split; [done|]. rewrite Hlook. rewrite decide_False; [eauto | congruence].
    + cbn. split.
      * apply NoDup_app. split; [apply H6|]. split; [set_solver | repeat constructor; set_solver].
      * intros j Hj. split; [done|]. apply elem_of_app in Hj as [Hj | Hj]; [by apply H6|].
        apply list_elem_of_singleton in Hj as ->. rewrite <- H2. by eapply lookup_lt_Some.
    + done.
  - intros j N. rewrite Hlook. by rewrite decide_False.
Qed.

(** No page of the file is pinned. *)
Definition unpinned_file (file : bytes) (p : Pool) : Prop :=
  forall id i f, page_table p !! id = Some i -> id.1 = file -> frames p !! i = Some f -> pin_count f = 0.

Lemma evict_fold_ok file l p :
  pool_ok p -> unpinned_file file p -> NoDup l.*1 -> (forall e, e ∈ l -> page_table p !! e.1 = Some e.2) ->
  let q := foldl (evict_page file) p l in
  pool_ok q /\ disk q = disk p /\ page_size q = page_size p /\
  (forall id, page_table q !! id = if decide (id.1 = file /\ id ∈ l.*1) then None else page_table p !! id) /\
  (forall id, id.1 <> file -> view q id = view p id).
Proof.
  revert p. induction l as [|e l IH]; cbn; intros p Hok Hun Hnd Hl.
  - split_and!; auto. intros id. rewrite decide_False; [done | set_solver].
  - apply NoDup_cons in Hnd as [Hni Hnd].
    destruct (decide (e.1.1 = file)) as [Efile | Nfile].
    2:{ unfold evict_page at 2 4 6 8 10. rewrite decide_False by assumption.
        destruct (IH p Hok Hun Hnd ltac:(set_solver)) as (A & B & C & D & E). split_and!; auto.
        intros id. rewrite D. destruct (decide (id = e.1)) as [-> | N].
        - rewrite !decide_False by tauto. done.
        - repeat case_decide; set_solver. }
    pose proof (Hl e ltac:(set_solver)) as He.
    destruct (ok_table _ _ Hok _ _ He) as (_ & _ & f & Hf & Hid).
    destruct (evict_page_ok file e f p Hok He Efile Hf (Hun _ _ _ He Efile Hf)) as (A & B & C & D & E).
    assert (Hinj : forall id i, page_table p !! id = Some i -> id <> e.1 -> i <> e.2).
    { intros id i Hi Hne ->. destruct (ok_table _ _ Hok _ _ Hi) as (_ & _ & f' & Hf' & Hid'). congruence. }
    destruct (IH (evict_page file p e) A) as (A' & B' & C' & D' & E'); auto.
    + intros id i f' Hi Hfi Hf'. rewrite B in Hi. apply lookup_delete_Some in Hi as [Hne Hi].
      rewrite E in Hf' by eauto. eauto.
    + intros e' He'. rewrite B, lookup_delete_ne; [apply Hl; set_solver|]. intros Heq. apply Hni.
      apply list_elem_of_fmap. exists e'. auto.
    + split_and!; [done | congruence | congruence | |].
      * intros id. rewrite D', B. destruct (decide (id = e.1)) as [-> | N].
        -- rewrite lookup_delete_eq. repeat case_decide; set_solver.
        -- rewrite lookup_delete_ne by (intros Heq; subst; auto). repeat case_decide; set_solver.
      * intros id Hne. rewrite E' by assumption. unfold view, disk_page. rewrite B, C, D.
        rewrite lookup_delete_ne by (intros Heq; subst; auto). destruct (page_table p !! id) as [i|] eqn:Ei; [|done].
        rewrite E; [done | eapply Hinj; [exact Ei | intros ->; auto]].
Qed.

Lemma evict_file_ok file p :
  pool_ok p -> unpinned_file file p ->
  let q := evict_file file p in
  pool_ok q /\ disk q = disk p /\ page_size q = page_size p /\
  (forall id, id.1 = file -> page_table q !! id = None) /\ (forall id, id.1 <> file -> view q id = view p id).
Proof.
  intros Hok Hun. unfold evict_file.
  destruct (evict_fold_ok file (map_to_list (page_table p)) p Hok Hun) as (A & B & C & D & E).
  - apply NoDup_fst_map_to_list.
  - intros [id i] He. by apply elem_of_map_to_list in He.
  - split_and!; auto. intros id Hid. rewrite D. case_decide as Dc; [done|].
    destruct (page_table p !! id) as [i|] eqn:Ei; [|done]. exfalso. apply Dc. split; [done|].
    apply list_elem_of_fmap. exists (id, i). split; [done | by apply elem_of_map_to_list].
Qed.

(** Eviction does not look at the disk, so it may run after the file was replaced. *)
Lemma evict_file_disk file d p : evict_file file (with_disk d p) = with_disk d (evict_file file p).
Proof.
  unfold evict_file. change (page_table (with_disk d p)) with (page_table p).
  generalize (map_to_list (page_table p)). intros l. revert p.
  induction l as [|e l IH]; intros p; cbn; [done|]. rewrite <- IH. f_equal.
  unfold evict_page. cbn. destruct (decide _); [|done]. destruct (frames p !! e.2) as [f|]; [|done].
  by destruct (pin_count f =? 0).
Qed.

Lemma replace_file_ok file content p :
  pool_ok p -> unpinned_file file p ->
  let q := evict_file file (with_disk (<[file := content]> (disk p)) p) in
  pool_ok q /\ forall id, view q id = if decide (id.1 = file) then page_at (page_size p) content id.2 else view p id.
Proof.
  intros Hok Hun. rewrite evict_file_disk. destruct (evict_file_ok file p Hok Hun) as (A & B & C & D & E).
  set (q := evict_file file p) in *. cbn zeta.
  assert (Hdp : forall id, disk_page (with_disk (<[file := content]> (disk p)) q) id
            = if decide (id.1 = file) then page_at (page_size p) content id.2 else disk_page q id).
  { intros id. unfold disk_page. cbn. rewrite C, B. case_decide as Dc.
    - rewrite Dc, lookup_insert_eq. done.
    - rewrite lookup_insert_ne by congruence. done. }
  split.
  - destruct A as [H1 H2 H3 H4 H5 H6 H7]. split; auto. intros i f Hf Hd. destruct (H4 i f Hf Hd) as (A1 & A2 & A3).
    split; [done|]. split; [done|]. destruct (is_valid (frame_id f)); [|done]. destruct A3 as (A3 & A4 & A5).
    split; [done|]. split; [done|]. rewrite Hdp, decide_False; [done|]. intros Hfile. cbn in A3.
    by rewrite (D _ Hfile) in A3.
  - intros id. unfold view at 1. cbn [page_table frames with_disk]. rewrite Hdp. case_decide as Dc.
    + by rewrite (D _ Dc).
    + rewrite <- E by assumption. reflexivity.
Qed.

Lemma new_pool_ok ps c d : 0 < ps -> 0 < c -> pool_ok (new_pool ps c d).
Proof.
  intros Hps Hc. split; cbn; auto.
  - by rewrite length_replicate.
  - intros i f Hf _. apply lookup_replicate in Hf as [-> Hi]. unfold frame_ok. cbn. rewrite length_replicate.
    split_and!; auto. apply elem_of_seq. lia.
  - intros id i Hi. by rewrite lookup_empty in Hi.
  - split; [apply NoDup_seq|]. intros i Hi. apply elem_of_seq in Hi. split; [done | lia].
  - done.
Qed.

(** * Properties *)

(** C34: the pool is a transparent cache as long as only pages of existing files are
    pinned, one operation after the other.  Pinning a page gives a frame with the
    bytes of the page and changes no page, nor any frame that is pinned.  It fails
    only if the page is not cached and either every frame is pinned, which leaves
    no trace, or its file does not exist, after which the invariant may be
    broken ([failed_pin_poisons]).  A new page reads as zeros or is refused without
    a trace when every frame is pinned; a write through a pinned frame shows in this
    page only, and unpinning shows nowhere; all these keep the invariant, which a new
    pool has. *)
Theorem buffer_pool_transparent (p : Pool) (id : PageId) :
  pool_ok p -> is_valid id = true ->
  pin_result p id (pin id p) /\
  match allocate id p with
  | (p', Ok i) => pool_ok p' /\ (forall id', view p' id' = if decide (id' = id) then replicate (page_size p) x00 else view p id') /\
                  pinned_page p' i id (replicate (page_size p) x00)
  | (p', Throw _) => page_table p !! id = None /\ all_pinned p /\ no_trace p p'
  | (_, UB _) => False
  end /\
  (forall i d, page_table p !! id = Some i -> length d = page_size p ->
     pool_ok (write_frame i d p) /\ forall id', view (write_frame i d p) id' = if decide (id' = id) then d else view p id') /\
  (forall i, pool_ok (unpin i p) /\ forall id', view (unpin i p) id' = view p id').
Proof.
  intros Hok Hv. split; [by apply pin_ok|]. split; [by apply allocate_ok|].
  split; [intros i d ? ?; by apply write_frame_ok | intros i; by apply unpin_ok].
Qed.

Definition ex_disk : gmap bytes bytes := {[ str "a" := str "abcdef" ]}.
Definition ex_pool : Pool := new_pool 4 2 ex_disk.

Lemma buffer_pool_transparent_witness :
  pin_result ex_pool (str "a", 1) (pin (str "a", 1) ex_pool) /\
  view ex_pool (str "a", 1) = str "ef" ++ [x00; x00].
Proof.
  split; [|reflexivity].
  refine (proj1 (buffer_pool_transparent ex_pool (str "a", 1) _ _)); [apply new_pool_ok; lia | reflexivity].
Defined.

(** The clock scan ends within two rounds over the frames, and finds a victim
    exactly when some frame is not pinned; what it does shows in no page. *)
Theorem clock_scan_finds_victim (p : Pool) :
  pool_ok p ->
  (exists p' i, find_victim p = (p', Ok (Some i)) /\ pool_inv (Some i) p' /\ quiet p p' /\
     exists f, frames p !! i = Some f /\ pin_count f = 0) \/
  (exists p', find_victim p = (p', Ok None) /\ pool_ok p' /\ quiet p p' /\ all_pinned p).
Proof.
  intros Hok. pose proof (find_victim_ok p Hok) as H.
  destruct (find_victim p) as [p' [[i|]| |]]; cbn in H; [left | right | done | done]; eauto.
Qed.

Lemma clock_scan_finds_victim_witness :
  exists p' i, find_victim ex_pool = (p', Ok (Some i)).
Proof.
  destruct (clock_scan_finds_victim ex_pool) as [(p' & i & H & _) | (p' & H & _)];
    [apply new_pool_ok; lia | eauto | discriminate H].
Defined.

(** After [flush_all] the disk holds every page as clients see it.  When a
    file was replaced on disk and none of its pages is pinned, [evict_file] makes
    its pages read as the new file and leaves the pages of other files alone;
    without pins on them no stale page survives and no dirty one overwrites the
    new file. *)
Theorem buffer_pool_disk (p : Pool) (file content : bytes) :
  pool_ok p ->
  (pool_ok (flush_all p) /\ forall id, view (flush_all p) id = view p id /\ disk_page (flush_all p) id = view p id) /\
  (unpinned_file file p ->
   let q := evict_file file (with_disk (<[file := content]> (disk p)) p) in
   pool_ok q /\ forall id, view q id = if decide (id.1 = file) then page_at (page_size p) content id.2 else view p id).
Proof. intros Hok. split; [by apply flush_all_ok | intros; by apply replace_file_ok]. Qed.

Lemma buffer_pool_disk_witness :
  let q := evict_file (str "a") (with_disk (<[str "a" := str "xy"]> (disk ex_pool)) ex_pool) in
  view q (str "a", 0) = str "xy" ++ [x00; x00].
Proof.
  cbn zeta.
  rewrite (proj2 (proj2 (buffer_pool_disk ex_pool (str "a") (str "xy") (new_pool_ok 4 2 ex_disk ltac:(lia) ltac:(lia)))
                        ltac:(intros id i f H; discriminate H)) (str "a", 0)).
  reflexivity.
Defined.

(** A pin whose file cannot be opened throws after the page table was changed:
    the frame stays pinned, and when the page is asked for again the pool returns
    it with the bytes of the page it held before. *)
Lemma failed_pin_poisons :
  let p0 := new_pool 4 1 ex_disk in
  let p1 := match pin (str "a", 0) p0 with (p, Ok i) => unpin i p | (p, _) => p end in
  let p2 := (pin (str "b", 0) p1).1 in
  is_ok (pin (str "b", 0) p1).2 = false /\
  (pin (str "b", 0) p2).2 = Ok 0 /\
  data <$> frames (pin (str "b", 0) p2).1 !! 0 = Some (str "abcd") /\
  is_ok (pin (str "a", 0) p2).2 = false.
Proof. vm_compute. auto. Qed.

(** Between the two parts of a pin another thread finds the page in the table and
    reads the frame before the page was loaded into it. *)
Lemma pin_seen_before_load :
  let p0 := new_pool 4 1 ex_disk in
  let p1 := (pin_latched (str "a", 0) p0).1 in
  (pin (str "a", 0) p1).2 = Ok 0 /\
  data <$> frames (pin (str "a", 0) p1).1 !! 0 = Some [x00; x00; x00; x00] /\
  view p0 (str "a", 0) = str "abcd".
Proof. vm_compute. auto. Qed.
