(* ===== verification/Eval.v ===== *)
(** Expressions and predicates: the expression part of [include/corodb/ast/ast.h]
    and the evaluators [src/executor/expression_evaluator.cpp] and
    [src/executor/bool_evaluator.cpp], with three-valued logic, the LIKE matcher
    and the order used for comparison and sorting.

    A subquery is run through the interface [SubqueryRunner], an argument of
    [eval_bool]; the type of its statements is left open here. *)
From Stdlib Require Import ZArith Lia Strings.Byte.
From stdpp Require Import base numbers list strings.
From S2P Require Import Prelude Values Doubles.
Local Open Scope Z_scope.

(** * Syntax *)

Record ColumnRef := mkRef { ref_table : bytes; ref_name : bytes }.

Inductive AggFunc := Count | Sum | Avg | Min | Max.
Inductive BinOp := Add | Sub | Mul | Div | Mod | Concat.
Inductive ScalarFunc := Coalesce | Nullif | Upper | Lower | Length | Trim | Substr | Abs.
Inductive CompareOp := Eq | Ne | Lt | Le | Gt | Ge | Like | NotLike | IsNull | IsNotNull.

(** The shared pointers of the variant may be null. *)
Inductive Expression :=
| EColumn (c : ColumnRef)
| ELiteral (v : Value)
| EBinary (op : BinOp) (lhs rhs : Expression)
| EBinaryNull
| EAggregate (func : AggFunc) (arg : option ColumnRef)
| EFunction (func : ScalarFunc) (args : list Expression)
| EFunctionNull.

Record Comparison := mkCmp { cmp_lhs : Expression; cmp_op : CompareOp; cmp_rhs : Expression }.

Record BetweenExpr := mkBetween { btw_expr : Expression; btw_low : Expression; btw_high : Expression; btw_negated : bool }.

Record InExpr (Q : Type) := mkIn {
  in_expr : Expression;
  in_values : list Expression;
  in_negated : bool;
  in_subquery : option Q;
  in_exists_only : bool
}.
Arguments mkIn {Q}. Arguments in_expr {Q}. Arguments in_values {Q}. Arguments in_negated {Q}.
Arguments in_subquery {Q}. Arguments in_exists_only {Q}.

(** By kind; the parts a kind needs may be missing. *)
Inductive BoolExpr (Q : Type) :=
| BComparison (cmp : option Comparison)
| BAnd (left right : option (BoolExpr Q))
| BOr (left right : option (BoolExpr Q))
| BNot (left : option (BoolExpr Q))
| BIn (i : option (InExpr Q))
| BBetween (b : option BetweenExpr).
Arguments BComparison {Q}. Arguments BAnd {Q}. Arguments BOr {Q}. Arguments BNot {Q}.
Arguments BIn {Q}. Arguments BBetween {Q}.

Record Binding := mkBinding { b_table : bytes; b_column : bytes }.
Record Record_ := mkRecord { rec_values : list Value; rec_bindings : list Binding }.

(** * Scalar expressions *)

(** [record.values[i]] for the first binding that satisfies the test. *)
Fixpoint find_binding (f : Binding -> bool) (bs : list Binding) (vs : list Value) : option (res Value) :=
  match bs with
  | [] => None
  | b :: bs =>
      if f b then Some (match vs with v :: _ => Ok v | [] => UB "values shorter than bindings" end)
      else find_binding f bs (tail vs)
  end.

Definition lookup_ref (r : Record_) (c : ColumnRef) : res Value :=
  match find_binding (fun b => (bool_decide (ref_table c = []) || bool_decide (b_table b = ref_table c))
                               && bool_decide (b_column b = ref_name c)) (rec_bindings r) (rec_values r) with
  | Some v => v
  | None => Throw "[Executor] Column not found"
  end.

Definition lookup_by_name (r : Record_) (name : bytes) : res Value :=
  match find_binding (fun b => bool_decide (b_column b = name)) (rec_bindings r) (rec_values r) with
  | Some v => v
  | None => Throw "[Executor] Column not found"
  end.

(** [std::toupper] and [std::tolower] of the C locale. *)
Definition to_upper (b : byte) : byte := if (97 <=? b2z b) && (b2z b <=? 122) then z2b (b2z b - 32) else b.
Definition to_lower (b : byte) : byte := if (65 <=? b2z b) && (b2z b <=? 90) then z2b (b2z b + 32) else b.

Definition is_space (b : byte) : bool := (b2z b =? 32) || (b2z b =? 9) || (b2z b =? 10) || (b2z b =? 13).
Fixpoint trim_left (s : bytes) : bytes :=
  match s with [] => [] | b :: s' => if is_space b then trim_left s' else s end.
Definition trim (s : bytes) : bytes := reverse (trim_left (reverse (trim_left s))).

(** The result of an [int64_t] operation, which must be representable. *)
Definition int64 (n : Z) : res Value :=
  if (- 2 ^ 63 <=? n) && (n <? 2 ^ 63) then Ok (VInt n) else UB "signed overflow".

(** The arguments are given by their evaluations, in order; an evaluation counts
    only where the code makes it. *)
Definition arg (args : list (res Value)) (i : nat) : res Value :=
  match args !! i with Some v => v | None => UB "missing argument" end.

Fixpoint coalesce (args : list (res Value)) : res Value :=
  match args with
  | [] => Ok VNull
  | a :: args => v ← a; if is_null v then coalesce args else Ok v
  end.

(** UPPER, LOWER, LENGTH and TRIM: NULL for NULL, an error unless a string. *)
Definition on_text (args : list (res Value)) (what : string) (f : bytes -> Value) : res Value :=
  v ← arg args 0;
  match v with VNull => Ok VNull | VText s => Ok (f s) | _ => Throw what end.

Definition substr (args : list (res Value)) : res Value :=
  v ← arg args 0;
  match v with
  | VNull => Ok VNull
  | VText s =>
      sv ← arg args 1;
      match sv with
      | VInt start =>
          let pos := (if start <? 1 then 1 else start) - 1 in
          if blen s <=? pos then Ok (VText [])
          else
            len ← (if (2 <? length args)%nat then
                     lv ← arg args 2;
                     match lv with
                     | VInt l => Ok (if l <? 0 then 0 else l)
                     | _ => Throw "[Executor] SUBSTR requires integer length"
                     end
                   else Ok (blen s - pos));
            Ok (VText (take (Z.to_nat len) (drop (Z.to_nat pos) s)))
      | _ => Throw "[Executor] SUBSTR requires integer start position"
      end
  | _ => Throw "[Executor] SUBSTR requires string as first argument"
  end.

Definition eval_function (f : ScalarFunc) (args : list (res Value)) : res Value :=
  match f with
  | Coalesce => coalesce args
  | Nullif => a ← arg args 0; b ← arg args 1; Ok (if ValueEq a b then VNull else a)
  | Upper => on_text args "[Executor] UPPER requires string argument" (fun s => VText (map to_upper s))
  | Lower => on_text args "[Executor] LOWER requires string argument" (fun s => VText (map to_lower s))
  | Length => on_text args "[Executor] LENGTH requires string argument" (fun s => VInt (blen s))
  | Trim => on_text args "[Executor] TRIM requires string argument" (fun s => VText (trim s))
  | Substr => substr args
  | Abs =>
      v ← arg args 0;
      match v with
      | VNull => Ok VNull
      | VInt n => if n <? 0 then int64 (- n) else Ok (VInt n)
      | _ => Throw "[Executor] ABS requires integer argument"
      end
  end.

(** The operand of a concatenation; NULL is the empty string. *)
Definition concat_text (v : Value) : bytes :=
  match v with VNull => [] | VText s => s | VInt n => int_to_string n | VDouble d => dbl_to_string d end.

Definition eval_int (op : BinOp) (l r : Z) : res Value :=
  match op with
  | Add => int64 (l + r)
  | Sub => int64 (l - r)
  | Mul => int64 (l * r)
  | Div => if r =? 0 then Throw "[Executor] Division by zero"
           else Ok (VDouble (dbl_div (dbl_of_int l) (dbl_of_int r)))
  | Mod => if r =? 0 then Throw "[Executor] Modulo by zero"
           else if (l =? - 2 ^ 63) && (r =? -1) then UB "signed overflow" else Ok (VInt (Z.rem l r))
  | Concat => Throw "[Executor] Unknown binary operator"
  end.

Definition to_double (v : Value) : res Z :=
  match v with
  | VInt n => Ok (dbl_of_int n)
  | VDouble d => Ok d
  | _ => Throw "[Executor] Non-numeric operand in float arithmetic"
  end.

Definition eval_double (op : BinOp) (l r : Z) : res Value :=
  match op with
  | Add => Ok (VDouble (dbl_add l r))
  | Sub => Ok (VDouble (dbl_sub l r))
  | Mul => Ok (VDouble (dbl_mul l r))
  | Div => if dbl_eq r 0 then Throw "[Executor] Division by zero" else Ok (VDouble (dbl_div l r))
  | Mod => Throw "[Executor] Modulo not supported for float operands"
  | Concat => Throw "[Executor] Unknown binary operator"
  end.

Definition is_double (v : Value) : bool := match v with VDouble _ => true | _ => false end.

Definition eval_binary (op : BinOp) (l r : Value) : res Value :=
  match op with
  | Concat => Ok (VText (concat_text l ++ concat_text r))
  | _ =>
      if is_null l || is_null r then Ok VNull
      else if is_double l || is_double r then a ← to_double l; b ← to_double r; eval_double op a b
      else match l, r with
           | VInt a, VInt b => eval_int op a b
           | _, _ => Throw "[Executor] Unsupported operand type for arithmetic"
           end
  end.

(** An aggregate was computed before: it is looked up by its argument's name,
    and is otherwise the last value of the record. *)
Definition eval_aggregate (r : Record_) (a : option ColumnRef) : res Value :=
  match a ≫= (fun c => find_binding (fun b => bool_decide (b_column b = ref_name c)) (rec_bindings r) (rec_values r)) with
  | Some v => v
  | None => match last (rec_values r) with
            | Some v => Ok v
            | None => Throw "[Executor] Aggregate not found in record"
            end
  end.

Fixpoint eval (r : Record_) (e : Expression) : res Value :=
  match e with
  | EColumn c => lookup_ref r c
  | ELiteral v => Ok v
  | EBinary op lhs rhs => l ← eval r lhs; x ← eval r rhs; eval_binary op l x
  | EBinaryNull => Throw "[Executor] Invalid binary expression"
  | EAggregate _ a => eval_aggregate r a
  | EFunction f args => eval_function f (map (eval r) args)
  | EFunctionNull => Throw "[Executor] Invalid function expression"
  end.

(** * Comparison *)

Definition is_num (v : Value) : bool := match v with VInt _ | VDouble _ => true | _ => false end.

(** -1, 0 or 1; NULL is the largest value; numbers compare as doubles. *)
Definition compare_order (l r : Value) : res Z :=
  match l, r with
  | VNull, VNull => Ok 0
  | VNull, _ => Ok 1
  | _, VNull => Ok (-1)
  | VText a, VText b => Ok (if bytes_lt a b then -1 else if bytes_lt b a then 1 else 0)
  | _, _ =>
      if is_num l && is_num r then
        a ← to_double l; b ← to_double r; Ok (if dbl_lt a b then -1 else if dbl_lt b a then 1 else 0)
      else Throw "[Executor] Type mismatch in comparison"
  end.

(** The matcher of LIKE: positions in the text and in the pattern, and the last
    [%] met with the text position it was met at; [fuel] bounds its loop. *)
Fixpoint match_like_loop (fuel : nat) (t p : bytes) (ti pi : nat) (star : option (nat * nat)) : option bool :=
  match fuel with
  | O => None
  | S fuel =>
      match t !! ti with
      | None => Some (forallb (fun c => b2z c =? 37) (drop pi p))
      | Some tc =>
          if match p !! pi with Some pc => (b2z pc =? 95) || bool_decide (pc = tc) | None => false end
          then match_like_loop fuel t p (S ti) (S pi) star
          else if match p !! pi with Some pc => b2z pc =? 37 | None => false end
          then match_like_loop fuel t p ti (S pi) (Some (pi, ti))
          else match star with
               | Some (sp, st) => match_like_loop fuel t p (S st) (S sp) (Some (sp, S st))
               | None => Some false
               end
      end
  end.

Definition like_fuel (t p : bytes) : nat := (S (length t) * S (length t + length p) + length t + length p + 1)%nat.

Definition match_like (t p : bytes) : bool := default false (match_like_loop (like_fuel t p) t p 0 0 None).

Definition sql (b : bool) : SqlBool := if b then SqlTrue else SqlFalse.

Definition compare_result (op : CompareOp) (ord : Z) : bool :=
  match op with
  | Eq => ord =? 0 | Ne => negb (ord =? 0)
  | Lt => ord <? 0 | Le => ord <=? 0 | Gt => 0 <? ord | Ge => 0 <=? ord
  | _ => false
  end.

Definition eval_comparison (c : Comparison) (r : Record_) : res SqlBool :=
  l ← eval r (cmp_lhs c);
  match cmp_op c with
  | IsNull => Ok (sql (is_null l))
  | IsNotNull => Ok (sql (negb (is_null l)))
  | op =>
      x ← eval r (cmp_rhs c);
      if is_null l || is_null x then Ok SqlUnknown
      else match op with
           | Like | NotLike =>
               match l, x with
               | VText t, VText p => Ok (sql (match op with NotLike => negb (match_like t p) | _ => match_like t p end))
               | _, _ => Ok SqlFalse
               end
           | _ => ord ← compare_order l x; Ok (sql (compare_result op ord))
           end
  end.

(** * Predicates *)

Definition and3 (a b : SqlBool) : SqlBool :=
  match a, b with
  | SqlFalse, _ | _, SqlFalse => SqlFalse
  | SqlUnknown, _ | _, SqlUnknown => SqlUnknown
  | _, _ => SqlTrue
  end.
Definition or3 (a b : SqlBool) : SqlBool :=
  match a, b with
  | SqlTrue, _ | _, SqlTrue => SqlTrue
  | SqlUnknown, _ | _, SqlUnknown => SqlUnknown
  | _, _ => SqlFalse
  end.
Definition not3 (a : SqlBool) : SqlBool :=
  match a with SqlTrue => SqlFalse | SqlFalse => SqlTrue | SqlUnknown => SqlUnknown end.

(** The loop over the list of an IN: whether the value was found, and whether a
    NULL was met before. *)
Fixpoint in_loop (l : Value) (vs : list (res Value)) (has_null : bool) : res (bool * bool) :=
  match vs with
  | [] => Ok (false, has_null)
  | x :: vs =>
      v ← x;
      if is_null v then in_loop l vs true
      else if ValueEq l v then Ok (true, has_null) else in_loop l vs has_null
  end.

Definition in_result (negated : bool) (fn : bool * bool) : SqlBool :=
  if fn.1 then sql (negb negated) else if fn.2 then SqlUnknown else sql negated.

Section Predicates.
Context {Q : Type}.

(** [SubqueryRunner::run_subquery]. *)
Variable subq : option (Q -> Record_ -> bool -> res (list Value)).

Definition eval_in (i : InExpr Q) (r : Record_) : res SqlBool :=
  match in_subquery i with
  | Some q =>
      match subq with
      | None => Throw "[Executor] Unresolved IN subquery (must be resolved before execution)"
      | Some run =>
          vals ← run q r (in_exists_only i);
          if in_exists_only i then Ok (sql (negb (bool_decide (vals = []))))
          else l ← eval r (in_expr i);
               if is_null l then Ok SqlUnknown
               else fn ← in_loop l (map Ok vals) false; Ok (in_result (in_negated i) fn)
      end
  | None =>
      l ← eval r (in_expr i);
      if is_null l then Ok SqlUnknown
      else fn ← in_loop l (map (eval r) (in_values i)) false; Ok (in_result (in_negated i) fn)
  end.

Definition eval_between (b : BetweenExpr) (r : Record_) : res SqlBool :=
  v ← eval r (btw_expr b);
  lo ← eval r (btw_low b);
  hi ← eval r (btw_high b);
  if is_null v || is_null lo || is_null hi then Ok SqlUnknown
  else
    a ← compare_order v lo;
    in_range ← (if 0 <=? a then c ← compare_order v hi; Ok (c <=? 0) else Ok false);
    Ok (sql (if btw_negated b then negb in_range else in_range)).

Fixpoint eval_bool (e : BoolExpr Q) (r : Record_) : res SqlBool :=
  match e with
  | BComparison (Some c) => eval_comparison c r
  | BComparison None => Throw "[Executor] Missing comparison expression"
  | BAnd (Some a) (Some b) => x ← eval_bool a r; y ← eval_bool b r; Ok (and3 x y)
  | BAnd _ _ => Throw "[Executor] Malformed AND expression"
  | BOr (Some a) (Some b) => x ← eval_bool a r; y ← eval_bool b r; Ok (or3 x y)
  | BOr _ _ => Throw "[Executor] Malformed OR expression"
  | BNot (Some a) => x ← eval_bool a r; Ok (not3 x)
  | BNot None => Throw "[Executor] Malformed NOT expression"
  | BIn (Some i) => eval_in i r
  | BIn None => Throw "[Executor] Missing IN expression"
  | BBetween (Some b) => eval_between b r
  | BBetween None => Throw "[Executor] Missing BETWEEN expression"
  end.

End Predicates.

(** * The LIKE matcher *)

Definition pct : byte := x25.
Definition underscore : byte := x5f.

(** The reference: [%] stands for any text, [_] for one character. *)
Inductive likes : bytes -> bytes -> Prop :=
| likes_nil : likes [] []
| likes_pct pre t p : likes t p -> likes (pre ++ t) (pct :: p)
| likes_any c t p : likes t p -> likes (c :: t) (underscore :: p)
| likes_char c t p : c <> pct -> c <> underscore -> likes t p -> likes (c :: t) (c :: p).

(** A pattern character that stands for one character of the text. *)
Definition one (g c : byte) : Prop := g <> pct /\ (g = underscore \/ g = c).

Lemma likes_one g c t p : one g c -> likes t p -> likes (c :: t) (g :: p).
Proof.
  intros [Hg [-> | ->]] H; [by constructor|]. destruct (decide (c = underscore)) as [-> | N]; by constructor.
Qed.

Lemma likes_one_inv g u p : g <> pct -> likes u (g :: p) -> exists c t, u = c :: t /\ one g c /\ likes t p.
Proof.
  intros Hg H. inversion H; subst; [done| |]; eexists _, _; split; try done; split; try done; by split; auto.
Qed.

Lemma likes_seg G S t p : Forall2 one G S -> likes t p -> likes (S ++ t) (G ++ p).
Proof. induction 1; cbn; [done|]. intros. apply likes_one; auto. Qed.

Lemma likes_seg_inv G u p :
  Forall (fun g => g <> pct) G -> likes u (G ++ p) -> exists a w, u = a ++ w /\ length a = length G /\ likes w p.
Proof.
  intros HG. revert u. induction HG as [|g G Hg HG IH]; intros u H; cbn in H.
  - exists [], u. auto.
  - apply likes_one_inv in H as (c & t & -> & _ & H); [|assumption].
    destruct (IH t H) as (a & w & -> & Ha & Hw). exists (c :: a), w. cbn. auto.
Qed.

Lemma one_seg G S : Forall2 one G S -> Forall (fun g => g <> pct) G /\ length G = length S.
Proof. induction 1 as [|g c G S [Hg _] _ [IH1 IH2]]; cbn; auto. Qed.

Lemma suffix_split (a w b T : bytes) : a ++ w = b ++ T -> (length w <= length T)%nat -> exists x, T = x ++ w.
Proof.
  intros E Hl. exists (drop (length b) a). pose proof (f_equal length E) as El. rewrite !length_app in El.
  rewrite <- (drop_app_length b T), <- E, drop_app_le by lia. reflexivity.
Qed.

(** Past a [%] and the single characters after it only the rest matters: any
    match of the whole leaves a match of the rest on a suffix. *)
Lemma star_shift G S T P :
  Forall2 one G S -> likes (S ++ T) (pct :: (G ++ P)) -> exists x w, T = x ++ w /\ likes w P.
Proof.
  intros HGS H. destruct (one_seg _ _ HGS) as [HG Hlen].
  inversion H as [|pre u p' Hu Eu| |]; subst; [|done].
  destruct (likes_seg_inv _ _ _ HG Hu) as (a & w & -> & Ha & Hw).
  rewrite app_assoc in Eu. destruct (suffix_split (pre ++ a) w S T Eu) as [x Hx]; [|eauto].
  pose proof (f_equal length Eu) as El. rewrite !length_app in El. lia.
Qed.

Lemma likes_pct_more x w P : likes w (pct :: P) -> likes (x ++ w) (pct :: P).
Proof. inversion 1; subst; [|done]. rewrite app_assoc. by constructor. Qed.

Lemma likes_nil_pcts P : likes [] P <-> forallb (fun c => b2z c =? 37) P = true.
Proof.
  induction P as [|c P IH]; cbn; [split; [done | intros; constructor]|].
  rewrite andb_true_iff, <- IH. split.
  - inversion 1 as [|pre t p H' E| |]; subst. apply app_eq_nil in E as [-> ->]. done.
  - intros [Hc H]. assert (c = pct) as -> by (apply b2z_inj; by apply Z.eqb_eq in Hc). apply (likes_pct [] [] P H).
Qed.

Lemma likes_pct_step c t P : likes (c :: t) (pct :: P) <-> likes (c :: t) P \/ likes t (pct :: P).
Proof.
  split.
  - inversion 1 as [|pre u p H' E| |]; subst; [|done]. destruct pre as [|c' pre]; cbn in *; [by left|].
    injection E as <- <-. right. by constructor.
  - intros [H | H]; [apply (likes_pct [] _ _ H) | apply (likes_pct_more [c] _ _ H)].
Qed.

(** What the matcher knows: without a [%] so far the rest decides; with one, the
    text from it on against the pattern from it on decides, and the characters
    matched since then stand for themselves. *)
Definition like_inv (t p : bytes) (ti pi : nat) (star : option (nat * nat)) : Prop :=
  match star with
  | None => likes t p <-> likes (drop ti t) (drop pi p)
  | Some (sp, st) =>
      drop sp p = pct :: drop (S sp) p /\
      (likes t p <-> likes (drop st t) (drop sp p)) /\
      exists G S0, drop st t = S0 ++ drop ti t /\ drop (S sp) p = G ++ drop pi p /\ Forall2 one G S0
  end.

Lemma like_inv_decides t p ti pi star :
  like_inv t p ti pi star -> likes t p -> exists x w, drop ti t = x ++ w /\ likes w (drop pi p).
Proof.
  destruct star as [[sp st]|]; cbn.
  - intros (Hp & Hiff & G & S0 & Et & Ep & HG) H. apply Hiff in H. rewrite Hp, Ep, Et in H. by eapply star_shift.
  - intros Hiff H. exists [], (drop ti t). split; [done | by apply Hiff].
Qed.

Lemma like_inv_rest t p ti pi star : like_inv t p ti pi star -> likes (drop ti t) (drop pi p) -> likes t p.
Proof.
  destruct star as [[sp st]|]; cbn; [|tauto]. intros (Hp & Hiff & G & S0 & Et & Ep & HG) H. apply Hiff.
  rewrite Hp, Et, Ep. apply (likes_pct []). by apply likes_seg.
Qed.

(** After a mismatch the text from the next character on decides. *)
Lemma like_retry t p ti pi sp st tc :
  like_inv t p ti pi (Some (sp, st)) -> (st <= ti)%nat -> t !! ti = Some tc ->
  ~ likes (drop ti t) (drop pi p) -> like_inv t p (S st) (S sp) (Some (sp, S st)).
Proof.
  cbn. intros (Hp & Hiff & G & S0 & Et & Ep & HG) Hle Htc Hno. split; [done|]. split; [|exists [], []; cbn; auto].
  assert (Hl : (st < length t)%nat) by (apply lookup_lt_Some in Htc; lia).
  destruct (lookup_lt_is_Some_2 _ _ Hl) as [c Hc]. pose proof (drop_S _ _ _ Hc) as Ec.
  rewrite Hiff, Hp, Ec, likes_pct_step. split; [|auto]. intros [H | H]; [|done]. exfalso.
  rewrite <- Ec, Et, Ep in H. apply Hno. destruct (one_seg _ _ HG) as [HG' Hlen].
  destruct (likes_seg_inv _ _ _ HG' H) as (a & w & E & Ha & Hw).
  apply app_inj_1 in E as [_ ->]; [assumption | lia].
Qed.

Lemma like_loop_correct fuel t p ti pi star b :
  pct ∉ t -> like_inv t p ti pi star ->
  (match star with Some (_, st) => (st <= ti)%nat | None => True end) ->
  match_like_loop fuel t p ti pi star = Some b -> b = true <-> likes t p.
Proof.
  intros Hpct. revert ti pi star. induction fuel as [|fuel IH]; intros ti pi star Hinv Hst Hrun; cbn in Hrun; [discriminate|].
  destruct (t !! ti) as [tc|] eqn:Et.
  2:{ injection Hrun as <-. apply lookup_ge_None in Et. rewrite <- likes_nil_pcts.
      assert (Ed : drop ti t = []) by (apply drop_ge; lia). split.
      - intros H. eapply like_inv_rest; [exact Hinv | by rewrite Ed].
      - intros H. destruct (like_inv_decides _ _ _ _ _ Hinv H) as (x & w & E & Hw). rewrite Ed in E.
        symmetry in E. apply app_eq_nil in E as [-> ->]. exact Hw. }
  assert (Htc : tc <> pct) by (intros ->; apply Hpct; by eapply list_elem_of_lookup_2).
  pose proof (drop_S _ _ _ Et) as Edt.
  destruct (p !! pi) as [pc|] eqn:Ep.
  - pose proof (drop_S _ _ _ Ep) as Edp. destruct ((b2z pc =? 95) || bool_decide (pc = tc)) eqn:Em.
    + assert (Hone : one pc tc).
      { apply orb_true_iff in Em as [E | E].
        - apply Z.eqb_eq in E. assert (pc = underscore) as -> by (by apply b2z_inj). split; [done | by left].
        - apply bool_decide_eq_true in E as ->. split; [done | by right]. }
      apply (IH _ _ _) in Hrun; [exact Hrun | | destruct star as [[? ?]|]; [lia | done]].
      destruct star as [[sp st]|]; cbn in *.
      * destruct Hinv as (Hp & Hiff & G & S0 & E1 & E2 & HG). split; [done|]. split; [done|].
        exists (G ++ [pc]), (S0 ++ [tc]). rewrite <- !app_assoc. cbn. rewrite <- Edt, <- Edp.
        split; [done|]. split; [done|]. apply Forall2_app; [done|]. constructor; [done | constructor].
      * rewrite Hinv, Edt, Edp. split; [|by apply likes_one].
        intros H. apply likes_one_inv in H as (c & u & E & _ & H); [by simplify_eq | apply Hone].
    + destruct (b2z pc =? 37) eqn:E37.
      * assert (pc = pct) as -> by (apply b2z_inj; by apply Z.eqb_eq in E37).
        apply IH in Hrun; [exact Hrun | | lia]. cbn. split; [done|]. split.
        -- rewrite Edp. split.
           ++ intros H. destruct (like_inv_decides _ _ _ _ _ Hinv H) as (x & w & E & Hw).
              rewrite E. apply likes_pct_more. by rewrite <- Edp.
           ++ intros H. eapply like_inv_rest; [exact Hinv | by rewrite Edp].
        -- exists [], []. cbn. auto.
      * assert (Hno : ~ likes (drop ti t) (drop pi p)).
        { assert (Hpc : pc <> pct) by (intros ->; vm_compute in E37; discriminate).
          apply orb_false_iff in Em as [E95 Eeq]. rewrite Edt, Edp. intros H.
          destruct (likes_one_inv _ _ _ Hpc H) as (c & u & E & [_ Hor] & _). injection E as <- _.
          destruct Hor as [-> | ->]; [vm_compute in E95; discriminate|].
          by rewrite bool_decide_true in Eeq. }
        destruct star as [[sp st]|]; [|injection Hrun as <-; cbn in Hinv; rewrite Hinv; split; [discriminate | done]].
        apply IH in Hrun; [exact Hrun | | lia]. eapply like_retry; eassumption.
  - assert (Hno : ~ likes (drop ti t) (drop pi p)).
    { rewrite Edt. apply lookup_ge_None in Ep. rewrite (drop_ge p) by lia. inversion 1. }
    destruct star as [[sp st]|]; [|injection Hrun as <-; cbn in Hinv; rewrite Hinv; split; [discriminate | done]].
    apply IH in Hrun; [exact Hrun | | lia]. eapply like_retry; eassumption.
Qed.

Lemma like_loop_ends fuel t p ti pi star :
  (ti <= length t)%nat -> (pi <= length p)%nat ->
  (match star with
   | Some (sp, st) => (st <= ti)%nat /\ (sp < length p)%nat /\
       ((length t - st) * S (length t + length p) + (length t - ti) + (length p - pi) < fuel)%nat
   | None => (S (length t) * S (length t + length p) + (length t - ti) + (length p - pi) < fuel)%nat
   end) ->
  is_Some (match_like_loop fuel t p ti pi star).
Proof.
  revert ti pi star. induction fuel as [|fuel IH]; intros ti pi star Hti Hpi Hm; [destruct star as [[? ?]|]; lia|].
  cbn. destruct (t !! ti) as [tc|] eqn:Et; [apply lookup_lt_Some in Et | by eexists].
  assert (Hretry : match star with Some (sp, st) => is_Some (match_like_loop fuel t p (S st) (S sp) (Some (sp, S st))) | None => True end).
  { destruct star as [[sp st]|]; [|done]. apply IH; [lia | lia|]. split; [lia|]. split; [lia|].
    destruct Hm as (H1 & H2 & H3). replace (length t - st)%nat with (S (length t - S st)) in H3 by lia. lia. }
  destruct (p !! pi) as [pc|] eqn:Ep.
  - apply lookup_lt_Some in Ep. destruct ((b2z pc =? 95) || bool_decide (pc = tc)).
    + apply IH; [lia | lia|]. destruct star as [[sp st]|]; lia.
    + destruct (b2z pc =? 37).
      * apply IH; [lia | lia|]. split; [lia|]. split; [lia|]. destruct star as [[sp st]|]; [|nia].
        destruct Hm as (H1 & H2 & H3). nia.
      * destruct star as [[sp st]|]; [done | by eexists].
  - destruct star as [[sp st]|]; [done | by eexists].
Qed.

Lemma match_like_runs t p : exists b, match_like_loop (like_fuel t p) t p 0 0 None = Some b /\ match_like t p = b.
Proof.
  destruct (like_loop_ends (like_fuel t p) t p 0 0 None) as [b Hb]; [lia | lia | unfold like_fuel; lia|].
  exists b. unfold match_like. by rewrite Hb.
Qed.

(** * Comparison and predicates *)

Definition int64_range (n : Z) : Prop := - 2 ^ 63 <= n < 2 ^ 63.
Definition exact_int (n : Z) : Prop := - 2 ^ 53 <= n <= 2 ^ 53.

Lemma compare_ints a b :
  int64_range a -> int64_range b ->
  compare_order (VInt a) (VInt b) = Ok (if int_key a <? int_key b then -1 else if int_key b <? int_key a then 1 else 0).
Proof. intros Ha Hb. cbn. by rewrite !dbl_of_int_lt. Qed.

Lemma compare_exact a b :
  exact_int a -> exact_int b -> compare_order (VInt a) (VInt b) = Ok (Z.sgn (a - b)).
Proof.
  unfold exact_int. intros Ha Hb. rewrite compare_ints by (unfold int64_range; lia). f_equal.
  destruct (Z.lt_trichotomy a b) as [H | [-> | H]].
  - destruct (int_key_mono a b ltac:(lia)) as [_ Hs]. specialize (Hs ltac:(lia) ltac:(lia) ltac:(lia)).
    rewrite (proj2 (Z.ltb_lt _ _) Hs). lia.
  - rewrite Z.ltb_irrefl. lia.
  - destruct (int_key_mono b a ltac:(lia)) as [_ Hs]. specialize (Hs ltac:(lia) ltac:(lia) ltac:(lia)).
    destruct (Z.ltb_spec (int_key a) (int_key b)); [lia|]. rewrite (proj2 (Z.ltb_lt _ _) Hs). lia.
Qed.

Lemma compare_never_reversed a b o :
  int64_range a -> int64_range b -> compare_order (VInt a) (VInt b) = Ok o -> (o < 0 -> a < b) /\ (0 < o -> b < a).
Proof.
  intros Ha Hb. rewrite compare_ints by assumption. intros [= <-].
  destruct (Z.le_ge_cases a b) as [H | H].
  - destruct (int_key_mono a b H) as [Hm _]. destruct (Z.ltb_spec (int_key a) (int_key b)); [|destruct (Z.ltb_spec (int_key b) (int_key a)); lia].
    split; [|lia]. intros _. destruct (Z.eq_dec a b) as [-> | ?]; lia.
  - destruct (int_key_mono b a H) as [Hm _]. destruct (Z.ltb_spec (int_key a) (int_key b)); [lia|].
    destruct (Z.ltb_spec (int_key b) (int_key a)); [|lia]. split; [lia|]. intros _. destruct (Z.eq_dec a b) as [-> | ?]; lia.
Qed.

(** Two values on which [=] and the equality of IN agree. *)
Definition comparable (l v : Value) : Prop :=
  match l, v with
  | VInt a, VInt b => exact_int a /\ exact_int b
  | VDouble a, VDouble b => dbl_is_nan a = false /\ dbl_is_nan b = false
  | VText _, VText _ => True
  | _, _ => False
  end.

Lemma comparable_eq l v :
  comparable l v -> exists o, compare_order l v = Ok o /\ (o =? 0) = ValueEq l v /\ is_null l = false /\ is_null v = false.
Proof.
  destruct l as [|a|a|a], v as [|b|b|b]; try done; cbn [comparable is_null].
  - intros [Ha Hb]. rewrite compare_exact by assumption. eexists. split; [done|]. split; [|done]. cbn [ValueEq].
    destruct (Z.eqb_spec a b) as [-> | N]; [by rewrite Z.sub_diag|]. apply Z.eqb_neq. lia.
  - intros [Ha Hb]. cbn. unfold dbl_lt, dbl_eq. rewrite Ha, Hb. cbn. eexists. split; [done|]. split; [|done].
    destruct (Z.ltb_spec (dbl_key a) (dbl_key b)), (Z.ltb_spec (dbl_key b) (dbl_key a)), (Z.eqb_spec (dbl_key a) (dbl_key b)); cbn; lia || done.
  - intros _. cbn. eexists. split; [done|]. split; [|done]. unfold bytes_eq.
    destruct (bytes_lt_total a b) as [-> | [H | H]].
    + rewrite bytes_lt_irrefl, bool_decide_true by done. reflexivity.
    + rewrite H. cbn. rewrite bool_decide_false; [done|]. intros ->. by rewrite bytes_lt_irrefl in H.
    + destruct (bytes_lt a b) eqn:E; [|rewrite H]; cbn; (rewrite bool_decide_false; [done|]); intros ->; by rewrite bytes_lt_irrefl in H.
Qed.

(** [l = v] as the evaluator computes it. *)
Definition eq3 (l v : Value) : SqlBool :=
  if is_null l || is_null v then SqlUnknown
  else match compare_order l v with Ok o => sql (o =? 0) | _ => SqlUnknown end.

(** The value of [l IN (vs)] by its definition: a disjunction of equalities. *)
Definition in_spec (l : Value) (vs : list Value) : SqlBool := foldr or3 SqlFalse (map (eq3 l) vs).

Lemma in_loop_spec l vs has_null :
  is_null l = false -> Forall (fun v => is_null v = true \/ comparable l v) vs ->
  exists fn, in_loop l (map Ok vs) has_null = Ok fn /\
    in_result false fn = or3 (if has_null : bool then SqlUnknown else SqlFalse) (in_spec l vs).
Proof.
  intros Hl Hvs. revert has_null. induction Hvs as [|v vs Hv _ IH]; intros has_null; cbn.
  - eexists. split; [done|]. by destruct has_null.
  - unfold in_spec in *. cbn [map foldr]. unfold eq3 at 1. rewrite Hl. cbn. destruct (is_null v) eqn:Ev.
    + destruct (IH true) as (fn & -> & E). exists fn. split; [done|]. rewrite E.
      by destruct has_null, (foldr _ _ _).
    + destruct Hv as [? | Hv]; [congruence|]. destruct (comparable_eq l v Hv) as (o & -> & Ho & _ & _). rewrite Ho.
      destruct (ValueEq l v); [eexists; split; [done|]; cbn; by destruct has_null|].
      destruct (IH has_null) as (fn & -> & E). exists fn. split; [done|]. rewrite E. cbn. by destruct (foldr _ _ _).
Qed.

(** * Properties *)

(** C37: the LIKE matcher always ends, and on a text without [%] it decides the
    reference relation in which [%] stands for any text and [_] for one
    character, although it never backtracks past the last [%]. *)
Theorem like_matcher_correct (t p : bytes) :
  is_Some (match_like_loop (like_fuel t p) t p 0 0 None) /\
  (pct ∉ t -> match_like t p = true <-> likes t p).
Proof.
  destruct (match_like_runs t p) as (b & Hb & ->). split; [by eexists|]. intros Hp.
  by eapply like_loop_correct; [exact Hp | | | exact Hb].
Qed.

Lemma like_matcher_correct_witness : likes (str "alice") (str "a%c_").
Proof.
  apply (proj2 (like_matcher_correct (str "alice") (str "a%c_"))); [|vm_compute; reflexivity].
  apply (bool_decide_unpack _). vm_compute. exact I.
Defined.

(** Predicates mean what SQL says.  AND, OR and NOT obey De Morgan's law with
    their errors; [x IN (...)] and its negation are the disjunction of the
    equalities in three-valued logic; BETWEEN is the conjunction of [>=] and [<=],
    and its negation the negation of that; comparing integers never gives the
    wrong order and is exact up to 2^53. *)
Theorem predicates_correct {Q : Type} (subq : option (Q -> Record_ -> bool -> res (list Value)))
    (a b : BoolExpr Q) (r : Record_) (e lo hi : Expression) (es : list Expression) (neg : bool)
    (v x y : Value) (vs : list Value) (ox oy m n o : Z) :
  eval r e = Ok v -> eval r lo = Ok x -> eval r hi = Ok y -> map (eval r) es = map Ok vs ->
  is_null v = false -> is_null x = false -> is_null y = false ->
  compare_order v x = Ok ox -> compare_order v y = Ok oy ->
  Forall (fun w => is_null w = true \/ comparable v w) vs ->
  int64_range m -> int64_range n -> compare_order (VInt m) (VInt n) = Ok o ->
  let cmp op rhs := BComparison (Some (mkCmp e op rhs)) in
  let maybe_not e := if neg then BNot (Some e) else e in
  eval_bool subq (BNot (Some (BAnd (Some a) (Some b)))) r
  = eval_bool subq (BOr (Some (BNot (Some a))) (Some (BNot (Some b)))) r /\
  eval_bool subq (BIn (Some (mkIn e es neg None false))) r
  = Ok (if neg then not3 (in_spec v vs) else in_spec v vs) /\
  eval_bool subq (BBetween (Some (mkBetween e lo hi neg))) r
  = eval_bool subq (maybe_not (BAnd (Some (cmp Ge lo)) (Some (cmp Le hi)))) r /\
  ((o < 0 -> m < n) /\ (0 < o -> n < m)) /\
  (exact_int m -> exact_int n -> o = Z.sgn (m - n)).
Proof.
  intros He Hlo Hhi Hes Hv Hx Hy Hox Hoy Hvs Hm Hn Ho cmp maybe_not. split; [|split; [|split; [|split]]].
  - cbn. destruct (eval_bool subq a r) as [p| |]; cbn; [|done|done].
    destruct (eval_bool subq b r) as [q| |]; cbn; [|done|done]. by destruct p, q.
  - cbn. unfold eval_in. cbn. rewrite He. cbn. rewrite Hv, Hes.
    destruct (in_loop_spec v vs false Hv Hvs) as (fn & -> & E). cbn in *.
    destruct neg; [|rewrite E; by destruct (in_spec v vs)].
    assert (Hneg : in_result true fn = not3 (in_result false fn)) by (by destruct fn as [[] []]).
    rewrite Hneg, E. by destruct (in_spec v vs).
  - cbn. unfold eval_between, maybe_not, cmp. cbn. rewrite He, Hlo, Hhi. cbn. rewrite Hv, Hx, Hy. cbn. rewrite Hox. cbn.
    destruct neg; cbn; unfold eval_comparison; cbn; rewrite He; cbn; rewrite Hlo, Hhi; cbn;
      rewrite Hv, Hx, Hy; cbn; rewrite Hox, Hoy; cbn; destruct (0 <=? ox), (oy <=? 0); cbn; rewrite ?Hoy; cbn; done.
  - by eapply compare_never_reversed.
  - intros Hem Hen. rewrite compare_exact in Ho by assumption. congruence.
Qed.

Definition ex_record : Record_ := mkRecord [VInt 5] [mkBinding (str "t") (str "a")].

Lemma predicates_correct_witness :
  let e := EColumn (mkRef [] (str "a")) in
  eval_bool (Q := unit) None (BIn (Some (mkIn e [ELiteral (VInt 4); ELiteral VNull] true None false))) ex_record
  = Ok SqlUnknown.
Proof.
  cbn zeta.
  refine (proj1 (proj2 (predicates_correct None (BComparison None) (BComparison None) ex_record
    (EColumn (mkRef [] (str "a"))) (ELiteral (VInt 1)) (ELiteral (VInt 9)) [ELiteral (VInt 4); ELiteral VNull] true
    (VInt 5) (VInt 1) (VInt 9) [VInt 4; VNull] 1 (-1) 3 7 (-1) _ _ _ _ _ _ _ _ _ _ _ _ _))); try reflexivity.
  - constructor; [right | constructor; [by left | constructor]]. split; split; vm_compute; discriminate.
  - split; vm_compute; [discriminate | reflexivity].
  - split; vm_compute; [discriminate | reflexivity].
Defined.

(** A [%] in the text is taken for the pattern's: ['%a' LIKE '%'] is false. *)
Lemma like_percent_in_text : match_like (str "%a") (str "%") = false /\ likes (str "%a") (str "%").
Proof. split; [vm_compute; reflexivity|]. apply (likes_pct (str "%a") [] []). constructor. Qed.

(** Integers beyond 2^53 that differ compare as equal, while IN tells them apart;
    an integer and a double that compare as equal are different for IN. *)
Lemma comparison_through_double :
  compare_order (VInt (2 ^ 53)) (VInt (2 ^ 53 + 1)) = Ok 0 /\
  ValueEq (VInt (2 ^ 53)) (VInt (2 ^ 53 + 1)) = false /\
  compare_order (VInt 1) (VDouble (dbl_of_int 1)) = Ok 0 /\
  ValueEq (VInt 1) (VDouble (dbl_of_int 1)) = false.
Proof. vm_compute. auto. Qed.

(** BETWEEN is unknown as soon as a bound is NULL, where the conjunction of its
    two comparisons is false. *)
Lemma between_null_bound :
  let e := ELiteral (VInt 10) in
  eval_bool (Q := unit) None (BBetween (Some (mkBetween e (ELiteral VNull) (ELiteral (VInt 5)) false))) ex_record
  = Ok SqlUnknown /\
  eval_bool (Q := unit) None (BAnd (Some (BComparison (Some (mkCmp e Ge (ELiteral VNull)))))
                                   (Some (BComparison (Some (mkCmp e Le (ELiteral (VInt 5))))))) ex_record
  = Ok SqlFalse.
Proof. vm_compute. auto. Qed.
