(* ===== verification/Session.v ===== *)
(** The state of a connection, [include/corodb/db/session.h]: the private write
    buffer of a transaction, its read set and its savepoints.

    A hash table keyed by [Value] is an association list searched with [ValueEq];
    the order of its entries stands for the unspecified iteration order of the
    C++ container, and the theorems do not depend on it. *)
From Stdlib Require Import ZArith Lia.
From stdpp Require Import base numbers list gmap strings.
From S2P Require Import Prelude Values.
Local Open Scope Z_scope.

(** * Hash tables keyed by [Value] *)

Abbreviation vmap A := (list (Value * A)).
Abbreviation vset := (list Value).

Section ValueMaps.
Context {A : Type}.
Implicit Types (m : vmap A) (s : vset) (k : Value).

Fixpoint vfind k m : option A :=
  match m with [] => None | (k', a) :: m => if ValueEq k k' then Some a else vfind k m end.

(** [m[k] = a]. *)
Fixpoint vput k (a : A) m : vmap A :=
  match m with
  | [] => [(k, a)]
  | (k', b) :: m => if ValueEq k k' then (k', a) :: m else (k', b) :: vput k a m
  end.

Fixpoint verase k m : vmap A :=
  match m with [] => [] | (k', b) :: m => if ValueEq k k' then m else (k', b) :: verase k m end.

Definition vmem k s : bool := existsb (ValueEq k) s.
(** [insert(k).second] is whether [k] was new. *)
Definition vadd k s : vset := if vmem k s then s else s ++ [k].
Fixpoint vremove k s : vset :=
  match s with [] => [] | k' :: s => if ValueEq k k' then s else k' :: vremove k s end.

(** ** With keys on which [ValueEq] is equality *)

Lemma vfind_elem k m a : Forall key_ok m.*1 -> key_ok k -> vfind k m = Some a -> (k, a) ∈ m.
Proof.
  intros Hm Hk. induction m as [|[k' b] m IH]; [done|]. cbn in *. apply Forall_cons in Hm as [Hk' Hm].
  destruct (ValueEq k k') eqn:E.
  - apply ValueEq_eq in E as <-; [|done..]. intros [= <-]. by left.
  - intros H. right. by apply IH.
Qed.

Lemma vfind_None k m : Forall key_ok m.*1 -> key_ok k -> vfind k m = None <-> k ∉ m.*1.
Proof.
  intros Hm Hk. induction m as [|[k' b] m IH]; [split; [intros _; apply not_elem_of_nil|done]|].
  cbn in *. apply Forall_cons in Hm as [Hk' Hm]. rewrite not_elem_of_cons.
  destruct (ValueEq k k') eqn:E.
  - apply ValueEq_eq in E as <-; [|done..]. split; [done|tauto].
  - apply ValueEq_ne in E; [|done..]. rewrite IH by done. tauto.
Qed.

Lemma elem_vfind k m a : Forall key_ok m.*1 -> NoDup m.*1 -> (k, a) ∈ m -> vfind k m = Some a.
Proof.
  intros Hm. induction m as [|[k' b] m IH]; intros Hn Hin; [by apply elem_of_nil in Hin|].
  cbn in *. apply Forall_cons in Hm as [Hk' Hm]. apply NoDup_cons in Hn as [Hn1 Hn2].
  apply elem_of_cons in Hin as [[= -> ->]|Hin].
  - by rewrite ValueEq_refl.
  - assert (k ∈ m.*1) as Hk by (by apply (list_elem_of_fmap_2 fst m (k, a))).
    assert (key_ok k) by (by rewrite Forall_forall in Hm; apply Hm).
    destruct (ValueEq k k') eqn:E; [apply ValueEq_eq in E as ->; done|]. by apply IH.
Qed.

Lemma vfind_put k k' a m : Forall key_ok m.*1 -> key_ok k -> key_ok k' ->
  vfind k' (vput k a m) = if decide (k' = k) then Some a else vfind k' m.
Proof.
  intros Hm Hk Hk'. induction m as [|[k0 b] m IH]; cbn in *.
  - case_decide as D; [subst; by rewrite ValueEq_refl|].
    destruct (ValueEq k' k) eqn:E; [by apply ValueEq_eq in E|done].
  - apply Forall_cons in Hm as [H0 Hm]. destruct (ValueEq k k0) eqn:E0; cbn.
    + apply ValueEq_eq in E0 as <-; [|done..]. destruct (ValueEq k' k) eqn:E.
      * apply ValueEq_eq in E as ->; [|done..]. by rewrite decide_True.
      * apply ValueEq_ne in E; [|done..]. by rewrite decide_False.
    + destruct (ValueEq k' k0) eqn:E.
      * apply ValueEq_eq in E as ->; [|done..]. apply ValueEq_ne in E0; [|done..].
        by rewrite decide_False.
      * by apply IH.
Qed.

Lemma vput_keys k a m : Forall key_ok m.*1 -> key_ok k -> NoDup m.*1 ->
  NoDup (vput k a m).*1 /\ Forall key_ok (vput k a m).*1 /\ forall k', k' ∈ (vput k a m).*1 <-> k' = k \/ k' ∈ m.*1.
Proof.
  intros Hm Hk. induction m as [|[k0 b] m IH]; intros Hn; cbn in *.
  - split_and!; [apply NoDup_singleton|by constructor|]. intros k'. rewrite list_elem_of_singleton, elem_of_nil. tauto.
  - apply Forall_cons in Hm as [H0 Hm]. apply NoDup_cons in Hn as [Hn1 Hn2].
    destruct (IH Hm Hn2) as (I1 & I2 & I3). destruct (ValueEq k k0) eqn:E; cbn.
    + apply ValueEq_eq in E as <-; [|done..]. split_and!; [by constructor|by constructor|].
      intros k'. rewrite elem_of_cons. tauto.
    + apply ValueEq_ne in E; [|done..]. split_and!.
      * constructor; [|done]. rewrite I3. intros [->|?]; done.
      * by constructor.
      * intros k'. rewrite !elem_of_cons, I3. tauto.
Qed.

Lemma verase_keys k m : Forall key_ok m.*1 -> key_ok k -> NoDup m.*1 ->
  NoDup (verase k m).*1 /\ Forall key_ok (verase k m).*1 /\
  (forall k' a, (k', a) ∈ verase k m <-> (k', a) ∈ m /\ k' <> k).
Proof.
  intros Hm Hk. induction m as [|[k0 b] m IH]; intros Hn; cbn in *.
  - split_and!; [done|done|]. intros k' a. rewrite elem_of_nil. tauto.
  - apply Forall_cons in Hm as [H0 Hm]. apply NoDup_cons in Hn as [Hn1 Hn2].
    destruct (IH Hm Hn2) as (I1 & I2 & I3). destruct (ValueEq k k0) eqn:E; cbn.
    + apply ValueEq_eq in E as <-; [|done..]. split_and!; [done|done|]. intros k' a.
      rewrite elem_of_cons. split; [|naive_solver]. intros Hin. split; [by right|]. intros ->.
      by apply Hn1, (list_elem_of_fmap_2 fst m (k, a)).
    + apply ValueEq_ne in E; [|done..]. split_and!.
      * constructor; [|done]. intros Hin. apply list_elem_of_fmap in Hin as ([k1 a] & Hk1 & Hin). cbn in Hk1. subst k1.
        apply I3 in Hin as [Hin _]. by apply Hn1, (list_elem_of_fmap_2 fst m (k0, a)).
      * by constructor.
      * intros k' a. rewrite !elem_of_cons, I3. naive_solver.
Qed.

Lemma vmem_elem k s : Forall key_ok s -> key_ok k -> vmem k s = true <-> k ∈ s.
Proof.
  intros Hs Hk. unfold vmem. rewrite existsb_exists. split.
  - intros (k' & Hin%list_elem_of_In & E). rewrite Forall_forall in Hs.
    apply ValueEq_eq in E as <-; auto.
  - intros Hin. exists k. split; [by apply list_elem_of_In|by apply ValueEq_refl].
Qed.

Lemma vadd_elem k k' s : Forall key_ok s -> key_ok k -> k' ∈ vadd k s <-> k' = k \/ k' ∈ s.
Proof.
  intros Hs Hk. unfold vadd. destruct (vmem k s) eqn:E.
  - apply vmem_elem in E; [|done..]. split; [tauto|]. by intros [->|?].
  - rewrite elem_of_app, list_elem_of_singleton. tauto.
Qed.

Lemma vadd_key_ok k s : Forall key_ok s -> key_ok k -> Forall key_ok (vadd k s).
Proof.
  intros Hs Hk. unfold vadd. destruct (vmem k s); [done|]. apply Forall_app. split; [done|]. by constructor.
Qed.

Lemma vadd_NoDup k s : Forall key_ok s -> key_ok k -> NoDup s -> NoDup (vadd k s).
Proof.
  intros Hs Hk Hn. unfold vadd. destruct (vmem k s) eqn:E; [done|]. apply NoDup_app. split_and!; [done| |apply NoDup_singleton].
  intros x Hx ->%list_elem_of_singleton. apply vmem_elem in Hx; [|done..]. congruence.
Qed.

Lemma vremove_elem k s : Forall key_ok s -> key_ok k -> NoDup s ->
  NoDup (vremove k s) /\ Forall key_ok (vremove k s) /\ forall k', k' ∈ vremove k s <-> k' ∈ s /\ k' <> k.
Proof.
  intros Hs Hk. induction s as [|k0 s IH]; intros Hn; cbn.
  - split_and!; [done|done|]. intros k'. rewrite elem_of_nil. tauto.
  - apply Forall_cons in Hs as [H0 Hs]. apply NoDup_cons in Hn as [Hn1 Hn2].
    destruct (IH Hs Hn2) as (I1 & I2 & I3). destruct (ValueEq k k0) eqn:E.
    + apply ValueEq_eq in E as <-; [|done..]. split_and!; [done|done|]. intros k'. rewrite elem_of_cons.
      split; [|naive_solver]. intros Hin. split; [by right|]. by intros ->.
    + apply ValueEq_ne in E; [|done..]. split_and!.
      * constructor; [|done]. rewrite I3. tauto.
      * by constructor.
      * intros k'. rewrite !elem_of_cons, I3. naive_solver.
Qed.

End ValueMaps.

(** * Sessions *)

Inductive IsolationLevel := ReadUncommitted | ReadCommitted | RepeatableRead | Serializable.

#[export] Instance IsolationLevel_eq_dec : EqDecision IsolationLevel.
Proof. solve_decision. Defined.

Record TableTxnBuffer := mkBuffer { upserts : vmap Row; deletes : vset }.
Definition empty_buffer : TableTxnBuffer := mkBuffer [] [].

Abbreviation TxnWriteBuffer := (gmap bytes TableTxnBuffer).

Definition buffer_empty (b : TableTxnBuffer) : bool :=
  bool_decide (upserts b = []) && bool_decide (deletes b = []).

Record Savepoint := mkSavepoint {
  sp_name : bytes;
  sp_write_buffer : TxnWriteBuffer;
  sp_read_set : gmap bytes vset;
  sp_table_read_versions : gmap bytes Z
}.

(** The fields that statements and transaction control use; prepared
    statements, rate limiting and authentication are left out. *)
Record Session := mkSession {
  current_txn_id : Z;
  isolation : IsolationLevel;
  write_buffer : TxnWriteBuffer;
  snapshot_ts : Z;
  auto_commit_ts : Z;
  read_set : gmap bytes vset;
  table_read_versions : gmap bytes Z;
  savepoints : list Savepoint
}.

Definition new_session : Session := mkSession 0 ReadCommitted ∅ 0 0 ∅ ∅ [].

Definition in_transaction (s : Session) : bool := negb (current_txn_id s =? 0).

(** [for_table]: the buffer of a table, created when it is first asked for. *)
Definition for_table (name : bytes) (w : TxnWriteBuffer) : TableTxnBuffer := default empty_buffer (w !! name).

Definition set_write_buffer (w : TxnWriteBuffer) (s : Session) : Session :=
  mkSession (current_txn_id s) (isolation s) w (snapshot_ts s) (auto_commit_ts s) (read_set s)
    (table_read_versions s) (savepoints s).
Definition set_timestamps (snap auto : Z) (s : Session) : Session :=
  mkSession (current_txn_id s) (isolation s) (write_buffer s) snap auto (read_set s)
    (table_read_versions s) (savepoints s).
Definition set_reads (rs : gmap bytes vset) (vs : gmap bytes Z) (s : Session) : Session :=
  mkSession (current_txn_id s) (isolation s) (write_buffer s) (snapshot_ts s) (auto_commit_ts s) rs vs (savepoints s).
Definition set_savepoints (sps : list Savepoint) (s : Session) : Session :=
  mkSession (current_txn_id s) (isolation s) (write_buffer s) (snapshot_ts s) (auto_commit_ts s) (read_set s)
    (table_read_versions s) sps.

(** * The rows a transaction sees through its buffer *)

(** What a buffer is in every reachable session: distinct keys, none both
    written and deleted. *)
Record buffer_ok (b : TableTxnBuffer) : Prop := {
  bo_upserts : NoDup (upserts b).*1;
  bo_upsert_keys : Forall key_ok (upserts b).*1;
  bo_deletes : NoDup (deletes b);
  bo_delete_keys : Forall key_ok (deletes b);
  bo_disjoint : forall k, k ∈ (upserts b).*1 -> k ∉ deletes b
}.

Lemma empty_buffer_ok : buffer_ok empty_buffer.
Proof. split; cbn; try constructor. intros k Hk. by apply elem_of_nil in Hk. Qed.
