(* ===== verification/Query.v ===== *)
(** Query execution, [src/executor/executor.cpp] with the plan nodes of
    [include/corodb/plan/physical_plan.h]: scans, filter, projection, union,
    sorting, limit, the three joins and aggregation.

    An operator is a coroutine that yields records until it returns or throws.
    It is modelled by what it does when it is run to its end: the events it
    makes, in order, and how it ends.  A consumer that stops early drops the
    events after the point where it stops, as the suspended coroutine never
    makes them.  Besides records, scans note what a serializable transaction
    has read; these notes are events too.

    Executions with a deadline ([check_timeout]) are left out. *)
From Stdlib Require Import ZArith Lia.
From stdpp Require Import base numbers list gmap strings.
From S2P Require Import Prelude Values Codec Doubles Eval Session.
Local Open Scope Z_scope.

(** * Generators *)

Inductive Event :=
| Yield (r : Record_)
| NoteVersion (table : bytes) (write_counter : Z)
| NoteKey (table : bytes) (k : Value).

(** A part of a coroutine's body: the events it makes and its outcome. *)
Definition Gen (A : Type) : Type := list Event * res A.

#[export] Instance gen_ret : MRet Gen := fun A a => ([], Ok a).
#[export] Instance gen_bind : MBind Gen := fun A B f g =>
  match g with
  | (es, Ok a) => (es ++ (f a).1, (f a).2)
  | (es, Throw w) => (es, Throw w)
  | (es, UB w) => (es, UB w)
  end.

Definition yield (r : Record_) : Gen unit := ([Yield r], Ok tt).
Definition note (e : Event) : Gen unit := ([e], Ok tt).
Definition glift {A} (r : res A) : Gen A := ([], r).
Definition gthrow {A} (w : string) : Gen A := ([], Throw w).

(** [for (a : l) s = f(s, a)]. *)
Fixpoint gfor {A S} (l : list A) (f : S -> A -> Gen S) (s : S) : Gen S :=
  match l with
  | [] => mret s
  | a :: l => s' ← f s a; gfor l f s'
  end.

(** [for (rec : child) ...]: the body gives the loop's next state and whether to
    go on; the child's notes are made as it is advanced. *)
Fixpoint drive_events {S} (es : list Event) (e : res unit) (f : S -> Record_ -> Gen (S * bool)) (s : S) : Gen S :=
  match es with
  | [] => _ ← glift e; mret s
  | Yield r :: es => '(s', go) ← f s r; if (go : bool) then drive_events es e f s' else mret s'
  | ev :: es => _ ← note ev; drive_events es e f s
  end.
Definition drive {S} (child : Gen unit) (f : S -> Record_ -> Gen (S * bool)) (s : S) : Gen S :=
  drive_events child.1 child.2 f s.

(** A loop whose body yields and keeps no state. *)
Definition each (child : Gen unit) (f : Record_ -> Gen unit) : Gen unit :=
  drive child (fun _ r => _ ← f r; mret (tt, true)) tt.

(** Running a child to its end and keeping its records. *)
Definition collect (child : Gen unit) : Gen (list Record_) :=
  drive child (fun acc r => mret (acc ++ [r], true)) [].

(** The records of a generator. *)
Definition records (es : list Event) : list Record_ :=
  omap (fun ev => match ev with Yield r => Some r | _ => None end) es.

(** * Tables as the executor uses them *)

(** [scan_visible_stream] gives rows until it ends or throws. *)
Record TableView := mkView {
  tv_name : bytes;
  tv_columns : list Column;
  tv_write_counter : Z;
  tv_stream : Z -> list Row * res unit;
  tv_scan : Z -> res (list Row);
  tv_lookup : Value -> Z -> res (option Row);
  tv_index : bytes -> Value -> list Value;
  tv_index_range : bytes -> option Value -> bool -> option Value -> bool -> res (list Value);
  tv_index_composite : bytes -> list Value -> list Value
}.

Definition row_key (t : TableView) (r : Row) : Value := extract_key r (tv_columns t).

Fixpoint column_index (cols : list Column) (name : bytes) : option nat :=
  match cols with
  | [] => None
  | c :: cols => if bool_decide (col_name c = name) then Some O else S <$> column_index cols name
  end.
Definition find_column (t : TableView) (name : bytes) : option nat := column_index (tv_columns t) name.

(** * Plans *)

#[export] Instance AggFunc_eq_dec : EqDecision AggFunc.
Proof. solve_decision. Defined.

Record AggregateExpr := mkAgg { agg_func : AggFunc; agg_arg : option ColumnRef }.

Inductive SelectValue := SelExpr (e : Expression) | SelAgg (a : AggregateExpr).
Record SelectItem := mkItem { item_value : SelectValue; item_alias : option bytes }.
Record OrderByItem := mkOrder { ord_key : SelectValue; ord_asc : bool }.

Inductive JoinType := Inner | Left | Right | Full.
Inductive Strategy := HashStrategy | SortStrategy.

(** What an index scan looks for, by the constructor of its plan. *)
Inductive IndexAccess :=
| IdxPoint (column : bytes) (key : Value)
| IdxRange (column : bytes) (low : option Value) (low_inclusive : bool) (high : option Value) (high_inclusive : bool)
| IdxIn (column : bytes) (in_keys : list Value)
| IdxComposite (index_name : bytes) (composite_columns : list bytes) (composite_key : list Value).

Inductive PlanNode (Q : Type) :=
| SeqScanPlan (table : TableView) (alias : bytes)
| IndexScanPlan (table : TableView) (alias : bytes) (access : IndexAccess)
| UnionPlan (children : list (PlanNode Q)) (all : bool)
| FilterPlan (child : PlanNode Q) (predicate : BoolExpr Q)
| ProjectPlan (child : PlanNode Q) (columns : list SelectItem) (distinct : bool)
| OrderByPlan (child : PlanNode Q) (items : list OrderByItem) (limit offset : option Z)
| HashJoinPlan (left right : PlanNode Q) (left_key right_key : ColumnRef) (residual : option (BoolExpr Q)) (type : JoinType)
| MergeJoinPlan (left right : PlanNode Q) (left_key right_key : ColumnRef) (residual : option (BoolExpr Q))
    (type : JoinType) (left_sorted right_sorted : bool)
| LimitPlan (child : PlanNode Q) (limit offset : option Z)
| NestedLoopJoinPlan (left right : PlanNode Q) (on : BoolExpr Q) (type : JoinType)
| AggregatePlan (child : PlanNode Q) (group_by : list ColumnRef) (aggregates : list AggregateExpr)
    (projections : list SelectItem) (having : option (BoolExpr Q)) (strategy : Strategy).
Arguments SeqScanPlan {Q}. Arguments IndexScanPlan {Q}. Arguments UnionPlan {Q}. Arguments FilterPlan {Q}.
Arguments ProjectPlan {Q}. Arguments OrderByPlan {Q}. Arguments HashJoinPlan {Q}. Arguments MergeJoinPlan {Q}.
Arguments LimitPlan {Q}. Arguments NestedLoopJoinPlan {Q}. Arguments AggregatePlan {Q}.

Definition is_left_outer (t : JoinType) : bool := match t with Left | Full => true | _ => false end.
Definition is_right_outer (t : JoinType) : bool := match t with Right | Full => true | _ => false end.

(** * Helpers *)

Definition expr_name (i : nat) : bytes := str "expr" ++ int_to_string (Z.of_nat i).
Definition agg_name (a : AggregateExpr) : bytes :=
  match agg_arg a with Some c => ref_name c | None => str "count" end.
Definition agg_table (a : AggregateExpr) : bytes :=
  match agg_arg a with Some c => ref_table c | None => [] end.

(** The output column of a projection item. *)
Definition project_binding (i : nat) (it : SelectItem) : Binding :=
  match item_alias it, item_value it with
  | Some a, _ => mkBinding [] a
  | None, SelExpr (EColumn c) => mkBinding (ref_table c) (ref_name c)
  | None, _ => mkBinding [] (expr_name i)
  end.

(** That of an aggregate's item, as [derive_bindings] has it. *)
Definition aggregate_binding (i : nat) (it : SelectItem) : Binding :=
  match item_alias it, item_value it with
  | Some a, _ => mkBinding [] a
  | None, SelAgg a => mkBinding (agg_table a) (agg_name a)
  | None, SelExpr (EColumn c) => mkBinding (ref_table c) (ref_name c)
  | None, SelExpr _ => mkBinding [] (expr_name i)
  end.

Definition table_bindings (t : TableView) (alias : bytes) : list Binding :=
  let binding := if bool_decide (alias = []) then tv_name t else alias in
  map (fun c => mkBinding binding (col_name c)) (tv_columns t).

(** The columns of a plan's records; nodes that are not listed have none. *)
Fixpoint derive_bindings {Q} (p : PlanNode Q) : list Binding :=
  match p with
  | SeqScanPlan t alias => table_bindings t alias
  | FilterPlan c _ | OrderByPlan c _ _ _ | LimitPlan c _ _ => derive_bindings c
  | ProjectPlan _ items _ => imap project_binding items
  | HashJoinPlan l r _ _ _ _ | MergeJoinPlan l r _ _ _ _ _ _ | NestedLoopJoinPlan l r _ _ =>
      derive_bindings l ++ derive_bindings r
  | AggregatePlan _ _ _ items _ _ => imap aggregate_binding items
  | IndexScanPlan _ _ _ | UnionPlan _ _ => []
  end.

Definition make_null_record (bs : list Binding) : Record_ := mkRecord (map (fun _ => VNull) bs) bs.

Definition merge_rows (l r : Record_) : Record_ :=
  mkRecord (rec_values l ++ rec_values r) (rec_bindings l ++ rec_bindings r).

Definition make_record_from_row (t : TableView) (r : Row) (binding : bytes) : Record_ :=
  mkRecord (values r) (map (fun c => mkBinding binding (col_name c)) (tv_columns t)).

(** ** [std::set] of value vectors and sorting with a comparator that can throw

    The comparisons such an algorithm makes depend on its implementation; the
    model makes the ones below.  When no comparison throws, membership and the
    result of the stable sort do not depend on that choice. *)

Fixpoint compare_values (a b : list Value) : res Z :=
  match a, b with
  | x :: a, y :: b => c ← compare_order x y; if c =? 0 then compare_values a b else Ok c
  | _, _ => Ok 0
  end.

(** Whether [ValueVectorCompare] puts neither before the other. *)
Definition same_values (a b : list Value) : res bool :=
  if (length a =? length b)%nat then c ← compare_values a b; Ok (c =? 0) else Ok false.

Fixpoint seen_before (seen : list (list Value)) (v : list Value) : res bool :=
  match seen with
  | [] => Ok false
  | w :: seen => b ← same_values w v; if (b : bool) then Ok true else seen_before seen v
  end.

Section Sorting.
Context {A : Type}.
Variable less : A -> A -> res bool.

Fixpoint sort_insert (x : A) (l : list A) : res (list A) :=
  match l with
  | [] => Ok [x]
  | y :: l' => b ← less y x; if (b : bool) then t ← sort_insert x l'; Ok (y :: t) else Ok (x :: l)
  end.

Fixpoint stable_sort (l : list A) : res (list A) :=
  match l with [] => Ok [] | x :: l => s ← stable_sort l; sort_insert x s end.

(** A binary heap kept as a descending vector, which is one of its orders:
    the front is a largest element. *)
Fixpoint heap_push (x : A) (h : list A) : res (list A) :=
  match h with
  | [] => Ok [x]
  | y :: h' => b ← less x y; if (b : bool) then t ← heap_push x h'; Ok (y :: t) else Ok (x :: h)
  end.

(** One round of the Top-N loop: fill up to [k], then replace the largest when
    the new element is smaller. *)
Definition topn_step (k : nat) (h : list A) (x : A) : res (list A) :=
  if (length h <? k)%nat then heap_push x h
  else match h with
       | [] => Ok h
       | y :: h' => b ← less x y; if (b : bool) then heap_push x h' else Ok h
       end.
End Sorting.

(** * Operators *)

Section Execution.
Context {Q : Type}.
Variable session : option Session.
(** The runner of correlated subqueries, when one is attached. *)
Variable subq : option (Q -> Record_ -> bool -> res (list Value)).

Definition holds (e : BoolExpr Q) (r : Record_) : res bool :=
  b ← eval_bool None e r; Ok (bool_decide (b = SqlTrue)).

(** ** Scans *)

Definition txn_session : option Session :=
  match session with Some s => if in_transaction s then Some s else None | None => None end.

Definition buffer_of (t : TableView) : option TableTxnBuffer :=
  s ← txn_session; write_buffer s !! tv_name t.

Definition track_reads : bool :=
  match txn_session with Some s => bool_decide (isolation s = Serializable) | None => false end.

(** The snapshot to read at; without one, the latest. *)
Definition scan_ts : Z :=
  let ts := match session with Some s => snapshot_ts s | None => 0 end in
  if ts =? 0 then UINT64_MAX else ts.

Definition note_version (t : TableView) : Gen unit :=
  if track_reads then note (NoteVersion (tv_name t) (tv_write_counter t)) else mret tt.

Definition note_read (t : TableView) (r : Row) : Gen unit :=
  if track_reads && negb (bool_decide (values r = [])) then note (NoteKey (tv_name t) (row_key t r)) else mret tt.

Definition binding_name (t : TableView) (alias : bytes) : bytes :=
  if bool_decide (alias = []) then tv_name t else alias.

(** The body of the scan's loop; the state is the set of buffered keys yielded. *)
Definition scan_row (t : TableView) (binding : bytes) (buf : option TableTxnBuffer) (emitted : vset) (row : Row)
    : Gen vset :=
  let plain := _ ← note_read t row; _ ← yield (make_record_from_row t row binding); mret emitted in
  match buf with
  | Some b =>
      if bool_decide (values row = []) then plain else
      let pk := row_key t row in
      if vmem pk (deletes b) then mret emitted else
      match vfind pk (upserts b) with
      | Some br => _ ← note_read t row; _ ← yield (make_record_from_row t br binding); mret (vadd pk emitted)
      | None => plain
      end
  | None => plain
  end.

Definition execute_seq_scan (t : TableView) (alias : bytes) : Gen unit :=
  let binding := binding_name t alias in
  let buf := buffer_of t in
  _ ← note_version t;
  let '(rows, ends) := tv_stream t scan_ts in
  emitted ← gfor rows (scan_row t binding buf) [];
  _ ← glift ends;
  match buf with
  | Some b => gfor (upserts b) (fun _ kr => if vmem kr.1 emitted then mret tt
                                            else yield (make_record_from_row t kr.2 binding)) tt
  | None => mret tt
  end.

(** Whether a value of the indexed column satisfies the index condition. *)
Definition index_matches (a : IndexAccess) (v : Value) : bool :=
  match a with
  | IdxPoint _ key => ValueEq v key
  | IdxIn _ ks => existsb (fun k => ValueEq v k) ks
  | IdxRange _ low low_inc high high_inc =>
      match low with
      | Some l => if low_inc then negb (ValueLess v l) else ValueLess l v
      | None => true
      end &&
      match high with
      | Some h => if high_inc then negb (ValueLess h v) else ValueLess v h
      | None => true
      end
  | IdxComposite _ _ _ => false
  end.

Definition index_column (a : IndexAccess) : bytes :=
  match a with IdxPoint c _ | IdxRange c _ _ _ _ | IdxIn c _ => c | IdxComposite _ _ _ => [] end.

(** The recheck of a row against the condition. *)
Definition row_matches (t : TableView) (a : IndexAccess) (r : Row) : bool :=
  match a with
  | IdxComposite _ cols key =>
      forallb (fun ck => match values r !! default O (find_column t ck.1) with
                         | Some v => ValueEq v ck.2
                         | None => false
                         end) (zip cols key)
  | _ => match values r !! default O (find_column t (index_column a)) with
         | Some v => index_matches a v
         | None => false
         end
  end.

(** The candidate primary keys. *)
Definition index_candidates (t : TableView) (a : IndexAccess) : res (list Value) :=
  match a with
  | IdxPoint c k => Ok (tv_index t c k)
  | IdxRange c low li high hi => tv_index_range t c low li high hi
  | IdxIn c ks => Ok (foldl (fun pks k => foldl (fun pks p => vadd p pks) pks (tv_index t c k)) [] ks)
  | IdxComposite i _ key => Ok (tv_index_composite t i key)
  end.

Definition index_row (t : TableView) (a : IndexAccess) (binding : bytes) (buf : option TableTxnBuffer)
    (emitted : vset) (pk : Value) : Gen vset :=
  let from_table :=
    row ← glift (tv_lookup t pk scan_ts);
    match row with
    | None => mret emitted
    | Some row =>
        if negb (row_matches t a row) then mret emitted else
        _ ← note_read t row; _ ← yield (make_record_from_row t row binding); mret (vadd pk emitted)
    end in
  match buf with
  | Some b =>
      if vmem pk (deletes b) then mret (vadd pk emitted) else
      match vfind pk (upserts b) with
      | Some br =>
          _ ← (if row_matches t a br
               then _ ← note_read t br; yield (make_record_from_row t br binding) else mret tt);
          mret (vadd pk emitted)
      | None => from_table
      end
  | None => from_table
  end.

Definition execute_index_scan (t : TableView) (alias : bytes) (a : IndexAccess) : Gen unit :=
  let binding := binding_name t alias in
  let buf := buffer_of t in
  _ ← note_version t;
  pks ← glift (index_candidates t a);
  emitted ← gfor pks (index_row t a binding buf) [];
  match buf with
  | Some b => gfor (upserts b) (fun _ kr => if vmem kr.1 emitted then mret tt
                                            else if row_matches t a kr.2
                                            then yield (make_record_from_row t kr.2 binding) else mret tt) tt
  | None => mret tt
  end.

(** ** Filter, projection, union, limit *)

Definition execute_filter (predicate : BoolExpr Q) (child : Gen unit) : Gen unit :=
  each child (fun r => b ← glift (eval_bool subq predicate r);
                       if bool_decide (b = SqlTrue) then yield r else mret tt).

Fixpoint project_values (r : Record_) (items : list SelectItem) : res (list Value) :=
  match items with
  | [] => Ok []
  | it :: items =>
      match item_value it with
      | SelAgg _ => Throw "[Executor] Aggregates should be planned via AggregatePlan"
      | SelExpr e => v ← eval r e; vs ← project_values r items; Ok (v :: vs)
      end
  end.

Definition execute_project (items : list SelectItem) (distinct : bool) (child : Gen unit) : Gen unit :=
  _ ← drive child (fun seen r =>
        vs ← glift (project_values r items);
        let out := mkRecord vs (imap project_binding items) in
        if distinct then
          dup ← glift (seen_before seen vs);
          if (dup : bool) then mret (seen, true) else _ ← yield out; mret (seen ++ [vs], true)
        else _ ← yield out; mret (seen, true)) [];
  mret tt.

(** The columns of the output are those of the first record. *)
Definition union_step (all : bool) (st : list (list Value) * option (list Binding * nat)) (r : Record_)
    : Gen ((list (list Value) * option (list Binding * nat)) * bool) :=
  let '(bs, n) := default (rec_bindings r, length (rec_values r)) st.2 in
  if negb (length (rec_values r) =? n)%nat
  then gthrow "ERROR: UNION arms must return the same number of columns" else
  dup ← glift (if all then Ok false else seen_before st.1 (rec_values r));
  if (dup : bool) then mret ((st.1, Some (bs, n)), true) else
  _ ← yield (mkRecord (rec_values r) bs);
  mret ((if all then st.1 else st.1 ++ [rec_values r], Some (bs, n)), true).

Definition execute_union (all : bool) (children : list (Gen unit)) : Gen unit :=
  _ ← gfor children (fun st child => drive child (union_step all) st) ([], None); mret tt.

Definition INT64_MAX : Z := 2 ^ 63 - 1.

(** The state counts the records skipped and emitted. *)
Definition limit_step (off limv : Z) (st : Z * Z) (r : Record_) : Gen (Z * Z * bool) :=
  if st.1 <? off then mret ((st.1 + 1, st.2), true)
  else if limv <=? st.2 then mret (st, false)
  else _ ← yield r; mret ((st.1, st.2 + 1), true).

Definition execute_limit (limit offset : option Z) (child : Gen unit) : Gen unit :=
  _ ← drive child (limit_step (default 0 offset) (default INT64_MAX limit)) (0, 0); mret tt.

(** ** Sorting *)

Definition order_key (r : Record_) (k : SelectValue) : res Value :=
  match k with SelExpr e => eval r e | SelAgg a => lookup_by_name r (agg_name a) end.

Fixpoint order_less (items : list OrderByItem) (a b : Record_) : res bool :=
  match items with
  | [] => Ok false
  | it :: items =>
      va ← order_key a (ord_key it);
      vb ← order_key b (ord_key it);
      ord ← compare_order va vb;
      if ord =? 0 then order_less items a b
      else Ok (if ord_asc it then ord <? 0 else 0 <? ord)
  end.

(** The number of records a Top-N sort keeps. *)
Definition topn_k (limit offset : option Z) : res (option Z) :=
  match limit with
  | None => Ok None
  | Some k =>
      k ← (match offset with
           | Some o => if (- 2 ^ 63 <=? k + o) && (k + o <? 2 ^ 63) then Ok (k + o) else UB "signed overflow"
           | None => Ok k
           end);
      Ok (if 0 <? k then Some k else None)
  end.

Definition execute_order_by (items : list OrderByItem) (limit offset : option Z) (child : Gen unit) : Gen unit :=
  k ← glift (topn_k limit offset);
  match k with
  | Some k =>
      heap ← drive child (fun h r => h' ← glift (topn_step (order_less items) (Z.to_nat k) h r); mret (h', true)) [];
      gfor (reverse heap) (fun _ r => yield r) tt
  | None =>
      rs ← collect child;
      sorted ← glift (stable_sort (order_less items) rs);
      gfor sorted (fun _ r => yield r) tt
  end.

(** ** Joins *)

(** Whether a joined record passes the condition that remains. *)
Definition passes (residual : option (BoolExpr Q)) (r : Record_) : res bool :=
  match residual with Some e => holds e r | None => Ok true end.

(** The hash table: the positions of the right rows under each key. *)
Fixpoint build_buckets (key : ColumnRef) (i : nat) (rs : list Record_) (buckets : vmap (list nat))
    : res (vmap (list nat)) :=
  match rs with
  | [] => Ok buckets
  | r :: rs =>
      k ← lookup_ref r key;
      build_buckets key (S i) rs (vput k (default [] (vfind k buckets) ++ [i]) buckets)
  end.

(** The probe of one left row: the rows at [idxs], keeping which right rows have
    matched and whether this left row has. *)
Definition probe_row (residual : option (BoolExpr Q)) (l : Record_) (rights : list Record_)
    (st : list bool * bool) (i : nat) : Gen (list bool * bool) :=
  match rights !! i with
  | None => mret st
  | Some r =>
      let merged := merge_rows l r in
      b ← glift (passes residual merged);
      if (b : bool) then _ ← yield merged; mret (<[i := true]> st.1, true) else mret st
  end.

(** The right rows that no left row matched. *)
Definition unmatched_right (type : JoinType) (null_left : Record_) (rights : list Record_) (matched : list bool) : Gen unit :=
  if is_right_outer type
  then gfor (zip rights matched) (fun _ rm => if (rm.2 : bool) then mret tt else yield (merge_rows null_left rm.1)) tt
  else mret tt.

Definition execute_hash_join (null_left null_right : Record_) (left_key right_key : ColumnRef)
    (residual : option (BoolExpr Q)) (type : JoinType) (left right : Gen unit) : Gen unit :=
  rights ← collect right;
  buckets ← glift (build_buckets right_key 0 rights []);
  matched ← drive left (fun matched l =>
      key ← glift (lookup_ref l left_key);
      '(matched, any) ← gfor (default [] (vfind key buckets)) (probe_row residual l rights) (matched, false);
      _ ← (if negb any && is_left_outer type then yield (merge_rows l null_right) else mret tt);
      mret (matched, true)) (map (fun _ => false) rights);
  unmatched_right type null_left rights matched.

Definition execute_nested_loop_join (null_left null_right : Record_) (on : BoolExpr Q) (type : JoinType)
    (left right : Gen unit) : Gen unit :=
  lefts ← collect left;
  rights ← collect right;
  matched ← gfor lefts (fun matched l =>
      '(matched, any) ← gfor (seq 0 (length rights)) (probe_row (Some on) l rights) (matched, false);
      _ ← (if negb any && is_left_outer type then yield (merge_rows l null_right) else mret tt);
      mret matched) (map (fun _ => false) rights);
  unmatched_right type null_left rights matched.

(** The leading rows whose key is equal to [k], and the rest. *)
Fixpoint equal_run (k : Value) (rows : list (Record_ * Value)) : res (list Record_ * list (Record_ * Value)) :=
  match rows with
  | [] => Ok ([], [])
  | (r, k') :: rows' =>
      ord ← compare_order k' k;
      if ord =? 0 then '(a, b) ← equal_run k rows'; Ok (r :: a, b) else Ok ([], rows)
  end.

(** All pairs of two runs of equal keys. *)
Definition cross (residual : option (BoolExpr Q)) (ls rs : list Record_) : Gen unit :=
  gfor ls (fun _ l => gfor rs (fun _ r =>
    let merged := merge_rows l r in
    b ← glift (passes residual merged);
    if (b : bool) then yield merged else mret tt) tt) tt.

(** The loop over the two sorted inputs, by the rows that remain; those have not
    been matched.  [fuel] bounds the number of rounds by that of the rows. *)
Fixpoint merge_loop (fuel : nat) (null_left null_right : Record_) (residual : option (BoolExpr Q)) (type : JoinType)
    (ls rs : list (Record_ * Value)) : Gen unit :=
  match fuel with
  | O => mret tt
  | S fuel =>
      match ls, rs with
      | (l, lv) :: ls', (r, rv) :: rs' =>
          ord ← glift (compare_order lv rv);
          if ord <? 0 then
            _ ← (if is_left_outer type then yield (merge_rows l null_right) else mret tt);
            merge_loop fuel null_left null_right residual type ls' rs
          else if 0 <? ord then
            _ ← (if is_right_outer type then yield (merge_rows null_left r) else mret tt);
            merge_loop fuel null_left null_right residual type ls rs'
          else
            '(la, lb) ← glift (equal_run lv ls);
            '(ra, rb) ← glift (equal_run rv rs);
            _ ← cross residual la ra;
            merge_loop fuel null_left null_right residual type lb rb
      | _, _ =>
          _ ← (if is_left_outer type then gfor ls (fun _ l => yield (merge_rows l.1 null_right)) tt else mret tt);
          if is_right_outer type then gfor rs (fun _ r => yield (merge_rows null_left r.1)) tt else mret tt
      end
  end.

Fixpoint with_keys (key : ColumnRef) (rs : list Record_) : res (list (Record_ * Value)) :=
  match rs with
  | [] => Ok []
  | r :: rs => k ← lookup_ref r key; t ← with_keys key rs; Ok ((r, k) :: t)
  end.

Definition key_less (a b : Record_ * Value) : res bool := c ← compare_order a.2 b.2; Ok (c <? 0).

(** The keys are looked up as the rows arrive. *)
Definition collect_keyed (key : ColumnRef) (child : Gen unit) : Gen (list (Record_ * Value)) :=
  drive child (fun acc r => k ← glift (lookup_ref r key); mret (acc ++ [(r, k)], true)) [].

Definition execute_merge_join (null_left null_right : Record_) (left_key right_key : ColumnRef)
    (residual : option (BoolExpr Q)) (type : JoinType) (left_sorted right_sorted : bool) (left right : Gen unit) : Gen unit :=
  ls ← collect_keyed left_key left;
  rs ← collect_keyed right_key right;
  ls ← glift (if left_sorted then Ok ls else stable_sort key_less ls);
  rs ← glift (if right_sorted then Ok rs else stable_sort key_less rs);
  merge_loop (S (length ls + length rs)) null_left null_right residual type ls rs.

(** ** Aggregation *)

Record AggState := mkAggState { st_count : Z; st_sum : Z; st_min : option Value; st_max : option Value }.
Definition agg_init : AggState := mkAggState 0 0 None None.

Definition finalize (st : AggState) (f : AggFunc) : Value :=
  match f with
  | Count => VInt (st_count st)
  | Sum => if st_count st =? 0 then VNull else VInt (st_sum st)
  | Avg => if st_count st =? 0 then VNull
           else VDouble (dbl_div (dbl_of_int (st_sum st)) (dbl_of_int (st_count st)))
  | Min => default VNull (st_min st)
  | Max => default VNull (st_max st)
  end.

Definition add_int64 (a b : Z) : res Z :=
  if (- 2 ^ 63 <=? a + b) && (a + b <? 2 ^ 63) then Ok (a + b) else UB "signed overflow".

(** [static_cast<int64_t>] of a double: towards zero, undefined out of range. *)
Definition dbl_to_int64 (b : Z) : res Z :=
  let e := b mod 2 ^ 63 / 2 ^ 52 in
  let m := if e =? 0 then b mod 2 ^ 52 else b mod 2 ^ 52 + 2 ^ 52 in
  let n := if 1075 <=? e then m * 2 ^ (e - 1075) else m / 2 ^ (1075 - e) in
  let n := if b <? 2 ^ 63 then n else - n in
  if (e =? 2047) || negb ((- 2 ^ 63 <=? n) && (n <? 2 ^ 63)) then UB "conversion out of range" else Ok n.

Definition agg_value (a : AggregateExpr) (r : Record_) (missing : string) : res Value :=
  match agg_arg a with None => Throw missing | Some c => lookup_ref r c end.

(** The summand of SUM and AVG: with [truncate] a double is cut to an integer,
    without it only integers are accepted. *)
Definition summand (truncate : bool) (v : Value) : res Z :=
  match v with
  | VInt n => Ok n
  | VDouble d => if truncate then dbl_to_int64 d else Throw "[Executor] SUM/AVG only supports int64 values"
  | _ => Throw (if truncate then "[Executor] SUM/AVG requires numeric values"
                else "[Executor] SUM/AVG only supports int64 values")
  end.

Definition update_state (truncate : bool) (r : Record_) (a : AggregateExpr) (st : AggState) : res AggState :=
  match agg_func a with
  | Count =>
      match agg_arg a with
      | None => Ok (mkAggState (st_count st + 1) (st_sum st) (st_min st) (st_max st))
      | Some c => v ← lookup_ref r c;
                  Ok (if is_null v then st
                      else mkAggState (st_count st + 1) (st_sum st) (st_min st) (st_max st))
      end
  | Sum | Avg =>
      v ← agg_value a r "[Executor] SUM/AVG requires a column argument";
      if is_null v then Ok st else
      n ← summand truncate v;
      s ← add_int64 (st_sum st) n;
      Ok (mkAggState (st_count st + 1) s (st_min st) (st_max st))
  | Min =>
      v ← agg_value a r "[Executor] MIN requires a column argument";
      if is_null v then Ok st else
      b ← (match st_min st with None => Ok true | Some m => c ← compare_order v m; Ok (c <? 0) end);
      Ok (if (b : bool) then mkAggState (st_count st) (st_sum st) (Some v) (st_max st) else st)
  | Max =>
      v ← agg_value a r "[Executor] MAX requires a column argument";
      if is_null v then Ok st else
      b ← (match st_max st with None => Ok true | Some m => c ← compare_order v m; Ok (0 <? c) end);
      Ok (if (b : bool) then mkAggState (st_count st) (st_sum st) (st_min st) (Some v) else st)
  end.

Fixpoint update_states (truncate : bool) (r : Record_) (aggs : list AggregateExpr) (sts : list AggState)
    : res (list AggState) :=
  match aggs, sts with
  | a :: aggs, st :: sts =>
      st' ← update_state truncate r a st; sts' ← update_states truncate r aggs sts; Ok (st' :: sts')
  | _, _ => Ok []
  end.

Definition ref_eq (a b : ColumnRef) : bool :=
  bool_decide (ref_table a = ref_table b) && bool_decide (ref_name a = ref_name b).

Definition agg_same (a needle : AggregateExpr) : bool :=
  bool_decide (agg_func a = agg_func needle) &&
  match agg_arg a, agg_arg needle with
  | None, None => true
  | Some x, Some y => ref_eq x y
  | _, _ => false
  end.

Fixpoint agg_index (aggs : list AggregateExpr) (needle : AggregateExpr) (sts : list AggState) : res AggState :=
  match aggs, sts with
  | a :: aggs, st :: sts => if agg_same a needle then Ok st else agg_index aggs needle sts
  | _, _ => Throw "[Executor] Aggregate function not found in plan"
  end.

(** The position of a column among the grouping columns. *)
Fixpoint find_group_value (group : list ColumnRef) (key : list Value) (col : ColumnRef) : res Value :=
  match group, key with
  | g :: group, k :: key =>
      if (bool_decide (ref_table g = []) || bool_decide (ref_table g = ref_table col))
         && bool_decide (ref_name g = ref_name col) then Ok k
      else find_group_value group key col
  | _, _ => Throw "[Executor] Column not part of GROUP BY"
  end.

Definition out_name (it : SelectItem) (name : bytes) : bytes := default name (item_alias it).

(** One output column of a group; [None] for the global aggregation. *)
Definition group_column (aggs : list AggregateExpr) (sts : list AggState) (group : option (list ColumnRef * list Value))
    (it : SelectItem) : res (Value * Binding) :=
  match item_value it with
  | SelAgg a =>
      st ← agg_index aggs a sts;
      Ok (finalize st (agg_func a), mkBinding (agg_table a) (out_name it (agg_name a)))
  | SelExpr e =>
      match group with
      | None => Throw "[Executor] Non-aggregate expression in global aggregation"
      | Some (g, key) =>
          match e with
          | EColumn c => v ← find_group_value g key c; Ok (v, mkBinding (ref_table c) (out_name it (ref_name c)))
          | _ => Throw "[Executor] Only GROUP BY columns allowed as non-aggregate projections"
          end
      end
  end.

Fixpoint group_columns (aggs : list AggregateExpr) (sts : list AggState) (group : option (list ColumnRef * list Value))
    (items : list SelectItem) : res (list (Value * Binding)) :=
  match items with
  | [] => Ok []
  | it :: items => c ← group_column aggs sts group it; cs ← group_columns aggs sts group items; Ok (c :: cs)
  end.

Definition record_of (cs : list (Value * Binding)) : Record_ := mkRecord cs.*1 cs.*2.

(** Whether an aggregate is among the projections, by function and argument name. *)
Definition in_projection (items : list SelectItem) (a : AggregateExpr) : bool :=
  existsb (fun it => match item_value it with
    | SelAgg pa => bool_decide (agg_func pa = agg_func a) &&
        match agg_arg pa, agg_arg a with
        | Some x, Some y => bool_decide (ref_name x = ref_name y)
        | None, None => true
        | _, _ => false
        end
    | SelExpr _ => false
    end) items.

(** The aggregates that only HAVING uses, appended to the output. *)
Definition having_columns (items : list SelectItem) (aggs : list AggregateExpr) (sts : list AggState)
    : list (Value * Binding) :=
  omap (fun ast => if in_projection items ast.1 then None
                   else Some (finalize ast.2 (agg_func ast.1), mkBinding (agg_table ast.1) (agg_name ast.1)))
    (zip aggs sts).

(** The record of a group, or nothing when HAVING rejects it.  [extend] is
    whether the aggregates of HAVING are appended. *)
Definition emit_group (extend : bool) (aggs : list AggregateExpr) (items : list SelectItem) (having : option (BoolExpr Q))
    (group : option (list ColumnRef * list Value)) (sts : list AggState) : Gen unit :=
  cs ← glift (group_columns aggs sts group items);
  match having with
  | None => yield (record_of cs)
  | Some h =>
      let out := record_of (if extend then cs ++ having_columns items aggs sts else cs) in
      b ← glift (holds h out);
      if (b : bool) then yield out else mret tt
  end.

Definition group_key (group : list ColumnRef) (r : Record_) : res (list Value) :=
  foldr (fun c acc => v ← lookup_ref r c; vs ← acc; Ok (v :: vs)) (Ok []) group.

Fixpoint key_eq (a b : list Value) : bool :=
  match a, b with
  | [], [] => true
  | x :: a, y :: b => ValueEq x y && key_eq a b
  | _, _ => false
  end.

(** The groups of the hash aggregation, in an order that stands for the
    container's. *)
Abbreviation Groups := (list (list Value * list AggState)).

Fixpoint group_update (key : list Value) (f : list AggState -> res (list AggState)) (init : list AggState) (gs : Groups)
    : res Groups :=
  match gs with
  | [] => sts ← f init; Ok [(key, sts)]
  | (k, sts) :: gs =>
      if key_eq key k then sts' ← f sts; Ok ((k, sts') :: gs)
      else gs' ← group_update key f init gs; Ok ((k, sts) :: gs')
  end.

Definition initial_states (aggs : list AggregateExpr) : list AggState := map (fun _ => agg_init) aggs.

Definition execute_hash_aggregate (group : list ColumnRef) (aggs : list AggregateExpr) (items : list SelectItem)
    (having : option (BoolExpr Q)) (child : Gen unit) : Gen unit :=
  groups ← drive child (fun gs r =>
      key ← glift (group_key group r);
      gs' ← glift (group_update key (update_states false r aggs) (initial_states aggs) gs);
      mret (gs', true)) [];
  gfor groups (fun _ g => emit_group true aggs items having (Some (group, g.1)) g.2) tt.

Definition execute_sort_aggregate (group : list ColumnRef) (aggs : list AggregateExpr) (items : list SelectItem)
    (having : option (BoolExpr Q)) (child : Gen unit) : Gen unit :=
  let emit kst := emit_group false aggs items having (Some (group, kst.1)) kst.2 in
  last ← drive child (fun cur r =>
      key ← glift (group_key group r);
      sts ← (match cur with
             | Some (k, sts) => if key_eq k key then mret sts else _ ← emit (k, sts); mret (initial_states aggs)
             | None => mret (initial_states aggs)
             end);
      sts' ← glift (update_states false r aggs sts);
      mret (Some (key, sts'), true)) None;
  match last with Some kst => emit kst | None => mret tt end.

(** When every aggregate is COUNT( * ) over a plain scan, the rows are only counted. *)
Definition all_count_star (aggs : list AggregateExpr) (having : option (BoolExpr Q)) : bool :=
  negb ((length aggs =? 0)%nat) && match having with None => true | _ => false end
  && forallb (fun a => match agg_func a, agg_arg a with Count, None => true | _, _ => false end) aggs.

Definition count_fast_path (aggs : list AggregateExpr) (having : option (BoolExpr Q)) (child : PlanNode Q)
    : option TableView :=
  match child with
  | SeqScanPlan t _ =>
      if all_count_star aggs having && negb track_reads
         && match buffer_of t with Some b => buffer_empty b | None => true end
      then Some t else None
  | _ => None
  end.

Definition execute_count_star (aggs : list AggregateExpr) (items : list SelectItem) (t : TableView) : Gen unit :=
  rows ← glift (tv_scan t scan_ts);
  cs ← glift (group_columns aggs (map (fun _ => mkAggState (Z.of_nat (length rows)) 0 None None) aggs) None items);
  yield (record_of cs).

Definition execute_global_aggregate (aggs : list AggregateExpr) (items : list SelectItem)
    (having : option (BoolExpr Q)) (child : Gen unit) : Gen unit :=
  sts ← drive child (fun sts r => sts' ← glift (update_states true r aggs sts); mret (sts', true)) (initial_states aggs);
  emit_group true aggs items having None sts.

(** * [execute_plan] *)

Fixpoint execute_plan (p : PlanNode Q) : Gen unit :=
  match p with
  | SeqScanPlan t alias => execute_seq_scan t alias
  | IndexScanPlan t alias a => execute_index_scan t alias a
  | UnionPlan children all => execute_union all (map execute_plan children)
  | FilterPlan c e => execute_filter e (execute_plan c)
  | ProjectPlan c items distinct => execute_project items distinct (execute_plan c)
  | OrderByPlan c items limit offset => execute_order_by items limit offset (execute_plan c)
  | HashJoinPlan l r lk rk res ty =>
      execute_hash_join (make_null_record (derive_bindings l)) (make_null_record (derive_bindings r)) lk rk res ty
        (execute_plan l) (execute_plan r)
  | MergeJoinPlan l r lk rk res ty ls rs =>
      execute_merge_join (make_null_record (derive_bindings l)) (make_null_record (derive_bindings r)) lk rk res ty ls rs
        (execute_plan l) (execute_plan r)
  | LimitPlan c limit offset => execute_limit limit offset (execute_plan c)
  | NestedLoopJoinPlan l r on ty =>
      execute_nested_loop_join (make_null_record (derive_bindings l)) (make_null_record (derive_bindings r)) on ty
        (execute_plan l) (execute_plan r)
  | AggregatePlan c group aggs items having strategy =>
      match group with
      | [] => match count_fast_path aggs having c with
              | Some t => execute_count_star aggs items t
              | None => execute_global_aggregate aggs items having (execute_plan c)
              end
      | _ => match strategy with
             | SortStrategy => execute_sort_aggregate group aggs items having (execute_plan c)
             | HashStrategy => execute_hash_aggregate group aggs items having (execute_plan c)
             end
      end
  end.

End Execution.

(** * Generators without their notes *)

(** What a consumer of the records sees of a generator. *)
Definition run {A} (g : Gen A) : list Record_ * res A := (records g.1, g.2).

Lemma records_app es es' : records (es ++ es') = records es ++ records es'.
Proof. apply omap_app. Qed.

Lemma run_ret {A} (a : A) : run (mret a) = ([], Ok a).
Proof. done. Qed.
Lemma run_yield r : run (yield r) = ([r], Ok tt).
Proof. done. Qed.
Lemma run_glift {A} (r : res A) : run (glift r) = ([], r).
Proof. done. Qed.

Lemma run_bind {A B} (g : Gen A) (f : A -> Gen B) ys a :
  run g = (ys, Ok a) -> run (g ≫= f) = (ys ++ (run (f a)).1, (run (f a)).2).
Proof. destruct g as [es [x|w|w]]; intros [= <- <-]. unfold run. cbn. by rewrite records_app. Qed.

Lemma run_bind_ret {A B} (g : Gen A) (f : A -> B) ys a :
  run g = (ys, Ok a) -> run (x ← g; mret (f x)) = (ys, Ok (f a)).
Proof. intros H. erewrite run_bind by exact H. cbn. by rewrite app_nil_r. Qed.

(** A generator that only computes. *)
Lemma run_bind_glift {A B} (r : res A) a (f : A -> Gen B) : r = Ok a -> run (x ← glift r; f x) = run (f a).
Proof. intros ->. erewrite run_bind by apply run_glift. reflexivity. Qed.

(** A loop whose body at [a] yields [out s a] and goes to [next s a]. *)
Fixpoint loop_out {A S} (out : S -> A -> list Record_) (next : S -> A -> S) (l : list A) (s : S) : list Record_ :=
  match l with [] => [] | a :: l => out s a ++ loop_out out next l (next s a) end.

Lemma run_gfor {A S} (f : S -> A -> Gen S) out next (I : S -> Prop) (l : list A) s :
  I s -> (forall s a, I s -> a ∈ l -> run (f s a) = (out s a, Ok (next s a)) /\ I (next s a)) ->
  run (gfor l f s) = (loop_out out next l s, Ok (foldl next s l)).
Proof.
  revert s. induction l as [|a l IH]; intros s Hs H; [done|]. cbn [gfor loop_out foldl].
  destruct (H s a Hs ltac:(by left)) as [H1 H2]. erewrite run_bind by exact H1.
  rewrite IH; [done|done|]. intros s' a' Hs' Ha'. apply H; [done|by right].
Qed.

Lemma run_gfor_simple {A} (f : unit -> A -> Gen unit) out (l : list A) :
  (forall a, a ∈ l -> run (f tt a) = (out a, Ok tt)) -> run (gfor l f tt) = (concat (map out l), Ok tt).
Proof.
  induction l as [|a l IH]; intros H; [done|]. cbn [gfor map concat].
  erewrite run_bind by (apply H; by left). rewrite IH; [done|]. intros a' Ha'. apply H. by right.
Qed.

(** Driving a child that ends normally is a loop over its records. *)
Lemma run_drive {S} (child : Gen unit) (f : S -> Record_ -> Gen (S * bool)) out next (I : S -> Prop) rs s :
  run child = (rs, Ok tt) -> I s ->
  (forall s a, I s -> a ∈ rs -> run (f s a) = (out s a, Ok (next s a, true)) /\ I (next s a)) ->
  run (drive child f s) = (loop_out out next rs s, Ok (foldl next s rs)).
Proof.
  destruct child as [es e]. unfold drive. cbn [fst snd]. intros H0. change e with (es, e).2 in H0.
  assert (records es = rs) as Hr by (by injection H0). assert (e = Ok tt) as -> by (by injection H0). clear H0.
  revert rs s Hr. induction es as [|[r|t v|t k] es IH]; intros rs s Hr Hs H; cbn [drive_events].
  - subst rs. cbn. done.
  - cbn in Hr. subst rs. destruct (H s r Hs ltac:(by left)) as [H1 H2].
    erewrite run_bind by exact H1. cbn [loop_out foldl]. erewrite IH; [done|reflexivity|done|].
    intros s' a' Hs' Ha'. apply H; [done|by right].
  - erewrite run_bind by reflexivity. cbn [fst snd app]. erewrite IH; done.
  - erewrite run_bind by reflexivity. cbn [fst snd app]. erewrite IH; done.
Qed.

Lemma loop_out_nil {A S} next (l : list A) (s : S) : loop_out (fun _ _ => []) next l s = [].
Proof. revert s. induction l; intros; cbn; auto. Qed.

Lemma foldl_snoc {A} (acc l : list A) : foldl (fun acc x => acc ++ [x]) acc l = acc ++ l.
Proof.
  revert acc. induction l as [|x l IH]; intros acc; cbn; [by rewrite app_nil_r|].
  rewrite IH, <- app_assoc. done.
Qed.

Lemma run_collect child rs : run child = (rs, Ok tt) -> run (collect child) = ([], Ok rs).
Proof.
  intros H. unfold collect.
  rewrite (run_drive child _ (fun _ _ => []) (fun acc r => acc ++ [r]) (fun _ => True) rs) by done.
  rewrite loop_out_nil. by rewrite foldl_snoc.
Qed.

Lemma loop_out_const {A S} (out : A -> list Record_) next (l : list A) (s : S) :
  loop_out (fun _ a => out a) next l s = concat (map out l).
Proof. revert s. induction l as [|a l IH]; intros s; cbn; [done|]. by rewrite IH. Qed.

(** A loop that only changes its state. *)
Lemma drive_as_gfor {S} (child : Gen unit) (f : S -> Record_ -> Gen S) rs s :
  run child = (rs, Ok tt) ->
  run (drive child (fun s r => s' ← f s r; mret (s', true)) s) = run (gfor rs f s).
Proof.
  destruct child as [es e]. unfold drive. cbn [fst snd]. intros H0.
  assert (records es = rs) as <- by (by injection H0). assert (e = Ok tt) as -> by (by injection H0). clear H0.
  revert s. induction es as [|[r|t v|t k] es IH]; intros s; cbn [drive_events].
  - done.
  - change (records (Yield r :: es)) with (r :: records es). cbn [gfor].
    destruct (f s r) as [ys [s'|w|w]]; cbn; [|done..]. specialize (IH s'). unfold run in *. cbn in *.
    injection IH as IH1 IH2. rewrite app_nil_r, !records_app, IH1, IH2. done.
  - etransitivity; [|apply IH]. unfold run. cbn. done.
  - etransitivity; [|apply IH]. unfold run. cbn. done.
Qed.

(** One step of a driven loop that goes on. *)
Lemma run_drive_yield {S} r es e (f : S -> Record_ -> Gen (S * bool)) s ys s' :
  run (f s r) = (ys, Ok (s', true)) ->
  run (drive_events (Yield r :: es) e f s) = (ys ++ (run (drive_events es e f s')).1, (run (drive_events es e f s')).2).
Proof. intros H. cbn [drive_events]. by erewrite run_bind by exact H. Qed.

Lemma run_drive_break {S} r es e (f : S -> Record_ -> Gen (S * bool)) s ys s' :
  run (f s r) = (ys, Ok (s', false)) -> run (drive_events (Yield r :: es) e f s) = (ys, Ok s').
Proof. intros H. cbn [drive_events]. erewrite run_bind by exact H. cbn. by rewrite app_nil_r. Qed.

(** Dropping the result of a generator. *)
Definition void {A} (r : res A) : res unit := _ ← r; Ok tt.

Lemma run_void {A} (g : Gen A) : run (_ ← g; mret tt) = ((run g).1, void (run g).2).
Proof. destruct g as [es [a|w|w]]; unfold run; cbn; by rewrite ?app_nil_r. Qed.

(** * A table held as a list of rows without an index, for examples *)

Definition list_view (name : bytes) (cols : list Column) (rows : list Row) : TableView :=
  mkView name cols 0 (fun _ => (rows, Ok tt)) (fun _ => Ok rows)
    (fun k _ => Ok (List.find (fun r => ValueEq (extract_key r cols) k) rows))
    (fun _ _ => []) (fun _ _ _ _ _ => Ok []) (fun _ _ => []).

Definition int_column (name : string) (pk : bool) : Column := mkColumn [] (str name) Int64 0 0 false pk.
Definition int_row (ns : list Z) : Row := mkRow (map VInt ns).
Definition col (t c : string) : ColumnRef := mkRef (str t) (str c).

(** * Laws of sequencing *)

Lemma gen_bind_assoc {A B C} (g : Gen A) (f : A -> Gen B) (h : B -> Gen C) : (g ≫= f) ≫= h = g ≫= (fun a => f a ≫= h).
Proof.
  destruct g as [es [a|w|w]]; cbn; [|done..]. destruct (f a) as [es' [b|w|w]]; cbn; [|done..].
  by rewrite app_assoc.
Qed.

Lemma gen_ret_bind {A B} (a : A) (f : A -> Gen B) : (mret a ≫= f : Gen B) = f a.
Proof. cbn. by destruct (f a). Qed.

Lemma run_bind_ext {A B} (g g' : Gen A) (f f' : A -> Gen B) :
  run g = run g' -> (forall a, run (f a) = run (f' a)) -> run (g ≫= f) = run (g' ≫= f').
Proof.
  destruct g as [es r], g' as [es' r']. unfold run at 1 2. cbn [fst snd]. intros E H.
  assert (records es = records es') as Er by congruence. assert (r = r') as <- by congruence.
  destruct r as [a|w|w]; unfold run in *; cbn [mbind gen_bind fst snd]; [|by rewrite Er..]. rewrite !records_app, Er.
  specialize (H a). assert (records (f a).1 = records (f' a).1) as -> by congruence.
  by assert ((f a).2 = (f' a).2) as -> by congruence.
Qed.

Lemma gfor_app {A S} (l l' : list A) (f : S -> A -> Gen S) s : gfor (l ++ l') f s = gfor l f s ≫= gfor l' f.
Proof.
  revert s. induction l as [|a l IH]; intros s; cbn [gfor app]; [by rewrite gen_ret_bind|].
  rewrite gen_bind_assoc. destruct (f s a) as [es [s'|w|w]]; cbn; [|done..]. by rewrite IH.
Qed.

Lemma run_drive_ext {S} (child : Gen unit) (f f' : S -> Record_ -> Gen (S * bool)) s :
  (forall s r, run (f s r) = run (f' s r)) -> run (drive child f s) = run (drive child f' s).
Proof.
  intros H. destruct child as [es e]. unfold drive. cbn [fst snd]. revert s.
  induction es as [|[r|t v|t k] es IH]; intros s; cbn [drive_events]; [done| | |];
    (apply run_bind_ext; [done|]); [by intros [s' []]|done..].
Qed.

Lemma gfor_ext {A S} (l : list A) (f f' : S -> A -> Gen S) s : (forall s a, f s a = f' s a) -> gfor l f s = gfor l f' s.
Proof.
  intros H. revert s. induction l as [|a l IH]; intros s; [done|]. cbn [gfor]. rewrite H.
  unfold mbind, gen_bind. destruct (f' s a) as [es [s'|w|w]]; [|done..]. by rewrite IH.
Qed.
