(* ===== verification/Sorting.v ===== *)
(** The sorting algorithms of [Query] for comparators that are strict weak
    orders and do not throw: the stable sort and the Top-N heap; and the orders
    [compare_order] gives on the values of a column. *)
From Stdlib Require Import ZArith Lia Sorted.
From stdpp Require Import base numbers list sorting strings.
From S2P Require Import Prelude Values Doubles Eval Session Query.
Local Open Scope Z_scope.

(** * Sorting with a strict weak order *)

(** The comparator answers on the elements in [P], by a strict weak order. *)
Record weak_order {A} (P : A -> Prop) (less : A -> A -> res bool) (lt : A -> A -> bool) : Prop := {
  wo_less a b : P a -> P b -> less a b = Ok (lt a b);
  wo_asym a b : P a -> P b -> lt a b = true -> lt b a = false;
  wo_cotrans a b c : P a -> P b -> P c -> lt a c = true -> lt a b = true \/ lt b c = true
}.

(** Neither comes before the other. *)
Definition tied {A} (lt : A -> A -> bool) (a b : A) : bool := negb (lt a b) && negb (lt b a).

(** No later element comes before an earlier one. *)
Definition ascending {A} (lt : A -> A -> bool) : list A -> Prop := StronglySorted (fun a b => lt b a = false).

Section Sort.
Context {A : Type} (P : A -> Prop) (less : A -> A -> res bool) (lt : A -> A -> bool) (W : weak_order P less lt).
Implicit Types (a b x y : A) (l h : list A).

Lemma lt_irrefl a : P a -> lt a a = false.
Proof. intros Pa. destruct (lt a a) eqn:E; [|done]. pose proof (wo_asym _ _ _ W a a Pa Pa E). congruence. Qed.

Lemma le_trans a b x : P a -> P b -> P x -> lt b a = false -> lt x b = false -> lt x a = false.
Proof.
  intros Pa Pb Px H1 H2. destruct (lt x a) eqn:E; [|done].
  destruct (wo_cotrans _ _ _ W x b a Px Pb Pa E); congruence.
Qed.

Lemma lt_le_trans a b x : P a -> P b -> P x -> lt a b = true -> lt x b = false -> lt a x = true.
Proof. intros Pa Pb Px H1 H2. destruct (wo_cotrans _ _ _ W a x b Pa Px Pb H1); congruence. Qed.

Lemma Forall_perm l l' : l ≡ₚ l' -> Forall P l -> Forall P l'.
Proof. intros E. by rewrite E. Qed.

(** ** The stable sort *)

Lemma sort_insert_spec x l :
  P x -> Forall P l -> ascending lt l ->
  exists l', sort_insert less x l = Ok l' /\ l' ≡ₚ x :: l /\ ascending lt l' /\
    forall e, P e -> List.filter (tied lt e) l' = List.filter (tied lt e) (x :: l).
Proof.
  intros Px. induction l as [|y l IH]; intros Pl S.
  { exists [x]. split_and!; [done|done|repeat constructor|done]. }
  apply Forall_cons in Pl as [Py Pl]. apply StronglySorted_inv in S as [S Hy]. cbn [sort_insert].
  rewrite (wo_less _ _ _ W y x Py Px). cbn [mbind res_bind]. destruct (lt y x) eqn:E.
  - destruct (IH Pl S) as (l' & -> & Perm & Sl & St). exists (y :: l'). split_and!; [done| | |].
    + rewrite Perm. apply Permutation_swap.
    + constructor; [done|]. rewrite Perm. constructor; [by apply (wo_asym _ _ _ W y x)|done].
    + intros e Pe. cbn [List.filter]. rewrite St by done. cbn [List.filter].
      destruct (tied lt e y) eqn:Ty, (tied lt e x) eqn:Tx; try done.
      unfold tied in *. to_prop. destruct (wo_cotrans _ _ _ W y e x Py Pe Px E); congruence.
  - exists (x :: y :: l). split_and!; [done|done| |done]. constructor; [by constructor|].
    constructor; [done|]. rewrite Forall_forall in Hy, Pl |- *. intros z Hz.
    apply (le_trans x y z); auto.
Qed.

Lemma stable_sort_spec l :
  Forall P l -> exists s, stable_sort less l = Ok s /\ s ≡ₚ l /\ ascending lt s /\
    forall e, P e -> List.filter (tied lt e) s = List.filter (tied lt e) l.
Proof.
  induction l as [|x l IH]; intros Pl; [exists []; split_and!; [done..|constructor|done]|].
  apply Forall_cons in Pl as [Px Pl]. destruct (IH Pl) as (s & Hs & Perm & S & St). cbn [stable_sort].
  rewrite Hs. cbn [mbind res_bind].
  destruct (sort_insert_spec x s Px (Forall_perm _ _ (symmetry Perm) Pl) S) as (s' & -> & Perm' & S' & St').
  exists s'. split_and!; [done| |done|].
  - by rewrite Perm', Perm.
  - intros e Pe. rewrite St' by done. cbn [List.filter]. by rewrite St.
Qed.

(** ** Sorted arrangements of the same elements *)

Lemma ascending_le l i j x y :
  ascending lt l -> Forall P l -> l !! i = Some x -> l !! j = Some y -> (i <= j)%nat -> lt y x = false.
Proof.
  intros S Pl. revert i j. induction S as [|z l S IH Hz]; intros i j Hi Hj L; [done|].
  apply Forall_cons in Pl as [Pz Pl]. destruct i as [|i], j as [|j]; cbn in *; simplify_eq; [| |lia|].
  - by apply lt_irrefl.
  - rewrite Forall_lookup in Hz. eauto.
  - eapply IH; eauto. lia.
Qed.

Lemma filter_length_perm (f : A -> bool) l l' : l ≡ₚ l' -> length (List.filter f l) = length (List.filter f l').
Proof. induction 1; cbn; repeat case_match; cbn; congruence. Qed.

Lemma not_before s1 s2 i x y :
  Forall P s1 -> ascending lt s1 -> ascending lt s2 -> s1 ≡ₚ s2 -> s1 !! i = Some x -> s2 !! i = Some y -> lt x y = false.
Proof.
  intros P1 S1 S2 Perm Hx Hy. pose proof (Forall_perm _ _ Perm P1) as P2.
  pose proof (Forall_lookup_1 _ _ _ _ P1 Hx) as Px. pose proof (Forall_lookup_1 _ _ _ _ P2 Hy) as Py.
  destruct (lt x y) eqn:E; [|done]. exfalso. set (f := fun z => negb (lt x z)).
  assert (S i <= length (List.filter f s1))%nat as L1.
  { rewrite <- (take_drop (S i) s1), List.filter_app, length_app.
    assert (List.filter f (take (S i) s1) = take (S i) s1) as ->.
    { apply filter_every. intros z Hz. apply list_elem_of_lookup in Hz as (j & Hj). apply lookup_take_Some in Hj as [Hj Lj].
      unfold f. apply negb_true_iff. eapply (ascending_le s1 j i); eauto. lia. }
    rewrite length_take. apply lookup_lt_Some in Hx. lia. }
  assert (length (List.filter f s2) <= i)%nat as L2.
  { rewrite <- (take_drop i s2), List.filter_app, length_app.
    assert (List.filter f (drop i s2) = []) as ->.
    { apply filter_none. intros z Hz. apply list_elem_of_lookup in Hz as (j & Hj). rewrite lookup_drop in Hj.
      unfold f. apply negb_false_iff. apply (lt_le_trans x y z); try done.
      - by eapply Forall_lookup_1.
      - eapply (ascending_le s2 i (i + j)); eauto. lia. }
    pose proof (List.filter_length_le f (take i s2)). rewrite length_take in *. cbn. lia. }
  rewrite (filter_length_perm f s1 s2 Perm) in L1. lia.
Qed.

Lemma sorted_unique s1 s2 :
  Forall P s1 -> ascending lt s1 -> ascending lt s2 -> s1 ≡ₚ s2 -> Forall2 (fun a b => tied lt a b = true) s1 s2.
Proof.
  intros P1 S1 S2 Perm. apply Forall2_same_length_lookup_2; [by apply Permutation_length|].
  intros i x y Hx Hy. unfold tied. rewrite (not_before s1 s2 i x y) by done.
  by rewrite (not_before s2 s1 i y x) by (done || by eapply Forall_perm).
Qed.

(** ** The Top-N heap *)

(** The heap as a descending vector. *)
Definition descending : list A -> Prop := StronglySorted (fun a b => lt a b = false).

Lemma descending_reverse h : descending h -> ascending lt (reverse h).
Proof.
  unfold descending, ascending. induction 1 as [|x h S IH Hx]; [constructor|]. rewrite reverse_cons.
  apply StronglySorted_app_2; [|done|repeat constructor].
  intros a b Ha Hb. apply list_elem_of_singleton in Hb as ->. rewrite elem_of_reverse in Ha.
  rewrite Forall_forall in Hx. auto.
Qed.

Lemma heap_push_spec x h :
  P x -> Forall P h -> descending h ->
  exists h', heap_push less x h = Ok h' /\ h' ≡ₚ x :: h /\ descending h'.
Proof.
  intros Px. induction h as [|y h IH]; intros Ph S.
  { exists [x]. split_and!; [done|done|repeat constructor]. }
  apply Forall_cons in Ph as [Py Ph]. apply StronglySorted_inv in S as [S Hy]. cbn [heap_push].
  rewrite (wo_less _ _ _ W x y Px Py). cbn [mbind res_bind]. destruct (lt x y) eqn:E.
  - destruct (IH Ph S) as (h' & -> & Perm & Sh). exists (y :: h'). split_and!; [done| |].
    + rewrite Perm. apply Permutation_swap.
    + constructor; [done|]. rewrite Perm. constructor; [by apply (wo_asym _ _ _ W)|done].
  - exists (x :: y :: h). split_and!; [done|done|]. constructor; [by constructor|].
    constructor; [done|]. rewrite Forall_forall in Hy, Ph |- *. intros z Hz. apply (le_trans z y x); auto.
Qed.

(** [h] holds [k] smallest of the elements met, [rest] the others. *)
Definition topn_inv (k : nat) (met h rest : list A) : Prop :=
  h ++ rest ≡ₚ met /\ descending h /\ (length h = k \/ (length h < k)%nat /\ rest = []) /\
  forall a b, a ∈ h -> b ∈ rest -> lt b a = false.

Lemma topn_step_spec k met h rest x :
  (0 < k)%nat -> P x -> Forall P met -> topn_inv k met h rest ->
  exists h' rest', topn_step less k h x = Ok h' /\ topn_inv k (x :: met) h' rest'.
Proof.
  intros Hk Px Pm (Perm & D & Len & Sep). pose proof (Forall_perm _ _ (symmetry Perm) Pm) as [Ph Pr]%Forall_app.
  unfold topn_step. destruct (Nat.ltb_spec (length h) k) as [L|L].
  - destruct Len as [?|[_ ->]]; [lia|]. destruct (heap_push_spec x h Px Ph D) as (h' & -> & Ph' & D').
    exists h', []. split; [done|]. split_and!; [|done| |].
    + rewrite Ph', <- Perm. by rewrite !app_nil_r.
    + apply Permutation_length in Ph'. cbn in Ph'. destruct (decide (length h' = k)); [by left|right; split; [lia|done]].
    + intros a b _ Hb. by apply elem_of_nil in Hb.
  - assert (length h = k) as Lh by (destruct Len as [?|[? _]]; lia). destruct h as [|y h]; [cbn in Lh; lia|].
    apply Forall_cons in Ph as [Py Ph]. apply StronglySorted_inv in D as [D Hy].
    rewrite (wo_less _ _ _ W x y Px Py). cbn [mbind res_bind]. destruct (lt x y) eqn:E.
    + destruct (heap_push_spec x h Px Ph D) as (h' & -> & Ph' & D'). exists h', (y :: rest). split; [done|].
      split_and!; [|done| |].
      * rewrite Ph', <- Perm. cbn. rewrite <- Permutation_middle. done.
      * left. apply Permutation_length in Ph'. cbn in *. lia.
      * intros a b Ha Hb. rewrite Ph' in Ha. rewrite Forall_forall in Ph, Pr, Hy.
        assert (lt y a = false) as Hya.
        { apply elem_of_cons in Ha as [->|Ha]; [by apply (wo_asym _ _ _ W)|auto]. }
        assert (P a) by (apply elem_of_cons in Ha as [->|Ha]; auto).
        apply elem_of_cons in Hb as [->|Hb]; [done|]. apply (le_trans a y b); auto. apply Sep; [by left|done].
    + exists (y :: h), (x :: rest). split; [done|]. split_and!; [|by constructor|by left|].
      * rewrite <- Perm. by rewrite Permutation_middle.
      * intros a b Ha Hb. rewrite Forall_forall in Ph, Pr, Hy.
        apply elem_of_cons in Hb as [->|Hb]; [|by apply Sep].
        apply elem_of_cons in Ha as [->|Ha]; [done|]. apply (le_trans a y x); auto.
Qed.

(** The Top-N result is sorted and tied, element by element, with the first [k]
    elements of any sorted arrangement. *)
Lemma topn_result k met h rest s :
  Forall P met -> topn_inv k met h rest -> s ≡ₚ met -> ascending lt s ->
  Forall2 (fun a b => tied lt a b = true) (reverse h) (take k s).
Proof.
  intros Pm (Perm & D & Len & Sep) Hs S. pose proof (Forall_perm _ _ (symmetry Perm) Pm) as [Ph Pr]%Forall_app.
  destruct (stable_sort_spec rest Pr) as (r & _ & Hr & Sr & _).
  assert (Forall2 (fun a b => tied lt a b = true) (reverse h ++ r) s) as F.
  { apply sorted_unique; [| |done|].
    - apply Forall_app. split; [by apply Forall_reverse|]. by eapply Forall_perm.
    - apply StronglySorted_app_2; [|by apply descending_reverse|done].
      intros a b Ha Hb. rewrite elem_of_reverse in Ha. rewrite Hr in Hb. by apply Sep.
    - by rewrite reverse_Permutation, Hr, Perm, Hs. }
  apply (Forall2_take _ _ _ k) in F. destruct Len as [<-|[L ->]].
  - rewrite <- (length_reverse h) in F |- *. by rewrite take_app_length in F.
  - apply Permutation_nil_r in Hr as ->. rewrite app_nil_r in F.
    rewrite (take_ge (reverse h)) in F; [done|]. rewrite length_reverse. lia.
Qed.

End Sort.

(** * The order of [compare_order] *)

(** The comparison when it does not throw. *)
Definition order_of (a b : Value) : Z := match compare_order a b with Ok z => z | _ => 0 end.

(** Values on which the comparison is a total preorder. *)
Record ordered_values (V : Value -> Prop) : Prop := {
  ov_ok a b : V a -> V b -> compare_order a b = Ok (order_of a b);
  ov_sym a b : V a -> V b -> order_of b a = - order_of a b;
  ov_trans a b c : V a -> V b -> V c -> order_of a b <= 0 -> order_of b c <= 0 -> order_of a c <= 0
}.

Section OrderedValues.
Context (V : Value -> Prop) (O : ordered_values V).

Lemma ov_refl a : V a -> order_of a a = 0.
Proof. intros Va. pose proof (ov_sym _ O a a Va Va). lia. Qed.

Lemma ov_lt_le a b c : V a -> V b -> V c -> order_of a b < 0 -> order_of b c <= 0 -> order_of a c < 0.
Proof.
  intros Va Vb Vc H1 H2. destruct (Z.lt_ge_cases (order_of a c) 0) as [?|H3]; [done|]. exfalso.
  pose proof (ov_trans _ O b c a Vb Vc Va H2) as H4. rewrite (ov_sym _ O a c), (ov_sym _ O a b) in H4 by done. lia.
Qed.

Lemma ov_le_lt a b c : V a -> V b -> V c -> order_of a b <= 0 -> order_of b c < 0 -> order_of a c < 0.
Proof.
  intros Va Vb Vc H1 H2. destruct (Z.lt_ge_cases (order_of a c) 0) as [?|H3]; [done|]. exfalso.
  pose proof (ov_trans _ O c a b Vc Va Vb) as H4. rewrite (ov_sym _ O a c), (ov_sym _ O b c) in H4 by done. lia.
Qed.

Lemma ov_eq_trans a b c : V a -> V b -> V c -> order_of a b = 0 -> order_of b c = 0 -> order_of a c = 0.
Proof.
  intros Va Vb Vc H1 H2. pose proof (ov_trans _ O a b c Va Vb Vc). pose proof (ov_trans _ O c b a Vc Vb Va) as H4.
  rewrite (ov_sym _ O b c), (ov_sym _ O a b), (ov_sym _ O a c) in H4 by done. lia.
Qed.

Lemma ov_gt a b : V a -> V b -> 0 < order_of a b -> order_of b a < 0.
Proof. intros Va Vb H. rewrite (ov_sym _ O a b) by done. lia. Qed.

End OrderedValues.

(** The values of a numeric and of a text column; both may be NULL. *)
Definition num_value (v : Value) : Prop :=
  match v with
  | VNull => True
  | VInt n => - 2 ^ 63 <= n < 2 ^ 63
  | VDouble b => dbl_is_nan b = false
  | VText _ => False
  end.
Definition text_value (v : Value) : Prop := match v with VNull | VText _ => True | _ => False end.

#[export] Instance num_value_dec v : Decision (num_value v).
Proof. destruct v; cbn; apply _. Defined.
#[export] Instance text_value_dec v : Decision (text_value v).
Proof. destruct v; cbn; apply _. Defined.

(** The position of a number on the line. *)
Definition num_rank (v : Value) : Z :=
  match v with VInt n => dbl_key (dbl_of_int n) | VDouble b => dbl_key b | _ => 0 end.

Lemma order_of_num a b :
  num_value a -> num_value b -> is_null a = false -> is_null b = false ->
  compare_order a b = Ok (if num_rank a <? num_rank b then -1 else if num_rank b <? num_rank a then 1 else 0).
Proof.
  assert (forall x y, dbl_is_nan x = false -> dbl_is_nan y = false -> dbl_lt x y = (dbl_key x <? dbl_key y)) as L.
  { intros x y Hx Hy. unfold dbl_lt. by rewrite Hx, Hy. }
  destruct a as [|m|x|s], b as [|n|y|s']; cbn -[dbl_of_int dbl_key Z.pow]; try done; intros Ha Hb _ _;
    repeat match goal with H : - 2 ^ 63 <= _ < 2 ^ 63 |- _ => apply dbl_of_int_key in H as [H _] end;
    by rewrite !L by done.
Qed.

Lemma num_ordered : ordered_values num_value.
Proof.
  assert (forall a b, num_value a -> num_value b -> compare_order a b = Ok (order_of a b)) as Hok.
  { intros a b Ha Hb. unfold order_of. destruct (is_null a) eqn:Na; [by destruct a, b|].
    destruct (is_null b) eqn:Nb; [by destruct a, b|]. by rewrite order_of_num. }
  assert (forall a b, num_value a -> num_value b -> order_of a b =
    match a, b with
    | VNull, VNull => 0 | VNull, _ => 1 | _, VNull => -1
    | _, _ => if num_rank a <? num_rank b then -1 else if num_rank b <? num_rank a then 1 else 0
    end) as Hv.
  { intros a b Ha Hb. unfold order_of. destruct (is_null a) eqn:Na; [by destruct a, b|].
    destruct (is_null b) eqn:Nb; [by destruct a, b|]. rewrite order_of_num by done. by destruct a, b. }
  split; [exact Hok|intros a b Ha Hb|intros a b c Ha Hb Hc]; rewrite !Hv by done;
    [destruct a, b|destruct a, b, c]; try lia;
    repeat match goal with |- context [?u <? ?v] => destruct (Z.ltb_spec u v) end; lia.
Qed.

Lemma bytes_lt_cotrans a b c : bytes_lt a c = true -> bytes_lt a b = true \/ bytes_lt b c = true.
Proof.
  intros H. destruct (bytes_lt_total a b) as [->|[?|Hba]]; auto. right. eauto using bytes_lt_trans.
Qed.

Lemma bytes_lt_asym a b : bytes_lt a b = true -> bytes_lt b a = false.
Proof.
  intros H. destruct (bytes_lt b a) eqn:E; [|done]. rewrite <- (bytes_lt_irrefl a). symmetry. eauto using bytes_lt_trans.
Qed.

Lemma text_ordered : ordered_values text_value.
Proof.
  split.
  - intros [| | |x] [| | |y]; done.
  - intros [| | |x] [| | |y]; cbn; try done. intros _ _.
    destruct (bytes_lt x y) eqn:E; [by rewrite (bytes_lt_asym x y)|by destruct (bytes_lt y x)].
  - intros [| | |x] [| | |y] [| | |z]; cbn; try done; try lia. intros _ _ _ H1 H2.
    destruct (bytes_lt x z) eqn:E1; [lia|]. destruct (bytes_lt z x) eqn:E2; [|lia].
    destruct (bytes_lt_cotrans z y x E2) as [E|E].
    + rewrite (bytes_lt_asym z y E), E in H2. lia.
    + rewrite (bytes_lt_asym y x E), E in H1. lia.
Qed.

(** Comparing elements by one key. *)
Lemma key_weak_order {A} (V : Value -> Prop) (key : A -> Value) (P : A -> Prop) (less : A -> A -> res bool) :
  ordered_values V -> (forall a, P a -> V (key a)) ->
  (forall a b, P a -> P b -> less a b = Ok (order_of (key a) (key b) <? 0)) ->
  weak_order P less (fun a b => order_of (key a) (key b) <? 0).
Proof.
  intros O HV Hl. split; [exact Hl| |].
  - intros a b Pa Pb H. to_prop. apply Z.ltb_ge. rewrite (ov_sym _ O (key a) (key b)) by auto. lia.
  - intros a b c Pa Pb Pc H. to_prop. rewrite !Z.ltb_lt.
    destruct (Z.lt_ge_cases (order_of (key a) (key b)) 0) as [?|H1]; [by left|].
    destruct (Z.lt_ge_cases (order_of (key b) (key c)) 0) as [?|H2]; [by right|]. exfalso.
    assert (order_of (key c) (key a) <= 0) as H3.
    { apply (ov_trans _ O (key c) (key b) (key a)); auto; rewrite (ov_sym _ O) by auto; lia. }
    rewrite (ov_sym _ O (key a) (key c)) in H3 by auto. lia.
Qed.

(** * ORDER BY *)

(** The records on which every sort key of [items] can be computed and has
    values that can be compared. *)
Definition sortable (items : list OrderByItem) (rs : list Record_) : Prop :=
  Forall (fun it => exists V, ordered_values V /\
    Forall (fun r => exists v, order_key r (ord_key it) = Ok v /\ V v) rs) items.

(** The comparator when it does not throw. *)
Definition order_lt (items : list OrderByItem) (a b : Record_) : bool :=
  match order_less items a b with Ok t => t | _ => false end.

Lemma order_less_weak items rs : sortable items rs -> weak_order (fun r => r ∈ rs) (order_less items) (order_lt items).
Proof.
  induction items as [|it items IH]; intros S.
  { split; [done|done|]. done. }
  apply Forall_cons in S as [(V & O & Hk) S]. specialize (IH S). rewrite Forall_forall in Hk.
  set (key r := match order_key r (ord_key it) with Ok v => v | _ => VNull end).
  assert (forall r, r ∈ rs -> order_key r (ord_key it) = Ok (key r) /\ V (key r)) as Hkey.
  { intros r Hr. destruct (Hk r Hr) as (v & E & Hv). unfold key. by rewrite E. }
  assert (forall a b, a ∈ rs -> b ∈ rs -> order_less (it :: items) a b =
            let o := order_of (key a) (key b) in
            if o =? 0 then Ok (order_lt items a b) else Ok (if ord_asc it then o <? 0 else 0 <? o)) as Hl.
  { intros a b Ha Hb. cbn [order_less]. destruct (Hkey a Ha) as [-> Va], (Hkey b Hb) as [-> Vb].
    cbn [mbind res_bind]. rewrite (ov_ok _ O) by done. cbn [mbind res_bind].
    destruct (_ =? 0); [|done]. by apply (wo_less _ _ _ IH). }
  assert (forall a b, a ∈ rs -> b ∈ rs -> order_lt (it :: items) a b =
            let o := order_of (key a) (key b) in
            if o =? 0 then order_lt items a b else if ord_asc it then o <? 0 else 0 <? o) as Hlt.
  { intros a b Ha Hb. unfold order_lt at 1. rewrite Hl by done. cbn zeta. by destruct (_ =? 0). }
  split.
  - intros a b Ha Hb. rewrite Hl, Hlt by done. cbn zeta. by destruct (_ =? 0).
  - intros a b Ha Hb. rewrite !Hlt by done. cbn zeta. destruct (Hkey a Ha) as [_ Va], (Hkey b Hb) as [_ Vb].
    rewrite (ov_sym _ O (key a) (key b)) by done. pose proof (wo_asym _ _ _ IH a b Ha Hb) as IHa.
    destruct (Z.eqb_spec (order_of (key a) (key b)) 0) as [->|N]; [exact IHa|].
    destruct (Z.eqb_spec (- order_of (key a) (key b)) 0); [lia|].
    destruct (ord_asc it); intros; to_prop; apply Z.ltb_ge; lia.
  - intros a b c Ha Hb Hc. rewrite !Hlt by done. cbn zeta.
    destruct (Hkey a Ha) as [_ Va], (Hkey b Hb) as [_ Vb], (Hkey c Hc) as [_ Vc].
    pose proof (wo_cotrans _ _ _ IH a b c Ha Hb Hc) as IHc.
    pose proof (ov_trans _ O (key a) (key b) (key c) Va Vb Vc) as T1.
    pose proof (ov_trans _ O (key c) (key b) (key a) Vc Vb Va) as T2.
    pose proof (ov_trans _ O (key b) (key a) (key c) Vb Va Vc) as T3.
    pose proof (ov_trans _ O (key c) (key a) (key b) Vc Va Vb) as T4.
    pose proof (ov_trans _ O (key b) (key c) (key a) Vb Vc Va) as T5.
    pose proof (ov_trans _ O (key a) (key c) (key b) Va Vc Vb) as T6.
    rewrite (ov_sym _ O (key b) (key c)), (ov_sym _ O (key a) (key b)), (ov_sym _ O (key a) (key c)) in * by done.
    set (x := order_of (key a) (key b)) in *. set (y := order_of (key b) (key c)) in *. set (z := order_of (key a) (key c)) in *.
    destruct (Z.eqb_spec z 0), (Z.eqb_spec x 0), (Z.eqb_spec y 0), (ord_asc it);
      rewrite ?Z.ltb_lt; try lia; tauto.
Qed.

Lemma topn_drive items k child rs :
  run child = (rs, Ok tt) -> sortable items rs -> (0 < k)%nat ->
  exists h rest, run (drive child (fun h r => h' ← glift (topn_step (order_less items) k h r); mret (h', true)) []) = ([], Ok h) /\
    topn_inv (order_lt items) k rs h rest.
Proof.
  intros Hc S Hk. pose proof (order_less_weak items rs S) as W.
  assert (forall met todo h rest, reverse met ++ todo = rs -> topn_inv (order_lt items) k met h rest ->
    exists h' rest', run (gfor todo (fun h r => glift (topn_step (order_less items) k h r)) h) = ([], Ok h') /\
      topn_inv (order_lt items) k rs h' rest') as G.
  { intros met todo. revert met. induction todo as [|x todo IH]; intros met h rest E I.
    - exists h, rest. split; [done|]. destruct I as (Perm & D & L & Sep). split_and!; try done.
      rewrite app_nil_r in E. by rewrite <- E, reverse_Permutation.
    - destruct (topn_step_spec (fun r => r ∈ rs) (order_less items) (order_lt items) W k met h rest x Hk) as (h1 & r1 & H1 & I1).
      + rewrite <- E. apply elem_of_app. right. by left.
      + apply Forall_forall. intros y Hy. rewrite <- E. apply elem_of_app. left. by apply elem_of_reverse.
      + exact I.
      + destruct (IH (x :: met) h1 r1) as (h2 & r2 & H2 & I2); [by rewrite reverse_cons, <- app_assoc|done|].
        exists h2, r2. split; [|done]. cbn [gfor]. by erewrite run_bind_glift by exact H1. }
  destruct (G [] rs [] []) as (h & rest & Hh & I); [done| |].
  { split_and!; [done|constructor| |]; [right; done|]. intros a b Ha. by apply elem_of_nil in Ha. }
  exists h, rest. split; [|done]. erewrite drive_as_gfor; [exact Hh|exact Hc].
Qed.

Section OrderBy.
Context {Q : Type} (session : option Session) (subq : option (Q -> Record_ -> bool -> res (list Value))).

Lemma run_yield_all (l : list Record_) : run (gfor l (fun _ r => yield r) tt) = (l, Ok tt).
Proof.
  rewrite (run_gfor_simple _ (fun r => [r])) by done. f_equal. induction l as [|r l IH]; cbn; congruence.
Qed.

Lemma order_by_run items limit offset k child rs :
  run child = (rs, Ok tt) -> sortable items rs -> topn_k limit offset = Ok k ->
  exists s, stable_sort (order_less items) rs = Ok s /\ s ≡ₚ rs /\ ascending (order_lt items) s /\
    (forall e, e ∈ rs -> List.filter (tied (order_lt items) e) s = List.filter (tied (order_lt items) e) rs) /\
    exists out, run (execute_order_by items limit offset child) = (out, Ok tt) /\ out ⊆+ rs /\
      Forall2 (fun a b => tied (order_lt items) a b = true) out (match k with Some k => take (Z.to_nat k) s | None => s end) /\
      (k = None -> out = s).
Proof.
  intros Hc S Hk. pose proof (order_less_weak items rs S) as W.
  assert (Forall (fun r => r ∈ rs) rs) as Frs by (by apply Forall_forall).
  destruct (stable_sort_spec _ _ _ W rs Frs) as (s & Hs & Perm & Asc & St). exists s. split_and!; [done..|].
  unfold execute_order_by. erewrite run_bind_glift by exact Hk. destruct k as [k|].
  - assert (0 < Z.to_nat k)%nat as Pos.
    { unfold topn_k in Hk. destruct limit as [n|]; [|done]. apply bind_Ok in Hk as (m & _ & Hm).
      destruct (Z.ltb_spec 0 m); [|done]. injection Hm as <-. lia. }
    destruct (topn_drive items (Z.to_nat k) child rs Hc S Pos) as (h & rest & Hh & I).
    exists (reverse h). erewrite run_bind by exact Hh. rewrite run_yield_all. split_and!; [done| | |done].
    + destruct I as (Pm & _). rewrite reverse_Permutation, <- Pm. apply submseteq_inserts_r. done.
    + by apply (topn_result _ _ _ W (Z.to_nat k) rs h rest s).
  - exists s. erewrite run_bind by (by apply run_collect). erewrite run_bind_glift by exact Hs.
    rewrite run_yield_all. split_and!; [done| | |done].
    + by rewrite Perm.
    + apply (sorted_unique _ _ _ W); try done. by eapply Forall_perm.
Qed.

(** ** LIMIT *)

Lemma limit_loop n o es e (st : Z * Z) :
  0 <= st.1 <= o -> 0 <= st.2 -> let g := run (drive_events es e (limit_step o n) st) in
  (g.1, void g.2) =
  (take (Z.to_nat (n - st.2)) (drop (Z.to_nat (o - st.1)) (records es)),
   if Z.max 0 (n - st.2) + (o - st.1) <? Z.of_nat (length (records es)) then Ok tt else e).
Proof.
  revert st. induction es as [|[r|t v|t k] es IH]; intros [i j] Hi Hj; cbn [fst snd] in *;
    [| |exact (IH (i, j) Hi Hj)|exact (IH (i, j) Hi Hj)].
  { change (records []) with (@nil Record_). rewrite drop_nil, take_nil. change (Z.of_nat (length (@nil Record_))) with 0.
    destruct (Z.ltb_spec (Z.max 0 (n - j) + (o - i)) 0); [lia|]. by destruct e as [[]| |]. }
  change (records (Yield r :: es)) with (r :: records es). cbn [length].
  destruct (decide (i < o)) as [L|L].
  - rewrite (run_drive_yield r es e _ (i, j) [] (i + 1, j)).
    2:{ unfold limit_step. cbn [fst snd]. destruct (Z.ltb_spec i o); [done|lia]. }
    specialize (IH (i + 1, j) ltac:(cbn; lia) Hj). cbn [fst snd app] in IH |- *. rewrite IH.
    replace (Z.to_nat (o - i)) with (S (Z.to_nat (o - (i + 1)))) by lia. cbn [drop skipn]. f_equal.
    destruct (Z.ltb_spec (Z.max 0 (n - j) + (o - (i + 1))) (Z.of_nat (length (records es)))),
      (Z.ltb_spec (Z.max 0 (n - j) + (o - i)) (Z.of_nat (S (length (records es))))); lia || done.
  - replace (Z.to_nat (o - i)) with O by lia. cbn [drop skipn]. destruct (decide (n <= j)) as [L2|L2].
    + rewrite (run_drive_break r es e _ (i, j) [] (i, j)).
      2:{ unfold limit_step. cbn [fst snd]. destruct (Z.ltb_spec i o), (Z.leb_spec n j); done || lia. }
      replace (Z.to_nat (n - j)) with O by lia. cbn [take firstn fst snd].
      destruct (Z.ltb_spec (Z.max 0 (n - j) + (o - i)) (Z.of_nat (S (length (records es))))); [done|lia].
    + rewrite (run_drive_yield r es e _ (i, j) [r] (i, j + 1)).
      2:{ unfold limit_step. cbn [fst snd]. destruct (Z.ltb_spec i o), (Z.leb_spec n j); done || lia. }
      specialize (IH (i, j + 1) Hi ltac:(cbn; lia)). cbn [fst snd] in IH |- *.
      replace (Z.to_nat (o - i)) with O in IH by lia. cbn [drop skipn] in IH. pose proof (f_equal fst IH) as IH1.
      pose proof (f_equal snd IH) as IH2. cbn [fst snd] in IH1, IH2. rewrite IH1, IH2. replace (Z.to_nat (n - j)) with (S (Z.to_nat (n - (j + 1)))) by lia. cbn [take firstn app]. f_equal.
      destruct (Z.ltb_spec (Z.max 0 (n - (j + 1)) + (o - i)) (Z.of_nat (length (records es)))),
        (Z.ltb_spec (Z.max 0 (n - j) + (o - i)) (Z.of_nat (S (length (records es))))); lia || done.
Qed.

(** LIMIT [n] OFFSET [o] of a child: the records from [o] on, at most [n] of
    them.  How the child ends only matters when it has no record after those. *)
Lemma limit_run n o child rs :
  0 <= n -> 0 <= o -> (run child).1 = rs ->
  run (execute_limit (Some n) (Some o) child) =
  (take (Z.to_nat n) (drop (Z.to_nat o) rs), if n + o <? Z.of_nat (length rs) then Ok tt else child.2).
Proof.
  intros Hn Ho <-. unfold execute_limit. cbn [default]. rewrite run_void. unfold drive, from_option, id.
  rewrite (limit_loop n o child.1 child.2 (0, 0)) by (cbn; lia). cbn [fst snd run].
  rewrite !Z.sub_0_r, Z.max_r by lia. done.
Qed.

End OrderBy.

(** * Property *)

(** C27: ORDER BY gives the child's records in the order of the sort keys and
    keeps the order of records with equal keys; ORDER BY with LIMIT and OFFSET,
    where the sort keeps only the first [limit + offset] records in a heap and
    the limit cuts the result, gives records of the child that are equal in the
    sort keys, position by position, to the same cut of the full sort. *)
Theorem order_by_limit_correct {Q : Type} (session : option Session)
    (subq : option (Q -> Record_ -> bool -> res (list Value))) (c : PlanNode Q) (items : list OrderByItem)
    (rs : list Record_) (l o : Z) :
  run (execute_plan session subq c) = (rs, Ok tt) -> sortable items rs -> 0 <= l -> 0 <= o -> l + o < 2 ^ 63 ->
  exists s, s ≡ₚ rs /\ ascending (order_lt items) s /\
    (forall e, e ∈ rs -> List.filter (tied (order_lt items) e) s = List.filter (tied (order_lt items) e) rs) /\
    run (execute_plan session subq (OrderByPlan c items None None)) = (s, Ok tt) /\
    exists out, run (execute_plan session subq (LimitPlan (OrderByPlan c items (Some l) (Some o)) (Some l) (Some o))) =
        (out, Ok tt) /\ out ⊆+ rs /\
      Forall2 (fun a b => tied (order_lt items) a b = true) out (take (Z.to_nat l) (drop (Z.to_nat o) s)).
Proof.
  intros Hc S Hl Ho Hlo. cbn [execute_plan].
  destruct (order_by_run items None None None _ rs Hc S eq_refl) as (s & Es & Ps & As & St & out0 & R0 & _ & _ & E0).
  exists s. rewrite E0 in R0 by done. split_and!; [done..|].
  assert (topn_k (Some l) (Some o) = Ok (if 0 <? l + o then Some (l + o) else None)) as K.
  { unfold topn_k. destruct (Z.leb_spec (- 2 ^ 63) (l + o)), (Z.ltb_spec (l + o) (2 ^ 63)); done || lia. }
  destruct (order_by_run items (Some l) (Some o) _ _ rs Hc S K) as (s' & Es' & _ & _ & _ & out & R & Sub & F2 & _).
  rewrite Es in Es'. injection Es' as <-.
  exists (take (Z.to_nat l) (drop (Z.to_nat o) out)). split_and!.
  - rewrite (limit_run l o _ out) by (done || by rewrite R). f_equal.
    assert ((execute_order_by items (Some l) (Some o) (execute_plan session subq c)).2 = Ok tt) as -> by exact (f_equal snd R).
    by destruct (l + o <? Z.of_nat (length out)).
  - etransitivity; [|exact Sub]. etransitivity; [apply submseteq_take|apply submseteq_drop].
  - apply (Forall2_drop _ _ _ (Z.to_nat o)), (Forall2_take _ _ _ (Z.to_nat l)) in F2.
    destruct (Z.ltb_spec 0 (l + o)); [|exact F2].
    replace (Z.to_nat (l + o)) with (Z.to_nat o + Z.to_nat l)%nat in F2 by lia.
    by rewrite <- take_drop_commute, take_take, Nat.min_id in F2.
Qed.

Definition ex_cols : list Column := [int_column "id" true; int_column "v" false].
Definition ex_scan : PlanNode unit :=
  SeqScanPlan (list_view (str "t") ex_cols [int_row [1; 30]; int_row [2; 10]; int_row [3; 30]; int_row [4; 20]]) [].
Definition ex_items : list OrderByItem := [mkOrder (SelExpr (EColumn (col "" "v"))) false].

Lemma order_by_limit_correct_witness :
  exists s out, run (execute_plan None None (OrderByPlan ex_scan ex_items None None)) = (s, Ok tt) /\
    run (execute_plan None None (LimitPlan (OrderByPlan ex_scan ex_items (Some 2) (Some 1)) (Some 2) (Some 1))) = (out, Ok tt) /\
    Forall2 (fun a b => tied (order_lt ex_items) a b = true) out (take 2 (drop 1 s)) /\ length out = 2%nat.
Proof.
  destruct (order_by_limit_correct None None ex_scan ex_items (run (execute_plan None None ex_scan)).1 2 1)
    as (s & _ & _ & _ & R & out & R2 & _ & F); try lia.
  - reflexivity.
  - apply Forall_singleton. exists num_value. split; [exact num_ordered|].
    repeat (apply Forall_cons; split; [eexists; split; [vm_compute; reflexivity|apply (bool_decide_unpack _); exact I]|]).
    apply Forall_nil_2.
  - exists s, out. split_and!; [exact R|exact R2|exact F|]. vm_compute in R2. by injection R2 as <-.
Defined.
