(* ===== verification/Joins.v ===== *)
(** The joins of [Query]: hash join, nested-loop join and merge join against one
    definition of a join over lists. *)
From Stdlib Require Import ZArith Lia Sorted.
From stdpp Require Import base numbers list gmap sorting strings.
From S2P Require Import Prelude Values Codec Doubles Eval Session Query Sorting.
Local Open Scope Z_scope.

(** * Joins as functions on lists *)

Section Spec.
Variables (type : JoinType) (p : Record_ -> Record_ -> bool) (null_left null_right : Record_).

(** What a left row contributes: its matches in the order of the right rows, or
    itself with an all-NULL partner in an outer join. *)
Definition left_contribution (rs : list Record_) (l : Record_) : list Record_ :=
  map (merge_rows l) (List.filter (p l) rs)
  ++ (if negb (existsb (p l) rs) && is_left_outer type then [merge_rows l null_right] else []).

Definition join_spec (ls rs : list Record_) : list Record_ :=
  concat (map (left_contribution rs) ls)
  ++ (if is_right_outer type
      then map (merge_rows null_left) (List.filter (fun r => negb (existsb (fun l => p l r) ls)) rs) else []).
End Spec.

(** The positions, from [i] on, of the rows that satisfy a test. *)
Fixpoint positions (f : Record_ -> bool) (i : nat) (rs : list Record_) : list nat :=
  match rs with
  | [] => []
  | r :: rs => if f r then i :: positions f (S i) rs else positions f (S i) rs
  end.

Lemma positions_all i rs : positions (fun _ => true) i rs = seq i (length rs).
Proof. revert i. induction rs as [|r rs IH]; intros i; cbn; [done|]. by rewrite IH. Qed.

Section JoinProofs.
Context {Q : Type}.
Implicit Types (residual : option (BoolExpr Q)).

Lemma probe_one residual l (q : Record_ -> bool) pre r suf fl (f : Record_ -> bool) any :
  length fl = length pre -> passes residual (merge_rows l r) = Ok (q r) ->
  run (probe_row residual l (pre ++ r :: suf) (fl ++ f r :: map f suf, any) (length pre)) =
    (if q r then [merge_rows l r] else [], Ok (fl ++ (f r || q r) :: map f suf, any || q r)).
Proof.
  intros Hl Hp. unfold probe_row. rewrite list_lookup_middle by done. cbn [fst].
  erewrite run_bind_glift by exact Hp. destruct (q r).
  - erewrite run_bind by apply run_yield. rewrite run_ret, !orb_true_r. cbn [fst snd app].
    rewrite <- Hl, insert_app_r_alt by lia. by rewrite Nat.sub_diag.
  - by rewrite !orb_false_r.
Qed.

Lemma probe_run residual l (kp q : Record_ -> bool) pre suf fl (f : Record_ -> bool) any :
  length fl = length pre ->
  (forall r, r ∈ suf -> kp r = true -> passes residual (merge_rows l r) = Ok (q r)) ->
  run (gfor (positions kp (length pre) suf) (probe_row residual l (pre ++ suf)) (fl ++ map f suf, any)) =
    (map (merge_rows l) (List.filter (fun r => kp r && q r) suf),
     Ok (fl ++ map (fun r => f r || (kp r && q r)) suf, any || existsb (fun r => kp r && q r) suf)).
Proof.
  revert pre fl any. induction suf as [|r suf IH]; intros pre fl any Hl Hp.
  { cbn. by rewrite orb_false_r. }
  assert (forall b any', run (gfor (positions kp (S (length pre)) suf) (probe_row residual l (pre ++ r :: suf))
             (fl ++ b :: map f suf, any')) =
           (map (merge_rows l) (List.filter (fun r => kp r && q r) suf),
            Ok (fl ++ b :: map (fun r => f r || (kp r && q r)) suf, any' || existsb (fun r => kp r && q r) suf))) as IH'.
  { intros b any'. specialize (IH (pre ++ [r]) (fl ++ [b]) any'). rewrite !length_app in IH. cbn [length] in IH.
    rewrite !Nat.add_1_r in IH. rewrite <- !app_assoc in IH. cbn [app] in IH. apply IH; [lia|].
    intros r' Hr'. apply Hp. by right. }
  cbn [positions map List.filter existsb]. destruct (kp r) eqn:K; cbn [andb].
  - cbn [gfor]. erewrite run_bind by (apply (probe_one residual l q pre r suf fl f any Hl), Hp; [by left|done]).
    rewrite IH'. cbn [fst snd]. rewrite <- orb_assoc. by destruct (q r).
  - rewrite IH'. by rewrite orb_false_r.
Qed.

(** The marks a left row leaves on the right rows. *)
Definition mark (p : Record_ -> Record_ -> bool) (rs : list Record_) (m : list bool) (l : Record_) : list bool :=
  zip_with (fun b r => b || p l r) m rs.

Lemma mark_map p rs f l : mark p rs (map f rs) l = map (fun r => f r || p l r) rs.
Proof. unfold mark. induction rs as [|r rs IH]; cbn; [done|]. by rewrite IH. Qed.

Lemma marks_map p rs f ls : foldl (mark p rs) (map f rs) ls = map (fun r => f r || existsb (fun l => p l r) ls) rs.
Proof.
  revert f. induction ls as [|l ls IH]; intros f; cbn.
  - apply map_ext. intros r. by rewrite orb_false_r.
  - rewrite mark_map, IH. apply map_ext. intros r. by rewrite orb_assoc.
Qed.

Lemma unmatched_run type null_left rs f :
  run (unmatched_right type null_left rs (map f rs)) =
  (if is_right_outer type then map (merge_rows null_left) (List.filter (fun r => negb (f r)) rs) else [], Ok tt).
Proof.
  unfold unmatched_right. destruct (is_right_outer type); [|done].
  rewrite (run_gfor_simple _ (fun rm => if (rm.2 : bool) then [] else [merge_rows null_left rm.1])).
  - f_equal. induction rs as [|r rs IH]; [done|]. cbn [map zip zip_with List.filter concat fst snd].
    rewrite IH. by destruct (f r).
  - intros [r []] _; done.
Qed.

(** One left row against the hash table or against all rows. *)
Lemma left_row_run residual type null_right l (kp q : Record_ -> bool) (p : Record_ -> Record_ -> bool) rs f idxs :
  idxs = positions kp 0 rs -> (forall r, r ∈ rs -> p l r = kp r && q r) ->
  (forall r, r ∈ rs -> kp r = true -> passes residual (merge_rows l r) = Ok (q r)) ->
  run ('(matched, any) ← gfor idxs (probe_row residual l rs) (map f rs, false);
       _ ← (if negb any && is_left_outer type then yield (merge_rows l null_right) else mret tt);
       mret matched) =
  (left_contribution type p null_right rs l, Ok (mark p rs (map f rs) l)).
Proof.
  intros -> Hp Hq. pose proof (probe_run residual l kp q [] rs [] f false eq_refl Hq) as R. cbn [length app] in R.
  erewrite run_bind by exact R. cbn [orb]. unfold left_contribution.
  assert (List.filter (fun r => kp r && q r) rs = List.filter (p l) rs) as ->.
  { apply filter_ext_in. intros r Hr%list_elem_of_In. by rewrite Hp. }
  assert (existsb (fun r => kp r && q r) rs = existsb (p l) rs) as ->.
  { clear -Hp. induction rs as [|r rs IH]; [done|]. cbn. rewrite Hp by (by left). f_equal. apply IH.
    intros r' Hr'. apply Hp. by right. }
  assert (map (fun r => f r || kp r && q r) rs = mark p rs (map f rs) l) as ->.
  { rewrite mark_map. apply map_ext_in. intros r Hr%list_elem_of_In. by rewrite Hp. }
  destruct (negb _ && _).
  - erewrite run_bind by apply run_yield. done.
  - erewrite run_bind by apply run_ret. done.
Qed.

(** ** The nested-loop join *)

Lemma nested_loop_run null_left null_right (on : BoolExpr Q) type left right ls rs (p : Record_ -> Record_ -> bool) :
  run left = (ls, Ok tt) -> run right = (rs, Ok tt) ->
  (forall l r, l ∈ ls -> r ∈ rs -> holds on (merge_rows l r) = Ok (p l r)) ->
  run (execute_nested_loop_join null_left null_right on type left right) =
  (join_spec type p null_left null_right ls rs, Ok tt).
Proof.
  intros Hl Hr Hp. unfold execute_nested_loop_join.
  erewrite run_bind by (by apply run_collect). erewrite run_bind by (by apply run_collect). cbn [app fst snd].
  erewrite run_bind; last first.
  { apply (run_gfor _ (fun _ l => left_contribution type p null_right rs l) (mark p rs) (fun m => exists f, m = map f rs)).
    - by eexists.
    - intros m l [f ->] Hin. split; [|rewrite mark_map; by eexists].
      apply (left_row_run (Some on) type null_right l (fun _ => true) (p l)); [|done|].
      + by rewrite positions_all.
      + intros r Hr' _. by apply Hp. }
  rewrite marks_map, unmatched_run. cbn [fst snd orb]. unfold join_spec. by rewrite loop_out_const.
Qed.

(** ** The hash join *)

Lemma buckets_run key kr i rs b0 :
  (forall r, r ∈ rs -> lookup_ref r key = Ok (kr r) /\ key_ok (kr r)) -> Forall key_ok b0.*1 -> NoDup b0.*1 ->
  exists b, build_buckets key i rs b0 = Ok b /\
    forall k, key_ok k -> default [] (vfind k b) = default [] (vfind k b0) ++ positions (fun r => ValueEq k (kr r)) i rs.
Proof.
  revert i b0. induction rs as [|r rs IH]; intros i b0 Hk H0 Hn; cbn [build_buckets positions].
  { exists b0. split; [done|]. intros k _. by rewrite app_nil_r. }
  destruct (Hk r ltac:(by left)) as [-> Hr]. cbn [mbind res_bind].
  set (b1 := vput (kr r) (default [] (vfind (kr r) b0) ++ [i]) b0).
  destruct (vput_keys (kr r) (default [] (vfind (kr r) b0) ++ [i]) b0 H0 Hr Hn) as (N1 & K1 & _).
  destruct (IH (S i) b1) as (b & Hb & Hf); [|done|done|].
  { intros r' Hr'. apply Hk. by right. }
  exists b. split; [done|]. intros k Hkk. rewrite Hf by done. unfold b1. rewrite vfind_put by done.
  destruct (ValueEq k (kr r)) eqn:E.
  - apply ValueEq_eq in E as ->; [|done..]. rewrite decide_True by done. cbn [from_option]; unfold id.
    by rewrite <- app_assoc.
  - apply ValueEq_ne in E; [|done..]. by rewrite decide_False.
Qed.

Lemma hash_join_run null_left null_right lk rk residual type left right ls rs
    (kl kr : Record_ -> Value) (q : Record_ -> bool) :
  run left = (ls, Ok tt) -> run right = (rs, Ok tt) ->
  (forall l, l ∈ ls -> lookup_ref l lk = Ok (kl l) /\ key_ok (kl l)) ->
  (forall r, r ∈ rs -> lookup_ref r rk = Ok (kr r) /\ key_ok (kr r)) ->
  (forall l r, l ∈ ls -> r ∈ rs -> ValueEq (kl l) (kr r) = true ->
     passes residual (merge_rows l r) = Ok (q (merge_rows l r))) ->
  run (execute_hash_join null_left null_right lk rk residual type left right) =
  (join_spec type (fun l r => ValueEq (kl l) (kr r) && q (merge_rows l r)) null_left null_right ls rs, Ok tt).
Proof.
  intros Hl Hr Hkl Hkr Hq. unfold execute_hash_join.
  destruct (buckets_run rk kr 0 rs [] Hkr ltac:(constructor) ltac:(constructor)) as (b & Hb & Hf).
  erewrite run_bind by (by apply run_collect). cbn [app fst snd]. erewrite run_bind_glift by exact Hb.
  set (p := fun l r => ValueEq (kl l) (kr r) && q (merge_rows l r)).
  erewrite run_bind; last first.
  { apply (run_drive left _ (fun _ l => left_contribution type p null_right rs l) (mark p rs)
             (fun m => exists f, m = map f rs) ls); [done|by eexists|].
    intros m l [f ->] Hin. split; [|rewrite mark_map; by eexists].
    destruct (Hkl l Hin) as [El Kl]. erewrite run_bind_glift by exact El. rewrite Hf by done. cbn [vfind default app].
    pose proof (left_row_run residual type null_right l (fun r => ValueEq (kl l) (kr r)) (fun r => q (merge_rows l r)) p rs f
                  _ eq_refl ltac:(done) ltac:(intros; by apply Hq)) as R.
    revert R. set (g1 := gfor _ _ _). destruct g1 as [es [[m any]|w|w]]; [|done..]. unfold run. cbn.
    destruct (negb any && is_left_outer type); cbn; rewrite !records_app; cbn; intros [= -> ->]; done. }
  rewrite marks_map, unmatched_run. cbn [fst snd orb]. unfold join_spec. by rewrite loop_out_const.
Qed.

(** ** The merge join *)

Implicit Types (ls rs : list (Record_ * Value)).

(** Rows in the order of their keys. *)
Definition by_key : list (Record_ * Value) -> Prop := StronglySorted (fun a b => order_of a.2 b.2 <= 0).

(** The condition a merge join tests on two rows. *)
Definition merge_matches (q : Record_ -> bool) (l r : Record_ * Value) : bool :=
  (order_of l.2 r.2 =? 0) && q (merge_rows l.1 r.1).

(** [join_spec] on rows with their keys. *)
Definition keyed_spec type (q : Record_ -> bool) null_left null_right ls rs : list Record_ :=
  concat (map (fun l => map (fun r => merge_rows l.1 r.1) (List.filter (merge_matches q l) rs)
    ++ (if negb (existsb (merge_matches q l) rs) && is_left_outer type then [merge_rows l.1 null_right] else [])) ls)
  ++ (if is_right_outer type
      then map (fun r => merge_rows null_left r.1)
             (List.filter (fun r => negb (existsb (fun l => merge_matches q l r) ls)) rs) else []).

Section Keys.
Context (V : Value -> Prop) (O : ordered_values V) (type : JoinType) (null_left null_right : Record_).
Context (residual : option (BoolExpr Q)) (q : Record_ -> bool).
(** Outer merge joins only have an equality condition. *)
Context (Hres : type = Inner \/ (forall m, q m = true)).

Lemma spec_left_alone l ls rs :
  (forall r, r ∈ rs -> merge_matches q l r = false) ->
  keyed_spec type q null_left null_right (l :: ls) rs =
  (if is_left_outer type then [merge_rows l.1 null_right] else []) ++ keyed_spec type q null_left null_right ls rs.
Proof.
  intros H. unfold keyed_spec. cbn [map concat existsb]. rewrite filter_none, existsb_none by done. cbn [map app negb andb].
  rewrite <- app_assoc. do 2 f_equal. destruct (is_right_outer type); [|done]. f_equal.
  apply filter_ext_in. intros r Hr%list_elem_of_In. by rewrite H.
Qed.

Lemma spec_right_alone r ls rs :
  (forall l, l ∈ ls -> merge_matches q l r = false) ->
  keyed_spec type q null_left null_right ls (r :: rs) ≡ₚ
  (if is_right_outer type then [merge_rows null_left r.1] else []) ++ keyed_spec type q null_left null_right ls rs.
Proof.
  intros H. unfold keyed_spec. cbn [List.filter]. rewrite existsb_none by done. cbn [negb map].
  match goal with |- context [concat (map ?f ls)] => match goal with |- context [concat (map ?g ls) ++ (if _ then map _ (List.filter _ rs) else _)] =>
    assert (map f ls = map g ls) as -> end end.
  { apply map_ext_in. intros l Hl%list_elem_of_In. rewrite H by done. cbn [existsb]. by rewrite H. }
  destruct (is_right_outer type); [|done]. cbn [app map]. by rewrite <- Permutation_middle.
Qed.

(** All pairs of two blocks that pass the residual condition. *)
Definition block (la ra : list (Record_ * Value)) : list Record_ :=
  concat (map (fun l => map (merge_rows l) (List.filter (fun r => q (merge_rows l r)) ra.*1)) la.*1).

Lemma map_filter_fst l (ra : list (Record_ * Value)) :
  map (fun r => merge_rows l r.1) (List.filter (fun r => q (merge_rows l r.1)) ra) =
  map (merge_rows l) (List.filter (fun r => q (merge_rows l r)) ra.*1).
Proof. induction ra as [|[r v] ra IH]; cbn; [done|]. destruct (q (merge_rows l r)); cbn; congruence. Qed.

Lemma spec_blocks la lb ra rb :
  la <> [] -> ra <> [] ->
  (forall l r, l ∈ la -> r ∈ ra -> order_of l.2 r.2 = 0) ->
  (forall l r, l ∈ la -> r ∈ rb -> order_of l.2 r.2 <> 0) ->
  (forall l r, l ∈ lb -> r ∈ ra -> order_of l.2 r.2 <> 0) ->
  keyed_spec type q null_left null_right (la ++ lb) (ra ++ rb) = block la ra ++ keyed_spec type q null_left null_right lb rb.
Proof.
  intros Na Nr Haa Hab Hba. unfold keyed_spec.
  assert (forall l r, l ∈ la -> r ∈ ra -> merge_matches q l r = q (merge_rows l.1 r.1)) as Maa.
  { intros l r Hl Hr. unfold merge_matches. by rewrite Haa. }
  assert (forall l r, l ∈ la -> r ∈ rb -> merge_matches q l r = false) as Mab.
  { intros l r Hl Hr. unfold merge_matches. by rewrite (proj2 (Z.eqb_neq _ _) (Hab l r Hl Hr)). }
  assert (forall l r, l ∈ lb -> r ∈ ra -> merge_matches q l r = false) as Mba.
  { intros l r Hl Hr. unfold merge_matches. by rewrite (proj2 (Z.eqb_neq _ _) (Hba l r Hl Hr)). }
  rewrite map_app, concat_app, <- !app_assoc. f_equal; [|f_equal].
  - unfold block. f_equal. change (la.*1) with (map fst la). rewrite map_map. apply map_ext_in.
    intros l Hl%list_elem_of_In. cbn. rewrite List.filter_app, (filter_none _ rb), app_nil_r by auto.
    rewrite (filter_ext_in (merge_matches q l) (fun r => q (merge_rows l.1 r.1)) ra)
      by (intros r Hr%list_elem_of_In; by apply Maa).
    rewrite map_filter_fst. destruct Hres as [->|Hq]; [by rewrite andb_false_r, app_nil_r|].
    rewrite existsb_app. destruct ra as [|r ra]; [done|].
    cbn [existsb]. rewrite Maa, Hq by (done || by left). cbn. by rewrite app_nil_r.
  - f_equal. apply map_ext_in. intros l Hl%list_elem_of_In.
    rewrite List.filter_app, (filter_none _ ra), existsb_app, (existsb_none _ ra) by auto. done.
  - destruct (is_right_outer type) eqn:Ro; [|done]. destruct Hres as [->|Hq]; [done|].
    rewrite List.filter_app, map_app. rewrite (filter_none _ ra); last first.
    { intros r Hr. apply negb_false_iff. rewrite existsb_app. destruct la as [|l la]; [done|].
      cbn [existsb]. by rewrite Maa, Hq by (done || by left). }
    cbn. f_equal. apply filter_ext_in. intros r Hr%list_elem_of_In.
    by rewrite existsb_app, (existsb_none _ la) by auto.
Qed.

(** Rows in key order, from a key on: those with an equal key come first. *)
Lemma equal_run_spec k rows :
  V k -> Forall (fun r => V r.2) rows -> by_key rows -> Forall (fun r => order_of k r.2 <= 0) rows ->
  exists a b, equal_run k rows = Ok (a.*1, b) /\ rows = a ++ b /\
    Forall (fun r => order_of k r.2 = 0) a /\ Forall (fun r => order_of k r.2 < 0) b.
Proof.
  intros Vk. induction rows as [|[r v] rows IH]; intros Vr S L.
  { exists [], []. split_and!; done. }
  apply Forall_cons in Vr as [Vv Vr]. apply StronglySorted_inv in S as [S Hv]. apply Forall_cons in L as [Lv L].
  cbn [equal_run fst snd] in *. rewrite (ov_ok _ O) by done. cbn [mbind res_bind].
  pose proof (ov_sym _ O k v Vk Vv) as Sy. destruct (Z.eqb_spec (order_of v k) 0) as [E|N].
  - destruct (IH Vr S L) as (a & b & -> & -> & Fa & Fb). exists ((r, v) :: a), b. split_and!; try done.
    constructor; [cbn; lia|done].
  - exists [], ((r, v) :: rows). split_and!; try done. constructor; [cbn; lia|].
    rewrite Forall_forall in Hv, Vr |- *. intros r' Hr'.
    apply (ov_lt_le V O k v r'.2); auto; lia.
Qed.

Lemma by_key_head x rows : by_key (x :: rows) -> Forall (fun r => V r.2) (x :: rows) -> Forall (fun r => order_of x.2 r.2 <= 0) (x :: rows).
Proof.
  intros [_ H]%StronglySorted_inv [Vx _]%Forall_cons. constructor; [|done]. rewrite (ov_refl V O) by done. lia.
Qed.

Lemma cross_run (la ra : list Record_) :
  (forall l r, l ∈ la -> r ∈ ra -> passes residual (merge_rows l r) = Ok (q (merge_rows l r))) ->
  run (cross residual la ra) = (concat (map (fun l => map (merge_rows l) (List.filter (fun r => q (merge_rows l r)) ra)) la), Ok tt).
Proof.
  intros H. unfold cross.
  rewrite (run_gfor_simple _ (fun l => map (merge_rows l) (List.filter (fun r => q (merge_rows l r)) ra))); [done|].
  intros l Hl. rewrite (run_gfor_simple _ (fun r => if q (merge_rows l r) then [merge_rows l r] else [])).
  - f_equal. clear. induction ra as [|r ra IH]; cbn; [done|]. by destruct (q (merge_rows l r)); cbn; rewrite IH.
  - intros r Hr. erewrite run_bind_glift by (by apply H). by destruct (q (merge_rows l r)).
Qed.

Lemma concat_singletons {A B} (f : A -> B) (l : list A) : concat (map (fun x => [f x]) l) = map f l.
Proof. induction l; cbn; congruence. Qed.

Lemma tail_run ls rs :
  ls = [] \/ rs = [] ->
  run (_ ← (if is_left_outer type then gfor ls (fun _ l => yield (merge_rows l.1 null_right)) tt else mret tt);
       if is_right_outer type then gfor rs (fun _ r => yield (merge_rows null_left r.1)) tt else mret tt) =
  (keyed_spec type q null_left null_right ls rs, Ok tt).
Proof.
  intros E. erewrite run_bind with (ys := if is_left_outer type then map (fun l => merge_rows l.1 null_right) ls else []); last first.
  { destruct (is_left_outer type); [|done]. rewrite (run_gfor_simple _ (fun l => [merge_rows l.1 null_right])) by done.
    by rewrite concat_singletons. }
  unfold keyed_spec. destruct E as [-> | ->].
  - cbn [map concat existsb negb]. rewrite (filter_every _ rs) by done.
    destruct (is_left_outer type), (is_right_outer type); cbn [app]; try done;
      rewrite (run_gfor_simple _ (fun r => [merge_rows null_left r.1])) by done; by rewrite concat_singletons.
  - cbn [List.filter map existsb negb andb app].
    assert ((run (if is_right_outer type then gfor [] (fun _ (r : Record_ * Value) => yield (merge_rows null_left r.1)) tt else mret tt))
            = ([], Ok tt)) as -> by (by destruct (is_right_outer type)). cbn [fst snd]. rewrite app_nil_r.
    destruct (is_right_outer type); rewrite ?app_nil_r; destruct (is_left_outer type);
      rewrite ?concat_singletons; try done; f_equal; induction ls; cbn; congruence.
Qed.

(** Two inputs with equal first keys split into the rows with these keys, which
    match each other, and the rest, which they do not match. *)
Lemma equal_blocks l r ls rs :
  order_of l.2 r.2 = 0 -> by_key (l :: ls) -> by_key (r :: rs) ->
  Forall (fun l => V l.2) (l :: ls) -> Forall (fun r => V r.2) (r :: rs) ->
  exists la lb ra rb, equal_run l.2 (l :: ls) = Ok (la.*1, lb) /\ equal_run r.2 (r :: rs) = Ok (ra.*1, rb) /\
    l :: ls = la ++ lb /\ r :: rs = ra ++ rb /\ la <> [] /\ ra <> [] /\
    (forall x y, x ∈ la -> y ∈ ra -> order_of x.2 y.2 = 0) /\
    (forall x y, x ∈ la -> y ∈ rb -> order_of x.2 y.2 <> 0) /\ (forall x y, x ∈ lb -> y ∈ ra -> order_of x.2 y.2 <> 0).
Proof.
  intros E0 Sl Sr Vl Vr. pose proof Vl as [Vlv _]%Forall_cons. pose proof Vr as [Vrv _]%Forall_cons.
  destruct (equal_run_spec l.2 (l :: ls)) as (la & lb & Ra & Ea & Fa & Fb); auto using by_key_head.
  destruct (equal_run_spec r.2 (r :: rs)) as (ra & rb & Rr & Er & Ga & Gb); auto using by_key_head.
  exists la, lb, ra, rb. rewrite Ea, Er in *. apply Forall_app in Vl as [Vla Vlb], Vr as [Vra Vrb].
  rewrite Forall_forall in Fa, Fb, Ga, Gb, Vla, Vlb, Vra, Vrb. pose proof (ov_sym _ O l.2 r.2 Vlv Vrv) as Sy.
  assert (forall x, x ∈ la -> order_of x.2 l.2 = 0) as Fa' by (intros x Hx; rewrite (ov_sym _ O l.2) by auto; rewrite Fa by done; done).
  split_and!; try done.
  - intros ->. cbn in Ea. rewrite <- Ea in Fb. pose proof (Fb l ltac:(by left)). rewrite (ov_refl V O) in * by done. lia.
  - intros ->. cbn in Er. rewrite <- Er in Gb. pose proof (Gb r ltac:(by left)). rewrite (ov_refl V O) in * by done. lia.
  - intros x y Hx Hy. apply (ov_eq_trans V O x.2 l.2 y.2); auto. apply (ov_eq_trans V O l.2 r.2 y.2); auto.
  - intros x y Hx Hy. apply Z.lt_neq, (ov_le_lt V O x.2 r.2 y.2); auto.
    rewrite (ov_eq_trans V O x.2 l.2 r.2) by auto. lia.
  - intros x y Hx Hy. apply not_eq_sym, Z.lt_neq. rewrite (ov_sym _ O y.2 x.2) by auto.
    apply Z.opp_pos_neg, (ov_le_lt V O y.2 l.2 x.2); auto.
    rewrite (ov_sym _ O l.2 y.2), (ov_eq_trans V O l.2 r.2 y.2) by auto. lia.
Qed.

Lemma less_alone l r rs :
  V l.2 -> order_of l.2 r.2 < 0 -> by_key (r :: rs) -> Forall (fun r => V r.2) (r :: rs) ->
  forall y, y ∈ r :: rs -> merge_matches q l y = false.
Proof.
  intros Vl Lt Sr Vr y Hy. pose proof (by_key_head _ _ Sr Vr) as H. rewrite Forall_forall in H, Vr.
  unfold merge_matches. apply andb_false_iff. left. apply Z.eqb_neq, Z.lt_neq, (ov_lt_le V O _ r.2); auto.
  apply Vr. by left.
Qed.

Lemma greater_alone l r ls :
  V r.2 -> 0 < order_of l.2 r.2 -> by_key (l :: ls) -> Forall (fun l => V l.2) (l :: ls) ->
  forall x, x ∈ l :: ls -> merge_matches q x r = false.
Proof.
  intros Vr Gt Sl Vl x Hx. pose proof (by_key_head _ _ Sl Vl) as H. pose proof Vl as [Vl1 _]%Forall_cons.
  rewrite Forall_forall in H, Vl. unfold merge_matches. apply andb_false_iff. left.
  apply Z.eqb_neq, not_eq_sym, Z.lt_neq. rewrite (ov_sym _ O r.2 x.2) by auto.
  apply Z.opp_pos_neg, (ov_lt_le V O _ l.2); auto. by apply (ov_gt V O).
Qed.

(** The joined rows need the residual condition to answer. *)
Definition residual_ok ls rs : Prop :=
  forall l r, l ∈ ls -> r ∈ rs -> order_of l.2 r.2 = 0 -> passes residual (merge_rows l.1 r.1) = Ok (q (merge_rows l.1 r.1)).

Lemma merge_loop_run fuel ls rs :
  (length ls + length rs < fuel)%nat -> by_key ls -> by_key rs -> Forall (fun l => V l.2) ls -> Forall (fun r => V r.2) rs ->
  residual_ok ls rs ->
  exists out, run (merge_loop fuel null_left null_right residual type ls rs) = (out, Ok tt) /\
    out ≡ₚ keyed_spec type q null_left null_right ls rs.
Proof.
  revert ls rs. induction fuel as [|fuel IH]; intros ls rs Fu Sl Sr Vl Vr Hp; [lia|]. cbn [merge_loop].
  destruct ls as [|[l lv] ls']; [eexists; split; [apply tail_run; by left|done]|].
  destruct rs as [|[r rv] rs']; [eexists; split; [apply tail_run; by right|done]|].
  pose proof Sl as [Sl' _]%StronglySorted_inv. pose proof Sr as [Sr' _]%StronglySorted_inv.
  pose proof Vl as [Vlv Vl']%Forall_cons. pose proof Vr as [Vrv Vr']%Forall_cons. cbn [fst snd length] in *.
  erewrite run_bind_glift by (by apply (ov_ok _ O)). destruct (Z.ltb_spec (order_of lv rv) 0) as [Lt|Ge].
  { destruct (IH ls' ((r, rv) :: rs')) as (out & R & P); try done; [cbn; lia| |].
    { intros x y Hx Hy. apply Hp; [by right|done]. }
    eexists. split; [|rewrite spec_left_alone by (by apply (less_alone (l, lv) (r, rv))); by rewrite <- P].
    erewrite run_bind with (ys := if is_left_outer type then [merge_rows l null_right] else []); [by rewrite R|].
    by destruct (is_left_outer type). }
  destruct (Z.ltb_spec 0 (order_of lv rv)) as [Gt|Le].
  { destruct (IH ((l, lv) :: ls') rs') as (out & R & P); try done; [cbn; lia| |].
    { intros x y Hx Hy. apply Hp; [done|by right]. }
    eexists. split; [|rewrite spec_right_alone by (by apply (greater_alone (l, lv) (r, rv))); by rewrite <- P].
    erewrite run_bind with (ys := if is_right_outer type then [merge_rows null_left r] else []); [by rewrite R|].
    by destruct (is_right_outer type). }
  destruct (equal_blocks (l, lv) (r, rv) ls' rs') as (la & lb & ra & rb & Ra & Rr & Ea & Er & Na & Nr & Eab & Hab & Hba);
    try done; [cbn; lia|]. cbn [fst snd] in *.
  erewrite run_bind_glift by exact Ra. cbv beta iota. erewrite run_bind_glift by exact Rr. cbv beta iota.
  assert (length la + length lb = S (length ls') /\ length ra + length rb = S (length rs'))%nat as [L1 L2].
  { rewrite <- !length_app, <- Ea, <- Er. done. }
  rewrite Ea in *. rewrite Er in *. apply Forall_app in Vl as [_ Vlb], Vr as [_ Vrb].
  destruct (IH lb rb) as (out & R & P); [|by eapply StronglySorted_app_1_r|by eapply StronglySorted_app_1_r|done|done|..].
  { destruct la, ra; cbn in *; try done; lia. }
  { intros x y Hx Hy. apply Hp; apply elem_of_app; by right. }
  eexists. split; [|rewrite spec_blocks by done; by rewrite <- P].
  erewrite run_bind; [by rewrite R|]. apply cross_run. intros x y Hx Hy.
  apply list_elem_of_fmap in Hx as (x' & -> & Hx). apply list_elem_of_fmap in Hy as (y' & -> & Hy).
  apply Hp; [apply elem_of_app; by left|apply elem_of_app; by left|by apply Eab].
Qed.

End Keys.

(** ** Independence of the order of the inputs *)

Lemma concat_map_perm {A B} (f g : A -> list B) (l : list A) :
  (forall x, x ∈ l -> f x ≡ₚ g x) -> concat (map f l) ≡ₚ concat (map g l).
Proof.
  induction l as [|x l IH]; intros H; [done|]. cbn. rewrite (H x) by (by left). rewrite IH; [done|].
  intros y Hy. apply H. by right.
Qed.

Lemma concat_perm {A} (a b : list (list A)) : a ≡ₚ b -> concat a ≡ₚ concat b.
Proof.
  induction 1 as [|x a b _ IH|x y a|a b c _ IH1 _ IH2]; cbn; [done|by rewrite IH|solve_Permutation|by rewrite IH1].
Qed.

Lemma filter_perm {A} (f : A -> bool) (a b : list A) : a ≡ₚ b -> List.filter f a ≡ₚ List.filter f b.
Proof.
  induction 1 as [|x a b _ IH|x y a|a b c _ IH1 _ IH2]; cbn; [done| | |by rewrite IH1].
  - destruct (f x); by rewrite IH.
  - destruct (f x), (f y); solve_Permutation.
Qed.

Lemma existsb_perm {A} (f : A -> bool) (a b : list A) : a ≡ₚ b -> existsb f a = existsb f b.
Proof.
  intros P. apply eq_true_iff_eq. rewrite !existsb_exists. setoid_rewrite <- list_elem_of_In. by setoid_rewrite P.
Qed.

Lemma keyed_spec_perm type q null_left null_right ls ls' rs rs' :
  ls ≡ₚ ls' -> rs ≡ₚ rs' ->
  keyed_spec type q null_left null_right ls rs ≡ₚ keyed_spec type q null_left null_right ls' rs'.
Proof.
  intros Pl Pr. unfold keyed_spec. apply Permutation_app.
  - etransitivity; [apply concat_perm, Permutation_map, Pl|]. apply concat_map_perm. intros l _.
    rewrite (existsb_perm _ rs rs' Pr). apply Permutation_app; [|done]. by apply Permutation_map, filter_perm.
  - destruct (is_right_outer type); [|done]. apply Permutation_map. etransitivity; [apply filter_perm, Pr|].
    erewrite filter_ext; [done|]. intros r. by rewrite (existsb_perm _ ls ls' Pl).
Qed.

Lemma filter_map_comm {A B} (f : A -> B) (p : B -> bool) (l : list A) :
  List.filter p (map f l) = map f (List.filter (fun x => p (f x)) l).
Proof. induction l as [|x l IH]; cbn; [done|]. rewrite IH. by destruct (p (f x)). Qed.

Lemma existsb_map {A B} (f : A -> B) (p : B -> bool) (l : list A) : existsb p (map f l) = existsb (fun x => p (f x)) l.
Proof. induction l as [|x l IH]; cbn; congruence. Qed.

Lemma keyed_spec_join type q null_left null_right (kl kr : Record_ -> Value) (ls rs : list Record_) :
  keyed_spec type q null_left null_right (map (fun l => (l, kl l)) ls) (map (fun r => (r, kr r)) rs) =
  join_spec type (fun l r => (order_of (kl l) (kr r) =? 0) && q (merge_rows l r)) null_left null_right ls rs.
Proof.
  unfold keyed_spec, join_spec, left_contribution, merge_matches. rewrite map_map. f_equal.
  - f_equal. apply map_ext. intros l. by rewrite filter_map_comm, map_map, existsb_map.
  - destruct (is_right_outer type); [|done]. rewrite filter_map_comm, map_map. f_equal.
    apply filter_ext. intros r. by rewrite existsb_map.
Qed.

Lemma collect_keyed_run key (k : Record_ -> Value) child (rs : list Record_) :
  run child = (rs, Ok tt) -> (forall r, r ∈ rs -> lookup_ref r key = Ok (k r)) ->
  run (collect_keyed key child) = ([], Ok (map (fun r => (r, k r)) rs)).
Proof.
  intros H Hk. unfold collect_keyed.
  rewrite (run_drive child _ (fun _ _ => []) (fun acc r => acc ++ [(r, k r)]) (fun _ => True) rs); [|done..|].
  - rewrite loop_out_nil. do 2 f_equal. clear.
    assert (forall acc, foldl (fun acc r => acc ++ [(r, k r)]) acc rs = acc ++ map (fun r => (r, k r)) rs) as G; [|by rewrite G].
    induction rs as [|r rs IH]; intros acc; cbn; [by rewrite app_nil_r|]. by rewrite IH, <- app_assoc.
  - intros acc r _ Hr. split; [|done]. by erewrite run_bind_glift by (by apply Hk).
Qed.

(** The rows of one input, in key order: as they come when they are known to be
    sorted, sorted otherwise. *)
Lemma sorted_input (V : Value -> Prop) (O : ordered_values V) (k : Record_ -> Value) (sorted : bool) (rs : list Record_) :
  let ks := map (fun r => (r, k r)) rs in
  Forall (fun r => V (k r)) rs -> (sorted = true -> by_key ks) ->
  exists s, (if sorted then Ok ks else stable_sort key_less ks) = Ok s /\ s ≡ₚ ks /\ by_key s.
Proof.
  intros ks Vk Hs. destruct sorted; [exists ks; auto|].
  assert (Forall (fun x : Record_ * Value => V x.2) ks) as Vks by (by apply Forall_map).
  assert (weak_order (fun x : Record_ * Value => V x.2) key_less (fun a b => order_of a.2 b.2 <? 0)) as W.
  { apply (key_weak_order V snd); [done|done|]. intros a b Va Vb. unfold key_less. by rewrite (ov_ok _ O). }
  destruct (stable_sort_spec _ _ _ W ks Vks) as (s & Hsort & P & A & _). exists s. split_and!; [done..|].
  assert (Forall (fun x : Record_ * Value => V x.2) s) as Vs by (by eapply Forall_perm). clear -A Vs O.
  unfold by_key. induction A as [|x s A IH Hx]; [constructor|]. apply Forall_cons in Vs as [Vx Vs].
  constructor; [auto|]. rewrite Forall_forall in Hx, Vs |- *. intros y Hy. specialize (Hx y Hy). to_prop.
  rewrite (ov_sym _ O x.2 y.2) in Hx by auto. lia.
Qed.

Lemma merge_join_run (V : Value -> Prop) null_left null_right lk rk residual type lsorted rsorted left right
    (ls rs : list Record_) (kl kr : Record_ -> Value) (q : Record_ -> bool) :
  ordered_values V -> run left = (ls, Ok tt) -> run right = (rs, Ok tt) ->
  (forall l, l ∈ ls -> lookup_ref l lk = Ok (kl l) /\ V (kl l)) ->
  (forall r, r ∈ rs -> lookup_ref r rk = Ok (kr r) /\ V (kr r)) ->
  (lsorted = true -> by_key (map (fun l => (l, kl l)) ls)) -> (rsorted = true -> by_key (map (fun r => (r, kr r)) rs)) ->
  (type = Inner \/ forall m, q m = true) ->
  (forall l r, l ∈ ls -> r ∈ rs -> order_of (kl l) (kr r) = 0 -> passes residual (merge_rows l r) = Ok (q (merge_rows l r))) ->
  exists out, run (execute_merge_join null_left null_right lk rk residual type lsorted rsorted left right) = (out, Ok tt) /\
    out ≡ₚ join_spec type (fun l r => (order_of (kl l) (kr r) =? 0) && q (merge_rows l r)) null_left null_right ls rs.
Proof.
  intros O Hl Hr Hkl Hkr Sl Sr Ht Hp. unfold execute_merge_join.
  destruct (sorted_input V O kl lsorted ls) as (sl & El & Pl & Bl); [by apply Forall_forall; intros l H; apply Hkl|done|].
  destruct (sorted_input V O kr rsorted rs) as (sr & Er & Pr & Br); [by apply Forall_forall; intros r H; apply Hkr|done|].
  erewrite run_bind by (apply collect_keyed_run; [exact Hl|intros l H; by apply Hkl]).
  erewrite run_bind by (apply collect_keyed_run; [exact Hr|intros r H; by apply Hkr]).
  erewrite run_bind_glift by exact El. erewrite run_bind_glift by exact Er. cbn [fst snd app].
  assert (forall x, x ∈ sl -> exists l, x = (l, kl l) /\ l ∈ ls) as Il.
  { intros x Hx. rewrite Pl in Hx. apply list_elem_of_fmap in Hx as (l & -> & H). eauto. }
  assert (forall x, x ∈ sr -> exists r, x = (r, kr r) /\ r ∈ rs) as Ir.
  { intros x Hx. rewrite Pr in Hx. apply list_elem_of_fmap in Hx as (r & -> & H). eauto. }
  destruct (merge_loop_run V O type null_left null_right residual q Ht (S (length sl + length sr)) sl sr) as (out & R & P);
    [lia|done|done| | | |].
  - apply Forall_forall. intros x (l & -> & H)%Il. by apply Hkl.
  - apply Forall_forall. intros x (r & -> & H)%Ir. by apply Hkr.
  - intros x y (l & -> & H1)%Il (r & -> & H2)%Ir. by apply Hp.
  - exists out. split; [by rewrite R|]. rewrite P, <- keyed_spec_join. by apply keyed_spec_perm.
Qed.

End JoinProofs.

(** * Properties *)

(** C26: the hash join and the nested-loop join of the same two children give the
    same records in the same order, for inner, left, right and full joins: for
    each left row its matches in the order of the right rows, or the row padded
    with NULLs, then the right rows that nothing matched.  The key columns exist in
    all rows, no key is NaN or -0.0, and on each pair of rows the condition of the
    nested loop and the residual condition evaluate and the former holds exactly
    when the keys are equal as hash keys and the latter holds; for a condition that
    compares the columns this excludes NULL keys and keys of different types
    ([joins_match_null_keys]). *)
Theorem hash_join_is_nested_loop {Q : Type} (session : option Session)
    (subq : option (Q -> Record_ -> bool -> res (list Value))) (left right : PlanNode Q) (lk rk : ColumnRef)
    (residual : option (BoolExpr Q)) (on : BoolExpr Q) (type : JoinType) (ls rs : list Record_)
    (kl kr : Record_ -> Value) (q : Record_ -> bool) :
  run (execute_plan session subq left) = (ls, Ok tt) -> run (execute_plan session subq right) = (rs, Ok tt) ->
  (forall l, l ∈ ls -> lookup_ref l lk = Ok (kl l) /\ key_ok (kl l)) ->
  (forall r, r ∈ rs -> lookup_ref r rk = Ok (kr r) /\ key_ok (kr r)) ->
  (forall l r, l ∈ ls -> r ∈ rs -> ValueEq (kl l) (kr r) = true ->
     passes residual (merge_rows l r) = Ok (q (merge_rows l r))) ->
  let p := fun l r => ValueEq (kl l) (kr r) && q (merge_rows l r) in
  (forall l r, l ∈ ls -> r ∈ rs -> holds on (merge_rows l r) = Ok (p l r)) ->
  let spec := join_spec type p (make_null_record (derive_bindings left)) (make_null_record (derive_bindings right)) ls rs in
  run (execute_plan session subq (HashJoinPlan left right lk rk residual type)) = (spec, Ok tt) /\
  run (execute_plan session subq (NestedLoopJoinPlan left right on type)) = (spec, Ok tt).
Proof.
  intros Hl Hr Hkl Hkr Hq p Hp spec. split; cbn [execute_plan].
  - by apply (hash_join_run _ _ lk rk residual type _ _ ls rs kl kr q).
  - by apply (nested_loop_run _ _ on type _ _ ls rs p).
Qed.

(** The merge join gives the same records as that definition up to their
    order, whatever order its children deliver (it sorts them unless told they
    are sorted), for the join condition "the keys compare equal and the residual
    holds": for inner joins with any residual condition, and for outer joins
    without one.  Its loop ends: each round consumes a row. *)
Theorem merge_join_correct {Q : Type} (session : option Session)
    (subq : option (Q -> Record_ -> bool -> res (list Value))) (left right : PlanNode Q) (lk rk : ColumnRef)
    (residual : option (BoolExpr Q)) (type : JoinType) (lsorted rsorted : bool) (V : Value -> Prop)
    (ls rs : list Record_) (kl kr : Record_ -> Value) (q : Record_ -> bool) :
  ordered_values V ->
  run (execute_plan session subq left) = (ls, Ok tt) -> run (execute_plan session subq right) = (rs, Ok tt) ->
  (forall l, l ∈ ls -> lookup_ref l lk = Ok (kl l) /\ V (kl l)) ->
  (forall r, r ∈ rs -> lookup_ref r rk = Ok (kr r) /\ V (kr r)) ->
  (lsorted = true -> by_key (map (fun l => (l, kl l)) ls)) -> (rsorted = true -> by_key (map (fun r => (r, kr r)) rs)) ->
  (type = Inner \/ forall m, q m = true) ->
  (forall l r, l ∈ ls -> r ∈ rs -> order_of (kl l) (kr r) = 0 ->
     passes residual (merge_rows l r) = Ok (q (merge_rows l r))) ->
  exists out,
    run (execute_plan session subq (MergeJoinPlan left right lk rk residual type lsorted rsorted)) = (out, Ok tt) /\
    out ≡ₚ join_spec type (fun l r => (order_of (kl l) (kr r) =? 0) && q (merge_rows l r))
             (make_null_record (derive_bindings left)) (make_null_record (derive_bindings right)) ls rs.
Proof. intros. cbn [execute_plan]. by apply (merge_join_run V). Qed.

(** Two tables of integers, joined on their first columns. *)
Definition ex_left : PlanNode unit :=
  SeqScanPlan (list_view (str "a") [int_column "x" true] [int_row [3]; int_row [1]; int_row [2]]) [].
Definition ex_right : PlanNode unit :=
  SeqScanPlan (list_view (str "b") [int_column "y" true; int_column "z" false] [int_row [2; 20]; int_row [3; 30]; int_row [5; 50]]) [].
Definition ex_on : BoolExpr unit := BComparison (Some (mkCmp (EColumn (col "a" "x")) Eq (EColumn (col "b" "y")))).
Definition first_value (r : Record_) : Value := default VNull (head (rec_values r)).

Lemma hash_join_is_nested_loop_witness :
  run (execute_plan None None (HashJoinPlan ex_left ex_right (col "a" "x") (col "b" "y") None Full)) =
  run (execute_plan None None (NestedLoopJoinPlan ex_left ex_right ex_on Full)).
Proof.
  destruct (hash_join_is_nested_loop None None ex_left ex_right (col "a" "x") (col "b" "y") None ex_on Full
              (run (execute_plan None None ex_left)).1 (run (execute_plan None None ex_right)).1
              first_value first_value (fun _ => true)) as [-> ->]; try reflexivity.
  - intros l. apply (proj1 (Forall_forall (fun l => lookup_ref l (col "a" "x") = Ok (first_value l) /\ key_ok (first_value l)) _)).
    repeat (apply Forall_cons; split; [split; [vm_compute; reflexivity|exact I]|]). apply Forall_nil_2.
  - intros r. apply (proj1 (Forall_forall (fun r => lookup_ref r (col "b" "y") = Ok (first_value r) /\ key_ok (first_value r)) _)).
    repeat (apply Forall_cons; split; [split; [vm_compute; reflexivity|exact I]|]). apply Forall_nil_2.
  - intros l r Hl Hr. revert r Hr.
    apply (proj1 (Forall_forall (fun l => forall r, r ∈ (run (execute_plan None None ex_right)).1 ->
      holds ex_on (merge_rows l r) = Ok (ValueEq (first_value l) (first_value r) && true)) (run (execute_plan None None ex_left)).1)); [|exact Hl].
    repeat (apply Forall_cons; split;
      [apply Forall_forall; repeat (apply Forall_cons; split; [vm_compute; reflexivity|]); apply Forall_nil_2|]).
    apply Forall_nil_2.
Defined.

Lemma merge_join_correct_witness :
  exists out, run (execute_plan None None (MergeJoinPlan ex_left ex_right (col "a" "x") (col "b" "y") None Left false false)) = (out, Ok tt) /\
    out ≡ₚ join_spec Left (fun l r => (order_of (first_value l) (first_value r) =? 0) && true)
             (make_null_record (derive_bindings ex_left)) (make_null_record (derive_bindings ex_right))
             (run (execute_plan None None ex_left)).1 (run (execute_plan None None ex_right)).1.
Proof.
  refine (merge_join_correct None None ex_left ex_right (col "a" "x") (col "b" "y") None Left false false num_value
            _ _ first_value first_value (fun _ => true) num_ordered _ _ _ _ _ _ _ _); try reflexivity; try done.
  - intros l. apply (proj1 (Forall_forall (fun l => lookup_ref l (col "a" "x") = Ok (first_value l) /\ num_value (first_value l)) _)).
    repeat (apply Forall_cons; split; [split; [vm_compute; reflexivity|apply (bool_decide_unpack _); exact I]|]). apply Forall_nil_2.
  - intros r. apply (proj1 (Forall_forall (fun r => lookup_ref r (col "b" "y") = Ok (first_value r) /\ num_value (first_value r)) _)).
    repeat (apply Forall_cons; split; [split; [vm_compute; reflexivity|apply (bool_decide_unpack _); exact I]|]). apply Forall_nil_2.
  - by right.
Defined.

(** * What the joins do outside these conditions *)

Definition ex_nulls (name : string) : PlanNode unit :=
  SeqScanPlan (list_view (str name) [int_column "x" false] [mkRow [VNull]]) [].
Definition ex_null_on : BoolExpr unit := BComparison (Some (mkCmp (EColumn (col "a" "x")) Eq (EColumn (col "b" "x")))).

(** NULL keys match each other in a hash join and in a merge join, though not in
    the nested-loop join on the same equality. *)
Lemma joins_match_null_keys :
  length (run (execute_plan None None (NestedLoopJoinPlan (ex_nulls "a") (ex_nulls "b") ex_null_on Inner))).1 = 0%nat /\
  length (run (execute_plan None None (HashJoinPlan (ex_nulls "a") (ex_nulls "b") (col "a" "x") (col "b" "x") None Inner))).1 = 1%nat /\
  length (run (execute_plan None None (MergeJoinPlan (ex_nulls "a") (ex_nulls "b") (col "a" "x") (col "b" "x") None Inner false false))).1 = 1%nat.
Proof. vm_compute. done. Qed.

Definition ex_never : BoolExpr unit := BComparison (Some (mkCmp (EColumn (col "b" "z")) Lt (ELiteral (VInt 0)))).

(** A left merge join loses a left row whose key is matched when the residual
    condition rejects all its partners; the hash join keeps it. *)
Lemma outer_merge_join_loses_row :
  length (run (execute_plan None None (HashJoinPlan ex_left ex_right (col "a" "x") (col "b" "y") (Some ex_never) Left))).1 = 3%nat /\
  length (run (execute_plan None None (MergeJoinPlan ex_left ex_right (col "a" "x") (col "b" "y") (Some ex_never) Left false false))).1 = 1%nat.
Proof. vm_compute. done. Qed.

(** The right side of a left join is an index scan: the padding has no columns. *)
Lemma outer_join_index_side :
  map (fun r => length (rec_values r)) (run (execute_plan None None
    (HashJoinPlan ex_left (IndexScanPlan (list_view (str "b") [int_column "y" true; int_column "z" false] []) []
       (IdxPoint (str "y") (VInt 1))) (col "a" "x") (col "b" "y") None Left))).1 = [1; 1; 1]%nat.
Proof. vm_compute. done. Qed.
