(* ===== verification/Scans.v ===== *)
(** The scans of [Query]: a transaction reads the visible rows of a table with
    its own writes applied, and an index scan reads the rows a full scan and the
    index condition would give. *)
From Stdlib Require Import ZArith Lia.
From stdpp Require Import base numbers list gmap strings.
From S2P Require Import Prelude Values Codec Doubles Eval Session Query.
Local Open Scope Z_scope.

(** * Tables in good order *)

(** At a snapshot the table shows [rows]: to the streaming scan, and to the
    lookup by primary key. *)
Record shows (t : TableView) (ts : Z) (rows : list Row) : Prop := {
  sh_stream : tv_stream t ts = (rows, Ok tt);
  sh_nonempty : Forall (fun r => values r <> []) rows;
  sh_keys : Forall (fun r => key_ok (row_key t r)) rows;
  sh_distinct : NoDup (map (row_key t) rows);
  sh_lookup k : key_ok k -> exists o, tv_lookup t k ts = Ok o /\
    match o with Some r => r ∈ rows /\ row_key t r = k | None => k ∉ map (row_key t) rows end
}.

(** * Rows under a write buffer *)

Section Overlay.
Variables (t : TableView) (b : TableTxnBuffer).

(** A row of the table under the buffer, with its key. *)
Definition overlaid (r : Row) : option (Value * Row) :=
  let pk := row_key t r in
  if vmem pk (deletes b) then None else Some (pk, default r (vfind pk (upserts b))).

(** The table under the buffer: its rows that are not deleted, in their
    buffered form, then the buffered rows with keys the table does not have. *)
Definition overlay (rows : list Row) : list (Value * Row) :=
  omap overlaid rows ++ List.filter (fun kr => negb (bool_decide (kr.1 ∈ map (row_key t) rows))) (upserts b).

Context (B : buffer_ok b).

Lemma upsert_deleted k r : (k, r) ∈ upserts b -> vmem k (deletes b) = false.
Proof.
  intros H. assert (k ∈ (upserts b).*1) as Hk by exact (list_elem_of_fmap_2 fst _ _ H).
  pose proof (bo_upsert_keys _ B) as Ku. rewrite Forall_forall in Ku.
  destruct (vmem k (deletes b)) eqn:E; [|done].
  apply vmem_elem in E; [|apply B|by apply Ku]. by apply (bo_disjoint _ B) in E.
Qed.

Lemma overlaid_spec r kr :
  key_ok (row_key t r) ->
  (overlaid r = Some kr <->
   kr.1 = row_key t r /\ row_key t r ∉ deletes b /\
   ((kr ∈ upserts b) \/ (row_key t r ∉ (upserts b).*1 /\ kr.2 = r))).
Proof.
  intros Hk. unfold overlaid. destruct (vmem (row_key t r) (deletes b)) eqn:E.
  - apply vmem_elem in E; [|apply B|done]. split; [done|tauto].
  - assert (row_key t r ∉ deletes b) as Nd by (intros H; apply vmem_elem in H; [congruence|apply B|done]).
    destruct (vfind (row_key t r) (upserts b)) as [u|] eqn:F; cbn.
    + apply vfind_elem in F; [|apply B|done]. destruct kr as [k r']. cbn. split.
      * intros [= <- <-]. tauto.
      * intros (-> & _ & [H|[H _]]).
        -- assert (Some u = Some r') as [= ->]; [|done].
           transitivity (vfind (row_key t r) (upserts b)); [symmetry|]; (apply elem_vfind; [apply B|apply B|done]).
        -- destruct H. exact (list_elem_of_fmap_2 fst _ _ F).
    + apply vfind_None in F; [|apply B|done]. destruct kr as [k r']. cbn. split.
      * intros [= <- <-]. tauto.
      * intros (-> & _ & [H|[_ ->]]); [|done]. destruct F. exact (list_elem_of_fmap_2 fst _ _ H).
Qed.

(** What a transaction sees: its own writes, and the table's rows with keys it
    has neither written nor deleted. *)
Lemma elem_overlay rows k r :
  Forall (fun r => key_ok (row_key t r)) rows ->
  ((k, r) ∈ overlay rows <->
   (k, r) ∈ upserts b \/ (r ∈ rows /\ k = row_key t r /\ k ∉ deletes b /\ k ∉ (upserts b).*1)).
Proof.
  intros Hk. rewrite Forall_forall in Hk. unfold overlay. rewrite elem_of_app, list_elem_of_omap.
  rewrite (list_elem_of_In (List.filter _ _)), filter_In, <- list_elem_of_In, negb_true_iff, bool_decide_eq_false. cbn [fst]. split.
  - intros [(x & Hx & E)|[H _]]; [|by left]. apply overlaid_spec in E as (E & Nd & [H|[Nu <-]]); [..|by apply Hk]; [by left|].
    cbn in *. subst k. by right.
  - intros [H|(H & -> & Nd & Nu)].
    + destruct (decide (k ∈ map (row_key t) rows)) as [I|N]; [|by right]. left.
      apply list_elem_of_fmap in I as (x & -> & Hx). exists x. split; [done|].
      apply overlaid_spec; [by apply Hk|]. split; [done|]. split; [|by left].
      assert (row_key t x ∈ (upserts b).*1) by exact (list_elem_of_fmap_2 fst _ _ H). by apply (bo_disjoint _ B).
    + left. exists r. split; [done|]. apply overlaid_spec; [by apply Hk|]. by split_and!; [|..|right].
Qed.

Lemma overlay_keys rows :
  NoDup (map (row_key t) rows) -> Forall (fun r => key_ok (row_key t r)) rows -> NoDup (overlay rows).*1.
Proof.
  intros N Hk. unfold overlay. rewrite fmap_app. apply NoDup_app. split_and!.
  - clear -N. induction rows as [|r rows IH]; [constructor|]. cbn in N. apply NoDup_cons in N as [N1 N].
    cbn [omap list_omap]. unfold overlaid at 1. destruct (vmem _ _); [by apply IH|]. cbn [fmap list_fmap fst].
    constructor; [|by apply IH]. intros (x & E & Hx)%list_elem_of_fmap. destruct N1. rewrite E.
    apply list_elem_of_omap in Hx as (y & Hy & Ey). unfold overlaid in Ey. destruct (vmem _ _); [done|].
    injection Ey as <-. cbn. by apply list_elem_of_fmap_2.
  - intros k (x & -> & Hx)%list_elem_of_fmap (y & E & Hy)%list_elem_of_fmap.
    apply list_elem_of_omap in Hx as (r & Hr & Ex). unfold overlaid in Ex. destruct (vmem _ _); [done|]. injection Ex as <-.
    apply list_elem_of_In, filter_In in Hy as [_ Hy]. apply negb_true_iff, bool_decide_eq_false in Hy. apply Hy.
    cbn in E. rewrite <- E. by apply list_elem_of_fmap_2.
  - pose proof (bo_upserts _ B) as Nu. clear -Nu. induction (upserts b) as [|kr u IH]; [constructor|].
    cbn in Nu |- *. apply NoDup_cons in Nu as [N1 N]. destruct (negb _); [|by apply IH]. cbn. constructor; [|by apply IH].
    intros (x & E & Hx)%list_elem_of_fmap. apply N1. rewrite E. apply list_elem_of_In, filter_In in Hx as [Hx _].
    by apply list_elem_of_fmap_2, list_elem_of_In.
Qed.

End Overlay.

(** * The sequential scan *)

Section Scans.
Variables (session : option Session) (t : TableView) (binding : bytes).
Let mk (r : Row) : Record_ := make_record_from_row t r binding.

Lemma run_note_read r : run (note_read session t r) = ([], Ok tt).
Proof. unfold note_read. by destruct (_ && _). Qed.

Lemma run_note_version : run (note_version session t) = ([], Ok tt).
Proof. unfold note_version. by destruct (track_reads session). Qed.

(** Which keys count as yielded after a row. *)
Definition scan_next (b : TableTxnBuffer) (emitted : vset) (r : Row) : vset :=
  let pk := row_key t r in
  if vmem pk (deletes b) then emitted else
  match vfind pk (upserts b) with Some _ => vadd pk emitted | None => emitted end.

Lemma run_plain r (e : vset) :
  run (_ ← note_read session t r; _ ← yield (mk r); mret e) = ([mk r], Ok e).
Proof. erewrite run_bind by apply run_note_read. erewrite run_bind by apply run_yield. done. Qed.

Lemma scan_row_run b emitted r :
  values r <> [] ->
  run (scan_row session t binding (Some b) emitted r) =
  (map mk (option_list (snd <$> overlaid t b r)), Ok (scan_next b emitted r)).
Proof.
  intros N. unfold scan_row, overlaid, scan_next. rewrite bool_decide_eq_false_2 by done.
  destruct (vmem (row_key t r) (deletes b)); [done|].
  destruct (vfind (row_key t r) (upserts b)) as [u|]; [|apply run_plain].
  erewrite run_bind by apply run_note_read. erewrite run_bind by apply run_yield. done.
Qed.

Lemma scan_next_elem b rows emitted k :
  buffer_ok b -> Forall (fun r => key_ok (row_key t r)) rows -> Forall key_ok emitted ->
  Forall key_ok (foldl (scan_next b) emitted rows) /\
  (k ∈ (upserts b).*1 -> (k ∈ foldl (scan_next b) emitted rows <-> k ∈ emitted \/ k ∈ map (row_key t) rows)).
Proof.
  intros B. revert emitted. induction rows as [|r rows IH]; intros emitted Hk He; cbn [foldl map].
  { split; [done|]. rewrite elem_of_nil. tauto. }
  apply Forall_cons in Hk as [Kr Hk].
  assert (Forall key_ok (scan_next b emitted r)) as He'.
  { unfold scan_next. repeat case_match; auto using vadd_key_ok. }
  destruct (IH _ Hk He') as [I1 I2]. split; [done|]. intros Hu. rewrite (I2 Hu), elem_of_cons.
  unfold scan_next. destruct (vmem (row_key t r) (deletes b)) eqn:D.
  - assert (k <> row_key t r); [|tauto]. intros ->. apply vmem_elem in D; [|apply B|done].
    by apply (bo_disjoint _ B) in Hu.
  - destruct (vfind (row_key t r) (upserts b)) as [u|] eqn:F.
    + rewrite vadd_elem by done. tauto.
    + assert (k <> row_key t r); [|tauto]. intros ->. by apply vfind_None in F; [..|apply B|done].
Qed.

(** The loop over the buffered rows yields those to keep. *)
Lemma run_buffered (f : unit -> Value * Row -> Gen unit) (keep : Value * Row -> bool) (u : vmap Row) :
  (forall kr, kr ∈ u -> run (f tt kr) = (if keep kr then [mk kr.2] else [], Ok tt)) ->
  run (gfor u f tt) = (map mk (List.filter keep u).*2, Ok tt).
Proof.
  intros H. rewrite (run_gfor_simple _ _ _ H). f_equal. clear H.
  induction u as [|kr u IH]; [done|]. cbn. rewrite IH. by destruct (keep kr).
Qed.

Lemma concat_omap (f : Row -> option (Value * Row)) rows :
  concat (map (fun r => map mk (option_list (snd <$> f r))) rows) = map mk (omap f rows).*2.
Proof. induction rows as [|r rows IH]; [done|]. cbn. rewrite IH. by destruct (f r). Qed.

Lemma seq_scan_buffered b rows :
  buffer_ok b -> shows t (scan_ts session) rows ->
  run (emitted ← gfor rows (scan_row session t binding (Some b)) [];
       _ ← glift (Ok tt);
       gfor (upserts b) (fun _ kr => if vmem kr.1 emitted then mret tt else yield (mk kr.2)) tt) =
  (map mk (overlay t b rows).*2, Ok tt).
Proof.
  intros B [_ Ne Ke Di _]. rewrite Forall_forall in Ne. erewrite run_bind; last first.
  { apply (run_gfor _ (fun _ r => map mk (option_list (snd <$> overlaid t b r))) (scan_next b) (fun _ => True)); [done|].
    intros e r _ Hr. split; [|done]. apply scan_row_run. by apply Ne. }
  rewrite loop_out_const, concat_omap. erewrite run_bind_glift by reflexivity.
  set (emitted := foldl (scan_next b) [] rows).
  assert (forall kr, kr ∈ upserts b -> vmem kr.1 emitted = bool_decide (kr.1 ∈ map (row_key t) rows)) as E.
  { intros kr Hkr. assert (kr.1 ∈ (upserts b).*1) as Hu by exact (list_elem_of_fmap_2 fst _ _ Hkr).
    destruct (scan_next_elem b rows [] kr.1 B Ke ltac:(constructor)) as [K M]. fold emitted in K, M.
    pose proof (bo_upsert_keys _ B) as Ku. rewrite Forall_forall in Ku.
    apply eq_true_iff_eq. rewrite bool_decide_eq_true, vmem_elem, (M Hu), elem_of_nil by auto. tauto. }
  unfold overlay. rewrite fmap_app, map_app.
  rewrite (run_buffered _ (fun kr => negb (bool_decide (kr.1 ∈ map (row_key t) rows)))); [done|].
  intros kr Hkr. rewrite (E kr Hkr). by destruct (bool_decide _).
Qed.

Lemma overlay_empty rows : (overlay t empty_buffer rows).*2 = rows.
Proof.
  unfold overlay. cbn [upserts empty_buffer List.filter]. rewrite app_nil_r.
  induction rows as [|r rows IH]; [done|]. cbn. by rewrite IH.
Qed.

Lemma seq_scan_plain rows :
  run (_ ← gfor rows (scan_row session t binding None) []; _ ← glift (Ok tt); mret tt) = (map mk rows, Ok tt).
Proof.
  erewrite run_bind; last first.
  { apply (run_gfor _ (fun _ r => [mk r]) (fun e _ => e) (fun _ => True)); [done|].
    intros e r _ _. split; [apply run_plain|done]. }
  rewrite loop_out_const. erewrite run_bind_glift by reflexivity. cbn. rewrite app_nil_r. f_equal.
  induction rows as [|r rows IH]; cbn; congruence.
Qed.

(** * The index scan *)

Section Index.
Variables (a : IndexAccess) (b : TableTxnBuffer) (rows : list Row).
Context (B : buffer_ok b) (Sh : shows t (scan_ts session) rows).

(** The row of a candidate key, if it is visible and satisfies the condition. *)
Definition candidate (pk : Value) : option (Value * Row) :=
  let check r := if row_matches t a r then Some (pk, r) else None in
  if vmem pk (deletes b) then None else
  match vfind pk (upserts b) with
  | Some br => check br
  | None => match tv_lookup t pk (scan_ts session) with Ok (Some r) => check r | _ => None end
  end.

Lemma key_row r r' : r ∈ rows -> r' ∈ rows -> row_key t r = row_key t r' -> r = r'.
Proof.
  destruct Sh as [_ _ _ Di _]. clear -Di. intros H1 H2 E.
  apply list_elem_of_lookup in H1 as [i Hi]. apply list_elem_of_lookup in H2 as [j Hj].
  assert (i = j) as ->; [|congruence].
  eapply (NoDup_lookup _ i j (row_key t r) Di); rewrite list_lookup_fmap; [by rewrite Hi|by rewrite Hj, E].
Qed.

Lemma candidate_spec pk kr :
  key_ok pk -> (candidate pk = Some kr <-> kr.1 = pk /\ kr ∈ overlay t b rows /\ row_matches t a kr.2 = true).
Proof.
  intros Hk. destruct kr as [k r]. cbn [fst snd]. pose proof (sh_keys _ _ _ Sh) as Ke.
  destruct (sh_lookup _ _ _ Sh pk Hk) as (o & Lo & Ho). unfold candidate. rewrite Lo.
  destruct (vmem pk (deletes b)) eqn:D.
  { apply vmem_elem in D; [|apply B|done]. split; [done|]. intros (-> & I & _).
    apply elem_overlay in I as [I|(_ & _ & N & _)]; [|done|done|done].
    apply (bo_disjoint _ B) in D; [done|]. exact (list_elem_of_fmap_2 fst _ _ I). }
  assert (pk ∉ deletes b) as Nd by (intros H; apply vmem_elem in H; [congruence|apply B|done]).
  destruct (vfind pk (upserts b)) as [u|] eqn:F.
  - apply vfind_elem in F; [|apply B|done]. split.
    + destruct (row_matches t a u) eqn:M; [|done]. intros [= <- <-]. split_and!; [done| |done].
      apply elem_overlay; [done..|by left].
    + intros (-> & I & M). apply elem_overlay in I as [I|(_ & _ & _ & N)]; [|destruct N; exact (list_elem_of_fmap_2 fst _ _ F)|done|done].
      assert (Some u = Some r) as [= ->]; [|by rewrite M].
      transitivity (vfind pk (upserts b)); [symmetry|]; (apply elem_vfind; [apply B|apply B|done]).
  - apply vfind_None in F; [|apply B|done]. split.
    + destruct o as [r'|]; [|done]. destruct (row_matches t a r') eqn:M; [|done]. intros [= <- <-].
      destruct Ho as [Hr Hkey]. split_and!; [done| |done]. apply elem_overlay; [done..|]. right. by rewrite Hkey.
    + intros (-> & I & M). apply elem_overlay in I as [I|(Hr & E & _ & _)]; [|..|done|done].
      { destruct F. exact (list_elem_of_fmap_2 fst _ _ I). }
      destruct o as [r'|]; [|destruct Ho; rewrite E; by apply list_elem_of_fmap_2].
      destruct Ho as [Hr' Hkey]. assert (r' = r) as -> by (apply key_row; congruence). by rewrite M.
Qed.

(** Which keys count as done after a candidate. *)
Definition index_next (emitted : vset) (pk : Value) : vset :=
  if vmem pk (deletes b) then vadd pk emitted else
  match vfind pk (upserts b) with
  | Some _ => vadd pk emitted
  | None => match tv_lookup t pk (scan_ts session) with
            | Ok (Some r) => if row_matches t a r then vadd pk emitted else emitted
            | _ => emitted
            end
  end.

Lemma index_row_run emitted pk :
  key_ok pk -> run (index_row session t a binding (Some b) emitted pk) =
    (map mk (option_list (snd <$> candidate pk)), Ok (index_next emitted pk)).
Proof.
  intros Hk. destruct (sh_lookup _ _ _ Sh pk Hk) as (o & Lo & _). unfold index_row, candidate, index_next. rewrite Lo.
  destruct (vmem pk (deletes b)); [done|]. destruct (vfind pk (upserts b)) as [u|].
  - destruct (row_matches t a u); [|done]. erewrite run_bind with (ys := [mk u]); [done|].
    by erewrite run_bind by apply run_note_read.
  - erewrite run_bind_glift by reflexivity. destruct o as [r|]; [|done]. destruct (row_matches t a r); [|done].
    apply run_plain.
Qed.

Lemma index_next_elem pks emitted k :
  Forall key_ok pks -> Forall key_ok emitted ->
  Forall key_ok (foldl index_next emitted pks) /\
  (k ∈ (upserts b).*1 -> (k ∈ foldl index_next emitted pks <-> k ∈ emitted \/ k ∈ pks)).
Proof.
  revert emitted. induction pks as [|pk pks IH]; intros emitted Hk He; cbn [foldl].
  { split; [done|]. rewrite elem_of_nil. tauto. }
  apply Forall_cons in Hk as [Kp Hk].
  assert (Forall key_ok (index_next emitted pk)) as He'.
  { unfold index_next. repeat case_match; auto using vadd_key_ok. }
  destruct (IH _ Hk He') as [I1 I2]. split; [done|]. intros Hu. rewrite (I2 Hu), elem_of_cons.
  assert (k ∈ index_next emitted pk <-> k = pk \/ k ∈ emitted); [|tauto].
  assert (forall e : vset, e = emitted \/ e = vadd pk emitted -> k <> pk -> (k ∈ e <-> k ∈ emitted)) as Skip.
  { intros e [-> | ->] N; [done|]. rewrite vadd_elem by done. tauto. }
  destruct (decide (k = pk)) as [->|N].
  - unfold index_next. destruct (vmem pk (deletes b)); [by rewrite vadd_elem|].
    destruct (vfind pk (upserts b)) eqn:F; [by rewrite vadd_elem|]. by apply vfind_None in F; [..|apply B|done].
  - rewrite (Skip (index_next emitted pk)); [tauto| |done]. unfold index_next. repeat case_match; auto.
Qed.

(** The index scan visits every key whose row could satisfy the condition. *)
Variable cands : list Value.
Definition candidates_complete : Prop :=
  NoDup cands /\ Forall key_ok cands /\
  forall r, r ∈ rows -> row_matches t a r = true -> row_key t r ∈ cands.

Definition index_pairs : list (Value * Row) :=
  omap candidate cands ++
  List.filter (fun kr => negb (bool_decide (kr.1 ∈ cands)) && row_matches t a kr.2) (upserts b).

Lemma index_pairs_spec :
  candidates_complete -> index_pairs ≡ₚ List.filter (fun kr => row_matches t a kr.2) (overlay t b rows).
Proof.
  intros (Nc & Kc & Comp). rewrite Forall_forall in Kc. pose proof (sh_keys _ _ _ Sh) as Ke. unfold index_pairs.
  assert (forall kr, kr ∈ omap candidate cands <->
            kr.1 ∈ cands /\ kr ∈ overlay t b rows /\ row_matches t a kr.2 = true) as E1.
  { intros kr. rewrite list_elem_of_omap. split.
    - intros (pk & Hpk & E). apply candidate_spec in E as (<- & ?); auto.
    - intros (Hk & I & M). exists kr.1. split; [done|]. apply candidate_spec; auto. }
  apply NoDup_Permutation.
  - apply NoDup_app. split_and!.
    + apply (NoDup_fmap_1 fst). clear E1 Comp. induction cands as [|pk pks IH]; [constructor|].
      apply NoDup_cons in Nc as [N1 Nc]. cbn [omap list_omap]. destruct (candidate pk) as [kr|] eqn:E.
      * cbn. apply candidate_spec in E as (-> & _); [|apply Kc; by left]. constructor.
        -- intros (x & -> & Hx)%list_elem_of_fmap. apply list_elem_of_omap in Hx as (pk' & Hpk' & E').
           apply candidate_spec in E' as (E' & _); [|apply Kc; by right]. congruence.
        -- apply IH; [done|]. intros x Hx. apply Kc. by right.
      * apply IH; [done|]. intros x Hx. apply Kc. by right.
    + intros kr H1 H2. apply E1 in H1 as [H1 _]. apply list_elem_of_In, filter_In in H2 as [_ H2].
      apply andb_prop in H2 as [H2 _]. apply negb_true_iff, bool_decide_eq_false in H2. done.
    + apply NoDup_ListNoDup, List.NoDup_filter, NoDup_ListNoDup, (NoDup_fmap_1 fst), B.
  - apply NoDup_ListNoDup, List.NoDup_filter, NoDup_ListNoDup, (NoDup_fmap_1 fst). apply overlay_keys; [done|apply Sh|done].
  - intros [k r]. rewrite elem_of_app, E1, !(list_elem_of_In (List.filter _ _)), !filter_In, <- !list_elem_of_In.
    rewrite andb_true_iff, negb_true_iff, bool_decide_eq_false. cbn [fst snd].
    rewrite elem_overlay by done. destruct (decide (k ∈ cands)) as [I|N].
    + naive_solver.
    + split; [naive_solver|]. intros [[H|(Hr & -> & _)] M]; [by right|]. destruct N. by apply Comp.
Qed.

Lemma index_scan_buffered :
  candidates_complete ->
  run (emitted ← gfor cands (index_row session t a binding (Some b)) [];
       gfor (upserts b) (fun _ kr => if vmem kr.1 emitted then mret tt
                                     else if row_matches t a kr.2 then yield (mk kr.2) else mret tt) tt) =
  (map mk index_pairs.*2, Ok tt).
Proof.
  intros (Nc & Kc & Comp). pose proof Kc as Kc'. rewrite Forall_forall in Kc'. erewrite run_bind; last first.
  { apply (run_gfor _ (fun _ pk => map mk (option_list (snd <$> candidate pk))) index_next (fun _ => True)); [done|].
    intros e pk _ Hpk. split; [|done]. apply index_row_run. by apply Kc'. }
  rewrite loop_out_const. set (emitted := foldl index_next [] cands).
  rewrite (run_buffered _ (fun kr => negb (bool_decide (kr.1 ∈ cands)) && row_matches t a kr.2)).
  - unfold index_pairs. rewrite fmap_app, map_app. cbn [fst snd]. f_equal. f_equal.
    clear. induction cands as [|pk pks IH]; [done|]. cbn. rewrite IH. by destruct (candidate pk).
  - intros kr Hkr. assert (kr.1 ∈ (upserts b).*1) as Hu by exact (list_elem_of_fmap_2 fst _ _ Hkr).
    destruct (index_next_elem cands [] kr.1 Kc ltac:(constructor)) as [K M]. fold emitted in K, M.
    pose proof (bo_upsert_keys _ B) as Ku. rewrite Forall_forall in Ku.
    assert (vmem kr.1 emitted = bool_decide (kr.1 ∈ cands)) as ->.
    { apply eq_true_iff_eq. rewrite bool_decide_eq_true, vmem_elem, (M Hu), elem_of_nil by auto. tauto. }
    destruct (bool_decide _), (row_matches t a kr.2); done.
Qed.

End Index.

End Scans.

(** The index gives candidates, and these include every key needed. *)
Definition index_complete (t : TableView) (a : IndexAccess) (rows : list Row) : Prop :=
  exists cands, index_candidates t a = Ok cands /\ candidates_complete t a rows cands.

(** * Properties *)

Section Plans.
Context {Q : Type} (session : option Session) (subq : option (Q -> Record_ -> bool -> res (list Value))).
Variables (t : TableView) (alias : bytes).

(** The session's writes to the table; none outside a transaction. *)
Definition own_writes : TableTxnBuffer := default empty_buffer (buffer_of session t).

Lemma seq_scan_overlay rows :
  shows t (scan_ts session) rows -> buffer_ok own_writes ->
  run (execute_plan session subq (SeqScanPlan t alias)) =
  (map (fun r => make_record_from_row t r (binding_name t alias)) (overlay t own_writes rows).*2, Ok tt).
Proof.
  intros Sh B. cbn [execute_plan]. unfold execute_seq_scan, own_writes in *.
  erewrite run_bind by apply run_note_version. rewrite (sh_stream _ _ _ Sh). cbn [fst snd app].
  destruct (buffer_of session t) as [b|]; cbn [from_option] in *; unfold id in *.
  - by rewrite seq_scan_buffered.
  - by rewrite seq_scan_plain, overlay_empty.
Qed.

Lemma index_scan_overlay a rows cands :
  shows t (scan_ts session) rows -> buffer_ok own_writes ->
  index_candidates t a = Ok cands -> candidates_complete t a rows cands ->
  run (execute_plan session subq (IndexScanPlan t alias a)) =
  (map (fun r => make_record_from_row t r (binding_name t alias)) (index_pairs session t a own_writes cands).*2, Ok tt).
Proof.
  intros Sh B E C. cbn [execute_plan]. unfold execute_index_scan, own_writes in *.
  erewrite run_bind by apply run_note_version. erewrite run_bind_glift by exact E. cbn [fst snd app].
  destruct (buffer_of session t) as [b|]; cbn [from_option] in *; unfold id in *.
  - by rewrite (index_scan_buffered session t (binding_name t alias) a b rows).
  - by rewrite <- (index_scan_buffered session t (binding_name t alias) a empty_buffer rows).
Qed.

End Plans.

Lemma filter_snd (f : Row -> bool) (l : list (Value * Row)) : (List.filter (fun kr => f kr.2) l).*2 = List.filter f l.*2.
Proof. induction l as [|kr l IH]; [done|]. cbn. destruct (f kr.2); cbn; congruence. Qed.

Lemma index_scan_filtered {Q : Type} (session : option Session)
    (subq : option (Q -> Record_ -> bool -> res (list Value))) t alias a rows :
  shows t (scan_ts session) rows -> buffer_ok (own_writes session t) -> index_complete t a rows ->
  let mk := fun r => make_record_from_row t r (binding_name t alias) in
  exists seen out,
    run (execute_plan session subq (SeqScanPlan t alias)) = (map mk seen, Ok tt) /\
    run (execute_plan session subq (IndexScanPlan t alias a)) = (out, Ok tt) /\
    out ≡ₚ map mk (List.filter (row_matches t a) seen).
Proof.
  intros Sh B (cands & E & C) mk. exists (overlay t (own_writes session t) rows).*2. eexists. split_and!.
  - by apply seq_scan_overlay.
  - by apply (index_scan_overlay session subq t alias a rows cands).
  - rewrite <- filter_snd. apply Permutation_map. apply (fmap_Permutation snd). by apply index_pairs_spec.
Qed.

(** C25: a sequential scan reads the table with the transaction's own writes: of
    the rows visible at its snapshot those whose key it has not deleted, with
    the row it wrote itself where it wrote that key, and the rows it wrote under
    keys the table does not show; each key once. *)
Theorem scan_reads_own_writes {Q : Type} (session : option Session)
    (subq : option (Q -> Record_ -> bool -> res (list Value))) (t : TableView) (alias : bytes) (rows : list Row) :
  shows t (scan_ts session) rows -> buffer_ok (own_writes session t) ->
  exists seen : list (Value * Row), NoDup seen.*1 /\
    (forall k r, (k, r) ∈ seen <->
       (k, r) ∈ upserts (own_writes session t) \/
       (r ∈ rows /\ k = row_key t r /\ k ∉ deletes (own_writes session t) /\ k ∉ (upserts (own_writes session t)).*1)) /\
    run (execute_plan session subq (SeqScanPlan t alias)) =
      (map (fun r => make_record_from_row t r (binding_name t alias)) seen.*2, Ok tt).
Proof.
  intros Sh B. exists (overlay t (own_writes session t) rows). split_and!.
  - apply overlay_keys; [done|apply Sh|apply Sh].
  - intros k r. apply elem_overlay; [done|apply Sh].
  - by apply seq_scan_overlay.
Qed.

(** An index scan gives the records of the sequential scan of the same table
    that satisfy the index condition, each as often and in some order, also
    inside a transaction with buffered writes, if the index holds the key of
    every visible row that satisfies the condition.  The index may hold more:
    outdated entries and keys of deleted rows are filtered out. *)
Theorem index_scan_is_filtered_scan {Q : Type} (session : option Session)
    (subq : option (Q -> Record_ -> bool -> res (list Value))) (t : TableView) (alias : bytes) (a : IndexAccess)
    (rows : list Row) :
  shows t (scan_ts session) rows -> buffer_ok (own_writes session t) -> index_complete t a rows ->
  let mk := fun r => make_record_from_row t r (binding_name t alias) in
  exists seen out,
    run (execute_plan session subq (SeqScanPlan t alias)) = (map mk seen, Ok tt) /\
    run (execute_plan session subq (IndexScanPlan t alias a)) = (out, Ok tt) /\
    out ≡ₚ map mk (List.filter (row_matches t a) seen).
Proof. apply index_scan_filtered. Qed.

(** A table with an index on its second column that still holds an old entry,
    and a transaction that has changed one row, deleted another and added one. *)
Definition ex_rows : list Row := [int_row [1; 10]; int_row [2; 20]; int_row [3; 20]].
Definition ex_indexed : TableView :=
  mkView (str "t") [int_column "id" true; int_column "v" false] 0 (fun _ => (ex_rows, Ok tt)) (fun _ => Ok ex_rows)
    (fun k _ => Ok (List.find (fun r => ValueEq (default VNull (head (values r))) k) ex_rows))
    (fun _ k => if ValueEq k (VInt 20) then [VInt 1; VInt 2; VInt 3] else []) (fun _ _ _ _ _ => Ok []) (fun _ _ => []).
Definition ex_writes : TableTxnBuffer :=
  mkBuffer [(VInt 2, int_row [2; 21]); (VInt 4, int_row [4; 20])] [VInt 3].
Definition ex_session : Session := mkSession 7 RepeatableRead {[ str "t" := ex_writes ]} 5 0 ∅ ∅ [].

Lemma ex_shows : shows ex_indexed (scan_ts (Some ex_session)) ex_rows.
Proof.
  split; [done|apply (bool_decide_unpack _); vm_compute; exact I..|]. intros k Hk. eexists. split; [reflexivity|].
  cbn [List.find ex_rows int_row map values head default from_option id].
  assert (forall n, ValueEq (VInt n) k = true <-> VInt n = k) as E by (intros n; by apply ValueEq_eq).
  destruct (ValueEq (VInt 1) k) eqn:E1; [apply E in E1; split; [by left|exact E1]|].
  destruct (ValueEq (VInt 2) k) eqn:E2; [apply E in E2; split; [by right; left|exact E2]|].
  destruct (ValueEq (VInt 3) k) eqn:E3; [apply E in E3; split; [by do 2 right; left|exact E3]|].
  change (map (row_key ex_indexed) ex_rows) with [VInt 1; VInt 2; VInt 3].
  intros H. rewrite !elem_of_cons, elem_of_nil in H. destruct H as [H|[H|[H|[]]]]; symmetry in H; apply E in H; congruence.
Qed.

Lemma ex_writes_ok : buffer_ok (own_writes (Some ex_session) ex_indexed).
Proof.
  change (own_writes (Some ex_session) ex_indexed) with ex_writes.
  split; try (apply (bool_decide_unpack _); vm_compute; exact I). intros k. cbn.
  rewrite !elem_of_cons, !elem_of_nil. naive_solver.
Qed.

Lemma scan_reads_own_writes_witness :
  exists seen : list (Value * Row), NoDup seen.*1 /\ run (execute_plan (Some ex_session) (None : option (unit -> _)) (SeqScanPlan ex_indexed [])) =
    (map (fun r => make_record_from_row ex_indexed r (str "t")) seen.*2, Ok tt).
Proof.
  destruct (scan_reads_own_writes (Some ex_session) (None : option (unit -> _)) ex_indexed [] ex_rows ex_shows ex_writes_ok)
    as (seen & N & _ & R). exists seen. split; [exact N|exact R].
Defined.

Lemma index_scan_is_filtered_scan_witness :
  exists seen out,
    run (execute_plan (Some ex_session) (None : option (unit -> _)) (SeqScanPlan ex_indexed [])) =
      (map (fun r => make_record_from_row ex_indexed r (str "t")) seen, Ok tt) /\
    run (execute_plan (Some ex_session) (None : option (unit -> _)) (IndexScanPlan ex_indexed [] (IdxPoint (str "v") (VInt 20)))) = (out, Ok tt) /\
    out ≡ₚ map (fun r => make_record_from_row ex_indexed r (str "t"))
             (List.filter (row_matches ex_indexed (IdxPoint (str "v") (VInt 20))) seen).
Proof.
  apply (index_scan_is_filtered_scan (Some ex_session) None ex_indexed [] (IdxPoint (str "v") (VInt 20)) ex_rows ex_shows ex_writes_ok).
  eexists. split; [reflexivity|]. split; [|split]; [apply (bool_decide_unpack _); vm_compute; exact I..|].
  intros r Hr _. unfold ex_rows in Hr. rewrite !elem_of_cons, elem_of_nil in Hr. destruct Hr as [->|[->|[->|[]]]];
    apply (bool_decide_unpack _); vm_compute; exact I.
Defined.
