(* ===== verification/Aggregates.v ===== *)
(** Aggregation of [Query]: the hash and the sort strategy compute the same
    groups, and the states of the aggregate functions hold what SQL says. *)
From Stdlib Require Import ZArith Lia.
From stdpp Require Import base numbers list gmap strings.
From S2P Require Import Prelude Values Codec Doubles Eval Session Query Sorting.
Local Open Scope Z_scope.

(** * Folding records into states *)

Fixpoint fold_states (truncate : bool) (aggs : list AggregateExpr) (rs : list Record_) (sts : list AggState)
    : res (list AggState) :=
  match rs with
  | [] => Ok sts
  | r :: rs => s ← update_states truncate r aggs sts; fold_states truncate aggs rs s
  end.

Lemma fold_states_snoc truncate aggs rs r sts :
  fold_states truncate aggs (rs ++ [r]) sts = (s ← fold_states truncate aggs rs sts; update_states truncate r aggs s).
Proof.
  revert sts. induction rs as [|x rs IH]; intros sts; cbn.
  - by destruct (update_states truncate r aggs sts).
  - destruct (update_states truncate x aggs sts); cbn; [apply IH|done..].
Qed.

Lemma fold_states_prefix truncate aggs rs rs' sts s :
  fold_states truncate aggs (rs ++ rs') sts = Ok s -> exists s', fold_states truncate aggs rs sts = Ok s'.
Proof.
  revert sts. induction rs as [|x rs IH]; intros sts H; cbn in *; [eauto|].
  destruct (update_states truncate x aggs sts); cbn in *; [eauto|done..].
Qed.

Lemma key_eq_spec a b : Forall key_ok a -> Forall key_ok b -> (key_eq a b = true <-> a = b).
Proof.
  revert b. induction a as [|x a IH]; intros [|y b] Ha Hb; cbn; try (split; done).
  apply Forall_cons in Ha as [Hx Ha], Hb as [Hy Hb]. rewrite andb_true_iff, IH, ValueEq_eq by done.
  split; [by intros [-> ->]|by intros [= -> ->]].
Qed.

(** The distinct keys of a list, in the order in which they first appear. *)
Fixpoint distinct_keys (acc : list (list Value)) (ks : list (list Value)) : list (list Value) :=
  match ks with
  | [] => acc
  | k :: ks => distinct_keys (if bool_decide (k ∈ acc) then acc else acc ++ [k]) ks
  end.

Lemma distinct_snoc acc ks k :
  distinct_keys acc (ks ++ [k]) =
  if bool_decide (k ∈ distinct_keys acc ks) then distinct_keys acc ks else distinct_keys acc ks ++ [k].
Proof. revert acc. induction ks as [|x ks IH]; intros acc; cbn; [done|]. apply IH. Qed.

Lemma elem_distinct acc ks k : k ∈ distinct_keys acc ks <-> k ∈ acc \/ k ∈ ks.
Proof.
  revert acc. induction ks as [|x ks IH]; intros acc; cbn; [rewrite elem_of_nil; tauto|].
  rewrite IH, elem_of_cons. case_bool_decide as D; [naive_solver|]. rewrite elem_of_app, list_elem_of_singleton. tauto.
Qed.

Lemma NoDup_distinct acc ks : NoDup acc -> NoDup (distinct_keys acc ks).
Proof.
  revert acc. induction ks as [|x ks IH]; intros acc N; cbn; [done|]. apply IH. case_bool_decide as D; [done|].
  apply NoDup_app. split_and!; [done| |apply NoDup_singleton]. by intros y Hy ->%list_elem_of_singleton.
Qed.

Section Groups.
Context {Q : Type} (session : option Session) (subq : option (Q -> Record_ -> bool -> res (list Value))).
Variables (group : list ColumnRef) (aggs : list AggregateExpr) (items : list SelectItem) (having : option (BoolExpr Q)).
Variable gk : Record_ -> list Value.

(** The records of a group, and the states they fold to. *)
Definition members (k : list Value) (rs : list Record_) : list Record_ := List.filter (fun r => bool_decide (gk r = k)) rs.
Definition states_of (rs : list Record_) : list AggState :=
  match fold_states false aggs rs (initial_states aggs) with Ok s => s | _ => [] end.

Lemma members_snoc k rs r : members k (rs ++ [r]) = members k rs ++ (if bool_decide (gk r = k) then [r] else []).
Proof. unfold members. rewrite List.filter_app. cbn. by destruct (bool_decide (gk r = k)). Qed.

(** The records of one group can be aggregated. *)
Definition foldable (rs : list Record_) : Prop :=
  forall k, exists s, fold_states false aggs (members k rs) (initial_states aggs) = Ok s.

Definition keys_ok (rs : list Record_) : Prop :=
  forall r, r ∈ rs -> group_key group r = Ok (gk r) /\ Forall key_ok (gk r).

(** It is enough that the group of each record can. *)
Lemma foldable_records rs :
  Forall (fun r => exists s, fold_states false aggs (members (gk r) rs) (initial_states aggs) = Ok s) rs -> foldable rs.
Proof.
  intros F k. rewrite Forall_forall in F. destruct (decide (k ∈ map gk rs)) as [Hk|Hk].
  - apply list_elem_of_fmap in Hk as (r & -> & Hr). by apply F.
  - exists (initial_states aggs). unfold members. rewrite filter_none; [done|]. intros r Hr. apply bool_decide_eq_false_2.
    intros <-. apply Hk. by apply list_elem_of_fmap_2.
Qed.

Lemma foldable_prefix rs rs' : foldable (rs ++ rs') -> foldable rs.
Proof. intros F k. destruct (F k) as [s H]. unfold members in H. rewrite List.filter_app in H. by eapply fold_states_prefix. Qed.

Lemma fold_next rs r :
  foldable (rs ++ [r]) -> update_states false r aggs (states_of (members (gk r) rs)) = Ok (states_of (members (gk r) (rs ++ [r]))).
Proof.
  intros F. destruct (F (gk r)) as [s H]. unfold states_of. rewrite H. rewrite members_snoc, bool_decide_eq_true_2 in H by done.
  rewrite fold_states_snoc in H. by destruct (fold_states false aggs (members (gk r) rs) _).
Qed.

(** ** Hash aggregation *)

Lemma group_update_found key (f : list AggState -> res (list AggState)) init (ks : list (list Value)) S s' :
  key ∈ ks -> NoDup ks -> Forall (Forall key_ok) ks -> f (S key) = Ok s' ->
  group_update key f init (map (fun k => (k, S k)) ks) = Ok (map (fun k => (k, if bool_decide (k = key) then s' else S k)) ks).
Proof.
  intros Hin N K Hf. rewrite Forall_forall in K. pose proof (K _ Hin) as Kk.
  induction ks as [|k ks IH]; [by apply elem_of_nil in Hin|]. cbn [map group_update].
  apply NoDup_cons in N as [N1 N]. destruct (key_eq key k) eqn:E.
  - apply key_eq_spec in E as <-; [|done|apply K; by left]. rewrite Hf. cbn. rewrite bool_decide_eq_true_2 by done. do 2 f_equal.
    apply map_ext_in. intros x Hx%list_elem_of_In. rewrite bool_decide_eq_false_2; [done|]. by intros ->.
  - assert (key <> k) as D.
    { intros ->. assert (key_eq k k = true) by (apply key_eq_spec; auto). congruence. }
    apply elem_of_cons in Hin as [?|Hin]; [done|]. rewrite IH; [|done|done|intros x Hx; apply K; by right].
    cbn. rewrite bool_decide_eq_false_2 by done. done.
Qed.

Lemma group_update_new key (f : list AggState -> res (list AggState)) init (ks : list (list Value)) S s' :
  key ∉ ks -> Forall key_ok key -> Forall (Forall key_ok) ks -> f init = Ok s' ->
  group_update key f init (map (fun k => (k, S k)) ks) = Ok (map (fun k => (k, S k)) ks ++ [(key, s')]).
Proof.
  intros Hn Kk K Hf. induction ks as [|k ks IH]; cbn [map group_update app]; [by rewrite Hf|].
  apply Forall_cons in K as [K1 K]. apply not_elem_of_cons in Hn as [D Hn].
  destruct (key_eq key k) eqn:E; [by apply key_eq_spec in E|]. by rewrite IH.
Qed.

(** The hash table after the records [rs]. *)
Definition groups_of (rs : list Record_) : list (list Value * list AggState) :=
  map (fun k => (k, states_of (members k rs))) (distinct_keys [] (map gk rs)).

Lemma groups_step rs r :
  keys_ok (rs ++ [r]) -> foldable (rs ++ [r]) ->
  group_update (gk r) (update_states false r aggs) (initial_states aggs) (groups_of rs) = Ok (groups_of (rs ++ [r])).
Proof.
  intros K F. set (ks := distinct_keys [] (map gk rs)).
  assert (Forall (Forall key_ok) ks) as Kks.
  { apply Forall_forall. intros k Hk. unfold ks in Hk. apply elem_distinct in Hk as [Hk|Hk]; [by apply elem_of_nil in Hk|].
    apply list_elem_of_fmap in Hk as (x & -> & Hx). apply K. apply elem_of_app. by left. }
  assert (forall k, (if bool_decide (k = gk r) then states_of (members (gk r) (rs ++ [r])) else states_of (members k rs))
          = states_of (members k (rs ++ [r]))) as E.
  { intros k. case_bool_decide as D; [by subst|]. rewrite members_snoc, bool_decide_eq_false_2 by congruence. by rewrite app_nil_r. }
  unfold groups_of at 2. rewrite map_app. cbn [map]. rewrite distinct_snoc. fold ks.
  pose proof (fold_next rs r F) as Up. case_bool_decide as D.
  - unfold groups_of. fold ks. rewrite (group_update_found _ _ _ ks _ (states_of (members (gk r) (rs ++ [r])))); try done.
    + f_equal. apply map_ext. intros k. by rewrite E.
    + apply NoDup_distinct. constructor.
  - assert (members (gk r) rs = []) as M.
    { unfold members. apply filter_none. intros x Hx. apply bool_decide_eq_false_2. intros Ex. apply D. unfold ks.
      apply elem_distinct. right. rewrite <- Ex. by apply list_elem_of_fmap_2. }
    rewrite M in Up. change (states_of []) with (initial_states aggs) in Up.
    unfold groups_of. fold ks. rewrite (group_update_new _ _ _ ks _ (states_of (members (gk r) (rs ++ [r])))); try done.
    + rewrite map_app. f_equal. f_equal. apply map_ext_in. intros k Hk%list_elem_of_In. rewrite <- E, bool_decide_eq_false_2; [done|].
      by intros ->.
    + apply K. apply elem_of_app. right. by left.
Qed.

Lemma hash_groups rs todo :
  keys_ok (rs ++ todo) -> foldable (rs ++ todo) ->
  run (gfor todo (fun gs r => key ← glift (group_key group r);
         glift (group_update key (update_states false r aggs) (initial_states aggs) gs)) (groups_of rs)) =
  ([], Ok (groups_of (rs ++ todo))).
Proof.
  revert rs. induction todo as [|r todo IH]; intros rs K F; [by rewrite app_nil_r|].
  rewrite cons_middle, app_assoc in K, F |- *. cbn [gfor].
  assert (keys_ok (rs ++ [r])) as K1 by (intros x Hx; apply K, elem_of_app; by left).
  rewrite (run_bind _ _ [] (groups_of (rs ++ [r]))); [by rewrite IH|].
  erewrite run_bind_glift by (apply K1, elem_of_app; right; by left).
  rewrite groups_step; [done|done|by eapply foldable_prefix].
Qed.

Definition emit_all (extend : bool) (kss : list (list Value * list AggState)) : Gen unit :=
  gfor kss (fun _ g => emit_group extend aggs items having (Some (group, g.1)) g.2) tt.

Lemma hash_aggregate_run child rs :
  run child = (rs, Ok tt) -> keys_ok rs -> foldable rs ->
  run (execute_hash_aggregate group aggs items having child) = run (emit_all true (groups_of rs)).
Proof.
  intros Hc K F. unfold execute_hash_aggregate.
  rewrite (run_bind _ _ [] (groups_of rs)); [reflexivity|].
  pose proof (hash_groups [] rs K F) as R. cbn [app] in R. rewrite <- R.
  change (groups_of []) with ([] : list (list Value * list AggState)). rewrite <- (drive_as_gfor child _ rs [] Hc). apply run_drive_ext. intros gs r. by rewrite gen_bind_assoc.
Qed.

(** ** Sort aggregation *)

(** The records come in blocks, one for each key. *)
Definition in_blocks (bs : list (list Value * list Record_)) (rs : list Record_) : Prop :=
  rs = concat bs.*2 /\ NoDup bs.*1 /\ Forall (fun kb => kb.2 <> [] /\ Forall (fun r => gk r = kb.1) kb.2) bs.

Definition sort_step (cur : option (list Value * list AggState)) (r : Record_) : Gen (option (list Value * list AggState)) :=
  key ← glift (group_key group r);
  sts ← (match cur with
         | Some (k, sts) => if key_eq k key then mret sts
                            else _ ← emit_group false aggs items having (Some (group, k)) sts; mret (initial_states aggs)
         | None => mret (initial_states aggs)
         end);
  sts' ← glift (update_states false r aggs sts);
  mret (Some (key, sts')).

Definition emit_last (cur : option (list Value * list AggState)) : Gen unit :=
  match cur with Some kst => emit_group false aggs items having (Some (group, kst.1)) kst.2 | None => mret tt end.

(** The first record of a block closes the group before it. *)
Lemma sort_step_new cur r s1 :
  group_key group r = Ok (gk r) -> (forall k sts, cur = Some (k, sts) -> key_eq k (gk r) = false) ->
  update_states false r aggs (initial_states aggs) = Ok s1 ->
  run (sort_step cur r) = run (_ ← emit_last cur; mret (Some (gk r, s1))).
Proof.
  intros Hg Hk Hu. unfold sort_step. erewrite run_bind_glift by exact Hg. destruct cur as [[k sts]|].
  - rewrite (Hk k sts) by done. rewrite gen_bind_assoc. apply run_bind_ext; [done|]. intros _.
    rewrite gen_ret_bind. by rewrite Hu.
  - cbn [emit_last]. rewrite !gen_ret_bind. by rewrite Hu.
Qed.

Lemma sort_same b k sts s :
  keys_ok b -> Forall (fun r => gk r = k) b -> Forall key_ok k -> fold_states false aggs b sts = Ok s ->
  run (gfor b sort_step (Some (k, sts))) = ([], Ok (Some (k, s))).
Proof.
  intros K E Kk. revert sts. induction b as [|r b IH]; intros sts F; cbn in F; [by injection F as <-|].
  apply Forall_cons in E as [Er E]. apply bind_Ok in F as (s1 & Hu & F). cbn [gfor].
  rewrite (run_bind _ _ [] (Some (k, s1))); [rewrite IH; [done|intros x Hx; apply K; by right|done|done]|].
  destruct (K r ltac:(by left)) as [Hg _]. unfold sort_step. erewrite run_bind_glift by exact Hg. rewrite Er.
  assert (key_eq k k = true) as -> by (by apply key_eq_spec). rewrite gen_ret_bind. by rewrite Hu.
Qed.

Lemma run_unit_bind (g : Gen unit) : run (_ ← g; mret tt) = run g.
Proof. rewrite run_void. destruct g as [es [[]|w|w]]; done. Qed.

Lemma sort_blocks bs cur :
  keys_ok (concat bs.*2) -> NoDup bs.*1 -> Forall (fun kb => kb.2 <> [] /\ Forall (fun r => gk r = kb.1) kb.2) bs ->
  Forall (fun kb => exists s, fold_states false aggs kb.2 (initial_states aggs) = Ok s) bs ->
  (forall k sts, cur = Some (k, sts) -> (k ∉ bs.*1) /\ Forall key_ok k) ->
  run (last ← gfor (concat bs.*2) sort_step cur; emit_last last) =
  run (_ ← emit_last cur; emit_all false (map (fun kb => (kb.1, states_of kb.2)) bs)).
Proof.
  revert cur. induction bs as [|[k b] bs IH]; intros cur K N H F Hc.
  { cbn [fmap list_fmap concat gfor map]. rewrite gen_ret_bind. symmetry. apply run_unit_bind. }
  cbn [fmap list_fmap fst snd concat map] in *. apply NoDup_cons in N as [N1 N]. apply Forall_cons in H as [[Nb Hb] H].
  apply Forall_cons in F as [[s Fb] F]. cbn [fst snd] in *. destruct b as [|r b]; [done|].
  pose proof Hb as [Er Hb']%Forall_cons. pose proof Fb as Fb'. cbn [fold_states] in Fb'. apply bind_Ok in Fb' as (s1 & Hu & Fb').
  destruct (K r ltac:(by left)) as [Hg Kr]. rewrite Er in Kr. cbn [app gfor]. rewrite gen_bind_assoc.
  transitivity (run ((_ ← emit_last cur; mret (Some (k, s1))) ≫= fun c =>
                     gfor (b ++ concat bs.*2) sort_step c ≫= emit_last)).
  { apply run_bind_ext; [|done]. rewrite <- Er. apply sort_step_new; [done| |done]. intros k' sts E.
    destruct (Hc k' sts E) as [Hk' Kk']. destruct (key_eq k' (gk r)) eqn:Q'; [|done].
    apply key_eq_spec in Q' as ->; [|done|by rewrite Er]. rewrite Er in Hk'. apply not_elem_of_cons in Hk' as [? _]. done. }
  rewrite gen_bind_assoc. apply run_bind_ext; [done|]. intros _. rewrite gen_ret_bind, gfor_app, gen_bind_assoc.
  rewrite (run_bind _ _ [] (Some (k, s))).
  2:{ apply sort_same; [|done..]. intros x Hx. apply K. right. apply elem_of_app. by left. }
  cbn [app]. transitivity (run (gfor (concat bs.*2) sort_step (Some (k, s)) ≫= emit_last)); [by destruct (run _)|].
  rewrite IH; [|intros x Hx; apply K; right; apply elem_of_app; by right|done|done|done|].
  - assert (states_of (r :: b) = s) as -> by (unfold states_of; by rewrite Fb). apply run_bind_ext; [done|by intros []].
  - intros k' sts [= <- <-]. done.
Qed.

(** ** Blocks are groups *)

Lemma members_block bs rs k b :
  in_blocks bs rs -> (k, b) ∈ bs -> members k rs = b.
Proof.
  intros (-> & N & H) Hin. induction bs as [|[k0 b0] bs IH]; [by apply elem_of_nil in Hin|].
  cbn [fmap list_fmap fst snd concat] in *. apply NoDup_cons in N as [N1 N]. apply Forall_cons in H as [[_ H0] H].
  rewrite Forall_forall in H0. cbn [fst] in H0. unfold members in *. rewrite List.filter_app. apply elem_of_cons in Hin as [[= <- <-]|Hin].
  - rewrite filter_every, filter_none; [by rewrite app_nil_r| |].
    + intros r Hr. apply bool_decide_eq_false_2. intros E. apply N1.
      apply list_elem_of_In, in_concat in Hr as (b' & Hb'%list_elem_of_In & Hr%list_elem_of_In). apply list_elem_of_fmap in Hb' as ([k' b''] & -> & Hb'').
      rewrite Forall_forall in H. destruct (H _ Hb'') as [_ Hk']. cbn in *. rewrite Forall_forall in Hk'.
      rewrite <- E, (Hk' r Hr). exact (list_elem_of_fmap_2 fst _ _ Hb'').
    + intros r Hr. apply bool_decide_eq_true_2. by apply H0.
  - rewrite filter_none, IH; [done|done|done|done|]. intros r Hr. apply bool_decide_eq_false_2. rewrite (H0 r Hr).
    intros <-. apply N1. exact (list_elem_of_fmap_2 fst _ _ Hin).
Qed.

Lemma distinct_block acc k n ks : distinct_keys acc (replicate (S n) k ++ ks) = distinct_keys (if bool_decide (k ∈ acc) then acc else acc ++ [k]) ks.
Proof.
  cbn [replicate app distinct_keys]. set (acc' := if bool_decide (k ∈ acc) then acc else acc ++ [k]).
  assert (k ∈ acc') as Hin.
  { unfold acc'. case_bool_decide; [done|]. apply elem_of_app. right. by left. }
  clearbody acc'. induction n as [|n IH]; [done|]. cbn. by rewrite bool_decide_eq_true_2.
Qed.

Lemma distinct_blocks bs acc :
  NoDup (acc ++ bs.*1) -> Forall (fun kb => kb.2 <> [] /\ Forall (fun r => gk r = kb.1) kb.2) bs ->
  distinct_keys acc (map gk (concat bs.*2)) = acc ++ bs.*1.
Proof.
  revert acc. induction bs as [|[k b] bs IH]; intros acc N H; cbn [fmap list_fmap concat fst snd map] in *; [cbn; by rewrite app_nil_r|].
  apply Forall_cons in H as [[Nb Hb] H]. cbn [fst snd] in *. rewrite map_app.
  assert (map gk b = replicate (length b) k) as -> by (clear Nb N; induction Hb as [|r b Er _ IHb]; cbn; congruence).
  destruct b as [|r b]; [done|]. cbn [length]. rewrite distinct_block. rewrite bool_decide_eq_false_2.
  - rewrite IH; [by rewrite <- app_assoc|by rewrite <- app_assoc|done].
  - intros Hin. apply NoDup_app in N as (_ & N & _). apply (N k Hin). by left.
Qed.

Lemma groups_blocks bs rs : in_blocks bs rs -> groups_of rs = map (fun kb => (kb.1, states_of kb.2)) bs.
Proof.
  intros I. pose proof I as (E & N & H). unfold groups_of. assert (distinct_keys [] (map gk rs) = bs.*1) as -> by (rewrite E; by apply (distinct_blocks bs [])). cbn [app].
  change (bs.*1) with (map fst bs). rewrite map_map. apply map_ext_in. intros [k b] Hin%list_elem_of_In. cbn.
  by rewrite (members_block bs rs k b).
Qed.

Lemma emit_all_same kss :
  having = None \/ forallb (in_projection items) aggs = true -> emit_all true kss = emit_all false kss.
Proof.
  intros Hh. assert (forall g sts, emit_group true aggs items having g sts = emit_group false aggs items having g sts) as E.
  { intros g sts. unfold emit_group. destruct (group_columns aggs sts g items) as [cs|w|w]; cbn; [|done..].
    destruct Hh as [->|Hh]; [done|]. destruct having; [|done].
    assert (having_columns items aggs sts = []) as ->; [|by rewrite app_nil_r].
    unfold having_columns. revert sts. induction aggs as [|a l IH]; intros [|st sts]; cbn in *; try done.
    apply andb_prop in Hh as [-> Hh]. by apply IH. }
  unfold emit_all. apply gfor_ext. intros _ g. apply E.
Qed.

Lemma sort_aggregate_run child bs rs :
  run child = (rs, Ok tt) -> keys_ok rs -> foldable rs -> in_blocks bs rs ->
  having = None \/ forallb (in_projection items) aggs = true ->
  run (execute_sort_aggregate group aggs items having child) = run (emit_all true (groups_of rs)).
Proof.
  intros Hc K F I Hh. pose proof I as (E & N & H). rewrite (emit_all_same _ Hh), (groups_blocks bs rs I).
  unfold execute_sort_aggregate.
  transitivity (run (last ← gfor rs sort_step None; emit_last last)).
  - apply run_bind_ext; [|by intros [|]]. rewrite <- (drive_as_gfor child _ rs None Hc). apply run_drive_ext.
    intros cur r. unfold sort_step. rewrite !gen_bind_assoc. apply run_bind_ext; [done|]. intros key.
    rewrite !gen_bind_assoc. apply run_bind_ext; [by destruct cur as [[k sts]|]|]. intros sts. rewrite gen_bind_assoc.
    by apply run_bind_ext.
  - rewrite E, sort_blocks; [done|by rewrite <- E|done|done| |done].
    apply Forall_forall. intros [k b] Hin. destruct (F k) as [s Hs]. rewrite (members_block bs rs k b I Hin) in Hs. by exists s.
Qed.

End Groups.

(** * What the states hold *)

Fixpoint fold_state (truncate : bool) (a : AggregateExpr) (rs : list Record_) (st : AggState) : res AggState :=
  match rs with
  | [] => Ok st
  | r :: rs => s ← update_state truncate r a st; fold_state truncate a rs s
  end.

Lemma update_states_nth truncate r aggs sts sts' i a st :
  update_states truncate r aggs sts = Ok sts' -> aggs !! i = Some a -> sts !! i = Some st ->
  exists st', sts' !! i = Some st' /\ update_state truncate r a st = Ok st'.
Proof.
  revert sts sts' i. induction aggs as [|x aggs IH]; intros [|y sts] sts' [|i] H Ha Hs; try done; cbn in *;
    apply bind_Ok in H as (y' & Hy & H); apply bind_Ok in H as (t & Ht & [= <-]); simplify_eq.
  - by eexists.
  - by apply (IH sts t i).
Qed.

(** The states of several aggregates are folded independently. *)
Lemma fold_states_nth truncate aggs rs sts sts' i a st :
  fold_states truncate aggs rs sts = Ok sts' -> aggs !! i = Some a -> sts !! i = Some st ->
  exists st', sts' !! i = Some st' /\ fold_state truncate a rs st = Ok st'.
Proof.
  revert sts st. induction rs as [|r rs IH]; intros sts st H Ha Hs; cbn in *; [injection H as <-; eauto|].
  apply bind_Ok in H as (s & Hu & H). destruct (update_states_nth _ _ _ _ _ _ _ _ Hu Ha Hs) as (st1 & H1 & H2).
  destruct (IH s st1 H Ha H1) as (st' & ? & ?). exists st'. split; [done|]. by rewrite H2.
Qed.

Definition nonnull (vs : list Value) : list Value := List.filter (fun v => negb (is_null v)) vs.

(** [vs] are the values of the argument in the records. *)
Definition arg_values (c : ColumnRef) (rs : list Record_) (vs : list Value) : Prop :=
  Forall2 (fun r v => lookup_ref r c = Ok v) rs vs.

(** The value kept by MIN and MAX: the first one that none is better than. *)
Fixpoint extreme (better : Value -> Value -> bool) (vs : list Value) (cur : option Value) : option Value :=
  match vs with
  | [] => cur
  | v :: vs => extreme better vs (match cur with
                                  | None => Some v
                                  | Some m => if better v m then Some v else Some m
                                  end)
  end.

Lemma extreme_spec (V : Value -> Prop) (le : Value -> Value -> Prop) better vs cur :
  (forall x, V x -> le x x) -> (forall x y z, V x -> V y -> V z -> le x y -> le y z -> le x z) ->
  (forall v m, V v -> V m -> if better v m : bool then le v m else le m v) ->
  Forall V vs -> (forall m, cur = Some m -> V m) ->
  match extreme better vs cur with
  | Some m => V m /\ (cur = Some m \/ m ∈ vs) /\ Forall (le m) vs /\ (forall m0, cur = Some m0 -> le m m0)
  | None => vs = [] /\ cur = None
  end.
Proof.
  intros Rf Tr Bt. revert cur. induction vs as [|v vs IH]; intros cur Hv Hc; cbn [extreme].
  { destruct cur as [m|]; [|done]. split_and!; auto. intros m0 [= <-]. auto. }
  apply Forall_cons in Hv as [V1 Hv]. set (cur' := match cur with None => Some v | Some m => if better v m then Some v else Some m end).
  assert (exists m', cur' = Some m' /\ V m' /\ le m' v /\ (cur = Some m' \/ m' = v) /\ forall m0, cur = Some m0 -> le m' m0)
    as (m' & E & Vm' & Lv & M' & Lc).
  { unfold cur'. destruct cur as [m|]; [|exists v; split_and!; auto; done]. pose proof (Hc m eq_refl) as Vm.
    specialize (Bt v m V1 Vm). destruct (better v m); eexists; (split; [reflexivity|]); split_and!; auto; intros m0 [= <-]; auto. }
  clearbody cur'. subst cur'. specialize (IH (Some m') Hv ltac:(intros m [= <-]; done)).
  destruct (extreme better vs (Some m')) as [m|]; [|by destruct IH as [_ ?]].
  destruct IH as (Vm & M & L & Lm). specialize (Lm m' eq_refl). split_and!; [done| | |].
  - destruct M as [[= <-]|M]; [destruct M' as [? | ->]; [by left|right; by left]|right; by right].
  - constructor; [by apply (Tr m m' v)|done].
  - intros m0 E0. apply (Tr m m' m0); auto.
Qed.

Section Folds.
Variables (truncate : bool) (a : AggregateExpr) (c : ColumnRef).
Hypothesis (Ha : agg_arg a = Some c).

Lemma count_fold rs vs st st' :
  agg_func a = Count -> arg_values c rs vs -> fold_state truncate a rs st = Ok st' ->
  st_count st' = st_count st + Z.of_nat (length (nonnull vs)).
Proof.
  intros Hf V. revert st. induction V as [|r v rs vs Hv _ IH]; intros st F; cbn [fold_state] in F; [injection F as <-; cbn; lia|].
  unfold update_state in F. rewrite Hf, Ha, Hv in F. cbn in F. apply IH in F. rewrite F.
  unfold nonnull. cbn [List.filter]. destruct (is_null v); cbn; lia.
Qed.

Lemma sum_fold rs vs st st' :
  agg_func a = Sum \/ agg_func a = Avg -> arg_values c rs vs -> fold_state truncate a rs st = Ok st' ->
  exists ns, Forall2 (fun v n => summand truncate v = Ok n) (nonnull vs) ns /\
    st_sum st' = st_sum st + foldr Z.add 0 ns /\ st_count st' = st_count st + Z.of_nat (length ns).
Proof.
  intros Hf V. revert st. induction V as [|r v rs vs Hv _ IH]; intros st F; cbn [fold_state] in F.
  { injection F as <-. exists []. split_and!; [constructor|cbn; lia..]. }
  assert (update_state truncate r a st = (if is_null v then Ok st else
            n ← summand truncate v; s ← add_int64 (st_sum st) n;
            Ok (mkAggState (st_count st + 1) s (st_min st) (st_max st)))) as E.
  { unfold update_state, agg_value. rewrite Ha, Hv. by destruct Hf as [-> | ->]. }
  rewrite E in F. unfold nonnull. cbn [List.filter]. destruct (is_null v); cbn [negb].
  - apply IH in F. done.
  - apply bind_Ok in F as (st1 & E1 & F). apply bind_Ok in E1 as (n & Hn & E1). apply bind_Ok in E1 as (s & Hs & [= <-]).
    apply IH in F as (ns & F2 & Hsum & Hcnt). exists (n :: ns). split_and!; [by constructor|..]; cbn in *.
    + unfold add_int64 in Hs. destruct (_ && _); [injection Hs as <-; lia|done].
    + lia.
Qed.

Lemma min_fold (V : Value -> Prop) rs vs st st' :
  agg_func a = Min -> ordered_values V -> Forall V (nonnull vs) -> arg_values c rs vs -> fold_state truncate a rs st = Ok st' ->
  (forall m, st_min st = Some m -> V m) ->
  st_min st' = extreme (fun v m => order_of v m <? 0) (nonnull vs) (st_min st).
Proof.
  intros Hf O Vv A. revert st Vv. induction A as [|r v rs vs Hv _ IH]; intros st Vv F Hm; cbn [fold_state] in F.
  { by injection F as <-. }
  unfold update_state, agg_value in F. rewrite Hf, Ha, Hv in F. cbn [mbind res_bind] in F.
  unfold nonnull in *. cbn [List.filter] in *. destruct (is_null v); cbn [negb extreme] in *; [by apply IH|].
  apply Forall_cons in Vv as [V1 Vv]. destruct (st_min st) as [m|] eqn:E.
  - rewrite (ov_ok _ O) in F by auto. cbn [mbind res_bind] in F. destruct (order_of v m <? 0).
    + apply IH in F; [done|done|]. by intros x [= <-].
    + apply IH in F; [by rewrite E in F|done|]. rewrite E. by intros x [= <-]; auto.
  - apply IH in F; [done|done|]. by intros x [= <-].
Qed.

Lemma max_fold (V : Value -> Prop) rs vs st st' :
  agg_func a = Max -> ordered_values V -> Forall V (nonnull vs) -> arg_values c rs vs -> fold_state truncate a rs st = Ok st' ->
  (forall m, st_max st = Some m -> V m) ->
  st_max st' = extreme (fun v m => 0 <? order_of v m) (nonnull vs) (st_max st).
Proof.
  intros Hf O Vv A. revert st Vv. induction A as [|r v rs vs Hv _ IH]; intros st Vv F Hm; cbn [fold_state] in F.
  { by injection F as <-. }
  unfold update_state, agg_value in F. rewrite Hf, Ha, Hv in F. cbn [mbind res_bind] in F.
  unfold nonnull in *. cbn [List.filter] in *. destruct (is_null v); cbn [negb extreme] in *; [by apply IH|].
  apply Forall_cons in Vv as [V1 Vv]. destruct (st_max st) as [m|] eqn:E.
  - rewrite (ov_ok _ O) in F by auto. cbn [mbind res_bind] in F. destruct (0 <? order_of v m).
    + apply IH in F; [done|done|]. by intros x [= <-].
    + apply IH in F; [by rewrite E in F|done|]. rewrite E. by intros x [= <-]; auto.
  - apply IH in F; [done|done|]. by intros x [= <-].
Qed.

End Folds.

Lemma extreme_value (V : Value -> Prop) (le : Value -> Value -> Prop) better vs :
  (forall x, V x -> le x x) -> (forall x y z, V x -> V y -> V z -> le x y -> le y z -> le x z) ->
  (forall v m, V v -> V m -> if better v m : bool then le v m else le m v) -> Forall V vs ->
  let m := default VNull (extreme better vs None) in
  (vs = [] /\ m = VNull) \/ (m ∈ vs /\ Forall (le m) vs).
Proof.
  intros Rf Tr Bt Hv. pose proof (extreme_spec V le better vs None Rf Tr Bt Hv ltac:(done)) as X.
  destruct (extreme _ _ _) as [m|]; cbn [default from_option]; unfold id.
  - right. by destruct X as (_ & [?|M] & L & _).
  - left. by destruct X.
Qed.

Lemma least_value (V : Value -> Prop) vs :
  ordered_values V -> Forall V vs ->
  let m := default VNull (extreme (fun v m => order_of v m <? 0) vs None) in
  (vs = [] /\ m = VNull) \/ (m ∈ vs /\ Forall (fun v => order_of m v <= 0) vs).
Proof.
  intros O Hv. apply (extreme_value V (fun x y => order_of x y <= 0)); [..|done].
  - intros x Vx. rewrite (ov_refl V O) by done. done.
  - apply (ov_trans V O).
  - intros v m Vv Vm. destruct (Z.ltb_spec (order_of v m) 0); [lia|]. rewrite (ov_sym _ O v m) by done. lia.
Qed.

Lemma greatest_value (V : Value -> Prop) vs :
  ordered_values V -> Forall V vs ->
  let m := default VNull (extreme (fun v m => 0 <? order_of v m) vs None) in
  (vs = [] /\ m = VNull) \/ (m ∈ vs /\ Forall (fun v => order_of v m <= 0) vs).
Proof.
  intros O Hv. apply (extreme_value V (fun x y => order_of y x <= 0)); [..|done].
  - intros x Vx. rewrite (ov_refl V O) by done. done.
  - intros x y z Vx Vy Vz H1 H2. by apply (ov_trans V O z y x).
  - intros v m Vv Vm. destruct (Z.ltb_spec 0 (order_of v m)); [|lia]. rewrite (ov_sym _ O v m) by done. lia.
Qed.

(** * COUNT( * ) over a plain scan *)

Lemma count_star_fold aggs rs :
  forallb (fun a => match agg_func a, agg_arg a with Count, None => true | _, _ => false end) aggs = true ->
  forall n, fold_states true aggs rs (map (fun _ => mkAggState n 0 None None) aggs) =
    Ok (map (fun _ => mkAggState (n + Z.of_nat (length rs)) 0 None None) aggs).
Proof.
  intros H. induction rs as [|r rs IH]; intros n; cbn [fold_states length]; [by rewrite Z.add_0_r|].
  assert (update_states true r aggs (map (fun _ => mkAggState n 0 None None) aggs) =
          Ok (map (fun _ => mkAggState (n + 1) 0 None None) aggs)) as ->.
  { clear IH. induction aggs as [|a aggs IHa]; [done|]. cbn in H. apply andb_prop in H as [H1 H]. cbn [map update_states].
    unfold update_state. destruct (agg_func a); try done. destruct (agg_arg a); [done|]. cbn. by rewrite IHa. }
  cbn [mbind res_bind]. rewrite IH. f_equal. apply map_ext. intros _. f_equal. lia.
Qed.

Lemma global_states child rs aggs truncate sts s :
  run child = (rs, Ok tt) -> fold_states truncate aggs rs sts = Ok s ->
  run (drive child (fun sts r => sts' ← glift (update_states truncate r aggs sts); mret (sts', true)) sts) = ([], Ok s).
Proof.
  intros Hc F. rewrite (drive_as_gfor child (fun sts r => glift (update_states truncate r aggs sts)) rs sts Hc).
  clear Hc. revert sts F. induction rs as [|r rs IH]; intros sts F; cbn in F; [by injection F as <-|].
  apply bind_Ok in F as (s1 & H1 & F). cbn [gfor]. erewrite run_bind_glift by exact H1. by apply IH.
Qed.

(** A scan under an absent or empty buffer yields each row. *)
Lemma plain_scan session t alias rows :
  match buffer_of session t with Some b => buffer_empty b | None => true end = true ->
  tv_stream t (scan_ts session) = (rows, Ok tt) ->
  run (execute_seq_scan session t alias) =
  (map (fun r => make_record_from_row t r (binding_name t alias)) rows, Ok tt).
Proof.
  intros Hb St. unfold execute_seq_scan. rewrite St.
  assert (forall e r, run (scan_row session t (binding_name t alias) (buffer_of session t) e r) =
    ([make_record_from_row t r (binding_name t alias)], Ok e)) as Row.
  { intros e r. assert (run (_ ← note_read session t r; _ ← yield (make_record_from_row t r (binding_name t alias)); mret e)
      = ([make_record_from_row t r (binding_name t alias)], Ok e)) as P.
    { rewrite (run_bind _ _ [] tt); [done|]. unfold note_read. by destruct (_ && _). }
    unfold scan_row. destruct (buffer_of session t) as [[u d]|]; [|exact P].
    unfold buffer_empty in Hb. cbn in Hb. apply andb_prop in Hb as [->%bool_decide_eq_true ->%bool_decide_eq_true].
    cbn. by destruct (bool_decide (values r = [])). }
  rewrite (run_bind _ _ [] tt) by (unfold note_version; by destruct (track_reads session)).
  erewrite run_bind; last first.
  { apply (run_gfor _ (fun _ r => [make_record_from_row t r (binding_name t alias)]) (fun e _ => e) (fun _ => True)); [done|].
    intros e r _ _. split; [apply Row|done]. }
  rewrite loop_out_const. erewrite run_bind_glift by reflexivity. cbn [app fst snd].
  assert (concat (map (fun r => [make_record_from_row t r (binding_name t alias)]) rows) =
          map (fun r => make_record_from_row t r (binding_name t alias)) rows) as ->
    by (clear; induction rows; cbn; congruence).
  destruct (buffer_of session t) as [[u d]|]; [|by rewrite app_nil_r].
  unfold buffer_empty in Hb. cbn in Hb. apply andb_prop in Hb as [->%bool_decide_eq_true _]. cbn. by rewrite app_nil_r.
Qed.

(** * Properties *)

(** The sort strategy, which keeps one group at a time, gives the records of
    the hash strategy, one for each distinct key in the order of its first
    record and computed from all records of that key, when its input comes in
    one block per key and the aggregates of HAVING are among the projections. *)
Theorem sort_aggregate_is_hash_aggregate {Q : Type} (session : option Session)
    (subq : option (Q -> Record_ -> bool -> res (list Value))) (c : PlanNode Q) (group : list ColumnRef)
    (aggs : list AggregateExpr) (items : list SelectItem) (having : option (BoolExpr Q))
    (gk : Record_ -> list Value) (rs : list Record_) (bs : list (list Value * list Record_)) :
  group <> [] -> run (execute_plan session subq c) = (rs, Ok tt) -> keys_ok group gk rs -> foldable aggs gk rs ->
  in_blocks gk bs rs -> having = None \/ forallb (in_projection items) aggs = true ->
  let spec := emit_all group aggs items having true
    (map (fun k => (k, states_of aggs (members gk k rs))) (distinct_keys [] (map gk rs))) in
  run (execute_plan session subq (AggregatePlan c group aggs items having HashStrategy)) = run spec /\
  run (execute_plan session subq (AggregatePlan c group aggs items having SortStrategy)) = run spec.
Proof.
  intros Ng Hc K F I Hh spec. cbn [execute_plan]. destruct group as [|g gs]; [done|]. split.
  - by apply (hash_aggregate_run (g :: gs) aggs items having gk).
  - by apply (sort_aggregate_run (g :: gs) aggs items having gk _ bs).
Qed.

(** C35: the value of each aggregate over the records folded into it: COUNT is the
    number of non-NULL arguments; SUM is their sum and AVG the quotient of sum and
    number, with DOUBLE arguments cut to integers first where the strategy accepts
    them ([summand]), both NULL when there are no arguments; MIN and MAX a smallest
    and a largest non-NULL argument, NULL when there is none. *)
Theorem aggregate_values_correct (truncate : bool) (aggs : list AggregateExpr) (rs : list Record_)
    (sts : list AggState) (i : nat) (a : AggregateExpr) (c : ColumnRef) (vs : list Value) (V : Value -> Prop) :
  fold_states truncate aggs rs (initial_states aggs) = Ok sts -> aggs !! i = Some a -> agg_arg a = Some c ->
  arg_values c rs vs -> ordered_values V -> Forall V (nonnull vs) ->
  exists st, sts !! i = Some st /\
    match agg_func a with
    | Count => finalize st Count = VInt (Z.of_nat (length (nonnull vs)))
    | Sum => exists ns, Forall2 (fun v n => summand truncate v = Ok n) (nonnull vs) ns /\
        finalize st Sum = match ns with [] => VNull | _ => VInt (foldr Z.add 0 ns) end
    | Avg => exists ns, Forall2 (fun v n => summand truncate v = Ok n) (nonnull vs) ns /\
        finalize st Avg = match ns with
                          | [] => VNull
                          | _ => VDouble (dbl_div (dbl_of_int (foldr Z.add 0 ns)) (dbl_of_int (Z.of_nat (length ns))))
                          end
    | Min => (nonnull vs = [] /\ finalize st Min = VNull) \/
        (finalize st Min ∈ nonnull vs /\ Forall (fun v => order_of (finalize st Min) v <= 0) (nonnull vs))
    | Max => (nonnull vs = [] /\ finalize st Max = VNull) \/
        (finalize st Max ∈ nonnull vs /\ Forall (fun v => order_of v (finalize st Max) <= 0) (nonnull vs))
    end.
Proof.
  intros F Ha Harg A O Hv. destruct (fold_states_nth _ _ _ _ _ i a agg_init F Ha) as (st & Hst & Fs).
  { unfold initial_states. by rewrite list_lookup_fmap, Ha. }
  exists st. split; [done|]. destruct (agg_func a) eqn:Hf.
  - cbn [finalize]. by rewrite (count_fold truncate a c Harg rs vs _ _ Hf A Fs).
  - destruct (sum_fold truncate a c Harg rs vs _ _ (or_introl Hf) A Fs) as (ns & F2 & Es & Ec). exists ns. split; [done|].
    cbn [finalize]. rewrite Es, Ec. cbn. destruct ns; [done|]. by rewrite (proj2 (Z.eqb_neq _ _)) by (cbn; lia).
  - destruct (sum_fold truncate a c Harg rs vs _ _ (or_intror Hf) A Fs) as (ns & F2 & Es & Ec). exists ns. split; [done|].
    cbn [finalize]. rewrite Es, Ec. cbn [agg_init st_sum st_count]. rewrite !Z.add_0_l. destruct ns; [done|].
    by rewrite (proj2 (Z.eqb_neq _ _)) by (cbn; lia).
  - pose proof (min_fold truncate a c Harg V rs vs _ _ Hf O Hv A Fs ltac:(done)) as E.
    cbn [st_min agg_init] in E. unfold finalize. rewrite E. by apply (least_value V).
  - pose proof (max_fold truncate a c Harg V rs vs _ _ Hf O Hv A Fs ltac:(done)) as E.
    cbn [st_max agg_init] in E. unfold finalize. rewrite E. by apply (greatest_value V).
Qed.

(** COUNT( * ) over a table scan outside a transaction, or in one that has not
    written the table, is answered from the materialised scan without building
    records, and gives the record the streaming aggregation gives: the number
    of rows visible at the statement's snapshot. *)
Theorem count_star_fast_path {Q : Type} (session : option Session)
    (subq : option (Q -> Record_ -> bool -> res (list Value))) (t t' : TableView) (alias : bytes)
    (aggs : list AggregateExpr) (items : list SelectItem) (having : option (BoolExpr Q)) (rows : list Row) :
  count_fast_path session aggs having (SeqScanPlan t alias : PlanNode Q) = Some t' ->
  tv_stream t (scan_ts session) = (rows, Ok tt) -> tv_scan t (scan_ts session) = Ok rows ->
  run (execute_plan session subq (AggregatePlan (SeqScanPlan t alias) [] aggs items having HashStrategy)) =
  run (execute_global_aggregate aggs items having (execute_plan session subq (SeqScanPlan t alias))) /\
  run (execute_global_aggregate aggs items having (execute_plan session subq (SeqScanPlan t alias))) =
  run (emit_group true aggs items having None
         (map (fun _ => mkAggState (Z.of_nat (length rows)) 0 None None) aggs)).
Proof.
  intros C St Sc. assert (run (execute_global_aggregate aggs items having (execute_plan session subq (SeqScanPlan t alias)))
    = run (emit_group true aggs items having None (map (fun _ => mkAggState (Z.of_nat (length rows)) 0 None None) aggs))) as G.
  { unfold count_fast_path in C. destruct (all_count_star aggs having && negb (track_reads session) && _) eqn:E; [|done].
    apply andb_prop in E as [E Hb]. apply andb_prop in E as [E _]. unfold all_count_star in E. apply andb_prop in E as [_ E].
    unfold execute_global_aggregate. erewrite run_bind; last first.
    - eapply global_states; [by apply plain_scan|]. apply (count_star_fold aggs _ E 0).
    - rewrite length_map. by destruct (run _). }
  split; [|done]. rewrite G. cbn [execute_plan]. rewrite C. unfold count_fast_path in C.
  destruct (all_count_star aggs having && negb (track_reads session) && _) eqn:E; [|done]. injection C as <-.
  unfold execute_count_star. rewrite Sc. erewrite run_bind_glift by reflexivity. unfold emit_group.
  destruct (group_columns _ _ _ _) as [cs|w|w]; [|done..].
  unfold all_count_star in E. by destruct having; [rewrite andb_false_r in E|].
Qed.

(** * Examples *)

Definition ex_table : TableView :=
  list_view (str "t") [int_column "g" false; int_column "x" false] (map int_row [[1; 10]; [1; 30]; [2; 5]; [3; 7]; [3; 9]]).
Definition ex_scan : PlanNode unit := SeqScanPlan ex_table [].
Definition ex_aggs : list AggregateExpr := [mkAgg Sum (Some (col "t" "x")); mkAgg Max (Some (col "t" "x"))].
Definition ex_items : list SelectItem := map (fun a => mkItem (SelAgg a) None) ex_aggs.
Definition ex_key (r : Record_) : list Value := take 1 (rec_values r).
Definition ex_recs : list Record_ := (run (execute_plan None None ex_scan)).1.

Lemma sort_aggregate_is_hash_aggregate_witness :
  run (execute_plan None None (AggregatePlan ex_scan [col "t" "g"] ex_aggs ex_items None SortStrategy)) =
  run (execute_plan None None (AggregatePlan ex_scan [col "t" "g"] ex_aggs ex_items None HashStrategy)).
Proof.
  destruct (sort_aggregate_is_hash_aggregate None None ex_scan [col "t" "g"] ex_aggs ex_items None ex_key ex_recs
    [([VInt 1], take 2 ex_recs); ([VInt 2], take 1 (drop 2 ex_recs)); ([VInt 3], drop 3 ex_recs)]) as [-> ->]; [..|reflexivity].
  - done.
  - reflexivity.
  - intros r. apply (proj1 (Forall_forall (fun r => group_key [col "t" "g"] r = Ok (ex_key r) /\ Forall key_ok (ex_key r)) _)).
    repeat (apply Forall_cons; split; [split; [vm_compute; reflexivity|apply Forall_singleton; exact I]|]). apply Forall_nil_2.
  - apply foldable_records. repeat (apply Forall_cons; split; [eexists; vm_compute; reflexivity|]). apply Forall_nil_2.
  - split; [reflexivity|]. split; [apply (bool_decide_unpack _); vm_compute; exact I|].
    repeat (apply Forall_cons; split; [split; [done|apply (bool_decide_unpack _); vm_compute; exact I]|]). apply Forall_nil_2.
  - by left.
Defined.

Lemma aggregate_values_correct_witness :
  exists sts st, fold_states true ex_aggs ex_recs (initial_states ex_aggs) = Ok sts /\ sts !! 1%nat = Some st /\
    (finalize st Max ∈ nonnull (map VInt [10; 30; 5; 7; 9]) /\
     Forall (fun v => order_of v (finalize st Max) <= 0) (nonnull (map VInt [10; 30; 5; 7; 9]))).
Proof.
  eexists. destruct (aggregate_values_correct true ex_aggs ex_recs _ 1 (mkAgg Max (Some (col "t" "x"))) (col "t" "x")
    (map VInt [10; 30; 5; 7; 9]) num_value eq_refl eq_refl eq_refl) as (st & E & H).
  - repeat (apply Forall2_cons; split; [vm_compute; reflexivity|]). apply Forall2_nil_2.
  - exact num_ordered.
  - apply (bool_decide_unpack _). vm_compute. exact I.
  - exists st. split; [reflexivity|]. split; [exact E|]. by destruct H as [[? _]|H].
Defined.

Lemma count_star_fast_path_witness :
  run (execute_plan None None (AggregatePlan ex_scan [] [mkAgg Count None] [mkItem (SelAgg (mkAgg Count None)) None] None HashStrategy)) =
  run (execute_global_aggregate [mkAgg Count None] [mkItem (SelAgg (mkAgg Count None)) None] (None : option (BoolExpr unit)) (execute_plan None None ex_scan)).
Proof.
  apply (count_star_fast_path (Q := unit) None None ex_table ex_table [] [mkAgg Count None]
           [mkItem (SelAgg (mkAgg Count None)) None] None (map int_row [[1; 10]; [1; 30]; [2; 5]; [3; 7]; [3; 9]]));
    reflexivity.
Defined.
