(* ===== verification/Tables.v ===== *)
(** Tables with their secondary indexes and the catalog, [src/storage/table.cpp]
    and [include/corodb/storage/table.h], over the storage interface of
    [include/corodb/storage/storage_engine_base.h].

    A table with storage keeps its rows in the engine; one without keeps them in
    [t_rows].  An index is an ordered multimap from column values (for a
    composite index, from an encoding of several values) to primary keys; it
    only grows, and a reader checks each candidate against the visible row.

    Statistics, [index_min_max] and the like, which only feed the optimizer's
    estimates, and the metrics counters are left out. *)
From Stdlib Require Import ZArith Lia Strings.Byte.
From stdpp Require Import base numbers list gmap strings.
From S2P Require Import Prelude Values Codec Wal Sst Store Manifest Mvcc Engine Session Query.
Local Open Scope Z_scope.

(** * The storage interface *)

Class StorageEngine (S : Type) := {
  se_table_exists : bytes -> S -> bool;
  se_create_table : bytes -> list Column -> ST S unit;
  se_load_schema : bytes -> ST S (list Column);
  se_append_row : bytes -> list Column -> Row -> Z -> ST S unit;
  se_delete_row_by_key : bytes -> list Column -> Value -> Z -> ST S unit;
  se_rewrite_table : bytes -> list Column -> list Row -> ST S unit;
  se_lookup_visible : bytes -> list Column -> Value -> Z -> ST S (option Row);
  se_scan_visible : bytes -> list Column -> Z -> ST S (list Row);
  se_scan_visible_stream : bytes -> list Column -> Z -> ST S (list Row);
  se_mark_committed : Z -> ST S unit;
  se_list_indexes : bytes -> S -> list bytes;
  se_create_index_file : bytes -> bytes -> ST S unit;
  se_write_index_rows : bytes -> bytes -> list (Value * Value) -> ST S unit;
  se_append_index_entry : bytes -> bytes -> Value -> Value -> ST S unit;
  se_load_index_rows : bytes -> bytes -> S -> res (list (Value * Value));
  se_drop_index : bytes -> bytes -> ST S bool;
  se_save_index_registry : bytes -> list (bytes * bytes) -> ST S unit;
  se_load_index_registry : bytes -> S -> gmap bytes bytes
}.

(** The LSM engine implements the interface. *)
#[export] Instance lsm_engine {F : Type} `{SstStore F} : StorageEngine (Engine F) := {
  se_table_exists := table_exists;
  se_create_table := create_table;
  se_load_schema := load_schema;
  se_append_row := append_row;
  se_delete_row_by_key name _ key ts := delete_row_by_key name key ts;
  se_rewrite_table := rewrite_table;
  se_lookup_visible := lookup_visible;
  se_scan_visible := scan_visible;
  se_scan_visible_stream := scan_visible_stream;
  se_mark_committed := mark_committed;
  se_list_indexes := list_indexes;
  se_create_index_file := create_index_file;
  se_write_index_rows := write_index_rows;
  se_append_index_entry := append_index_entry;
  se_load_index_rows := load_index_rows;
  se_drop_index := Engine.drop_index;
  se_save_index_registry := save_index_registry;
  se_load_index_registry := load_index_registry
}.

(** * Ordered multimaps *)

Abbreviation index_t := (list (Value * Value)).

(** [emplace] puts an entry behind those with an equal key. *)
Fixpoint mm_emplace (k v : Value) (m : index_t) : index_t :=
  match m with
  | [] => [(k, v)]
  | (k', v') :: m' => if ValueLess k k' then (k, v) :: m else (k', v') :: mm_emplace k v m'
  end.

(** The positions that [lower_bound] and [upper_bound] return. *)
Fixpoint mm_lower (k : Value) (m : index_t) : nat :=
  match m with
  | [] => O
  | (k', _) :: m => if ValueLess k' k then S (mm_lower k m) else O
  end.
Fixpoint mm_upper (k : Value) (m : index_t) : nat :=
  match m with
  | [] => O
  | (k', _) :: m => if ValueLess k k' then O else S (mm_upper k m)
  end.

(** The entries from one position to another.  An iterator that starts behind
    its end runs past the end of the map. *)
Definition mm_between (b e : nat) (m : index_t) : res index_t :=
  if (b <=? e)%nat then Ok (take (e - b) (drop b m)) else UB "iterator past the end".

(** The primary keys of entries, each once. *)
Definition distinct_pks (es : index_t) : list Value := foldl (fun out e => vadd e.2 out) [] es.

(** * Tables *)

Record Table := mkTbl {
  t_name : bytes;
  t_columns : list Column;
  t_rows : list Row;
  write_counter : Z;
  has_storage : bool;
  loaded_from_storage : bool;
  newly_created : bool;
  indexed_columns : list bytes;                (* a set *)
  indexes : gmap bytes index_t;
  index_name_registry : gmap bytes bytes;
  composite_indexes : gmap bytes (list bytes);
  rows_since_analyze : Z
}.

Definition set_rows (x : list Row) (t : Table) : Table :=
  mkTbl (t_name t) (t_columns t) x (write_counter t) (has_storage t) (loaded_from_storage t) (newly_created t)
    (indexed_columns t) (indexes t) (index_name_registry t) (composite_indexes t) (rows_since_analyze t).
Definition set_indexes (x : gmap bytes index_t) (t : Table) : Table :=
  mkTbl (t_name t) (t_columns t) (t_rows t) (write_counter t) (has_storage t) (loaded_from_storage t) (newly_created t)
    (indexed_columns t) x (index_name_registry t) (composite_indexes t) (rows_since_analyze t).
Definition set_registry (x : gmap bytes bytes) (t : Table) : Table :=
  mkTbl (t_name t) (t_columns t) (t_rows t) (write_counter t) (has_storage t) (loaded_from_storage t) (newly_created t)
    (indexed_columns t) (indexes t) x (composite_indexes t) (rows_since_analyze t).
Definition set_indexed (x : list bytes) (y : gmap bytes (list bytes)) (t : Table) : Table :=
  mkTbl (t_name t) (t_columns t) (t_rows t) (write_counter t) (has_storage t) (loaded_from_storage t) (newly_created t)
    x (indexes t) (index_name_registry t) y (rows_since_analyze t).

(** [bump_write_counter] and [note_rows_written]. *)
Definition bump (n : Z) (t : Table) : Table :=
  mkTbl (t_name t) (t_columns t) (t_rows t) (u64 (write_counter t + 1)) (has_storage t) (loaded_from_storage t)
    (newly_created t) (indexed_columns t) (indexes t) (index_name_registry t) (composite_indexes t)
    (u64 (rows_since_analyze t + n)).

Definition put_entry (index : bytes) (k v : Value) (t : Table) : Table :=
  set_indexes (<[index := mm_emplace k v (default [] (indexes t !! index))]> (indexes t)) t.

Definition tbl_key (t : Table) (r : Row) : Value := extract_key r (t_columns t).
Definition tbl_column (t : Table) (name : bytes) : option nat := column_index (t_columns t) name.

(** [encode_composite]: the values behind their type tags. *)
Definition composite_cell (v : Value) : bytes :=
  match v with
  | VNull => [x00]
  | VInt n => x01 :: le_enc 8 n
  | VDouble d => x02 :: le_enc 8 d
  | VText s => x03 :: le_enc 4 (u32 (blen s)) ++ s
  end.
Definition encode_composite (vals : list Value) : Value := VText (concat (map composite_cell vals)).

(** The values of a row in the given columns. *)
Definition cells (cis : list nat) (r : Row) : option (list Value) := mapM (fun ci => values r !! ci) cis.

Section Operations.
Context {S : Type} `{StorageEngine S}.

Abbreviation TBL := (ST (Table * S)).
Definition on_storage {A} (m : ST S A) : TBL A := fun ts => let (s', a) := m ts.2 in ((ts.1, s'), a).
Definition on_table (f : Table -> Table) : TBL unit := modify (fun ts => (f ts.1, ts.2)).
Definition the_table : TBL Table := gets fst.

Fixpoint tfor {X A} (l : list A) (f : A -> ST X unit) : ST X unit :=
  match l with
  | [] => mret tt
  | a :: l => _ ← f a; tfor l f
  end.

(** ** Index maintenance *)

(** [storage_ ? storage_->f : nothing] *)
Definition stored (m : ST S unit) : TBL unit :=
  t ← the_table; if has_storage t then on_storage m else mret tt.

Definition index_column_entry (row : Row) (pk : Value) (col : bytes) : TBL unit :=
  t ← the_table;
  match tbl_column t col ≫= fun ci => values row !! ci with
  | None => mret tt
  | Some v => _ ← on_table (put_entry col v pk); stored (se_append_index_entry (t_name t) col v pk)
  end.

Definition index_composite_entry (row : Row) (pk : Value) (def : bytes * list bytes) : TBL unit :=
  t ← the_table;
  match mapM (tbl_column t) def.2 ≫= fun cis => cells cis row with
  | None => mret tt
  | Some vs =>
      let ckey := encode_composite vs in
      _ ← on_table (put_entry def.1 ckey pk); stored (se_append_index_entry (t_name t) def.1 ckey pk)
  end.

Definition index_row (row : Row) : TBL unit :=
  t ← the_table;
  if bool_decide (indexed_columns t = []) && bool_decide (composite_indexes t = ∅) then mret tt else
  if bool_decide (values row = []) then mret tt else
  let pk := tbl_key t row in
  _ ← tfor (indexed_columns t) (index_column_entry row pk);
  tfor (map_to_list (composite_indexes t)) (index_composite_entry row pk).

(** The rows an index is built from: the newest ones. *)
Definition source_rows : TBL (list Row) :=
  t ← the_table;
  if has_storage t then on_storage (se_scan_visible (t_name t) (t_columns t) UINT64_MAX) else mret (t_rows t).

Definition rebuild (index : bytes) (key_of_row : Row -> option Value) : TBL unit :=
  t ← the_table;
  _ ← on_table (fun t => set_indexes (<[index := []]> (indexes t)) t);
  src ← source_rows;
  let entries := omap (fun row => if bool_decide (values row = []) then None
                                  else (fun v => (v, tbl_key t row)) <$> key_of_row row) src in
  _ ← on_table (fun t => set_indexes (<[index := foldl (fun m e => mm_emplace e.1 e.2 m) [] entries]> (indexes t)) t);
  stored (se_write_index_rows (t_name t) index entries).

Definition rebuild_index_for_column (column : bytes) (col_idx : nat) : TBL unit :=
  rebuild column (fun row => values row !! col_idx).
Definition rebuild_composite_index (index_name : bytes) (col_idxs : list nat) : TBL unit :=
  rebuild index_name (fun row => encode_composite <$> cells col_idxs row).

(** ** Construction *)

(** The columns get identifiers that follow the table's. *)
Fixpoint assign_oids (table_oid next : Z) (cols : list Column) : list Column :=
  match cols with
  | [] => []
  | c :: cols => mkColumn (col_table c) (col_name c) (col_type c) next table_oid (not_null c) (primary_key c)
                 :: assign_oids table_oid (next + 1) cols
  end.

Definition blank_table (name : bytes) (columns : list Column) (storage : bool) : Table :=
  mkTbl name columns [] 0 storage false false [] ∅ ∅ ∅ 0.

Definition set_origin (cols : list Column) (loaded created : bool) (t : Table) : Table :=
  mkTbl (t_name t) cols (t_rows t) (write_counter t) (has_storage t) loaded created
    (indexed_columns t) (indexes t) (index_name_registry t) (composite_indexes t) (rows_since_analyze t).

(** [catch (const std::exception&)] catches what is thrown; the state reached stays. *)
Definition try_catch {X A} (m handler : ST X A) : ST X A := fun x =>
  match m x with
  | (x', Throw _) => handler x'
  | r => r
  end.

Definition open_table : TBL unit :=
  t ← the_table;
  let create (loaded : bool) :=
    _ ← on_storage (se_create_table (t_name t) (t_columns t));
    on_table (fun t => set_origin (t_columns t) loaded true t) in
  ex ← gets (fun ts : Table * S => se_table_exists (t_name t) ts.2);
  if (ex : bool) then
    try_catch
      (_ ← on_table (fun t => set_origin (t_columns t) true (newly_created t) t);
       disk ← on_storage (se_load_schema (t_name t));
       match disk with
       | [] => mret tt
       | _ => on_table (fun t => set_origin disk (loaded_from_storage t) (newly_created t) t)
       end)
      (create true)
  else create false.

Definition load_index (index : bytes) : TBL unit :=
  t ← the_table;
  entries ← (fun ts : Table * S => (ts, se_load_index_rows (t_name t) index ts.2));
  on_table (fun t => set_indexes (<[index := foldl (fun m e => mm_emplace e.1 e.2 m) [] entries]> (indexes t)) t).

Definition set_insert (x : bytes) (l : list bytes) : list bytes := if bool_decide (x ∈ l) then l else l ++ [x].

Definition load_column_index (col : bytes) : TBL unit :=
  t ← the_table;
  match tbl_column t col with
  | None => mret tt
  | Some _ =>
      _ ← on_table (fun t => set_indexed (set_insert col (indexed_columns t)) (composite_indexes t) t);
      load_index col
  end.

(** The parts of a definition between the separators [\x1f]; a last empty part is dropped. *)
Fixpoint split_def (cur : bytes) (s : bytes) : list bytes :=
  match s with
  | [] => match cur with [] => [] | _ => [cur] end
  | c :: s => if decide (c = x1f) then cur :: split_def [] s else split_def (cur ++ [c]) s
  end.

Definition load_composite (idef : bytes * bytes) : TBL unit :=
  if bool_decide (x1f ∈ idef.2) then
    _ ← on_table (fun t => set_indexed (indexed_columns t)
                             (<[idef.1 := split_def [] idef.2]> (composite_indexes t)) t);
    load_index idef.1
  else mret tt.

(** The constructor, on the state with a blank table. *)
Definition init_table : TBL unit :=
  t ← the_table;
  if negb (has_storage t) then on_table (fun t => set_origin (t_columns t) false true t) else
  _ ← open_table;
  persisted ← gets (fun ts : Table * S => se_list_indexes (t_name t) ts.2);
  _ ← tfor persisted load_column_index;
  registry ← gets (fun ts : Table * S => se_load_index_registry (t_name t) ts.2);
  _ ← on_table (set_registry registry);
  tfor (map_to_list registry) load_composite.

Definition construct (oid : Z) (name : bytes) (columns : list Column) (storage : bool) (s : S) : S * res Table :=
  match init_table (blank_table name (assign_oids oid (oid + 1) columns) storage, s) with
  | (ts, Ok _) => (ts.2, Ok ts.1)
  | (ts, Throw w) => (ts.2, Throw w)
  | (ts, UB w) => (ts.2, UB w)
  end.

(** ** Writing *)

(** A full-width row, persisted or kept, then indexed. *)
Definition insert (row : Row) : TBL unit :=
  t ← the_table;
  if negb (length (values row) =? length (t_columns t))%nat then lift (Throw "[Table] Row width does not match table schema")
  else
  _ ← (if has_storage t then
         _ ← on_storage (se_append_row (t_name t) (t_columns t) row 0); index_row row
       else
         _ ← on_table (fun t => set_rows (t_rows t ++ [row]) t); index_row row);
  on_table (bump 1).

(** [append_rows] of the base class appends one by one. *)
Definition se_append_rows (name : bytes) (cols : list Column) (rows : list Row) (ts : Z) : ST S unit :=
  tfor rows (fun r => se_append_row name cols r ts).

Definition insert_batch (rows : list Row) (commit_ts : Z) : TBL unit :=
  match rows with
  | [] => mret tt
  | _ =>
    t ← the_table;
    if negb (forallb (fun r => (length (values r) =? length (t_columns t))%nat) rows)
    then lift (Throw "[Table] Row width does not match table schema")
    else
    _ ← (if has_storage t then
           _ ← on_storage (se_append_rows (t_name t) (t_columns t) rows commit_ts); tfor rows index_row
         else
           _ ← on_table (fun t => set_rows (t_rows t ++ rows) t); tfor rows index_row);
    on_table (bump (Z.of_nat (length rows)))
  end.

Definition rewrite_all : TBL unit :=
  t ← the_table;
  if negb (has_storage t) then mret tt else
  src ← on_storage (se_scan_visible (t_name t) (t_columns t) UINT64_MAX);
  _ ← on_storage (se_rewrite_table (t_name t) (t_columns t) src);
  tfor (indexed_columns t) (fun col => match tbl_column t col with
                                      | Some ci => rebuild_index_for_column col ci
                                      | None => mret tt
                                      end).

Definition persist_row_upsert (row : Row) (commit_ts : Z) : TBL unit :=
  t ← the_table;
  if negb (has_storage t) then mret tt else
  _ ← on_storage (se_append_row (t_name t) (t_columns t) row commit_ts);
  _ ← index_row row;
  on_table (bump 1).

Definition persist_row_delete (key : Value) (commit_ts : Z) : TBL unit :=
  t ← the_table;
  if negb (has_storage t) then mret tt else
  _ ← on_storage (se_delete_row_by_key (t_name t) (t_columns t) key commit_ts);
  on_table (bump 1).

(** ** Reading *)

Definition tbl_scan_visible (snapshot_ts : Z) : TBL (list Row) :=
  t ← the_table;
  if has_storage t then on_storage (se_scan_visible (t_name t) (t_columns t) snapshot_ts) else mret (t_rows t).

Definition tbl_scan_visible_stream (snapshot_ts : Z) : TBL (list Row) :=
  t ← the_table;
  if has_storage t then on_storage (se_scan_visible_stream (t_name t) (t_columns t) snapshot_ts) else mret (t_rows t).

Definition tbl_lookup_visible (pk : Value) (snapshot_ts : Z) : TBL (option Row) :=
  t ← the_table;
  if has_storage t then on_storage (se_lookup_visible (t_name t) (t_columns t) pk snapshot_ts)
  else mret (List.find (fun r => negb (bool_decide (values r = [])) && ValueEq (tbl_key t r) pk) (t_rows t)).

(** ** Creating and dropping indexes *)

Fixpoint join_def (cols : list bytes) : bytes :=
  match cols with
  | [] => []
  | [c] => c
  | c :: cols => c ++ x1f :: join_def cols
  end.

Definition register_name (index_name def : bytes) : TBL unit :=
  if bool_decide (index_name = []) then mret tt
  else on_table (fun t => set_registry (<[index_name := def]> (index_name_registry t)) t).

Definition create_single (column : bytes) (ci : nat) : TBL unit :=
  t ← the_table;
  if bool_decide (column ∈ indexed_columns t) then mret tt else
  _ ← stored (se_create_index_file (t_name t) column);
  _ ← on_table (fun t => set_indexed (set_insert column (indexed_columns t)) (composite_indexes t) t);
  rebuild_index_for_column column ci.

Definition create_composite (index_name : bytes) (columns : list bytes) (cis : list nat) : TBL unit :=
  t ← the_table;
  if bool_decide (is_Some (composite_indexes t !! index_name)) then mret tt else
  _ ← on_table (fun t => set_indexed (indexed_columns t) (<[index_name := columns]> (composite_indexes t)) t);
  _ ← stored (se_create_index_file (t_name t) index_name);
  rebuild_composite_index index_name cis.

Definition create_index (index_name : bytes) (columns : list bytes) : TBL unit :=
  match columns with
  | [] => mret tt
  | column :: more =>
    t ← the_table;
    match mapM (tbl_column t) columns with
    | None => lift (Throw "[Table] Unknown column")
    | Some cis =>
      _ ← (match more with
           | [] => _ ← create_single column (default O (head cis)); register_name index_name column
           | _ => _ ← create_composite index_name columns cis; register_name index_name (join_def columns)
           end);
      t ← the_table;
      if bool_decide (index_name = []) then mret tt
      else stored (se_save_index_registry (t_name t) (map_to_list (index_name_registry t)))
    end
  end.

(** A single column's index with a name made up from it. *)
Definition create_index_on (column : bytes) : TBL unit :=
  t ← the_table; create_index (str "idx_" ++ t_name t ++ str "_" ++ column) [column].

Definition drop_index (index_name : bytes) : TBL bool :=
  t ← the_table;
  let column := default index_name (index_name_registry t !! index_name) in
  if negb (bool_decide (column ∈ indexed_columns t)) then mret false else
  _ ← on_table (fun t => set_registry (delete index_name (index_name_registry t))
                         (set_indexes (delete column (indexes t))
                           (set_indexed (List.filter (fun c => negb (bool_decide (c = column))) (indexed_columns t))
                              (composite_indexes t) t)));
  t ← the_table;
  _ ← (if has_storage t then
         _ ← on_storage (se_drop_index (t_name t) column);
         on_storage (se_save_index_registry (t_name t) (map_to_list (index_name_registry t)))
       else mret tt);
  mret true.

End Operations.

(** ** Looking up indexes *)

Definition has_index (column : bytes) (t : Table) : bool := bool_decide (column ∈ indexed_columns t).

Definition lookup_index (index : bytes) (key : Value) (t : Table) : list Value :=
  match indexes t !! index with
  | None => []
  | Some m => distinct_pks (take (mm_upper key m - mm_lower key m) (drop (mm_lower key m) m))
  end.

Definition lookup_index_range (column : bytes) (low : option Value) (low_inclusive : bool)
    (high : option Value) (high_inclusive : bool) (t : Table) : res (list Value) :=
  match indexes t !! column with
  | None => Ok []
  | Some m =>
      let b := match low with Some l => if low_inclusive then mm_lower l m else mm_upper l m | None => O end in
      let e := match high with Some h => if high_inclusive then mm_upper h m else mm_lower h m | None => length m end in
      es ← mm_between b e m; Ok (distinct_pks es)
  end.

Definition lookup_index_composite (index_name : bytes) (key_values : list Value) (t : Table) : list Value :=
  lookup_index index_name (encode_composite key_values) t.

(** * Catalog *)

(** The catalog shares tables with plans and sessions; a table object is known
    by its identifier here, and the objects are kept beside the catalog. *)
Record Catalog := mkCatalog { tables_by_name : gmap bytes Z; tables_by_oid : gset Z }.
Definition empty_catalog : Catalog := mkCatalog ∅ ∅.

Definition register_table (oid : Z) (name : bytes) (c : Catalog) : Catalog :=
  mkCatalog (<[name := oid]> (tables_by_name c)) ({[oid]} ∪ tables_by_oid c).

Definition unregister_table (name : bytes) (c : Catalog) : Catalog * bool :=
  match tables_by_name c !! name with
  | Some oid => (mkCatalog (delete name (tables_by_name c)) (tables_by_oid c ∖ {[oid]}), true)
  | None => (c, false)
  end.

Definition catalog_lookup (name : bytes) (c : Catalog) : option Z := tables_by_name c !! name.
Definition catalog_lookup_oid (oid : Z) (c : Catalog) : option Z :=
  if decide (oid ∈ tables_by_oid c) then Some oid else None.
Definition catalog_contains (name : bytes) (c : Catalog) : bool := bool_decide (is_Some (tables_by_name c !! name)).
Definition table_names (c : Catalog) : list bytes := (map_to_list (tables_by_name c)).*1.
Definition catalog_size (c : Catalog) : nat := size (tables_by_name c).
Definition catalog_empty (c : Catalog) : bool := bool_decide (tables_by_name c = ∅).
Definition catalog_clear (c : Catalog) : Catalog := empty_catalog.
