(* ===== verification/Storage.v ===== *)
(** What the storage interface of [Tables] promises, and that the LSM engine
    keeps the promise.

    A table is described by a view: the row visible for each snapshot and key.
    Reads return what the view says; a write with a timestamp above those the
    key already has changes the view from that timestamp on, and leaves every
    other table alone. *)
From Stdlib Require Import ZArith Lia.
From stdpp Require Import base numbers list gmap strings.
From S2P Require Import Prelude Values Codec Wal Sst Store Manifest Mvcc Engine EngineReads EngineWrites.
From S2P Require Import Session Query Tables.
Local Open Scope Z_scope.

(** * Views *)

Definition view : Type := Z -> Value -> option Row.

(** The view after [k] is set to [r], or deleted, at time [ts]. *)
Definition view_write (v : view) (ts : Z) (k : Value) (r : option Row) : view :=
  fun s k' => if bool_decide (k' = k) && (ts <=? s) then r else v s k'.

(** A bound on the timestamps of each key, raised by a write. *)
Definition newest_write (hi : Value -> Z) (ts : Z) (k : Value) : Value -> Z :=
  fun k' => if bool_decide (k' = k) then ts else hi k'.

(** The rows a view shows at a snapshot. *)
Definition view_rows (cols : list Column) (v : view) (s : Z) (rows : list Row) : Prop :=
  NoDup (map (fun r => extract_key r cols) rows) /\
  forall r, r ∈ rows <-> values r <> [] /\ key_ok (extract_key r cols) /\ v s (extract_key r cols) = Some r.

(** What a write takes of the room that is left before a flush. *)
Definition write_cost (r : Row) : Z := 1 + blen (encode_row r).

(** * The promise *)

(** [shown s name cols hi v]: the table shows [v], no version of a key [k] is
    newer than [hi k].  [room s name cols n]: writes of total cost [n] fit. *)
Class StoragePreds (S : Type) := {
  shown : S -> bytes -> list Column -> (Value -> Z) -> view -> Prop;
  room : S -> bytes -> list Column -> Z -> Prop
}.

Section Keeps.
Context {S : Type} `{StoragePreds S}.

Definition keeps (name : bytes) (s s' : S) : Prop :=
  forall cols, (forall hi v, shown s name cols hi v -> shown s' name cols hi v) /\
               (forall n, room s name cols n -> room s' name cols n).

(** An operation that succeeds and changes no table. *)
Definition quiet {A} (m : ST S A) : Prop :=
  forall s, exists s' a, m s = (s', Ok a) /\ forall name, keeps name s s'.

Lemma keeps_refl name s : keeps name s s.
Proof. intros cols. auto. Qed.
Lemma keeps_trans name s1 s2 s3 : keeps name s1 s2 -> keeps name s2 s3 -> keeps name s1 s3.
Proof. intros K1 K2 cols. destruct (K1 cols), (K2 cols). split; auto. Qed.

End Keeps.

Class StorageLaws (S : Type) `{StorageEngine S, StoragePreds S} := {
  shown_key s name cols hi v t k r : shown s name cols hi v -> key_ok k -> v t k = Some r -> extract_key r cols = k;
  shown_weaken s name cols hi hi' v v' : (forall k, hi k <= hi' k) -> (forall t k, key_ok k -> v t k = v' t k) ->
    shown s name cols hi v -> shown s name cols hi' v';
  shown_newest s name cols hi v t k : shown s name cols hi v -> key_ok k -> hi k <= t <= UINT64_MAX -> v t k = v UINT64_MAX k;
  room_less s name cols n n' : 0 <= n' <= n -> room s name cols n -> room s name cols n';
  law_lookup s name cols hi v k t : shown s name cols hi v -> key_ok k ->
    exists s', se_lookup_visible name cols k t s = (s', Ok (v t k)) /\ forall name', keeps name' s s';
  law_scan s name cols hi v t : shown s name cols hi v ->
    exists s' rows, se_scan_visible name cols t s = (s', Ok rows) /\ view_rows cols v t rows /\ forall name', keeps name' s s';
  law_stream s name cols hi v t : shown s name cols hi v ->
    exists s' rows, se_scan_visible_stream name cols t s = (s', Ok rows) /\ view_rows cols v t rows /\
      forall name', keeps name' s s';
  law_append s name cols hi v r t n : shown s name cols hi v -> key_ok (extract_key r cols) ->
    hi (extract_key r cols) < t <= UINT64_MAX -> 0 <= t -> write_cost r <= n -> room s name cols n ->
    exists s', se_append_row name cols r t s = (s', Ok tt) /\
      shown s' name cols (newest_write hi t (extract_key r cols)) (view_write v t (extract_key r cols) (Some r)) /\
      room s' name cols (n - write_cost r) /\ forall name', name' <> name -> keeps name' s s';
  law_delete s name cols hi v k t n : shown s name cols hi v -> key_ok k -> hi k < t <= UINT64_MAX -> 0 <= t ->
    1 <= n -> room s name cols n ->
    exists s', se_delete_row_by_key name cols k t s = (s', Ok tt) /\
      shown s' name cols (newest_write hi t k) (view_write v t k None) /\
      room s' name cols (n - 1) /\ forall name', name' <> name -> keeps name' s s';
  law_mark t : quiet (se_mark_committed t);
  law_index_create name c : quiet (se_create_index_file name c);
  law_index_write name c es : quiet (se_write_index_rows name c es);
  law_index_append name c v k : quiet (se_append_index_entry name c v k);
  law_index_drop name c : quiet (se_drop_index name c);
  law_registry_save name reg : quiet (se_save_index_registry name reg)
}.

(** * The LSM engine *)

Section Lsm.
Context {F : Type} `{SstLaws F}.
Implicit Types (e : Engine F) (st : TableState).

Definition same_table (name : bytes) e e' : Prop :=
  states e' !! name = states e !! name /\ cfg e' = cfg e /\
  (forall l, files e' !! (name, l) = files e !! (name, l)) /\
  (forall l, footers e' !! (name, l) = footers e !! (name, l)).

Lemma same_table_refl name e : same_table name e e.
Proof. done. Qed.
Lemma same_table_trans name e1 e2 e3 : same_table name e1 e2 -> same_table name e2 e3 -> same_table name e1 e3.
Proof. intros (A1 & A2 & A3 & A4) (B1 & B2 & B3 & B4). split_and!; congruence. Qed.

Lemma same_table_visited name e e' :
  same_table name e e' -> is_Some (files e !! (name, 0%nat)) -> visited name e' = visited name e.
Proof.
  intros (_ & _ & Ef & _) [f Hf]. destruct (prefix_exists e name f Hf) as (fs & [P M]).
  rewrite (visited_prefix e name (f :: fs)) by done. apply visited_prefix; [done|].
  split; [intros i g Hg; rewrite Ef; by apply P|by rewrite Ef].
Qed.

Lemma same_table_ok name e e' cols st ls :
  same_table name e e' -> is_Some (files e !! (name, 0%nat)) -> table_ok e name cols st ls -> table_ok e' name cols st ls.
Proof.
  intros Sm H0' [S C M L]. pose proof Sm as (Es & _ & Ef & Et). split; [by rewrite Es|done|done|].
  rewrite (same_table_visited name e) by done. eapply Forall2_impl; [exact L|].
  intros lf es. by apply level_ok_frame.
Qed.

(** ** Operations on one table *)

Definition local_to (name : bytes) {A} (m : ST (Engine F) A) : Prop := forall e name', name' <> name -> same_table name' e (m e).1.
Definition local_to_none {A} (m : ST (Engine F) A) : Prop := forall e name', same_table name' e (m e).1.

Lemma none_local name {A} (m : ST (Engine F) A) : local_to_none m -> local_to name m.
Proof. intros L e name' _. apply L. Qed.

Lemma local_bind name {A B} (m : ST (Engine F) A) (f : A -> ST (Engine F) B) :
  local_to name m -> (forall a, local_to name (f a)) -> local_to name (m ≫= f).
Proof.
  intros L K e name' N. specialize (L e name' N). unfold mbind, st_bind. destruct (m e) as [e1 [a|w|w]]; [|done..].
  eapply same_table_trans; [exact L|by apply K].
Qed.

Lemma local_bind_none {A B} (m : ST (Engine F) A) (f : A -> ST (Engine F) B) :
  local_to_none m -> (forall a, local_to_none (f a)) -> local_to_none (m ≫= f).
Proof.
  intros L K e name'. specialize (L e name'). unfold mbind, st_bind. destruct (m e) as [e1 [a|w|w]]; [|done..].
  eapply same_table_trans; [exact L|apply K].
Qed.

Lemma local_ret {A} (a : A) : local_to_none (mret a).
Proof. done. Qed.
Lemma local_gets {A} (f : Engine F -> A) : local_to_none (gets f).
Proof. done. Qed.
Lemma local_lift {A} (r : res A) : local_to_none (lift r : ST (Engine F) A).
Proof. done. Qed.
Lemma local_wal f : local_to_none (modify (fun e => set_wal (f e) e)).
Proof. done. Qed.
Lemma local_sink r : local_to_none (sink r).
Proof. done. Qed.
Lemma local_manifest : local_to_none record_manifest.
Proof. done. Qed.
Lemma local_pending f : local_to_none (modify (fun e => set_pending (f e) e)).
Proof. done. Qed.
Lemma local_committed : local_to_none ensure_committed_loaded.
Proof. intros e name'. unfold ensure_committed_loaded, modify. cbn. repeat case_match; done. Qed.

Lemma local_put name (f : Engine F -> TableState) : local_to name (modify (fun e => put_state name (f e) e)).
Proof. intros e name' N. split_and!; try done. cbn. by rewrite lookup_insert_ne. Qed.

Lemma local_put_const name st : local_to name (modify (put_state name st)).
Proof. exact (local_put name (fun _ => st)). Qed.

Lemma local_get name : local_to name (get_or_create_state name).
Proof.
  intros e name' N. unfold get_or_create_state. destruct (states e !! name); [done|].
  split_and!; try done. cbn. by rewrite lookup_insert_ne.
Qed.

Lemma local_write_level name l cols es : local_to name (write_level name l cols es).
Proof.
  intros e name' N. split_and!; try done; intros l'; cbn.
  - rewrite lookup_insert_ne; [done|]. by intros [= <-].
  - rewrite lookup_delete_ne; [done|]. by intros [= <-].
Qed.

Lemma local_footer name l f : local_to name (get_footer_cached name l f).
Proof.
  intros e name' N. unfold get_footer_cached. destruct (footers e !! (name, l)); [done|].
  destruct (sst_load_footer f); try done. split_and!; try done. intros l'. cbn. rewrite lookup_insert_ne; [done|].
  by intros [= <-].
Qed.

Create HintDb local.
#[local] Hint Resolve none_local local_bind local_ret local_gets local_lift local_wal local_sink local_manifest local_pending
  local_committed local_put local_put_const local_get local_write_level local_footer : local.

(** Goes through the body of an operation. *)
Ltac local_body := repeat (intros; first
  [ solve [eauto with local]
  | match goal with
    | |- local_to _ (match ?x with _ => _ end) => destruct x
    | |- local_to _ (let _ := _ in _) => cbn zeta
    end
  | apply local_bind ]).

Lemma local_replay name cols st : local_to name (replay_log name cols st).
Proof.
  intros e name' N. unfold replay_log. destruct (replay _ _ _ _) as [m r]. split_and!; try done. cbn.
  by rewrite lookup_insert_ne.
Qed.

#[local] Hint Resolve local_replay : local.

Lemma local_load name : local_to name (load_state_locked name).
Proof. unfold load_state_locked. local_body. Qed.
#[local] Hint Resolve local_load : local.
Lemma local_loaded name : local_to name (loaded_state name).
Proof. unfold loaded_state. local_body. Qed.
Lemma local_read_level name l cols : local_to name (read_level name l cols).
Proof. unfold read_level. local_body. Qed.
#[local] Hint Resolve local_loaded local_read_level : local.
Lemma local_read_levels name cols ls : local_to name (read_levels name cols ls).
Proof. induction ls; cbn [read_levels]; local_body. Qed.
Lemma local_lookup_levels name cols k t ls : local_to name (lookup_levels name cols k t ls).
Proof. induction ls; cbn [lookup_levels]; local_body. Qed.
Lemma local_sources name cols ls : local_to name (stream_sources name cols ls).
Proof. induction ls; cbn [stream_sources]; local_body. Qed.
#[local] Hint Resolve local_read_levels local_lookup_levels local_sources : local.

Lemma local_lookup name cols k t : local_to name (lookup_visible name cols k t).
Proof. unfold lookup_visible. local_body. Qed.
Lemma local_scan name cols t : local_to name (scan_visible name cols t).
Proof. unfold scan_visible. local_body. Qed.
Lemma local_stream name cols t : local_to name (scan_visible_stream name cols t).
Proof. unfold scan_visible_stream. local_body. Qed.

Lemma local_put_version name en d ty p : local_to name (put_version name en d ty p).
Proof. unfold put_version. local_body. Qed.
#[local] Hint Resolve local_put_version : local.
Lemma local_take name : local_to name (take_memtable name).
Proof. unfold take_memtable. local_body. Qed.
#[local] Hint Resolve local_take : local.
Lemma local_append_locked name cols r t : local_to name (append_row_locked name cols r t).
Proof. unfold append_row_locked. local_body. Qed.
Lemma local_flush name cols m : local_to name (flush_memtable_internal name cols m true).
Proof. unfold flush_memtable_internal. local_body. Qed.
#[local] Hint Resolve local_append_locked local_flush : local.
Lemma local_append name cols r t : local_to name (append_row name cols r t).
Proof. unfold append_row, append_row_finish. local_body. Qed.
Lemma local_delete name k t : local_to name (delete_row_by_key name k t).
Proof. unfold delete_row_by_key. local_body. Qed.

(** ** The view of a table *)

(** A row is stored under its own key. *)
Definition well_keyed (cols : list Column) (x : MemEntry) : Prop :=
  tombstone x = false -> pk x = extract_key (row x) cols.

Lemma row_of_best cols s k es r :
  keys_ok es -> Forall (well_keyed cols) es -> key_ok k -> row_of (best s k es) = Some r -> extract_key r cols = k.
Proof.
  intros K W Hk E. destruct (best s k es) as [x|] eqn:B; [|done]. apply best_Some in B as (Hx & Ex & _). cbn in E.
  destruct (tombstone x) eqn:T; [done|]. injection E as <-. apply ValueEq_eq in Ex; [|by apply (keys_ok_elem es)|done].
  rewrite Forall_forall in W. rewrite <- Ex. symmetry. by apply W.
Qed.

Lemma elem_emit r b : r ∈ emit b -> row_of b = Some r.
Proof.
  unfold emit. destruct b as [y|]; [|by intros ?%elem_of_nil]. cbn. destruct (tombstone y); cbn; [by intros ?%elem_of_nil|].
  destruct (negb _); [by intros ->%list_elem_of_singleton|by intros ?%elem_of_nil].
Qed.

Lemma visible_view cols v s es :
  keys_ok es -> Forall (well_keyed cols) es -> (forall k, key_ok k -> row_of (best s k es) = v s k) ->
  view_rows cols v s (visible_rows s es).
Proof.
  intros K W V. split.
  - unfold visible_rows. pose proof (sorted_sorted_keys es K) as So. destruct (elem_sorted_keys es VNull K) as [_ Ks].
    induction So as [|k ks So IH Lt]; [constructor|]. apply Forall_cons in Ks as [Hk Ks]. cbn [map concat].
    rewrite map_app. assert (forall k' x, key_ok k' -> x ∈ map (fun r => extract_key r cols) (emit (best s k' es)) -> x = k') as E.
    { intros k' x Hk' Hx. apply list_elem_of_fmap in Hx as (r & -> & Hr%elem_emit). by apply (row_of_best cols s k' es). }
    apply NoDup_app. split_and!.
    + clear E. unfold emit. destruct (best s k es) as [y|]; [|constructor]. destruct (_ && _); [apply NoDup_singleton|constructor].
    + intros x Hx Hx'. apply (E k) in Hx as ->; [|done]. apply list_elem_of_fmap in Hx' as (r & Er & Hr).
      apply list_elem_of_In, in_concat in Hr as (l & (k' & <- & Hk')%in_map_iff & Hr%list_elem_of_In).
      apply list_elem_of_In in Hk'. rewrite Forall_forall in Lt, Ks. specialize (Lt k' Hk').
      assert (k = k') as <- by (apply E; [auto|]; rewrite Er; exact (list_elem_of_fmap_2 (fun r => extract_key r cols) _ _ Hr)).
      unfold vless in Lt. by rewrite ValueLess_irrefl in Lt.
    + by apply IH.
  - intros r. rewrite elem_visible_rows by done. split.
    + intros (k & Hk & E & N). pose proof (row_of_best _ _ _ _ _ K W Hk E) as ->. rewrite V in E by done. done.
    + intros (N & Hk & E). exists (extract_key r cols). by rewrite V.
Qed.

Definition lsm_shown e (name : bytes) (cols : list Column) (hi : Value -> Z) (v : view) : Prop :=
  exists st l0 ls, schema st = cols /\
    table_ok e name cols st (l0 :: ls) /\ is_Some (files e !! (name, 0%nat)) /\ cache_ok st (l0 :: ls) /\
    versions_agree (map snd (memtable st)) (concat (l0 :: ls)) /\
    Forall (fun x => commit_ts x <= hi (pk x) /\ well_keyed cols x) (contents st (l0 :: ls)) /\
    forall s k, key_ok k -> row_of (best s k (contents st (l0 :: ls))) = v s k.

(** Either no flush can happen, or whatever is flushed fits into a file. *)
Definition lsm_room e (name : bytes) (cols : list Column) (n : Z) : Prop :=
  exists st, states e !! name = Some st /\ 0 <= write_version st /\ write_version st + n < 2 ^ 64 /\ 0 <= memtable_bytes st /\
    (memtable_bytes st + n < memtable_limit_bytes (cfg e) \/ forall es, sst_fits cols es).

#[export] Instance lsm_preds : StoragePreds (Engine F) := { shown := lsm_shown; room := lsm_room }.

Lemma same_table_keeps name e e' : same_table name e e' -> keeps name e e'.
Proof.
  intros Sm cols. split.
  - intros hi v (st & l0 & ls & Sc & T & P & R). exists st, l0, ls. split; [done|]. split; [by apply (same_table_ok name e)|].
    split; [|exact R]. destruct Sm as (_ & _ & -> & _). done.
  - intros n (st & Es & R). exists st. destruct Sm as (-> & -> & _). done.
Qed.

Lemma none_quiet {A} (m : ST (Engine F) A) : local_to_none m -> (forall e, exists a, (m e).2 = Ok a) -> quiet m.
Proof.
  intros L O e. destruct (O e) as [a Ha]. specialize (L e). destruct (m e) as [e' r]. cbn in *. subst r.
  exists e', a. split; [done|]. intros name. by apply same_table_keeps.
Qed.

Lemma contents_keys e name cols st ls : table_ok e name cols st ls -> keys_ok (contents st ls) /\ keys_ok (scan_order st ls).
Proof.
  intros [S C [M _] L]. pose proof (keys_ok_concat ls (level_runs _ _ _ _ _ L)) as Kl. apply run_ok_keys in M.
  split; apply Forall_app; done.
Qed.

(** Reading leaves the table as it is, but for its caches. *)
Lemma footer_ext_keeps name e e' : footer_ext e e' -> keeps name e e'.
Proof.
  intros X cols. split.
  - intros hi v (st & l0 & ls & Sc & T & P & R). exists st, l0, ls. split; [done|]. split; [by eapply footer_ext_table|].
    split; [|exact R]. by destruct X as (f & -> & _).
  - intros n (st & Es & R). exists st. by destruct X as (f & -> & _).
Qed.

Lemma scan_order_best e name cols st ls s k :
  table_ok e name cols st ls -> versions_agree (map snd (memtable st)) (concat ls) -> key_ok k ->
  best s k (scan_order st ls) = best s k (contents st ls).
Proof.
  intros [S C [M _] L] A Hk. symmetry. apply best_app_comm; [by apply run_ok_keys|by eapply keys_ok_concat, level_runs|done|done].
Qed.

(** ** Writing *)

Lemma Forall_mem_put (P : MemEntry -> Prop) m k x :
  Forall P (map snd m) -> P x -> Forall P (map snd (mem_put m k x)).
Proof.
  intros Fm Px. induction m as [|[k' x'] m IH]; cbn in *; [by repeat constructor|].
  apply Forall_cons in Fm as [P' Fm]. destruct (MVCCKeyCompare k k'); [by repeat constructor|].
  destruct (MVCCKeyCompare k' k); cbn; constructor; auto.
Qed.

Lemma Forall_appended (P : MemEntry -> Prop) st en d l0 ls st' ls' :
  appended st en d l0 ls st' ls' -> Forall P (contents st (l0 :: ls)) -> P en -> Forall P (contents st' ls').
Proof.
  intros (_ & _ & _ & A) Fc Pe. unfold contents in *. apply Forall_app in Fc as [Fm Fl]. cbn [concat] in Fl.
  apply Forall_app in Fl as [F0 Fl]. pose proof (Forall_mem_put P (memtable st) (key_of en) en Fm Pe) as Fp.
  destruct A as [(-> & _ & ->) | (-> & _ & ->)]; cbn [concat map app]; repeat (apply Forall_app; split); try done.
  apply Forall_merge_runs; [done|by rewrite snd_keyed].
Qed.

(** A write above all timestamps of its key is what readers see from then on. *)
Lemma fresh_write (hi : Value -> Z) (v : view) en before after :
  sees_write en before after -> keys_ok before -> Forall (fun x => commit_ts x <= hi (pk x)) before ->
  key_ok (pk en) -> hi (pk en) < commit_ts en -> (forall s k, key_ok k -> row_of (best s k before) = v s k) ->
  forall s k, key_ok k -> row_of (best s k after) = view_write v (commit_ts en) (pk en) (row_of (Some en)) s k.
Proof.
  intros Sw Kb Hb Ke Fr V s k Hk. rewrite (Sw s k Hk). unfold view_write, vis.
  destruct (ValueEq (pk en) k) eqn:E; cbn [andb].
  - apply ValueEq_eq in E as <-; [|done..]. rewrite bool_decide_eq_true_2 by done. cbn [andb].
    destruct (commit_ts en <=? s); [|by cbn; apply V].
    destruct (best s (pk en) before) as [y|] eqn:B; [|done]. apply best_Some in B as (Hy & Ey & _).
    apply ValueEq_eq in Ey; [|by apply (keys_ok_elem before)|done]. rewrite Forall_forall in Hb. specialize (Hb y Hy).
    rewrite Ey in Hb. cbn [newer]. destruct (Z.ltb_spec (commit_ts en) (commit_ts y)); [lia|done].
  - rewrite bool_decide_eq_false_2; [by cbn; apply V|]. intros ->. by rewrite ValueEq_refl in E.
Qed.

Lemma cache_ok_written st st' ls ls' n :
  cache_ok st ls -> cache st' = cache st -> write_version st' = u64 (write_version st + 1) ->
  0 <= write_version st -> write_version st + n < 2 ^ 64 -> 1 <= n -> cache_ok st' ls' /\ write_version st' = write_version st + 1.
Proof.
  intros Hc Ec Ev W0 W1 N. rewrite (wrap_small 64) in Ev by lia. split; [|done].
  intros c Hcc. rewrite Ec in Hcc. destruct (Hc c Hcc) as [L _]. rewrite Ev. split; [lia|]. intros E. lia.
Qed.

Lemma versions_agree_fresh m ls en hi :
  versions_agree (map snd m) (concat ls) -> Forall (fun x => commit_ts x <= hi (pk x)) (concat ls) -> hi (pk en) < commit_ts en ->
  versions_agree (map snd (mem_put m (key_of en) en)) (concat ls).
Proof.
  intros A B Fr x y Hx Hy Ep Et.
  assert (Forall (fun x => x = en \/ x ∈ map snd m) (map snd (mem_put m (key_of en) en))) as M.
  { apply Forall_mem_put; [|by left]. apply Forall_forall. by right. }
  rewrite Forall_forall in M, B. destruct (M x Hx) as [->|Hm]; [|by apply A]. specialize (B y Hy). rewrite <- Ep in B. lia.
Qed.

Lemma appended_shown e name cols st l0 ls e' st' ls' en d n hi v :
  appended st en d l0 ls st' ls' -> schema st = cols -> table_ok e name cols st (l0 :: ls) -> cache_ok st (l0 :: ls) ->
  versions_agree (map snd (memtable st)) (concat (l0 :: ls)) ->
  Forall (fun x => commit_ts x <= hi (pk x) /\ well_keyed cols x) (contents st (l0 :: ls)) ->
  (forall s k, key_ok k -> row_of (best s k (contents st (l0 :: ls))) = v s k) ->
  table_ok e' name cols st' ls' -> is_Some (files e' !! (name, 0%nat)) -> sees_write en (contents st (l0 :: ls)) (contents st' ls') ->
  cfg e' = cfg e -> key_ok (pk en) -> hi (pk en) < commit_ts en -> well_keyed cols en -> 0 <= d -> 1 + d <= n -> lsm_room e name cols n ->
  shown e' name cols (newest_write hi (commit_ts en) (pk en)) (view_write v (commit_ts en) (pk en) (row_of (Some en))) /\
  room e' name cols (n - (1 + d)).
Proof.
  intros A Sc T Hc Ag B V T' P' Sw Ecfg Ke Fr We D0 Dn (st0 & Es & W0 & W1 & M0 & Rm). pose proof (to_state _ _ _ _ _ T) as Es'.
  rewrite Es' in Es. injection Es as <-. pose proof A as (Esc & Ec & Ev & Cs).
  destruct (cache_ok_written st st' (l0 :: ls) ls' n Hc Ec Ev W0 W1 ltac:(lia)) as [Hc' Ev'].
  assert (exists l0' lt, ls' = l0' :: lt) as (l0' & lt & Els) by (destruct Cs as [(_ & _ & ->) | (_ & _ & ->)]; eauto).
  split.
  - exists st', l0', lt. rewrite <- Els. split_and!; [congruence|done|done|done| | |].
    + destruct Cs as [(-> & _ & ->) | (-> & _ & ->)]; [|by intros x y ?%elem_of_nil].
      apply (versions_agree_fresh _ _ _ hi); [done| |done]. unfold contents in B. apply Forall_app in B as [_ B].
      eapply Forall_impl; [exact B|]. by intros x [? _].
    + apply (Forall_appended _ _ _ _ _ _ _ _ A); [|split; [|done]].
      * eapply Forall_impl; [exact B|]. intros x [Bx Wx]. split; [|done]. unfold newest_write. case_bool_decide as D; [|done].
        rewrite D in Bx. lia.
      * unfold newest_write. by rewrite bool_decide_eq_true_2.
    + eapply fresh_write; try done; [by eapply contents_keys|]. eapply Forall_impl; [exact B|]. by intros x [? _].
  - exists st'. split_and!; [apply T'|lia|lia|destruct Cs as [(_ & -> & _) | (_ & -> & _)]; lia|].
    rewrite Ecfg. destruct Rm as [Rm|Rm]; [left|by right]. destruct Cs as [(_ & -> & _) | (_ & -> & _)]; lia.
Qed.

(** ** The laws *)

Lemma table_levels e name cols st ls ls' : table_ok e name cols st ls -> table_ok e name cols st ls' -> ls = ls'.
Proof.
  intros [_ _ _ L] [_ _ _ L']. revert ls' L'. induction L as [|lf es vs ls Le L IH]; intros ls' L'.
  - by apply Forall2_nil_inv_l in L' as ->.
  - apply Forall2_cons_inv_l in L' as (es' & lt & Le' & L' & ->). destruct Le as (_ & _ & R & _), Le' as (_ & _ & R' & _).
    rewrite R in R'. injection R' as <-. f_equal. by apply IH.
Qed.

Lemma lsm_lookup e name cols hi v k t :
  shown e name cols hi v -> key_ok k ->
  exists e', lookup_visible name cols k t e = (e', Ok (v t k)) /\ forall name', keeps name' e e'.
Proof.
  intros (st & l0 & ls & Sc & T & P & Hc & A & B & V) Hk. destruct (lookup_ok e name cols st (l0 :: ls) k t T Hk) as (e' & R & X).
  exists e'. rewrite R, V by done. split; [done|]. intros name'. by apply footer_ext_keeps.
Qed.

Lemma lsm_stream e name cols hi v t :
  shown e name cols hi v ->
  exists e' rows, scan_visible_stream name cols t e = (e', Ok rows) /\ view_rows cols v t rows /\ forall name', keeps name' e e'.
Proof.
  intros (st & l0 & ls & Sc & T & P & Hc & A & B & V). destruct (stream_ok e name cols st (l0 :: ls) t T) as (e' & R & X).
  exists e', (visible_rows t (contents st (l0 :: ls))). split_and!; [done| |intros name'; by apply footer_ext_keeps].
  apply visible_view; [by eapply contents_keys| |by intros; apply V]. eapply Forall_impl; [exact B|]. by intros x [_ ?].
Qed.

Lemma lsm_scan e name cols hi v t :
  shown e name cols hi v ->
  exists e' rows, scan_visible name cols t e = (e', Ok rows) /\ view_rows cols v t rows /\ forall name', keeps name' e e'.
Proof.
  intros (st & l0 & ls & Sc & T & P & Hc & A & B & V).
  destruct (scan_ok e name cols st (l0 :: ls) t T Hc) as (e' & c & R & T' & Hc' & Ef & Eg).
  exists e', (visible_rows t (scan_order st (l0 :: ls))). split_and!; [done| |].
  - apply visible_view; [by eapply contents_keys| |].
    + unfold scan_order. apply Forall_app. unfold contents in B. apply Forall_app in B as [B1 B2].
      split; (eapply Forall_impl; [eassumption|]); by intros x [_ ?].
    + intros k Hk. by erewrite scan_order_best, V.
  - intros name'. destruct (decide (name' = name)) as [->|N].
    + intros cols'. split.
      * intros hi' v' (st1 & l1 & ls1 & Sc1 & T1 & P1 & Hc1 & A1 & B1 & V1). pose proof (to_state _ _ _ _ _ T) as Es.
        pose proof (to_state _ _ _ _ _ T1) as Es1. rewrite Es in Es1. injection Es1 as <-. rewrite Sc in Sc1. subst cols'.
        pose proof (table_levels e name cols st _ _ T1 T) as [= -> ->]. exists (with_cache st c), l0, ls. by rewrite Ef.
      * intros n (st1 & Es1 & Rm). pose proof (to_state _ _ _ _ _ T) as Es. rewrite Es in Es1. injection Es1 as <-.
        exists (with_cache st c). rewrite Eg. split; [apply T'|exact Rm].
    + apply same_table_keeps. change e' with ((e', Ok (visible_rows t (scan_order st (l0 :: ls)))).1). rewrite <- R.
      by apply local_scan.
Qed.

Lemma local_cfg name {A} (m : ST (Engine F) A) e : local_to name m -> cfg (m e).1 = cfg e.
Proof.
  intros L. apply (L e (Byte.x00 :: name)). intros E. apply (f_equal length) in E. cbn in E. lia.
Qed.

Lemma local_keeps name {A} (m : ST (Engine F) A) e e' r :
  local_to name m -> m e = (e', r) -> cfg e' = cfg e /\ forall name', name' <> name -> keeps name' e e'.
Proof.
  intros L R. change e' with ((e', r).1). rewrite <- R. split; [by eapply local_cfg|].
  intros name' N. by apply same_table_keeps, L.
Qed.

Lemma lsm_append e name cols hi v r t n :
  shown e name cols hi v -> key_ok (extract_key r cols) -> hi (extract_key r cols) < t <= UINT64_MAX -> 0 <= t ->
  write_cost r <= n -> room e name cols n ->
  exists e', append_row name cols r t e = (e', Ok tt) /\
    shown e' name cols (newest_write hi t (extract_key r cols)) (view_write v t (extract_key r cols) (Some r)) /\
    room e' name cols (n - write_cost r) /\ forall name', name' <> name -> keeps name' e e'.
Proof.
  intros (st & l0 & ls & Sc & T & P & Hc & A & B & V) Hk Fr T0 Cost Rm. unfold write_cost in *.
  set (en := mkEntry (extract_key r cols) r false t).
  destruct (append_detail e name cols st l0 ls r t T P Hk ltac:(lia)) as (e' & st' & ls' & R & T' & P' & Sw & Ap).
  { intros Full. destruct Rm as (st0 & Es & _ & _ & _ & Rm). rewrite (to_state _ _ _ _ _ T) in Es. injection Es as <-.
    destruct Rm as [Rm|Rm]; [lia|apply Rm]. }
  destruct (local_keeps name _ e e' _ (local_append name cols r t) R) as [Ecfg Ks].
  destruct (appended_shown e name cols st l0 ls e' st' ls' en (blen (encode_row r)) n hi v) as [S' R']; try done;
    try (cbn; lia); try apply blen_nonneg. by exists e'.
Qed.

Lemma lsm_delete e name cols hi v k t n :
  shown e name cols hi v -> key_ok k -> hi k < t <= UINT64_MAX -> 0 <= t -> 1 <= n -> room e name cols n ->
  exists e', delete_row_by_key name k t e = (e', Ok tt) /\
    shown e' name cols (newest_write hi t k) (view_write v t k None) /\
    room e' name cols (n - 1) /\ forall name', name' <> name -> keeps name' e e'.
Proof.
  intros (st & l0 & ls & Sc & T & P & Hc & A & B & V) Hk Fr T0 Cost Rm. set (en := mkEntry k (mkRow []) true t).
  destruct (delete_ok e name cols st (l0 :: ls) k t T Hk ltac:(lia)) as (e' & st' & R & T' & Ef & Sw & Est).
  destruct (local_keeps name _ e e' _ (local_delete name k t) R) as [Ecfg Ks].
  destruct (appended_shown e name cols st l0 ls e' st' (l0 :: ls) en 0 n hi v) as [S' R']; try done; try (cbn; lia);
    [subst st'; split_and!; try done; left; done|by rewrite Ef|]. by exists e'.
Qed.

Lemma lsm_newest e name cols hi v t k :
  shown e name cols hi v -> key_ok k -> hi k <= t <= UINT64_MAX -> v t k = v UINT64_MAX k.
Proof.
  intros (st & l0 & ls & Sc & T & P & Hc & A & B & V) Hk L. rewrite <- !V by done. f_equal.
  destruct (contents_keys _ _ _ _ _ T) as [K _]. revert K B. generalize (contents st (l0 :: ls)). clear -L Hk. intros es K B.
  induction es as [|x es IH]; [done|]. apply Forall_cons in K as [Kx K], B as [[Bx _] B]. rewrite !best_cons, IH by done. f_equal.
  unfold vis. destruct (ValueEq (pk x) k) eqn:E; [|done]. apply ValueEq_eq in E; [|done..]. rewrite E in Bx. cbn [andb].
  destruct (Z.leb_spec (commit_ts x) t), (Z.leb_spec (commit_ts x) UINT64_MAX); try done; lia.
Qed.

#[export] Instance lsm_laws : StorageLaws (Engine F).
Proof.
  split.
  - intros e name cols hi v t k r (st & l0 & ls & Sc & T & P & Hc & A & B & V) Hk. rewrite <- V by done.
    apply row_of_best; [by eapply contents_keys| |done]. eapply Forall_impl; [exact B|]. by intros x [_ ?].
  - intros e name cols hi hi' v v' Lh Ev (st & l0 & ls & Sc & T & P & Hc & A & B & V). exists st, l0, ls. split_and!; try done.
    + eapply Forall_impl; [exact B|]. intros x [Bx Wx]. split; [|done]. etrans; [exact Bx|apply Lh].
    + intros s k Hk. by rewrite V, Ev.
  - apply lsm_newest.
  - intros e name cols n n' L (st & Es & W0 & W1 & M0 & Rm). exists st. split_and!; try done; [lia|].
    destruct Rm; [left; lia|by right].
  - apply lsm_lookup.
  - apply lsm_scan.
  - apply lsm_stream.
  - apply lsm_append.
  - apply lsm_delete.
  - intros t. apply none_quiet.
    + cbn. unfold mark_committed. destruct (t =? 0); [apply local_ret|].
      repeat (apply local_bind_none; [|intros _]); [apply local_committed|done..].
    + intros e. cbn. unfold mark_committed. destruct (t =? 0); eexists; reflexivity.
  - intros name c. apply none_quiet; intros e; cbn; unfold create_index_file, gets, mbind, st_bind;
      destruct (index_files e !! (name, c)); [done..|eexists; reflexivity|eexists; reflexivity].
  - intros name c es. apply none_quiet; [done|]. intros e. eexists. reflexivity.
  - intros name c v k. apply none_quiet; [done|]. intros e. eexists. reflexivity.
  - intros name c. apply none_quiet; intros e; cbn; unfold Engine.drop_index;
      destruct (index_files e !! (name, c)); [done..|eexists; reflexivity|eexists; reflexivity].
  - intros name reg. apply none_quiet; [done|]. intros e. eexists. reflexivity.
Defined.

End Lsm.
