(* ===== verification/Indexes.v ===== *)
(** Secondary indexes of [Tables]: lookups in the ordered multimaps are exact,
    the indexes hold at least the keys of all visible rows whatever is written,
    and so an index scan of a table over any lawful storage is a filtered scan. *)
From Stdlib Require Import ZArith Lia Strings.Byte Sorted.
From stdpp Require Import base numbers list gmap strings.
From S2P Require Import Prelude Values Codec Sst Store Mvcc Engine EngineReads Eval Session Query Scans Tables Storage.
Local Open Scope Z_scope.

(** * Ordered multimaps *)

Definition mm_sorted (m : index_t) : Prop := StronglySorted (fun a b => ValueLess b.1 a.1 = false) m.
Definition mm_keys_ok (m : index_t) : Prop := Forall (fun e => key_ok e.1 /\ key_ok e.2) m.

Lemma mm_emplace_perm k v m : mm_emplace k v m ≡ₚ (k, v) :: m.
Proof.
  induction m as [|[k' v'] m IH]; [done|]. cbn. destruct (ValueLess k k'); [done|]. rewrite IH. apply Permutation_swap.
Qed.

Lemma mm_emplace_sorted k v m : mm_sorted m -> mm_sorted (mm_emplace k v m).
Proof.
  induction 1 as [|[k' v'] m So IH L]; cbn; [repeat constructor|]. destruct (ValueLess k k') eqn:E.
  - constructor; [by constructor|]. constructor; [by apply ValueLess_asym|].
    eapply Forall_impl; [exact L|]. intros x Hx. cbn in *. destruct (ValueLess x.1 k) eqn:E'; [|done].
    by rewrite (ValueLess_trans _ _ _ E' E) in Hx.
  - constructor; [done|]. rewrite mm_emplace_perm. by constructor.
Qed.

Lemma mm_emplace_keys_ok k v m : key_ok k -> key_ok v -> mm_keys_ok m -> mm_keys_ok (mm_emplace k v m).
Proof. intros Hk Hv F. unfold mm_keys_ok. rewrite mm_emplace_perm. by constructor. Qed.

(** The comparators on keys in good order. *)
Lemma ValueLess_neg_trans a b c :
  key_ok a -> key_ok b -> key_ok c -> ValueLess a c = true -> ValueLess a b = false -> ValueLess b c = true.
Proof.
  intros Ha Hb Hc L N. destruct (ValueLess_total a b Ha Hb) as [->|[?|G]]; [done|congruence|].
  by apply (ValueLess_trans b a c).
Qed.

(** A predicate that holds of a beginning of the list cuts it in two. *)
Lemma cut_split (p : Value * Value -> bool) m :
  StronglySorted (fun a b => p b = true -> p a = true) m ->
  m = List.filter p m ++ List.filter (fun x => negb (p x)) m.
Proof.
  induction 1 as [|x m So IH L]; [done|]. cbn. destruct (p x) eqn:E; cbn; [by rewrite <- IH|].
  assert (Forall (fun y => p y = false) m) as N.
    { eapply Forall_impl; [exact L|]. intros y Hy. cbn in Hy. destruct (p y); [|done]. specialize (Hy eq_refl). congruence. }
  rewrite Forall_forall in N. rewrite filter_none by done. rewrite filter_every; [done|]. intros y Hy. by rewrite N.
Qed.

Lemma cut_filter (R : Value * Value -> Value * Value -> Prop) (f : Value * Value -> bool) m :
  StronglySorted R m -> StronglySorted R (List.filter f m).
Proof.
  induction 1 as [|x m So IH L]; [constructor|]. cbn. destruct (f x); [|done]. constructor; [done|].
  apply Forall_forall. intros y Hy. apply list_elem_of_In, filter_In in Hy as [Hy _].
  rewrite Forall_forall in L. by apply L, list_elem_of_In.
Qed.

Lemma between_cuts (p q : Value * Value -> bool) m :
  StronglySorted (fun a b => p b = true -> p a = true) m -> StronglySorted (fun a b => q b = true -> q a = true) m ->
  Forall (fun x => p x = true -> q x = true) m ->
  mm_between (length (List.filter p m)) (length (List.filter q m)) m = Ok (List.filter (fun x => negb (p x) && q x) m).
Proof.
  intros Sp Sq I. set (r := List.filter (fun x => negb (p x)) m).
  assert (List.filter q m = List.filter p m ++ List.filter q r) as Eq.
  { rewrite (cut_split p m Sp) at 1. rewrite List.filter_app. f_equal. apply filter_every. intros x Hx.
    apply list_elem_of_In, filter_In in Hx as [Hx Px]. rewrite Forall_forall in I. by apply I; [apply list_elem_of_In|]. }
  unfold mm_between. rewrite Eq, length_app. replace (_ <=? _)%nat with true by (symmetry; apply Nat.leb_le; lia).
  f_equal. assert (drop (length (List.filter p m)) m = r) as ->.
  { rewrite (cut_split p m Sp) at 2. apply drop_app_length. }
  replace (length (List.filter p m) + length (List.filter q r) - length (List.filter p m))%nat
    with (length (List.filter q r)) by lia.
  assert (take (length (List.filter q r)) r = List.filter q r) as ->.
  { rewrite (cut_split q r) at 2 by (by apply cut_filter). apply take_app_length. }
  unfold r. clear.
  induction m as [|x m IH]; [done|]. cbn. destruct (p x); cbn; [done|]. destruct (q x); cbn; congruence.
Qed.

(** Positions as numbers of entries, for the two directions of a bound. *)
Definition below (k : Value) (x : Value * Value) : bool := ValueLess x.1 k.
Definition upto (k : Value) (x : Value * Value) : bool := negb (ValueLess k x.1).

Lemma below_cut k m : mm_sorted m -> mm_keys_ok m -> key_ok k ->
  StronglySorted (fun a b => below k b = true -> below k a = true) m /\ mm_lower k m = length (List.filter (below k) m).
Proof.
  intros So K Hk. induction So as [|[k' v'] m So IH L]; [split; [constructor|done]|].
  apply Forall_cons in K as [[K1 _] K]. destruct (IH K) as [IH1 IH2]. unfold mm_keys_ok in K. rewrite Forall_forall in K, L. split.
  - constructor; [done|]. apply Forall_forall. intros y Hy B. unfold below in *. cbn in *.
    destruct (ValueLess_total k' y.1) as [->|[L1|L1]]; [done|by apply K|done|by apply (ValueLess_trans _ y.1)|].
    specialize (L y Hy). cbn in L. congruence.
  - cbn [mm_lower List.filter]. unfold below at 1. cbn [fst]. destruct (ValueLess k' k) eqn:E; [cbn; by rewrite IH2|].
    symmetry. rewrite filter_none; [done|]. intros y Hy. unfold below. specialize (L y Hy). cbn in L.
    destruct (ValueLess y.1 k) eqn:E'; [|done]. rewrite (ValueLess_neg_trans y.1 k' k) in E; try done. by apply K.
Qed.

Lemma upto_cut k m : mm_sorted m -> mm_keys_ok m -> key_ok k ->
  StronglySorted (fun a b => upto k b = true -> upto k a = true) m /\ mm_upper k m = length (List.filter (upto k) m).
Proof.
  intros So K Hk. induction So as [|[k' v'] m So IH L]; [split; [constructor|done]|].
  apply Forall_cons in K as [[K1 _] K]. destruct (IH K) as [IH1 IH2]. unfold mm_keys_ok in K. rewrite Forall_forall in K, L.
  assert (forall y, y ∈ m -> ValueLess k k' = true -> ValueLess k y.1 = true) as Up.
  { intros y Hy E. destruct (ValueLess_total k' y.1) as [E'|[L1|L1]]; [done|by apply K|congruence|by apply (ValueLess_trans _ k')|].
    specialize (L y Hy). cbn in L. congruence. }
  split.
  - constructor; [done|]. apply Forall_forall. intros y Hy B. unfold upto in *. cbn. apply negb_true_iff in B. apply negb_true_iff.
    destruct (ValueLess k k') eqn:E; [|done]. by rewrite (Up y Hy eq_refl) in B.
  - cbn [mm_upper List.filter]. unfold upto at 1. cbn [fst]. destruct (ValueLess k k') eqn:E; cbn [negb]; [|cbn; by rewrite IH2].
    symmetry. rewrite filter_none; [done|]. intros y Hy. unfold upto. by rewrite (Up y Hy eq_refl).
Qed.

(** * Lookups *)

Lemma distinct_pks_spec es :
  mm_keys_ok es -> NoDup (distinct_pks es) /\ Forall key_ok (distinct_pks es) /\
    forall pk, pk ∈ distinct_pks es <-> exists k, (k, pk) ∈ es.
Proof.
  intros K. unfold distinct_pks. assert (forall acc, NoDup acc -> Forall key_ok acc ->
    let r := foldl (fun out (e : Value * Value) => vadd e.2 out) acc es in
    NoDup r /\ Forall key_ok r /\ forall pk, pk ∈ r <-> pk ∈ acc \/ exists k, (k, pk) ∈ es) as G.
  { induction es as [|[k v] es IH]; intros acc N Ka; cbn.
    - split_and!; try done. intros pk. split; [by left|]. intros [?|[? ?%elem_of_nil]]; done.
    - apply Forall_cons in K as [[_ Kv] K]. cbn in Kv. destruct (IH K (vadd v acc)) as (N' & K' & E);
        [by apply vadd_NoDup|by apply vadd_key_ok|]. split_and!; try done. intros pk. rewrite E, vadd_elem by done.
      setoid_rewrite elem_of_cons. split.
      + intros [[->|?]|[k' ?]]; [right; exists k; by left|by left|right; exists k'; by right].
      + intros [?|[k' [[= -> ->]|?]]]; [left; by right|left; by left|right; by exists k']. }
  destruct (G [] ltac:(constructor) ltac:(constructor)) as (N & K' & E). split_and!; try done.
  intros pk. rewrite E, elem_of_nil. naive_solver.
Qed.

(** The bounds of a range, as predicates on the entries before each end. *)
Definition low_cut (low : option Value) (inc : bool) : Value * Value -> bool :=
  match low with Some l => if inc then below l else upto l | None => fun _ => false end.
Definition high_cut (high : option Value) (inc : bool) : Value * Value -> bool :=
  match high with Some h => if inc then upto h else below h | None => fun _ => true end.

(** The lower bound does not lie behind the upper one. *)
Definition range_proper (low : option Value) (li : bool) (high : option Value) (hi : bool) : bool :=
  match low, high with
  | Some l, Some h => if li || hi then negb (ValueLess h l) else ValueLess l h
  | _, _ => true
  end.

Lemma range_ordered x l h li hi :
  key_ok x -> key_ok l -> key_ok h -> (if li || hi then negb (ValueLess h l) else ValueLess l h) = true ->
  (if li then ValueLess x l else negb (ValueLess l x)) = true -> (if hi then negb (ValueLess h x) else ValueLess x h) = true.
Proof.
  intros Kx Kl Kh P L. destruct (ValueLess_total l h Kl Kh) as [<-|[Llh|Lhl]].
  - rewrite ValueLess_irrefl in P. destruct li, hi; try done. by rewrite ValueLess_asym.
  - assert (ValueLess x h = true) as Lx; [|destruct hi; [by rewrite ValueLess_asym|done]].
    destruct li; [by apply (ValueLess_trans _ l)|]. apply negb_true_iff in L.
    destruct (ValueLess_total x l Kx Kl) as [->|[?|?]]; [done|by apply (ValueLess_trans _ l)|congruence].
  - rewrite Lhl, (ValueLess_asym h l) in P by done. by destruct li, hi.
Qed.

Lemma range_cuts low li high hi m :
  mm_sorted m -> mm_keys_ok m -> (forall l, low = Some l -> key_ok l) -> (forall h, high = Some h -> key_ok h) ->
  range_proper low li high hi = true ->
  StronglySorted (fun a b => low_cut low li b = true -> low_cut low li a = true) m /\
  StronglySorted (fun a b => high_cut high hi b = true -> high_cut high hi a = true) m /\
  Forall (fun x => low_cut low li x = true -> high_cut high hi x = true) m.
Proof.
  intros So K Kl Kh P. assert (forall b, StronglySorted (fun _ _ : Value * Value => b = true -> b = true) m) as Const.
  { intros b. clear. induction m as [|x m IH]; constructor; [done|]. by apply Forall_forall. }
  split_and!.
  - destruct low as [l|]; [|exact (Const false)]. destruct li; [apply below_cut; auto|apply upto_cut; auto].
  - destruct high as [h|]; [|exact (Const true)]. destruct hi; [apply upto_cut; auto|apply below_cut; auto].
  - unfold mm_keys_ok in K. rewrite Forall_forall in K. apply Forall_forall. intros x Hx. destruct (K x Hx) as [Kx _].
    destruct low as [l|], high as [h|]; try done. specialize (Kl l eq_refl). specialize (Kh h eq_refl).
    pose proof (range_ordered x.1 l h li hi Kx Kl Kh P). by destruct li, hi.
Qed.

Definition index_entries (t : Table) (index : bytes) : index_t := default [] (indexes t !! index).

Lemma equal_entries m key :
  mm_sorted m -> mm_keys_ok m -> key_ok key ->
  take (mm_upper key m - mm_lower key m) (drop (mm_lower key m) m) = List.filter (fun x => ValueEq x.1 key) m.
Proof.
  intros So K Hk. destruct (below_cut key m So K Hk) as [C1 ->], (upto_cut key m So K Hk) as [C2 ->].
  assert (Forall (fun x => below key x = true -> upto key x = true) m) as I.
  { apply Forall_forall. intros x _. unfold below, upto. intros ?. by rewrite ValueLess_asym. }
  pose proof (between_cuts (below key) (upto key) m C1 C2 I) as B. unfold mm_between in B.
  destruct (_ <=? _)%nat in B; [|done]. injection B as ->.
  unfold mm_keys_ok in K. rewrite Forall_forall in K. clear -K Hk. induction m as [|x m IH]; [done|]. cbn.
  assert (negb (below key x) && upto key x = ValueEq x.1 key) as ->; [|rewrite IH; [done|intros; apply K; by right]].
  destruct (K x ltac:(by left)) as [Kx _]. unfold below, upto.
  destruct (ValueLess_total x.1 key Kx Hk) as [->|[L|L]]; [by rewrite ValueLess_irrefl, ValueEq_refl| |];
    rewrite ?L, ?(ValueLess_asym _ _ L); cbn; symmetry; (destruct (ValueEq x.1 key) eqn:E; [|done]);
    apply ValueEq_eq in E; try done; rewrite E, ValueLess_irrefl in L; done.
Qed.

Lemma filter_keys_ok f m : mm_keys_ok m -> mm_keys_ok (List.filter f m).
Proof.
  unfold mm_keys_ok. rewrite !Forall_forall. intros K x Hx. apply list_elem_of_In, filter_In in Hx as [Hx _].
  by apply K, list_elem_of_In.
Qed.

(** An equality lookup gives the primary keys entered under the value, each once. *)
Lemma lookup_index_spec t index key :
  mm_sorted (index_entries t index) -> mm_keys_ok (index_entries t index) -> key_ok key ->
  NoDup (lookup_index index key t) /\ Forall key_ok (lookup_index index key t) /\
  forall pk, pk ∈ lookup_index index key t <-> (key, pk) ∈ index_entries t index.
Proof.
  unfold index_entries, lookup_index. destruct (indexes t !! index) as [m|]; cbn [default from_option]; unfold id.
  2:{ intros _ _ _. split_and!; [constructor|constructor|]. intros pk. by rewrite !elem_of_nil. }
  intros So K Hk. rewrite equal_entries by done.
  destruct (distinct_pks_spec (List.filter (fun x => ValueEq x.1 key) m) (filter_keys_ok _ _ K)) as (N & Kd & E).
  split_and!; [done|done|]. intros pk. rewrite E. unfold mm_keys_ok in K. rewrite Forall_forall in K. split.
  - intros [k Hin]. apply list_elem_of_In, filter_In in Hin as [Hin Eq]. apply list_elem_of_In in Hin. cbn in Eq.
    apply ValueEq_eq in Eq as ->; [done|by apply (K (k, pk))|done].
  - intros Hin. exists key. apply list_elem_of_In, filter_In. split; [by apply list_elem_of_In|]. cbn. by apply ValueEq_refl.
Qed.

(** A range lookup whose bounds are in order ends, and gives the primary keys
    entered under values within the bounds. *)
Lemma lookup_range_spec t c low li high hi :
  mm_sorted (index_entries t c) -> mm_keys_ok (index_entries t c) ->
  (forall l, low = Some l -> key_ok l) -> (forall h, high = Some h -> key_ok h) -> range_proper low li high hi = true ->
  exists pks, lookup_index_range c low li high hi t = Ok pks /\ NoDup pks /\ Forall key_ok pks /\
    forall pk, pk ∈ pks <-> exists k, (k, pk) ∈ index_entries t c /\ index_matches (IdxRange c low li high hi) k = true.
Proof.
  unfold index_entries, lookup_index_range. destruct (indexes t !! c) as [m|]; cbn [default from_option]; unfold id.
  2:{ intros _ _ _ _ _. exists []. split_and!; [done|constructor|constructor|]. intros pk. rewrite elem_of_nil. split; [done|].
      intros (k & []%elem_of_nil & _). }
  intros So K Kl Kh P. destruct (range_cuts low li high hi m So K Kl Kh P) as (C1 & C2 & I).
  assert (match low with Some l => if li then mm_lower l m else mm_upper l m | None => O end
          = length (List.filter (low_cut low li) m)) as ->.
  { destruct low as [l|]; [|cbn; by rewrite filter_none]. destruct li; [by apply below_cut; auto|by apply upto_cut; auto]. }
  assert (match high with Some h => if hi then mm_upper h m else mm_lower h m | None => length m end
          = length (List.filter (high_cut high hi) m)) as ->.
  { destruct high as [h|]; [|cbn; by rewrite filter_every]. destruct hi; [by apply upto_cut; auto|by apply below_cut; auto]. }
  rewrite (between_cuts _ _ m C1 C2 I). cbn [mbind res_bind]. eexists. split; [reflexivity|].
  destruct (distinct_pks_spec _ (filter_keys_ok (fun x => negb (low_cut low li x) && high_cut high hi x) m K)) as (N & Kd & E).
  split_and!; [done|done|]. intros pk. rewrite E. apply exist_proper. intros k.
  rewrite list_elem_of_In, filter_In, <- list_elem_of_In. apply and_iff_compat_l. cbn.
  unfold low_cut, high_cut, below, upto. destruct low as [l|], high as [h|]; destruct li, hi; cbn; rewrite ?negb_involutive; done.
Qed.

(** * Maintenance *)

Definition index_wf (t : Table) : Prop :=
  forall index, mm_sorted (index_entries t index) /\ mm_keys_ok (index_entries t index).

(** The indexes of [t'] are those of [t] with more entries. *)
Record ix_step (t t' : Table) : Prop := {
  ixs_same : exists ix, t' = set_indexes ix t;
  ixs_grow : forall index e, e ∈ index_entries t index -> e ∈ index_entries t' index;
  ixs_wf : index_wf t -> index_wf t'
}.

Lemma ix_step_refl t : ix_step t t.
Proof. split; [exists (indexes t); by destruct t|done|done]. Qed.
Lemma ix_step_trans t1 t2 t3 : ix_step t1 t2 -> ix_step t2 t3 -> ix_step t1 t3.
Proof. intros [[ix2 ->] G2 W2] [[ix3 ->] G3 W3]. split; [by exists ix3|auto..]. Qed.

(** Every index has the entries of the row. *)
Record has_row (t : Table) (r : Row) : Prop := {
  hr_column c ci v : c ∈ indexed_columns t -> tbl_column t c = Some ci -> values r !! ci = Some v ->
    (v, tbl_key t r) ∈ index_entries t c;
  hr_composite i cols cis vs : composite_indexes t !! i = Some cols -> mapM (tbl_column t) cols = Some cis ->
    cells cis r = Some vs -> (encode_composite vs, tbl_key t r) ∈ index_entries t i
}.

Lemma has_row_step t t' r : ix_step t t' -> has_row t r -> has_row t' r.
Proof.
  intros [[ix ->] G _] [C K]. split.
  - intros c ci v Hc Hci Hv. apply G. by apply (C c ci).
  - intros i cols cis vs Hi Hm Hv. apply G. by apply (K i cols cis).
Qed.

Lemma put_entry_entries c k v t index :
  index_entries (put_entry c k v t) index = if decide (index = c) then mm_emplace k v (index_entries t c) else index_entries t index.
Proof.
  unfold index_entries, put_entry. cbn. destruct (decide (index = c)) as [->|N]; [by rewrite lookup_insert_eq|].
  by rewrite lookup_insert_ne.
Qed.

Lemma put_entry_step c k v t : key_ok k -> key_ok v -> ix_step t (put_entry c k v t) /\ (k, v) ∈ index_entries (put_entry c k v t) c.
Proof.
  intros Hk Hv. split; [split|].
  - by eexists.
  - intros index e He. rewrite put_entry_entries. destruct (decide (index = c)) as [->|]; [|done].
    rewrite mm_emplace_perm. by right.
  - intros W index. rewrite put_entry_entries. destruct (decide (index = c)) as [->|]; [|apply W].
    destruct (W c). split; [by apply mm_emplace_sorted|by apply mm_emplace_keys_ok].
  - rewrite put_entry_entries, decide_True by done. rewrite mm_emplace_perm. by left.
Qed.

Lemma foldl_ext {A B} (f g : A -> B -> A) l a : (forall x y, f x y = g x y) -> foldl f a l = foldl g a l.
Proof. intros E. revert a. induction l as [|y l IH]; intros a; [done|]. cbn. by rewrite E, IH. Qed.

Section Maintenance.
Context {S : Type} `{StorageLaws S}.
Implicit Types (s : S) (t : Table).

(** An operation that adds index entries and changes no table. *)
Definition indexes_more {A} (m : ST (Table * S) A) t s (P : Table -> Prop) : Prop :=
  exists t' s' a, m (t, s) = ((t', s'), Ok a) /\ ix_step t t' /\ P t' /\ forall name, keeps name s s'.

Lemma stored_quiet (m : ST S unit) t s : quiet m -> indexes_more (stored m) t s (fun t' => t' = t).
Proof.
  intros Q. unfold stored, the_table. destruct (has_storage t) eqn:E.
  - destruct (Q s) as (s' & [] & R & K). exists t, s', tt. split_and!; try done; [|apply ix_step_refl].
    unfold mbind, st_bind, gets. cbn [fst]. rewrite E. unfold on_storage. cbn [fst snd]. by rewrite R.
  - exists t, s, tt. split_and!; try done; [|apply ix_step_refl].
    unfold mbind, st_bind, gets. cbn [fst]. by rewrite E.
Qed.

(** Entering one key and persisting it. *)
Lemma enter_ok c k v t s :
  key_ok k -> key_ok v ->
  indexes_more (_ ← on_table (put_entry c k v); stored (se_append_index_entry (t_name t) c k v)) t s
    (fun t' => (k, v) ∈ index_entries t' c).
Proof.
  intros Hk Hv. destruct (put_entry_step c k v t Hk Hv) as [St In].
  destruct (stored_quiet (se_append_index_entry (t_name t) c k v) (put_entry c k v t) s (law_index_append _ _ _ _))
    as (t' & s' & [] & R & _ & -> & K). exists (put_entry c k v t), s', tt. split_and!; try done.
Qed.

Lemma tfor_index {A} (l : list A) (f : A -> ST (Table * S) unit) (P : A -> Table -> Prop) t s :
  (forall a t1 t2, ix_step t1 t2 -> P a t1 -> P a t2) ->
  (forall a t1 s1, a ∈ l -> ix_step t t1 -> indexes_more (f a) t1 s1 (P a)) ->
  indexes_more (tfor l f) t s (fun t' => forall a, a ∈ l -> P a t').
Proof.
  intros Mono Step. assert (forall t1 s1, ix_step t t1 -> indexes_more (tfor l f) t1 s1 (fun t' => forall a, a ∈ l -> P a t')) as G;
    [|apply G, ix_step_refl].
  induction l as [|a l IH]; intros t1 s1 St.
  - exists t1, s1, tt. split_and!; [done|apply ix_step_refl| |intros; apply keeps_refl]. by intros a ?%elem_of_nil.
  - destruct (Step a t1 s1 ltac:(by left) St) as (t2 & s2 & [] & R2 & St2 & P2 & K2).
    destruct (IH (fun b t0 s0 Hb => Step b t0 s0 ltac:(by right)) t2 s2 (ix_step_trans _ _ _ St St2))
      as (t3 & s3 & [] & R3 & St3 & P3 & K3).
    exists t3, s3, tt. cbn [tfor]. unfold mbind, st_bind. rewrite R2. split_and!; [done|by eapply ix_step_trans| |].
    + intros b [->|Hb]%elem_of_cons; [by eapply Mono|by apply P3].
    + intros name. by eapply keeps_trans.
Qed.

Lemma the_table_ok {A} (f : Table -> ST (Table * S) A) t s : (t0 ← the_table; f t0) (t, s) = f t (t, s).
Proof. done. Qed.

Lemma index_column_ok row k c t s :
  Forall key_ok (values row) -> key_ok k ->
  indexes_more (index_column_entry row k c) t s
    (fun t' => forall ci v, tbl_column t' c = Some ci -> values row !! ci = Some v -> (v, k) ∈ index_entries t' c).
Proof.
  intros Kr Hk. unfold index_column_entry, indexes_more. rewrite the_table_ok.
  destruct (tbl_column t c) as [ci|] eqn:E; cbn [mbind option_bind].
  - destruct (values row !! ci) as [v|] eqn:Ev.
    + destruct (enter_ok c v k t s) as (t' & s' & [] & R & St & P & K); [by eapply Forall_lookup_1|done|].
      exists t', s', tt. split_and!; try done. intros ci' v' E' Ev'. destruct St as [[ix ->] _ _].
      change (tbl_column (set_indexes ix t) c) with (tbl_column t c) in E'. simplify_eq. done.
    + exists t, s, tt. split_and!; try done; [apply ix_step_refl|]. intros. congruence.
  - exists t, s, tt. split_and!; try done; [apply ix_step_refl|]. intros. congruence.
Qed.

Lemma index_composite_ok row k (d : bytes * list bytes) t s :
  key_ok k ->
  indexes_more (index_composite_entry row k d) t s
    (fun t' => forall cis vs, mapM (tbl_column t') d.2 = Some cis -> cells cis row = Some vs ->
       (encode_composite vs, k) ∈ index_entries t' d.1).
Proof.
  intros Hk. unfold index_composite_entry, indexes_more. rewrite the_table_ok.
  destruct (mapM (tbl_column t) d.2) as [cis|] eqn:E; cbn [mbind option_bind].
  - destruct (cells cis row) as [vs|] eqn:Ev.
    + destruct (enter_ok d.1 (encode_composite vs) k t s) as (t' & s' & [] & R & St & P & K); [done|done|].
      exists t', s', tt. split_and!; try done. intros cis' vs' E' Ev'. destruct St as [[ix ->] _ _].
      change (tbl_column (set_indexes ix t)) with (tbl_column t) in E'. simplify_eq. done.
    + exists t, s, tt. split_and!; try done; [apply ix_step_refl|]. intros. congruence.
  - exists t, s, tt. split_and!; try done; [apply ix_step_refl|]. intros. congruence.
Qed.

Lemma index_row_ok row t s :
  values row <> [] -> Forall key_ok (values row) -> key_ok (tbl_key t row) ->
  indexes_more (index_row row) t s (fun t' => has_row t' row).
Proof.
  intros Ne Kr Hk. unfold index_row, indexes_more. rewrite the_table_ok.
  rewrite (bool_decide_eq_false_2 (values row = [])) by done.
  destruct (_ && _) eqn:Em.
  { exists t, s, tt. split_and!; try done; [apply ix_step_refl|]. apply andb_prop in Em as [E1 E2].
    apply bool_decide_eq_true in E1, E2. split; [intros c ci v Hc; rewrite E1 in Hc; by apply elem_of_nil in Hc|].
    intros i cols cis vs Hi. by rewrite E2, lookup_empty in Hi. }
  destruct (tfor_index (indexed_columns t) (index_column_entry row (tbl_key t row))
    (fun c t' => forall ci v, tbl_column t' c = Some ci -> values row !! ci = Some v -> (v, tbl_key t row) ∈ index_entries t' c) t s)
    as (t1 & s1 & [] & R1 & St1 & P1 & K1).
  { intros c t1 t2 [[ix ->] G _] P ci v Hci Hv. apply G. by apply (P ci). }
  { intros c t1 s1 _ _. by apply index_column_ok. }
  destruct (tfor_index (map_to_list (composite_indexes t)) (index_composite_entry row (tbl_key t row))
    (fun d t' => forall cis vs, mapM (tbl_column t') d.2 = Some cis -> cells cis row = Some vs ->
       (encode_composite vs, tbl_key t row) ∈ index_entries t' d.1) t1 s1) as (t2 & s2 & [] & R2 & St2 & P2 & K2).
  { intros d t2 t3 [[ix ->] G _] P cis vs Hm Hv. apply G. by apply (P cis). }
  { intros d t2 s2 _ _. by apply index_composite_ok. }
  exists t2, s2, tt. unfold mbind, st_bind. cbn beta. rewrite R1, R2. split_and!; [done|by eapply ix_step_trans| |].
  - pose proof St1 as [[ix1 ->] _ _]. pose proof St2 as [[ix2 ->] G2 _]. split.
    + intros c ci v Hc Hci Hv. apply G2. by apply (P1 c Hc ci).
    + intros i cols cis vs Hi Hm Hv. apply (P2 (i, cols)) with (cis := cis); try done. by apply elem_of_map_to_list.
  - intros name. by eapply keeps_trans.
Qed.

End Maintenance.

(** * Tables over lawful storage *)

(** The same table with more index entries, its counters moved on. *)
Record tbl_step (t t' : Table) : Prop := {
  tst_name : t_name t' = t_name t;
  tst_columns : t_columns t' = t_columns t;
  tst_storage : has_storage t' = has_storage t;
  tst_indexed : indexed_columns t' = indexed_columns t;
  tst_composite : composite_indexes t' = composite_indexes t;
  tst_grow : forall index e, e ∈ index_entries t index -> e ∈ index_entries t' index;
  tst_wf : index_wf t -> index_wf t'
}.

Lemma tbl_step_refl t : tbl_step t t.
Proof. by split. Qed.
Lemma tbl_step_trans t1 t2 t3 : tbl_step t1 t2 -> tbl_step t2 t3 -> tbl_step t1 t3.
Proof. intros [] []. split; try congruence; auto. Qed.
Lemma ix_tbl_step t t' : ix_step t t' -> tbl_step t t'.
Proof. intros [[ix ->] G W]. by split. Qed.
Lemma bump_step n t : tbl_step t (bump n t).
Proof. by split. Qed.
#[local] Hint Resolve tbl_step_refl tbl_step_trans ix_tbl_step bump_step : corodb.

Lemma has_row_tbl_step t t' r : tbl_step t t' -> has_row t r -> has_row t' r.
Proof.
  intros [En Ec Es Ei Em G _] [C K].
  assert (tbl_key t' r = tbl_key t r) as Ek by (unfold tbl_key; by rewrite Ec).
  assert (tbl_column t' = tbl_column t) as Et by (unfold tbl_column; by rewrite Ec). split.
  - intros c ci v. rewrite Ei, Et, Ek. intros. apply G. by apply (C c ci).
  - intros i cols cis vs. rewrite Em, Et, Ek. intros. apply G. by apply (K i cols cis).
Qed.

(** The rows visible at a snapshot are all indexed. *)
Definition covers (t : Table) (v : view) (snap : Z) : Prop :=
  forall k r, key_ok k -> v snap k = Some r -> has_row t r.

Section Tables.
Context {S : Type} `{StorageLaws S}.
Implicit Types (s : S) (t : Table).

Record table_inv t s (hi : Value -> Z) (v : view) : Prop := {
  tbi_shown : shown s (t_name t) (t_columns t) hi v;
  tbi_storage : has_storage t = true;
  tbi_wf : index_wf t;
  tbi_rows sn k r : key_ok k -> v sn k = Some r -> values r <> [] /\ Forall key_ok (values r)
}.

Lemma inv_weaken t s hi hi' v v' :
  (forall k, hi k <= hi' k) -> (forall sn k, key_ok k -> v sn k = v' sn k) -> table_inv t s hi v -> table_inv t s hi' v'.
Proof.
  intros Lh Ev [Sh St Wf Rw]. split; [by eapply shown_weaken|done|done|]. intros sn k r Hk. rewrite <- Ev by done. by apply Rw.
Qed.

Lemma covers_ext t (v v' : view) snap : (forall sn k, key_ok k -> v sn k = v' sn k) -> covers t v snap -> covers t v' snap.
Proof. intros Ev C k r Hk. rewrite <- Ev by done. by apply C. Qed.

(** A row that can be stored and indexed. *)
Record row_ok t (r : Row) : Prop := {
  ro_cells : values r <> [];
  ro_values : Forall key_ok (values r);
  ro_key : key_ok (tbl_key t r)
}.

Lemma view_write_rows (P : Row -> Prop) (v : view) ts k o sn k' r :
  (o = Some r -> P r) -> (v sn k' = Some r -> P r) -> view_write v ts k o sn k' = Some r -> P r.
Proof. unfold view_write. intros A B. destruct (_ && _); auto. Qed.

Lemma covers_write t t' (v : view) ts k o snap :
  tbl_step t t' -> (forall r, o = Some r -> has_row t' r) -> covers t v snap -> covers t' (view_write v ts k o) snap.
Proof.
  intros St Ho C k' r Hk'. unfold view_write. destruct (_ && _); [by apply Ho|]. intros E.
  eapply has_row_tbl_step; [exact St|by eapply C].
Qed.

(** The result of writing key [k]. *)
Definition wrote t s hi (v : view) ts k (o : option Row) (left : Z) t' s' : Prop :=
  table_inv t' s' (newest_write hi ts k) (view_write v ts k o) /\ tbl_step t t' /\
  room s' (t_name t) (t_columns t) left /\
  (forall snap, covers t v snap -> covers t' (view_write v ts k o) snap) /\
  forall name, name <> t_name t -> keeps name s s'.

Lemma upsert_ok t s hi v row ts n :
  table_inv t s hi v -> row_ok t row -> hi (tbl_key t row) < ts <= UINT64_MAX -> 0 <= ts ->
  write_cost row <= n -> room s (t_name t) (t_columns t) n ->
  exists t' s', persist_row_upsert row ts (t, s) = ((t', s'), Ok tt) /\
    wrote t s hi v ts (tbl_key t row) (Some row) (n - write_cost row) t' s'.
Proof.
  intros [Sh St Wf Rw] [Ne Kr Hk] Fr T0 Cost Rm.
  destruct (law_append s (t_name t) (t_columns t) hi v row ts n Sh Hk Fr T0 Cost Rm) as (s1 & R1 & Sh1 & Rm1 & K1).
  destruct (index_row_ok row t s1 Ne Kr Hk) as (t2 & s2 & [] & R2 & St2 & P2 & K2).
  pose proof (ix_tbl_step _ _ St2) as Ts. exists (bump 1 t2), s2. split.
  { unfold persist_row_upsert. rewrite the_table_ok, St. cbn [negb]. unfold mbind, st_bind, on_storage. cbn beta. cbn [fst snd].
    rewrite R1. cbn beta iota. by rewrite R2. }
  assert (tbl_step t (bump 1 t2)) as Tb by eauto with corodb. split_and!; try done.
  - pose proof Ts as [En Ec Es _ _ _ Wt]. split.
    + cbn. rewrite En, Ec. by apply (K2 (t_name t)).
    + cbn. congruence.
    + by apply Tb.
    + intros sn k r Hkk. apply (view_write_rows (fun r => values r <> [] /\ Forall key_ok (values r)));
        [by intros [= <-]|by apply Rw].
  - by apply (K2 (t_name t)).
  - intros snap C. apply (covers_write t); [done| |done]. intros r [= <-]. eapply has_row_tbl_step; [apply bump_step|done].
  - intros name N. eapply keeps_trans; [by apply K1|apply K2].
Qed.

Lemma erase_ok t s hi v k ts n :
  table_inv t s hi v -> key_ok k -> hi k < ts <= UINT64_MAX -> 0 <= ts -> 1 <= n -> room s (t_name t) (t_columns t) n ->
  exists t' s', persist_row_delete k ts (t, s) = ((t', s'), Ok tt) /\ wrote t s hi v ts k None (n - 1) t' s'.
Proof.
  intros [Sh St Wf Rw] Hk Fr T0 Cost Rm.
  destruct (law_delete s (t_name t) (t_columns t) hi v k ts n Sh Hk Fr T0 Cost Rm) as (s1 & R1 & Sh1 & Rm1 & K1).
  exists (bump 1 t), s1. split.
  { unfold persist_row_delete. rewrite the_table_ok, St. cbn [negb]. unfold mbind, st_bind, on_storage. cbn beta. cbn [fst snd].
    by rewrite R1. }
  split_and!; try done.
  - split; try done. intros sn k' r Hk'. apply (view_write_rows (fun r => values r <> [] /\ Forall key_ok (values r))); [done|by apply Rw].
  - intros snap C. apply (covers_write t); [apply bump_step|done|done].
Qed.

(** ** Plans over tables *)

(** A table as the executor's plans see it during a statement. *)
Definition view_of t s : TableView :=
  mkView (t_name t) (t_columns t) (write_counter t)
    (fun ts => match (tbl_scan_visible_stream ts (t, s)).2 with
               | Ok rows => (rows, Ok tt)
               | Throw w => ([], Throw w)
               | UB w => ([], UB w)
               end)
    (fun ts => (tbl_scan_visible ts (t, s)).2)
    (fun k ts => (tbl_lookup_visible k ts (t, s)).2)
    (fun c k => lookup_index c k t)
    (fun c low li high hi => lookup_index_range c low li high hi t)
    (fun i key => lookup_index_composite i key t).

Lemma view_shows t s hi v snap :
  table_inv t s hi v -> exists rows, shows (view_of t s) snap rows /\ view_rows (t_columns t) v snap rows.
Proof.
  intros [Sh St Wf Rw]. destruct (law_stream s (t_name t) (t_columns t) hi v snap Sh) as (s1 & rows & R & V & _).
  exists rows. split; [|done]. destruct V as [N V]. split.
  - cbn. unfold tbl_scan_visible_stream. rewrite the_table_ok, St. unfold on_storage. cbn [fst snd]. by rewrite R.
  - apply Forall_forall. intros r Hr. by apply V in Hr as (? & _).
  - apply Forall_forall. intros r Hr. by apply V in Hr as (_ & ? & _).
  - exact N.
  - intros k Hk. destruct (law_lookup s (t_name t) (t_columns t) hi v k snap Sh Hk) as (s2 & R2 & _).
    exists (v snap k). split.
    { cbn. unfold tbl_lookup_visible. rewrite the_table_ok, St. unfold on_storage. cbn [fst snd]. by rewrite R2. }
    destruct (v snap k) as [r|] eqn:E.
    + pose proof (shown_key s _ _ hi v snap k r Sh Hk E) as Ek. split; [|done]. apply V. rewrite Ek.
      split_and!; [by eapply Rw|done|done].
    + intros (r & -> & Hr)%list_elem_of_fmap. apply V in Hr as (_ & _ & E'). cbn in E. unfold row_key in E. cbn in E. congruence.
Qed.

(** The access path is served by an index of the table. *)
Definition access_ok t (a : IndexAccess) : Prop :=
  match a with
  | IdxPoint c k => c ∈ indexed_columns t /\ is_Some (tbl_column t c) /\ key_ok k
  | IdxIn c ks => c ∈ indexed_columns t /\ is_Some (tbl_column t c) /\ Forall key_ok ks
  | IdxRange c low li high hi =>
      c ∈ indexed_columns t /\ is_Some (tbl_column t c) /\ (forall l, low = Some l -> key_ok l) /\
      (forall h, high = Some h -> key_ok h) /\ range_proper low li high hi = true
  | IdxComposite i cols key =>
      composite_indexes t !! i = Some cols /\ is_Some (mapM (tbl_column t) cols) /\ length key = length cols /\ Forall key_ok key
  end.

Lemma in_candidates t c ks :
  index_wf t -> Forall key_ok ks -> forall acc, NoDup acc -> Forall key_ok acc ->
  let r := foldl (fun pks k => foldl (fun pks p => vadd p pks) pks (lookup_index c k t)) acc ks in
  NoDup r /\ Forall key_ok r /\ forall pk, pk ∈ r <-> pk ∈ acc \/ exists k, k ∈ ks /\ (k, pk) ∈ index_entries t c.
Proof.
  intros Wf. induction 1 as [|k ks Hk Kk IH]; intros acc N Ka; cbn.
  { split_and!; try done. intros pk. split; [by left|]. intros [?|(k & []%elem_of_nil & _)]. done. }
  destruct (Wf c) as [So K]. destruct (lookup_index_spec t c k So K Hk) as (Nl & Kl & El).
  assert (forall l acc, Forall key_ok l -> NoDup acc -> Forall key_ok acc ->
    let r := foldl (fun pks p => vadd p pks) acc l in NoDup r /\ Forall key_ok r /\ forall pk, pk ∈ r <-> pk ∈ acc \/ pk ∈ l) as G.
  { clear. induction l as [|p l IH]; intros acc K N Ka; cbn.
    - split_and!; try done. intros pk. rewrite elem_of_nil. tauto.
    - apply Forall_cons in K as [Kp K]. destruct (IH (vadd p acc) K) as (N' & K' & E); [by apply vadd_NoDup|by apply vadd_key_ok|].
      split_and!; try done. intros pk. rewrite E, vadd_elem, elem_of_cons by done. tauto. }
  destruct (G _ acc Kl N Ka) as (N1 & K1 & E1). destruct (IH _ N1 K1) as (N2 & K2 & E2). split_and!; try done.
  intros pk. rewrite E2, E1, El. setoid_rewrite elem_of_cons. naive_solver.
Qed.

Lemma matching_cells t r cols key cis :
  Forall key_ok (values r) -> Forall key_ok key -> length key = length cols -> mapM (tbl_column t) cols = Some cis ->
  forallb (fun ck => match values r !! default O (tbl_column t ck.1) with Some v => ValueEq v ck.2 | None => false end)
    (zip cols key) = true -> cells cis r = Some key.
Proof.
  intros Kr Kk L M E. revert key cis Kk L M E. induction cols as [|c cols IH]; intros [|k key] cis Kk L M E; try done.
  { by injection M as <-. }
  cbn in M. destruct (tbl_column t c) as [ci|] eqn:Ec; [|done]. destruct (mapM (tbl_column t) cols) as [cis'|] eqn:Em; [|done].
  injection M as <-. apply Forall_cons in Kk as [Kk1 Kk]. cbn in L. cbn [zip zip_with forallb fst snd] in E.
  rewrite Ec in E. cbn [default from_option] in E. unfold id in E.
  destruct (values r !! ci) as [v|] eqn:Ev; [|done]. apply andb_prop in E as [E1 E2].
  assert (key_ok v) as Kv by exact (Forall_lookup_1 _ _ _ _ Kr Ev). apply ValueEq_eq in E1 as ->; [|done..].
  assert (cells cis' r = Some key) as Ct by (apply IH; [done|lia|done|exact E2]).
  unfold cells in *. cbn. by rewrite Ev, Ct.
Qed.

Lemma view_complete t s hi v snap a rows :
  table_inv t s hi v -> covers t v snap -> view_rows (t_columns t) v snap rows -> access_ok t a ->
  index_complete (view_of t s) a rows.
Proof.
  intros [Sh St Wf Rw] Cov [_ V] A.
  assert (forall r, r ∈ rows -> has_row t r /\ Forall key_ok (values r)) as Hrow.
  { intros r Hr. apply V in Hr as (_ & Hk & E). split; [by eapply Cov|by eapply Rw]. }
  assert (forall r c ci, r ∈ rows -> c ∈ indexed_columns t -> tbl_column t c = Some ci -> forall w, values r !! ci = Some w ->
            key_ok w /\ (w, tbl_key t r) ∈ index_entries t c) as Hcol.
  { intros r c ci Hr Hc Hci w Hw. destruct (Hrow r Hr) as [Hh Hv]. split; [by eapply Forall_lookup_1|by eapply hr_column]. }
  destruct a as [c k|c low li high hi'|c ks|i cols key]; cbn in A.
  - destruct A as (Hc & [ci Hci] & Hk). destruct (Wf c) as [So K]. destruct (lookup_index_spec t c k So K Hk) as (N & Kl & E).
    eexists. split; [reflexivity|]. split_and!; [done|done|]. intros r Hr M. cbn [row_matches index_column] in M.
    change (find_column (view_of t s) c) with (tbl_column t c) in M. rewrite Hci in M. cbn in M.
    destruct (values r !! ci) as [w|] eqn:Ew; [|done]. destruct (Hcol r c ci Hr Hc Hci w Ew) as [Kw In].
    apply ValueEq_eq in M as <-; [|done..]. by apply E.
  - destruct A as (Hc & [ci Hci] & Kl & Kh & P). destruct (Wf c) as [So K].
    destruct (lookup_range_spec t c low li high hi' So K Kl Kh P) as (pks & R & N & Kp & E).
    exists pks. split; [exact R|]. split_and!; [done|done|]. intros r Hr M. cbn [row_matches index_column] in M.
    change (find_column (view_of t s) c) with (tbl_column t c) in M. rewrite Hci in M. cbn [default from_option] in M. unfold id in M.
    destruct (values r !! ci) as [w|] eqn:Ew; [|done]. destruct (Hcol r c ci Hr Hc Hci w Ew) as [Kw In].
    apply E. by exists w.
  - destruct A as (Hc & [ci Hci] & Kk). destruct (in_candidates t c ks Wf Kk [] ltac:(constructor) ltac:(constructor)) as (N & Kl & E).
    eexists. split; [reflexivity|]. split_and!; [done|done|]. intros r Hr M. cbn [row_matches index_column] in M.
    change (find_column (view_of t s) c) with (tbl_column t c) in M. rewrite Hci in M. cbn in M.
    destruct (values r !! ci) as [w|] eqn:Ew; [|done]. destruct (Hcol r c ci Hr Hc Hci w Ew) as [Kw In].
    apply existsb_exists in M as (k & Hin%list_elem_of_In & M). rewrite Forall_forall in Kk.
    apply ValueEq_eq in M as <-; [|done|by apply Kk]. apply E. right. by exists w.
  - destruct A as (Hi & [cis Hm] & L & Kk). destruct (Wf i) as [So K].
    destruct (lookup_index_spec t i (encode_composite key) So K I) as (N & Kl & E).
    eexists. split; [reflexivity|]. split_and!; [done|done|]. intros r Hr M. destruct (Hrow r Hr) as [Hh Hv].
    apply E. eapply hr_composite; [done|done|done|]. by eapply matching_cells.
Qed.

(** ** Creating an index *)

Lemma emplace_all_perm (es : index_t) m : foldl (fun m e => mm_emplace e.1 e.2 m) m es ≡ₚ es ++ m.
Proof.
  revert m. induction es as [|[k w] es IH]; intros m; [done|]. cbn. rewrite IH, mm_emplace_perm. by rewrite <- Permutation_middle.
Qed.
Lemma emplace_all_sorted (es : index_t) m : mm_sorted m -> mm_sorted (foldl (fun m e => mm_emplace e.1 e.2 m) m es).
Proof. revert m. induction es as [|[k w] es IH]; intros m So; [done|]. cbn. by apply IH, mm_emplace_sorted. Qed.

Definition with_index (index : bytes) (m : index_t) t : Table := set_indexes (<[index := m]> (<[index := []]> (indexes t))) t.

Lemma rebuild_ok index (kf : Row -> option Value) t s hi v :
  table_inv t s hi v -> (forall r w, Forall key_ok (values r) -> kf r = Some w -> key_ok w) ->
  exists s' m, rebuild index kf (t, s) = ((with_index index m t, s'), Ok tt) /\ mm_sorted m /\ mm_keys_ok m /\
    (forall k r w, key_ok k -> v UINT64_MAX k = Some r -> kf r = Some w -> (w, tbl_key t r) ∈ m) /\
    forall name, keeps name s s'.
Proof.
  intros [Sh St Wf Rw] Kf. destruct (law_scan s (t_name t) (t_columns t) hi v UINT64_MAX Sh) as (s1 & rows & R1 & [_ V] & K1).
  set (es := omap (fun row => if bool_decide (values row = []) then None else (fun w => (w, tbl_key t row)) <$> kf row) rows).
  set (m := foldl (fun m e => mm_emplace e.1 e.2 m) [] es).
  assert (m ≡ₚ es) as Pm by (unfold m; rewrite emplace_all_perm; by rewrite app_nil_r).
  destruct (law_index_write (t_name t) index es s1) as (s2 & [] & R2 & K2). exists s2, m. split_and!.
  - unfold rebuild. rewrite the_table_ok. unfold mbind at 1, st_bind at 1, on_table at 1, modify at 1. cbn [fst snd].
    unfold source_rows. unfold mbind at 1, st_bind at 1. rewrite the_table_ok. cbn [has_storage set_indexes]. rewrite St.
    unfold on_storage at 1. cbn [fst snd t_name t_columns set_indexes]. rewrite R1. cbn [fst snd].
    unfold mbind, st_bind, on_table, modify. cbn [fst snd]. fold es. unfold stored, the_table, mbind, st_bind, gets. cbn [fst snd has_storage set_indexes].
    rewrite St. unfold on_storage. cbn [fst snd]. by rewrite R2.
  - apply emplace_all_sorted. constructor.
  - unfold mm_keys_ok. rewrite Pm. apply Forall_forall. intros [w k] He. apply list_elem_of_omap in He as (r & Hr & E).
    apply V in Hr as (Ne & Hk & Er). destruct (bool_decide _); [done|]. destruct (kf r) as [w'|] eqn:Ew; [|done]. injection E as <- <-.
    split; [|done]. eapply Kf; [by eapply Rw|done].
  - intros k r w Hk Er Ew. rewrite Pm. apply list_elem_of_omap. pose proof (shown_key s _ _ hi v _ k r Sh Hk Er) as Ek.
    destruct (Rw _ _ _ Hk Er) as [Ne _]. exists r. split; [apply V; rewrite Ek; done|].
    rewrite bool_decide_eq_false_2 by done. by rewrite Ew.
  - intros name. eapply keeps_trans; [apply K1|apply K2].
Qed.

Lemma with_index_entries index m t idx :
  index_entries (with_index index m t) idx = if decide (idx = index) then m else index_entries t idx.
Proof.
  unfold index_entries, with_index. cbn. destruct (decide (idx = index)) as [->|N]; [by rewrite lookup_insert_eq|].
  by rewrite !lookup_insert_ne.
Qed.

Lemma with_index_inv index m t s hi v : mm_sorted m -> mm_keys_ok m -> table_inv t s hi v -> table_inv (with_index index m t) s hi v.
Proof.
  intros So K [Sh St Wf Rw]. split; try done. intros idx. rewrite with_index_entries. destruct (decide (idx = index)); [done|apply Wf].
Qed.

Lemma inv_keeps t s s' hi v : (forall name, keeps name s s') -> table_inv t s hi v -> table_inv t s' hi v.
Proof. intros K [Sh St Wf Rw]. split; try done. by apply (K (t_name t)). Qed.

(** A new index with the keys of all newest rows. *)
Definition indexes_newest t s hi (v : view) t' s' : Prop :=
  table_inv t' s' hi v /\ (covers t v UINT64_MAX -> covers t' v UINT64_MAX) /\
  t_name t' = t_name t /\ t_columns t' = t_columns t /\ forall name, keeps name s s'.

Lemma set_indexed_inv t s hi v cols comps : table_inv t s hi v -> table_inv (set_indexed cols comps t) s hi v.
Proof. intros [Sh St Wf Rw]. by split. Qed.

Lemma create_single_ok c ci t s hi v :
  table_inv t s hi v -> tbl_column t c = Some ci -> c ∉ indexed_columns t -> composite_indexes t !! c = None ->
  exists t' s', create_single c ci (t, s) = ((t', s'), Ok tt) /\ indexes_newest t s hi v t' s' /\
    indexed_columns t' = indexed_columns t ++ [c] /\ composite_indexes t' = composite_indexes t.
Proof.
  intros I Hci Nc Nm. destruct (stored_quiet (se_create_index_file (t_name t) c) t s (law_index_create _ _))
    as (t0 & s1 & [] & R1 & _ & -> & K1).
  set (t1 := set_indexed (set_insert c (indexed_columns t)) (composite_indexes t) t).
  assert (table_inv t1 s1 hi v) as I1 by (apply set_indexed_inv; by eapply inv_keeps).
  destruct (rebuild_ok c (fun r => values r !! ci) t1 s1 hi v I1) as (s2 & m & R2 & So & K & Ent & K2).
  { intros r w Kr Hw. exact (Forall_lookup_1 _ _ _ _ Kr Hw). }
  exists (with_index c m t1), s2. assert (set_insert c (indexed_columns t) = indexed_columns t ++ [c]) as Ei
    by (unfold set_insert; by rewrite bool_decide_eq_false_2).
  split_and!; [|split_and!; try done|exact Ei|done].
  - unfold create_single. rewrite the_table_ok, bool_decide_eq_false_2 by done. unfold mbind, st_bind. rewrite R1.
    unfold on_table, modify. cbn [fst snd]. fold t1. exact R2.
  - apply with_index_inv; [done|done|]. by eapply inv_keeps.
  - intros Cov k r Hk Er. destruct (Cov k r Hk Er) as [Hc Hm]. split.
    + intros c' ci' w Hc' Hci' Hw. rewrite with_index_entries. destruct (decide (c' = c)) as [->|D].
      * change (tbl_column t c = Some ci') in Hci'. assert (ci' = ci) as -> by congruence. by apply (Ent k).
      * apply (Hc c' ci'); [|done|done]. cbn in Hc'. rewrite Ei in Hc'. apply elem_of_app in Hc' as [?|?%list_elem_of_singleton]; done.
    + intros i cols cis vs Hi Hmm Hv. rewrite with_index_entries. destruct (decide (i = c)) as [->|D].
      * cbn in Hi. congruence.
      * by apply (Hm i cols cis).
  - intros name. eapply keeps_trans; [apply K1|apply K2].
Qed.

Lemma create_composite_ok iname cols cis t s hi v :
  table_inv t s hi v -> mapM (tbl_column t) cols = Some cis -> iname ∉ indexed_columns t -> composite_indexes t !! iname = None ->
  exists t' s', create_composite iname cols cis (t, s) = ((t', s'), Ok tt) /\ indexes_newest t s hi v t' s' /\
    indexed_columns t' = indexed_columns t /\ composite_indexes t' = <[iname := cols]> (composite_indexes t).
Proof.
  intros I Hcis Nc Nm. set (t1 := set_indexed (indexed_columns t) (<[iname := cols]> (composite_indexes t)) t).
  destruct (stored_quiet (se_create_index_file (t_name t) iname) t1 s (law_index_create _ _)) as (t0 & s1 & [] & R1 & _ & -> & K1).
  assert (table_inv t1 s1 hi v) as I1 by (apply set_indexed_inv; by eapply inv_keeps).
  destruct (rebuild_ok iname (fun r => encode_composite <$> cells cis r) t1 s1 hi v I1) as (s2 & m & R2 & So & K & Ent & K2).
  { intros r w _ Hw. destruct (cells cis r); [|done]. by injection Hw as <-. }
  exists (with_index iname m t1), s2. split_and!; [|split_and!; try done|done|done].
  - unfold create_composite. rewrite the_table_ok, bool_decide_eq_false_2 by (rewrite Nm; by intros [? ?]).
    unfold mbind, st_bind, on_table, modify. cbn [fst snd]. fold t1. rewrite R1. exact R2.
  - apply with_index_inv; [done|done|]. by eapply inv_keeps.
  - intros Cov k r Hk Er. destruct (Cov k r Hk Er) as [Hc Hm]. split.
    + intros c' ci' w Hc' Hci' Hw. rewrite with_index_entries. destruct (decide (c' = iname)) as [->|D]; [done|by apply (Hc c' ci')].
    + intros i cols' cis' vs Hi Hmm Hv. rewrite with_index_entries. destruct (decide (i = iname)) as [->|D].
      * cbn in Hi. rewrite lookup_insert_eq in Hi. injection Hi as <-.
        change (mapM (tbl_column t) cols = Some cis') in Hmm. assert (cis' = cis) as -> by congruence.
        apply (Ent k r (encode_composite vs)); [done|done|by rewrite Hv].
      * cbn in Hi. rewrite lookup_insert_ne in Hi by done. by apply (Hm i cols' cis').
  - intros name. eapply keeps_trans; [apply K1|apply K2].
Qed.

(** The name under which an index is kept. *)
Definition index_id (iname : bytes) (cols : list bytes) : bytes := match cols with [c] => c | _ => iname end.

Lemma finish_index iname def t s hi v t1 s1 :
  indexes_newest t s hi v t1 s1 ->
  exists t' s', (_ ← register_name iname def; t0 ← the_table; if bool_decide (iname = []) then mret tt
                 else stored (se_save_index_registry (t_name t0) (map_to_list (index_name_registry t0)))) (t1, s1) = ((t', s'), Ok tt) /\
    indexes_newest t s hi v t' s' /\ indexed_columns t' = indexed_columns t1 /\ composite_indexes t' = composite_indexes t1.
Proof.
  intros (I & Cov & En & Ec & K). unfold register_name. destruct (bool_decide (iname = [])).
  { exists t1, s1. by split_and!. }
  set (t2 := set_registry (<[iname := def]> (index_name_registry t1)) t1).
  destruct (stored_quiet (se_save_index_registry (t_name t2) (map_to_list (index_name_registry t2))) t2 s1 (law_registry_save _ _))
    as (t0 & s2 & [] & R & _ & -> & K2).
  exists t2, s2. split_and!; try done. split_and!; try done.
  - eapply inv_keeps; [exact K2|]. destruct I as [Sh St Wf Rw]. by split.
  - intros C k r Hk Er. destruct (Cov C k r Hk Er) as [Hc Hm]. by split.
  - intros name. eapply keeps_trans; [apply K|apply K2].
Qed.

Lemma st_bind_assoc {X A B C} (m : ST X A) (f : A -> ST X B) (g : B -> ST X C) x : ((m ≫= f) ≫= g) x = (m ≫= (fun a => f a ≫= g)) x.
Proof. unfold mbind, st_bind. by destruct (m x) as [x' [a|w|w]]. Qed.

Lemma create_index_ok iname cols t s hi v :
  table_inv t s hi v -> cols <> [] -> is_Some (mapM (tbl_column t) cols) ->
  index_id iname cols ∉ indexed_columns t -> composite_indexes t !! index_id iname cols = None ->
  exists t' s', create_index iname cols (t, s) = ((t', s'), Ok tt) /\ indexes_newest t s hi v t' s' /\
    match cols with
    | [c] => indexed_columns t' = indexed_columns t ++ [c] /\ composite_indexes t' = composite_indexes t
    | _ => indexed_columns t' = indexed_columns t /\ composite_indexes t' = <[iname := cols]> (composite_indexes t)
    end.
Proof.
  intros I Ne [cis Hcis] Nc Nm. destruct cols as [|c [|c2 cols]]; [done| |].
  - cbn in Hcis. destruct (tbl_column t c) as [ci|] eqn:Ec; [|done]. injection Hcis as <-.
    destruct (create_single_ok c ci t s hi v I Ec Nc Nm) as (t1 & s1 & R1 & N1 & Ei & Em).
    destruct (finish_index iname c t s hi v t1 s1 N1) as (t2 & s2 & R2 & N2 & Ei2 & Em2).
    exists t2, s2. split_and!; [|done|congruence|congruence].
    unfold create_index. rewrite the_table_ok. cbn [mapM]. rewrite Ec. cbn [mbind option_bind mret option_ret default head from_option].
    rewrite st_bind_assoc. unfold id. unfold mbind at 1, st_bind at 1. rewrite R1. exact R2.
  - destruct (create_composite_ok iname (c :: c2 :: cols) cis t s hi v I Hcis Nc Nm) as (t1 & s1 & R1 & N1 & Ei & Em).
    destruct (finish_index iname (join_def (c :: c2 :: cols)) t s hi v t1 s1 N1) as (t2 & s2 & R2 & N2 & Ei2 & Em2).
    exists t2, s2. split_and!; [|done|congruence|congruence].
    unfold create_index. rewrite the_table_ok, Hcis. rewrite st_bind_assoc. unfold mbind at 1, st_bind at 1. rewrite R1. exact R2.
Qed.

(** ** Histories *)

Inductive change := Upsert (row : Row) (ts : Z) | Erase (k : Value) (ts : Z).

Definition apply_change (c : change) : ST (Table * S) unit :=
  match c with Upsert row ts => persist_row_upsert row ts | Erase k ts => persist_row_delete k ts end.

Definition change_key t (c : change) : Value := match c with Upsert row _ => tbl_key t row | Erase k _ => k end.
Definition change_ts (c : change) : Z := match c with Upsert _ ts | Erase _ ts => ts end.
Definition change_row (c : change) : option Row := match c with Upsert row _ => Some row | Erase _ _ => None end.
Definition change_cost (c : change) : Z := match c with Upsert row _ => write_cost row | Erase _ _ => 1 end.

Definition view_change t (v : view) (c : change) : view := view_write v (change_ts c) (change_key t c) (change_row c).
Definition newest_change t (hi : Value -> Z) (c : change) : Value -> Z := newest_write hi (change_ts c) (change_key t c).

Definition change_ok t (hi : Value -> Z) (c : change) : Prop :=
  hi (change_key t c) < change_ts c <= UINT64_MAX /\ 0 <= change_ts c /\
  match c with Upsert row _ => row_ok t row | Erase k _ => key_ok k end.

(** Each change is newer than the earlier ones of its key. *)
Fixpoint history_ok t (hi : Value -> Z) (cs : list change) : Prop :=
  match cs with
  | [] => True
  | c :: cs => change_ok t hi c /\ history_ok t (newest_change t hi c) cs
  end.

Lemma change_cost_pos c : 0 <= change_cost c.
Proof. destruct c as [row ts|k ts]; cbn; [|lia]. unfold write_cost. pose proof (blen_nonneg (encode_row row)). lia. Qed.

Lemma key_columns t t' r : t_columns t' = t_columns t -> tbl_key t' r = tbl_key t r.
Proof. unfold tbl_key. by intros ->. Qed.

Lemma history_ok_columns t t' cs : t_columns t' = t_columns t -> forall hi, history_ok t hi cs -> history_ok t' hi cs.
Proof.
  intros Ec. induction cs as [|c cs IH]; intros hi Hh; [done|]. destruct Hh as [(Fr & T0 & Ok0) Hh].
  assert (change_key t' c = change_key t c) as Ek by (destruct c; cbn; [by apply key_columns|done]).
  split.
  - unfold change_ok. rewrite Ek. split; [done|]. split; [done|]. destruct c as [row ts|k ts]; [|exact Ok0].
    destruct Ok0 as [Ne Kr Hk]. split; [done|done|]. by rewrite (key_columns t).
  - unfold newest_change in *. rewrite Ek. by apply IH.
Qed.

Lemma change_step t s hi v c n :
  table_inv t s hi v -> change_ok t hi c -> change_cost c <= n -> room s (t_name t) (t_columns t) n ->
  exists t' s', apply_change c (t, s) = ((t', s'), Ok tt) /\
    wrote t s hi v (change_ts c) (change_key t c) (change_row c) (n - change_cost c) t' s'.
Proof.
  intros I (Fr & T0 & Ok0) Cost Rm. destruct c as [row ts|k ts]; cbn in *; [by apply upsert_ok|by apply erase_ok].
Qed.

Lemma history_run t s hi v cs n :
  table_inv t s hi v -> history_ok t hi cs -> foldr Z.add 0 (map change_cost cs) <= n -> room s (t_name t) (t_columns t) n ->
  exists t' s', tfor cs apply_change (t, s) = ((t', s'), Ok tt) /\
    table_inv t' s' (foldl (newest_change t) hi cs) (foldl (view_change t) v cs) /\ tbl_step t t' /\
    (forall snap, covers t v snap -> covers t' (foldl (view_change t) v cs) snap) /\
    forall name, name <> t_name t -> keeps name s s'.
Proof.
  revert t s hi v n. induction cs as [|c cs IH]; intros t s hi v n I Hh Cost Rm.
  { exists t, s. by split_and!. }
  destruct Hh as [Hc Hh]. cbn [map foldr] in Cost.
  assert (0 <= foldr Z.add 0 (map change_cost cs)) by (clear; induction cs as [|c cs IH]; cbn; [lia|]; pose proof (change_cost_pos c); lia).
  destruct (change_step t s hi v c n I Hc ltac:(lia) Rm) as (t1 & s1 & R1 & I1 & St1 & Rm1 & C1 & K1).
  pose proof St1 as [En Ec _ _ _ _ _]. rewrite <- En, <- Ec in Rm1.
  pose proof (history_ok_columns t t1 cs Ec _ Hh) as Hh1.
  destruct (IH t1 s1 _ _ (n - change_cost c) I1 Hh1 ltac:(lia) Rm1) as (t2 & s2 & R2 & I2 & St2 & C2 & K2).
  assert (forall w, foldl (view_change t1) w cs = foldl (view_change t) w cs) as Ev.
  { intros w. apply foldl_ext. intros w' c'. unfold view_change. f_equal. destruct c'; cbn; [by apply key_columns|done]. }
  assert (forall w, foldl (newest_change t1) w cs = foldl (newest_change t) w cs) as Eh.
  { intros w. apply foldl_ext. intros w' c'. unfold newest_change. f_equal. destruct c'; cbn; [by apply key_columns|done]. }
  rewrite Ev, Eh in I2. rewrite Ev in C2. exists t2, s2. split_and!; [|done|by eapply tbl_step_trans| |].
  - cbn [tfor]. unfold mbind, st_bind. by rewrite R1.
  - intros snap Cov. by apply C2, C1.
  - intros name N. eapply keeps_trans; [by apply K1|]. apply K2. by rewrite En.
Qed.

(** From the newest timestamp on, a snapshot shows the newest rows. *)
Lemma covers_newest t s hi v snap :
  table_inv t s hi v -> (forall k, key_ok k -> hi k <= snap) -> snap <= UINT64_MAX -> covers t v UINT64_MAX -> covers t v snap.
Proof.
  intros [Sh _ _ _] Hi L C k r Hk. rewrite (shown_newest s _ _ hi v snap k Sh Hk); [by apply C|]. split; [by apply Hi|done].
Qed.

(** ** Properties *)

(** C24: after CREATE INDEX on a table and any sequence of upserts and deletes at
    rising timestamps, an index scan (point, range with bounds in order, IN
    list or composite) at a snapshot no older than the index returns exactly
    the rows of the sequential scan, with the transaction's own writes, that
    match the access path; the writes leave other tables alone. *)
Theorem index_scan_after_history {Q : Type} (session : option Session)
    (subq : option (Q -> Record_ -> bool -> res (list Value))) alias t s hi v iname cols cs n :
  table_inv t s hi v -> covers t v UINT64_MAX -> cols <> [] -> is_Some (mapM (tbl_column t) cols) ->
  index_id iname cols ∉ indexed_columns t -> composite_indexes t !! index_id iname cols = None ->
  history_ok t hi cs -> foldr Z.add 0 (map change_cost cs) <= n -> room s (t_name t) (t_columns t) n ->
  (forall k, key_ok k -> hi k <= scan_ts session <= UINT64_MAX) -> buffer_ok (own_writes session (view_of t s)) ->
  exists t' s', (_ ← create_index iname cols; tfor cs apply_change) (t, s) = ((t', s'), Ok tt) /\
    (match cols with
     | [c] => c ∈ indexed_columns t'
     | _ => composite_indexes t' !! iname = Some cols
     end) /\
    (forall name, name <> t_name t -> keeps name s s') /\
    forall a, access_ok t' a ->
      let mk := fun r => make_record_from_row (view_of t' s') r (binding_name (view_of t' s') alias) in
      exists seen out,
        run (execute_plan session subq (SeqScanPlan (view_of t' s') alias)) = (map mk seen, Ok tt) /\
        run (execute_plan session subq (IndexScanPlan (view_of t' s') alias a)) = (out, Ok tt) /\
        out ≡ₚ map mk (List.filter (row_matches (view_of t' s') a) seen).
Proof.
  intros I Cov Ne Hc Nc Nm Hh Cost Rm Sn B.
  destruct (create_index_ok iname cols t s hi v I Ne Hc Nc Nm) as (t1 & s1 & R1 & (I1 & C1 & En & Ec & K1) & Reg).
  assert (covers t1 v (scan_ts session)) as Cs
    by (apply (covers_newest t1 s1 hi); [done|intros k Hk; by apply Sn|by apply (Sn VNull)|by apply C1]).
  apply (K1 (t_name t)) in Rm. rewrite <- En, <- Ec in Rm.
  destruct (history_run t1 s1 hi v cs n I1 (history_ok_columns t t1 cs Ec _ Hh) Cost Rm) as (t2 & s2 & R2 & I2 & St2 & C2 & K2).
  pose proof St2 as [En2 Ec2 _ Ei2 Em2 _ _]. exists t2, s2. split_and!.
  - unfold mbind, st_bind. by rewrite R1.
  - rewrite Ei2, Em2. destruct cols as [|c [|c2 cols]]; [done| |]; destruct Reg as [E1 E2]; rewrite ?E1, ?E2;
      [apply elem_of_app; right; by left|apply lookup_insert_eq].
  - intros name N. eapply keeps_trans; [apply K1|]. apply K2. by rewrite En.
  - intros a A mk. destruct (view_shows t2 s2 _ _ (scan_ts session) I2) as (rows & Sh & V).
    apply (index_scan_filtered session subq (view_of t2 s2) alias a rows Sh).
    + unfold own_writes, buffer_of in *. cbn in *. by rewrite En2, En.
    + by eapply view_complete; [exact I2|apply C2|exact V|].
Qed.

End Tables.

(** The example engine's table, still without indexes. *)
Definition ex_tbl : Table := mkTbl (str "t") t_cols [] 0 true true false [] ∅ ∅ ∅ 0.
Definition ex_view : view := fun sn k => row_of (best sn k (contents EngineReads.ex_table [t_l0; t_l1])).

Lemma ex_tbl_inv : table_inv ex_tbl ex_engine (fun _ => 9) ex_view.
Proof.
  split; [|done| |].
  - exists EngineReads.ex_table, t_l0, [t_l1]. split_and!; [done|exact ex_table_ok|by eexists|by intros c| | |done].
    + assert (Forall (fun x => commit_ts x = 9 \/ commit_ts x = 8) (map snd (memtable EngineReads.ex_table)) /\
              Forall (fun y => commit_ts y < 8) (concat [t_l0; t_l1])) as [M L] by (split; repeat constructor; cbn; lia).
      rewrite Forall_forall in M, L. intros x y Hx Hy _ E. specialize (M x Hx). specialize (L y Hy). lia.
    + cbn. repeat (apply Forall_cons; split; [split; [cbn; lia|by cbn]|]). apply Forall_nil_2.
  - intros index. unfold index_entries. cbn. rewrite lookup_empty. split; constructor.
  - intros sn k r Hk. unfold ex_view. destruct (best sn k _) as [y|] eqn:B; [|done]. apply best_Some in B as (Hy & _).
    assert (Forall (fun y => tombstone y = false -> values (row y) <> [] /\ Forall key_ok (values (row y)))
              (contents EngineReads.ex_table [t_l0; t_l1])) as G by (repeat constructor; try done; repeat constructor).
    rewrite Forall_forall in G. specialize (G y Hy). cbn. destruct (tombstone y); [done|]. intros [= <-]. by apply G.
Qed.

(** An index on the second column, then row 3 moved to value 30, row 1 deleted, row 4 added. *)
Definition ex_history : list change := [Upsert (t_row 3 30) 11; Erase (VInt 1) 12; Upsert (t_row 4 30) 13].

Lemma index_scan_after_history_witness :
  exists t' s', (_ ← create_index (str "i") [str "v"]; tfor ex_history apply_change) (ex_tbl, ex_engine) = ((t', s'), Ok tt) /\
    exists out, run (execute_plan None (None : option (unit -> _)) (IndexScanPlan (view_of t' s') [] (IdxPoint (str "v") (VInt 30)))) = (out, Ok tt).
Proof.
  destruct (index_scan_after_history (Q := unit) None None [] ex_tbl ex_engine (fun _ => 9) ex_view (str "i") [str "v"] ex_history 200 ex_tbl_inv)
    as (t' & s' & R & Hc & _ & Sc).
  - intros k r Hk _. split; [by intros c ci v ?%elem_of_nil|]. intros i cols cis vs Hi. cbn in Hi. by rewrite lookup_empty in Hi.
  - done.
  - by eexists.
  - by intros ?%elem_of_nil.
  - done.
  - repeat (constructor; [split_and!; try done; split; try done; repeat constructor|]). constructor.
  - vm_compute. done.
  - eexists. split; [reflexivity|]. split_and!; try done. by left.
  - intros k Hk. done.
  - apply empty_buffer_ok.
  - exists t', s'. split; [exact R|].
    destruct (Sc (IdxPoint (str "v") (VInt 30))) as (seen & out & _ & E & _); [|by exists out].
    split_and!; [exact Hc| |exact I].
    assert (t_columns t' = t_cols) as Ec; [|unfold tbl_column; rewrite Ec; by eexists].
    change t' with (((t', s'), @Ok unit tt).1.1). rewrite <- R. vm_compute. reflexivity.
Defined.

(** Reversed range bounds take the iterator past the end of the map; an index
    created after a snapshot lacks the rows only that snapshot sees; a composite
    index cannot be dropped. *)
Lemma index_anomalies :
  (let t := (create_index (str "i") [str "v"] (ex_tbl, ex_engine)).1.1 in
   lookup_index_range (str "v") (Some (VInt 31)) true (Some (VInt 5)) true t = UB "iterator past the end") /\
  (let ts := (create_index (str "i") [str "v"] (ex_tbl, ex_engine)).1 in
   (run (execute_plan (Some (mkSession 0 RepeatableRead ∅ 5 0 ∅ ∅ [])) (None : option (unit -> _))
           (IndexScanPlan (view_of ts.1 ts.2) [] (IdxPoint (str "v") (VInt 20))))).1 = [] /\
   (tbl_scan_visible 5 ts).2 = Ok [t_row 1 20; t_row 2 4]) /\
  (let ts := (create_index (str "i") [str "id"; str "v"] (ex_tbl, ex_engine)).1 in
   (drop_index (str "i") ts).2 = Ok false).
Proof. vm_compute. repeat split. Qed.
