(* ===== verification/Dml.v ===== *)
(** INSERT, UPDATE and DELETE, the modifying plan nodes of
    [src/executor/executor.cpp].

    A statement of a transaction writes into the session's private buffer, after
    taking a row lock for each row of the table it changes; outside a
    transaction it writes into the table at the statement's timestamp.  The
    state a statement works on is the session, the lock manager, the target
    table and the storage engine. *)
From Stdlib Require Import ZArith Lia Strings.Byte.
From stdpp Require Import base numbers list gmap strings.
From S2P Require Import Prelude Values Codec Locks Eval Session Query Tables.
Local Open Scope Z_scope.

(** * Constraints *)

Definition validate_value (c : Column) (v : Value) : res unit :=
  match v with
  | VNull => if not_null c then Throw "ERROR: NULL value violates NOT NULL constraint" else Ok tt
  | _ =>
    match col_type c with
    | Boolean => match v with
                 | VInt n => if (n =? 0) || (n =? 1) then Ok tt else Throw "ERROR: BOOLEAN column accepts only TRUE/FALSE (0/1)"
                 | _ => Throw "ERROR: BOOLEAN column accepts only TRUE/FALSE (0/1)"
                 end
    | Date => match v with
              | VText s => if blen s <? 10 then Throw "ERROR: DATE column expects an ISO date string (>= 10 chars)" else Ok tt
              | _ => Throw "ERROR: DATE column expects an ISO date string (>= 10 chars)"
              end
    | Text => match v with VText _ => Ok tt | _ => Throw "ERROR: type mismatch: column expects TEXT" end
    | Int64 | Float64 | Decimal => if is_num v then Ok tt else Throw "ERROR: type mismatch: column expects a numeric value"
    | _ => Ok tt
    end
  end.

(** The columns and values that both exist are checked in turn. *)
Fixpoint validate_values (cols : list Column) (vs : list Value) : res unit :=
  match cols, vs with
  | c :: cols, v :: vs => _ ← validate_value c v; validate_values cols vs
  | _, _ => Ok tt
  end.
Definition validate_row_constraints (cols : list Column) (r : Row) : res unit := validate_values cols (values r).

(** * Plans *)

Record Assignment := mkAssign { as_column : nat; as_value : Expression }.

Inductive DmlPlan (Q : Type) :=
| InsertPlan (column_indexes : list nat) (rows : list (list Value))
| UpdatePlan (assignments : list Assignment) (where_ : option (BoolExpr Q))
| DeletePlan (where_ : option (BoolExpr Q)).
Arguments InsertPlan {Q}. Arguments UpdatePlan {Q}. Arguments DeletePlan {Q}.

(** [row.values[i] = v] with an index that the vector does not have is undefined. *)
Definition put_cell (i : nat) (v : Value) (r : Row) : res Row :=
  if (i <? length (values r))%nat then Ok (mkRow (<[i := v]> (values r))) else UB "vector index".

Fixpoint fill_row (idx : list nat) (vals : list Value) (r : Row) : res Row :=
  match idx with
  | [] => Ok r
  | i :: idx => match vals with
                | [] => UB "vector index"
                | v :: vals => r' ← put_cell i v r; fill_row idx vals r'
                end
  end.

(** A row of NULLs with the given values in the given columns. *)
Definition build_row (cols : list Column) (idx : list nat) (vals : list Value) : res Row :=
  fill_row idx vals (mkRow (replicate (length cols) VNull)).

Fixpoint build_rows (cols : list Column) (idx : list nat) (rows : list (list Value)) : res (list Row) :=
  match rows with
  | [] => Ok []
  | vals :: rows => r ← build_row cols idx vals; rs ← build_rows cols idx rows; Ok (r :: rs)
  end.

Fixpoint validate_rows (cols : list Column) (rows : list Row) : res unit :=
  match rows with
  | [] => Ok tt
  | r :: rows => _ ← validate_row_constraints cols r; validate_rows cols rows
  end.

(** * The state of a statement *)

Record Dml (S : Type) := mkDml {
  d_session : option Session;
  d_locks : option RowLock.RowLockManager;
  d_table : Table;
  d_storage : S
}.
Arguments mkDml {S}. Arguments d_session {S}. Arguments d_locks {S}. Arguments d_table {S}. Arguments d_storage {S}.

Section Statements.
Context {St : Type} `{StorageEngine St} {Q : Type}.

(** The subquery runner reads the database, so its answers depend on the state. *)
Variable runner : Dml St -> option (Q -> Record_ -> bool -> res (list Value)).
(** Whether the execution context has the storage engine. *)
Variable ctx_storage : bool.

Abbreviation DML := (ST (Dml St)).

Definition on_tbl {A} (m : ST (Table * St) A) : DML A := fun w =>
  let '((t, s), a) := m (d_table w, d_storage w) in (mkDml (d_session w) (d_locks w) t s, a).
Definition d_txn (w : Dml St) : Z := match d_session w with Some s => current_txn_id s | None => 0 end.
Definition d_buffer (w : Dml St) : TableTxnBuffer :=
  match d_session w with Some s => for_table (t_name (d_table w)) (write_buffer s) | None => empty_buffer end.
Definition set_buffer (b : TableTxnBuffer) (w : Dml St) : Dml St :=
  mkDml ((fun s => set_write_buffer (<[t_name (d_table w) := b]> (write_buffer s)) s) <$> d_session w)
    (d_locks w) (d_table w) (d_storage w).
Definition set_locks (l : RowLock.RowLockManager) (w : Dml St) : Dml St :=
  mkDml (d_session w) (Some l) (d_table w) (d_storage w).

Definition txn_acquire_row_lock (k : Value) : DML unit := fun w =>
  match d_locks w with
  | None => (w, Ok tt)
  | Some l =>
      let (l', holder) := RowLock.try_acquire (t_name (d_table w)) k (d_txn w) l in
      (set_locks l' w, match holder with
                       | None => Ok tt
                       | Some x => if x =? d_txn w then Ok tt else Throw "ERROR: write-write conflict"
                       end)
  end.

Definition row_record (t : Table) (r : Row) : Record_ :=
  mkRecord (values r) (map (fun c => mkBinding (t_name t) (col_name c)) (t_columns t)).

(** Whether a row satisfies the WHERE clause. *)
Definition satisfies (where_ : option (BoolExpr Q)) (r : Row) : DML bool := fun w =>
  (w, match where_ with
      | None => Ok true
      | Some e => b ← eval_bool (runner w) e (row_record (d_table w) r); Ok (bool_decide (b = SqlTrue))
      end).

(** A statement outside a transaction ends with the commit record of its timestamp. *)
Definition auto_ts (w : Dml St) : Z := match d_session w with Some s => auto_commit_ts s | None => 0 end.
Definition finish_auto (ts : Z) : DML unit :=
  if negb (ts =? 0) && ctx_storage then on_tbl (on_storage (se_mark_committed ts)) else mret tt.

Definition d_in_txn (w : Dml St) : bool := match d_session w with Some s => in_transaction s | None => false end.

(** [for_table] makes the table's buffer when it is first asked for. *)
Definition open_buffer : DML unit := modify (fun w => set_buffer (d_buffer w) w).

(** ** INSERT *)

Definition insert_buffered (r : Row) : DML unit :=
  t ← gets d_table;
  if bool_decide (values r = []) then on_tbl (insert_batch [r] 0) else
  let pk := tbl_key t r in
  b ← gets d_buffer;
  _ ← (if vmem pk (deletes b) then mret tt else
       if bool_decide (is_Some (vfind pk (upserts b))) then throw "ERROR: duplicate key in transaction" else
       old ← on_tbl (tbl_lookup_visible pk UINT64_MAX);
       if bool_decide (is_Some old) then throw "ERROR: duplicate key violates primary key" else mret tt);
  _ ← txn_acquire_row_lock pk;
  modify (fun w => let b := d_buffer w in set_buffer (mkBuffer (vput pk r (upserts b)) (vremove pk (deletes b))) w).

Definition row_pk (t : Table) (r : Row) : option Value :=
  if bool_decide (values r = []) then None else Some (tbl_key t r).

Fixpoint check_unique (seen : vset) (rows : list Row) : DML unit :=
  match rows with
  | [] => mret tt
  | r :: rows =>
      t ← gets d_table;
      match row_pk t r with
      | None => check_unique seen rows
      | Some pk =>
          if vmem pk seen then throw "ERROR: duplicate key in INSERT" else
          old ← on_tbl (tbl_lookup_visible pk UINT64_MAX);
          if bool_decide (is_Some old) then throw "ERROR: duplicate key violates primary key"
          else check_unique (vadd pk seen) rows
      end
  end.

Definition execute_insert (idx : list nat) (rows : list (list Value)) : DML unit :=
  t ← gets d_table;
  batch ← lift (build_rows (t_columns t) idx rows);
  _ ← lift (validate_rows (t_columns t) batch);
  in_txn ← gets d_in_txn;
  if (in_txn : bool) then _ ← open_buffer; tfor batch insert_buffered
  else
    _ ← check_unique [] batch;
    ts ← gets auto_ts;
    _ ← on_tbl (insert_batch batch ts);
    finish_auto ts.

(** ** UPDATE *)

(** The values are computed from the old row. *)
Definition assigned_value (t : Table) (old : Row) (a : Assignment) : res Value :=
  match as_value a with ELiteral v => Ok v | e => eval (row_record t old) e end.

Fixpoint assign_all (t : Table) (old : Row) (as_ : list Assignment) (new : Row) : res Row :=
  match as_ with
  | [] => Ok new
  | a :: as_ => v ← assigned_value t old a; new' ← put_cell (as_column a) v new; assign_all t old as_ new'
  end.

Definition apply_row_update (as_ : list Assignment) (where_ : option (BoolExpr Q)) (r : Row) : DML (option Row) :=
  t ← gets d_table;
  keep ← satisfies where_ r;
  if (keep : bool) then
    new ← lift (assign_all t r as_ r);
    _ ← lift (validate_row_constraints (t_columns t) new);
    mret (Some new)
  else mret None.

Definition put_upsert (pk : Value) (r : Row) : DML unit :=
  modify (fun w => let b := d_buffer w in set_buffer (mkBuffer (vput pk r (upserts b)) (deletes b)) w).

Definition update_base (as_ : list Assignment) (where_ : option (BoolExpr Q)) (base : Row) : DML unit :=
  if bool_decide (values base = []) then mret tt else
  t ← gets d_table;
  let pk := tbl_key t base in
  b ← gets d_buffer;
  if vmem pk (deletes b) then mret tt else
  new ← apply_row_update as_ where_ (default base (vfind pk (upserts b)));
  match new with
  | None => mret tt
  | Some r => _ ← txn_acquire_row_lock pk; put_upsert pk r
  end.

(** The keys of the table's rows, and the buffered keys that are not among them. *)
Definition base_keys (t : Table) (base : list Row) : vset :=
  foldl (fun s r => if bool_decide (values r = []) then s else vadd (tbl_key t r) s) [] base.
Definition pure_inserts (t : Table) (base : list Row) (b : TableTxnBuffer) : vmap Row :=
  List.filter (fun kr => negb (vmem kr.1 (base_keys t base))) (upserts b).

Definition update_own (as_ : list Assignment) (where_ : option (BoolExpr Q)) (pk : Value) : DML unit :=
  b ← gets d_buffer;
  match vfind pk (upserts b) with
  | None => mret tt
  | Some r =>
      new ← apply_row_update as_ where_ r;
      match new with
      | None => mret tt
      | Some r' => put_upsert pk r'
      end
  end.

(** Assignments outside a transaction are checked one by one. *)
Fixpoint assign_checked (t : Table) (old : Row) (as_ : list Assignment) (new : Row) : res Row :=
  match as_ with
  | [] => Ok new
  | a :: as_ =>
      v ← assigned_value t old a;
      match t_columns t !! as_column a with
      | None => UB "vector index"
      | Some c => _ ← validate_value c v; new' ← put_cell (as_column a) v new; assign_checked t old as_ new'
      end
  end.

Definition update_stored (as_ : list Assignment) (where_ : option (BoolExpr Q)) (ts : Z) (r : Row) : DML unit :=
  t ← gets d_table;
  keep ← satisfies where_ r;
  if (keep : bool) then new ← lift (assign_checked t r as_ r); on_tbl (persist_row_upsert new ts) else mret tt.

(** A row of a table without storage is changed once all its values are known. *)
Fixpoint pending_values (t : Table) (old : Row) (as_ : list Assignment) : res (list (nat * Value)) :=
  match as_ with
  | [] => Ok []
  | a :: as_ =>
      v ← assigned_value t old a;
      match t_columns t !! as_column a with
      | None => UB "vector index"
      | Some c => _ ← validate_value c v; rest ← pending_values t old as_; Ok ((as_column a, v) :: rest)
      end
  end.
Fixpoint put_cells (ps : list (nat * Value)) (r : Row) : res Row :=
  match ps with [] => Ok r | p :: ps => r' ← put_cell p.1 p.2 r; put_cells ps r' end.

Definition update_in_place (as_ : list Assignment) (where_ : option (BoolExpr Q)) (i : nat) : DML unit :=
  t ← gets d_table;
  match t_rows t !! i with
  | None => mret tt
  | Some r =>
      keep ← satisfies where_ r;
      if (keep : bool) then
        ps ← lift (pending_values t r as_);
        r' ← lift (put_cells ps r);
        on_tbl (on_table (fun t => set_rows (<[i := r']> (t_rows t)) t))
      else mret tt
  end.

Definition execute_update (as_ : list Assignment) (where_ : option (BoolExpr Q)) : DML unit :=
  in_txn ← gets d_in_txn;
  if (in_txn : bool) then
    _ ← open_buffer;
    base ← on_tbl (tbl_scan_visible UINT64_MAX);
    _ ← tfor base (update_base as_ where_);
    t ← gets d_table;
    b ← gets d_buffer;
    tfor (pure_inserts t base b).*1 (update_own as_ where_)
  else
    ts ← gets auto_ts;
    t ← gets d_table;
    _ ← (if has_storage t then
           base ← on_tbl (tbl_scan_visible UINT64_MAX);
           tfor base (update_stored as_ where_ ts)
         else tfor (seq 0 (length (t_rows t))) (update_in_place as_ where_));
    finish_auto ts.

(** ** DELETE *)

Definition delete_base (where_ : option (BoolExpr Q)) (base : Row) : DML unit :=
  if bool_decide (values base = []) then mret tt else
  t ← gets d_table;
  let pk := tbl_key t base in
  b ← gets d_buffer;
  if vmem pk (deletes b) then mret tt else
  keep ← satisfies where_ (default base (vfind pk (upserts b)));
  if (keep : bool) then
    _ ← txn_acquire_row_lock pk;
    modify (fun w => let b := d_buffer w in set_buffer (mkBuffer (verase pk (upserts b)) (vadd pk (deletes b))) w)
  else mret tt.

(** The keys of the given rows that satisfy the WHERE clause. *)
Fixpoint matching_keys (where_ : option (BoolExpr Q)) (krs : vmap Row) : DML (list Value) :=
  match krs with
  | [] => mret []
  | kr :: krs =>
      keep ← satisfies where_ kr.2;
      ks ← matching_keys where_ krs;
      mret (if (keep : bool) then kr.1 :: ks else ks)
  end.

Definition erase_own (pk : Value) : DML unit :=
  modify (fun w => let b := d_buffer w in set_buffer (mkBuffer (verase pk (upserts b)) (deletes b)) w).

Fixpoint deleted_keys (where_ : option (BoolExpr Q)) (rows : list Row) : DML (list Value) :=
  match rows with
  | [] => mret []
  | r :: rows =>
      keep ← satisfies where_ r;
      t ← gets d_table;
      ks ← deleted_keys where_ rows;
      mret (if (keep : bool) && negb (bool_decide (values r = [])) then tbl_key t r :: ks else ks)
  end.

(** [std::erase_if] on the rows of a table without storage: from position [i]
    on, a row that stays is moved down to [kept]. *)
Fixpoint erase_rows (where_ : option (BoolExpr Q)) (n i kept : nat) : DML nat :=
  match n with
  | O => mret kept
  | S n =>
      t ← gets d_table;
      let r := default (mkRow []) (t_rows t !! i) in
      gone ← satisfies where_ r;
      if (gone : bool) then erase_rows where_ n (S i) kept
      else if (kept =? i)%nat then erase_rows where_ n (S i) (S kept)
      else
        _ ← on_tbl (on_table (fun t => set_rows (<[i := mkRow []]> (<[kept := r]> (t_rows t))) t));
        erase_rows where_ n (S i) (S kept)
  end.

Definition execute_delete (where_ : option (BoolExpr Q)) : DML unit :=
  in_txn ← gets d_in_txn;
  if (in_txn : bool) then
    _ ← open_buffer;
    base ← on_tbl (tbl_scan_visible UINT64_MAX);
    _ ← tfor base (delete_base where_);
    t ← gets d_table;
    b ← gets d_buffer;
    ks ← matching_keys where_ (pure_inserts t base b);
    tfor ks erase_own
  else
    ts ← gets auto_ts;
    t ← gets d_table;
    _ ← (if has_storage t then
           base ← on_tbl (tbl_scan_visible UINT64_MAX);
           ks ← deleted_keys where_ base;
           tfor ks (fun k => on_tbl (persist_row_delete k ts))
         else
           n ← erase_rows where_ (length (t_rows t)) 0 0;
           on_tbl (on_table (fun t => set_rows (take n (t_rows t)) t)));
    finish_auto ts.

Definition execute_dml (p : DmlPlan Q) : DML unit :=
  match p with
  | InsertPlan idx rows => execute_insert idx rows
  | UpdatePlan as_ where_ => execute_update as_ where_
  | DeletePlan where_ => execute_delete where_
  end.

End Statements.
