(* ===== verification/DmlTxn.v ===== *)
(** Statements of a transaction: they change the session's buffer only, under row
    locks, and what the transaction sees changes as the statement says. *)
From Stdlib Require Import ZArith Lia Strings.Byte.
From stdpp Require Import base numbers list gmap strings.
From S2P Require Import Prelude Values Codec Sst Store Mvcc Engine EngineReads Locks Eval Session Query Scans Tables Storage Indexes Dml.
Local Open Scope Z_scope.

(** * Rows that fit a schema *)

Definition well_typed (cols : list Column) (r : Row) : Prop :=
  length (values r) = length cols /\ validate_row_constraints cols r = Ok tt.

(** The values a column admits: NULL unless it is declared NOT NULL, and otherwise
    the values of its type. *)
Inductive fits (c : Column) : Value -> Prop :=
| fits_null : not_null c = false -> fits c VNull
| fits_bool n : col_type c = Boolean -> n = 0 \/ n = 1 -> fits c (VInt n)
| fits_date s : col_type c = Date -> 10 <= blen s -> fits c (VText s)
| fits_text s : col_type c = Text -> fits c (VText s)
| fits_int n : col_type c ∈ [Int64; Float64; Decimal] -> fits c (VInt n)
| fits_double d : col_type c ∈ [Int64; Float64; Decimal] -> fits c (VDouble d)
| fits_untyped v : col_type c = Null -> v <> VNull -> fits c v.

(** A row of the schema: a fitting value for each column. *)
Definition conforms (cols : list Column) (r : Row) : Prop := Forall2 fits cols (values r).

Lemma validate_value_fits c v : validate_value c v = Ok tt <-> fits c v.
Proof.
  split.
  - unfold validate_value. destruct v as [|n|d|s].
    { destruct (not_null c) eqn:N; [done|]. intros _. by constructor. }
    all: destruct (col_type c) eqn:T; cbn; intros E; try done; try (by apply fits_untyped);
      try (first [apply fits_int | apply fits_double]; rewrite T; set_solver).
    + apply fits_bool; [done|]. destruct (Z.eqb_spec n 0), (Z.eqb_spec n 1); cbn in E; auto; done.
    + by apply fits_text.
    + apply fits_date; [done|]. destruct (Z.ltb_spec (blen s) 10); [done|lia].
  - intros [N|n T [-> | ->]|s T L|s T|n T|d T|v' T Nn]; unfold validate_value; rewrite ?N, ?T; try done.
    + destruct (Z.ltb_spec (blen s) 10); [lia|done].
    + set_unfold in T. by destruct T as [->|[->|[->|[]]]].
    + set_unfold in T. by destruct T as [->|[->|[->|[]]]].
    + by destruct v'.
Qed.

Lemma validate_values_fits cols vs : length vs = length cols -> validate_values cols vs = Ok tt <-> Forall2 fits cols vs.
Proof.
  revert vs. induction cols as [|c cols IH]; intros [|v vs] L; try done. cbn [validate_values].
  injection L as L. rewrite Forall2_cons, <- validate_value_fits, <- (IH vs L). destruct (validate_value c v) as [[]|e|e]; cbn; naive_solver.
Qed.

Lemma well_typed_conforms cols r : well_typed cols r <-> conforms cols r.
Proof.
  unfold well_typed, conforms, validate_row_constraints. split.
  - intros [L V]. by apply validate_values_fits.
  - intros F. assert (length (values r) = length cols) as L by (symmetry; by eapply Forall2_length). split; [done|]. by apply validate_values_fits.
Qed.

(** The columns that make up the key. *)
Definition key_column (cols : list Column) (i : nat) : bool :=
  if (pk_count cols <? 2)%nat then (i =? 0)%nat
  else match cols !! i with Some c => primary_key c | None => false end.

Lemma put_cell_ok i v r r' : put_cell i v r = Ok r' -> r' = mkRow (<[i := v]> (values r)) /\ (i < length (values r))%nat.
Proof. unfold put_cell. destruct (Nat.ltb_spec i (length (values r))); [|done]. by intros [= <-]. Qed.

Lemma put_cell_length i v r r' : put_cell i v r = Ok r' -> length (values r') = length (values r).
Proof. intros [-> _]%put_cell_ok. cbn. apply length_insert. Qed.

Lemma composite_from_insert cols j i v r :
  (forall c, cols !! i = Some c -> primary_key c = false) ->
  composite_from j cols (mkRow (<[(j + i)%nat := v]> (values r))) = composite_from j cols r.
Proof.
  revert j i. induction cols as [|c cols IH]; intros j i Hc; [done|]. cbn [composite_from values]. destruct i as [|i].
  - rewrite (Hc c eq_refl), Nat.add_0_r. f_equal. clear -cols. assert (forall m, (j < m)%nat ->
      composite_from m cols (mkRow (<[j := v]> (values r))) = composite_from m cols r) as G; [|apply G; lia].
    induction cols as [|c cols IH]; intros m L; [done|]. cbn [composite_from values]. rewrite list_lookup_insert_ne by lia.
    by rewrite IH by lia.
  - rewrite list_lookup_insert_ne by lia. f_equal. rewrite <- (IH (S j) i); [|done]. by replace (S j + i)%nat with (j + S i)%nat by lia.
Qed.

Lemma put_cell_key cols i v r r' : key_column cols i = false -> put_cell i v r = Ok r' -> extract_key r' cols = extract_key r cols.
Proof.
  intros Hk [-> L]%put_cell_ok. unfold extract_key, key_column in *. destruct (pk_count cols <? 2)%nat.
  - apply Nat.eqb_neq in Hk. unfold extract_key1. destruct r as [[|x l]]; cbn in *; [lia|]. by destruct i.
  - f_equal. apply (composite_from_insert cols 0). intros c E. by rewrite E in Hk.
Qed.

Lemma assign_all_shape t old as_ new new' :
  assign_all t old as_ new = Ok new' -> length (values new') = length (values new) /\
    (Forall (fun a => key_column (t_columns t) (as_column a) = false) as_ ->
     extract_key new' (t_columns t) = extract_key new (t_columns t)).
Proof.
  revert new. induction as_ as [|a as_ IH]; intros new; cbn [assign_all]; [by intros [= <-]|].
  destruct (assigned_value t old a) as [v|w|w]; [|done..]. cbn. destruct (put_cell _ v new) as [r|w|w] eqn:E; [|done..]. cbn.
  intros [L K]%IH. split; [rewrite L; by eapply put_cell_length|]. intros [Ka Ks]%Forall_cons.
  rewrite (K Ks). by eapply put_cell_key.
Qed.

Lemma fill_row_length idx vals r r' : fill_row idx vals r = Ok r' -> length (values r') = length (values r).
Proof.
  revert vals r. induction idx as [|i idx IH]; intros vals r; cbn; [by intros [= <-]|]. destruct vals as [|v vals]; [done|].
  destruct (put_cell i v r) as [r1|w|w] eqn:E; [|done..]. cbn. intros E'%IH. rewrite E'. by eapply put_cell_length.
Qed.

Lemma fill_row_values (P : Value -> Prop) idx vals r r' :
  Forall P vals -> Forall P (values r) -> fill_row idx vals r = Ok r' -> Forall P (values r').
Proof.
  revert vals r. induction idx as [|i idx IH]; intros vals r Pv Pr; cbn; [by intros [= <-]|]. destruct vals as [|v vals]; [done|].
  apply Forall_cons in Pv as [Pv Pvs]. destruct (put_cell i v r) as [r1|w|w] eqn:E; [|done..]. cbn. apply IH; [done|].
  apply put_cell_ok in E as [-> _]. by apply Forall_insert.
Qed.

Lemma build_rows_spec (P : Value -> Prop) cols idx rows batch :
  P VNull -> Forall (Forall P) rows -> build_rows cols idx rows = Ok batch ->
  Forall (fun r => length (values r) = length cols /\ Forall P (values r)) batch.
Proof.
  intros P0. revert batch. induction rows as [|vals rows IH]; intros batch Pr; cbn; [intros [= <-]; constructor|].
  apply Forall_cons in Pr as [Pv Pr]. unfold build_row. destruct (fill_row idx vals _) as [r|w|w] eqn:E; [|done..]. cbn.
  destruct (build_rows cols idx rows) as [rs|w|w]; [|done..]. cbn. intros [= <-]. constructor; [|by apply IH]. split.
  - apply fill_row_length in E. rewrite E. cbn. apply length_replicate.
  - eapply fill_row_values; [exact Pv| |exact E]. by apply Forall_replicate.
Qed.

Lemma validate_rows_spec cols batch : validate_rows cols batch = Ok tt -> Forall (fun r => validate_row_constraints cols r = Ok tt) batch.
Proof.
  induction batch as [|r batch IH]; intros E; [constructor|]. cbn in E. destruct (validate_row_constraints cols r) as [[]|w|w] eqn:Er; [|done..].
  constructor; [done|by apply IH].
Qed.

Lemma extract_key_ok r cols : Forall key_ok (values r) -> key_ok (extract_key r cols).
Proof.
  intros K. unfold extract_key, extract_key1. destruct (_ <? _)%nat; [|done]. destruct (values r) as [|v vs]; [done|].
  by apply Forall_cons in K as [? _].
Qed.

(** * Buffers over a table *)

(** The row a transaction with buffer [b] sees under a key of a table [base]. *)
Definition sees (b : TableTxnBuffer) (base : Value -> option Row) (k : Value) : option Row :=
  if vmem k (deletes b) then None else match vfind k (upserts b) with Some r => Some r | None => base k end.

Definition written (b : TableTxnBuffer) (k : Value) : Prop := k ∈ (upserts b).*1 \/ k ∈ deletes b.

Lemma vremove_absent k s : Forall key_ok s -> key_ok k -> k ∉ s -> vremove k s = s.
Proof.
  intros Ks Hk. induction s as [|k' s IH]; [done|]. apply Forall_cons in Ks as [Hk' Ks]. rewrite not_elem_of_cons. intros [N N'].
  cbn. destruct (ValueEq k k') eqn:E; [by apply ValueEq_eq in E|]. by rewrite IH.
Qed.

Lemma vmem_false k s : Forall key_ok s -> key_ok k -> vmem k s = false <-> k ∉ s.
Proof. intros Ks Hk. rewrite <- (vmem_elem k s) by done. by destruct (vmem k s). Qed.

Lemma vfind_erase {A} (m : vmap A) k k' :
  Forall key_ok m.*1 -> NoDup m.*1 -> key_ok k -> key_ok k' -> vfind k' (verase k m) = if decide (k' = k) then None else vfind k' m.
Proof.
  intros Km Nm Hk Hk'. destruct (verase_keys k m Km Hk Nm) as (Ne & Ke & E). case_decide as D.
  - subst k'. apply vfind_None; [done|done|]. intros ([? a] & Ek & Hin)%list_elem_of_fmap. cbn in Ek. subst. by apply E in Hin as [_ ?].
  - destruct (vfind k' m) as [a|] eqn:F.
    + apply elem_vfind; [done|done|]. apply E. split; [by apply vfind_elem|done].
    + apply vfind_None in F; [|done..]. apply vfind_None; [done|done|]. intros ([? a] & Ek & Hin)%list_elem_of_fmap. cbn in Ek. subst.
      apply E in Hin as [Hin _]. apply F. exact (list_elem_of_fmap_2 fst _ _ Hin).
Qed.

Section Buffers.
Context (b : TableTxnBuffer) (B : buffer_ok b) (k : Value) (Hk : key_ok k).

(** Writing a row, whether or not the key was deleted. *)
Lemma buffer_put r :
  let b' := mkBuffer (vput k r (upserts b)) (vremove k (deletes b)) in
  buffer_ok b' /\ (forall base k', key_ok k' -> sees b' base k' = if decide (k' = k) then Some r else sees b base k') /\
  (forall k', written b' k' -> k' = k \/ written b k') /\
  forall kr, kr ∈ upserts b' -> kr = (k, r) \/ kr ∈ upserts b.
Proof.
  destruct B as [Nu Ku Nd Kd D]. destruct (vput_keys k r (upserts b) Ku Hk Nu) as (N1 & K1 & E1).
  destruct (vremove_elem k (deletes b) Kd Hk Nd) as (N2 & K2 & E2). cbn. split_and!.
  - split; cbn; try done. intros k'. rewrite E1, E2. intros [->|Hu] [Hd Ne]; [done|]. by apply (D k').
  - intros base k' Hk'. unfold sees. cbn [deletes upserts]. rewrite vfind_put by done. destruct (decide (k' = k)) as [->|Ek].
    + assert (vmem k (vremove k (deletes b)) = false) as ->; [|done]. apply vmem_false; [done..|]. rewrite E2. tauto.
    + assert (vmem k' (vremove k (deletes b)) = vmem k' (deletes b)) as ->; [|done].
      apply eq_true_iff_eq. rewrite !vmem_elem, E2 by done. tauto.
  - intros k' [Hu|Hd]; cbn in *; [apply E1 in Hu as [->|?]; [by left|right; by left]|].
    apply E2 in Hd as [? _]. right. by right.
  - clear -Ku Nu Hk. intros kr. induction (upserts b) as [|[k0 r0] u IH]; cbn in *; [by intros ->%list_elem_of_singleton; left|].
    apply Forall_cons in Ku as [H0 Ku]. apply NoDup_cons in Nu as [_ Nu]. destruct (ValueEq k k0) eqn:E.
    + apply ValueEq_eq in E as <-; [|done..]. rewrite !elem_of_cons. tauto.
    + rewrite !elem_of_cons. specialize (IH Nu Ku). tauto.
Qed.

Lemma buffer_delete :
  let b' := mkBuffer (verase k (upserts b)) (vadd k (deletes b)) in
  buffer_ok b' /\ (forall base k', key_ok k' -> sees b' base k' = if decide (k' = k) then None else sees b base k') /\
  (forall k', written b' k' -> k' = k \/ written b k') /\ forall kr, kr ∈ upserts b' -> kr ∈ upserts b.
Proof.
  destruct B as [Nu Ku Nd Kd D]. destruct (verase_keys k (upserts b) Ku Hk Nu) as (N1 & K1 & E1).
  assert (forall k', k' ∈ (verase k (upserts b)).*1 -> k' ∈ (upserts b).*1 /\ k' <> k) as E1'.
  { intros k' ([? r] & -> & Hin)%list_elem_of_fmap. apply E1 in Hin as [Hin ?]. split; [exact (list_elem_of_fmap_2 fst _ _ Hin)|done]. }
  cbn. split_and!.
  - split; cbn; [done|done|by apply vadd_NoDup|by apply vadd_key_ok|]. intros k' [Hu N]%E1'. rewrite vadd_elem by done.
    intros [->|Hd]; [done|]. by apply (D k').
  - intros base k' Hk'. unfold sees. cbn [deletes upserts]. rewrite vfind_erase by done. destruct (decide (k' = k)) as [->|Ek].
    + assert (vmem k (vadd k (deletes b)) = true) as ->; [|done]. apply vmem_elem; [by apply vadd_key_ok|done|].
      apply vadd_elem; [done|done|by left].
    + assert (vmem k' (vadd k (deletes b)) = vmem k' (deletes b)) as ->; [|done].
      apply eq_true_iff_eq. rewrite !vmem_elem, vadd_elem by (done || by apply vadd_key_ok). tauto.
  - intros k' [Hu|Hd]; cbn in *; [apply E1' in Hu as [? _]; right; by left|].
    apply vadd_elem in Hd as [->|?]; [by left|right; by right|done..].
  - intros [k' r] Hin. by apply E1 in Hin as [? _].
Qed.

(** Taking back a write. *)
Lemma buffer_undo :
  let b' := mkBuffer (verase k (upserts b)) (deletes b) in
  buffer_ok b' /\ (forall (base : Value -> option Row) k', key_ok k' -> (k' = k -> base k' = None) ->
                     sees b' base k' = if decide (k' = k) then None else sees b base k') /\
  (forall k', written b' k' -> written b k') /\ forall kr, kr ∈ upserts b' -> kr ∈ upserts b.
Proof.
  destruct B as [Nu Ku Nd Kd D]. destruct (verase_keys k (upserts b) Ku Hk Nu) as (N1 & K1 & E1).
  assert (forall k', k' ∈ (verase k (upserts b)).*1 -> k' ∈ (upserts b).*1) as E1'.
  { intros k' ([? r] & -> & Hin)%list_elem_of_fmap. apply E1 in Hin as [Hin ?]. exact (list_elem_of_fmap_2 fst _ _ Hin). }
  cbn. split_and!.
  - split; cbn; try done. intros k' Hu%E1'. by apply (D k').
  - intros base k' Hk' Hb. unfold sees. cbn [deletes upserts]. rewrite vfind_erase by done. case_decide as Ek; [|done]. rewrite (Hb Ek).
    by destruct (vmem k' (deletes b)).
  - intros k' [Hu|Hd]; [left; by apply E1'|by right].
  - intros [k' r] Hin. by apply E1 in Hin as [? _].
Qed.

End Buffers.

Lemma tfor_outcome {W A} (l : list A) (f : A -> ST W unit) (I : list A -> W -> Prop) (E : W -> Prop) w :
  I [] w ->
  (forall done a todo w, l = done ++ a :: todo -> I done w ->
     match f a w with (w', Ok _) => I (done ++ [a]) w' | (w', _) => E w' end) ->
  match tfor l f w with (w', Ok _) => I l w' | (w', _) => E w' end.
Proof.
  intros I0 Step. assert (forall todo done w, l = done ++ todo -> I done w ->
    match tfor todo f w with (w', Ok _) => I l w' | (w', _) => E w' end) as G; [|by apply (G l [])].
  induction todo as [|a todo IH]; intros done w' El Id; cbn [tfor].
  - cbn. by rewrite El, app_nil_r.
  - specialize (Step done a todo w' El Id). unfold mbind, st_bind. destruct (f a w') as [w1 [[]|e|e]]; [|done..].
    apply (IH (done ++ [a])); [by rewrite <- app_assoc|done].
Qed.

Section Txn.
Context {St : Type} `{StorageLaws St} {Q : Type}.
Variable subq : option (Q -> Record_ -> bool -> res (list Value)).
Variable ctx_storage : bool.
Implicit Types (w : Dml St).
Abbreviation runner := (fun _ : Dml St => subq).

(** * The state of a running transaction *)

Definition may_write w (k : Value) : Prop :=
  match d_locks w with
  | None => True
  | Some l => RowLock.owner (RowLock.by_row l) (t_name (d_table w)) k = Some (d_txn w)
  end.

Definition locks_wf w : Prop := match d_locks w with None => True | Some l => RowLock.locks_ok l end.

(** The table shows [v]; the buffer has distinct keys, its rows fit the schema
    and are kept under their keys, and the transaction holds the lock of every
    row it has written. *)
Record txn_inv (t : Table) (hi : Value -> Z) (v : view) w : Prop := {
  ti_table : d_table w = t;
  ti_txn : d_in_txn w = true;
  ti_inv : table_inv t (d_storage w) hi v;
  ti_typed k r : key_ok k -> v UINT64_MAX k = Some r -> well_typed (t_columns t) r;
  ti_buffer : buffer_ok (d_buffer w);
  ti_rows : Forall (fun kr => well_typed (t_columns t) kr.2 /\ tbl_key t kr.2 = kr.1) (upserts (d_buffer w));
  ti_locks : locks_wf w;
  ti_held k : key_ok k -> written (d_buffer w) k -> may_write w k
}.

(** What a statement of a transaction leaves alone: the table and every other
    one, the rest of the session, the locks of others. *)
Record txn_step w w' : Prop := {
  ts_table : d_table w' = d_table w;
  ts_keeps name : keeps name (d_storage w) (d_storage w');
  ts_session : exists s ws, d_session w = Some s /\ d_session w' = Some (set_write_buffer ws s) /\
    forall name, name <> t_name (d_table w) -> ws !! name = write_buffer s !! name;
  ts_locks : match d_locks w, d_locks w' with
             | None, None => True
             | Some l, Some l' => forall t k, key_ok k ->
                 RowLock.owner (RowLock.by_row l') t k = RowLock.owner (RowLock.by_row l) t k \/
                 (RowLock.owner (RowLock.by_row l) t k = None /\ t = t_name (d_table w) /\
                  RowLock.owner (RowLock.by_row l') t k = Some (d_txn w))
             | _, _ => False
             end
}.

(** Another transaction holds the lock of a row of the table. *)
Definition conflict w : Prop :=
  exists l k x, d_locks w = Some l /\ key_ok k /\
    RowLock.owner (RowLock.by_row l) (t_name (d_table w)) k = Some x /\ x <> d_txn w.

Lemma set_buffer_same s : set_write_buffer (write_buffer s) s = s.
Proof. by destruct s. Qed.

Lemma txn_step_refl w : d_in_txn w = true -> txn_step w w.
Proof.
  unfold d_in_txn. destruct (d_session w) as [s|] eqn:E; [|done]. intros _. split; [done|intros; apply keeps_refl| |].
  - exists s, (write_buffer s). by rewrite set_buffer_same.
  - destruct (d_locks w); [by left|done].
Qed.

Lemma txn_step_txn w w' : txn_step w w' -> d_txn w' = d_txn w.
Proof. intros [_ _ (s & ws & E & E' & _) _]. unfold d_txn. by rewrite E, E'. Qed.

Section Steps.
Context (t : Table) (hi : Value -> Z) (v : view) (w0 : Dml St).

Definition good w : Prop := txn_inv t hi v w /\ txn_step w0 w.

Lemma good_start : txn_inv t hi v w0 -> good w0.
Proof. intros I. split; [done|]. apply txn_step_refl, I. Qed.

Lemma good_read w s' : good w -> (forall name, keeps name (d_storage w) s') -> good (mkDml (d_session w) (d_locks w) (d_table w) s').
Proof.
  intros [[Et Ei Ti Ty B R L Hd] [St1 K Se Lo]] Kp. split.
  - split; try done. destruct Ti as [Sh Hs Wf Rw]. split; [|done..]. by apply (Kp (t_name t)).
  - split; try done. intros name. eapply keeps_trans; [apply K|apply Kp].
Qed.

Lemma good_lookup w k :
  good w -> key_ok k -> exists s', on_tbl (tbl_lookup_visible k UINT64_MAX) w = (mkDml (d_session w) (d_locks w) (d_table w) s', Ok (v UINT64_MAX k)) /\
    good (mkDml (d_session w) (d_locks w) (d_table w) s').
Proof.
  intros G Hk. pose proof G as [[Et _ [Sh Hs _ _] _ _ _ _ _] _]. destruct (law_lookup (d_storage w) _ _ hi v k UINT64_MAX Sh Hk) as (s' & R & Kp).
  exists s'. split; [|by apply good_read]. unfold on_tbl, tbl_lookup_visible. rewrite the_table_ok, Et, Hs. unfold on_storage. cbn [fst snd].
  by rewrite R.
Qed.

Lemma good_scan w :
  good w -> exists s' rows, on_tbl (tbl_scan_visible UINT64_MAX) w = (mkDml (d_session w) (d_locks w) (d_table w) s', Ok rows) /\
    view_rows (t_columns t) v UINT64_MAX rows /\ good (mkDml (d_session w) (d_locks w) (d_table w) s').
Proof.
  intros G. pose proof G as [[Et _ [Sh Hs _ _] _ _ _ _ _] _]. destruct (law_scan (d_storage w) _ _ hi v UINT64_MAX Sh) as (s' & rows & R & V & Kp).
  exists s', rows. split_and!; [|done|by apply good_read]. unfold on_tbl, tbl_scan_visible. rewrite the_table_ok, Et, Hs.
  unfold on_storage. cbn [fst snd]. by rewrite R.
Qed.

Lemma buffer_set w b : d_in_txn w = true -> d_buffer (set_buffer b w) = b.
Proof.
  unfold d_in_txn, d_buffer. cbn. destruct (d_session w) as [s|]; [|done]. intros _. cbn. unfold for_table. by rewrite lookup_insert_eq.
Qed.

Lemma good_write w b :
  good w -> buffer_ok b -> Forall (fun kr => well_typed (t_columns t) kr.2 /\ tbl_key t kr.2 = kr.1) (upserts b) ->
  (forall k, key_ok k -> written b k -> may_write w k) -> good (set_buffer b w) /\ d_buffer (set_buffer b w) = b.
Proof.
  intros [[Et Ei Ti Ty B R L Hd] [St1 K Se Lo]] B' R' Hd'. pose proof (buffer_set w b Ei) as Eb. split; [|done].
  assert (d_txn (set_buffer b w) = d_txn w) as Ex by (unfold d_txn; cbn; by destruct (d_session w)). split.
  - split; rewrite ?Eb; try done; [unfold d_in_txn in *; cbn; by destruct (d_session w)|]. intros k Hk Hw. specialize (Hd' k Hk Hw).
    unfold may_write in *. cbn in *. by rewrite Ex.
  - split; try done. destruct Se as (s & ws & E & E' & O). exists s, (<[t_name (d_table w) := b]> ws). split_and!; [done|cbn; by rewrite E'|].
    intros name N. rewrite lookup_insert_ne; [by apply O|]. congruence.
Qed.

(** Taking a lock: it is granted, or another transaction had it from the start. *)
Lemma good_lock w k :
  good w -> key_ok k ->
  match txn_acquire_row_lock k w with
  | (w', Ok _) => good w' /\ d_buffer w' = d_buffer w /\ may_write w' k /\ (forall k', key_ok k' -> may_write w k' -> may_write w' k')
  | (w', Throw _) => good w' /\ conflict w0
  | (w', UB _) => False
  end.
Proof.
  intros G Hk. pose proof G as [[Et Ei Ti Ty B R L Hd] Sp]. pose proof (txn_step_txn _ _ Sp) as Ex. destruct Sp as [St1 Kp Se Lo].
  unfold txn_acquire_row_lock, may_write, locks_wf in *. destruct (d_locks w) as [l|] eqn:El; [|by rewrite El].
  pose proof (RowLock.acquire_ok (t_name (d_table w)) k (d_txn w) l _ Hk L (fun _ _ _ => eq_refl)) as A.
  destruct (RowLock.try_acquire _ k _ l) as [l' h]. cbn [RowLock.spec_step] in A.
  destruct (d_locks w0) as [l0|] eqn:El0; [|done].
  assert (good (set_locks l' w) /\ (forall k', key_ok k' -> RowLock.owner (RowLock.by_row l) (t_name (d_table w)) k' = Some (d_txn w) ->
    RowLock.owner (RowLock.by_row l') (t_name (d_table w)) k' = Some (d_txn w))) as [G' Mono].
  { assert (RowLock.locks_ok l' /\ forall t' k', key_ok k' -> RowLock.owner (RowLock.by_row l') t' k' = RowLock.owner (RowLock.by_row l) t' k' \/
      (RowLock.owner (RowLock.by_row l) t' k' = None /\ t' = t_name (d_table w) /\ RowLock.owner (RowLock.by_row l') t' k' = Some (d_txn w))) as [L' O'].
    { destruct (RowLock.owner (RowLock.by_row l) (t_name (d_table w)) k) as [y|] eqn:Eo; destruct A as (A1 & _ & A2); (split; [exact A1|]);
        intros t' k' Hk'; rewrite (A2 t' k' Hk'); [by left|]. case_decide as D; [|by left]. destruct D as [-> ->]. by right. }
    assert (forall k', key_ok k' -> RowLock.owner (RowLock.by_row l) (t_name (d_table w)) k' = Some (d_txn w) ->
      RowLock.owner (RowLock.by_row l') (t_name (d_table w)) k' = Some (d_txn w)) as Mono.
    { intros k' Hk' E. destruct (O' (t_name (d_table w)) k' Hk') as [->|(N & _)]; [done|congruence]. }
    split; [|exact Mono]. split.
    - split; try done. intros k' Hk' Hw. unfold may_write. cbn. by apply Mono, Hd.
    - split; try done. rewrite El0. cbn. intros t' k' Hk'. specialize (Lo t' k' Hk'). specialize (O' t' k' Hk').
      rewrite St1, Ex in O'. destruct O' as [->|(N & E1 & E2)]; [done|]. destruct Lo as [Lo|(_ & _ & Lo)]; [|congruence].
      right. by rewrite <- Lo. }
  destruct (RowLock.owner (RowLock.by_row l) (t_name (d_table w)) k) as [y|] eqn:Eo; destruct A as (A1 & Er & A2).
  - destruct (Z.eqb_spec y (d_txn w)) as [->|Ne]; subst h; cbn.
    + split_and!; [done|done| |exact Mono]. by apply Mono.
    + destruct (Z.eqb_spec y (d_txn w)); [done|]. split; [done|]. exists l0, k, y. split_and!; [done|done| |congruence].
      rewrite <- St1. destruct (Lo (t_name (d_table w)) k Hk) as [<-|(_ & _ & E)]; [done|]. rewrite Eo in E. injection E as ->. congruence.
  - subst h. cbn. split_and!; [done|done| |exact Mono]. rewrite A2 by done. by rewrite decide_True.
Qed.

(** ** Row by row *)

Lemma and_iff_compat_l_weak (A B C : Prop) : (A -> (B <-> C)) -> (A /\ B <-> A /\ C).
Proof. tauto. Qed.


Abbreviation base := (v UINT64_MAX).

(** [m] changes what the transaction sees under [k] by [g], or fails because
    the row is [bad] or locked. *)
Definition outcome (bad : option Row -> Prop) (g : option Row -> option Row) (ks : list Value) w (r : Dml St * res unit) : Prop :=
  match r with
  | (w', Ok _) => good w' /\ forall k, key_ok k -> sees (d_buffer w') base k =
                    if decide (k ∈ ks) then g (sees (d_buffer w) base k) else sees (d_buffer w) base k
  | (w', _) => good w' /\ ((exists k, key_ok k /\ k ∈ ks /\ bad (sees (d_buffer w) base k)) \/ conflict w0)
  end.

Lemma outcome_same bad g k w :
  good w -> g (sees (d_buffer w) base k) = sees (d_buffer w) base k -> outcome bad g [k] w (w, Ok tt).
Proof.
  intros G E. split; [done|]. intros k' _. case_decide as D; [|done]. apply list_elem_of_singleton in D as ->. done.
Qed.

Lemma keyed_loop {A} bad g (f : A -> ST (Dml St) unit) (key : A -> Value) l w :
  good w -> NoDup (map key l) -> Forall (fun a => key_ok (key a)) l ->
  (forall a w', a ∈ l -> good w' -> outcome bad g [key a] w' (f a w')) -> outcome bad g (map key l) w (tfor l f w).
Proof.
  intros G N K Step.
  apply (tfor_outcome l f
    (fun done w' => good w' /\ forall k, key_ok k -> sees (d_buffer w') base k =
       if decide (k ∈ map key done) then g (sees (d_buffer w) base k) else sees (d_buffer w) base k)
    (fun w' => good w' /\ ((exists k, key_ok k /\ k ∈ map key l /\ bad (sees (d_buffer w) base k)) \/ conflict w0))).
  { split; [done|]. intros k _. by rewrite decide_False by apply not_elem_of_nil. }
  intros done a todo w1 El [G1 S1]. assert (a ∈ l) as Ha by (rewrite El; set_solver). specialize (Step a w1 Ha G1).
  rewrite Forall_forall in K. pose proof (K a Ha) as Ka. rewrite El, map_app in N. apply NoDup_app in N as (_ & N & _).
  assert (key a ∉ map key done) as Nk by (intros Hin; apply (N _ Hin); by left).
  assert (key a ∈ map key l) as Kin by (rewrite El, map_app; set_solver).
  unfold outcome in Step. destruct (f a w1) as [w2 [[]|e|e]].
  - destruct Step as [G2 S2]. split; [done|]. intros k Hk. rewrite (S2 k Hk), (S1 k Hk), map_app. cbn [map].
    destruct (decide (k = key a)) as [->|D].
    + rewrite (decide_True (P := key a ∈ [key a])) by by left. rewrite decide_False by done.
      by rewrite decide_True by (apply elem_of_app; right; by left).
    + rewrite (decide_False (P := k ∈ [key a])) by (by rewrite list_elem_of_singleton).
      apply decide_ext. rewrite elem_of_app, list_elem_of_singleton. tauto.
  - destruct Step as [G2 [(k & Hk & ->%list_elem_of_singleton & Bk)|C]]; (split; [done|]); [left|by right].
    exists (key a). rewrite (S1 _ Hk), decide_False in Bk by done. done.
  - destruct Step as [G2 [(k & Hk & ->%list_elem_of_singleton & Bk)|C]]; (split; [done|]); [left|by right].
    exists (key a). rewrite (S1 _ Hk), decide_False in Bk by done. done.
Qed.

(** Writing a row, or deleting one, under a lock the transaction holds. *)
Lemma good_put w k r bad g :
  good w -> key_ok k -> may_write w k -> well_typed (t_columns t) r -> tbl_key t r = k -> g (sees (d_buffer w) base k) = Some r ->
  outcome bad g [k] w
    (set_buffer (mkBuffer (vput k r (upserts (d_buffer w))) (vremove k (deletes (d_buffer w)))) w, Ok tt).
Proof.
  intros G Hk M Ty Ek Eg. pose proof G as [[Et Ei Ti Tv B R L Hd] _].
  destruct (buffer_put (d_buffer w) B k Hk r) as (B' & S' & W' & U'). destruct (good_write w _ G B') as [G' Eb].
  - apply Forall_forall. intros kr [->|Hin]%U'; [done|]. rewrite Forall_forall in R. by apply R.
  - intros k' Hk' [->|Hw]%W'; [done|by apply Hd].
  - split; [done|]. intros k' Hk'. rewrite Eb, (S' base k' Hk'). destruct (decide (k' = k)) as [->|D].
    + by rewrite decide_True by by left.
    + by rewrite decide_False by (by rewrite list_elem_of_singleton).
Qed.

Lemma good_delete w k bad g :
  good w -> key_ok k -> may_write w k -> g (sees (d_buffer w) base k) = None ->
  outcome bad g [k] w (set_buffer (mkBuffer (verase k (upserts (d_buffer w))) (vadd k (deletes (d_buffer w)))) w, Ok tt).
Proof.
  intros G Hk M Eg. pose proof G as [[Et Ei Ti Tv B R L Hd] _].
  destruct (buffer_delete (d_buffer w) B k Hk) as (B' & S' & W' & U'). destruct (good_write w _ G B') as [G' Eb].
  - apply Forall_forall. intros kr Hin%U'. rewrite Forall_forall in R. by apply R.
  - intros k' Hk' [->|Hw]%W'; [done|by apply Hd].
  - split; [done|]. intros k' Hk'. rewrite Eb, (S' base k' Hk'). destruct (decide (k' = k)) as [->|D].
    + by rewrite decide_True by by left.
    + by rewrite decide_False by (by rewrite list_elem_of_singleton).
Qed.

Lemma good_undo w k bad g :
  good w -> key_ok k -> base k = None -> g (sees (d_buffer w) base k) = None ->
  outcome bad g [k] w (set_buffer (mkBuffer (verase k (upserts (d_buffer w))) (deletes (d_buffer w))) w, Ok tt).
Proof.
  intros G Hk Nb Eg. pose proof G as [[Et Ei Ti Tv B R L Hd] _].
  destruct (buffer_undo (d_buffer w) B k Hk) as (B' & S' & W' & U'). destruct (good_write w _ G B') as [G' Eb].
  - apply Forall_forall. intros kr Hin%U'. rewrite Forall_forall in R. by apply R.
  - intros k' Hk' Hw%W'. by apply Hd.
  - split; [done|]. intros k' Hk'. rewrite Eb, (S' base k' Hk') by (by intros ->). destruct (decide (k' = k)) as [->|D].
    + by rewrite decide_True by by left.
    + by rewrite decide_False by (by rewrite list_elem_of_singleton).
Qed.

(** What the transaction sees, by the buffer's two parts. *)
Lemma sees_deleted b k : vmem k (deletes b) = true -> sees b base k = None.
Proof. unfold sees. by intros ->. Qed.
Lemma sees_base b k r : vmem k (deletes b) = false -> base k = Some r -> sees b base k = Some (default r (vfind k (upserts b))).
Proof. unfold sees. intros -> ->. by destruct (vfind k (upserts b)). Qed.
Lemma sees_own b k r : buffer_ok b -> key_ok k -> vfind k (upserts b) = Some r -> sees b base k = Some r.
Proof.
  intros B Hk F. unfold sees. rewrite F. assert (vmem k (deletes b) = false) as ->; [|done]. apply vmem_false; [apply B|done|].
  apply (bo_disjoint _ B). apply vfind_elem in F; [|apply B|done]. exact (list_elem_of_fmap_2 fst _ _ F).
Qed.

(** Every row the transaction sees fits the schema and has its key. *)
Lemma seen_typed w k r : good w -> key_ok k -> sees (d_buffer w) base k = Some r -> well_typed (t_columns t) r /\ tbl_key t r = k.
Proof.
  intros [[Et Ei [Sh _ _ _] Tv B R L Hd] _] Hk. unfold sees. destruct (vmem k _); [done|]. destruct (vfind k _) as [u|] eqn:F.
  - intros [= <-]. apply vfind_elem in F; [|apply B|done]. rewrite Forall_forall in R. exact (R _ F).
  - intros E. split; [by eapply Tv|]. exact (shown_key _ _ _ _ _ _ _ _ Sh Hk E).
Qed.

(** ** UPDATE *)

Definition row_satisfies (where_ : option (BoolExpr Q)) (r : Row) : res bool :=
  match where_ with
  | None => Ok true
  | Some e => b ← eval_bool subq e (row_record t r); Ok (bool_decide (b = SqlTrue))
  end.

Lemma satisfies_eq where_ r w : d_table w = t -> satisfies runner where_ r w = (w, row_satisfies where_ r).
Proof. intros E. unfold satisfies, row_satisfies. by rewrite E. Qed.

(** The row that replaces a row, or nothing when it does not satisfy the condition. *)
Definition row_update (as_ : list Assignment) (where_ : option (BoolExpr Q)) (r : Row) : res (option Row) :=
  keep ← row_satisfies where_ r;
  if (keep : bool) then
    new ← assign_all t r as_ r; _ ← validate_row_constraints (t_columns t) new; Ok (Some new)
  else Ok None.

Lemma apply_row_update_eq as_ where_ r w : d_table w = t -> apply_row_update runner as_ where_ r w = (w, row_update as_ where_ r).
Proof.
  intros E. unfold apply_row_update, row_update. unfold mbind at 1, st_bind at 1, gets at 1. rewrite E.
  unfold mbind at 1, st_bind at 1. rewrite satisfies_eq by done. destruct (row_satisfies where_ r) as [[]|e|e]; try done.
  unfold mbind, st_bind, lift. destruct (assign_all t r as_ r) as [new|e|e]; try done. cbn.
  by destruct (validate_row_constraints (t_columns t) new).
Qed.

Lemma row_update_typed as_ where_ r r' :
  Forall (fun a => key_column (t_columns t) (as_column a) = false) as_ -> well_typed (t_columns t) r ->
  row_update as_ where_ r = Ok (Some r') -> well_typed (t_columns t) r' /\ tbl_key t r' = tbl_key t r.
Proof.
  intros Kk [Len _]. unfold row_update. destruct (row_satisfies where_ r) as [[]|e|e]; [|done..]. cbn.
  destruct (assign_all t r as_ r) as [new|e|e] eqn:E; [|done..]. cbn. destruct (validate_row_constraints _ new) as [[]|e|e] eqn:V; [|done..].
  intros [= <-]. apply assign_all_shape in E as [L K]. split; [split; [congruence|done]|by apply K].
Qed.

(** What an UPDATE makes of a row, and the rows on which it fails. *)
Definition updated as_ where_ (o : option Row) : option Row :=
  match o with
  | None => None
  | Some r => match row_update as_ where_ r with Ok (Some r') => Some r' | _ => Some r end
  end.
Definition update_fails as_ where_ (o : option Row) : Prop :=
  exists r, o = Some r /\ forall x, row_update as_ where_ r <> Ok x.

Section Update.
Context (as_ : list Assignment) (where_ : option (BoolExpr Q)).
Context (Kk : Forall (fun a => key_column (t_columns t) (as_column a) = false) as_).

Lemma update_base_ok a w :
  good w -> values a <> [] -> key_ok (tbl_key t a) -> base (tbl_key t a) = Some a ->
  outcome (update_fails as_ where_) (updated as_ where_) [tbl_key t a] w (update_base runner as_ where_ a w).
Proof.
  intros G Ne Hk Hb. pose proof G as [[Et _ _ _ B _ _ _] _]. unfold update_base. rewrite bool_decide_eq_false_2 by done.
  unfold mbind at 1, st_bind at 1, gets at 1. rewrite Et. unfold mbind at 1, st_bind at 1, gets at 1.
  destruct (vmem (tbl_key t a) (deletes (d_buffer w))) eqn:D.
  { apply outcome_same; [done|]. by rewrite (sees_deleted _ _ D). }
  pose proof (sees_base _ _ _ D Hb) as Se. set (cur := default a (vfind (tbl_key t a) (upserts (d_buffer w)))) in *.
  destruct (seen_typed w _ _ G Hk Se) as [Ty Key]. unfold mbind at 1, st_bind at 1. rewrite apply_row_update_eq by done.
  destruct (row_update as_ where_ cur) as [[r|]|e|e] eqn:E.
  - destruct (row_update_typed as_ where_ cur r Kk Ty E) as [Ty' Key']. rewrite Key in Key'.
    pose proof (good_lock w _ G Hk) as L. unfold mbind, st_bind. destruct (txn_acquire_row_lock (tbl_key t a) w) as [w1 [[]|e|e]]; [| |done].
    + destruct L as (G1 & Eb & M & Mono). pose proof G1 as [[_ _ _ _ B1 _ _ _] _]. rewrite <- Eb in D.
      apply vmem_false in D; [|apply B1|done]. unfold put_upsert, modify. cbv beta zeta.
      rewrite <- (vremove_absent (tbl_key t a) (deletes (d_buffer w1))) at 1; [|apply B1|done|done].
      unfold outcome. rewrite <- Eb. apply (good_put w1 _ _ (update_fails as_ where_)); try done. rewrite Eb, Se. cbn. by rewrite E.
    + destruct L as [G1 C]. split; [done|by right].
  - apply outcome_same; [done|]. rewrite Se. cbn. by rewrite E.
  - split; [done|]. left. exists (tbl_key t a). split_and!; [done|by left|]. exists cur. split; [done|]. intros x. by rewrite E.
  - split; [done|]. left. exists (tbl_key t a). split_and!; [done|by left|]. exists cur. split; [done|]. intros x. by rewrite E.
Qed.

Lemma update_own_ok k w :
  good w -> key_ok k -> base k = None ->
  outcome (update_fails as_ where_) (updated as_ where_) [k] w (update_own runner as_ where_ k w).
Proof.
  intros G Hk Hb. pose proof G as [[Et _ _ _ B _ _ Hd] _]. unfold update_own. unfold mbind at 1, st_bind at 1, gets at 1.
  destruct (vfind k (upserts (d_buffer w))) as [u|] eqn:F; last first.
  { apply outcome_same; [done|]. unfold sees. rewrite F, Hb. by destruct (vmem k _). }
  pose proof (sees_own _ k u B Hk F) as Se. destruct (seen_typed w _ _ G Hk Se) as [Ty Key].
  apply vfind_elem in F; [|apply B|done]. assert (k ∈ (upserts (d_buffer w)).*1) as Ku by exact (list_elem_of_fmap_2 fst _ _ F).
  unfold mbind at 1, st_bind at 1. rewrite apply_row_update_eq by done. destruct (row_update as_ where_ u) as [[r|]|e|e] eqn:E.
  - destruct (row_update_typed as_ where_ u r Kk Ty E) as [Ty' Key']. rewrite Key in Key'. unfold put_upsert, modify. cbv beta zeta.
    rewrite <- (vremove_absent k (deletes (d_buffer w))) at 1; [|apply B|done|by apply (bo_disjoint _ B)].
    apply good_put; try done; [apply Hd; [done|by left]|]. rewrite Se. cbn. by rewrite E.
  - apply outcome_same; [done|]. rewrite Se. cbn. by rewrite E.
  - split; [done|]. left. exists k. split_and!; [done|by left|]. exists u. split; [done|]. intros x. by rewrite E.
  - split; [done|]. left. exists k. split_and!; [done|by left|]. exists u. split; [done|]. intros x. by rewrite E.
Qed.

End Update.

(** ** Whole statements *)

Section Rows.
Context (rows : list Row) (V : view_rows (t_columns t) v UINT64_MAX rows) (I0 : txn_inv t hi v w0).

Lemma row_facts r : r ∈ rows -> values r <> [] /\ key_ok (tbl_key t r) /\ base (tbl_key t r) = Some r.
Proof. destruct V as [_ E]. apply E. Qed.

Lemma base_none k : key_ok k -> k ∉ map (tbl_key t) rows -> base k = None.
Proof.
  intros Hk N. destruct (base k) as [r|] eqn:E; [|done]. destruct I0 as [_ _ [Sh _ _ Rw] _ _ _ _ _].
  pose proof (shown_key _ _ _ _ _ _ _ _ Sh Hk E) as Ek. destruct N. rewrite <- Ek.
  change (tbl_key t r ∈ map (tbl_key t) rows). apply list_elem_of_fmap_2. apply V. rewrite Ek. split; [by eapply Rw|done].
Qed.

Lemma base_keys_spec k : key_ok k -> vmem k (base_keys t rows) = true <-> k ∈ map (tbl_key t) rows.
Proof.
  intros Hk. assert (forall l acc, Forall (fun r => values r <> [] /\ key_ok (tbl_key t r)) l -> Forall key_ok acc ->
    let s := foldl (fun s r => if bool_decide (values r = []) then s else vadd (tbl_key t r) s) acc l in
    Forall key_ok s /\ (k ∈ s <-> k ∈ acc \/ k ∈ map (tbl_key t) l)) as G.
  { induction l as [|r l IH]; intros acc Fl Ka; cbn. { split; [done|]. rewrite elem_of_nil. tauto. }
    apply Forall_cons in Fl as [[Ne Kr] Fl]. rewrite bool_decide_eq_false_2 by done.
    destruct (IH (vadd (tbl_key t r) acc) Fl) as [K E]; [by apply vadd_key_ok|]. split; [done|].
    rewrite E, vadd_elem, elem_of_cons by done. tauto. }
  destruct (G rows [] ltac:(apply Forall_forall; intros r Hr; destruct (row_facts r Hr) as (? & ? & _); done) ltac:(constructor)) as [K E].
  unfold base_keys. rewrite vmem_elem, E, elem_of_nil by done. tauto.
Qed.

Lemma pure_keys b k r : buffer_ok b -> (k, r) ∈ pure_inserts t rows b <-> (k, r) ∈ upserts b /\ k ∉ map (tbl_key t) rows.
Proof.
  intros B. unfold pure_inserts. rewrite !list_elem_of_In, filter_In, <- !list_elem_of_In. apply and_iff_compat_l_weak. intros Hin.
  assert (key_ok k) as Hk. { pose proof (bo_upsert_keys _ B) as K. rewrite Forall_forall in K. apply K. exact (list_elem_of_fmap_2 fst _ _ Hin). }
  rewrite <- base_keys_spec by done. cbn. destruct (vmem k _); naive_solver.
Qed.

Lemma pure_NoDup b : buffer_ok b -> NoDup (pure_inserts t rows b).*1.
Proof.
  intros [Nu _ _ _ _]. unfold pure_inserts. revert Nu. generalize (fun kr : Value * Row => negb (vmem kr.1 (base_keys t rows))). intros f.
  induction (upserts b) as [|kr u IH]; [done|]. cbn. intros [N1 N2]%NoDup_cons. specialize (IH N2). destruct (f kr); [|done]. cbn.
  constructor; [|done]. intros (x & E & Hin)%list_elem_of_fmap. apply N1. rewrite E. apply list_elem_of_fmap_2.
  by apply list_elem_of_In, filter_In in Hin as [? _]; apply list_elem_of_In.
Qed.

(** The rows of the table, then the transaction's own new rows. *)
Lemma two_phases bad g w1 w2 r :
  g None = None -> outcome bad g (map (tbl_key t) rows) w1 (w2, Ok tt) ->
  outcome bad g (pure_inserts t rows (d_buffer w2)).*1 w2 r ->
  match r with
  | (w', Ok _) => good w' /\ forall k, key_ok k -> sees (d_buffer w') base k = g (sees (d_buffer w1) base k)
  | (w', _) => good w' /\ ((exists k, key_ok k /\ bad (sees (d_buffer w1) base k)) \/ conflict w0)
  end.
Proof.
  intros G0 [G2 S2]. pose proof G2 as [[_ _ _ _ B2 _ _ _] _].
  assert (forall k, k ∈ (pure_inserts t rows (d_buffer w2)).*1 -> k ∉ map (tbl_key t) rows) as Pk.
  { intros k ([k' r'] & -> & Hin)%list_elem_of_fmap. by apply pure_keys in Hin as [_ ?]. }
  unfold outcome. destruct r as [w3 [[]|e|e]].
  - intros [G3 S3]. split; [done|]. intros k Hk. rewrite (S3 k Hk). case_decide as D.
    + rewrite (S2 k Hk), decide_False by (by apply Pk). done.
    + destruct (decide (k ∈ map (tbl_key t) rows)) as [Hin|N]; [by rewrite (S2 k Hk), decide_True|].
      assert (sees (d_buffer w2) base k = None) as En.
      { unfold sees. rewrite (base_none k Hk N). destruct (vmem k _); [done|]. destruct (vfind k _) as [u|] eqn:F; [|done].
        apply vfind_elem in F; [|apply B2|done]. destruct D. apply (list_elem_of_fmap_2 fst _ (k, u)). by apply pure_keys. }
      rewrite En. rewrite (S2 k Hk), decide_False in En by done. by rewrite En, G0.
  - intros [G3 [(k & Hk & Hin & Bk)|C]]; (split; [done|]); [left|by right]. exists k.
    rewrite (S2 k Hk), decide_False in Bk by (by apply Pk). done.
  - intros [G3 [(k & Hk & Hin & Bk)|C]]; (split; [done|]); [left|by right]. exists k.
    rewrite (S2 k Hk), decide_False in Bk by (by apply Pk). done.
Qed.

End Rows.

(** The outcome of a statement that maps what the transaction sees by [g]. *)
Definition maps_rows (bad : option Row -> Prop) (g : option Row -> option Row) (r : Dml St * res unit) : Prop :=
  match r with
  | (w', Ok _) => good w' /\ forall k, key_ok k -> sees (d_buffer w') base k = g (sees (d_buffer w0) base k)
  | (w', _) => good w' /\ ((exists k, key_ok k /\ bad (sees (d_buffer w0) base k)) \/ conflict w0)
  end.

Lemma outcome_error bad g ks w w' e :
  outcome bad g ks w (w', e) -> (forall x, e <> Ok x) ->
  good w' /\ ((exists k, key_ok k /\ bad (sees (d_buffer w) base k)) \/ conflict w0).
Proof.
  intros O N. destruct e as [x|e|e]; [by destruct (N x)| |]; destruct O as [G [(k & Hk & _ & Bk)|C]]; (split; [done|]); eauto.
Qed.

Lemma open_good w : good w -> exists w1, open_buffer w = (w1, Ok tt) /\ good w1 /\ d_buffer w1 = d_buffer w /\ d_in_txn w1 = true.
Proof.
  intros G. pose proof G as [[_ _ _ _ B R _ Hd] _]. destruct (good_write w (d_buffer w) G B R Hd) as [G1 E1].
  exists (set_buffer (d_buffer w) w). split_and!; try done. by destruct G1 as [[] _].
Qed.

Lemma bind_step {A B} (m : ST (Dml St) A) (f : A -> ST (Dml St) B) w w' a : m w = (w', Ok a) -> (m ≫= f) w = f a w'.
Proof. apply st_bind_Ok. Qed.

Lemma update_statement as_ where_ :
  txn_inv t hi v w0 -> Forall (fun a => key_column (t_columns t) (as_column a) = false) as_ ->
  maps_rows (update_fails as_ where_) (updated as_ where_) (execute_update runner ctx_storage as_ where_ w0).
Proof.
  intros I0 Kk. unfold execute_update. erewrite bind_step by reflexivity. rewrite (ti_txn _ _ _ _ I0).
  destruct (open_good w0 (good_start I0)) as (w1 & R1 & G1 & E1 & _). rewrite (bind_step _ _ _ _ _ R1).
  destruct (good_scan w1 G1) as (s2 & rows & R2 & V & G2). rewrite (bind_step _ _ _ _ _ R2).
  set (w2 := mkDml (d_session w1) (d_locks w1) (d_table w1) s2) in *. assert (d_buffer w2 = d_buffer w0) as E2 by exact E1.
  pose proof (keyed_loop (update_fails as_ where_) (updated as_ where_) (update_base runner as_ where_) (tbl_key t) rows w2 G2) as L1.
  assert (outcome (update_fails as_ where_) (updated as_ where_) (map (tbl_key t) rows) w2 (tfor rows (update_base runner as_ where_) w2)) as O1.
  { apply L1; [apply V|apply Forall_forall; intros r Hr; by apply (row_facts rows V)|].
    intros r w' Hr G'. destruct (row_facts rows V r Hr) as (Ne & Hk & Hb). by apply update_base_ok. }
  unfold maps_rows. rewrite <- E2. unfold mbind at 1, st_bind at 1.
  destruct (tfor rows _ w2) as [w3 [[]|e|e]] eqn:R3; [|by eapply outcome_error..].
  pose proof O1 as [G3 _]. pose proof G3 as [[Et _ _ _ B3 _ _ _] _]. erewrite bind_step by reflexivity.
  erewrite bind_step by reflexivity. rewrite Et.
  apply (two_phases rows V I0 (update_fails as_ where_) (updated as_ where_) w2 w3); [done|done|].
  rewrite <- (map_id (pure_inserts t rows (d_buffer w3)).*1) at 1. apply keyed_loop; [done|rewrite map_id; by apply pure_NoDup| |].
  - apply Forall_forall. intros k ([k' r] & -> & Hin)%list_elem_of_fmap. apply (pure_keys rows V) in Hin as [Hin _]; [|done].
    pose proof (bo_upsert_keys _ B3) as K. rewrite Forall_forall in K. apply K. exact (list_elem_of_fmap_2 fst _ _ Hin).
  - intros k w' ([k' r] & -> & Hin)%list_elem_of_fmap G'. apply (pure_keys rows V) in Hin as [Hin N]; [|done].
    assert (key_ok k') as Hk. { pose proof (bo_upsert_keys _ B3) as K. rewrite Forall_forall in K. apply K. exact (list_elem_of_fmap_2 fst _ _ Hin). }
    apply update_own_ok; [done|done|done|]. by apply (base_none rows V I0).
Qed.

(** ** DELETE *)

Definition removed where_ (o : option Row) : option Row :=
  match o with
  | None => None
  | Some r => match row_satisfies where_ r with Ok true => None | _ => Some r end
  end.
Definition delete_fails where_ (o : option Row) : Prop := exists r, o = Some r /\ forall x, row_satisfies where_ r <> Ok x.

Lemma delete_base_ok where_ a w :
  good w -> values a <> [] -> key_ok (tbl_key t a) -> base (tbl_key t a) = Some a ->
  outcome (delete_fails where_) (removed where_) [tbl_key t a] w (delete_base runner where_ a w).
Proof.
  intros G Ne Hk Hb. pose proof G as [[Et _ _ _ B _ _ _] _]. unfold delete_base. rewrite bool_decide_eq_false_2 by done.
  unfold mbind at 1, st_bind at 1, gets at 1. rewrite Et. unfold mbind at 1, st_bind at 1, gets at 1.
  destruct (vmem (tbl_key t a) (deletes (d_buffer w))) eqn:D.
  { apply outcome_same; [done|]. by rewrite (sees_deleted _ _ D). }
  pose proof (sees_base _ _ _ D Hb) as Se. set (cur := default a (vfind (tbl_key t a) (upserts (d_buffer w)))) in *.
  unfold mbind at 1, st_bind at 1. rewrite satisfies_eq by done. destruct (row_satisfies where_ cur) as [[]|e|e] eqn:E.
  - pose proof (good_lock w _ G Hk) as L. unfold mbind, st_bind. destruct (txn_acquire_row_lock (tbl_key t a) w) as [w1 [[]|e|e]]; [| |done].
    + destruct L as (G1 & Eb & M & Mono). unfold modify, outcome. cbv beta zeta. rewrite <- Eb.
      apply (good_delete w1 _ (delete_fails where_)); try done. rewrite Eb, Se. cbn. by rewrite E.
    + destruct L as [G1 C]. split; [done|by right].
  - apply outcome_same; [done|]. rewrite Se. cbn. by rewrite E.
  - split; [done|]. left. exists (tbl_key t a). split_and!; [done|by left|]. exists cur. split; [done|]. intros x. by rewrite E.
  - split; [done|]. left. exists (tbl_key t a). split_and!; [done|by left|]. exists cur. split; [done|]. intros x. by rewrite E.
Qed.

Lemma matching_keys_eq where_ krs w :
  d_table w = t -> exists r, matching_keys runner where_ krs w = (w, r) /\
    match r with
    | Ok ks => (NoDup krs.*1 -> NoDup ks) /\ (forall k, k ∈ ks <-> exists r, (k, r) ∈ krs /\ row_satisfies where_ r = Ok true) /\
               forall kr, kr ∈ krs -> exists b, row_satisfies where_ kr.2 = Ok b
    | _ => exists kr, kr ∈ krs /\ forall x, row_satisfies where_ kr.2 <> Ok x
    end.
Proof.
  intros Et. induction krs as [|kr krs IH]; cbn [matching_keys].
  { exists (Ok []). split; [done|]. split_and!; [constructor|set_solver|set_solver]. }
  unfold mbind at 1, st_bind at 1. rewrite satisfies_eq by done. destruct (row_satisfies where_ kr.2) as [b|e|e] eqn:E.
  2,3: eexists; split; [reflexivity|]; exists kr; split; [by left|]; intros x; by rewrite E.
  destruct IH as (r & R & P). unfold mbind, st_bind. rewrite R. destruct r as [ks|e|e].
  2,3: eexists; split; [reflexivity|]; destruct P as (kr' & Hin & P); exists kr'; split; [by right|done].
  eexists. split; [reflexivity|]. destruct P as (N & M & A). split_and!.
  - intros [N1 N2]%NoDup_cons. destruct b; [|by apply N]. constructor; [|by apply N]. intros (r & Hin & _)%M.
    apply N1. exact (list_elem_of_fmap_2 fst _ _ Hin).
  - intros k. setoid_rewrite elem_of_cons. destruct b; rewrite ?elem_of_cons, M.
    + split; [intros [->|(r & ? & ?)]; [exists kr.2; split; [left; by destruct kr|done]|by exists r; auto]|].
      intros (r & [<-|?] & ?); [by left|right; by exists r].
    + split; [intros (r & ? & ?); by exists r; auto|]. intros (r & [<-|?] & Er); [cbn in E; congruence|by exists r].
  - intros kr' [->|Hin]%elem_of_cons; [by exists b|by apply A].
Qed.

Lemma erase_own_ok bad k w : good w -> key_ok k -> base k = None -> outcome bad (fun _ => None) [k] w (erase_own k w).
Proof. intros G Hk Hb. by apply good_undo. Qed.

(** Deleting the transaction's own new rows. *)
Lemma delete_own_rows where_ rows w :
  view_rows (t_columns t) v UINT64_MAX rows -> txn_inv t hi v w0 -> good w ->
  outcome (delete_fails where_) (removed where_) (pure_inserts t rows (d_buffer w)).*1 w
    ((ks ← matching_keys runner where_ (pure_inserts t rows (d_buffer w)); tfor ks erase_own) w).
Proof.
  intros V I0 G. pose proof G as [[Et _ _ _ B _ _ _] _]. set (krs := pure_inserts t rows (d_buffer w)).
  assert (forall k r, (k, r) ∈ krs -> key_ok k /\ base k = None /\ sees (d_buffer w) base k = Some r) as Hp.
  { intros k r [Hin N]%(pure_keys rows V); [|done]. pose proof (bo_upsert_keys _ B) as K. rewrite Forall_forall in K.
    assert (key_ok k) as Hk by (apply K; exact (list_elem_of_fmap_2 fst _ _ Hin)).
    split_and!; [done|by apply (base_none rows V I0)|]. apply sees_own; [done|done|]. by apply elem_vfind; [apply B..|]. }
  destruct (matching_keys_eq where_ krs w Et) as (r & R & P). unfold mbind, st_bind. rewrite R. destruct r as [ks|e|e].
  - destruct P as (N & M & A).
    assert (outcome (delete_fails where_) (fun _ => None) (map id ks) w (tfor ks erase_own w)) as O.
    { apply keyed_loop; [done|rewrite map_id; by apply N, pure_NoDup| |].
      - apply Forall_forall. intros k (r & Hin & _)%M. by apply (Hp k r).
      - intros k w' (r & Hin & _)%M G'. destruct (Hp k r Hin) as (Hk & Hb & _). by apply erase_own_ok. }
    rewrite map_id in O. unfold outcome in *. destruct (tfor ks erase_own w) as [w' [[]|e|e]].
    + destruct O as [G' S']. split; [done|]. intros k Hk. rewrite (S' k Hk). destruct (decide (k ∈ krs.*1)) as [D|D].
      * apply list_elem_of_fmap in D as ([k' r] & -> & Hin). cbn. destruct (Hp k' r Hin) as (_ & _ & ->).
        destruct (A (k', r) Hin) as [b Eb]. cbn in Eb |- *. rewrite Eb. case_decide as D.
        -- apply M in D as (r' & Hin' & E'). destruct (Hp k' r' Hin') as (_ & _ & S1), (Hp k' r Hin) as (_ & _ & S2).
           assert (r' = r) as -> by congruence. rewrite Eb in E'. by injection E' as ->.
        -- destruct b; [|done]. destruct D. apply M. by exists r.
      * rewrite decide_False; [done|]. intros (r & Hin & _)%M. apply D. exact (list_elem_of_fmap_2 fst _ _ Hin).
    + destruct O as [G' [(k & Hk & Hin & Bk)|C]]; (split; [done|]); [left|by right]. exists k. split_and!; [done| |done].
      apply M in Hin as (r & Hin & _). exact (list_elem_of_fmap_2 fst _ _ Hin).
    + destruct O as [G' [(k & Hk & Hin & Bk)|C]]; (split; [done|]); [left|by right]. exists k. split_and!; [done| |done].
      apply M in Hin as (r & Hin & _). exact (list_elem_of_fmap_2 fst _ _ Hin).
  - destruct P as ([k r] & Hin & P). destruct (Hp k r Hin) as (Hk & _ & S1). split; [done|]. left. exists k. split_and!; [done| |by exists r].
    exact (list_elem_of_fmap_2 fst _ _ Hin).
  - destruct P as ([k r] & Hin & P). destruct (Hp k r Hin) as (Hk & _ & S1). split; [done|]. left. exists k. split_and!; [done| |by exists r].
    exact (list_elem_of_fmap_2 fst _ _ Hin).
Qed.

Lemma delete_statement where_ :
  txn_inv t hi v w0 -> maps_rows (delete_fails where_) (removed where_) (execute_delete runner ctx_storage where_ w0).
Proof.
  intros I0. unfold execute_delete. erewrite bind_step by reflexivity. rewrite (ti_txn _ _ _ _ I0).
  destruct (open_good w0 (good_start I0)) as (w1 & R1 & G1 & E1 & _). rewrite (bind_step _ _ _ _ _ R1).
  destruct (good_scan w1 G1) as (s2 & rows & R2 & V & G2). rewrite (bind_step _ _ _ _ _ R2).
  set (w2 := mkDml (d_session w1) (d_locks w1) (d_table w1) s2) in *. assert (d_buffer w2 = d_buffer w0) as E2 by exact E1.
  assert (outcome (delete_fails where_) (removed where_) (map (tbl_key t) rows) w2 (tfor rows (delete_base runner where_) w2)) as O1.
  { apply keyed_loop; [done|apply V|apply Forall_forall; intros r Hr; by apply (row_facts rows V)|].
    intros r w' Hr G'. destruct (row_facts rows V r Hr) as (Ne & Hk & Hb). by apply delete_base_ok. }
  unfold maps_rows. rewrite <- E2. unfold mbind at 1, st_bind at 1.
  destruct (tfor rows _ w2) as [w3 [[]|e|e]] eqn:R3; [|by eapply outcome_error..].
  pose proof O1 as [G3 _]. pose proof G3 as [[Et _ _ _ B3 _ _ _] _]. erewrite bind_step by reflexivity.
  erewrite bind_step by reflexivity. rewrite Et.
  apply (two_phases rows V I0 (delete_fails where_) (removed where_) w2 w3); [done|done|]. by apply delete_own_rows.
Qed.

(** ** INSERT *)

Definition row_with_key (rows : list Row) (k : Value) : option Row := List.find (fun r => bool_decide (tbl_key t r = k)) rows.

Lemma row_with_key_app rows r k :
  row_with_key (rows ++ [r]) k =
  match row_with_key rows k with Some r' => Some r' | None => if decide (k = tbl_key t r) then Some r else None end.
Proof.
  unfold row_with_key. induction rows as [|r' rows IH]; cbn.
  - destruct (decide (k = tbl_key t r)) as [->|N]; [by rewrite bool_decide_eq_true_2|]. by rewrite bool_decide_eq_false_2.
  - by destruct (bool_decide (tbl_key t r' = k)).
Qed.
Lemma row_with_key_None rows k : row_with_key rows k = None <-> k ∉ map (tbl_key t) rows.
Proof.
  unfold row_with_key. induction rows as [|r rows IH]; cbn; [split; [intros _; apply not_elem_of_nil|done]|].
  rewrite not_elem_of_cons. case_bool_decide as D; [naive_solver|]. rewrite IH. naive_solver.
Qed.

(** A row of the batch has a key that is taken, in the table or by an earlier row. *)
Definition duplicate (b : TableTxnBuffer) (batch : list Row) : Prop :=
  exists done r todo, batch = done ++ r :: todo /\ (sees b base (tbl_key t r) <> None \/ tbl_key t r ∈ map (tbl_key t) done).

Definition inserts (b0 b : TableTxnBuffer) (batch : list Row) : Prop :=
  ~ duplicate b0 batch /\
  forall k, key_ok k -> sees b base k = match row_with_key batch k with Some r => Some r | None => sees b0 base k end.

Lemma insert_row_ok r w :
  good w -> values r <> [] -> well_typed (t_columns t) r -> key_ok (tbl_key t r) ->
  match insert_buffered r w with
  | (w', Ok _) => good w' /\ sees (d_buffer w) base (tbl_key t r) = None /\
      forall k, key_ok k -> sees (d_buffer w') base k = if decide (k = tbl_key t r) then Some r else sees (d_buffer w) base k
  | (w', _) => good w' /\ (sees (d_buffer w) base (tbl_key t r) <> None \/ conflict w0)
  end.
Proof.
  intros G Ne Ty Hk. pose proof G as [[Et _ _ _ B _ _ _] _]. unfold insert_buffered. erewrite bind_step by reflexivity.
  rewrite bool_decide_eq_false_2 by done. rewrite Et. erewrite bind_step by reflexivity.
  set (k := tbl_key t r) in *.
  match goal with |- context [mbind ?rest ?chk w] => assert (exists w1 e, chk w = (w1, e) /\ good w1 /\ d_buffer w1 = d_buffer w /\
    match e with Ok _ => sees (d_buffer w) base k = None | _ => sees (d_buffer w) base k <> None end) as (w1 & e & R & G1 & Eb & P) end.
  { destruct (vmem k (deletes (d_buffer w))) eqn:D; [exists w, (Ok tt); split_and!; try done; by apply sees_deleted|].
    case_bool_decide as F.
    - destruct F as [u F]. exists w. eexists. split; [reflexivity|]. split_and!; try done. rewrite (sees_own _ k u) by done. done.
    - destruct (good_lookup w k G Hk) as (s' & R & G'). rewrite (bind_step _ _ _ _ _ R).
      assert (sees (d_buffer w) base k = base k) as Se.
      { unfold sees. rewrite D. destruct (vfind k _); [|done]. by destruct F. }
      case_bool_decide as L; (eexists; eexists; split; [reflexivity|]; split_and!; [done|done|]); rewrite Se.
      + by destruct L as [x ->].
      + destruct (base k) as [x|]; [by destruct L|done]. }
  unfold mbind at 1, st_bind at 1. rewrite R. destruct e as [[]|e|e]; [|by split; [|left]..].
  pose proof (good_lock w1 _ G1 Hk) as L. unfold mbind, st_bind. destruct (txn_acquire_row_lock k w1) as [w2 [[]|e|e]]; [| |done].
  - destruct L as (G2 & Eb2 & M & _).
    destruct (good_put w2 k r (fun _ => False) (fun _ => Some r) G2 Hk M Ty eq_refl eq_refl) as [G3 S3].
    split_and!; [exact G3|done|]. intros k' Hk'. rewrite (S3 k' Hk'), Eb2, Eb. apply decide_ext. apply list_elem_of_singleton.
  - destruct L as [G2 C]. split; [done|by right].
Qed.

Lemma insert_statement idx rows :
  txn_inv t hi v w0 -> t_columns t <> [] -> Forall (Forall key_ok) rows ->
  match execute_insert ctx_storage idx rows w0 with
  | (w', Ok _) => good w' /\ exists batch, build_rows (t_columns t) idx rows = Ok batch /\ inserts (d_buffer w0) (d_buffer w') batch
  | (w', _) => good w' /\ ((forall x, (batch ← build_rows (t_columns t) idx rows; validate_rows (t_columns t) batch) <> Ok x) \/
      (exists batch, build_rows (t_columns t) idx rows = Ok batch /\ duplicate (d_buffer w0) batch) \/ conflict w0)
  end.
Proof.
  intros I0 Nc Kr. pose proof (good_start I0) as G0. unfold execute_insert. erewrite bind_step by reflexivity.
  rewrite (ti_table _ _ _ _ I0). unfold mbind at 1, st_bind at 1, lift at 1.
  destruct (build_rows (t_columns t) idx rows) as [batch|e|e] eqn:Eb; [|by split; [|left]..].
  unfold mbind at 1, st_bind at 1, lift at 1. destruct (validate_rows (t_columns t) batch) as [[]|e|e] eqn:Ev;
    [|split; [done|]; left; cbn; by rewrite Ev..].
  erewrite bind_step by reflexivity. rewrite (ti_txn _ _ _ _ I0).
  destruct (open_good w0 G0) as (w1 & R1 & G1 & E1 & _). rewrite (bind_step _ _ _ _ _ R1).
  pose proof (build_rows_spec key_ok _ _ _ _ I Kr Eb) as Sh. apply validate_rows_spec in Ev.
  assert (match tfor batch insert_buffered w1 with
          | (w', Ok _) => good w' /\ inserts (d_buffer w0) (d_buffer w') batch
          | (w', _) => good w' /\ (duplicate (d_buffer w0) batch \/ conflict w0) end) as L.
  { apply (tfor_outcome batch insert_buffered (fun done w => good w /\ inserts (d_buffer w0) (d_buffer w) done)
             (fun w => good w /\ (duplicate (d_buffer w0) batch \/ conflict w0))).
    - split; [done|]. split; [intros (d & r & td & E & _); by destruct d|]. intros k Hk. by rewrite E1.
    - intros done r todo w El [G [Nd S]]. assert (r ∈ batch) as Hr by (rewrite El; set_solver).
      rewrite Forall_forall in Sh, Ev. destruct (Sh r Hr) as [Len Kv]. assert (key_ok (tbl_key t r)) as Hk by (by apply extract_key_ok).
      assert (values r <> []) as Ne by (intros E; rewrite E in Len; by destruct (t_columns t)).
      pose proof (insert_row_ok r w G Ne (conj Len (Ev r Hr)) Hk) as P. rewrite (S _ Hk) in P.
      assert (match row_with_key done (tbl_key t r) with Some r' => Some r' | None => sees (d_buffer w0) base (tbl_key t r) end <> None ->
              duplicate (d_buffer w0) batch) as Dup.
      { intros N. exists done, r, todo. split; [done|]. destruct (row_with_key done (tbl_key t r)) eqn:F; [right|by left].
        apply dec_stable. intros Nin%row_with_key_None. congruence. }
      destruct (insert_buffered r w) as [w' [[]|e|e]]; [|destruct P as [? [?|?]]; (split; [done|]); eauto..].
      destruct P as (G' & N & S'). split; [done|]. split.
      + intros (d & r' & td & E & Dp). destruct td as [|x td _] using rev_ind.
        * apply app_inj_tail in E as [<- <-]. destruct (row_with_key done (tbl_key t r)) eqn:F; [done|].
          apply row_with_key_None in F. by destruct Dp.
        * rewrite app_comm_cons, app_assoc in E. apply app_inj_tail in E as [-> <-]. apply Nd. by exists d, r', td.
      + intros k Hk'. rewrite (S' k Hk'), (S k Hk'), row_with_key_app. destruct (decide (k = tbl_key t r)) as [->|D].
        * destruct (row_with_key done (tbl_key t r)) eqn:F; [done|done].
        * by destruct (row_with_key done k). }
  destruct (tfor batch insert_buffered w1) as [w' [[]|e|e]]; destruct L as [G' L]; (split; [done|]); [by exists batch|..];
    (destruct L as [L|L]; [right; left; by exists batch|right; by right]).
Qed.
End Steps.
End Txn.

(** * Properties *)

Section Properties.
Context {St : Type} `{StorageLaws St} {Q : Type}.
Variable subq : option (Q -> Record_ -> bool -> res (list Value)).

(** Statements whose values can be keys and that leave the key columns alone. *)
Definition plan_ok (t : Table) (p : DmlPlan Q) : Prop :=
  match p with
  | InsertPlan _ rows => t_columns t <> [] /\ Forall (Forall key_ok) rows
  | UpdatePlan as_ _ => Forall (fun a => key_column (t_columns t) (as_column a) = false) as_
  | DeletePlan _ => True
  end.

(** What a statement makes of the rows a transaction sees. *)
Definition statement_effect (t : Table) (v : view) (p : DmlPlan Q) (b b' : TableTxnBuffer) : Prop :=
  match p with
  | InsertPlan idx rows => exists batch, build_rows (t_columns t) idx rows = Ok batch /\ inserts t v b b' batch
  | UpdatePlan as_ where_ =>
      forall k, key_ok k -> sees b' (v UINT64_MAX) k = updated subq t as_ where_ (sees b (v UINT64_MAX) k)
  | DeletePlan where_ => forall k, key_ok k -> sees b' (v UINT64_MAX) k = removed subq t where_ (sees b (v UINT64_MAX) k)
  end.

(** Why a statement fails. *)
Definition statement_failure (t : Table) (v : view) (p : DmlPlan Q) (w : Dml St) : Prop :=
  let sees_row := sees (d_buffer w) (v UINT64_MAX) in
  conflict w \/
  match p with
  | InsertPlan idx rows =>
      (forall x, (batch ← build_rows (t_columns t) idx rows; validate_rows (t_columns t) batch) <> Ok x) \/
      exists batch, build_rows (t_columns t) idx rows = Ok batch /\ duplicate t v (d_buffer w) batch
  | UpdatePlan as_ where_ => exists k, key_ok k /\ update_fails subq t as_ where_ (sees_row k)
  | DeletePlan where_ => exists k, key_ok k /\ delete_fails subq t where_ (sees_row k)
  end.


End Properties.

(** ** Example *)

Lemma ex_view_row (P : Row -> Prop) sn k r :
  Forall (fun y => tombstone y = false -> P (row y)) (contents EngineReads.ex_table [t_l0; t_l1]) -> ex_view sn k = Some r -> P r.
Proof.
  intros G. unfold ex_view. destruct (best sn k _) as [y|] eqn:B; [|done]. apply best_Some in B as (Hy & _).
  rewrite Forall_forall in G. specialize (G y Hy). cbn. destruct (tombstone y); [done|]. intros [= <-]. by apply G.
Qed.

(** Transaction 7 on the example table, with a row of its own. *)
Definition ex_own : TableTxnBuffer := mkBuffer [(VInt 5, t_row 5 50)] [].
Definition ex_world : Dml (Engine DecodedFile) :=
  mkDml (Some (mkSession 7 RepeatableRead {[ str "t" := ex_own ]} 20 0 ∅ ∅ []))
    (Some (RowLock.try_acquire (str "t") (VInt 5) 7 RowLock.no_locks).1) ex_tbl ex_engine.

Lemma ex_world_inv : txn_inv ex_tbl (fun _ => 9) ex_view ex_world.
Proof.
  assert (d_buffer ex_world = ex_own) as Eb by (vm_compute; reflexivity). split; rewrite ?Eb; try done.
  - apply ex_tbl_inv.
  - intros k r _. apply ex_view_row. repeat constructor; done.
  - split; cbn; [apply NoDup_singleton|by repeat constructor|constructor..|by intros ? ? ?%elem_of_nil].
  - repeat constructor.
  - pose proof (RowLock.acquire_ok (str "t") (VInt 5) 7 _ _ I RowLock.no_locks_ok (fun _ _ _ => eq_refl)) as A. cbn in A. by destruct A.
  - intros k Hk [Hin|Hin]; cbn in Hin; [|by apply elem_of_nil in Hin]. apply list_elem_of_singleton in Hin as ->. vm_compute. reflexivity.
Qed.

(** UPDATE t SET v = 60 WHERE id = 5. *)
Definition ex_update : DmlPlan unit :=
  UpdatePlan [mkAssign 1 (ELiteral (VInt 60))]
    (Some (BComparison (Some (mkCmp (EColumn (mkRef [] (str "id"))) Eq (ELiteral (VInt 5)))))).

