(* ===== verification/DmlAuto.v ===== *)
(** Statements outside a transaction: they write into the table at the
    statement's timestamp, so that older snapshots see the rows as before. *)
From Stdlib Require Import ZArith Lia Strings.Byte.
From stdpp Require Import base numbers list gmap strings.
From S2P Require Import Prelude Values Codec Sst Store Mvcc Engine EngineReads Locks Eval Session Query Scans Tables Storage Indexes Dml DmlTxn.
Local Open Scope Z_scope.

Lemma omap_cons_eq {A B} (f : A -> option B) x l :
  omap f (x :: l) = match f x with Some y => y :: omap f l | None => omap f l end.
Proof. done. Qed.

Section Auto.
Context {St : Type} `{StorageLaws St} {Q : Type}.
Variable subq : option (Q -> Record_ -> bool -> res (list Value)).
Variable ctx_storage : bool.
Implicit Types (w : Dml St) (t : Table).
Abbreviation runner := (fun _ : Dml St => subq).

(** * Changes of one timestamp *)

Definition at_ts (t : Table) (ts : Z) (cs : list change) : Prop :=
  NoDup (map (change_key t) cs) /\
  Forall (fun c => change_ts c = ts /\ match c with Upsert row _ => row_ok t row | Erase k _ => key_ok k end) cs.

Lemma at_ts_history t ts cs hi :
  at_ts t ts cs -> 0 <= ts <= UINT64_MAX -> (forall c, c ∈ cs -> hi (change_key t c) < ts) -> history_ok t hi cs.
Proof.
  intros [N F] T. revert hi. induction cs as [|c cs IH]; intros hi Hi; [done|]. apply NoDup_cons in N as [N1 N2].
  apply Forall_cons in F as [[Et Ok0] F]. split.
  - split_and!; [rewrite Et; apply Hi; by left|lia|lia|done].
  - apply IH; [done|done|]. intros c' Hc'. unfold newest_change, newest_write. rewrite bool_decide_eq_false_2; [apply Hi; by right|].
    intros E. apply N1. rewrite <- E. by apply list_elem_of_fmap_2.
Qed.

(** The row of a key after the changes, when one of them is about it. *)
Definition changed_to (t : Table) (cs : list change) (k : Value) : option (option Row) :=
  change_row <$> List.find (fun c => bool_decide (change_key t c = k)) cs.

Lemma changed_to_cons t c cs k :
  changed_to t (c :: cs) k = if decide (change_key t c = k) then Some (change_row c) else changed_to t cs k.
Proof. unfold changed_to. cbn. case_bool_decide; by case_decide. Qed.

Lemma changed_to_None t cs k : k ∉ map (change_key t) cs -> changed_to t cs k = None.
Proof.
  induction cs as [|c cs IH]; [done|]. cbn [map]. rewrite not_elem_of_cons, changed_to_cons. intros [N N'].
  rewrite decide_False by congruence. by apply IH.
Qed.

Lemma view_changes t ts cs v sn k :
  at_ts t ts cs ->
  foldl (view_change t) v cs sn k = match changed_to t cs k with Some o => if ts <=? sn then o else v sn k | None => v sn k end.
Proof.
  intros [N F]. revert v. induction cs as [|c cs IH]; intros v; [done|]. cbn [foldl]. apply NoDup_cons in N as [N1 N2].
  apply Forall_cons in F as [[Et _] F]. rewrite (IH N2 F), changed_to_cons. unfold view_change, view_write. rewrite Et.
  case_decide as D.
  - subst k. rewrite changed_to_None, bool_decide_eq_true_2 by done. done.
  - rewrite bool_decide_eq_false_2 by congruence. cbn. done.
Qed.

Lemma newest_changes t ts cs hi k :
  at_ts t ts cs -> foldl (newest_change t) hi cs k = if decide (k ∈ map (change_key t) cs) then ts else hi k.
Proof.
  intros [N F]. revert hi. induction cs as [|c cs IH]; intros hi; [by rewrite decide_False by apply not_elem_of_nil|]. cbn [foldl map].
  apply NoDup_cons in N as [N1 N2]. apply Forall_cons in F as [[Et _] F]. rewrite (IH N2 F). unfold newest_change, newest_write. rewrite Et.
  case_bool_decide as D; repeat case_decide; set_solver.
Qed.

(** A table that got the changes. *)
Definition changed t (s : St) hi (v : view) ts (cs : list change) t' (s' : St) : Prop :=
  table_inv t' s' (fun k => if decide (k ∈ map (change_key t) cs) then ts else hi k)
    (fun sn k => match changed_to t cs k with Some o => if ts <=? sn then o else v sn k | None => v sn k end) /\
  tbl_step t t' /\
  (forall snap, covers t v snap ->
     covers t' (fun sn k => match changed_to t cs k with Some o => if ts <=? sn then o else v sn k | None => v sn k end) snap) /\
  forall name, name <> t_name t -> keeps name s s'.

Lemma changes_run t s hi v ts cs n :
  table_inv t s hi v -> at_ts t ts cs -> 0 <= ts <= UINT64_MAX -> (forall k, hi k < ts) ->
  foldr Z.add 0 (map change_cost cs) <= n -> room s (t_name t) (t_columns t) n ->
  exists t' s', tfor cs apply_change (t, s) = ((t', s'), Ok tt) /\ changed t s hi v ts cs t' s'.
Proof.
  intros I A T Hi Cost Rm.
  destruct (history_run t s hi v cs n I) as (t' & s' & R & I' & St' & C' & K'); [by eapply at_ts_history|done|done|].
  exists t', s'. split; [done|]. split_and!; [|done| |done].
  - eapply inv_weaken; [| |exact I']; [intros k; by rewrite (newest_changes t ts)|intros sn k _; by apply view_changes].
  - intros snap C. eapply covers_ext; [|by apply C']. intros sn k _. by apply view_changes.
Qed.

(** A loop whose body makes at most one change per row. *)
Lemma change_loop t (f : Row -> ST (Dml St) unit) (chg : Row -> option change) rows w s hi v n :
  d_table w = t -> d_storage w = s -> table_inv t s hi v -> history_ok t hi (omap chg rows) ->
  foldr Z.add 0 (map change_cost (omap chg rows)) <= n -> room s (t_name t) (t_columns t) n ->
  (forall r w', r ∈ rows -> t_name (d_table w') = t_name t -> t_columns (d_table w') = t_columns t ->
     f r w' = match chg r with Some c => on_tbl (apply_change c) w' | None => (w', Ok tt) end) ->
  tfor rows f w = on_tbl (tfor (omap chg rows) apply_change) w.
Proof.
  revert t w s hi v n. induction rows as [|r rows IH]; intros t w s hi v n Et Es I Hh Cost Rm Hf; [by destruct w|].
  rewrite omap_cons_eq in *.
  cbn [tfor]. unfold mbind at 1, st_bind at 1. rewrite (Hf r w) by (by left || by rewrite Et).
  destruct (chg r) as [c|] eqn:Ec; [|by eapply IH; eauto; intros r' w' Hr'; apply Hf; by right].
  destruct Hh as [Hc Hh]. cbn [map foldr] in Cost.
  assert (0 <= foldr Z.add 0 (map change_cost (omap chg rows))) by (clear; induction (omap chg rows) as [|c cs IH]; cbn; [lia|]; pose proof (change_cost_pos c); lia).
  destruct (change_step t s hi v c n I Hc ltac:(lia) Rm) as (t1 & s1 & R1 & I1 & St1 & Rm1 & _ & _).
  pose proof St1 as [En Ec1 _ _ _ _ _]. rewrite <- En, <- Ec1 in Rm1. unfold on_tbl at 1. rewrite Et, Es, R1. cbn [fst snd].
  rewrite (IH t1 _ s1 (newest_change t hi c) (view_change t v c) (n - change_cost c)); [|done|done|exact I1|by apply (history_ok_columns t)|lia|done|].
  - unfold on_tbl. cbn [d_table d_storage d_session d_locks tfor]. rewrite Et, Es. unfold mbind, st_bind. by rewrite R1.
  - intros r' w' Hr'. rewrite En, Ec1. apply Hf. by right.
Qed.

(** * Whole statements *)

(** The table has been rewritten by [g] at [ts]: newer snapshots see the new
    rows, older ones what they saw; the indexes cover the new rows. *)
Definition rewritten t (s : St) (v : view) ts (g : Value -> option Row -> option Row) w w' : Prop :=
  d_session w' = d_session w /\ d_locks w' = d_locks w /\ tbl_step t (d_table w') /\
  (forall name, name <> t_name t -> keeps name s (d_storage w')) /\
  exists hi' (v' : view), table_inv (d_table w') (d_storage w') hi' v' /\ (forall k, hi' k <= ts) /\
    (forall sn k, key_ok k -> sn <= UINT64_MAX -> v' sn k = if ts <=? sn then g k (v UINT64_MAX k) else v sn k) /\
    forall snap, covers t v snap -> covers (d_table w') v' snap.

(** The timestamp of a statement is newer than the table. *)
Record fresh_statement t hi (v : view) w ts : Prop := {
  fs_table : d_table w = t;
  fs_auto : d_in_txn w = false;
  fs_ts : auto_ts w = ts;
  fs_range : 0 < ts <= UINT64_MAX;
  fs_new k : hi k < ts;
  fs_inv : table_inv t (d_storage w) hi v
}.

Lemma finish_ok ts w : exists s', finish_auto ctx_storage ts w = (mkDml (d_session w) (d_locks w) (d_table w) s', Ok tt) /\
  forall name, keeps name (d_storage w) s'.
Proof.
  unfold finish_auto. destruct (_ && _); [|exists (d_storage w); split; [by destruct w|intros; apply keeps_refl]].
  destruct (law_mark ts (d_storage w)) as (s' & [] & R & K). exists s'. split; [|done]. unfold on_tbl, on_storage. cbn [fst snd]. by rewrite R.
Qed.

Lemma scan_ok_auto t hi v w :
  d_table w = t -> table_inv t (d_storage w) hi v ->
  exists s' rows, on_tbl (tbl_scan_visible UINT64_MAX) w = (mkDml (d_session w) (d_locks w) t s', Ok rows) /\
    view_rows (t_columns t) v UINT64_MAX rows /\ table_inv t s' hi v /\ (forall name, keeps name (d_storage w) s').
Proof.
  intros Et I. pose proof I as [Sh Hs _ _]. destruct (law_scan (d_storage w) _ _ hi v UINT64_MAX Sh) as (s' & rows & R & V & Kp).
  exists s', rows. split_and!; [|done|by eapply inv_keeps|done]. unfold on_tbl, tbl_scan_visible. rewrite the_table_ok, Et, Hs.
  unfold on_storage. cbn [fst snd]. by rewrite R.
Qed.

(** Changes to rows of the table, made one after the other, rewrite it. *)
Lemma changed_rewritten t s hi v ts cs t' s' (g : Value -> option Row -> option Row) w :
  changed t s hi v ts cs t' s' -> table_inv t s hi v -> (forall k, hi k < ts) -> ts <= UINT64_MAX ->
  (forall k, key_ok k -> match changed_to t cs k with Some o => o | None => v UINT64_MAX k end = g k (v UINT64_MAX k)) ->
  rewritten t s v ts g w (mkDml (d_session w) (d_locks w) t' s').
Proof.
  intros (I' & St' & C' & K') [Sh _ _ _] Hi Tm E. split_and!; try done. eexists _, _. split_and!; [exact I'| | |exact C'].
  - intros k. cbv beta. case_decide; [lia|]. specialize (Hi k). lia.
  - intros sn k Hk L. specialize (E k Hk). cbv beta. destruct (Z.leb_spec ts sn).
    + rewrite <- E. destruct (changed_to t cs k) as [o|]; [done|]. apply (shown_newest s _ _ hi v sn k Sh Hk). specialize (Hi k). lia.
    + by destruct (changed_to t cs k).
Qed.

Lemma rewritten_quiet t s s0 v ts g w w' s' :
  rewritten t s v ts g w w' -> (forall name, keeps name s0 s) -> (forall name, keeps name (d_storage w') s') ->
  rewritten t s0 v ts g w (mkDml (d_session w') (d_locks w') (d_table w') s').
Proof.
  intros (Es & El & St' & K & hi' & v' & I' & L & E & C) K0 K1. split_and!; try done.
  - intros name N. eapply keeps_trans; [apply K0|]. eapply keeps_trans; [by apply K|apply K1].
  - exists hi', v'. split_and!; try done. by eapply inv_keeps.
Qed.

Lemma changed_to_omap t (chg : Row -> option change) rows v :
  view_rows (t_columns t) v UINT64_MAX rows -> (forall r c, r ∈ rows -> chg r = Some c -> change_key t c = tbl_key t r) ->
  (forall r, r ∈ rows -> changed_to t (omap chg rows) (tbl_key t r) = change_row <$> chg r) /\
  (forall k, k ∉ map (tbl_key t) rows -> changed_to t (omap chg rows) k = None) /\
  NoDup (map (change_key t) (omap chg rows)).
Proof.
  intros [N _] Hk. change (NoDup (map (tbl_key t) rows)) in N.
  assert (forall rows', (forall r, r ∈ rows' -> r ∈ rows) -> forall c, c ∈ omap chg rows' -> change_key t c ∈ map (tbl_key t) rows') as Sub.
  { intros rows' Hr' c (r & Hr & Ec)%list_elem_of_omap. rewrite (Hk r c) by auto. by apply list_elem_of_fmap_2. }
  assert ((forall r, r ∈ rows -> changed_to t (omap chg rows) (tbl_key t r) = change_row <$> chg r) /\
          NoDup (map (change_key t) (omap chg rows))) as [A B]; [|split_and!; [done| |done]].
  - induction rows as [|r rows IH]; [split; [by intros r ?%elem_of_nil|constructor]|]. apply NoDup_cons in N as [N1 N2].
    rewrite omap_cons_eq.
    destruct IH as [A B]; [done|intros; apply Hk; [by right|done]|intros; apply Sub; [by right; auto|done]|].
    assert (tbl_key t r ∉ map (change_key t) (omap chg rows)) as Nr.
    { intros (c & E & Hc)%list_elem_of_fmap. apply N1. rewrite E. apply Sub; [by right|done]. }
    destruct (chg r) as [c|] eqn:Ec; (split; [intros r' [->|Hr]%elem_of_cons|]).
    + by rewrite Ec, changed_to_cons, decide_True by (apply Hk; [by left|done]).
    + rewrite changed_to_cons, decide_False; [by apply A|]. rewrite (Hk r c) by (done || by left). intros E. apply N1. rewrite E.
      by apply list_elem_of_fmap_2.
    + cbn. constructor; [|done]. by rewrite (Hk r c) by (done || by left).
    + rewrite Ec. by apply changed_to_None.
    + by apply A.
    + done.
  - intros k Nk. apply changed_to_None. intros (c & -> & Hc)%list_elem_of_fmap. by apply Nk, Sub.
Qed.

(** What the changes make of a row of the table. *)
Definition by_change (chg : Row -> option change) (o : option Row) : option Row :=
  match o with
  | None => None
  | Some r => match chg r with Some c => change_row c | None => Some r end
  end.

Lemma rewritten_ext t s v ts g g' w w' : (forall k o, g k o = g' k o) -> rewritten t s v ts g w w' -> rewritten t s v ts g' w w'.
Proof.
  intros E (Es & El & St' & K & hi' & v' & I' & L & Ev & C). split_and!; try done. exists hi', v'. split_and!; try done.
  intros sn k Hk Ls. rewrite <- E. by apply Ev.
Qed.

(** Changing the scanned rows one after the other. *)
Lemma rewrite_rows t hi v w ts rows s1 (chg : Row -> option change) n :
  fresh_statement t hi v w ts -> view_rows (t_columns t) v UINT64_MAX rows -> table_inv t s1 hi v ->
  (forall name, keeps name (d_storage w) s1) -> room (d_storage w) (t_name t) (t_columns t) n ->
  (forall r c, r ∈ rows -> chg r = Some c ->
     change_key t c = tbl_key t r /\ change_ts c = ts /\ match c with Upsert row _ => row_ok t row | Erase k _ => key_ok k end) ->
  foldr Z.add 0 (map change_cost (omap chg rows)) <= n ->
  exists t2 s2, tfor (omap chg rows) apply_change (t, s1) = ((t2, s2), Ok tt) /\ history_ok t hi (omap chg rows) /\
    forall s3, (forall name, keeps name s2 s3) ->
      rewritten t (d_storage w) v ts (fun _ => by_change chg) w (mkDml (d_session w) (d_locks w) t2 s3).
Proof.
  intros [Et Ea Ets Tr Hi I] V I1 K1 Rm Chg Cost.
  destruct (changed_to_omap t chg rows v V) as (Cin & Cout & Cnd); [intros r c Hr Ec; by apply (Chg r)|].
  assert (at_ts t ts (omap chg rows)) as At.
  { split; [done|]. apply Forall_forall. intros c (r & Hr & Ec)%list_elem_of_omap. by apply (Chg r c). }
  assert (room s1 (t_name t) (t_columns t) n) as Rm1 by (by apply (K1 (t_name t))).
  destruct (changes_run t s1 hi v ts (omap chg rows) n I1 At ltac:(lia) Hi Cost Rm1) as (t2 & s2 & R2 & Ch).
  exists t2, s2. split_and!; [done|by apply (at_ts_history t ts); [done|lia|by intros; apply Hi]|]. intros s3 K3.
  apply (rewritten_quiet t s1 (d_storage w) v ts _ w (mkDml (d_session w) (d_locks w) t2 s2) s3); [|done|done].
  apply (changed_rewritten t s1 hi v ts (omap chg rows)); [done|done|done|lia|]. intros k Hk.
  destruct (v UINT64_MAX k) as [r|] eqn:Ev.
  - destruct I as [Sh _ _ Rw]. pose proof (shown_key _ _ _ _ _ _ _ _ Sh Hk Ev) as Ek.
    assert (r ∈ rows) as Hr by (apply V; rewrite Ek; split; [by eapply Rw|done]).
    change (extract_key r (t_columns t)) with (tbl_key t r) in Ek. rewrite <- Ek, (Cin r Hr). cbn. by destruct (chg r).
  - rewrite Cout; [done|]. intros (r & -> & Hr)%list_elem_of_fmap. apply V in Hr as (_ & _ & Er).
    change (extract_key r (t_columns t)) with (tbl_key t r) in Er. congruence.
Qed.

(** ** UPDATE *)

Lemma validate_values_insert cols vs i c x :
  validate_values cols vs = Ok tt -> cols !! i = Some c -> validate_value c x = Ok tt -> validate_values cols (<[i := x]> vs) = Ok tt.
Proof.
  revert vs i. induction cols as [|c0 cols IH]; intros vs i Ev Ec Ex; [done|]. destruct vs as [|v0 vs]; [done|]. cbn in Ev.
  destruct (validate_value c0 v0) as [[]|e|e] eqn:E0; [|done..]. destruct i as [|i]; cbn in *.
  - injection Ec as ->. by rewrite Ex.
  - rewrite E0. by apply IH.
Qed.

Lemma assign_checked_shape t old as_ new new' :
  assign_checked t old as_ new = Ok new' -> well_typed (t_columns t) new -> well_typed (t_columns t) new' /\
    (Forall (fun a => key_column (t_columns t) (as_column a) = false) as_ -> tbl_key t new' = tbl_key t new).
Proof.
  revert new. induction as_ as [|a as_ IH]; intros new; cbn [assign_checked]; [by intros [= <-]|].
  destruct (assigned_value t old a) as [x|e|e]; [|done..]. cbn. destruct (t_columns t !! as_column a) as [c|] eqn:Ec; [|done].
  destruct (validate_value c x) as [[]|e|e] eqn:Ex; [|done..]. cbn. destruct (put_cell _ x new) as [r|e|e] eqn:E; [|done..]. cbn.
  intros Ea [L V]. destruct (IH r Ea) as [Ty K].
  - split; [rewrite <- L; by eapply put_cell_length|]. apply put_cell_ok in E as [-> _]. by eapply validate_values_insert.
  - split; [done|]. intros [Ka Ks]%Forall_cons. rewrite (K Ks). unfold tbl_key. by eapply put_cell_key.
Qed.

Lemma row_record_eq t t' r : t_name t' = t_name t -> t_columns t' = t_columns t -> row_record t' r = row_record t r.
Proof. unfold row_record. by intros -> ->. Qed.

Lemma assign_checked_eq t t' old as_ new :
  t_name t' = t_name t -> t_columns t' = t_columns t -> assign_checked t' old as_ new = assign_checked t old as_ new.
Proof.
  intros En Ec. revert new. induction as_ as [|a as_ IH]; intros new; [done|]. cbn. unfold assigned_value.
  rewrite (row_record_eq t t') by done. rewrite Ec. destruct (match as_value a with ELiteral x => _ | _ => _ end) as [x|e|e]; [|done..]. cbn.
  destruct (t_columns t !! as_column a) as [c|]; [|done]. destruct (validate_value c x) as [[]|e|e]; [|done..]. cbn.
  destruct (put_cell _ x new) as [r|e|e]; [|done..]. apply IH.
Qed.

Lemma satisfies_auto t where_ r w :
  t_name (d_table w) = t_name t -> t_columns (d_table w) = t_columns t -> satisfies runner where_ r w = (w, row_satisfies subq t where_ r).
Proof. intros En Ec. unfold satisfies, row_satisfies. by rewrite (row_record_eq t) by done. Qed.

(** The row that replaces a row. *)
Definition checked_update t (as_ : list Assignment) (where_ : option (BoolExpr Q)) (r : Row) : res (option Row) :=
  keep ← row_satisfies subq t where_ r;
  if (keep : bool) then new ← assign_checked t r as_ r; Ok (Some new) else Ok None.

Definition update_change t as_ where_ (ts : Z) (r : Row) : option change :=
  match checked_update t as_ where_ r with Ok (Some new) => Some (Upsert new ts) | _ => None end.

Definition auto_updated t as_ where_ (o : option Row) : option Row :=
  match o with
  | None => None
  | Some r => match checked_update t as_ where_ r with Ok (Some new) => Some new | _ => Some r end
  end.

Lemma update_stored_eq t as_ where_ ts r w x :
  t_name (d_table w) = t_name t -> t_columns (d_table w) = t_columns t -> checked_update t as_ where_ r = Ok x ->
  update_stored runner as_ where_ ts r w =
  match update_change t as_ where_ ts r with Some c => on_tbl (apply_change c) w | None => (w, Ok tt) end.
Proof.
  intros En Ec E. unfold update_stored, update_change, checked_update in *. unfold mbind at 1, st_bind at 1, gets at 1.
  unfold mbind at 1, st_bind at 1. rewrite (satisfies_auto t) by done. destruct (row_satisfies subq t where_ r) as [[]|e|e]; [|done..].
  unfold mbind at 1, st_bind at 1, lift at 1. rewrite (assign_checked_eq t) by done. cbn in E |- *. by destruct (assign_checked t r as_ r).
Qed.

(** An UPDATE that fails on no row, keeps the keys and gives storable values. *)
Record update_fits t (v : view) as_ where_ (n : Z) : Prop := {
  uf_rows k r : key_ok k -> v UINT64_MAX k = Some r -> well_typed (t_columns t) r /\
    exists x, checked_update t as_ where_ r = Ok x /\ forall new, x = Some new -> Forall key_ok (values new);
  uf_keys : Forall (fun a => key_column (t_columns t) (as_column a) = false) as_;
  uf_cost rows : view_rows (t_columns t) v UINT64_MAX rows ->
    foldr Z.add 0 (map change_cost (omap (update_change t as_ where_ 0) rows)) <= n
}.

Lemma update_change_cost t as_ where_ ts rows :
  map change_cost (omap (update_change t as_ where_ ts) rows) = map change_cost (omap (update_change t as_ where_ 0) rows).
Proof.
  induction rows as [|r rows IH]; [done|]. rewrite !omap_cons_eq.
  assert (change_cost <$> update_change t as_ where_ ts r = change_cost <$> update_change t as_ where_ 0 r) as E
    by (unfold update_change; by destruct (checked_update t as_ where_ r) as [[new|]|e|e]).
  destruct (update_change t as_ where_ ts r), (update_change t as_ where_ 0 r); cbn in E |- *; try done. injection E as ->. by rewrite IH.
Qed.

Lemma update_auto t hi v w ts as_ where_ n :
  fresh_statement t hi v w ts -> update_fits t v as_ where_ n -> room (d_storage w) (t_name t) (t_columns t) n ->
  exists w', execute_update runner ctx_storage as_ where_ w = (w', Ok tt) /\
    rewritten t (d_storage w) v ts (fun _ => auto_updated t as_ where_) w w'.
Proof.
  intros F [Uf Kk Cost] Rm. pose proof F as [Et Ea Ets Tr Hi I]. unfold execute_update. erewrite bind_step by reflexivity. rewrite Ea.
  erewrite bind_step by reflexivity. rewrite Ets. erewrite bind_step by reflexivity. rewrite Et.
  rewrite (tbi_storage _ _ _ _ I). destruct (scan_ok_auto t hi v w Et I) as (s1 & rows & R1 & V & I1 & K1).
  assert (forall r, r ∈ rows -> exists x, checked_update t as_ where_ r = Ok x /\
    forall new, x = Some new -> row_ok t new /\ tbl_key t new = tbl_key t r) as Each.
  { intros r Hr. apply V in Hr as (Ne & Hk & Er). destruct (Uf _ _ Hk Er) as (Ty & x & Ex & Kx). exists x. split; [done|].
    intros new ->. specialize (Kx new eq_refl). unfold checked_update in Ex. destruct (row_satisfies subq t where_ r) as [[]|e|e]; [|done..].
    cbn in Ex. destruct (assign_checked t r as_ r) as [new'|e|e] eqn:Ea'; [|done..]. injection Ex as ->.
    apply assign_checked_shape in Ea' as [[L _] Key]; [|done]. split; [|by apply Key]. split; [|done|by apply extract_key_ok].
    intros E0. rewrite E0 in L. destruct Ty as [L' _]. rewrite <- L in L'. by destruct (values r). }
  destruct (rewrite_rows t hi v w ts rows s1 (update_change t as_ where_ ts) n F V I1 K1 Rm) as (t2 & s2 & R2 & Hh & Rw).
  { intros r c Hr. destruct (Each r Hr) as (x & Ex & Px). unfold update_change. rewrite Ex. destruct x as [new|]; [|done].
    intros [= <-]. destruct (Px new eq_refl) as [? ?]. done. }
  { rewrite update_change_cost. by apply Cost. }
  assert (tfor rows (update_stored runner as_ where_ ts) (mkDml (d_session w) (d_locks w) t s1) = (mkDml (d_session w) (d_locks w) t2 s2, Ok tt)) as R3.
  { rewrite (change_loop t _ (update_change t as_ where_ ts) rows (mkDml (d_session w) (d_locks w) t s1) s1 hi v n eq_refl eq_refl I1 Hh);
      [|rewrite update_change_cost; by apply Cost|by apply (K1 (t_name t))|].
    - unfold on_tbl. cbn [d_table d_storage d_session d_locks]. by rewrite R2.
    - intros r w' Hr En Ec. destruct (Each r Hr) as (x & Ex & _). by apply (update_stored_eq t as_ where_ ts r w' x). }
  destruct (finish_ok ts (mkDml (d_session w) (d_locks w) t2 s2)) as (s3 & R4 & K3). eexists. split.
  - unfold mbind at 1, st_bind at 1. unfold mbind at 1, st_bind at 1. rewrite R1, R3. exact R4.
  - apply (rewritten_ext _ _ _ _ (fun _ => by_change (update_change t as_ where_ ts))); [|by apply Rw]. intros k [r|]; [|done]. cbn.
    unfold update_change. by destruct (checked_update t as_ where_ r) as [[new|]|e|e].
Qed.

(** ** DELETE *)

Definition delete_change t (where_ : option (BoolExpr Q)) (ts : Z) (r : Row) : option change :=
  match row_satisfies subq t where_ r with Ok true => Some (Erase (tbl_key t r) ts) | _ => None end.

Lemma deleted_keys_eq t where_ ts rows w :
  d_table w = t -> (forall r, r ∈ rows -> values r <> [] /\ exists b, row_satisfies subq t where_ r = Ok b) ->
  exists ks, deleted_keys runner where_ rows w = (w, Ok ks) /\ map (fun k => Erase k ts) ks = omap (delete_change t where_ ts) rows.
Proof.
  intros Et. induction rows as [|r rows IH]; intros Hr; cbn [deleted_keys]; [by exists []|].
  destruct (Hr r ltac:(by left)) as [Ne [b Eb]]. destruct IH as (ks & R & E); [intros; apply Hr; by right|].
  unfold mbind at 1, st_bind at 1. rewrite (satisfies_auto t) by (by rewrite Et). rewrite Eb. erewrite bind_step by reflexivity.
  rewrite (bind_step _ _ _ _ _ R). eexists. split; [reflexivity|]. rewrite Et, (bool_decide_eq_false_2 (values r = [])) by done.
  rewrite omap_cons_eq, <- E. unfold delete_change. rewrite Eb. by destruct b.
Qed.

Lemma tfor_on_tbl {A} (l : list A) (f : A -> ST (Table * St) unit) w : tfor l (fun a => on_tbl (f a)) w = on_tbl (tfor l f) w.
Proof.
  revert w. induction l as [|a l IH]; intros w; [by destruct w|]. cbn [tfor]. unfold mbind, st_bind, on_tbl at 1.
  unfold on_tbl at 2. destruct (f a (d_table w, d_storage w)) as [[t1 s1] [[]|e|e]]; [|done..]. by rewrite IH.
Qed.
Lemma tfor_map {X A B} (g : A -> B) (l : list A) (f : B -> ST X unit) x : tfor (map g l) f x = tfor l (fun a => f (g a)) x.
Proof. revert x. induction l as [|a l IH]; intros x; [done|]. cbn. unfold mbind, st_bind. destruct (f (g a) x) as [x1 [[]|e|e]]; [apply IH|done..]. Qed.

(** A DELETE whose condition can be evaluated on every row. *)
Record delete_fits t (v : view) where_ (n : Z) : Prop := {
  df_rows k r : key_ok k -> v UINT64_MAX k = Some r -> exists b, row_satisfies subq t where_ r = Ok b;
  df_cost rows : view_rows (t_columns t) v UINT64_MAX rows ->
    foldr Z.add 0 (map change_cost (omap (delete_change t where_ 0) rows)) <= n
}.

Lemma delete_change_cost t where_ ts rows :
  map change_cost (omap (delete_change t where_ ts) rows) = map change_cost (omap (delete_change t where_ 0) rows).
Proof.
  induction rows as [|r rows IH]; [done|]. rewrite !omap_cons_eq.
  assert (change_cost <$> delete_change t where_ ts r = change_cost <$> delete_change t where_ 0 r) as E
    by (unfold delete_change; by destruct (row_satisfies subq t where_ r) as [[]|e|e]).
  destruct (delete_change t where_ ts r), (delete_change t where_ 0 r); cbn in E |- *; try done. injection E as ->. by rewrite IH.
Qed.

Lemma delete_auto t hi v w ts where_ n :
  fresh_statement t hi v w ts -> delete_fits t v where_ n -> room (d_storage w) (t_name t) (t_columns t) n ->
  exists w', execute_delete runner ctx_storage where_ w = (w', Ok tt) /\
    rewritten t (d_storage w) v ts (fun _ => removed subq t where_) w w'.
Proof.
  intros F [Df Cost] Rm. pose proof F as [Et Ea Ets Tr Hi I]. unfold execute_delete. erewrite bind_step by reflexivity. rewrite Ea.
  erewrite bind_step by reflexivity. rewrite Ets. erewrite bind_step by reflexivity. rewrite Et.
  rewrite (tbi_storage _ _ _ _ I). destruct (scan_ok_auto t hi v w Et I) as (s1 & rows & R1 & V & I1 & K1).
  destruct (rewrite_rows t hi v w ts rows s1 (delete_change t where_ ts) n F V I1 K1 Rm) as (t2 & s2 & R2 & _ & Rw).
  { intros r c Hr. apply V in Hr as (Ne & Hk & Er). unfold delete_change. destruct (row_satisfies subq t where_ r) as [[]|e|e]; [|done..].
    by intros [= <-]. }
  { rewrite delete_change_cost. by apply Cost. }
  destruct (deleted_keys_eq t where_ ts rows (mkDml (d_session w) (d_locks w) t s1) eq_refl) as (ks & R3 & Ek).
  { intros r Hr. apply V in Hr as (Ne & Hk & Er). split; [done|]. by eapply Df. }
  assert (tfor ks (fun k => on_tbl (persist_row_delete k ts)) (mkDml (d_session w) (d_locks w) t s1) = (mkDml (d_session w) (d_locks w) t2 s2, Ok tt)) as R4.
  { rewrite tfor_on_tbl. unfold on_tbl. cbn [d_table d_storage d_session d_locks]. rewrite <- Ek, tfor_map in R2. cbn [apply_change] in R2. by rewrite R2. }
  destruct (finish_ok ts (mkDml (d_session w) (d_locks w) t2 s2)) as (s3 & R5 & K3). eexists. split.
  - unfold mbind at 1, st_bind at 1. unfold mbind at 1, st_bind at 1. rewrite R1.
    unfold mbind at 1, st_bind at 1. rewrite R3, R4. exact R5.
  - apply (rewritten_ext _ _ _ _ (fun _ => by_change (delete_change t where_ ts))); [|by apply Rw]. intros k [r|]; [|done]. cbn.
    unfold delete_change. by destruct (row_satisfies subq t where_ r) as [[]|e|e].
Qed.

(** ** INSERT *)

Definition upserts_of (ts : Z) (rows : list Row) : list change := map (fun r => Upsert r ts) rows.

Lemma cost_nonneg cs : 0 <= foldr Z.add 0 (map change_cost cs).
Proof. induction cs as [|c cs IH]; cbn; [lia|]. pose proof (change_cost_pos c). lia. Qed.

Lemma append_rows_ok t s hi v ts rows n :
  shown s (t_name t) (t_columns t) hi v -> history_ok t hi (upserts_of ts rows) ->
  foldr Z.add 0 (map change_cost (upserts_of ts rows)) <= n -> room s (t_name t) (t_columns t) n ->
  exists s', se_append_rows (t_name t) (t_columns t) rows ts s = (s', Ok tt) /\
    shown s' (t_name t) (t_columns t) (foldl (newest_change t) hi (upserts_of ts rows)) (foldl (view_change t) v (upserts_of ts rows)) /\
    forall name, name <> t_name t -> keeps name s s'.
Proof.
  unfold se_append_rows. revert s hi v n. induction rows as [|r rows IH]; intros s hi v n Sh Hh Cost Rm.
  { exists s. split_and!; [done|done|]. intros. apply keeps_refl. }
  destruct Hh as [(Fr & T0 & Ok0) Hh]. cbn [upserts_of map foldr change_cost] in Cost. fold (upserts_of ts rows) in *.
  pose proof (cost_nonneg (upserts_of ts rows)). cbn [change_key change_ts] in Fr, T0. destruct Ok0 as [_ _ Hk].
  destruct (law_append s _ _ hi v r ts n Sh Hk Fr T0 ltac:(lia) Rm) as (s1 & R1 & Sh1 & Rm1 & K1).
  destruct (IH s1 _ _ (n - write_cost r) Sh1 Hh ltac:(lia) Rm1) as (s2 & R2 & Sh2 & K2).
  exists s2. cbn [tfor]. unfold mbind, st_bind. rewrite R1. split_and!; [done|done|]. intros name N. eapply keeps_trans; auto.
Qed.

Lemma change_rows_ok t ts rows :
  at_ts t ts (upserts_of ts rows) -> forall r, r ∈ rows -> row_ok t r.
Proof.
  intros [_ F] r Hr. rewrite Forall_forall in F. apply (F (Upsert r ts)). by apply (list_elem_of_fmap_2 (fun r => Upsert r ts)).
Qed.

Lemma changed_row t ts rows k r : changed_to t (upserts_of ts rows) k = Some (Some r) -> r ∈ rows.
Proof.
  induction rows as [|r' rows IH]; [done|]. cbn [upserts_of map]. rewrite changed_to_cons. fold (upserts_of ts rows).
  case_decide; [intros [= <-]; by left|]. intros E. right. by apply IH.
Qed.
Lemma upserts_rows t ts rows k o : changed_to t (upserts_of ts rows) k = Some o -> exists r, o = Some r.
Proof.
  induction rows as [|r' rows IH]; [done|]. cbn [upserts_of map]. rewrite changed_to_cons. fold (upserts_of ts rows).
  case_decide; [intros [= <-]; by eexists|done].
Qed.

Lemma insert_batch_ok t s hi v ts rows n :
  table_inv t s hi v -> at_ts t ts (upserts_of ts rows) -> 0 <= ts <= UINT64_MAX -> (forall k, hi k < ts) ->
  Forall (fun r => length (values r) = length (t_columns t)) rows ->
  foldr Z.add 0 (map change_cost (upserts_of ts rows)) <= n -> room s (t_name t) (t_columns t) n ->
  exists t' s', insert_batch rows ts (t, s) = ((t', s'), Ok tt) /\ changed t s hi v ts (upserts_of ts rows) t' s'.
Proof.
  intros I At T Hi Len Cost Rm. pose proof I as [Sh Hs Wf Rw]. destruct (decide (rows = [])) as [->|Nr].
  { exists t, s. split; [done|]. split_and!; [|by apply tbl_step_refl|done|intros; apply keeps_refl].
    eapply inv_weaken; [| |exact I]; [|done]. intros k. cbv beta. by rewrite decide_False by apply not_elem_of_nil. }
  destruct (append_rows_ok t s hi v ts rows n Sh) as (s1 & R1 & Sh1 & K1); [by apply (at_ts_history t ts); [|lia|intros; apply Hi]|done|done|].
  pose proof (change_rows_ok t ts rows At) as Rok.
  destruct (tfor_index rows index_row (fun r t' => has_row t' r) t s1) as (t2 & s2 & [] & R2 & St2 & P2 & K2).
  { intros r t1 t2. apply has_row_step. }
  { intros r t1 s' Hr [[ix ->] _ _]. destruct (Rok r Hr) as [Ne Kr Hk]. by apply index_row_ok. }
  pose proof (ix_tbl_step _ _ St2) as Ts. exists (bump (Z.of_nat (length rows)) t2), s2.
  assert (tbl_step t (bump (Z.of_nat (length rows)) t2)) as Tb by (eapply tbl_step_trans; [exact Ts|apply bump_step]). split.
  - unfold insert_batch. destruct rows as [|r0 rows']; [done|]. rewrite the_table_ok.
    assert (forallb (fun r => (length (values r) =? length (t_columns t))%nat) (r0 :: rows') = true) as ->.
    { apply forallb_forall. intros r Hr%list_elem_of_In. rewrite Forall_forall in Len. by apply Nat.eqb_eq, Len. }
    cbn [negb]. rewrite Hs. unfold mbind at 1, st_bind at 1. unfold mbind at 1, st_bind at 1. unfold on_storage at 1. cbn [fst snd].
    rewrite R1. cbv iota beta. rewrite R2. reflexivity.
  - pose proof Ts as [En Ec Es _ _ _ Wt]. split_and!; [|done| |].
    + split.
      * cbn. rewrite En, Ec. apply (K2 (t_name t)). eapply shown_weaken; [| |exact Sh1].
        -- intros k. by rewrite (newest_changes t ts).
        -- intros sn k _. by apply view_changes.
      * cbn. congruence.
      * by apply Tb.
      * intros sn k r Hk. cbv beta. destruct (changed_to t (upserts_of ts rows) k) as [o|] eqn:E; [|by apply Rw].
        destruct (ts <=? sn); [|by apply Rw]. intros ->. apply changed_row in E. by destruct (Rok r E).
    + intros snap C k r Hk. cbv beta. destruct (changed_to t (upserts_of ts rows) k) as [o|] eqn:E.
      * destruct (ts <=? snap); [|intros Ev; eapply has_row_tbl_step; [exact Tb|by eapply C]].
        intros ->. apply changed_row in E. eapply has_row_tbl_step; [apply bump_step|]. by apply P2.
      * intros Ev. eapply has_row_tbl_step; [exact Tb|by eapply C].
    + intros name N. eapply keeps_trans; [by apply K1|apply K2].
Qed.

(** The check for duplicate keys reads only. *)
Lemma check_unique_ok t hi v batch w :
  d_table w = t -> table_inv t (d_storage w) hi v -> Forall (fun r => values r <> [] /\ key_ok (tbl_key t r)) batch ->
  exists s' r, check_unique [] batch w = (mkDml (d_session w) (d_locks w) t s', r) /\ (forall name, keeps name (d_storage w) s') /\
    match r with Ok _ => ~ duplicate t v empty_buffer batch | Throw _ => duplicate t v empty_buffer batch | UB _ => False end.
Proof.
  intros Et I Fb.
  assert (forall todo done w seen, batch = done ++ todo -> d_table w = t -> table_inv t (d_storage w) hi v -> Forall key_ok seen ->
    (forall k, k ∈ seen <-> k ∈ map (tbl_key t) done) -> ~ duplicate t v empty_buffer done ->
    exists s' r, check_unique seen todo w = (mkDml (d_session w) (d_locks w) t s', r) /\ (forall name, keeps name (d_storage w) s') /\
      match r with Ok _ => ~ duplicate t v empty_buffer batch | Throw _ => duplicate t v empty_buffer batch | UB _ => False end) as G;
    [|apply (G batch [] w []); try done; intros (d & r & td & E & _); by destruct d].
  clear w Et I. induction todo as [|r todo IH]; intros done w seen Eb Et I Ks Es Nd; cbn [check_unique].
  { exists (d_storage w), (Ok tt). split_and!; [rewrite <- Et; by destruct w|intros; apply keeps_refl|]. by rewrite Eb, app_nil_r. }
  assert (r ∈ batch) as Hr by (rewrite Eb; set_solver). rewrite Forall_forall in Fb. destruct (Fb r Hr) as [Ne Hk].
  unfold mbind at 1, st_bind at 1, gets at 1. rewrite Et. unfold row_pk. rewrite bool_decide_eq_false_2 by done.
  destruct (vmem (tbl_key t r) seen) eqn:M.
  { apply vmem_elem, Es in M; [|done..]. exists (d_storage w). eexists. split_and!; [rewrite <- Et; by destruct w|intros; apply keeps_refl|].
    exists done, r, todo. split; [done|by right]. }
  pose proof I as [Sh Hs _ _]. destruct (law_lookup (d_storage w) _ _ hi v (tbl_key t r) UINT64_MAX Sh Hk) as (s1 & R & Kp).
  assert (on_tbl (tbl_lookup_visible (tbl_key t r) UINT64_MAX) w = (mkDml (d_session w) (d_locks w) t s1, Ok (v UINT64_MAX (tbl_key t r)))) as R1.
  { unfold on_tbl, tbl_lookup_visible. rewrite the_table_ok, Et, Hs. unfold on_storage. cbn [fst snd]. by rewrite R. }
  rewrite (bind_step _ _ _ _ _ R1). case_bool_decide as L.
  { exists s1. eexists. split_and!; [reflexivity|done|]. exists done, r, todo. split; [done|]. left. unfold sees. cbn. by destruct L as [x ->]. }
  destruct (IH (done ++ [r]) (mkDml (d_session w) (d_locks w) t s1) (vadd (tbl_key t r) seen)) as (s2 & o & R2 & K2 & P).
  - by rewrite <- app_assoc.
  - done.
  - by eapply inv_keeps.
  - by apply vadd_key_ok.
  - intros k. rewrite vadd_elem, Es, map_app, elem_of_app by done. cbn. rewrite list_elem_of_singleton. tauto.
  - intros (d & r' & td & E & D). destruct td as [|x td _] using rev_ind.
    + apply app_inj_tail in E as [<- <-]. destruct D as [D|D].
      * unfold sees in D. cbn in D. destruct (v UINT64_MAX (tbl_key t r)); [by destruct L|done].
      * apply Es in D. apply vmem_elem in D; [congruence|done..].
    + rewrite app_comm_cons, app_assoc in E. apply app_inj_tail in E as [-> <-]. apply Nd. by exists d, r', td.
  - exists s2, o. split_and!; [exact R2| |exact P]. intros name. eapply keeps_trans; [apply Kp|apply K2].
Qed.

(** Statements that only read leave the tables and the session alone. *)
Definition untouched w w' : Prop :=
  d_session w' = d_session w /\ d_locks w' = d_locks w /\ d_table w' = d_table w /\ forall name, keeps name (d_storage w) (d_storage w').

Lemma row_with_key_changed t ts batch k :
  match changed_to t (upserts_of ts batch) k with Some o => o | None => None end = row_with_key t batch k /\
  (changed_to t (upserts_of ts batch) k = None <-> row_with_key t batch k = None).
Proof.
  unfold row_with_key. induction batch as [|r batch IH]; [done|]. cbn [upserts_of map List.find]. rewrite changed_to_cons.
  fold (upserts_of ts batch). cbn [change_key change_row]. case_decide; case_bool_decide; done.
Qed.

Lemma NoDup_keys t v batch : ~ duplicate t v empty_buffer batch -> NoDup (map (tbl_key t) batch).
Proof.
  intros N. assert (forall done todo, batch = done ++ todo -> NoDup (map (tbl_key t) done)) as G; [|by apply (G batch []); rewrite app_nil_r].
  induction done as [|r done IH] using rev_ind; intros todo E; [constructor|]. rewrite map_app. apply NoDup_app.
  rewrite <- app_assoc in E. split_and!; [by apply (IH ([r] ++ todo))| |apply NoDup_singleton].
  intros k Hk ->%list_elem_of_singleton. apply N. exists done, r, todo. split; [exact E|by right].
Qed.

Lemma insert_auto t hi v w ts idx rows n :
  fresh_statement t hi v w ts -> t_columns t <> [] -> Forall (Forall key_ok) rows ->
  (forall batch, build_rows (t_columns t) idx rows = Ok batch -> foldr Z.add 0 (map change_cost (upserts_of ts batch)) <= n) ->
  room (d_storage w) (t_name t) (t_columns t) n ->
  match execute_insert ctx_storage idx rows w with
  | (w', Ok _) => exists batch, build_rows (t_columns t) idx rows = Ok batch /\ ~ duplicate t v empty_buffer batch /\
      Forall (well_typed (t_columns t)) batch /\
      rewritten t (d_storage w) v ts (fun k o => match row_with_key t batch k with Some r => Some r | None => o end) w w'
  | (w', _) => untouched w w' /\
      ((forall x, (batch ← build_rows (t_columns t) idx rows; validate_rows (t_columns t) batch) <> Ok x) \/
       exists batch, build_rows (t_columns t) idx rows = Ok batch /\ duplicate t v empty_buffer batch)
  end.
Proof.
  intros F Nc Kr Cost Rm. pose proof F as [Et Ea Ets Tr Hi I].
  assert (untouched w w) as Un by (split_and!; try done; intros; apply keeps_refl).
  unfold execute_insert. erewrite bind_step by reflexivity. rewrite Et. unfold mbind at 1, st_bind at 1, lift at 1.
  destruct (build_rows (t_columns t) idx rows) as [batch|e|e] eqn:Eb; [|by split; [|left]..].
  unfold mbind at 1, st_bind at 1, lift at 1. destruct (validate_rows (t_columns t) batch) as [[]|e|e] eqn:Ev;
    [|split; [done|]; left; cbn; by rewrite Ev..].
  erewrite bind_step by reflexivity. rewrite Ea. pose proof (build_rows_spec key_ok _ _ _ _ Logic.I Kr Eb) as Sh. apply validate_rows_spec in Ev.
  rewrite Forall_forall in Sh, Ev.
  assert (forall r, r ∈ batch -> row_ok t r) as Rok.
  { intros r Hr. destruct (Sh r Hr) as [L K]. split; [|done|by apply extract_key_ok]. intros E. rewrite E in L. by destruct (t_columns t). }
  destruct (check_unique_ok t hi v batch w Et I) as (s1 & r & R1 & K1 & P).
  { apply Forall_forall. intros r Hr. by destruct (Rok r Hr). }
  unfold mbind at 1, st_bind at 1. rewrite R1. destruct r as [[]|e|e]; [|split; [split_and!; try done; by rewrite Et|]; right; by exists batch|done].
  erewrite bind_step by reflexivity. change (auto_ts (mkDml (d_session w) (d_locks w) t s1)) with (auto_ts w). rewrite Ets.
  assert (at_ts t ts (upserts_of ts batch)) as At.
  { split; [unfold upserts_of; rewrite map_map; cbn; by apply (NoDup_keys t v)|]. apply Forall_forall. intros c (r & -> & Hr)%list_elem_of_fmap.
    split; [done|by apply Rok]. }
  destruct (insert_batch_ok t s1 hi v ts batch n) as (t2 & s2 & R2 & Ch); [by eapply inv_keeps|done|lia|done| |by apply Cost|by apply (K1 (t_name t))|].
  { apply Forall_forall. intros r Hr. by apply Sh. }
  rewrite (bind_step _ _ _ (mkDml (d_session w) (d_locks w) t2 s2) tt); [|unfold on_tbl; cbn [d_table d_storage]; by rewrite R2].
  destruct (finish_ok ts (mkDml (d_session w) (d_locks w) t2 s2)) as (s3 & R3 & K3). rewrite R3. exists batch. split_and!; [done|done| |].
  { apply Forall_forall. intros r Hr. split; [by apply Sh|by apply Ev]. }
  apply (rewritten_quiet t s1 (d_storage w) v ts _ w (mkDml (d_session w) (d_locks w) t2 s2) s3); [|done|done].
  apply (changed_rewritten t s1 hi v ts (upserts_of ts batch)); [done|by eapply inv_keeps|done|lia|]. intros k Hk.
  destruct (row_with_key_changed t ts batch k) as [E1 E2]. rewrite <- E1. destruct (changed_to t (upserts_of ts batch) k) as [o|] eqn:E; [|done].
  by destruct (upserts_rows _ _ _ _ _ E) as [r ->].
Qed.

End Auto.

(** * Properties *)

Section Properties.
Context {St : Type} `{StorageLaws St} {Q : Type}.
Variable subq : option (Q -> Record_ -> bool -> res (list Value)).
Variable ctx_storage : bool.

Lemma validate_value_throws c x : (exists e, validate_value c x = Throw e) \/ validate_value c x = Ok tt.
Proof.
  unfold validate_value. destruct x as [|n|d|b]; [destruct (not_null c)|..]; try destruct (col_type c); cbn;
    repeat (match goal with |- context [if ?c then _ else _] => destruct c end); eauto.
Qed.
Lemma validate_values_throws cols vs : (exists e, validate_values cols vs = Throw e) \/ validate_values cols vs = Ok tt.
Proof.
  revert vs. induction cols as [|c cols IH]; intros [|x vs]; cbn; [by right..|]. destruct (validate_value_throws c x) as [[e ->]| ->]; cbn; eauto.
Qed.
Lemma validate_rows_throws cols rows :
  (exists e, validate_rows cols rows = Throw e) \/ Forall (fun r => validate_row_constraints cols r = Ok tt) rows.
Proof.
  induction rows as [|r rows IH]; cbn; [right; constructor|]. unfold validate_row_constraints at 1.
  destruct (validate_values_throws cols (values r)) as [[e ->]|E]; cbn; [eauto|]. rewrite E. cbn.
  destruct IH as [?|?]; [by left|]. right. by constructor.
Qed.

Lemma validate_rows_ok cols rows : Forall (fun r => validate_row_constraints cols r = Ok tt) rows -> validate_rows cols rows = Ok tt.
Proof. induction 1 as [|r rows E _ IH]; [done|]. cbn. by rewrite E. Qed.

(** What a statement outside a transaction makes of the row of each key. *)
Definition auto_effect (t : Table) (p : DmlPlan Q) (g : Value -> option Row -> option Row) : Prop :=
  match p with
  | InsertPlan idx rows => exists batch, build_rows (t_columns t) idx rows = Ok batch /\ Forall (well_typed (t_columns t)) batch /\
      g = fun k o => match row_with_key t batch k with Some r => Some r | None => o end
  | UpdatePlan as_ where_ => g = fun _ => auto_updated subq t as_ where_
  | DeletePlan where_ => g = fun _ => removed subq t where_
  end.

(** The statement's rows are storable, [n] bounds what it writes, and an UPDATE
    or DELETE can be evaluated on every row. *)
Definition auto_fits (t : Table) (v : view) (ts : Z) (p : DmlPlan Q) (n : Z) : Prop :=
  match p with
  | InsertPlan idx rows => t_columns t <> [] /\ Forall (Forall key_ok) rows /\
      forall batch, build_rows (t_columns t) idx rows = Ok batch -> foldr Z.add 0 (map change_cost (upserts_of ts batch)) <= n
  | UpdatePlan as_ where_ => update_fits subq t v as_ where_ n
  | DeletePlan where_ => delete_fits subq t v where_ n
  end.

(** An INSERT that cannot be carried out. *)
Definition insert_invalid (t : Table) (v : view) (p : DmlPlan Q) : Prop :=
  match p with
  | InsertPlan idx rows =>
      (forall x, (batch ← build_rows (t_columns t) idx rows; validate_rows (t_columns t) batch) <> Ok x) \/
      exists batch, build_rows (t_columns t) idx rows = Ok batch /\ duplicate t v empty_buffer batch
  | _ => False
  end.

Lemma auto_statement t hi v (w : Dml St) ts (p : DmlPlan Q) n :
  fresh_statement t hi v w ts -> auto_fits t v ts p n -> room (d_storage w) (t_name t) (t_columns t) n ->
  let (w', r) := execute_dml (fun _ => subq) ctx_storage p w in
  match r with
  | Ok _ => exists g, auto_effect t p g /\ rewritten t (d_storage w) v ts g w w'
  | _ => untouched w w' /\ insert_invalid t v p
  end.
Proof.
  intros F Fit Rm. destruct p as [idx rows|as_ where_|where_]; cbn [execute_dml auto_fits] in *.
  - destruct Fit as (Nc & Kr & Cost). pose proof (insert_auto ctx_storage t hi v w ts idx rows n F Nc Kr Cost Rm) as S.
    destruct (execute_insert _ _ _ w) as [w' [[]|e|e]]; [|done..]. destruct S as (batch & Eb & _ & Ty & Rw). eexists. split; [|exact Rw]. by exists batch.
  - destruct (update_auto subq ctx_storage t hi v w ts as_ where_ n F Fit Rm) as (w' & -> & Rw). eexists. split; [|exact Rw]. done.
  - destruct (delete_auto subq ctx_storage t hi v w ts where_ n F Fit Rm) as (w' & -> & Rw). eexists. split; [|exact Rw]. done.
Qed.

(** C10: an INSERT outside a transaction, or an UPDATE of columns outside the key or
    a DELETE that evaluates on every row of the table without an error, over any
    storage engine that keeps the interface laws and has room for the writes (for the
    LSM engine: they cause no flush, or whatever is flushed fits a file), at a
    timestamp above those of the table ([statement_anomalies] shows an UPDATE that
    fails half-way and one of the key).  The statement succeeds and snapshots from
    its timestamp on see the table with
    the new rows, the rows that satisfy the condition replaced or gone, while
    older snapshots see what they saw; every index covers the new rows and
    other tables are as before.  An INSERT can fail, when a row breaks a
    constraint or its key is taken, and then changes nothing. *)
Theorem auto_statement_correct t hi v (w : Dml St) ts (p : DmlPlan Q) n :
  fresh_statement t hi v w ts -> auto_fits t v ts p n -> room (d_storage w) (t_name t) (t_columns t) n ->
  let (w', r) := execute_dml (fun _ => subq) ctx_storage p w in
  match r with
  | Ok _ => exists g, auto_effect t p g /\ rewritten t (d_storage w) v ts g w w'
  | _ => untouched w w' /\ insert_invalid t v p
  end.
Proof. apply auto_statement. Qed.

Lemma effect_typed t v p g n ts :
  auto_fits t v ts p n -> auto_effect t p g -> (forall k r, key_ok k -> v UINT64_MAX k = Some r -> well_typed (t_columns t) r) ->
  forall k r, key_ok k -> g k (v UINT64_MAX k) = Some r -> well_typed (t_columns t) r.
Proof.
  intros Fit E Ty k r Hk. destruct p as [idx rows|as_ where_|where_]; cbn in E.
  - destruct E as (batch & _ & Tb & ->). unfold row_with_key. destruct (List.find _ batch) as [r'|] eqn:Ef; [|by apply Ty].
    intros [= <-]. apply find_some in Ef as [Hin%list_elem_of_In _]. rewrite Forall_forall in Tb. by apply Tb.
  - subst g. destruct (v UINT64_MAX k) as [r0|] eqn:Ev; [|done]. specialize (Ty k r0 Hk Ev). cbn. unfold checked_update.
    destruct (row_satisfies subq t where_ r0) as [[]|e|e]; cbn; [|by intros [= <-]..].
    destruct (assign_checked t r0 as_ r0) as [new|e|e] eqn:Ea; cbn; [|by intros [= <-]..]. intros [= <-].
    by apply (assign_checked_shape t r0 as_ r0 new).
  - subst g. destruct (v UINT64_MAX k) as [r0|] eqn:Ev; [|done]. specialize (Ty k r0 Hk Ev). cbn.
    destruct (row_satisfies subq t where_ r0) as [[]|e|e]; [done|by intros [= <-]..].
Qed.

(** C11: rows keep to the schema.  When every row of a table has as many values as
    the table has columns, each of its column's type and NULL only where it is
    allowed, that is so after an INSERT outside a transaction, whatever its outcome,
    and after an UPDATE of columns outside the key or a DELETE that evaluates on
    every row without an error, if the storage has room for the writes. *)
Theorem statements_keep_schema t hi v (w : Dml St) ts (p : DmlPlan Q) n :
  fresh_statement t hi v w ts -> auto_fits t v ts p n -> room (d_storage w) (t_name t) (t_columns t) n ->
  (forall k r, key_ok k -> v UINT64_MAX k = Some r -> conforms (t_columns t) r) ->
  let w' := (execute_dml (fun _ => subq) ctx_storage p w).1 in
  exists hi' (v' : view), table_inv (d_table w') (d_storage w') hi' v' /\
    forall k r, key_ok k -> v' UINT64_MAX k = Some r -> conforms (t_columns (d_table w')) r.
Proof.
  intros F Fit Rm Ty. setoid_rewrite <- well_typed_conforms in Ty. pose proof (auto_statement t hi v w ts p n F Fit Rm) as S. pose proof F as [Et _ _ Tr _ I].
  destruct (execute_dml _ _ p w) as [w' r]. cbn [fst].
  assert (untouched w w' -> exists hi' (v' : view), table_inv (d_table w') (d_storage w') hi' v' /\
    forall k r, key_ok k -> v' UINT64_MAX k = Some r -> conforms (t_columns (d_table w')) r) as Un.
  { intros (_ & _ & E & K). exists hi, v. rewrite E, Et. split; [by eapply inv_keeps|]. intros k r0 Hk Hr. by eapply well_typed_conforms, Ty. }
  destruct r as [[]|e|e]; [|by apply Un, S..]. destruct S as (g & Eg & _ & _ & [_ Ec _ _ _ _ _] & _ & hi' & v' & I' & _ & Ev & _).
  exists hi', v'. split; [done|]. rewrite Ec. intros k r Hk. rewrite Ev by (done || lia).
  destruct (Z.leb_spec ts UINT64_MAX); [|lia]. intros Hr. eapply well_typed_conforms, effect_typed; done.
Qed.

(** C12: an INSERT outside a transaction of rows that break a NOT NULL or type
    constraint, or whose key exists already or occurs twice, throws and leaves
    the session, the locks, the table and the contents of the storage as they
    were.  No value is NaN or -0.0, and the storage has room for the rows. *)
Theorem insert_rejected t hi v (w : Dml St) ts idx rows batch n :
  fresh_statement t hi v w ts -> auto_fits t v ts (InsertPlan idx rows) n -> room (d_storage w) (t_name t) (t_columns t) n ->
  build_rows (t_columns t) idx rows = Ok batch ->
  ~ Forall (conforms (t_columns t)) batch \/ duplicate t v empty_buffer batch ->
  exists w' what, execute_dml (fun _ => subq) ctx_storage (InsertPlan idx rows) w = (w', Throw what) /\ untouched w w'.
Proof.
  intros F Fit Rm Eb Bad. pose proof F as [Et Ea Ets Tr Hi I]. destruct Fit as (Nc & Kr & _).
  cbn [execute_dml]. unfold execute_insert. erewrite bind_step by reflexivity. rewrite Et. unfold mbind at 1, st_bind at 1, lift at 1. rewrite Eb.
  unfold mbind at 1, st_bind at 1, lift at 1. destruct (validate_rows_throws (t_columns t) batch) as [[e ->]|Vr].
  { exists w, e. by split_and!. }
  pose proof (build_rows_spec key_ok _ _ _ _ Logic.I Kr Eb) as Sh. rewrite Forall_forall in Sh.
  destruct Bad as [Bad|Dup].
  { destruct Bad. apply Forall_forall. intros r Hr. apply well_typed_conforms. rewrite Forall_forall in Vr. split; [apply Sh|apply Vr]; done. }
  rewrite (validate_rows_ok _ _ Vr). erewrite bind_step by reflexivity. rewrite Ea.
  destruct (check_unique_ok t hi v batch w Et I) as (s1 & r & R1 & K1 & P).
  { apply Forall_forall. intros r Hr. destruct (Sh r Hr) as [L K]. split; [|by apply extract_key_ok]. intros E. rewrite E in L. by destruct (t_columns t). }
  unfold mbind at 1, st_bind at 1. rewrite R1. destruct r as [[]|e|e]; [done| |done]. eexists _, e. split; [reflexivity|]. by split_and!.
Qed.

End Properties.

(** ** Examples *)

(** A statement at time 12 on the example table. *)
Definition ex_auto : Dml (Engine DecodedFile) :=
  mkDml (Some (mkSession 0 ReadCommitted ∅ 12 12 ∅ ∅ [])) None ex_tbl ex_engine.
Lemma ex_auto_fresh : fresh_statement ex_tbl (fun _ => 9) ex_view ex_auto 12.
Proof. split; try done. exact ex_tbl_inv. Qed.
Lemma ex_auto_room : room (d_storage ex_auto) (t_name ex_tbl) (t_columns ex_tbl) 200.
Proof. eexists. split; [reflexivity|]. split_and!; try done. by left. Qed.

Definition ex_insert : DmlPlan unit := InsertPlan [0; 1]%nat [[VInt 6; VInt 60]; [VInt 7; VInt 70]].
Lemma ex_insert_fits : auto_fits None ex_tbl ex_view 12 ex_insert 200.
Proof. split_and!; [done|repeat constructor|]. intros batch [= <-]. vm_compute. done. Qed.

Lemma auto_statement_correct_witness :
  exists w', execute_dml (fun _ => None) true ex_insert ex_auto = (w', Ok tt) /\
    exists g, auto_effect None ex_tbl ex_insert g /\ rewritten ex_tbl (d_storage ex_auto) ex_view 12 g ex_auto w'.
Proof.
  assert ((execute_dml (fun _ => None) true ex_insert ex_auto).2 = Ok tt) as E by (vm_compute; reflexivity).
  pose proof (auto_statement_correct None true ex_tbl (fun _ => 9) ex_view ex_auto 12 ex_insert 200 ex_auto_fresh ex_insert_fits ex_auto_room) as S.
  destruct (execute_dml (fun _ => None) true ex_insert ex_auto) as [w' r]. cbn in E. subst r. exists w'. split; [reflexivity|exact S].
Defined.

Lemma statements_keep_schema_witness :
  let w' := (execute_dml (fun _ => None) true ex_insert ex_auto).1 in
  exists hi' (v' : view), table_inv (d_table w') (d_storage w') hi' v' /\
    forall k r, key_ok k -> v' UINT64_MAX k = Some r -> conforms (t_columns (d_table w')) r.
Proof.
  apply (statements_keep_schema None true ex_tbl (fun _ => 9) ex_view ex_auto 12 ex_insert 200 ex_auto_fresh ex_insert_fits ex_auto_room).
  intros k r _. intros E. apply well_typed_conforms. revert E. apply ex_view_row. repeat constructor; done.
Defined.

(** The key 3 is taken. *)
Lemma insert_rejected_witness :
  exists w' what, execute_dml (fun _ => None) true (InsertPlan [0]%nat [[VInt 4]; [VInt 3]] : DmlPlan unit) ex_auto = (w', Throw what) /\
    untouched ex_auto w'.
Proof.
  apply (insert_rejected (Q := unit) None true ex_tbl (fun _ => 9) ex_view ex_auto 12 [0]%nat [[VInt 4]; [VInt 3]]
           [mkRow [VInt 4; VNull]; mkRow [VInt 3; VNull]] 200 ex_auto_fresh).
  - split_and!; [done|repeat constructor|]. intros batch [= <-]. vm_compute. done.
  - exact ex_auto_room.
  - reflexivity.
  - right. exists [mkRow [VInt 4; VNull]], (mkRow [VInt 3; VNull]), []. split; [done|]. left. vm_compute. done.
Defined.

(** An UPDATE that fails half-way leaves the rows it has already written visible
    (v = v % (id - 3) fails on row 3 after row 1), and an UPDATE of the primary
    key leaves the old row beside the new one. *)
Lemma statement_anomalies :
  (let w := (execute_dml (fun _ => None) true
               (UpdatePlan [mkAssign 1 (EBinary Mod (EColumn (mkRef [] (str "v")))
                             (EBinary Sub (EColumn (mkRef [] (str "id"))) (ELiteral (VInt 3))))] None : DmlPlan unit) ex_auto) in
   (tbl_scan_visible 20 (d_table w.1, d_storage w.1)).2 = Ok [t_row 1 0; t_row 3 7] /\ w.2 <> Ok tt) /\
  (let w := (execute_dml (fun _ => None) true (UpdatePlan [mkAssign 0 (ELiteral (VInt 8))] 
               (Some (BComparison (Some (mkCmp (EColumn (mkRef [] (str "id"))) Eq (ELiteral (VInt 3)))))) : DmlPlan unit) ex_auto).1 in
   (tbl_scan_visible 20 (d_table w, d_storage w)).2 = Ok [t_row 1 30; t_row 3 7; t_row 8 7]).
Proof. split; [split|]; vm_compute; done. Qed.
