(* ===== verification/Control.v ===== *)
(** Transaction control, [src/process/transaction_controller.cpp]: BEGIN, COMMIT,
    ROLLBACK, savepoints, the isolation level and the timestamps of a statement.

    The catalog maps names to tables; statements and control work on the same
    table objects, so they are kept in one map here.  Uncommitted writes live in
    the session's buffer; COMMIT gives them one timestamp and writes them into
    the tables. *)
From Stdlib Require Import ZArith Lia Strings.Byte.
From stdpp Require Import base numbers list gmap strings.
From S2P Require Import Prelude Values Codec Txn Locks Doubles Session Query Tables.
Local Open Scope Z_scope.

Record World (St : Type) := mkWorld {
  w_txns : TransactionManager;
  w_locks : RowLock.RowLockManager;
  w_tables : gmap bytes Table;
  w_storage : St
}.
Arguments mkWorld {St}. Arguments w_txns {St}. Arguments w_locks {St}. Arguments w_tables {St}. Arguments w_storage {St}.

Section Control.
Context {St : Type} `{StorageEngine St}.
Implicit Types (w : World St) (s : Session).

Abbreviation CTL := (ST (World St * Session)).

Definition set_txns (tm : TransactionManager) w : World St := mkWorld tm (w_locks w) (w_tables w) (w_storage w).
Definition set_row_locks (l : RowLock.RowLockManager) w : World St := mkWorld (w_txns w) l (w_tables w) (w_storage w).
Definition set_table (name : bytes) (t : Table) (st : St) w : World St :=
  mkWorld (w_txns w) (w_locks w) (<[name := t]> (w_tables w)) st.

Definition on_world (f : World St -> World St) : CTL unit := modify (fun ws => (f ws.1, ws.2)).
Definition on_session (f : Session -> Session) : CTL unit := modify (fun ws => (ws.1, f ws.2)).
Definition the_world : CTL (World St) := gets fst.
Definition the_session : CTL Session := gets snd.

(** Working on a table of the catalog. *)
Definition at_table {A} (name : bytes) (t : Table) (m : ST (Table * St) A) : CTL A := fun ws =>
  let '((t', st'), a) := m (t, w_storage ws.1) in ((set_table name t' st' ws.1, ws.2), a).

(** ** BEGIN *)

Definition set_txn (id : Z) s : Session :=
  mkSession id (isolation s) (write_buffer s) (snapshot_ts s) (auto_commit_ts s) (read_set s) (table_read_versions s) (savepoints s).
Definition set_snapshot (ts : Z) s : Session := set_timestamps ts (auto_commit_ts s) s.

Definition begin : CTL bytes :=
  s ← the_session;
  if in_transaction s then throw "[Process] Transaction already in progress" else
  w ← the_world;
  let (tm, id) := Txn.begin (w_txns w) in
  _ ← on_world (set_txns tm);
  _ ← on_session (fun s =>
    set_snapshot (if bool_decide (isolation s = RepeatableRead) || bool_decide (isolation s = Serializable)
                  then default 0 (get_read_ts id tm) else 0)
      (set_savepoints [] (set_txn id s)));
  mret (str "Transaction started with ID: " ++ int_to_string id).

(** ** COMMIT *)

(** What every way out of a transaction clears; a failed commit keeps the savepoints. *)
Definition clear_txn s : Session := set_snapshot 0 (set_txn 0 (set_reads ∅ ∅ (set_write_buffer ∅ s))).

Definition abort_txn (id : Z) : CTL unit :=
  _ ← on_world (fun w => set_txns (Txn.rollback id (w_txns w)).1 w);
  _ ← on_session clear_txn;
  on_world (fun w => set_row_locks (RowLock.release_all id (w_locks w)) w).

(** [old_row->values != cur_row->values] and the like. *)
Definition same_cells (a b : list Value) : bool := (length a =? length b)%nat && forallb (fun p => ValueEq p.1 p.2) (zip a b).
Definition same_row (a b : option Row) : bool :=
  match a, b with
  | Some a, Some b => same_cells (values a) (values b)
  | None, None => true
  | _, _ => false
  end.

Definition check_key (id : Z) (name : bytes) (k : Value) : CTL unit :=
  w ← the_world; s ← the_session;
  match w_tables w !! name with
  | None => mret tt
  | Some t =>
      old ← at_table name t (tbl_lookup_visible k (snapshot_ts s));
      cur ← at_table name t (tbl_lookup_visible k UINT64_MAX);
      if same_row old cur then mret tt
      else _ ← abort_txn id; throw "[Process] Serialization failure: row read was concurrently modified"
  end.

Definition check_version (id : Z) (nv : bytes * Z) : CTL unit :=
  w ← the_world;
  match w_tables w !! nv.1 with
  | None => mret tt
  | Some t => if write_counter t =? nv.2 then mret tt
              else _ ← abort_txn id; throw "[Process] Serialization failure: phantom read detected"
  end.

Definition validate (id : Z) : CTL unit :=
  s ← the_session;
  if bool_decide (isolation s = Serializable) then
    _ ← tfor (map_to_list (read_set s)) (fun np => tfor np.2 (check_key id np.1));
    tfor (map_to_list (table_read_versions s)) (check_version id)
  else mret tt.

(** The buffered rows of a table without storage. *)
Definition index_rows (t : Table) (rows : list Row) : vmap nat :=
  foldl (fun m ir => if bool_decide (values ir.2 = []) then m else vput (tbl_key t ir.2) ir.1 m) [] (imap pair rows).
Definition apply_rows (t : Table) (b : TableTxnBuffer) : Table :=
  let kept := match deletes b with
              | [] => t_rows t
              | _ => List.filter (fun r => bool_decide (values r = []) || negb (vmem (tbl_key t r) (deletes b))) (t_rows t)
              end in
  let idx := index_rows t kept in
  set_rows (foldl (fun rows kr => match vfind kr.1 idx with Some i => <[i := kr.2]> rows | None => rows ++ [kr.2] end) kept (upserts b)) t.

Definition apply_table (ts : Z) (nb : bytes * TableTxnBuffer) : CTL unit :=
  if buffer_empty nb.2 then mret tt else
  w ← the_world;
  match w_tables w !! nb.1 with
  | None => mret tt
  | Some t =>
      at_table nb.1 t
        (if has_storage t then
           _ ← tfor (deletes nb.2) (fun k => persist_row_delete k ts);
           tfor (upserts nb.2) (fun kr => persist_row_upsert kr.2 ts)
         else on_table (fun t => apply_rows t nb.2))
  end.

Definition at_storage {A} (m : ST St A) : CTL A := fun ws =>
  let (st', a) := m (w_storage ws.1) in ((mkWorld (w_txns ws.1) (w_locks ws.1) (w_tables ws.1) st', ws.2), a).

(** The timestamp of the commit. *)
Definition allocate_commit (id : Z) : CTL Z :=
  w ← the_world;
  let (tm, ts) := Txn.commit id (w_txns w) in
  _ ← on_world (set_txns tm);
  match ts with
  | None => throw "[Process] TxnManager.commit failed (state mismatch)"
  | Some ts => mret ts
  end.

Definition apply_writes (ts : Z) : CTL unit :=
  s ← the_session;
  _ ← tfor (map_to_list (write_buffer s)) (apply_table ts);
  at_storage (se_mark_committed ts).

(** [catch (...)] and rethrow. *)
Definition on_error {A} (m : CTL A) (cleanup : CTL unit) : CTL A := fun ws =>
  match m ws with
  | (ws', Throw e) => match cleanup ws' with (ws'', Ok _) => (ws'', Throw e) | (ws'', Throw e') => (ws'', Throw e') | (ws'', UB e') => (ws'', UB e') end
  | r => r
  end.

Definition commit : CTL bytes :=
  s ← the_session;
  if negb (in_transaction s) then throw "[Process] No active transaction to commit" else
  let id := current_txn_id s in
  w ← the_world;
  if bool_decide (get_state id (w_txns w) = Some Failed) then
    _ ← abort_txn id; throw "[Process] Cannot COMMIT failed transaction; rolled back instead"
  else
  _ ← on_error (_ ← validate id; ts ← allocate_commit id; apply_writes ts)
        (_ ← on_world (fun w => set_txns (Txn.mark_failed id (w_txns w)) w);
         _ ← on_session clear_txn;
         on_world (fun w => set_row_locks (RowLock.release_all id (w_locks w)) w));
  _ ← on_session (fun s => set_savepoints [] (clear_txn s));
  _ ← on_world (fun w => set_row_locks (RowLock.release_all id (w_locks w)) w);
  mret (str "Transaction committed").

(** ** ROLLBACK *)

Definition rollback : CTL bytes :=
  s ← the_session;
  if negb (in_transaction s) then throw "[Process] No active transaction to rollback" else
  let id := current_txn_id s in
  _ ← on_session (fun s => set_savepoints [] (clear_txn s));
  _ ← on_world (fun w => set_row_locks (RowLock.release_all id (w_locks w)) w);
  _ ← on_world (fun w => set_txns (Txn.rollback id (w_txns w)).1 w);
  mret (str "Transaction rolled back").

(** ** Savepoints *)

Definition savepoint (name : bytes) : CTL bytes :=
  s ← the_session;
  if negb (in_transaction s) then throw "[Process] SAVEPOINT can only be used inside a transaction" else
  _ ← on_session (fun s => set_savepoints (savepoints s ++ [mkSavepoint name (write_buffer s) (read_set s) (table_read_versions s)]) s);
  mret (str "SAVEPOINT " ++ name).

(** The latest savepoint of a name: those before it, and itself. *)
Fixpoint find_savepoint (name : bytes) (rev_sps : list Savepoint) : option (list Savepoint * Savepoint) :=
  match rev_sps with
  | [] => None
  | sp :: rest => if bool_decide (sp_name sp = name) then Some (reverse rest, sp) else find_savepoint name rest
  end.

Definition rollback_to_savepoint (name : bytes) : CTL bytes :=
  s ← the_session;
  if negb (in_transaction s) then throw "[Process] ROLLBACK TO SAVEPOINT can only be used inside a transaction" else
  match find_savepoint name (reverse (savepoints s)) with
  | None => throw "[Process] Savepoint not found"
  | Some (before, sp) =>
      _ ← on_session (fun s => set_savepoints (before ++ [sp])
             (set_reads (sp_read_set sp) (sp_table_read_versions sp) (set_write_buffer (sp_write_buffer sp) s)));
      mret (str "ROLLBACK TO SAVEPOINT " ++ name)
  end.

Definition release_savepoint (name : bytes) : CTL bytes :=
  s ← the_session;
  if negb (in_transaction s) then throw "[Process] RELEASE SAVEPOINT can only be used inside a transaction" else
  match find_savepoint name (reverse (savepoints s)) with
  | None => throw "[Process] Savepoint not found"
  | Some (before, _) => _ ← on_session (set_savepoints before); mret (str "RELEASE SAVEPOINT " ++ name)
  end.

(** ** SET TRANSACTION and the timestamps of a statement *)

Definition isolation_of_code (code : Z) : option IsolationLevel :=
  if code =? 0 then Some ReadUncommitted else if code =? 1 then Some ReadCommitted else
  if code =? 2 then Some RepeatableRead else if code =? 3 then Some Serializable else None.
Definition set_isolation (i : IsolationLevel) s : Session :=
  mkSession (current_txn_id s) i (write_buffer s) (snapshot_ts s) (auto_commit_ts s) (read_set s) (table_read_versions s) (savepoints s).

Definition set_transaction (code : Z) : CTL bytes :=
  s ← the_session;
  if in_transaction s then throw "[Process] SET TRANSACTION ISOLATION LEVEL must be issued outside a transaction" else
  match isolation_of_code code with
  | None => throw "[Process] Unknown isolation level code"
  | Some i => _ ← on_session (set_isolation i); mret (str "Isolation level updated")
  end.

Definition allocate : CTL Z :=
  w ← the_world; let (tm, ts) := allocate_ts (w_txns w) in _ ← on_world (set_txns tm); mret ts.

Definition prepare_for_statement (is_select : bool) : CTL unit :=
  s ← the_session;
  _ ← (if in_transaction s then
         match isolation s with
         | ReadUncommitted => on_session (set_snapshot UINT64_MAX)
         | ReadCommitted => ts ← allocate; on_session (set_snapshot ts)
         | _ => mret tt
         end
       else ts ← allocate; on_session (set_snapshot ts));
  if negb (in_transaction s) && negb is_select then
    ts ← allocate; on_session (fun s => set_timestamps (snapshot_ts s) ts s)
  else on_session (fun s => set_timestamps (snapshot_ts s) 0 s).

(** ** Dispatch *)

Inductive ControlStmt :=
| BeginStmt | CommitStmt
| RollbackStmt (savepoint : option bytes)
| SavepointStmt (name : bytes)
| ReleaseSavepointStmt (name : bytes)
| SetTransactionStmt (isolation_level : Z).

Definition handle (c : ControlStmt) : CTL bytes :=
  match c with
  | BeginStmt => begin
  | CommitStmt => commit
  | RollbackStmt None => rollback
  | RollbackStmt (Some name) => rollback_to_savepoint name
  | SavepointStmt name => savepoint name
  | ReleaseSavepointStmt name => release_savepoint name
  | SetTransactionStmt code => set_transaction code
  end.

End Control.
