(* ===== verification/Commit.v ===== *)
(** What transaction control promises: COMMIT installs the buffered writes at one
    timestamp or, when a serializable transaction read something that changed,
    installs nothing; ROLLBACK and ROLLBACK TO SAVEPOINT undo. *)
From Stdlib Require Import ZArith Lia Strings.Byte.
From stdpp Require Import base numbers list gmap strings.
From S2P Require Import Prelude Values Codec Sst Store Mvcc Engine EngineReads Txn Locks Eval Session Query Scans Tables Storage Indexes.
From S2P Require Import Dml DmlTxn DmlAuto Control.
Local Open Scope Z_scope.

Lemma tfor_app {X A} (l1 l2 : list A) (f : A -> ST X unit) x : tfor (l1 ++ l2) f x = (_ ← tfor l1 f; tfor l2 f) x.
Proof.
  revert x. induction l1 as [|a l1 IH]; intros x; [done|]. cbn [app tfor]. unfold mbind, st_bind in *.
  destruct (f a x) as [x1 [[]|e|e]]; [apply IH|done..].
Qed.

Section Commit.
Context {St : Type} `{StorageLaws St}.
Implicit Types (w : World St) (s : Session) (t : Table).

(** * Buffers as changes *)

Definition buffer_changes (ts : Z) (b : TableTxnBuffer) : list change :=
  map (fun k => Erase k ts) (deletes b) ++ map (fun kr => Upsert kr.2 ts) (upserts b).
Definition buffer_cost (b : TableTxnBuffer) : Z := foldr Z.add 0 (map change_cost (buffer_changes 0 b)).

(** A buffer whose rows can be stored, each under its key. *)
Definition storable t (b : TableTxnBuffer) : Prop :=
  buffer_ok b /\ Forall (fun kr => row_ok t kr.2 /\ tbl_key t kr.2 = kr.1) (upserts b).

Lemma buffer_changes_cost ts b : map change_cost (buffer_changes ts b) = map change_cost (buffer_changes 0 b).
Proof. unfold buffer_changes. by rewrite !map_app, !map_map. Qed.

Lemma upsert_keys t ts b : storable t b -> map (change_key t) (map (fun kr => Upsert kr.2 ts) (upserts b)) = (upserts b).*1.
Proof.
  intros [_ F]. rewrite map_map. induction F as [|kr u [_ Ek] _ IH]; [done|]. change (change_key t (Upsert kr.2 ts) :: map (fun x => change_key t (Upsert x.2 ts)) u = kr.1 :: u.*1). rewrite IH. by f_equal.
Qed.

Lemma buffer_changes_at t ts b : storable t b -> at_ts t ts (buffer_changes ts b).
Proof.
  intros S. pose proof S as [[Nu Ku Nd Kd D] F]. split.
  - unfold buffer_changes. rewrite map_app, (upsert_keys t ts b S), map_map. cbn. rewrite map_id.
    apply NoDup_app. split_and!; [done| |done]. intros k Hd Hu. by apply (D k).
  - apply Forall_app. split; apply Forall_forall.
    + intros c (k & -> & Hk)%list_elem_of_fmap. split; [done|]. rewrite Forall_forall in Kd. by apply Kd.
    + intros c (kr & -> & Hk)%list_elem_of_fmap. split; [done|]. rewrite Forall_forall in F. by apply F.
Qed.

Lemma changed_to_elem t ts cs c : at_ts t ts cs -> c ∈ cs -> changed_to t cs (change_key t c) = Some (change_row c).
Proof.
  intros [N _]. revert N. induction cs as [|c' cs IH]; intros N Hc; [by apply elem_of_nil in Hc|]. rewrite changed_to_cons.
  cbn [map] in N. apply NoDup_cons in N as [N1 N2]. apply elem_of_cons in Hc as [->|Hc]; [by rewrite decide_True|].
  rewrite decide_False; [by apply IH|]. intros E. apply N1. rewrite E. by apply list_elem_of_fmap_2.
Qed.

Lemma changed_buffer t ts b base k :
  storable t b -> key_ok k ->
  match changed_to t (buffer_changes ts b) k with Some o => o | None => base k end = sees b base k.
Proof.
  intros S Hk. pose proof (buffer_changes_at t ts b S) as At. pose proof S as [[Nu Ku Nd Kd D] F]. unfold sees.
  destruct (vmem k (deletes b)) eqn:M.
  - apply vmem_elem in M; [|done..]. pose proof (changed_to_elem t ts (buffer_changes ts b) (Erase k ts) At) as C.
    cbn [change_key change_row] in C. rewrite C; [done|]. apply elem_of_app. left. by apply (list_elem_of_fmap_2 (fun k => Erase k ts)).
  - apply vmem_false in M; [|done..]. destruct (vfind k (upserts b)) as [r|] eqn:Fd.
    + apply vfind_elem in Fd; [|done..]. assert (tbl_key t r = k) as Ek by (rewrite Forall_forall in F; by destruct (F _ Fd)).
      pose proof (changed_to_elem t ts (buffer_changes ts b) (Upsert r ts) At) as C. cbn [change_key change_row] in C. rewrite Ek in C.
      rewrite C; [done|]. apply elem_of_app. right. apply (list_elem_of_fmap_2 (fun kr => Upsert kr.2 ts) _ (k, r)). done.
    + apply vfind_None in Fd; [|done..]. rewrite changed_to_None; [done|]. unfold buffer_changes. rewrite map_app, elem_of_app.
      rewrite (upsert_keys t ts b S), map_map. cbn. rewrite map_id. tauto.
Qed.

(** * Tables of the catalog *)

Definition tables_ok (tabs : gmap bytes Table) (st : St) (Hi : bytes -> Value -> Z) (V : bytes -> view) : Prop :=
  forall name t, tabs !! name = Some t -> t_name t = name /\ table_inv t st (Hi name) (V name).

Lemma inv_keeps1 t st st' hi v : keeps (t_name t) st st' -> table_inv t st hi v -> table_inv t st' hi v.
Proof. intros K [Sh Hs Wf Rw]. split; try done. by apply K. Qed.

(** Table [t] has become [t'], with the writes of [o] from [ts] on. *)
Definition installed (ts : Z) (o : option TableTxnBuffer) t (v : view) t' (st' : St) : Prop :=
  tbl_step t t' /\ exists hi' (v' : view), table_inv t' st' hi' v' /\ (forall k, hi' k <= ts) /\
    (forall sn k, key_ok k -> sn <= UINT64_MAX ->
       v' sn k = match o with Some b => if ts <=? sn then sees b (v UINT64_MAX) k else v sn k | None => v sn k end) /\
    forall snap, covers t v snap -> covers t' v' snap.

Lemma installed_keeps ts o t v t' st st' : keeps (t_name t) st st' -> installed ts o t v t' st -> installed ts o t v t' st'.
Proof.
  intros K (S & hi' & v' & I & R). split; [done|]. exists hi', v'. split; [|done]. eapply inv_keeps1; [|exact I].
  by rewrite (tst_name _ _ S).
Qed.

Lemma installed_none ts t v st hi : table_inv t st hi v -> (forall k, hi k < ts) -> installed ts None t v t st.
Proof.
  intros I Hi. split; [apply tbl_step_refl|]. exists hi, v. split_and!; try done. intros k. specialize (Hi k). lia.
Qed.

Lemma sees_empty base k : sees empty_buffer base k = base k.
Proof. done. Qed.

Lemma apply_table_ok ts name b t w s hi v :
  w_tables w !! name = Some t -> t_name t = name -> table_inv t (w_storage w) hi v -> (forall k, hi k < ts) -> 0 <= ts <= UINT64_MAX ->
  storable t b -> room (w_storage w) name (t_columns t) (buffer_cost b) ->
  exists t' st', apply_table ts (name, b) (w, s) = ((set_table name t' st' w, s), Ok tt) /\
    installed ts (Some b) t v t' st' /\ forall name', name' <> name -> keeps name' (w_storage w) st'.
Proof.
  intros Et En I Hi T S Rm. pose proof I as [Sh Hs _ _]. unfold apply_table. cbn [fst snd]. destruct (buffer_empty b) eqn:Em.
  { exists t, (w_storage w). split_and!; [|split; [apply tbl_step_refl|]|intros; apply keeps_refl].
    - unfold set_table. rewrite insert_id by done. by destruct w.
    - unfold buffer_empty in Em. apply andb_prop in Em as [E1 E2]. apply bool_decide_eq_true in E1, E2. destruct b as [u d]. cbn in *. subst u d.
      exists hi, v. split_and!; [done|intros k; specialize (Hi k); lia| |done]. intros sn k Hk L. change (mkBuffer [] []) with empty_buffer.
      rewrite sees_empty. destruct (Z.leb_spec ts sn); [|done]. apply (shown_newest _ _ _ hi v sn k Sh Hk). specialize (Hi k). lia. }
  unfold mbind at 1, st_bind at 1, the_world, gets. cbn [fst]. rewrite Et, Hs. subst name.
  assert (foldr Z.add 0 (map change_cost (buffer_changes ts b)) <= buffer_cost b) as Cost by (rewrite buffer_changes_cost; done).
  destruct (changes_run t (w_storage w) hi v ts (buffer_changes ts b) (buffer_cost b) I (buffer_changes_at t ts b S) T Hi Cost Rm)
    as (t' & st' & R & Ch).
  assert ((_ ← tfor (deletes b) (fun k => persist_row_delete k ts); tfor (upserts b) (fun kr => persist_row_upsert kr.2 ts)) (t, w_storage w)
          = ((t', st'), Ok tt)) as R'.
  { unfold buffer_changes in R. rewrite tfor_app in R. unfold mbind, st_bind in R |- *. rewrite tfor_map in R. cbn [apply_change] in R.
    destruct (tfor (deletes b) _ (t, w_storage w)) as [[t1 s1] [[]|e|e]]; [|done..]. by rewrite tfor_map in R. }
  exists t', st'. split; [unfold at_table; cbn [fst snd]; by rewrite R'|].
  pose proof (changed_rewritten t (w_storage w) hi v ts _ t' st' (fun k o => sees b (v UINT64_MAX) k) (mkDml None None t (w_storage w)) Ch I Hi
    ltac:(lia)) as Rw. destruct Rw as (_ & _ & St' & K & hi' & v' & I' & L & E & C).
  { intros k Hk. by apply changed_buffer. }
  split; [|exact K]. split; [done|]. by exists hi', v'.
Qed.

(** * All tables *)

Definition buffer_in (nbs : list (bytes * TableTxnBuffer)) (name : bytes) : option TableTxnBuffer :=
  snd <$> List.find (fun nb => bool_decide (nb.1 = name)) nbs.

Lemma buffer_in_cons n b nbs name : buffer_in ((n, b) :: nbs) name = if decide (n = name) then Some b else buffer_in nbs name.
Proof. unfold buffer_in. cbn. case_bool_decide; by case_decide. Qed.

Lemma buffer_in_map (ws : TxnWriteBuffer) name : buffer_in (map_to_list ws) name = ws !! name.
Proof.
  pose proof (NoDup_fst_map_to_list ws) as N.
  assert (forall b, (name, b) ∈ map_to_list ws <-> ws !! name = Some b) as E by (intros b; apply elem_of_map_to_list).
  assert (forall nbs, NoDup nbs.*1 -> forall b, (name, b) ∈ nbs -> buffer_in nbs name = Some b) as F.
  { induction nbs as [|[n b'] nbs IH]; intros Nn b Hin; [by apply elem_of_nil in Hin|]. apply NoDup_cons in Nn as [N1 N2]. rewrite buffer_in_cons.
    apply elem_of_cons in Hin as [[= <- <-]|Hin]; [by rewrite decide_True|]. rewrite decide_False; [by apply IH|].
    intros ->. apply N1. exact (list_elem_of_fmap_2 fst _ _ Hin). }
  destruct (ws !! name) as [b|] eqn:Eb; [apply F; [done|by apply E]|].
  unfold buffer_in. destruct (List.find _ (map_to_list ws)) as [[n b]|] eqn:Ef; [|done].
  apply find_some in Ef as [Hin%list_elem_of_In En]. apply bool_decide_eq_true in En. cbn in En. subst n. apply E in Hin. congruence.
Qed.

Lemma buffer_in_None nbs name : name ∉ nbs.*1 -> buffer_in nbs name = None.
Proof.
  induction nbs as [|[n b] nbs IH]; [done|]. cbn [fmap list_fmap]. rewrite not_elem_of_cons. intros [N N']. cbn in N.
  rewrite buffer_in_cons, decide_False by congruence. by apply IH.
Qed.
Lemma buffer_in_snoc nbs n b name :
  n ∉ nbs.*1 -> buffer_in (nbs ++ [(n, b)]) name = if decide (n = name) then Some b else buffer_in nbs name.
Proof.
  induction nbs as [|[n' b'] nbs IH]; [intros _; cbn [app]; by rewrite buffer_in_cons|]. cbn [fmap list_fmap]. rewrite not_elem_of_cons. intros [N N']. cbn in N.
  cbn [app]. rewrite !buffer_in_cons, (IH N'). repeat case_decide; congruence.
Qed.

(** The catalog after the writes: every table has those of its buffer. *)
Definition all_installed (ts : Z) (bufs : bytes -> option TableTxnBuffer) (V : bytes -> view) w w' : Prop :=
  w_txns w' = w_txns w /\ w_locks w' = w_locks w /\
  forall name, match w_tables w !! name with
               | None => w_tables w' !! name = None
               | Some t => exists t', w_tables w' !! name = Some t' /\ installed ts (bufs name) t (V name) t' (w_storage w')
               end.

(** After some of the tables. *)
Definition partly_installed (ts : Z) (V : bytes -> view) w s (done : list (bytes * TableTxnBuffer)) (ws : World St * Session) : Prop :=
  ws.2 = s /\ w_txns ws.1 = w_txns w /\ w_locks ws.1 = w_locks w /\
  forall name, match w_tables w !! name with
               | None => w_tables ws.1 !! name = None
               | Some t => if decide (name ∈ done.*1)
                           then exists t', w_tables ws.1 !! name = Some t' /\ installed ts (buffer_in done name) t (V name) t' (w_storage ws.1)
                           else w_tables ws.1 !! name = Some t /\ keeps name (w_storage w) (w_storage ws.1)
               end.

Lemma step_table ts done name b w w1 s Hi V :
  tables_ok (w_tables w) (w_storage w) Hi V -> (forall name k, Hi name k < ts) -> 0 <= ts <= UINT64_MAX -> name ∉ done.*1 ->
  (forall t, w_tables w !! name = Some t -> storable t b /\ room (w_storage w) name (t_columns t) (buffer_cost b)) ->
  partly_installed ts V w s done (w1, s) ->
  exists w2, apply_table ts (name, b) (w1, s) = ((w2, s), Ok tt) /\ partly_installed ts V w s (done ++ [(name, b)]) (w2, s).
Proof.
  intros Tok Lt T Nd Sb (_ & E2 & E3 & C). cbn [fst snd] in *. pose proof (C name) as Cn. destruct (w_tables w !! name) as [t|] eqn:Et.
  - rewrite decide_False in Cn by done. destruct Cn as [E1 K]. destruct (Tok name t Et) as [En I]. destruct (Sb t eq_refl) as [S Rm].
    assert (table_inv t (w_storage w1) (Hi name) (V name)) as I1 by (eapply inv_keeps1; [|exact I]; by rewrite En).
    apply K in Rm. destruct (apply_table_ok ts name b t w1 s (Hi name) (V name) E1 En I1 (Lt name) T S Rm) as (t' & st' & R & In & K').
    eexists. split; [exact R|]. split_and!; try done. intros name'. cbn [fst set_table w_tables w_storage]. rewrite fmap_app.
    cbn [fmap list_fmap fst]. destruct (decide (name' = name)) as [->|D].
    + rewrite Et, decide_True by (apply elem_of_app; right; by left). exists t'. rewrite lookup_insert_eq. split; [done|].
      by rewrite buffer_in_snoc, decide_True.
    + specialize (C name'). rewrite lookup_insert_ne by done. destruct (w_tables w !! name') as [tn|] eqn:Etn; [|done].
      destruct (Tok name' tn Etn) as [En' _]. rewrite buffer_in_snoc, (decide_False (P := name = name')) by done.
      assert (forall A B : Prop, (if decide (name' ∈ done.*1) then A else B) -> if decide (name' ∈ done.*1 ++ [name]) then A else B) as Mono.
      { intros A B HA. repeat case_decide; try done; set_solver. }
      apply Mono. case_decide.
      * destruct C as (t2 & ? & I2). exists t2. split; [done|]. eapply installed_keeps; [|exact I2]. rewrite En'. by apply K'.
      * destruct C as [? ?]. split; [done|]. eapply keeps_trans; [done|by apply K'].
  - exists w1. split.
    + unfold apply_table. destruct (buffer_empty _); [done|]. unfold mbind, st_bind, the_world, gets. cbn [fst]. by rewrite Cn.
    + split_and!; try done. intros name'. specialize (C name'). destruct (w_tables w !! name') as [tn|] eqn:Etn; [|done].
      assert (name' <> name) as D by congruence. rewrite fmap_app. cbn [fmap list_fmap fst fst].
      rewrite buffer_in_snoc, (decide_False (P := name = name')) by done.
      assert (forall A B : Prop, (if decide (name' ∈ done.*1) then A else B) -> if decide (name' ∈ done.*1 ++ [name]) then A else B) as Mono.
      { intros A B HA. repeat case_decide; try done; set_solver. }
      by apply Mono.
Qed.

Lemma apply_tables_ok ts nbs w s Hi V :
  tables_ok (w_tables w) (w_storage w) Hi V -> (forall name k, Hi name k < ts) -> 0 <= ts <= UINT64_MAX -> NoDup nbs.*1 ->
  (forall name b t, (name, b) ∈ nbs -> w_tables w !! name = Some t ->
     storable t b /\ room (w_storage w) name (t_columns t) (buffer_cost b)) ->
  exists w', tfor nbs (apply_table ts) (w, s) = ((w', s), Ok tt) /\ all_installed ts (buffer_in nbs) V w w'.
Proof.
  intros Tok Lt T N Sb.
  set (P := partly_installed ts V w s).
  pose proof (tfor_outcome nbs (apply_table ts) P (fun _ => False) (w, s)) as L.
  assert (match tfor nbs (apply_table ts) (w, s) with (ws', Ok _) => P nbs ws' | (_, _) => False end) as G.
  { apply L.
    - split_and!; try done. intros name. cbn [fst]. destruct (w_tables w !! name) as [t|]; [|done].
      rewrite decide_False by apply not_elem_of_nil. split; [done|apply keeps_refl].
    - intros done [name b] todo [w1 s1] El (E1 & E2 & E3 & C). cbn [fst snd] in *. subst s1.
      assert ((name, b) ∈ nbs) as Hin by (rewrite El; set_solver).
      assert (name ∉ done.*1) as Nd. { rewrite El, fmap_app in N. apply NoDup_app in N as (_ & N & _). intros Hd. apply (N name Hd). by left. }
      destruct (step_table ts done name b w w1 s Hi V Tok Lt T Nd) as (w2 & -> & G); [intros t Ht; by apply (Sb name b t)|done|exact G]. }
  destruct (tfor nbs (apply_table ts) (w, s)) as [[w' s'] [[]|e|e]]; [|done..]. destruct G as (E1 & E2 & E3 & C). cbn [fst snd] in *. subst s'.
  exists w'. split; [done|]. split_and!; try done. intros name. specialize (C name). destruct (w_tables w !! name) as [t|] eqn:Et; [|done].
  case_decide as D; [done|]. destruct C as [E K]. exists t. split; [done|]. destruct (Tok name t Et) as [En I].
  assert (buffer_in nbs name = None) as ->. { by apply buffer_in_None. }
  eapply installed_none; [|apply Lt]. eapply inv_keeps1; [|exact I]. by rewrite En.
Qed.

(** * Validation of a serializable transaction *)

(** Only caches of the storage have changed. *)
Definition peek w w' : Prop :=
  w_txns w' = w_txns w /\ w_locks w' = w_locks w /\ w_tables w' = w_tables w /\ forall name, keeps name (w_storage w) (w_storage w').

Lemma peek_refl w : peek w w.
Proof. split_and!; try done. Qed.
Lemma peek_trans w1 w2 w3 : peek w1 w2 -> peek w2 w3 -> peek w1 w3.
Proof.
  intros (A1 & A2 & A3 & A4) (B1 & B2 & B3 & B4). split_and!; [congruence..|]. intros name. eapply keeps_trans; [apply A4|apply B4].
Qed.
Lemma peek_tables w w' Hi V : peek w w' -> tables_ok (w_tables w) (w_storage w) Hi V -> tables_ok (w_tables w') (w_storage w') Hi V.
Proof.
  intros (_ & _ & Et & K) T name t. rewrite Et. intros E. destruct (T name t E) as [En I]. split; [done|]. by eapply inv_keeps1.
Qed.

(** The transaction is gone, with nothing installed. *)
Definition aborted (id : Z) w s w' s' : Prop :=
  w_txns w' = (Txn.rollback id (w_txns w)).1 /\ w_locks w' = RowLock.release_all id (w_locks w) /\ w_tables w' = w_tables w /\
  (forall name, keeps name (w_storage w) (w_storage w')) /\ s' = clear_txn s.

Definition checked (fine : Prop) (id : Z) w s (r : (World St * Session) * res unit) : Prop :=
  match r with
  | ((w', s'), Ok _) => peek w w' /\ s' = s /\ fine
  | ((w', s'), Throw _) => aborted id w s w' s' /\ ~ fine
  | (_, UB _) => False
  end.

Lemma abort_ok {A} id w s e : exists w' s', (_ ← abort_txn id; throw (A := A) e) (w, s) = ((w', s'), Throw e) /\ aborted id w s w' s'.
Proof. eexists _, _. split; [reflexivity|]. split_and!; done. Qed.

Lemma peek_aborted id w w1 s w' s' : peek w w1 -> aborted id w1 s w' s' -> aborted id w s w' s'.
Proof.
  intros (A1 & A2 & A3 & A4) (B1 & B2 & B3 & B4 & B5). split_and!; try congruence. intros name. eapply keeps_trans; [apply A4|apply B4].
Qed.

Lemma tfor_checks {A} (l : list A) (f : A -> ST (World St * Session) unit) (fine : A -> Prop) id w s :
  (forall a w', a ∈ l -> peek w w' -> checked (fine a) id w' s (f a (w', s))) ->
  checked (forall a, a ∈ l -> fine a) id w s (tfor l f (w, s)).
Proof.
  intros Step. revert Step. assert (forall w1, peek w w1 -> (forall a w', a ∈ l -> peek w w' -> checked (fine a) id w' s (f a (w', s))) ->
    checked (forall a, a ∈ l -> fine a) id w s (tfor l f (w1, s))) as G; [|apply G, peek_refl].
  induction l as [|a l IH]; intros w1 P Step; cbn [tfor].
  { split_and!; try done. by intros a ?%elem_of_nil. }
  unfold mbind, st_bind. specialize (Step a w1 ltac:(by left) P) as Sa. destruct (f a (w1, s)) as [[w2 s2] [[]|e|e]]; cbn in Sa; [| |done].
  - destruct Sa as (P2 & -> & Fa). specialize (IH w2 (peek_trans _ _ _ P P2) (fun b w' Hb => Step b w' ltac:(by right))).
    destruct (tfor l f (w2, s)) as [[w3 s3] [[]|e|e]]; cbn in IH |- *; [| |done].
    + destruct IH as (P3 & E3 & F3). split_and!; try done. intros b [->|Hb]%elem_of_cons; auto.
    + destruct IH as [A3 N3]. split; [done|]. intros F. apply N3. intros b Hb. apply F. by right.
  - destruct Sa as [Aa Na]. split; [by eapply peek_aborted|]. intros F. apply Na, F. by left.
Qed.

Lemma at_table_lookup w s Hi V name t k ts :
  tables_ok (w_tables w) (w_storage w) Hi V -> w_tables w !! name = Some t -> key_ok k ->
  exists w', at_table name t (tbl_lookup_visible k ts) (w, s) = ((w', s), Ok (V name ts k)) /\ peek w w'.
Proof.
  intros T E Hk. destruct (T name t E) as [En [Sh Hs _ _]]. destruct (law_lookup (w_storage w) _ _ _ _ k ts Sh Hk) as (st' & R & K).
  eexists. split.
  - unfold at_table, tbl_lookup_visible. cbn [fst snd]. rewrite the_table_ok, Hs. unfold on_storage. cbn [fst snd]. by rewrite R.
  - split_and!; try done. cbn. by rewrite insert_id.
Qed.

Lemma check_key_ok id w s Hi V name k :
  tables_ok (w_tables w) (w_storage w) Hi V -> key_ok k ->
  checked (forall t, w_tables w !! name = Some t -> same_row (V name (snapshot_ts s) k) (V name UINT64_MAX k) = true) id w s
    (check_key id name k (w, s)).
Proof.
  intros T Hk. unfold check_key. unfold mbind at 1, st_bind at 1, the_world at 1, gets at 1. cbn [fst].
  unfold mbind at 1, st_bind at 1, the_session at 1, gets at 1. cbn [snd]. destruct (w_tables w !! name) as [t|] eqn:E.
  2:{ split_and!; [apply peek_refl|done|done]. }
  destruct (at_table_lookup w s Hi V name t k (snapshot_ts s) T E Hk) as (w1 & R1 & P1). unfold mbind at 1, st_bind at 1. rewrite R1.
  assert (w_tables w1 !! name = Some t) as E1 by (by destruct P1 as (_ & _ & -> & _)).
  destruct (at_table_lookup w1 s Hi V name t k UINT64_MAX (peek_tables _ _ _ _ P1 T) E1 Hk) as (w2 & R2 & P2). unfold mbind at 1, st_bind at 1. rewrite R2.
  pose proof (peek_trans _ _ _ P1 P2) as P. destruct (same_row _ _) eqn:Sr; [by split_and!|].
  destruct (abort_ok (A := unit) id w2 s "[Process] Serialization failure: row read was concurrently modified") as (w3 & s3 & R3 & A3). rewrite R3.
  split; [by eapply peek_aborted|]. intros F. specialize (F t eq_refl). done.
Qed.

Lemma check_version_ok id w s nv :
  checked (forall t, w_tables w !! nv.1 = Some t -> write_counter t = nv.2) id w s (check_version id nv (w, s)).
Proof.
  unfold check_version. unfold mbind at 1, st_bind at 1, the_world at 1, gets at 1. cbn [fst]. destruct (w_tables w !! nv.1) as [t|] eqn:E.
  2:{ split_and!; [apply peek_refl|done|done]. }
  destruct (Z.eqb_spec (write_counter t) nv.2) as [Ev|Nv]; [split_and!; [apply peek_refl|done|by intros ? [= <-]]|].
  destruct (abort_ok (A := unit) id w s "[Process] Serialization failure: phantom read detected") as (w3 & s3 & R3 & A3). rewrite R3.
  split; [done|]. intros F. by apply Nv, F.
Qed.

(** Nothing the transaction has read has changed since its snapshot. *)
Definition reads_current (V : bytes -> view) w s : Prop :=
  (forall np, np ∈ map_to_list (read_set s) -> forall k, k ∈ np.2 -> forall t, w_tables w !! np.1 = Some t ->
     same_row (V np.1 (snapshot_ts s) k) (V np.1 UINT64_MAX k) = true) /\
  (forall nv, nv ∈ map_to_list (table_read_versions s) -> forall t, w_tables w !! nv.1 = Some t -> write_counter t = nv.2).

Lemma checked_iff (P P' : Prop) id w s r : (P <-> P') -> checked P id w s r -> checked P' id w s r.
Proof. intros E. unfold checked. destruct r as [[w' s'] [[]|e|e]]; tauto. Qed.

Lemma validate_ok id w s Hi V :
  tables_ok (w_tables w) (w_storage w) Hi V -> (forall np, np ∈ map_to_list (read_set s) -> Forall key_ok np.2) ->
  checked (isolation s = Serializable -> reads_current V w s) id w s (validate id (w, s)).
Proof.
  intros T Kr. unfold validate. unfold mbind at 1, st_bind at 1, the_session at 1, gets at 1. cbn [snd]. case_bool_decide as Is.
  2:{ split_and!; [apply peek_refl|done|done]. }
  pose proof (tfor_checks (map_to_list (read_set s)) (fun np => tfor np.2 (check_key id np.1))
    (fun np => forall k, k ∈ np.2 -> forall t, w_tables w !! np.1 = Some t -> same_row (V np.1 (snapshot_ts s) k) (V np.1 UINT64_MAX k) = true) id w s) as C1.
  specialize (C1 ltac:(intros np w1 Hnp P1; apply tfor_checks; intros k w2 Hk P2; pose proof (peek_trans _ _ _ P1 P2) as P;
    rewrite <- (proj1 (proj2 (proj2 P))); apply (check_key_ok id w2 s Hi);
    [exact (peek_tables _ _ _ _ P T)|by apply (proj1 (Forall_forall _ _) (Kr np Hnp))])).
  unfold mbind, st_bind. destruct (tfor (map_to_list (read_set s)) _ (w, s)) as [[w1 s1] [[]|e|e]]; cbn in C1; [| |done].
  2:{ destruct C1 as [A1 N1]. split; [done|]. intros F. apply N1. intros np Hnp k Hk t. by apply (proj1 (F Is)). }
  destruct C1 as (P1 & -> & F1).
  pose proof (tfor_checks (map_to_list (table_read_versions s)) (check_version id)
    (fun nv => forall t, w_tables w !! nv.1 = Some t -> write_counter t = nv.2) id w1 s) as C2.
  specialize (C2 ltac:(intros nv w2 Hnv P2; pose proof (peek_trans _ _ _ P1 P2) as (_ & _ & Et & _); rewrite <- Et; apply check_version_ok)).
  destruct (tfor (map_to_list (table_read_versions s)) (check_version id) (w1, s)) as [[w2 s2] [[]|e|e]]; cbn in C2 |- *; [| |done].
  - destruct C2 as (P2 & -> & F2). split_and!; [by eapply peek_trans|done|]. intros _. by split.
  - destruct C2 as [A2 N2]. split; [by eapply peek_aborted|]. intros F. apply N2. apply (proj2 (F Is)).
Qed.

(** * COMMIT *)

(** A running transaction whose buffered rows can be stored, and timestamps not
    used up. *)
Record committable (Hi : bytes -> Value -> Z) (V : bytes -> view) w s : Prop := {
  cm_txn : in_transaction s = true;
  cm_active : exists r, txns (w_txns w) !! current_txn_id s = Some r /\ txn_state r = Active;
  cm_tables : tables_ok (w_tables w) (w_storage w) Hi V;
  cm_new name k : Hi name k < next_ts (w_txns w);
  cm_ts : 0 <= next_ts (w_txns w) <= UINT64_MAX;
  cm_reads np : np ∈ map_to_list (read_set s) -> Forall key_ok np.2;
  cm_buffers name b t : write_buffer s !! name = Some b -> w_tables w !! name = Some t ->
    storable t b /\ room (w_storage w) name (t_columns t) (buffer_cost b)
}.

Lemma release_twice x l : RowLock.release_all x (RowLock.release_all x l) = RowLock.release_all x l.
Proof.
  unfold RowLock.release_all. destruct (RowLock.by_txn l !! x) as [ks|] eqn:E; cbn; [by rewrite lookup_delete_eq|by rewrite E].
Qed.
Lemma mark_rolled_back id tm r : txns tm !! id = Some r -> txn_state r = Active -> mark_failed id (Txn.rollback id tm).1 = (Txn.rollback id tm).1.
Proof. intros E A. unfold Txn.rollback. rewrite E, decide_True by (by left). unfold mark_failed. cbn. by rewrite lookup_delete_eq. Qed.

Lemma apply_writes_ok ts w s Hi V :
  tables_ok (w_tables w) (w_storage w) Hi V -> (forall name k, Hi name k < ts) -> 0 <= ts <= UINT64_MAX ->
  (forall name b t, write_buffer s !! name = Some b -> w_tables w !! name = Some t ->
     storable t b /\ room (w_storage w) name (t_columns t) (buffer_cost b)) ->
  exists w', apply_writes ts (w, s) = ((w', s), Ok tt) /\ all_installed ts (fun name => write_buffer s !! name) V w w'.
Proof.
  intros T Lt R Sb. unfold apply_writes. unfold mbind at 1, st_bind at 1, the_session at 1, gets at 1. cbn [snd].
  destruct (apply_tables_ok ts (map_to_list (write_buffer s)) w s Hi V T Lt R) as (w1 & R1 & E1 & E2 & C1).
  { apply NoDup_fst_map_to_list. }
  { intros name b t Hin. apply Sb. by apply elem_of_map_to_list. }
  unfold mbind, st_bind. rewrite R1. destruct (law_mark ts (w_storage w1)) as (st' & [] & R2 & K2).
  unfold at_storage. cbn [fst snd]. rewrite R2. eexists. split; [reflexivity|]. split_and!; [done|done|]. intros name. cbn [w_tables w_storage].
  specialize (C1 name). rewrite buffer_in_map in C1. destruct (w_tables w !! name) as [t|]; [|done]. destruct C1 as (t' & Et & In).
  exists t'. split; [done|]. eapply installed_keeps; [apply K2|exact In].
Qed.

(** The result of a commit. *)
Definition committed_as (ts : Z) (V : bytes -> view) w s w' s' : Prop :=
  w_txns w' = (Txn.commit (current_txn_id s) (w_txns w)).1 /\
  w_locks w' = RowLock.release_all (current_txn_id s) (w_locks w) /\
  s' = set_savepoints [] (clear_txn s) /\
  forall name, match w_tables w !! name with
               | None => w_tables w' !! name = None
               | Some t => exists t', w_tables w' !! name = Some t' /\ installed ts (write_buffer s !! name) t (V name) t' (w_storage w')
               end.

(** C3: COMMIT of a running transaction, over any storage engine that keeps the
    interface laws and has room for the buffered writes (for the LSM engine: they
    cause no flush, or whatever is flushed fits a file).  It succeeds unless the transaction is serializable and a
    row it read has changed since its snapshot, or a table it scanned has been
    written to.  On success every table shows the transaction's upserts and
    deletes at all snapshots from the commit timestamp on, and what it showed
    before at all older ones, so a snapshot sees all writes of the transaction
    or none; indexes cover the new rows, and the transaction's locks, buffer,
    read set and savepoints are gone.  On failure no table has changed, and the
    transaction is rolled back with its locks released. *)
Theorem commit_atomic Hi V w s :
  committable Hi V w s ->
  let '((w', s'), r) := commit (w, s) in
  match r with
  | Ok _ => (isolation s = Serializable -> reads_current V w s) /\ committed_as (next_ts (w_txns w)) V w s w' s'
  | Throw _ => isolation s = Serializable /\ ~ reads_current V w s /\ aborted (current_txn_id s) w s w' s'
  | UB _ => False
  end.
Proof.
  intros [Tx (rec & Er & Ea) T Nw Ts Kr Bf]. set (id := current_txn_id s) in *. unfold commit.
  unfold mbind at 1, st_bind at 1, the_session at 1, gets at 1. cbn [snd]. rewrite Tx. cbn [negb].
  unfold mbind at 1, st_bind at 1, the_world at 1, gets at 1. cbn [fst]. fold id.
  rewrite bool_decide_eq_false_2 by (unfold get_state; rewrite Er, Ea; done).
  pose proof (validate_ok id w s Hi V T Kr) as Cv. unfold mbind at 1, st_bind at 1. unfold on_error. unfold mbind at 1, st_bind at 1.
  destruct (validate id (w, s)) as [[w1 s1] [[]|e|e]]; cbn in Cv; [| |done].
  - destruct Cv as (P1 & -> & Rc). pose proof P1 as (E1 & E2 & E3 & K). unfold mbind at 1, st_bind at 1.
    assert (allocate_commit id (w1, s) = ((set_txns (Txn.commit id (w_txns w)).1 w1, s), Ok (next_ts (w_txns w)))) as ->.
    { unfold allocate_commit. unfold mbind at 1, st_bind at 1, the_world at 1, gets at 1. cbn [fst]. rewrite E1. unfold Txn.commit. by rewrite Er, decide_True. }
    destruct (apply_writes_ok (next_ts (w_txns w)) (set_txns (Txn.commit id (w_txns w)).1 w1) s Hi V) as (w2 & -> & A1 & A2 & C2).
    + exact (peek_tables _ _ _ _ P1 T).
    + exact Nw.
    + exact Ts.
    + cbn. intros name b t Eb Et. rewrite E3 in Et. destruct (Bf name b t Eb Et) as [? Rm]. split; [done|]. by apply K.
    + cbn [fst snd]. split; [exact Rc|]. split_and!; try done; [|].
      * cbn. rewrite A2. cbn. by rewrite E2.
      * cbn in C2 |- *. by rewrite E3 in C2.
  - destruct Cv as [A N]. assert (isolation s = Serializable) as Is by (apply dec_stable; intros Ni; by apply N).
    unfold mbind, st_bind, on_world, on_session, modify. cbn [fst snd]. split_and!; [done|by intros F; apply N|].
    destruct A as (A1 & A2 & A3 & A4 & A5). split_and!; [| |exact A3|exact A4|by rewrite A5].
    + cbn. rewrite A1. by eapply mark_rolled_back.
    + cbn. rewrite A2. apply release_twice.
Qed.

(** * ROLLBACK and savepoints *)

(** What can happen in a transaction between SAVEPOINT and ROLLBACK TO: a
    statement, which changes the buffer, the read set and the snapshot, or
    further savepoint commands. *)
Inductive txn_op :=
| OpStatement (ws : TxnWriteBuffer) (rs : gmap bytes vset) (vs : gmap bytes Z) (snap : Z)
| OpSavepoint (name : bytes)
| OpRollbackTo (name : bytes)
| OpRelease (name : bytes).

Definition run_op (op : txn_op) : ST (World St * Session) unit :=
  match op with
  | OpStatement ws rs vs snap => on_session (fun s => set_snapshot snap (set_reads rs vs (set_write_buffer ws s)))
  | OpSavepoint name => _ ← savepoint name; mret tt
  | OpRollbackTo name => _ ← rollback_to_savepoint name; mret tt
  | OpRelease name => _ ← release_savepoint name; mret tt
  end.

(** The commands name neither this savepoint nor an older one. *)
Definition op_inside (name : bytes) (older : list Savepoint) (op : txn_op) : Prop :=
  match op with
  | OpStatement _ _ _ _ => True
  | OpSavepoint m => m <> name
  | OpRollbackTo m | OpRelease m => m <> name /\ m ∉ map sp_name older
  end.

Lemma savepoint_eq m w s : in_transaction s = true ->
  savepoint m (w, s) = ((w, set_savepoints (savepoints s ++ [mkSavepoint m (write_buffer s) (read_set s) (table_read_versions s)]) s),
                        Ok (str "SAVEPOINT " ++ m)).
Proof. intros Tx. unfold savepoint. unfold mbind at 1, st_bind at 1, the_session at 1, gets at 1. cbn [snd]. by rewrite Tx. Qed.

Lemma rollback_to_eq m w s : in_transaction s = true ->
  rollback_to_savepoint m (w, s) =
  match find_savepoint m (reverse (savepoints s)) with
  | None => ((w, s), Throw "[Process] Savepoint not found")
  | Some (before, sp) =>
      ((w, set_savepoints (before ++ [sp]) (set_reads (sp_read_set sp) (sp_table_read_versions sp) (set_write_buffer (sp_write_buffer sp) s))),
       Ok (str "ROLLBACK TO SAVEPOINT " ++ m))
  end.
Proof.
  intros Tx. unfold rollback_to_savepoint. unfold mbind at 1, st_bind at 1, the_session at 1, gets at 1. cbn [snd]. rewrite Tx. cbn [negb].
  by destruct (find_savepoint m _) as [[before sp]|].
Qed.

Lemma release_eq m w s : in_transaction s = true ->
  release_savepoint m (w, s) =
  match find_savepoint m (reverse (savepoints s)) with
  | None => ((w, s), Throw "[Process] Savepoint not found")
  | Some (before, _) => ((w, set_savepoints before s), Ok (str "RELEASE SAVEPOINT " ++ m))
  end.
Proof.
  intros Tx. unfold release_savepoint. unfold mbind at 1, st_bind at 1, the_session at 1, gets at 1. cbn [snd]. rewrite Tx. cbn [negb].
  by destruct (find_savepoint m _) as [[before sp]|].
Qed.

Lemma find_savepoint_app name newer older :
  Forall (fun sp => sp_name sp <> name) newer -> find_savepoint name (newer ++ older) = find_savepoint name older.
Proof. induction 1 as [|sp newer N _ IH]; [done|]. cbn. by rewrite bool_decide_eq_false_2. Qed.

Lemma find_savepoint_in m sps before sp :
  find_savepoint m sps = Some (before, sp) -> exists newer, sps = newer ++ sp :: reverse before /\ sp_name sp = m.
Proof.
  induction sps as [|sp' sps IH]; [done|]. cbn. case_bool_decide as E.
  - intros [= <- <-]. exists []. by rewrite reverse_involutive.
  - intros (newer & -> & En)%IH. by exists (sp' :: newer).
Qed.

(** A younger savepoint lies behind the kept ones. *)
Lemma find_younger m kept extra before sp :
  m ∉ map sp_name kept -> find_savepoint m (reverse (kept ++ extra)) = Some (before, sp) ->
  exists extra', before = kept ++ extra' /\ exists rest, extra = extra' ++ sp :: rest.
Proof.
  intros N (newer & E & En)%find_savepoint_in. apply (f_equal reverse) in E. rewrite reverse_involutive, reverse_app, reverse_cons, reverse_involutive in E.
  rewrite <- app_assoc in E. cbn in E. apply app_eq_inv in E as [(l & Ek & Ee)|(l & Ek & Ee)].
  - destruct l as [|x l]; [rewrite app_nil_r in Ek; subst; exists []; rewrite app_nil_r; split; [done|]; by eexists|].
    cbn in Ee. injection Ee as <- _. exfalso. apply N. rewrite Ek, map_app. set_solver.
  - exists l. split; [done|]. by eexists.
Qed.

Record within s0 (sp : Savepoint) s : Prop := {
  wi_txn : current_txn_id s = current_txn_id s0;
  wi_saves : exists extra, savepoints s = savepoints s0 ++ [sp] ++ extra /\ Forall (fun x => sp_name x <> sp_name sp) extra
}.

Lemma run_op_within s0 sp op w s :
  in_transaction s0 = true -> op_inside (sp_name sp) (savepoints s0) op -> within s0 sp s -> within s0 sp (run_op op (w, s)).1.2.
Proof.
  intros Tx In [Et (extra & Es & Fe)]. assert (in_transaction s = true) as Tx' by (unfold in_transaction in *; by rewrite Et).
  assert (forall m, m <> sp_name sp -> m ∉ map sp_name (savepoints s0) -> m ∉ map sp_name (savepoints s0 ++ [sp])) as Nm.
  { intros m N1 N2. rewrite map_app, elem_of_app. cbn. rewrite list_elem_of_singleton. tauto. }
  destruct op as [ws rs vs snap|m|m|m]; cbn [op_inside] in In.
  - split; [done|]. by exists extra.
  - cbn [run_op]. unfold mbind, st_bind. rewrite savepoint_eq by done. split; [done|]. exists (extra ++ [mkSavepoint m (write_buffer s) (read_set s) (table_read_versions s)]).
    split; [cbn; rewrite Es, <- !app_assoc; done|]. apply Forall_app. split; [done|]. by repeat constructor.
  - destruct In as [N1 N2]. cbn [run_op]. unfold mbind, st_bind. rewrite rollback_to_eq by done.
    destruct (find_savepoint m (reverse (savepoints s))) as [[before sp']|] eqn:F; [|split; [done|by exists extra]].
    rewrite Es, app_assoc in F. apply find_younger in F as (extra' & -> & rest & ->); [|by apply Nm]. apply Forall_app in Fe as [F1 F2].
    apply Forall_cons in F2 as [F2 _]. split; [done|]. exists (extra' ++ [sp']). split; [cbn; by rewrite <- !app_assoc|].
    apply Forall_app. split; [done|]. by repeat constructor.
  - destruct In as [N1 N2]. cbn [run_op]. unfold mbind, st_bind. rewrite release_eq by done.
    destruct (find_savepoint m (reverse (savepoints s))) as [[before sp']|] eqn:F; [|split; [done|by exists extra]].
    rewrite Es, app_assoc in F. apply find_younger in F as (extra' & -> & rest & ->); [|by apply Nm]. apply Forall_app in Fe as [F1 F2].
    split; [done|]. exists extra'. split; [cbn; by rewrite <- !app_assoc|done].
Qed.

(** Running commands whatever their outcomes. *)
Definition run_ops (ops : list txn_op) (ws : World St * Session) : World St * Session := foldl (fun ws op => (run_op op ws).1) ws ops.

Lemma run_ops_within s0 sp ops w s :
  in_transaction s0 = true -> Forall (op_inside (sp_name sp) (savepoints s0)) ops -> within s0 sp s -> within s0 sp (run_ops ops (w, s)).2.
Proof.
  intros Tx F. revert w s. induction F as [|op ops Ho _ IH]; intros w s W; [done|]. cbn.
  pose proof (run_op_within s0 sp op w s Tx Ho W) as W'. destruct (run_op op (w, s)) as [[w1 s1] r]. by apply IH.
Qed.

(** C13: undoing.  ROLLBACK TO SAVEPOINT restores the write buffer, the read set
    and the table versions as they were at SAVEPOINT, whatever statements and
    younger savepoints came in between, keeps the savepoint and drops the
    younger ones; it can be repeated.  ROLLBACK ends the transaction with the
    tables and the storage untouched and the locks released. *)
Theorem undo_correct name ops w s :
  in_transaction s = true -> Forall (op_inside name (savepoints s)) ops ->
  (let ws1 := run_ops ops (savepoint name (w, s)).1 in
   exists s2, rollback_to_savepoint name ws1 = ((ws1.1, s2), Ok (str "ROLLBACK TO SAVEPOINT " ++ name)) /\
     write_buffer s2 = write_buffer s /\ read_set s2 = read_set s /\ table_read_versions s2 = table_read_versions s /\
     current_txn_id s2 = current_txn_id s /\
     savepoints s2 = savepoints s ++ [mkSavepoint name (write_buffer s) (read_set s) (table_read_versions s)]) /\
  rollback (w, s) =
    ((mkWorld (Txn.rollback (current_txn_id s) (w_txns w)).1 (RowLock.release_all (current_txn_id s) (w_locks w)) (w_tables w) (w_storage w),
      set_savepoints [] (clear_txn s)), Ok (str "Transaction rolled back")).
Proof.
  intros Tx F. set (sp := mkSavepoint name (write_buffer s) (read_set s) (table_read_versions s)). split.
  - set (s1 := set_savepoints (savepoints s ++ [sp]) s). assert ((savepoint name (w, s)).1 = (w, s1)) as -> by (by rewrite savepoint_eq).
    cbv zeta. assert (within s sp s1) as W by (split; [done|by exists []]).
    pose proof (run_ops_within s sp ops w s1 Tx F W) as [Et (extra & Es & Fe)]. destruct (run_ops ops (w, s1)) as [w2 s2]. cbn [fst snd] in *.
    rewrite rollback_to_eq by (unfold in_transaction in *; by rewrite Et). rewrite Es, app_assoc, reverse_app, find_savepoint_app by (by apply Forall_reverse). rewrite reverse_app.
    change (reverse [sp] ++ reverse (savepoints s)) with (sp :: reverse (savepoints s)). cbn [find_savepoint].
    rewrite bool_decide_eq_true_2 by done. rewrite reverse_involutive. eexists. split; [reflexivity|]. split_and!; done.
  - unfold rollback. unfold mbind at 1, st_bind at 1, the_session at 1, gets at 1. cbn [snd]. by rewrite Tx.
Qed.

End Commit.

(** ** Examples *)

(** Transaction 7 has added row 5 to the example table and deleted row 1. *)
Definition ex_buffer : TableTxnBuffer := mkBuffer [(VInt 5, t_row 5 50)] [VInt 1].
Definition ex_txn_session : Session := mkSession 7 RepeatableRead {[ str "t" := ex_buffer ]} 10 0 ∅ ∅ [].
Definition ex_txn_world : World (Engine DecodedFile) :=
  mkWorld (mkTM 8 12 {[ 7 := mkTxn 7 10 0 Active ]} ∅ 1 0 0) RowLock.no_locks {[ str "t" := ex_tbl ]} ex_engine.

Lemma ex_committable : committable (fun _ _ => 9) (fun _ => ex_view) ex_txn_world ex_txn_session.
Proof.
  split; try done.
  - by exists (mkTxn 7 10 0 Active).
  - intros name t E. cbn in E. apply lookup_singleton_Some in E as [<- <-]. split; [done|exact ex_tbl_inv].
  - intros np Hnp. cbn in Hnp. rewrite map_to_list_empty in Hnp. by apply elem_of_nil in Hnp.
  - intros name b t E E'. cbn in E, E'. apply lookup_singleton_Some in E as [<- <-], E' as [_ <-]. split; [split; [split|]|].
    + apply NoDup_singleton.
    + by repeat constructor.
    + apply NoDup_singleton.
    + by repeat constructor.
    + intros k ->%list_elem_of_singleton ?%list_elem_of_singleton. done.
    + repeat constructor; done.
    + eexists. split; [reflexivity|]. split_and!; try done. by left.
Qed.

Lemma commit_atomic_witness :
  exists w' s', commit (ex_txn_world, ex_txn_session) = ((w', s'), Ok (str "Transaction committed")) /\
    committed_as 12 (fun _ => ex_view) ex_txn_world ex_txn_session w' s'.
Proof.
  assert ((commit (ex_txn_world, ex_txn_session)).2 = Ok (str "Transaction committed")) as E by (vm_compute; reflexivity).
  pose proof (commit_atomic (fun _ _ => 9) (fun _ => ex_view) ex_txn_world ex_txn_session ex_committable) as C.
  destruct (commit (ex_txn_world, ex_txn_session)) as [[w' s'] r]. cbn [snd] in E. subst r. exists w', s'. split; [reflexivity|exact (proj2 C)].
Defined.

Lemma undo_correct_witness :
  exists s2, rollback_to_savepoint (str "a")
      (run_ops [OpStatement ∅ ∅ ∅ 0; OpSavepoint (str "b"); OpRelease (str "b")] (savepoint (str "a") (ex_txn_world, ex_txn_session)).1) =
      ((ex_txn_world, s2), Ok (str "ROLLBACK TO SAVEPOINT a")) /\ write_buffer s2 = {[ str "t" := ex_buffer ]}.
Proof.
  destruct (undo_correct (str "a") [OpStatement ∅ ∅ ∅ 0; OpSavepoint (str "b"); OpRelease (str "b")] ex_txn_world ex_txn_session eq_refl)
    as [(s2 & R & E & _) _].
  { repeat constructor; try done. by intros ?%elem_of_nil. }
  exists s2. split; [exact R|exact E].
Defined.

(** Between the allocation of the commit timestamp and the writes another
    transaction can begin: its snapshot lies above the commit timestamp, and it
    sees row 1 before the writes and not after them. *)
Lemma commit_window :
  let (ws, _) := allocate_commit 7 (ex_txn_world, ex_txn_session) in
  let (reader, _) := begin (ws.1, mkSession 0 RepeatableRead ∅ 0 0 ∅ ∅ []) in
  let snap := snapshot_ts reader.2 in
  let look (w : World (Engine DecodedFile)) :=
    match w_tables w !! str "t" with Some t => (tbl_lookup_visible (VInt 1) snap (t, w_storage w)).2 | None => Throw "" end in
  snap = 13 /\ look reader.1 = Ok (Some (t_row 1 30)) /\
  look (apply_writes 12 (reader.1, ex_txn_session)).1.1 = Ok None.
Proof. vm_compute. repeat split. Qed.
