(* ===== verification/Logical.v ===== *)
(** The logical planner and the rewrite rules, [src/optimizer/logical/] with the
    plan nodes of [include/corodb/plan/logical_plan.h]: SELECT and DML statements
    to logical plans, constant folding, predicate pushdown, column pruning,
    merging of projections, join reordering and their iteration.

    A child pointer is never null: the planner sets each of them, and the rules
    put a plan where they take one away.  The size estimates that join reordering
    compares are an argument. *)
From Stdlib Require Import ZArith Lia.
From stdpp Require Import base numbers list gmap strings.
From S2P Require Import Prelude Values Doubles Eval Session Query.
Local Open Scope Z_scope.

(** * Data *)

(** What planning and execution use of a table. *)
Record TableHandle := mkHandle {
  th_view : TableView;
  th_indexed : list bytes;                      (* indexed_columns(), a set *)
  th_composites : list (bytes * list bytes)     (* composite_indexes(), in the map's order *)
}.
Definition th_name (h : TableHandle) : bytes := tv_name (th_view h).
Definition th_columns (h : TableHandle) : list Column := tv_columns (th_view h).

Record ColumnDef := mkDef {
  cd_name : bytes; cd_type : TypeKind; cd_primary_key : bool; cd_not_null : bool; cd_default : option Expression
}.

Record Join (Q : Type) := mkJoin {
  jn_type : JoinType; jn_table : bytes; jn_on : option (BoolExpr Q); jn_alias : option bytes
}.
Arguments mkJoin {Q}. Arguments jn_type {Q}. Arguments jn_table {Q}. Arguments jn_on {Q}. Arguments jn_alias {Q}.

(** The arms of a UNION are planned one by one. *)
Record SelectStmt (Q : Type) := mkSelect {
  sel_projections : list SelectItem;
  sel_distinct : bool;
  sel_from : bytes;
  sel_from_alias : option bytes;
  sel_joins : list (Join Q);
  sel_where : option (BoolExpr Q);
  sel_order_by : list OrderByItem;
  sel_group_by : list ColumnRef;
  sel_having : option (BoolExpr Q);
  sel_limit : option Z;
  sel_offset : option Z
}.
Arguments mkSelect {Q}. Arguments sel_projections {Q}. Arguments sel_distinct {Q}. Arguments sel_from {Q}.
Arguments sel_from_alias {Q}. Arguments sel_joins {Q}. Arguments sel_where {Q}. Arguments sel_order_by {Q}.
Arguments sel_group_by {Q}. Arguments sel_having {Q}. Arguments sel_limit {Q}. Arguments sel_offset {Q}.

(** The statements that are planned; the others never reach the planner with
    effect. *)
Inductive Statement (Q : Type) :=
| SSelect (s : SelectStmt Q)
| SInsert (table : bytes) (columns : list bytes) (rows : list (list Expression))
| SUpdate (table : bytes) (assignments : list (bytes * Expression)) (where_ : option (BoolExpr Q))
| SDelete (table : bytes) (where_ : option (BoolExpr Q))
| SCreateTable (table : bytes) (columns : list ColumnDef)
| SCreateIndex (index_name table : bytes) (columns : list bytes)
| SDropTable (table : bytes) (if_exists : bool)
| SDropIndex (index_name table : bytes) (if_exists : bool)
| SOther.
Arguments SSelect {Q}. Arguments SInsert {Q}. Arguments SUpdate {Q}. Arguments SDelete {Q}. Arguments SCreateTable {Q}.
Arguments SCreateIndex {Q}. Arguments SDropTable {Q}. Arguments SDropIndex {Q}. Arguments SOther {Q}.

Record LogicalColumn := mkLCol { lc_expr : Expression; lc_output : bytes }.
Record LogicalSortKey := mkLKey { lk_expr : Expression; lk_ascending : bool }.
Record LogicalAggregateItem := mkLAgg { la_func : AggFunc; la_arg : option Expression; la_distinct : bool; la_output : bytes }.

Inductive DmlKind := KInsert | KUpdate | KDelete.

Inductive LogicalPlan (Q : Type) :=
| LScan (table : TableHandle) (alias : bytes)
| LFilter (predicate : BoolExpr Q) (child : LogicalPlan Q)
| LProject (columns : list LogicalColumn) (child : LogicalPlan Q) (distinct : bool)
| LJoin (type : JoinType) (on : option (BoolExpr Q)) (left right : LogicalPlan Q)
| LAggregate (group_by : list Expression) (aggregates : list LogicalAggregateItem) (having : option (BoolExpr Q))
    (child : LogicalPlan Q)
| LSort (keys : list LogicalSortKey) (child : LogicalPlan Q)
| LLimit (offset limit : option Z) (child : LogicalPlan Q)
| LValues (rows : list (list Expression))
| LDml (kind : DmlKind) (table : TableHandle) (source : LogicalPlan Q) (columns : list bytes) (set_exprs : list Expression)
    (where_ : option (BoolExpr Q))
| LDdl (original : Statement Q).
Arguments LScan {Q}. Arguments LFilter {Q}. Arguments LProject {Q}. Arguments LJoin {Q}. Arguments LAggregate {Q}.
Arguments LSort {Q}. Arguments LLimit {Q}. Arguments LValues {Q}. Arguments LDml {Q}. Arguments LDdl {Q}.

(** * The planner *)

Definition ref_qualified (c : ColumnRef) : bytes :=
  if bool_decide (ref_table c = []) then ref_name c else ref_table c ++ str "." ++ ref_name c.
Definition agg_func_name (f : AggFunc) : bytes :=
  match f with Count => str "COUNT" | Sum => str "SUM" | Avg => str "AVG" | Min => str "MIN" | Max => str "MAX" end.
Definition agg_to_string (f : AggFunc) (a : option ColumnRef) : bytes :=
  agg_func_name f ++ str "(" ++ match a with Some c => ref_qualified c | None => str "*" end ++ str ")".

Definition to_agg_item (a : AggregateExpr) (out_name : bytes) : LogicalAggregateItem :=
  mkLAgg (agg_func a) (EColumn <$> agg_arg a) false out_name.
Definition item_to_expr (v : SelectValue) : Expression :=
  match v with SelExpr e => e | SelAgg a => EAggregate (agg_func a) (agg_arg a) end.
Definition is_aggregate (it : SelectItem) : bool := match item_value it with SelAgg _ => true | SelExpr _ => false end.
Definition is_star (it : SelectItem) : bool :=
  match item_value it with SelExpr (EColumn c) => bool_decide (ref_name c = str "*") | _ => false end.

Definition numbered (prefix : string) (i : nat) : bytes := str prefix ++ int_to_string (Z.of_nat i).

(** The aggregates of the SELECT list; the number is that of the next one. *)
Fixpoint projected_aggregates (i : nat) (items : list SelectItem) : list LogicalAggregateItem * nat :=
  match items with
  | [] => ([], i)
  | it :: items =>
      match item_value it with
      | SelAgg a => let (l, n) := projected_aggregates (S i) items in
                    (to_agg_item a (default (numbered "agg_" i) (item_alias it)) :: l, n)
      | SelExpr _ => projected_aggregates i items
      end
  end.

Definition expr_aggregate (e : Expression) : list AggregateExpr :=
  match e with EAggregate f a => [mkAgg f a] | _ => [] end.

(** The aggregates that occur as sides of comparisons. *)
Fixpoint bool_aggregates {Q} (b : BoolExpr Q) : list AggregateExpr :=
  match b with
  | BComparison (Some c) => expr_aggregate (cmp_lhs c) ++ expr_aggregate (cmp_rhs c)
  | BAnd (Some l) r | BOr (Some l) r => bool_aggregates l ++ match r with Some r => bool_aggregates r | None => [] end
  | BNot (Some l) => bool_aggregates l
  | _ => []
  end.

(** An aggregate of HAVING is added unless one with its function is there. *)
Fixpoint add_having (i : nat) (has : list AggregateExpr) (aggs : list LogicalAggregateItem) : list LogicalAggregateItem :=
  match has with
  | [] => aggs
  | h :: has =>
      if existsb (fun a => bool_decide (la_func a = agg_func h)) aggs then add_having i has aggs
      else add_having (S i) has (aggs ++ [to_agg_item h (numbered "agg_" i)])
  end.

Definition source_columns (src : TableHandle * bytes) : list LogicalColumn :=
  map (fun c => mkLCol (EColumn (mkRef (if bool_decide (src.2 = []) then th_name src.1 else src.2) (col_name c))) (col_name c))
    (th_columns src.1).

Definition output_column (i : nat) (it : SelectItem) : LogicalColumn :=
  let e := item_to_expr (item_value it) in
  mkLCol e (match item_alias it, e with
            | Some a, _ => a
            | None, EColumn c => ref_name c
            | None, EAggregate f a => agg_to_string f a
            | None, _ => numbered "col_" i
            end).

Fixpoint output_columns (i : nat) (srcs : list (TableHandle * bytes)) (items : list SelectItem) : list LogicalColumn :=
  match items with
  | [] => []
  | it :: items =>
      if is_star it then concat (map source_columns srcs) ++ output_columns i srcs items
      else output_column i it :: output_columns (S i) srcs items
  end.

Section Planner.
Context {Q : Type}.
Variable catalog : bytes -> option TableHandle.

Definition resolve_table (name : bytes) : res TableHandle :=
  match catalog name with Some t => Ok t | None => Throw "[LogicalPlanner] Unknown table" end.

(** FROM and JOIN: the tree of joins and the tables in their order. *)
Fixpoint plan_joins (cur : LogicalPlan Q) (js : list (Join Q)) : res (LogicalPlan Q * list (TableHandle * bytes)) :=
  match js with
  | [] => Ok (cur, [])
  | j :: js =>
      rt ← resolve_table (jn_table j);
      let alias := default [] (jn_alias j) in
      '(p, srcs) ← plan_joins (LJoin (jn_type j) (jn_on j) cur (LScan rt alias)) js;
      Ok (p, (rt, alias) :: srcs)
  end.

Definition nonneg (n : option Z) : option Z := match n with Some z => if 0 <=? z then Some z else None | None => None end.

Definition plan_select (s : SelectStmt Q) : res (LogicalPlan Q) :=
  base ← resolve_table (sel_from s);
  let base_alias := default [] (sel_from_alias s) in
  '(cur, srcs) ← plan_joins (LScan base base_alias) (sel_joins s);
  let cur := match sel_where s with Some w => LFilter w cur | None => cur end in
  let cur :=
    if negb (bool_decide (sel_group_by s = [])) || existsb is_aggregate (sel_projections s)
       || match sel_having s with Some _ => true | None => false end then
      let '(aggs, n) := projected_aggregates 0 (sel_projections s) in
      let aggs := match sel_having s with Some h => add_having n (bool_aggregates h) aggs | None => aggs end in
      LAggregate (map EColumn (sel_group_by s)) aggs (sel_having s) cur
    else cur in
  let cur :=
    if bool_decide (sel_order_by s = []) then cur
    else LSort (map (fun ob => mkLKey (item_to_expr (ord_key ob)) (ord_asc ob)) (sel_order_by s)) cur in
  let cur :=
    match sel_limit s, sel_offset s with
    | None, None => cur
    | l, o => LLimit (nonneg o) (nonneg l) cur
    end in
  Ok (LProject (output_columns 0 ((base, base_alias) :: srcs) (sel_projections s)) cur (sel_distinct s)).

Definition plan_insert (table : bytes) (columns : list bytes) (rows : list (list Expression)) : res (LogicalPlan Q) :=
  t ← resolve_table table; Ok (LDml KInsert t (LValues rows) columns [] None).

Definition filtered (t : TableHandle) (where_ : option (BoolExpr Q)) : LogicalPlan Q :=
  match where_ with Some w => LFilter w (LScan t []) | None => LScan t [] end.
Definition plan_update (table : bytes) (as_ : list (bytes * Expression)) (where_ : option (BoolExpr Q)) : res (LogicalPlan Q) :=
  t ← resolve_table table; Ok (LDml KUpdate t (filtered t where_) as_.*1 as_.*2 where_).
Definition plan_delete (table : bytes) (where_ : option (BoolExpr Q)) : res (LogicalPlan Q) :=
  t ← resolve_table table; Ok (LDml KDelete t (filtered t where_) [] [] where_).

Definition plan (s : Statement Q) : res (LogicalPlan Q) :=
  match s with
  | SSelect s => plan_select s
  | SInsert t cols rows => plan_insert t cols rows
  | SUpdate t as_ w => plan_update t as_ w
  | SDelete t w => plan_delete t w
  | _ => Ok (LDdl s)
  end.
End Planner.

(** * The rules

    A rule gives the new plan and whether it reports a change. *)

Definition Rule (Q : Type) : Type := LogicalPlan Q -> res (LogicalPlan Q * bool).

(** ** R3: constant folding *)

Definition fold_int (op : BinOp) (a b : Z) : res (option Value) :=
  match op with
  | Add => Some <$> int64 (a + b)
  | Sub => Some <$> int64 (a - b)
  | Mul => Some <$> int64 (a * b)
  | Div => if b =? 0 then Ok None else Some <$> int64 (Z.quot a b)
  | Mod => if b =? 0 then Ok None
           else if (a =? - 2 ^ 63) && (b =? -1) then UB "signed overflow" else Ok (Some (VInt (Z.rem a b)))
  | Concat => Ok None
  end.

(** The value of an operation on two literals, if it is folded. *)
Definition fold_binary (op : BinOp) (l r : Value) : res (option Value) :=
  if is_null l || is_null r then Ok (Some VNull) else
  match op with
  | Concat => match l, r with VText a, VText b => Ok (Some (VText (a ++ b))) | _, _ => Ok None end
  | _ => match l, r with VInt a, VInt b => fold_int op a b | _, _ => Ok None end
  end.

Fixpoint fold_expression (e : Expression) : res Expression :=
  match e with
  | EBinary op lhs rhs =>
      l ← fold_expression lhs;
      r ← fold_expression rhs;
      match l, r with
      | ELiteral a, ELiteral b =>
          v ← fold_binary op a b;
          Ok (match v with Some v => ELiteral v | None => EBinary op l r end)
      | _, _ => Ok (EBinary op l r)
      end
  | _ => Ok e
  end.

Fixpoint fold_bool {Q} (b : BoolExpr Q) : res (BoolExpr Q) :=
  let part o := match o with Some x => Some <$> fold_bool x | None => Ok None end in
  match b with
  | BComparison (Some c) =>
      l ← fold_expression (cmp_lhs c); r ← fold_expression (cmp_rhs c); Ok (BComparison (Some (mkCmp l (cmp_op c) r)))
  | BAnd l r => l ← part l; r ← part r; Ok (BAnd l r)
  | BOr l r => l ← part l; r ← part r; Ok (BOr l r)
  | BNot l => l ← part l; Ok (BNot l)
  | _ => Ok b
  end.

(** Changes are found by comparing renderings. *)
Definition value_str (v : Value) : bytes :=
  match v with VInt n => int_to_string n | VText s => str "'" ++ s ++ str "'" | _ => str "NULL" end.
Definition op_str (op : BinOp) : bytes :=
  match op with Add => str "+" | Sub => str "-" | Mul => str "*" | Div => str "/" | Mod => str "%" | Concat => str "||" end.
Definition compare_op_str (op : CompareOp) : bytes :=
  match op with
  | Eq => str "=" | Ne => str "<>" | Lt => str "<" | Le => str "<=" | Gt => str ">" | Ge => str ">="
  | Like => str "LIKE" | NotLike => str "NOT LIKE" | IsNull => str "IS NULL" | IsNotNull => str "IS NOT NULL"
  end.
Fixpoint serialize_expr (e : Expression) : bytes :=
  match e with
  | ELiteral v => str "L:" ++ value_str v
  | EColumn c => str "C:" ++ ref_table c ++ str "." ++ ref_name c
  | EBinaryNull => str "B:null"
  | EBinary op l r => str "B(" ++ op_str op ++ str "," ++ serialize_expr l ++ str "," ++ serialize_expr r ++ str ")"
  | _ => str "?"
  end.
Fixpoint serialize {Q} (b : BoolExpr Q) : bytes :=
  let part open_ (o : option (BoolExpr Q)) :=
    match o with Some x => str open_ ++ serialize x ++ str "}" | None => [] end in
  match b with
  | BComparison c =>
      str "k0" ++ match c with
                  | Some c => str "[" ++ serialize_expr (cmp_lhs c) ++ str " " ++ compare_op_str (cmp_op c) ++ str " "
                                ++ serialize_expr (cmp_rhs c) ++ str "]"
                  | None => []
                  end
  | BAnd l r => str "k1" ++ part "L{" l ++ part "R{" r
  | BOr l r => str "k2" ++ part "L{" l ++ part "R{" r
  | BNot l => str "k3" ++ part "L{" l
  | BIn _ => str "k4"
  | BBetween _ => str "k5"
  end.

Definition folded_expr (e : Expression) : res (Expression * bool) :=
  e' ← fold_expression e; Ok (e', negb (bool_decide (serialize_expr e' = serialize_expr e))).
Definition folded_bool {Q} (b : BoolExpr Q) : res (BoolExpr Q * bool) :=
  b' ← fold_bool b; Ok (b', negb (bool_decide (serialize b' = serialize b))).
Definition folded_opt {Q} (o : option (BoolExpr Q)) : res (option (BoolExpr Q) * bool) :=
  match o with Some b => '(b', ch) ← folded_bool b; Ok (Some b', ch) | None => Ok (None, false) end.

(** A function that may report a change, on each element. *)
Fixpoint change_all {A} (f : A -> res (A * bool)) (l : list A) : res (list A * bool) :=
  match l with
  | [] => Ok ([], false)
  | a :: l => '(a', c1) ← f a; '(l', c2) ← change_all f l; Ok (a' :: l', c1 || c2)
  end.

Fixpoint constant_folding {Q} (p : LogicalPlan Q) : res (LogicalPlan Q * bool) :=
  match p with
  | LFilter e c => '(e', c1) ← folded_bool e; '(c', c2) ← constant_folding c; Ok (LFilter e' c', c1 || c2)
  | LProject cols c d =>
      '(cols', c1) ← change_all (fun x => '(e, ch) ← folded_expr (lc_expr x); Ok (mkLCol e (lc_output x), ch)) cols;
      '(c', c2) ← constant_folding c; Ok (LProject cols' c' d, c1 || c2)
  | LJoin ty on l r =>
      '(on', c1) ← folded_opt on; '(l', c2) ← constant_folding l; '(r', c3) ← constant_folding r;
      Ok (LJoin ty on' l' r', c1 || c2 || c3)
  | LAggregate g a h c => '(h', c1) ← folded_opt h; '(c', c2) ← constant_folding c; Ok (LAggregate g a h' c', c1 || c2)
  | LSort ks c =>
      '(ks', c1) ← change_all (fun k => '(e, ch) ← folded_expr (lk_expr k); Ok (mkLKey e (lk_ascending k), ch)) ks;
      '(c', c2) ← constant_folding c; Ok (LSort ks' c', c1 || c2)
  | LLimit o l c => '(c', ch) ← constant_folding c; Ok (LLimit o l c', ch)
  | LValues rows => '(rows', ch) ← change_all (change_all folded_expr) rows; Ok (LValues rows', ch)
  | LDml k t src cols es w =>
      '(es', c1) ← change_all folded_expr es; '(w', c2) ← folded_opt w; '(src', c3) ← constant_folding src;
      Ok (LDml k t src' cols es' w', c1 || c2 || c3)
  | LScan _ _ | LDdl _ => Ok (p, false)
  end.

(** ** R1: predicate pushdown *)

Fixpoint expr_tables (e : Expression) : list bytes :=
  match e with
  | EColumn c => if bool_decide (ref_table c = []) then [] else [ref_table c]
  | EBinary _ l r => expr_tables l ++ expr_tables r
  | _ => []
  end.
Fixpoint bool_tables {Q} (b : BoolExpr Q) : list bytes :=
  let part (o : option (BoolExpr Q)) := match o with Some x => bool_tables x | None => [] end in
  match b with
  | BComparison (Some c) => expr_tables (cmp_lhs c) ++ expr_tables (cmp_rhs c)
  | BAnd l r | BOr l r => part l ++ part r
  | BNot l => part l
  | _ => []
  end.
Fixpoint plan_tables {Q} (p : LogicalPlan Q) : list bytes :=
  match p with
  | LScan t alias => th_name t :: (if bool_decide (alias = []) then [] else [alias])
  | LJoin _ _ l r => plan_tables l ++ plan_tables r
  | LFilter _ c | LProject _ c _ | LAggregate _ _ _ c | LSort _ c | LLimit _ _ c => plan_tables c
  | LDml _ t src _ _ _ => th_name t :: plan_tables src
  | LValues _ | LDdl _ => []
  end.

Fixpoint split_and {Q} (e : BoolExpr Q) : list (BoolExpr Q) :=
  match e with
  | BAnd (Some l) (Some r) => split_and l ++ split_and r
  | _ => [e]
  end.
(** It is never applied to an empty list. *)
Definition combine_and {Q} (cs : list (BoolExpr Q)) : BoolExpr Q :=
  match cs with
  | [] => BComparison None
  | c :: cs => foldl (fun cur c => BAnd (Some cur) (Some c)) c cs
  end.
Definition refs_subset_of (refs owned : list bytes) : bool := forallb (fun r => bool_decide (r ∈ owned)) refs.

Definition wrap_filter {Q} (cs : list (BoolExpr Q)) (child : LogicalPlan Q) : LogicalPlan Q :=
  if bool_decide (length cs = 0%nat) then child else
  match child with
  | LFilter e c => LFilter (combine_and (split_and e ++ cs)) c
  | _ => LFilter (combine_and cs) child
  end.

(** Where a conjunct above an inner join goes. *)
Inductive Side := GoLeft | GoRight | Stay.
#[export] Instance Side_eq_dec : EqDecision Side.
Proof. solve_decision. Defined.
Definition side_of {Q} (left_tables right_tables : list bytes) (c : BoolExpr Q) : Side :=
  let refs := bool_tables c in
  if bool_decide (refs = []) then Stay
  else if refs_subset_of refs left_tables then GoLeft
  else if refs_subset_of refs right_tables then GoRight else Stay.
Definition on_side {Q} (lt rt : list bytes) (s : Side) (cs : list (BoolExpr Q)) : list (BoolExpr Q) :=
  List.filter (fun c => bool_decide (side_of lt rt c = s)) cs.

(** The new child, the conjuncts that stay above it and whether it changed. *)
Fixpoint push_through {Q} (child : LogicalPlan Q) (cs : list (BoolExpr Q)) : LogicalPlan Q * list (BoolExpr Q) * bool :=
  if bool_decide (length cs = 0%nat) then (child, [], false) else
  let into c cs := let '(c', still, ch) := push_through c cs in (wrap_filter still c', still, ch) in
  match child with
  | LProject cols c d =>
      let '(c', still, ch) := into c cs in
      (LProject cols c' d, [], ch || negb (bool_decide (length still = 0%nat)))
  | LSort ks c =>
      let '(c', still, ch) := into c cs in
      (LSort ks c', [], ch || bool_decide (length still = 0%nat))
  | LJoin Inner on l r =>
      let lt := plan_tables l in
      let rt := plan_tables r in
      let pl := on_side lt rt GoLeft cs in
      let pr := on_side lt rt GoRight cs in
      let l' := if bool_decide (length pl = 0%nat) then l else (into l pl).1.1 in
      let r' := if bool_decide (length pr = 0%nat) then r else (into r pr).1.1 in
      (LJoin Inner on l' r', on_side lt rt Stay cs,
       negb (bool_decide (length pl = 0%nat)) || negb (bool_decide (length pr = 0%nat)))
  | LFilter e c => (LFilter (combine_and (split_and e ++ cs)) c, [], true)
  | _ => (child, cs, false)
  end.

Fixpoint predicate_pushdown {Q} (p : LogicalPlan Q) : LogicalPlan Q * bool :=
  match p with
  | LFilter e c =>
      let '(c1, ch1) := predicate_pushdown c in
      let '(c2, stay, ch2) := push_through c1 (split_and e) in
      (wrap_filter stay c2, ch1 || ch2)
  | LProject cols c d => let '(c', ch) := predicate_pushdown c in (LProject cols c' d, ch)
  | LJoin ty on l r =>
      let '(l', c1) := predicate_pushdown l in let '(r', c2) := predicate_pushdown r in (LJoin ty on l' r', c1 || c2)
  | LAggregate g a h c => let '(c', ch) := predicate_pushdown c in (LAggregate g a h c', ch)
  | LSort ks c => let '(c', ch) := predicate_pushdown c in (LSort ks c', ch)
  | LLimit o l c => let '(c', ch) := predicate_pushdown c in (LLimit o l c', ch)
  | LDml k t src cols es w => let '(src', ch) := predicate_pushdown src in (LDml k t src' cols es w, ch)
  | LScan _ _ | LValues _ | LDdl _ => (p, false)
  end.

(** ** R4: column pruning *)

Fixpoint expr_cols (e : Expression) : list bytes :=
  match e with
  | EColumn c => [ref_name c]
  | EBinary _ l r => expr_cols l ++ expr_cols r
  | _ => []
  end.
Fixpoint bool_cols {Q} (b : BoolExpr Q) : list bytes :=
  let part (o : option (BoolExpr Q)) := match o with Some x => bool_cols x | None => [] end in
  match b with
  | BComparison (Some c) => expr_cols (cmp_lhs c) ++ expr_cols (cmp_rhs c)
  | BAnd l r | BOr l r => part l ++ part r
  | BNot l => part l
  | _ => []
  end.
Definition opt_cols {Q} (o : option (BoolExpr Q)) : list bytes := match o with Some b => bool_cols b | None => [] end.

(** The columns of a projection that are needed, if that is some but not all. *)
Definition pruned (needed : option (list bytes)) (cols : list LogicalColumn) : list LogicalColumn * bool :=
  match needed with
  | None => (cols, false)
  | Some n =>
      let kept := List.filter (fun c => bool_decide (lc_output c ∈ n)) cols in
      if negb (bool_decide (length kept = 0%nat)) && negb (bool_decide (length kept = length cols)) then (kept, true)
      else (cols, false)
  end.

Fixpoint column_pruning {Q} (needed : option (list bytes)) (p : LogicalPlan Q) : LogicalPlan Q * bool :=
  match p with
  | LProject cols c d =>
      let '(cols', c1) := pruned needed cols in
      let '(c', c2) := column_pruning (Some (concat (map (fun x => expr_cols (lc_expr x)) cols'))) c in
      (LProject cols' c' d, c1 || c2)
  | LFilter e c =>
      let '(c', ch) := column_pruning (Some (default [] needed ++ bool_cols e)) c in (LFilter e c', ch)
  | LSort ks c =>
      let '(c', ch) := column_pruning (Some (default [] needed ++ concat (map (fun k => expr_cols (lk_expr k)) ks))) c in
      (LSort ks c', ch)
  | LLimit o l c => let '(c', ch) := column_pruning needed c in (LLimit o l c', ch)
  | LAggregate g a h c =>
      let '(c', ch) := column_pruning
        (Some (concat (map expr_cols g) ++ concat (map (fun x => match la_arg x with Some e => expr_cols e | None => [] end) a)
               ++ opt_cols h)) c in
      (LAggregate g a h c', ch)
  | LJoin ty on l r =>
      let n := Some (default [] needed ++ opt_cols on) in
      let '(l', c1) := column_pruning n l in let '(r', c2) := column_pruning n r in (LJoin ty on l' r', c1 || c2)
  | LDml k t src cols es w => let '(src', ch) := column_pruning None src in (LDml k t src' cols es w, ch)
  | LScan _ _ | LValues _ | LDdl _ => (p, false)
  end.

(** ** R2: merging of projections *)

Definition merged_column (inner : list LogicalColumn) (o : LogicalColumn) : option LogicalColumn :=
  match lc_expr o with
  | EColumn c =>
      if bool_decide (ref_table c = [])
      then i ← List.find (fun i => bool_decide (lc_output i = ref_name c)) inner; Some (mkLCol (lc_expr i) (lc_output o))
      else None
  | _ => None
  end.

Fixpoint projection_merge {Q} (p : LogicalPlan Q) : LogicalPlan Q * bool :=
  match p with
  | LProject cols c d =>
      let '(c', ch) := projection_merge c in
      match c' with
      | LProject inner c2 _ =>
          match mapM (merged_column inner) cols with
          | Some merged => (LProject merged c2 false, true)
          | None => (LProject cols c' d, ch)
          end
      | _ => (LProject cols c' d, ch)
      end
  | LFilter e c => let '(c', ch) := projection_merge c in (LFilter e c', ch)
  | LJoin ty on l r =>
      let '(l', c1) := projection_merge l in let '(r', c2) := projection_merge r in (LJoin ty on l' r', c1 || c2)
  | LAggregate g a h c => let '(c', ch) := projection_merge c in (LAggregate g a h c', ch)
  | LSort ks c => let '(c', ch) := projection_merge c in (LSort ks c', ch)
  | LLimit o l c => let '(c', ch) := projection_merge c in (LLimit o l c', ch)
  | LDml k t src cols es w => let '(src', ch) := projection_merge src in (LDml k t src' cols es w, ch)
  | LScan _ _ | LValues _ | LDdl _ => (p, false)
  end.

(** ** R5: the smaller table to the left *)

Section Reorder.
Context {Q : Type}.
(** [estimate_subtree_size]. *)
Variable estimate : LogicalPlan Q -> Z.

Fixpoint join_reorder (p : LogicalPlan Q) : LogicalPlan Q * bool :=
  match p with
  | LJoin ty on l r =>
      let '(l', c1) := join_reorder l in
      let '(r', c2) := join_reorder r in
      match ty with
      | Inner => if estimate r' <? estimate l' then (LJoin ty on r' l', true) else (LJoin ty on l' r', c1 || c2)
      | _ => (LJoin ty on l' r', c1 || c2)
      end
  | LFilter e c => let '(c', ch) := join_reorder c in (LFilter e c', ch)
  | LProject cols c d => let '(c', ch) := join_reorder c in (LProject cols c' d, ch)
  | LAggregate g a h c => let '(c', ch) := join_reorder c in (LAggregate g a h c', ch)
  | LSort ks c => let '(c', ch) := join_reorder c in (LSort ks c', ch)
  | LLimit o l c => let '(c', ch) := join_reorder c in (LLimit o l c', ch)
  | LDml k t src cols es w => let '(src', ch) := join_reorder src in (LDml k t src' cols es w, ch)
  | LScan _ _ | LValues _ | LDdl _ => (p, false)
  end.

(** ** [RuleSet] *)

Definition make_default_rules : list (Rule Q) :=
  [constant_folding; fun p => Ok (predicate_pushdown p); fun p => Ok (column_pruning None p);
   fun p => Ok (projection_merge p); fun p => Ok (join_reorder p)].
End Reorder.

Fixpoint apply_rules {Q} (rules : list (Rule Q)) (p : LogicalPlan Q) : res (LogicalPlan Q * bool) :=
  match rules with
  | [] => Ok (p, false)
  | r :: rules => '(p1, c1) ← r p; '(p2, c2) ← apply_rules rules p1; Ok (p2, c1 || c2)
  end.

(** Rounds of all rules, until none reports a change or [max_iterations] rounds. *)
Fixpoint rule_set_apply {Q} (rules : list (Rule Q)) (max_iterations : nat) (p : LogicalPlan Q) : res (LogicalPlan Q) :=
  match max_iterations with
  | O => Ok p
  | S n => '(p', changed) ← apply_rules rules p; if (changed : bool) then rule_set_apply rules n p' else Ok p'
  end.

Definition max_iterations : nat := 16.
