(* ===== verification/Physical.v ===== *)
(** The physical planner, [src/optimizer/physical/physical_planner.cpp], and how
    the query processor chains the planning stages
    ([src/process/query_processor.cpp], [build_physical_plan]).

    Every decision by cost is an argument: the estimates, the cost model and the
    heuristics that replace it only choose among the plans below.  The row
    estimates and costs that are noted on plan nodes are left out; execution does
    not read them. *)
From Stdlib Require Import ZArith Lia.
From stdpp Require Import base numbers list gmap strings.
From S2P Require Import Prelude Values Eval Session Query Dml Logical.
Local Open Scope Z_scope.

(** The choices: whether an index access pays, whether a merge join costs no more
    than a hash join, whether a nested loop is cheaper than a hash join, and
    whether a hash aggregate is cheaper than a sort aggregate. *)
Record Choices (Q : Type) := mkChoices {
  index_pays : TableHandle -> IndexAccess -> bool;
  merge_pays : PlanNode Q -> PlanNode Q -> bool;
  loop_pays : PlanNode Q -> PlanNode Q -> bool;
  hash_agg_pays : PlanNode Q -> list ColumnRef -> bool
}.
Arguments mkChoices {Q}. Arguments index_pays {Q}. Arguments merge_pays {Q}. Arguments loop_pays {Q}. Arguments hash_agg_pays {Q}.

(** Plans of statements. *)
Inductive PhysicalPlan (Q : Type) :=
| QueryPlan (p : PlanNode Q)
| ModifyPlan (table : TableHandle) (p : DmlPlan Q)
| CreateTablePlan (name : bytes) (columns : list Column)
| CreateIndexPlan (table : TableHandle) (index_name : bytes) (columns : list bytes)
| DropTablePlan (name : bytes) (if_exists : bool)
| DropIndexPlan (table : option TableHandle) (index_name : bytes) (if_exists : bool).
Arguments QueryPlan {Q}. Arguments ModifyPlan {Q}. Arguments CreateTablePlan {Q}. Arguments CreateIndexPlan {Q}.
Arguments DropTablePlan {Q}. Arguments DropIndexPlan {Q}.

(** * Access paths *)

Definition reverse_compare_op (op : CompareOp) : CompareOp :=
  match op with Lt => Gt | Le => Ge | Gt => Lt | Ge => Le | _ => op end.

(** column OP literal *)
Definition index_access (c : ColumnRef) (op : CompareOp) (v : Value) : option IndexAccess :=
  match op with
  | Eq => Some (IdxPoint (ref_name c) v)
  | Gt => Some (IdxRange (ref_name c) (Some v) false None false)
  | Ge => Some (IdxRange (ref_name c) (Some v) true None false)
  | Lt => Some (IdxRange (ref_name c) None false (Some v) false)
  | Le => Some (IdxRange (ref_name c) None false (Some v) true)
  | _ => None
  end.

Definition indexed (h : TableHandle) (c : ColumnRef) : bool := bool_decide (ref_name c ∈ th_indexed h).

Definition comparison_access (h : TableHandle) (c : Comparison) : option IndexAccess :=
  match cmp_lhs c, cmp_rhs c with
  | EColumn x, ELiteral v => if indexed h x then index_access x (cmp_op c) v else None
  | EColumn _, _ => None
  | ELiteral v, EColumn x => if indexed h x then index_access x (reverse_compare_op (cmp_op c)) v else None
  | _, _ => None
  end.

Definition between_access (h : TableHandle) (b : BetweenExpr) : option IndexAccess :=
  if btw_negated b then None else
  match btw_expr b, btw_low b, btw_high b with
  | EColumn x, ELiteral lo, ELiteral hi =>
      if indexed h x then Some (IdxRange (ref_name x) (Some lo) true (Some hi) true) else None
  | _, _, _ => None
  end.

Definition literal (e : Expression) : option Value := match e with ELiteral v => Some v | _ => None end.

Definition in_access {Q} (h : TableHandle) (i : InExpr Q) : option IndexAccess :=
  if in_negated i then None else
  match in_expr i, in_values i with
  | EColumn _, [] => None
  | EColumn x, vs => if indexed h x then IdxIn (ref_name x) <$> mapM literal vs else None
  | _, _ => None
  end.

(** The access that a predicate on a table allows by itself. *)
Definition simple_access {Q} (h : TableHandle) (e : BoolExpr Q) : option IndexAccess :=
  match e with
  | BComparison (Some c) => comparison_access h c
  | BBetween (Some b) => between_access h b
  | BIn (Some i) => in_access h i
  | _ => None
  end.

(** ** Composite indexes *)

(** The leaves of a conjunction in the order the work stack gives them. *)
Fixpoint and_leaves {Q} (e : BoolExpr Q) : list (BoolExpr Q) :=
  let part (o : option (BoolExpr Q)) := match o with Some x => and_leaves x | None => [] end in
  match e with
  | BAnd l r => part r ++ part l
  | _ => [e]
  end.

(** column = literal *)
Definition equality_leaf {Q} (e : BoolExpr Q) : option (bytes * Value) :=
  match e with
  | BComparison (Some (mkCmp l Eq r)) =>
      match l, r with
      | EColumn c, ELiteral v => Some (ref_name c, v)
      | EColumn _, _ => None
      | ELiteral v, EColumn c => Some (ref_name c, v)
      | _, _ => None
      end
  | _ => None
  end.

Definition eq_find (c : bytes) (eqs : list (bytes * Value)) : option Value :=
  snd <$> List.find (fun cv => bool_decide (cv.1 = c)) eqs.
(** [emplace] keeps the value that is there. *)
Definition eq_emplace (eqs : list (bytes * Value)) (cv : bytes * Value) : list (bytes * Value) :=
  match eq_find cv.1 eqs with Some _ => eqs | None => eqs ++ [cv] end.

Definition equalities {Q} (e : BoolExpr Q) : list (bytes * Value) * bool :=
  (foldl eq_emplace [] (omap equality_leaf (and_leaves e)),
   forallb (fun l => bool_decide (is_Some (equality_leaf l))) (and_leaves e)).

(** The widest composite index whose columns all have a value; of equally wide
    ones the first. *)
Definition better (eqs : list (bytes * Value)) (best : option (bytes * list bytes)) (i : bytes * list bytes)
    : option (bytes * list bytes) :=
  if forallb (fun c => bool_decide (is_Some (eq_find c eqs))) i.2 &&
     match best with Some b => (length b.2 <? length i.2)%nat | None => true end
  then Some i else best.
Definition best_composite (eqs : list (bytes * Value)) (h : TableHandle) : option (bytes * list bytes) :=
  foldl (better eqs) None (th_composites h).

Section Build.
Context {Q : Type}.
Variable ch : Choices Q.

(** The filter of a table; [None] when no composite index fits. *)
Definition composite_scan (h : TableHandle) (alias : bytes) (e : BoolExpr Q) : option (PlanNode Q) :=
  match e with
  | BAnd _ _ =>
      let '(eqs, only_equalities) := equalities e in
      '(iname, cols) ← best_composite eqs h;
      let scan := IndexScanPlan (th_view h) alias
                    (IdxComposite iname cols (map (fun c => default VNull (eq_find c eqs)) cols)) in
      Some (if only_equalities && (length eqs =? length cols)%nat then scan else FilterPlan scan e)
  | _ => None
  end.

Definition build_scan_filter (h : TableHandle) (alias : bytes) (e : BoolExpr Q) : PlanNode Q :=
  match simple_access h e with
  | Some a => if index_pays ch h a then IndexScanPlan (th_view h) alias a
              else FilterPlan (SeqScanPlan (th_view h) alias) e
  | None => default (FilterPlan (SeqScanPlan (th_view h) alias) e) (composite_scan h alias e)
  end.

(** * Joins *)

Definition try_extract_equi_keys (on : BoolExpr Q) (left_tabs right_tabs : list bytes) : option (ColumnRef * ColumnRef) :=
  match on with
  | BComparison (Some (mkCmp (EColumn a) Eq (EColumn b))) =>
      if bool_decide (ref_table a = []) || bool_decide (ref_table b = []) then None
      else if bool_decide (ref_table a ∈ left_tabs) && bool_decide (ref_table b ∈ right_tabs) then Some (a, b)
      else if bool_decide (ref_table a ∈ right_tabs) && bool_decide (ref_table b ∈ left_tabs) then Some (b, a)
      else None
  | _ => None
  end.

Definition first_column (p : LogicalPlan Q) : option ColumnRef :=
  match p with LSort (k :: _) _ => match lk_expr k with EColumn c => Some c | _ => None end | _ => None end.
(** Both inputs are sorted by a column with the name of their key. *)
Definition merge_ok (lp rp : LogicalPlan Q) (lk rk : ColumnRef) : bool :=
  match first_column lp, first_column rp with
  | Some a, Some b => bool_decide (ref_name a = ref_name lk) && bool_decide (ref_name b = ref_name rk)
  | _, _ => false
  end.

Definition build_join (ty : JoinType) (on : option (BoolExpr Q)) (lp rp : LogicalPlan Q) (left right : PlanNode Q)
    : res (PlanNode Q) :=
  match on with
  | None => Throw "[PhysicalPlanner] Join without ON not supported"
  | Some on =>
      Ok (match try_extract_equi_keys on (plan_tables lp) (plan_tables rp) with
          | Some (lk, rk) =>
              if merge_ok lp rp lk rk && merge_pays ch left right
              then MergeJoinPlan left right lk rk None ty true true
              else if loop_pays ch left right then NestedLoopJoinPlan left right on ty
              else HashJoinPlan left right lk rk None ty
          | None => NestedLoopJoinPlan left right on ty
          end)
  end.

(** * Aggregation *)

Definition expr_column (e : Expression) : option ColumnRef := match e with EColumn c => Some c | _ => None end.
Definition col_eq (x y : ColumnRef) : bool :=
  bool_decide (ref_name x = ref_name y) &&
  (bool_decide (ref_table x = []) || bool_decide (ref_table y = []) || bool_decide (ref_table x = ref_table y)).
Definition lists_column (v : list ColumnRef) (c : ColumnRef) : bool := existsb (fun e => col_eq e c) v.

(** The sort below can be absorbed: its keys are the grouping columns. *)
Definition sort_matches (group_by : list Expression) (keys : list LogicalSortKey) : bool :=
  match mapM expr_column group_by, mapM (fun k => expr_column (lk_expr k)) keys with
  | Some g, Some s => negb (length g =? 0)%nat && (length s =? length g)%nat && forallb (lists_column s) g && forallb (lists_column g) s
  | _, _ => false
  end.

Definition build_aggregate (group_by : list Expression) (aggs : list LogicalAggregateItem) (having : option (BoolExpr Q))
    (use_sort : bool) (child : PlanNode Q) : res (PlanNode Q) :=
  match mapM expr_column group_by with
  | None => Throw "[PhysicalPlanner] GROUP BY expression must be a column"
  | Some group =>
      Ok (AggregatePlan child group (map (fun a => mkAgg (la_func a) (la_arg a ≫= expr_column)) aggs) [] having
            (if use_sort && negb (hash_agg_pays ch child group) then SortStrategy else HashStrategy))
  end.

(** * Projection and limit *)

Definition col_to_item (c : LogicalColumn) : SelectItem :=
  mkItem (match lc_expr c with EAggregate f a => SelAgg (mkAgg f a) | e => SelExpr e end)
         (if bool_decide (lc_output c = []) then None else Some (lc_output c)).
Definition cols_to_items (cs : list LogicalColumn) : list SelectItem := map col_to_item cs.

(** An aggregate below limits and sorts. *)
Fixpoint over_aggregate (p : LogicalPlan Q) : bool :=
  match p with
  | LAggregate _ _ _ _ => true
  | LLimit _ _ c | LSort _ c => over_aggregate c
  | _ => false
  end.
Fixpoint set_projections (items : list SelectItem) (p : PlanNode Q) : PlanNode Q :=
  match p with
  | AggregatePlan c g a _ h s => AggregatePlan c g a items h s
  | LimitPlan c l o => LimitPlan (set_projections items c) l o
  | OrderByPlan c ks l o => OrderByPlan (set_projections items c) ks l o
  | _ => p
  end.
Definition build_project (cols : list LogicalColumn) (distinct : bool) (lp : LogicalPlan Q) (child : PlanNode Q) : PlanNode Q :=
  if over_aggregate lp then set_projections (cols_to_items cols) child else ProjectPlan child (cols_to_items cols) distinct.

Definition build_limit (offset limit : option Z) (child : PlanNode Q) : PlanNode Q :=
  let child := match limit, child with
               | Some _, OrderByPlan c ks _ _ => OrderByPlan c ks limit offset
               | _, _ => child
               end in
  LimitPlan child limit offset.

(** * [visit], for queries; nodes of other statements occur at the root only *)

Fixpoint visit (p : LogicalPlan Q) : res (PlanNode Q) :=
  match p with
  | LScan h alias => Ok (SeqScanPlan (th_view h) alias)
  | LFilter e c =>
      match c with
      | LScan h alias => Ok (build_scan_filter h alias e)
      | _ => child ← visit c; Ok (FilterPlan child e)
      end
  | LProject cols c d => child ← visit c; Ok (build_project cols d c child)
  | LJoin ty on l r =>
      match on with
      | None => Throw "[PhysicalPlanner] Join without ON not supported"
      | Some _ => left ← visit l; right ← visit r; build_join ty on l r left right
      end
  | LAggregate g a h c =>
      match c with
      | LSort ks c' =>
          if sort_matches g ks then child ← visit c'; build_aggregate g a h true child
          else child ← visit c; build_aggregate g a h false child
      | _ => child ← visit c; build_aggregate g a h false child
      end
  | LSort ks c =>
      child ← visit c; Ok (OrderByPlan child (map (fun k => mkOrder (SelExpr (lk_expr k)) (lk_ascending k)) ks) None None)
  | LLimit o l c => child ← visit c; Ok (build_limit o l child)
  | LValues _ => Throw "[PhysicalPlanner] LogicalValues outside DML context not supported"
  | LDml _ _ _ _ _ _ | LDdl _ => Throw "not a query"
  end.

(** * Other statements *)

Definition resolve_column_index (h : TableHandle) (c : bytes) : res nat :=
  match column_index (th_columns h) c with Some i => Ok i | None => Throw "[PhysicalPlanner] Unknown column" end.
Definition materialize_constant (e : Expression) : res Value :=
  match e with ELiteral v => Ok v | _ => Throw "[PhysicalPlanner] Only literal values supported in INSERT/Values" end.

Definition insert_row_values (n : nat) (row : list Expression) : res (list Value) :=
  if (length row =? n)%nat then mapM materialize_constant row
  else Throw "[PhysicalPlanner] INSERT columns/values size mismatch".

Definition build_dml (k : DmlKind) (h : TableHandle) (source : LogicalPlan Q) (columns : list bytes)
    (set_exprs : list Expression) (where_ : option (BoolExpr Q)) : res (DmlPlan Q) :=
  match k with
  | KInsert =>
      indexes ← (if bool_decide (columns = []) then Ok (seq 0 (length (th_columns h)))
                 else mapM (resolve_column_index h) columns);
      match source with
      | LValues rows => rs ← mapM (insert_row_values (length indexes)) rows; Ok (InsertPlan indexes rs)
      | _ => Throw "[PhysicalPlanner] DML.Insert source must be Values"
      end
  | KUpdate =>
      if (length columns =? length set_exprs)%nat then
        as_ ← mapM (fun ce => i ← resolve_column_index h ce.1; Ok (mkAssign i ce.2)) (zip columns set_exprs);
        Ok (UpdatePlan as_ where_)
      else Throw "[PhysicalPlanner] DML.Update columns/exprs mismatch"
  | KDelete => Ok (DeletePlan where_)
  end.

(** The catalog and whether the storage has a table of a name. *)
Variables (catalog : bytes -> option TableHandle) (stored : bytes -> bool).

Definition def_column (table : bytes) (c : ColumnDef) : Column :=
  mkColumn table (cd_name c) (cd_type c) 0 0 (cd_not_null c || cd_primary_key c) (cd_primary_key c).

Definition build_ddl (s : Statement Q) : res (PhysicalPlan Q) :=
  match s with
  | SCreateTable t cols =>
      match catalog t with
      | Some _ => Throw "[PhysicalPlanner] Table already exists"
      | None => if stored t then Throw "Table already exists" else Ok (CreateTablePlan t (map (def_column t) cols))
      end
  | SCreateIndex i t cols =>
      match catalog t with
      | None => Throw "[PhysicalPlanner] Unknown table"
      | Some h =>
          if forallb (fun c => bool_decide (is_Some (column_index (th_columns h) c))) cols then Ok (CreateIndexPlan h i cols)
          else Throw "[PhysicalPlanner] Unknown column for index"
      end
  | SDropTable t e => Ok (DropTablePlan t e)
  | SDropIndex i t e =>
      if bool_decide (t = []) then Ok (DropIndexPlan None i e) else
      match catalog t with
      | None => if e then Ok (DropIndexPlan None i e) else Throw "[PhysicalPlanner] Unknown table"
      | Some h => Ok (DropIndexPlan (Some h) i e)
      end
  | _ => Throw "[PhysicalPlanner] DDL form not handled by physical planner"
  end.

Definition physical_plan (p : LogicalPlan Q) : res (PhysicalPlan Q) :=
  match p with
  | LDml k h src cols es w => ModifyPlan h <$> build_dml k h src cols es w
  | LDdl s => build_ddl s
  | _ => QueryPlan <$> visit p
  end.

(** [build_physical_plan] for one statement without UNION. *)
Definition build_physical_plan (estimate : LogicalPlan Q -> Z) (s : Statement Q) : res (PhysicalPlan Q) :=
  lp ← plan catalog s;
  lp ← rule_set_apply (make_default_rules estimate) max_iterations lp;
  physical_plan lp.

(** With UNION: the arms are planned one by one. *)
Definition query_plan (p : PhysicalPlan Q) : res (PlanNode Q) :=
  match p with QueryPlan p => Ok p | _ => Throw "not a query" end.
Definition build_union_plan (estimate : LogicalPlan Q -> Z) (all : bool) (arms : list (SelectStmt Q)) : res (PlanNode Q) :=
  ps ← mapM (fun s => p ← build_physical_plan estimate (SSelect s); query_plan p) arms;
  Ok (UnionPlan ps all).
End Build.
