(* ===== verification/Folding.v ===== *)
(** Constant folding keeps the meaning of expressions and predicates, except for
    two operations that the folder computes differently from the evaluator. *)
From Stdlib Require Import ZArith Lia.
From stdpp Require Import base numbers list gmap strings.
From S2P Require Import Prelude Values Doubles Eval Session Query Logical.
Local Open Scope Z_scope.

(** * Where folder and evaluator agree *)

(** No division: the folder divides integers, the evaluator doubles. *)
Fixpoint no_division (e : Expression) : bool :=
  match e with
  | EBinary Div _ _ => false
  | EBinary _ l r => no_division l && no_division r
  | _ => true
  end.

(** For the folder NULL || s is NULL, for the evaluator it is s. *)
Fixpoint no_concat (e : Expression) : bool :=
  match e with
  | EBinary Concat _ _ => false
  | EBinary _ l r => no_concat l && no_concat r
  | _ => true
  end.
Fixpoint no_null (e : Expression) : bool :=
  match e with
  | ELiteral v => negb (is_null v)
  | EBinary _ l r => no_null l && no_null r
  | _ => true
  end.
Definition fold_safe (e : Expression) : bool := no_division e && (no_concat e || no_null e).

Fixpoint fold_safe_bool {Q} (b : BoolExpr Q) : bool :=
  let part (o : option (BoolExpr Q)) := match o with Some x => fold_safe_bool x | None => true end in
  match b with
  | BComparison (Some c) => fold_safe (cmp_lhs c) && fold_safe (cmp_rhs c)
  | BAnd l r | BOr l r => part l && part r
  | BNot l => part l
  | _ => true
  end.

(** * Values *)

Lemma int64_not_null n v : int64 n = Ok v -> is_null v = false.
Proof. unfold int64. destruct (_ && _); [|done]. by intros [= <-]. Qed.

(** A folded value is the value the evaluator computes. *)
Lemma fold_binary_value op l r v :
  fold_binary op l r = Ok (Some v) -> op <> Div -> (op = Concat -> is_null l = false /\ is_null r = false) ->
  eval_binary op l r = Ok v.
Proof.
  unfold fold_binary, eval_binary. destruct (is_null l || is_null r) eqn:N.
  - intros [= <-] _ Hc. destruct op; try done. destruct Hc as [E1 E2]; [done|]. by rewrite E1, E2 in N.
  - destruct op, l, r; cbn in *; try done; unfold int64; intros E Nd Hc; repeat case_match; try done; by injection E as <-.
Qed.

Lemma fold_binary_not_null op l r v :
  fold_binary op l r = Ok (Some v) -> is_null l = false -> is_null r = false -> is_null v = false.
Proof.
  unfold fold_binary. destruct op, l, r; cbn; try done; unfold int64; intros E _ _; repeat case_match;
    try done; by injection E as <-.
Qed.

(** * Expressions *)

Lemma fold_shape e e' :
  fold_expression e = Ok e' -> (no_null e = true -> no_null e' = true) /\ (no_concat e = true -> no_concat e' = true).
Proof.
  revert e'. induction e as [c|v|op l IHl r IHr| | | |]; intros e' E; try (by injection E as <-).
  cbn in E. destruct (fold_expression l) as [l'|w|w]; [|done..]. destruct (fold_expression r) as [r'|w|w]; [|done..].
  destruct (IHl _ eq_refl) as [N1 C1], (IHr _ eq_refl) as [N2 C2]. cbn in E.
  assert (e' = EBinary op l' r' \/ exists a b v, l' = ELiteral a /\ r' = ELiteral b /\ fold_binary op a b = Ok (Some v) /\ e' = ELiteral v) as Sh.
  { destruct l' as [|a| | | | |], r' as [|b| | | | |]; try (left; by injection E as <-).
    destruct (fold_binary op a b) as [[v|]|w|w] eqn:F; try done; injection E as <-; [right; by exists a, b, v|by left]. }
  split.
  - cbn. intros [H1 H2]%andb_prop. destruct Sh as [->|(a & b & v & -> & -> & F & ->)]; cbn; [by rewrite N1, N2|].
    apply N1, negb_true_iff in H1. apply N2, negb_true_iff in H2. by rewrite (fold_binary_not_null _ _ _ _ F).
  - intros H. assert (op <> Concat /\ no_concat l = true /\ no_concat r = true) as (No & H1 & H2).
    { destruct op; cbn in H; try done; apply andb_prop in H as [? ?]; done. }
    destruct Sh as [->|(a & b & v & -> & -> & F & ->)]; [|done]. cbn. rewrite C1, C2 by done. by destruct op.
Qed.

Lemma no_null_literal v : no_null (ELiteral v) = true -> is_null v = false.
Proof. cbn. by destruct (is_null v). Qed.

Lemma fold_eval e e' r : fold_expression e = Ok e' -> fold_safe e = true -> eval r e' = eval r e.
Proof.
  revert e'. induction e as [c|v|op l IHl x IHx| | | |]; intros e' E S; try (by injection E as <-).
  cbn in E. destruct (fold_expression l) as [l'|w|w] eqn:El; [|done..]. destruct (fold_expression x) as [x'|w|w] eqn:Ex; [|done..].
  assert (op <> Div /\ no_division l = true /\ no_division x = true) as (Nd & D1 & D2).
  { unfold fold_safe in S. apply andb_prop in S as [S _]. destruct op; cbn in S; try done; apply andb_prop in S as [? ?]; done. }
  assert (op <> Concat /\ no_concat l = true /\ no_concat x = true \/ no_null l = true /\ no_null x = true) as Cn.
  { unfold fold_safe in S. apply andb_prop in S as [_ S]. apply orb_prop in S as [S|S].
    - left. destruct op; cbn in S; try done; apply andb_prop in S as [? ?]; done.
    - right. cbn in S. by apply andb_prop in S. }
  assert (eval r l' = eval r l) as Vl.
  { apply IHl; [done|]. unfold fold_safe. rewrite D1. destruct Cn as [(_ & -> & _)|[-> _]]; by rewrite ?orb_true_r. }
  assert (eval r x' = eval r x) as Vx.
  { apply IHx; [done|]. unfold fold_safe. rewrite D2. destruct Cn as [(_ & _ & ->)|[_ ->]]; by rewrite ?orb_true_r. }
  cbn in E. cbn [eval]. rewrite <- Vl, <- Vx.
  destruct l' as [|a| | | | |], x' as [|b| | | | |]; try (by injection E as <-).
  destruct (fold_binary op a b) as [[v|]|w|w] eqn:F; try done; injection E as <-; [|done].
  cbn. symmetry. apply fold_binary_value; [done|done|]. intros ->. destruct Cn as [[? _]|[N1 N2]]; [done|].
  split; apply no_null_literal; [by apply (fold_shape _ _ El)|by apply (fold_shape _ _ Ex)].
Qed.

(** * Predicates *)

Lemma fold_comparison c l x r :
  fold_expression (cmp_lhs c) = Ok l -> fold_expression (cmp_rhs c) = Ok x ->
  fold_safe (cmp_lhs c) = true -> fold_safe (cmp_rhs c) = true ->
  eval_comparison (mkCmp l (cmp_op c) x) r = eval_comparison c r.
Proof. intros El Ex S1 S2. unfold eval_comparison. cbn. by rewrite (fold_eval _ _ r El S1), (fold_eval _ _ r Ex S2). Qed.

(** Induction over predicates, through the parts that are there. *)
Section Induction.
Context {Q : Type} (P : BoolExpr Q -> Prop).
Definition opt_all (o : option (BoolExpr Q)) : Prop := match o with Some b => P b | None => True end.
Hypotheses (Hcmp : forall c, P (BComparison c)) (Hin : forall i, P (BIn i)) (Hbtw : forall b, P (BBetween b))
  (Hand : forall l r, opt_all l -> opt_all r -> P (BAnd l r)) (Hor : forall l r, opt_all l -> opt_all r -> P (BOr l r))
  (Hnot : forall l, opt_all l -> P (BNot l)).
Fixpoint BoolExpr_parts (b : BoolExpr Q) : P b :=
  let part o := match o return opt_all o with Some b => BoolExpr_parts b | None => Logic.I end in
  match b with
  | BComparison c => Hcmp c
  | BAnd l r => Hand l r (part l) (part r)
  | BOr l r => Hor l r (part l) (part r)
  | BNot l => Hnot l (part l)
  | BIn i => Hin i
  | BBetween b => Hbtw b
  end.
End Induction.

Lemma fold_eval_bool {Q} (subq : option (Q -> Record_ -> bool -> res (list Value))) b b' r :
  fold_bool b = Ok b' -> fold_safe_bool b = true -> eval_bool subq b' r = eval_bool subq b r.
Proof.
  revert b'. induction b as [c|i|bt|l x Hl Hx|l x Hl Hx|l Hl] using BoolExpr_parts; intros b' E S; try (by injection E as <-).
  - destruct c as [c|]; [|by injection E as <-]. cbn in E, S. apply andb_prop in S as [S1 S2].
    destruct (fold_expression (cmp_lhs c)) as [l|w|w] eqn:El; [|done..]. cbn in E.
    destruct (fold_expression (cmp_rhs c)) as [x|w|w] eqn:Ex; [|done..]. injection E as <-. cbn [eval_bool]. by apply fold_comparison.
  - cbn in E, S. apply andb_prop in S as [S1 S2]. destruct l as [l|]; cbn in *.
    2: { destruct x as [x|]; cbn in E; [destruct (fold_bool x); try done|]; by injection E as <-. }
    destruct (fold_bool l) as [l'|w|w]; try done. cbn in E. destruct x as [x|]; cbn in *; [|by injection E as <-].
    destruct (fold_bool x) as [x'|w|w]; try done. injection E as <-. cbn [eval_bool]. by rewrite (Hl _ eq_refl S1), (Hx _ eq_refl S2).
  - cbn in E, S. apply andb_prop in S as [S1 S2]. destruct l as [l|]; cbn in *.
    2: { destruct x as [x|]; cbn in E; [destruct (fold_bool x); try done|]; by injection E as <-. }
    destruct (fold_bool l) as [l'|w|w]; try done. cbn in E. destruct x as [x|]; cbn in *; [|by injection E as <-].
    destruct (fold_bool x) as [x'|w|w]; try done. injection E as <-. cbn [eval_bool]. by rewrite (Hl _ eq_refl S1), (Hx _ eq_refl S2).
  - destruct l as [l|]; cbn in *; [|by injection E as <-].
    destruct (fold_bool l) as [l'|w|w]; try done. injection E as <-. cbn [eval_bool]. by rewrite (Hl _ eq_refl S).
Qed.

(** * Folding again changes nothing *)

(** The two shapes of a folded operation. *)
Lemma fold_binary_shape op l r e' :
  fold_expression (EBinary op l r) = Ok e' -> exists l' r', fold_expression l = Ok l' /\ fold_expression r = Ok r' /\
    ((exists a b v, l' = ELiteral a /\ r' = ELiteral b /\ fold_binary op a b = Ok (Some v) /\ e' = ELiteral v) \/
     (e' = EBinary op l' r' /\ forall a b, l' = ELiteral a -> r' = ELiteral b -> fold_binary op a b = Ok None)).
Proof.
  cbn. destruct (fold_expression l) as [l'|w|w]; [|done..]. destruct (fold_expression r) as [r'|w|w]; [|done..]. cbn. intros E.
  exists l', r'. split_and!; [done..|]. destruct l' as [|a| | | | |], r' as [|b| | | | |]; try (right; split; [by injection E as <-|done]).
  destruct (fold_binary op a b) as [[v|]|w|w] eqn:F; try done; injection E as <-.
  - left. by exists a, b, v.
  - right. split; [done|]. by intros ? ? [= <-] [= <-].
Qed.

Lemma fold_expression_idem e e' : fold_expression e = Ok e' -> fold_expression e' = Ok e'.
Proof.
  revert e'. induction e as [c|v|op l IHl r IHr| | | |]; intros e' E; try (by injection E as <-).
  apply fold_binary_shape in E as (l' & r' & El & Er & [(a & b & v & -> & -> & F & ->)|[-> N]]); [done|].
  cbn. rewrite (IHl _ El), (IHr _ Er). cbn. destruct l' as [|a| | | | |], r' as [|b| | | | |]; try done. by rewrite (N a b).
Qed.

Lemma fold_bool_idem {Q} (b b' : BoolExpr Q) : fold_bool b = Ok b' -> fold_bool b' = Ok b'.
Proof.
  revert b'. induction b as [c|i|bt|l x Hl Hx|l x Hl Hx|l Hl] using BoolExpr_parts; intros b' E; try (by injection E as <-).
  - destruct c as [c|]; [|by injection E as <-]. cbn in E.
    destruct (fold_expression (cmp_lhs c)) as [l|w|w] eqn:El; [|done..]. cbn in E.
    destruct (fold_expression (cmp_rhs c)) as [x|w|w] eqn:Ex; [|done..]. injection E as <-. cbn.
    by rewrite (fold_expression_idem _ _ El), (fold_expression_idem _ _ Ex).
  - cbn in E. destruct l as [l|]; cbn in *; [destruct (fold_bool l) as [l'|w|w]; try done|]; destruct x as [x|]; cbn in *;
      try (destruct (fold_bool x) as [x'|w|w]; try done); injection E as <-; cbn; rewrite ?(Hl _ eq_refl), ?(Hx _ eq_refl); done.
  - cbn in E. destruct l as [l|]; cbn in *; [destruct (fold_bool l) as [l'|w|w]; try done|]; destruct x as [x|]; cbn in *;
      try (destruct (fold_bool x) as [x'|w|w]; try done); injection E as <-; cbn; rewrite ?(Hl _ eq_refl), ?(Hx _ eq_refl); done.
  - cbn in E. destruct l as [l|]; cbn in *; [destruct (fold_bool l) as [l'|w|w]; try done|]; injection E as <-; cbn; rewrite ?(Hl _ eq_refl); done.
Qed.

Lemma fold_division e e' : fold_expression e = Ok e' -> no_division e = true -> no_division e' = true.
Proof.
  revert e'. induction e as [c|v|op l IHl r IHr| | | |]; intros e' E; try (by injection E as <-).
  apply fold_binary_shape in E as (l' & r' & El & Er & [(a & b & v & -> & -> & F & ->)|[-> N]]); [done|].
  destruct op; cbn; try done; rewrite !andb_true_iff; naive_solver.
Qed.

Lemma fold_stays_safe e e' : fold_expression e = Ok e' -> fold_safe e = true -> fold_safe e' = true.
Proof.
  intros E. unfold fold_safe. rewrite !andb_true_iff, !orb_true_iff. destruct (fold_shape e e' E). intros [D C]. split; [by eapply fold_division|naive_solver].
Qed.
