(* ===== verification/Rewrites.v ===== *)
(** The rewrite rules on queries of scans, filters and inner joins.

    A row of a query is a tuple, a finite map from the columns (table and name)
    to values; a query means a list of tuples, and the rules keep it up to the
    order of the list.  Columns are written with their table, so that the order in
    which tables are joined does not change what a reference means. *)
From Stdlib Require Import ZArith Lia.
From stdpp Require Import base numbers list gmap strings.
From S2P Require Import Prelude Values Doubles Eval Session Query Logical Folding.
Local Open Scope Z_scope.

(** * Tuples *)

#[export] Instance Binding_eq_dec : EqDecision Binding.
Proof. solve_decision. Defined.
#[export] Program Instance Binding_countable : Countable Binding :=
  inj_countable' (fun b => (b_table b, b_column b)) (fun p => mkBinding p.1 p.2) _.
Next Obligation. by intros []. Qed.

Abbreviation tuple := (gmap Binding Value).

Definition rec_pairs (r : Record_) : list (Binding * Value) := zip (rec_bindings r) (rec_values r).
Definition tuple_of (r : Record_) : tuple := list_to_map (rec_pairs r).
(** Some record of a tuple. *)
Definition of_tuple (m : tuple) : Record_ := mkRecord (map_to_list m).*2 (map_to_list m).*1.
Definition sized (r : Record_) : Prop := length (rec_values r) = length (rec_bindings r).
Definition ref_binding (c : ColumnRef) : Binding := mkBinding (ref_table c) (ref_name c).
Definition qualified (c : ColumnRef) : bool := negb (bool_decide (ref_table c = [])).

Lemma pairs_of_tuple m : rec_pairs (of_tuple m) = map_to_list m.
Proof. apply zip_fst_snd. Qed.
Lemma tuple_of_of m : tuple_of (of_tuple m) = m.
Proof. unfold tuple_of. rewrite pairs_of_tuple. apply list_to_map_to_list. Qed.
Lemma sized_of m : sized (of_tuple m).
Proof. unfold sized, of_tuple. cbn. by rewrite !length_fmap. Qed.

Lemma tuple_of_merge l r : sized l -> tuple_of (merge_rows l r) = tuple_of l ∪ tuple_of r.
Proof.
  intros S. unfold tuple_of, rec_pairs. cbn. rewrite zip_with_app by done. apply list_to_map_app.
Qed.

Lemma sized_merge l r : sized l -> sized r -> sized (merge_rows l r).
Proof. unfold sized. cbn. rewrite !length_app. lia. Qed.

(** The value of a qualified reference. *)
Definition tuple_ref (m : tuple) (c : ColumnRef) : res Value :=
  match m !! ref_binding c with Some v => Ok v | None => Throw "[Executor] Column not found" end.

Lemma lookup_tuple r c : sized r -> qualified c = true -> lookup_ref r c = tuple_ref (tuple_of r) c.
Proof.
  unfold sized, lookup_ref, tuple_ref, tuple_of, rec_pairs, qualified. destruct r as [vs bs]. cbn [rec_values rec_bindings].
  intros L Hq. rewrite negb_true_iff in Hq. rewrite Hq. cbn [orb].
  revert vs L. induction bs as [|b bs IH]; intros [|v vs] L; try done. cbn [find_binding zip_with].
  destruct (decide (b = ref_binding c)) as [->|N].
  - cbn. rewrite !bool_decide_true by done. cbn. by rewrite lookup_insert_eq.
  - assert (bool_decide (b_table b = ref_table c) && bool_decide (b_column b = ref_name c) = false) as ->.
    { apply not_true_iff_false. intros [H1%bool_decide_eq_true H2%bool_decide_eq_true]%andb_prop. destruct N, b. unfold ref_binding. cbn in *. congruence. }
    rewrite list_to_map_cons, lookup_insert_ne by done. cbn [tail]. apply IH. by injection L.
Qed.

(** * Expressions over given references *)

Section Refs.
Variable P : ColumnRef -> bool.
Fixpoint expr_ok (e : Expression) : bool :=
  match e with
  | EColumn c => P c
  | EBinary _ l r => expr_ok l && expr_ok r
  | EFunction _ args => forallb expr_ok args
  | EAggregate _ _ => false
  | ELiteral _ | EBinaryNull | EFunctionNull => true
  end.
(** Every part is there and there is no subquery. *)
Fixpoint bool_ok {Q} (b : BoolExpr Q) : bool :=
  let part (o : option (BoolExpr Q)) := match o with Some x => bool_ok x | None => false end in
  match b with
  | BComparison (Some c) => expr_ok (cmp_lhs c) && expr_ok (cmp_rhs c)
  | BAnd l r | BOr l r => part l && part r
  | BNot l => part l
  | BIn (Some i) => expr_ok (in_expr i) && forallb expr_ok (in_values i) && bool_decide (is_Some (in_subquery i) -> False)
  | BBetween (Some b) => expr_ok (btw_expr b) && expr_ok (btw_low b) && expr_ok (btw_high b)
  | _ => false
  end.
End Refs.

Section ExprInduction.
Variable P : Expression -> Prop.
Hypotheses (Hcol : forall c, P (EColumn c)) (Hlit : forall v, P (ELiteral v))
  (Hbin : forall op l r, P l -> P r -> P (EBinary op l r)) (Hbn : P EBinaryNull)
  (Hagg : forall f a, P (EAggregate f a)) (Hfun : forall f args, Forall P args -> P (EFunction f args)) (Hfn : P EFunctionNull).
Fixpoint Expression_all (e : Expression) : P e :=
  match e with
  | EColumn c => Hcol c
  | ELiteral v => Hlit v
  | EBinary op l r => Hbin op l r (Expression_all l) (Expression_all r)
  | EBinaryNull => Hbn
  | EAggregate f a => Hagg f a
  | EFunction f args => Hfun f args ((fix go l : Forall P l := match l with
                                       | [] => Forall_nil_2 P
                                       | x :: l => Forall_cons_2 P x l (Expression_all x) (go l)
                                       end) args)
  | EFunctionNull => Hfn
  end.
End ExprInduction.

(** The records agree on the references of an expression. *)
Lemma eval_agree (P : ColumnRef -> bool) r r' e :
  (forall c, P c = true -> lookup_ref r c = lookup_ref r' c) -> expr_ok P e = true -> eval r e = eval r' e.
Proof.
  intros A. induction e as [c|v|op l x IHl IHx| |f a|f args IH|] using Expression_all; cbn; intros O; try done.
  - by apply A.
  - apply andb_prop in O as [O1 O2]. by rewrite IHl, IHx.
  - f_equal. induction IH as [|e es He _ IH]; [done|]. cbn in *. apply andb_prop in O as [O1 O2]. by rewrite He, IH.
Qed.

Lemma map_eval_agree (P : ColumnRef -> bool) r r' es :
  (forall c, P c = true -> lookup_ref r c = lookup_ref r' c) -> forallb (expr_ok P) es = true -> map (eval r) es = map (eval r') es.
Proof.
  intros A. induction es as [|e es IH]; [done|]. cbn. intros [O1 O2]%andb_prop. by rewrite (eval_agree P r r') , IH.
Qed.

Lemma eval_bool_agree {Q} (subq subq' : option (Q -> Record_ -> bool -> res (list Value))) (P : ColumnRef -> bool) r r' b :
  (forall c, P c = true -> lookup_ref r c = lookup_ref r' c) -> bool_ok P b = true -> eval_bool subq b r = eval_bool subq' b r'.
Proof.
  intros A. induction b as [c|i|bt|l x Hl Hx|l x Hl Hx|l Hl] using BoolExpr_parts; cbn [bool_ok]; intros O.
  - destruct c as [c|]; [|done]. apply andb_prop in O as [O1 O2]. cbn. unfold eval_comparison.
    by rewrite (eval_agree P r r' _ A O1), (eval_agree P r r' _ A O2).
  - destruct i as [i|]; [|done]. apply andb_prop in O as [[O1 O2]%andb_prop O3%bool_decide_eq_true]. cbn. unfold eval_in.
    destruct (in_subquery i) as [q|]; [destruct (O3 (mk_is_Some _ _ eq_refl))|].
    by rewrite (eval_agree P r r' _ A O1), (map_eval_agree P r r' _ A O2).
  - destruct bt as [bt|]; [|done]. apply andb_prop in O as [[O1 O2]%andb_prop O3]. cbn. unfold eval_between.
    by rewrite (eval_agree P r r' _ A O1), (eval_agree P r r' _ A O2), (eval_agree P r r' _ A O3).
  - destruct l as [l|], x as [x|]; cbn in *; rewrite ?andb_false_r in O; try done. apply andb_prop in O as [O1 O2]. by rewrite Hl, Hx.
  - destruct l as [l|], x as [x|]; cbn in *; rewrite ?andb_false_r in O; try done. apply andb_prop in O as [O1 O2]. by rewrite Hl, Hx.
  - destruct l as [l|]; cbn in *; [|done]. by rewrite Hl.
Qed.

Lemma expr_ok_weaken (P P' : ColumnRef -> bool) e :
  (forall c, P c = true -> P' c = true) -> expr_ok P e = true -> expr_ok P' e = true.
Proof.
  intros W. induction e as [c|v|op l x IHl IHx| |f a|f args IH|] using Expression_all; cbn; auto.
  - rewrite !andb_true_iff. naive_solver.
  - induction IH as [|e es He _ IH]; [done|]. cbn. rewrite !andb_true_iff. naive_solver.
Qed.

Lemma bool_ok_weaken (P P' : ColumnRef -> bool) {Q} (b : BoolExpr Q) :
  (forall c, P c = true -> P' c = true) -> bool_ok P b = true -> bool_ok P' b = true.
Proof.
  intros W. pose proof (fun e => expr_ok_weaken P P' e W) as We.
  assert (forall es, forallb (expr_ok P) es = true -> forallb (expr_ok P') es = true) as Ws.
  { induction es as [|e es IH]; [done|]. cbn. rewrite !andb_true_iff. naive_solver. }
  induction b as [c|i|bt|l x Hl Hx|l x Hl Hx|l Hl] using BoolExpr_parts; cbn [bool_ok].
  - destruct c; [|done]. rewrite !andb_true_iff. naive_solver.
  - destruct i; [|done]. rewrite !andb_true_iff. naive_solver.
  - destruct bt; [|done]. rewrite !andb_true_iff. naive_solver.
  - destruct l, x; cbn in *; rewrite ?andb_false_r, ?andb_true_iff; naive_solver.
  - destruct l, x; cbn in *; rewrite ?andb_false_r, ?andb_true_iff; naive_solver.
  - destruct l; cbn in *; naive_solver.
Qed.

(** Folding keeps the references. *)
Lemma fold_expr_ok (P : ColumnRef -> bool) e e' : fold_expression e = Ok e' -> expr_ok P e' = expr_ok P e.
Proof.
  revert e'. induction e as [c|v|op l IHl r IHr| | | |]; intros e' E; try (by injection E as <-).
  apply fold_binary_shape in E as (l' & r' & El & Er & [(a & b & v & -> & -> & F & ->)|[-> N]]); cbn;
    by rewrite <- (IHl _ El), <- (IHr _ Er).
Qed.

Lemma fold_expr_tables e e' : fold_expression e = Ok e' -> expr_tables e' = expr_tables e.
Proof.
  revert e'. induction e as [c|v|op l IHl r IHr| | | |]; intros e' E; try (by injection E as <-).
  apply fold_binary_shape in E as (l' & r' & El & Er & [(a & b & v & -> & -> & F & ->)|[-> N]]); cbn;
    by rewrite <- (IHl _ El), <- (IHr _ Er).
Qed.

(** What folding makes of a predicate, part by part. *)
Inductive folds_to {Q} : BoolExpr Q -> BoolExpr Q -> Prop :=
| folds_cmp c l r : fold_expression (cmp_lhs c) = Ok l -> fold_expression (cmp_rhs c) = Ok r ->
    folds_to (BComparison (Some c)) (BComparison (Some (mkCmp l (cmp_op c) r)))
| folds_and l r l' r' : folds_to l l' -> folds_to r r' -> folds_to (BAnd (Some l) (Some r)) (BAnd (Some l') (Some r'))
| folds_or l r l' r' : folds_to l l' -> folds_to r r' -> folds_to (BOr (Some l) (Some r)) (BOr (Some l') (Some r'))
| folds_not l l' : folds_to l l' -> folds_to (BNot (Some l)) (BNot (Some l'))
| folds_in i : folds_to (BIn i) (BIn i)
| folds_between b : folds_to (BBetween b) (BBetween b).

Lemma fold_bool_folds {Q} (P : ColumnRef -> bool) (b b' : BoolExpr Q) : fold_bool b = Ok b' -> bool_ok P b = true -> folds_to b b'.
Proof.
  revert b'. induction b as [c|i|bt|l x Hl Hx|l x Hl Hx|l Hl] using BoolExpr_parts; intros b' E; cbn [bool_ok].
  - destruct c as [c|]; [|done]. cbn in E. destruct (fold_expression (cmp_lhs c)) as [l|w|w] eqn:El; [|done..]. cbn in E.
    destruct (fold_expression (cmp_rhs c)) as [x|w|w] eqn:Ex; [|done..]. injection E as <-. by constructor.
  - injection E as <-. constructor.
  - injection E as <-. constructor.
  - destruct l as [l|], x as [x|]; rewrite ?andb_false_r; try done. cbn in *. intros [O1 O2]%andb_prop.
    destruct (fold_bool l) as [l'|w|w]; try done. cbn in E. destruct (fold_bool x) as [x'|w|w]; try done. injection E as <-. constructor; auto.
  - destruct l as [l|], x as [x|]; rewrite ?andb_false_r; try done. cbn in *. intros [O1 O2]%andb_prop.
    destruct (fold_bool l) as [l'|w|w]; try done. cbn in E. destruct (fold_bool x) as [x'|w|w]; try done. injection E as <-. constructor; auto.
  - destruct l as [l|]; try done. cbn in *. intros O1. destruct (fold_bool l) as [l'|w|w]; try done. injection E as <-. constructor; auto.
Qed.

Section FoldsTo.
Context {Q : Type} (P : ColumnRef -> bool).
Implicit Types b : BoolExpr Q.

Lemma folds_ok b b' : folds_to b b' -> bool_ok P b' = bool_ok P b.
Proof.
  induction 1 as [c l r El Er|? ? ? ? _ IH1 _ IH2|? ? ? ? _ IH1 _ IH2|? ? _ IH| |]; cbn; try congruence.
  by rewrite (fold_expr_ok P _ _ El), (fold_expr_ok P _ _ Er).
Qed.
Lemma folds_tables b b' : folds_to b b' -> bool_tables b' = bool_tables b.
Proof.
  induction 1 as [c l r El Er|? ? ? ? _ IH1 _ IH2|? ? ? ? _ IH1 _ IH2|? ? _ IH| |]; cbn; try congruence.
  by rewrite (fold_expr_tables _ _ El), (fold_expr_tables _ _ Er).
Qed.
Lemma folds_safe b b' : folds_to b b' -> fold_safe_bool b = true -> fold_safe_bool b' = true.
Proof.
  induction 1 as [c l r El Er| | | | |]; cbn; rewrite ?andb_true_iff; try naive_solver.
  intros [? ?]. split; by eapply fold_stays_safe.
Qed.
Lemma folds_fold b b' : folds_to b b' -> fold_bool b = Ok b'.
Proof.
  induction 1 as [c l r El Er|? ? ? ? _ IH1 _ IH2|? ? ? ? _ IH1 _ IH2|? ? _ IH| |]; cbn; [by rewrite El; cbn; rewrite Er|..];
    rewrite ?IH1, ?IH2, ?IH; done.
Qed.
Lemma folds_split b b' : folds_to b b' -> Forall2 folds_to (split_and b) (split_and b').
Proof.
  intros H. assert (forall c c' : BoolExpr Q, folds_to c c' -> Forall2 folds_to [c] [c']) as One.
  { intros c c' Hc. constructor; [exact Hc|constructor]. }
  induction H as [c l r El Er|l r l' r' H1 IH1 H2 IH2| | | |]; try (apply One; by constructor). cbn. by apply Forall2_app.
Qed.
End FoldsTo.

(** * Queries *)

Abbreviation leaf := (TableHandle * bytes)%type.
Definition leaf_name (x : leaf) : bytes := binding_name (th_view x.1) x.2.
(** The names that the rules take for those of the table. *)
Definition leaf_names (x : leaf) : list bytes := plan_tables (Q := unit) (LScan x.1 x.2).
Definition leaf_columns (x : leaf) : list Binding := table_bindings (th_view x.1) x.2.

(** No reference to one of the tables can be taken for one to the other. *)
Definition apart (x y : leaf) : Prop := leaf_name x ∉ leaf_names y /\ leaf_name y ∉ leaf_names x.

Definition in_scope (bs : list Binding) (c : ColumnRef) : bool := qualified c && bool_decide (ref_binding c ∈ bs).

Lemma in_scope_incl bs bs' c : (forall b, b ∈ bs -> b ∈ bs') -> in_scope bs c = true -> in_scope bs' c = true.
Proof. unfold in_scope. rewrite !andb_true_iff, !bool_decide_eq_true. naive_solver. Qed.

Lemma leaf_columns_table x b : b ∈ leaf_columns x -> b_table b = leaf_name x.
Proof. unfold leaf_columns, table_bindings. intros (c & -> & _)%list_elem_of_fmap. done. Qed.

(** The pairs of tuples, joined. *)
Definition cross (ls rs : list tuple) : list tuple := concat (map (fun l => map (union l) rs) ls).

Lemma elem_cross ls rs m : m ∈ cross ls rs <-> exists l r, l ∈ ls /\ r ∈ rs /\ m = l ∪ r.
Proof.
  unfold cross. rewrite list_elem_of_In, in_concat. setoid_rewrite in_map_iff. split.
  - intros (x & (l & <- & Hl) & (r & <- & Hr)%in_map_iff). exists l, r. by rewrite !list_elem_of_In.
  - intros (l & r & Hl & Hr & ->). exists (map (union l) rs). split; [exists l; split; [done|by apply list_elem_of_In]|].
    apply in_map_iff. exists r. split; [done|by apply list_elem_of_In].
Qed.

Section Trees.
Context {Q : Type}.
(** The tuples of a scan. *)
Variable rows_of : leaf -> list tuple.
(** What else is known of the conjuncts of filters and of join conditions. *)
Variables Good GoodOn : BoolExpr Q -> Prop.
Implicit Types (p : LogicalPlan Q) (e c : BoolExpr Q).

Definition truth e (m : tuple) : bool := match eval_bool None e (of_tuple m) with Ok SqlTrue => true | _ => false end.
Definition truths (cs : list (BoolExpr Q)) (m : tuple) : bool := forallb (fun c => truth c m) cs.

(** ** What a query means *)
Fixpoint meaning p : list tuple :=
  match p with
  | LScan h alias => rows_of (h, alias)
  | LFilter e c => List.filter (truth e) (meaning c)
  | LJoin Inner (Some on) l r => List.filter (truth on) (cross (meaning l) (meaning r))
  | _ => []
  end.

Fixpoint leaves p : list leaf :=
  match p with
  | LScan h alias => [(h, alias)]
  | LJoin _ _ l r => leaves l ++ leaves r
  | LFilter _ c => leaves c
  | _ => []
  end.
Definition columns p : list Binding := concat (map leaf_columns (leaves p)).

(** The tables a conjunct shows to the rule are those of all its references, or
    it shows none. *)
Definition visible c : bool :=
  bool_decide (bool_tables c = []) || bool_ok (fun x => bool_decide (ref_table x ∈ bool_tables c)) c.

Record pred_ok (G : BoolExpr Q -> Prop) (bs : list Binding) e : Prop := {
  po_scope : bool_ok (in_scope bs) e = true;
  po_safe : fold_safe_bool e = true;
  po_folds : exists e', fold_bool e = Ok e';
  po_good : G e
}.
Definition conj_ok (bs : list Binding) c : Prop := pred_ok Good bs c /\ visible c = true.
Definition separate p p' : Prop := forall x y, x ∈ leaves p -> y ∈ leaves p' -> apart x y.

Fixpoint tree_ok p : Prop :=
  match p with
  | LScan h alias => forall m, m ∈ rows_of (h, alias) -> dom m = list_to_set (leaf_columns (h, alias))
  | LFilter e c => tree_ok c /\ Forall (conj_ok (columns c)) (split_and e)
  | LJoin Inner (Some on) l r => tree_ok l /\ tree_ok r /\ separate l r /\ pred_ok GoodOn (columns l ++ columns r) on
  | _ => False
  end.

Lemma columns_join ty on l r : columns (LJoin ty on l r) = columns l ++ columns r.
Proof. unfold columns. cbn. by rewrite map_app, concat_app. Qed.

Lemma elem_columns p b : b ∈ columns p -> exists x, x ∈ leaves p /\ b_table b = leaf_name x.
Proof.
  unfold columns. rewrite list_elem_of_In, in_concat. intros (bs & (x & <- & Hx)%in_map_iff & Hb).
  exists x. rewrite list_elem_of_In. split; [done|]. by apply leaf_columns_table, list_elem_of_In.
Qed.

Lemma elem_plan_tables p t : tree_ok p -> t ∈ plan_tables p -> exists x, x ∈ leaves p /\ t ∈ leaf_names x.
Proof.
  induction p as [h a|e c IH| |ty on l IHl r IHr| | | | | |]; cbn; try done.
  - intros _ H. exists (h, a). split; [by left|done].
  - intros [T _] H. auto.
  - destruct ty, on; try done. intros (Tl & Tr & _ & _) [H|H]%elem_of_app.
    + destruct (IHl Tl H) as (x & Hx & ?). exists x. rewrite elem_of_app. auto.
    + destruct (IHr Tr H) as (x & Hx & ?). exists x. rewrite elem_of_app. auto.
Qed.

Lemma meaning_dom p m : tree_ok p -> m ∈ meaning p -> dom m = list_to_set (columns p).
Proof.
  revert m. induction p as [h a|e c IH| |ty on l IHl r IHr| | | | | |]; cbn [tree_ok]; try done; intros m.
  - intros H Hm. rewrite (H m Hm). unfold columns. cbn. by rewrite app_nil_r.
  - intros [T _] Hm. apply list_elem_of_In, filter_In in Hm as [Hm%list_elem_of_In _]. by apply IH.
  - destruct ty, on as [on|]; try done. intros (Tl & Tr & _ & _) Hm. cbn in Hm.
    apply list_elem_of_In, filter_In in Hm as [Hm%list_elem_of_In _]. apply elem_cross in Hm as (ml & mr & Hl & Hr & ->).
    rewrite columns_join, list_to_set_app_L, dom_union_L. by rewrite (IHl ml), (IHr mr).
Qed.

(** Names set apart give different columns. *)
Lemma separate_columns p p' b : separate p p' -> b ∈ columns p -> b ∈ columns p' -> False.
Proof.
  intros S H1 H2. apply elem_columns in H1 as (x & Hx & E1), H2 as (y & Hy & E2).
  destruct (S x y Hx Hy) as [_ N]. apply N. rewrite <- E2, E1. unfold leaf_name, binding_name, leaf_names. cbn.
  destruct (decide (x.2 = [])) as [E|E].
  - rewrite bool_decide_true by done. unfold th_name. by left.
  - rewrite !(bool_decide_false _ E). by right; left.
Qed.

(** ** Conjunctions *)

Definition atomic c : Prop := match c with BAnd (Some _) (Some _) => False | _ => True end.

Lemma split_atomic e : Forall atomic (split_and e).
Proof.
  induction e as [c|i|bt|l x Hl Hx|l x Hl Hx|l Hl] using BoolExpr_parts; try (by repeat constructor).
  destruct l, x; try (by repeat constructor). cbn in *. by apply Forall_app.
Qed.
Lemma atomic_split c : atomic c -> split_and c = [c].
Proof. destruct c as [| [] []| | | |]; done. Qed.
Lemma split_and_nil e : split_and e <> [].
Proof.
  induction e as [c|i|bt|l x Hl Hx|l x Hl Hx|l Hl] using BoolExpr_parts; try done. destruct l, x; try done. cbn.
  intros [H _]%app_nil. done.
Qed.

Lemma split_combine cs : cs <> [] -> Forall atomic cs -> split_and (combine_and cs) = cs.
Proof.
  destruct cs as [|c cs]; [done|]. intros _ [A As]%Forall_cons. cbn.
  assert (forall c, split_and (foldl (fun cur c => BAnd (Some cur) (Some c)) c cs) = split_and c ++ cs) as G.
  { clear A c. induction As as [|x xs A As IH]; intros c; cbn; [by rewrite app_nil_r|]. rewrite IH. cbn. rewrite (atomic_split x A), <- app_assoc. done. }
  by rewrite G, atomic_split.
Qed.

Lemma truth_and a b m : truth (BAnd (Some a) (Some b)) m = truth a m && truth b m.
Proof. unfold truth. cbn. by destruct (eval_bool None a _) as [[]|w|w], (eval_bool None b _) as [[]|w'|w']. Qed.

Lemma truths_one c m : truths [c] m = truth c m.
Proof. unfold truths. cbn [forallb]. apply andb_true_r. Qed.

Lemma truth_split e m : truth e m = truths (split_and e) m.
Proof.
  induction e as [c|i|bt|l x Hl Hx|l x Hl Hx|l Hl] using BoolExpr_parts; try (symmetry; apply truths_one).
  destruct l as [l|], x as [x|]; try (symmetry; apply truths_one). cbn [opt_all] in *. rewrite truth_and, Hl, Hx.
  unfold truths. cbn [split_and]. by rewrite forallb_app.
Qed.

Lemma truth_combine cs m : cs <> [] -> truth (combine_and cs) m = truths cs m.
Proof.
  destruct cs as [|c cs]; [done|]. intros _. cbn. revert c. induction cs as [|x cs IH]; intros c; cbn; [by rewrite andb_true_r|].
  rewrite IH, truth_and. cbn. by rewrite andb_assoc.
Qed.

Lemma filter_filter {A} (f g : A -> bool) l : List.filter f (List.filter g l) = List.filter (fun x => g x && f x) l.
Proof. induction l as [|x l IH]; [done|]. cbn. destruct (g x); cbn; [destruct (f x)|]; by rewrite IH. Qed.

Lemma filter_ext_elem {A} (f g : A -> bool) l : (forall x, x ∈ l -> f x = g x) -> List.filter f l = List.filter g l.
Proof. intros H. apply List.filter_ext_in. intros x Hx. by apply H, list_elem_of_In. Qed.

Lemma meaning_wrap cs p : meaning (wrap_filter cs p) = List.filter (truths cs) (meaning p).
Proof.
  unfold wrap_filter. destruct cs as [|c cs]; cbn [length].
  { rewrite bool_decide_true by done. symmetry. erewrite filter_ext_elem; [|by intros; apply (eq_refl true)]. by induction (meaning p) as [|x l IH]; cbn; [|f_equal]. }
  rewrite bool_decide_false by done. destruct p as [|e p| | | | | | | |]; cbn [meaning]; try (apply filter_ext_elem; intros; by apply truth_combine).
  rewrite filter_filter. apply filter_ext_elem. intros m _. rewrite truth_combine by (intros [_ ?]%app_nil; done).
  unfold truths. by rewrite forallb_app, truth_split.
Qed.

Lemma leaves_wrap cs p : leaves (wrap_filter cs p) = leaves p.
Proof. unfold wrap_filter. destruct (bool_decide _); [done|]. by destruct p. Qed.

Lemma tree_ok_wrap cs p : tree_ok p -> Forall atomic cs -> Forall (conj_ok (columns p)) cs -> tree_ok (wrap_filter cs p).
Proof.
  unfold wrap_filter. intros T A F. destruct (bool_decide_reflect (length cs = 0%nat)) as [E|N]; [done|].
  assert (cs <> []) as Ne by (by destruct cs).
  assert (tree_ok (LFilter (combine_and cs) p)) as G by (cbn; by rewrite split_combine).
  destruct p as [|e p| | | | | | | |]; try exact G. cbn in *. destruct T as [T Fe]. split; [done|].
  rewrite split_combine; [by apply Forall_app|by intros [_ ?]%app_nil|apply Forall_app; split; [apply split_atomic|done]].
Qed.

(** ** Pushing conjuncts down *)

Lemma truth_agree bs c m m' :
  bool_ok (in_scope bs) c = true -> (forall b, b ∈ bs -> m !! b = m' !! b) -> truth c m = truth c m'.
Proof.
  intros O A. unfold truth. rewrite (eval_bool_agree None None (in_scope bs) (of_tuple m) (of_tuple m') c); [done| |done].
  intros x [Hq Hb%bool_decide_eq_true]%andb_prop. rewrite !lookup_tuple, !tuple_of_of by (done || apply sized_of).
  unfold tuple_ref. by rewrite A.
Qed.

Lemma bool_ok_both (P P' : ColumnRef -> bool) c : bool_ok P c = true -> bool_ok P' c = true -> bool_ok (fun x => P x && P' x) c = true.
Proof.
  assert (forall e : Expression, expr_ok P e = true -> expr_ok P' e = true -> expr_ok (fun x => P x && P' x) e = true) as We.
  { induction e as [x|v|op l x IHl IHx| |f a|f args IH|] using Expression_all; cbn; auto.
    - by intros -> ->.
    - rewrite !andb_true_iff. naive_solver.
    - induction IH as [|e es He _ IH]; [done|]. cbn. rewrite !andb_true_iff. naive_solver. }
  assert (forall es : list Expression, forallb (expr_ok P) es = true -> forallb (expr_ok P') es = true ->
            forallb (expr_ok (fun x => P x && P' x)) es = true) as Ws.
  { induction es as [|e es IH]; [done|]. cbn. rewrite !andb_true_iff. naive_solver. }
  induction c as [c|i|bt|l x Hl Hx|l x Hl Hx|l Hl] using BoolExpr_parts; cbn [bool_ok].
  - destruct c; [|done]. rewrite !andb_true_iff. naive_solver.
  - destruct i; [|done]. rewrite !andb_true_iff. naive_solver.
  - destruct bt; [|done]. rewrite !andb_true_iff. naive_solver.
  - destruct l, x; cbn in *; rewrite ?andb_false_r, ?andb_true_iff; naive_solver.
  - destruct l, x; cbn in *; rewrite ?andb_false_r, ?andb_true_iff; naive_solver.
  - destruct l; cbn in *; naive_solver.
Qed.

(** A conjunct whose tables are those of one side is about that side. *)
Lemma owned_scope p p' bs c :
  tree_ok p -> separate p p' -> (forall b, b ∈ bs -> b ∈ columns p \/ b ∈ columns p') ->
  conj_ok bs c -> bool_tables c <> [] -> refs_subset_of (bool_tables c) (plan_tables p) = true -> conj_ok (columns p) c.
Proof.
  intros T S In [[Sc Sf Fo G] V] Ne R. split; [|done]. split; [|done..]. unfold visible in V. rewrite bool_decide_false in V by done. cbn in V.
  eapply bool_ok_weaken; [|exact (bool_ok_both _ _ _ Sc V)]. intros x [[Hq Hb%bool_decide_eq_true]%andb_prop Ht%bool_decide_eq_true]%andb_prop.
  unfold in_scope. rewrite Hq. apply bool_decide_eq_true. destruct (In _ Hb) as [?|Hr]; [done|]. exfalso.
  unfold refs_subset_of in R. rewrite forallb_forall in R. apply list_elem_of_In, R, bool_decide_eq_true in Ht.
  apply elem_plan_tables in Ht as (y & Hy & Ny); [|done]. apply elem_columns in Hr as (z & Hz & Ez).
  destruct (S y z Hy Hz) as [_ N]. apply N. by rewrite <- Ez.
Qed.

Lemma separate_sym p p' : separate p p' -> separate p' p.
Proof. intros S x y Hx Hy. destruct (S y x Hy Hx). by split. Qed.

Lemma side_scope l r c s :
  tree_ok l -> tree_ok r -> separate l r -> conj_ok (columns l ++ columns r) c ->
  side_of (plan_tables l) (plan_tables r) c = s ->
  match s with GoLeft => conj_ok (columns l) c | GoRight => conj_ok (columns r) c | Stay => True end.
Proof.
  intros Tl Tr S C <-. unfold side_of. destruct (bool_decide_reflect (bool_tables c = [])) as [|Ne]; [done|].
  destruct (refs_subset_of _ (plan_tables l)) eqn:E1; [|destruct (refs_subset_of _ (plan_tables r)) eqn:E2; [|done]].
  - apply (owned_scope l r (columns l ++ columns r)); try done. intros b. by rewrite elem_of_app.
  - apply (owned_scope r l (columns l ++ columns r)); try done; [by apply separate_sym|]. intros b. rewrite elem_of_app. tauto.
Qed.

Lemma on_side_scope l r cs s :
  tree_ok l -> tree_ok r -> separate l r -> Forall (conj_ok (columns l ++ columns r)) cs ->
  Forall (fun c => match s with GoLeft => conj_ok (columns l) c | GoRight => conj_ok (columns r) c | Stay => True end)
    (on_side (plan_tables l) (plan_tables r) s cs).
Proof.
  intros Tl Tr S F. apply Forall_forall. intros c [Hc E%bool_decide_eq_true]%list_elem_of_In%filter_In.
  rewrite Forall_forall in F. apply (side_scope l r c s); try done. by apply F, list_elem_of_In.
Qed.

Lemma Forall_list_filter {A} (P : A -> Prop) f l : Forall P l -> Forall P (List.filter f l).
Proof. rewrite !Forall_forall. intros H x [Hx _]%list_elem_of_In%filter_In. by apply H, list_elem_of_In. Qed.

Lemma truths_sides lt rt cs m :
  truths cs m = truths (on_side lt rt GoLeft cs) m && truths (on_side lt rt GoRight cs) m && truths (on_side lt rt Stay cs) m.
Proof.
  induction cs as [|c cs IH]; [done|]. unfold truths, on_side in *. cbn [forallb List.filter]. rewrite IH.
  assert (forall s, bool_decide (side_of lt rt c = s) = match side_of lt rt c, s with
            | GoLeft, GoLeft | GoRight, GoRight | Stay, Stay => true | _, _ => false end) as D.
  { intros s. by destruct (side_of lt rt c), s. }
  rewrite !D. destruct (side_of lt rt c); cbn [forallb]; destruct (truth c m); cbn; by rewrite ?andb_false_r.
Qed.

Lemma cross_filter (f g h : tuple -> bool) ls rs :
  (forall l r, l ∈ ls -> r ∈ rs -> h (l ∪ r) = f l && g r) -> cross (List.filter f ls) (List.filter g rs) = List.filter h (cross ls rs).
Proof.
  induction ls as [|l ls IH]; intros H; [done|]. unfold cross in *. cbn [List.filter map concat]. rewrite List.filter_app.
  rewrite <- IH by (intros; apply H; [by right|done]).
  assert (List.filter h (map (union l) rs) = if f l then map (union l) (List.filter g rs) else []) as ->.
  { assert (forall r, r ∈ rs -> h (l ∪ r) = f l && g r) as Hl by (intros; apply H; [by left|done]). clear -Hl.
    induction rs as [|r rs IH]; [by destruct (f l)|]. cbn. rewrite IH by (intros; apply Hl; by right). rewrite Hl by (by left).
    destruct (f l), (g r); done. }
  by destruct (f l).
Qed.

Lemma truths_agree bs cs m m' :
  Forall (conj_ok bs) cs -> (forall b, b ∈ bs -> m !! b = m' !! b) -> truths cs m = truths cs m'.
Proof.
  intros F A. unfold truths. induction F as [|c cs [[Sc _ _ _] _] F IH]; [done|]. cbn. rewrite IH. f_equal. by eapply truth_agree.
Qed.

(** Conjuncts of one side are those of its part of a joined tuple. *)
Lemma truths_left l cs ml mr :
  tree_ok l -> ml ∈ meaning l -> Forall (conj_ok (columns l)) cs -> truths cs (ml ∪ mr) = truths cs ml.
Proof.
  intros Tl Hl F. apply (truths_agree (columns l)); [done|]. intros b Hb. apply lookup_union_l'.
  apply elem_of_dom. rewrite (meaning_dom l ml Tl Hl). by apply elem_of_list_to_set.
Qed.
Lemma truths_right l r cs ml mr :
  tree_ok l -> separate l r -> ml ∈ meaning l -> Forall (conj_ok (columns r)) cs -> truths cs (ml ∪ mr) = truths cs mr.
Proof.
  intros Tl S Hl F. apply (truths_agree (columns r)); [done|]. intros b Hb. apply lookup_union_r.
  apply not_elem_of_dom. rewrite (meaning_dom l ml Tl Hl), elem_of_list_to_set. intros H. exact (separate_columns l r b S H Hb).
Qed.

Definition pushed p (cs : list (BoolExpr Q)) (x : LogicalPlan Q * list (BoolExpr Q) * bool) : Prop :=
  tree_ok x.1.1 /\ leaves x.1.1 = leaves p /\ Forall atomic x.1.2 /\ Forall (conj_ok (columns p)) x.1.2 /\
  List.filter (truths x.1.2) (meaning x.1.1) = List.filter (truths cs) (meaning p).

Lemma pushed_wrap p cs x :
  pushed p cs x -> tree_ok (wrap_filter x.1.2 x.1.1) /\ leaves (wrap_filter x.1.2 x.1.1) = leaves p /\
    meaning (wrap_filter x.1.2 x.1.1) = List.filter (truths cs) (meaning p).
Proof.
  intros (T & L & A & F & M). rewrite leaves_wrap, meaning_wrap. split_and!; [|done..]. apply tree_ok_wrap; [done|done|].
  unfold columns in *. by rewrite L.
Qed.

Lemma separate_leaves l r l' r' : leaves l' = leaves l -> leaves r' = leaves r -> separate l r -> separate l' r'.
Proof. unfold separate. by intros -> ->. Qed.
Lemma columns_leaves p p' : leaves p' = leaves p -> columns p' = columns p.
Proof. unfold columns. by intros ->. Qed.

Lemma filter_truths_nil ms : List.filter (truths []) ms = ms.
Proof. induction ms as [|m ms IH]; [done|]. cbn. by rewrite IH. Qed.

Lemma push_through_ok p cs :
  tree_ok p -> Forall atomic cs -> Forall (conj_ok (columns p)) cs -> pushed p cs (push_through p cs).
Proof.
  revert cs. induction p as [h a|e p IH| |ty on l IHl r IHr| | | | | |]; intros cs T A F; try done;
    (destruct (bool_decide (length cs = 0%nat)) eqn:E0;
     [apply bool_decide_eq_true, nil_length_inv in E0 as ->; done|]); cbn [push_through]; rewrite E0.
  - by split_and!.
  - cbn in T. destruct T as [T Fe]. unfold pushed. cbn [fst snd tree_ok leaves meaning].
    assert (split_and e ++ cs <> []) as Ne by (intros [? _]%app_nil; by eapply split_and_nil).
    assert (Forall atomic (split_and e ++ cs)) as Aa by (apply Forall_app; split; [apply split_atomic|done]).
    rewrite (split_combine _ Ne Aa).
    split_and!; try done; [by apply Forall_app|]. rewrite filter_truths_nil, filter_filter. apply filter_ext_elem. intros m _.
    rewrite truth_combine, truth_split by done. unfold truths. by rewrite forallb_app.
  - cbn in T. destruct ty, on as [on|]; try done. destruct T as (Tl & Tr & S & Po). rewrite columns_join in F.
    set (lt := plan_tables l). set (rt := plan_tables r).
    assert (forall (s : Side) q, match s with GoLeft => q = l | GoRight => q = r | Stay => False end ->
      let d := on_side lt rt s cs in
      let q' := if bool_decide (length d = 0%nat) then q else (let '(c', still, ch) := push_through q d in (wrap_filter still c', still, ch)).1.1 in
      tree_ok q' /\ leaves q' = leaves q /\ meaning q' = List.filter (truths d) (meaning q)) as Each.
    { intros s q Hq d q'. assert (tree_ok q /\ Forall (conj_ok (columns q)) d) as [Tq Fd].
      { pose proof (on_side_scope l r cs s Tl Tr S F) as Fs. destruct s; [subst q; by split..|done]. }
      unfold q'. destruct (bool_decide_reflect (length d = 0%nat)) as [Ed%nil_length_inv|N]; [rewrite Ed; split_and!; try done; by rewrite filter_truths_nil|].
      assert (pushed q d (push_through q d)) as Pq.
      { destruct s; [subst q; apply IHl|subst q; apply IHr|done]; try done; by apply Forall_list_filter. }
      apply pushed_wrap in Pq. by destruct (push_through q d) as [[c' still] ch]. }
    destruct (Each GoLeft l eq_refl) as (Tl' & Ll & Ml), (Each GoRight r eq_refl) as (Tr' & Lr & Mr). clear Each. cbv zeta in *.
    set (l' := if bool_decide (length (on_side lt rt GoLeft cs) = 0%nat) then _ else _) in *.
    set (r' := if bool_decide (length (on_side lt rt GoRight cs) = 0%nat) then _ else _) in *.
    unfold pushed. cbn [fst snd tree_ok leaves meaning]. rewrite columns_join, (columns_leaves l l' Ll), (columns_leaves r r' Lr), Ll, Lr.
    split_and!; try done; [by eapply separate_leaves|by apply Forall_list_filter|by apply Forall_list_filter|].
    rewrite Ml, Mr, (cross_filter _ _ (fun m => truths (on_side lt rt GoLeft cs) m && truths (on_side lt rt GoRight cs) m)).
    + rewrite !filter_filter. apply filter_ext_elem. intros m _. rewrite (truths_sides lt rt cs m).
      by destruct (truth on m), (truths (on_side lt rt GoLeft cs) m), (truths (on_side lt rt GoRight cs) m).
    + intros ml mr Hl Hr. f_equal.
      * apply (truths_left l); [done..|]. exact (on_side_scope l r cs GoLeft Tl Tr S F).
      * apply (truths_right l r); [done..|]. exact (on_side_scope l r cs GoRight Tl Tr S F).
Qed.

Lemma pushdown_ok p :
  tree_ok p -> tree_ok (predicate_pushdown p).1 /\ leaves (predicate_pushdown p).1 = leaves p /\
    meaning (predicate_pushdown p).1 = meaning p.
Proof.
  induction p as [h a|e p IH| |ty on l IHl r IHr| | | | | |]; cbn [predicate_pushdown]; intros T; try done.
  - cbn in T. destruct T as [T F]. destruct (IH T) as (T1 & L1 & M1). destruct (predicate_pushdown p) as [c1 ch1]. cbn [fst] in *.
    pose proof (push_through_ok c1 (split_and e) T1 (split_atomic e)) as P. rewrite (columns_leaves _ _ L1) in P. specialize (P F).
    apply pushed_wrap in P. destruct (push_through c1 (split_and e)) as [[c2 stay] ch2]. cbn [fst snd] in *.
    destruct P as (T2 & L2 & M2). rewrite L2, M2, M1. split_and!; [done|done|]. cbn. apply filter_ext_elem. intros m _. symmetry. apply truth_split.
  - cbn in T. destruct ty, on as [on|]; try done. destruct T as (Tl & Tr & S & Po).
    destruct (IHl Tl) as (Tl' & Ll & Ml), (IHr Tr) as (Tr' & Lr & Mr).
    destruct (predicate_pushdown l) as [l' c1], (predicate_pushdown r) as [r' c2]. cbn [fst] in *. cbn [tree_ok leaves meaning].
    rewrite (columns_leaves l l' Ll), (columns_leaves r r' Lr), Ll, Lr, Ml, Mr. split_and!; try done. by eapply separate_leaves.
Qed.

(** ** Folding *)

Definition kept_by_folding (G : BoolExpr Q -> Prop) : Prop :=
  forall e e', G e -> fold_safe_bool e = true -> folds_to e e' -> G e'.
Hypotheses (Good_fold : kept_by_folding Good) (GoodOn_fold : kept_by_folding GoodOn).

Lemma pred_folds G bs e : pred_ok G bs e -> exists e', folds_to e e'.
Proof. intros [Sc _ [e' Fo] _]. exists e'. by eapply fold_bool_folds. Qed.

Lemma pred_ok_fold G bs e e' : kept_by_folding G -> pred_ok G bs e -> folds_to e e' -> pred_ok G bs e'.
Proof.
  intros K [Sc Sf _ Ge] F. pose proof (folds_fold e e' F) as E.
  split; [by rewrite (folds_ok _ _ _ F)|by eapply folds_safe|exists e'; by eapply fold_bool_idem|by eapply K].
Qed.

Lemma conj_ok_fold bs c c' : conj_ok bs c -> folds_to c c' -> conj_ok bs c'.
Proof.
  intros [P V] F. split; [by eapply pred_ok_fold|]. unfold visible in *. rewrite (folds_tables _ _ F).
  destruct (bool_decide _); [done|]. cbn in *. by rewrite (folds_ok _ _ _ F).
Qed.

Lemma truth_fold e e' m : folds_to e e' -> fold_safe_bool e = true -> truth e' m = truth e m.
Proof. intros F S. unfold truth. by rewrite (fold_eval_bool None e e' _ (folds_fold _ _ F) S). Qed.

Lemma truths_fold bs cs cs' m : Forall2 folds_to cs cs' -> Forall (conj_ok bs) cs -> truths cs' m = truths cs m.
Proof.
  intros H F. unfold truths. induction H as [|c c' cs cs' Hc _ IH]; [done|]. apply Forall_cons in F as [[[_ S _ _] _] F].
  cbn. by rewrite (truth_fold c c' m), IH.
Qed.

Lemma split_folds bs e : Forall (conj_ok bs) (split_and e) -> exists e', folds_to e e'.
Proof.
  induction e as [c|i|bt|l x Hl Hx|l x Hl Hx|l Hl] using BoolExpr_parts; cbn [split_and]; intros F;
    try (apply Forall_singleton in F as [F _]; by eapply pred_folds).
  destruct l as [l|], x as [x|]; try (apply Forall_singleton in F as [F _]; by eapply pred_folds).
  apply Forall_app in F as [F1 F2]. destruct (Hl F1) as [l' ?], (Hx F2) as [x' ?]. eexists. by constructor.
Qed.

Lemma fold_tree p :
  tree_ok p -> exists p' ch, constant_folding p = Ok (p', ch) /\ tree_ok p' /\ leaves p' = leaves p /\ meaning p' = meaning p.
Proof.
  induction p as [h a|e p IH| |ty on l IHl r IHr| | | | | |]; cbn [tree_ok]; intros T; try done.
  - by eexists _, _.
  - destruct T as [T F]. destruct (IH T) as (p' & ch & Ep & T' & L' & M'). destruct (split_folds _ e F) as [e' Fe].
    cbn [constant_folding]. unfold folded_bool. rewrite (folds_fold _ _ Fe). cbn. rewrite Ep. cbn. eexists _, _. split; [reflexivity|].
    cbn [tree_ok leaves meaning]. rewrite (columns_leaves _ _ L'), M'. split_and!; [done| |done|].
    + pose proof (folds_split _ _ Fe) as S. induction S as [|c c' cs cs' Hc _ IHs]; [constructor|].
      apply Forall_cons in F as [F1 F2]. constructor; [by eapply conj_ok_fold|auto].
    + apply filter_ext_elem. intros m _. rewrite !truth_split. by eapply truths_fold, F; apply folds_split.
  - destruct ty, on as [on|]; try done. destruct T as (Tl & Tr & S & Po).
    destruct (IHl Tl) as (l' & c1 & El & Tl' & Ll & Ml), (IHr Tr) as (r' & c2 & Er & Tr' & Lr & Mr).
    destruct (pred_folds _ _ _ Po) as [on' Fo]. cbn [constant_folding folded_opt]. unfold folded_bool. rewrite (folds_fold _ _ Fo). cbn.
    rewrite El. cbn. rewrite Er. cbn. eexists _, _. split; [reflexivity|]. cbn [tree_ok leaves meaning].
    rewrite (columns_leaves l l' Ll), (columns_leaves r r' Lr), Ll, Lr, Ml, Mr. split_and!; try done.
    + by eapply separate_leaves.
    + by eapply pred_ok_fold.
    + apply filter_ext_elem. intros m _. eapply truth_fold, Po. done.
Qed.

(** ** The rules that have nothing to do *)

Lemma prune_tree n p : tree_ok p -> column_pruning n p = (p, false).
Proof.
  revert n. induction p as [h a|e p IH| |ty on l IHl r IHr| | | | | |]; intros n T; try done; cbn.
  - rewrite IH; [done|]. apply T.
  - cbn in T. destruct ty, on; try done. destruct T as (Tl & Tr & _). by rewrite IHl, IHr.
Qed.

Lemma merge_tree p : tree_ok p -> projection_merge p = (p, false).
Proof.
  induction p as [h a|e p IH| |ty on l IHl r IHr| | | | | |]; intros T; try done; cbn.
  - rewrite IH; [done|]. apply T.
  - cbn in T. destruct ty, on; try done. destruct T as (Tl & Tr & _). by rewrite IHl, IHr.
Qed.

(** ** Reordering *)

Lemma perm_filter {A} (f : A -> bool) (l l' : list A) : l ≡ₚ l' -> List.filter f l ≡ₚ List.filter f l'.
Proof.
  induction 1 as [|x l l' H IH|x y l|l1 l2 l3 H1 IH1 H2 IH2]; cbn; [done|by destruct (f x); rewrite ?IH|destruct (f x), (f y); try done; apply Permutation_swap|by etransitivity].
Qed.

Lemma cross_cons_r ls r rs : cross ls (r :: rs) ≡ₚ map (fun l => l ∪ r) ls ++ cross ls rs.
Proof.
  unfold cross. induction ls as [|l ls IH]; [done|]. cbn. apply Permutation_cons; [done|]. rewrite IH. rewrite !app_assoc.
  apply Permutation_app; [apply Permutation_app_comm|done].
Qed.

Lemma cross_comm ls rs : (forall l r, l ∈ ls -> r ∈ rs -> l ∪ r = r ∪ l) -> cross rs ls ≡ₚ cross ls rs.
Proof.
  revert rs. induction ls as [|l ls IH]; intros rs H.
  - unfold cross. cbn. induction rs; [done|]. cbn. apply IHrs. intros ? ? ?%elem_of_nil. done.
  - rewrite cross_cons_r, IH by (intros; apply H; [by right|done]). change (cross (l :: ls) rs) with (map (union l) rs ++ cross ls rs).
    apply Permutation_app; [|done]. apply Permutation_refl'. apply map_ext_in. intros r Hr%list_elem_of_In. symmetry. apply H; [by left|done].
Qed.

Lemma cross_perm ls ls' rs rs' : ls ≡ₚ ls' -> rs ≡ₚ rs' -> cross ls rs ≡ₚ cross ls' rs'.
Proof.
  intros Hl Hr. unfold cross. transitivity (concat (map (fun l => map (union l) rs') ls)).
  - induction ls as [|l ls IH] in ls', Hl |- *; [done|]. cbn. apply Permutation_app; [by apply Permutation_map|by eapply IH].
  - clear Hr. induction Hl as [|x l l' H IH|x y l|l1 l2 l3 H1 IH1 H2 IH2]; cbn; [done|by apply Permutation_app_head| |by etransitivity].
    rewrite !app_assoc. apply Permutation_app_tail, Permutation_app_comm.
Qed.

Lemma conj_ok_incl bs bs' c : (forall b, b ∈ bs -> b ∈ bs') -> conj_ok bs c -> conj_ok bs' c.
Proof. intros I [[Sc Sf Fo G] V]. split; [|done]. split; try done. eapply bool_ok_weaken; [|exact Sc]. intros x. by apply in_scope_incl. Qed.
Lemma pred_ok_incl G bs bs' c : (forall b, b ∈ bs -> b ∈ bs') -> pred_ok G bs c -> pred_ok G bs' c.
Proof. intros I [Sc Sf Fo Ge]. split; try done. eapply bool_ok_weaken; [|exact Sc]. intros x. by apply in_scope_incl. Qed.

Lemma columns_perm p p' : leaves p' ≡ₚ leaves p -> columns p' ≡ₚ columns p.
Proof.
  unfold columns. induction 1 as [|x l l' H IH|x y l|l1 l2 l3 H1 IH1 H2 IH2]; cbn; [done|by apply Permutation_app_head| |by etransitivity].
  rewrite !app_assoc. apply Permutation_app_tail, Permutation_app_comm.
Qed.

Lemma separate_perm l r l' r' : leaves l' ≡ₚ leaves l -> leaves r' ≡ₚ leaves r -> separate l r -> separate l' r'.
Proof. intros El Er S x y Hx Hy. apply S; [by rewrite <- El|by rewrite <- Er]. Qed.

Lemma separate_comm l r ml mr :
  tree_ok l -> tree_ok r -> separate l r -> ml ∈ meaning l -> mr ∈ meaning r -> ml ∪ mr = mr ∪ ml.
Proof.
  intros Tl Tr S Hl Hr. apply map_union_comm, map_disjoint_dom. rewrite (meaning_dom l ml Tl Hl), (meaning_dom r mr Tr Hr).
  intros b H1%elem_of_list_to_set H2%elem_of_list_to_set. exact (separate_columns l r b S H1 H2).
Qed.

Lemma reorder_tree estimate p :
  tree_ok p -> tree_ok (join_reorder estimate p).1 /\ leaves (join_reorder estimate p).1 ≡ₚ leaves p /\
    meaning (join_reorder estimate p).1 ≡ₚ meaning p.
Proof.
  induction p as [h a|e p IH| |ty on l IHl r IHr| | | | | |]; cbn [tree_ok]; intros T; try done; cbn [join_reorder].
  - destruct T as [T F]. destruct (IH T) as (T' & L' & M'). destruct (join_reorder estimate p) as [p' ch]. cbn [fst] in *.
    cbn [tree_ok leaves meaning]. split_and!; [done| |done|by apply perm_filter]. eapply Forall_impl; [exact F|].
    intros c. apply conj_ok_incl. intros b. by rewrite (columns_perm _ _ L').
  - destruct ty, on as [on|]; try done. destruct T as (Tl & Tr & S & Po).
    destruct (IHl Tl) as (Tl' & Ll & Ml), (IHr Tr) as (Tr' & Lr & Mr).
    destruct (join_reorder estimate l) as [l' c1], (join_reorder estimate r) as [r' c2]. cbn [fst] in *.
    assert (separate l' r') as S' by (by eapply separate_perm).
    assert (forall b, b ∈ columns l ++ columns r -> b ∈ columns l' ++ columns r') as I.
    { intros b. by rewrite !elem_of_app, (columns_perm _ _ Ll), (columns_perm _ _ Lr). }
    destruct (_ <? _); cbn [fst tree_ok leaves meaning].
    + split_and!; try done; [by apply separate_sym| |by rewrite Ll, Lr, Permutation_app_comm|].
      * eapply pred_ok_incl, Po. intros b Hb%I. revert Hb. rewrite !elem_of_app. tauto.
      * apply perm_filter. rewrite cross_comm; [by apply cross_perm|]. intros ml mr Hl Hr. by apply (separate_comm l' r').
    + split_and!; try done; [by eapply pred_ok_incl, Po|by rewrite Ll, Lr|]. by apply perm_filter, cross_perm.
Qed.
End Trees.
