(* ===== verification/Access.v ===== *)
(** The access paths the planner chooses: an index scan returns what the filtered
    sequential scan returns, when the values of the column can be compared with
    the literals. *)
From Stdlib Require Import ZArith Lia.
From stdpp Require Import base numbers list gmap strings.
From S2P Require Import Prelude Values Doubles Eval Session Query Scans Dml Logical Physical Folding Rewrites.
Local Open Scope Z_scope.

(** * Comparisons *)

Lemma comparable_sym v k : comparable v k -> comparable k v.
Proof. destruct v, k; cbn; try done; tauto. Qed.

(** On comparable values the order of the evaluator is that of the indexes. *)
Lemma comparable_order v k :
  comparable v k -> exists o, compare_order v k = Ok o /\ (o =? 0) = ValueEq v k /\ (o <? 0) = ValueLess v k /\
    (0 <? o) = ValueLess k v /\ is_null v = false /\ is_null k = false.
Proof.
  intros C. destruct (comparable_eq v k C) as (o & E & Eq & N1 & N2). exists o. split_and!; try done.
  all: destruct v as [|a|a|a], k as [|b|b|b]; try done; unfold ValueLess; cbn [vindex negb Z.eqb Pos.eqb].
  - destruct C as [Ha Hb]. rewrite compare_exact in E by done. injection E as <-. destruct (Z.ltb_spec a b), (Z.ltb_spec (Z.sgn (a - b)) 0); lia || done.
  - destruct C as [Ha Hb]. cbn in E. injection E as <-. by destruct (dbl_lt a b), (dbl_lt b a).
  - cbn in E. injection E as <-. by destruct (bytes_lt a b), (bytes_lt b a).
  - destruct C as [Ha Hb]. rewrite compare_exact in E by done. injection E as <-. destruct (Z.ltb_spec b a), (Z.ltb_spec 0 (Z.sgn (a - b))); lia || done.
  - destruct C as [Ha Hb]. cbn in E. unfold dbl_lt in *. rewrite Ha, Hb in *. cbn in *. injection E as <-.
    destruct (Z.ltb_spec (dbl_key a) (dbl_key b)), (Z.ltb_spec (dbl_key b) (dbl_key a)); lia || done.
  - cbn in E. injection E as <-. destruct (bytes_lt a b) eqn:L1, (bytes_lt b a) eqn:L2; try done.
    pose proof (bytes_lt_trans a b a L1 L2) as X. by rewrite bytes_lt_irrefl in X.
Qed.

(** The value of the indexed column can be compared with every key. *)
Definition fits_keys (a : IndexAccess) (v : Value) : Prop :=
  match a with
  | IdxPoint _ k => comparable v k
  | IdxRange _ lo _ hi _ => (forall k, lo = Some k -> comparable v k) /\ (forall k, hi = Some k -> comparable v k)
  | IdxIn _ ks => Forall (comparable v) ks
  | IdxComposite _ _ _ => False
  end.

(** column OP literal, as the evaluator has it *)
Lemma index_access_truth c op k a v :
  index_access c op k = Some a -> fits_keys a v ->
  exists o, compare_order v k = Ok o /\ compare_result op o = index_matches a v /\ is_null v = false /\ is_null k = false /\
    op ∈ [Eq; Lt; Le; Gt; Ge].
Proof.
  unfold index_access. destruct op; intros [= <-]; cbn [fits_keys]; intros F.
  all: try (destruct F as [F1 F2]); try pose proof (F1 _ eq_refl) as F; try pose proof (F2 _ eq_refl) as F;
    destruct (comparable_order v k F) as (o & E & Eq & Lt & Gt & N1 & N2); exists o; split_and!; try done; try set_solver;
    cbn; rewrite ?andb_true_r, <- ?Eq, <- ?Lt, <- ?Gt; try done.
  - rewrite <- Z.leb_antisym. done.
  - rewrite <- Z.leb_antisym. done.
Qed.

(** literal OP column *)
Lemma reversed_result op v k o o' :
  comparable v k -> compare_order v k = Ok o -> compare_order k v = Ok o' -> op ∈ [Eq; Lt; Le; Gt; Ge] ->
  compare_result op o' = compare_result (reverse_compare_op op) o.
Proof.
  intros C E E'. destruct (comparable_order v k C) as (x & Ex & Eq & Lt & Gt & _). rewrite E in Ex. injection Ex as <-.
  destruct (comparable_order k v (comparable_sym _ _ C)) as (x & Ex & Eq' & Lt' & Gt' & _). rewrite E' in Ex. injection Ex as <-.
  assert ((o' <? 0) = (0 <? o)) as A by congruence. assert ((0 <? o') = (o <? 0)) as B by congruence.
  intros H. repeat (apply elem_of_cons in H as [->|H]); [..|by apply elem_of_nil in H]; cbn; lia.
Qed.

Lemma in_loop_comparable v ks :
  Forall (comparable v) ks -> in_loop v (map Ok ks) false = Ok (existsb (fun k => ValueEq v k) ks, false).
Proof.
  induction 1 as [|k ks C F IH]; [done|]. cbn. destruct (comparable_order v k C) as (_ & _ & _ & _ & _ & _ & ->).
  by destruct (ValueEq v k).
Qed.

Lemma mapM_literal r es ks : mapM literal es = Some ks -> map (eval r) es = map Ok ks.
Proof.
  revert ks. induction es as [|e es IH]; intros ks E; cbn in E; [by injection E as <-|]. destruct e; try done. cbn in E.
  destruct (mapM literal es) as [ks'|]; [|done]. injection E as <-. cbn. by rewrite (IH ks' eq_refl).
Qed.

(** * Rows and tuples *)

Lemma column_value (binding : bytes) cols vs (c : ColumnRef) :
  length vs = length cols -> ref_table c = binding -> qualified c = true ->
  lookup_ref (mkRecord vs (map (fun x => mkBinding binding (col_name x)) cols)) c =
  match column_index cols (ref_name c) with
  | Some i => match vs !! i with Some v => Ok v | None => Throw "[Executor] Column not found" end
  | None => Throw "[Executor] Column not found"
  end.
Proof.
  unfold lookup_ref, qualified. intros L <- Hq. rewrite negb_true_iff in Hq. rewrite Hq. cbn [orb rec_bindings rec_values].
  revert vs L. induction cols as [|x cols IH]; intros [|v vs] L; try done. cbn [map find_binding column_index b_table b_column].
  rewrite (bool_decide_true (ref_table c = ref_table c)) by done. cbn [andb]. destruct (bool_decide (col_name x = ref_name c)); [done|].
  cbn [tail]. rewrite IH by (by injection L). by destruct (column_index cols (ref_name c)).
Qed.

Section Scan.
Context {Q : Type} (session : option Session).
Variables (h : TableHandle) (alias : bytes).
Implicit Types (e : BoolExpr Q) (row : Row).
Let view := th_view h.
Let mk row := make_record_from_row view row (binding_name view alias).

Lemma scan_sized row : length (values row) = length (th_columns h) -> sized (mk row).
Proof. intros L. unfold sized, mk, make_record_from_row. cbn. by rewrite length_fmap. Qed.

Lemma scope_table c : in_scope (leaf_columns (h, alias)) c = true ->
  qualified c = true /\ ref_table c = binding_name view alias /\ is_Some (find_column view (ref_name c)).
Proof.
  intros [Hq Hb%bool_decide_eq_true]%andb_prop. split; [done|]. pose proof (leaf_columns_table _ _ Hb) as Et. split; [exact Et|].
  unfold leaf_columns, table_bindings in Hb. apply list_elem_of_fmap in Hb as (x & Ex & Hx). injection Ex as _ En. rewrite En.
  clear -Hx. unfold find_column, view, th_columns in *. cbn in Hx. induction (tv_columns (th_view h)) as [|y cols IH]; [by apply elem_of_nil in Hx|].
  cbn. destruct (bool_decide_reflect (col_name y = col_name x)) as [|N]; [by eexists|]. apply elem_of_cons in Hx as [->|Hx]; [done|].
  destruct (IH Hx) as [i ->]. by eexists.
Qed.

Lemma scan_value row c v :
  length (values row) = length (th_columns h) -> in_scope (leaf_columns (h, alias)) c = true ->
  values row !! default O (find_column view (ref_name c)) = Some v -> lookup_ref (mk row) c = Ok v.
Proof.
  intros L S. destruct (scope_table c S) as (Hq & Et & [i Ei]). rewrite Ei. cbn. intros Ev.
  unfold mk, make_record_from_row. rewrite column_value by done. unfold find_column in Ei. unfold view in *. by rewrite Ei, Ev.
Qed.

(** The index condition is the predicate. *)
Lemma simple_access_truth e a row v :
  simple_access h e = Some a -> bool_ok (in_scope (leaf_columns (h, alias))) e = true ->
  length (values row) = length (th_columns h) ->
  values row !! default O (find_column view (index_column a)) = Some v -> fits_keys a v ->
  eval_bool None e (mk row) = Ok (sql (row_matches view a row)).
Proof.
  intros A O L Ev Fv. assert (row_matches view a row = index_matches a v) as ->.
  { unfold row_matches. destruct a; [by rewrite Ev..|done]. }
  unfold simple_access in A. destruct e as [[cmp|]| | | |[i|]|[b|]]; try done.
  - cbn [bool_ok] in O. apply andb_prop in O as [O1 O2]. cbn [eval_bool]. unfold eval_comparison. unfold comparison_access in A.
    destruct (cmp_lhs cmp) as [x|k| | | | |] eqn:El; try done; destruct (cmp_rhs cmp) as [y|k'| | | | |] eqn:Er; try done.
    + destruct (indexed h x); [|done]. assert (index_column a = ref_name x) as Ec by (unfold index_access in A; destruct (cmp_op cmp); try done; by injection A as <-).
      rewrite Ec in Ev. cbn [eval]. rewrite (scan_value row x v L O1 Ev). cbn.
      destruct (index_access_truth _ _ _ _ v A Fv) as (o & Eo & R & -> & -> & In). rewrite Eo, <- R. cbn.
      set_unfold in In. by destruct In as [->|[->|[->|[->|[->|[]]]]]].
    + destruct (indexed h y); [|done]. assert (index_column a = ref_name y) as Ec by (unfold index_access in A; destruct (cmp_op cmp); try done; by injection A as <-).
      rewrite Ec in Ev. cbn [eval]. rewrite (scan_value row y v L O2 Ev). cbn.
      destruct (index_access_truth _ _ _ _ v A Fv) as (o & Eo & R & N1 & N2 & In). rewrite N1, N2. cbn.
      assert (comparable v k) as Cv.
      { unfold index_access in A. destruct (reverse_compare_op (cmp_op cmp)); try done; injection A as <-; cbn in Fv; naive_solver. }
      destruct (comparable_order k v (comparable_sym _ _ Cv)) as (o' & Eo' & _). rewrite Eo'. cbn. rewrite <- R.
      assert (cmp_op cmp ∈ [Eq; Lt; Le; Gt; Ge]) as In' by (destruct (cmp_op cmp); cbn in In; set_solver).
      rewrite <- (reversed_result (cmp_op cmp) v k o o' Cv Eo Eo' In'). set_unfold in In'. by destruct In' as [->|[->|[->|[->|[->|[]]]]]].
  - cbn [bool_ok] in O. apply andb_prop in O as [[O1 O2]%andb_prop O3%bool_decide_eq_true]. cbn [eval_bool]. unfold eval_in, in_access in *.
    destruct (in_negated i) eqn:Ni; [done|]. destruct (in_expr i) as [x| | | | | |]; try done. destruct (in_subquery i) as [q|]; [destruct (O3 (mk_is_Some _ _ eq_refl))|].
    destruct (in_values i) as [|e0 es] eqn:Ei; [done|]. destruct (indexed h x); [|done].
    destruct (mapM literal (e0 :: es)) as [ks|] eqn:Ek; [|done]. injection A as <-. cbn [fits_keys index_column] in *.
    cbn [eval]. rewrite (scan_value row x v L O1 Ev). cbn [mbind res_bind].
    assert (ks <> []) as Nk by (intros ->; apply mapM_Some_1, Forall2_length in Ek; done).
    assert (is_null v = false) as -> by (destruct ks as [|k ks]; [done|]; apply Forall_cons in Fv as [C _]; destruct (comparable_order v k C) as (_ & _ & _ & _ & _ & -> & _); done).
    rewrite (mapM_literal _ _ _ Ek), in_loop_comparable by done. cbn. unfold in_result. cbn. by destruct (existsb _ ks).
  - cbn [bool_ok] in O. apply andb_prop in O as [[O1 O2]%andb_prop O3]. cbn [eval_bool]. unfold eval_between, between_access in *.
    destruct (btw_negated b) eqn:Nb; [done|]. destruct (btw_expr b) as [x| | | | | |]; try done. destruct (btw_low b) as [|lo| | | | |]; try done.
    destruct (btw_high b) as [|hi| | | | |]; try done. destruct (indexed h x); [|done]. injection A as <-. cbn [fits_keys index_column] in *.
    destruct Fv as [F1 F2]. cbn [eval]. rewrite (scan_value row x v L O1 Ev). cbn [mbind res_bind].
    destruct (comparable_order v lo (F1 _ eq_refl)) as (o1 & E1 & _ & L1 & _ & -> & ->).
    destruct (comparable_order v hi (F2 _ eq_refl)) as (o2 & E2 & _ & _ & L2 & _ & ->). cbn. rewrite E1. cbn.
    rewrite <- L1, <- L2, <- Z.leb_antisym. destruct (0 <=? o1); cbn; [rewrite E2; cbn|done]. by rewrite <- Z.leb_antisym.
Qed.
End Scan.
