(* ===== verification/Optimizer.v ===== *)
(** Planning a SELECT: the rule set, the access paths, the joins and the
    projection together give the rows the query means. *)
From Stdlib Require Import ZArith Lia.
From stdpp Require Import base numbers list gmap strings.
From S2P Require Import Prelude Values Doubles Eval Session Query Sorting Joins Scans Dml Logical Physical Folding Rewrites Access.
Local Open Scope Z_scope.

(** * The rule set *)

(** An invariant of plans that every rule keeps, without failing, is kept by the
    iteration of the rules. *)
Section RuleSet.
Context {Q : Type} (Inv : LogicalPlan Q -> Prop).
Definition rule_keeps (r : Rule Q) : Prop := forall p, Inv p -> exists p' ch, r p = Ok (p', ch) /\ Inv p'.

Lemma apply_rules_keeps rules : Forall rule_keeps rules -> rule_keeps (apply_rules rules).
Proof.
  induction 1 as [|r rules Hr _ IH]; intros p Ip; [by eexists _, _|]. cbn. destruct (Hr p Ip) as (p1 & c1 & -> & I1).
  destruct (IH p1 I1) as (p2 & c2 & E2 & I2). cbn. rewrite E2. by eexists _, _.
Qed.

Lemma rule_set_keeps rules n p : Forall rule_keeps rules -> Inv p -> exists p', rule_set_apply rules n p = Ok p' /\ Inv p'.
Proof.
  intros H. revert p. induction n as [|n IH]; intros p Ip; cbn; [by exists p|].
  destruct (apply_rules_keeps rules H p Ip) as (p1 & ch & -> & I1). cbn. destruct ch; [by apply IH|by exists p1].
Qed.
End RuleSet.

Section Query.
Context {Q : Type} (rows_of : leaf -> list tuple) (Good GoodOn : BoolExpr Q -> Prop).
Hypotheses (Good_fold : kept_by_folding Good) (GoodOn_fold : kept_by_folding GoodOn).
Abbreviation tree_ok := (tree_ok rows_of Good GoodOn).
Abbreviation meaning := (meaning rows_of).
Implicit Types (t : LogicalPlan Q).

Record col_ok (bs : list Binding) (c : LogicalColumn) : Prop := {
  cl_scope : expr_ok (in_scope bs) (lc_expr c) = true;
  cl_safe : fold_safe (lc_expr c) = true;
  cl_folds : exists e, fold_expression (lc_expr c) = Ok e
}.

(** Two output columns that give the same results. *)
Record same_column (c c' : LogicalColumn) : Prop := {
  sc_eval r : eval r (lc_expr c') = eval r (lc_expr c);
  sc_binding i : project_binding i (col_to_item c') = project_binding i (col_to_item c);
  sc_plain a : item_value (col_to_item c') = SelAgg a -> item_value (col_to_item c) = SelAgg a
}.

Lemma same_column_refl c : same_column c c.
Proof. by split. Qed.
Lemma same_column_trans c c1 c2 : same_column c c1 -> same_column c1 c2 -> same_column c c2.
Proof. intros [E1 B1 P1] [E2 B2 P2]. split; intros; [by rewrite E2|by rewrite B2|by apply P1, P2]. Qed.

(** A plan that answers the query of the columns [cols] over [t]. *)
Definition answers (cols : list LogicalColumn) t (distinct : bool) (p : LogicalPlan Q) : Prop :=
  exists cols' t', p = LProject cols' t' distinct /\ tree_ok t' /\ Forall (col_ok (columns t')) cols' /\
    leaves t' ≡ₚ leaves t /\ meaning t' ≡ₚ meaning t /\ Forall2 same_column cols cols'.

Lemma answers_refl cols t d : tree_ok t -> Forall (col_ok (columns t)) cols -> answers cols t d (LProject cols t d).
Proof.
  intros T C. exists cols, t. split_and!; try done. clear C. induction cols; constructor; [apply same_column_refl|done].
Qed.

Lemma fold_column bs c e :
  col_ok bs c -> fold_expression (lc_expr c) = Ok e -> col_ok bs (mkLCol e (lc_output c)) /\ same_column c (mkLCol e (lc_output c)).
Proof.
  intros [Sc Sf _] E. split.
  - split; cbn; [by rewrite (fold_expr_ok _ _ _ E)|by eapply fold_stays_safe|exists e; by eapply fold_expression_idem].
  - assert (item_value (col_to_item (mkLCol e (lc_output c))) = item_value (col_to_item c) \/
      (exists op l r, lc_expr c = EBinary op l r) /\ (exists x, item_value (col_to_item (mkLCol e (lc_output c))) = SelExpr x /\
         match x with EColumn _ => False | _ => True end)) as Sh.
    { unfold col_to_item. cbn. destruct (lc_expr c) eqn:Ec; try (injection E as <-; by left). right. split; [by eexists _, _, _|].
      apply fold_binary_shape in E as (l' & r' & _ & _ & [(a & b & v & -> & -> & F & ->)|[-> N]]); by eexists. }
    split; cbn [lc_expr].
    + intros r. by eapply fold_eval.
    + intros i. unfold project_binding. cbn. destruct (bool_decide (lc_output c = [])) eqn:Eo; cbn; [|done].
      destruct Sh as [Sh|[(op & l & r & Ec) (x & Sh & Nx)]]; unfold col_to_item in Sh; cbn in Sh.
      * by rewrite Sh.
      * rewrite Sh, Ec. by destruct x.
    + intros a. destruct Sh as [Sh|[_ (x & Sh & _)]]; rewrite Sh; done.
Qed.

Lemma fold_columns bs cols :
  Forall (col_ok bs) cols -> exists cols' ch,
    change_all (fun x => '(e, ch) ← folded_expr (lc_expr x); Ok (mkLCol e (lc_output x), ch)) cols = Ok (cols', ch) /\
    Forall (col_ok bs) cols' /\ Forall2 same_column cols cols'.
Proof.
  induction 1 as [|c cols Hc F (cols' & ch & E & F' & S')]; [by eexists _, _|]. destruct (cl_folds _ _ Hc) as [e Ee].
  assert (folded_expr (lc_expr c) = Ok (e, negb (bool_decide (serialize_expr e = serialize_expr (lc_expr c))))) as Fe by (unfold folded_expr; by rewrite Ee).
  cbn [change_all]. rewrite Fe. cbn [mbind res_bind]. rewrite E. cbn. eexists _, _. split; [reflexivity|].
  destruct (fold_column bs c e Hc Ee). by split; constructor.
Qed.

Lemma same_columns_trans cols cols1 cols2 : Forall2 same_column cols cols1 -> Forall2 same_column cols1 cols2 -> Forall2 same_column cols cols2.
Proof.
  intros H1. revert cols2. induction H1 as [|c c1 cs cs1 Hc _ IH]; intros cols2 H2; inversion H2; subst; constructor; [by eapply same_column_trans|auto].
Qed.

Lemma cols_ok_perm t t' cols : leaves t' ≡ₚ leaves t -> Forall (col_ok (columns t)) cols -> Forall (col_ok (columns t')) cols.
Proof.
  intros L F. eapply Forall_impl; [exact F|]. intros c [Sc Sf Fo]. split; try done.
  assert (forall x, in_scope (columns t) x = true -> in_scope (columns t') x = true) as W.
  { intros x. apply in_scope_incl. intros b. by rewrite (columns_perm _ _ L). }
  by eapply expr_ok_weaken, Sc.
Qed.

Lemma default_rules_keep estimate cols t d : Forall (rule_keeps (answers cols t d)) (make_default_rules estimate).
Proof.
  unfold make_default_rules. repeat constructor; intros p (cols' & t' & -> & T & C & L & M & S).
  - destruct (fold_tree rows_of Good GoodOn Good_fold GoodOn_fold t' T) as (t2 & ch & E & T2 & L2 & M2).
    destruct (fold_columns _ _ C) as (cols2 & ch2 & Ec & C2 & S2). cbn. rewrite Ec. cbn. rewrite E. cbn. eexists _, _. split; [reflexivity|].
    exists cols2, t2. rewrite (columns_leaves t' t2 L2), L2, M2. split_and!; try done. by eapply same_columns_trans.
  - destruct (pushdown_ok rows_of Good GoodOn t' T) as (T2 & L2 & M2). cbn. destruct (predicate_pushdown t') as [t2 ch]. cbn in *.
    eexists _, _. split; [reflexivity|]. exists cols', t2. rewrite (columns_leaves t' t2 L2), L2, M2. by split_and!.
  - cbn. rewrite (prune_tree rows_of Good GoodOn _ t' T). eexists _, _. split; [reflexivity|]. exists cols', t'. by split_and!.
  - cbn. rewrite (merge_tree rows_of Good GoodOn t' T). eexists _, _. split; [by destruct t'|]. exists cols', t'. by split_and!.
  - destruct (reorder_tree rows_of Good GoodOn estimate t' T) as (T2 & L2 & M2). cbn. destruct (join_reorder estimate t') as [t2 ch]. cbn in *.
    eexists _, _. split; [reflexivity|]. exists cols', t2. split_and!; try done; [by eapply cols_ok_perm|by rewrite L2|by rewrite M2].
Qed.

(** The optimised plan still answers the query. *)
Lemma optimised estimate cols t d :
  tree_ok t -> Forall (col_ok (columns t)) cols ->
  exists p, rule_set_apply (make_default_rules estimate) max_iterations (LProject cols t d) = Ok p /\ answers cols t d p.
Proof. intros T C. apply rule_set_keeps; [apply default_rules_keep|by apply answers_refl]. Qed.
End Query.

(** * Execution *)

Section Execution.
Context {Q : Type} (session : option Session) (subq : option (Q -> Record_ -> bool -> res (list Value))) (ch : Choices Q).
(** The values a column may hold, the tables of the query and the rows they show. *)
Variables (ty : Binding -> Value -> Prop) (sources : list leaf) (table_rows : leaf -> list Row).
Variables (catalog : bytes -> option TableHandle) (stored : bytes -> bool).
Implicit Types (e : BoolExpr Q) (t : LogicalPlan Q) (m : tuple).

Definition scan_record (x : leaf) (row : Row) : Record_ := make_record_from_row (th_view x.1) row (leaf_name x).
(** The rows the session sees: its own writes over those of the table. *)
Definition seen_rows (x : leaf) : list Row := (overlay (th_view x.1) (own_writes session (th_view x.1)) (table_rows x)).*2.
Definition leaf_tuples (x : leaf) : list tuple := map (fun row => tuple_of (scan_record x row)) (seen_rows x).

Record leaf_ready (x : leaf) : Prop := {
  lr_shows : shows (th_view x.1) (scan_ts session) (table_rows x);
  lr_buffer : buffer_ok (own_writes session (th_view x.1));
  lr_width : Forall (fun row => length (values row) = length (th_columns x.1)) (seen_rows x);
  lr_typed : Forall (fun row => map_Forall ty (tuple_of (scan_record x row))) (seen_rows x);
  lr_single : th_composites x.1 = []
}.

(** An index that can answer: it knows the rows, and its keys can be compared
    with the values of the column. *)
Definition access_fit (x : leaf) (a : IndexAccess) : Prop :=
  index_complete (th_view x.1) a (table_rows x) /\
  Forall (fun row => exists v, values row !! default O (find_column (th_view x.1) (index_column a)) = Some v /\ fits_keys a v) (seen_rows x).

Definition in_dom m (c : ColumnRef) : bool := qualified c && bool_decide (is_Some (m !! ref_binding c)).
(** The predicate evaluates on every tuple of the right types that has its columns. *)
Definition total e : Prop := forall m, map_Forall ty m -> bool_ok (in_dom m) e = true -> exists b, eval_bool None e (of_tuple m) = Ok b.
Definition indexable e : Prop := forall x, x ∈ sources -> bool_ok (in_scope (leaf_columns x)) e = true ->
  forall a, simple_access x.1 e = Some a -> access_fit x a.
(** The columns an equi-join compares hold comparable values, without NULL. *)
Definition joinable e : Prop := forall a b, e = BComparison (Some (mkCmp (EColumn a) Eq (EColumn b))) ->
  (forall v, ty (ref_binding a) v \/ ty (ref_binding b) v -> key_ok v) /\
  forall v w, ty (ref_binding a) v -> ty (ref_binding b) w -> comparable v w.

Definition filterable e : Prop := total e /\ indexable e /\ forall e', folds_to e e' -> indexable e'.
Definition on_ready e : Prop := total e /\ joinable e.

Lemma total_fold e e' : total e -> fold_safe_bool e = true -> folds_to e e' -> total e'.
Proof.
  intros T S F m Hm O. rewrite (folds_ok _ _ _ F) in O. rewrite (fold_eval_bool None e e' _ (folds_fold _ _ F) S). by apply T.
Qed.
Lemma filterable_fold : kept_by_folding filterable.
Proof.
  intros e e' (T & I & If) S F. split; [by eapply total_fold|]. split; [by apply If|]. intros e2 F2.
  pose proof (fold_bool_idem _ _ (folds_fold _ _ F)) as E. rewrite (folds_fold _ _ F2) in E. injection E as ->. by apply If.
Qed.
Lemma on_ready_fold : kept_by_folding on_ready.
Proof.
  intros e e' [T J] S F. split; [by eapply total_fold|]. intros a b Ee'.
  assert (exists c, e = BComparison (Some c) /\ cmp_op c = Eq /\ fold_expression (cmp_lhs c) = Ok (EColumn a) /\
            fold_expression (cmp_rhs c) = Ok (EColumn b)) as (c & -> & Eo & El & Er).
  { destruct F as [c l r El Er| | | | |]; try done. injection Ee' as -> Eo ->. by exists c. }
  assert (forall x y, fold_expression x = Ok (EColumn y) -> x = EColumn y) as Col.
  { intros x y E. destruct x; try (by injection E as ->). apply fold_binary_shape in E as (l' & r' & _ & _ & [(? & ? & ? & _ & _ & _ & ?)|[? _]]); done. }
  apply Col in El, Er. apply J. destruct c as [cl op cr]. cbn in *. by subst.
Qed.

Abbreviation tree_ok := (tree_ok leaf_tuples filterable on_ready).
Abbreviation meaning := (meaning leaf_tuples).

(** ** Records and tuples *)

Lemma tuple_lookup r c : sized r -> qualified c = true -> lookup_ref r c = lookup_ref (of_tuple (tuple_of r)) c.
Proof. intros S Hq. rewrite !lookup_tuple by (done || apply sized_of). by rewrite tuple_of_of. Qed.

Lemma eval_tuple bs r e : sized r -> bool_ok (in_scope bs) e = true -> eval_bool subq e r = eval_bool None e (of_tuple (tuple_of r)).
Proof. intros S O. apply (eval_bool_agree _ _ (in_scope bs)); [|done]. intros c [Hq _]%andb_prop. by apply tuple_lookup. Qed.

Lemma scope_dom bs e m : dom m = list_to_set bs -> bool_ok (in_scope bs) e = true -> bool_ok (in_dom m) e = true.
Proof.
  intros D. apply bool_ok_weaken. intros c [Hq Hb%bool_decide_eq_true]%andb_prop. unfold in_dom. rewrite Hq. apply bool_decide_eq_true, elem_of_dom.
  rewrite D. by apply elem_of_list_to_set.
Qed.

Lemma meaning_typed t m : tree_ok t -> (forall x, x ∈ leaves t -> leaf_ready x) -> m ∈ meaning t -> map_Forall ty m.
Proof.
  revert m. induction t as [h a|e t IH| |jt on l IHl r IHr| | | | | |]; cbn [Rewrites.tree_ok leaves]; try done; intros m.
  - intros _ R Hm. cbn in Hm. apply list_elem_of_fmap in Hm as (row & -> & Hr). specialize (R (h, a) ltac:(by left)).
    pose proof (lr_typed _ R) as Ty. rewrite Forall_forall in Ty. by apply Ty.
  - intros [T _] R Hm. cbn in Hm. apply list_elem_of_In, filter_In in Hm as [Hm%list_elem_of_In _]. by apply IH.
  - destruct jt, on as [on|]; try done. intros (Tl & Tr & _) R Hm. cbn in Hm. apply list_elem_of_In, filter_In in Hm as [Hm%list_elem_of_In _].
    apply elem_cross in Hm as (ml & mr & Hl & Hr & ->).
    apply map_Forall_union_2; [apply IHl|apply IHr]; try done; intros x Hx; apply R, elem_of_app; auto.
Qed.

(** A predicate all of whose conjuncts evaluate. *)
Lemma split_total bs e m :
  Forall (conj_ok filterable bs) (split_and e) -> map_Forall ty m -> dom m = list_to_set bs -> exists b, eval_bool None e (of_tuple m) = Ok b.
Proof.
  intros F Ty D. assert (forall c, conj_ok filterable bs c -> exists b, eval_bool None c (of_tuple m) = Ok b) as One.
  { intros c [[Sc _ _ (T & _)] _]. apply T; [done|by eapply scope_dom]. }
  revert F. induction e as [c|i|bt|l x Hl Hx|l x Hl Hx|l Hl] using BoolExpr_parts; cbn [split_and]; intros F;
    try (apply Forall_inv in F; by apply One).
  destruct l as [l|], x as [x|]; try (apply Forall_inv in F; by apply One).
  apply Forall_app in F as [F1 F2]. destruct (Hl F1) as [b1 E1], (Hx F2) as [b2 E2]. cbn [eval_bool]. rewrite E1, E2. by eexists.
Qed.

Lemma split_scope bs e : Forall (conj_ok filterable bs) (split_and e) -> bool_ok (in_scope bs) e = true.
Proof.
  induction e as [c|i|bt|l x Hl Hx|l x Hl Hx|l Hl] using BoolExpr_parts; cbn [split_and]; intros F;
    try (apply Forall_inv in F; by apply F).
  destruct l as [l|], x as [x|]; try (apply Forall_inv in F; by apply F).
  apply Forall_app in F as [F1 F2]. cbn in *. by rewrite Hl, Hx.
Qed.

(** ** Filters *)

Lemma run_filter e child rs (b : Record_ -> SqlBool) :
  run child = (rs, Ok tt) -> (forall r, r ∈ rs -> eval_bool subq e r = Ok (b r)) ->
  run (execute_filter subq e child) = (List.filter (fun r => bool_decide (b r = SqlTrue)) rs, Ok tt).
Proof.
  intros H E. unfold execute_filter, each.
  rewrite (run_drive child _ (fun _ r => if bool_decide (b r = SqlTrue) then [r] else []) (fun _ _ => tt) (fun _ => True) rs tt); [|done|done|].
  2: { intros [] r _ Hr. split; [|done]. rewrite (run_bind _ _ (if bool_decide (b r = SqlTrue) then [r] else []) tt); [by rewrite app_nil_r|].
       erewrite run_bind_glift by (by apply E). by destruct (bool_decide _). }
  f_equal; [|by destruct (foldl _ _ _)]. rewrite loop_out_const. clear. induction rs as [|r rs IH]; [done|]. cbn. rewrite IH. by destruct (bool_decide _).
Qed.

(** The plan yields the given tuples, in some order. *)
Definition runs (p : PlanNode Q) (ms : list tuple) : Prop :=
  exists rs, run (execute_plan session subq p) = (rs, Ok tt) /\ map tuple_of rs ≡ₚ ms /\ Forall sized rs.

Lemma filter_tuples (f : tuple -> bool) (g : Record_ -> bool) rs :
  (forall r, r ∈ rs -> g r = f (tuple_of r)) -> map tuple_of (List.filter g rs) = List.filter f (map tuple_of rs).
Proof.
  induction rs as [|r rs IH]; intros H; [done|]. cbn. rewrite <- (H r) by (by left). rewrite <- IH by (intros; apply H; by right).
  by destruct (g r).
Qed.

Lemma tuples_elem rs ms r : map tuple_of rs ≡ₚ ms -> r ∈ rs -> tuple_of r ∈ ms.
Proof. intros <- H. by apply list_elem_of_fmap_2. Qed.

Lemma filter_runs p e t :
  tree_ok (LFilter e t) -> (forall x, x ∈ leaves t -> leaf_ready x) -> runs p (meaning t) -> runs (FilterPlan p e) (meaning (LFilter e t)).
Proof.
  cbn [Rewrites.tree_ok Rewrites.meaning]. intros [T F] R (rs & Hr & M & S). rewrite Forall_forall in S.
  assert (forall r, r ∈ rs -> eval_bool subq e r = eval_bool None e (of_tuple (tuple_of r))) as Ev.
  { intros r Hin. eapply eval_tuple; [by apply S|by eapply split_scope]. }
  eexists. split; [apply (run_filter e _ rs (fun r => match eval_bool None e (of_tuple (tuple_of r)) with Ok b => b | _ => SqlUnknown end)); [exact Hr|]|].
  - intros r Hin. rewrite (Ev r Hin). pose proof (tuples_elem rs _ r M Hin) as Hm.
    destruct (split_total _ e (tuple_of r) F) as [b Eb]; [by eapply meaning_typed|by eapply meaning_dom|by rewrite Eb].
  - split; [|apply Forall_list_filter; by apply Forall_forall]. rewrite (filter_tuples (truth e)); [by apply perm_filter|].
    intros r _. unfold truth. by destruct (eval_bool None e _) as [[]|w|w].
Qed.

(** ** Scans *)

Lemma leaf_runs x : leaf_ready x -> runs (SeqScanPlan (th_view x.1) x.2) (leaf_tuples x).
Proof.
  intros [Sh B W _ _]. eexists. split; [by apply seq_scan_overlay|]. unfold leaf_tuples, seen_rows. rewrite map_map. split; [done|].
  apply Forall_fmap. eapply Forall_impl; [exact W|]. intros row L. by apply (scan_sized x.1 x.2).
Qed.

Lemma index_runs h alias e a :
  let x := (h, alias) in
  leaf_ready x -> access_fit x a -> simple_access h e = Some a -> bool_ok (in_scope (leaf_columns x)) e = true ->
  runs (IndexScanPlan (th_view h) alias a) (List.filter (truth e) (leaf_tuples x)).
Proof.
  intros x [Sh B W _ _] [(cands & Ec & Cc) Fk] A O. eexists. split; [by apply (index_scan_overlay session subq _ _ a (table_rows x) cands)|].
  assert (index_pairs session (th_view h) a (own_writes session (th_view h)) cands ≡ₚ
    List.filter (fun kr => row_matches (th_view h) a kr.2) (overlay (th_view h) (own_writes session (th_view h)) (table_rows x))) as P
    by (by apply index_pairs_spec).
  assert ((index_pairs session (th_view h) a (own_writes session (th_view h)) cands).*2 ≡ₚ List.filter (row_matches (th_view h) a) (seen_rows x)) as P2.
  { unfold seen_rows. rewrite <- filter_snd. by apply (fmap_Permutation snd). }
  rewrite Forall_forall in W, Fk. split.
  - rewrite map_map. transitivity (map (fun row => tuple_of (scan_record x row)) (List.filter (row_matches (th_view h) a) (seen_rows x))); [by apply Permutation_map|].
    apply Permutation_refl'. unfold leaf_tuples. clear P P2 B Sh Cc. induction (seen_rows x) as [|row rows IH]; [done|]. cbn [List.filter map].
    rewrite <- IH by (intros r Hr; (apply W || apply Fk); by right).
    destruct (Fk row ltac:(by left)) as (v & Ev & Fv).
    pose proof (simple_access_truth h alias e a row v A O (W row ltac:(by left)) Ev Fv) as E.
    assert (truth e (tuple_of (scan_record x row)) = row_matches (th_view h) a row) as ->.
    { unfold truth. rewrite <- (eval_bool_agree None None (in_scope (leaf_columns x)) (scan_record x row)); [|intros c [Hq _]%andb_prop; apply tuple_lookup; [|done]|done].
      - unfold scan_record, leaf_name, x. cbn [fst snd]. rewrite E. by destruct (row_matches _ _ _).
      - apply (scan_sized h alias). by apply W; left. }
    by destruct (row_matches _ _ _).
  - apply Forall_fmap. rewrite P2. apply Forall_list_filter, Forall_forall. intros row Hr. apply (scan_sized h alias). by apply W.
Qed.

Lemma simple_access_atomic h e a : simple_access h e = Some a -> split_and e = [e].
Proof. destruct e; cbn; try done. Qed.

Lemma scan_filter_runs h alias e :
  tree_ok (LFilter e (LScan h alias)) -> (h, alias) ∈ sources -> leaf_ready (h, alias) ->
  runs (build_scan_filter ch h alias e) (meaning (LFilter e (LScan h alias))).
Proof.
  intros T In R. assert (runs (FilterPlan (SeqScanPlan (th_view h) alias) e) (meaning (LFilter e (LScan h alias)))) as Plain.
  { apply filter_runs; [done|by intros x ->%list_elem_of_singleton|]. by apply (leaf_runs (h, alias)). }
  unfold build_scan_filter. destruct (simple_access h e) as [a|] eqn:A.
  - destruct (index_pays ch h a); [|done]. cbn in T. destruct T as [_ F]. rewrite (simple_access_atomic _ _ _ A) in F.
    apply Forall_inv in F as [[Sc _ _ (_ & I & _)] _]. unfold columns in Sc. cbn in Sc. rewrite app_nil_r in Sc.
    apply (index_runs h alias); try done. by apply (I (h, alias)).
  - assert (composite_scan h alias e = None) as ->; [|done]. unfold composite_scan, best_composite. pose proof (lr_single _ R) as Cs. cbn in Cs.
    rewrite Cs. by destruct e; try done; destruct (equalities _).
Qed.

(** ** Joins *)

Lemma join_tuples (on : BoolExpr Q) (p : Record_ -> Record_ -> bool) nl nr ls rs :
  Forall sized ls -> (forall l r, l ∈ ls -> r ∈ rs -> p l r = truth on (tuple_of l ∪ tuple_of r)) ->
  map tuple_of (join_spec Inner p nl nr ls rs) = List.filter (truth on) (cross (map tuple_of ls) (map tuple_of rs)).
Proof.
  intros S H. unfold join_spec. cbn. rewrite app_nil_r. unfold cross. rewrite map_map. induction S as [|l ls Sl S IH]; [done|].
  cbn [map concat]. rewrite map_app, List.filter_app. rewrite IH by (intros; apply H; [by right|done]). f_equal. unfold left_contribution. cbn.
  rewrite andb_false_r, app_nil_r. assert (forall r, r ∈ rs -> p l r = truth on (tuple_of l ∪ tuple_of r)) as Hl by (intros; apply H; [by left|done]).
  clear -Hl Sl. induction rs as [|r rs IH]; [done|]. cbn [map List.filter]. rewrite <- IH by (intros; apply Hl; by right). rewrite <- Hl by (by left).
  destruct (p l r); cbn [map]; [|done]. by rewrite tuple_of_merge.
Qed.

Lemma truth_equi a b m v w :
  qualified a = true -> qualified b = true -> m !! ref_binding a = Some v -> m !! ref_binding b = Some w -> comparable v w ->
  truth (Q := Q) (BComparison (Some (mkCmp (EColumn a) Eq (EColumn b)))) m = ValueEq v w.
Proof.
  intros Qa Qb Ea Eb C. unfold truth. cbn [eval_bool]. unfold eval_comparison. cbn [cmp_lhs cmp_op cmp_rhs eval].
  rewrite !lookup_tuple, !tuple_of_of by (done || apply sized_of). unfold tuple_ref. rewrite Ea, Eb. cbn.
  destruct (comparable_order v w C) as (o & Eo & Eq & _ & _ & -> & ->). rewrite Eo. cbn. rewrite Eq. by destruct (ValueEq v w).
Qed.

Lemma owned_ref p p' c :
  tree_ok p -> separate p p' -> ref_binding c ∈ columns p ++ columns p' -> ref_table c ∈ plan_tables p -> ref_binding c ∈ columns p.
Proof.
  intros T S [?|Hr]%elem_of_app Ht; [done|]. exfalso. eapply elem_plan_tables in Ht as (y & Hy & Ny); [|done].
  apply elem_columns in Hr as (z & Hz & Ez). destruct (S y z Hy Hz) as [_ N]. apply N. by rewrite <- Ez.
Qed.

Lemma ValueEq_comparable_sym v w : comparable v w -> ValueEq w v = ValueEq v w.
Proof.
  intros C. destruct (comparable_order v w C) as (o & _ & Eq & Lt & Gt & _), (comparable_order w v (comparable_sym _ _ C)) as (o' & _ & Eq' & Lt' & Gt' & _).
  rewrite <- Eq, <- Eq'. assert ((o' <? 0) = (0 <? o)) by congruence. assert ((0 <? o') = (o <? 0)) by congruence. lia.
Qed.

Section Join.
Variables (on : BoolExpr Q) (l r : LogicalPlan Q) (pl pr : PlanNode Q) (ls rs : list Record_).
Hypotheses (T : tree_ok (LJoin Inner (Some on) l r)) (Rl : forall x, x ∈ leaves l -> leaf_ready x) (Rr : forall x, x ∈ leaves r -> leaf_ready x)
  (El : run (execute_plan session subq pl) = (ls, Ok tt)) (Ml : map tuple_of ls ≡ₚ meaning l) (Sl : Forall sized ls)
  (Er : run (execute_plan session subq pr) = (rs, Ok tt)) (Mr : map tuple_of rs ≡ₚ meaning r) (Sr : Forall sized rs).

(** What is known of a pair of records. *)
Lemma pair_facts x y :
  x ∈ ls -> y ∈ rs -> let m := tuple_of x ∪ tuple_of y in
  map_Forall ty m /\ dom m = list_to_set (columns l ++ columns r) /\ tuple_of (merge_rows x y) = m /\ sized (merge_rows x y).
Proof.
  intros Hx Hy m. cbn in T. destruct T as (Tl & Tr & _). rewrite Forall_forall in Sl, Sr.
  pose proof (tuples_elem _ _ _ Ml Hx) as Hl. pose proof (tuples_elem _ _ _ Mr Hy) as Hr. split_and!.
  - apply map_Forall_union_2; [by apply (meaning_typed l)|by apply (meaning_typed r)].
  - unfold m. rewrite dom_union_L, list_to_set_app_L. by rewrite (meaning_dom _ _ _ l _ Tl Hl), (meaning_dom _ _ _ r _ Tr Hr).
  - apply tuple_of_merge. by apply Sl.
  - apply sized_merge; [by apply Sl|by apply Sr].
Qed.

Lemma on_holds x y : x ∈ ls -> y ∈ rs -> holds on (merge_rows x y) = Ok (truth on (tuple_of x ∪ tuple_of y)).
Proof.
  intros Hx Hy. destruct (pair_facts x y Hx Hy) as (Ty & D & E & S). cbn in T. destruct T as (_ & _ & _ & [Sc _ _ [To _]]).
  unfold holds, truth. rewrite (eval_bool_agree None None (in_scope (columns l ++ columns r)) (merge_rows x y) (of_tuple (tuple_of x ∪ tuple_of y))).
  - destruct (To _ Ty) as [b ->]; [by eapply scope_dom|]. cbn. by destruct b.
  - intros c [Hq _]%andb_prop. rewrite <- E. by apply tuple_lookup.
  - done.
Qed.

Lemma join_sized (p : Record_ -> Record_ -> bool) nl nr : Forall sized (join_spec Inner p nl nr ls rs).
Proof.
  unfold join_spec. cbn. rewrite app_nil_r. apply Forall_concat, Forall_fmap, Forall_forall. intros x Hx. unfold left_contribution. cbn.
  rewrite andb_false_r, app_nil_r. apply Forall_fmap, Forall_list_filter, Forall_forall. intros y Hy. by apply (pair_facts x y).
Qed.

Lemma loop_runs : runs (NestedLoopJoinPlan pl pr on Inner) (meaning (LJoin Inner (Some on) l r)).
Proof.
  eexists. split; [cbn [execute_plan]; apply (nested_loop_run _ _ on Inner _ _ ls rs (fun x y => truth on (tuple_of x ∪ tuple_of y))); [done|done|]; exact on_holds|].
  split; [|apply join_sized]. rewrite (join_tuples on) by done. cbn [Rewrites.meaning]. by apply perm_filter, cross_perm.
Qed.

(** The value of a key column of one side. *)
Definition key_value (c : ColumnRef) (x : Record_) : Value := default VNull (tuple_of x !! ref_binding c).

Lemma key_lookup c (p : LogicalPlan Q) xs x :
  tree_ok p -> map tuple_of xs ≡ₚ meaning p -> Forall sized xs -> qualified c = true -> ref_binding c ∈ columns p -> x ∈ xs ->
  lookup_ref x c = Ok (key_value c x) /\ tuple_of x !! ref_binding c = Some (key_value c x).
Proof.
  intros Tp Mp Sp Hq Hc Hx. rewrite Forall_forall in Sp. rewrite lookup_tuple by auto. unfold tuple_ref, key_value.
  pose proof (tuples_elem _ _ _ Mp Hx) as Hm. assert (is_Some (tuple_of x !! ref_binding c)) as [v ->]; [|done].
  apply elem_of_dom. rewrite (meaning_dom _ _ _ p _ Tp Hm). by apply elem_of_list_to_set.
Qed.

Lemma hash_runs lk rk :
  try_extract_equi_keys on (plan_tables l) (plan_tables r) = Some (lk, rk) ->
  runs (HashJoinPlan pl pr lk rk None Inner) (meaning (LJoin Inner (Some on) l r)).
Proof.
  intros X. pose proof T as T'. cbn in T'. destruct T' as (Tl & Tr & Se & [Sc _ _ [_ J]]).
  assert (exists a b, on = BComparison (Some (mkCmp (EColumn a) Eq (EColumn b))) /\ (lk = a /\ rk = b \/ lk = b /\ rk = a) /\
    ref_table lk ∈ plan_tables l /\ ref_table rk ∈ plan_tables r) as (a & b & Eo & Sides & Hlk & Hrk).
  { unfold try_extract_equi_keys in X. destruct on as [[[[a| | | | | |] [] [b| | | | | |]]|]| | | | |]; try done. destruct (_ || _); [done|].
    destruct (bool_decide_reflect (ref_table a ∈ plan_tables l)), (bool_decide_reflect (ref_table b ∈ plan_tables r));
      cbn in X; [injection X as <- <-; exists a, b; auto|..];
      destruct (bool_decide_reflect (ref_table a ∈ plan_tables r)), (bool_decide_reflect (ref_table b ∈ plan_tables l)); cbn in X; try done;
      injection X as <- <-; exists a, b; auto. }
  rewrite Eo in Sc. cbn in Sc. apply andb_prop in Sc as [[Qa Ha%bool_decide_eq_true]%andb_prop [Qb Hb%bool_decide_eq_true]%andb_prop].
  assert (qualified lk = true /\ qualified rk = true /\ ref_binding lk ∈ columns l ++ columns r /\ ref_binding rk ∈ columns l ++ columns r) as (Ql & Qr & Il & Ir).
  { destruct Sides as [[-> ->]|[-> ->]]; auto. }
  apply (owned_ref l r) in Il; [|done..]. 
  assert (ref_binding rk ∈ columns r ++ columns l) as Ir' by (rewrite elem_of_app in *; tauto). clear Ir. rename Ir' into Ir.
  apply (owned_ref r l) in Ir; [|done|by apply separate_sym|done].
  pose proof (fun x => key_lookup lk l ls x Tl Ml Sl Ql Il) as Kl. pose proof (fun y => key_lookup rk r rs y Tr Mr Sr Qr Ir) as Kr.
  destruct (J a b Eo) as [Jk Jc].
  assert (forall x y, x ∈ ls -> y ∈ rs -> ValueEq (key_value lk x) (key_value rk y) = truth on (tuple_of x ∪ tuple_of y)) as Pair.
  { intros x y Hx Hy. destruct (pair_facts x y Hx Hy) as (Ty & D & _ & _). destruct (Kl x Hx) as [_ Vl], (Kr y Hy) as [_ Vr].
    assert ((tuple_of x ∪ tuple_of y) !! ref_binding lk = Some (key_value lk x)) as Ul by (by apply lookup_union_Some_l).
    assert ((tuple_of x ∪ tuple_of y) !! ref_binding rk = Some (key_value rk y)) as Ur.
    { rewrite lookup_union_r; [done|]. apply not_elem_of_dom. rewrite (meaning_dom _ _ _ l _ Tl (tuples_elem _ _ _ Ml Hx)), elem_of_list_to_set.
      intros H. exact (separate_columns l r _ Se H Ir). }
    pose proof (Ty _ _ Ul) as Tl1. pose proof (Ty _ _ Ur) as Tr1. destruct Sides as [[-> ->]|[-> ->]].
    - rewrite Eo. symmetry. apply truth_equi; auto.
    - pose proof (Jc _ _ Tr1 Tl1) as C. rewrite Eo, (truth_equi a b _ _ _ Qa Qb Ur Ul C). by apply ValueEq_comparable_sym. }
  eexists. split.
  { cbn [execute_plan]. apply (hash_join_run _ _ lk rk None Inner _ _ ls rs (key_value lk) (key_value rk) (fun _ => true)); [done|done|..].
    - intros x Hx. destruct (Kl x Hx) as [E V]. split; [done|]. apply Jk.
      pose proof (meaning_typed l _ Tl Rl (tuples_elem _ _ _ Ml Hx) _ _ V). destruct Sides as [[-> _]|[-> _]]; auto.
    - intros y Hy. destruct (Kr y Hy) as [E V]. split; [done|]. apply Jk.
      pose proof (meaning_typed r _ Tr Rr (tuples_elem _ _ _ Mr Hy) _ _ V). destruct Sides as [[_ ->]|[_ ->]]; auto.
    - done. }
  split; [|by apply join_sized]. rewrite (join_tuples on) by (try done; intros; rewrite andb_true_r; auto).
  cbn [Rewrites.meaning]. by apply perm_filter, cross_perm.
Qed.
End Join.

(** ** The plan of a tree *)

Lemma tree_unsorted t : tree_ok t -> first_column t = None.
Proof. by destruct t. Qed.

Lemma join_runs on l r pl pr :
  tree_ok (LJoin Inner (Some on) l r) -> (forall x, x ∈ leaves l ++ leaves r -> leaf_ready x) -> runs pl (meaning l) -> runs pr (meaning r) ->
  exists p, build_join ch Inner (Some on) l r pl pr = Ok p /\ runs p (meaning (LJoin Inner (Some on) l r)).
Proof.
  intros T R (ls & El & Ml & Sl) (rs & Er & Mr & Sr). unfold build_join.
  assert (forall x, x ∈ leaves l -> leaf_ready x) as Rl by (intros; apply R, elem_of_app; auto).
  assert (forall x, x ∈ leaves r -> leaf_ready x) as Rr by (intros; apply R, elem_of_app; auto).
  pose proof (loop_runs on l r pl pr ls rs T Rl Rr El Ml Sl Er Mr Sr) as L. eexists. split; [reflexivity|].
  destruct (try_extract_equi_keys on (plan_tables l) (plan_tables r)) as [[lk rk]|] eqn:X; [|done].
  assert (merge_ok l r lk rk = false) as ->.
  { unfold merge_ok. cbn in T. destruct T as (Tl & _). by rewrite (tree_unsorted l Tl). }
  cbn. destruct (loop_pays ch pl pr); [done|]. by apply (hash_runs on l r pl pr ls rs).
Qed.

Lemma tree_runs t :
  tree_ok t -> (forall x, x ∈ leaves t -> x ∈ sources /\ leaf_ready x) -> exists p, visit ch t = Ok p /\ runs p (meaning t).
Proof.
  induction t as [h a|e t IH| |jt on l IHl r IHr| | | | | |]; intros T R; try done.
  - eexists. split; [reflexivity|]. apply (leaf_runs (h, a)). apply R. by left.
  - assert (forall x, x ∈ leaves t -> leaf_ready x) as Rt by (intros; by apply R).
    assert (tree_ok t) as Tt by apply T. destruct (IH Tt R) as (p & Ep & Rp). pose proof (filter_runs p e t T Rt Rp) as Plain.
    destruct t as [h a| | | | | | | | |]; try (cbn [visit] in *; rewrite Ep; exists (FilterPlan p e); by split).
    eexists. split; [reflexivity|]. destruct (R (h, a)) as [Is Rh]; [by left|]. by apply scan_filter_runs.
  - pose proof T as T'. cbn in T'. destruct jt, on as [on|]; try done. destruct T' as (Tl & Tr & _).
    destruct (IHl Tl) as (pl & El & Rl); [intros; apply R, elem_of_app; auto|].
    destruct (IHr Tr) as (pr & Er & Rr); [intros; apply R, elem_of_app; auto|].
    cbn [visit]. rewrite El. cbn [mbind res_bind]. rewrite Er. cbn [mbind res_bind]. apply join_runs; try done. intros x Hx. by apply R.
Qed.

(** ** Projection *)

(** The output record of a tuple. *)
Definition answer (cols : list LogicalColumn) m : Record_ :=
  mkRecord (map (fun c => match eval (of_tuple m) (lc_expr c) with Ok v => v | _ => VNull end) cols)
           (imap project_binding (cols_to_items cols)).

Definition col_total (c : LogicalColumn) : Prop :=
  forall m, map_Forall ty m -> expr_ok (in_dom m) (lc_expr c) = true -> exists v, eval (of_tuple m) (lc_expr c) = Ok v.

Lemma run_project items child rs (vals : Record_ -> list Value) :
  run child = (rs, Ok tt) -> (forall r, r ∈ rs -> project_values r items = Ok (vals r)) ->
  run (execute_project items false child) = (map (fun r => mkRecord (vals r) (imap project_binding items)) rs, Ok tt).
Proof.
  intros H E. unfold execute_project. rewrite run_void.
  rewrite (run_drive child _ (fun _ r => [mkRecord (vals r) (imap project_binding items)]) (fun seen _ => seen) (fun _ => True) rs []); [|done|done|].
  - cbn. rewrite loop_out_const. f_equal. clear. induction rs as [|r rs IH]; [done|]. cbn. by rewrite IH.
  - intros seen r _ Hr. split; [|done]. erewrite run_bind_glift by (by apply E). by erewrite run_bind by apply run_yield.
Qed.

Lemma project_columns bs cols r :
  sized r -> Forall (col_ok bs) cols -> (forall c, c ∈ cols -> exists v, eval (of_tuple (tuple_of r)) (lc_expr c) = Ok v) ->
  project_values r (cols_to_items cols) = Ok (rec_values (answer cols (tuple_of r))).
Proof.
  intros S F. unfold answer, cols_to_items. cbn [rec_values]. induction F as [|c cols [Sc _ _] F IH]; intros H; [done|]. cbn [map project_values].
  assert (item_value (col_to_item c) = SelExpr (lc_expr c)) as ->.
  { unfold col_to_item. cbn. by destruct (lc_expr c). }
  rewrite (eval_agree (in_scope bs) r (of_tuple (tuple_of r))); [|intros x [Hq _]%andb_prop; by apply tuple_lookup|done].
  destruct (H c ltac:(by left)) as [v ->]. cbn [mbind res_bind]. rewrite IH; [done|]. intros; apply H. by right.
Qed.

Lemma same_answer cols cols' m : Forall2 same_column cols cols' -> answer cols' m = answer cols m.
Proof.
  intros H. unfold answer. f_equal.
  - induction H as [|c c' cs cs' Hc _ IH]; [done|]. cbn. by rewrite (sc_eval _ _ Hc), IH.
  - unfold cols_to_items. generalize project_binding, (fun c c' Hc i => sc_binding c c' Hc i). intros f Hf. revert f Hf.
    induction H as [|c c' cs cs' Hc _ IH]; intros f Hf; [done|]. cbn. rewrite !imap_fmap in *. f_equal; [by apply Hf|].
    specialize (IH (f ∘ S) (fun c c' Hc i => Hf c c' Hc (S i))). rewrite !imap_fmap in IH. exact IH.
Qed.

Lemma query_runs cols t p :
  answers leaf_tuples filterable on_ready cols t false p ->
  (forall x, x ∈ leaves t -> x ∈ sources /\ leaf_ready x) -> Forall (col_ok (columns t)) cols -> Forall col_total cols ->
  exists q out, physical_plan ch catalog stored p = Ok (QueryPlan q) /\
    run (execute_plan session subq q) = (out, Ok tt) /\ out ≡ₚ map (answer cols) (meaning t).
Proof.
  intros (cols' & t' & -> & T & C & L & M & S) R C0 Ct.
  destruct (tree_runs t' T) as (q & Eq & rs & Er & Mr & Sr); [intros x Hx; apply R; by rewrite <- L|].
  cbn [physical_plan visit]. rewrite Eq. cbn [mbind res_bind fmap res_fmap]. rewrite Forall_forall in Sr.
  assert (over_aggregate t' = false) as Oa by (by destruct t'). unfold build_project. rewrite Oa.
  eexists _, _. split; [reflexivity|]. split.
  - cbn [execute_plan]. apply (run_project _ _ rs (fun r => rec_values (answer cols' (tuple_of r)))); [done|]. intros r Hr.
    apply (project_columns (columns t')); [by apply Sr|done|]. intros c' Hc'. pose proof (tuples_elem _ _ _ Mr Hr) as Hm. rewrite M in Hm.
    apply list_elem_of_lookup in Hc' as (i & Ei). destruct (Forall2_lookup_r _ _ _ i c' S Ei) as (c & Ec & Sc). rewrite (sc_eval _ _ Sc).
    rewrite Forall_forall in Ct, C0. assert (c ∈ cols) as Hc by (by eapply list_elem_of_lookup_2).
    assert (tuple_of r ∈ meaning t') as Hm' by (by eapply tuples_elem).
    apply (Ct c Hc); [eapply meaning_typed; [exact T|intros; apply R; by rewrite <- L|done]|].
    destruct (C0 c Hc) as [Sco _ _]. eapply expr_ok_weaken, Sco. intros x [Hq Hb%bool_decide_eq_true]%andb_prop. unfold in_dom. rewrite Hq.
    apply bool_decide_eq_true, elem_of_dom. rewrite (meaning_dom _ _ _ t' _ T Hm'). apply elem_of_list_to_set. by rewrite (columns_perm _ _ L).
  - rewrite <- M, <- Mr, map_map. apply Permutation_refl'. apply map_ext. intros r. rewrite <- (same_answer cols cols') by done. done.
Qed.
End Execution.

(** ** The property *)


(** ** Examples *)

(** SELECT a.id, b.id FROM t a JOIN t b ON a.v = b.v WHERE a.v = 10 + 10, in a
    transaction with writes of its own; v is indexed. *)
Definition ex_handle : TableHandle := mkHandle ex_indexed [str "v"] [].
Definition ex_catalog (name : bytes) : option TableHandle := if bool_decide (name = str "t") then Some ex_handle else None.
Definition ex_eq (l r : Expression) : BoolExpr unit := BComparison (Some (mkCmp l Eq r)).
Definition ex_on : BoolExpr unit := ex_eq (EColumn (col "a" "v")) (EColumn (col "b" "v")).
Definition ex_where : BoolExpr unit := ex_eq (EColumn (col "a" "v")) (EBinary Add (ELiteral (VInt 10)) (ELiteral (VInt 10))).
Definition ex_item (t c : string) : SelectItem := mkItem (SelExpr (EColumn (col t c))) None.
Definition ex_select : SelectStmt unit :=
  mkSelect [ex_item "a" "id"; ex_item "b" "id"] false (str "t") (Some (str "a"))
    [mkJoin Inner (str "t") (Some ex_on) (Some (str "b"))] (Some ex_where) [] [] None None None.
Definition ex_cols : list LogicalColumn := [mkLCol (EColumn (col "a" "id")) (str "id"); mkLCol (EColumn (col "b" "id")) (str "id")].
Definition ex_join : LogicalPlan unit := LJoin Inner (Some ex_on) (LScan ex_handle (str "a")) (LScan ex_handle (str "b")).
Definition ex_tree : LogicalPlan unit := LFilter ex_where ex_join.
Definition ex_ty (_ : Binding) (v : Value) : Prop := match v with VInt n => exact_int n | _ => False end.
#[export] Instance ex_ty_dec b v : Decision (ex_ty b v).
Proof. destruct v; cbn; unfold exact_int; apply _. Defined.
(** Indexes always, hash joins, the right table always smaller. *)
Definition ex_choices : Choices unit := mkChoices (fun _ _ => true) (fun _ _ => true) (fun _ _ => false) (fun _ _ => false).
Definition ex_estimate (p : LogicalPlan unit) : Z := match p with LScan _ a => if bool_decide (a = str "a") then 2 else 1 | _ => 3 end.

Lemma ex_leaves x : x ∈ leaves ex_tree -> x = (ex_handle, str "a") \/ x = (ex_handle, str "b").
Proof. cbn. rewrite !elem_of_cons, elem_of_nil. naive_solver. Qed.

Lemma ex_leaf_ready x : x ∈ leaves ex_tree -> leaf_ready (Some ex_session) ex_ty (fun _ => ex_rows) x.
Proof.
  intros [->| ->]%ex_leaves; (split; [exact ex_shows|exact ex_writes_ok|apply (bool_decide_unpack _); vm_compute; exact Logic.I..|reflexivity]).
Qed.

Lemma ex_dom x : x ∈ leaves ex_tree -> Forall (fun m => dom m = list_to_set (leaf_columns x)) (leaf_tuples (Some ex_session) (fun _ => ex_rows) x).
Proof. intros [->| ->]%ex_leaves; apply (bool_decide_unpack _); vm_compute; exact Logic.I. Qed.

(** The value of a column of a typed tuple. *)
Lemma ex_value m c :
  map_Forall ex_ty m -> in_dom m c = true -> exists n, exact_int n /\ lookup_ref (of_tuple m) c = Ok (VInt n).
Proof.
  intros Ty [Hq [v Hv]%bool_decide_eq_true]%andb_prop. pose proof (Ty _ _ Hv) as T. destruct v as [|n| |]; try done. exists n. split; [done|].
  rewrite lookup_tuple, tuple_of_of by (done || apply sized_of). unfold tuple_ref. by rewrite Hv.
Qed.

Lemma ex_total_where : total ex_ty ex_where.
Proof.
  intros m Ty [O1 _]%andb_prop. destruct (ex_value m _ Ty O1) as (n & En & Ev). cbn [eval_bool ex_where ex_eq]. unfold eval_comparison.
  cbn [cmp_lhs cmp_op cmp_rhs eval]. rewrite Ev. cbn [mbind res_bind eval_binary eval_int is_null is_double orb].
  change (int64 (10 + 10)) with (Ok (VInt 20)). cbn [mbind res_bind is_null orb]. rewrite compare_exact by (done || unfold exact_int; lia). by eexists.
Qed.

Lemma ex_access x a :
  x ∈ leaves ex_tree -> a = IdxPoint (str "v") (VInt 20) -> access_fit (Some ex_session) (fun _ => ex_rows) x a.
Proof.
  intros Hx ->. assert (x.1 = ex_handle) as E by (by destruct (ex_leaves x Hx) as [->| ->]). unfold access_fit. rewrite E. split.
  - eexists. split; [reflexivity|]. split; [|split]; [apply (bool_decide_unpack _); vm_compute; exact Logic.I..|].
    intros r Hr _. unfold ex_rows in Hr. rewrite !elem_of_cons, elem_of_nil in Hr. destruct Hr as [->|[->|[->|[]]]];
      apply (bool_decide_unpack _); vm_compute; exact Logic.I.
  - assert (seen_rows (Some ex_session) (fun _ => ex_rows) x = [int_row [1; 10]; int_row [2; 21]; int_row [4; 20]]) as ->.
    { unfold seen_rows. rewrite E. vm_compute. reflexivity. }
    repeat constructor; eexists; (split; [vm_compute; reflexivity|]); cbn; unfold exact_int; lia.
Qed.

Lemma ex_filterable : filterable (Some ex_session) ex_ty (leaves ex_tree) (fun _ => ex_rows) ex_where.
Proof.
  split; [exact ex_total_where|]. split.
  - intros x _ _ a Ha. by destruct x.
  - intros e' F%folds_fold x Hx _ a Ha. injection F as <-. apply ex_access; [done|].
    assert (x.1 = ex_handle) as E by (by destruct (ex_leaves x Hx) as [->| ->]). rewrite E in Ha. vm_compute in Ha. by injection Ha as <-.
Qed.

Lemma ex_on_ready : on_ready ex_ty ex_on.
Proof.
  split.
  - intros m Ty [O1 O2]%andb_prop. destruct (ex_value m _ Ty O1) as (n & En & Ev), (ex_value m _ Ty O2) as (n' & En' & Ev').
    cbn [eval_bool ex_on ex_eq]. unfold eval_comparison. cbn [cmp_lhs cmp_op cmp_rhs eval]. rewrite Ev, Ev'. cbn [mbind res_bind is_null orb].
    rewrite compare_exact by done. by eexists.
  - intros a b _. split.
    + intros [] [T|T]; done.
    + intros [] [] T1 T2; done.
Qed.

Lemma ex_tree_ok :
  tree_ok (leaf_tuples (Some ex_session) (fun _ => ex_rows)) (filterable (Some ex_session) ex_ty (leaves ex_tree) (fun _ => ex_rows)) (on_ready ex_ty) ex_tree.
Proof.
  assert (forall x, x ∈ leaves ex_tree -> forall m, m ∈ leaf_tuples (Some ex_session) (fun _ => ex_rows) x -> dom m = list_to_set (leaf_columns x)) as D.
  { intros x Hx. apply Forall_forall. by apply ex_dom. }
  cbn [tree_ok ex_tree ex_join]. split_and!.
  - apply D. by left.
  - apply D. by right; left.
  - intros x y ->%list_elem_of_singleton ->%list_elem_of_singleton. split; apply (bool_decide_unpack _); vm_compute; exact Logic.I.
  - split; [vm_compute; reflexivity|reflexivity|by eexists|exact ex_on_ready].
  - apply Forall_singleton. split; [|vm_compute; reflexivity]. split; [vm_compute; reflexivity|reflexivity|by eexists|exact ex_filterable].
Qed.


(** The example's plan: the constant is folded, the predicate goes to an index scan
    of a, the tables are swapped and joined by hashing. *)
Example ex_plan :
  build_physical_plan ex_choices ex_catalog (fun _ => true) ex_estimate (SSelect ex_select) =
  Ok (QueryPlan (ProjectPlan (HashJoinPlan (SeqScanPlan ex_indexed (str "b")) (IndexScanPlan ex_indexed (str "a") (IdxPoint (str "v") (VInt 20)))
                                (col "b" "v") (col "a" "v") None Inner)
       [mkItem (SelExpr (EColumn (col "a" "id"))) (Some (str "id")); mkItem (SelExpr (EColumn (col "b" "id"))) (Some (str "id"))] false)).
Proof. reflexivity. Qed.

(** ** What planning changes *)

Definition ex_query (items : list SelectItem) (on : BoolExpr unit) (w : option (BoolExpr unit)) : SelectStmt unit :=
  mkSelect items false (str "t") (Some (str "a")) [mkJoin Inner (str "t") (Some on) (Some (str "b"))] w [] [] None None None.
Definition ex_run (estimate : LogicalPlan unit -> Z) (s : SelectStmt unit) : res (list (list Value) * res unit) :=
  p ← build_physical_plan ex_choices ex_catalog (fun _ => true) estimate (SSelect s);
  q ← query_plan p;
  let out := run (execute_plan None None q) in Ok (map rec_values out.1, out.2).

(** Outside the assumptions of the theorem:
    - 7 / 2 is folded to 3, and evaluates to 3.5; NULL || 'x' is folded to NULL,
      and evaluates to 'x';
    - a condition that names a table in a BETWEEN or IN below an OR is pushed to
      the other table and fails there;
    - a column without its table is that of the table that is thought smaller;
    - an index scan for v < 5 returns the rows whose v is NULL;
    - of a = 1 AND a = 2 AND b = 3 a composite index on (a, b) checks a = 2 and
      b = 3 only;
    - DISTINCT is dropped above aggregation;
    - an aggregate of HAVING is not computed when SELECT has one with its
      function over another column. *)
Lemma planning_anomalies :
  (let e := EBinary Div (ELiteral (VInt 7)) (ELiteral (VInt 2)) in
   fold_expression e = Ok (ELiteral (VInt 3)) /\ eval (mkRecord [] []) e = Ok (VDouble (dbl_div (dbl_of_int 7) (dbl_of_int 2)))) /\
  (let e := EBinary Concat (ELiteral VNull) (ELiteral (VText (str "x"))) in
   fold_expression e = Ok (ELiteral VNull) /\ eval (mkRecord [] []) e = Ok (VText (str "x"))) /\
  (let btw := BBetween (Some (mkBetween (EColumn (col "a" "v")) (ELiteral (VInt 1)) (ELiteral (VInt 30)) false)) in
   let w := BOr (Some btw) (Some (ex_eq (EColumn (col "b" "v")) (ELiteral (VInt 20)))) in
   ex_run (fun _ => 0) (ex_query [ex_item "a" "id"] (ex_eq (EColumn (col "a" "id")) (EColumn (col "b" "id"))) (Some w)) =
   Ok ([], Throw "[Executor] Column not found")) /\
  (let s := ex_query [ex_item "" "id"] (BComparison (Some (mkCmp (EColumn (col "a" "id")) Lt (EColumn (col "b" "id"))))) None in
   ex_run (fun _ => 0) s = Ok ([[VInt 1]; [VInt 1]; [VInt 2]], Ok tt) /\
   ex_run ex_estimate s = Ok ([[VInt 2]; [VInt 3]; [VInt 3]], Ok tt)) /\
  (let e := BComparison (Some (mkCmp (EColumn (col "t" "v")) Lt (ELiteral (VInt 5)))) : BoolExpr unit in
   let r := mkRow [VInt 1; VNull] in
   simple_access ex_handle e = Some (IdxRange (str "v") None false (Some (VInt 5)) false) /\
   row_matches ex_indexed (IdxRange (str "v") None false (Some (VInt 5)) false) r = true /\
   eval_bool None e (make_record_from_row ex_indexed r (str "t")) = Ok SqlUnknown) /\
  (let h := mkHandle ex_indexed [] [(str "i", [str "id"; str "v"])] in
   let eq c n := ex_eq (EColumn (col "t" c)) (ELiteral (VInt n)) in
   build_scan_filter ex_choices h [] (BAnd (Some (BAnd (Some (eq "id" 1)) (Some (eq "id" 2)))) (Some (eq "v" 3))) =
   IndexScanPlan ex_indexed [] (IdxComposite (str "i") [str "id"; str "v"] [VInt 2; VInt 3])) /\
  (let c := [mkLCol (EColumn (col "t" "v")) (str "v")] in
   let a := LAggregate [EColumn (col "t" "v"); EColumn (col "t" "id")] [] None (LScan ex_handle []) in
   visit ex_choices (LProject c a true) = visit ex_choices (LProject c a false)) /\
  add_having 1 [mkAgg Sum (Some (col "t" "id"))] [to_agg_item (mkAgg Sum (Some (col "t" "v"))) (str "s")] =
    [to_agg_item (mkAgg Sum (Some (col "t" "v"))) (str "s")].
Proof. cbv zeta. split_and!; vm_compute; reflexivity. Qed.
