(* ===== verification/Lexer.v ===== *)
(** The lexical half of [src/sql/parser.cpp]: [Parser::tokenize], with a
    printer of token lists and the proof that tokenizing its output gives the
    tokens back. *)
From Stdlib Require Import ZArith Lia Strings.Byte.
From stdpp Require Import base numbers list strings.
From S2P Require Import Prelude Values Eval.
Local Open Scope Z_scope.

(** * Characters, as the C locale classifies them *)

Definition is_space (c : byte) : bool := (b2z c =? 32) || ((9 <=? b2z c) && (b2z c <=? 13)).
Definition is_digit (c : byte) : bool := (48 <=? b2z c) && (b2z c <=? 57).
Definition is_alpha (c : byte) : bool :=
  ((65 <=? b2z c) && (b2z c <=? 90)) || ((97 <=? b2z c) && (b2z c <=? 122)).

Definition quote : byte := "'"%byte.

(** The characters that are tokens by themselves. *)
Definition punctuation : list byte := str "(),;.*+-/=?%".

(** [to_upper] of a string. *)
Definition upper (s : bytes) : bytes := map to_upper s.

(** * [tokenize] *)

Definition push (t : bytes) (r : res (list bytes)) : res (list bytes) := ts ← r; Ok (t :: ts).

(** [flush]: the current token, when there is one, goes out. *)
Definition flush (current : bytes) (r : res (list bytes)) : res (list bytes) :=
  if bool_decide (current = []) then r else push current r.

(** The decimal point of a number: after a digit and before one. *)
Definition joins_number (current : bytes) (next : option byte) : bool :=
  match last current, next with
  | Some d, Some n => is_digit d && is_digit n
  | _, _ => false
  end.

(** The scan of the text.  [literal] is what the inner loop has read of a string
    literal, from its opening quote on; outside a literal it is [None]. *)
Fixpoint tokenize_from (literal : option bytes) (current : bytes) (sql : bytes) : res (list bytes) :=
  match literal, sql with
  | Some _, [] => Throw "[Parser] Unterminated string literal"
  | Some l, c :: rest =>
      if bool_decide (c = quote) then
        match rest with
        | n :: rest' =>
            if bool_decide (n = quote) then tokenize_from (Some (l ++ [quote])) current rest'
            else push (l ++ [quote]) (tokenize_from None current rest)
        | [] => push (l ++ [quote]) (tokenize_from None current rest)
        end
      else tokenize_from (Some (l ++ [c])) current rest
  | None, [] => flush current (Ok [])
  | None, c :: rest =>
      if is_space c then flush current (tokenize_from None [] rest)
      else if bool_decide (c = quote) then flush current (tokenize_from (Some [quote]) [] rest)
      else
        let single :=
          if bool_decide (c = "."%byte) && joins_number current (head rest) then
            tokenize_from None (current ++ [c]) rest
          else if bool_decide (c ∈ punctuation) then flush current (push [c] (tokenize_from None [] rest))
          else tokenize_from None (current ++ [c]) rest in
        match rest with
        | n :: rest' =>
            if bool_decide (c ∈ str "!<>") && bool_decide (n = "="%byte) then
              flush current (push [c; n] (tokenize_from None [] rest'))
            else if bool_decide (c = "<"%byte) && bool_decide (n = ">"%byte) then
              flush current (push (str "<>") (tokenize_from None [] rest'))
            else single
        | [] => single
        end
  end.

Definition tokenize (sql : bytes) : res (list bytes) := tokenize_from None [] sql.

(** * Printing tokens *)

(** The characters of names, numbers and [||]. *)
Definition is_word (c : byte) : bool :=
  negb (is_space c) && negb (bool_decide (c = quote)) && negb (bool_decide (c ∈ str "!<>")) &&
  negb (bool_decide (c ∈ punctuation)).

Definition word_ok (t : bytes) : bool := negb (bool_decide (t = [])) && forallb is_word t.

Definition operators : list bytes := [str "!="; str "<="; str ">="; str "<>"; str "<"; str ">"].

Definition quoted (s : bytes) : bytes := quote :: s ++ [quote].

(** A token, by what its text is. *)
Inductive lexeme := Word (w : bytes) | Mark (c : byte) | Compare (op : bytes) | Quoted (s : bytes).

Definition lexeme_ok (x : lexeme) : bool :=
  match x with
  | Word w => word_ok w
  | Mark c => bool_decide (c ∈ punctuation)
  | Compare op => bool_decide (op ∈ operators)
  | Quoted _ => true
  end.

Definition text (x : lexeme) : bytes :=
  match x with Word w => w | Mark c => [c] | Compare op => op | Quoted s => quoted s end.

(** A quote inside a literal is written twice. *)
Definition escape (s : bytes) : bytes :=
  s ≫= fun c => if bool_decide (c = quote) then [quote; quote] else [c].

Definition spell (x : lexeme) : bytes :=
  match x with Quoted s => quote :: escape s ++ [quote] | _ => text x end.

(** The tokens, a space after each. *)
Definition spell_all (xs : list lexeme) : bytes := xs ≫= fun x => spell x ++ str " ".

(** * Tokenizing what was printed *)

Lemma flush_push current r : current <> [] -> flush current r = push current r.
Proof. intros H. unfold flush. by rewrite bool_decide_eq_false_2. Qed.

Lemma tokenize_space current sql :
  tokenize_from None current (str " " ++ sql) = flush current (tokenize_from None [] sql).
Proof. reflexivity. Qed.

Lemma is_word_spec c :
  is_word c = true ->
  is_space c = false /\ c <> quote /\ c ∉ str "!<>" /\ c ∉ punctuation.
Proof.
  unfold is_word. rewrite !andb_true_iff, !negb_true_iff, !bool_decide_eq_false. tauto.
Qed.

Lemma tokenize_word_char current c sql :
  is_word c = true -> tokenize_from None current (c :: sql) = tokenize_from None (current ++ [c]) sql.
Proof.
  intros (S & Q & L & P)%is_word_spec. cbn [tokenize_from]. rewrite S, (bool_decide_eq_false_2 (c = quote)) by done.
  rewrite (bool_decide_eq_false_2 (c ∈ punctuation)) by done.
  assert (c <> "."%byte) by (intros ->; apply P; by apply (bool_decide_unpack _)).
  assert (c <> "<"%byte) by (intros ->; apply L; by apply (bool_decide_unpack _)).
  rewrite (bool_decide_eq_false_2 (c = "."%byte)), (bool_decide_eq_false_2 (c ∈ str "!<>")),
    (bool_decide_eq_false_2 (c = "<"%byte)) by done.
  by destruct sql.
Qed.

Lemma tokenize_word current w sql :
  forallb is_word w = true -> tokenize_from None current (w ++ sql) = tokenize_from None (current ++ w) sql.
Proof.
  revert current. induction w as [|c w IH]; intros current H; cbn [app].
  - by rewrite app_nil_r.
  - cbn in H. apply andb_true_iff in H as [Hc Hw]. rewrite tokenize_word_char by done.
    rewrite IH by done. by rewrite <- app_assoc.
Qed.

Lemma tokenize_literal l s c sql :
  c <> quote ->
  tokenize_from (Some l) [] (escape s ++ quote :: c :: sql) = push (l ++ s ++ [quote]) (tokenize_from None [] (c :: sql)).
Proof.
  intros Hc. revert l. induction s as [|b s IH]; intros l.
  - cbn [escape mbind list_bind app]. cbn [tokenize_from]. rewrite (bool_decide_eq_true_2 (quote = quote)) by done.
    rewrite (bool_decide_eq_false_2 (c = quote)) by done. reflexivity.
  - change (escape (b :: s)) with ((if bool_decide (b = quote) then [quote; quote] else [b]) ++ escape s).
    case_bool_decide as E; cbn [app]; cbn [tokenize_from].
    + subst b. rewrite !(bool_decide_eq_true_2 (quote = quote)) by done. rewrite IH.
      by rewrite <- app_assoc.
    + rewrite (bool_decide_eq_false_2 (b = quote)) by done. rewrite IH. by rewrite <- app_assoc.
Qed.

Lemma tokenize_spell x sql :
  lexeme_ok x = true -> tokenize_from None [] (spell x ++ str " " ++ sql) = push (text x) (tokenize_from None [] sql).
Proof.
  destruct x as [w|c|op|s]; cbn [lexeme_ok spell text]; intros H.
  - apply andb_true_iff in H as [Hn Hw]. rewrite negb_true_iff, bool_decide_eq_false in Hn.
    rewrite tokenize_word by done. rewrite tokenize_space. by apply flush_push.
  - apply bool_decide_eq_true in H. repeat (apply elem_of_cons in H as [->|H]; [reflexivity|]).
    by apply elem_of_nil in H.
  - apply bool_decide_eq_true in H. repeat (apply elem_of_cons in H as [->|H]; [reflexivity|]).
    by apply elem_of_nil in H.
  - cbn [app tokenize_from]. rewrite <- app_assoc. cbn [app].
    change (is_space quote) with false. rewrite (bool_decide_eq_true_2 (quote = quote)) by done.
    change (str " " ++ sql) with (" "%byte :: sql). rewrite tokenize_literal by done. reflexivity.
Qed.

(** The text of a token list gives its tokens. *)
Lemma tokenize_spell_all xs :
  forallb lexeme_ok xs = true -> tokenize (spell_all xs) = Ok (map text xs).
Proof.
  unfold tokenize. induction xs as [|x xs IH]; intros H; [reflexivity|].
  cbn in H. apply andb_true_iff in H as [Hx Hxs].
  change (spell_all (x :: xs)) with ((spell x ++ str " ") ++ spell_all xs).
  rewrite <- app_assoc, tokenize_spell by done. by rewrite IH.
Qed.
