(* ===== verification/Parser.v ===== *)
(** The grammatical half of [src/sql/parser.cpp] (class [Parser]), on the tokens
    of [Lexer]: every statement of [Parser::parse], with the statements of
    [include/corodb/ast/ast.h].

    A member function of the parser reads [tokens_] from [pos_] on and moves
    [pos_]; here it takes the tokens that are left and gives its value with the
    tokens left after it, or the exception it throws.  The text a message adds
    after its constant part is left out.  Loops and the recursion between the
    member functions run on fuel taken from the number of tokens left; running
    out of it is an outcome of its own, [Out], and the last part of the file
    shows that no text makes the parser reach it. *)
From Stdlib Require Import ZArith Lia Strings.Byte.
From stdpp Require Import base numbers list gmap strings.
From S2P Require Import Prelude Values Doubles Eval Query Logical Lexer.
Local Open Scope Z_scope.

(** * Numbers: [std::stoll] and [std::stod] *)

Definition digit_value (c : byte) : Z := b2z c - 48.
Definition is_xdigit (c : byte) : bool :=
  is_digit c || ((65 <=? b2z c) && (b2z c <=? 70)) || ((97 <=? b2z c) && (b2z c <=? 102)).
Definition xdigit_value (c : byte) : Z :=
  if is_digit c then digit_value c else if b2z c <=? 70 then b2z c - 55 else b2z c - 87.

Fixpoint span (f : byte -> bool) (s : bytes) : bytes * bytes :=
  match s with
  | c :: s' => if f c then let '(a, b) := span f s' in (c :: a, b) else ([], s)
  | [] => ([], [])
  end.

(** The value of digits, most significant first. *)
Definition number_of (base : Z) (value : byte -> Z) (ds : bytes) : Z :=
  fold_left (fun n d => base * n + value d) ds 0.

Definition split_sign (s : bytes) : bool * bytes :=
  match s with
  | c :: s' => if bool_decide (c = "-"%byte) then (true, s') else if bool_decide (c = "+"%byte) then (false, s') else (false, s)
  | [] => (false, [])
  end.

(** The longest prefix that is a number counts; what follows it is ignored. *)
Definition stoll (s : bytes) : res Z :=
  let '(neg, s) := split_sign s in
  let ds := (span is_digit s).1 in
  let n := number_of 10 digit_value ds in
  let v := if (neg : bool) then - n else n in
  if bool_decide (ds = []) then Throw "stoll"
  else if (- 2 ^ 63 <=? v) && (v <? 2 ^ 63) then Ok v else Throw "stoll".

(** [num / den] rounded to the nearest double, ties to even.  [strtod] reports a
    range error on overflow, and on a result that is tiny and not exact. *)
Definition round_double (num den : Z) : res Z :=
  if num =? 0 then Ok 0
  else
    let k := let k := Z.log2 num - Z.log2 den in
             if 0 <=? k then (if num <? den * 2 ^ k then k - 1 else k)
             else (if num * 2 ^ (- k) <? den then k - 1 else k) in
    let e := Z.max (- 1074) (k - 52) in
    let m := if 0 <=? e then round_div num (den * 2 ^ e) else round_div (num * 2 ^ (- e)) den in
    let bits := (e + 1074) * 2 ^ 52 + m in
    let tiny := (k <? - 1022) && (round_div (num * 2 ^ 1075) den <? 2 ^ 53) &&
                negb (num * 2 ^ 1074 mod den =? 0) in
    if (0x7FF0000000000000 <=? bits) || tiny then Throw "stod" else Ok bits.

(** [mark] and an exponent, when one follows. *)
Definition exponent (mark : list byte) (s : bytes) : Z :=
  match s with
  | c :: s' =>
      if bool_decide (c ∈ mark) then
        let '(neg, s') := split_sign s' in
        let n := number_of 10 digit_value (span is_digit s').1 in if (neg : bool) then - n else n
      else 0
  | [] => 0
  end.

(** Digits with a point among them: their value, how many are after the point,
    and what follows. *)
Definition mantissa (f : byte -> bool) (base : Z) (value : byte -> Z) (s : bytes) : option (Z * nat * bytes) :=
  let '(ip, s1) := span f s in
  let '(fp, s2) := match s1 with
                   | c :: s' => if bool_decide (c = "."%byte) then span f s' else ([], s1)
                   | [] => ([], s1)
                   end in
  if bool_decide (ip ++ fp = []) then None else Some (number_of base value (ip ++ fp), length fp, s2).

(** Decimal and hexadecimal forms; tokens that spell an infinity or a NaN do not
    come here, as they do not start with a digit. *)
Definition stod (s : bytes) : res Z :=
  let '(neg, s) := split_sign s in
  let hex := match s with
             | z :: x :: s' => if bool_decide (z = "0"%byte) && bool_decide (x ∈ str "xX")
                               then mantissa is_xdigit 16 xdigit_value s' else None
             | _ => None
             end in
  let scaled num den := d ← round_double num den; Ok (sign_bit neg + d) in
  match hex with
  | Some (m, k, s') =>
      let e := exponent (str "pP") s' - 4 * Z.of_nat k in
      if 0 <=? e then scaled (m * 2 ^ e) 1 else scaled m (2 ^ (- e))
  | None =>
      match mantissa is_digit 10 digit_value s with
      | Some (m, k, s') =>
          let e := exponent (str "eE") s' - Z.of_nat k in
          if 0 <=? e then scaled (m * 10 ^ e) 1 else scaled m (10 ^ (- e))
      | None => Throw "stod"
      end
  end.

(** * Statements *)

(** A SELECT with the arms of its UNION, each with its ALL flag.  Subqueries are
    such statements too. *)
Inductive Query := mkQuery (core : SelectStmt Query) (unions : list (bool * SelectStmt Query)).

Inductive UserRole := Admin | ReadWrite | ReadOnly.

Inductive Stmt :=
| SelectQ (q : Query)
| Insert (table : bytes) (columns : list bytes) (rows : list (list Expression))
| Update (table : bytes) (assignments : list (bytes * Expression)) (where_ : option (BoolExpr Query))
| Delete (table : bytes) (where_ : option (BoolExpr Query))
| Create (table : bytes) (columns : list ColumnDef)
| CreateIndex (index_name table : bytes) (columns : list bytes)
| DropTable (table : bytes) (if_exists : bool)
| DropIndex (index_name table : bytes) (if_exists : bool)
| Begin
| CommitTxn
| Rollback (savepoint : option bytes)
| SavepointStmt (name : bytes)
| ReleaseSavepoint (name : bytes)
| Checkpoint
| ShowStatus
| Prepare (name sql : bytes)
| Execute (name : bytes) (params : list Value)
| Deallocate (name : bytes)
| Auth (username password : bytes)
| CreateUser (username password : bytes) (role : UserRole)
| SetTransaction (isolation_level : Z)
| Analyze (table_name : bytes)
| Backup (target_dir : bytes)
| Explain (inner : Stmt) (analyze : bool).

(** * The parser's effects *)

Inductive outcome (A : Type) :=
| Got (a : A) (rest : list bytes)
| Failed (what : string)
| Out.
Arguments Got {A}. Arguments Failed {A}. Arguments Out {A}.

Definition P (A : Type) : Type := list bytes -> outcome A.

#[export] Instance p_ret : MRet P := fun A a ts => Got a ts.
#[export] Instance p_bind : MBind P := fun A B f p ts =>
  match p ts with Got a ts' => f a ts' | Failed w => Failed w | Out => Out end.
#[export] Instance p_fmap : FMap P := fun A B f p => a ← p; mret (f a).

Definition fail {A} (w : string) : P A := fun _ => Failed w.
Definition lift {A} (r : res A) : P A := fun ts =>
  match r with Ok a => Got a ts | Throw w => Failed w | UB w => Failed w end.

(** A loop: the body says whether to go round again. *)
Fixpoint loop_fuel {A B} (n : nat) (step : A -> P (A + B)) (a : A) : P B := fun ts =>
  match n with
  | O => Out
  | S n => match step a ts with
           | Got (inl a') ts' => loop_fuel n step a' ts'
           | Got (inr b) ts' => Got b ts'
           | Failed w => Failed w
           | Out => Out
           end
  end.
Definition loop {A B} (step : A -> P (A + B)) (a : A) : P B := fun ts => loop_fuel (S (length ts)) step a ts.

(** * Tokens *)

Definition is_identifier (t : bytes) : bool :=
  match t with c :: _ => is_alpha c || bool_decide (c = "_"%byte) | [] => false end.

Definition consume : P bytes := fun ts =>
  match ts with t :: ts => Got t ts | [] => Failed "[Parser] Unexpected end of input" end.

Definition consume_identifier : P bytes :=
  t ← consume; if is_identifier t then mret t else fail "[Parser] Expected identifier, got ".

Definition comparison_operators : list bytes :=
  [str "="; str "!="; str "<>"; str "<"; str "<="; str ">"; str ">="].

Definition consume_operator : P bytes :=
  t ← consume;
  if bool_decide (t ∈ comparison_operators) then mret t else fail "[Parser] Expected comparison operator, got: ".

Definition match_with (f : bytes -> bool) : P bool := fun ts =>
  match ts with t :: ts' => if f t then Got true ts' else Got false ts | [] => Got false ts end.

Definition match_text (s : string) : P bool := match_with (fun t => bool_decide (t = str s)).
Definition match_keyword (kw : string) : P bool := match_with (fun t => bool_decide (upper t = str kw)).

Definition expect_keyword (kw : string) : P unit :=
  b ← match_keyword kw; if (b : bool) then mret tt else fail "[Parser] Expected keyword: ".
Definition expect_text (s : string) : P unit :=
  b ← match_text s; if (b : bool) then mret tt else fail "[Parser] Expected token ".

Definition peek_is_identifier : P bool := fun ts =>
  Got (match ts with t :: _ => is_identifier t | [] => false end) ts.
Definition peek_upper : P bytes := fun ts =>
  Got (match ts with t :: _ => upper t | [] => [] end) ts.

Definition is_quoted (t : bytes) : bool :=
  (2 <=? length t)%nat && bool_decide (head t = Some quote) && bool_decide (last t = Some quote).
(** [substr(1, size() - 2)]. *)
Definition unquote (t : bytes) : bytes := take (length t - 2) (drop 1 t).

Definition kw_in (w : bytes) (l : list string) : bool := existsb (fun s => bool_decide (w = str s)) l.

(** [first; while (match_text(",")) next;] *)
Definition sep_list {A} (p : P A) : P (list A) :=
  x ← p;
  loop (fun acc => b ← match_text ",";
                   if (b : bool) then y ← p; mret (inl (acc ++ [y])) else mret (inr acc)) [x].

(** * Literals, columns and aggregates *)

Definition parse_literal : P Value :=
  t ← consume;
  let up := upper t in
  if bool_decide (up = str "NULL") then mret VNull
  else if bool_decide (up = str "TRUE") then mret (VInt 1)
  else if bool_decide (up = str "FALSE") then mret (VInt 0)
  else if match t with c :: t' => is_digit c || (bool_decide (c = "-"%byte) && negb (bool_decide (t' = []))) | [] => false end then
    if bool_decide ("."%byte ∈ t) then d ← lift (stod t); mret (VDouble d)
    else n ← lift (stoll t); mret (VInt n)
  else if is_quoted t then mret (VText (unquote t))
  else fail "[Parser] Invalid literal: ".

Definition parse_int_literal : P Z :=
  t ← consume;
  if match t with c :: _ => is_digit c | [] => false end then lift (stoll t)
  else fail "[Parser] Expected integer literal, got ".

Definition parse_literal_expression : P Expression := ELiteral <$> parse_literal.

Definition parse_column_ref : P ColumnRef :=
  ident ← consume_identifier;
  b ← match_text ".";
  if (b : bool) then col ← consume_identifier; mret (mkRef ident col)
  else mret (mkRef [] ident).

Definition aggregate_names : list string := ["COUNT"; "SUM"; "AVG"; "MIN"; "MAX"]%string.
Definition scalar_names : list string :=
  ["COALESCE"; "NULLIF"; "UPPER"; "LOWER"; "LENGTH"; "TRIM"; "SUBSTR"; "ABS"]%string.

Definition agg_of_name (func : bytes) : AggFunc :=
  if bool_decide (func = str "SUM") then Sum
  else if bool_decide (func = str "AVG") then Avg
  else if bool_decide (func = str "MIN") then Min
  else if bool_decide (func = str "MAX") then Max
  else Count.

Definition parse_aggregate : P AggregateExpr :=
  name ← consume_identifier;
  let func := upper name in
  _ ← expect_text "(";
  star ← match_text "*";
  if (star : bool) then _ ← expect_text ")"; mret (mkAgg (agg_of_name func) None)
  else col ← parse_column_ref; _ ← expect_text ")"; mret (mkAgg (agg_of_name func) (Some col)).

Definition scalar_of_name (func : bytes) : option ScalarFunc :=
  if bool_decide (func = str "COALESCE") then Some Coalesce
  else if bool_decide (func = str "NULLIF") then Some Nullif
  else if bool_decide (func = str "UPPER") then Some Upper
  else if bool_decide (func = str "LOWER") then Some Lower
  else if bool_decide (func = str "LENGTH") then Some Length
  else if bool_decide (func = str "TRIM") then Some Trim
  else if bool_decide (func = str "SUBSTR") then Some Substr
  else if bool_decide (func = str "ABS") then Some Abs
  else None.

Definition arity_ok (f : ScalarFunc) (n : nat) : bool :=
  match f with
  | Nullif => (n =? 2)%nat
  | Upper | Lower | Length | Trim | Abs => (n =? 1)%nat
  | Substr => negb ((n <? 2)%nat || (3 <? n)%nat)
  | Coalesce => negb (n =? 0)%nat
  end.
Definition arity_error (f : ScalarFunc) : string :=
  match f with
  | Nullif => "[Parser] NULLIF requires exactly 2 arguments"
  | Upper | Lower | Length | Trim | Abs => "[Parser] requires exactly 1 argument"
  | Substr => "[Parser] SUBSTR requires 2 or 3 arguments"
  | Coalesce => "[Parser] COALESCE requires at least 1 argument"
  end.

(** * Expressions *)

Definition as_expression (a : AggregateExpr) : Expression := EAggregate (agg_func a) (agg_arg a).

Section Expressions.
(** [parse_expression] on the tokens after a parenthesis. *)
Variable expression : P Expression.

Definition parse_scalar_function : P Expression :=
  name ← consume_identifier;
  _ ← expect_text "(";
  match scalar_of_name (upper name) with
  | None => fail "[Parser] Unknown scalar function: "
  | Some func =>
      none ← match_text ")";
      args ← (if (none : bool) then mret [] else args ← sep_list expression; _ ← expect_text ")"; mret args);
      if arity_ok func (length args) then mret (EFunction func args) else fail (arity_error func)
  end.

Definition parse_factor : P Expression :=
  b ← match_text "(";
  if (b : bool) then inner ← expression; _ ← expect_text ")"; mret inner
  else
    id ← peek_is_identifier;
    if (id : bool) then
      ident ← peek_upper;
      if bool_decide (ident = str "NULL") then _ ← consume; mret (ELiteral VNull)
      else if bool_decide (ident = str "TRUE") then _ ← consume; mret (ELiteral (VInt 1))
      else if bool_decide (ident = str "FALSE") then _ ← consume; mret (ELiteral (VInt 0))
      else if kw_in ident aggregate_names then as_expression <$> parse_aggregate
      else if kw_in ident scalar_names then parse_scalar_function
      else EColumn <$> parse_column_ref
    else ELiteral <$> parse_literal.

(** The loop of a level of binary operators, left-associative: the first
    operator of [ops] that is next is taken. *)
Fixpoint match_op (ops : list (string * BinOp)) : P (option BinOp) :=
  match ops with
  | [] => mret None
  | (s, op) :: ops => b ← match_text s; if (b : bool) then mret (Some op) else match_op ops
  end.

Definition binary_step (ops : list (string * BinOp)) (operand : P Expression) (lhs : Expression) : P (Expression + Expression) :=
  o ← match_op ops;
  match o with
  | Some op => rhs ← operand; mret (inl (EBinary op lhs rhs))
  | None => mret (inr lhs)
  end.

Definition binary_level (ops : list (string * BinOp)) (operand : P Expression) : P Expression :=
  lhs ← operand; loop (binary_step ops operand) lhs.

Definition term_ops : list (string * BinOp) := [("*", Mul); ("/", Div); ("%", Mod)]%string.
Definition additive_ops : list (string * BinOp) := [("+", Add); ("-", Sub)]%string.
Definition concat_ops : list (string * BinOp) := [("||", Concat)]%string.

Definition parse_term : P Expression := binary_level term_ops parse_factor.
Definition parse_additive : P Expression := binary_level additive_ops parse_term.
Definition expression_body : P Expression := binary_level concat_ops parse_additive.
End Expressions.

Fixpoint parse_expression_fuel (n : nat) (ts : list bytes) : outcome Expression :=
  match n with
  | O => Out
  | S n => expression_body (parse_expression_fuel n) ts
  end.
Definition parse_expression : P Expression := fun ts => parse_expression_fuel (S (length ts)) ts.

(** * Predicates *)

Definition compare_op_of (t : bytes) : option CompareOp :=
  if bool_decide (t = str "=") then Some Eq
  else if bool_decide (t = str "!=") || bool_decide (t = str "<>") then Some Ne
  else if bool_decide (t = str "<") then Some Lt
  else if bool_decide (t = str "<=") then Some Le
  else if bool_decide (t = str ">") then Some Gt
  else if bool_decide (t = str ">=") then Some Ge
  else None.

Definition comparison_node (lhs : Expression) (op : CompareOp) (rhs : Expression) : BoolExpr Query :=
  BComparison (Some (mkCmp lhs op rhs)).

Section Predicates.
(** [parse_bool_expr] and [parse_select] on the tokens after a parenthesis. *)
Variable bool_expr : P (BoolExpr Query).
Variable select : P Query.

(** After [IN]: a list of values or a subquery. *)
Definition parse_in (lhs : Expression) (negated : bool) : P (BoolExpr Query) :=
  _ ← expect_text "(";
  up ← peek_upper;
  i ← (if bool_decide (up = str "SELECT") then sub ← select; mret (mkIn lhs [] negated (Some sub) false)
       else values ← sep_list parse_expression; mret (mkIn lhs values negated None false));
  _ ← expect_text ")";
  mret (BIn (Some i)).

Definition parse_comparison : P (BoolExpr Query) :=
  lhs ← parse_expression;
  is_ ← match_keyword "IS";
  if (is_ : bool) then
    negated ← match_keyword "NOT";
    _ ← expect_keyword "NULL";
    mret (comparison_node lhs (if (negated : bool) then IsNotNull else IsNull) (ELiteral VNull))
  else
    negated ← match_keyword "NOT";
    in_ ← match_keyword "IN";
    if (in_ : bool) then parse_in lhs negated
    else
      between ← match_keyword "BETWEEN";
      if (between : bool) then
        low ← parse_expression;
        _ ← expect_keyword "AND";
        high ← parse_expression;
        mret (BBetween (Some (mkBetween lhs low high negated)))
      else
        like ← match_keyword "LIKE";
        if (like : bool) then
          pattern ← parse_expression;
          mret (comparison_node lhs (if (negated : bool) then NotLike else Like) pattern)
        else if (negated : bool) then fail "[Parser] NOT must be followed by IN, BETWEEN, or LIKE"
        else
          op_text ← consume_operator;
          rhs ← parse_expression;
          match compare_op_of op_text with
          | Some op => mret (comparison_node lhs op rhs)
          | None => fail "[Parser] Unknown operator: "
          end.

Definition parse_bool_atom : P (BoolExpr Query) :=
  ex ← match_keyword "EXISTS";
  if (ex : bool) then
    _ ← expect_text "(";
    sub ← select;
    _ ← expect_text ")";
    mret (BIn (Some (mkIn (ELiteral (VInt 1)) [] false (Some sub) true)))
  else
    b ← match_text "(";
    if (b : bool) then e ← bool_expr; _ ← expect_text ")"; mret e
    else parse_comparison.

Definition not_body (operand : P (BoolExpr Query)) : P (BoolExpr Query) :=
  b ← match_keyword "NOT";
  if (b : bool) then e ← operand; mret (BNot (Some e)) else parse_bool_atom.
Fixpoint parse_not_fuel (n : nat) (ts : list bytes) : outcome (BoolExpr Query) :=
  match n with
  | O => Out
  | S n => not_body (parse_not_fuel n) ts
  end.
Definition parse_not : P (BoolExpr Query) := fun ts => parse_not_fuel (S (length ts)) ts.

Definition connective_step (kw : string) (operand : P (BoolExpr Query))
    (node : BoolExpr Query -> BoolExpr Query -> BoolExpr Query) (left : BoolExpr Query) :
    P (BoolExpr Query + BoolExpr Query) :=
  b ← match_keyword kw;
  if (b : bool) then right ← operand; mret (inl (node left right)) else mret (inr left).

Definition and_node (l r : BoolExpr Query) : BoolExpr Query := BAnd (Some l) (Some r).
Definition or_node (l r : BoolExpr Query) : BoolExpr Query := BOr (Some l) (Some r).

Definition parse_and : P (BoolExpr Query) := left ← parse_not; loop (connective_step "AND" parse_not and_node) left.
Definition parse_or : P (BoolExpr Query) := left ← parse_and; loop (connective_step "OR" parse_and or_node) left.
End Predicates.

(** * SELECT *)

Definition select_reserved : list string :=
  ["WHERE"; "GROUP"; "ORDER"; "LIMIT"; "OFFSET"; "JOIN"; "LEFT"; "RIGHT"; "FULL"; "OUTER"; "ON"; "INNER"; "HAVING"; "UNION"]%string.
Definition projection_reserved : list string :=
  ["FROM"; "WHERE"; "GROUP"; "ORDER"; "LIMIT"; "OFFSET"; "JOIN"; "LEFT"; "RIGHT"; "FULL"; "OUTER"; "INNER"]%string.

(** An alias without AS: a name that is not reserved. *)
Definition opt_alias (reserved : list string) : P (option bytes) :=
  id ← peek_is_identifier;
  up ← peek_upper;
  if (id : bool) && negb (kw_in up reserved) then Some <$> consume_identifier else mret None.

(** An aggregate call, when the next token names one, else an expression. *)
Definition parse_key : P SelectValue :=
  id ← peek_is_identifier;
  up ← peek_upper;
  if (id : bool) && kw_in up aggregate_names then SelAgg <$> parse_aggregate else SelExpr <$> parse_expression.

(** [t.*]. *)
Definition match_qualified_star : P (option bytes) := fun ts =>
  match ts with
  | t :: d :: s :: ts' =>
      if is_identifier t && bool_decide (d = str ".") && bool_decide (s = str "*") then Got (Some t) ts' else Got None ts
  | _ => Got None ts
  end.

Definition parse_select_item : P SelectItem :=
  star ← match_text "*";
  if (star : bool) then mret (mkItem (SelExpr (EColumn (mkRef [] (str "*")))) None)
  else
    q ← match_qualified_star;
    match q with
    | Some tbl => mret (mkItem (SelExpr (EColumn (mkRef tbl (str "*")))) None)
    | None =>
        value ← parse_key;
        as_ ← match_keyword "AS";
        alias ← (if (as_ : bool) then Some <$> consume_identifier else opt_alias projection_reserved);
        mret (mkItem value alias)
    end.

Definition parse_projections : P (list SelectItem) := sep_list parse_select_item.

Definition parse_order_item : P OrderByItem :=
  key ← parse_key;
  asc ← match_keyword "ASC";
  if (asc : bool) then mret (mkOrder key true)
  else desc ← match_keyword "DESC"; mret (mkOrder key (negb desc)).
Definition parse_order_by : P (list OrderByItem) := sep_list parse_order_item.

Definition parse_group_by : P (list ColumnRef) := sep_list parse_column_ref.

(** The keywords that start a join, if they are next. *)
Definition outer_join (type : JoinType) : P (option JoinType) :=
  _ ← match_keyword "OUTER"; _ ← expect_keyword "JOIN"; mret (Some type).
Definition match_join : P (option JoinType) :=
  l ← match_keyword "LEFT";
  if (l : bool) then outer_join Left else
  r ← match_keyword "RIGHT";
  if (r : bool) then outer_join Right else
  f ← match_keyword "FULL";
  if (f : bool) then outer_join Full else
  i ← match_keyword "INNER";
  if (i : bool) then _ ← expect_keyword "JOIN"; mret (Some Inner) else
  j ← match_keyword "JOIN";
  mret (if (j : bool) then Some Inner else None).

(** An optional clause [KW body]. *)
Definition clause {A} (kw : string) (p : P A) : P (option A) :=
  b ← match_keyword kw; if (b : bool) then Some <$> p else mret None.
(** An optional clause [KW BY body], empty when it is missing. *)
Definition by_clause {A} (kw : string) (p : P (list A)) : P (list A) :=
  b ← match_keyword kw; if (b : bool) then _ ← expect_keyword "BY"; p else mret [].

Section Select.
Variable bool_expr : P (BoolExpr Query).

Definition join_step (joins : list (Join Query)) : P (list (Join Query) + list (Join Query)) :=
  type ← match_join;
  match type with
  | None => mret (inr joins)
  | Some type =>
      tbl ← consume_identifier;
      alias ← opt_alias select_reserved;
      b ← match_keyword "ON";
      if (b : bool) then on ← bool_expr; mret (inl (joins ++ [mkJoin type tbl (Some on) alias]))
      else fail "[Parser] JOIN without ON is not supported"
  end.

Definition parse_select_core : P (SelectStmt Query) :=
  _ ← expect_keyword "SELECT";
  distinct ← match_keyword "DISTINCT";
  projections ← parse_projections;
  _ ← expect_keyword "FROM";
  base ← consume_identifier;
  base_alias ← opt_alias select_reserved;
  joins ← loop join_step [];
  where_ ← clause "WHERE" bool_expr;
  group_by ← by_clause "GROUP" parse_group_by;
  having ← clause "HAVING" bool_expr;
  order_by ← by_clause "ORDER" parse_order_by;
  limit ← clause "LIMIT" parse_int_literal;
  offset ← clause "OFFSET" parse_int_literal;
  mret (mkSelect projections distinct base base_alias joins where_ order_by group_by having limit offset).

Definition union_step (unions : list (bool * SelectStmt Query)) :
    P (list (bool * SelectStmt Query) + list (bool * SelectStmt Query)) :=
  b ← match_keyword "UNION";
  if (b : bool) then
    all ← match_keyword "ALL";
    next ← parse_select_core;
    mret (inl (unions ++ [(all, next)]))
  else mret (inr unions).

(** Every arm has the first arm's ALL flag. *)
Definition same_flags {A} (unions : list (bool * A)) : bool :=
  match unions with [] => true | (a, _) :: us => forallb (fun u => Bool.eqb u.1 a) us end.

Definition select_body : P Query :=
  first ← parse_select_core;
  unions ← loop union_step [];
  if same_flags unions then mret (mkQuery first unions)
  else fail "[Parser] Mixed UNION and UNION ALL is not supported".
End Select.

Fixpoint parse_bool_expr_fuel (n : nat) (ts : list bytes) : outcome (BoolExpr Query) :=
  match n with
  | O => Out
  | S n => parse_or (parse_bool_expr_fuel n) (parse_select_fuel n) ts
  end
with parse_select_fuel (n : nat) (ts : list bytes) : outcome Query :=
  match n with
  | O => Out
  | S n => select_body (parse_bool_expr_fuel n) ts
  end.
Definition parse_bool_expr : P (BoolExpr Query) := fun ts => parse_bool_expr_fuel (S (length ts)) ts.
Definition parse_select : P Query := fun ts => parse_select_fuel (S (length ts)) ts.

(** * WITH: common table expressions, expanded while parsing *)

Fixpoint requalify_expr (from to : bytes) (e : Expression) : Expression :=
  match e with
  | EColumn c => if bool_decide (ref_table c = from) then EColumn (mkRef to (ref_name c)) else e
  | EBinary op l r => EBinary op (requalify_expr from to l) (requalify_expr from to r)
  | EFunction f args => EFunction f (map (requalify_expr from to) args)
  | _ => e
  end.

Fixpoint requalify_bool (from to : bytes) (b : BoolExpr Query) : BoolExpr Query :=
  let rq := requalify_expr from to in
  let sub o := match o with Some b => Some (requalify_bool from to b) | None => None end in
  match b with
  | BComparison c => BComparison ((fun c => mkCmp (rq (cmp_lhs c)) (cmp_op c) (rq (cmp_rhs c))) <$> c)
  | BAnd l r => BAnd (sub l) (sub r)
  | BOr l r => BOr (sub l) (sub r)
  | BNot l => BNot (sub l)
  | BIn i => BIn ((fun i => mkIn (rq (in_expr i)) (map rq (in_values i)) (in_negated i) (in_subquery i) (in_exists_only i)) <$> i)
  | BBetween b => BBetween ((fun b => mkBetween (rq (btw_expr b)) (rq (btw_low b)) (rq (btw_high b)) (btw_negated b)) <$> b)
  end.

Record CteDef := mkCte { base_table : bytes; cte_where : option (BoolExpr Query) }.

(** [SELECT * FROM table [WHERE ...]] and nothing else. *)
Definition cte_body_ok (body : Query) : bool :=
  match body with
  | mkQuery s unions =>
      match sel_projections s with
      | [mkItem (SelExpr (EColumn c)) _] => bool_decide (ref_name c = str "*")
      | _ => false
      end &&
      match sel_joins s, sel_group_by s, sel_order_by s, unions with [], [], [], [] => true | _, _, _, _ => false end &&
      negb (sel_distinct s) &&
      match sel_having s, sel_limit s, sel_offset s, sel_from_alias s with
      | None, None, None, None => true | _, _, _, _ => false
      end
  end.

Definition cte_step (ctes : gmap bytes CteDef) : P (gmap bytes CteDef + gmap bytes CteDef) :=
  name ← consume_identifier;
  _ ← expect_keyword "AS";
  _ ← expect_text "(";
  body ← parse_select;
  _ ← expect_text ")";
  if cte_body_ok body then
    let 'mkQuery s _ := body in
    match ctes !! name with
    | Some _ => fail "[Parser] Duplicate CTE name"
    | None =>
        let ctes := <[name := mkCte (sel_from s) (sel_where s)]> ctes in
        b ← match_text ",";
        mret (if (b : bool) then inl ctes else inr ctes)
    end
  else fail "[Parser] CTE body must be 'SELECT * FROM table [WHERE ...]' (v1)".

Definition merge_where (d : CteDef) (alias : bytes) (w : option (BoolExpr Query)) : option (BoolExpr Query) :=
  match cte_where d with
  | None => w
  | Some cw =>
      let merged := requalify_bool (base_table d) alias cw in
      Some (match w with Some w => and_node merged w | None => merged end)
  end.

Definition inline_join (ctes : gmap bytes CteDef) (j : Join Query) : res (Join Query) :=
  match ctes !! jn_table j with
  | None => Ok j
  | Some d =>
      if match cte_where d, jn_type j with Some _, (Right | Full) => true | _, _ => false end
      then Throw "[Parser] CTE with WHERE is not supported on the RIGHT/FULL JOIN side (v1)"
      else let alias := default (jn_table j) (jn_alias j) in
           Ok (mkJoin (jn_type j) (base_table d) (merge_where d alias (jn_on j)) (Some alias))
  end.

Definition inline_into (ctes : gmap bytes CteDef) (s : SelectStmt Query) : res (SelectStmt Query) :=
  let '(from, from_alias, where_) :=
    match ctes !! sel_from s with
    | Some d => let alias := default (sel_from s) (sel_from_alias s) in
                (base_table d, Some alias, merge_where d alias (sel_where s))
    | None => (sel_from s, sel_from_alias s, sel_where s)
    end in
  joins ← mapM (inline_join ctes) (sel_joins s);
  Ok (mkSelect (sel_projections s) (sel_distinct s) from from_alias joins where_ (sel_order_by s) (sel_group_by s)
        (sel_having s) (sel_limit s) (sel_offset s)).

Definition inline_query (ctes : gmap bytes CteDef) (q : Query) : res Query :=
  let 'mkQuery s unions := q in
  s ← inline_into ctes s;
  unions ← mapM (fun u => t ← inline_into ctes u.2; Ok (u.1, t)) unions;
  Ok (mkQuery s unions).

Definition parse_with_select : P Query :=
  _ ← expect_keyword "WITH";
  ctes ← loop cte_step ∅;
  main ← parse_select;
  lift (inline_query ctes main).

(** * Data and schema statements *)

Definition parse_row : P (list Expression) :=
  _ ← expect_text "("; row ← sep_list parse_literal_expression; _ ← expect_text ")"; mret row.

Definition parse_insert : P Stmt :=
  _ ← expect_keyword "INSERT";
  _ ← match_keyword "INTO";
  table ← consume_identifier;
  b ← match_text "(";
  columns ← (if (b : bool) then cs ← sep_list consume_identifier; _ ← expect_text ")"; mret cs else mret []);
  _ ← expect_keyword "VALUES";
  rows ← sep_list parse_row;
  mret (Insert table columns rows).

Definition parse_assignment : P (bytes * Expression) :=
  col ← consume_identifier; _ ← expect_text "="; e ← parse_expression; mret (col, e).

Definition parse_update : P Stmt :=
  _ ← expect_keyword "UPDATE";
  table ← consume_identifier;
  _ ← expect_keyword "SET";
  assigns ← sep_list parse_assignment;
  where_ ← clause "WHERE" parse_bool_expr;
  mret (Update table assigns where_).

Definition parse_delete : P Stmt :=
  _ ← expect_keyword "DELETE";
  _ ← match_keyword "FROM";
  table ← consume_identifier;
  where_ ← clause "WHERE" parse_bool_expr;
  mret (Delete table where_).

Definition type_of_name (kw : bytes) : option TypeKind :=
  if kw_in kw ["INT"; "INT64"; "BIGINT"]%string then Some Int64
  else if kw_in kw ["BOOL"; "BOOLEAN"]%string then Some Boolean
  else if kw_in kw ["TEXT"; "STRING"; "VARCHAR"]%string then Some Text
  else if kw_in kw ["DATE"; "TIMESTAMP"; "DATETIME"]%string then Some Date
  else if kw_in kw ["FLOAT"; "DOUBLE"; "FLOAT64"]%string then Some Float64
  else if kw_in kw ["DECIMAL"; "NUMERIC"]%string then Some Decimal
  else None.

Definition constraint_step (d : ColumnDef) : P (ColumnDef + ColumnDef) :=
  kw ← peek_upper;
  if bool_decide (kw = str "PRIMARY") then
    _ ← expect_keyword "PRIMARY"; _ ← expect_keyword "KEY";
    mret (inl (mkDef (cd_name d) (cd_type d) true true (cd_default d)))
  else if bool_decide (kw = str "NOT") then
    _ ← expect_keyword "NOT"; _ ← expect_keyword "NULL";
    mret (inl (mkDef (cd_name d) (cd_type d) (cd_primary_key d) true (cd_default d)))
  else if bool_decide (kw = str "DEFAULT") then
    _ ← expect_keyword "DEFAULT"; v ← parse_literal;
    mret (inl (mkDef (cd_name d) (cd_type d) (cd_primary_key d) (cd_not_null d) (Some (ELiteral v))))
  else mret (inr d).

Definition parse_column_def : P ColumnDef :=
  col_name ← consume_identifier;
  type_kw ← consume_identifier;
  match type_of_name (upper type_kw) with
  | None => fail "[Parser] Unsupported column type: "
  | Some type => loop constraint_step (mkDef col_name type false false None)
  end.

Definition parse_create_table : P Stmt :=
  _ ← expect_keyword "TABLE";
  table ← consume_identifier;
  _ ← expect_text "(";
  none ← match_text ")";
  cols ← (if (none : bool) then mret [] else cs ← sep_list parse_column_def; _ ← expect_text ")"; mret cs);
  mret (Create table cols).

Definition parse_create_index : P Stmt :=
  _ ← expect_keyword "INDEX";
  index ← consume_identifier;
  _ ← expect_keyword "ON";
  table ← consume_identifier;
  _ ← expect_text "(";
  columns ← sep_list consume_identifier;
  _ ← expect_text ")";
  mret (CreateIndex index table columns).

(** A string literal, or the error. *)
Definition parse_quoted (w : string) : P bytes :=
  t ← consume; if is_quoted t then mret (unquote t) else fail w.

Definition parse_role : P UserRole :=
  b ← match_keyword "ROLE";
  if (b : bool) then
    name ← consume_identifier;
    let role := upper name in
    if bool_decide (role = str "ADMIN") then mret Admin
    else if bool_decide (role = str "READ_WRITE") then mret ReadWrite
    else if bool_decide (role = str "READ_ONLY") then mret ReadOnly
    else fail "[Parser] Unknown role: "
  else mret ReadWrite.

Definition parse_create_user : P Stmt :=
  _ ← consume;
  username ← consume_identifier;
  password ← parse_quoted "[Parser] CREATE USER requires a password string literal";
  role ← parse_role;
  mret (CreateUser username password role).

Definition parse_create : P Stmt :=
  _ ← expect_keyword "CREATE";
  kw ← peek_upper;
  if bool_decide (kw = str "TABLE") then parse_create_table
  else if bool_decide (kw = str "INDEX") then parse_create_index
  else if bool_decide (kw = str "USER") then parse_create_user
  else fail "[Parser] Unsupported CREATE type: ".

Definition parse_if_exists : P bool :=
  b ← match_keyword "IF"; if (b : bool) then _ ← expect_keyword "EXISTS"; mret true else mret false.

Definition parse_drop : P Stmt :=
  _ ← expect_keyword "DROP";
  kw ← peek_upper;
  if bool_decide (kw = str "TABLE") then
    _ ← expect_keyword "TABLE";
    if_exists ← parse_if_exists;
    table ← consume_identifier;
    mret (DropTable table if_exists)
  else if bool_decide (kw = str "INDEX") then
    _ ← expect_keyword "INDEX";
    if_exists ← parse_if_exists;
    index ← consume_identifier;
    on ← match_keyword "ON";
    table ← (if (on : bool) then consume_identifier else mret []);
    mret (DropIndex index table if_exists)
  else fail "[Parser] Unsupported DROP type: ".

(** * Transaction, session and utility statements *)

(** [if (peek_upper() == kw) consume();] *)
Definition skip_keyword (kw : string) : P unit :=
  up ← peek_upper; if bool_decide (up = str kw) then _ ← consume; mret tt else mret tt.
(** [if (peek_upper() != kw) throw; consume();] *)
Definition demand_keyword (kw w : string) : P unit :=
  up ← peek_upper; if bool_decide (up = str kw) then _ ← consume; mret tt else fail w.

Definition parse_begin : P Stmt := _ ← consume; _ ← skip_keyword "TRANSACTION"; mret Begin.
Definition parse_commit : P Stmt := _ ← consume; _ ← skip_keyword "TRANSACTION"; mret CommitTxn.
Definition parse_rollback : P Stmt :=
  _ ← consume;
  b ← match_keyword "TO";
  if (b : bool) then _ ← match_keyword "SAVEPOINT"; name ← consume_identifier; mret (Rollback (Some name))
  else _ ← skip_keyword "TRANSACTION"; mret (Rollback None).
Definition parse_savepoint : P Stmt := _ ← consume; name ← consume_identifier; mret (SavepointStmt name).
Definition parse_release : P Stmt :=
  _ ← consume; _ ← match_keyword "SAVEPOINT"; name ← consume_identifier; mret (ReleaseSavepoint name).
Definition parse_checkpoint : P Stmt := _ ← consume; mret Checkpoint.
Definition parse_show : P Stmt := _ ← consume; _ ← demand_keyword "STATUS" "[Parser] SHOW expects STATUS"; mret ShowStatus.

Definition parse_prepare : P Stmt :=
  _ ← consume;
  name ← consume_identifier;
  _ ← skip_keyword "FROM";
  sql ← parse_quoted "[Parser] PREPARE requires a SQL string literal";
  mret (Prepare name sql).

Definition parse_execute : P Stmt :=
  _ ← consume;
  name ← consume_identifier;
  b ← match_text "(";
  params ← (if (b : bool) then ps ← sep_list parse_literal; _ ← expect_text ")"; mret ps else mret []);
  mret (Execute name params).

Definition parse_deallocate : P Stmt :=
  _ ← consume;
  kw ← peek_upper;
  if bool_decide (kw = str "PREPARE") || bool_decide (kw = str "ALL") then
    _ ← consume;
    name ← (if bool_decide (kw = str "PREPARE") then consume_identifier else mret []);
    mret (Deallocate name)
  else fail "[Parser] DEALLOCATE expects PREPARE or ALL".

Definition parse_auth : P Stmt :=
  _ ← consume;
  username ← consume_identifier;
  password ← parse_quoted "[Parser] AUTH requires a password string literal";
  mret (Auth username password).

Definition parse_level : P Z :=
  first ← peek_upper;
  _ ← consume;
  if bool_decide (first = str "READ") then
    second ← peek_upper;
    _ ← consume;
    if bool_decide (second = str "UNCOMMITTED") then mret 0
    else if bool_decide (second = str "COMMITTED") then mret 1
    else fail "[Parser] Unknown isolation: READ "
  else if bool_decide (first = str "REPEATABLE") then
    second ← peek_upper;
    _ ← consume;
    if bool_decide (second = str "READ") then mret 2 else fail "[Parser] Expected REPEATABLE READ"
  else if bool_decide (first = str "SERIALIZABLE") then mret 3
  else fail "[Parser] Unknown isolation level: ".

Definition parse_set : P Stmt :=
  _ ← consume;
  _ ← demand_keyword "TRANSACTION" "[Parser] Only SET TRANSACTION ... is supported";
  _ ← demand_keyword "ISOLATION" "[Parser] Expected ISOLATION after SET TRANSACTION";
  _ ← demand_keyword "LEVEL" "[Parser] Expected LEVEL after ISOLATION";
  level ← parse_level;
  mret (SetTransaction level).

Definition parse_analyze : P Stmt :=
  _ ← consume;
  _ ← match_keyword "TABLE";
  id ← peek_is_identifier;
  if (id : bool) then name ← consume_identifier; mret (Analyze name) else mret (Analyze []).

Definition parse_backup : P Stmt :=
  _ ← consume;
  _ ← expect_keyword "TO";
  t ← consume;
  let dir := if is_quoted t then unquote t else t in
  if bool_decide (dir = []) then fail "[Parser] BACKUP requires a target directory: BACKUP TO 'dir'"
  else mret (Backup dir).

Definition parse_explain : P Stmt :=
  _ ← expect_keyword "EXPLAIN";
  analyze ← match_keyword "ANALYZE";
  head ← peek_upper;
  inner ← (if bool_decide (head = str "SELECT") then SelectQ <$> parse_select
           else if bool_decide (head = str "INSERT") then parse_insert
           else if bool_decide (head = str "UPDATE") then parse_update
           else if bool_decide (head = str "DELETE") then parse_delete
           else fail "[Parser] EXPLAIN requires a query statement");
  mret (Explain inner analyze).

(** * [Parser::parse] *)

(** The statements by their first word, in the order of the tests. *)
Definition parsers : list (string * P Stmt) :=
  [("EXPLAIN", parse_explain); ("CREATE", parse_create); ("DROP", parse_drop); ("SELECT", SelectQ <$> parse_select);
   ("WITH", SelectQ <$> parse_with_select); ("INSERT", parse_insert); ("UPDATE", parse_update); ("DELETE", parse_delete);
   ("BEGIN", parse_begin); ("COMMIT", parse_commit); ("ROLLBACK", parse_rollback); ("SAVEPOINT", parse_savepoint);
   ("RELEASE", parse_release); ("CHECKPOINT", parse_checkpoint); ("SHOW", parse_show); ("PREPARE", parse_prepare);
   ("EXECUTE", parse_execute); ("DEALLOCATE", parse_deallocate); ("AUTH", parse_auth); ("SET", parse_set);
   ("ANALYZE", parse_analyze); ("BACKUP", parse_backup)]%string.

Fixpoint dispatch (head : bytes) (l : list (string * P Stmt)) : P Stmt :=
  match l with
  | [] => fail "[Parser] Unsupported statement type: "
  | (kw, p) :: l => if bool_decide (head = str kw) then p else dispatch head l
  end.

Definition parse_statement : P Stmt := head ← peek_upper; dispatch head parsers.

(** The statement with the tokens the parser left unread. *)
Definition parse (sql : bytes) : outcome Stmt :=
  match tokenize sql with
  | Ok tokens => parse_statement tokens
  | Throw w => Failed w
  | UB w => Failed w
  end.
