(* ===== verification/ParserTotal.v ===== *)
(** The parser always answers.  A small program logic bounds how many tokens a
    parser leaves ([leaves]); every loop round and every recursive call has read a
    token before it, so the fuel taken from the number of tokens is enough.  A
    second relation ([refines]) says that more fuel changes no answer; together
    they give the recursive equations of the grammar, free of fuel. *)
From Stdlib Require Import ZArith Lia Strings.Byte.
From stdpp Require Import base numbers list gmap strings.
From S2P Require Import Prelude Values Eval Query Logical Lexer Parser.
Local Open Scope nat_scope.

(** * How many tokens are left *)

(** From [l] tokens [p] does not run out of fuel, and when it gives a value, the
    value and the number of tokens left satisfy [Q]. *)
Definition leaves {A} (p : P A) (l : nat) (Q : A -> nat -> Prop) : Prop :=
  forall ts, length ts = l ->
    match p ts with Got a rest => Q a (length rest) | Failed _ => True | Out => False end.

Section Rules.
Context {A B : Type}.
Implicit Types (p : P A) (l : nat).

Lemma leaves_mono p l (Q R : A -> nat -> Prop) :
  leaves p l Q -> (forall a l', Q a l' -> R a l') -> leaves p l R.
Proof. intros H I ts E. specialize (H ts E). destruct (p ts); auto. Qed.

Lemma leaves_bind p (f : A -> P B) l Q :
  leaves p l (fun a l' => leaves (f a) l' Q) -> leaves (p ≫= f) l Q.
Proof.
  intros H ts E. specialize (H ts E). unfold mbind, p_bind. destruct (p ts) as [a r| |]; [|done|done].
  by apply H.
Qed.

Lemma leaves_fmap p (f : A -> B) l Q : leaves p l (fun a l' => Q (f a) l') -> leaves (f <$> p) l Q.
Proof. intros H. apply leaves_bind. eapply leaves_mono; [exact H|]. intros a l' q ts E. cbn. by rewrite E. Qed.

Lemma leaves_ret (a : A) l Q : Q a l -> leaves (mret a) l Q.
Proof. intros H ts E. cbn. by rewrite E. Qed.

Lemma leaves_fail w l (Q : A -> nat -> Prop) : leaves (fail w) l Q.
Proof. done. Qed.

Lemma leaves_lift (r : res A) l Q : (forall a, Q a l) -> leaves (lift r) l Q.
Proof. intros H ts E. destruct r; cbn; rewrite ?E; auto. Qed.

Lemma leaves_loop (step : A -> P (A + B)) a l Q :
  (forall a l', l' <= l -> leaves (step a) l' (fun r l'' =>
     match r with inl _ => l'' < l' | inr b => l'' <= l' /\ (l'' <= l -> Q b l'') end)) ->
  leaves (loop step a) l Q.
Proof.
  intros H ts E. unfold loop. assert (L : length ts <= l) by lia. clear E.
  assert (forall n a ts, length ts < n -> length ts <= l ->
    match loop_fuel n step a ts with Got b rest => Q b (length rest) | Failed _ => True | Out => False end) as G;
    [|apply G; lia].
  clear a ts L. induction n as [|n IH]; intros a ts Hn Hl; [lia|]. cbn.
  specialize (H a (length ts) Hl ts eq_refl). destruct (step a ts) as [[a'|b] rest| |]; try done.
  - apply IH; lia.
  - destruct H as [H1 H2]. apply H2. lia.
Qed.
End Rules.

Lemma leaves_consume l (Q : bytes -> nat -> Prop) : (forall t l', l = S l' -> Q t l') -> leaves consume l Q.
Proof. intros H [|t ts] E; cbn; [done|]. apply H. by rewrite <- E. Qed.

Lemma leaves_match f l (Q : bool -> nat -> Prop) :
  (forall l', l = S l' -> Q true l') -> Q false l -> leaves (match_with f) l Q.
Proof.
  intros H1 H2 [|t ts] E; cbn; [by rewrite <- E in H2|]. destruct (f t); [by apply H1|]. by rewrite <- E in H2.
Qed.

Lemma leaves_peek {A} (f : list bytes -> A) l (Q : A -> nat -> Prop) :
  (forall a, Q a l) -> leaves (fun ts => Got (f ts) ts) l Q.
Proof. intros H ts E. rewrite E. apply H. Qed.

Lemma leaves_qualified_star l (Q : option bytes -> nat -> Prop) :
  (forall t l', l = S (S (S l')) -> Q (Some t) l') -> Q None l -> leaves match_qualified_star l Q.
Proof.
  intros H1 H2 ts E. unfold match_qualified_star.
  destruct ts as [|t [|d [|s ts]]]; cbn [length] in *; try (by rewrite E).
  destruct (_ && _); cbn [length]; [apply H1; lia|by rewrite E].
Qed.

Create HintDb leaves.
#[export] Hint Resolve leaves_lift : leaves.

(** One step of the calculus: by the shape of the program, or by a lemma on the
    parser it calls. *)
Ltac leaves_step :=
  match goal with
  | |- leaves (_ ≫= _) _ _ => apply leaves_bind
  | |- leaves (mret _) _ _ => apply leaves_ret
  | |- leaves (fail _) _ _ => apply leaves_fail
  | |- leaves (lift _) _ _ => apply leaves_lift; intro
  | |- leaves (_ <$> _) _ _ => apply leaves_fmap
  | |- leaves consume _ _ => apply leaves_consume; intros ? ? ->
  | |- leaves (match_with _) _ _ => apply leaves_match; [intros ? ->|]
  | |- leaves (match_text _) _ _ => unfold match_text
  | |- leaves (match_keyword _) _ _ => unfold match_keyword
  | |- leaves peek_upper _ _ => apply leaves_peek; intro
  | |- leaves peek_is_identifier _ _ => apply leaves_peek; intro
  | |- leaves match_qualified_star _ _ => apply leaves_qualified_star; [intros ? ? ->|]
  | |- leaves (if ?b then _ else _) _ _ => destruct b eqn:?
  | |- leaves (match ?o with _ => _ end) _ _ => destruct o eqn:?
  | |- leaves (loop _ _) _ _ => apply leaves_loop; intros ? ? ?
  | |- leaves _ _ _ => eapply leaves_mono; [solve [eauto with leaves] | cbv beta; intros]
  | |- match ?o with _ => _ end => destruct o
  | |- _ /\ _ => split
  | |- forall _, _ => intro
  end.
Ltac leaves_auto := repeat leaves_step; try (cbn in *; lia).

(** ** Tokens and lists *)

Lemma leaves_identifier l : leaves consume_identifier l (fun _ l' => l' < l).
Proof. unfold consume_identifier. leaves_auto. Qed.
Lemma leaves_operator l : leaves consume_operator l (fun _ l' => l' < l).
Proof. unfold consume_operator. leaves_auto. Qed.
Lemma leaves_expect_keyword kw l : leaves (expect_keyword kw) l (fun _ l' => l' < l).
Proof. unfold expect_keyword. leaves_auto. Qed.
Lemma leaves_expect_text s l : leaves (expect_text s) l (fun _ l' => l' < l).
Proof. unfold expect_text. leaves_auto. Qed.
#[export] Hint Resolve leaves_identifier leaves_operator leaves_expect_keyword leaves_expect_text : leaves.

Lemma leaves_sep_list {A} (p : P A) l :
  (forall l', l' <= l -> leaves p l' (fun _ l'' => l'' < l')) -> leaves (sep_list p) l (fun _ l' => l' < l).
Proof.
  intros H. unfold sep_list. apply leaves_bind. eapply leaves_mono; [apply H; lia|]. cbv beta. intros a l' L.
  apply leaves_loop. intros acc k Hk. leaves_auto. eapply leaves_mono; [apply H; lia|]. cbv beta. intros. leaves_auto.
Qed.

Lemma leaves_literal l : leaves parse_literal l (fun _ l' => l' < l).
Proof. unfold parse_literal. leaves_auto. Qed.
Lemma leaves_int_literal l : leaves parse_int_literal l (fun _ l' => l' < l).
Proof. unfold parse_int_literal. leaves_auto. Qed.
Lemma leaves_literal_expression l : leaves parse_literal_expression l (fun _ l' => l' < l).
Proof. unfold parse_literal_expression. apply leaves_fmap, leaves_literal. Qed.
Lemma leaves_column_ref l : leaves parse_column_ref l (fun _ l' => l' < l).
Proof. unfold parse_column_ref. leaves_auto. Qed.
#[export] Hint Resolve leaves_literal leaves_int_literal leaves_literal_expression leaves_column_ref : leaves.
Lemma leaves_aggregate l : leaves parse_aggregate l (fun _ l' => l' < l).
Proof. unfold parse_aggregate. leaves_auto. Qed.
#[export] Hint Resolve leaves_aggregate : leaves.

(** ** Expressions *)

Lemma leaves_match_op ops l :
  leaves (match_op ops) l (fun o l' => match o with Some _ => l' < l | None => l' = l end).
Proof. induction ops as [|[s op] ops IH]; cbn [match_op]; leaves_auto. Qed.

Lemma leaves_binary ops p l :
  (forall l', l' <= l -> leaves p l' (fun _ l'' => l'' < l')) -> leaves (binary_level ops p) l (fun _ l' => l' < l).
Proof.
  intros H. unfold binary_level. apply leaves_bind. eapply leaves_mono; [apply H; lia|]. cbv beta. intros a l' L.
  apply leaves_loop. intros e k Hk. unfold binary_step. apply leaves_bind.
  eapply leaves_mono; [apply leaves_match_op|]. intros [op|] k'; cbn; intros Lk; leaves_auto.
  eapply leaves_mono; [apply H; lia|]. cbv beta. intros. leaves_auto.
Qed.

Lemma leaves_factor p l :
  (forall l', l' < l -> leaves p l' (fun _ l'' => l'' < l')) -> leaves (parse_factor p) l (fun _ l' => l' < l).
Proof.
  intros H. unfold parse_factor. leaves_auto.
  unfold parse_scalar_function. leaves_auto. eapply leaves_mono; [apply leaves_sep_list; intros; apply H; lia|]. cbv beta. intros. leaves_auto.
Qed.

Lemma leaves_body p l :
  (forall l', l' < l -> leaves p l' (fun _ l'' => l'' < l')) -> leaves (expression_body p) l (fun _ l' => l' < l).
Proof. intros H. repeat (apply leaves_binary; intros). apply leaves_factor. intros. apply H. lia. Qed.

Lemma leaves_expression_fuel n : forall l, l < n -> leaves (parse_expression_fuel n) l (fun _ l' => l' < l).
Proof.
  induction n as [|n IH]; intros l L; [lia|].
  change (parse_expression_fuel (S n)) with (expression_body (parse_expression_fuel n)).
  apply leaves_body. intros l' L'. apply IH. lia.
Qed.

Lemma leaves_expression l : leaves parse_expression l (fun _ l' => l' < l).
Proof. intros ts E. unfold parse_expression. subst l. by apply leaves_expression_fuel; [lia|]. Qed.
#[export] Hint Resolve leaves_expression : leaves.
#[export] Hint Resolve leaves_sep_list : leaves.

(** ** Predicates and queries *)

Section Recursive.
Context (be : P (BoolExpr Query)) (se : P Query) (l : nat).
Hypothesis Hbe : forall l', l' < l -> leaves be l' (fun _ l'' => l'' < l').
Hypothesis Hse : forall l', l' < l -> leaves se l' (fun _ l'' => l'' < l').

Ltac recurse :=
  repeat (leaves_step || (eapply leaves_mono; [first [apply Hbe | apply Hse]; lia | cbv beta; intros]));
  try (cbn in *; lia).

Lemma leaves_in lhs neg k : k < l -> leaves (parse_in se lhs neg) k (fun _ l' => l' < k).
Proof. intros. unfold parse_in. recurse. Qed.

Lemma leaves_comparison k : k <= l -> leaves (parse_comparison se) k (fun _ l' => l' < k).
Proof.
  intros. unfold parse_comparison. recurse.
  all: eapply leaves_mono; [apply leaves_in; lia|]; cbv beta; intros; lia.
Qed.

Lemma leaves_atom k : k <= l -> leaves (parse_bool_atom be se) k (fun _ l' => l' < k).
Proof. intros. unfold parse_bool_atom. recurse. by apply leaves_comparison. Qed.

Lemma leaves_not k : k <= l -> leaves (parse_not be se) k (fun _ l' => l' < k).
Proof.
  assert (forall n k, k <= l -> k < n -> leaves (parse_not_fuel be se n) k (fun _ l' => l' < k)) as G.
  { induction n as [|n IH]; intros j Hj Hn; [lia|].
    change (parse_not_fuel be se (S n)) with (not_body be se (parse_not_fuel be se n)). unfold not_body. recurse.
    - eapply leaves_mono; [apply IH; lia|]. cbv beta. intros. leaves_auto.
    - by apply leaves_atom. }
  intros Hk ts E. unfold parse_not. subst k. by apply G; [lia|lia|].
Qed.

Lemma leaves_connective kw node p k :
  (forall k', k' <= k -> leaves p k' (fun _ l' => l' < k')) ->
  leaves (left ← p; loop (connective_step kw p node) left) k (fun _ l' => l' < k).
Proof.
  intros H. apply leaves_bind. eapply leaves_mono; [apply H; lia|]. cbv beta. intros a k' L.
  apply leaves_loop. intros e j Hj. unfold connective_step. leaves_auto.
  eapply leaves_mono; [apply H; lia|]. cbv beta. intros. leaves_auto.
Qed.

Lemma leaves_or : leaves (parse_or be se) l (fun _ l' => l' < l).
Proof.
  unfold parse_or. apply leaves_connective. intros. unfold parse_and. apply leaves_connective. intros.
  apply leaves_not. lia.
Qed.
End Recursive.

Lemma leaves_alias res l : leaves (opt_alias res) l (fun _ l' => l' <= l).
Proof. unfold opt_alias. leaves_auto. Qed.
Lemma leaves_key l : leaves parse_key l (fun _ l' => l' < l).
Proof. unfold parse_key. leaves_auto. Qed.
#[export] Hint Resolve leaves_alias leaves_key : leaves.

Lemma leaves_select_item l : leaves parse_select_item l (fun _ l' => l' < l).
Proof. unfold parse_select_item. leaves_auto. Qed.
Lemma leaves_order_item l : leaves parse_order_item l (fun _ l' => l' < l).
Proof. unfold parse_order_item. leaves_auto. Qed.
#[export] Hint Resolve leaves_select_item leaves_order_item : leaves.

Lemma leaves_outer_join t l : leaves (outer_join t) l (fun o l' => l' < l).
Proof. unfold outer_join. leaves_auto. Qed.
#[export] Hint Resolve leaves_outer_join : leaves.
Lemma leaves_match_join l : leaves match_join l (fun o l' => match o with Some _ => l' < l | None => l' <= l end).
Proof. unfold match_join. leaves_auto. all: destruct a; lia. Qed.

Lemma leaves_clause {A} kw (p : P A) l :
  (forall l', l' < l -> leaves p l' (fun _ l'' => l'' < l')) -> leaves (clause kw p) l (fun _ l' => l' <= l).
Proof.
  intros H. unfold clause. leaves_auto.
Qed.
Lemma leaves_by_clause {A} kw (p : P (list A)) l :
  (forall l', leaves p l' (fun _ l'' => l'' < l')) -> leaves (by_clause kw p) l (fun _ l' => l' <= l).
Proof. intros H. unfold by_clause. leaves_auto. Qed.

Section Queries.
Context (be : P (BoolExpr Query)) (l : nat).
Hypothesis Hbe : forall l', l' < l -> leaves be l' (fun _ l'' => l'' < l').

Lemma leaves_join_step js k :
  k <= l -> leaves (join_step be js) k (fun r l' => match r with inl _ => l' < k | inr _ => l' <= k end).
Proof.
  intros Hk. unfold join_step. apply leaves_bind. eapply leaves_mono; [apply leaves_match_join|].
  intros [t|] k' L; leaves_auto. eapply leaves_mono; [apply Hbe; lia|]. cbv beta. intros. leaves_auto.
Qed.

Lemma leaves_group_by k : leaves parse_group_by k (fun _ l' => l' < k).
Proof. apply leaves_sep_list. intros. apply leaves_column_ref. Qed.
Lemma leaves_order_by k : leaves parse_order_by k (fun _ l' => l' < k).
Proof. apply leaves_sep_list. intros. apply leaves_order_item. Qed.

Ltac clauses :=
  repeat (leaves_step ||
    (eapply leaves_mono;
     [first [ apply leaves_clause; intros; first [apply Hbe; lia | apply leaves_int_literal]
            | apply leaves_by_clause; intros; first [apply leaves_group_by | apply leaves_order_by]]
     | cbv beta; intros])).

Lemma leaves_select_core k : k <= l -> leaves (parse_select_core be) k (fun _ l' => l' < k).
Proof.
  intros Hk. unfold parse_select_core, parse_projections. repeat leaves_step.
  all: eapply leaves_mono; [apply leaves_join_step; lia|].
  all: intros [js|js] k' L; cbv beta iota in *; [lia|]; split; [lia|]; intros _; clauses; lia.
Qed.

Lemma leaves_select : leaves (select_body be) l (fun _ l' => l' < l).
Proof.
  unfold select_body. apply leaves_bind. eapply leaves_mono; [apply leaves_select_core; lia|]. cbv beta. intros s k Hk.
  apply leaves_bind, leaves_loop. intros us k' Hk'. unfold union_step. repeat leaves_step; try lia.
  all: eapply leaves_mono; [apply leaves_select_core; lia|]; cbv beta; intros; leaves_auto.
Qed.
End Queries.

Lemma leaves_grammar n : forall l, l < n ->
  leaves (parse_bool_expr_fuel n) l (fun _ l' => l' < l) /\ leaves (parse_select_fuel n) l (fun _ l' => l' < l).
Proof.
  induction n as [|n IH]; intros l L; [lia|]. split.
  - change (parse_bool_expr_fuel (S n)) with (parse_or (parse_bool_expr_fuel n) (parse_select_fuel n)).
    apply leaves_or; intros; apply IH; lia.
  - change (parse_select_fuel (S n)) with (select_body (parse_bool_expr_fuel n)).
    apply leaves_select; intros; apply IH; lia.
Qed.

Lemma leaves_bool_expr l : leaves parse_bool_expr l (fun _ l' => l' < l).
Proof. intros ts E. unfold parse_bool_expr. subst l. by apply leaves_grammar; [lia|]. Qed.
Lemma leaves_parse_select l : leaves parse_select l (fun _ l' => l' < l).
Proof. intros ts E. unfold parse_select. subst l. by apply leaves_grammar; [lia|]. Qed.
#[export] Hint Resolve leaves_bool_expr leaves_parse_select leaves_clause : leaves.

(** ** Statements *)

Lemma leaves_row l : leaves parse_row l (fun _ l' => l' < l).
Proof. unfold parse_row. leaves_auto. Qed.
Lemma leaves_assignment l : leaves parse_assignment l (fun _ l' => l' < l).
Proof. unfold parse_assignment. leaves_auto. Qed.
Lemma leaves_quoted w l : leaves (parse_quoted w) l (fun _ l' => l' < l).
Proof. unfold parse_quoted. leaves_auto. Qed.
Lemma leaves_column_def l : leaves parse_column_def l (fun _ l' => l' < l).
Proof. unfold parse_column_def, constraint_step. leaves_auto. Qed.
#[export] Hint Resolve leaves_row leaves_assignment leaves_quoted leaves_column_def : leaves.

Lemma leaves_cte_step ctes l :
  leaves (cte_step ctes) l (fun r l' => l' < l).
Proof. unfold cte_step. leaves_auto. Qed.
#[export] Hint Resolve leaves_cte_step : leaves.

Lemma leaves_with l : leaves parse_with_select l (fun _ l' => l' < l).
Proof.
  unfold parse_with_select. leaves_auto.
Qed.

(** Any text gets an answer, and a statement costs a token at least. *)
Lemma leaves_statement l : leaves parse_statement l (fun _ l' => l' < l).
Proof.
  unfold parse_statement. leaves_auto. unfold parsers. cbn [dispatch].
  repeat match goal with |- leaves (if ?b then _ else _) _ _ => destruct b end.
  all: unfold parse_explain, parse_create, parse_create_table, parse_create_index, parse_create_user, parse_role,
    parse_drop, parse_if_exists, parse_insert, parse_update, parse_delete, parse_begin, parse_commit, parse_rollback,
    parse_savepoint, parse_release, parse_checkpoint, parse_show, parse_prepare, parse_execute, parse_deallocate,
    parse_auth, parse_set, parse_level, parse_analyze, parse_backup, skip_keyword, demand_keyword.
  all: leaves_auto.
  all: eapply leaves_mono; [apply leaves_with|]; cbv beta; intros; lia.
Qed.

(** * More fuel changes no answer *)

(** Where [p] answers, [q] gives the same answer. *)
Definition refines {A} (p q : P A) : Prop := forall ts, p ts = Out \/ p ts = q ts.

Lemma refines_refl {A} (p : P A) : refines p p.
Proof. by right. Qed.

Lemma refines_trans {A} (p q r : P A) : refines p q -> refines q r -> refines p r.
Proof. intros H1 H2 ts. destruct (H1 ts) as [->| ->]; auto. Qed.

Lemma refines_bind {A B} (p q : P A) (f g : A -> P B) :
  refines p q -> (forall a, refines (f a) (g a)) -> refines (p ≫= f) (q ≫= g).
Proof.
  intros H1 H2 ts. unfold mbind, p_bind. destruct (H1 ts) as [->| ->]; [by left|].
  destruct (q ts); [apply H2|by right|by left].
Qed.

Lemma refines_loop {A B} (s t : A -> P (A + B)) a :
  (forall a, refines (s a) (t a)) -> refines (loop s a) (loop t a).
Proof.
  intros H ts. unfold loop. generalize (S (length ts)). intros n. revert a ts.
  induction n as [|n IH]; intros a ts; cbn; [by left|].
  destruct (H a ts) as [->| ->]; [by left|]. destruct (t a ts) as [[a'|b] r| |]; [apply IH|by right|by right|by left].
Qed.

Create HintDb refines.
#[export] Hint Resolve refines_refl : refines.
Ltac refines_step :=
  match goal with
  | |- refines ?p ?p => apply refines_refl
  | |- refines (_ ≫= _) (_ ≫= _) => apply refines_bind; [|intro]
  | |- refines (_ <$> _) (_ <$> _) => apply refines_bind; [|intro]
  | |- refines (loop _ _) (loop _ _) => apply refines_loop; intro
  | |- refines (if ?b then _ else _) _ => destruct b
  | |- refines (match ?o with _ => _ end) _ => destruct o
  | |- refines _ _ => solve [eauto with refines]
  end.
Ltac refines_auto := repeat refines_step.

Lemma refines_sep_list {A} (p q : P A) : refines p q -> refines (sep_list p) (sep_list q).
Proof. intros H. unfold sep_list. refines_auto. Qed.
#[export] Hint Resolve refines_sep_list : refines.

Lemma refines_binary ops p q : refines p q -> refines (binary_level ops p) (binary_level ops q).
Proof. intros H. unfold binary_level, binary_step. refines_auto. Qed.

Lemma refines_factor p q : refines p q -> refines (parse_factor p) (parse_factor q).
Proof. intros H. unfold parse_factor, parse_scalar_function. refines_auto. Qed.

Lemma refines_body p q : refines p q -> refines (expression_body p) (expression_body q).
Proof. intros H. repeat apply refines_binary. by apply refines_factor. Qed.

Lemma refines_not be be' se se' : refines be be' -> refines se se' -> refines (parse_not be se) (parse_not be' se').
Proof.
  intros H1 H2 ts. unfold parse_not. generalize (S (length ts)). intros n. revert ts.
  change (refines (parse_not_fuel be se n) (parse_not_fuel be' se' n)). induction n as [|n IH]; [by left|].
  change (refines (not_body be se (parse_not_fuel be se n)) (not_body be' se' (parse_not_fuel be' se' n))).
  unfold not_body, parse_bool_atom, parse_comparison, parse_in. refines_auto.
Qed.

Lemma refines_or be be' se se' : refines be be' -> refines se se' -> refines (parse_or be se) (parse_or be' se').
Proof.
  intros H1 H2. pose proof (refines_not _ _ _ _ H1 H2). unfold parse_or, parse_and, connective_step. refines_auto.
Qed.

Lemma refines_select be be' : refines be be' -> refines (select_body be) (select_body be').
Proof. intros H. unfold select_body, union_step, parse_select_core, join_step, clause. refines_auto. Qed.

Lemma refines_le {A} (p : nat -> P A) m n :
  (forall n, refines (p n) (p (S n))) -> m <= n -> refines (p m) (p n).
Proof. intros H. induction 1 as [|n L IH]; [apply refines_refl|]. by eapply refines_trans. Qed.

Lemma refines_total {A} (p : nat -> P A) k :
  (forall n, refines (p n) (p (S n))) -> (forall ts, p (S (length ts)) ts <> Out) ->
  refines (p k) (fun ts => p (S (length ts)) ts).
Proof.
  intros H T ts. destruct (Nat.le_ge_cases k (S (length ts))) as [L|L].
  - exact (refines_le p _ _ H L ts).
  - right. destruct (refines_le p _ _ H L ts) as [E|E]; [by destruct (T ts)|done].
Qed.

Lemma refines_answer {A} (p q : P A) ts : refines p q -> p ts <> Out -> p ts = q ts.
Proof. intros H N. by destruct (H ts). Qed.

(** * The grammar's equations *)

Lemma expression_fuel_up n : refines (parse_expression_fuel n) (parse_expression_fuel (S n)).
Proof. induction n as [|n IH]; [by left|]. exact (refines_body _ _ IH). Qed.

Lemma expression_answers ts : parse_expression ts <> Out.
Proof. intros E. pose proof (leaves_expression (length ts) ts eq_refl) as H. by rewrite E in H. Qed.

Lemma parse_expression_eq ts : parse_expression ts = expression_body parse_expression ts.
Proof.
  change (parse_expression ts) with (expression_body (parse_expression_fuel (length ts)) ts).
  apply refines_answer.
  - apply refines_body. exact (refines_total _ _ expression_fuel_up expression_answers).
  - exact (expression_answers ts).
Qed.

Lemma grammar_fuel_up n :
  refines (parse_bool_expr_fuel n) (parse_bool_expr_fuel (S n)) /\ refines (parse_select_fuel n) (parse_select_fuel (S n)).
Proof.
  induction n as [|n [IH1 IH2]]; [split; by left|]. split.
  - exact (refines_or _ _ _ _ IH1 IH2).
  - exact (refines_select _ _ IH1).
Qed.

Lemma bool_expr_answers ts : parse_bool_expr ts <> Out.
Proof. intros E. pose proof (leaves_bool_expr (length ts) ts eq_refl) as H. by rewrite E in H. Qed.
Lemma select_answers ts : parse_select ts <> Out.
Proof. intros E. pose proof (leaves_parse_select (length ts) ts eq_refl) as H. by rewrite E in H. Qed.

Lemma refines_bool_fuel n : refines (parse_bool_expr_fuel n) parse_bool_expr.
Proof. exact (refines_total _ _ (fun n => proj1 (grammar_fuel_up n)) bool_expr_answers). Qed.
Lemma refines_select_fuel n : refines (parse_select_fuel n) parse_select.
Proof. exact (refines_total _ _ (fun n => proj2 (grammar_fuel_up n)) select_answers). Qed.

Lemma parse_bool_expr_eq ts : parse_bool_expr ts = parse_or parse_bool_expr parse_select ts.
Proof.
  change (parse_bool_expr ts) with (parse_or (parse_bool_expr_fuel (length ts)) (parse_select_fuel (length ts)) ts).
  apply refines_answer; [|exact (bool_expr_answers ts)].
  apply refines_or; [apply refines_bool_fuel|apply refines_select_fuel].
Qed.

Lemma parse_select_eq ts : parse_select ts = select_body parse_bool_expr ts.
Proof.
  change (parse_select ts) with (select_body (parse_bool_expr_fuel (length ts)) ts).
  apply refines_answer; [|exact (select_answers ts)]. apply refines_select, refines_bool_fuel.
Qed.

(** One round of a loop whose rounds read tokens. *)
Lemma loop_eq {A B} (step : A -> P (A + B)) a ts :
  (forall a l, leaves (step a) l (fun r l' => match r with inl _ => l' < l | inr _ => True end)) ->
  loop step a ts = match step a ts with
                   | Got (inl a') ts' => loop step a' ts'
                   | Got (inr b) ts' => Got b ts'
                   | Failed w => Failed w
                   | Out => Out
                   end.
Proof.
  intros H. unfold loop.
  assert (forall n m a ts, length ts < n -> length ts < m -> loop_fuel n step a ts = loop_fuel m step a ts) as G.
  { induction n as [|n IH]; intros [|m] b us Hn Hm; try lia. cbn.
    specialize (H b (length us) us eq_refl). destruct (step b us) as [[b'|c] r| |]; try done. apply IH; lia. }
  cbn [loop_fuel]. pose proof (H a (length ts) ts eq_refl) as L.
  destruct (step a ts) as [[a'|b] ts'| |]; try done.
  apply (G (length ts) (S (length ts'))); lia.
Qed.

Lemma parse_not_eq ts :
  parse_not parse_bool_expr parse_select ts = not_body parse_bool_expr parse_select (parse_not parse_bool_expr parse_select) ts.
Proof.
  set (be := parse_bool_expr). set (se := parse_select).
  assert (U : forall n, refines (parse_not_fuel be se n) (parse_not_fuel be se (S n))).
  { induction n as [|n IH]; [by left|].
    change (refines (not_body be se (parse_not_fuel be se n)) (not_body be se (parse_not_fuel be se (S n)))).
    unfold not_body. refines_auto. }
  assert (T : forall ts, parse_not be se ts <> Out).
  { intros us E. pose proof (leaves_not be se (length us) (fun l _ => leaves_bool_expr l) (fun l _ => leaves_parse_select l)
      (length us) (Nat.le_refl _) us eq_refl) as H. by rewrite E in H. }
  change (parse_not be se ts) with (not_body be se (parse_not_fuel be se (length ts)) ts).
  apply refines_answer; [|exact (T ts)]. pose proof (refines_total _ (length ts) U T) as R. unfold not_body. refines_auto.
Qed.
