(* ===== verification/Printer.v ===== *)
(** A printer of the statements of [Parser]: for each statement a spelling in
    the grammar of [src/sql/parser.cpp], with parentheses only where the grammar
    needs them, and the conditions under which a statement has one. *)
From Stdlib Require Import ZArith Lia Strings.Byte.
From stdpp Require Import base numbers list gmap strings.
From S2P Require Import Prelude Values Doubles Eval Query Logical Lexer Parser.
Local Open Scope Z_scope.

(** * Words *)

(** The words the grammar gives a meaning to. *)
Definition keywords : list string :=
  ["NULL"; "TRUE"; "FALSE"; "COUNT"; "SUM"; "AVG"; "MIN"; "MAX"; "COALESCE"; "NULLIF"; "UPPER"; "LOWER"; "LENGTH"; "TRIM";
   "SUBSTR"; "ABS"; "NOT"; "EXISTS"; "IS"; "IN"; "BETWEEN"; "LIKE"; "AND"; "OR"; "SELECT"; "DISTINCT"; "AS"; "FROM"; "WHERE";
   "GROUP"; "ORDER"; "BY"; "HAVING"; "LIMIT"; "OFFSET"; "JOIN"; "LEFT"; "RIGHT"; "FULL"; "OUTER"; "INNER"; "ON"; "UNION";
   "ALL"; "ASC"; "DESC"; "IF"; "TABLE"; "SAVEPOINT"; "TO"; "INTO"]%string.

Definition kw (s : string) : lexeme := Word (str s).
Definition mk (c : byte) : lexeme := Mark c.

Definition name_ok (s : bytes) : bool := word_ok s && is_identifier s && negb (kw_in (upper s) keywords).

Fixpoint sep (xs : list (list lexeme)) : list lexeme :=
  match xs with
  | [] => []
  | [x] => x
  | x :: xs => x ++ mk "," :: sep xs
  end.
Definition paren (x : list lexeme) : list lexeme := mk "(" :: x ++ [mk ")"].

Definition is_nil {A} (l : list A) : bool := match l with [] => true | _ => false end.

(** * Expressions *)

Definition literal_ok (v : Value) : bool :=
  match v with
  | VNull | VText _ => true
  | VInt n => (0 <=? n) && (n <? 2 ^ 63)
  | VDouble _ => false
  end.
Definition print_literal (v : Value) : lexeme :=
  match v with
  | VNull => kw "NULL"
  | VInt n => Word (nat_string n)
  | VText s => Quoted s
  | VDouble _ => kw "NULL"
  end.

Definition ref_ok (c : ColumnRef) : bool :=
  (bool_decide (ref_table c = []) || name_ok (ref_table c)) && name_ok (ref_name c).
Definition print_ref (c : ColumnRef) : list lexeme :=
  (if bool_decide (ref_table c = []) then [] else [Word (ref_table c); mk "."]) ++ [Word (ref_name c)].

Definition agg_word (f : AggFunc) : string :=
  match f with Count => "COUNT" | Sum => "SUM" | Avg => "AVG" | Min => "MIN" | Max => "MAX" end.
Definition print_agg (f : AggFunc) (a : option ColumnRef) : list lexeme :=
  kw (agg_word f) :: paren (match a with Some c => print_ref c | None => [mk "*"] end).
Definition agg_ok (a : option ColumnRef) : bool := match a with Some c => ref_ok c | None => true end.

Definition scalar_word (f : ScalarFunc) : string :=
  match f with
  | Coalesce => "COALESCE" | Nullif => "NULLIF" | Upper => "UPPER" | Lower => "LOWER" | Length => "LENGTH"
  | Trim => "TRIM" | Substr => "SUBSTR" | Abs => "ABS"
  end.

Definition op_level (op : BinOp) : nat :=
  match op with Concat => 0 | Add | Sub => 1 | Mul | Div | Mod => 2 end.
Definition op_lexeme (op : BinOp) : lexeme :=
  match op with
  | Add => mk "+" | Sub => mk "-" | Mul => mk "*" | Div => mk "/" | Mod => mk "%" | Concat => kw "||"
  end.
Definition level (e : Expression) : nat := match e with EBinary op _ _ => op_level op | _ => 3 end.

(** [k] is the level of the place the expression stands in. *)
Fixpoint print_expr (k : nat) (e : Expression) : list lexeme :=
  let body :=
    match e with
    | EColumn c => print_ref c
    | ELiteral v => [print_literal v]
    | EBinary op l r => print_expr (op_level op) l ++ op_lexeme op :: print_expr (S (op_level op)) r
    | EAggregate f a => print_agg f a
    | EFunction f args => kw (scalar_word f) :: paren (sep (map (print_expr 0) args))
    | EBinaryNull | EFunctionNull => []
    end in
  if (level e <? k)%nat then paren body else body.

Fixpoint expr_ok (e : Expression) : bool :=
  match e with
  | EColumn c => ref_ok c
  | ELiteral v => literal_ok v
  | EBinary _ l r => expr_ok l && expr_ok r
  | EAggregate _ a => agg_ok a
  | EFunction f args => arity_ok f (length args) && forallb expr_ok args
  | EBinaryNull | EFunctionNull => false
  end.

(** Whether the spelling starts with a parenthesis, or with an aggregate. *)
Fixpoint opens (e : Expression) : bool :=
  match e with EBinary op l _ => (level l <? op_level op)%nat || opens l | _ => false end.
Fixpoint leads_aggregate (e : Expression) : bool :=
  match e with
  | EBinary op l _ => negb (level l <? op_level op)%nat && leads_aggregate l
  | EAggregate _ _ => true
  | _ => false
  end.

Definition is_literal (v : Value) (e : Expression) : bool :=
  match e with ELiteral w => bool_decide (w = v) | _ => false end.

(** * Predicates *)

Definition op_word (op : CompareOp) : list lexeme :=
  match op with
  | Eq => [mk "="] | Ne => [Compare (str "!=")] | Lt => [Compare (str "<")] | Le => [Compare (str "<=")]
  | Gt => [Compare (str ">")] | Ge => [Compare (str ">=")]
  | Like => [kw "LIKE"] | NotLike => [kw "NOT"; kw "LIKE"]
  | IsNull => [kw "IS"; kw "NULL"] | IsNotNull => [kw "IS"; kw "NOT"; kw "NULL"]
  end.
Definition nullary (op : CompareOp) : bool := match op with IsNull | IsNotNull => true | _ => false end.

Definition print_not (negated : bool) : list lexeme := if negated then [kw "NOT"] else [].

Definition print_comparison (c : Comparison) : list lexeme :=
  print_expr 0 (cmp_lhs c) ++ op_word (cmp_op c) ++ (if nullary (cmp_op c) then [] else print_expr 0 (cmp_rhs c)).
(** A comparison that starts with a parenthesis would be read as a group. *)
Definition comparison_ok (c : Comparison) : bool :=
  expr_ok (cmp_lhs c) && negb (opens (cmp_lhs c)) &&
  (if nullary (cmp_op c) then is_literal VNull (cmp_rhs c) else expr_ok (cmp_rhs c)).

Definition print_between (b : BetweenExpr) : list lexeme :=
  print_expr 0 (btw_expr b) ++ print_not (btw_negated b) ++ [kw "BETWEEN"] ++ print_expr 0 (btw_low b) ++
  [kw "AND"] ++ print_expr 0 (btw_high b).
Definition between_ok (b : BetweenExpr) : bool :=
  expr_ok (btw_expr b) && negb (opens (btw_expr b)) && expr_ok (btw_low b) && expr_ok (btw_high b).

Section Predicates.
Variable print_query : Query -> list lexeme.
Variable query_ok : Query -> bool.

Definition print_in (i : InExpr Query) : list lexeme :=
  match in_subquery i with
  | Some q =>
      if in_exists_only i then kw "EXISTS" :: paren (print_query q)
      else print_expr 0 (in_expr i) ++ print_not (in_negated i) ++ kw "IN" :: paren (print_query q)
  | None =>
      print_expr 0 (in_expr i) ++ print_not (in_negated i) ++ kw "IN" :: paren (sep (map (print_expr 0) (in_values i)))
  end.

Definition in_ok (i : InExpr Query) : bool :=
  match in_subquery i with
  | Some q =>
      query_ok q && is_nil (in_values i) &&
      (if in_exists_only i then is_literal (VInt 1) (in_expr i) && negb (in_negated i)
       else expr_ok (in_expr i) && negb (opens (in_expr i)))
  | None =>
      expr_ok (in_expr i) && negb (opens (in_expr i)) && negb (in_exists_only i) &&
      negb (is_nil (in_values i)) && forallb expr_ok (in_values i)
  end.

Definition bool_level (b : BoolExpr Query) : nat := match b with BOr _ _ => 0 | BAnd _ _ => 1 | _ => 2 end.

Fixpoint print_bool (k : nat) (b : BoolExpr Query) : list lexeme :=
  let body :=
    match b with
    | BComparison (Some c) => print_comparison c
    | BOr (Some l) (Some r) => print_bool 0 l ++ kw "OR" :: print_bool 1 r
    | BAnd (Some l) (Some r) => print_bool 1 l ++ kw "AND" :: print_bool 2 r
    | BNot (Some e) => kw "NOT" :: print_bool 2 e
    | BIn (Some i) => print_in i
    | BBetween (Some b) => print_between b
    | _ => []
    end in
  if (bool_level b <? k)%nat then paren body else body.

Fixpoint bool_ok (b : BoolExpr Query) : bool :=
  match b with
  | BComparison (Some c) => comparison_ok c
  | BOr (Some l) (Some r) | BAnd (Some l) (Some r) => bool_ok l && bool_ok r
  | BNot (Some e) => bool_ok e
  | BIn (Some i) => in_ok i
  | BBetween (Some b) => between_ok b
  | _ => false
  end.

(** * SELECT *)

Definition print_value (v : SelectValue) : list lexeme :=
  match v with
  | SelAgg a => print_agg (agg_func a) (agg_arg a)
  | SelExpr e => print_expr 0 e
  end.
Definition value_ok (v : SelectValue) : bool :=
  match v with
  | SelAgg a => agg_ok (agg_arg a)
  | SelExpr e => expr_ok e && negb (leads_aggregate e)
  end.

(** [*] and [t.*] are columns named [*]. *)
Definition is_star (it : SelectItem) : option bytes :=
  match item_value it with
  | SelExpr (EColumn c) => if bool_decide (ref_name c = str "*") then Some (ref_table c) else None
  | _ => None
  end.
Definition print_item (it : SelectItem) : list lexeme :=
  match is_star it with
  | Some t => (if bool_decide (t = []) then [] else [Word t; mk "."]) ++ [mk "*"]
  | None => print_value (item_value it) ++ (match item_alias it with Some a => [kw "AS"; Word a] | None => [] end)
  end.
Definition item_ok (it : SelectItem) : bool :=
  match is_star it with
  | Some t => (bool_decide (t = []) || name_ok t) && bool_decide (item_alias it = None)
  | None => value_ok (item_value it) && match item_alias it with Some a => name_ok a | None => true end
  end.

Definition print_order (o : OrderByItem) : list lexeme :=
  print_value (ord_key o) ++ [kw (if ord_asc o then "ASC" else "DESC")].

Definition print_alias (a : option bytes) : list lexeme := match a with Some a => [Word a] | None => [] end.
Definition alias_ok (a : option bytes) : bool := match a with Some a => name_ok a | None => true end.

Definition join_words (t : JoinType) : list lexeme :=
  match t with
  | Inner => [kw "JOIN"] | Left => [kw "LEFT"; kw "JOIN"] | Right => [kw "RIGHT"; kw "JOIN"] | Full => [kw "FULL"; kw "JOIN"]
  end.
Definition print_join (j : Join Query) : list lexeme :=
  match j with
  | mkJoin type table on alias =>
      join_words type ++ Word table :: print_alias alias ++
      kw "ON" :: match on with Some b => print_bool 0 b | None => [] end
  end.
Definition join_ok (j : Join Query) : bool :=
  match j with
  | mkJoin _ table on alias => name_ok table && alias_ok alias && match on with Some b => bool_ok b | None => false end
  end.

Definition print_clause (word : string) (b : option (BoolExpr Query)) : list lexeme :=
  match b with Some b => kw word :: print_bool 0 b | None => [] end.
Definition clause_ok (b : option (BoolExpr Query)) : bool := match b with Some b => bool_ok b | None => true end.

Definition print_count (word : string) (n : option Z) : list lexeme :=
  match n with Some n => [kw word; Word (nat_string n)] | None => [] end.
Definition count_ok (n : option Z) : bool := match n with Some n => (0 <=? n) && (n <? 2 ^ 63) | None => true end.

Definition print_by (word : string) (xs : list (list lexeme)) : list lexeme :=
  match xs with [] => [] | _ => kw word :: kw "BY" :: sep xs end.

Definition print_core (s : SelectStmt Query) : list lexeme :=
  match s with
  | mkSelect projections distinct from alias joins where_ order_by group_by having limit offset =>
      kw "SELECT" :: (if distinct then [kw "DISTINCT"] else []) ++ sep (map print_item projections) ++
      kw "FROM" :: Word from :: print_alias alias ++ concat (map print_join joins) ++
      print_clause "WHERE" where_ ++ print_by "GROUP" (map print_ref group_by) ++ print_clause "HAVING" having ++
      print_by "ORDER" (map print_order order_by) ++ print_count "LIMIT" limit ++ print_count "OFFSET" offset
  end.
Definition core_ok (s : SelectStmt Query) : bool :=
  match s with
  | mkSelect projections _ from alias joins where_ order_by group_by having limit offset =>
      negb (is_nil projections) && forallb item_ok projections && name_ok from && alias_ok alias &&
      forallb join_ok joins && clause_ok where_ && forallb ref_ok group_by && clause_ok having &&
      forallb (fun o => value_ok (ord_key o)) order_by && count_ok limit && count_ok offset
  end.

Definition print_arm (u : bool * SelectStmt Query) : list lexeme :=
  match u with (all, s) => kw "UNION" :: (if all then [kw "ALL"] else []) ++ print_core s end.
End Predicates.

Fixpoint print_query (q : Query) : list lexeme :=
  match q with mkQuery s unions => print_core print_query s ++ concat (map (print_arm print_query) unions) end.

Fixpoint query_ok (q : Query) : bool :=
  match q with
  | mkQuery s unions =>
      core_ok query_ok s && forallb (fun u => match u with (_, s) => core_ok query_ok s end) unions && same_flags unions
  end.

(** * Statements *)

Definition print_where : option (BoolExpr Query) -> list lexeme := print_clause print_query "WHERE".
Definition where_ok : option (BoolExpr Query) -> bool := clause_ok query_ok.

Definition row_ok (row : list Expression) : bool :=
  negb (is_nil row) && forallb (fun e => match e with ELiteral v => literal_ok v | _ => false end) row.
Definition print_row (row : list Expression) : list lexeme :=
  paren (sep (map (fun e => match e with ELiteral v => [print_literal v] | _ => [] end) row)).

Definition type_word (t : TypeKind) : option string :=
  match t with
  | Int64 => Some "INT" | Boolean => Some "BOOL" | Text => Some "TEXT" | Date => Some "DATE" | Float64 => Some "DOUBLE"
  | Decimal => Some "DECIMAL" | Null => None
  end%string.

Definition print_column_def (d : ColumnDef) : list lexeme :=
  match d with
  | mkDef name type pk nn dv =>
      Word name :: kw (default ""%string (type_word type)) ::
      (if pk then [kw "PRIMARY"; kw "KEY"] else if nn then [kw "NOT"; kw "NULL"] else []) ++
      match dv with Some (ELiteral v) => [kw "DEFAULT"; print_literal v] | _ => [] end
  end.
Definition column_def_ok (d : ColumnDef) : bool :=
  match d with
  | mkDef name type pk nn dv =>
      name_ok name && bool_decide (type <> Null) && implb pk nn &&
      match dv with None => true | Some (ELiteral v) => literal_ok v | _ => false end
  end.

Definition print_names (ns : list bytes) : list lexeme := paren (sep (map (fun n => [Word n]) ns)).
Definition print_list_opt (xs : list (list lexeme)) : list lexeme := match xs with [] => [] | _ => paren (sep xs) end.
Definition print_if_exists (b : bool) : list lexeme := if b then [kw "IF"; kw "EXISTS"] else [].

Definition role_word (r : UserRole) : string :=
  match r with Admin => "ADMIN" | ReadWrite => "READ_WRITE" | ReadOnly => "READ_ONLY" end.
Definition level_words (l : Z) : list lexeme :=
  if l =? 0 then [kw "READ"; kw "UNCOMMITTED"]
  else if l =? 1 then [kw "READ"; kw "COMMITTED"]
  else if l =? 2 then [kw "REPEATABLE"; kw "READ"]
  else [kw "SERIALIZABLE"].

Fixpoint print_stmt (s : Stmt) : list lexeme :=
  match s with
  | SelectQ q => print_query q
  | Insert table columns rows =>
      kw "INSERT" :: kw "INTO" :: Word table :: print_list_opt (map (fun n => [Word n]) columns) ++
      kw "VALUES" :: sep (map print_row rows)
  | Update table assigns where_ =>
      kw "UPDATE" :: Word table :: kw "SET" ::
      sep (map (fun a => Word a.1 :: mk "=" :: print_expr 0 a.2) assigns) ++ print_where where_
  | Delete table where_ => kw "DELETE" :: kw "FROM" :: Word table :: print_where where_
  | Create table columns => kw "CREATE" :: kw "TABLE" :: Word table :: paren (sep (map print_column_def columns))
  | CreateIndex index table columns =>
      kw "CREATE" :: kw "INDEX" :: Word index :: kw "ON" :: Word table :: print_names columns
  | DropTable table ie => kw "DROP" :: kw "TABLE" :: print_if_exists ie ++ [Word table]
  | DropIndex index table ie =>
      kw "DROP" :: kw "INDEX" :: print_if_exists ie ++ Word index :: (if bool_decide (table = []) then [] else [kw "ON"; Word table])
  | Begin => [kw "BEGIN"]
  | CommitTxn => [kw "COMMIT"]
  | Rollback None => [kw "ROLLBACK"]
  | Rollback (Some n) => [kw "ROLLBACK"; kw "TO"; kw "SAVEPOINT"; Word n]
  | SavepointStmt n => [kw "SAVEPOINT"; Word n]
  | ReleaseSavepoint n => [kw "RELEASE"; kw "SAVEPOINT"; Word n]
  | Checkpoint => [kw "CHECKPOINT"]
  | ShowStatus => [kw "SHOW"; kw "STATUS"]
  | Prepare n sql => [kw "PREPARE"; Word n; kw "FROM"; Quoted sql]
  | Execute n params => kw "EXECUTE" :: Word n :: print_list_opt (map (fun v => [print_literal v]) params)
  | Deallocate n => kw "DEALLOCATE" :: (if bool_decide (n = []) then [kw "ALL"] else [kw "PREPARE"; Word n])
  | Auth u p => [kw "AUTH"; Word u; Quoted p]
  | CreateUser u p r => [kw "CREATE"; kw "USER"; Word u; Quoted p; kw "ROLE"; kw (role_word r)]
  | SetTransaction l => kw "SET" :: kw "TRANSACTION" :: kw "ISOLATION" :: kw "LEVEL" :: level_words l
  | Analyze t => kw "ANALYZE" :: (if bool_decide (t = []) then [] else [kw "TABLE"; Word t])
  | Backup d => [kw "BACKUP"; kw "TO"; Quoted d]
  | Explain inner analyze => kw "EXPLAIN" :: (if analyze then [kw "ANALYZE"] else []) ++ print_stmt inner
  end.

Definition opt_name_ok (n : bytes) : bool := bool_decide (n = []) || name_ok n.

(** The statements EXPLAIN takes. *)
Definition query_stmt_ok (s : Stmt) : bool :=
  match s with
  | SelectQ q => query_ok q
  | Insert table columns rows =>
      name_ok table && forallb name_ok columns && negb (is_nil rows) && forallb row_ok rows
  | Update table assigns where_ =>
      name_ok table && negb (is_nil assigns) && forallb (fun a => name_ok a.1 && expr_ok a.2) assigns && where_ok where_
  | Delete table where_ => name_ok table && where_ok where_
  | _ => false
  end.

Definition stmt_ok (s : Stmt) : bool :=
  match s with
  | Create table columns => name_ok table && forallb column_def_ok columns
  | CreateIndex index table columns =>
      name_ok index && name_ok table && negb (is_nil columns) && forallb name_ok columns
  | DropTable table _ => name_ok table
  | DropIndex index table _ => name_ok index && opt_name_ok table
  | Begin | CommitTxn | Checkpoint | ShowStatus | Rollback None => true
  | Rollback (Some n) | SavepointStmt n | ReleaseSavepoint n | Prepare n _ | Auth n _ | CreateUser n _ _ => name_ok n
  | Execute n params => name_ok n && forallb literal_ok params
  | Deallocate n | Analyze n => opt_name_ok n
  | SetTransaction l => (0 <=? l) && (l <=? 3)
  | Backup d => negb (bool_decide (d = []))
  | Explain inner _ => query_stmt_ok inner
  | _ => query_stmt_ok s
  end.

(** The text of a statement. *)
Definition print (s : Stmt) : bytes := spell_all (print_stmt s).
