(* ===== verification/ParserRoundtrip.v ===== *)
(** Reading back what [Printer] writes: each parser of [Parser], given the tokens
    a printer makes and anything that cannot be read as their continuation, gives
    the value that was printed and stops where its tokens end. *)
From Stdlib Require Import ZArith Lia Strings.Byte.
From stdpp Require Import base numbers list gmap strings.
From S2P Require Import Prelude Values Doubles Eval Query Logical Folding Rewrites Lexer Parser ParserTotal Printer.
Local Open Scope Z_scope.

Definition toks (xs : list lexeme) : list bytes := map text xs.

Lemma toks_app xs ys : toks (xs ++ ys) = toks xs ++ toks ys.
Proof. apply map_app. Qed.
Lemma toks_nil : toks [] = [].
Proof. reflexivity. Qed.
Lemma toks_cons x xs : toks (x :: xs) = text x :: toks xs.
Proof. reflexivity. Qed.
Lemma toks_paren xs rest : toks (paren xs) ++ rest = str "(" :: toks xs ++ str ")" :: rest.
Proof. unfold paren. rewrite toks_cons, toks_app, <- app_comm_cons, <- app_assoc. reflexivity. Qed.

(** Brings a token list to one sequence of tokens and printed parts. *)
Ltac norm := repeat (rewrite ?toks_paren, ?toks_app, ?toks_cons, ?toks_nil; cbn [text mk kw app]; rewrite <- ?app_assoc; cbn [app]).

(** * Numbers *)

Lemma digit_byte d : 0 <= d < 10 -> is_digit (z2b (48 + d)) = true /\ digit_value (z2b (48 + d)) = d.
Proof.
  intros H. unfold is_digit, digit_value. rewrite b2z_z2b, Z.mod_small by lia. split; [|lia].
  apply andb_true_iff. split; apply Z.leb_le; lia.
Qed.

Lemma span_all f a b : forallb f a = true -> match b with c :: _ => f c = false | [] => True end -> span f (a ++ b) = (a, b).
Proof.
  intros H B. induction a as [|c a IH]; cbn [app span].
  - destruct b as [|c b]; [done|]. cbn. by rewrite B.
  - cbn in H. apply andb_true_iff in H as [-> H]. by rewrite (IH H).
Qed.

Lemma number_of_app v a b : number_of 10 v (a ++ b) = fold_left (fun n d => 10 * n + v d) b (number_of 10 v a).
Proof. unfold number_of. apply fold_left_app. Qed.

Lemma digits_spec fuel n acc :
  0 <= n -> n < 2 ^ Z.of_nat fuel ->
  exists ds, digits fuel n acc = ds ++ acc /\ forallb is_digit ds = true /\ number_of 10 digit_value ds = n /\
             (fuel <> O -> ds <> []).
Proof.
  revert n acc. induction fuel as [|fuel IH]; intros n acc H0 H1.
  - exists []. cbn in *. assert (n = 0) by lia. by subst.
  - cbn [digits]. assert (D : 0 <= n mod 10 < 10) by (apply Z.mod_pos_bound; lia).
    destruct (digit_byte _ D) as [Db Dv]. destruct (Z.ltb_spec n 10) as [L|L].
    + exists [z2b (48 + n mod 10)]. cbn [app forallb number_of fold_left]. rewrite Db, Dv, Z.mod_small by lia.
      split_and!; [done|done|lia|done].
    + assert (Q : n / 10 < 2 ^ Z.of_nat fuel).
      { apply Z.div_lt_upper_bound; [lia|]. rewrite Nat2Z.inj_succ, Z.pow_succ_r in H1 by lia. lia. }
      destruct (IH (n / 10) (z2b (48 + n mod 10) :: acc) ltac:(apply Z.div_pos; lia) Q) as (ds & E & F & N & _).
      exists (ds ++ [z2b (48 + n mod 10)]). split_and!.
      * rewrite E, <- app_assoc. done.
      * rewrite forallb_app, F. cbn. by rewrite Db.
      * rewrite number_of_app, N. cbn [fold_left]. rewrite Dv. pose proof (Z_div_mod_eq_full n 10). lia.
      * intros _ H. by destruct ds.
Qed.

(** The digits of a number: not none, digits only, and the number they say. *)
Lemma nat_string_spec n :
  0 <= n -> nat_string n <> [] /\ forallb is_digit (nat_string n) = true /\ number_of 10 digit_value (nat_string n) = n.
Proof.
  intros H. unfold nat_string.
  destruct (digits_spec (S (Z.to_nat (Z.log2 n))) n [] H) as (ds & E & F & N & X).
  { destruct (Z.eq_dec n 0) as [->|]; [done|]. rewrite Nat2Z.inj_succ, Z2Nat.id by apply Z.log2_nonneg.
    apply Z.log2_spec. lia. }
  rewrite app_nil_r in E. rewrite E. split_and!; [by apply X|done|done].
Qed.

Lemma is_digit_word c : is_digit c = true -> is_word c = true /\ is_alpha c = false.
Proof. destruct c; by vm_compute. Qed.

Lemma forallb_impl {A} (f g : A -> bool) l : (forall a, f a = true -> g a = true) -> forallb f l = true -> forallb g l = true.
Proof. intros H. induction l as [|a l IH]; cbn; [done|]. rewrite !andb_true_iff. intros [F1 F2]. auto. Qed.

Lemma stoll_print n : 0 <= n < 2 ^ 63 -> stoll (nat_string n) = Ok n.
Proof.
  intros H. destruct (nat_string_spec n ltac:(lia)) as (X & F & N). unfold stoll.
  destruct (nat_string n) as [|c ds] eqn:E; [done|]. cbn in F. apply andb_true_iff in F as [Fc F].
  assert (split_sign (c :: ds) = (false, c :: ds)) as ->.
  { unfold split_sign. rewrite !bool_decide_eq_false_2; [done| |]; by intros ->. }
  pose proof (span_all is_digit (c :: ds) []) as S. rewrite app_nil_r in S. rewrite S; [|by cbn; rewrite Fc|done].
  cbn [fst]. rewrite bool_decide_eq_false_2 by done. rewrite N.
  assert ((- 2 ^ 63 <=? n) = true) as -> by (apply Z.leb_le; lia). assert ((n <? 2 ^ 63) = true) as -> by (apply Z.ltb_lt; lia).
  done.
Qed.

(** * What follows *)

Definition starts (f : bytes -> bool) (ts : list bytes) : bool := match ts with t :: _ => f t | [] => false end.
Definition no_text (ks : list string) (ts : list bytes) : bool := negb (starts (fun t => kw_in t ks) ts).
Definition no_kw (ks : list string) (ts : list bytes) : bool := negb (starts (fun t => kw_in (upper t) ks) ts).

Lemma kw_in_elem w ks s : kw_in w ks = false -> s ∈ ks -> w <> str s.
Proof.
  intros H I ->. apply not_true_iff_false in H. apply H. apply existsb_exists. exists s. split; [by apply list_elem_of_In|].
  by apply bool_decide_eq_true.
Qed.

Lemma match_text_no ks s ts : no_text ks ts = true -> s ∈ ks -> match_text s ts = Got false ts.
Proof.
  intros H I. destruct ts as [|t ts]; [done|]. cbn in H. apply negb_true_iff in H. cbn.
  rewrite bool_decide_eq_false_2; [done|]. by eapply kw_in_elem.
Qed.
Lemma match_kw_no ks s ts : no_kw ks ts = true -> s ∈ ks -> match_keyword s ts = Got false ts.
Proof.
  intros H I. destruct ts as [|t ts]; [done|]. cbn in H. apply negb_true_iff in H. cbn.
  rewrite bool_decide_eq_false_2; [done|]. by eapply kw_in_elem.
Qed.

Lemma no_text_sub ks ks' ts : no_text ks ts = true -> forallb (fun s => bool_decide (s ∈ ks)) ks' = true -> no_text ks' ts = true.
Proof.
  intros H S. destruct ts as [|t ts]; [done|]. cbn in *. apply negb_true_iff in H. apply negb_true_iff.
  apply not_true_iff_false. intros (s & I & E)%existsb_exists. apply bool_decide_eq_true in E. subst t.
  eapply forallb_forall in S; [|exact I]. apply bool_decide_eq_true in S. by eapply kw_in_elem in H.
Qed.
Lemma no_kw_sub ks ks' ts : no_kw ks ts = true -> forallb (fun s => bool_decide (s ∈ ks)) ks' = true -> no_kw ks' ts = true.
Proof.
  intros H S. destruct ts as [|t ts]; [done|]. cbn in *. apply negb_true_iff in H. apply negb_true_iff.
  apply not_true_iff_false. intros (s & I & E)%existsb_exists. apply bool_decide_eq_true in E.
  eapply forallb_forall in S; [|exact I]. apply bool_decide_eq_true in S. by eapply kw_in_elem in H.
Qed.

Lemma bind_Got {A B} (p : P A) (f : A -> P B) ts a ts' : p ts = Got a ts' -> (p ≫= f) ts = f a ts'.
Proof. intros E. unfold mbind, p_bind. by rewrite E. Qed.
Lemma fmap_Got {A B} (f : A -> B) (p : P A) ts a ts' : p ts = Got a ts' -> (f <$> p) ts = Got (f a) ts'.
Proof. intros E. unfold fmap, p_fmap. by rewrite (bind_Got _ _ _ _ _ E). Qed.

(** Runs the next parser of a sequence by the lemma that is given, or by
    computation when its tokens are known. *)
Tactic Notation "run" uconstr(H) := erewrite bind_Got by (eapply H; done).
Tactic Notation "compute_step" := erewrite bind_Got by reflexivity; cbv beta iota.

(** ** Names *)

Record name_facts (s : bytes) : Prop := {
  nf_word : word_ok s = true;
  nf_ident : is_identifier s = true;
  nf_free : kw_in (upper s) keywords = false
}.
Lemma name_ok_facts s : name_ok s = true -> name_facts s.
Proof. unfold name_ok. rewrite !andb_true_iff, negb_true_iff. intros [[H1 H2] H3]. by split. Qed.

Lemma identifier_ident s ts : is_identifier s = true -> consume_identifier (s :: ts) = Got s ts.
Proof. intros H. unfold consume_identifier. erewrite bind_Got by reflexivity. by rewrite H. Qed.
Lemma identifier_name s ts : name_ok s = true -> consume_identifier (s :: ts) = Got s ts.
Proof. intros []%name_ok_facts. by apply identifier_ident. Qed.

(** Marks start with a character that no name has. *)
Lemma name_not_text s t : name_ok s = true -> is_identifier (str t) = false -> s <> str t.
Proof. intros []%name_ok_facts H ->. congruence. Qed.
Lemma name_no_text ks s ts :
  name_ok s = true -> forallb (fun t => negb (is_identifier (str t))) ks = true -> no_text ks (s :: ts) = true.
Proof.
  intros H F. cbn. apply negb_true_iff, not_true_iff_false. intros (t & I & E)%existsb_exists. apply bool_decide_eq_true in E.
  eapply forallb_forall in F; [|exact I]. apply negb_true_iff in F. by eapply name_not_text in E.
Qed.
Lemma kw_in_sub w ks ks' :
  kw_in w ks = false -> forallb (fun s => bool_decide (s ∈ ks)) ks' = true -> kw_in w ks' = false.
Proof.
  intros H S. apply not_true_iff_false. intros (s & I & E)%existsb_exists. apply bool_decide_eq_true in E.
  eapply forallb_forall in S; [|exact I]. apply bool_decide_eq_true in S. by eapply kw_in_elem in H.
Qed.
Lemma name_no_kw ks s ts :
  name_ok s = true -> forallb (fun k => bool_decide (k ∈ keywords)) ks = true -> no_kw ks (s :: ts) = true.
Proof. intros []%name_ok_facts F. cbn. apply negb_true_iff. by eapply kw_in_sub. Qed.
Lemma name_neq_kw s k : name_ok s = true -> k ∈ keywords -> bool_decide (upper s = str k) = false.
Proof. intros []%name_ok_facts I. apply bool_decide_eq_false. by eapply kw_in_elem. Qed.

(** ** Lists *)

Lemma toks_sep_cons x y xs rest :
  toks (sep (x :: y :: xs)) ++ rest = toks x ++ str "," :: toks (sep (y :: xs)) ++ rest.
Proof. cbn [sep]. rewrite toks_app, <- app_assoc. reflexivity. Qed.

(** A list printed with commas is read back when each of its elements is, before a
    comma and before what follows the list. *)
Lemma sep_list_read {A} (p : P A) (pr : A -> list lexeme) (ok : list bytes -> Prop) xs rest :
  (forall l, leaves p l (fun _ l' => (l' < l)%nat)) ->
  (forall x rest', x ∈ xs -> ok rest' -> p (toks (pr x) ++ rest') = Got x rest') ->
  (forall r, ok (str "," :: r)) -> ok rest -> no_text [","%string] rest = true -> xs <> [] ->
  sep_list p (toks (sep (map pr xs)) ++ rest) = Got xs rest.
Proof.
  intros L H Hc Hr N X. destruct xs as [|x xs]; [done|]. clear X. unfold sep_list.
  set (step := fun acc : list A => _).
  assert (G : forall a l, leaves (step a) l (fun r l' => match r with inl _ => (l' < l)%nat | inr _ => True end)).
  { intros a l. unfold step. leaves_auto. }
  assert (forall xs acc, (forall x, x ∈ xs -> forall rest', ok rest' -> p (toks (pr x) ++ rest') = Got x rest') ->
    loop step acc (toks (concat (map (fun x => mk "," :: pr x) xs)) ++ rest) = Got (acc ++ xs) rest) as Loop.
  { clear -G Hc Hr N L. induction xs as [|y xs IH]; intros acc H; rewrite (loop_eq _ _ _ G).
    - cbn [map concat toks app]. unfold step at 1. erewrite bind_Got by (eapply match_text_no; [exact N|by left]).
      cbn. by rewrite app_nil_r.
    - cbn [map concat]. norm.
      unfold step at 1. erewrite bind_Got by reflexivity. cbv beta iota.
      erewrite bind_Got; [|apply H; [by left|]]; last first.
      { destruct xs; [done|]. apply Hc. }
      cbn [mret p_ret]. rewrite IH by (intros; apply H; [by right|done]). by rewrite <- app_assoc. }
  assert (toks (sep (map pr (x :: xs))) ++ rest = toks (pr x) ++ toks (concat (map (fun x => mk "," :: pr x) xs)) ++ rest) as ->.
  { clear. revert x. induction xs as [|y xs IH]; intros x; [done|]. cbn [map]. rewrite toks_sep_cons. f_equal.
    cbn [map concat]. norm. f_equal. apply IH. }
  erewrite bind_Got; [|apply H; [by left|]]; last by (destruct xs; [|apply Hc]).
  by rewrite Loop by (intros; apply H; [by right|done]).
Qed.

(** * Expressions *)

(** The operators of the levels from [k] on; a point would continue a column. *)
Definition stop (k : nat) : list bytes -> bool :=
  no_text (match k with
           | O => ["||"; "+"; "-"; "*"; "/"; "%"; "."]
           | 1%nat => ["+"; "-"; "*"; "/"; "%"; "."]
           | 2%nat => ["*"; "/"; "%"; "."]
           | _ => ["."]
           end%string).

Lemma stop_S k rest : stop k rest = true -> stop (S k) rest = true.
Proof. intros H. destruct k as [|[|[|k]]]; (eapply no_text_sub; [exact H|done]). Qed.
Lemma stop_0 k rest : stop 0 rest = true -> stop k rest = true.
Proof. intros H. destruct k as [|[|[|k]]]; (eapply no_text_sub; [exact H|done]). Qed.
Lemma stop_3 k rest : stop k rest = true -> no_text ["."%string] rest = true.
Proof. intros H. destruct k as [|[|[|k]]]; (eapply no_text_sub; [exact H|done]). Qed.

Lemma quoted_literal s : is_quoted (quoted s) = true /\ unquote (quoted s) = s.
Proof.
  unfold is_quoted, unquote, quoted. change (drop 1 (quote :: s ++ [quote])) with (s ++ [quote]).
  cbn [length head]. rewrite length_app, last_cons, last_snoc. cbn [length].
  split; [by rewrite Nat.add_comm|]. replace (S (length s + 1) - 2)%nat with (length s) by lia.
  by rewrite take_app_length.
Qed.

Lemma upper_digits ds : forallb is_digit ds = true -> upper ds = ds.
Proof.
  unfold upper. induction ds as [|c ds IH]; cbn; [done|]. intros [H1 H2]%andb_true_iff. rewrite IH by done. f_equal.
  revert H1. destruct c; by vm_compute.
Qed.
Lemma digits_neq ds s : forallb is_digit ds = true -> forallb is_digit (str s) = false -> bool_decide (ds = str s) = false.
Proof. intros H1 H2. apply bool_decide_eq_false. intros ->. congruence. Qed.

Lemma literal_read v rest : literal_ok v = true -> parse_literal (text (print_literal v) :: rest) = Got v rest.
Proof.
  destruct v as [|n|d|s]; cbn [literal_ok print_literal text kw]; intros H; unfold parse_literal;
    erewrite bind_Got by reflexivity; [done| |done|].
  - apply andb_true_iff in H as [H1%Z.leb_le H2%Z.ltb_lt]. destruct (nat_string_spec n H1) as (X & F & _).
    rewrite (upper_digits _ F), !digits_neq by done. pose proof (stoll_print n (conj H1 H2)) as E.
    destruct (nat_string n) as [|c ds] eqn:Hs; [done|]. cbn [forallb] in F. apply andb_true_iff in F as [Fc F].
    rewrite Fc. cbn [orb]. rewrite bool_decide_eq_false_2; [by rewrite E|].
    intros I. assert (Fa : forallb is_digit (c :: ds) = true) by (cbn; by rewrite Fc).
    eapply forallb_forall in Fa; [|by apply list_elem_of_In]. by vm_compute in Fa.
  - destruct (quoted_literal s) as [Q U]. rewrite Q, U. unfold upper, quoted. cbn [map]. done.
Qed.

Lemma column_read c rest :
  ref_ok c = true -> no_text ["."%string] rest = true -> parse_column_ref (toks (print_ref c) ++ rest) = Got c rest.
Proof.
  destruct c as [t n]. unfold ref_ok, print_ref. cbn [ref_table ref_name]. intros [Ht Hn]%andb_true_iff S.
  unfold parse_column_ref. case_bool_decide as E; norm.
  - subst t. erewrite bind_Got by by apply identifier_name. erewrite bind_Got by (eapply match_text_no; [exact S|by left]). done.
  - erewrite bind_Got by by apply identifier_name. compute_step. erewrite bind_Got by by apply identifier_name. done.
Qed.

Lemma aggregate_read f a rest :
  agg_ok a = true -> parse_aggregate (toks (print_agg f a) ++ rest) = Got (mkAgg f a) rest.
Proof.
  intros H. unfold parse_aggregate, print_agg. norm. erewrite bind_Got by (apply identifier_ident; by destruct f).
  compute_step. destruct a as [c|].
  - cbn in H. assert (N : no_text ["*"%string] (toks (print_ref c) ++ str ")" :: rest) = true).
    { unfold print_ref. unfold ref_ok in H. apply andb_true_iff in H as [H1 H2]. case_bool_decide; norm; by apply name_no_text. }
    erewrite bind_Got by (eapply match_text_no; [exact N|by left]). cbv beta iota.
    erewrite bind_Got by (by apply column_read). compute_step. by destruct f.
  - norm. compute_step. compute_step. by destruct f.
Qed.

Lemma str_agg f : is_identifier (str (agg_word f)) = true /\ kw_in (upper (str (agg_word f))) aggregate_names = true.
Proof. by destruct f. Qed.

Lemma scalar_read f args rest :
  arity_ok f (length args) = true ->
  (forall x rest', x ∈ args -> stop 0 rest' = true -> parse_expression (toks (print_expr 0 x) ++ rest') = Got x rest') ->
  Forall (fun x => toks (print_expr 0 x) <> [] /\ forall r, no_text [")"%string] (toks (print_expr 0 x) ++ r) = true) args ->
  parse_scalar_function parse_expression (toks (kw (scalar_word f) :: paren (sep (map (print_expr 0) args))) ++ rest) =
  Got (EFunction f args) rest.
Proof.
  intros A H F. unfold parse_scalar_function. norm. erewrite bind_Got by (apply identifier_ident; by destruct f).
  compute_step. assert (scalar_of_name (upper (str (scalar_word f))) = Some f) as -> by by destruct f. cbv beta iota.
  destruct args as [|x xs].
  - cbn [map sep toks app]. compute_step. compute_step. by rewrite A.
  - assert (N : no_text [")"%string] (toks (sep (map (print_expr 0) (x :: xs))) ++ str ")" :: rest) = true).
    { apply Forall_inv in F as [_ F]. destruct xs as [|y xs]; cbn [map]; [apply F|]. rewrite toks_sep_cons. apply F. }
    erewrite bind_Got by (eapply match_text_no; [exact N|by left]). cbv beta iota.
    erewrite bind_Got; [cbv beta|].
    2: { erewrite bind_Got by (apply (sep_list_read _ _ (fun r => stop 0 r = true)); [apply leaves_expression|apply H|done..]).
         compute_step. reflexivity. }
    by rewrite A.
Qed.

(** ** The first token of an expression *)

Definition lead_words : list string := ["NOT"; "EXISTS"; "SELECT"; "DISTINCT"]%string.

Record leads_ok (open agg : bool) (t : bytes) : Prop := {
  lo_kw : kw_in (upper t) lead_words = false;
  lo_text : kw_in t [")"; "*"]%string = false;
  lo_open : open = false -> t <> str "(";
  lo_agg : agg = false -> is_identifier t && kw_in (upper t) aggregate_names = false
}.

Lemma leads_name b b' s : name_ok s = true -> leads_ok b b' s.
Proof.
  intros H. pose proof (name_ok_facts s H) as [_ I F]. split.
  - by eapply kw_in_sub.
  - pose proof (name_no_text [")"; "*"]%string s [] H eq_refl) as N. by apply negb_true_iff in N.
  - intros _. by apply name_not_text.
  - intros _. rewrite I. by eapply kw_in_sub.
Qed.

Lemma kw_in_false (w : bytes) ks : (forall s, s ∈ ks -> w <> str s) -> kw_in w ks = false.
Proof.
  intros H. apply not_true_iff_false. intros (s & I & E)%existsb_exists. apply bool_decide_eq_true in E.
  by eapply (H s); [apply list_elem_of_In|].
Qed.

Lemma leads_number b b' n : 0 <= n -> leads_ok b b' (nat_string n).
Proof.
  intros H. destruct (nat_string_spec n H) as (X & F & _). split.
  1: rewrite (upper_digits _ F).
  1-2: apply kw_in_false; intros s I E; rewrite E in F;
    repeat (apply elem_of_cons in I as [->|I]; [by vm_compute in F|]); by apply elem_of_nil in I.
  - intros _ E. rewrite E in F. by vm_compute in F.
  - intros _. destruct (nat_string n) as [|c ds]; [done|]. cbn in F |- *. apply andb_true_iff in F as [F _].
    destruct (is_digit_word _ F) as [_ ->]. rewrite bool_decide_eq_false_2; [done|]. by intros ->.
Qed.

Lemma leads_quoted b b' s : leads_ok b b' (quoted s).
Proof. split; [done|done| |done]. intros _ E. discriminate E. Qed.

Lemma first_token k e :
  expr_ok e = true ->
  exists t r, toks (print_expr k e) = t :: r /\ leads_ok ((level e <? k)%nat || opens e) (negb (level e <? k)%nat && leads_aggregate e) t.
Proof.
  revert k. induction e as [c|v|op l IHl r IHr| |f a|f args|]; intros k H; cbn [print_expr];
    destruct (level _ <? k)%nat eqn:Lv; cbn [orb andb negb];
    try (by (eexists _, _; split; [reflexivity|]; by split)); cbn [expr_ok] in H; try done.
  - unfold ref_ok, print_ref in *. apply andb_true_iff in H as [H1 H2]. case_bool_decide; norm;
      (eexists _, _; split; [reflexivity|]; by apply leads_name).
  - destruct v as [|n|d|s]; cbn in *; try done; (eexists _, _; split; [reflexivity|]).
    + by split.
    + apply andb_true_iff in H as [H%Z.leb_le _]. by apply leads_number.
    + apply leads_quoted.
  - apply andb_true_iff in H as [H1 H2]. destruct (IHl (op_level op) H1) as (t & x & E & Ld). norm. rewrite E.
    eexists _, _. split; [reflexivity|]. exact Ld.
  - unfold print_agg. norm. eexists _, _. split; [reflexivity|]. by destruct f.
  - norm. eexists _, _. split; [reflexivity|]. by destruct f.
Qed.

Lemma no_point_no_star t ts : no_text ["."%string] ts = true -> match_qualified_star (t :: ts) = Got None (t :: ts).
Proof.
  destruct ts as [|d [|s ts]]; intros N; try done. unfold no_text, starts, kw_in in N. cbn [existsb] in N.
  apply negb_true_iff, orb_false_iff in N as [N _]. unfold match_qualified_star. by rewrite N, andb_false_r.
Qed.

Lemma not_qualified_star k e rest :
  expr_ok e = true -> no_text ["."%string] rest = true ->
  match_qualified_star (toks (print_expr k e) ++ rest) = Got None (toks (print_expr k e) ++ rest).
Proof.
  pose proof no_point_no_star as D.
  revert k rest. induction e as [c|v|op l IHl r IHr| |f a|f args|]; intros k rest H N; cbn [print_expr];
    destruct (level _ <? k)%nat eqn:Lv; rewrite ?toks_paren; try (unfold match_qualified_star; by (repeat case_match; cbn));
    cbn [expr_ok] in H; try done.
  - unfold ref_ok, print_ref in *. apply andb_true_iff in H as [H1 H2]. case_bool_decide; norm; [by apply D|].
    cbv beta iota delta [match_qualified_star]. rewrite (bool_decide_eq_false_2 (ref_name c = _)); [by rewrite andb_false_r|].
    by apply name_not_text.
  - by apply D.
  - apply andb_true_iff in H as [H1 H2]. rewrite toks_app, <- app_assoc. apply IHl; [done|]. by destruct op.
  - unfold print_agg. norm. by apply D.
  - norm. by apply D.
Qed.

(** ** Levels of operators *)

Definition lev (k : nat) : P Expression :=
  match k with
  | O => parse_expression
  | 1%nat => parse_additive parse_expression
  | 2%nat => parse_term parse_expression
  | _ => parse_factor parse_expression
  end.
Definition ops (k : nat) : list (string * BinOp) :=
  match k with O => concat_ops | 1%nat => additive_ops | _ => term_ops end.

Lemma leaves_lev k l : leaves (lev k) l (fun _ l' => (l' < l)%nat).
Proof.
  assert (F : forall l, leaves (parse_factor parse_expression) l (fun _ l' => (l' < l)%nat)).
  { intros j. apply leaves_factor. intros. apply leaves_expression. }
  destruct k as [|[|[|k]]]; cbn [lev]; [apply leaves_expression| | |apply F]; repeat (apply leaves_binary; intros); apply F.
Qed.

Lemma leaves_binary_step os k e l :
  leaves (binary_step os (lev k) e) l (fun r l' => match r with inl _ => (l' < l)%nat | inr _ => True end).
Proof.
  unfold binary_step. apply leaves_bind. eapply leaves_mono; [apply leaves_match_op|]. intros [op|] l' H; cbv beta iota in H.
  - apply leaves_bind. eapply leaves_mono; [apply leaves_lev|]. cbv beta. intros. apply leaves_ret. lia.
  - by apply leaves_ret.
Qed.

Lemma lev_eq k ts : (k <= 2)%nat -> lev k ts = binary_level (ops k) (lev (S k)) ts.
Proof. intros H. destruct k as [|[|[|k]]]; [apply parse_expression_eq|done|done|lia]. Qed.

Lemma match_op_none k rest : (k <= 2)%nat -> stop k rest = true -> match_op (ops k) rest = Got None rest.
Proof.
  intros H S. destruct k as [|[|[|k]]]; [| | |lia]; cbn [ops concat_ops additive_ops term_ops match_op].
  all: repeat (erewrite bind_Got by (eapply match_text_no; [exact S|repeat (apply elem_of_cons; (by left) || right)]); cbv beta iota).
  all: done.
Qed.

Definition reads (k : nat) (e : Expression) : Prop :=
  forall rest, stop k rest = true -> lev k (toks (print_expr k e) ++ rest) = Got e rest.
(** As the left end of a chain of the level's operators. *)
Definition reads_into (k : nat) (e : Expression) : Prop :=
  forall rest, stop (S k) rest = true -> lev k (toks (print_expr k e) ++ rest) = loop (binary_step (ops k) (lev (S k))) e rest.

Lemma reads_of_into k e : (k <= 2)%nat -> reads_into k e -> reads k e.
Proof.
  intros K H rest S. rewrite H by by apply stop_S. rewrite loop_eq by (intros; apply leaves_binary_step).
  unfold binary_step at 1. by erewrite bind_Got by by apply match_op_none.
Qed.

Lemma print_expr_level k e :
  print_expr k e = if (level e <? k)%nat then paren (print_expr 0 e) else print_expr 0 e.
Proof. by destruct e. Qed.

Lemma into_of_reads k e : (k <= 2)%nat -> level e <> k -> reads (S k) e -> reads_into k e.
Proof.
  intros K L H rest S. rewrite lev_eq by done. unfold binary_level.
  assert (print_expr k e = print_expr (Datatypes.S k) e) as ->.
  { rewrite (print_expr_level k), (print_expr_level (Datatypes.S k)).
    destruct (Nat.ltb_spec (level e) k), (Nat.ltb_spec (level e) (Datatypes.S k)); (done || lia). }
  by erewrite bind_Got by by apply H.
Qed.

(** From one level to the lower ones. *)
Lemma reads_down e k j : (j <= k)%nat -> (k <= 3)%nat -> (forall i, (j <= i < k)%nat -> level e <> i) -> reads k e -> reads j e.
Proof.
  intros J K H R. induction J as [|k J IH]; [done|]. apply IH; [lia|intros; apply H; lia|].
  apply reads_of_into; [lia|]. apply into_of_reads; [lia|apply H; lia|done].
Qed.

Lemma parens_read e : reads 0 e -> (level e < 3)%nat -> reads 3 e.
Proof.
  intros R L rest S. rewrite print_expr_level. assert ((level e <? 3)%nat = true) as -> by by apply Nat.ltb_lt.
  rewrite toks_paren. cbn [lev]. unfold parse_factor. compute_step. erewrite bind_Got by by apply R. compute_step. done.
Qed.

(** An expression that is read at its own level is read at every level. *)
Lemma reads_all e k : (k <= 3)%nat -> (level e <= 3)%nat -> reads (level e) e -> reads k e.
Proof.
  intros K L R. destruct (Nat.le_gt_cases k (level e)) as [Hk|Hk].
  - apply (reads_down e (level e)); [done|done|lia|done].
  - apply (reads_down e 3); [done|done|lia|]. apply parens_read; [|lia]. apply (reads_down e (level e)); [lia|done|lia|done].
Qed.

Lemma op_read op ts :
  match_op (ops (op_level op)) (text (op_lexeme op) :: ts) = Got (Some op) ts /\
  stop (S (op_level op)) (text (op_lexeme op) :: ts) = true.
Proof. by destruct op. Qed.

Lemma binary_into op l r :
  reads_into (op_level op) l -> reads (S (op_level op)) r -> reads_into (op_level op) (EBinary op l r).
Proof.
  intros Hl Hr rest S. cbn [print_expr level]. assert ((op_level op <? op_level op)%nat = false) as -> by apply Nat.ltb_irrefl.
  destruct (op_read op (toks (print_expr (Datatypes.S (op_level op)) r) ++ rest)) as [M St].
  rewrite toks_app, toks_cons, <- app_assoc, <- app_comm_cons. rewrite Hl by exact St.
  rewrite loop_eq by (intros; apply leaves_binary_step). unfold binary_step at 1.
  erewrite bind_Got by exact M. cbv beta iota. by erewrite bind_Got by by apply Hr.
Qed.

(** ** Factors *)

Ltac skip_tests := rewrite ?bool_decide_eq_false_2 by done.

Lemma column_factor c : ref_ok c = true -> reads 3 (EColumn c).
Proof.
  intros H rest S. pose proof (stop_3 _ _ S) as N. change (print_expr 3 (EColumn c)) with (print_ref c).
  cbn [lev]. unfold parse_factor.
  assert (exists s r, toks (print_ref c) ++ rest = s :: r /\ name_ok s = true) as (s & r & E & Ns).
  { unfold ref_ok, print_ref in *. apply andb_true_iff in H as [H1 H2]. case_bool_decide; norm; eauto. }
  pose proof (column_read c rest H N) as C. rewrite E in *.
  erewrite bind_Got by (eapply match_text_no; [by apply (name_no_text ["("%string])|by left]). cbv beta iota.
  pose proof (name_ok_facts s Ns) as [_ I F]. erewrite bind_Got by reflexivity. cbn [starts]. rewrite I.
  erewrite bind_Got by reflexivity. rewrite !name_neq_kw by (done || by repeat (apply elem_of_cons; (by left) || right)).
  rewrite (kw_in_sub _ keywords aggregate_names), (kw_in_sub _ keywords scalar_names) by done.
  by apply fmap_Got.
Qed.

Lemma literal_factor v : literal_ok v = true -> reads 3 (ELiteral v).
Proof.
  intros H rest S. change (toks (print_expr 3 (ELiteral v)) ++ rest) with (text (print_literal v) :: rest).
  pose proof (literal_read v rest H) as R. cbn [lev]. unfold parse_factor.
  destruct v as [|n|d|s]; [done| |done|].
  - apply andb_true_iff in H as [H%Z.leb_le _]. destruct (nat_string_spec n H) as (X & F & _). cbn [print_literal text] in *.
    destruct (nat_string n) as [|c ds]; [done|]. cbn [forallb] in F. apply andb_true_iff in F as [F _].
    destruct (is_digit_word _ F) as [_ A].
    assert (N : c <> "_"%byte) by by intros ->. assert (N' : c :: ds <> str "(") by (intros E; by inversion E; subst).
    erewrite bind_Got by (unfold match_text; cbn [match_with]; by rewrite bool_decide_eq_false_2). cbv beta iota.
    erewrite bind_Got by reflexivity. cbn [is_identifier]. rewrite A, bool_decide_eq_false_2 by done. cbn [orb].
    by apply fmap_Got.
  - cbn [print_literal text] in *. erewrite bind_Got by reflexivity. cbv beta iota. erewrite bind_Got by reflexivity.
    cbn [is_identifier quoted]. change (is_alpha quote) with false. rewrite bool_decide_eq_false_2 by done. cbn [orb].
    by apply fmap_Got.
Qed.

Lemma aggregate_factor f a : agg_ok a = true -> reads 3 (EAggregate f a).
Proof.
  intros H rest S. change (print_expr 3 (EAggregate f a)) with (print_agg f a). pose proof (aggregate_read f a rest H) as R.
  cbn [lev]. unfold parse_factor. unfold print_agg in *. rewrite toks_cons, <- app_comm_cons in *. cbn [text kw] in *.
  erewrite bind_Got by by destruct f. cbv beta iota. erewrite bind_Got by reflexivity. rewrite (proj1 (str_agg f)).
  erewrite bind_Got by reflexivity. rewrite !bool_decide_eq_false_2 by by destruct f. rewrite (proj2 (str_agg f)).
  by rewrite (fmap_Got _ _ _ _ _ R).
Qed.

Lemma function_factor f args :
  arity_ok f (length args) = true -> Forall (fun x => expr_ok x = true /\ reads 0 x) args -> reads 3 (EFunction f args).
Proof.
  intros A F rest S. change (print_expr 3 (EFunction f args)) with (kw (scalar_word f) :: paren (sep (map (print_expr 0) args))).
  assert (R := scalar_read f args rest A).
  cbn [lev]. unfold parse_factor. rewrite toks_cons, <- app_comm_cons in *. cbn [text kw] in *.
  erewrite bind_Got by by destruct f. cbv beta iota. erewrite bind_Got by reflexivity.
  assert (is_identifier (str (scalar_word f)) = true) as -> by by destruct f.
  erewrite bind_Got by reflexivity. rewrite !bool_decide_eq_false_2 by by destruct f.
  assert (kw_in (upper (str (scalar_word f))) aggregate_names = false) as -> by by destruct f.
  assert (kw_in (upper (str (scalar_word f))) scalar_names = true) as -> by by destruct f.
  apply R.
  - intros x rest' I. eapply Forall_forall in F as [_ F]; [|exact I]. apply F.
  - eapply Forall_impl; [exact F|]. intros x [O _]. destruct (first_token 0 x O) as (t & r & -> & L). split; [done|].
    intros r'. cbn [app]. unfold no_text, starts. pose proof (lo_text _ _ _ L) as N.
    apply negb_true_iff. by eapply kw_in_sub.
Qed.

(** Every expression that has a spelling is read back from it. *)
Lemma expression_reads e :
  expr_ok e = true -> (forall k, (k <= 3)%nat -> reads k e) /\ (forall k, (k <= 2)%nat -> reads_into k e).
Proof.
  assert (Leaf : forall e, level e = 3%nat -> reads 3 e -> (forall k, (k <= 3)%nat -> reads k e) /\ (forall k, (k <= 2)%nat -> reads_into k e)).
  { intros x L R. assert (forall k, (k <= 3)%nat -> reads k x) as A.
    { intros. apply reads_all; [done|lia|by rewrite L]. }
    split; [done|]. intros k K. apply into_of_reads; [done|lia|]. apply A. lia. }
  induction e as [c|v|op l r IHl IHr| |f a|f args IH|] using Expression_all; cbn [expr_ok]; intros H; try done.
  - by apply Leaf, column_factor.
  - by apply Leaf, literal_factor.
  - apply andb_true_iff in H as [H1 H2]. specialize (IHl H1) as [Al Il]. specialize (IHr H2) as [Ar Ir].
    assert (Lo : (op_level op <= 2)%nat) by (destruct op; cbn; lia).
    assert (B : reads_into (op_level op) (EBinary op l r)) by (apply binary_into; [by apply Il|apply Ar; lia]).
    assert (A : forall k, (k <= 3)%nat -> reads k (EBinary op l r)).
    { intros. apply reads_all; [done|cbn [level]; lia|]. by apply reads_of_into. }
    split; [done|]. intros k K. destruct (Nat.eq_dec (op_level op) k) as [<-|N]; [done|].
    apply into_of_reads; [done|done|]. apply A. lia.
  - by apply Leaf, aggregate_factor.
  - apply andb_true_iff in H as [H1 H2]. apply Leaf, function_factor; [done|done|].
    apply Forall_forall. intros x I. assert (O : expr_ok x = true) by (eapply forallb_forall; [exact H2|by apply list_elem_of_In]).
    destruct (proj1 (Forall_forall _ _) IH x I O) as [R _]. split; [done|]. by apply R; lia.
Qed.

Lemma expression_read e rest :
  expr_ok e = true -> stop 0 rest = true -> parse_expression (toks (print_expr 0 e) ++ rest) = Got e rest.
Proof. intros H S. apply (proj1 (expression_reads e H) 0%nat); [lia|done]. Qed.

Lemma expression_list_read es rest :
  forallb expr_ok es = true -> es <> [] -> stop 0 rest = true -> no_text [","%string] rest = true ->
  sep_list parse_expression (toks (sep (map (print_expr 0) es)) ++ rest) = Got es rest.
Proof.
  intros H X S N. apply (sep_list_read _ _ (fun r => stop 0 r = true)); try done; [apply leaves_expression|].
  intros x r I. apply expression_read. eapply forallb_forall; [exact H|by apply list_elem_of_In].
Qed.
