(* ===== verification/ParserQueries.v ===== *)
(** Reading back predicates, queries and statements, and the round trip from a
    statement to its text and back. *)
From Stdlib Require Import ZArith Lia Strings.Byte.
From stdpp Require Import base numbers list gmap strings.
From S2P Require Import Prelude Values Doubles Eval Query Logical Folding Lexer Parser ParserTotal Printer ParserRoundtrip.
Local Open Scope Z_scope.

(** A query ends where the tokens do or at a closing parenthesis. *)
Definition ends (rest : list bytes) : Prop := rest = [] \/ exists r, rest = str ")" :: r.

Section Subqueries.
(** Queries of less than [N] tokens are read back. *)
Variable N : nat.
Hypothesis IHq : forall q rest, query_ok q = true -> (length (print_query q) < N)%nat -> ends rest ->
  parse_select (toks (print_query q) ++ rest) = Got q rest.

(** * Comparisons *)

Lemma comparison_read c rest :
  comparison_ok c = true -> stop 0 rest = true ->
  parse_comparison parse_select (toks (print_comparison c) ++ rest) = Got (BComparison (Some c)) rest.
Proof.
  destruct c as [l op r]. unfold comparison_ok, print_comparison, parse_comparison. cbn [cmp_lhs cmp_op cmp_rhs].
  intros [[Hl Ho]%andb_true_iff Hr]%andb_true_iff S. norm.
  erewrite bind_Got by (apply expression_read; [done|by destruct op]).
  destruct op; cbn [op_word nullary] in *; norm;
    repeat (first [ erewrite bind_Got by reflexivity | erewrite bind_Got by (by apply expression_read) ]; cbv beta iota); try reflexivity.
  all: destruct r as [|v| | | | |]; try done; by apply bool_decide_eq_true in Hr as ->.
Qed.

Lemma between_read b rest :
  between_ok b = true -> stop 0 rest = true ->
  parse_comparison parse_select (toks (print_between b) ++ rest) = Got (BBetween (Some b)) rest.
Proof.
  destruct b as [e l h neg]. unfold between_ok, print_between, parse_comparison. cbn [btw_expr btw_low btw_high btw_negated].
  intros [[[He Ho]%andb_true_iff Hl]%andb_true_iff Hh]%andb_true_iff S. norm.
  erewrite bind_Got by (apply expression_read; [done|by destruct neg]).
  destruct neg; cbn [print_not]; norm;
    repeat (first [ erewrite bind_Got by reflexivity | erewrite bind_Got by (by apply expression_read) ]; cbv beta iota); reflexivity.
Qed.

Lemma query_first q : exists r, toks (print_query q) = str "SELECT" :: r.
Proof. destruct q as [[]]. cbn [print_query print_core]. norm. eauto. Qed.

Lemma in_list_read e vs neg rest :
  forallb expr_ok vs = true -> vs <> [] ->
  parse_in parse_select e neg (toks (paren (sep (map (print_expr 0) vs))) ++ rest) = Got (BIn (Some (mkIn e vs neg None false))) rest.
Proof.
  intros H X. unfold parse_in. norm. compute_step. destruct vs as [|v vs]; [done|].
  assert (exists t r, toks (sep (map (print_expr 0) (v :: vs))) ++ str ")" :: rest = t :: r /\ upper t <> str "SELECT") as (t & r & E & Nt).
  { pose proof H as F. cbn in F. apply andb_true_iff in F as [F _]. destruct (first_token 0 v F) as (t & r & E & L).
    pose proof (kw_in_elem _ _ "SELECT"%string (lo_kw _ _ _ L) ltac:(by repeat (apply elem_of_cons; (by left) || right))) as Nt.
    destruct vs as [|w vs]; cbn [map]; rewrite ?toks_sep_cons; cbn [sep]; rewrite E; cbn [app]; eauto. }
  rewrite E. erewrite bind_Got by reflexivity. rewrite bool_decide_eq_false_2 by done. rewrite <- E.
  erewrite bind_Got; [|by erewrite bind_Got by by apply expression_list_read]. cbv beta. compute_step. done.
Qed.

Lemma in_query_read e q neg rest :
  query_ok q = true -> (length (print_query q) < N)%nat ->
  parse_in parse_select e neg (toks (paren (print_query q)) ++ rest) = Got (BIn (Some (mkIn e [] neg (Some q) false))) rest.
Proof.
  intros H L. unfold parse_in. norm. compute_step.
  assert (E : peek_upper (toks (print_query q) ++ str ")" :: rest) = Got (str "SELECT") (toks (print_query q) ++ str ")" :: rest)).
  { destruct (query_first q) as [r ->]. reflexivity. }
  erewrite bind_Got by exact E. rewrite bool_decide_eq_true_2 by done.
  erewrite bind_Got; [|by erewrite bind_Got by (apply IHq; [done|done|right; eauto])]. cbv beta. compute_step. done.
Qed.

Lemma is_nil_eq {A} (l : list A) : is_nil l = true -> l = [].
Proof. by destruct l. Qed.

(** An IN after its left-hand side. *)
Lemma in_tail e neg (x : list lexeme) v rest :
  expr_ok e = true -> parse_in parse_select e neg (toks (paren x) ++ rest) = Got v rest ->
  parse_comparison parse_select (toks (print_expr 0 e ++ print_not neg ++ kw "IN" :: paren x) ++ rest) = Got v rest.
Proof.
  intros He R. rewrite !toks_app, toks_cons, <- !app_assoc, <- app_comm_cons. unfold parse_comparison.
  erewrite bind_Got by (apply expression_read; [done|by destruct neg]).
  destruct neg; cbn [print_not]; rewrite ?toks_cons, ?toks_nil; cbn [app]; repeat (erewrite bind_Got by reflexivity; cbv beta iota); exact R.
Qed.

Lemma in_read i rest :
  in_ok query_ok i = true -> in_exists_only i = false -> (length (print_in print_query i) <= N)%nat ->
  parse_comparison parse_select (toks (print_in print_query i) ++ rest) = Got (BIn (Some i)) rest.
Proof.
  destruct i as [e vs neg sub ex]. unfold in_ok, print_in. cbn [in_expr in_values in_negated in_subquery in_exists_only].
  intros H -> L. destruct sub as [q|]; rewrite !andb_true_iff, ?negb_true_iff in H.
  - destruct H as [[Hq ->%is_nil_eq] [He Ho]]. apply in_tail; [done|]. apply in_query_read; [done|].
    rewrite !length_app in L. unfold paren in L. cbn in L. rewrite length_app in L. lia.
  - destruct H as [[[[He Ho] _] Hn] Hv]. apply in_tail; [done|]. apply in_list_read; [done|]. by intros ->.
Qed.

(** * Connectives *)

Abbreviation atom := (parse_bool_atom parse_bool_expr parse_select).
Abbreviation not_ := (parse_not parse_bool_expr parse_select).
Abbreviation and_ := (parse_and parse_bool_expr parse_select).

Definition bstop (k : nat) (rest : list bytes) : bool :=
  stop 0 rest && no_kw (match k with O => ["OR"; "AND"] | 1%nat => ["AND"] | _ => [] end%string) rest.
Lemma bstop_S k rest : bstop k rest = true -> bstop (S k) rest = true.
Proof.
  unfold bstop. rewrite !andb_true_iff. intros [H1 H2]. split; [done|]. destruct k as [|[|k]]; (eapply no_kw_sub; [exact H2|done]).
Qed.

Definition blev (k : nat) : P (BoolExpr Query) := match k with O => parse_bool_expr | 1%nat => and_ | _ => not_ end.
Definition word (k : nat) : string := match k with O => "OR" | _ => "AND" end.
Definition node (k : nat) : BoolExpr Query -> BoolExpr Query -> BoolExpr Query := match k with O => or_node | _ => and_node end.

Lemma leaves_blev k l : leaves (blev k) l (fun _ l' => (l' < l)%nat).
Proof.
  assert (F : forall l, leaves not_ l (fun _ l' => (l' < l)%nat)).
  { intros j. by apply (leaves_not _ _ j); [intros; apply leaves_bool_expr|intros; apply leaves_parse_select|]. }
  destruct k as [|[|k]]; cbn [blev]; [apply leaves_bool_expr| |apply F]. unfold parse_and. by apply leaves_connective.
Qed.
Lemma leaves_connective_step k j e l :
  leaves (connective_step (word j) (blev k) (node j) e) l (fun r l' => match r with inl _ => (l' < l)%nat | inr _ => True end).
Proof.
  unfold connective_step. leaves_auto. eapply leaves_mono; [apply leaves_blev|]. cbv beta. intros. leaves_auto.
Qed.

Lemma blev_eq k ts : (k <= 1)%nat ->
  blev k ts = (left ← blev (S k); loop (connective_step (word k) (blev (S k)) (node k)) left) ts.
Proof. intros H. destruct k as [|[|k]]; [apply parse_bool_expr_eq|done|lia]. Qed.

Definition breads (k : nat) (b : BoolExpr Query) : Prop :=
  forall rest, bstop k rest = true -> blev k (toks (print_bool print_query k b) ++ rest) = Got b rest.
Definition breads_into (k : nat) (b : BoolExpr Query) : Prop :=
  forall rest, bstop (S k) rest = true ->
    blev k (toks (print_bool print_query k b) ++ rest) = loop (connective_step (word k) (blev (S k)) (node k)) b rest.

Lemma breads_of_into k b : (k <= 1)%nat -> breads_into k b -> breads k b.
Proof.
  intros K H rest S. rewrite H by by apply bstop_S. rewrite loop_eq by (intros; apply leaves_connective_step).
  unfold connective_step at 1. apply andb_true_iff in S as [_ S].
  assert (M : match_keyword (word k) rest = Got false rest).
  { destruct k as [|[|k]]; [| |lia]; (eapply match_kw_no; [exact S|by apply (bool_decide_unpack _)]). }
  by erewrite bind_Got by exact M.
Qed.

Lemma print_bool_level k b :
  print_bool print_query k b = if (bool_level b <? k)%nat then paren (print_bool print_query 0 b) else print_bool print_query 0 b.
Proof. by destruct b. Qed.

Lemma binto_of_reads k b : (k <= 1)%nat -> bool_level b <> k -> breads (S k) b -> breads_into k b.
Proof.
  intros K L H rest S. rewrite blev_eq by done.
  assert (print_bool print_query k b = print_bool print_query (Datatypes.S k) b) as ->.
  { rewrite (print_bool_level k), (print_bool_level (Datatypes.S k)).
    destruct (Nat.ltb_spec (bool_level b) k), (Nat.ltb_spec (bool_level b) (Datatypes.S k)); (done || lia). }
  by erewrite bind_Got by by apply H.
Qed.

Lemma breads_down b k j :
  (j <= k)%nat -> (k <= 2)%nat -> (forall i, (j <= i < k)%nat -> bool_level b <> i) -> breads k b -> breads j b.
Proof.
  intros J K H R. induction J as [|k J IH]; [done|]. apply IH; [lia|intros; apply H; lia|].
  apply breads_of_into; [lia|]. apply binto_of_reads; [lia|apply H; lia|done].
Qed.

(** Where NOT does not come next. *)
Lemma not_atom ts b rest : no_kw ["NOT"%string] ts = true -> atom ts = Got b rest -> not_ ts = Got b rest.
Proof.
  intros H A. rewrite parse_not_eq. unfold not_body. by erewrite bind_Got by (eapply match_kw_no; [exact H|by left]).
Qed.

Lemma bparens_read b : breads 0 b -> (bool_level b < 2)%nat -> breads 2 b.
Proof.
  intros R L rest S. rewrite print_bool_level. assert ((bool_level b <? 2)%nat = true) as -> by by apply Nat.ltb_lt.
  rewrite toks_paren. cbn [blev]. apply not_atom; [done|]. unfold parse_bool_atom. compute_step. compute_step.
  erewrite bind_Got by by apply R. compute_step. done.
Qed.

Lemma breads_all b k : (k <= 2)%nat -> (bool_level b <= 2)%nat -> breads (bool_level b) b -> breads k b.
Proof.
  intros K L R. destruct (Nat.le_gt_cases k (bool_level b)) as [Hk|Hk].
  - apply (breads_down b (bool_level b)); [done|done|lia|done].
  - apply (breads_down b 2); [done|done|lia|]. apply bparens_read; [|lia]. apply (breads_down b (bool_level b)); [lia|done|lia|done].
Qed.

Lemma connective_into k l r :
  (k <= 1)%nat -> breads_into k l -> breads (S k) r -> print_bool print_query k (node k l r) =
    print_bool print_query k l ++ kw (word k) :: print_bool print_query (S k) r -> breads_into k (node k l r).
Proof.
  intros K Hl Hr E rest S. rewrite E, toks_app, toks_cons, <- app_assoc, <- app_comm_cons.
  rewrite Hl by (by destruct k as [|[|k]]; [| |lia]).
  rewrite loop_eq by (intros; apply leaves_connective_step). unfold connective_step at 1.
  erewrite bind_Got by (by destruct k as [|[|k]]; [| |lia]). cbv beta iota. by erewrite bind_Got by by apply Hr.
Qed.

(** ** Atoms *)

(** A comparison that does not start with a parenthesis is read by
    [parse_comparison]. *)
Lemma comparison_atom e x b rest :
  expr_ok e = true -> opens e = false ->
  parse_comparison parse_select (toks (print_expr 0 e ++ x) ++ rest) = Got b rest -> not_ (toks (print_expr 0 e ++ x) ++ rest) = Got b rest.
Proof.
  intros H O R. destruct (first_token 0 e H) as (t & r & E & [Lk _ Lo _]). rewrite O in Lo. specialize (Lo eq_refl).
  rewrite toks_app, E in *. cbn [app] in *.
  assert (K : no_kw lead_words (t :: (r ++ toks x) ++ rest) = true) by (unfold no_kw, starts; by rewrite Lk).
  apply not_atom; [by eapply no_kw_sub|]. unfold parse_bool_atom.
  erewrite bind_Got by (eapply match_kw_no; [exact K|by apply (bool_decide_unpack _)]). cbv beta iota.
  erewrite bind_Got by (unfold match_text; cbn [match_with]; by rewrite bool_decide_eq_false_2). exact R.
Qed.

Lemma exists_atom q rest :
  query_ok q = true -> (length (print_query q) < N)%nat ->
  not_ (toks (kw "EXISTS" :: paren (print_query q)) ++ rest) = Got (BIn (Some (mkIn (ELiteral (VInt 1)) [] false (Some q) true))) rest.
Proof.
  intros H L. norm. apply not_atom; [done|]. unfold parse_bool_atom. compute_step. compute_step.
  erewrite bind_Got by (apply IHq; [done|done|right; eauto]). compute_step. done.
Qed.

Lemma leaf_reads b : bool_level b = 2%nat -> breads 2 b ->
  (forall k, (k <= 2)%nat -> breads k b) /\ (forall k, (k <= 1)%nat -> breads_into k b).
Proof.
  intros L R. assert (forall k, (k <= 2)%nat -> breads k b) as A by (intros; apply breads_all; [done|lia|by rewrite L]).
  split; [done|]. intros k K. apply binto_of_reads; [done|lia|]. apply A. lia.
Qed.

Lemma node_reads k b : (k <= 1)%nat -> bool_level b = k -> breads_into k b ->
  (forall k, (k <= 2)%nat -> breads k b) /\ (forall k, (k <= 1)%nat -> breads_into k b).
Proof.
  intros K L R. assert (forall k, (k <= 2)%nat -> breads k b) as A.
  { intros. apply breads_all; [done|lia|]. rewrite L. by apply breads_of_into. }
  split; [done|]. intros j J. destruct (Nat.eq_dec j k) as [->|]; [done|]. apply binto_of_reads; [done|lia|]. apply A. lia.
Qed.

Lemma print_bool_length k b : (length (print_bool print_query 0 b) <= length (print_bool print_query k b))%nat.
Proof. rewrite (print_bool_level k). destruct (_ <? _)%nat; [|done]. unfold paren. cbn [length]. rewrite length_app. lia. Qed.

Lemma in_atom i : in_ok query_ok i = true -> (length (print_in print_query i) <= N)%nat -> breads 2 (BIn (Some i)).
Proof.
  intros H L rest S. change (print_bool print_query 2 (BIn (Some i))) with (print_in print_query i). cbn [blev].
  pose proof (in_read i rest H) as R. destruct i as [e vs neg sub ex]. unfold in_ok, print_in in *.
  cbn [in_expr in_values in_negated in_subquery in_exists_only] in *.
  destruct sub as [q|]; rewrite !andb_true_iff, ?negb_true_iff in H.
  - destruct H as [[Hq Hv] Hx]. apply is_nil_eq in Hv as ->. destruct ex.
    + apply andb_true_iff in Hx as [Hx ->%negb_true_iff]. destruct e as [|v| | | | |]; try done. apply bool_decide_eq_true in Hx as ->.
      apply exists_atom; [done|]. unfold paren in L. cbn in L. rewrite length_app in L. lia.
    + apply andb_true_iff in Hx as [He Ho%negb_true_iff]. apply comparison_atom; [done|done|by apply R].
  - destruct H as [[[[He Ho] ->] Hn] Hv]. apply comparison_atom; [done|done|by apply R].
Qed.

Lemma bool_reads b :
  bool_ok query_ok b = true -> (length (print_bool print_query 0 b) <= N)%nat ->
  (forall k, (k <= 2)%nat -> breads k b) /\ (forall k, (k <= 1)%nat -> breads_into k b).
Proof.
  induction b as [c|i|bt|l r Hl Hr|l r Hl Hr|e He] using BoolExpr_parts; cbn [bool_ok]; intros H L.
  - destruct c as [c|]; [|done]. apply leaf_reads; [done|]. intros rest S. apply andb_true_iff in S as [S _].
    pose proof (comparison_read c rest H S) as R. unfold comparison_ok in H. rewrite !andb_true_iff, negb_true_iff in H.
    destruct H as [[H O] _]. by apply comparison_atom.
  - destruct i as [i|]; [|done]. apply leaf_reads; [done|]. by apply in_atom.
  - destruct bt as [b|]; [|done]. apply leaf_reads; [done|]. intros rest S. apply andb_true_iff in S as [S _].
    pose proof (between_read b rest H S) as R. unfold between_ok in H. rewrite !andb_true_iff, negb_true_iff in H.
    destruct H as [[[H O] _] _]. by apply comparison_atom.
  - destruct l as [l|], r as [r|]; try done. apply andb_true_iff in H as [H1 H2]. cbn [opt_all print_bool] in *.
    cbn in L. rewrite length_app in L. cbn [length] in L.
    pose proof (print_bool_length 1 l). pose proof (print_bool_length 2 r).
    apply (node_reads 1); [done|done|]. apply (connective_into 1 l r); [done| | |done].
    + apply Hl; [done|lia|done].
    + apply Hr; [done|lia|done].
  - destruct l as [l|], r as [r|]; try done. apply andb_true_iff in H as [H1 H2]. cbn [opt_all print_bool] in *.
    cbn in L. rewrite length_app in L. cbn [length] in L. pose proof (print_bool_length 1 r).
    apply (node_reads 0); [lia|done|]. apply (connective_into 0 l r); [lia| | |done].
    + apply Hl; [done|lia|lia].
    + apply Hr; [done|lia|lia].
  - destruct e as [e|]; [|done]. cbn [opt_all] in *. cbn in L. pose proof (print_bool_length 2 e).
    apply leaf_reads; [done|]. intros rest S. change (print_bool print_query 2 (BNot (Some e))) with (kw "NOT" :: print_bool print_query 2 e).
    norm. cbn [blev]. rewrite parse_not_eq. unfold not_body. compute_step.
    erewrite bind_Got by (apply (proj1 (He H ltac:(lia)) 2%nat); [lia|exact S]). done.
Qed.

Lemma bool_read b rest :
  bool_ok query_ok b = true -> (length (print_bool print_query 0 b) <= N)%nat -> bstop 0 rest = true ->
  parse_bool_expr (toks (print_bool print_query 0 b) ++ rest) = Got b rest.
Proof. intros H L S. apply (proj1 (bool_reads b H L) 0%nat); [lia|done]. Qed.

(** * The clauses of a query *)

(** What follows a clause: the end of the query or the word of a later clause. *)
Definition tail_ok (ws : list string) (ts : list bytes) : Prop := ends ts \/ exists w r, w ∈ ws /\ ts = str w :: r.

Lemma tail_check (f : list bytes -> bool) ws ts :
  tail_ok ws ts -> (forall t r, f (t :: r) = f [t]) -> f [] = true -> forallb (fun w => f [str w]) (")"%string :: ws) = true -> f ts = true.
Proof.
  intros T H H0 F. destruct T as [[-> | [r ->]]|(w & r & I & ->)]; [done| |]; rewrite H; eapply forallb_forall in F; try exact F.
  - by left.
  - right. by apply list_elem_of_In.
Qed.
Lemma tail_no_kw ks ws ts : tail_ok ws ts -> forallb (fun w => no_kw ks [str w]) (")"%string :: ws) = true -> no_kw ks ts = true.
Proof. intros T F. by eapply tail_check. Qed.
Lemma tail_no_text ks ws ts : tail_ok ws ts -> forallb (fun w => no_text ks [str w]) (")"%string :: ws) = true -> no_text ks ts = true.
Proof. intros T F. by eapply tail_check. Qed.
Lemma tail_bstop ws ts : tail_ok ws ts -> forallb (fun w => bstop 0 [str w]) (")"%string :: ws) = true -> bstop 0 ts = true.
Proof. intros T F. by eapply tail_check. Qed.

Lemma tail_sub ws ws' ts : tail_ok ws ts -> forallb (fun w => bool_decide (w ∈ ws')) ws = true -> tail_ok ws' ts.
Proof.
  intros [E|(w & r & I & ->)] F; [by left|right]. exists w, r. split; [|done].
  eapply forallb_forall in F; [by apply bool_decide_eq_true in F|by apply list_elem_of_In].
Qed.
Lemma tail_word ws w r : w ∈ ws -> tail_ok ws (str w :: r).
Proof. intros I. right. eauto. Qed.

Lemma match_word w ts : upper (str w) = str w -> match_keyword w (str w :: ts) = Got true ts.
Proof. intros E. unfold match_keyword. cbn [match_with]. by rewrite E, bool_decide_eq_true_2. Qed.

Definition is_free (reserved : list string) (t : bytes) : bool := is_identifier t && negb (kw_in (upper t) reserved).
Lemma alias_none reserved ts : starts (is_free reserved) ts = false -> opt_alias reserved ts = Got None ts.
Proof.
  intros H. unfold opt_alias. erewrite bind_Got by reflexivity. erewrite bind_Got by reflexivity. cbv beta iota.
  destruct ts as [|t ts]; [done|]. unfold starts, is_free in H. by rewrite H.
Qed.
Lemma alias_some reserved a ts :
  name_ok a = true -> forallb (fun k => bool_decide (k ∈ keywords)) reserved = true -> opt_alias reserved (a :: ts) = Got (Some a) ts.
Proof.
  intros H F. pose proof (name_ok_facts a H) as [_ I K]. unfold opt_alias. erewrite bind_Got by reflexivity.
  erewrite bind_Got by reflexivity. cbv beta iota. rewrite I, (kw_in_sub _ keywords reserved) by done. cbn [andb negb].
  apply fmap_Got. by apply identifier_name.
Qed.

Lemma alias_read a ws ts :
  alias_ok a = true -> tail_ok ws ts -> forallb (fun w => negb (is_free select_reserved (str w))) ws = true ->
  opt_alias select_reserved (toks (print_alias a) ++ ts) = Got a ts.
Proof.
  intros H T F. destruct a as [a|]; cbn [print_alias alias_ok] in *.
  - norm. by apply alias_some.
  - cbn [toks map app]. apply alias_none. apply negb_true_iff.
    apply (tail_check (fun ts => negb (starts (is_free select_reserved) ts)) ws); try done.
Qed.

(** ** Projections and sort keys *)

Lemma key_read v rest : value_ok v = true -> stop 0 rest = true -> parse_key (toks (print_value v) ++ rest) = Got v rest.
Proof.
  intros H S. unfold parse_key. destruct v as [e|[f a]]; cbn [print_value value_ok agg_func agg_arg] in *.
  - apply andb_true_iff in H as [H A%negb_true_iff]. pose proof (expression_read e rest H S) as R.
    destruct (first_token 0 e H) as (t & r & E & [_ _ _ La]). rewrite A, andb_false_r in La. specialize (La eq_refl).
    rewrite E in *. cbn [app] in *. erewrite bind_Got by reflexivity. erewrite bind_Got by reflexivity. cbv beta iota.
    rewrite La. by apply fmap_Got.
  - pose proof (aggregate_read f a rest H) as R. unfold print_agg in *. rewrite toks_cons, <- app_comm_cons in *. cbn [text kw] in *.
    erewrite bind_Got by reflexivity. erewrite bind_Got by reflexivity. cbv beta iota.
    rewrite (proj1 (str_agg f)), (proj2 (str_agg f)). cbn [andb]. by apply fmap_Got.
Qed.

(** After an item comes a comma or FROM. *)
Definition item_end (rest : list bytes) : Prop := exists r, rest = str "," :: r \/ rest = str "FROM" :: r.

Lemma value_start v rest :
  value_ok v = true -> no_text ["."%string] rest = true ->
  no_text ["*"%string] (toks (print_value v) ++ rest) = true /\
  no_kw ["DISTINCT"%string] (toks (print_value v) ++ rest) = true /\
  match_qualified_star (toks (print_value v) ++ rest) = Got None (toks (print_value v) ++ rest).
Proof.
  intros H S. destruct v as [e|[f a]]; cbn [print_value value_ok agg_func agg_arg] in *.
  - apply andb_true_iff in H as [H _]. split_and!; [| |by apply not_qualified_star];
      destruct (first_token 0 e H) as (t & r & E & [Lk Lt _ _]); rewrite E; cbn [app]; unfold no_text, no_kw, starts;
      apply negb_true_iff; (eapply kw_in_sub; [eassumption|done]).
  - unfold print_agg. norm. split_and!; [by destruct f..|by apply no_point_no_star].
Qed.

Lemma item_read it rest : item_ok it = true -> item_end rest -> parse_select_item (toks (print_item it) ++ rest) = Got it rest.
Proof.
  destruct it as [v al]. unfold item_ok, print_item. cbn [item_value item_alias]. intros H [r E].
  destruct (is_star (mkItem v al)) as [t|] eqn:St.
  - unfold is_star in St. cbn [item_value] in St. destruct v as [[[t' n]| | | | | |]|]; try done. cbn [ref_table ref_name] in St.
    destruct (decide (n = str "*")) as [->|En]; [rewrite bool_decide_eq_true_2 in St by done|by rewrite bool_decide_eq_false_2 in St].
    injection St as ->. apply andb_true_iff in H as [H Ha%bool_decide_eq_true]. subst al.
    unfold parse_select_item. case_bool_decide as Et; norm.
    + subst t. compute_step. done.
    + cbn [orb] in H. erewrite bind_Got by (eapply match_text_no; [by apply (name_no_text ["*"%string])|by left]). cbv beta iota.
      erewrite bind_Got; [|cbv beta iota delta [match_qualified_star]; rewrite (nf_ident _ (name_ok_facts t H)); reflexivity]. done.
  - apply andb_true_iff in H as [H Ha]. unfold parse_select_item. rewrite toks_app, <- app_assoc.
    set (tl := toks _ ++ rest). assert (S : stop 0 tl = true) by (subst tl; destruct al; [done|]; by destruct E as [->| ->]).
    destruct (value_start v tl H (stop_3 0 _ S)) as (N1 & _ & N2).
    erewrite bind_Got by (eapply match_text_no; [exact N1|by left]). cbv beta iota.
    erewrite bind_Got by exact N2. cbv beta iota. erewrite bind_Got by by apply key_read.
    subst tl. destruct al as [a|]; norm.
    + compute_step. erewrite bind_Got by (apply fmap_Got; by apply identifier_name). done.
    + by destruct E as [->| ->].
Qed.

Lemma items_read its r :
  forallb item_ok its = true -> its <> [] ->
  parse_projections (toks (sep (map print_item its)) ++ str "FROM" :: r) = Got its (str "FROM" :: r).
Proof.
  intros H X. apply (sep_list_read _ _ item_end); try done; [apply leaves_select_item| | |].
  - intros x rest I. apply item_read. eapply forallb_forall; [exact H|by apply list_elem_of_In].
  - intros r'. eexists. by left.
  - eexists. by right.
Qed.

Lemma order_read o rest : value_ok (ord_key o) = true -> parse_order_item (toks (print_order o) ++ rest) = Got o rest.
Proof.
  destruct o as [v asc]. unfold print_order, parse_order_item. cbn [ord_key ord_asc]. intros H. norm.
  erewrite bind_Got by (apply key_read; [done|by destruct asc]). by destruct asc.
Qed.

Lemma int_read n rest : 0 <= n < 2 ^ 63 -> parse_int_literal (nat_string n :: rest) = Got n rest.
Proof.
  intros H. unfold parse_int_literal. erewrite bind_Got by reflexivity. rewrite stoll_print by done.
  destruct (nat_string_spec n ltac:(lia)) as (X & F & _). destruct (nat_string n) as [|c ds]; [done|].
  cbn [forallb] in F. apply andb_true_iff in F as [-> _]. done.
Qed.

(** ** Clauses *)

Lemma clause_read w b ts :
  upper (str w) = str w -> clause_ok query_ok b = true -> (length (print_clause print_query w b) <= N)%nat ->
  bstop 0 ts = true -> no_kw [w] ts = true ->
  clause w parse_bool_expr (toks (print_clause print_query w b) ++ ts) = Got b ts.
Proof.
  intros E H L S K. unfold clause. destruct b as [b|]; cbn [print_clause clause_ok] in *.
  - norm. erewrite bind_Got by by apply match_word. cbv beta iota. apply fmap_Got. apply bool_read; [done|cbn in L; lia|done].
  - cbn [toks map app]. by erewrite bind_Got by (eapply match_kw_no; [exact K|by left]).
Qed.

Lemma count_read w n ts :
  upper (str w) = str w -> count_ok n = true -> no_kw [w] ts = true ->
  clause w parse_int_literal (toks (print_count w n) ++ ts) = Got n ts.
Proof.
  intros E H K. unfold clause. destruct n as [n|]; cbn [print_count count_ok] in *.
  - apply andb_true_iff in H as [H1%Z.leb_le H2%Z.ltb_lt]. norm. erewrite bind_Got by by apply match_word. cbv beta iota.
    apply fmap_Got. by apply int_read.
  - cbn [toks map app]. by erewrite bind_Got by (eapply match_kw_no; [exact K|by left]).
Qed.

Lemma by_read {A} w (p : P (list A)) (pr : A -> list lexeme) xs ts :
  upper (str w) = str w -> no_kw [w] ts = true ->
  (xs <> [] -> p (toks (sep (map pr xs)) ++ ts) = Got xs ts) ->
  by_clause w p (toks (print_by w (map pr xs)) ++ ts) = Got xs ts.
Proof.
  intros E K H. unfold by_clause. destruct xs as [|x xs].
  - cbn [map print_by toks app]. by erewrite bind_Got by (eapply match_kw_no; [exact K|by left]).
  - change (print_by w (map pr (x :: xs))) with (kw w :: kw "BY" :: sep (map pr (x :: xs))). norm.
    erewrite bind_Got by by apply match_word. cbv beta iota. compute_step. by apply H.
Qed.

Lemma group_read gs ts : forallb ref_ok gs = true -> no_text ["."; ","]%string ts = true -> gs <> [] ->
  parse_group_by (toks (sep (map print_ref gs)) ++ ts) = Got gs ts.
Proof.
  intros H S X. apply (sep_list_read _ _ (fun r => no_text ["."%string] r = true)); try done.
  - apply leaves_column_ref.
  - intros x r I. apply column_read. eapply forallb_forall; [exact H|by apply list_elem_of_In].
  - by eapply no_text_sub.
  - by eapply no_text_sub.
Qed.

Lemma orders_read os ts : forallb (fun o => value_ok (ord_key o)) os = true -> no_text [","%string] ts = true -> os <> [] ->
  parse_order_by (toks (sep (map print_order os)) ++ ts) = Got os ts.
Proof.
  intros H S X. apply (sep_list_read _ _ (fun _ => True)); try done.
  - apply leaves_order_item.
  - intros x r I _. apply order_read. by eapply forallb_forall in H; [|by apply list_elem_of_In].
Qed.

(** ** Joins *)

Lemma join_words_read t ts : match_join (toks (join_words t) ++ ts) = Got (Some t) ts.
Proof. by destruct t. Qed.
Lemma no_join ts : no_kw ["LEFT"; "RIGHT"; "FULL"; "INNER"; "JOIN"]%string ts = true -> match_join ts = Got None ts.
Proof.
  intros H. unfold match_join.
  repeat (erewrite bind_Got by (eapply match_kw_no; [exact H|by apply (bool_decide_unpack _)]); cbv beta iota). done.
Qed.

Definition join_heads : list string := ["LEFT"; "RIGHT"; "FULL"; "JOIN"]%string.

Lemma leaves_join_step_any js l :
  leaves (join_step parse_bool_expr js) l (fun r l' => match r with inl _ => (l' < l)%nat | inr _ => True end).
Proof.
  eapply leaves_mono; [apply (leaves_join_step _ l); [intros; apply leaves_bool_expr|lia]|]. by intros [] l'.
Qed.

Lemma joins_read ws js acc ts :
  forallb (join_ok query_ok) js = true -> (length (concat (map (print_join print_query) js)) <= N)%nat ->
  tail_ok ws ts -> forallb (fun w => bstop 0 [str w] && no_kw ["LEFT"; "RIGHT"; "FULL"; "INNER"; "JOIN"]%string [str w]) (")"%string :: ws) = true ->
  loop (join_step parse_bool_expr) acc (toks (concat (map (print_join print_query) js)) ++ ts) = Got (acc ++ js) ts.
Proof.
  intros H L T F. revert acc H L. induction js as [|j js IH]; intros acc H L; rewrite (loop_eq _ _ _ leaves_join_step_any).
  - cbn [map concat toks app]. unfold join_step at 1. erewrite bind_Got; [|apply no_join].
    + cbn. by rewrite app_nil_r.
    + eapply tail_no_kw; [exact T|]. eapply forallb_impl; [|exact F]. by intros w [_ ?]%andb_true_iff.
  - cbn [forallb] in H. apply andb_true_iff in H as [Hj H]. destruct j as [type table on alias]. cbn [join_ok] in Hj.
    rewrite !andb_true_iff in Hj. destruct Hj as [[Ht Ha] Ho]. destruct on as [on|]; [|done].
    cbn [map concat] in *. rewrite length_app in L. cbn [print_join] in *. rewrite !length_app in L. cbn [length] in L.
    rewrite length_app in L. cbn [length] in L.
    set (next := toks (concat (map (print_join print_query) js)) ++ ts).
    assert (Tn : tail_ok (join_heads ++ ws) next).
    { subst next. destruct js as [|[t' ? ? ?] js]; [by eapply tail_sub, forallb_forall; [exact T|]; intros w I; apply bool_decide_eq_true, elem_of_app; right; apply list_elem_of_In|].
      right. cbn [map concat print_join]. destruct t'; cbn [join_words]; norm; (eexists _, _; split; [|reflexivity]); apply elem_of_app; left; by apply (bool_decide_unpack _). }
    rewrite !toks_app, <- !app_assoc. unfold join_step at 1. erewrite bind_Got by apply join_words_read. cbv beta iota. norm.
    erewrite bind_Got by by apply identifier_name.
    erewrite bind_Got; [|apply (alias_read alias ["ON"%string]); [done|apply tail_word; by left|done]].
    compute_step. fold next. erewrite bind_Got; [|apply bool_read; [done|lia|]].
    + cbn [mret p_ret]. subst next. rewrite IH by (done || lia). by rewrite <- app_assoc.
    + eapply tail_bstop; [exact Tn|]. cbn [forallb] in F |- *. apply andb_true_iff in F as [_ F].
      rewrite forallb_app. apply andb_true_iff. split; [done|]. apply andb_true_iff; split; [done|].
      eapply forallb_impl; [|exact F]. by intros w [? _]%andb_true_iff.
Qed.

(** ** The query *)

Lemma item_start it rest : item_ok it = true -> item_end rest -> no_kw ["DISTINCT"%string] (toks (print_item it) ++ rest) = true.
Proof.
  unfold item_ok, print_item. destruct (is_star it) as [t|].
  - intros [H _]%andb_true_iff _. case_bool_decide; norm; [done|]. by apply name_no_kw.
  - intros [H _]%andb_true_iff [r E]. rewrite toks_app, <- app_assoc. apply value_start; [done|].
    destruct (item_alias it); [done|]. by destruct E as [->| ->].
Qed.
Lemma items_start its r : forallb item_ok its = true -> no_kw ["DISTINCT"%string] (toks (sep (map print_item its)) ++ str "FROM" :: r) = true.
Proof.
  destruct its as [|it its]; [done|]. cbn [forallb]. intros [H _]%andb_true_iff. destruct its as [|it' its]; cbn [map].
  - apply item_start; [done|]. eexists. by right.
  - rewrite toks_sep_cons. apply item_start; [done|]. eexists. by left.
Qed.

(** Printing a clause keeps what may follow. *)
Lemma tail_app ws x ts :
  tail_ok ws ts -> (x = [] \/ exists w r, w ∈ ws /\ x = kw w :: r) -> tail_ok ws (toks x ++ ts).
Proof.
  intros T [->|(w & r & I & ->)]; [done|]. right. exists w, (toks r ++ ts). by split.
Qed.
Lemma tail_clause ws w b ts : tail_ok ws ts -> w ∈ ws -> tail_ok ws (toks (print_clause print_query w b) ++ ts).
Proof. intros T I. apply tail_app; [done|]. destruct b; [right|by left]. eauto. Qed.
Lemma tail_count ws w n ts : tail_ok ws ts -> w ∈ ws -> tail_ok ws (toks (print_count w n) ++ ts).
Proof. intros T I. apply tail_app; [done|]. destruct n; [right|by left]. eauto. Qed.
Lemma tail_by ws w xs ts : tail_ok ws ts -> w ∈ ws -> tail_ok ws (toks (print_by w xs) ++ ts).
Proof. intros T I. apply tail_app; [done|]. destruct xs; [by left|right]. eauto. Qed.

Definition after_where : list string := ["GROUP"; "HAVING"; "ORDER"; "LIMIT"; "OFFSET"; "UNION"]%string.
Definition after_group : list string := ["HAVING"; "ORDER"; "LIMIT"; "OFFSET"; "UNION"]%string.
Definition after_having : list string := ["ORDER"; "LIMIT"; "OFFSET"; "UNION"]%string.
Definition after_order : list string := ["LIMIT"; "OFFSET"; "UNION"]%string.
Definition after_limit : list string := ["OFFSET"; "UNION"]%string.
Definition after_joins : list string := "WHERE"%string :: after_where.

Lemma core_read s rest :
  core_ok query_ok s = true -> (length (print_core print_query s) <= N)%nat -> tail_ok ["UNION"%string] rest ->
  parse_select_core parse_bool_expr (toks (print_core print_query s) ++ rest) = Got s rest.
Proof.
  destruct s as [ps d from al js w ob gb hv lim off]. cbn [core_ok print_core]. rewrite !andb_true_iff.
  intros [[[[[[[[[[Hn Hp] Hf] Ha] Hj] Hw] Hg] Hh] Ho] Hl] Hof] L T.
  cbn [length] in L. rewrite !length_app in L. cbn [length] in L. rewrite !length_app in L.
  rewrite toks_cons, !toks_app, !toks_cons, !toks_app, <- ?app_comm_cons, <- !app_assoc, <- !app_comm_cons, <- !app_assoc.
  set (t5 := toks (print_count "OFFSET" off) ++ rest). set (t4 := toks (print_count "LIMIT" lim) ++ t5).
  set (t3 := toks (print_by "ORDER" _) ++ t4). set (t2 := toks (print_clause print_query "HAVING" hv) ++ t3).
  set (t1 := toks (print_by "GROUP" _) ++ t2). set (t0 := toks (print_clause print_query "WHERE" w) ++ t1).
  assert (T5 : tail_ok after_limit t5) by (apply tail_count; [by eapply tail_sub|by left]).
  assert (T4 : tail_ok after_order t4) by (apply tail_count; [by eapply tail_sub|by left]).
  assert (T3 : tail_ok after_having t3) by (apply tail_by; [by eapply tail_sub|by left]).
  assert (T2 : tail_ok after_group t2) by (apply tail_clause; [by eapply tail_sub|by left]).
  assert (T1 : tail_ok after_where t1) by (apply tail_by; [by eapply tail_sub|by left]).
  assert (T0 : tail_ok after_joins t0) by (apply tail_clause; [by eapply tail_sub|by left]).
  unfold parse_select_core. cbn [text kw]. compute_step.
  set (tf := str "FROM" :: _).
  assert (D : match_keyword "DISTINCT" (toks (if d then [kw "DISTINCT"] else []) ++ toks (sep (map print_item ps)) ++ tf) =
              Got d (toks (sep (map print_item ps)) ++ tf)).
  { destruct d; [reflexivity|]. cbn [toks map app]. eapply match_kw_no; [by apply items_start|by left]. }
  erewrite bind_Got by exact D. erewrite bind_Got by (apply items_read; [done|by intros ->]). unfold tf. compute_step.
  erewrite bind_Got by by apply identifier_name.
  erewrite bind_Got; [|apply (alias_read al (join_heads ++ after_joins)); [done| |done]]; last first.
  { destruct js as [|[t' ? ? ?] js]; [by eapply tail_sub|]. right. cbn [map concat print_join].
    destruct t'; cbn [join_words]; norm; (eexists _, _; split; [|reflexivity]); by apply (bool_decide_unpack _). }
  erewrite bind_Got by (apply (joins_read after_joins); [done|lia|done|done]).
  erewrite bind_Got by (apply clause_read; [done|done|lia|by eapply tail_bstop|by eapply tail_no_kw]).
  erewrite bind_Got; [|apply by_read; [done|by eapply tail_no_kw|]; intros; apply group_read; [done|by eapply tail_no_text|done]].
  erewrite bind_Got by (apply clause_read; [done|done|lia|by eapply tail_bstop|by eapply tail_no_kw]).
  erewrite bind_Got; [|apply by_read; [done|by eapply tail_no_kw|]; intros; apply orders_read; [done|by eapply tail_no_text|done]].
  erewrite bind_Got by (apply count_read; [done|done|by eapply tail_no_kw]).
  by erewrite bind_Got by (apply count_read; [done|done|by eapply tail_no_kw]).
Qed.

Lemma leaves_union_step us l :
  leaves (union_step parse_bool_expr us) l (fun r l' => match r with inl _ => (l' < l)%nat | inr _ => True end).
Proof.
  unfold union_step. leaves_auto.
  all: eapply leaves_mono; [eapply leaves_select_core; [intros; apply leaves_bool_expr|reflexivity]|]; cbv beta; intros; leaves_auto.
Qed.

Lemma core_first s : exists r, toks (print_core print_query s) = str "SELECT" :: r.
Proof. destruct s. cbn [print_core]. norm. eauto. Qed.

Lemma unions_read us acc rest :
  forallb (fun u => match u with (_, s) => core_ok query_ok s end) us = true ->
  (length (concat (map (print_arm print_query) us)) <= N)%nat -> ends rest ->
  loop (union_step parse_bool_expr) acc (toks (concat (map (print_arm print_query) us)) ++ rest) = Got (acc ++ us) rest.
Proof.
  intros H L T. assert (T' : tail_ok [] rest) by by left.
  revert acc H L. induction us as [|[all s] us IH]; intros acc H L; rewrite (loop_eq _ _ _ leaves_union_step).
  - cbn [map concat toks app]. unfold union_step at 1.
    erewrite bind_Got by (eapply match_kw_no; [by eapply (tail_no_kw ["UNION"%string])|by left]). cbn. by rewrite app_nil_r.
  - cbn [forallb] in H. apply andb_true_iff in H as [Hs H]. cbn [map concat] in *. rewrite length_app in L. cbn [print_arm] in *.
    cbn [length] in L. rewrite length_app in L. norm. unfold union_step at 1. compute_step.
    set (next := toks (concat _) ++ rest).
    assert (A : match_keyword "ALL" (toks (if all then [kw "ALL"] else []) ++ toks (print_core print_query s) ++ next) =
                Got all (toks (print_core print_query s) ++ next)).
    { destruct all; [reflexivity|]. destruct (core_first s) as [r ->]. reflexivity. }
    erewrite bind_Got by exact A. erewrite bind_Got; [|apply core_read; [done|lia|]].
    + cbn [mret p_ret]. subst next. rewrite IH by (done || lia). by rewrite <- app_assoc.
    + subst next. destruct us as [|[a' s'] us]; [by eapply tail_sub|]. right. cbn [map concat print_arm]. norm.
      eexists _, _. split; [|reflexivity]. by left.
Qed.

Lemma query_step q rest :
  query_ok q = true -> (length (print_query q) <= N)%nat -> ends rest -> parse_select (toks (print_query q) ++ rest) = Got q rest.
Proof.
  destruct q as [s us]. cbn [query_ok print_query]. rewrite !andb_true_iff. intros [[Hs Hu] Hf] L T. rewrite length_app in L.
  rewrite toks_app, <- app_assoc, parse_select_eq. unfold select_body.
  erewrite bind_Got; [|apply core_read; [done|lia|]].
  - erewrite bind_Got by (apply unions_read; [done|lia|done]). cbn [app]. by rewrite Hf.
  - destruct us as [|[a' s'] us]; [by left|]. right. cbn [map concat print_arm]. norm. eexists _, _. split; [|reflexivity]. by left.
Qed.
End Subqueries.

(** Every query that has a spelling is read back from it. *)
Lemma query_read q rest : query_ok q = true -> ends rest -> parse_select (toks (print_query q) ++ rest) = Got q rest.
Proof.
  intros H E. assert (forall n q rest, query_ok q = true -> (length (print_query q) < n)%nat -> ends rest ->
    parse_select (toks (print_query q) ++ rest) = Got q rest) as G; [|eapply G; eauto].
  clear. induction n as [|n IH]; intros q rest H L E; [lia|]. apply (query_step n); [exact IH|done|lia|done].
Qed.
