(* ===== verification/ParserStatements.v ===== *)
(** Reading back every kind of statement; the round trip from a statement to its
    text and back; and what the grammar does with some texts it accepts or
    refuses. *)
From Stdlib Require Import ZArith Lia Strings.Byte.
From stdpp Require Import base numbers list gmap strings.
From S2P Require Import Prelude Values Doubles Eval Query Logical Folding Rewrites Lexer Parser ParserTotal Printer.
From S2P Require Import ParserRoundtrip ParserQueries.
Local Open Scope Z_scope.

(** * The tokens of a spelling are spelled *)

Lemma lexemes_app xs ys : forallb lexeme_ok xs = true -> forallb lexeme_ok ys = true -> forallb lexeme_ok (xs ++ ys) = true.
Proof. intros. by rewrite forallb_app, andb_true_iff. Qed.
Lemma lexemes_cons x ys : lexeme_ok x = true -> forallb lexeme_ok ys = true -> forallb lexeme_ok (x :: ys) = true.
Proof. intros. cbn [forallb]. by rewrite andb_true_iff. Qed.
Lemma lexemes_paren xs : forallb lexeme_ok xs = true -> forallb lexeme_ok (paren xs) = true.
Proof. intros. apply lexemes_cons; [done|]. by apply lexemes_app. Qed.
Lemma lexemes_sep xs : forallb (forallb lexeme_ok) xs = true -> forallb lexeme_ok (sep xs) = true.
Proof.
  induction xs as [|x [|y xs] IH]; [done| |]; cbn [forallb]; rewrite ?andb_true_iff; [tauto|].
  intros [H1 H2]. cbn [sep]. apply lexemes_app; [done|]. apply lexemes_cons; [done|]. apply IH. cbn [forallb]. by rewrite andb_true_iff.
Qed.
Lemma lexemes_concat xs : forallb (forallb lexeme_ok) xs = true -> forallb lexeme_ok (concat xs) = true.
Proof. induction xs as [|x xs IH]; [done|]. cbn [forallb]. intros [H1 H2]%andb_true_iff. apply lexemes_app; auto. Qed.
Lemma lexemes_map {A} (ok : A -> bool) (pr : A -> list lexeme) xs :
  (forall x, x ∈ xs -> ok x = true -> forallb lexeme_ok (pr x) = true) -> forallb ok xs = true ->
  forallb (forallb lexeme_ok) (map pr xs) = true.
Proof.
  induction xs as [|x xs IH]; intros H F; [done|]. cbn [map forallb] in *. apply andb_true_iff in F as [F1 F2].
  apply andb_true_iff. split; [apply H; [by left|done]|apply IH; [intros; apply H; [by right|done]|done]].
Qed.

Lemma name_lexeme s : name_ok s = true -> lexeme_ok (Word s) = true.
Proof. intros []%name_ok_facts. done. Qed.
Lemma number_lexeme n : 0 <= n -> lexeme_ok (Word (nat_string n)) = true.
Proof.
  intros H. destruct (nat_string_spec n H) as (X & F & _). cbn. unfold word_ok. rewrite bool_decide_eq_false_2 by done. cbn.
  eapply forallb_impl; [|exact F]. intros c D. apply (is_digit_word c D).
Qed.
Lemma literal_lexeme v : literal_ok v = true -> lexeme_ok (print_literal v) = true.
Proof. destruct v; try done. cbn [literal_ok print_literal]. intros [H%Z.leb_le _]%andb_true_iff. by apply number_lexeme. Qed.

Create HintDb lexemes.
#[export] Hint Resolve lexemes_app lexemes_cons lexemes_paren lexemes_sep lexemes_concat name_lexeme number_lexeme
  literal_lexeme eq_refl : lexemes.

Lemma ref_lexemes c : ref_ok c = true -> forallb lexeme_ok (print_ref c) = true.
Proof.
  unfold ref_ok, print_ref. intros [H1 H2]%andb_true_iff. case_bool_decide; [auto with lexemes|].
  cbn [orb] in H1. auto with lexemes.
Qed.
#[export] Hint Resolve ref_lexemes : lexemes.
Lemma agg_lexemes f a : agg_ok a = true -> forallb lexeme_ok (print_agg f a) = true.
Proof. intros H. unfold print_agg. apply lexemes_cons; [by destruct f|]. destruct a; auto with lexemes. Qed.
#[export] Hint Resolve agg_lexemes : lexemes.

Lemma expr_lexemes k e : expr_ok e = true -> forallb lexeme_ok (print_expr k e) = true.
Proof.
  revert k. induction e as [c|v|op l r IHl IHr| |f a|f args IH|] using Expression_all; intros k H; cbn [print_expr expr_ok] in *;
    try done; destruct (_ <? k)%nat; try apply lexemes_paren; auto with lexemes.
  - apply andb_true_iff in H as [H1 H2]. apply lexemes_app; [auto|]. apply lexemes_cons; [by destruct op|auto].
  - apply andb_true_iff in H as [H1 H2]. apply lexemes_app; [auto|]. apply lexemes_cons; [by destruct op|auto].
  - apply andb_true_iff in H as [H1 H2]. apply lexemes_cons; [by destruct f|]. apply lexemes_paren, lexemes_sep.
    eapply lexemes_map; [|exact H2]. intros x I. by apply (proj1 (Forall_forall _ _) IH x I).
  - apply andb_true_iff in H as [H1 H2]. apply lexemes_cons; [by destruct f|]. apply lexemes_paren, lexemes_sep.
    eapply lexemes_map; [|exact H2]. intros x I. by apply (proj1 (Forall_forall _ _) IH x I).
Qed.
#[export] Hint Resolve expr_lexemes : lexemes.

Section QueryLexemes.
Variable N : nat.
Hypothesis IHq : forall q, query_ok q = true -> (length (print_query q) < N)%nat -> forallb lexeme_ok (print_query q) = true.

Lemma not_lexemes neg : forallb lexeme_ok (print_not neg) = true.
Proof. by destruct neg. Qed.
Hint Resolve not_lexemes : lexemes.

Lemma in_lexemes i : in_ok query_ok i = true -> (length (print_in print_query i) <= N)%nat -> forallb lexeme_ok (print_in print_query i) = true.
Proof.
  destruct i as [e vs neg sub ex]. unfold in_ok, print_in. cbn [in_expr in_values in_negated in_subquery in_exists_only].
  intros H L. destruct sub as [q|]; rewrite !andb_true_iff in H.
  - destruct H as [[Hq _] Hx]. assert (Q : forallb lexeme_ok (print_query q) = true).
    { apply IHq; [done|]. destruct ex; rewrite ?length_app in L; unfold paren in L; cbn [length] in L; rewrite ?length_app in L; lia. }
    destruct ex; [auto with lexemes|]. apply andb_true_iff in Hx as [He _]. auto 10 with lexemes.
  - destruct H as [[[[He _] _] _] Hv]. apply lexemes_app; [auto with lexemes|]. apply lexemes_app; [auto with lexemes|].
    apply lexemes_cons; [done|]. apply lexemes_paren, lexemes_sep. eapply lexemes_map; [|exact Hv]. auto with lexemes.
Qed.

Lemma bool_lexemes k b :
  bool_ok query_ok b = true -> (length (print_bool print_query k b) <= N)%nat -> forallb lexeme_ok (print_bool print_query k b) = true.
Proof.
  intros H L. pose proof (print_bool_length k b) as P.
  assert (forallb lexeme_ok (print_bool print_query 0 b) = true) as G.
  2: { rewrite print_bool_level. destruct (_ <? _)%nat; [by apply lexemes_paren|done]. }
  assert (L0 : (length (print_bool print_query 0 b) <= N)%nat) by lia. clear k L P. revert H L0.
  assert (Up : forall k b, forallb lexeme_ok (print_bool print_query 0 b) = true -> forallb lexeme_ok (print_bool print_query k b) = true).
  { intros k x X. rewrite print_bool_level. destruct (_ <? _)%nat; [by apply lexemes_paren|done]. }
  induction b as [c|i|bt|l r Hl Hr|l r Hl Hr|e He] using BoolExpr_parts; cbn [bool_ok]; intros H L.
  - destruct c as [c|]; [|done]. unfold comparison_ok in H. rewrite !andb_true_iff in H. destruct H as [[H _] Hr].
    change (forallb lexeme_ok (print_comparison c) = true). unfold print_comparison. apply lexemes_app; [auto with lexemes|].
    apply lexemes_app; [by destruct (cmp_op c)|]. destruct (nullary _); auto with lexemes.
  - destruct i as [i|]; [|done]. by apply in_lexemes.
  - destruct bt as [b|]; [|done]. unfold between_ok in H. rewrite !andb_true_iff in H. destruct H as [[[H _] Hl] Hh].
    change (forallb lexeme_ok (print_between b) = true). unfold print_between. auto 10 with lexemes.
  - destruct l as [l|], r as [r|]; try done. apply andb_true_iff in H as [H1 H2]. cbn [opt_all] in *.
    cbn [print_bool bool_level Nat.ltb Nat.leb] in *. rewrite length_app in L. cbn [length] in L.
    pose proof (print_bool_length 1 l). pose proof (print_bool_length 2 r).
    apply lexemes_app; [apply Up, Hl; (done || lia)|]. apply lexemes_cons; [done|]. apply Up, Hr; (done || lia).
  - destruct l as [l|], r as [r|]; try done. apply andb_true_iff in H as [H1 H2]. cbn [opt_all] in *.
    cbn [print_bool bool_level Nat.ltb Nat.leb] in *. rewrite length_app in L. cbn [length] in L.
    pose proof (print_bool_length 1 r).
    apply lexemes_app; [apply Up, Hl; (done || lia)|]. apply lexemes_cons; [done|]. apply Up, Hr; (done || lia).
  - destruct e as [e|]; [|done]. cbn [opt_all] in *. cbn [print_bool bool_level Nat.ltb Nat.leb length] in *.
    pose proof (print_bool_length 2 e). apply lexemes_cons; [done|]. apply Up, He; (done || lia).
Qed.

Lemma clause_lexemes w b :
  word_ok (str w) = true -> clause_ok query_ok b = true -> (length (print_clause print_query w b) <= N)%nat ->
  forallb lexeme_ok (print_clause print_query w b) = true.
Proof.
  intros W H L. destruct b as [b|]; [|done]. cbn [print_clause clause_ok length] in *. apply lexemes_cons; [done|].
  apply bool_lexemes; [done|lia].
Qed.

Lemma value_lexemes v : value_ok v = true -> forallb lexeme_ok (print_value v) = true.
Proof. destruct v as [e|a]; cbn [value_ok print_value]; [intros [H _]%andb_true_iff|]; auto with lexemes. Qed.
Hint Resolve value_lexemes : lexemes.
Lemma item_lexemes it : item_ok it = true -> forallb lexeme_ok (print_item it) = true.
Proof.
  unfold item_ok, print_item. destruct (is_star it) as [t|]; intros [H1 H2]%andb_true_iff.
  - clear H2. case_bool_decide; [done|]. cbn [orb] in H1. auto with lexemes.
  - apply lexemes_app; [auto with lexemes|]. destruct (item_alias it); auto with lexemes.
Qed.
Lemma alias_lexemes a : alias_ok a = true -> forallb lexeme_ok (print_alias a) = true.
Proof. destruct a; cbn [alias_ok print_alias]; auto with lexemes. Qed.
Lemma join_lexemes j :
  join_ok query_ok j = true -> (length (print_join print_query j) <= N)%nat -> forallb lexeme_ok (print_join print_query j) = true.
Proof.
  destruct j as [t tb on al]. cbn [join_ok print_join]. rewrite !andb_true_iff, length_app. cbn [length]. rewrite length_app. cbn [length].
  intros [[H1 H2] H3] L. apply lexemes_app; [by destruct t|]. apply lexemes_cons; [auto with lexemes|].
  apply lexemes_app; [by apply alias_lexemes|]. apply lexemes_cons; [done|]. destruct on; [|done]. apply bool_lexemes; [done|lia].
Qed.
Lemma count_lexemes w n : word_ok (str w) = true -> count_ok n = true -> forallb lexeme_ok (print_count w n) = true.
Proof. intros W H. destruct n; [|done]. cbn in H. apply andb_true_iff in H as [H%Z.leb_le _]. cbn [print_count]. auto with lexemes. Qed.
Lemma by_lexemes w xs : word_ok (str w) = true -> forallb (forallb lexeme_ok) xs = true -> forallb lexeme_ok (print_by w xs) = true.
Proof. intros W H. destruct xs; [done|]. apply lexemes_cons; [done|]. apply lexemes_cons; [done|]. by apply lexemes_sep. Qed.

Lemma joins_length j js : j ∈ js -> (length (print_join print_query j) <= length (concat (map (print_join print_query) js)))%nat.
Proof. induction 1 as [|j' k js I IH]; cbn [map concat]; rewrite length_app; lia. Qed.

Lemma core_lexemes s :
  core_ok query_ok s = true -> (length (print_core print_query s) <= N)%nat -> forallb lexeme_ok (print_core print_query s) = true.
Proof.
  destruct s as [ps d from al js w ob gb hv lim off]. cbn [core_ok print_core]. rewrite !andb_true_iff.
  intros [[[[[[[[[[Hn Hp] Hf] Ha] Hj] Hw] Hg] Hh] Ho] Hl] Hof] L.
  cbn [length] in L. rewrite !length_app in L. cbn [length] in L. rewrite !length_app in L.
  apply lexemes_cons; [done|]. apply lexemes_app; [by destruct d|].
  apply lexemes_app; [apply lexemes_sep; eapply lexemes_map; [|exact Hp]; intros; by apply item_lexemes|].
  apply lexemes_cons; [done|]. apply lexemes_cons; [by apply name_lexeme|]. apply lexemes_app; [by apply alias_lexemes|].
  apply lexemes_app; [apply lexemes_concat; eapply lexemes_map; [|exact Hj]; intros j I; intros; pose proof (joins_length j js I); apply join_lexemes; [done|lia]|].
  apply lexemes_app; [apply clause_lexemes; (done || lia)|].
  apply lexemes_app; [apply by_lexemes; [done|]; eapply lexemes_map; [|exact Hg]; auto with lexemes|].
  apply lexemes_app; [apply clause_lexemes; (done || lia)|].
  apply lexemes_app; [|apply lexemes_app; by apply count_lexemes].
  apply by_lexemes; [done|]. eapply lexemes_map; [|exact Ho]. intros o _ Hv. apply lexemes_app; [by apply value_lexemes|]. by destruct (ord_asc o).
Qed.

Lemma arms_length u us : u ∈ us -> (length (print_arm print_query u) <= length (concat (map (print_arm print_query) us)))%nat.
Proof. induction 1 as [|j' k js I IH]; cbn [map concat]; rewrite length_app; lia. Qed.

Lemma query_lexemes_step q : query_ok q = true -> (length (print_query q) <= N)%nat -> forallb lexeme_ok (print_query q) = true.
Proof.
  destruct q as [s us]. cbn [query_ok print_query]. rewrite !andb_true_iff, length_app. intros [[Hs Hu] _] L.
  apply lexemes_app; [apply core_lexemes; (done || lia)|]. apply lexemes_concat. eapply lexemes_map; [|exact Hu].
  intros [all t] I Ht. pose proof (arms_length _ _ I) as A. cbn [print_arm length] in *. rewrite length_app in A.
  apply lexemes_cons; [done|]. apply lexemes_app; [by destruct all|]. apply core_lexemes; [done|lia].
Qed.
End QueryLexemes.

Lemma query_lexemes q : query_ok q = true -> forallb lexeme_ok (print_query q) = true.
Proof.
  intros H. assert (forall n q, query_ok q = true -> (length (print_query q) < n)%nat -> forallb lexeme_ok (print_query q) = true) as G; [|eapply G; eauto].
  clear. induction n as [|n IH]; intros q H L; [lia|]. apply (query_lexemes_step n); [exact IH|done|lia].
Qed.
Lemma where_lexemes b : where_ok b = true -> forallb lexeme_ok (print_where b) = true.
Proof. intros H. eapply clause_lexemes; [intros q Hq _; exact (query_lexemes q Hq)|done|done|reflexivity]. Qed.

(** * Statements *)

Lemma list_read {A} (ok : A -> bool) (p : P A) (pr : A -> list lexeme) xs ts :
  (forall l, leaves p l (fun _ l' => (l' < l)%nat)) ->
  (forall x rest, ok x = true -> p (toks (pr x) ++ rest) = Got x rest) ->
  forallb ok xs = true -> is_nil xs = false -> no_text [","%string] ts = true ->
  sep_list p (toks (sep (map pr xs)) ++ ts) = Got xs ts.
Proof.
  intros L R H X S. apply (sep_list_read _ _ (fun _ => True)); try done; [|by intros ->].
  intros x r I _. apply R. eapply forallb_forall; [exact H|by apply list_elem_of_In].
Qed.

Lemma names_read ns ts :
  forallb name_ok ns = true -> is_nil ns = false -> no_text [","%string] ts = true ->
  sep_list consume_identifier (toks (sep (map (fun n => [Word n]) ns)) ++ ts) = Got ns ts.
Proof. apply list_read; [apply leaves_identifier|]. intros. by apply identifier_name. Qed.

Definition row_literal (e : Expression) : bool := match e with ELiteral v => literal_ok v | _ => false end.

Lemma row_read row ts : row_ok row = true -> parse_row (toks (print_row row) ++ ts) = Got row ts.
Proof.
  unfold row_ok, print_row, parse_row. intros [X%negb_true_iff H]%andb_true_iff. norm. compute_step.
  erewrite bind_Got; [|apply (list_read row_literal); try done; [apply leaves_literal_expression|]].
  - compute_step. done.
  - intros [|v| | | | |] r O; try done. norm. unfold parse_literal_expression. apply fmap_Got. by apply literal_read.
Qed.

Lemma where_read b : where_ok b = true -> clause "WHERE" parse_bool_expr (toks (print_where b) ++ []) = Got b [].
Proof. intros H. eapply clause_read; [intros q r Hq _ E; by apply query_read|done|done|reflexivity|done|done]. Qed.

(** An optional list in parentheses. *)
Lemma opt_list_read {A B} (p : P (list A)) (pr : A -> list lexeme) xs (k : list A -> P B) ts :
  (is_nil xs = false -> p (toks (sep (map pr xs)) ++ str ")" :: ts) = Got xs (str ")" :: ts)) -> no_text ["("%string] ts = true ->
  (b ← match_text "("; ys ← (if (b : bool) then ys ← p; _ ← expect_text ")"; mret ys else mret []); k ys)
    (toks (print_list_opt (map pr xs)) ++ ts) = k xs ts.
Proof.
  intros R S. destruct xs as [|x xs].
  - cbn [map print_list_opt toks app]. by erewrite bind_Got by (eapply match_text_no; [exact S|by left]).
  - change (print_list_opt (map pr (x :: xs))) with (paren (sep (map pr (x :: xs)))). norm. compute_step.
    erewrite bind_Got; [|erewrite bind_Got by (by apply R); compute_step; reflexivity]. done.
Qed.

Lemma insert_read table columns rows :
  query_stmt_ok (Insert table columns rows) = true ->
  parse_insert (toks (print_stmt (Insert table columns rows))) = Got (Insert table columns rows) [].
Proof.
  cbn [query_stmt_ok print_stmt]. rewrite !andb_true_iff, negb_true_iff. intros [[[Ht Hc] Hn] Hr]. norm. rewrite <- (app_nil_r (toks (sep _))).
  unfold parse_insert. compute_step. compute_step. erewrite bind_Got by by apply identifier_name.
  rewrite opt_list_read; [|intros X; by apply names_read|done]. compute_step.
  erewrite bind_Got; [|apply (list_read row_ok); try done; [apply leaves_row|intros; by apply row_read]]. done.
Qed.

Definition assign_ok (a : bytes * Expression) : bool := name_ok a.1 && expr_ok a.2.

Lemma assigns_read assigns ts :
  forallb assign_ok assigns = true -> is_nil assigns = false -> stop 0 ts = true -> no_text [","%string] ts = true ->
  sep_list parse_assignment (toks (sep (map (fun a => Word a.1 :: mk "=" :: print_expr 0 a.2) assigns)) ++ ts) = Got assigns ts.
Proof.
  intros H X S N. apply (sep_list_read _ _ (fun r => stop 0 r = true)); try done; [apply leaves_assignment| |by intros ->].
  intros [c e] r I St. eapply forallb_forall in H; [|by apply list_elem_of_In]. apply andb_true_iff in H as [H1 H2].
  cbn [fst snd] in *. norm. unfold parse_assignment. erewrite bind_Got by by apply identifier_name. compute_step.
  by erewrite bind_Got by by apply expression_read.
Qed.

Lemma update_read table assigns w :
  query_stmt_ok (Update table assigns w) = true ->
  parse_update (toks (print_stmt (Update table assigns w))) = Got (Update table assigns w) [].
Proof.
  cbn [query_stmt_ok print_stmt]. rewrite !andb_true_iff, negb_true_iff. intros [[[Ht Hn] Ha] Hw]. norm. rewrite <- (app_nil_r (toks (print_where _))).
  unfold parse_update. compute_step. erewrite bind_Got by by apply identifier_name. compute_step.
  erewrite bind_Got by (apply assigns_read; [done|done|by destruct w..]). by erewrite bind_Got by by apply where_read.
Qed.

Lemma delete_read table w :
  query_stmt_ok (Delete table w) = true -> parse_delete (toks (print_stmt (Delete table w))) = Got (Delete table w) [].
Proof.
  cbn [query_stmt_ok print_stmt]. rewrite !andb_true_iff. intros [Ht Hw]. norm. rewrite <- (app_nil_r (toks (print_where _))).
  unfold parse_delete. compute_step. compute_step. erewrite bind_Got by by apply identifier_name.
  by erewrite bind_Got by by apply where_read.
Qed.

Lemma select_read q : query_ok q = true -> (SelectQ <$> parse_select) (toks (print_query q)) = Got (SelectQ q) [].
Proof. intros H. rewrite <- (app_nil_r (toks _)). apply fmap_Got, query_read; [done|by left]. Qed.

(** ** Column definitions *)

Lemma leaves_constraint_step d l :
  leaves (constraint_step d) l (fun r l' => match r with inl _ => (l' < l)%nat | inr _ => True end).
Proof. unfold constraint_step. leaves_auto. Qed.

Lemma constraints_end d ts : no_kw ["PRIMARY"; "NOT"; "DEFAULT"]%string ts = true -> loop constraint_step d ts = Got d ts.
Proof.
  intros H. rewrite (loop_eq _ _ _ leaves_constraint_step). unfold constraint_step at 1. erewrite bind_Got by reflexivity.
  destruct ts as [|t ts]; [done|]. unfold no_kw, starts in H. apply negb_true_iff in H.
  rewrite !bool_decide_eq_false_2; [done|..]; (eapply kw_in_elem; [exact H|by apply (bool_decide_unpack _)]).
Qed.

Lemma constraint_default d ts :
  constraint_step d (str "DEFAULT" :: ts) =
  (v ← parse_literal; mret (inl (mkDef (cd_name d) (cd_type d) (cd_primary_key d) (cd_not_null d) (Some (ELiteral v))))) ts.
Proof. reflexivity. Qed.
Lemma constraint_key d ts :
  constraint_step d (str "PRIMARY" :: str "KEY" :: ts) = Got (inl (mkDef (cd_name d) (cd_type d) true true (cd_default d))) ts.
Proof. reflexivity. Qed.
Lemma constraint_not_null d ts :
  constraint_step d (str "NOT" :: str "NULL" :: ts) = Got (inl (mkDef (cd_name d) (cd_type d) (cd_primary_key d) true (cd_default d))) ts.
Proof. reflexivity. Qed.

Lemma column_def_read d ts :
  column_def_ok d = true -> no_kw ["PRIMARY"; "NOT"; "DEFAULT"]%string ts = true -> parse_column_def (toks (print_column_def d) ++ ts) = Got d ts.
Proof.
  destruct d as [name type pk nn dv]. cbn [column_def_ok print_column_def]. rewrite !andb_true_iff, bool_decide_eq_true.
  intros [[[Hn Ht] Hp] Hd] S. unfold parse_column_def. norm. erewrite bind_Got by by apply identifier_name.
  erewrite bind_Got by (by apply identifier_ident; destruct type).
  assert (type_of_name (upper (str (default ""%string (type_word type)))) = Some type) as -> by by destruct type.
  cbv beta iota.
  assert (D : forall d0, cd_default d0 = None -> loop constraint_step d0 (toks (match dv with Some (ELiteral v) => [kw "DEFAULT"; print_literal v] | _ => [] end) ++ ts) =
    Got (mkDef (cd_name d0) (cd_type d0) (cd_primary_key d0) (cd_not_null d0) dv) ts).
  { intros [n0 t0 p0 n1 d0] E. cbn in E. subst d0. destruct dv as [[|v| | | | |]|]; try done; [|by apply constraints_end].
    norm. rewrite (loop_eq _ _ _ leaves_constraint_step), constraint_default.
    erewrite bind_Got by by apply literal_read. cbn [mret p_ret]. by apply constraints_end. }
  destruct pk; [destruct nn; [|done]|destruct nn]; norm; [| |by rewrite D].
  all: rewrite (loop_eq _ _ _ leaves_constraint_step), ?constraint_key, ?constraint_not_null; by rewrite D.
Qed.

Lemma create_read table columns :
  stmt_ok (Create table columns) = true -> parse_create (toks (print_stmt (Create table columns))) = Got (Create table columns) [].
Proof.
  cbn [stmt_ok print_stmt]. rewrite andb_true_iff. intros [Ht Hc]. norm. rewrite <- (app_nil_r (toks (paren _))), toks_paren.
  unfold parse_create. compute_step. change (parse_create_table (str "TABLE" :: table :: str "(" :: toks (sep (map print_column_def columns)) ++ [str ")"]) = Got (Create table columns) []).
  unfold parse_create_table. compute_step.
  erewrite bind_Got by by apply identifier_name. compute_step. destruct columns as [|c cs].
  - reflexivity.
  - assert (N : no_text [")"%string] (toks (sep (map print_column_def (c :: cs))) ++ str ")" :: []) = true).
    { cbn [forallb] in Hc. apply andb_true_iff in Hc as [Hc _]. destruct c as [n ? ? ? ?]. cbn [column_def_ok] in Hc.
      rewrite !andb_true_iff in Hc. destruct Hc as [[[Hc _] _] _].
      destruct cs; cbn [map]; rewrite ?toks_sep_cons; cbn [sep print_column_def]; rewrite toks_cons; by apply name_no_text. }
    erewrite bind_Got by (eapply match_text_no; [exact N|by left]). cbv beta iota.
    assert (R : sep_list parse_column_def (toks (sep (map print_column_def (c :: cs))) ++ [str ")"]) = Got (c :: cs) [str ")"]).
    { apply (sep_list_read _ _ (fun r => no_kw ["PRIMARY"; "NOT"; "DEFAULT"]%string r = true)); try done; [apply leaves_column_def|].
      intros x r I. apply column_def_read. eapply forallb_forall; [exact Hc|by apply list_elem_of_In]. }
    erewrite bind_Got; [|erewrite bind_Got by exact R; compute_step; reflexivity]. done.
Qed.

Lemma create_index_read index table columns :
  stmt_ok (CreateIndex index table columns) = true ->
  parse_create (toks (print_stmt (CreateIndex index table columns))) = Got (CreateIndex index table columns) [].
Proof.
  cbn [stmt_ok print_stmt]. rewrite !andb_true_iff, negb_true_iff. intros [[[Hi Ht] Hn] Hc]. unfold print_names.
  rewrite !toks_cons, <- (app_nil_r (toks (paren _))), toks_paren. unfold parse_create. cbn [text kw]. compute_step.
  erewrite bind_Got by reflexivity. rewrite (bool_decide_eq_false_2 (_ = str "TABLE")) by done.
  rewrite (bool_decide_eq_true_2 (_ = str "INDEX")) by done. unfold parse_create_index. compute_step.
  erewrite bind_Got by by apply identifier_name. compute_step. erewrite bind_Got by by apply identifier_name. compute_step.
  erewrite bind_Got by by apply names_read. compute_step. done.
Qed.

Lemma quoted_read w s ts : parse_quoted w (quoted s :: ts) = Got s ts.
Proof. unfold parse_quoted. erewrite bind_Got by reflexivity. destruct (quoted_literal s) as [-> ->]. done. Qed.

Lemma query_stmt_read s : query_stmt_ok s = true -> parse_statement (toks (print_stmt s)) = Got s [].
Proof.
  destruct s; try done; intros H.
  - cbn [print_stmt]. pose proof (select_read q H) as R. destruct (query_first q) as [r E]. rewrite E in *. exact R.
  - exact (insert_read _ _ _ H).
  - exact (update_read _ _ _ H).
  - exact (delete_read _ _ H).
Qed.

(** Reads a statement that starts with known words and has names in known
    places. *)
Ltac read_words :=
  repeat (first [ erewrite bind_Got by reflexivity | erewrite bind_Got by (by apply identifier_name)
                | erewrite bind_Got by apply quoted_read ]; cbv beta iota).

Lemma if_exists_read ie n ts :
  name_ok n = true -> parse_if_exists (toks (print_if_exists ie) ++ n :: ts) = Got ie (n :: ts).
Proof.
  intros H. unfold parse_if_exists. destruct ie; [reflexivity|]. cbn [print_if_exists toks map app].
  by erewrite bind_Got by (eapply match_kw_no; [by apply (name_no_kw ["IF"%string])|by left]).
Qed.

Lemma drop_table_read t ie : name_ok t = true -> parse_drop (toks (print_stmt (DropTable t ie))) = Got (DropTable t ie) [].
Proof.
  intros H. cbn [print_stmt]. norm. unfold parse_drop. compute_step. erewrite bind_Got by reflexivity.
  rewrite (bool_decide_eq_true_2 (_ = str "TABLE")) by done. compute_step.
  erewrite bind_Got by by apply if_exists_read. by erewrite bind_Got by by apply identifier_name.
Qed.

Lemma drop_index_read i t ie :
  name_ok i = true -> opt_name_ok t = true -> parse_drop (toks (print_stmt (DropIndex i t ie))) = Got (DropIndex i t ie) [].
Proof.
  intros Hi Ht. cbn [print_stmt]. norm. unfold parse_drop. compute_step. erewrite bind_Got by reflexivity.
  rewrite (bool_decide_eq_false_2 (_ = str "TABLE")) by done. rewrite (bool_decide_eq_true_2 (_ = str "INDEX")) by done. compute_step.
  erewrite bind_Got by by apply if_exists_read. erewrite bind_Got by by apply identifier_name.
  unfold opt_name_ok in Ht. case_bool_decide as E; norm; [by subst t|]. compute_step.
  by erewrite bind_Got by by apply identifier_name.
Qed.

Lemma rollback_read o : stmt_ok (Rollback o) = true -> parse_rollback (toks (print_stmt (Rollback o))) = Got (Rollback o) [].
Proof.
  destruct o as [n|]; [|done]. cbn [stmt_ok print_stmt]. intros H. norm. unfold parse_rollback. do 3 compute_step.
  by erewrite bind_Got by by apply identifier_name.
Qed.

Lemma execute_read n params :
  name_ok n = true -> forallb literal_ok params = true ->
  parse_execute (toks (print_stmt (Execute n params))) = Got (Execute n params) [].
Proof.
  intros Hn Hp. cbn [print_stmt]. norm. rewrite <- (app_nil_r (toks (print_list_opt _))). unfold parse_execute. compute_step.
  erewrite bind_Got by by apply identifier_name. rewrite opt_list_read; [done| |done].
  intros X. apply (list_read literal_ok); try done; [apply leaves_literal|]. intros. by apply literal_read.
Qed.

Lemma session_read s :
  match s with
  | SavepointStmt _ | ReleaseSavepoint _ | Prepare _ _ | Auth _ _ | CreateUser _ _ _ | Deallocate _ | Analyze _ | Backup _ | SetTransaction _ => True
  | _ => False
  end -> stmt_ok s = true -> parse_statement (toks (print_stmt s)) = Got s [].
Proof.
  destruct s; try done; intros _ H; cbn [stmt_ok print_stmt] in *; norm.
  - change (parse_savepoint (str "SAVEPOINT" :: name :: []) = Got (SavepointStmt name) []). unfold parse_savepoint. by read_words.
  - change (parse_release (str "RELEASE" :: str "SAVEPOINT" :: name :: []) = Got (ReleaseSavepoint name) []). unfold parse_release. by read_words.
  - change (parse_prepare (str "PREPARE" :: name :: str "FROM" :: quoted sql :: []) = Got (Prepare name sql) []). unfold parse_prepare. by read_words.
  - unfold opt_name_ok in H. case_bool_decide as E; norm; [by subst name|].
    change (parse_deallocate (str "DEALLOCATE" :: str "PREPARE" :: name :: []) = Got (Deallocate name) []). unfold parse_deallocate.
    compute_step. erewrite bind_Got by reflexivity. rewrite (bool_decide_eq_true_2 (_ = str "PREPARE")) by done. cbn [orb]. by read_words.
  - change (parse_auth (str "AUTH" :: username :: quoted password :: []) = Got (Auth username password) []). unfold parse_auth. by read_words.
  - change (parse_create_user (str "USER" :: username :: quoted password :: str "ROLE" :: str (role_word role) :: []) = Got (CreateUser username password role) []).
    unfold parse_create_user. compute_step. erewrite bind_Got by by apply identifier_name. erewrite bind_Got by apply quoted_read.
    by destruct role.
  - assert (isolation_level = 0 \/ isolation_level = 1 \/ isolation_level = 2 \/ isolation_level = 3) as [->|[->|[->| ->]]] by lia; reflexivity.
  - unfold opt_name_ok in H. case_bool_decide as E; norm; [by subst table_name|]. pose proof (name_ok_facts _ H) as [_ I _].
    change (parse_analyze (str "ANALYZE" :: str "TABLE" :: table_name :: []) = Got (Analyze table_name) []). unfold parse_analyze.
    compute_step. compute_step. erewrite bind_Got by reflexivity. rewrite I. by read_words.
  - change (parse_backup (str "BACKUP" :: str "TO" :: quoted target_dir :: []) = Got (Backup target_dir) []). unfold parse_backup. do 3 compute_step.
    destruct (quoted_literal target_dir) as [-> ->]. apply negb_true_iff in H. by rewrite H.
Qed.

Lemma explain_read inner a : query_stmt_ok inner = true -> parse_explain (toks (print_stmt (Explain inner a))) = Got (Explain inner a) [].
Proof.
  intros H. cbn [print_stmt]. norm. unfold parse_explain. compute_step.
  assert (A : match_keyword "ANALYZE" (toks (if a then [kw "ANALYZE"] else []) ++ toks (print_stmt inner)) = Got a (toks (print_stmt inner))).
  { destruct a; [reflexivity|]. destruct inner; try done. cbn [print_stmt]. destruct (query_first q) as [r ->]. reflexivity. }
  erewrite bind_Got by exact A. destruct inner; try done.
  - cbn [print_stmt]. pose proof (select_read q H) as R. destruct (query_first q) as [r E]. rewrite E in *.
    erewrite bind_Got by reflexivity. rewrite (bool_decide_eq_true_2 (_ = str "SELECT")) by done. by erewrite bind_Got by exact R.
  - erewrite bind_Got by reflexivity. rewrite (bool_decide_eq_false_2 (_ = str "SELECT")) by done.
    rewrite (bool_decide_eq_true_2 (_ = str "INSERT")) by done. by erewrite bind_Got by exact (insert_read _ _ _ H).
  - erewrite bind_Got by reflexivity. rewrite (bool_decide_eq_false_2 (_ = str "SELECT")), (bool_decide_eq_false_2 (_ = str "INSERT")) by done.
    rewrite (bool_decide_eq_true_2 (_ = str "UPDATE")) by done. by erewrite bind_Got by exact (update_read _ _ _ H).
  - erewrite bind_Got by reflexivity. rewrite (bool_decide_eq_false_2 (_ = str "SELECT")), (bool_decide_eq_false_2 (_ = str "INSERT")),
      (bool_decide_eq_false_2 (_ = str "UPDATE")) by done.
    rewrite (bool_decide_eq_true_2 (_ = str "DELETE")) by done. by erewrite bind_Got by exact (delete_read _ _ H).
Qed.

Lemma statement_read s : stmt_ok s = true -> parse_statement (toks (print_stmt s)) = Got s [].
Proof.
  destruct s; intros H; try (by apply query_stmt_read); try (by apply session_read); try reflexivity.
  - exact (create_read _ _ H).
  - exact (create_index_read _ _ _ H).
  - exact (drop_table_read _ _ H).
  - cbn [stmt_ok] in H. apply andb_true_iff in H as [H1 H2]. exact (drop_index_read _ _ _ H1 H2).
  - destruct savepoint; exact (rollback_read _ H).
  - cbn [stmt_ok] in H. apply andb_true_iff in H as [H1 H2]. exact (execute_read _ _ H1 H2).
  - exact (explain_read _ _ H).
Qed.

(** * The round trip *)

Lemma list_lexemes {A} (ok : A -> bool) (pr : A -> list lexeme) xs :
  (forall x, ok x = true -> forallb lexeme_ok (pr x) = true) -> forallb ok xs = true -> forallb lexeme_ok (sep (map pr xs)) = true.
Proof. intros H F. apply lexemes_sep. eapply lexemes_map; [|exact F]. auto. Qed.

Lemma opt_list_lexemes {A} (ok : A -> bool) (pr : A -> list lexeme) xs :
  (forall x, ok x = true -> forallb lexeme_ok (pr x) = true) -> forallb ok xs = true -> forallb lexeme_ok (print_list_opt (map pr xs)) = true.
Proof.
  intros H F. destruct xs as [|x xs]; [done|]. apply (lexemes_paren (sep (map pr (x :: xs)))). by eapply list_lexemes.
Qed.

Lemma row_lexemes row : row_ok row = true -> forallb lexeme_ok (print_row row) = true.
Proof.
  intros [_ H]%andb_true_iff. apply lexemes_paren. apply (list_lexemes row_literal); [|done].
  intros [|v| | | | |] O; try done. auto with lexemes.
Qed.
Lemma column_def_lexemes d : column_def_ok d = true -> forallb lexeme_ok (print_column_def d) = true.
Proof.
  destruct d as [n t pk nn dv]. cbn [column_def_ok print_column_def]. rewrite !andb_true_iff, bool_decide_eq_true.
  intros [[[Hn Ht] _] Hd]. apply lexemes_cons; [by apply name_lexeme|]. apply lexemes_cons; [by destruct t|].
  apply lexemes_app; [by destruct pk, nn|]. destruct dv as [[|v| | | | |]|]; auto with lexemes.
Qed.

Lemma name_list_lexemes ns : forallb name_ok ns = true -> forallb lexeme_ok (sep (map (fun n => [Word n]) ns)) = true.
Proof. apply list_lexemes. auto with lexemes. Qed.

Lemma query_stmt_lexemes s : query_stmt_ok s = true -> forallb lexeme_ok (print_stmt s) = true.
Proof.
  destruct s; try done; cbn [query_stmt_ok print_stmt]; rewrite ?andb_true_iff.
  - apply query_lexemes.
  - intros [[[Ht Hc] _] Hr]. do 2 (apply lexemes_cons; [done|]). apply lexemes_cons; [by apply name_lexeme|].
    apply lexemes_app; [apply (opt_list_lexemes name_ok); [|done]; auto with lexemes|]. apply lexemes_cons; [done|].
    apply (list_lexemes row_ok); [apply row_lexemes|done].
  - intros [[[Ht _] Ha] Hw]. apply lexemes_cons; [done|]. apply lexemes_cons; [by apply name_lexeme|]. apply lexemes_cons; [done|].
    apply lexemes_app; [|by apply where_lexemes]. apply (list_lexemes assign_ok); [|done].
    intros [c e] [H1 H2]%andb_true_iff. auto with lexemes.
  - intros [Ht Hw]. do 2 (apply lexemes_cons; [done|]). apply lexemes_cons; [by apply name_lexeme|]. by apply where_lexemes.
Qed.

Lemma stmt_lexemes s : stmt_ok s = true -> forallb lexeme_ok (print_stmt s) = true.
Proof.
  destruct s; intros H; try (by apply query_stmt_lexemes); cbn [stmt_ok print_stmt] in *; rewrite ?andb_true_iff in H; try done.
  - destruct H as [Ht Hc]. do 2 (apply lexemes_cons; [done|]). apply lexemes_cons; [by apply name_lexeme|]. apply lexemes_paren.
    apply (list_lexemes column_def_ok); [apply column_def_lexemes|done].
  - destruct H as [[[Hi Ht] _] Hc]. unfold print_names. pose proof (name_list_lexemes _ Hc). auto 10 with lexemes.
  - destruct if_exists; cbn [print_if_exists app]; auto 10 with lexemes.
  - destruct H as [Hi Ht]. unfold opt_name_ok in Ht. destruct if_exists; cbn [print_if_exists app];
      (case_bool_decide; cbn [orb] in Ht; auto 10 with lexemes).
  - destruct savepoint; cbn [stmt_ok] in *; auto 10 with lexemes.
  - auto 10 with lexemes.
  - auto 10 with lexemes.
  - auto 10 with lexemes.
  - destruct H as [Hn Hp]. do 1 (apply lexemes_cons; [done|]). apply lexemes_cons; [by apply name_lexeme|].
    apply (opt_list_lexemes literal_ok); [|done]. auto with lexemes.
  - unfold opt_name_ok in H. case_bool_decide; cbn [orb] in H; auto 10 with lexemes.
  - auto 10 with lexemes.
  - destruct role; auto 10 with lexemes.
  - unfold level_words. repeat case_match; done.
  - unfold opt_name_ok in H. case_bool_decide; cbn [orb] in H; auto 10 with lexemes.
  - apply lexemes_cons; [done|]. apply lexemes_app; [by destruct analyze|]. by apply query_stmt_lexemes.
Qed.

(** C5: the parser reads back every statement from its printed text, and reads the
    whole text: expressions and predicates with no more parentheses than the
    grammar needs, joins, grouping, ordering, limits, UNION and nested
    subqueries, INSERT, UPDATE, DELETE, the schema statements and the
    transaction, session and utility statements, strings with quotes in them
    included.  The statement is one the grammar can spell and has no literal of
    type DOUBLE ([stmt_ok]). *)
Theorem print_parse s : stmt_ok s = true -> parse (print s) = Got s [].
Proof.
  intros H. unfold parse, print. rewrite tokenize_spell_all by by apply stmt_lexemes. exact (statement_read s H).
Qed.

(** A query with a join, a nested subquery, precedences and a quoted string. *)
Definition ex_query : Query :=
  let col t n := EColumn (mkRef (str t) (str n)) in
  let int n := ELiteral (VInt n) in
  mkQuery
    (mkSelect [mkItem (SelExpr (EBinary Mul (EBinary Add (col "" "a") (int 1)) (int 2))) (Some (str "x"));
               mkItem (SelAgg (mkAgg Count None)) None]
       true (str "t") (Some (str "u"))
       [mkJoin Left (str "v") (Some (comparison_node (col "u" "k") Eq (col "v" "k"))) None]
       (Some (and_node (or_node (comparison_node (col "" "a") Lt (int 5)) (comparison_node (col "" "b") Eq (ELiteral (VText (str "it's")))))
                       (BNot (Some (BIn (Some (mkIn (col "" "c") [] false
                          (Some (mkQuery (mkSelect [mkItem (SelExpr (col "" "d")) None] false (str "w") None [] None [] [] None None None) []))
                          false)))))))
       [mkOrder (SelExpr (col "" "a")) false] [mkRef (str "u") (str "a")] None (Some 10) None)
    [(true, mkSelect [mkItem (SelExpr (col "" "*")) None] false (str "z") None [] None [] [] None None None)].

Lemma print_parse_witness : stmt_ok (SelectQ ex_query) = true /\ parse (print (SelectQ ex_query)) = Got (SelectQ ex_query) [].
Proof. split; [reflexivity|]. apply (print_parse (SelectQ ex_query)). reflexivity. Defined.

(** C40: any text gets an answer: the parser ends with a statement, having read at
    least one token and none that is not there, or with an error; the fuel of its
    loops and of its recursion never runs out. *)
Theorem parse_answers sql :
  match tokenize sql with
  | Ok tokens => match parse sql with Got _ rest => (length rest < length tokens)%nat | Failed _ => True | Out => False end
  | _ => exists w, parse sql = Failed w
  end.
Proof.
  unfold parse. destruct (tokenize sql) as [tokens|w|w]; [|by exists w..].
  exact (leaves_statement (length tokens) tokens eq_refl).
Qed.

(** * WITH *)

(** A common table expression is read as its base table under the name it was
    given, with its condition joined to the condition of the query. *)
Lemma with_read name base w q rest :
  name_ok name = true -> name_ok base = true -> where_ok w = true -> query_ok q = true -> ends rest ->
  parse_with_select (toks (kw "WITH" :: Word name :: kw "AS" :: paren (kw "SELECT" :: mk "*" :: kw "FROM" :: Word base :: print_where w) ++ print_query q) ++ rest) =
  lift (inline_query {[ name := mkCte base w ]} q) rest.
Proof.
  intros Hn Hb Hw Hq E. unfold parse_with_select.
  set (body := mkQuery (mkSelect [mkItem (SelExpr (EColumn (mkRef [] (str "*")))) None] false base None [] w [] [] None None None) []).
  assert (B : kw "SELECT" :: mk "*" :: kw "FROM" :: Word base :: print_where w = print_query body).
  { cbn. unfold print_where. by rewrite !app_nil_r. }
  rewrite B, !toks_cons, toks_app, <- !app_comm_cons, <- app_assoc, toks_paren. cbn [text kw]. compute_step.
  assert (Hbody : query_ok body = true).
  { unfold where_ok in Hw. cbn [query_ok core_ok body is_nil negb forallb]. rewrite Hb, Hw. reflexivity. }
  assert (S : cte_step ∅ (name :: str "AS" :: str "(" :: toks (print_query body) ++ str ")" :: toks (print_query q) ++ rest) =
              Got (inr {[ name := mkCte base w ]}) (toks (print_query q) ++ rest)).
  { unfold cte_step. erewrite bind_Got by by apply identifier_name. do 2 compute_step.
    erewrite bind_Got by (apply query_read; [done|right; eauto]). compute_step.
    change (cte_body_ok body) with true. cbv beta iota. cbn [body sel_from sel_where]. rewrite lookup_empty. cbv beta iota.
    destruct (query_first q) as [r ->]. reflexivity. }
  erewrite bind_Got; [|rewrite loop_eq; [by rewrite S|]].
  - by erewrite bind_Got by by apply query_read.
  - intros a l. eapply leaves_mono; [apply leaves_cte_step|]. by intros [] l'.
Qed.

(** * Texts the grammar does not read as they are meant *)

Definition fails (o : outcome Stmt) : bool := match o with Failed _ => true | _ => false end.

(** [<] and [>] need spaces around them ([a<5] is one token, [a<=5] three); a
    comparison may not start with a parenthesis; a number has no sign, so that no
    negative number can be inserted; a number is read up to its first letter; what
    follows a statement is dropped, so that a misspelt WHERE deletes every row. *)
Lemma parser_anomalies :
  fails (parse (str "SELECT * FROM t WHERE a<5")) = true /\
  fails (parse (str "SELECT * FROM t WHERE a<=5")) = false /\
  fails (parse (str "SELECT * FROM t WHERE (a + 1) * 2 > 5")) = true /\
  fails (parse (str "SELECT * FROM t WHERE 2 * (a + 1) > 5")) = false /\
  fails (parse (str "INSERT INTO t VALUES (-1)")) = true /\
  parse (str "INSERT INTO t VALUES (12abc)") = Got (Insert (str "t") [] [[ELiteral (VInt 12)]]) [] /\
  parse (str "DELETE FROM t WERE a = 1") = Got (Delete (str "t") None) [str "WERE"; str "a"; str "="; str "1"].
Proof. split_and!; vm_compute; reflexivity. Qed.

(** The condition of a common table expression in FROM goes to WHERE also when the
    query is a RIGHT or FULL join, where it removes the rows of the other side
    that have no match. *)
Lemma with_right_join_anomaly :
  parse (str "WITH c AS (SELECT * FROM t WHERE a > 1) SELECT * FROM c RIGHT JOIN u ON c.k = u.k") =
  parse (str "SELECT * FROM t c RIGHT JOIN u ON c.k = u.k WHERE a > 1") /\
  fails (parse (str "WITH c AS (SELECT * FROM t WHERE a > 1) SELECT * FROM u RIGHT JOIN c ON c.k = u.k")) = true.
Proof. split; vm_compute; reflexivity. Qed.
