(* ===== verification/Crypto.v ===== *)
(** The cryptographic routines of [src/common/crypto.cpp]: SHA-256 as a stream
    with a block buffer, HMAC, PBKDF2, hexadecimal text and the comparison in
    constant time.  The streaming digest is shown equal to the definition by
    padding and blocks. *)
From Stdlib Require Import ZArith Lia Strings.Byte.
From stdpp Require Import base numbers list strings.
From S2P Require Import Prelude.
Local Open Scope Z_scope.

(** * The compression function *)

(** The constants of the rounds, row by row of the table in the source. *)
Definition kK : list Z := concat
  [[0x428a2f98; 0x71374491; 0xb5c0fbcf; 0xe9b5dba5; 0x3956c25b; 0x59f111f1; 0x923f82a4; 0xab1c5ed5];
   [0xd807aa98; 0x12835b01; 0x243185be; 0x550c7dc3; 0x72be5d74; 0x80deb1fe; 0x9bdc06a7; 0xc19bf174];
   [0xe49b69c1; 0xefbe4786; 0x0fc19dc6; 0x240ca1cc; 0x2de92c6f; 0x4a7484aa; 0x5cb0a9dc; 0x76f988da];
   [0x983e5152; 0xa831c66d; 0xb00327c8; 0xbf597fc7; 0xc6e00bf3; 0xd5a79147; 0x06ca6351; 0x14292967];
   [0x27b70a85; 0x2e1b2138; 0x4d2c6dfc; 0x53380d13; 0x650a7354; 0x766a0abb; 0x81c2c92e; 0x92722c85];
   [0xa2bfe8a1; 0xa81a664b; 0xc24b8b70; 0xc76c51a3; 0xd192e819; 0xd6990624; 0xf40e3585; 0x106aa070];
   [0x19a4c116; 0x1e376c08; 0x2748774c; 0x34b0bcb5; 0x391c0cb3; 0x4ed8aa4a; 0x5b9cca4f; 0x682e6ff3];
   [0x748f82ee; 0x78a5636f; 0x84c87814; 0x8cc70208; 0x90befffa; 0xa4506ceb; 0xbef9a3f7; 0xc67178f2]].

(** [uint32_t] arithmetic. *)
Definition rotr (x n : Z) : Z := Z.lor (Z.shiftr x n) (u32 (Z.shiftl x (32 - n))).
Definition not32 (x : Z) : Z := Z.lxor x 0xFFFFFFFF.

(** The eight words of the chaining value. *)
Record sha_words := mkWords { wa : Z; wb : Z; wc : Z; wd : Z; we : Z; wf : Z; wg : Z; wh : Z }.

Definition be_word (b0 b1 b2 b3 : byte) : Z :=
  Z.lor (Z.lor (Z.shiftl (b2z b0) 24) (Z.shiftl (b2z b1) 16)) (Z.lor (Z.shiftl (b2z b2) 8) (b2z b3)).

Fixpoint block_words (block : bytes) : list Z :=
  match block with
  | b0 :: b1 :: b2 :: b3 :: rest => be_word b0 b1 b2 b3 :: block_words rest
  | _ => []
  end.

(** [w[16..63]]. *)
Fixpoint schedule (n : nat) (w : list Z) : list Z :=
  match n with
  | O => w
  | S n =>
      let i := length w in
      let at_ k := nth (i - k) w 0 in
      let s0 := Z.lxor (Z.lxor (rotr (at_ 15%nat) 7) (rotr (at_ 15%nat) 18)) (Z.shiftr (at_ 15%nat) 3) in
      let s1 := Z.lxor (Z.lxor (rotr (at_ 2%nat) 17) (rotr (at_ 2%nat) 19)) (Z.shiftr (at_ 2%nat) 10) in
      schedule n (w ++ [u32 (at_ 16%nat + s0 + at_ 7%nat + s1)])
  end.

Definition round (v : sha_words) (kw : Z * Z) : sha_words :=
  let '(mkWords a b c d e f g h) := v in
  let s1 := Z.lxor (Z.lxor (rotr e 6) (rotr e 11)) (rotr e 25) in
  let ch := Z.lxor (Z.land e f) (Z.land (not32 e) g) in
  let t1 := u32 (h + s1 + ch + kw.1 + kw.2) in
  let s0 := Z.lxor (Z.lxor (rotr a 2) (rotr a 13)) (rotr a 22) in
  let maj := Z.lxor (Z.lxor (Z.land a b) (Z.land a c)) (Z.land b c) in
  let t2 := u32 (s0 + maj) in
  mkWords (u32 (t1 + t2)) a b c (u32 (d + t1)) e f g.

Definition transform (s : sha_words) (block : bytes) : sha_words :=
  let w := schedule 48 (block_words block) in
  let v := fold_left round (combine kK w) s in
  mkWords (u32 (wa s + wa v)) (u32 (wb s + wb v)) (u32 (wc s + wc v)) (u32 (wd s + wd v))
          (u32 (we s + we v)) (u32 (wf s + wf v)) (u32 (wg s + wg v)) (u32 (wh s + wh v)).

(** * The stream *)

(** [buf] holds the first [buflen_] bytes of [buf_]; the others are never read. *)
Record Sha256 := mkSha { state : sha_words; buf : bytes; total : Z }.

Definition sha_init : Sha256 :=
  mkSha (mkWords 0x6a09e667 0xbb67ae85 0x3c6ef372 0xa54ff53a 0x510e527f 0x9b05688c 0x1f83d9ab 0x5be0cd19) [] 0.

Fixpoint update_loop (n : nat) (h : Sha256) (data : bytes) : Sha256 :=
  match n, data with
  | S n, _ :: _ =>
      let take_ := Nat.min (length data) (64 - length (buf h)) in
      let b := buf h ++ take take_ data in
      let rest := drop take_ data in
      if (length b =? 64)%nat then update_loop n (mkSha (transform (state h) b) [] (total h)) rest
      else update_loop n (mkSha (state h) b (total h)) rest
  | _, _ => h
  end.
Definition update (h : Sha256) (data : bytes) : Sha256 :=
  update_loop (S (length data)) (mkSha (state h) (buf h) (u64 (total h + blen data))) data.

(** [while (buflen_ != 56) update(&zero, 1)]. *)
Fixpoint pad_loop (n : nat) (h : Sha256) : Sha256 :=
  match n with
  | O => h
  | S n => if (length (buf h) =? 56)%nat then h else pad_loop n (update h [Byte.x00])
  end.

Definition be_bytes (n : nat) (z : Z) : bytes := rev (le_enc n z).

Definition output (s : sha_words) : bytes :=
  concat (map (be_bytes 4) [wa s; wb s; wc s; wd s; we s; wf s; wg s; wh s]).

Definition final (h : Sha256) : bytes :=
  let bits := u64 (total h * 8) in
  let h := update h [Byte.x80] in
  let h := pad_loop 64 h in
  output (state (update h (be_bytes 8 bits))).

Definition sha256 (data : bytes) : bytes := final (update sha_init data).

(** * HMAC and PBKDF2 *)

Definition xor_byte (a b : byte) : byte := z2b (Z.lxor (b2z a) (b2z b)).
Definition xor_bytes (a b : bytes) : bytes := zip_with xor_byte a b.

(** [resize(n, '\0')]. *)
Definition resize0 (n : nat) (b : bytes) : bytes := take n (b ++ replicate (n - length b) Byte.x00).

Definition hmac_sha256 (key data : bytes) : bytes :=
  let k := if (64 <? length key)%nat then sha256 key else key in
  let k := resize0 64 k in
  let ipad := xor_bytes (replicate 64 Byte.x36) k in
  let opad := xor_bytes (replicate 64 Byte.x5c) k in
  sha256 (opad ++ sha256 (ipad ++ data)).

Fixpoint pbkdf2_rounds (n : nat) (p u t : bytes) : bytes :=
  match n with
  | O => t
  | S n => let u := hmac_sha256 p u in pbkdf2_rounds n p u (xor_bytes t u)
  end.

(** The blocks [block], [block + 1], ...; [n] is enough when it is at least the
    number of blocks that are missing. *)
Fixpoint pbkdf2_blocks (n : nat) (block : Z) (p salt : bytes) (iterations : nat) (dk_len : nat) (out : bytes) : bytes :=
  match n with
  | O => out
  | S n =>
      if (length out <? dk_len)%nat then
        let u := hmac_sha256 p (salt ++ be_bytes 4 block) in
        pbkdf2_blocks n (u32 (block + 1)) p salt iterations dk_len (out ++ pbkdf2_rounds (iterations - 1) p u u)
      else out
  end.

Definition pbkdf2_hmac_sha256 (password salt : bytes) (iterations : Z) (dk_len : nat) : res bytes :=
  if iterations =? 0 then Throw "PBKDF2 iterations must be >= 1"
  else Ok (take dk_len (pbkdf2_blocks (S dk_len) 1 password salt (Z.to_nat iterations) dk_len [])).

(** * Text and comparison *)

Definition hex_digit (n : Z) : byte := nth (Z.to_nat n) (str "0123456789abcdef") "0"%byte.
Definition to_hex (raw : bytes) : bytes := raw ≫= fun c => [hex_digit (Z.shiftr (b2z c) 4); hex_digit (Z.land (b2z c) 15)].

Definition constant_time_equal (a b : bytes) : bool :=
  if (length a =? length b)%nat then
    fold_left (fun diff xy => Z.lor diff (Z.lxor (b2z xy.1) (b2z xy.2))) (combine a b) 0 =? 0
  else false.

(** * SHA-256 by its definition *)

(** The message, a one bit, zeros up to eight bytes before a block's end, and the
    length in bits. *)
Definition sha_pad (data : bytes) : bytes :=
  data ++ Byte.x80 :: replicate (Z.to_nat ((55 - blen data) mod 64)) Byte.x00 ++ be_bytes 8 (8 * blen data).

(** Blocks of 64 bytes. *)
Fixpoint blocks (n : nat) (b : bytes) : list bytes :=
  match n with O => [] | S n => take 64 b :: blocks n (drop 64 b) end.

Definition sha256_spec (data : bytes) : bytes :=
  output (fold_left transform (blocks (length (sha_pad data) / 64) (sha_pad data)) (state sha_init)).

(** * The stream computes the digest *)

(** Whole blocks go into the chaining value, the rest is kept. *)
Fixpoint absorb (n : nat) (s : sha_words) (b : bytes) : sha_words * bytes :=
  match n with
  | O => (s, b)
  | S n => if (64 <=? length b)%nat then absorb n (transform s (take 64 b)) (drop 64 b) else (s, b)
  end.

Lemma absorb_fuel n m s b : (length b < n)%nat -> (length b < m)%nat -> absorb n s b = absorb m s b.
Proof.
  revert m s b. induction n as [|n IH]; intros [|m] s b Hn Hm; try lia. cbn [absorb].
  destruct (Nat.leb_spec 64 (length b)); [|done]. apply IH; rewrite length_drop; lia.
Qed.

Definition absorbed (s : sha_words) (b : bytes) : sha_words * bytes := absorb (S (length b)) s b.

Lemma absorbed_small s b : (length b < 64)%nat -> absorbed s b = (s, b).
Proof. intros H. unfold absorbed. cbn [absorb]. destruct (Nat.leb_spec 64 (length b)); [lia|done]. Qed.

Lemma absorbed_block s b c : length b = 64%nat -> absorbed s (b ++ c) = absorbed (transform s b) c.
Proof.
  intros H. unfold absorbed at 1. cbn [absorb]. rewrite length_app, H. destruct (Nat.leb_spec 64 (64 + length c)); [|lia].
  replace (take 64 (b ++ c)) with b by (by rewrite <- H, take_app_length).
  replace (drop 64 (b ++ c)) with c by (by rewrite <- H, drop_app_length). apply absorb_fuel; lia.
Qed.

Lemma absorbed_long s b : (64 <= length b)%nat -> absorbed s b = absorbed (transform s (take 64 b)) (drop 64 b).
Proof. intros H. rewrite <- absorbed_block by (rewrite length_take; lia). by rewrite take_drop. Qed.

Lemma absorbed_app s a b : absorbed s (a ++ b) = let '(s', r) := absorbed s a in absorbed s' (r ++ b).
Proof.
  remember (length a) as l eqn:E. revert a s E. induction l as [l IH] using lt_wf_ind. intros a s ->.
  destruct (Nat.lt_ge_cases (length a) 64) as [L|L]; [by rewrite (absorbed_small s a) by done|].
  rewrite (absorbed_long s a), absorbed_long, take_app_le, drop_app_le by (rewrite ?length_app; lia).
  eapply IH; [|reflexivity]. rewrite length_drop. lia.
Qed.

Lemma absorbed_rest s b : (length (absorbed s b).2 < 64)%nat.
Proof.
  remember (length b) as l eqn:E. revert b s E. induction l as [l IH] using lt_wf_ind. intros b s ->.
  destruct (Nat.lt_ge_cases (length b) 64) as [L|L]; [by rewrite absorbed_small by done|].
  rewrite absorbed_long by done. eapply IH; [|reflexivity]. rewrite length_drop. lia.
Qed.

Lemma update_loop_spec n h data :
  (length data < n)%nat -> (length (buf h) < 64)%nat ->
  update_loop n h data = let '(s, r) := absorbed (state h) (buf h ++ data) in mkSha s r (total h).
Proof.
  revert h data. induction n as [|n IH]; intros h data Hn Hb; [lia|]. destruct data as [|c data].
  { rewrite app_nil_r, absorbed_small by done. by destruct h. }
  cbn [update_loop]. set (d := c :: data) in *. set (k := Nat.min (length d) (64 - length (buf h))).
  assert (Hd : length d = S (length data)) by reflexivity.
  assert (Lb : length (buf h ++ take k d) = (length (buf h) + k)%nat) by (rewrite length_app, length_take; lia).
  assert (Ld : (length (drop k d) < n)%nat) by (rewrite length_drop; lia).
  assert (E : buf h ++ d = (buf h ++ take k d) ++ drop k d) by (rewrite <- app_assoc, take_drop; done).
  rewrite E. destruct (Nat.eqb_spec (length (buf h ++ take k d)) 64) as [B|B].
  - rewrite IH by (done || cbn; lia). cbn [state buf total app]. by rewrite absorbed_block.
  - rewrite IH by (done || cbn [buf]; lia). done.
Qed.

Lemma update_spec h data :
  (length (buf h) < 64)%nat ->
  update h data = let '(s, r) := absorbed (state h) (buf h ++ data) in mkSha s r (u64 (total h + blen data)).
Proof. intros H. unfold update. rewrite update_loop_spec by (done || lia). done. Qed.

(** Feeding data in parts is feeding it at once. *)
Lemma update_app h a b :
  (length (buf h) < 64)%nat -> 0 <= total h -> total h + blen a + blen b < 2 ^ 64 -> update (update h a) b = update h (a ++ b).
Proof.
  intros H T L. pose proof (blen_nonneg a). pose proof (blen_nonneg b). rewrite (update_spec h a), (update_spec h (a ++ b)) by done.
  rewrite app_assoc, (absorbed_app (state h) (buf h ++ a) b). pose proof (absorbed_rest (state h) (buf h ++ a)) as R.
  destruct (absorbed (state h) (buf h ++ a)) as [s r]. cbn [snd] in R. rewrite update_spec by exact R. cbn [state buf total].
  destruct (absorbed s (r ++ b)) as [s' r']. f_equal. rewrite blen_app, !wrap_small; rewrite ?wrap_small; lia.
Qed.

Lemma pad_loop_spec k h :
  (length (buf h) + k = 56)%nat \/ (56 < length (buf h) < 64 /\ length (buf h) + k = 120)%nat -> (k < 64)%nat ->
  exists t, pad_loop 64 h = let '(s, r) := absorbed (state h) (buf h ++ replicate k Byte.x00) in mkSha s r t.
Proof.
  assert (G : forall n k h, (k < n)%nat -> (length (buf h) + k = 56)%nat \/ (56 < length (buf h) < 64 /\ length (buf h) + k = 120)%nat ->
    exists t, pad_loop n h = let '(s, r) := absorbed (state h) (buf h ++ replicate k Byte.x00) in mkSha s r t); [|intros; by apply G].
  clear. induction n as [|n IH]; intros k h Hn Hk; [lia|]. cbn [pad_loop].
  destruct (Nat.eqb_spec (length (buf h)) 56) as [E|E].
  - assert (k = 0)%nat as -> by lia. exists (total h). cbn [replicate]. rewrite app_nil_r, absorbed_small by lia. by destruct h.
  - destruct k as [|k]; [lia|]. cbn [replicate]. rewrite update_spec by lia.
    replace (buf h ++ Byte.x00 :: replicate k Byte.x00) with ((buf h ++ [Byte.x00]) ++ replicate k Byte.x00) by by rewrite <- app_assoc.
    rewrite (absorbed_app (state h) (buf h ++ [Byte.x00])). destruct (Nat.eq_dec (length (buf h)) 63%nat) as [F|F].
    + rewrite <- (app_nil_r (buf h ++ [Byte.x00])), absorbed_block by (rewrite length_app; cbn; lia).
      rewrite (absorbed_small _ []) by (cbn; lia).
      destruct (IH k (mkSha (transform (state h) (buf h ++ [Byte.x00])) [] (u64 (total h + blen [Byte.x00])))) as [t Ht]; [lia|cbn [buf length]; lia|].
      exists t. exact Ht.
    + rewrite absorbed_small by (rewrite length_app; cbn; lia).
      destruct (IH k (mkSha (state h) (buf h ++ [Byte.x00]) (u64 (total h + blen [Byte.x00])))) as [t Ht]; [lia|cbn [buf]; rewrite length_app; cbn; lia|].
      exists t. exact Ht.
Qed.

Lemma length_be_bytes n z : length (be_bytes n z) = n.
Proof. unfold be_bytes. by rewrite length_rev, length_le_enc. Qed.

(** The length of the padded message is a number of blocks. *)
Lemma pad_length l : 0 <= l -> (l + 1 + (55 - l) mod 64 + 8) mod 64 = 0.
Proof.
  intros H. pose proof (Z_div_mod_eq_full (55 - l) 64) as E.
  replace (l + 1 + (55 - l) mod 64 + 8) with ((1 - (55 - l) / 64) * 64) by lia. by apply Z.mod_mul.
Qed.

Lemma absorbed_rest_length s b : length (absorbed s b).2 = (length b mod 64)%nat.
Proof.
  remember (length b) as l eqn:E. revert b s E. induction l as [l IH] using lt_wf_ind. intros b s ->.
  destruct (Nat.lt_ge_cases (length b) 64) as [L|L]; [by rewrite absorbed_small, Nat.mod_small|].
  rewrite absorbed_long by done. rewrite (IH (length (drop 64 b))) by (done || rewrite length_drop; lia). rewrite length_drop.
  replace (length b) with (length b - 64 + 1 * 64)%nat at 2 by lia. by rewrite Nat.Div0.mod_add.
Qed.

Lemma absorbed_blocks n s b : length b = (64 * n)%nat -> absorbed s b = (fold_left transform (blocks n b) s, []).
Proof.
  revert s b. induction n as [|n IH]; intros s b H.
  - destruct b; [|cbn in H; lia]. by rewrite absorbed_small by (cbn; lia).
  - rewrite absorbed_long by lia. cbn [blocks fold_left]. apply IH. rewrite length_drop. lia.
Qed.

(** The zeros that [final] adds bring the buffer to 56 bytes. *)
Lemma pad_zeros l r k :
  0 <= l -> k = Z.to_nat ((55 - l) mod 64) -> r = (Z.to_nat (l + 1) mod 64)%nat ->
  ((r + k = 56)%nat \/ (56 < r < 64 /\ r + k = 120)%nat) /\ (k < 64)%nat.
Proof.
  intros H -> ->. pose proof (Z.mod_pos_bound (55 - l) 64 ltac:(lia)).
  assert (E : Z.of_nat (Z.to_nat (l + 1) mod 64)%nat = (l + 1) mod 64) by (rewrite Nat2Z.inj_mod, Z2Nat.id by lia; done).
  pose proof (Z.mod_pos_bound (l + 1) 64 ltac:(lia)). pose proof (Z_div_mod_eq_full (l + 1) 64). pose proof (Z_div_mod_eq_full (55 - l) 64).
  set (q1 := (l + 1) / 64) in *. set (q2 := (55 - l) / 64) in *. lia.
Qed.

Lemma sha256_absorbed data : blen data < 2 ^ 61 -> sha256 data = output (absorbed (state sha_init) (sha_pad data)).1.
Proof.
  intros L. pose proof (blen_nonneg data) as L0. unfold sha256, final. rewrite (update_spec sha_init) by (cbn; lia).
  change (buf sha_init ++ data) with data. change (total sha_init + blen data) with (blen data).
  set (k := Z.to_nat ((55 - blen data) mod 64)).
  change (sha_pad data) with (data ++ [Byte.x80] ++ replicate k Byte.x00 ++ be_bytes 8 (8 * blen data)).
  rewrite (app_assoc data). pose proof (absorbed_rest_length (state sha_init) (data ++ [Byte.x80])) as R1.
  rewrite (absorbed_app _ (data ++ [Byte.x80])). rewrite (absorbed_app _ data [Byte.x80]) in R1 |- *.
  pose proof (absorbed_rest (state sha_init) data) as R. destruct (absorbed (state sha_init) data) as [s r]. cbn [snd total] in R |- *.
  rewrite (wrap_small 64 (blen data)) by lia. rewrite (wrap_small 64 (blen data * 8)) by lia.
  rewrite (update_spec (mkSha s r (blen data))) by exact R. cbn [state buf total]. destruct (absorbed s (r ++ [Byte.x80])) as [s1 r1]. cbn [snd] in R1.
  rewrite length_app in R1. replace (length data + length [Byte.x80])%nat with (Z.to_nat (blen data + 1)) in R1 by (unfold blen; cbn; lia).
  destruct (pad_zeros (blen data) (length r1) k L0 eq_refl R1) as [P K].
  destruct (pad_loop_spec k (mkSha s1 r1 (u64 (blen data + blen [Byte.x80]))) P K) as [t ->]. cbn [state buf].
  rewrite (app_assoc r1), (absorbed_app s1 (r1 ++ replicate k Byte.x00)).
  pose proof (absorbed_rest s1 (r1 ++ replicate k Byte.x00)) as R2. destruct (absorbed s1 (r1 ++ replicate k Byte.x00)) as [s2 r2].
  cbn [snd] in R2. rewrite update_spec by exact R2. cbn [state buf]. rewrite (Z.mul_comm 8). by destruct (absorbed s2 _).
Qed.

(** C31: the streaming digest, with its block buffer, its byte count and the
    padding it adds when it ends, is SHA-256 of the message: the padded message is
    a whole number of blocks and the digest is the fold of the compression
    function over them. *)
Theorem sha256_is_spec data :
  blen data < 2 ^ 61 -> sha256 data = sha256_spec data /\ blen (sha_pad data) mod 64 = 0.
Proof.
  intros L. pose proof (blen_nonneg data) as L0.
  assert (B : blen (sha_pad data) mod 64 = 0).
  { rewrite <- (pad_length (blen data)) by done. f_equal. unfold sha_pad, blen. rewrite length_app. cbn [length].
    rewrite length_app, length_replicate, length_be_bytes. pose proof (Z.mod_pos_bound (55 - Z.of_nat (length data)) 64). lia. }
  split; [|done]. rewrite sha256_absorbed by done. unfold sha256_spec. f_equal.
  rewrite (absorbed_blocks (length (sha_pad data) / 64)); [done|].
  assert (M : (length (sha_pad data) mod 64 = 0)%nat).
  { apply Nat2Z.inj. rewrite Nat2Z.inj_mod. exact B. }
  pose proof (Nat.div_mod_eq (length (sha_pad data)) 64). lia.
Qed.

Lemma sha256_is_spec_witness :
  blen (str "abc") < 2 ^ 61 /\ sha256 (str "abc") = sha256_spec (str "abc").
Proof. split; [done|]. apply (sha256_is_spec (str "abc")). done. Defined.

(** The published digests of the empty message, of "abc" and of the two-block
    message of FIPS 180-4. *)
Lemma sha256_vectors :
  to_hex (sha256 []) = str "e3b0c44298fc1c149afbf4c8996fb92427ae41e4649b934ca495991b7852b855" /\
  to_hex (sha256 (str "abc")) = str "ba7816bf8f01cfea414140de5dae2223b00361a396177a9cb410ff61f20015ad" /\
  to_hex (sha256 (str "abcdbcdecdefdefgefghfghighijhijkijkljklmklmnlmnomnopnopq")) =
    str "248d6a61d20638b8e5c026930c3e6039a33ce45964ff2167f6ecedd419db06c1" /\
  to_hex (hmac_sha256 (str "Jefe") (str "what do ya want for nothing?")) =
    str "5bdcc146bf60754e6a042426089575c75a003f089d2739839dec58b964ec3843".
Proof. split_and!; vm_compute; reflexivity. Qed.

(** * Lengths, text and comparison *)

Lemma length_output s : length (output s) = 32%nat.
Proof. unfold output. cbn [map concat]. rewrite !length_app, !length_be_bytes. reflexivity. Qed.
Lemma length_sha256 b : length (sha256 b) = 32%nat.
Proof. apply length_output. Qed.
Lemma length_hmac k d : length (hmac_sha256 k d) = 32%nat.
Proof. apply length_sha256. Qed.

Lemma length_pbkdf2_rounds n p u t : length t = 32%nat -> length (pbkdf2_rounds n p u t) = 32%nat.
Proof.
  revert u t. induction n as [|n IH]; intros u t H; [done|]. cbn [pbkdf2_rounds]. apply IH. unfold xor_bytes.
  rewrite length_zip_with, H, length_hmac. reflexivity.
Qed.

Lemma length_pbkdf2_blocks n block p salt it dk out :
  (dk <= length out + 32 * n)%nat -> (dk <= length (pbkdf2_blocks n block p salt it dk out))%nat.
Proof.
  revert block out. induction n as [|n IH]; intros block out H; cbn [pbkdf2_blocks]; [lia|].
  destruct (Nat.ltb_spec (length out) dk); [|lia]. apply IH. rewrite length_app, length_pbkdf2_rounds by apply length_hmac. lia.
Qed.

Lemma Ok_inj {A} (a b : A) : Ok a = Ok b -> a = b.
Proof. by intros [=]. Qed.

(** A derived key has the length that is asked for. *)
Lemma length_pbkdf2 password salt iterations dk_len k :
  pbkdf2_hmac_sha256 password salt iterations dk_len = Ok k -> length k = dk_len.
Proof.
  unfold pbkdf2_hmac_sha256. destruct (iterations =? 0); [done|]. intros H. apply Ok_inj in H as <-. rewrite length_take.
  apply Nat.min_l, length_pbkdf2_blocks. cbn [length]. lia.
Qed.

Lemma constant_time_equal_spec a b : constant_time_equal a b = bool_decide (a = b).
Proof.
  unfold constant_time_equal. destruct (Nat.eqb_spec (length a) (length b)) as [L|L].
  2: { symmetry. apply bool_decide_eq_false. by intros ->. }
  assert (G : forall l d, 0 <= d -> let r := fold_left (fun diff xy => Z.lor diff (Z.lxor (b2z xy.1) (b2z xy.2))) l d in
    0 <= r /\ (r = 0 <-> d = 0 /\ Forall (fun xy => xy.1 = xy.2) l)).
  { induction l as [|[x y] l IH]; intros d Hd; cbn [fold_left]; [by split; [|split; [intros ->|intros [? _]]]|].
    pose proof (b2z_range x). pose proof (b2z_range y). assert (X : 0 <= Z.lxor (b2z x) (b2z y)) by (apply Z.lxor_nonneg; tauto).
    assert (D : 0 <= Z.lor d (Z.lxor (b2z x) (b2z y))) by (by apply Z.lor_nonneg).
    destruct (IH _ D) as [R1 R2]. split; [exact R1|]. rewrite R2, Z.lor_eq_0_iff, Z.lxor_eq_0_iff, Forall_cons. cbn [fst snd].
    split; [intros [[-> E] F]; apply b2z_inj in E; auto|intros (-> & -> & F); auto]. }
  destruct (G (combine a b) 0 ltac:(lia)) as [_ G']. clear G.
  assert (E : Forall (fun xy => xy.1 = xy.2) (combine a b) <-> a = b).
  { clear G'. revert b L. induction a as [|x a IH]; intros [|y b] L; try done. cbn [combine]. rewrite Forall_cons, IH by (cbn in L; lia).
    cbn [fst snd]. split; [intros [-> ->]|intros [= -> ->]]; auto. }
  rewrite E in G'. destruct (Z.eqb_spec (fold_left (fun diff xy => Z.lor diff (Z.lxor (b2z xy.1) (b2z xy.2))) (combine a b) 0) 0) as [Q|Q].
  - symmetry. apply bool_decide_eq_true. by apply G' in Q as [_ Q].
  - symmetry. apply bool_decide_eq_false. intros ->. apply Q. by apply G'.
Qed.

(** The value of a hexadecimal digit. *)
Definition nibble (c : byte) : option Z :=
  let z := b2z c in
  if (48 <=? z) && (z <=? 57) then Some (z - 48)
  else if (97 <=? z) && (z <=? 102) then Some (z - 87)
  else if (65 <=? z) && (z <=? 70) then Some (z - 55)
  else None.

(** Pairs of digits; a character that is none gives the empty string, an odd last
    character is ignored. *)
Fixpoint hex_pairs (hex : bytes) : option bytes :=
  match hex with
  | a :: b :: rest =>
      match nibble a, nibble b with
      | Some hi, Some lo => cons (z2b (Z.lor (Z.shiftl hi 4) lo)) <$> hex_pairs rest
      | _, _ => None
      end
  | _ => Some []
  end.
Definition hex_decode (hex : bytes) : bytes := default [] (hex_pairs hex).

Lemma hex_byte c :
  match nibble (hex_digit (Z.shiftr (b2z c) 4)), nibble (hex_digit (Z.land (b2z c) 15)) with
  | Some hi, Some lo => z2b (Z.lor (Z.shiftl hi 4) lo) = c
  | _, _ => False
  end.
Proof. destruct c; reflexivity. Qed.

Lemma to_hex_cons c raw : to_hex (c :: raw) = hex_digit (Z.shiftr (b2z c) 4) :: hex_digit (Z.land (b2z c) 15) :: to_hex raw.
Proof. reflexivity. Qed.

Lemma hex_decode_to_hex raw : hex_decode (to_hex raw) = raw.
Proof.
  unfold hex_decode. assert (hex_pairs (to_hex raw) = Some raw) as ->; [|done].
  induction raw as [|c raw IH]; [done|]. rewrite to_hex_cons. cbn [hex_pairs]. pose proof (hex_byte c) as H.
  destruct (nibble (hex_digit (Z.shiftr (b2z c) 4))), (nibble (hex_digit (Z.land (b2z c) 15))); try done. by rewrite IH, H.
Qed.
Lemma length_to_hex raw : length (to_hex raw) = (2 * length raw)%nat.
Proof. induction raw as [|c raw IH]; [done|]. rewrite to_hex_cons. cbn [length]. lia. Qed.
Lemma to_hex_inj a b : to_hex a = to_hex b -> a = b.
Proof. intros H. by rewrite <- (hex_decode_to_hex a), H, hex_decode_to_hex. Qed.
