(* ===== verification/Users.v ===== *)
(** The users of [src/db/database.cpp] (class [UserManager]): stored passwords,
    their verification, roles. *)
From Stdlib Require Import ZArith Lia Strings.Byte.
From stdpp Require Import base numbers list gmap strings.
From S2P Require Import Prelude Doubles Lexer Parser ParserTotal Printer ParserRoundtrip Crypto.
Local Open Scope Z_scope.

(** * Stored passwords *)

Definition prefix_text : bytes := str "pbkdf2-sha256$".
Definition dollar : byte := "$"%byte.

(** [hash_password], with the salt it has drawn and the configured number of
    iterations. *)
Definition hash_password (salt : bytes) (iterations : Z) (password : bytes) : res bytes :=
  dk ← pbkdf2_hmac_sha256 password salt iterations 32;
  Ok (prefix_text ++ nat_string iterations ++ [dollar] ++ to_hex salt ++ [dollar] ++ to_hex dk).

(** [legacy_hash_password]: FNV-1a of the configured salt and the password, in
    sixteen hexadecimal digits. *)
Definition fnv64 (input : bytes) : Z :=
  fold_left (fun h c => u64 (Z.lxor h (b2z c) * 1099511628211)) input 14695981039346656037.
Definition legacy_hash_password (auth_salt password : bytes) : bytes := to_hex (be_bytes 8 (fnv64 (auth_salt ++ password))).

(** [std::stoull]: blanks, a sign, digits; a minus sign negates modulo 2^64. *)
Definition stoull (s : bytes) : res Z :=
  let s := (span is_space s).2 in
  let '(neg, s) := split_sign s in
  let ds := (span is_digit s).1 in
  let n := number_of 10 digit_value ds in
  if bool_decide (ds = []) then Throw "stoull"
  else if n <? 2 ^ 64 then Ok (if (neg : bool) then u64 (- n) else n) else Throw "stoull".

(** What is before and after the first [$]. *)
Definition split_dollar (s : bytes) : option (bytes * bytes) :=
  match span (fun c => negb (bool_decide (c = dollar))) s with
  | (a, _ :: b) => Some (a, b)
  | _ => None
  end.

Definition verify_password (auth_salt stored password : bytes) : bool :=
  if bool_decide (take (length prefix_text) stored = prefix_text) then
    let body := drop (length prefix_text) stored in
    match split_dollar body with
    | None => false
    | Some (it, rest) =>
        match split_dollar rest with
        | None => false
        | Some (salt_hex, dk_hex) =>
            match stoull it with
            | Ok parsed =>
                if (parsed =? 0) || (10000000 <? parsed) then false
                else if negb ((length salt_hex =? 32)%nat && (length dk_hex =? 64)%nat) then false
                else
                  let salt := hex_decode salt_hex in
                  if bool_decide (salt = []) then false
                  else match pbkdf2_hmac_sha256 password salt parsed 32 with
                       | Ok dk => constant_time_equal (to_hex dk) dk_hex
                       | _ => false
                       end
            | _ => false
            end
        end
    end
  else constant_time_equal stored (legacy_hash_password auth_salt password).

(** * The user table *)

Record UserEntry := mkUser { user_hash : bytes; user_role : UserRole }.
Notation Users := (gmap bytes UserEntry).

Definition add_user (salt : bytes) (iterations : Z) (username password : bytes) (role : UserRole) (us : Users) : res Users :=
  h ← hash_password salt iterations password; Ok (<[username := mkUser h role]> us).

Definition role_of (us : Users) (username : bytes) : UserRole :=
  match us !! username with Some e => user_role e | None => ReadWrite end.

Definition authenticate (auth_salt : bytes) (us : Users) (username password : bytes) : bool :=
  match us !! username with Some e => verify_password auth_salt (user_hash e) password | None => false end.

Definition has_users (us : Users) : bool := negb (bool_decide (us = ∅)).

(** * Verification *)

Lemma split_dollar_app a b :
  forallb (fun c => negb (bool_decide (c = dollar))) a = true -> split_dollar (a ++ [dollar] ++ b) = Some (a, b).
Proof. intros H. unfold split_dollar. rewrite span_all; [done|done|]. cbn. reflexivity. Qed.

Lemma digits_no_dollar ds : forallb is_digit ds = true -> forallb (fun c => negb (bool_decide (c = dollar))) ds = true.
Proof. apply forallb_impl. intros c H. destruct (bool_decide_reflect (c = dollar)); [by subst c|done]. Qed.

Lemma hex_no_dollar raw : forallb (fun c => negb (bool_decide (c = dollar))) (to_hex raw) = true.
Proof.
  induction raw as [|c raw IH]; [done|]. rewrite to_hex_cons. cbn [forallb]. rewrite IH. by destruct c.
Qed.

Lemma stoull_print n : 0 <= n < 2 ^ 64 -> stoull (nat_string n) = Ok n.
Proof.
  intros H. destruct (nat_string_spec n ltac:(lia)) as (X & F & V). unfold stoull.
  assert (Hs : span is_space (nat_string n) = ([], nat_string n)).
  { destruct (nat_string n) as [|c ds]; [done|]. cbn [forallb] in F. apply andb_true_iff in F as [Fc _]. cbn [span].
    assert (is_space c = false) as -> by (revert Fc; destruct c; by vm_compute). done. }
  rewrite Hs. cbn [snd]. destruct (nat_string n) as [|c ds] eqn:E; [done|]. cbn [forallb] in F. apply andb_true_iff in F as [Fc F].
  assert (split_sign (c :: ds) = (false, c :: ds)) as ->.
  { unfold split_sign. rewrite !bool_decide_eq_false_2; [done| |]; by intros ->. }
  pose proof (span_all is_digit (c :: ds) []) as S. rewrite app_nil_r in S. rewrite S; [|by cbn; rewrite Fc|done].
  cbn [fst]. rewrite bool_decide_eq_false_2 by done. rewrite V. assert ((n <? 2 ^ 64) = true) as -> by (apply Z.ltb_lt; lia). done.
Qed.

#[local] Instance res_eq_dec : EqDecision (res bytes).
Proof. solve_decision. Defined.

(** A stored password accepts exactly the passwords that derive its key. *)
Lemma verify_hash auth_salt salt iterations password stored :
  1 <= iterations <= 10000000 -> length salt = 16%nat -> hash_password salt iterations password = Ok stored ->
  exists dk, pbkdf2_hmac_sha256 password salt iterations 32 = Ok dk /\
    forall p, verify_password auth_salt stored p = bool_decide (pbkdf2_hmac_sha256 p salt iterations 32 = Ok dk).
Proof.
  intros I S H. unfold hash_password in H. destruct (pbkdf2_hmac_sha256 password salt iterations 32) as [dk|w|w] eqn:D; [|done..].
  apply Ok_inj in H as <-. exists dk. split; [done|]. intros p. unfold verify_password.
  rewrite take_app_length, drop_app_length, bool_decide_eq_true_2 by done.
  destruct (nat_string_spec iterations ltac:(lia)) as (_ & F & _).
  rewrite split_dollar_app by by apply digits_no_dollar. rewrite split_dollar_app by apply hex_no_dollar.
  rewrite stoull_print by lia. assert ((iterations =? 0) = false) as -> by (apply Z.eqb_neq; lia).
  assert ((10000000 <? iterations) = false) as -> by (apply Z.ltb_ge; lia). cbn [orb].
  rewrite !length_to_hex, S, (length_pbkdf2 _ _ _ _ _ D). cbn [Nat.mul Nat.add Nat.eqb andb negb].
  rewrite hex_decode_to_hex, bool_decide_eq_false_2 by by intros ->.
  unfold pbkdf2_hmac_sha256 at 1 2. destruct (Z.eqb_spec iterations 0); [lia|]. rewrite constant_time_equal_spec.
  apply bool_decide_ext. destruct (Z.eqb_spec iterations 0); [lia|].
  split; intros E; [apply to_hex_inj in E|apply Ok_inj in E]; by rewrite E.
Qed.

(** C29: with a configured number of iterations from 1 to ten million, adding a user
    succeeds and from then on the user logs in with the password given; another
    password is taken only if it derives the same key from the user's salt.  The
    user has the role given, and the entries of the others are as before. *)
Theorem add_user_authenticates auth_salt salt iterations username password role us :
  1 <= iterations <= 10000000 -> length salt = 16%nat ->
  exists us', add_user salt iterations username password role us = Ok us' /\
    authenticate auth_salt us' username password = true /\
    (forall p, authenticate auth_salt us' username p = true ->
       pbkdf2_hmac_sha256 p salt iterations 32 = pbkdf2_hmac_sha256 password salt iterations 32) /\
    role_of us' username = role /\ has_users us' = true /\
    (forall u p, u <> username -> authenticate auth_salt us' u p = authenticate auth_salt us u p /\ role_of us' u = role_of us u).
Proof.
  intros I S. unfold add_user. destruct (hash_password salt iterations password) as [h|w|w] eqn:H.
  2, 3: unfold hash_password, pbkdf2_hmac_sha256 in H; destruct (Z.eqb_spec iterations 0); [lia|done].
  destruct (verify_hash auth_salt salt iterations password h I S H) as (dk & D & V). eexists. split; [reflexivity|].
  unfold authenticate, role_of. rewrite lookup_insert_eq. cbn [user_hash user_role]. split_and!.
  - rewrite V. by apply bool_decide_eq_true.
  - intros p. rewrite V, bool_decide_eq_true, D. done.
  - done.
  - unfold has_users. rewrite bool_decide_eq_false_2; [done|]. apply insert_non_empty.
  - intros u p N. by rewrite lookup_insert_ne.
Qed.

Lemma add_user_authenticates_witness :
  exists us', add_user (replicate 16 Byte.x07) 2 (str "ann") (str "pw") Admin ∅ = Ok us' /\
    authenticate (str "s") us' (str "ann") (str "pw") = true.
Proof.
  destruct (add_user_authenticates (str "s") (replicate 16 Byte.x07) 2 (str "ann") (str "pw") Admin ∅) as (us' & E & A & _);
    [lia|reflexivity|]. exists us'. split; [exact E|exact A].
Defined.
