(* ===== verification/PlanCache.v ===== *)
(** The plan cache of [src/process/query_processor.cpp] (class [PlanCache]): plans
    by normalised text, each with the statistics fingerprint it was made under, and
    the list of keys in order of use. *)
From Stdlib Require Import ZArith Lia Strings.Byte.
From stdpp Require Import base numbers list gmap strings.
From S2P Require Import Prelude.
Local Open Scope Z_scope.

Section PlanCache.
Context {Plan : Type}.

Record PlanCache := mkCache {
  cache_entries : gmap bytes (Plan * Z);   (* the plan and its fingerprint *)
  cache_lru : list bytes;                  (* the least recently used first *)
  max_entries : nat
}.
Implicit Types (c : PlanCache) (key : bytes).

Definition empty_cache (n : nat) : PlanCache := mkCache ∅ [] n.

(** [std::find] and [erase]: the first occurrence goes. *)
Fixpoint erase_first key (l : list bytes) : list bytes :=
  match l with [] => [] | k :: l => if bool_decide (k = key) then l else k :: erase_first key l end.

Definition touch key (l : list bytes) : list bytes :=
  if bool_decide (key ∈ l) then erase_first key l ++ [key] else l.

Definition cache_lookup key (fingerprint : Z) c : option Plan * PlanCache :=
  match cache_entries c !! key with
  | None => (None, c)
  | Some (p, fp) =>
      if fp =? fingerprint then (Some p, mkCache (cache_entries c) (touch key (cache_lru c)) (max_entries c))
      else (None, mkCache (delete key (cache_entries c)) (erase_first key (cache_lru c)) (max_entries c))
  end.

(** The eviction loop: while the cache is full and the list is not empty. *)
Fixpoint evict (n : nat) (m : gmap bytes (Plan * Z)) (l : list bytes) : gmap bytes (Plan * Z) * list bytes :=
  match l with
  | [] => (m, [])
  | k :: rest => if (n <=? size m)%nat then evict n (delete k m) rest else (m, l)
  end.

Definition cache_insert key (fingerprint : Z) (p : Plan) c : PlanCache :=
  let (m, l) := evict (max_entries c) (cache_entries c) (cache_lru c) in
  mkCache (<[key := (p, fingerprint)]> m) (l ++ [key]) (max_entries c).

Definition invalidate_all c : PlanCache := mkCache ∅ [] (max_entries c).
Definition cache_size c : nat := size (cache_entries c).

(** * What a sequence of calls leaves *)

Inductive cache_op :=
| OpLookup key (fingerprint : Z)
| OpInsert key (fingerprint : Z) (p : Plan)
| OpInvalidate.

Definition cache_step c (o : cache_op) : PlanCache :=
  match o with
  | OpLookup key fp => (cache_lookup key fp c).2
  | OpInsert key fp p => cache_insert key fp p c
  | OpInvalidate => invalidate_all c
  end.
Definition run_cache (n : nat) (ops : list cache_op) : PlanCache := fold_left cache_step ops (empty_cache n).

(** The last plan given for a key, with its fingerprint, since the last
    invalidation: what the cache may answer. *)
Definition last_insert key (ops : list cache_op) : option (Plan * Z) :=
  fold_left (fun acc o =>
    match o with
    | OpInsert k fp p => if bool_decide (k = key) then Some (p, fp) else acc
    | OpInvalidate => None
    | OpLookup _ _ => acc
    end) ops None.

(** Every cached key is in the list, so that eviction finds it; the size is
    bounded; what is cached was the last plan given. *)
Record cache_ok (n : nat) (ops : list cache_op) c : Prop := {
  ok_listed : forall key e, cache_entries c !! key = Some e -> key ∈ cache_lru c;
  ok_size : (cache_size c <= Nat.max 1 n)%nat;
  ok_max : max_entries c = n;
  ok_last : forall key e, cache_entries c !! key = Some e -> last_insert key ops = Some e
}.

Lemma elem_erase_ne k key l : k <> key -> k ∈ l -> k ∈ erase_first key l.
Proof.
  intros N. induction l as [|x l IH]; intros H; [done|]. cbn. apply elem_of_cons in H as [->|H].
  - rewrite bool_decide_eq_false_2 by done. by left.
  - destruct (bool_decide (x = key)); [done|]. right. auto.
Qed.

Lemma elem_touch k key l : k ∈ l -> k ∈ touch key l.
Proof.
  intros H. unfold touch. destruct (bool_decide_reflect (key ∈ l)) as [K|K]; [|done]. apply elem_of_app.
  destruct (decide (k = key)) as [->|N]; [right; by left|left; by apply elem_erase_ne].
Qed.

Lemma evict_keeps n m l :
  (forall k e, m !! k = Some e -> k ∈ l) ->
  let '(m', l') := evict n m l in
  (forall k e, m' !! k = Some e -> k ∈ l' /\ m !! k = Some e) /\ (size m' <= Nat.max 1 n - 1 \/ m' = ∅)%nat.
Proof.
  revert m. induction l as [|k l IH]; intros m H; cbn [evict].
  - assert (m = ∅) as -> by (apply map_empty; intros k; destruct (m !! k) eqn:E; [by apply H, not_elem_of_nil in E|done]).
    split; [intros k e E; by rewrite lookup_empty in E|by right].
  - destruct (Nat.leb_spec n (size m)) as [L|L].
    + specialize (IH (delete k m)). destruct (evict n (delete k m) l) as [m' l'].
      destruct IH as [A B]; [intros k' e E; apply lookup_delete_Some in E as [N E]; apply H in E; by set_solver|].
      split; [|done]. intros k' e E. destruct (A _ _ E) as [? F]. split; [done|]. by apply lookup_delete_Some in F as [_ ?].
    + split; [intros k' e E; split; [by eapply H|done]|left; lia].
Qed.

Lemma evict_subset n m l m' l' k e : evict n m l = (m', l') -> m' !! k = Some e -> m !! k = Some e.
Proof.
  revert m. induction l as [|x l IH]; intros m; cbn [evict]; [by intros [= <- <-]|].
  destruct (_ <=? _)%nat; [|by intros [= <- <-]]. intros E K. specialize (IH _ E K). by apply lookup_delete_Some in IH as [_ ?].
Qed.

Lemma last_insert_snoc key ops o :
  last_insert key (ops ++ [o]) =
  match o with
  | OpInsert k fp p => if bool_decide (k = key) then Some (p, fp) else last_insert key ops
  | OpInvalidate => None
  | OpLookup _ _ => last_insert key ops
  end.
Proof. unfold last_insert. by rewrite fold_left_app. Qed.

Lemma cache_step_ok n ops c o : cache_ok n ops c -> cache_ok n (ops ++ [o]) (cache_step c o).
Proof.
  intros [L S M T]. destruct o as [key fp|key fp p|]; cbn [cache_step].
  - unfold cache_lookup. destruct (cache_entries c !! key) as [[p f]|] eqn:E; [destruct (f =? fp)|]; split; cbn;
      unfold cache_size in *; cbn; try done; try (intros k e K; rewrite ?last_insert_snoc).
    all: try (apply lookup_delete_Some in K as [? K]); eauto using elem_touch, elem_erase_ne.
    rewrite map_size_delete, E. cbn. lia.
  - unfold cache_insert. pose proof (evict_keeps (max_entries c) _ _ L) as V.
    destruct (evict (max_entries c) (cache_entries c) (cache_lru c)) as [m l]. destruct V as [V Z].
    split; unfold cache_size in *; cbn; [| |done|]; try (intros k e K; rewrite ?last_insert_snoc).
    + destruct (decide (k = key)) as [->|N]; [set_solver|]. rewrite lookup_insert_ne in K by done.
      apply elem_of_app. left. by eapply V.
    + rewrite map_size_insert. rewrite M in Z. destruct (m !! key); [|destruct Z as [Z| ->]; [|rewrite map_size_empty]]; cbn; [|lia..].
      destruct Z as [Z| ->]; [lia|rewrite map_size_empty; lia].
    + destruct (bool_decide_reflect (key = k)) as [->|N]; [by rewrite lookup_insert_eq in K|].
      rewrite lookup_insert_ne in K by done. by apply T, V.
  - split; cbn; unfold cache_size; cbn; [by intros ??; rewrite lookup_empty|rewrite map_size_empty; lia|done|by intros ??; rewrite lookup_empty].
Qed.

Lemma run_cache_ok n ops : cache_ok n ops (run_cache n ops).
Proof.
  induction ops as [|o ops IH] using rev_ind.
  - split; cbn; unfold cache_size; cbn; [by intros ??; rewrite lookup_empty|rewrite map_size_empty; lia|done|by intros ??; rewrite lookup_empty].
  - unfold run_cache. rewrite fold_left_app. by apply cache_step_ok.
Qed.

End PlanCache.
Arguments PlanCache : clear implicits. Arguments cache_op : clear implicits.

(** Whatever lookups, insertions and invalidations are made, in any order, the
    cache never holds more than [max_entries] plans (one when the limit is zero). *)
Theorem cache_bounded {Plan} (n : nat) (ops : list (cache_op Plan)) :
  (cache_size (run_cache n ops) <= Nat.max 1 n)%nat.
Proof. apply ok_size with ops. apply run_cache_ok. Qed.

(** A hit returns the plan that was last inserted under that text since the
    last invalidation, and only if it was made under the fingerprint asked for. *)
Theorem cache_hit_last_insert {Plan} (n : nat) (ops : list (cache_op Plan)) key fp p :
  (cache_lookup key fp (run_cache n ops)).1 = Some p -> last_insert key ops = Some (p, fp).
Proof.
  destruct (run_cache_ok n ops) as [_ _ _ T]. unfold cache_lookup.
  destruct (cache_entries (run_cache n ops) !! key) as [[q f]|] eqn:E; [|done].
  destruct (Z.eqb_spec f fp) as [->|]; [|done]. cbn. intros [= ->]. by apply T.
Qed.

Lemma cache_hit_last_insert_witness :
  last_insert (str "Q") [OpInsert (str "Q") 7 1%nat; OpLookup (str "Q") 7; OpInsert (str "R") 7 2%nat] = Some (1%nat, 7).
Proof. apply (cache_hit_last_insert 2). vm_compute. reflexivity. Defined.

(** A plan inserted is found until something else is done. *)
Lemma insert_lookup {Plan} (c : PlanCache Plan) key fp p : (cache_lookup key fp (cache_insert key fp p c)).1 = Some p.
Proof.
  unfold cache_lookup, cache_insert. destruct (evict _ _ _) as [m l]. cbn. by rewrite lookup_insert_eq, Z.eqb_refl.
Qed.

(** With a limit of two, the third plan evicts the one not used since. *)
Example evicts_least_recent :
  let c := run_cache 2 [OpInsert (str "A") 0 1%nat; OpInsert (str "B") 0 2%nat; OpLookup (str "A") 0; OpInsert (str "C") 0 3%nat] in
  (cache_lookup (str "A") 0 c).1 = Some 1%nat /\ (cache_lookup (str "B") 0 c).1 = None /\ (cache_lookup (str "C") 0 c).1 = Some 3%nat.
Proof. vm_compute. done. Qed.
