(* ===== verification/Subqueries.v ===== *)
(** Subqueries, the first part of [src/process/query_processor.cpp]: the names a
    subquery binds, the substitution of the outer row's values, the detection of
    correlation, the two rewritings into uncorrelated IN, and the runner of
    correlated subqueries. *)
From Stdlib Require Import ZArith Lia Strings.Byte.
From stdpp Require Import base numbers list strings.
From S2P Require Import Prelude Values Mvcc Doubles Eval Query Logical Access Rewrites Folding Parser.
Local Open Scope Z_scope.

(** * Names and values of the outer row *)

Definition opt_list {A} (o : option A) : list A := match o with Some a => [a] | None => [] end.

(** A set, of which only membership is used. *)
Definition subquery_local_names (s : SelectStmt Query) : list bytes :=
  sel_from s :: opt_list (sel_from_alias s) ++ concat (map (fun j => jn_table j :: opt_list (jn_alias j)) (sel_joins s)).

(** [outer.values[i]] for the first binding of that table and column; a record has
    a value for each of its bindings. *)
Fixpoint lookup_binding (bs : list Binding) (vs : list Value) (table col : bytes) : option Value :=
  match bs with
  | [] => None
  | b :: bs =>
      if bool_decide (b_table b = table) && bool_decide (b_column b = col) then head vs
      else lookup_binding bs (tail vs) table col
  end.
Definition outer_lookup (outer : Record_) (table col : bytes) : option Value :=
  lookup_binding (rec_bindings outer) (rec_values outer) table col.

(** Is the reference to a table that the names do not cover? *)
Definition is_outer_ref (local : list bytes) (c : ColumnRef) : bool :=
  negb (bool_decide (ref_table c = [])) && negb (bool_decide (ref_table c ∈ local)).

(** * Substitution *)

Section Substitution.
Variable outer : Record_.

Fixpoint substitute_outer_refs_expr (local : list bytes) (e : Expression) : Expression :=
  match e with
  | EColumn c =>
      if is_outer_ref local c then
        match outer_lookup outer (ref_table c) (ref_name c) with Some v => ELiteral v | None => e end
      else e
  | EBinary op l r => EBinary op (substitute_outer_refs_expr local l) (substitute_outer_refs_expr local r)
  | EFunction f args => EFunction f (map (substitute_outer_refs_expr local) args)
  | _ => e
  end.

(** The predicate, with what is done to a nested subquery. *)
Section Bool.
Variables (local : list bytes) (nested : Query -> Query).
Definition substitute_in (i : InExpr Query) : InExpr Query :=
  mkIn (substitute_outer_refs_expr local (in_expr i)) (map (substitute_outer_refs_expr local) (in_values i)) (in_negated i)
    (match in_subquery i with Some q => Some (nested q) | None => None end) (in_exists_only i).
Fixpoint substitute_bool (b : BoolExpr Query) : BoolExpr Query :=
  let part (o : option (BoolExpr Query)) := match o with Some x => Some (substitute_bool x) | None => None end in
  match b with
  | BComparison (Some c) =>
      BComparison (Some (mkCmp (substitute_outer_refs_expr local (cmp_lhs c)) (cmp_op c) (substitute_outer_refs_expr local (cmp_rhs c))))
  | BAnd l r => BAnd (part l) (part r)
  | BOr l r => BOr (part l) (part r)
  | BNot l => BNot (part l)
  | BIn (Some i) => BIn (Some (substitute_in i))
  | BBetween (Some b) =>
      BBetween (Some (mkBetween (substitute_outer_refs_expr local (btw_expr b)) (substitute_outer_refs_expr local (btw_low b))
                        (substitute_outer_refs_expr local (btw_high b)) (btw_negated b)))
  | _ => b
  end.
End Bool.

Definition set_where (w : option (BoolExpr Query)) (s : SelectStmt Query) : SelectStmt Query :=
  mkSelect (sel_projections s) (sel_distinct s) (sel_from s) (sel_from_alias s) (sel_joins s) w (sel_order_by s)
    (sel_group_by s) (sel_having s) (sel_limit s) (sel_offset s).

(** A nested subquery: its own names are local too, and its WHERE is rewritten. *)
Fixpoint substitute_nested (local : list bytes) (q : Query) : Query :=
  match q with
  | mkQuery s us =>
      let inner_local := subquery_local_names s ++ local in
      mkQuery (set_where (match sel_where s with
                          | Some w => Some (substitute_bool inner_local (substitute_nested inner_local) w)
                          | None => None
                          end) s) us
  end.

Definition substitute_outer_refs_bool (local : list bytes) (b : BoolExpr Query) : BoolExpr Query :=
  substitute_bool local (substitute_nested local) b.

(** What the runner makes of a subquery for an outer row. *)
Definition resolve_for_row (q : Query) : Query := substitute_nested [] q.

End Substitution.

(** * Detection *)

Fixpoint detect_outer_refs_expr (local : list bytes) (e : Expression) : bool :=
  match e with
  | EColumn c => is_outer_ref local c
  | EBinary _ l r => detect_outer_refs_expr local l || detect_outer_refs_expr local r
  | EFunction _ args => existsb (detect_outer_refs_expr local) args
  | _ => false
  end.

Section Detection.
Variables (local : list bytes) (nested : Query -> bool).
Definition detect_in (i : InExpr Query) : bool :=
  detect_outer_refs_expr local (in_expr i) || existsb (detect_outer_refs_expr local) (in_values i) ||
  match in_subquery i with Some q => nested q | None => false end.
Fixpoint detect_bool (b : BoolExpr Query) : bool :=
  let part (o : option (BoolExpr Query)) := match o with Some x => detect_bool x | None => false end in
  match b with
  | BComparison (Some c) => detect_outer_refs_expr local (cmp_lhs c) || detect_outer_refs_expr local (cmp_rhs c)
  | BAnd l r | BOr l r => part l || part r
  | BNot l => part l
  | BIn (Some i) => detect_in i
  | BBetween (Some b) =>
      detect_outer_refs_expr local (btw_expr b) || detect_outer_refs_expr local (btw_low b) || detect_outer_refs_expr local (btw_high b)
  | _ => false
  end.
End Detection.

Fixpoint detect_nested (local : list bytes) (q : Query) : bool :=
  match q with
  | mkQuery s _ =>
      let inner_local := subquery_local_names s ++ local in
      match sel_where s with Some w => detect_bool inner_local (detect_nested inner_local) w | None => false end
  end.
Definition detect_outer_refs_bool (local : list bytes) (b : BoolExpr Query) : bool :=
  detect_bool local (detect_nested local) b.

Definition subquery_is_correlated (q : Query) : bool := detect_nested [] q.

(** * Rewriting correlated subqueries into uncorrelated ones *)

(** The leaves of a tree of AND, left to right. *)
Fixpoint flatten_and_leaves (b : BoolExpr Query) : option (list (BoolExpr Query)) :=
  match b with
  | BAnd (Some l) (Some r) => xs ← flatten_and_leaves l; ys ← flatten_and_leaves r; Some (xs ++ ys)
  | BAnd _ _ => None
  | _ => Some [b]
  end.

(** [*leaves[i] = x]: the leaf in its place. *)
Fixpoint count_leaves (b : BoolExpr Query) : nat :=
  match b with
  | BAnd (Some l) (Some r) => (count_leaves l + count_leaves r)%nat
  | _ => 1%nat
  end.
Fixpoint set_leaf (i : nat) (x b : BoolExpr Query) : BoolExpr Query :=
  match b with
  | BAnd (Some l) (Some r) =>
      if (i <? count_leaves l)%nat then BAnd (Some (set_leaf i x l)) (Some r)
      else BAnd (Some l) (Some (set_leaf (i - count_leaves l) x r))
  | _ => x
  end.

(** A correlated leaf [local = outer], as (local, outer). *)
Definition equality_leaf (local : list bytes) (b : BoolExpr Query) : option (ColumnRef * ColumnRef) :=
  match b with
  | BComparison (Some (mkCmp (EColumn l) Eq (EColumn r))) =>
      if Bool.eqb (is_outer_ref local l) (is_outer_ref local r) then None
      else Some (if is_outer_ref local l then (r, l) else (l, r))
  | _ => None
  end.

(** The loop over the leaves: the position and columns of the only correlated one. *)
Fixpoint find_correlated (local : list bytes) (accept : ColumnRef -> bool) (i : nat) (leaves : list (BoolExpr Query))
    (found : option (nat * (ColumnRef * ColumnRef))) : option (nat * (ColumnRef * ColumnRef)) :=
  match leaves with
  | [] => found
  | b :: leaves =>
      if detect_outer_refs_bool local b then
        match found, equality_leaf local b with
        | None, Some lo => if accept lo.2 then find_correlated local accept (S i) leaves (Some (i, lo)) else None
        | _, _ => None
        end
      else find_correlated local accept (S i) leaves found
  end.

(** [1 = 1]. *)
Definition truec : BoolExpr Query := BComparison (Some (mkCmp (ELiteral (VInt 1)) Eq (ELiteral (VInt 1)))).

(** DISTINCT, GROUP BY, HAVING, ORDER BY, LIMIT, OFFSET and UNION stand in the way. *)
Definition has_clauses (q : Query) : bool :=
  match q with
  | mkQuery s us =>
      sel_distinct s || negb (match sel_group_by s with [] => true | _ => false end) || bool_decide (is_Some (sel_having s)) ||
      negb (match sel_order_by s with [] => true | _ => false end) || bool_decide (is_Some (sel_limit s)) ||
      bool_decide (is_Some (sel_offset s)) || negb (match us with [] => true | _ => false end)
  end.

Definition set_core (s : SelectStmt Query) (q : Query) : Query := match q with mkQuery _ us => mkQuery s us end.
Definition core (q : Query) : SelectStmt Query := match q with mkQuery s _ => s end.

(** [outer.b IN (SELECT S.col FROM S WHERE S.x = outer.b AND P)]
    becomes [outer.b IN (SELECT S.col FROM S WHERE P)]. *)
Definition try_decorrelate_in (i : InExpr Query) : option (InExpr Query) :=
  if in_exists_only i then None else
  q ← in_subquery i;
  if has_clauses q then None else
  w ← sel_where (core q);
  match in_expr i with
  | EColumn outer_col =>
      leaves ← flatten_and_leaves w;
      '(n, _) ← find_correlated (subquery_local_names (core q))
                  (fun oc => bool_decide (ref_table oc = ref_table outer_col) && bool_decide (ref_name oc = ref_name outer_col))
                  0 leaves None;
      Some (mkIn (in_expr i) [] (in_negated i) (Some (set_core (set_where (Some (set_leaf n truec w)) (core q)) q)) false)
  | _ => None
  end.

Definition set_projections (ps : list SelectItem) (s : SelectStmt Query) : SelectStmt Query :=
  mkSelect ps (sel_distinct s) (sel_from s) (sel_from_alias s) (sel_joins s) (sel_where s) (sel_order_by s)
    (sel_group_by s) (sel_having s) (sel_limit s) (sel_offset s).

(** [EXISTS (SELECT ... FROM S WHERE S.a = outer.b AND P)] becomes
    [outer.b IN (SELECT S.a FROM S WHERE P)]. *)
Definition try_decorrelate_exists (q : Query) : option (InExpr Query) :=
  if has_clauses q then None else
  w ← sel_where (core q);
  leaves ← flatten_and_leaves w;
  '(n, (local_col, outer_col)) ← find_correlated (subquery_local_names (core q)) (fun _ => true) 0 leaves None;
  Some (mkIn (EColumn outer_col) [] false
          (Some (set_core (set_projections [mkItem (SelExpr (EColumn local_col)) None]
                             (set_where (Some (set_leaf n truec w)) (core q))) q)) false).

Definition has_subquery_in (i : InExpr Query) : bool := bool_decide (is_Some (in_subquery i)).
Fixpoint bool_has_subquery (b : BoolExpr Query) : bool :=
  let part (o : option (BoolExpr Query)) := match o with Some x => bool_has_subquery x | None => false end in
  match b with
  | BIn (Some i) => has_subquery_in i
  | BAnd l r | BOr l r => part l || part r
  | BNot l => part l
  | _ => false
  end.
Definition stmt_where (s : Stmt) : option (BoolExpr Query) :=
  match s with
  | SelectQ q => sel_where (core q)
  | Update _ _ w => w
  | Delete _ w => w
  | _ => None
  end.
Definition stmt_has_subquery (s : Stmt) : bool :=
  match stmt_where s with Some w => bool_has_subquery w | None => false end.

(** * The runner of correlated subqueries *)

(** What a generator yields, and how it ends. *)
Definition stream : Type := (list Record_ * res unit)%type.

(** The loop over the rows: EXISTS stops at the first; otherwise every row must
    have one column. *)
Fixpoint one_column (rows : list Record_) (ends : res unit) : res (list Value) :=
  match rows with
  | [] => _ ← ends; Ok []
  | r :: rows =>
      match rec_values r with
      | [v] => vs ← one_column rows ends; Ok (v :: vs)
      | _ => Throw "[Process] IN subquery must return exactly one column"
      end
  end.
Definition subquery_values (exists_only : bool) (g : stream) : res (list Value) :=
  if exists_only then match g.1 with [] => _ ← g.2; Ok [] | _ :: _ => Ok [VInt 1] end
  else one_column g.1 g.2.

(** [run_subquery], where [exec] plans a query and runs its plan. *)
Definition run_subquery (exec : Query -> stream) (q : Query) (outer : Record_) (exists_only : bool) : res (list Value) :=
  subquery_values exists_only (exec (resolve_for_row outer q)).

(** * Substitution gives the value in the joined row *)

(** Induction over queries through the subqueries of their WHERE. *)
Section QueryInduction.
Variable P : Query -> Prop.
Fixpoint all_queries (b : BoolExpr Query) : Prop :=
  let part (o : option (BoolExpr Query)) := match o with Some x => all_queries x | None => True end in
  match b with
  | BIn (Some i) => match in_subquery i with Some q => P q | None => True end
  | BAnd l r | BOr l r => part l /\ part r
  | BNot l => part l
  | _ => True
  end.
Definition where_queries (s : SelectStmt Query) : Prop := match sel_where s with Some w => all_queries w | None => True end.

Fixpoint all_queries_total (f : forall q, P q) (b : BoolExpr Query) : all_queries b :=
  let part (o : option (BoolExpr Query)) : match o with Some x => all_queries x | None => True end :=
    match o with Some x => all_queries_total f x | None => Logic.I end in
  match b return all_queries b with
  | BIn (Some i) => match in_subquery i as o return match o with Some q => P q | None => True end with Some q => f q | None => Logic.I end
  | BIn None => Logic.I
  | BAnd l r => conj (part l) (part r)
  | BOr l r => conj (part l) (part r)
  | BNot l => part l
  | BComparison _ => Logic.I
  | BBetween _ => Logic.I
  end.

Hypothesis step : forall s us, where_queries s -> P (mkQuery s us).
Fixpoint Query_nested (q : Query) : P q :=
  match q with
  | mkQuery s us =>
      step s us (match sel_where s as o return match o with Some w => all_queries w | None => True end with
                 | Some w => all_queries_total Query_nested w
                 | None => Logic.I
                 end)
  end.
End QueryInduction.

Lemma all_queries_impl (P P' : Query -> Prop) b : (forall q, P q -> P' q) -> all_queries P b -> all_queries P' b.
Proof.
  intros I. induction b as [c|i|bt|l x Hl Hx|l x Hl Hx|l Hl] using BoolExpr_parts; cbn; intros A; try done.
  - destruct i as [i|]; [|done]. destruct (in_subquery i); auto.
  - destruct A, l, x; cbn in *; auto.
  - destruct A, l, x; cbn in *; auto.
  - destruct l; cbn in *; auto.
Qed.

(** The bindings of a record are of given tables. *)
Definition tables_in (local : list bytes) (r : Record_) : Prop := Forall (fun b => b_table b ∈ local) (rec_bindings r).
Definition tables_out (local : list bytes) (r : Record_) : Prop := Forall (fun b => b_table b ∉ local) (rec_bindings r).
Definition balanced (r : Record_) : Prop := length (rec_bindings r) = length (rec_values r).

Lemma lookup_binding_app bs vs bs' vs' t c :
  length bs = length vs ->
  lookup_binding (bs ++ bs') (vs ++ vs') t c =
  match lookup_binding bs vs t c with Some v => Some v | None => lookup_binding bs' vs' t c end.
Proof.
  revert vs. induction bs as [|b bs IH]; intros [|v vs] L; try done; cbn.
  destruct (_ && _); [done|]. apply IH. by injection L.
Qed.

Lemma lookup_binding_absent bs vs t c : Forall (fun b => b_table b <> t) bs -> lookup_binding bs vs t c = None.
Proof.
  intros F. revert vs. induction F as [|b bs N _ IH]; intros vs; [done|]. cbn. rewrite bool_decide_eq_false_2 by done. apply IH.
Qed.

Lemma is_outer_ref_app extra local c :
  is_outer_ref (extra ++ local) c = is_outer_ref extra c && negb (bool_decide (ref_table c ∈ local)).
Proof.
  unfold is_outer_ref. rewrite <- andb_assoc. f_equal. rewrite <- negb_orb, <- bool_decide_or. f_equal.
  apply bool_decide_ext, elem_of_app.
Qed.

(** Substituting the outer row and then the row of the enclosing query is
    substituting the joined row. *)
Section Compose.
Variables (local : list bytes) (r o : Record_).
Hypotheses (Rin : tables_in local r) (Oout : tables_out local o) (Rb : balanced r).

Lemma substitute_compose_expr extra e :
  substitute_outer_refs_expr r extra (substitute_outer_refs_expr o (extra ++ local) e) =
  substitute_outer_refs_expr (merge_rows r o) extra e.
Proof using Rin Oout Rb.
  induction e as [c|v|op l x IHl IHx| |f a|f args IH|] using Expression_all; cbn; try done.
  - rewrite is_outer_ref_app. unfold outer_lookup, merge_rows. cbn [rec_bindings rec_values].
    rewrite (lookup_binding_app _ _ _ _ _ _ Rb). destruct (is_outer_ref extra c) eqn:X; cbn; [|by rewrite X].
    destruct (bool_decide_reflect (ref_table c ∈ local)) as [L|L]; cbn.
    + rewrite X. rewrite (lookup_binding_absent (rec_bindings o)).
      { unfold outer_lookup. by destruct (lookup_binding _ _ _ _). }
      eapply Forall_impl; [exact Oout|]. cbn. intros b N E. by rewrite E in N.
    + rewrite (lookup_binding_absent (rec_bindings r)).
      2: { eapply Forall_impl; [exact Rin|]. cbn. intros b N E. by rewrite E in N. }
      destruct (lookup_binding (rec_bindings o) _ _ _); [done|]. cbn. rewrite X.
      unfold outer_lookup. rewrite (lookup_binding_absent (rec_bindings r)); [done|].
      eapply Forall_impl; [exact Rin|]. cbn. intros b N E. by rewrite E in N.
  - by rewrite IHl, IHx.
  - f_equal. rewrite map_map. apply map_ext_Forall, IH.
Qed.

Lemma substitute_compose_bool extra f g h b :
  all_queries (fun q => f (g q) = h q) b ->
  substitute_bool r extra f (substitute_bool o (extra ++ local) g b) = substitute_bool (merge_rows r o) extra h b.
Proof using Rin Oout Rb.
  induction b as [c|i|bt|l x Hl Hx|l x Hl Hx|l Hl] using BoolExpr_parts; intros A.
  - destruct c as [c|]; [|done]. cbn. by rewrite !substitute_compose_expr.
  - destruct i as [i|]; [|done]. cbn in *. unfold substitute_in. cbn. rewrite substitute_compose_expr, map_map. do 3 f_equal.
    + apply map_ext. intros e. apply substitute_compose_expr.
    + destruct (in_subquery i); [by rewrite A|done].
  - destruct bt as [bt|]; [|done]. cbn. by rewrite !substitute_compose_expr.
  - cbn in *. destruct A as [A1 A2]. destruct l, x; cbn in *; rewrite ?Hl, ?Hx; done.
  - cbn in *. destruct A as [A1 A2]. destruct l, x; cbn in *; rewrite ?Hl, ?Hx; done.
  - cbn in *. destruct l; cbn in *; rewrite ?Hl; done.
Qed.

Lemma substitute_compose_nested q : forall extra,
  substitute_nested r extra (substitute_nested o (extra ++ local) q) = substitute_nested (merge_rows r o) extra q.
Proof using Rin Oout Rb.
  induction q as [s us W] using Query_nested. intros extra. cbn. unfold where_queries in W.
  destruct s as [ps d from al js w ob gb hv li off]. cbn in *. unfold set_where. cbn. f_equal. f_equal.
  destruct w as [w|]; [|done]. f_equal. rewrite (app_assoc _ extra local).
  apply substitute_compose_bool. eapply all_queries_impl; [|exact W]. auto.
Qed.

End Compose.

(** A reference that is qualified, or bound by the row itself. *)
Definition scoped_ref (r : Record_) (c : ColumnRef) : bool :=
  negb (bool_decide (ref_table c = [])) || existsb (fun b => bool_decide (b_column b = ref_name c)) (rec_bindings r).
Definition scoped_expr (r : Record_) : Expression -> bool := expr_ok (scoped_ref r).
Fixpoint scoped_bool (r : Record_) (b : BoolExpr Query) : bool :=
  let part (o : option (BoolExpr Query)) := match o with Some x => scoped_bool r x | None => true end in
  match b with
  | BComparison (Some c) => scoped_expr r (cmp_lhs c) && scoped_expr r (cmp_rhs c)
  | BAnd l x | BOr l x => part l && part x
  | BNot l => part l
  | BIn (Some i) =>
      match in_subquery i with
      | Some _ => in_exists_only i || scoped_expr r (in_expr i)
      | None => scoped_expr r (in_expr i) && forallb (scoped_expr r) (in_values i)
      end
  | BBetween (Some b) => scoped_expr r (btw_expr b) && scoped_expr r (btw_low b) && scoped_expr r (btw_high b)
  | _ => true
  end.

Lemma find_binding_app f bs vs bs' vs' :
  length bs = length vs ->
  find_binding f (bs ++ bs') (vs ++ vs') =
  match find_binding f bs vs with Some v => Some v | None => find_binding f bs' vs' end.
Proof.
  revert vs. induction bs as [|b bs IH]; intros [|v vs] L; try done; cbn. destruct (f b); [done|]. apply IH. by injection L.
Qed.

Lemma find_binding_none f bs vs : Forall (fun b => f b = false) bs -> find_binding f bs vs = None.
Proof. intros F. revert vs. induction F as [|b bs N _ IH]; intros vs; [done|]. cbn. by rewrite N. Qed.

Lemma find_binding_some f bs vs : existsb f bs = true -> is_Some (find_binding f bs vs).
Proof.
  revert vs. induction bs as [|b bs IH]; intros vs E; [done|]. cbn in *. destruct (f b); [by eexists|]. by apply IH.
Qed.

Lemma find_binding_qualified bs vs t c :
  t <> [] -> length bs = length vs ->
  find_binding (fun b => (bool_decide (t = []) || bool_decide (b_table b = t)) && bool_decide (b_column b = c)) bs vs =
  Ok <$> lookup_binding bs vs t c.
Proof.
  intros T. revert vs. induction bs as [|b bs IH]; intros [|v vs] L; try done. cbn.
  rewrite (bool_decide_eq_false_2 (t = [])) by done. cbn. destruct (_ && _); [done|]. rewrite <- IH by (by injection L).
  by rewrite (bool_decide_eq_false_2 (t = [])).
Qed.

Section Substitute.
Variables (local : list bytes) (r o : Record_).
Hypotheses (Rin : tables_in local r) (Oout : tables_out local o) (Rb : balanced r) (Ob : balanced o).

Lemma lookup_merged c :
  scoped_ref r c = true ->
  lookup_ref (merge_rows r o) c =
  if is_outer_ref local c then
    match outer_lookup o (ref_table c) (ref_name c) with Some v => Ok v | None => lookup_ref r c end
  else lookup_ref r c.
Proof using Rin Oout Rb Ob.
  intros S. unfold lookup_ref at 1. unfold merge_rows. cbn [rec_bindings rec_values]. rewrite (find_binding_app _ _ _ _ _ Rb).
  unfold scoped_ref in S. unfold is_outer_ref. destruct (bool_decide_reflect (ref_table c = [])) as [E|E]; cbn in *.
  - unfold lookup_ref. rewrite bool_decide_eq_true_2 by done. cbn.
    destruct (find_binding_some _ _ (rec_values r) S) as [v V]. by rewrite V.
  - unfold outer_lookup, lookup_ref. pose proof (find_binding_qualified (rec_bindings r) (rec_values r) _ (ref_name c) E Rb) as Hr.
    pose proof (find_binding_qualified (rec_bindings o) (rec_values o) _ (ref_name c) E Ob) as Ho.
    rewrite (bool_decide_eq_false_2 (ref_table c = [])) in Hr, Ho |- * by done. cbn [orb] in Hr, Ho |- *. rewrite Hr, Ho.
    destruct (bool_decide_reflect (ref_table c ∈ local)) as [L|L]; cbn.
    + rewrite (lookup_binding_absent (rec_bindings o)); [by destruct (lookup_binding _ _ _ _)|].
      eapply Forall_impl; [exact Oout|]. cbn. intros b N X. by rewrite X in N.
    + rewrite (lookup_binding_absent (rec_bindings r)); [cbn; by destruct (lookup_binding (rec_bindings o) _ _ _)|].
      eapply Forall_impl; [exact Rin|]. cbn. intros b N X. by rewrite X in N.
Qed.

Lemma substitute_eval e :
  scoped_expr r e = true -> eval r (substitute_outer_refs_expr o local e) = eval (merge_rows r o) e.
Proof using Rin Oout Rb Ob.
  unfold scoped_expr. induction e as [c|v|op l x IHl IHx| |f a|f args IH|] using Expression_all; cbn; intros S; try done.
  - rewrite lookup_merged by done. destruct (is_outer_ref local c); [|done]. by destruct (outer_lookup o _ _).
  - apply andb_prop in S as [S1 S2]. by rewrite IHl, IHx.
  - f_equal. rewrite map_map. apply map_ext_Forall. rewrite forallb_forall in S. apply Forall_forall. intros e He.
    eapply Forall_forall in IH; [|exact He]. apply IH, S. by apply list_elem_of_In.
Qed.

Lemma substitute_run exec q ex :
  run_subquery exec (substitute_nested o local q) r ex = run_subquery exec q (merge_rows r o) ex.
Proof using Rin Oout Rb.
  unfold run_subquery, resolve_for_row. pose proof (substitute_compose_nested local r o Rin Oout Rb q []) as C.
  cbn [app] in C. by rewrite C.
Qed.

Lemma substitute_eval_in exec i :
  scoped_bool r (BIn (Some i)) = true ->
  eval_in (Some (run_subquery exec)) (substitute_in o local (substitute_nested o local) i) r =
  eval_in (Some (run_subquery exec)) i (merge_rows r o).
Proof using Rin Oout Rb Ob.
  cbn [scoped_bool]. unfold eval_in, substitute_in. cbn [in_subquery in_exists_only in_expr in_values in_negated].
  destruct (in_subquery i) as [q|]; intros S.
  - rewrite substitute_run. destruct (run_subquery exec q (merge_rows r o) (in_exists_only i)); [|done..]. cbn.
    destruct (in_exists_only i); [done|]. by rewrite substitute_eval.
  - apply andb_prop in S as [S1 S2]. rewrite (substitute_eval _ S1), map_map.
    assert (map (fun e => eval r (substitute_outer_refs_expr o local e)) (in_values i) = map (eval (merge_rows r o)) (in_values i)) as ->; [|done].
    apply map_ext_in. intros e He. apply substitute_eval. rewrite forallb_forall in S2. by apply S2.
Qed.

Lemma substitute_eval_bool exec b :
  scoped_bool r b = true ->
  eval_bool (Some (run_subquery exec)) (substitute_outer_refs_bool o local b) r =
  eval_bool (Some (run_subquery exec)) b (merge_rows r o).
Proof using Rin Oout Rb Ob.
  unfold substitute_outer_refs_bool. induction b as [c|i|bt|l x Hl Hx|l x Hl Hx|l Hl] using BoolExpr_parts; intros S.
  - destruct c as [c|]; [|done]. cbn in *. apply andb_prop in S as [S1 S2]. unfold eval_comparison. cbn.
    by rewrite !substitute_eval.
  - destruct i as [i|]; [|done]. by apply substitute_eval_in.
  - destruct bt as [bt|]; [|done]. cbn in *. repeat (apply andb_prop in S as [S ?]). unfold eval_between. cbn.
    by rewrite !substitute_eval.
  - cbn in *. apply andb_prop in S as [S1 S2]. destruct l, x; cbn in *; rewrite ?Hl, ?Hx; done.
  - cbn in *. apply andb_prop in S as [S1 S2]. destruct l, x; cbn in *; rewrite ?Hl, ?Hx; done.
  - cbn in *. destruct l; cbn in *; rewrite ?Hl; done.
Qed.

End Substitute.

(** C17: nested apply means correlation.  For a row of the subquery and an outer
    row, the predicate after the substitution of the outer row's values gives,
    errors included, what the predicate itself gives on the two rows joined,
    with subqueries nested in it run the same way, whatever [exec] answers.  The
    rows have a value per binding, no table name is on both sides, and an
    unqualified column is one of the subquery's. *)
Theorem nested_apply_correct exec local r o b :
  tables_in local r -> tables_out local o -> balanced r -> balanced o -> scoped_bool r b = true ->
  eval_bool (Some (run_subquery exec)) (substitute_outer_refs_bool o local b) r =
  eval_bool (Some (run_subquery exec)) b (merge_rows r o).
Proof. intros. by apply substitute_eval_bool. Qed.

(** [o.uid = u.id AND amount > 5 AND EXISTS (SELECT ... FROM p WHERE p.oid = o.id AND p.uid = u.id)],
    for a row of [o] and an outer row of [u]. *)
Definition col (t c : string) : Expression := EColumn (mkRef (str t) (str c)).
Definition from_where (t : string) (w : BoolExpr Query) : Query :=
  mkQuery (mkSelect [mkItem (SelExpr (ELiteral (VInt 1))) None] false (str t) None [] (Some w) [] [] None None None) [].
Definition cmp_node (a : Expression) (op : CompareOp) (b : Expression) : BoolExpr Query := BComparison (Some (mkCmp a op b)).
Definition ex_inner : BoolExpr Query :=
  and_node (cmp_node (col "o" "uid") Eq (col "u" "id"))
    (and_node (cmp_node (col "" "amount") Gt (ELiteral (VInt 5)))
       (BIn (Some (mkIn (col "" "") [] false
          (Some (from_where "p" (and_node (cmp_node (col "p" "oid") Eq (col "o" "id")) (cmp_node (col "p" "uid") Eq (col "u" "id"))))) true)))).
Definition ex_row : Record_ :=
  mkRecord [VInt 10; VInt 7; VInt 9] [mkBinding (str "o") (str "id"); mkBinding (str "o") (str "uid"); mkBinding (str "o") (str "amount")].
Definition ex_outer : Record_ := mkRecord [VInt 7] [mkBinding (str "u") (str "id")].

(** An executor that finds rows only for the query with both values in place. *)
Definition ex_exec (q : Query) : stream :=
  match sel_where (core q) with
  | Some (BAnd (Some (BComparison (Some (mkCmp _ _ (ELiteral (VInt 10)))))) (Some (BComparison (Some (mkCmp _ _ (ELiteral (VInt 7))))))) =>
      ([mkRecord [VInt 1] []], Ok tt)
  | _ => ([], Ok tt)
  end.

Lemma nested_apply_correct_witness :
  eval_bool (Some (run_subquery ex_exec)) (substitute_outer_refs_bool ex_outer [str "o"] ex_inner) ex_row =
  eval_bool (Some (run_subquery ex_exec)) ex_inner (merge_rows ex_row ex_outer) /\
  eval_bool (Some (run_subquery ex_exec)) ex_inner (merge_rows ex_row ex_outer) = Ok SqlTrue.
Proof.
  split; [|vm_compute; reflexivity].
  apply (nested_apply_correct ex_exec [str "o"] ex_row ex_outer ex_inner); [..|reflexivity|reflexivity|vm_compute; reflexivity].
  - repeat constructor.
  - repeat constructor. cbn. intros H. inversion H as [|? ? ? H']; subst. inversion H'.
Defined.

(** * Uncorrelated parts are left alone *)

Section Uncorrelated.
Variable o : Record_.

Lemma detect_substitute_expr local e :
  detect_outer_refs_expr local e = false -> substitute_outer_refs_expr o local e = e.
Proof.
  induction e as [c|v|op l x IHl IHx| |f a|f args IH|] using Expression_all; cbn; intros D; try done.
  - by rewrite D.
  - apply orb_false_iff in D as [D1 D2]. by rewrite IHl, IHx.
  - f_equal. induction IH as [|e es He _ IHes]; [done|]. cbn in *. apply orb_false_iff in D as [D1 D2]. by rewrite He, IHes.
Qed.

Lemma detect_substitute_exprs local es :
  existsb (detect_outer_refs_expr local) es = false -> map (substitute_outer_refs_expr o local) es = es.
Proof.
  induction es as [|e es IH]; [done|]. cbn. intros [D1 D2]%orb_false_iff. by rewrite detect_substitute_expr, IH.
Qed.

Lemma detect_substitute_bool local f g b :
  all_queries (fun q => g q = false -> f q = q) b ->
  detect_bool local g b = false -> substitute_bool o local f b = b.
Proof.
  induction b as [c|i|bt|l x Hl Hx|l x Hl Hx|l Hl] using BoolExpr_parts; cbn; intros A D.
  - destruct c as [[a op b]|]; [|done]. cbn in *. apply orb_false_iff in D as [D1 D2]. by rewrite !detect_substitute_expr.
  - destruct i as [[e vs n q ex]|]; [|done]. unfold detect_in, substitute_in in *. cbn in *. repeat (apply orb_false_iff in D as [D ?]).
    rewrite detect_substitute_expr, detect_substitute_exprs by done. destruct q; [by rewrite A|done].
  - destruct bt as [[a b c n]|]; [|done]. cbn in *. repeat (apply orb_false_iff in D as [D ?]). by rewrite !detect_substitute_expr.
  - destruct A. apply orb_false_iff in D as [D1 D2]. destruct l, x; cbn in *; rewrite ?Hl, ?Hx; done.
  - destruct A. apply orb_false_iff in D as [D1 D2]. destruct l, x; cbn in *; rewrite ?Hl, ?Hx; done.
  - destruct l; cbn in *; rewrite ?Hl; done.
Qed.

Lemma detect_substitute_nested q : forall local, detect_nested local q = false -> substitute_nested o local q = q.
Proof.
  induction q as [s us W] using Query_nested. intros local. cbn. unfold where_queries in W.
  destruct s as [ps d from al js w ob gb hv li off]. cbn in *. unfold set_where. cbn. destruct w as [w|]; [|done]. intros D.
  f_equal. f_equal. f_equal. eapply detect_substitute_bool; [|exact D]. eapply all_queries_impl; [|exact W]. cbn. auto.
Qed.

Lemma detect_substitute local b : detect_outer_refs_bool local b = false -> substitute_outer_refs_bool o local b = b.
Proof.
  apply detect_substitute_bool. apply all_queries_total. intros q. apply detect_substitute_nested.
Qed.

Lemma uncorrelated_resolved q : subquery_is_correlated q = false -> resolve_for_row o q = q.
Proof. apply detect_substitute_nested. Qed.

End Uncorrelated.

(** * EXISTS as IN *)

Lemma flatten_substitute o local w leaves :
  flatten_and_leaves w = Some leaves ->
  flatten_and_leaves (substitute_outer_refs_bool o local w) = Some (map (substitute_outer_refs_bool o local) leaves).
Proof.
  revert leaves. induction w as [c|i|bt|l x Hl Hx|l x Hl Hx|l Hl] using BoolExpr_parts; intros leaves E.
  4: { destruct l as [l|], x as [x|]; try done. cbn in E, Hl, Hx. apply bind_Some in E as (xs & El & E). apply bind_Some in E as (ys & Ex & [= <-]).
       unfold substitute_outer_refs_bool in *. cbn [substitute_bool flatten_and_leaves].
       by rewrite (Hl _ El), (Hx _ Ex), map_app. }
  all: injection E as <-; unfold substitute_outer_refs_bool.
  - by destruct c.
  - by destruct i.
  - by destruct bt.
  - done.
  - done.
Qed.

Lemma count_flatten w leaves : flatten_and_leaves w = Some leaves -> count_leaves w = length leaves.
Proof.
  revert leaves. induction w as [c|i|bt|l x Hl Hx|l x Hl Hx|l Hl] using BoolExpr_parts; intros leaves E; try by injection E as <-.
  destruct l as [l|], x as [x|]; try done. cbn in *. apply bind_Some in E as (xs & El & E). apply bind_Some in E as (ys & Ex & [= <-]).
  by rewrite (Hl _ El), (Hx _ Ex), length_app.
Qed.

Lemma flatten_set_leaf w : forall leaves n x,
  flatten_and_leaves w = Some leaves -> (n < length leaves)%nat -> flatten_and_leaves x = Some [x] ->
  flatten_and_leaves (set_leaf n x w) = Some (<[n := x]> leaves).
Proof.
  induction w as [c|i|bt|l y Hl Hy|l y Hl Hy|l Hl] using BoolExpr_parts; intros leaves n x E L X.
  4: { destruct l as [l|], y as [y|]; try done. cbn in E, Hl, Hy. apply bind_Some in E as (xs & El & E). apply bind_Some in E as (ys & Ey & [= <-]).
       cbn [set_leaf]. rewrite (count_flatten _ _ El). rewrite length_app in L. destruct (Nat.ltb_spec n (length xs)) as [N|N]; cbn [flatten_and_leaves].
       - by rewrite (Hl xs n x El N X), Ey, insert_app_l.
       - rewrite El, (Hy ys _ x Ey) by (done || lia). cbn. by rewrite insert_app_r_alt. }
  all: injection E as <-; cbn [length] in L; assert (n = 0%nat) as -> by lia; exact X.
Qed.

(** A tree of AND is true when its leaves are. *)
Lemma eval_leaves run w r leaves :
  flatten_and_leaves w = Some leaves -> eval_bool run w r = Ok SqlTrue <-> Forall (fun b => eval_bool run b r = Ok SqlTrue) leaves.
Proof.
  revert leaves. induction w as [c|i|bt|l x Hl Hx|l x Hl Hx|l Hl] using BoolExpr_parts; intros leaves E.
  4: { destruct l as [l|], x as [x|]; try done. cbn in E, Hl, Hx. apply bind_Some in E as (xs & El & E). apply bind_Some in E as (ys & Ex & [= <-]).
       rewrite Forall_app, <- (Hl _ El), <- (Hx _ Ex). cbn [eval_bool].
       destruct (eval_bool run l r) as [a|?|?]; cbn; [|by split; [|intros [? _]]..].
       destruct (eval_bool run x r) as [b|?|?]; cbn; [|by split; [|intros [_ ?]]..]. by destruct a, b; cbn; split; try done; intros [? ?]. }
  all: injection E as <-; by rewrite Forall_singleton.
Qed.

Lemma find_correlated_spec local accept leaves : forall i found n lo,
  find_correlated local accept i leaves found = Some (n, lo) ->
  (found = Some (n, lo) /\ Forall (fun b => detect_outer_refs_bool local b = false) leaves) \/
  (found = None /\ exists pre b post, leaves = pre ++ b :: post /\ n = (i + length pre)%nat /\
     equality_leaf local b = Some lo /\ accept lo.2 = true /\
     Forall (fun b => detect_outer_refs_bool local b = false) pre /\ Forall (fun b => detect_outer_refs_bool local b = false) post).
Proof.
  induction leaves as [|b leaves IH]; intros i found n lo E; cbn in E; [left; by split|].
  destruct (detect_outer_refs_bool local b) eqn:D.
  - destruct found; [done|]. destruct (equality_leaf local b) as [lo'|] eqn:El; [|done]. destruct (accept lo'.2) eqn:A; [|done].
    right. split; [done|]. destruct (IH _ _ _ _ E) as [[[= <- <-] F]|[? _]]; [|done].
    exists [], b, leaves. cbn. rewrite Nat.add_0_r. by split_and!; try constructor.
  - destruct (IH _ _ _ _ E) as [[-> F]|(-> & pre & x & post & -> & -> & ? & ? & ? & ?)]; [left; auto|].
    right. split; [done|]. exists (b :: pre), x, post. cbn. rewrite Nat.add_succ_r. by split_and!; try constructor.
Qed.

Lemma detect_leaves local w leaves :
  flatten_and_leaves w = Some leaves -> detect_outer_refs_bool local w = existsb (detect_outer_refs_bool local) leaves.
Proof.
  unfold detect_outer_refs_bool. revert leaves.
  induction w as [c|i|bt|l x Hl Hx|l x Hl Hx|l Hl] using BoolExpr_parts; intros leaves E.
  4: { destruct l as [l|], x as [x|]; try done. cbn in E, Hl, Hx. apply bind_Some in E as (xs & El & E). apply bind_Some in E as (ys & Ex & [= <-]).
       cbn [detect_bool]. by rewrite (Hl _ El), (Hx _ Ex), existsb_app. }
  all: injection E as <-; cbn [existsb]; by rewrite orb_false_r.
Qed.

Lemma existsb_Forall_false {A} (f : A -> bool) l : Forall (fun x => f x = false) l -> existsb f l = false.
Proof. induction 1 as [|x l H _ IH]; [done|]. cbn. by rewrite H. Qed.

(** The rewriting, from its result. *)
Lemma decorrelate_exists_inv q i :
  try_decorrelate_exists q = Some i ->
  exists s w pre b post lc oc,
    q = mkQuery s [] /\ sel_where s = Some w /\ flatten_and_leaves w = Some (pre ++ b :: post) /\
    equality_leaf (subquery_local_names s) b = Some (lc, oc) /\
    Forall (fun b => detect_outer_refs_bool (subquery_local_names s) b = false) pre /\
    Forall (fun b => detect_outer_refs_bool (subquery_local_names s) b = false) post /\
    i = mkIn (EColumn oc) [] false (Some (mkQuery (set_projections [mkItem (SelExpr (EColumn lc)) None]
               (set_where (Some (set_leaf (length pre) truec w)) s)) [])) false.
Proof.
  unfold try_decorrelate_exists. destruct q as [s us]. destruct (has_clauses (mkQuery s us)) eqn:C; [done|].
  intros E. apply bind_Some in E as (w & W & E). apply bind_Some in E as (leaves & L & E).
  apply bind_Some in E as ([n [lc oc]] & F & [= <-]). cbn [core set_core] in *.
  destruct (find_correlated_spec _ _ _ _ _ _ _ F) as [[? _]|(_ & pre & b & post & -> & -> & ? & _ & ? & ?)]; [done|].
  assert (us = []) as ->.
  { unfold has_clauses in C. apply orb_false_iff in C as [_ C]. by destruct us. }
  exists s, w, pre, b, post, lc, oc. done.
Qed.

Definition passes (run : option (Query -> Record_ -> bool -> res (list Value))) (s : SelectStmt Query) (r : Record_) : bool :=
  match sel_where s with
  | Some w => match eval_bool run w r with Ok SqlTrue => true | _ => false end
  | None => true
  end.

Lemma passes_true run s w r : sel_where s = Some w -> passes run s r = true <-> eval_bool run w r = Ok SqlTrue.
Proof. unfold passes. intros ->. destruct (eval_bool run w r) as [[]|?|?]; split; congruence. Qed.

(** [exec] runs a plain SELECT on the rows of its FROM clause: it yields a row for
    each that passes the WHERE and, for a projection on a column, its value. *)
Definition computes (exec : Query -> stream) (base : list Record_) (s : SelectStmt Query) : Prop :=
  exists rows, exec (mkQuery s []) = (rows, Ok tt) /\
    Forall2 (fun r row => forall c, sel_projections s = [mkItem (SelExpr (EColumn c)) None] ->
                            exists v, lookup_ref r c = Ok v /\ rec_values row = [v])
      (List.filter (passes (Some (run_subquery exec)) s) base) rows.

Lemma equality_leaf_inv local b lc oc :
  equality_leaf local b = Some (lc, oc) ->
  (b = cmp_node (EColumn lc) Eq (EColumn oc) \/ b = cmp_node (EColumn oc) Eq (EColumn lc)) /\
  is_outer_ref local lc = false /\ is_outer_ref local oc = true.
Proof.
  unfold equality_leaf, cmp_node. destruct b as [[[[] [] []]|]|?|?|?|?|?]; try done.
  destruct (is_outer_ref local c) eqn:A, (is_outer_ref local c0) eqn:B; try done; intros [= <- <-]; auto.
Qed.

(** The correlated equality after the substitution of the outer value. *)
Lemma equality_leaf_true run local b lc oc o vo r :
  equality_leaf local b = Some (lc, oc) -> outer_lookup o (ref_table oc) (ref_name oc) = Some vo ->
  (forall v, lookup_ref r lc = Ok v -> is_null v = true \/ is_null vo = true \/ comparable vo v) ->
  eval_bool run (substitute_outer_refs_bool o local b) r = Ok SqlTrue <->
  exists v, lookup_ref r lc = Ok v /\ eq3 vo v = SqlTrue.
Proof.
  intros E O C. destruct (equality_leaf_inv _ _ _ _ E) as (B & Fl & Fo).
  assert (eval_bool run (substitute_outer_refs_bool o local b) r = (v ← lookup_ref r lc; Ok (eq3 vo v))) as ->.
  { unfold substitute_outer_refs_bool. destruct B as [-> | ->]; cbn; rewrite Fl, Fo, O; unfold eval_comparison; cbn.
    all: destruct (lookup_ref r lc) as [v|?|?]; cbn; try done; specialize (C v eq_refl); unfold eq3.
    - rewrite orb_comm. destruct (is_null vo) eqn:N; [done|]. destruct (is_null v) eqn:M; [done|]. cbn.
      destruct C as [? | [? | C]]; try done. destruct (comparable_eq _ _ C) as (a & -> & -> & _).
      destruct (comparable_eq _ _ (comparable_sym _ _ C)) as (a' & -> & Ea & _). cbn. by rewrite Ea, ValueEq_sym.
    - destruct (is_null vo) eqn:N; [done|]. destruct (is_null v) eqn:M; [done|]. cbn.
      destruct C as [? | [? | C]]; try done. by destruct (comparable_eq _ _ C) as (a & -> & _). }
  destruct (lookup_ref r lc) as [v|?|?]; cbn; split; try done.
  - intros [= H]. by exists v.
  - by intros (v' & [= <-] & ->).
  - by intros (v' & ? & _).
  - by intros (v' & ? & _).
Qed.

Lemma one_column_values c rs rows :
  Forall2 (fun r row => exists v, lookup_ref r c = Ok v /\ rec_values row = [v]) rs rows ->
  exists vals, one_column rows (Ok tt) = Ok vals /\ Forall2 (fun r v => lookup_ref r c = Ok v) rs vals.
Proof.
  induction 1 as [|r row rs rows (v & L & V) _ (vals & E & F)]; [by exists []|].
  exists (v :: vals). cbn. rewrite V, E. by split; [|constructor].
Qed.

Lemma in_spec_true l vs : in_spec l vs = SqlTrue <-> exists v, v ∈ vs /\ eq3 l v = SqlTrue.
Proof.
  unfold in_spec. induction vs as [|v vs IH]; cbn; [split; [done|by intros (v & ?%not_elem_of_nil & _)]|].
  split.
  - intros H. destruct (decide (eq3 l v = SqlTrue)) as [E|E]; [exists v; split; [by left|done]|].
    destruct IH as [IH _]. destruct IH as (v' & ? & ?); [by destruct (eq3 l v), (foldr _ _ _)|].
    exists v'. split; [by right|done].
  - intros (v' & [->|I]%elem_of_cons & E); [by rewrite E|]. rewrite (proj2 IH); [by destruct (eq3 l v)|by exists v'].
Qed.

Lemma elem_of_filter_b {A} (f : A -> bool) (l : list A) x : x ∈ List.filter f l <-> x ∈ l /\ f x = true.
Proof. rewrite !list_elem_of_In. apply filter_In. Qed.

Lemma Forall2_elem_r {A B} (R : A -> B -> Prop) l k y : Forall2 R l k -> y ∈ k -> exists x, x ∈ l /\ R x y.
Proof.
  induction 1 as [|a b l k H _ IH]; [by intros ?%not_elem_of_nil|]. intros [->|I]%elem_of_cons; [exists a; split; [by left|done]|].
  destruct (IH I) as (x & ? & ?). exists x. split; [by right|done].
Qed.
Lemma Forall2_elem_l {A B} (R : A -> B -> Prop) l k x : Forall2 R l k -> x ∈ l -> exists y, y ∈ k /\ R x y.
Proof. intros F%Forall2_flip. by apply (Forall2_elem_r _ _ _ _ F). Qed.

Section DecorrelateExists.
Variables (exec : Query -> stream) (base : list Record_) (o : Record_).
Abbreviation run := (Some (run_subquery exec)).

(** EXISTS is true when a row passes the resolved WHERE. *)
Lemma exists_true e vs n q :
  computes exec base (core (resolve_for_row o q)) -> resolve_for_row o q = mkQuery (core (resolve_for_row o q)) [] ->
  eval_in run (mkIn e vs n (Some q) true) o = Ok SqlTrue <->
  exists r, r ∈ base /\ passes run (core (resolve_for_row o q)) r = true.
Proof.
  intros (rows & R & F) Eq. unfold eval_in, run_subquery at 1. cbn [in_subquery in_exists_only]. rewrite Eq, R. cbn. split.
  - destruct rows as [|row rows]; [done|]. intros _. destruct (Forall2_elem_r _ _ _ row F) as (r & [I P]%elem_of_filter_b & _); [by left|].
    by exists r.
  - intros (r & I & P). destruct (Forall2_elem_l _ _ _ r F) as (row & I' & _); [by apply elem_of_filter_b|].
    destruct rows; [by apply not_elem_of_nil in I'|done].
Qed.

(** IN with an uncorrelated subquery is true when a row that passes has an equal value. *)
Lemma in_true oc lc s vo :
  computes exec base s -> sel_projections s = [mkItem (SelExpr (EColumn lc)) None] ->
  subquery_is_correlated (mkQuery s []) = false -> lookup_ref o oc = Ok vo ->
  (forall r v, r ∈ base -> lookup_ref r lc = Ok v -> is_null v = true \/ is_null vo = true \/ comparable vo v) ->
  eval_in run (mkIn (EColumn oc) [] false (Some (mkQuery s [])) false) o = Ok SqlTrue <->
  exists r v, r ∈ base /\ passes run s r = true /\ lookup_ref r lc = Ok v /\ eq3 vo v = SqlTrue.
Proof.
  intros (rows & R & F) Ps U O C. unfold eval_in, run_subquery at 1. cbn [in_subquery in_exists_only in_expr in_negated].
  rewrite uncorrelated_resolved, R by done. cbn [subquery_values fst snd].
  destruct (one_column_values lc (List.filter (passes run s) base) rows) as (vals & -> & V).
  { eapply Forall2_impl; [exact F|]. cbn. auto. }
  cbn [mbind res_bind eval]. rewrite O. cbn [mbind res_bind]. destruct (is_null vo) eqn:N.
  { split; [done|]. intros (r & v & _ & _ & _ & Q). unfold eq3 in Q. by rewrite N in Q. }
  assert (Forall (fun v => is_null v = true \/ comparable vo v) vals) as A.
  { apply Forall_forall. intros v Iv. destruct (Forall2_elem_r _ _ _ v V Iv) as (r & [Ir _]%elem_of_filter_b & L).
    destruct (C r v Ir L) as [?|[?|?]]; auto; congruence. }
  destruct (in_loop_spec vo vals false N A) as (fn & -> & E). cbn. rewrite E. split.
  - intros [= H]. assert (in_spec vo vals = SqlTrue) as X by (by destruct (in_spec vo vals)).
    apply in_spec_true in X as (v & Iv & Q). destruct (Forall2_elem_r _ _ _ v V Iv) as (r & [Ir P]%elem_of_filter_b & L).
    by exists r, v.
  - intros (r & v & I & P & L & Q). assert (in_spec vo vals = SqlTrue) as ->; [|done].
    apply in_spec_true. destruct (Forall2_elem_l _ _ _ r V) as (v' & Iv & L'); [by apply elem_of_filter_b|].
    rewrite L in L'. injection L' as <-. by exists v.
Qed.

End DecorrelateExists.

Lemma resolve_plain o s :
  resolve_for_row o (mkQuery s []) =
  mkQuery (set_where (match sel_where s with
                      | Some w => Some (substitute_outer_refs_bool o (subquery_local_names s) w)
                      | None => None
                      end) s) [].
Proof. unfold resolve_for_row. cbn. by rewrite app_nil_r. Qed.

Lemma qualified_lookup o local c vo :
  is_outer_ref local c = true -> balanced o -> outer_lookup o (ref_table c) (ref_name c) = Some vo -> lookup_ref o c = Ok vo.
Proof.
  unfold is_outer_ref. intros [N _]%andb_prop B O. apply negb_true_iff, bool_decide_eq_false in N.
  unfold lookup_ref. unfold outer_lookup in O. by rewrite (find_binding_qualified _ _ _ _ N B), O.
Qed.

(** The leaves around the correlated one decide both sides alike. *)
Lemma decorrelated_passes exec o s w pre b post lc oc r :
  let run := Some (run_subquery exec) in
  let names := subquery_local_names s in
  sel_where s = Some w -> flatten_and_leaves w = Some (pre ++ b :: post) ->
  Forall (fun b => detect_outer_refs_bool names b = false) pre -> Forall (fun b => detect_outer_refs_bool names b = false) post ->
  passes run (core (resolve_for_row o (mkQuery s []))) r = true <->
  eval_bool run (substitute_outer_refs_bool o names b) r = Ok SqlTrue /\
  passes run (set_projections [mkItem (SelExpr (EColumn lc)) oc] (set_where (Some (set_leaf (length pre) truec w)) s)) r = true.
Proof.
  intros run names W L Dpre Dpost. rewrite resolve_plain, W. cbn [core].
  rewrite (passes_true run _ (substitute_outer_refs_bool o names w)) by done.
  rewrite (passes_true run _ (set_leaf (length pre) truec w)) by done.
  rewrite (eval_leaves run _ r _ (flatten_substitute o names _ _ L)).
  assert (Lt : (length pre < length (pre ++ b :: post))%nat) by (rewrite length_app; cbn; lia).
  rewrite (eval_leaves run _ r _ (flatten_set_leaf _ _ _ truec L Lt eq_refl)).
  assert (Same : forall l, Forall (fun b => detect_outer_refs_bool names b = false) l -> map (substitute_outer_refs_bool o names) l = l).
  { induction 1 as [|x l D _ IH]; [done|]. cbn [map]. by rewrite (detect_substitute o names x D), IH. }
  rewrite map_app. cbn [map]. rewrite (Same pre Dpre), (Same post Dpost).
  replace (length pre) with (length pre + 0)%nat by lia. rewrite insert_app_r. cbn [insert list_insert].
  rewrite !Forall_app, !Forall_cons. split; [|tauto]. by intros (? & ? & ?).
Qed.

(** C18: replacing a correlated EXISTS by IN does not change which outer rows pass.
    If the rewriting applies, then, for an executor that runs both subqueries on
    the same rows of their FROM clause, EXISTS is true for an outer row exactly
    when the IN is, whatever else the WHERE demands.  The outer row binds the
    correlated column, and the compared values are NULL or of one type: integers
    of at most 53 bits, doubles that are not NaN, or texts. *)
Theorem decorrelate_exists_correct exec base o q i e vs n oc lc s' vo :
  try_decorrelate_exists q = Some i ->
  in_expr i = EColumn oc -> in_subquery i = Some (mkQuery s' []) -> sel_projections s' = [mkItem (SelExpr (EColumn lc)) None] ->
  balanced o -> outer_lookup o (ref_table oc) (ref_name oc) = Some vo ->
  (forall r v, r ∈ base -> lookup_ref r lc = Ok v -> is_null v = true \/ is_null vo = true \/ comparable vo v) ->
  computes exec base (core (resolve_for_row o q)) -> computes exec base s' ->
  eval_in (Some (run_subquery exec)) (mkIn e vs n (Some q) true) o = Ok SqlTrue <->
  eval_in (Some (run_subquery exec)) i o = Ok SqlTrue.
Proof.
  intros E I1 I2 I3 B O C X1 X2.
  destruct (decorrelate_exists_inv _ _ E) as (s & w & pre & b & post & lc' & oc' & -> & W & L & Q & Dpre & Dpost & ->).
  cbn in I1, I2. injection I1 as ->. injection I2 as <-. cbn in I3. injection I3 as ->.
  destruct (equality_leaf_inv _ _ _ _ Q) as (_ & _ & Oref).
  assert (U : subquery_is_correlated (mkQuery (set_projections [mkItem (SelExpr (EColumn lc)) None]
                (set_where (Some (set_leaf (length pre) truec w)) s)) []) = false).
  { unfold subquery_is_correlated. cbn [detect_nested]. change (subquery_local_names _) with (subquery_local_names s).
    cbn [sel_where set_projections set_where]. rewrite app_nil_r. fold (detect_outer_refs_bool (subquery_local_names s)).
    change (detect_outer_refs_bool (subquery_local_names s) (set_leaf (length pre) truec w) = false).
    rewrite (detect_leaves _ _ _ (flatten_set_leaf w _ (length pre) truec L ltac:(rewrite length_app; cbn; lia) eq_refl)).
    apply existsb_Forall_false. replace (length pre) with (length pre + 0)%nat by lia. rewrite insert_app_r. cbn.
    apply Forall_app. split; [done|]. by constructor. }
  rewrite (exists_true exec base o e vs n _ X1) by by rewrite resolve_plain.
  rewrite (in_true exec base o _ lc _ vo X2 eq_refl U (qualified_lookup _ _ _ _ Oref B O) C).
  split.
  - intros (r & I & P). apply (decorrelated_passes exec o s w pre b post lc None r W L Dpre Dpost) in P as [T P].
    apply (equality_leaf_true _ _ _ _ _ _ vo r Q O) in T as (v & Lv & Ev); [|by intros v; apply C]. by exists r, v.
  - intros (r & v & I & P & Lv & Ev). exists r. split; [done|].
    apply (decorrelated_passes exec o s w pre b post lc None r W L Dpre Dpost). split; [|done].
    apply (equality_leaf_true _ _ _ _ _ _ vo r Q O); [by intros v'; apply C|]. by exists v.
Qed.

(** An executor for a SELECT of one expression without nested subqueries. *)
Definition ref_exec (base : list Record_) (q : Query) : stream :=
  (map (fun r => match sel_projections (core q) with
                 | [mkItem (SelExpr e) _] => match eval r e with Ok v => mkRecord [v] [] | _ => mkRecord [] [] end
                 | _ => mkRecord [] []
                 end) (List.filter (passes None (core q)) base), Ok tt).

(** The table [s(x, col)] with the rows (1, 2) and (2, 1), and an outer row [u.b = 1]. *)
Definition ex_base : list Record_ :=
  [mkRecord [VInt 1; VInt 2] [mkBinding (str "s") (str "x"); mkBinding (str "s") (str "col")];
   mkRecord [VInt 2; VInt 1] [mkBinding (str "s") (str "x"); mkBinding (str "s") (str "col")]].
Definition ex_u : Record_ := mkRecord [VInt 1] [mkBinding (str "u") (str "b")].
Definition ex_exists_where : BoolExpr Query :=
  and_node (cmp_node (col "s" "x") Eq (col "u" "b")) (cmp_node (col "s" "col") Ne (ELiteral (VInt 9))).

Lemma decorrelate_exists_correct_witness :
  eval_in (Some (run_subquery (ref_exec ex_base))) (mkIn (col "" "") [] false (Some (from_where "s" ex_exists_where)) true) ex_u = Ok SqlTrue <->
  exists i, try_decorrelate_exists (from_where "s" ex_exists_where) = Some i /\
    eval_in (Some (run_subquery (ref_exec ex_base))) i ex_u = Ok SqlTrue.
Proof.
  destruct (try_decorrelate_exists (from_where "s" ex_exists_where)) as [[? ? ? q ?]|] eqn:E; [|by vm_compute in E].
  pose proof E as E'. vm_compute in E'. injection E' as X1 X2 X3 X4 X5. destruct q as [[s' us]|]; [|done]. injection X4 as X4 X6. subst us.
  rewrite (decorrelate_exists_correct (ref_exec ex_base) ex_base ex_u (from_where "s" ex_exists_where) _ (col "" "") [] false
             (mkRef (str "u") (str "b")) (mkRef (str "s") (str "x")) s' (VInt 1) E).
  - split; [intros H; eexists; split; [reflexivity|exact H]|by intros (i & [= <-] & H)].
  - by subst.
  - done.
  - by rewrite <- X4.
  - done.
  - done.
  - intros r v I L. right; right. repeat (apply elem_of_cons in I as [->|I]); [..|by apply not_elem_of_nil in I];
      vm_compute in L; injection L as <-; by vm_compute.
  - eexists. split; [reflexivity|]. vm_compute. repeat constructor; intros c [= <-].
  - eexists. split; [reflexivity|]. rewrite <- X4. vm_compute. repeat constructor; intros c [= <-]; by eexists.
Defined.

(** The rewriting of a correlated IN is not of that kind: it drops [s.x = u.b], which
    speaks of another column than the one selected.  Here [1 IN (SELECT col FROM s
    WHERE x = 1)] is false, and its replacement [1 IN (SELECT col FROM s)] is true. *)
Lemma decorrelate_in_anomaly :
  let run := Some (run_subquery (ref_exec ex_base)) in
  let sub := mkQuery (mkSelect [mkItem (SelExpr (col "s" "col")) None] false (str "s") None []
                        (Some (cmp_node (col "s" "x") Eq (col "u" "b"))) [] [] None None None) [] in
  let i := mkIn (col "u" "b") [] false (Some sub) false in
  eval_in run i ex_u = Ok SqlFalse /\
  exists i', try_decorrelate_in i = Some i' /\ eval_in run i' ex_u = Ok SqlTrue.
Proof. intros run sub i. split; [by vm_compute|]. eexists. split; [reflexivity|]. by vm_compute. Qed.
