(* ===== verification/Processor.v ===== *)
(** The query processor, [src/process/query_processor.cpp] (class [QueryProcessor]):
    who may run what, transaction control, utility statements, prepared
    statements, the resolution of subqueries, the plan cache and the dispatch to
    planner and executor.

    What it drives (transaction controller, storage, planner, executor, utility
    processor, locks) is the interface [Backend]; the session's transaction is
    part of the backend's state. *)
From Stdlib Require Import ZArith Lia Strings.Byte.
From stdpp Require Import base numbers list gmap strings.
From S2P Require Import Prelude Values Doubles Session Control Eval Query Logical Lexer Parser Crypto Users PlanCache Subqueries.
Local Open Scope Z_scope.

(** * Classification of statements *)

Definition is_write_statement (s : Stmt) : bool :=
  match s with
  | Insert _ _ _ | Update _ _ _ | Delete _ _ | Create _ _ | CreateIndex _ _ _ | DropTable _ _ | DropIndex _ _ _
  | Analyze _ | Backup _ => true
  | _ => false
  end.

Definition extract_table_names (s : Stmt) : list bytes :=
  match s with
  | SelectQ q => sel_from (core q) :: map jn_table (sel_joins (core q))
  | Insert t _ _ | Update t _ _ | Delete t _ | Create t _ => [t]
  | CreateIndex _ t _ => [t]
  | _ => []
  end.

Definition is_ddl (s : Stmt) : bool := match s with Create _ _ | CreateIndex _ _ _ => true | _ => false end.
Definition is_select (s : Stmt) : bool := match s with SelectQ _ => true | _ => false end.

(** What [TransactionController::handle] takes. *)
Definition control_of (s : Stmt) : option ControlStmt :=
  match s with
  | Begin => Some BeginStmt
  | CommitTxn => Some CommitStmt
  | Rollback sp => Some (RollbackStmt sp)
  | Parser.SavepointStmt n => Some (Control.SavepointStmt n)
  | ReleaseSavepoint n => Some (ReleaseSavepointStmt n)
  | SetTransaction i => Some (SetTransactionStmt i)
  | _ => None
  end.

(** * The text under which a plan is cached *)

(** Runs of blanks become one space and letters upper case ... *)
Fixpoint fold_blanks (in_space : bool) (sql : bytes) : bytes :=
  match sql with
  | [] => []
  | c :: sql =>
      if Lexer.is_space c then if in_space then fold_blanks true sql else " "%byte :: fold_blanks true sql
      else to_upper c :: fold_blanks false sql
  end.
(** ... and blanks at the ends go. *)
Fixpoint drop_blanks (s : bytes) : bytes :=
  match s with [] => [] | c :: s' => if bool_decide (c = " "%byte) then drop_blanks s' else s end.
Definition normalize_sql (sql : bytes) : bytes := reverse (drop_blanks (reverse (drop_blanks (fold_blanks false sql)))).

(** * The interface to the components driven *)

(** What is known of a table: rows, rows and timestamp of its statistics, rows
    written since. *)
Record TableInfo := mkInfo { ti_rows : Z; ti_total_rows : Z; ti_stats_ts : Z; ti_written : Z }.

Inductive LockRequest := LockGlobal | LockTables (names : list bytes).

Class Backend (B Plan : Type) := {
  be_control : ControlStmt -> ST B bytes;                 (* TransactionController::handle *)
  be_prepare : bool -> ST B unit;                         (* prepare_for_statement; for a SELECT? *)
  be_in_transaction : B -> bool;
  be_failed : B -> bool;                                  (* in a transaction whose state is Failed *)
  be_mark_failed : B -> B;
  be_snapshot : B -> Z;                                   (* session->snapshot_ts *)
  be_set_snapshot : Z -> B -> B;
  be_allocate_ts : ST B Z;
  be_active : B -> nat;                                   (* active_count *)
  be_checkpoint : ST B unit;
  be_backup : bytes -> ST B bytes;
  be_tables : B -> list bytes;                            (* catalog_.table_names() *)
  be_info : B -> bytes -> option TableInfo;               (* catalog_.lookup *)
  be_collect : bytes -> Z -> ST B unit;                   (* analyze_table *)
  be_plan : Stmt -> ST B Plan;                            (* build_physical_plan *)
  be_explain_plan : Stmt -> ST B (bytes * Plan);          (* the logical plan's text too *)
  be_query : bool -> Plan -> B -> B * stream;             (* run a plan; only to the first row? *)
  be_drain : Plan -> ST B unit;                           (* run a plan to the end *)
  be_is_utility : Plan -> bool;
  be_utility : Plan -> ST B unit;
  be_lock : LockRequest -> ST B unit;
  be_unlock : LockRequest -> B -> B
}.

(** * State *)

Section Processor.
Context {B Plan : Type} `{Backend B Plan}.

Record Config := mkConfig {
  read_only : bool;             (* a replica *)
  auth_salt : bytes;
  auth_iterations : Z;
  auto_analyze_threshold : Z    (* a double *)
}.

Record Login := mkLogin { authenticated : bool; auth_user : bytes; auth_role : UserRole }.

Record Processor := mkProc {
  p_backend : B;
  p_users : Users;
  p_cache : PlanCache Plan;
  p_login : Login;
  p_prepared : gmap bytes Plan;          (* session->prepared_stmts *)
  p_prepared_sql : gmap bytes bytes      (* session->prepared_sql *)
}.
Implicit Types p : Processor.

Definition set_backend (b : B) p := mkProc b (p_users p) (p_cache p) (p_login p) (p_prepared p) (p_prepared_sql p).
Definition set_users (u : Users) p := mkProc (p_backend p) u (p_cache p) (p_login p) (p_prepared p) (p_prepared_sql p).
Definition set_cache (c : PlanCache Plan) p := mkProc (p_backend p) (p_users p) c (p_login p) (p_prepared p) (p_prepared_sql p).
Definition set_login (l : Login) p := mkProc (p_backend p) (p_users p) (p_cache p) l (p_prepared p) (p_prepared_sql p).
Definition set_prepared (m : gmap bytes Plan) p := mkProc (p_backend p) (p_users p) (p_cache p) (p_login p) m (p_prepared_sql p).
Definition set_prepared_sql (m : gmap bytes bytes) p := mkProc (p_backend p) (p_users p) (p_cache p) (p_login p) (p_prepared p) m.

Abbreviation QP := (ST Processor).

Definition backend {A} (m : ST B A) : QP A := fun p => let '(b, r) := m (p_backend p) in (set_backend b p, r).
Definition backend_is {A} (f : B -> A) : QP A := gets (fun p => f (p_backend p)).
Definition on_backend (f : B -> B) : QP unit := modify (fun p => set_backend (f (p_backend p)) p).

Inductive ProcessedQuery :=
| Message (m : bytes)
| Rows (plan : Plan)                           (* run when the rows are consumed *)
| StatusRows (rows : list (bytes * bytes))
| ExplainRows (logical : option bytes) (plan : Plan)
| AnalyzeRows (logical : bytes) (plan : Plan).

Definition message (s : string) : QP ProcessedQuery := mret (Message (str s)).

(** * Who may run what *)

Variable cfg : Config.

Definition writes_or_explains_write (s : Stmt) : bool :=
  is_write_statement s || match s with Explain inner _ => is_write_statement inner | _ => false end.

(** The statements of the role [read_only]. *)
Definition is_read (s : Stmt) : bool :=
  match s with
  | SelectQ _ | ShowStatus | Begin | CommitTxn | Rollback _ | Parser.SavepointStmt _ | ReleaseSavepoint _ | SetTransaction _ | Auth _ _ => true
  | Explain inner _ => negb (is_write_statement inner)
  | _ => false
  end.

(** The part of [run_impl] before dispatch: [Some] for the statements it answers
    itself, with the salt drawn for a new user. *)
Definition admit_stmt (salt : bytes) (s : Stmt) : QP (option ProcessedQuery) :=
  if read_only cfg && writes_or_explains_write s
  then throw "[Replica] Read-only replica: data modification statements are not accepted" else
  users ← gets p_users;
  login ← gets p_login;
  match s with
  | CreateUser name password role =>
      if has_users users && negb (authenticated login && match role_of users (auth_user login) with Admin => true | _ => false end)
      then throw "[RBAC] Only authenticated users with the 'admin' role can create users" else
      us ← Prelude.lift (add_user salt (auth_iterations cfg) name password role users);
      _ ← modify (set_users us);
      mret (Some (Message (str "CREATE USER")))
  | Auth name password =>
      if negb (authenticate (auth_salt cfg) users name password) then throw "[Auth] Authentication failed for user" else
      _ ← modify (set_login (mkLogin true name (role_of users name)));
      mret (Some (Message (str "AUTH OK")))
  | _ =>
      if negb (authenticated login) && has_users users then throw "[Auth] Not authenticated. Use AUTH <username> '<password>'" else
      if authenticated login && has_users users then
        match auth_role login with
        | ReadOnly => if is_read s then mret None else throw "[RBAC] role 'read_only' cannot execute data-modification statements"
        | _ => mret None
        end
      else mret None
  end.

(** * Statistics *)

(** The [while (rows > 1)] loop, on 64-bit counts. *)
Fixpoint shift_loop (fuel : nat) (rows bucket : Z) : Z :=
  match fuel with
  | O => bucket
  | S fuel => if 1 <? rows then shift_loop fuel (Z.shiftr rows 1) (bucket + 1) else bucket
  end.
Definition row_bucket (rows : Z) : Z := shift_loop 64 rows 0.

Definition fnv_mix (fp x : Z) : Z := u64 (Z.lxor fp x * 1099511628211).
(** A [char] as [uint64_t]: with its sign. *)
Definition char_u64 (c : byte) : Z := u64 (to_signed 8 (b2z c)).

Definition mix_table (b : B) (fp : Z) (name : bytes) : Z :=
  match be_info b name with
  | None => fp
  | Some t =>
      let fp := fold_left (fun fp c => fnv_mix fp (char_u64 c)) name fp in
      fnv_mix (fnv_mix fp (row_bucket (ti_rows t))) (ti_stats_ts t)
  end.
Definition stats_fingerprint (s : Stmt) (b : B) : Z := fold_left (mix_table b) (extract_table_names s) 1469598103934665603.

(** [TableStats::is_stale]. *)
Definition is_stale (total_rows current_rows threshold : Z) : bool :=
  if total_rows =? 0 then true
  else dbl_lt threshold (dbl_div (dbl_sub (dbl_of_int current_rows) (dbl_of_int total_rows) mod 2 ^ 63) (dbl_of_int total_rows)).

Definition needs_analyze (threshold : Z) (t : TableInfo) : bool :=
  if ti_rows t =? 0 then false
  else
    let no_stats := ti_total_rows t =? 0 in
    no_stats || is_stale (ti_total_rows t) (ti_rows t) threshold ||
    dbl_lt (dbl_mul threshold (dbl_of_int (ti_total_rows t))) (dbl_of_int (ti_written t)).

Definition snapshot_or_new : QP Z :=
  t ← backend_is be_in_transaction;
  if t : bool then backend_is be_snapshot else backend be_allocate_ts.

Fixpoint refresh_stats (snap_ts : Z) (names : list bytes) : QP bool :=
  match names with
  | [] => mret false
  | name :: names =>
      info ← backend_is (fun b => be_info b name);
      match info with
      | Some t =>
          if needs_analyze (auto_analyze_threshold cfg) t
          then _ ← backend (be_collect name snap_ts); _ ← refresh_stats snap_ts names; mret true
          else refresh_stats snap_ts names
      | None => refresh_stats snap_ts names
      end
  end.

Definition forget_plans : QP unit := modify (fun p => set_prepared ∅ (set_cache (invalidate_all (p_cache p)) p)).

Definition maybe_auto_analyze (names : list bytes) : QP unit :=
  let threshold := auto_analyze_threshold cfg in
  if dbl_lt (dbl_of_int 1) threshold || dbl_eq (dbl_of_int 1) threshold then mret tt else
  snap_ts ← snapshot_or_new;
  refreshed ← refresh_stats snap_ts names;
  if refreshed : bool then forget_plans else mret tt.

(** ANALYZE. *)
Fixpoint analyze_all (snap_ts : Z) (names : list bytes) : QP unit :=
  match names with
  | [] => mret tt
  | name :: names => _ ← backend (be_collect name snap_ts); analyze_all snap_ts names
  end.

Definition analyze (table_name : bytes) : QP ProcessedQuery :=
  snap_ts ← snapshot_or_new;
  _ ← (if bool_decide (table_name = []) then names ← backend_is be_tables; analyze_all snap_ts names
       else info ← backend_is (fun b => be_info b table_name);
            match info with
            | Some _ => backend (be_collect table_name snap_ts)
            | None => throw "[ANALYZE] Unknown table"
            end);
  _ ← forget_plans;
  message "ANALYZE".

Definition build_status_rows : QP ProcessedQuery := gets (fun p =>
  let count n := int_to_string (Z.of_nat n) in
  StatusRows
    [(str "active_transactions", count (be_active (p_backend p)));
     (str "plan_cache_entries", count (cache_size (p_cache p)));
     (str "tables", count (length (be_tables (p_backend p))));
     (str "isolation_level", str "see session");
     (str "storage_engine", str "LSM-Tree");
     (str "database_version", str "0.1.0")]).

(** * Subqueries before planning *)

(** A plan run outside a transaction reads the latest commits; the timestamp is put back. *)
Definition run_now (first_only : bool) (plan : Plan) : QP stream := fun p =>
  let saved := be_snapshot (p_backend p) in
  let b := if be_in_transaction (p_backend p) then p_backend p else be_set_snapshot 0 (p_backend p) in
  let '(b, g) := be_query first_only plan b in
  (set_backend (be_set_snapshot saved b) p, Ok g).

Definition literal_comparison (found : bool) : BoolExpr Query :=
  BComparison (Some (mkCmp (ELiteral (VInt 1)) Eq (ELiteral (VInt (if found then 1 else 0))))).

(** The rewritings, outside NOT. *)
Definition decorrelate (under_not : bool) (i : InExpr Query) : InExpr Query :=
  let correlated i := match in_subquery i with Some q => subquery_is_correlated q | None => false end in
  let i := if in_exists_only i && negb under_not && correlated i
           then match in_subquery i ≫= try_decorrelate_exists with Some i' => i' | None => i end else i in
  if negb (in_exists_only i) && negb under_not && correlated i
  then match try_decorrelate_in i with Some i' => i' | None => i end else i.

Section Resolve.
Variable resolve_nested : Query -> QP Query.

Definition resolve_in (under_not : bool) (i : InExpr Query) : QP (BoolExpr Query) :=
  match in_subquery i with
  | None => mret (BIn (Some i))
  | Some _ =>
      let i := decorrelate under_not i in
      match in_subquery i with
      | None => mret (BIn (Some i))
      | Some q =>
          if subquery_is_correlated q then mret (BIn (Some i)) else
          q ← resolve_nested q;
          plan ← backend (be_plan (SelectQ q));
          g ← run_now (in_exists_only i) plan;
          vals ← Prelude.lift (subquery_values (in_exists_only i) g);
          mret (if in_exists_only i then literal_comparison (negb (bool_decide (vals = [])))
                else BIn (Some (mkIn (in_expr i) (map ELiteral vals) (in_negated i) None (in_exists_only i))))
      end
  end.

Fixpoint resolve_bool (under_not : bool) (b : BoolExpr Query) : QP (BoolExpr Query) :=
  let part n (o : option (BoolExpr Query)) : QP (option (BoolExpr Query)) :=
    match o with Some x => y ← resolve_bool n x; mret (Some y) | None => mret None end in
  match b with
  | BAnd l r => l ← part under_not l; r ← part under_not r; mret (BAnd l r)
  | BOr l r => l ← part under_not l; r ← part under_not r; mret (BOr l r)
  | BNot l => l ← part (negb under_not) l; mret (BNot l)
  | BIn (Some i) => resolve_in under_not i
  | _ => mret b
  end.
End Resolve.

(** [resolve_subqueries] at the depth [9 - fuel]. *)
Fixpoint resolve_query (fuel : nat) (q : Query) : QP Query :=
  match sel_where (core q) with
  | None => mret q
  | Some w =>
      match fuel with
      | O => throw "[Process] Subquery nesting too deep"
      | S fuel => w ← resolve_bool (resolve_query fuel) false w; mret (set_core (set_where (Some w) (core q)) q)
      end
  end.

Definition max_depth : nat := 9.
Definition resolve_subqueries (s : Stmt) : QP Stmt :=
  match s with
  | SelectQ q => q ← resolve_query max_depth q; mret (SelectQ q)
  | Update t a (Some w) => w ← resolve_bool (resolve_query (pred max_depth)) false w; mret (Update t a (Some w))
  | Delete t (Some w) => w ← resolve_bool (resolve_query (pred max_depth)) false w; mret (Delete t (Some w))
  | _ => mret s
  end.
Definition resolve_if_needed (s : Stmt) : QP Stmt := if stmt_has_subquery s then resolve_subqueries s else mret s.

(** * Prepared statements *)

Definition question : byte := "?"%byte.

Definition prepare_stmt (name sql : bytes) : QP ProcessedQuery :=
  _ ← (if existsb (fun c => bool_decide (c = question)) sql
       then modify (fun p => set_prepared_sql (<[name := sql]> (p_prepared_sql p)) p)
       else match parse sql with
            | Got inner _ =>
                inner ← resolve_if_needed inner;
                plan ← backend (be_plan inner);
                modify (fun p => set_prepared (<[name := plan]> (p_prepared p)) p)
            | Failed w => throw w
            | Out => Prelude.lift (UB "parser")
            end);
  message "PREPARE".

(** The text that stands for a parameter. *)
Definition param_text (v : Value) : bytes :=
  match v with
  | VNull => str "NULL"
  | VInt n => int_to_string n
  | VDouble d => dbl_to_string d
  | VText s => str "'" ++ s ++ str "'"
  end.

Fixpoint substitute_params (template : bytes) (params : list Value) : res bytes :=
  match template with
  | [] => Ok []
  | c :: template =>
      if bool_decide (c = question) then
        match params with
        | [] => Throw "[Process] Not enough parameters for EXECUTE"
        | v :: params => rest ← substitute_params template params; Ok (param_text v ++ rest)
        end
      else rest ← substitute_params template params; Ok (c :: rest)
  end.

(** A plan to run, or the text to run in place of this statement. *)
Definition execute_stmt (name : bytes) (params : list Value) : QP (ProcessedQuery + bytes) :=
  sqls ← gets p_prepared_sql;
  match sqls !! name with
  | Some template => text ← Prelude.lift (substitute_params template params); mret (inr text)
  | None =>
      plans ← gets p_prepared;
      match plans !! name with
      | None => throw "[Process] Prepared statement not found"
      | Some plan => _ ← backend (be_prepare false); mret (inl (Rows plan))
      end
  end.

Definition deallocate_stmt (name : bytes) : QP ProcessedQuery :=
  if bool_decide (name = []) then _ ← modify (set_prepared ∅); message "DEALLOCATE ALL"
  else _ ← modify (fun p => set_prepared (delete name (p_prepared p)) p); message "DEALLOCATE PREPARE".

(** * EXPLAIN *)

(** The message of a caught exception; undefined behaviour is not caught. *)
Definition catch {A} (m : QP A) (handler : string -> QP A) : QP A := fun p =>
  match m p with (p', Throw w) => handler w p' | x => x end.

Definition is_dml_or_select (s : Stmt) : bool :=
  match s with SelectQ _ | Insert _ _ _ | Update _ _ _ | Delete _ _ => true | _ => false end.
Definition has_unions (s : Stmt) : bool := match s with SelectQ (mkQuery _ (_ :: _)) => true | _ => false end.

Definition explain (inner : Stmt) (analyze : bool) : QP ProcessedQuery :=
  inner ← resolve_if_needed inner;
  if is_dml_or_select inner && negb (has_unions inner) then
    '(text, plan) ← backend (be_explain_plan inner);
    if analyze then
      _ ← backend (be_prepare (is_select inner));
      catch (_ ← backend (be_drain plan); mret (AnalyzeRows text plan))
        (fun w => mret (Message (str "EXPLAIN ANALYZE execution error: " ++ str w)))
    else mret (ExplainRows (Some text) plan)
  else plan ← backend (be_plan inner); mret (ExplainRows None plan).

(** * Planning and execution *)

Definition with_lock {A} (req : option LockRequest) (m : QP A) : QP A :=
  match req with
  | None => m
  | Some req =>
      _ ← backend (be_lock req);
      (fun p => let '(p, x) := m p in (set_backend (be_unlock req (p_backend p)) p, x)) : QP A
  end.

Definition cached_plan (sql : bytes) (s : Stmt) (cacheable : bool) : QP Plan :=
  if cacheable then
    fp ← backend_is (stats_fingerprint s);
    hit ← ((fun p => let '(hit, c) := cache_lookup (normalize_sql sql) fp (p_cache p) in (set_cache c p, Ok hit)) : QP (option Plan));
    match hit with
    | Some plan => mret plan
    | None =>
        plan ← backend (be_plan s);
        _ ← modify (fun p => set_cache (cache_insert (normalize_sql sql) fp plan (p_cache p)) p);
        mret plan
    end
  else backend (be_plan s).

Definition dispatch_plan (s : Stmt) (plan : Plan) : QP ProcessedQuery :=
  if be_is_utility plan then _ ← backend (be_utility plan); message "OK"
  else
    _ ← backend (be_prepare (is_select s));
    if is_select s then mret (Rows plan) else _ ← backend (be_drain plan); message "OK".

Definition run_planned (sql : bytes) (s : Stmt) : QP ProcessedQuery :=
  let names := extract_table_names s in
  let body : QP ProcessedQuery :=
    _ ← (if is_select s then maybe_auto_analyze names else mret tt);
    let had_subquery := stmt_has_subquery s in
    s ← resolve_if_needed s;
    _ ← (if is_ddl s then forget_plans else mret tt);
    in_txn ← backend_is be_in_transaction;
    with_lock (if is_ddl s then Some LockGlobal
               else if negb (bool_decide (names = [])) && negb (is_select s) && negb in_txn then Some (LockTables names) else None)
      (plan ← cached_plan sql s (is_select s && negb had_subquery); dispatch_plan s plan) in
  catch body (fun w p => (if be_in_transaction (p_backend p) then set_backend (be_mark_failed (p_backend p)) p else p, Throw w)).

(** * [run] *)

(** One pass of [run_impl]: an answer, or the text of a prepared statement to run. *)
Definition run_stmt (salt sql : bytes) (s : Stmt) : QP (ProcessedQuery + bytes) :=
  let answer (m : QP ProcessedQuery) : QP (ProcessedQuery + bytes) := q ← m; mret (inl q) in
  admitted ← admit_stmt salt s;
  match admitted with
  | Some q => mret (inl q)
  | None =>
      match control_of s with
      | Some c => answer (m ← backend (be_control c); mret (Message m))
      | None =>
          match s with
          | Checkpoint => answer (_ ← backend be_checkpoint; message "CHECKPOINT")
          | ShowStatus => answer build_status_rows
          | Analyze name => answer (analyze name)
          | Backup dir => answer (m ← backend (be_backup dir); mret (Message m))
          | Prepare name text => answer (prepare_stmt name text)
          | Execute name params => execute_stmt name params
          | Deallocate name => answer (deallocate_stmt name)
          | _ =>
              failed ← backend_is be_failed;
              if failed : bool then throw "[Process] Current transaction is aborted; commands ignored until ROLLBACK" else
              match s with
              | Explain inner a => answer (explain inner a)
              | _ => answer (run_planned sql s)
              end
          end
      end
  end.

Definition run_impl (salt sql : bytes) : QP (ProcessedQuery + bytes) :=
  match parse sql with
  | Got s _ => run_stmt salt sql s
  | Failed w => throw w
  | Out => Prelude.lift (UB "parser")
  end.

(** [run], with a bound on the chain of prepared statements; [None] when it is used up. *)
Fixpoint run (fuel : nat) (salt sql : bytes) : QP (option ProcessedQuery) :=
  match fuel with
  | O => mret None
  | S fuel =>
      r ← run_impl salt sql;
      match r with inl q => mret (Some q) | inr text => run fuel salt text end
  end.

End Processor.
