(* ===== verification/ProcessorSafety.v ===== *)
(** What the query processor lets through: sessions that have not logged in,
    sessions of the role [read_only], read-only replicas; and the cases in which
    a gate does not hold what it promises. *)
From Stdlib Require Import ZArith Lia Strings.Byte.
From stdpp Require Import base numbers list gmap strings.
From S2P Require Import Prelude Values Doubles Session Control Eval Query Logical Folding Lexer Parser Crypto Users PlanCache Subqueries Processor.
Local Open Scope Z_scope.

Section Safety.
Context {B Plan : Type} `{BE : Backend B Plan}.
Abbreviation QP := (ST (Processor (B := B) (Plan := Plan))).
Implicit Types p : Processor (B := B) (Plan := Plan).

(** A plan made from a SELECT. *)
Definition select_plan (plan : Plan) : Prop := exists q b b', be_plan (SelectQ q) b = (b', Ok plan).
Definition explained_select (plan : Plan) : Prop := exists q b b' text, be_explain_plan (SelectQ q) b = (b', Ok (text, plan)).

(** Planning a SELECT never gives a plan of the utility processor. *)
Class PlanLaws := { select_not_utility : forall plan, select_plan plan -> be_is_utility plan = false }.

(** COMMIT installs the rows that the transaction has buffered, and CHECKPOINT writes
    the memtables out; a theorem says when it counts them in. *)
Inductive Extra := Commits | Checkpoints.

(** What can happen to the backend without a statement that writes: BEGIN, ROLLBACK,
    savepoints and the isolation level, timestamps, statistics, planning, and
    running plans of SELECTs; and the steps counted in. *)
Inductive reads (ck : list Extra) : B -> B -> Prop :=
| r_refl b : reads ck b b
| r_trans b1 b2 b3 : reads ck b1 b2 -> reads ck b2 b3 -> reads ck b1 b3
| r_control c b : (c = CommitStmt -> Commits ∈ ck) -> reads ck b (be_control c b).1
| r_prepare b : reads ck b (be_prepare true b).1
| r_mark_failed b : reads ck b (be_mark_failed b)
| r_snapshot ts b : reads ck b (be_set_snapshot ts b)
| r_allocate b : reads ck b (be_allocate_ts b).1
| r_collect name ts b : reads ck b (be_collect name ts b).1
| r_plan s b : reads ck b (be_plan s b).1
| r_explain s b : reads ck b (be_explain_plan s b).1
| r_query first plan b : select_plan plan -> reads ck b (be_query first plan b).1
| r_drain plan b : explained_select plan -> reads ck b (be_drain plan b).1
| r_checkpoint b : Checkpoints ∈ ck -> reads ck b (be_checkpoint b).1.
Hint Constructors reads : corodb.

(** Only plans of SELECTs are cached. *)
Definition cache_selects p : Prop := forall key e, cache_entries (p_cache p) !! key = Some e -> select_plan e.1.

(** A computation that only reads: users and login stay, and a result satisfies [Q]. *)
Definition safe (ck : list Extra) {A} (Q : A -> Prop) (m : QP A) : Prop := forall p p' r,
  m p = (p', r) -> cache_selects p ->
  reads ck (p_backend p) (p_backend p') /\ cache_selects p' /\
  p_users p' = p_users p /\ p_login p' = p_login p /\
  match r with Ok a => Q a | _ => True end.

Section Logic.
Variable ck : list Extra.
Context {A : Type}.
Implicit Types Q : A -> Prop.

Lemma safe_ret Q a : Q a -> safe ck Q (mret a).
Proof. intros HQ p p' r [= <- <-]. auto 10 with corodb. Qed.
Lemma safe_throw Q w : safe ck Q (throw w).
Proof. intros p p' r [= <- <-]. auto 10 with corodb. Qed.
Lemma safe_lift Q (x : res A) : (forall a, x = Ok a -> Q a) -> safe ck Q (Prelude.lift x).
Proof. intros HQ p p' r [= <- <-] I. split_and!; auto with corodb. destruct x; auto. Qed.
Lemma safe_gets Q (f : Processor -> A) : (forall p, Q (f p)) -> safe ck Q (gets f).
Proof. intros HQ p p' r [= <- <-]. auto 10 with corodb. Qed.

Lemma safe_bind {A'} (Q' : A' -> Prop) Q (m : QP A') (f : A' -> QP A) :
  safe ck Q' m -> (forall a, Q' a -> safe ck Q (f a)) -> safe ck Q (m ≫= f).
Proof.
  intros M F p p' r E I. unfold mbind, st_bind in E. destruct (m p) as [p1 [a|w|w]] eqn:E1;
    destruct (M _ _ _ E1 I) as (R1 & I1 & U1 & L1 & Q1).
  2, 3: injection E as <- <-; auto 10.
  destruct (F a Q1 _ _ _ E I1) as (R2 & I2 & U2 & L2 & Q2).
  split_and!; [by eapply r_trans|done|congruence|congruence|done].
Qed.

Lemma safe_weaken Q Q' (m : QP A) : safe ck Q' m -> (forall a, Q' a -> Q a) -> safe ck Q m.
Proof.
  intros M W p p' r E I. destruct (M _ _ _ E I) as (? & ? & ? & ? & ?). split_and!; auto. destruct r; auto.
Qed.

(** An operation of the backend. *)
Lemma safe_backend Q (m : ST B A) :
  (forall b, reads ck b (m b).1) -> (forall b b' a, m b = (b', Ok a) -> Q a) -> safe ck Q (backend m).
Proof.
  intros R HQ p p' r E I. unfold backend in E. pose proof (R (p_backend p)) as R1. destruct (m (p_backend p)) as [b' x] eqn:E1.
  injection E as <- <-. cbn. split_and!; auto. destruct x; [by eapply HQ|done..].
Qed.

Lemma safe_catch Q (m : QP A) (h : string -> QP A) : safe ck Q m -> (forall w, safe ck Q (h w)) -> safe ck Q (catch m h).
Proof.
  intros M Hd p p' r E I. unfold catch in E. destruct (m p) as [p1 [a|w|w]] eqn:E1;
    destruct (M _ _ _ E1 I) as (R1 & I1 & U1 & L1 & Q1).
  1, 3: injection E as <- <-; auto 10.
  destruct (Hd w _ _ _ E I1) as (R2 & I2 & U2 & L2 & Q2).
  split_and!; [by eapply r_trans|done|congruence|congruence|done].
Qed.
End Logic.

Abbreviation anything := (fun _ => True).

Variable cfg : Config.

(** ** Statistics *)

Lemma safe_forget ck : safe ck anything forget_plans.
Proof.
  intros p p' r [= <- <-] I. cbn. split_and!; auto with corodb. intros key e E. cbn in E. by rewrite lookup_empty in E.
Qed.

Lemma safe_collect ck name ts : safe ck anything (backend (be_collect name ts)).
Proof. apply safe_backend; [intros b; constructor|done]. Qed.

Lemma safe_snapshot_or_new ck : safe ck anything snapshot_or_new.
Proof.
  unfold snapshot_or_new. eapply safe_bind; [apply (safe_gets _ anything); done|]. intros t _. destruct t.
  - by apply safe_gets.
  - apply safe_backend; [intros b; constructor|done].
Qed.

Lemma safe_refresh ck ts names : safe ck anything (refresh_stats cfg ts names).
Proof.
  induction names as [|name names IH]; cbn; [by apply safe_ret|].
  eapply safe_bind; [apply (safe_gets _ anything); done|]. intros [t|] _; [|done]. destruct (needs_analyze _ t); [|done].
  eapply safe_bind; [apply safe_collect|]. intros _ _. eapply safe_bind; [exact IH|]. intros ? _. by apply safe_ret.
Qed.

Lemma safe_auto_analyze ck names : safe ck anything (maybe_auto_analyze cfg names).
Proof.
  unfold maybe_auto_analyze. destruct (_ || _); [by apply safe_ret|].
  eapply safe_bind; [apply safe_snapshot_or_new|]. intros ts _. eapply safe_bind; [apply safe_refresh|].
  intros [] _; [apply safe_forget|by apply safe_ret].
Qed.

(** ** Subqueries *)

Lemma safe_run_now ck first plan : select_plan plan -> safe ck anything (run_now first plan).
Proof.
  intros S p p' r E I. unfold run_now in E. set (b0 := if be_in_transaction (p_backend p) then _ else _) in E.
  pose proof (r_query ck first plan b0 S) as R. destruct (be_query first plan b0) as [b1 g]. injection E as <- <-. cbn in *.
  split_and!; auto. assert (reads ck (p_backend p) b0) as R0 by (unfold b0; destruct (be_in_transaction _); constructor).
  eapply r_trans; [exact R0|]. eapply r_trans; [exact R|]. constructor.
Qed.

Lemma safe_plan_select ck q : safe ck select_plan (backend (be_plan (SelectQ q))).
Proof. apply safe_backend; [intros b; constructor|]. intros b b' plan E. by exists q, b, b'. Qed.

Lemma safe_resolve_in ck nested under_not i :
  (forall q, safe ck anything (nested q)) -> safe ck anything (resolve_in nested under_not i).
Proof.
  intros N. unfold resolve_in. destruct (in_subquery i); [|by apply safe_ret].
  destruct (in_subquery (decorrelate under_not i)) as [q0|]; [|by apply safe_ret].
  destruct (subquery_is_correlated q0); [by apply safe_ret|].
  eapply safe_bind; [apply N|]. intros q' _. eapply safe_bind; [apply safe_plan_select|]. intros plan S.
  eapply safe_bind; [by apply safe_run_now|]. intros g _. eapply safe_bind; [by apply (safe_lift _ anything)|]. intros vals _. by apply safe_ret.
Qed.

Lemma safe_resolve_bool ck nested under_not b :
  (forall q, safe ck anything (nested q)) -> safe ck anything (resolve_bool nested under_not b).
Proof.
  intros N. revert under_not. induction b as [c|i|bt|l x Hl Hx|l x Hl Hx|l Hl] using BoolExpr_parts; intros un; cbn [resolve_bool].
  all: try by apply safe_ret.
  - destruct i; [by apply safe_resolve_in|by apply safe_ret].
  - eapply safe_bind with (Q' := anything).
    { destruct l; [|by apply safe_ret]. eapply safe_bind; [apply Hl|]. intros ? _. by apply safe_ret. }
    intros l' _. eapply safe_bind with (Q' := anything).
    { destruct x; [|by apply safe_ret]. eapply safe_bind; [apply Hx|]. intros ? _. by apply safe_ret. }
    intros x' _. by apply safe_ret.
  - eapply safe_bind with (Q' := anything).
    { destruct l; [|by apply safe_ret]. eapply safe_bind; [apply Hl|]. intros ? _. by apply safe_ret. }
    intros l' _. eapply safe_bind with (Q' := anything).
    { destruct x; [|by apply safe_ret]. eapply safe_bind; [apply Hx|]. intros ? _. by apply safe_ret. }
    intros x' _. by apply safe_ret.
  - eapply safe_bind with (Q' := anything).
    { destruct l; [|by apply safe_ret]. eapply safe_bind; [apply Hl|]. intros ? _. by apply safe_ret. }
    intros l' _. by apply safe_ret.
Qed.

Lemma safe_resolve_query ck n q : safe ck anything (resolve_query n q).
Proof.
  revert q. induction n as [|n IH]; intros q; cbn; (destruct (sel_where (core q)); [|by apply safe_ret]); [apply safe_throw|].
  eapply safe_bind; [apply safe_resolve_bool, IH|]. intros ? _. by apply safe_ret.
Qed.

(** A statement keeps its kind. *)
Definition same_kind (s s' : Stmt) : Prop :=
  is_select s' = is_select s /\ is_write_statement s' = is_write_statement s /\ is_ddl s' = is_ddl s.

Lemma safe_resolve ck s : safe ck (same_kind s) (resolve_if_needed s).
Proof.
  unfold resolve_if_needed. destruct (stmt_has_subquery s); [|by apply safe_ret].
  destruct s; unfold resolve_subqueries; try by apply safe_ret.
  - eapply safe_bind; [apply safe_resolve_query|]. intros ? _. by apply safe_ret.
  - destruct where_; [|by apply safe_ret]. eapply safe_bind; [apply safe_resolve_bool, safe_resolve_query|]. intros ? _. by apply safe_ret.
  - destruct where_; [|by apply safe_ret]. eapply safe_bind; [apply safe_resolve_bool, safe_resolve_query|]. intros ? _. by apply safe_ret.
Qed.

(** ** SELECT and EXPLAIN *)

(** What is run when the rows are consumed is the plan of a SELECT. *)
Definition rows_of_select (q : ProcessedQuery (Plan := Plan)) : Prop :=
  match q with Rows plan => select_plan plan | _ => True end.

Lemma safe_prepare ck : safe ck anything (backend (be_prepare true)).
Proof. apply safe_backend; [intros b; constructor|done]. Qed.

Lemma safe_cached_plan ck sql s cacheable : is_select s = true -> safe ck select_plan (cached_plan sql s cacheable).
Proof.
  intros S. destruct s; try done. unfold cached_plan. destruct cacheable; [|apply safe_plan_select].
  eapply safe_bind; [apply (safe_gets _ anything); done|]. intros fp _.
  eapply safe_bind with (Q' := fun hit => match hit with Some plan => select_plan plan | None => True end).
  - intros p p' r E I. unfold cache_lookup in E. destruct (cache_entries (p_cache p) !! normalize_sql sql) as [[plan f]|] eqn:K.
    + destruct (f =? fp); injection E as <- <-; cbn; split_and!; try done; try apply r_refl.
      * by apply (I _ _ K).
      * intros key e Ke. cbn in Ke. apply lookup_delete_Some in Ke as [_ Ke]. by apply (I key).
    + injection E as <- <-. cbn. auto with corodb.
  - intros [plan|] Hp; [by apply safe_ret|]. eapply safe_bind; [apply safe_plan_select|]. intros plan Sp.
    eapply safe_bind with (Q' := anything); [|intros ? _; by apply safe_ret].
    intros p p' r [= <- <-] I. cbn. split_and!; auto with corodb. intros key e. unfold cache_insert. cbn.
    destruct (evict _ _ _) as [m l] eqn:V. cbn. intros Ke.
    destruct (decide (key = normalize_sql sql)) as [->|Nk]; [rewrite lookup_insert_eq in Ke; by injection Ke as <-|].
    rewrite lookup_insert_ne in Ke by done. apply (I key). by eapply evict_subset.
Qed.

Context {Laws : PlanLaws}.

Lemma safe_select ck sql s : is_select s = true -> safe ck rows_of_select (run_planned cfg sql s).
Proof.
  intros S. unfold run_planned. apply safe_catch.
  - rewrite S. eapply safe_bind; [apply safe_auto_analyze|]. intros _ _.
    eapply safe_bind; [apply safe_resolve|]. intros s' (S' & _ & D'). rewrite S in S'.
    assert (is_ddl s' = false) as -> by (by destruct s').
    eapply safe_bind; [by apply (safe_ret _ anything)|]. intros _ _. eapply safe_bind; [apply (safe_gets _ anything); done|]. intros t _.
    rewrite S', andb_false_r. cbn [andb with_lock]. eapply safe_bind; [by apply safe_cached_plan|]. intros plan Sp.
    unfold dispatch_plan. rewrite (select_not_utility _ Sp), S'. eapply safe_bind; [apply safe_prepare|]. intros _ _. by apply safe_ret.
  - intros w p p' r [= <- <-] I. destruct (be_in_transaction (p_backend p)); split_and!; auto with corodb.
Qed.

Lemma safe_explain ck inner a : is_write_statement inner = false -> safe ck rows_of_select (explain inner a).
Proof.
  intros W. unfold explain. eapply safe_bind; [apply safe_resolve|]. intros s (_ & W' & _). rewrite W in W'.
  destruct (is_dml_or_select s && negb (has_unions s)) eqn:D.
  - apply andb_prop in D as [D _]. destruct s as [q| | | | | | | | | | | | | | | | | | | | | | |]; try done.
    eapply safe_bind with (Q' := fun tp => explained_select tp.2).
    { apply safe_backend; [intros b; constructor|]. intros b b' [t plan] E. by exists q, b, b', t. }
    intros [t plan] Sp. destruct a; [|by apply safe_ret]. eapply safe_bind; [apply safe_prepare|]. intros _ _.
    apply safe_catch; [|intros w; by apply safe_ret]. eapply safe_bind with (Q' := anything); [|intros ? _; by apply safe_ret].
    apply safe_backend; [|done]. intros b. by constructor.
  - eapply safe_bind with (Q' := anything); [apply safe_backend; [intros b; constructor|done]|]. intros ? _. by apply safe_ret.
Qed.

(** ** The gates *)

Definition answers_safely (r : ProcessedQuery (Plan := Plan) + bytes) : Prop :=
  match r with inl q => rows_of_select q | inr _ => False end.

Lemma safe_answer ck (m : QP ProcessedQuery) : safe ck rows_of_select m -> safe ck answers_safely (q ← m; mret (inl q)).
Proof. intros M. eapply safe_bind; [exact M|]. intros q Hq. by apply safe_ret. Qed.

Lemma safe_control ck c : (c = CommitStmt -> Commits ∈ ck) -> safe ck rows_of_select (m ← backend (be_control c); mret (Message m)).
Proof.
  intros Hc. eapply safe_bind with (Q' := anything); [apply safe_backend; [intros b; by constructor|done]|]. intros ? _. by apply safe_ret.
Qed.

(** What [run_stmt] does with an admitted statement that does not write. *)
Lemma safe_read ck salt sql s p p' r :
  (control_of s = Some CommitStmt -> Commits ∈ ck) -> admit_stmt cfg salt s p = (p, Ok None) -> is_read s = true -> run_stmt cfg salt sql s p = (p', r) -> cache_selects p ->
  reads ck (p_backend p) (p_backend p') /\ cache_selects p' /\ p_users p' = p_users p /\ p_login p' = p_login p /\
  match r with Ok a => answers_safely a | _ => True end.
Proof.
  intros Hc A R E I. unfold run_stmt in E. rewrite (st_bind_Ok _ _ _ _ _ A) in E. revert p p' r E I A.
  assert (G : forall m : QP (ProcessedQuery + bytes), safe ck answers_safely m -> forall p p' r, m p = (p', r) -> cache_selects p ->
    admit_stmt cfg salt s p = (p, Ok None) ->
    reads ck (p_backend p) (p_backend p') /\ cache_selects p' /\ p_users p' = p_users p /\ p_login p' = p_login p /\
    match r with Ok a => answers_safely a | _ => True end).
  { intros m M p p' r E I _. by apply (M p p' r). }
  destruct (control_of s) eqn:C; [apply G, safe_answer, safe_control; intros ->; by apply Hc|].
  destruct s; try done.
  - apply G. eapply safe_bind; [apply (safe_gets _ anything); done|]. intros f _. destruct f; [apply safe_throw|]. by apply safe_answer, safe_select.
  - apply G. apply safe_answer. by apply safe_gets.
  - intros p p' r E I A. exfalso. clear E. unfold admit_stmt, mbind, st_bind, gets, throw, modify, mret, st_ret in A.
    destruct (read_only cfg && _); [done|]. by destruct (negb (authenticate _ _ _ _)).
  - apply G. eapply safe_bind; [apply (safe_gets _ anything); done|]. intros f _. destruct f; [apply safe_throw|].
    apply safe_answer, safe_explain. cbn in R. by apply negb_true_iff in R.
Qed.

Lemma parse_run salt sql p p' r :
  run_impl cfg salt sql p = (p', r) ->
  (p' = p /\ is_ok r = false) \/ exists s rest, parse sql = Got s rest /\ run_stmt cfg salt sql s p = (p', r).
Proof.
  unfold run_impl. destruct (parse sql) as [s rest|w|] eqn:E; [right; by exists s, rest|..]; intros [= <- <-]; by left.
Qed.

(** The gate itself: a statement passes with nothing changed, is answered, or is
    refused with nothing changed. *)
Lemma admit_cases salt s p :
  (admit_stmt cfg salt s p = (p, Ok None)) \/
  (exists name password role us, s = CreateUser name password role /\ admit_stmt cfg salt s p = (set_users us p, Ok (Some (Message (str "CREATE USER")))) /\
     (has_users (p_users p) = true -> authenticated (p_login p) = true /\ role_of (p_users p) (auth_user (p_login p)) = Admin)) \/
  (exists name password, s = Auth name password /\ authenticate (auth_salt cfg) (p_users p) name password = true /\
     admit_stmt cfg salt s p = (set_login (mkLogin true name (role_of (p_users p) name)) p, Ok (Some (Message (str "AUTH OK"))))) \/
  (exists r, admit_stmt cfg salt s p = (p, r) /\ is_ok r = false).
Proof.
  unfold admit_stmt. destruct (read_only cfg && writes_or_explains_write s); [right; right; right; by eexists|].
  unfold mbind, st_bind, gets, throw, modify, mret, st_ret, Prelude.lift. destruct s.
  all: try by (repeat case_match; first [left; done | right; right; right; by eexists]).
  - destruct (authenticate _ _ _ _) eqn:Au; cbn; [right; right; left; by exists username, password|right; right; right; by eexists].
  - destruct (has_users (p_users p)) eqn:Hu; cbn.
    + destruct (authenticated (p_login p)) eqn:Ha; cbn; [|right; right; right; by eexists].
      destruct (role_of (p_users p) (auth_user (p_login p))) eqn:Hr; cbn; [|right; right; right; by eexists..].
      destruct (add_user _ _ _ _ _ _) as [us|w|w]; [right; left; by exists username, password, role, us|right; right; right; by eexists..].
    + destruct (add_user _ _ _ _ _ _) as [us|w|w]; [right; left; by exists username, password, role, us|right; right; right; by eexists..].
Qed.

Lemma run_not_admitted salt sql s p p1 x :
  admit_stmt cfg salt s p = (p1, x) -> (forall a, x = Ok a -> exists q, a = Some q) ->
  exists r, run_stmt cfg salt sql s p = (p1, r) /\ is_ok r = is_ok x /\ (forall a, r = Ok a -> exists q, x = Ok (Some q) /\ a = inl q).
Proof.
  intros E X. unfold run_stmt, mbind, st_bind. rewrite E. destruct x as [a|w|w]; [|by eexists..].
  destruct (X a eq_refl) as [q ->]. eexists. split_and!; [reflexivity|done|]. intros a [= <-]. by exists q.
Qed.

(** Admission of a session of the role [read_only]. *)
Lemma read_only_admits salt s p :
  has_users (p_users p) = true -> authenticated (p_login p) = true -> auth_role (p_login p) = ReadOnly ->
  admit_stmt cfg salt s p = (p, Ok None) -> is_read s = true.
Proof.
  intros U A R. unfold admit_stmt, mbind, st_bind, gets, throw, modify, mret, st_ret, Prelude.lift. destruct (read_only cfg && _); [done|].
  destruct s; rewrite ?U, ?A, ?R; cbn; try done.
  - by destruct (add_user _ _ _ _ _ _); destruct (role_of _ _).
  - by destruct (is_write_statement s).
Qed.

Lemma anonymous_admits salt s p :
  has_users (p_users p) = true -> authenticated (p_login p) = false -> admit_stmt cfg salt s p <> (p, Ok None).
Proof.
  intros U A. unfold admit_stmt, mbind, st_bind, gets, throw, modify, mret, st_ret, Prelude.lift. destruct (read_only cfg && _); [done|].
  destruct s; rewrite ?U, ?A; cbn; try done. by destruct (authenticate _ _ _ _).
Qed.

Lemma replica_admits salt s p :
  read_only cfg = true -> admit_stmt cfg salt s p = (p, Ok None) -> writes_or_explains_write s = false.
Proof. intros R. unfold admit_stmt. rewrite R. by destruct (writes_or_explains_write s). Qed.

Lemma safe_modify_prepared ck (f : Processor -> Processor) :
  (forall p, p_backend (f p) = p_backend p /\ p_cache (f p) = p_cache p /\ p_users (f p) = p_users p /\ p_login (f p) = p_login p) ->
  safe ck anything (modify f).
Proof.
  intros F p p' r [= <- <-] I. destruct (F p) as (Eb & Ec & Eu & El). split_and!; try done.
  - rewrite Eb. constructor.
  - unfold cache_selects. by rewrite Ec.
Qed.

Lemma safe_message ck s : safe ck rows_of_select (message s).
Proof. by apply safe_ret. Qed.

Lemma safe_prepare_stmt ck name sql : safe ck rows_of_select (prepare_stmt name sql).
Proof.
  unfold prepare_stmt. eapply safe_bind with (Q' := anything); [|intros ? _; apply safe_message].
  destruct (existsb _ sql); [by apply safe_modify_prepared|]. destruct (parse sql) as [s rest|w|]; [|apply safe_throw|by apply safe_lift].
  eapply safe_bind; [apply safe_resolve|]. intros s' _.
  eapply safe_bind with (Q' := anything); [apply safe_backend; [intros b; constructor|done]|]. intros plan _. by apply safe_modify_prepared.
Qed.

(** An admitted statement of a replica, EXECUTE apart. *)
Lemma safe_replica salt sql s :
  writes_or_explains_write s = false -> match s with Execute _ _ | Auth _ _ | CreateUser _ _ _ => False | _ => True end ->
  forall p p' r, admit_stmt cfg salt s p = (p, Ok None) -> run_stmt cfg salt sql s p = (p', r) -> cache_selects p ->
  reads [Commits; Checkpoints] (p_backend p) (p_backend p') /\ match r with Ok a => answers_safely a | _ => True end.
Proof.
  intros W K p p' r A E I. unfold run_stmt in E. rewrite (st_bind_Ok _ _ _ _ _ A) in E.
  assert (G : forall m : QP (ProcessedQuery + bytes), safe [Commits; Checkpoints] answers_safely m -> m p = (p', r) ->
    reads [Commits; Checkpoints] (p_backend p) (p_backend p') /\ match r with Ok a => answers_safely a | _ => True end).
  { intros m M X. by destruct (M p p' r X I) as (? & _ & _ & _ & ?). }
  revert E. destruct (control_of s) eqn:C; [apply G, safe_answer, safe_control; intros _; apply list_elem_of_here|]. destruct s; try done.
  - apply G. eapply safe_bind; [apply (safe_gets _ anything); done|]. intros f _. destruct f; [apply safe_throw|]. by apply safe_answer, safe_select.
  - apply G, safe_answer. eapply safe_bind with (Q' := anything); [|intros ? _; apply safe_message].
    apply safe_backend; [|done]. intros b. constructor. apply list_elem_of_further, list_elem_of_here.
  - apply G, safe_answer. by apply safe_gets.
  - apply G, safe_answer, safe_prepare_stmt.
  - apply G, safe_answer. unfold deallocate_stmt.
    destruct (bool_decide _); (eapply safe_bind; [by apply safe_modify_prepared|]; intros ? _; apply safe_message).
  - apply G. eapply safe_bind; [apply (safe_gets _ anything); done|]. intros f _. destruct f; [apply safe_throw|].
    by apply safe_answer, safe_explain.
Qed.

Lemma admit_none salt s p :
  admit_stmt cfg salt s p = (p, Ok None) -> match s with Auth _ _ | CreateUser _ _ _ => False | _ => True end.
Proof.
  unfold admit_stmt, mbind, st_bind, gets, throw, modify, mret, st_ret, Prelude.lift. destruct (read_only cfg && _); [done|].
  destruct s; try done; [by destruct (authenticate _ _ _ _)|]. destruct (has_users _ && _); [done|]. by case_match.
Qed.

(** EXECUTE: another text with nothing changed, or the plan prepared. *)
Lemma execute_cases name params p p' r :
  execute_stmt name params p = (p', r) -> p_prepared p = ∅ -> p' = p /\ match r with Ok (inl _) => False | _ => True end.
Proof.
  unfold execute_stmt, mbind, st_bind, gets, mret, st_ret, Prelude.lift, throw. intros E P.
  destruct (p_prepared_sql p !! name) as [t|]; [destruct (substitute_params t params); by injection E as <- <-|].
  rewrite P, lookup_empty in E. by injection E as <- <-.
Qed.

End Safety.
Arguments PlanLaws : clear implicits. Arguments PlanLaws B Plan {BE}.

(** C8: once there are users, a session that has not logged in can do nothing but
    log in: whatever text it sends, either the processor refuses and nothing at
    all has changed, or the text was an AUTH with the right password, and the only
    change is that the session is that user, with the user's role. *)
Theorem anonymous_session_shut_out {B Plan} `{Backend B Plan} cfg salt sql (p p' : Processor (B := B) (Plan := Plan)) r :
  has_users (p_users p) = true -> authenticated (p_login p) = false -> run_impl cfg salt sql p = (p', r) ->
  (p' = p /\ is_ok r = false) \/
  exists name password rest, parse sql = Got (Auth name password) rest /\
    authenticate (auth_salt cfg) (p_users p) name password = true /\ p' = set_login (mkLogin true name (role_of (p_users p) name)) p.
Proof.
  intros U A E. apply parse_run in E as [?|(s & rest & Ps & E)]; [by left|].
  destruct (admit_cases cfg salt s p) as [X|[(n & w & ro & us & -> & X & G)|[(n & w & -> & Au & X)|(x & X & O)]]].
  - by destruct (anonymous_admits cfg salt s p U A).
  - rewrite A in G. by destruct (G U).
  - right. exists n, w, rest. split_and!; [done|done|].
    destruct (run_not_admitted cfg salt sql _ p _ _ X) as (r' & E' & _); [intros a [= <-]; by eexists|]. rewrite E in E'. by injection E' as <- _.
  - left. destruct (run_not_admitted cfg salt sql _ p _ _ X) as (r' & E' & O' & _); [intros a ->; done|].
    rewrite E in E'. injection E' as <- <-. by rewrite O'.
Qed.

(** A read-only session may always commit. *)
Lemma read_only_commit {B Plan} `{Backend B Plan} cfg salt (p : Processor (B := B) (Plan := Plan)) :
  has_users (p_users p) = true -> authenticated (p_login p) = true -> auth_role (p_login p) = ReadOnly ->
  admit_stmt cfg salt CommitTxn p = (p, Ok None).
Proof.
  intros U A R. unfold admit_stmt, mbind, st_bind, gets, throw, modify, mret, st_ret, Prelude.lift. cbn.
  rewrite andb_false_r. by rewrite ?U, ?A, ?R.
Qed.

(** C6: a session of the role [read_only] writes nothing of its own.  A COMMIT does
    what COMMIT does (it may install rows that the session buffered before it logged
    in as this user) and nothing else; any other text takes the backend only through
    steps that do not write: BEGIN, ROLLBACK, savepoints, timestamps, statistics,
    planning, and running plans of SELECTs.  Rows it returns come from the plan of
    a SELECT, no prepared text is run, the cache still holds only plans of SELECTs,
    and the users stay as they are unless the user of the session has been made an
    administrator since it logged in. *)
Theorem read_only_session_only_reads {B Plan} `{Backend B Plan} `{!PlanLaws B Plan} cfg salt sql (p p' : Processor (B := B) (Plan := Plan)) r :
  has_users (p_users p) = true -> authenticated (p_login p) = true -> auth_role (p_login p) = ReadOnly ->
  cache_selects p -> run_impl cfg salt sql p = (p', r) ->
  match parse sql with
  | Got CommitTxn _ => p_backend p' = (be_control CommitStmt (p_backend p)).1
  | _ => reads [] (p_backend p) (p_backend p')
  end /\ cache_selects p' /\
  (role_of (p_users p) (auth_user (p_login p)) <> Admin -> p_users p' = p_users p) /\
  match r with Ok (inl (Rows plan)) => select_plan plan | Ok (inr _) => False | _ => True end.
Proof.
  intros U A R I E. destruct (match parse sql with Got CommitTxn _ => true | _ => false end) eqn:Cm.
  { unfold run_impl in E. destruct (parse sql) as [s rest|w|]; [|done..]. destruct s; try done.
    unfold run_stmt in E. rewrite (st_bind_Ok _ _ _ _ _ (read_only_commit cfg salt p U A R)) in E. cbn [control_of] in E.
    unfold mbind, st_bind, backend in E. destruct (be_control CommitStmt (p_backend p)) as [b x] eqn:Eb. cbn.
    destruct x; injection E as <- <-; by split_and!. }
  assert (Hm : forall b', reads [] (p_backend p) b' ->
    match parse sql with Got CommitTxn _ => b' = (be_control CommitStmt (p_backend p)).1 | _ => reads [] (p_backend p) b' end).
  { intros b' Hb. destruct (parse sql) as [[] rest| |]; done. }
  apply parse_run in E as [[-> O]|(s & rest & Ps & E)]; [destruct r; by (split_and!; [apply Hm; constructor|..])|].
  destruct (admit_cases cfg salt s p) as [X|[(n & w & ro & us & -> & X & G)|[(n & w & -> & Au & X)|(x & X & O)]]].
  - pose proof (read_only_admits cfg salt s p U A R X) as Rd.
    assert (Nc : control_of s = Some CommitStmt -> Commits ∈ []) by (intros C; rewrite Ps in Cm; by destruct s).
    destruct (safe_read cfg [] salt sql s p p' r Nc X Rd E I) as (? & ? & ? & _ & Q). split_and!; try done. by apply Hm.
  - destruct (run_not_admitted cfg salt sql _ p _ _ X) as (r' & E' & O' & Q); [intros a [= <-]; by eexists|]. rewrite E in E'.
    injection E' as -> ->. split_and!; [apply Hm; constructor|done|intros N; by destruct (G U)|].
    destruct r' as [a|?|?]; [|done..]. by destruct (Q a eq_refl) as (q & [= <-] & ->).
  - destruct (run_not_admitted cfg salt sql _ p _ _ X) as (r' & E' & O' & Q); [intros a [= <-]; by eexists|]. rewrite E in E'.
    injection E' as -> ->. split_and!; [apply Hm; constructor|done|done|].
    destruct r' as [a|?|?]; [|done..]. by destruct (Q a eq_refl) as (q & [= <-] & ->).
  - destruct (run_not_admitted cfg salt sql _ p _ _ X) as (r' & E' & O' & Q); [intros a ->; done|].
    rewrite E in E'. injection E' as -> ->. split_and!; [apply Hm; constructor|done|done|]. rewrite O in O'. by destruct r'.
Qed.

(** C7: a read-only replica changes no data for a session that has no plan
    prepared without parameters.  Whatever text it runs, through any number of
    prepared texts, the backend goes only through steps that do not write, COMMIT
    and CHECKPOINT counted in, and rows come from the plan of a SELECT. *)
Theorem replica_only_reads {B Plan} `{Backend B Plan} `{!PlanLaws B Plan} cfg salt fuel sql (p p' : Processor (B := B) (Plan := Plan)) r :
  read_only cfg = true -> p_prepared p = ∅ -> cache_selects p -> run cfg fuel salt sql p = (p', r) ->
  reads [Commits; Checkpoints] (p_backend p) (p_backend p') /\
  match r with Ok (Some (Rows plan)) => select_plan plan | _ => True end.
Proof.
  intros R P I. revert sql p' r. induction fuel as [|fuel IH]; intros sql p' r E; cbn in E; [injection E as <- <-; by split; [constructor|]|].
  unfold mbind, st_bind in E. destruct (run_impl cfg salt sql p) as [p1 x] eqn:E1.
  apply parse_run in E1 as [[-> O]|(s & rest & Ps & E1)]; [destruct x; try done; injection E as <- <-; by split; [constructor|]|].
  destruct (admit_cases cfg salt s p) as [X|[(n & w & ro & us & -> & X & G)|[(n & w & -> & Au & X)|(y & X & O)]]].
  2, 3: destruct (run_not_admitted cfg salt sql _ p _ _ X) as (r' & E' & O' & Q); [intros a [= <-]; by eexists|];
    rewrite E1 in E'; injection E' as -> ->; destruct r' as [a|?|?]; [destruct (Q a eq_refl) as (q & [= <-] & ->)|..];
    injection E as <- <-; by split; [constructor|].
  2: { destruct (run_not_admitted cfg salt sql _ p _ _ X) as (r' & E' & O' & Q); [intros a ->; done|].
       rewrite E1 in E'. injection E' as -> ->. rewrite O in O'. destruct r'; [done|..]; injection E as <- <-; by split; [constructor|]. }
  pose proof (replica_admits cfg salt s p R X) as W.
  pose proof (admit_none cfg salt s p X) as K.
  destruct (match s with Execute n ps => Some (n, ps) | _ => None end) as [[name params]|] eqn:Ex.
  - destruct s; try done. injection Ex as <- <-. unfold run_stmt in E1. rewrite (st_bind_Ok _ _ _ _ _ X) in E1. cbn [control_of] in E1.
    apply execute_cases in E1 as [-> Q]; [|done].
    destruct x as [[q|text]|?|?]; [done|by apply (IH text)|..]; injection E as <- <-; by split; [constructor|].
  - destruct (safe_replica cfg salt sql s W ltac:(by destruct s) p p1 x X E1 I) as [Rd Q].
    destruct x as [[q|text]|?|?]; [|done|..]; injection E as <- <-; [|done..]. by destruct q.
Qed.

(** * A backend that records what it is asked

    Plans are the statements themselves; the state is the list of the requests
    that could write. *)
Inductive Request := ReqControl (c : ControlStmt) | ReqPlan (s : Stmt) | ReqDrain (s : Stmt) | ReqUtility (s : Stmt) | ReqBackup | ReqCheckpoint.

#[export] Instance recorder : Backend (list Request) Stmt := {
  be_control c b := (b ++ [ReqControl c], Ok []);
  be_prepare _ b := (b, Ok tt);
  be_in_transaction _ := false;
  be_failed _ := false;
  be_mark_failed b := b;
  be_snapshot _ := 0;
  be_set_snapshot _ b := b;
  be_allocate_ts b := (b, Ok 1);
  be_active _ := O;
  be_checkpoint b := (b ++ [ReqCheckpoint], Ok tt);
  be_backup _ b := (b ++ [ReqBackup], Ok []);
  be_tables _ := [];
  be_info _ _ := None;
  be_collect _ _ b := (b, Ok tt);
  be_plan s b := (b ++ [ReqPlan s], Ok s);
  be_explain_plan s b := (b, Ok ([], s));
  be_query _ _ b := (b, ([], Ok tt));
  be_drain s b := (b ++ [ReqDrain s], Ok tt);
  be_is_utility s := match s with Create _ _ | CreateIndex _ _ _ | DropTable _ _ | DropIndex _ _ _ => true | _ => false end;
  be_utility s b := (b ++ [ReqUtility s], Ok tt);
  be_lock _ b := (b, Ok tt);
  be_unlock _ b := b
}.

#[export] Instance recorder_laws : PlanLaws (list Request) Stmt.
Proof. constructor. intros plan (q & b & b' & E). by injection E as _ <-. Qed.

Definition ex_cfg (replica : bool) : Config := mkConfig replica [] 2 (dbl_of_int 1).
Definition ex_users : Users := {[ str "ann" := mkUser [] Admin; str "bob" := mkUser [] ReadOnly ]}.
Definition fresh (l : Login) : Processor (B := list Request) (Plan := Stmt) := mkProc [] ex_users (empty_cache 8) l ∅ ∅.
Definition ex_bob : Processor := fresh (mkLogin true (str "bob") ReadOnly).
Definition ex_ann : Processor := fresh (mkLogin true (str "ann") Admin).
Definition ex_nobody : Processor := fresh (mkLogin false [] ReadWrite).

(** Running texts one after the other; the last answer. *)
Fixpoint run_texts (cfg : Config) (sqls : list string) (p : Processor (B := list Request) (Plan := Stmt)) (last : res (option ProcessedQuery)) :
    Processor (B := list Request) (Plan := Stmt) * res (option ProcessedQuery) :=
  match sqls with
  | [] => (p, last)
  | sql :: sqls => let '(p, r) := run cfg 3 [] (str sql) p in run_texts cfg sqls p r
  end.

Lemma fresh_cache l : cache_selects (fresh l).
Proof. intros key e E. cbn in E. by rewrite lookup_empty in E. Qed.

Lemma anonymous_session_shut_out_witness :
  let r := run_impl (ex_cfg false) [] (str "DELETE FROM t") ex_nobody in r.1 = ex_nobody /\ is_ok r.2 = false.
Proof.
  cbv zeta. destruct (anonymous_session_shut_out (ex_cfg false) [] (str "DELETE FROM t") ex_nobody
    (run_impl (ex_cfg false) [] (str "DELETE FROM t") ex_nobody).1 (run_impl (ex_cfg false) [] (str "DELETE FROM t") ex_nobody).2)
    as [H|(n & w & rest & P & _)]; [vm_compute; reflexivity|reflexivity|apply surjective_pairing|exact H|].
  vm_compute in P. discriminate.
Defined.

Lemma read_only_session_only_reads_witness :
  let r := run_impl (ex_cfg false) [] (str "SELECT a FROM t WHERE a = 1") ex_bob in
  reads [] (p_backend ex_bob) (p_backend r.1).
Proof.
  set (r := run_impl (ex_cfg false) [] (str "SELECT a FROM t WHERE a = 1") ex_bob). cbv zeta.
  assert (U : has_users (p_users ex_bob) = true) by (vm_compute; reflexivity).
  exact (proj1 (read_only_session_only_reads (ex_cfg false) [] (str "SELECT a FROM t WHERE a = 1") ex_bob r.1 r.2
    U eq_refl eq_refl (fresh_cache _) (surjective_pairing r))).
Defined.

Lemma replica_only_reads_witness :
  let r := run (ex_cfg true) 3 [] (str "UPDATE t SET a = 1") ex_ann in
  reads [Commits; Checkpoints] (p_backend ex_ann) (p_backend r.1).
Proof.
  set (r := run (ex_cfg true) 3 [] (str "UPDATE t SET a = 1") ex_ann). cbv zeta.
  exact (proj1 (replica_only_reads (ex_cfg true) [] 3 (str "UPDATE t SET a = 1") ex_ann r.1 r.2
    eq_refl eq_refl (fresh_cache _) (surjective_pairing r))).
Defined.

(** * Where the processor does not do what it says *)

Definition answer_of (sqls : list string) (replica : bool) : res (option ProcessedQuery) := (run_texts (ex_cfg replica) sqls ex_ann (Ok None)).2.

(** On a replica, a write prepared without parameters is planned and then run. *)
Lemma replica_prepare_anomaly :
  answer_of ["DELETE FROM t"] true = Throw "[Replica] Read-only replica: data modification statements are not accepted" /\
  answer_of ["PREPARE d FROM 'DELETE FROM t'"; "EXECUTE d"] true = Ok (Some (Rows (Delete (str "t") None))).
Proof. split; by vm_compute. Qed.

(** Two queries that differ in the letters of a string share a cached plan. *)
Lemma plan_cache_case_anomaly :
  answer_of ["SELECT a FROM t WHERE a = 'x'"; "SELECT a FROM t WHERE a = 'X'"] false = answer_of ["SELECT a FROM t WHERE a = 'x'"] false /\
  answer_of ["SELECT a FROM t WHERE a = 'X'"] false <> answer_of ["SELECT a FROM t WHERE a = 'x'"] false.
Proof. split; [by vm_compute|]. vm_compute. intros E. discriminate E. Qed.

(** DROP INDEX leaves the cached plans, which may use that index: the second
    SELECT is not planned again. *)
Lemma drop_index_anomaly :
  p_backend (run_texts (ex_cfg false) ["SELECT a FROM t WHERE a = 1"; "DROP INDEX i ON t"; "SELECT a FROM t WHERE a = 1"]%string ex_ann (Ok None)).1 =
  p_backend (run_texts (ex_cfg false) ["SELECT a FROM t WHERE a = 1"; "DROP INDEX i ON t"]%string ex_ann (Ok None)).1.
Proof. by vm_compute. Qed.

(** A string parameter is not quoted again: it ends the literal it is put into. *)
Lemma execute_quote_anomaly :
  substitute_params (str "SELECT a FROM t WHERE a = ?") [VText (str "x' OR a = 'y")] = Ok (str "SELECT a FROM t WHERE a = 'x' OR a = 'y'").
Proof. by vm_compute. Qed.

(** A prepared text that executes itself never ends. *)
Lemma execute_loops fuel :
  let p := (run_texts (ex_cfg false) ["PREPARE l FROM 'EXECUTE l (?)'"] ex_ann (Ok None)).1 in
  (run (ex_cfg false) fuel [] (str "EXECUTE l (1)") p).2 = Ok None.
Proof.
  cbv zeta. set (p := (run_texts _ _ _ _).1).
  assert (E : run_impl (ex_cfg false) [] (str "EXECUTE l (1)") p = (p, Ok (inr (str "EXECUTE l (1)")))) by by vm_compute.
  induction fuel as [|fuel IH]; [done|]. cbn [run]. by rewrite (st_bind_Ok _ _ _ _ _ E).
Qed.

(** DEALLOCATE does not forget a prepared text with parameters. *)
Lemma deallocate_anomaly :
  is_ok (answer_of ["PREPARE q FROM 'SELECT a FROM t WHERE a = ?'"; "DEALLOCATE PREPARE q"; "EXECUTE q (1)"] false) = true.
Proof. by vm_compute. Qed.
