(* ===== verification/Replication.v ===== *)
(** Log shipping, [src/replication/replication.cpp]: the records and their frames,
    the hub of the primary with a queue per follower, and the receiving loop of a
    follower, as steps of a system in which bytes arrive in order but senders and
    followers run at their own pace. *)
From Stdlib Require Import ZArith Lia Strings.Byte.
From stdpp Require Import base numbers list strings relations.
From S2P Require Import Prelude Values Codec Engine.
Local Open Scope Z_scope.

(** * Records and frames *)

(** The length of a name in one byte. *)
Definition name_field (table : bytes) : bytes := z2b (blen table) :: table.
Definition long_field (b : bytes) : bytes := le_enc 4 (u32 (blen b)) ++ b.

Definition serialize (r : ReplicationRecord) : bytes :=
  match r with
  | ApplyRow t ts w => z2b 1 :: name_field t ++ le_enc 8 ts ++ long_field w
  | ApplyDelete t ts w => z2b 2 :: name_field t ++ le_enc 8 ts ++ long_field w
  | Commit ts => z2b 3 :: le_enc 8 ts
  | CreateTable t cols => z2b 4 :: name_field t ++ long_field (serialize_schema cols)
  | DropTable t => z2b 5 :: name_field t
  end.

Definition frame (r : ReplicationRecord) : bytes := long_field (serialize r).

(** Reading: [n] bytes if they are there. *)
Definition read_bytes (n : nat) (p : bytes) : option (bytes * bytes) :=
  if (n <=? length p)%nat then Some (take n p, drop n p) else None.
Definition read_uint (n : nat) (p : bytes) : option (Z * bytes) :=
  '(b, p) ← read_bytes n p; Some (le_dec b, p).
Definition read_table (p : bytes) : option (bytes * bytes) :=
  '(n, p) ← read_uint 1 p; read_bytes (Z.to_nat n) p.
Definition read_long (p : bytes) : option (bytes * bytes) :=
  '(n, p) ← read_uint 4 p; read_bytes (Z.to_nat n) p.

(** [deserialize]: no record when it returns false; reading a schema may throw. *)
Definition deserialize_row (make : bytes -> Z -> bytes -> ReplicationRecord) (p : bytes) : option ReplicationRecord :=
  '(t, p) ← read_table p; '(ts, p) ← read_uint 8 p; '(w, _) ← read_long p; Some (make t ts w).

Definition deserialize (payload : bytes) : res (option ReplicationRecord) :=
  match payload with
  | [] => Ok None
  | tag :: p =>
      match b2z tag with
      | 1 => Ok (deserialize_row ApplyRow p)
      | 2 => Ok (deserialize_row ApplyDelete p)
      | 3 => Ok ('(ts, _) ← read_uint 8 p; Some (Commit ts))
      | 4 => match ('(t, p) ← read_table p; '(s, _) ← read_long p; Some (t, s)) with
             | Some (t, s) =>
                 cols ← deserialize_schema (IStream s true) t;
                 Ok (match cols with [] => None | _ => Some (CreateTable t cols) end)
             | None => Ok None
             end
      | 5 => Ok ('(t, _) ← read_table p; Some (DropTable t))
      | _ => Ok None
      end
  end.

(** * The follower *)

(** One turn of the receiving loop on the bytes that have arrived. *)
Inductive Received := Wait | DropConnection | GotFrame (payload rest : bytes).

Definition max_frame : Z := 64 * 2 ^ 20.

Definition receive (arrived : bytes) : Received :=
  match read_uint 4 arrived with
  | None => Wait
  | Some (len, p) =>
      if (len =? 0) || (max_frame <? len) then DropConnection
      else match read_bytes (Z.to_nat len) p with Some (payload, rest) => GotFrame payload rest | None => Wait end
  end.

(** * The hub and its connections *)

(** A connection: what the hub has queued, whether it is alive, the bytes sent and
    not yet read, and the records the follower has handed to the engine.  The
    last field keeps, for the specification only, the records broadcast to it. *)
Record Client := mkClient {
  outbox : list bytes;
  alive : bool;
  wire : bytes;
  applied : list ReplicationRecord;
  shipped : list ReplicationRecord
}.

Definition new_client : Client := mkClient [] true [] [] [].

Definition enqueue (r : ReplicationRecord) (c : Client) : Client :=
  if alive c then mkClient (outbox c ++ [frame r]) true (wire c) (applied c) (shipped c ++ [r]) else c.

Definition reap_dead_clients (cs : list Client) : list Client := List.filter alive cs.

Definition broadcast (running : bool) (r : ReplicationRecord) (cs : list Client) : list Client :=
  if negb running || match cs with [] => true | _ => false end then cs
  else reap_dead_clients (map (enqueue r) cs).

(** The sender thread of a connection takes the next frame: all of it goes out, or
    the connection breaks after some bytes. *)
Definition send_frame (c : Client) : option Client :=
  match outbox c with
  | f :: rest => if alive c then Some (mkClient rest true (wire c ++ f) (applied c) (shipped c)) else None
  | [] => None
  end.
Definition send_breaks (k : nat) (c : Client) : option Client :=
  match outbox c with
  | f :: rest => if alive c then Some (mkClient rest false (wire c ++ take k f) (applied c) (shipped c)) else None
  | [] => None
  end.

(** The follower reads a frame and applies the record, or skips a payload it
    cannot decode. *)
Definition follow (c : Client) : option Client :=
  match receive (wire c) with
  | GotFrame payload rest =>
      match deserialize payload with
      | Ok (Some r) => Some (mkClient (outbox c) (alive c) rest (applied c ++ [r]) (shipped c))
      | Ok None => Some (mkClient (outbox c) (alive c) rest (applied c) (shipped c))
      | _ => None
      end
  | _ => None
  end.

Inductive step (running : bool) : list Client -> list Client -> Prop :=
| s_accept cs : step running cs (cs ++ [new_client])
| s_broadcast r cs : step running cs (broadcast running r cs)
| s_send i c c' cs : cs !! i = Some c -> send_frame c = Some c' -> step running cs (<[i := c']> cs)
| s_break i c c' k cs : cs !! i = Some c -> send_breaks k c = Some c' -> step running cs (<[i := c']> cs)
| s_follow i c c' cs : cs !! i = Some c -> follow c = Some c' -> step running cs (<[i := c']> cs).

(** * Round trips *)

(** What arrives: columns are those of the schema codec. *)
Definition arrived (r : ReplicationRecord) : ReplicationRecord :=
  match r with CreateTable t cols => CreateTable t (map (persisted_column t) cols) | _ => r end.

(** Records that fit their fields. *)
Definition record_ok (r : ReplicationRecord) : Prop :=
  blen (serialize r) <= max_frame /\
  match r with
  | ApplyRow t ts _ | ApplyDelete t ts _ => blen t < 256 /\ 0 <= ts < 2 ^ 64
  | Commit ts => 0 <= ts < 2 ^ 64
  | CreateTable t cols => blen t < 256 /\ cols <> [] /\ Forall (fun c => blen (col_name c) < 2 ^ 16) cols
  | DropTable t => blen t < 256
  end.

Lemma read_bytes_app a b : read_bytes (length a) (a ++ b) = Some (a, b).
Proof.
  unfold read_bytes. assert ((length a <=? length (a ++ b))%nat = true) as -> by (apply Nat.leb_le; rewrite length_app; lia).
  by rewrite take_app_length, drop_app_length.
Qed.

Lemma read_uint_app n z rest : 0 <= z < 2 ^ (8 * Z.of_nat n) -> read_uint n (le_enc n z ++ rest) = Some (z, rest).
Proof.
  intros Hz. unfold read_uint. replace n with (length (le_enc n z)) at 1 by apply length_le_enc.
  rewrite read_bytes_app. cbn. by rewrite le_dec_enc, Z.mod_small.
Qed.

Lemma read_long_app b rest : blen b < 2 ^ 32 -> read_long (long_field b ++ rest) = Some (b, rest).
Proof.
  intros Hb. unfold read_long, long_field, u32. pose proof (blen_nonneg b). rewrite Z.mod_small by lia.
  rewrite <- app_assoc, read_uint_app by (cbn; lia). cbn [mbind option_bind]. rewrite to_nat_blen. apply read_bytes_app.
Qed.

Lemma read_table_app t rest : blen t < 256 -> read_table (name_field t ++ rest) = Some (t, rest).
Proof.
  intros Ht. pose proof (blen_nonneg t). unfold read_table, name_field. change ((z2b (blen t) :: t) ++ rest) with (le_enc 1 (blen t) ++ t ++ rest).
  rewrite read_uint_app by (cbn; lia). cbn [mbind option_bind]. rewrite to_nat_blen. apply read_bytes_app.
Qed.

Lemma blen_long b : blen (long_field b) = 4 + blen b.
Proof. unfold long_field. by rewrite blen_app, blen_le_enc. Qed.

Lemma deserialize_row_app make t ts w :
  blen t < 256 -> 0 <= ts < 2 ^ 64 -> blen w < 2 ^ 32 ->
  deserialize_row make (name_field t ++ le_enc 8 ts ++ long_field w) = Some (make t ts w).
Proof.
  intros Ht Hs Hw. unfold deserialize_row. rewrite read_table_app by done. cbn [mbind option_bind].
  rewrite read_uint_app by done. cbn [mbind option_bind]. rewrite <- (app_nil_r (long_field w)), read_long_app by done. done.
Qed.

Lemma blen_cons b (l : bytes) : blen (b :: l) = 1 + blen l.
Proof. unfold blen. cbn [length]. lia. Qed.

Lemma schema_count cols : Z.of_nat (length cols) <= blen (serialize_schema cols).
Proof.
  unfold serialize_schema. rewrite blen_app, blen_le_enc. induction cols as [|c cols IH]; [pose proof (blen_nonneg (concat (map serialize_column []))); cbn [length]; lia|].
  cbn [length map concat]. rewrite blen_app. unfold serialize_column at 1. rewrite !blen_app, blen_le_enc, blen_cons.
  pose proof (blen_nonneg (col_name c)). pose proof (blen_nonneg (@nil byte)). lia.
Qed.

(** A record comes back from its payload. *)
Lemma record_roundtrip r : record_ok r -> deserialize (serialize r) = Ok (Some (arrived r)).
Proof.
  unfold record_ok, max_frame. intros [M K]. destruct r as [t ts w|t ts w|ts|t cols|t]; cbn [serialize] in *; unfold deserialize;
    rewrite ?blen_cons, ?blen_app in M; try pose proof (blen_nonneg (name_field t)).
  - destruct K as [Ht Hs]. rewrite blen_long, blen_le_enc in M. change (b2z (z2b 1)) with 1. cbv iota.
    by rewrite deserialize_row_app by (done || lia).
  - destruct K as [Ht Hs]. rewrite blen_long, blen_le_enc in M. change (b2z (z2b 2)) with 2. cbv iota.
    by rewrite deserialize_row_app by (done || lia).
  - change (b2z (z2b 3)) with 3. cbv iota. rewrite <- (app_nil_r (le_enc 8 ts)), read_uint_app by done. done.
  - destruct K as (Ht & N & F). rewrite blen_long in M. change (b2z (z2b 4)) with 4. cbv iota.
    rewrite read_table_app by done. cbn [mbind option_bind]. rewrite <- (app_nil_r (long_field _)), read_long_app by lia.
    cbn [mbind option_bind]. pose proof (schema_count cols). rewrite <- (app_nil_r (serialize_schema cols)), deserialize_schema_app by (done || lia).
    cbn. by destruct cols.
  - change (b2z (z2b 5)) with 5. cbv iota. rewrite <- (app_nil_r (name_field t)), read_table_app by done. done.
Qed.

Lemma read_bytes_more n p t a b : read_bytes n p = Some (a, b) -> read_bytes n (p ++ t) = Some (a, b ++ t).
Proof.
  unfold read_bytes. destruct (Nat.leb_spec n (length p)) as [L|L]; [|done]. intros [= <- <-].
  assert ((n <=? length (p ++ t))%nat = true) as -> by (apply Nat.leb_le; rewrite length_app; lia).
  by rewrite take_app_le, drop_app_le by lia.
Qed.

Lemma receive_more w t payload rest : receive w = GotFrame payload rest -> receive (w ++ t) = GotFrame payload (rest ++ t).
Proof.
  unfold receive, read_uint. destruct (read_bytes 4 w) as [[b p]|] eqn:E; [|done]. rewrite (read_bytes_more _ _ t _ _ E). cbn.
  destruct ((le_dec b =? 0) || (max_frame <? le_dec b)); [done|].
  destruct (read_bytes (Z.to_nat (le_dec b)) p) as [[x y]|] eqn:E2; [|done]. intros [= <- <-]. by rewrite (read_bytes_more _ _ t _ _ E2).
Qed.

Lemma serialize_nonempty r : 1 <= blen (serialize r).
Proof. destruct r; cbn [serialize]; rewrite blen_cons; match goal with |- _ <= 1 + blen ?x => pose proof (blen_nonneg x); lia end. Qed.

Lemma receive_frame r rest : record_ok r -> receive (frame r ++ rest) = GotFrame (serialize r) rest.
Proof.
  intros [M _]. pose proof (serialize_nonempty r). unfold max_frame in *. unfold receive, frame, long_field, u32.
  rewrite Z.mod_small by lia. rewrite <- app_assoc, read_uint_app by (change (2 ^ (8 * Z.of_nat 4)) with (2 ^ 32); lia).
  cbv beta iota. unfold max_frame.
  destruct (Z.eqb_spec (blen (serialize r)) 0); [lia|]. destruct (Z.ltb_spec (64 * 2 ^ 20) (blen (serialize r))); [lia|]. cbn [orb].
  by rewrite to_nat_blen, read_bytes_app.
Qed.

(** * Order and completeness *)

(** What a connection is in every reachable state: the follower has applied the
    first records, and the rest is in the bytes on their way, in order. *)
Definition client_ok (c : Client) : Prop :=
  Forall record_ok (shipped c) ->
  exists n tail, applied c = map arrived (take n (shipped c)) /\ (n <= length (shipped c))%nat /\
    wire c ++ tail = concat (map frame (drop n (shipped c))) /\ (alive c = true -> tail = concat (outbox c)).

Lemma new_client_ok : client_ok new_client.
Proof. intros _. by exists 0%nat, []. Qed.

Lemma enqueue_ok r c : client_ok c -> client_ok (enqueue r c).
Proof.
  unfold enqueue. destruct (alive c) eqn:A; [|done]. intros C F. cbn in F. apply Forall_app in F as [F _].
  destruct (C F) as (n & tail & Ap & L & W & T). rewrite (T A) in W. exists n, (concat (outbox c) ++ frame r). cbn. split_and!.
  - by rewrite take_app_le.
  - rewrite length_app. lia.
  - by rewrite app_assoc, W, drop_app_le, map_app, concat_app by done; cbn; rewrite app_nil_r.
  - intros _. rewrite concat_app. cbn. by rewrite app_nil_r.
Qed.

Lemma send_ok c c' : send_frame c = Some c' -> client_ok c -> client_ok c'.
Proof.
  unfold send_frame. destruct (outbox c) as [|f rest] eqn:O; [done|]. destruct (alive c) eqn:A; [|done]. intros [= <-] C F.
  destruct (C F) as (n & tail & Ap & L & W & T). rewrite (T A), O in W. exists n, (concat rest). cbn. split_and!; try done.
  rewrite <- W. cbn. by rewrite app_assoc.
Qed.

Lemma break_ok k c c' : send_breaks k c = Some c' -> client_ok c -> client_ok c'.
Proof.
  unfold send_breaks. destruct (outbox c) as [|f rest] eqn:O; [done|]. destruct (alive c) eqn:A; [|done]. intros [= <-] C F.
  destruct (C F) as (n & tail & Ap & L & W & T). rewrite (T A), O in W. exists n, (drop k f ++ concat rest). cbn. split_and!; try done.
  rewrite <- W, <- app_assoc. cbn. f_equal. by rewrite app_assoc, take_drop.
Qed.

(** The follower reads the next record. *)
Lemma follow_next c n tail r :
  shipped c !! n = Some r -> record_ok r -> wire c ++ tail = concat (map frame (drop n (shipped c))) ->
  forall payload rest, receive (wire c) = GotFrame payload rest ->
  payload = serialize r /\ rest ++ tail = concat (map frame (drop (S n) (shipped c))).
Proof.
  intros Hr Ok W payload rest E. apply (receive_more _ tail) in E. rewrite W, (drop_S _ _ _ Hr) in E. cbn [map concat] in E.
  rewrite receive_frame in E by done. by injection E as -> ->.
Qed.

Lemma follow_ok c c' : follow c = Some c' -> client_ok c -> client_ok c'.
Proof.
  unfold follow. destruct (receive (wire c)) as [| |payload rest] eqn:E; try done. intros H C F.
  assert (Sh : shipped c' = shipped c /\ alive c' = alive c /\ outbox c' = outbox c) by (by destruct (deserialize payload) as [[]|?|?]; try done; injection H as <-).
  destruct Sh as (Es & Ea & Eo). rewrite Es in F. destruct (C F) as (n & tail & Ap & L & W & T).
  destruct (shipped c !! n) as [r|] eqn:Hr.
  - assert (record_ok r) as Rok by (eapply Forall_lookup_1; [exact F|exact Hr]).
    destruct (follow_next c n tail r Hr Rok W _ _ E) as [-> Wr]. rewrite (record_roundtrip r Rok) in H. injection H as <-.
    exists (S n), tail. cbn. split_and!; [|apply lookup_lt_Some in Hr; lia|done|done].
    by rewrite Ap, (take_S_r _ _ _ Hr), map_app.
  - apply lookup_ge_None in Hr. rewrite drop_ge in W by lia. cbn in W. apply app_eq_nil in W as [W _]. by rewrite W in E.
Qed.

Lemma replication_step_ok running cs cs' : step running cs cs' -> Forall client_ok cs -> Forall client_ok cs'.
Proof.
  destruct 1 as [cs|r cs|i c c' cs Hi E|i c c' k cs Hi E|i c c' cs Hi E]; intros F.
  - apply Forall_app. split; [done|]. constructor; [apply new_client_ok|done].
  - unfold broadcast. destruct (_ || _); [done|]. unfold reap_dead_clients. apply Forall_forall. intros c Hc.
    apply list_elem_of_In, filter_In in Hc as [Hc _]. apply in_map_iff in Hc as (c0 & <- & H0). apply enqueue_ok.
    eapply Forall_forall; [exact F|]. by apply list_elem_of_In.
  - apply Forall_insert; [done|]. eapply send_ok; [exact E|]. eapply Forall_lookup_1; [exact F|exact Hi].
  - apply Forall_insert; [done|]. eapply break_ok; [exact E|]. eapply Forall_lookup_1; [exact F|exact Hi].
  - apply Forall_insert; [done|]. eapply follow_ok; [exact E|]. eapply Forall_lookup_1; [exact F|exact Hi].
Qed.

Lemma replication_reachable running cs : rtc (step running) [] cs -> Forall client_ok cs.
Proof.
  intros R. assert (G : forall a b, rtc (step running) a b -> Forall client_ok a -> Forall client_ok b).
  { induction 1; intros; [done|]. eauto using replication_step_ok. }
  eapply G; [exact R|done].
Qed.

(** ** Catching up *)

Definition client_step (c c' : Client) : Prop := send_frame c = Some c' \/ follow c = Some c'.

Lemma lift_steps running c c' : rtc client_step c c' -> forall i cs, cs !! i = Some c ->
  rtc (step running) cs (<[i := c']> cs).
Proof.
  induction 1 as [c|c c1 c' S _ IH]; intros i cs Hi; [by rewrite list_insert_id|].
  eapply rtc_l; [destruct S as [S|S]; [by eapply s_send|by eapply s_follow]|].
  rewrite <- (list_insert_insert_eq cs i c' c1). apply IH. apply list_lookup_insert_eq. by eapply lookup_lt_Some.
Qed.

Lemma send_all c : alive c = true ->
  rtc client_step c (mkClient [] true (wire c ++ concat (outbox c)) (applied c) (shipped c)).
Proof.
  destruct c as [ob al w ap sh]. cbn. intros ->. revert w. induction ob as [|f ob IH]; intros w; cbn; [by rewrite app_nil_r|].
  eapply rtc_l; [left; reflexivity|]. cbn. rewrite app_assoc. apply IH.
Qed.

Lemma follow_all sh : Forall record_ok sh -> forall rs pre ap, sh = pre ++ rs ->
  rtc client_step (mkClient [] true (concat (map frame rs)) ap sh) (mkClient [] true [] (ap ++ map arrived rs) sh).
Proof.
  intros F. induction rs as [|r rs IH]; intros pre ap E; [cbn; by rewrite app_nil_r|].
  assert (record_ok r) as Rok by (rewrite E in F; apply Forall_app in F as [_ F]; by apply Forall_cons in F as [? _]).
  eapply rtc_l.
  - right. unfold follow. cbn [wire outbox alive applied shipped map concat]. by rewrite (receive_frame r _ Rok), (record_roundtrip r Rok).
  - cbn [map]. change (arrived r :: map arrived rs) with ([arrived r] ++ map arrived rs). rewrite app_assoc. apply (IH (pre ++ [r])). by rewrite E, <- app_assoc.
Qed.

(** C22: log shipping keeps order and loses nothing while a connection lives.
    However connections, broadcasts, senders and followers are interleaved, and
    wherever a connection breaks, a follower has applied, in order and without
    gaps or repetitions, a prefix of the records broadcast to its connection; and
    as long as the connection is alive it can go on to apply all of them.  The
    records fit their fields: names below 256 bytes, frames of at most 64 MiB. *)
Theorem replication_in_order running cs i c :
  rtc (step running) [] cs -> cs !! i = Some c -> Forall record_ok (shipped c) ->
  applied c `prefix_of` map arrived (shipped c) /\
  (alive c = true -> exists c', rtc (step running) cs (<[i := c']> cs) /\ shipped c' = shipped c /\ applied c' = map arrived (shipped c)).
Proof.
  intros R Hi F. pose proof (Forall_lookup_1 _ _ _ _ (replication_reachable running cs R) Hi F) as (n & tail & Ap & L & W & T). split.
  - exists (map arrived (drop n (shipped c))). by rewrite Ap, <- map_app, take_drop.
  - intros A. rewrite (T A) in W. eexists. split_and!.
    + apply (lift_steps running c); [|exact Hi]. etrans; [apply (send_all c A)|]. rewrite W.
      apply (follow_all (shipped c) F (drop n (shipped c)) (take n (shipped c))). by rewrite take_drop.
    + done.
    + cbn. by rewrite Ap, <- map_app, take_drop.
Qed.

Definition ex_record : ReplicationRecord := ApplyRow (str "t") 7 [Byte.x01].
Definition ex_system : list Client := broadcast true (Commit 7) (broadcast true ex_record [new_client]).

Lemma replication_in_order_witness :
  exists c', rtc (step true) ex_system (<[0%nat := c']> ex_system) /\ applied c' = [ex_record; Commit 7].
Proof.
  destruct (replication_in_order true ex_system 0 (mkClient [frame ex_record; frame (Commit 7)] true [] [] [ex_record; Commit 7])) as [_ H].
  - eapply rtc_l; [apply (s_accept true [])|]. eapply rtc_l; [apply (s_broadcast true ex_record)|]. apply rtc_once. apply s_broadcast.
  - reflexivity.
  - repeat constructor; try by vm_compute.
  - destruct H as (c' & S & _ & A); [reflexivity|]. exists c'. split; [exact S|exact A].
Defined.

(** A table name of 256 bytes loses its length: the record cannot be read back. *)
Lemma long_name_anomaly : deserialize (serialize (DropTable (replicate 256 Byte.x61))) = Ok (Some (DropTable [])).
Proof. by vm_compute. Qed.

(** A new connection starts with an empty queue: what was broadcast while a
    follower was away never reaches it. *)
Lemma reconnect_anomaly :
  exists cs, rtc (step true) [] cs /\ length cs = 2%nat /\ map shipped cs = [[ex_record]; []] /\ Forall (fun c => alive c = true) cs.
Proof.
  exists [enqueue ex_record new_client; new_client]. split_and!; try by vm_compute; repeat constructor.
  - eapply rtc_l; [apply (s_accept true [])|]. eapply rtc_l; [apply (s_broadcast true ex_record)|]. apply rtc_once.
    apply (s_accept true [enqueue ex_record new_client]).
Qed.
