(* ===== verification/Replica.v ===== *)
(** A replica answers as its primary: each write of the primary's engine puts one
    record into its replication sink, and applying that record keeps the
    replica's table equal, for readers, to the primary's. *)
From Stdlib Require Import ZArith Lia Strings.Byte.
From stdpp Require Import base numbers list gmap strings.
From S2P Require Import Prelude Values Codec Checksum Bloom Wal Sst Store Manifest Mvcc Engine EngineReads EngineWrites Replication.
Local Open Scope Z_scope.

Section Replica.
Context {F : Type} `{SstLaws F}.
Implicit Types (e f : Engine F) (name : bytes) (cols : list Column) (st : TableState).

(** * What reaches the sink *)

Definition keeps_sink {A} (m : ST (Engine F) A) : Prop := forall e, repl_sink (m e).1 = repl_sink e.

Lemma keeps_bind {A B} (m : ST (Engine F) A) (g : A -> ST (Engine F) B) :
  keeps_sink m -> (forall a, keeps_sink (g a)) -> keeps_sink (m ≫= g).
Proof.
  intros M G e. unfold mbind, st_bind. specialize (M e). destruct (m e) as [e1 [a|w|w]]; cbn in *; [by rewrite (G a e1)|done..].
Qed.
Lemma keeps_modify (g : Engine F -> Engine F) : (forall e, repl_sink (g e) = repl_sink e) -> keeps_sink (modify g).
Proof. intros G e. apply G. Qed.

Lemma keeps_state name : keeps_sink (get_or_create_state name).
Proof. intros e. unfold get_or_create_state. by destruct (states e !! name). Qed.

Lemma keeps_flush name cols m : keeps_sink (flush_memtable_internal name cols m true).
Proof.
  unfold flush_memtable_internal. apply keeps_bind.
  - unfold read_level. apply keeps_bind; [done|]. intros [x|]; [|done]. destruct (negb (sst_valid x)); [done|].
    apply keeps_bind; [|done]. intros e. unfold get_footer_cached, mbind, st_bind, gets, lift, modify, mret, st_ret. by repeat case_match.
  - intros l0. apply keeps_bind; [by apply keeps_modify|]. intros _. apply keeps_bind; [by apply keeps_modify|]. intros _.
    apply keeps_bind; [done|]. intros p. apply keeps_bind; [|intros _; by apply keeps_modify]. by destruct p.
Qed.

Lemma keeps_put name en d ty pl : keeps_sink (put_version name en d ty pl).
Proof.
  unfold put_version. apply keeps_bind; [apply keeps_state|]. intros st. apply keeps_bind; [by apply keeps_modify|]. intros _. by apply keeps_modify.
Qed.

(** A computation that adds one record to an attached sink. *)
Definition sinks {A} (rec : ReplicationRecord) (m : ST (Engine F) A) : Prop := forall e e' a,
  m e = (e', Ok a) -> repl_sink e' = (fun out => out ++ [rec]) <$> repl_sink e.

Lemma sinks_after {A B} rec (m : ST (Engine F) A) (g : A -> ST (Engine F) B) :
  keeps_sink m -> (forall a, sinks rec (g a)) -> sinks rec (m ≫= g).
Proof.
  intros M G e e' b E. unfold mbind, st_bind in E. specialize (M e). destruct (m e) as [e1 [a|w|w]]; [|done..].
  rewrite (G a _ _ _ E). cbn in M. by rewrite M.
Qed.

Lemma sinks_now {A} rec (g : unit -> ST (Engine F) A) : (forall u, keeps_sink (g u)) -> sinks rec (sink rec ≫= g).
Proof.
  intros G e e' b E. unfold sink in E. rewrite (st_bind_Ok _ _ _ _ tt) in E by reflexivity.
  pose proof (G tt (set_repl ((fun out => out ++ [rec]) <$> repl_sink e) e)) as K. rewrite E in K. exact K.
Qed.

Lemma sinks_before {A B} rec (m : ST (Engine F) A) (g : A -> ST (Engine F) B) :
  sinks rec m -> (forall a, keeps_sink (g a)) -> sinks rec (m ≫= g).
Proof.
  intros M G e e' b E. unfold mbind, st_bind in E. destruct (m e) as [e1 [a|w|w]] eqn:E1; [|done..].
  rewrite <- (M _ _ _ E1). pose proof (G a e1) as K. rewrite E in K. exact K.
Qed.

(** On a loaded table. *)
Lemma append_sinks e e' name cols st r ts :
  states e !! name = Some st -> schema st <> [] -> append_row name cols r ts e = (e', Ok tt) ->
  repl_sink e' = (fun out => out ++ [ApplyRow name ts (encode_row r)]) <$> repl_sink e.
Proof.
  intros S C E. revert E. unfold append_row, append_row_locked.
  assert (K : forall snap, keeps_sink (append_row_finish name cols snap)).
  { intros snap. unfold append_row_finish. apply keeps_bind; [by apply keeps_modify|]. intros _. destruct snap; [apply keeps_flush|done]. }
  intros E. unfold mbind at 1, st_bind at 1 in E. rewrite (st_bind_Ok _ _ _ _ _ (load_state_ok e name st S C)) in E.
  change (match (put_version name (mkEntry (extract_key r cols) r false ts) (blen (encode_row r)) (if ts =? 0 then 1 else 11)
                   (if ts =? 0 then encode_row r else le_enc 8 ts ++ encode_row r) ≫= fun _ => sink (ApplyRow name ts (encode_row r)) ≫= fun _ =>
                 get_or_create_state name ≫= fun st => gets (fun e => memtable_limit_bytes (cfg e)) ≫= fun limit =>
                 if limit <=? memtable_bytes st then take_memtable name ≫= fun snapshot => mret (Some snapshot) else mret None) e
          with (s', Ok a) => append_row_finish name cols a s' | (s', Throw w) => (s', Throw w) | (s', UB w) => (s', UB w) end = (e', Ok tt)) in E.
  revert E. apply (sinks_before (ApplyRow name ts (encode_row r)) _ (append_row_finish name cols)); [|exact K].
  apply sinks_after; [apply keeps_put|]. intros _. apply sinks_now. intros _. apply keeps_bind; [apply keeps_state|]. intros st'.
  apply keeps_bind; [done|]. intros limit. destruct (limit <=? _); [|done]. apply keeps_bind; [|done].
  unfold take_memtable. apply keeps_bind; [apply keeps_state|]. intros st''. apply keeps_bind; [by apply keeps_modify|done].
Qed.

Lemma delete_sinks e e' name st k ts :
  states e !! name = Some st -> schema st <> [] -> delete_row_by_key name k ts e = (e', Ok tt) ->
  repl_sink e' = (fun out => out ++ [ApplyDelete name ts (encode_key k)]) <$> repl_sink e.
Proof.
  intros S C E. unfold delete_row_by_key in E. rewrite (st_bind_Ok _ _ _ _ _ (load_state_ok e name st S C)) in E. revert E.
  apply (sinks_after (ApplyDelete name ts (encode_key k))); [apply keeps_put|]. intros _. apply sinks_now. intros _. by apply keeps_modify.
Qed.

(** * Simulation *)

(** The follower on what has arrived: a frame is read, decoded and handed to its
    engine; the bytes after it, and whether a record was applied. *)
Definition apply_frame (b : bytes) : ST (Engine F) (bool * bytes) :=
  match receive b with
  | GotFrame payload rest =>
      rec ← lift (deserialize payload);
      match rec with
      | Some rec => applied ← apply_replication_record rec; mret (applied, rest)
      | None => mret (false, rest)
      end
  | _ => mret (false, b)
  end.

(** Framing, the wire and decoding give the record to the engine. *)
Lemma apply_frame_record rec rest f f' :
  record_ok rec -> apply_replication_record (arrived rec) f = (f', Ok true) -> apply_frame (frame rec ++ rest) f = (f', Ok (true, rest)).
Proof.
  intros R A. unfold apply_frame. rewrite receive_frame by done. rewrite record_roundtrip by done.
  unfold lift. rewrite (st_bind_Ok _ _ f f (Some (arrived rec))) by done. by rewrite (st_bind_Ok _ _ _ _ _ A).
Qed.

(** Level 0 has room for the memtable with the new version, if that fills it. *)
Definition has_room e cols st (l0 : list MemEntry) (r : Row) (ts : Z) : Prop :=
  let en := mkEntry (extract_key r cols) r false ts in
  memtable_limit_bytes (cfg e) <= memtable_bytes st + blen (encode_row r) ->
  sst_fits cols (merge_runs (mem_put (memtable st) (key_of en) en) (keyed l0)).

(** A table that can be written. *)
Definition writable e name cols st ls : Prop := table_ok e name cols st ls /\ is_Some (files e !! (name, 0%nat)) /\ schema st = cols.

(** The same version is visible for every key at every snapshot. *)
Definition same_reads (es es' : list MemEntry) : Prop := forall s k, key_ok k -> best s k es = best s k es'.

Lemma sees_write_same en a a' b b' : same_reads a b -> sees_write en a a' -> sees_write en b b' -> same_reads a' b'.
Proof. intros E A B s k Hk. by rewrite (A s k Hk), (B s k Hk), (E s k Hk). Qed.

Lemma local_schema f name cols st ls : writable f name cols st ls -> resolve_local_schema name f = (f, Ok (Some cols)).
Proof.
  intros ([S C _ _] & _ & Sc). unfold resolve_local_schema. rewrite S. destruct st as [[|c cs] m b v ch]; [done|]. cbn in Sc. by rewrite Sc.
Qed.

Lemma apply_row_ok f name cols st m0 ms r ts :
  writable f name cols st (m0 :: ms) -> row_wf r -> length (values r) = length cols -> Z.of_nat (length cols) < 2 ^ 32 ->
  let en := mkEntry (extract_key r cols) r false ts in
  key_ok (pk en) -> 0 <= ts <= UINT64_MAX -> has_room f cols st m0 r ts ->
  exists f' st' ms', apply_replication_record (ApplyRow name ts (encode_row r)) f = (f', Ok true) /\ writable f' name cols st' ms' /\
    sees_write en (contents st (m0 :: ms)) (contents st' ms').
Proof.
  intros W Rw Rl Cn en K T Fi. pose proof W as (Tok & F0 & Sc).
  destruct (append_detail f name cols st m0 ms r ts Tok F0 K T Fi) as (f' & st' & ms' & A & Tok' & F0' & B & Sc' & _).
  exists f', st', ms'. split_and!; [|split_and!; [done|done|by rewrite Sc']|done].
  unfold apply_replication_record. rewrite (st_bind_Ok _ _ _ _ _ (local_schema _ _ _ _ _ W)).
  unfold lift. rewrite <- (app_nil_r (encode_row r)), decode_encode_row by done.
  rewrite (st_bind_Ok _ _ f f r) by done. rewrite (st_bind_Ok _ _ _ _ _ A). done.
Qed.

Lemma apply_delete_ok f name cols st ms k ts :
  writable f name cols st ms -> value_wf k -> key_ok k -> 0 <= ts <= UINT64_MAX ->
  exists f' st', apply_replication_record (ApplyDelete name ts (encode_key k)) f = (f', Ok true) /\ writable f' name cols st' ms /\
    sees_write (mkEntry k (mkRow []) true ts) (contents st ms) (contents st' ms).
Proof.
  intros W Kw K T. pose proof W as (Tok & F0 & Sc).
  destruct (delete_ok f name cols st ms k ts Tok K T) as (f' & st' & A & Tok' & F0' & B & ->).
  exists f', (with_version st (mkEntry k (mkRow []) true ts) 0). split_and!; [|split_and!; [done|by rewrite F0'|done]|done].
  unfold apply_replication_record. rewrite (st_bind_Ok _ _ _ _ _ (local_schema _ _ _ _ _ W)).
  assert (decode_key (encode_key k) = Ok k) as D by (rewrite <- (app_nil_r (encode_key k)); by apply decode_encode_key).
  assert (match encode_key k with [] => Ok VNull | _ => decode_key (encode_key k) end = Ok k) as D' by (by destruct (encode_key k)).
  unfold lift. rewrite D'. rewrite (st_bind_Ok _ _ f f k) by done. by rewrite (st_bind_Ok _ _ _ _ _ A).
Qed.

End Replica.

(** C21: a replica that applies what its primary ships answers every read alike.
    Appending a row to a table of the primary, whether or not this flushes the
    memtable, succeeds and puts exactly one record into the sink.  The follower
    reads the frame of the record from what has arrived, decodes and applies it, and
    leaves the bytes after it; if before every snapshot showed the same versions of
    the table on both sides, though they may lie in other files, it does so again.
    The row has the table's width, its record fits a frame (a name below 256 bytes,
    64 MiB in all), the two engines hold the table in good order, and a file that a
    flush writes on either side reads back ([has_room]). *)
Theorem replica_follows_append {F : Type} `{SstLaws F} (e f : Engine F) name cols st l0 ls stf m0 ms r ts out :
  writable e name cols st (l0 :: ls) -> writable f name cols stf (m0 :: ms) ->
  same_reads (contents st (l0 :: ls)) (contents stf (m0 :: ms)) -> repl_sink e = Some out ->
  row_wf r -> length (values r) = length cols -> Z.of_nat (length cols) < 2 ^ 32 ->
  key_ok (extract_key r cols) -> 0 <= ts <= UINT64_MAX -> has_room e cols st l0 r ts -> has_room f cols stf m0 r ts ->
  record_ok (ApplyRow name ts (encode_row r)) ->
  exists e' rec f' st' ls' stf' ms',
    append_row name cols r ts e = (e', Ok tt) /\ repl_sink e' = Some (out ++ [rec]) /\
    (forall rest, apply_frame (frame rec ++ rest) f = (f', Ok (true, rest))) /\
    writable e' name cols st' ls' /\ writable f' name cols stf' ms' /\ same_reads (contents st' ls') (contents stf' ms').
Proof.
  intros We Wf Sr So Rw Rl Cn K T Re Rf Ro. pose proof We as (Tok & F0 & Sc).
  destruct (append_detail e name cols st l0 ls r ts Tok F0 K T Re) as (e' & st' & ls' & A & Tok' & F0' & B & Sc' & _).
  destruct (apply_row_ok f name cols stf m0 ms r ts Wf Rw Rl Cn K T Rf) as (f' & stf' & ms' & Af & Wf' & Bf).
  exists e', (ApplyRow name ts (encode_row r)), f', st', ls', stf', ms'. split_and!; try done.
  - rewrite (append_sinks e e' name cols st r ts (to_state _ _ _ _ _ Tok) (to_schema _ _ _ _ _ Tok) A), So. done.
  - intros rest. by apply apply_frame_record.
  - split_and!; [done|done|by rewrite Sc'].
  - eapply sees_write_same; [exact Sr|exact B|exact Bf].
Qed.

(** The same for a deletion. *)
Theorem replica_follows_delete {F : Type} `{SstLaws F} (e f : Engine F) name cols st ls stf ms k ts out :
  writable e name cols st ls -> writable f name cols stf ms ->
  same_reads (contents st ls) (contents stf ms) -> repl_sink e = Some out ->
  value_wf k -> key_ok k -> 0 <= ts <= UINT64_MAX -> record_ok (ApplyDelete name ts (encode_key k)) ->
  exists e' rec f' st' stf',
    delete_row_by_key name k ts e = (e', Ok tt) /\ repl_sink e' = Some (out ++ [rec]) /\
    (forall rest, apply_frame (frame rec ++ rest) f = (f', Ok (true, rest))) /\
    writable e' name cols st' ls /\ writable f' name cols stf' ms /\ same_reads (contents st' ls) (contents stf' ms).
Proof.
  intros We Wf Sr So Kw K T Ro. pose proof We as (Tok & F0 & Sc).
  destruct (delete_ok e name cols st ls k ts Tok K T) as (e' & st' & A & Tok' & F0' & B & ->).
  destruct (apply_delete_ok f name cols stf ms k ts Wf Kw K T) as (f' & stf' & Af & Wf' & Bf).
  exists e', (ApplyDelete name ts (encode_key k)), f', (with_version st (mkEntry k (mkRow []) true ts) 0), stf'. split_and!; try done.
  - rewrite (delete_sinks e e' name st k ts (to_state _ _ _ _ _ Tok) (to_schema _ _ _ _ _ Tok) A), So. done.
  - intros rest. by apply apply_frame_record.
  - split_and!; [done|by rewrite F0'|done].
  - eapply sees_write_same; [exact Sr|exact B|exact Bf].
Qed.

(** The engine of the read examples as primary, with a sink, and as replica. *)
Definition ex_primary : Engine DecodedFile := set_repl (Some []) ex_engine.

Lemma replica_follows_append_witness :
  exists e' rec f', append_row (str "t") t_cols (t_row 5 1) 12 ex_primary = (e', Ok tt) /\ repl_sink e' = Some [rec] /\
    apply_frame (frame rec) ex_engine = (f', Ok (true, [])).
Proof.
  assert (Tp : table_ok ex_primary (str "t") t_cols ex_table [t_l0; t_l1]) by (destruct ex_table_ok; by split).
  destruct (replica_follows_append ex_primary ex_engine (str "t") t_cols ex_table t_l0 [t_l1] ex_table t_l0 [t_l1] (t_row 5 1) 12 [])
    as (e' & rec & f' & _ & _ & _ & _ & A & S & R & _).
  - split_and!; [exact Tp|by eexists|reflexivity].
  - split_and!; [exact ex_table_ok|by eexists|reflexivity].
  - done.
  - reflexivity.
  - apply (bool_decide_unpack _). vm_compute. exact I.
  - reflexivity.
  - cbn. lia.
  - apply (bool_decide_unpack _). vm_compute. exact I.
  - done.
  - intros L. by vm_compute in L.
  - intros L. by vm_compute in L.
  - vm_compute. split_and!; congruence.
  - exists e', rec, f'. split_and!; [exact A|exact S|]. rewrite <- (app_nil_r (frame rec)). apply R.
Defined.

Lemma replica_follows_delete_witness :
  exists e' rec f', delete_row_by_key (str "t") (VInt 3) 12 ex_primary = (e', Ok tt) /\ repl_sink e' = Some [rec] /\
    apply_frame (frame rec) ex_engine = (f', Ok (true, [])).
Proof.
  assert (Tp : table_ok ex_primary (str "t") t_cols ex_table [t_l0; t_l1]) by (destruct ex_table_ok; by split).
  destruct (replica_follows_delete ex_primary ex_engine (str "t") t_cols ex_table [t_l0; t_l1] ex_table [t_l0; t_l1] (VInt 3) 12 [])
    as (e' & rec & f' & _ & _ & A & S & R & _).
  - split_and!; [exact Tp|by eexists|reflexivity].
  - split_and!; [exact ex_table_ok|by eexists|reflexivity].
  - done.
  - reflexivity.
  - apply (bool_decide_unpack _). vm_compute. exact I.
  - apply (bool_decide_unpack _). vm_compute. exact I.
  - done.
  - vm_compute. split_and!; congruence.
  - exists e', rec, f'. split_and!; [exact A|exact S|]. rewrite <- (app_nil_r (frame rec)). apply R.
Defined.
