(* ===== verification/Statistics.v ===== *)
(** The statistics file, [src/storage/statistics.cpp]: the image of the statistics
    of a column and of a table, and their reading back. *)
From Stdlib Require Import ZArith Lia Strings.Byte.
From stdpp Require Import base numbers list gmap strings.
From S2P Require Import Prelude Values Codec.
Local Open Scope Z_scope.

(** * Data *)

(** Doubles are bit patterns; a type is the underlying value of [TypeKind]; the
    two vectors of common values and their frequencies go together. *)
Record ColumnStats := mkColStats {
  cs_name : bytes;
  cs_type : Z;
  cs_total_rows : Z;
  cs_null_count : Z;
  cs_null_frac : Z;
  cs_ndistinct : Z;
  cs_mcv : list (Value * Z);
  cs_histogram : list Value;
  cs_correlation : Z;
  cs_stats_ts : Z
}.

Record TableStats := mkTabStats {
  ts_name : bytes;
  ts_total_rows : Z;
  ts_stats_ts : Z;
  ts_columns : gmap bytes ColumnStats
}.

(** * Writing *)

Definition column_magic : bytes := str "CSTAT".
Definition table_magic : bytes := str "TSTAT".
Definition format_version : Z := 1.

Definition write_string (s : bytes) : bytes := le_enc 2 (u16 (blen s)) ++ s.

(** [n] elements of a list, each by its writer. *)
Definition write_counted {A} (w : A -> bytes) (l : list A) : bytes :=
  le_enc 2 (u16 (Z.of_nat (length l))) ++ concat (map w (take (Z.to_nat (u16 (Z.of_nat (length l)))) l)).

Definition serialize_column_stats (c : ColumnStats) : bytes :=
  column_magic ++ [z2b format_version] ++ write_string (cs_name c) ++ [z2b (cs_type c)] ++
  le_enc 8 (cs_total_rows c) ++ le_enc 8 (cs_null_count c) ++ le_enc 8 (cs_null_frac c) ++ le_enc 8 (cs_ndistinct c) ++
  write_counted (fun vf => write_value vf.1 ++ le_enc 8 vf.2) (cs_mcv c) ++
  write_counted write_value (cs_histogram c) ++
  le_enc 8 (cs_correlation c) ++ le_enc 8 (cs_stats_ts c).

Definition write_column (c : ColumnStats) : bytes := le_enc 2 (u16 (blen (serialize_column_stats c))) ++ serialize_column_stats c.

(** The columns in the order the map is walked. *)
Definition serialize_table_stats (t : TableStats) (columns : list ColumnStats) : bytes :=
  table_magic ++ [z2b format_version] ++ write_string (ts_name t) ++
  le_enc 8 (ts_total_rows t) ++ le_enc 8 (ts_stats_ts t) ++
  le_enc 2 (u16 (Z.of_nat (length columns))) ++ concat (map write_column columns).

(** * Reading *)

Definition R (A : Type) : Type := istream -> option (A * istream).

Definition read_uint (n : Z) : R Z := fun s => '(b, s) ← sread_ok n s; Some (le_dec b, s).
Definition read_string : R bytes := fun s => '(n, s) ← read_uint 2 s; sread_ok n s.
(** [read_value_wrapped]: an exception is a failure. *)
Definition read_value_wrapped : R Value := fun s => match read_value s with Ok vs => Some vs | _ => None end.
Definition check_magic (magic : bytes) : R unit := fun s =>
  '(b, s) ← sread_ok 5 s; if bool_decide (b = magic) then Some (tt, s) else None.
Definition check_version : R unit := fun s => '(v, s) ← read_uint 1 s; if v =? format_version then Some (tt, s) else None.

Fixpoint read_many {A} (r : R A) (n : nat) : R (list A) := fun s =>
  match n with
  | O => Some ([], s)
  | S n => '(a, s) ← r s; '(l, s) ← read_many r n s; Some (a :: l, s)
  end.
Definition read_counted {A} (r : R A) : R (list A) := fun s => '(n, s) ← read_uint 2 s; read_many r (Z.to_nat n) s.

Definition read_mcv : R (Value * Z) := fun s => '(v, s) ← read_value_wrapped s; '(f, s) ← read_uint 8 s; Some ((v, f), s).

Definition deserialize_column_stats (data : bytes) : option ColumnStats :=
  if blen data <? 6 then None else
  '(_, s) ← check_magic column_magic (IStream data true);
  '(_, s) ← check_version s;
  '(name, s) ← read_string s;
  '(type, s) ← read_uint 1 s;
  '(total, s) ← read_uint 8 s;
  '(nulls, s) ← read_uint 8 s;
  '(frac, s) ← read_uint 8 s;
  '(ndv, s) ← read_uint 8 s;
  '(mcv, s) ← read_counted read_mcv s;
  '(hist, s) ← read_counted read_value_wrapped s;
  '(corr, s) ← read_uint 8 s;
  '(ts, _) ← read_uint 8 s;
  Some (mkColStats name type total nulls frac ndv mcv hist corr ts).

Definition read_column : R ColumnStats := fun s =>
  '(n, s) ← read_uint 2 s;
  '(data, s) ← sread_ok n s;
  c ← deserialize_column_stats data;
  Some (c, s).

(** Later columns of a name replace earlier ones. *)
Definition index_columns (cs : list ColumnStats) : gmap bytes ColumnStats :=
  fold_left (fun m c => <[cs_name c := c]> m) cs ∅.

Definition deserialize_table_stats (data : bytes) : option TableStats :=
  if blen data <? 8 then None else
  '(_, s) ← check_magic table_magic (IStream data true);
  '(_, s) ← check_version s;
  '(name, s) ← read_string s;
  '(total, s) ← read_uint 8 s;
  '(ts, s) ← read_uint 8 s;
  '(cs, _) ← read_counted read_column s;
  Some (mkTabStats name total ts (index_columns cs)).

(** * Round trip *)

(** The reader takes exactly the image of the value. *)
Definition reads_back {A} (r : R A) (a : A) (image : bytes) : Prop :=
  forall rest, r (IStream (image ++ rest) true) = Some (a, IStream rest true).

Lemma uint_back n z : 0 <= z < 2 ^ (8 * Z.of_nat n) -> reads_back (read_uint (Z.of_nat n)) z (le_enc n z).
Proof.
  intros Hz rest. unfold read_uint. rewrite sread_ok_app by (by rewrite blen_le_enc). cbn. by rewrite le_dec_enc, Z.mod_small.
Qed.
Lemma u8_back z : 0 <= z < 256 -> reads_back (read_uint 1) z [z2b z].
Proof. intros Hz. exact (uint_back 1 z Hz). Qed.
Lemma u16_back z : 0 <= z < 2 ^ 16 -> reads_back (read_uint 2) z (le_enc 2 z).
Proof. exact (uint_back 2 z). Qed.
Lemma u64_back z : 0 <= z < 2 ^ 64 -> reads_back (read_uint 8) z (le_enc 8 z).
Proof. exact (uint_back 8 z). Qed.

Lemma string_back s : blen s < 2 ^ 16 -> reads_back read_string s (write_string s).
Proof.
  intros Hs rest. pose proof (blen_nonneg s). unfold read_string, write_string, u16. rewrite Z.mod_small, <- app_assoc by lia.
  rewrite (u16_back (blen s)) by lia. cbn [mbind option_bind]. by rewrite sread_ok_app.
Qed.

Lemma value_back v : value_wf v -> reads_back read_value_wrapped v (write_value v).
Proof. intros Hv rest. unfold read_value_wrapped. by rewrite read_value_app. Qed.

Lemma many_back {A} (r : R A) (w : A -> bytes) l :
  Forall (fun a => reads_back r a (w a)) l -> reads_back (read_many r (length l)) l (concat (map w l)).
Proof.
  induction 1 as [|a l Ha _ IH]; intros rest; [done|]. cbn [length read_many map concat]. rewrite <- app_assoc, Ha. cbn [mbind option_bind].
  by rewrite IH.
Qed.

Lemma counted_back {A} (r : R A) (w : A -> bytes) l :
  Z.of_nat (length l) < 2 ^ 16 -> Forall (fun a => reads_back r a (w a)) l -> reads_back (read_counted r) l (write_counted w l).
Proof.
  intros L F rest. unfold read_counted, write_counted, u16. rewrite Z.mod_small, Nat2Z.id, firstn_all, <- app_assoc by lia.
  rewrite u16_back by lia. cbn [mbind option_bind]. rewrite Nat2Z.id. by apply many_back.
Qed.

Lemma magic_back m : blen m = 5 -> reads_back (check_magic m) tt m.
Proof. intros L rest. unfold check_magic. rewrite sread_ok_app by done. cbn. by rewrite bool_decide_eq_true_2. Qed.
Lemma version_back : reads_back check_version tt [z2b format_version].
Proof. intros rest. unfold check_version. by rewrite (u8_back 1). Qed.

Definition u64_ok (z : Z) : Prop := 0 <= z < 2 ^ 64.

(** Statistics that fit their fields. *)
Record column_ok (c : ColumnStats) : Prop := {
  ok_name : blen (cs_name c) < 2 ^ 16;
  ok_type : 0 <= cs_type c < 256;
  ok_total : u64_ok (cs_total_rows c);
  ok_nulls : u64_ok (cs_null_count c);
  ok_frac : u64_ok (cs_null_frac c);
  ok_ndv : u64_ok (cs_ndistinct c);
  ok_mcv : Z.of_nat (length (cs_mcv c)) < 2 ^ 16 /\ Forall (fun vf => value_wf vf.1 /\ u64_ok vf.2) (cs_mcv c);
  ok_hist : Z.of_nat (length (cs_histogram c)) < 2 ^ 16 /\ Forall value_wf (cs_histogram c);
  ok_corr : u64_ok (cs_correlation c);
  ok_ts : u64_ok (cs_stats_ts c);
  ok_size : blen (serialize_column_stats c) < 2 ^ 16
}.

Lemma mcv_back vf : value_wf vf.1 /\ u64_ok vf.2 -> reads_back read_mcv vf (write_value vf.1 ++ le_enc 8 vf.2).
Proof.
  intros [Hv Hf] rest. unfold read_mcv. rewrite <- app_assoc, value_back by done. cbn [mbind option_bind]. rewrite u64_back by done.
  by destruct vf.
Qed.

Lemma column_back c : column_ok c -> deserialize_column_stats (serialize_column_stats c) = Some c.
Proof.
  intros [N T To Nu Fr Nd [Ml Mf] [Hl Hf] Co Ts _]. unfold deserialize_column_stats.
  assert ((blen (serialize_column_stats c) <? 6) = false) as ->.
  { apply Z.ltb_ge. unfold serialize_column_stats. rewrite !blen_app. change (blen column_magic) with 5. change (blen [z2b format_version]) with 1.
    repeat match goal with |- context [blen ?x + _] => lazymatch goal with H : 0 <= blen x |- _ => fail | _ => pose proof (blen_nonneg x) end end.
    pose proof (blen_nonneg (le_enc 8 (cs_stats_ts c))). lia. }
  unfold serialize_column_stats. rewrite magic_back by done. cbn [mbind option_bind]. rewrite version_back. cbn [mbind option_bind].
  rewrite string_back by done. cbn [mbind option_bind]. rewrite u8_back by done. cbn [mbind option_bind].
  do 4 (rewrite u64_back by done; cbn [mbind option_bind]).
  rewrite counted_back; [|done|eapply Forall_impl; [exact Mf|apply mcv_back]]. cbn [mbind option_bind].
  rewrite counted_back; [|done|eapply Forall_impl; [exact Hf|apply value_back]]. cbn [mbind option_bind].
  rewrite u64_back by done. cbn [mbind option_bind]. rewrite <- (app_nil_r (le_enc 8 (cs_stats_ts c))), u64_back by done.
  by destruct c.
Qed.

Lemma read_column_back c : column_ok c -> reads_back read_column c (write_column c).
Proof.
  intros K rest. pose proof (ok_size c K). pose proof (blen_nonneg (serialize_column_stats c)). unfold read_column, write_column, u16.
  rewrite Z.mod_small, <- app_assoc by lia. rewrite u16_back by lia. cbn [mbind option_bind]. rewrite sread_ok_app by done.
  cbn [mbind option_bind]. by rewrite (column_back c K).
Qed.

Lemma index_columns_map (m : gmap bytes ColumnStats) (cs : list ColumnStats) :
  map (fun c => (cs_name c, c)) cs ≡ₚ map_to_list m -> index_columns cs = m.
Proof.
  intros P. assert (index_columns cs = list_to_map (reverse (map (fun c => (cs_name c, c)) cs))) as ->.
  { unfold index_columns. clear P. induction cs as [|c cs IH] using rev_ind; [done|].
    rewrite fold_left_app, map_app, reverse_app. cbn. by rewrite IH. }
  rewrite <- (list_to_map_to_list m). apply list_to_map_proper.
  - rewrite fmap_reverse, reverse_Permutation. rewrite P. apply NoDup_fst_map_to_list.
  - by rewrite reverse_Permutation.
Qed.

(** The statistics file of a table is read back as it was written, whatever
    order the columns are walked in, if names, lists and the image of a column
    fit their 16-bit fields. *)
Theorem statistics_roundtrip (t : TableStats) (cs : list ColumnStats) :
  map (fun c => (cs_name c, c)) cs ≡ₚ map_to_list (ts_columns t) -> Forall column_ok cs ->
  blen (ts_name t) < 2 ^ 16 -> u64_ok (ts_total_rows t) -> u64_ok (ts_stats_ts t) -> Z.of_nat (length cs) < 2 ^ 16 ->
  deserialize_table_stats (serialize_table_stats t cs) = Some t.
Proof.
  intros P F N To Ts L. unfold deserialize_table_stats, serialize_table_stats.
  match goal with |- (if ?b then _ else _) = _ => assert (b = false) as -> end.
  { apply Z.ltb_ge. rewrite !blen_app, !blen_le_enc. change (blen table_magic) with 5. change (blen [z2b format_version]) with 1.
    pose proof (blen_nonneg (write_string (ts_name t))). pose proof (blen_nonneg (concat (map write_column cs))). lia. }
  rewrite magic_back by done. cbn [mbind option_bind]. rewrite version_back. cbn [mbind option_bind].
  rewrite string_back by done. cbn [mbind option_bind]. do 2 (rewrite u64_back by done; cbn [mbind option_bind]).
  pose proof (counted_back read_column write_column cs L) as C. unfold write_counted, u16 in C.
  unfold u16. rewrite Z.mod_small in C |- * by lia. rewrite Nat2Z.id, firstn_all in C.
  specialize (C ltac:(eapply Forall_impl; [exact F|apply read_column_back]) []). rewrite app_nil_r in C. rewrite C.
  cbn [mbind option_bind]. rewrite (index_columns_map _ _ P). by destruct t.
Qed.

Definition ex_col : ColumnStats :=
  mkColStats (str "a") 0 100 3 (3 * 2 ^ 40) 42 [(VInt 7, 2 ^ 60); (VText (str "x"), 2 ^ 59)] [VInt 1; VInt 50; VInt 99] 0 12.
Definition ex_stats : TableStats := mkTabStats (str "t") 100 12 {[ str "a" := ex_col ]}.

Lemma statistics_roundtrip_witness : deserialize_table_stats (serialize_table_stats ex_stats [ex_col]) = Some ex_stats.
Proof.
  apply (statistics_roundtrip ex_stats [ex_col]).
  - unfold ex_stats. cbn [ts_columns map]. rewrite map_to_list_singleton. reflexivity.
  - constructor; [|constructor]. split; unfold u64_ok; apply (bool_decide_unpack _); vm_compute; exact Logic.I.
  - apply (bool_decide_unpack _). vm_compute. exact Logic.I.
  - unfold u64_ok. cbn. lia.
  - unfold u64_ok. cbn. lia.
  - cbn. lia.
Defined.

(** The image of a column with a common text of 64 kB does not fit its length
    field: the statistics of the table cannot be read back. *)
Lemma statistics_size_anomaly :
  let c := mkColStats (str "a") 1 1 0 0 1 [(VText (replicate (Z.to_nat 65536) Byte.x61), 0)] [] 0 12 in
  deserialize_table_stats (serialize_table_stats (mkTabStats (str "t") 1 12 {[ str "a" := c ]}) [c]) = None.
Proof. by vm_compute. Qed.
