(* ===== verification/Selectivity.v ===== *)
(** Selectivity estimation, [src/optimizer/stats/selectivity.cpp]: the share of the
    rows of a table that a predicate keeps, from the statistics of its columns,
    in double arithmetic. *)
From Stdlib Require Import ZArith Lia Strings.Byte.
From stdpp Require Import base numbers list gmap strings.
From S2P Require Import Prelude Values Doubles Eval Statistics.
Local Open Scope Z_scope.

(** * Constants and helpers *)

Definition dbl_zero : Z := 0.
Definition dbl_one : Z := 0x3FF0000000000000.
Definition dbl_point5 : Z := 0x3FE0000000000000.
Definition kDefaultEqSelectivity : Z := 0x3F747AE147AE147B.      (* 0.005 *)
Definition kDefaultRangeSelectivity : Z := 0x3FD54FDF3B645A1D.   (* 0.333 *)

Definition clamp01 (v : Z) : Z := if dbl_lt v dbl_zero then dbl_zero else if dbl_lt dbl_one v then dbl_one else v.
Definition dbl_max (a b : Z) : Z := if dbl_lt a b then b else a.
Definition dbl_le0 (a : Z) : bool := dbl_lt a dbl_zero || dbl_eq a dbl_zero.

(** [ColumnStats::valid] and rows to estimate from. *)
Definition usable (s : option ColumnStats) : option ColumnStats :=
  match s with
  | Some c => if ((0 <? cs_total_rows c) || (0 <? cs_stats_ts c)) && (0 <? cs_total_rows c) then Some c else None
  | None => None
  end.

Definition mcv_total (c : ColumnStats) : Z := fold_left (fun sum vf => dbl_add sum vf.2) (cs_mcv c) dbl_zero.
Definition mcv_freq_of (c : ColumnStats) (v : Value) : Z :=
  match List.find (fun vf => ValueEq vf.1 v) (cs_mcv c) with Some vf => vf.2 | None => dbl_zero end.

Definition to_num (v : Value) : option Z :=
  match v with VInt n => Some (dbl_of_int n) | VDouble d => Some d | _ => None end.

(** * Position in the histogram *)

Definition bound (bounds : list Value) (i : nat) : Value := nth i bounds VNull.

(** The binary search: [bounds[lo] <= v < bounds[hi]]. *)
Fixpoint search_bucket (fuel : nat) (bounds : list Value) (v : Value) (lo hi : nat) : nat * nat :=
  match fuel with
  | O => (lo, hi)
  | S fuel =>
      if (1 <? hi - lo)%nat then
        let mid := ((lo + hi) / 2)%nat in
        if ValueLess v (bound bounds mid) then search_bucket fuel bounds v lo mid else search_bucket fuel bounds v mid hi
      else (lo, hi)
  end.

Definition histogram_position (bounds : list Value) (v : Value) : Z :=
  let last := pred (length bounds) in
  if ValueLess v (bound bounds 0) then dbl_zero
  else if negb (ValueLess v (bound bounds last)) then dbl_one
  else
    let '(lo, hi) := search_bucket (length bounds) bounds v 0 last in
    let frac := match to_num (bound bounds lo), to_num (bound bounds hi), to_num v with
                | Some a, Some b, Some x => if dbl_lt a b then clamp01 (dbl_div (dbl_sub x a) (dbl_sub b a)) else dbl_point5
                | _, _, _ => dbl_point5
                end in
    dbl_div (dbl_add (dbl_of_int (Z.of_nat lo)) frac) (dbl_of_int (Z.of_nat last)).

(** * One predicate *)

Definition selectivity_eq (s : option ColumnStats) (v : Value) : Z :=
  match usable s with
  | None => kDefaultEqSelectivity
  | Some c =>
      if is_null v then kDefaultEqSelectivity else
      let f := mcv_freq_of c v in
      if dbl_lt dbl_zero f then clamp01 f else
      let other_rows := dbl_sub (dbl_sub dbl_one (cs_null_frac c)) (mcv_total c) in
      let n := Z.of_nat (length (cs_mcv c)) in
      if cs_ndistinct c =? 0 then kDefaultEqSelectivity else
      let denom := dbl_of_int (if n <? cs_ndistinct c then cs_ndistinct c - n else cs_ndistinct c) in
      let sel := if dbl_lt dbl_zero other_rows then dbl_div other_rows denom else kDefaultEqSelectivity in
      clamp01 (dbl_max sel (dbl_div dbl_one (dbl_of_int (cs_total_rows c))))
  end.

Definition selectivity_ne (s : option ColumnStats) (v : Value) : Z :=
  match usable s with
  | None => dbl_sub dbl_one kDefaultEqSelectivity
  | Some _ => if is_null v then dbl_sub dbl_one kDefaultEqSelectivity else clamp01 (dbl_sub dbl_one (selectivity_eq s v))
  end.

Definition in_range (low : option Value) (low_inclusive : bool) (high : option Value) (high_inclusive : bool) (v : Value) : bool :=
  match low with Some l => ValueLess l v || (low_inclusive && ValueEq l v) | None => true end &&
  match high with Some h => ValueLess v h || (high_inclusive && ValueEq v h) | None => true end.

Definition selectivity_range (s : option ColumnStats) (low : option Value) (low_inclusive : bool)
    (high : option Value) (high_inclusive : bool) : Z :=
  match usable s with
  | None => kDefaultRangeSelectivity
  | Some c =>
      let mcv_part := fold_left (fun sum vf => if in_range low low_inclusive high high_inclusive vf.1 then dbl_add sum vf.2 else sum)
                        (cs_mcv c) dbl_zero in
      let hist_pop := clamp01 (dbl_sub (dbl_sub dbl_one (cs_null_frac c)) (mcv_total c)) in
      if (length (cs_histogram c) <? 2)%nat || dbl_le0 hist_pop
      then clamp01 (dbl_add mcv_part (dbl_mul hist_pop kDefaultRangeSelectivity))
      else
        let position b inclusive := let p := histogram_position (cs_histogram c) b in
                                    if (inclusive : bool) then p else dbl_sub p (mcv_freq_of c b) in
        let pos_low := match low with Some l => position l low_inclusive | None => dbl_zero end in
        let pos_high := match high with Some h => position h high_inclusive | None => dbl_one end in
        let hist_frac := dbl_sub (clamp01 pos_high) (clamp01 pos_low) in
        clamp01 (dbl_add mcv_part (dbl_mul hist_pop (clamp01 hist_frac)))
  end.

Definition selectivity_between (s : option ColumnStats) (low high : Value) : Z := selectivity_range s (Some low) true (Some high) true.

(** The sum over distinct values. *)
Fixpoint sum_eq (s : option ColumnStats) (seen values : list Value) (sum : Z) : Z :=
  match values with
  | [] => sum
  | v :: values =>
      if existsb (fun u => ValueEq u v) seen then sum_eq s seen values sum
      else sum_eq s (v :: seen) values (dbl_add sum (selectivity_eq s v))
  end.
Definition selectivity_in_list (s : option ColumnStats) (values : list Value) : Z :=
  match values with [] => dbl_zero | _ => clamp01 (sum_eq s [] values dbl_zero) end.

Definition selectivity_is_null (s : option ColumnStats) : Z :=
  match usable s with Some c => clamp01 (cs_null_frac c) | None => dbl_zero end.

Definition combine_and (a b : Z) : Z := clamp01 (dbl_mul a b).
Definition combine_or (a b : Z) : Z := clamp01 (dbl_sub (dbl_add a b) (dbl_mul a b)).

(** * A predicate tree *)

(** Column, operator and literal of a comparison, turned round if need be. *)
Definition flip_op (op : CompareOp) : CompareOp := match op with Lt => Gt | Le => Ge | Gt => Lt | Ge => Le | _ => op end.
Definition extract_col_op_lit (c : Comparison) : option (ColumnRef * CompareOp * Value) :=
  match cmp_lhs c, cmp_rhs c with
  | EColumn col, ELiteral v => Some (col, cmp_op c, v)
  | EColumn _, _ => None
  | ELiteral v, EColumn col => Some (col, flip_op (cmp_op c), v)
  | _, _ => None
  end.

Section Estimate.
Context {Q : Type}.
Variables (table_name : bytes) (column_stats : bytes -> option ColumnStats).

Definition foreign (col : ColumnRef) : bool :=
  negb (bool_decide (ref_table col = [])) && negb (bool_decide (ref_table col = table_name)).

Definition estimate_comparison (c : Comparison) : Z :=
  match extract_col_op_lit c with
  | None => kDefaultRangeSelectivity
  | Some (col, op, v) =>
      if foreign col then kDefaultRangeSelectivity else
      let cs := column_stats (ref_name col) in
      match usable cs with
      | None => match op with Eq => kDefaultEqSelectivity | _ => kDefaultRangeSelectivity end
      | Some _ =>
          match op with
          | Eq => selectivity_eq cs v
          | Ne => selectivity_ne cs v
          | Lt => selectivity_range cs None false (Some v) false
          | Le => selectivity_range cs None false (Some v) true
          | Gt => selectivity_range cs (Some v) false None false
          | Ge => selectivity_range cs (Some v) true None false
          | _ => kDefaultRangeSelectivity
          end
      end
  end.

Definition negate_if (negated : bool) (s : Z) : Z := if negated then clamp01 (dbl_sub dbl_one s) else s.

Definition estimate_between (b : BetweenExpr) : Z :=
  match btw_expr b, btw_low b, btw_high b with
  | EColumn col, ELiteral lo, ELiteral hi =>
      if foreign col then kDefaultRangeSelectivity
      else negate_if (btw_negated b) (selectivity_between (column_stats (ref_name col)) lo hi)
  | _, _, _ => kDefaultRangeSelectivity
  end.

Definition estimate_in (i : InExpr Q) : Z :=
  match in_expr i, in_subquery i with
  | EColumn col, None =>
      if match in_values i with [] => true | _ => false end then kDefaultRangeSelectivity else
      if foreign col then kDefaultRangeSelectivity else
      match omap (fun e => match e with ELiteral v => Some v | _ => None end) (in_values i) with
      | [] => kDefaultRangeSelectivity
      | vals => negate_if (in_negated i) (selectivity_in_list (column_stats (ref_name col)) vals)
      end
  | _, _ => kDefaultRangeSelectivity
  end.

Fixpoint estimate_filter_selectivity (b : BoolExpr Q) : Z :=
  let part (none : Z) (o : option (BoolExpr Q)) := match o with Some x => estimate_filter_selectivity x | None => none end in
  match b with
  | BAnd l r => combine_and (part dbl_one l) (part dbl_one r)
  | BOr l r => combine_or (part dbl_zero l) (part dbl_zero r)
  | BNot l => clamp01 (dbl_sub dbl_one (part kDefaultRangeSelectivity l))
  | BComparison (Some c) => estimate_comparison c
  | BBetween (Some b) => estimate_between b
  | BIn (Some i) => estimate_in i
  | _ => kDefaultRangeSelectivity
  end.
End Estimate.

(** * Bounds *)

(** Between 0 and 1, or not a number. *)
Definition unit_interval (x : Z) : Prop := dbl_lt x dbl_zero = false /\ dbl_lt dbl_one x = false.

Lemma clamp01_unit v : unit_interval (clamp01 v).
Proof.
  unfold unit_interval, clamp01. destruct (dbl_lt v dbl_zero) eqn:A; [by vm_compute|].
  destruct (dbl_lt dbl_one v) eqn:B; [by vm_compute|]. done.
Qed.
Lemma defaults_unit :
  unit_interval kDefaultEqSelectivity /\ unit_interval kDefaultRangeSelectivity /\
  unit_interval (dbl_sub dbl_one kDefaultEqSelectivity) /\ unit_interval dbl_zero.
Proof. by vm_compute. Qed.
Lemma eq_default_unit : unit_interval kDefaultEqSelectivity. Proof. apply defaults_unit. Qed.
Lemma range_default_unit : unit_interval kDefaultRangeSelectivity. Proof. apply defaults_unit. Qed.
Lemma ne_default_unit : unit_interval (dbl_sub dbl_one kDefaultEqSelectivity). Proof. apply defaults_unit. Qed.
Lemma zero_unit : unit_interval dbl_zero. Proof. apply defaults_unit. Qed.
#[local] Hint Resolve clamp01_unit eq_default_unit range_default_unit ne_default_unit zero_unit : corodb.

Lemma eq_unit s v : unit_interval (selectivity_eq s v).
Proof. unfold selectivity_eq. repeat case_match; auto with corodb. Qed.
Lemma ne_unit s v : unit_interval (selectivity_ne s v).
Proof. unfold selectivity_ne. repeat case_match; auto with corodb. Qed.
Lemma range_unit s lo li hi hin : unit_interval (selectivity_range s lo li hi hin).
Proof. unfold selectivity_range. destruct (usable s); [|auto with corodb]. destruct (_ || _); auto with corodb. Qed.
Lemma in_list_unit s vs : unit_interval (selectivity_in_list s vs).
Proof. unfold selectivity_in_list. destruct vs; auto with corodb. Qed.
Lemma negate_unit n s : unit_interval s -> unit_interval (negate_if n s).
Proof. destruct n; cbn; auto with corodb. Qed.
#[local] Hint Resolve eq_unit ne_unit range_unit in_list_unit negate_unit : corodb.

(** The binary search ends in the bucket of the value. *)
Lemma search_bucket_spec bounds v fuel : forall lo hi,
  (lo < hi)%nat -> (hi - lo <= fuel)%nat -> ValueLess v (bound bounds lo) = false -> ValueLess v (bound bounds hi) = true ->
  let '(lo', hi') := search_bucket fuel bounds v lo hi in
  hi' = S lo' /\ (lo <= lo')%nat /\ (hi' <= hi)%nat /\ ValueLess v (bound bounds lo') = false /\ ValueLess v (bound bounds hi') = true.
Proof.
  induction fuel as [|fuel IH]; intros lo hi L Fu A B; [lia|]. cbn [search_bucket].
  destruct (Nat.ltb_spec 1 (hi - lo)) as [G|G]; [|split_and!; lia || done].
  assert (lo < (lo + hi) / 2 < hi)%nat as M.
  { split; [apply Nat.div_le_lower_bound; lia|apply Nat.Div0.div_lt_upper_bound; lia]. }
  set (mid := ((lo + hi) / 2)%nat) in *. destruct (ValueLess v (bound bounds mid)) eqn:E.
  - specialize (IH lo mid ltac:(lia) ltac:(lia) A E). destruct (search_bucket fuel bounds v lo mid). naive_solver lia.
  - specialize (IH mid hi ltac:(lia) ltac:(lia) E B). destruct (search_bucket fuel bounds v mid hi). naive_solver lia.
Qed.

(** An estimated selectivity never leaves [0, 1]: for any predicate and any
    statistics, whatever the doubles in them, the estimate is not below zero and
    not above one. *)
Theorem selectivity_bounded {Q} table_name column_stats (b : BoolExpr Q) :
  unit_interval (estimate_filter_selectivity table_name column_stats b).
Proof.
  destruct b as [c|l r|l r|l|i|b]; cbn [estimate_filter_selectivity]; unfold combine_and, combine_or; auto with corodb.
  - destruct c as [c|]; [|auto with corodb]. unfold estimate_comparison. repeat case_match; auto with corodb.
  - destruct i as [i|]; [|auto with corodb]. unfold estimate_in. repeat case_match; auto with corodb.
  - destruct b as [b|]; [|auto with corodb]. unfold estimate_between, selectivity_between. repeat case_match; auto with corodb.
Qed.

(** Half of the rows: [a < 50] on a histogram 1, 50, 99 without common values. *)
Example selectivity_half :
  let c := mkColStats (str "a") 0 100 0 0 42 [] [VInt 1; VInt 50; VInt 99] 0 12 in
  estimate_filter_selectivity (Q := unit) (str "t") (fun _ => Some c)
    (BComparison (Some (mkCmp (EColumn (mkRef [] (str "a"))) Lt (ELiteral (VInt 50))))) = dbl_point5.
Proof. by vm_compute. Qed.
