(* ===== verification/Protocol.v ===== *)
(** The text protocol: the answer the server writes
    ([include/corodb/server/sql_protocol.h]), the client's reading of it from a
    socket ([src/net/network.cpp], [read_response]), the table the client makes of it
    ([src/csql/main.cpp]) and its choice of a server ([src/net/conn_pool.cpp]). *)
From Stdlib Require Import ZArith Lia Strings.Byte.
From stdpp Require Import base numbers list sets strings.
From S2P Require Import Prelude Values Doubles Eval Lexer.
Local Open Scope Z_scope.

Definition tab : byte := Byte.x09.
Definition nl : byte := Byte.x0a.
Definition cr : byte := Byte.x0d.

(** * The server's answer *)

Definition value_to_string (v : Value) : bytes :=
  match v with
  | VNull => str "NULL"
  | VInt n => int_to_string n
  | VDouble d => dbl_to_string d
  | VText s => s
  end.

Definition sanitize_char (c : byte) : byte :=
  if bool_decide (c = tab) || bool_decide (c = nl) || bool_decide (c = cr) then " "%byte else c.
Definition sanitize (s : bytes) : bytes := map sanitize_char s.

(** Cells with tabs between them, and the end of the line. *)
Fixpoint join_tabs (cells : list bytes) : bytes :=
  match cells with [] => [] | [c] => c | c :: cells => c ++ [tab] ++ join_tabs cells end.

Definition header_name (i : nat) (b : Binding) : bytes :=
  if bool_decide (b_column b = []) then str "col" ++ int_to_string (Z.of_nat i + 1) else b_column b.
Definition header_cells (r : Record_) : list bytes := imap (fun i b => sanitize (header_name i b)) (rec_bindings r).
Definition row_cells (r : Record_) : list bytes := map (fun v => sanitize (value_to_string v)) (rec_values r).

Definition table_lines (rows : list Record_) : list bytes :=
  match rows with [] => [] | r :: _ => join_tabs (header_cells r) :: map (fun r => join_tabs (row_cells r)) rows end.
Definition text_of_lines (ls : list bytes) : bytes := concat (map (fun l => l ++ [nl]) ls).

Definition table_mark : bytes := str "@TABLE".
Definition end_mark : bytes := str "@END".
Definition table_answer (rows : list Record_) : bytes := text_of_lines ([table_mark] ++ table_lines rows).

(** [std::getline]: the lines of a text; what follows the last newline counts
    unless it is empty. *)
Fixpoint get_lines (cur s : bytes) : list bytes :=
  match s with
  | [] => match cur with [] => [] | _ => [cur] end
  | c :: s => if bool_decide (c = nl) then cur :: get_lines [] s else get_lines (cur ++ [c]) s
  end.

(** A message: its non-empty lines, indented. *)
Definition message_answer (m : bytes) : bytes :=
  concat (map (fun l => match l with [] => [] | _ => str "  " ++ l ++ [nl] end) (get_lines [] m)).

(** The end of [run_sql]: blanks at the front go, other answers than a table are
    indented, and the end mark follows. *)
Definition is_front_blank (c : byte) : bool :=
  bool_decide (c = " "%byte) || bool_decide (c = tab) || bool_decide (c = cr) || bool_decide (c = nl).
Fixpoint strip_front (s : bytes) : bytes := match s with [] => [] | c :: s' => if is_front_blank c then strip_front s' else s end.
Definition starts_with (p s : bytes) : bool := bool_decide (take (length p) s = p).
Definition finish_answer (res : bytes) : bytes :=
  let res := strip_front res in
  let res := match res with
             | [] => str "  OK" ++ [nl]
             | _ => if starts_with table_mark res then res else str "  " ++ res
             end in
  res ++ end_mark ++ [nl].

(** What [Database::execute] returns, as [run_sql] looks at it. *)
Inductive Answer := AMessage (m : bytes) | ARows (rows : list Record_) | ADone | ANothing.

Definition format_answer (a : Answer) : bytes :=
  finish_answer (match a with
                 | AMessage m => message_answer m
                 | ARows rows => table_answer rows
                 | ADone => str "  OK" ++ [nl]
                 | ANothing => []
                 end).

Fixpoint strip_blanks (s : bytes) : bytes := match s with [] => [] | c :: s' => if is_space c then strip_blanks s' else s end.
Definition trim_blanks (s : bytes) : bytes := reverse (strip_blanks (reverse (strip_blanks s))).
Definition drop_semicolon (s : bytes) : bytes :=
  match reverse s with c :: s' => if bool_decide (c = ";"%byte) then trim_blanks (reverse s') else s | [] => s end.

(** [process_sql_line]; no answer to an empty line. *)
Definition process_sql_line (execute : bytes -> res Answer) (line : bytes) : res bytes :=
  let line := drop_semicolon (trim_blanks line) in
  match line with
  | [] => Ok []
  | _ => match execute line with
         | Ok a => Ok (format_answer a)
         | Throw w => Ok (str "ERROR: " ++ str w ++ [nl] ++ end_mark ++ [nl])
         | UB w => UB w
         end
  end.

(** * The client *)

Definition ends_with (suffix s : bytes) : bool :=
  (length suffix <=? length s)%nat && bool_decide (drop (length s - length suffix) s = suffix).

(** [read_response], on the pieces the socket delivers until it is closed or the
    time is up. *)
Fixpoint read_response (out : bytes) (pieces : list bytes) : bytes :=
  match pieces with
  | [] => out
  | p :: pieces =>
      let out := out ++ p in
      if ends_with (end_mark ++ [nl]) out then take (length out - 5) out else read_response out pieces
  end.

Fixpoint split_tsv (cur s : bytes) : list bytes :=
  match s with
  | [] => [cur]
  | c :: s => if bool_decide (c = tab) then cur :: split_tsv [] s else split_tsv (cur ++ [c]) s
  end.

Definition drop_cr (l : bytes) : bytes :=
  match reverse l with c :: l' => if bool_decide (c = cr) then reverse l' else l | [] => l end.

(** The client's table: header and rows; empty lines after the header are skipped. *)
Definition parse_table (resp : bytes) : option (list bytes * list (list bytes)) :=
  if starts_with (table_mark ++ [nl]) resp then
    match map drop_cr (get_lines [] (drop 7 resp)) with
    | [] => None
    | h :: ls => Some (split_tsv [] h, map (split_tsv []) (List.filter (fun l => match l with [] => false | _ => true end) ls))
    end
  else None.

(** [routes_to_replica]: by the first five characters that are not blanks. *)
Definition routes_to_replica (has_replica : bool) (sql : bytes) : bool :=
  if has_replica then
    let head := map to_upper (take 5 (List.filter (fun c => negb (is_space c)) sql)) in
    bool_decide (head = str "SELEC") || bool_decide (head = str "SHOW")
  else false.

(** * Lines *)

Definition free_of (c : byte) (s : bytes) : Prop := c ∉ s.

Lemma first_newline a b a' b' : free_of nl a -> free_of nl a' -> a ++ nl :: b = a' ++ nl :: b' -> a = a' /\ b = b'.
Proof.
  unfold free_of. revert a'. induction a as [|x a IH]; intros [|y a'] Ha Ha' E; simpl in E; simplify_eq/=; [done|set_solver..|].
  destruct (IH a') as [-> ->]; set_solver.
Qed.

(** What stands before a newline of a text is some lines and the beginning of
    another. *)
Lemma split_text m ls : free_of nl m -> Forall (free_of nl) ls -> forall q rest,
  text_of_lines ls = q ++ m ++ nl :: rest ->
  exists ls1 x ls2, ls = ls1 ++ (x ++ m) :: ls2 /\ q = text_of_lines ls1 ++ x /\ rest = text_of_lines ls2.
Proof.
  intros Hm. induction 1 as [|l ls Hl Hls IH]; intros q rest E.
  { symmetry in E. apply app_nil in E as [_ E]. apply app_nil in E as [_ E]. done. }
  unfold text_of_lines in E. simpl in E. fold (text_of_lines ls) in E.
  rewrite <- app_assoc in E. simpl in E. destruct (decide (nl ∈ q)) as [Hq|Hq].
  - apply list_elem_of_split_l in Hq as (a & q' & -> & Ha). rewrite <- app_assoc in E. simpl in E.
    apply first_newline in E as [-> E]; [|done..]. destruct (IH _ _ E) as (ls1 & x & ls2 & -> & -> & ->).
    exists (a :: ls1), x, ls2. split_and!; [done| |done]. unfold text_of_lines. simpl. by rewrite <- !app_assoc.
  - rewrite app_assoc in E. apply first_newline in E as [-> <-]; [|done|unfold free_of in *; set_solver].
    by exists [], q, ls.
Qed.

Lemma lines_back cur s : free_of nl s -> forall rest, get_lines cur (s ++ nl :: rest) = (cur ++ s) :: get_lines [] rest.
Proof.
  unfold free_of. revert cur. induction s as [|c s IH]; intros cur Hs rest; simpl.
  - by rewrite app_nil_r.
  - rewrite bool_decide_false by set_solver. rewrite IH by set_solver. by rewrite <- app_assoc.
Qed.

Lemma get_text_lines ls : Forall (free_of nl) ls -> get_lines [] (text_of_lines ls) = ls.
Proof.
  induction 1 as [|l ls Hl _ IH]; [done|]. unfold text_of_lines. simpl. fold (text_of_lines ls).
  rewrite <- app_assoc. simpl. by rewrite lines_back, IH.
Qed.

(** * Cells *)

Definition plain (s : bytes) : Prop := free_of tab s /\ free_of nl s /\ free_of cr s.

Lemma sanitize_plain s : plain (sanitize s).
Proof.
  assert (H : forall c, c = tab \/ c = nl \/ c = cr -> c ∉ sanitize s).
  { intros c Hc Hin. apply list_elem_of_fmap in Hin as (d & -> & _). unfold sanitize_char in Hc.
    destruct (decide (d = tab)), (decide (d = nl)), (decide (d = cr)); subst; cbn in Hc; try naive_solver.
    rewrite !bool_decide_false in Hc by done. simpl in Hc. naive_solver. }
  split_and!; apply H; auto.
Qed.

Lemma header_plain r : Forall plain (header_cells r).
Proof. apply Forall_lookup. intros i c. unfold header_cells. rewrite list_lookup_imap. destruct (_ !! i); simpl; [|done]. intros [= <-]. apply sanitize_plain. Qed.

Lemma row_plain r : Forall plain (row_cells r).
Proof. unfold row_cells. apply Forall_map, Forall_true. intros v. apply sanitize_plain. Qed.

Lemma join_free c cells : c <> tab -> Forall (free_of c) cells -> free_of c (join_tabs cells).
Proof.
  unfold free_of. intros Hc. induction 1 as [|s cells Hs _ IH]; simpl; [set_solver|]. destruct cells; set_solver.
Qed.

Lemma join_nl cells : Forall plain cells -> free_of nl (join_tabs cells).
Proof. intros H. apply join_free; [done|]. eapply Forall_impl; [exact H|]. by intros s (?&?&?). Qed.
Lemma join_cr cells : Forall plain cells -> free_of cr (join_tabs cells).
Proof. intros H. apply join_free; [done|]. eapply Forall_impl; [exact H|]. by intros s (?&?&?). Qed.

Lemma split_tsv_app s : free_of tab s -> forall cur rest, split_tsv cur (s ++ tab :: rest) = (cur ++ s) :: split_tsv [] rest.
Proof.
  unfold free_of. induction s as [|c s IH]; intros Hs cur rest; simpl; [by rewrite app_nil_r|].
  rewrite bool_decide_false by set_solver. rewrite IH by set_solver. by rewrite <- app_assoc.
Qed.

Lemma split_tsv_last s : free_of tab s -> forall cur, split_tsv cur s = [cur ++ s].
Proof.
  unfold free_of. induction s as [|c s IH]; intros Hs cur; simpl; [by rewrite app_nil_r|].
  rewrite bool_decide_false by set_solver. rewrite IH by set_solver. by rewrite <- app_assoc.
Qed.

Lemma split_join cells : cells <> [] -> Forall plain cells -> split_tsv [] (join_tabs cells) = cells.
Proof.
  intros Hne H. induction H as [|s cells (Ht & _) _ IH]; [done|]. simpl. destruct cells as [|s' cells]; [by rewrite split_tsv_last|].
  change (s ++ [tab] ++ join_tabs (s' :: cells)) with (s ++ tab :: join_tabs (s' :: cells)).
  rewrite split_tsv_app by done. by rewrite IH.
Qed.

Lemma drop_cr_free l : free_of cr l -> drop_cr l = l.
Proof.
  unfold free_of, drop_cr. intros H. destruct (reverse l) as [|c l'] eqn:E; [done|].
  rewrite bool_decide_false; [done|]. intros ->. apply H. rewrite <- (reverse_involutive l), E, reverse_cons. set_solver.
Qed.

(** * A table gets through *)

Lemma ends_with_app suffix s : ends_with suffix (s ++ suffix) = true.
Proof.
  unfold ends_with. rewrite length_app. apply andb_true_intro. split; [apply Nat.leb_le; lia|].
  apply bool_decide_eq_true. by rewrite Nat.add_sub, drop_app_length.
Qed.

Lemma ends_with_inv suffix s : ends_with suffix s = true -> exists q, s = q ++ suffix.
Proof.
  unfold ends_with. intros [_ E%bool_decide_eq_true]%andb_prop. exists (take (length s - length suffix) s).
  rewrite <- E at 2. by rewrite take_drop.
Qed.

(** The client stops at the end mark and nowhere before it, however the answer is
    cut into pieces. *)
Lemma read_until_mark L : Forall (free_of nl) L -> Forall (fun l => ends_with end_mark l = false) L ->
  forall pieces out, out ++ concat pieces = text_of_lines L ++ end_mark ++ [nl] ->
  ends_with (end_mark ++ [nl]) out = false -> read_response out pieces = text_of_lines L.
Proof.
  intros Hnl Hend. induction pieces as [|p pieces IH]; intros out E Hout.
  { cbn [concat] in E. rewrite app_nil_r in E. subst. by rewrite ends_with_app in Hout. }
  cbn [concat read_response] in E |- *. rewrite app_assoc in E. destruct (ends_with (end_mark ++ [nl]) (out ++ p)) eqn:Hp; [|by apply IH].
  apply ends_with_inv in Hp as (q & Hq). rewrite Hq in E |- *.
  assert (El : text_of_lines (L ++ [end_mark]) = q ++ end_mark ++ nl :: concat pieces).
  { unfold text_of_lines. rewrite map_app, concat_app. fold (text_of_lines L).
    change (concat (map (fun l => l ++ [nl]) [end_mark])) with (end_mark ++ [nl]). rewrite <- E, <- !app_assoc. done. }
  apply split_text in El as (ls1 & x & ls2 & HL & -> & _).
  2: { unfold free_of. by apply (bool_decide_unpack _). }
  2: { apply Forall_app. split; [done|]. constructor; [|constructor]. by apply (bool_decide_unpack _). }
  destruct ls2 as [|l ls2 _] using rev_ind.
  - apply app_inj_tail in HL as [-> Hx]. destruct x as [|? [|? [|? [|? [|]]]]]; simplify_eq/=.
    rewrite app_nil_r, length_app. simpl. by rewrite Nat.add_sub, take_app_length.
  - rewrite app_comm_cons, app_assoc in HL. apply app_inj_tail in HL as [-> _].
    rewrite Forall_app, Forall_cons in Hend. destruct Hend as (_ & Hend & _). by rewrite ends_with_app in Hend.
Qed.

(** A row of cells that survives: there is a cell, the line is not empty, and it
    does not look like the end mark. *)
Definition sendable (cells : list bytes) : Prop :=
  cells <> [] /\ cells <> [[]] /\ ends_with end_mark (join_tabs cells) = false.

Lemma sendable_line cells : sendable cells -> join_tabs cells <> [].
Proof. intros (Hne & Hne' & _). destruct cells as [|[|] [|]]; simpl; done. Qed.

Lemma format_table rows : format_answer (ARows rows) = text_of_lines ([table_mark] ++ table_lines rows) ++ end_mark ++ [nl].
Proof. reflexivity. Qed.

Lemma parse_lines h ls :
  Forall (fun cells => Forall plain cells /\ sendable cells) (h :: ls) ->
  parse_table (text_of_lines ([table_mark] ++ map join_tabs (h :: ls))) = Some (h, ls).
Proof.
  intros H. unfold parse_table.
  change (drop 7 (text_of_lines ([table_mark] ++ map join_tabs (h :: ls)))) with (text_of_lines (map join_tabs (h :: ls))).
  change (starts_with (table_mark ++ [nl]) (text_of_lines ([table_mark] ++ map join_tabs (h :: ls)))) with true. cbv iota.
  rewrite get_text_lines.
  2: { apply Forall_map. eapply Forall_impl; [exact H|]. intros cells [Hp _]. by apply join_nl. }
  rewrite map_map.
  assert (E : forall cs, Forall (fun cells => Forall plain cells /\ sendable cells) cs -> map (fun x => drop_cr (join_tabs x)) cs = map join_tabs cs /\
    map (split_tsv []) (List.filter (fun l => match l with [] => false | _ => true end) (map join_tabs cs)) = cs).
  { induction 1 as [|cells cs (Hp & Hs) _ (IH1 & IH2)]; [done|]. simpl. rewrite IH1, drop_cr_free by by apply join_cr.
    split; [done|]. pose proof (sendable_line _ Hs). destruct (join_tabs cells) eqn:Ej; [done|]. rewrite <- Ej. simpl.
    rewrite IH2, split_join by (done || apply Hs). done. }
  inversion_clear H as [|? ? (Hp & Hs) Hls]. simpl. rewrite drop_cr_free by by apply join_cr.
  destruct (E _ Hls) as [-> ->]. rewrite split_join by (done || apply Hs). done.
Qed.

(** C39: the table protocol gets a result through.  However the socket cuts the
    server's answer into pieces, the client ends up with the header and the rows of
    the result, cell by cell, blanks in place of tabs and newlines, provided that
    every row has a cell, no row is one empty text, and no line ends like the end
    mark. *)
Theorem table_roundtrip r rows pieces :
  sendable (header_cells r) -> Forall (fun r => sendable (row_cells r)) (r :: rows) ->
  concat pieces = format_answer (ARows (r :: rows)) ->
  parse_table (read_response [] pieces) = Some (header_cells r, map row_cells (r :: rows)).
Proof.
  intros Hh Hr E. rewrite format_table in E.
  set (cells := header_cells r :: map row_cells (r :: rows)).
  assert (El : table_lines (r :: rows) = map join_tabs cells) by (unfold table_lines, cells; cbn [map]; by rewrite map_map).
  assert (Hc : Forall (fun cells => Forall plain cells /\ sendable cells) cells).
  { constructor; [split; [apply header_plain|done]|]. apply Forall_map. eapply Forall_impl; [exact Hr|].
    intros x Hx. split; [apply row_plain|done]. }
  rewrite El in E. rewrite (read_until_mark ([table_mark] ++ map join_tabs cells)); [by apply parse_lines| | |done|done].
  - constructor; [by apply (bool_decide_unpack _)|]. apply Forall_map. eapply Forall_impl; [exact Hc|]. intros x [Hx _]. by apply join_nl.
  - constructor; [done|]. apply Forall_map. eapply Forall_impl; [exact Hc|]. by intros x [_ (_ & _ & Hx)].
Qed.

Definition ex_row (n : Z) (t : bytes) : Record_ :=
  mkRecord [VInt n; VText t] [mkBinding (str "t") (str "a"); mkBinding (str "t") []].

Lemma table_roundtrip_witness :
  parse_table (read_response [] [take 9 (format_answer (ARows [ex_row 1 [tab]; ex_row 2 (str "@END x")]));
                                 drop 9 (format_answer (ARows [ex_row 1 [tab]; ex_row 2 (str "@END x")]))]) =
  Some ([str "a"; str "col2"], [[str "1"; str " "]; [str "2"; str "@END x"]]).
Proof.
  rewrite (table_roundtrip (ex_row 1 [tab]) [ex_row 2 (str "@END x")]).
  - vm_compute. reflexivity.
  - vm_compute. split_and!; congruence.
  - repeat constructor; vm_compute; congruence.
  - vm_compute. reflexivity.
Defined.

(** * Where it does not *)

(** A text at the end of a row that ends like the mark ends the answer when a piece
    ends there: the rest of the rows is taken for the answer to the next
    statement. *)
Lemma end_mark_anomaly :
  let answer := format_answer (ARows [ex_row 1 (str "@END"); ex_row 2 (str "x")]) in
  parse_table (read_response [] [take 21 answer; drop 21 answer]) = Some ([str "a"; str "col2"], [[str "1"; []]]).
Proof. vm_compute. reflexivity. Qed.

(** A row of one empty text is lost, and a result without rows has no header. *)
Definition ex_single (t : bytes) : Record_ := mkRecord [VText t] [mkBinding (str "t") (str "a")].

Lemma empty_row_anomaly :
  parse_table (read_response [] [format_answer (ARows [ex_single (str "x"); ex_single []])]) = Some ([str "a"], [[str "x"]]).
Proof. vm_compute. reflexivity. Qed.

Lemma empty_result_anomaly : parse_table (read_response [] [format_answer (ARows [])]) = None.
Proof. vm_compute. reflexivity. Qed.

(** [SHOW ...] never goes to the replica: the five letters looked at run into the
    next word. *)
Lemma show_not_routed : routes_to_replica true (str "SHOW STATUS") = false /\ routes_to_replica true (str "SELECT 1") = true.
Proof. split; vm_compute; reflexivity. Qed.
