(* ===== verification/Server.v ===== *)
(** A client connection on the server: the buffers and states of
    [src/threading/connection.cpp], the queue of tasks of its event loop
    ([src/threading/event_loop.cpp]), the lines, the rate limit and the answers of
    [on_message] in [src/server/server.cpp], and the worker threads of
    [src/threading/thread_pool.cpp].

    What a system call returns is an argument of the operation that makes it.  The
    program behind [process_sql_line] is a function of the session and the database
    together; a statement runs in one step. *)
From Stdlib Require Import ZArith Lia Strings.Byte.
From stdpp Require Import base numbers list sets strings relations.
From S2P Require Import Prelude Values Doubles Eval Lexer Protocol.
Local Open Scope Z_scope.

(** * The connection *)

Inductive ConnectionState := Disconnected | Connecting | Connected | Disconnecting.
#[export] Instance ConnectionState_eq : EqDecision ConnectionState.
Proof. solve_decision. Defined.

(** [reading] and [writing] are the events of the channel; [sent] are the bytes the
    socket has taken, [write_shut] says that its write end is shut down. *)
Record Connection := mkConn {
  conn_state : ConnectionState;
  input_buffer : bytes;
  output_buffer : bytes;
  write_offset : nat;
  reading : bool;
  writing : bool;
  max_input_buffer_size : Z;
  max_output_buffer_size : Z;
  sent : bytes;
  write_shut : bool
}.

Definition new_connection (max_in max_out : Z) : Connection := mkConn Connecting [] [] 0 false false max_in max_out [] false.

Definition set_state (st : ConnectionState) (c : Connection) : Connection :=
  mkConn st (input_buffer c) (output_buffer c) (write_offset c) (reading c) (writing c)
    (max_input_buffer_size c) (max_output_buffer_size c) (sent c) (write_shut c).
Definition set_events (r w : bool) (c : Connection) : Connection :=
  mkConn (conn_state c) (input_buffer c) (output_buffer c) (write_offset c) r w
    (max_input_buffer_size c) (max_output_buffer_size c) (sent c) (write_shut c).
Definition set_input (b : bytes) (c : Connection) : Connection :=
  mkConn (conn_state c) b (output_buffer c) (write_offset c) (reading c) (writing c)
    (max_input_buffer_size c) (max_output_buffer_size c) (sent c) (write_shut c).
Definition set_output (b : bytes) (off : nat) (snt : bytes) (c : Connection) : Connection :=
  mkConn (conn_state c) (input_buffer c) b off (reading c) (writing c)
    (max_input_buffer_size c) (max_output_buffer_size c) snt (write_shut c).
Definition shut_write (c : Connection) : Connection :=
  mkConn (conn_state c) (input_buffer c) (output_buffer c) (write_offset c) (reading c) (writing c)
    (max_input_buffer_size c) (max_output_buffer_size c) (sent c) true.

(** What [write] and [read] on the socket return. *)
Inductive WriteResult := Wrote (n : nat) | WriteAgain | PeerGone | WriteError.
Inductive ReadResult := Got (data : bytes) | Eof | ReadAgain | ReadError.

Definition connection_established (c : Connection) : Connection := set_events true (writing c) (set_state Connected c).

(** The operations that may close the connection say whether they called the
    close callback. *)
Definition handle_close (c : Connection) : Connection * bool := (set_events false false (set_state Disconnected c), true).

Definition send_in_loop (w : WriteResult) (data : bytes) (c : Connection) : Connection * bool :=
  if decide (conn_state c = Connected) then
    let try := (length (output_buffer c) <=? write_offset c)%nat in
    let c := if try then set_output [] 0 (sent c) c else c in
    if try && match w with PeerGone => true | _ => false end then handle_close c else
    let n := match w with Wrote n => if try then n else 0%nat | _ => 0%nat end in
    let c := set_output (output_buffer c) (write_offset c) (sent c ++ take n data) c in
    match drop n data with
    | [] => (c, false)
    | rest =>
        let c := set_output (output_buffer c ++ rest) (write_offset c) (sent c) c in
        if max_output_buffer_size c <? blen (output_buffer c) then handle_close c
        else (set_events (reading c) true c, false)
    end
  else (c, false).

Definition shutdown_in_loop (c : Connection) : Connection := if writing c then c else shut_write c.

Definition force_close (c : Connection) : Connection * bool :=
  if decide (conn_state c = Connected \/ conn_state c = Disconnecting) then handle_close c else (c, false).

(** Without the message callback, which the server runs on the input buffer. *)
Definition handle_read (r : ReadResult) (c : Connection) : Connection * bool :=
  match r with
  | Got data =>
      let c := set_input (input_buffer c ++ data) c in
      if max_input_buffer_size c <? blen (input_buffer c) then handle_close c else (c, false)
  | Eof | ReadError => handle_close c
  | ReadAgain => (c, false)
  end.

Definition handle_write (w : WriteResult) (c : Connection) : Connection :=
  if writing c then
    match w with
    | Wrote (S _ as n) =>
        let c := set_output (output_buffer c) (write_offset c + n)
                   (sent c ++ take n (drop (write_offset c) (output_buffer c))) c in
        if (length (output_buffer c) <=? write_offset c)%nat then
          let c := set_events (reading c) false (set_output [] 0 (sent c) c) in
          if decide (conn_state c = Disconnecting) then shutdown_in_loop c else c
        else c
    | _ => c
    end
  else c.

Definition unsent (c : Connection) : bytes := drop (write_offset c) (output_buffer c).

(** * Lines *)

(** The loop of [on_message]: the first line of the buffer, and all of them. *)
Fixpoint next_line (cur buffer : bytes) : option (bytes * bytes) :=
  match buffer with
  | [] => None
  | c :: buffer => if bool_decide (c = nl) then Some (cur, buffer) else next_line (cur ++ [c]) buffer
  end.
Fixpoint take_lines (cur buffer : bytes) : list bytes * bytes :=
  match buffer with
  | [] => ([], cur)
  | c :: buffer =>
      if bool_decide (c = nl) then let '(ls, rest) := take_lines [] buffer in (cur :: ls, rest)
      else take_lines (cur ++ [c]) buffer
  end.

Definition is_blank (line : bytes) : bool := forallb is_space line.
Definition statements (buffer : bytes) : list bytes := List.filter (fun l => negb (is_blank l)) (take_lines [] buffer).1.

(** * The rate limit *)

Section Service.
Context {X : Type}.

Record Service := mkService {
  rate_tokens : Z;
  rate_last_refill_ns : Z;
  statements_executed : Z;
  backend : X               (* the rest of the session, and the database *)
}.

Definition new_service (x : X) : Service := mkService 0 0 0 x.

Definition refill (rate now : Z) (s : Service) : Service :=
  if negb (rate_last_refill_ns s =? 0) && (rate_last_refill_ns s <? now) then
    let gained := u64 ((now - rate_last_refill_ns s) * rate) / 1000000000 in
    if 0 <? gained then mkService (u32 (Z.min rate (rate_tokens s + gained))) now (statements_executed s) (backend s) else s
  else mkService rate now (statements_executed s) (backend s).

(** Whether the statement may run; it takes a token. *)
Definition take_token (rate now : Z) (s : Service) : Service * bool :=
  if 0 <? rate then
    let s := refill rate now s in
    if rate_tokens s =? 0 then (s, false)
    else (mkService (rate_tokens s - 1) (rate_last_refill_ns s) (statements_executed s) (backend s), true)
  else (s, true).

Definition rate_error (rate : Z) : bytes :=
  str "ERROR: rate limit exceeded (" ++ int_to_string rate ++ str " stmts/s)" ++ [nl] ++ end_mark ++ [nl].

(** [process_sql_line], and the close callback: rollback, locks, buffers. *)
Context (rate : Z) (process : bytes -> X -> X * bytes) (cleanup : X -> X).

(** The task of a statement. *)
Definition run_task (now : Z) (line : bytes) (s : Service) : Service * bytes :=
  let '(s, ok) := take_token rate now s in
  if ok then
    let '(x, response) := process line (backend s) in
    (mkService (rate_tokens s) (rate_last_refill_ns s) (u64 (statements_executed s + 1)) x, response)
  else (s, rate_error rate).

Definition on_close (s : Service) : Service :=
  mkService (rate_tokens s) (rate_last_refill_ns s) (statements_executed s) (cleanup (backend s)).

(** * The server, for one connection *)

(** Tasks of the event loop; a worker thread with its statement or its answer; and
    what happened to the session so far, for the specification only. *)
Inductive Functor := FSend (data : bytes) | FShutdown | FForceClose.
Inductive Worker := Started (line : bytes) | Finished (response : bytes).
Inductive Event := EStmt (now : Z) (line : bytes) | EClose.

Record Server := mkServer {
  conn : Connection;
  pending_functors : list Functor;
  tasks : list bytes;
  workers : list Worker;
  service : Service;
  received : bytes;
  log : list Event
}.

(** The loop runs [connection_established] before it looks at the socket. *)
Definition new_server (max_in max_out : Z) (x : X) : Server :=
  mkServer (connection_established (new_connection max_in max_out)) [] [] [] (new_service x) [] [].

Definition set_conn (c : Connection) (s : Server) : Server :=
  mkServer c (pending_functors s) (tasks s) (workers s) (service s) (received s) (log s).
Definition set_functors (fs : list Functor) (s : Server) : Server :=
  mkServer (conn s) fs (tasks s) (workers s) (service s) (received s) (log s).
Definition set_pool (ts : list bytes) (ws : list Worker) (s : Server) : Server :=
  mkServer (conn s) (pending_functors s) ts ws (service s) (received s) (log s).
Definition set_received (b : bytes) (s : Server) : Server :=
  mkServer (conn s) (pending_functors s) (tasks s) (workers s) (service s) b (log s).
Definition set_service (sv : Service) (l : list Event) (s : Server) : Server :=
  mkServer (conn s) (pending_functors s) (tasks s) (workers s) sv (received s) l.

(** After an operation of the connection: the close callback, if it was called. *)
Definition after (r : Connection * bool) (s : Server) : Server :=
  let s := set_conn r.1 s in
  if r.2 then set_service (on_close (service s)) (log s ++ [EClose]) s else s.

(** [Connection::send] and [Connection::shutdown], called by another thread. *)
Definition send (data : bytes) (s : Server) : Server :=
  if decide (conn_state (conn s) = Connected) then set_functors (pending_functors s ++ [FSend data]) s else s.
Definition shutdown (s : Server) : Server :=
  if decide (conn_state (conn s) = Connected)
  then set_functors (pending_functors s ++ [FShutdown]) (set_conn (set_state Disconnecting (conn s)) s) else s.

Definition run_functor (w : WriteResult) (f : Functor) (s : Server) : Server :=
  match f with
  | FSend data => after (send_in_loop w data (conn s)) s
  | FShutdown => set_conn (shutdown_in_loop (conn s)) s
  | FForceClose => after (force_close (conn s)) s
  end.

(** One round of [on_message]; [post] waits while the queue is full. *)
Definition has_room (max_queue : nat) (s : Server) : bool := (max_queue =? 0)%nat || (length (tasks s) <? max_queue)%nat.
Definition take_line (max_queue : nat) (s : Server) : option Server :=
  if decide (conn_state (conn s) = Disconnected) then None else
  match next_line [] (input_buffer (conn s)) with
  | None => None
  | Some (line, rest) =>
      let s' := set_conn (set_input rest (conn s)) s in
      if is_blank line then Some s'
      else if has_room max_queue s then Some (set_pool (tasks s ++ [line]) (workers s) s') else None
  end.

(** The event loop has left [on_message]. *)
Definition loop_idle (s : Server) : bool :=
  bool_decide (conn_state (conn s) = Disconnected) ||
  match next_line [] (input_buffer (conn s)) with None => true | Some _ => false end.

Definition pick (n : nat) (s : Server) : option Server :=
  match tasks s with
  | line :: ts => if (length (workers s) <? n)%nat then Some (set_pool ts (workers s ++ [Started line]) s) else None
  | [] => None
  end.
Definition execute (now : Z) (i : nat) (s : Server) : option Server :=
  match workers s !! i with
  | Some (Started line) =>
      let '(sv, response) := run_task now line (service s) in
      Some (set_service sv (log s ++ [EStmt now line]) (set_pool (tasks s) (<[i := Finished response]> (workers s)) s))
  | _ => None
  end.
Definition reply (i : nat) (s : Server) : option Server :=
  match workers s !! i with
  | Some (Finished response) =>
      let s := set_pool (tasks s) (delete i (workers s)) s in
      Some (match response with [] => s | _ => send response s end)
  | _ => None
  end.

Inductive step (n max_queue : nat) : Server -> Server -> Prop :=
| s_read s data : loop_idle s = true -> reading (conn s) = true ->
    step n max_queue s (after (handle_read (Got data) (conn s)) (set_received (received s ++ data) s))
| s_end s r : loop_idle s = true -> reading (conn s) = true -> r = Eof \/ r = ReadAgain \/ r = ReadError ->
    step n max_queue s (after (handle_read r (conn s)) s)
| s_line s s' : take_line max_queue s = Some s' -> step n max_queue s s'
| s_pick s s' : pick n s = Some s' -> step n max_queue s s'
| s_execute s s' now i : execute now i s = Some s' -> step n max_queue s s'
| s_reply s s' i : reply i s = Some s' -> step n max_queue s s'
| s_functor s f fs w : loop_idle s = true -> pending_functors s = f :: fs ->
    step n max_queue s (run_functor w f (set_functors fs s))
| s_write s w : loop_idle s = true -> step n max_queue s (set_conn (handle_write w (conn s)) s)
| s_shutdown s : step n max_queue s (shutdown s)
| s_force s : step n max_queue s (set_functors (pending_functors s ++ [FForceClose]) s).

(** * What the statements answer, one after the other *)

Definition event (acc : Service * bytes) (e : Event) : Service * bytes :=
  match e with
  | EStmt now line => let '(s, response) := run_task now line acc.1 in (s, acc.2 ++ response)
  | EClose => (on_close acc.1, acc.2)
  end.
Definition play (s : Service) (es : list Event) : Service * bytes := fold_left event es (s, []).

Definition stmt_of (e : Event) : option bytes := match e with EStmt _ line => Some line | EClose => None end.

(** * Lines and pieces *)

Lemma take_lines_app a : forall cur b,
  take_lines cur (a ++ b) =
  ((take_lines cur a).1 ++ (take_lines (take_lines cur a).2 b).1, (take_lines (take_lines cur a).2 b).2).
Proof.
  induction a as [|c a IH]; intros cur b; simpl; [by destruct (take_lines cur b)|].
  destruct (bool_decide (c = nl)); [|apply IH]. rewrite IH. by destruct (take_lines [] a).
Qed.

Lemma next_line_some b : forall cur l rest, next_line cur b = Some (l, rest) ->
  take_lines cur b = (l :: (take_lines [] rest).1, (take_lines [] rest).2).
Proof.
  induction b as [|c b IH]; intros cur l rest; simpl; [done|].
  destruct (bool_decide (c = nl)); [|apply IH]. intros [= -> ->]. by destruct (take_lines [] rest).
Qed.

Lemma next_line_none b : forall cur, next_line cur b = None -> (take_lines cur b).1 = [].
Proof. induction b as [|c b IH]; intros cur; simpl; [done|]. destruct (bool_decide (c = nl)); [done|apply IH]. Qed.

Lemma statements_line b l rest : next_line [] b = Some (l, rest) ->
  statements b = (if is_blank l then [] else [l]) ++ statements rest.
Proof. intros H. unfold statements. rewrite (next_line_some _ _ _ _ H). simpl. by destruct (is_blank l). Qed.

(** The statements of what arrives do not depend on how it is cut into pieces. *)
Lemma statements_app a b d : (take_lines [] a).2 = (take_lines [] b).2 -> forall ss, statements a = ss ++ statements b ->
  statements (a ++ d) = ss ++ statements (b ++ d) /\ (take_lines [] (a ++ d)).2 = (take_lines [] (b ++ d)).2.
Proof.
  intros E ss Es. unfold statements in *. rewrite !take_lines_app. simpl. rewrite !List.filter_app, Es, E. split; [|done].
  by rewrite app_assoc.
Qed.

(** * Operations of the connection *)

Definition flushed (c : Connection) : Prop := writing c = false -> unsent c = [].

Lemma unsent_past c : (length (output_buffer c) <= write_offset c)%nat -> unsent c = [].
Proof. apply drop_ge. Qed.

Lemma send_in_loop_spec w data c c' closed :
  conn_state c = Connected -> flushed c -> send_in_loop w data c = (c', closed) ->
  input_buffer c' = input_buffer c /\
  if closed then conn_state c' = Disconnected /\ reading c' = false /\ sent c' ++ unsent c' `prefix_of` sent c ++ unsent c ++ data
  else conn_state c' = Connected /\ sent c' ++ unsent c' = sent c ++ unsent c ++ data /\ flushed c'.
Proof.
  intros Hc Hf. unfold send_in_loop. rewrite decide_True by done.
  destruct (Nat.leb_spec (length (output_buffer c)) (write_offset c)) as [L|L]; cbn -[take drop].
  - rewrite (unsent_past c L), app_nil_l.
    assert (G : forall n, sent c ++ data = (sent c ++ take n data) ++ drop n data) by (intros; by rewrite <- app_assoc, take_drop).
    destruct (match w with PeerGone => true | _ => false end).
    + intros [= <- <-]. split_and!; [done..|]. exists data. by rewrite app_nil_r.
    + set (n := match w with Wrote n => n | _ => 0%nat end). rewrite (G n).
      destruct (drop n data) as [|b rest] eqn:D; cbn -[take drop].
      * intros [= <- <-]. split_and!; [done..|]. intros _. done.
      * destruct (_ <? _); intros [= <- <-]; by split_and!.
  - replace (match w with Wrote _ => 0%nat | _ => 0%nat end) with 0%nat by by destruct w.
    rewrite take_0, drop_0, app_nil_r. destruct data as [|b data].
    + intros [= <- <-]. split_and!; [done..| |]; [by rewrite app_nil_r|done].
    + cbn -[drop]. assert (Hd : drop (write_offset c) (output_buffer c ++ b :: data) = unsent c ++ b :: data).
      { unfold unsent. rewrite drop_app_le by lia. done. }
      destruct (_ <? _); intros [= <- <-]; unfold unsent at 1; cbn -[drop]; rewrite Hd; by split_and!.
Qed.

Lemma handle_write_spec w c :
  let c' := handle_write w c in
  conn_state c' = conn_state c /\ input_buffer c' = input_buffer c /\ reading c' = reading c /\
  sent c' ++ unsent c' = sent c ++ unsent c /\ (flushed c -> flushed c').
Proof.
  unfold handle_write. destruct (writing c) eqn:W; [|done]. destruct w as [[|n]| | |]; try done.
  set (k := S n). cbn -[take drop].
  destruct (Nat.leb_spec (length (output_buffer c)) (write_offset c + k)) as [L|L].
  - assert (take k (drop (write_offset c) (output_buffer c)) = unsent c) as -> by (unfold unsent; apply take_ge; rewrite length_drop; lia).
    destruct (decide _); cbn; by rewrite app_nil_r.
  - cbn -[take drop]. split_and!; try done.
    + unfold unsent. cbn -[take drop]. rewrite <- app_assoc. f_equal. rewrite <- drop_drop. apply take_drop.
    + unfold flushed, unsent. cbn. by rewrite W.
Qed.
(** * The invariant of a server with one worker *)

Definition started_of (w : Worker) : option bytes := match w with Started l => Some l | Finished _ => None end.
Definition finished_of (w : Worker) : bytes := match w with Started _ => [] | Finished r => r end.
Definition queued_of (f : Functor) : bytes := match f with FSend d => d | _ => [] end.

(** The statements taken from the input, in the order they were. *)
Definition taken (s : Server) : list bytes := omap stmt_of (log s) ++ omap started_of (workers s) ++ tasks s.
(** The answers on their way to the connection. *)
Definition coming (s : Server) : bytes := concat (map queued_of (pending_functors s)) ++ concat (map finished_of (workers s)).

Record server_ok (sv0 : Service) (s : Server) : Prop := {
  ok_workers : (length (workers s) <= 1)%nat;
  ok_reading : conn_state (conn s) = Disconnected -> reading (conn s) = false;
  ok_taken : taken s `prefix_of` statements (received s);
  ok_open : conn_state (conn s) <> Disconnected ->
    statements (received s) = taken s ++ statements (input_buffer (conn s)) /\
    (take_lines [] (received s)).2 = (take_lines [] (input_buffer (conn s))).2;
  ok_log : conn_state (conn s) <> Disconnected -> EClose ∉ log s;
  ok_service : (play sv0 (log s)).1 = service s;
  ok_out : sent (conn s) ++ unsent (conn s) `prefix_of` (play sv0 (log s)).2;
  ok_connected : conn_state (conn s) = Connected ->
    (sent (conn s) ++ unsent (conn s)) ++ coming s = (play sv0 (log s)).2 /\ flushed (conn s) /\ FShutdown ∉ pending_functors s
}.

Lemma play_app sv0 es e : play sv0 (es ++ [e]) = event (play sv0 es) e.
Proof. unfold play. by rewrite fold_left_app. Qed.

Lemma new_server_ok max_in max_out x : server_ok (new_service x) (new_server max_in max_out x).
Proof.
  split; cbn; try (done || lia || (intros _; apply not_elem_of_nil)). intros _. split_and!; [done..|]. apply not_elem_of_nil.
Qed.

(** An operation of the connection that keeps the input and closes or not. *)
Lemma close_ok sv0 s c :
  server_ok sv0 s -> conn_state c = Disconnected -> reading c = false -> sent c ++ unsent c `prefix_of` (play sv0 (log s)).2 ->
  server_ok sv0 (after (c, true) s).
Proof.
  intros [Wk Rd Tk Op Lg Sv Out Cn] Hc Hr Ho. unfold after. split; cbn -[play]; try (done || congruence).
  - unfold taken. cbn. rewrite omap_app. simpl. by rewrite app_nil_r.
  - rewrite play_app. cbn. by rewrite Sv.
  - by rewrite play_app.
Qed.

Lemma conn_ok sv0 s c :
  server_ok sv0 s -> input_buffer c = input_buffer (conn s) -> (conn_state (conn s) = Disconnected -> conn_state c = Disconnected) ->
  (conn_state c = Disconnected -> reading c = false) ->
  (conn_state c = Connected -> conn_state (conn s) = Connected /\ flushed c) ->
  sent c ++ unsent c = sent (conn s) ++ unsent (conn s) -> server_ok sv0 (set_conn c s).
Proof.
  intros [Wk Rd Tk Op Lg Sv Out Cn] Hi Hd Hr Hs Ho. split; cbn -[play]; try done.
  - rewrite Hi. intros H. apply Op. naive_solver.
  - intros H. apply Lg. naive_solver.
  - by rewrite Ho.
  - intros H. destruct (Hs H) as [H' Hf]. destruct (Cn H') as (E & _ & Fs). split_and!; [|done..]. rewrite Ho. exact E.
Qed.

Lemma read_ok sv0 s r : reading (conn s) = true -> server_ok sv0 s ->
  match r with
  | Got data => server_ok sv0 (after (handle_read r (conn s)) (set_received (received s ++ data) s))
  | _ => server_ok sv0 (after (handle_read r (conn s)) s)
  end.
Proof.
  intros Hr Ok. assert (conn_state (conn s) <> Disconnected) as Hn.
  { intros H. rewrite (ok_reading _ _ Ok H) in Hr. done. }
  destruct r as [data| | |]; cbn [handle_read].
  2,4: apply close_ok; [done..|apply Ok].
  2: { apply conn_ok; [done..| |done]. intros H. split; [done|]. by apply Ok. }
  pose proof (ok_open _ _ Ok Hn) as [E1 E2].
  destruct (statements_app (received s) (input_buffer (conn s)) data E2 (taken s) E1) as [E3 E4].
  assert (Ok' : server_ok sv0 (set_conn (set_input (input_buffer (conn s) ++ data) (conn s)) (set_received (received s ++ data) s))).
  { destruct Ok as [Wk Rd Tk Op Lg Sv Out Cn]. split; cbn -[play]; try done. exists (statements (input_buffer (conn s) ++ data)). exact E3. }
  destruct (_ <? _); [|exact Ok']. apply (close_ok _ _ (handle_close (set_input (input_buffer (conn s) ++ data) (conn s))).1) in Ok'; [exact Ok'|done|done|].
  apply Ok'.
Qed.
Lemma line_ok sv0 q s s' : take_line q s = Some s' -> server_ok sv0 s -> server_ok sv0 s' /\ received s' = received s.
Proof.
  unfold take_line. destruct (decide _) as [|Hn]; [done|]. destruct (next_line [] _) as [[l rest]|] eqn:Nl; [|done].
  intros H [Wk Rd Tk Op Lg Sv Out Cn]. destruct (Op Hn) as [E1 E2]. rewrite (statements_line _ _ _ Nl) in E1.
  rewrite (next_line_some _ _ _ _ Nl) in E2. simpl in E2.
  destruct (is_blank l); [|destruct (has_room q s)]; simplify_eq; (split; [|done]); split; cbn -[play]; try done.
  - exists (statements rest). rewrite E1. unfold taken. cbn. by rewrite <- !app_assoc.
  - intros _. split; [|done]. rewrite E1. unfold taken. cbn. by rewrite <- !app_assoc.
Qed.

Lemma pick_ok sv0 s s' : pick 1 s = Some s' -> server_ok sv0 s -> server_ok sv0 s' /\ received s' = received s.
Proof.
  unfold pick. destruct (tasks s) as [|l ts] eqn:Et; [done|]. destruct (Nat.ltb_spec (length (workers s)) 1) as [L|L]; [|done].
  destruct (workers s) as [|w ws] eqn:Ew; [|simpl in L; lia]. intros [= <-] [Wk Rd Tk Op Lg Sv Out Cn]. split; [|done].
  unfold taken, coming in *. rewrite Et, Ew in *. split; cbn -[play]; done || lia.
Qed.

Lemma execute_ok sv0 now i s s' : execute now i s = Some s' -> server_ok sv0 s -> server_ok sv0 s' /\ received s' = received s.
Proof.
  unfold execute. destruct (workers s !! i) as [[l|]|] eqn:Ew; [|done..].
  destruct (run_task now l (service s)) as [sv resp] eqn:Er. intros [= <-] [Wk Rd Tk Op Lg Sv Out Cn].
  destruct (workers s) as [|w [|]] eqn:E; [done| |simpl in Wk; lia]. destruct i; [|done]. simplify_eq/=.
  assert (P : play sv0 (log s ++ [EStmt now l]) = (sv, (play sv0 (log s)).2 ++ resp)).
  { rewrite play_app. unfold event. by rewrite Sv, Er. }
  unfold taken, coming in *. rewrite E in *. cbn -[play] in *. split; [|done].
  split; cbn -[play]; unfold taken, coming; cbn -[play]; rewrite ?P, ?omap_app; cbn -[play]; try done.
  - by rewrite <- app_assoc.
  - intros H. destruct (Op H) as [-> ?]. by rewrite <- !app_assoc.
  - intros H. specialize (Lg H). rewrite not_elem_of_app, list_elem_of_singleton. naive_solver.
  - by apply prefix_app_r.
  - intros H. destruct (Cn H) as (<- & ? & ?). split_and!; [|done..]. rewrite !app_nil_r, <- !app_assoc. done.
Qed.

Lemma reply_ok sv0 i s s' : reply i s = Some s' -> server_ok sv0 s -> server_ok sv0 s' /\ received s' = received s.
Proof.
  unfold reply. destruct (workers s !! i) as [[|resp]|] eqn:Ew; [done| |done]. intros H [Wk Rd Tk Op Lg Sv Out Cn].
  destruct (workers s) as [|w [|]] eqn:E; [done| |simpl in Wk; lia]. destruct i; [|done]. simplify_eq/=.
  unfold taken, coming in *. rewrite E in *. cbn -[play] in *.
  destruct resp as [|b resp]; [split; [|done]; split; cbn -[play]; done || lia|].
  unfold send. cbn -[play]. destruct (decide _) as [Hc|Hc]; (split; [|done]); split; cbn -[play]; try (done || lia).
  intros H. destruct (Cn H) as (<- & ? & ?). split_and!; [|done|set_solver]. unfold coming. cbn -[play concat app].
  rewrite map_app, concat_app. simpl. by rewrite !app_nil_r.
Qed.

Lemma functor_ok sv0 w f fs s : pending_functors s = f :: fs -> server_ok sv0 s -> server_ok sv0 (run_functor w f (set_functors fs s)).
Proof.
  intros Ef Ok. assert (Ok' : conn_state (conn s) <> Connected -> server_ok sv0 (set_functors fs s)).
  { intros Hn. destruct Ok as [Wk Rd Tk Op Lg Sv Out Cn]. split; cbn -[play]; done. }
  destruct f as [data| |]; cbn [run_functor].
  - destruct (send_in_loop w data (conn (set_functors fs s))) as [c' closed] eqn:Es. cbn [conn set_functors] in Es.
    destruct (decide (conn_state (conn s) = Connected)) as [Hc|Hc].
    2: { unfold send_in_loop in Es. rewrite decide_False in Es by done. simplify_eq. by apply Ok'. }
    destruct Ok as [Wk Rd Tk Op Lg Sv Out Cn]. destruct (Cn Hc) as (E & Fl & Fs).
    unfold coming in E. rewrite Ef in E. cbn -[play] in E.
    destruct (send_in_loop_spec w data _ c' closed Hc Fl Es) as [Hi Hs]. destruct closed.
    + destruct Hs as (Hd & Hr & Hp). unfold after. split; cbn -[play]; try (done || congruence).
      * unfold taken. cbn. rewrite omap_app. simpl. by rewrite app_nil_r.
      * rewrite play_app. cbn. by rewrite Sv.
      * rewrite play_app. cbn [event snd]. etrans; [exact Hp|]. rewrite <- E, <- !app_assoc. eexists. rewrite <- !app_assoc. done.
    + destruct Hs as (Hd & Hp & Hf). unfold after. split; cbn -[play]; try (done || congruence).
      * intros _. rewrite Hi. apply (Op ltac:(congruence)).
      * intros _. apply (Lg ltac:(congruence)).
      * rewrite Hp, <- E, <- !app_assoc. eexists. rewrite <- !app_assoc. done.
      * intros _. split_and!; [|done|by rewrite Ef, not_elem_of_cons in Fs; destruct Fs]. unfold coming. cbn -[play]. rewrite Hp, <- E, <- !app_assoc. done.
  - assert (conn_state (conn s) <> Connected) as Hc by (intros Hc; destruct (ok_connected _ _ Ok Hc) as (_ & _ & H); rewrite Ef, not_elem_of_cons in H; naive_solver).
    apply conn_ok; [by apply Ok'|..]; unfold shutdown_in_loop; cbn; destruct (writing (conn s)); cbn; try done; apply Ok.
  - unfold force_close. cbn [conn set_functors]. destruct (decide _) as [Hc|Hc].
    + assert (server_ok sv0 (set_functors fs s)) as Ok2.
      { destruct (decide (conn_state (conn s) = Connected)) as [Hc'|]; [|by apply Ok'].
        destruct Ok as [Wk Rd Tk Op Lg Sv Out Cn]. destruct (Cn Hc') as (E & ? & Fs). unfold coming in E. rewrite Ef in E, Fs. rewrite not_elem_of_cons in Fs.
        split; cbn -[play]; try done. intros _. split_and!; [done|done|apply Fs]. }
      apply close_ok; [done..|apply Ok].
    + apply Ok'. naive_solver.
Qed.

Lemma server_step_ok sv0 q s s' : step 1 q s s' -> server_ok sv0 s -> server_ok sv0 s'.
Proof.
  destruct 1 as [s data _ Hr|s r _ Hr Hc|s s' E|s s' E|s s' now i E|s s' i E|s f fs w _ E|s w _|s|s]; intros Ok.
  - by apply (read_ok sv0 s (Got data)).
  - pose proof (read_ok sv0 s r Hr Ok) as H. by destruct Hc as [->|[->| ->]].
  - by eapply line_ok.
  - by eapply pick_ok.
  - by eapply execute_ok.
  - by eapply reply_ok.
  - by apply functor_ok.
  - destruct (handle_write_spec w (conn s)) as (H1 & H2 & H3 & H4 & H5). apply conn_ok; rewrite ?H1, ?H3; try done; [apply Ok|].
    intros H. split; [done|]. by apply H5, Ok.
  - unfold shutdown. destruct (decide _) as [Hc|Hc]; [|done]. pose proof Ok as [Wk Rd Tk Op Lg Sv Out Cn].
    split; cbn -[play]; try done; intros _; [apply Op|apply Lg]; congruence.
  - destruct Ok as [Wk Rd Tk Op Lg Sv Out Cn]. split; cbn -[play]; try done. intros H. destruct (Cn H) as (E & ? & ?).
    split_and!; [|done|set_solver]. unfold coming. cbn -[play]. rewrite map_app, concat_app. simpl. by rewrite app_nil_r.
Qed.

Lemma server_steps_ok sv0 q s s' : rtc (step 1 q) s s' -> server_ok sv0 s -> server_ok sv0 s'.
Proof. induction 1; eauto using server_step_ok. Qed.
(** * Every statement is answered *)

Definition alive (s : Server) : Prop := conn_state (conn s) = Connected /\ FForceClose ∉ pending_functors s.

Definition weight (w : Worker) : nat := match w with Started _ => 3 | Finished _ => 2 end.
Definition work (s : Server) : nat :=
  (5 * length (take_lines [] (input_buffer (conn s))).1 + 4 * length (tasks s) + sum_list_with weight (workers s) +
   length (pending_functors s) + match unsent (conn s) with [] => 0 | _ => 1 end)%nat.

Lemma work_line q s s' : take_line q s = Some s' -> (work s' < work s)%nat /\ pending_functors s' = pending_functors s /\ conn_state (conn s') = conn_state (conn s).
Proof.
  unfold take_line. destruct (decide _) as [|Hn]; [done|]. destruct (next_line [] _) as [[l rest]|] eqn:Nl; [|done].
  pose proof (next_line_some _ _ _ _ Nl) as El. intros H.
  destruct (is_blank l); [|destruct (has_room q s)]; simplify_eq; (split; [|done]); unfold work; cbn -[Nat.mul unsent]; rewrite El, ?length_app; cbn -[Nat.mul unsent];
    change (unsent (set_input rest (conn s))) with (unsent (conn s)); lia.
Qed.

(** The socket takes all it is given. *)
Lemma flush_all c : conn_state c = Connected -> unsent c <> [] -> writing c = true ->
  let c' := handle_write (Wrote (length (output_buffer c))) c in
  conn_state c' = Connected /\ input_buffer c' = input_buffer c /\ unsent c' = [].
Proof.
  intros Hc Hu Hw. unfold handle_write. rewrite Hw. destruct (output_buffer c) as [|b o] eqn:Eo.
  { exfalso. apply Hu. unfold unsent. rewrite Eo. apply drop_nil. }
  cbn -[take drop Nat.leb]. match goal with |- context [(?a <=? ?b)%nat] => replace (a <=? b)%nat with true by (symmetry; apply Nat.leb_le; lia) end.
  cbn. rewrite decide_False by by rewrite Hc. done.
Qed.

Lemma send_all_now c data : conn_state c = Connected -> unsent c = [] ->
  exists c', send_in_loop (Wrote (length data)) data c = (c', false) /\ conn_state c' = Connected /\
    input_buffer c' = input_buffer c /\ unsent c' = [].
Proof.
  intros Hc Hu. unfold send_in_loop. rewrite decide_True by done.
  destruct (Nat.leb_spec (length (output_buffer c)) (write_offset c)) as [L|L].
  - cbn -[take drop]. rewrite drop_ge by done. eexists. split_and!; [done..|]. done.
  - exfalso. apply (f_equal length) in Hu. unfold unsent in Hu. rewrite length_drop in Hu. simpl in Hu. lia.
Qed.

Lemma server_progress sv0 q s : server_ok sv0 s -> alive s -> work s <> 0%nat ->
  exists s', step 1 q s s' /\ alive s' /\ received s' = received s /\ (work s' < work s)%nat.
Proof.
  intros Ok (Hc & Hf) Hw. pose proof (ok_workers _ _ Ok) as Wk. destruct (workers s) as [|w ws] eqn:Ew.
  2: { assert (ws = []) as -> by (destruct ws; [done|simpl in Wk; lia]). destruct w as [l|resp].
       - destruct (run_task 0 l (service s)) as [sv resp] eqn:Er. eexists. split.
         { eapply (s_execute _ _ s _ 0 0%nat). unfold execute. rewrite Ew. cbn. rewrite Er. done. }
         split_and!; [done..|]. unfold work. cbn -[Nat.mul unsent]. rewrite Ew. cbn -[Nat.mul unsent]. lia.
       - eexists. split; [eapply (s_reply _ _ s _ 0%nat); unfold reply; rewrite Ew; done|].
         destruct resp as [|b resp]; unfold send; cbn; rewrite ?decide_True by done.
         + split_and!; [done..|]. unfold work. cbn -[Nat.mul unsent]. rewrite Ew. cbn -[Nat.mul unsent]. lia.
         + split_and!; [split; [done|]; cbn; set_solver|done|]. unfold work. cbn -[Nat.mul unsent]. rewrite Ew, length_app. cbn -[Nat.mul unsent]. lia. }
  destruct (tasks s) as [|l ts] eqn:Et.
  2: { eexists. split; [apply s_pick; unfold pick; rewrite Et, Ew; done|]. split_and!; [done..|].
       unfold work. cbn -[Nat.mul unsent]. rewrite Et, Ew. cbn -[Nat.mul unsent]. lia. }
  destruct (next_line [] (input_buffer (conn s))) as [[l rest]|] eqn:Nl.
  { assert (is_Some (take_line q s)) as [s' Hs].
    { unfold take_line. rewrite decide_False by by rewrite Hc. rewrite Nl. unfold has_room. rewrite Et. cbn.
      destruct (is_blank l); [done|]. by destruct q. }
    exists s'. destruct (work_line q s s' Hs) as (L & F & C). split_and!; [by eapply s_line| |by eapply line_ok|done].
    unfold alive. by rewrite F, C. }
  assert (Li : loop_idle s = true) by (unfold loop_idle; rewrite Nl; by rewrite orb_true_r).
  destruct (unsent (conn s)) as [|b u] eqn:Eu.
  - destruct (pending_functors s) as [|f fs] eqn:Ef.
    { exfalso. apply Hw. unfold work. rewrite Et, Ew, Ef, Eu, (next_line_none _ _ Nl). done. }
    rewrite not_elem_of_cons in Hf. destruct Hf as [Hf Hfs].
    destruct f as [data| |]; [|by destruct (ok_connected _ _ Ok Hc) as (_ & _ & H); rewrite Ef in H; set_solver|done].
    destruct (send_all_now (conn s) data Hc Eu) as (c' & Es & Hc' & Hi & Hu).
    eexists. split; [eapply (s_functor _ _ s _ _ (Wrote (length data)) Li Ef)|]. cbn [run_functor]. cbn [conn set_functors].
    rewrite Es. unfold after. cbn. split_and!; [done..|]. unfold work. cbn -[Nat.mul unsent]. rewrite Hi, Hu, Ef, Eu. cbn -[Nat.mul unsent]. lia.
  - assert (writing (conn s) = true) as Hwr.
    { destruct (writing (conn s)) eqn:E; [done|]. destruct (ok_connected _ _ Ok Hc) as (_ & Fl & _). rewrite (Fl E) in Eu. done. }
    destruct (flush_all (conn s) Hc ltac:(by rewrite Eu) Hwr) as (Hc' & Hi & Hu).
    eexists. split; [by eapply (s_write _ _ s (Wrote (length (output_buffer (conn s))))) |]. split_and!; [done..|].
    unfold work. cbn -[Nat.mul handle_write]. rewrite Hi, Hu, Eu. lia.
Qed.

Lemma all_answered sv0 q s : server_ok sv0 s -> alive s ->
  exists s', rtc (step 1 q) s s' /\ received s' = received s /\ alive s' /\ work s' = 0%nat.
Proof.
  remember (work s) as m eqn:Em. revert s Em. induction m as [m IH] using lt_wf_ind. intros s -> Ok Al.
  destruct (decide (work s = 0%nat)) as [E|E]; [by exists s|].
  destruct (server_progress sv0 q s Ok Al E) as (s1 & St & Al1 & R1 & L).
  destruct (IH _ L s1 eq_refl (server_step_ok _ _ _ _ St Ok) Al1) as (s2 & St2 & R2 & Al2 & W2).
  exists s2. split_and!; [by eapply rtc_l|congruence|done..].
Qed.

Lemma idle_state (s : Server) : work s = 0%nat ->
  workers s = [] /\ tasks s = [] /\ (take_lines [] (input_buffer (conn s))).1 = [] /\ pending_functors s = [] /\ unsent (conn s) = [].
Proof.
  unfold work. intros W. assert (sum_list_with weight (workers s) = 0%nat) as Hs by lia.
  split_and!; [|apply length_zero_iff_nil; lia..|destruct (unsent (conn s)); [done|lia]].
  destruct (workers s) as [|[|] ?]; [done|simpl in Hs; lia..].
Qed.
End Service.
#[global] Arguments Service : clear implicits.
#[global] Arguments Server : clear implicits.

(** * The rate limit holds *)

(** How many of the statements that come at the given times are admitted. *)
Fixpoint admitted {X} (rate : Z) (times : list Z) (s : Service X) : Z :=
  match times with
  | [] => 0
  | t :: times => let '(s', ok) := take_token rate t s in (if (ok : bool) then 1 else 0) + admitted rate times s'
  end.

(** The times are later than [l], one after the other. *)
Fixpoint increasing (l : Z) (times : list Z) : Prop :=
  match times with [] => True | t :: times => l < t /\ increasing t times end.

Lemma increasing_weaken l l' times : l <= l' -> increasing l' times -> increasing l times.
Proof. destruct times; simpl; [done|]. intros ? [? ?]. split; [lia|done]. Qed.

Lemma last_cons (l t : Z) times : List.last (t :: times) l = List.last times t.
Proof.
  revert l t. induction times as [|u times IH]; intros l t; [done|].
  transitivity (List.last (u :: times) l); [done|]. by rewrite !IH.
Qed.

Lemma increasing_last l times : increasing l times -> l <= List.last times l.
Proof.
  revert l. induction times as [|t times IH]; intros l; [simpl; lia|]. intros [L H]. specialize (IH _ H). rewrite last_cons. lia.
Qed.

Lemma gained_bound rate d : 0 <= d -> 0 < rate -> 0 <= u64 (d * rate) / 1000000000 /\ u64 (d * rate) / 1000000000 * 1000000000 <= rate * d.
Proof.
  intros Hd Hr. unfold u64, wrap. pose proof (Z.mod_pos_bound (d * rate) (2 ^ 64) ltac:(lia)).
  pose proof (Z.mod_le (d * rate) (2 ^ 64) ltac:(nia) ltac:(lia)). split; [apply Z.div_pos; lia|].
  pose proof (Z.mul_div_le ((d * rate) mod 2 ^ 64) 1000000000 ltac:(lia)). lia.
Qed.

Lemma bucket_bound {X} rate times : 0 < rate < 2 ^ 32 -> forall s : Service X,
  0 <= rate_tokens s -> 0 < rate_last_refill_ns s -> increasing (rate_last_refill_ns s) times ->
  1000000000 * admitted rate times s <=
  1000000000 * rate_tokens s + rate * (List.last times (rate_last_refill_ns s) - rate_last_refill_ns s).
Proof.
  intros Hr. induction times as [|t times IH]; intros s Ht Hl; [simpl; lia|]. intros [Lt Inc]. rewrite last_cons.
  cbn [admitted]. destruct (take_token rate t s) as [s' ok] eqn:Ea. unfold take_token in Ea. rewrite (proj2 (Z.ltb_lt 0 rate)) in Ea by lia.
  unfold refill in Ea. rewrite (proj2 (Z.eqb_neq (rate_last_refill_ns s) 0)), (proj2 (Z.ltb_lt (rate_last_refill_ns s) t)) in Ea by lia. cbn [negb andb] in Ea.
  destruct (gained_bound rate (t - rate_last_refill_ns s) ltac:(lia) ltac:(lia)) as [G0 G1].
  set (g := u64 ((t - rate_last_refill_ns s) * rate) / 1000000000) in *.
  pose proof (increasing_last t times Inc) as Ll. destruct (Z.ltb_spec 0 g) as [Gp|Gp].
  - set (k := u32 (Z.min rate (rate_tokens s + g))) in *. assert (k = Z.min rate (rate_tokens s + g)) as Ek by (unfold k, u32, wrap; apply Z.mod_small; lia).
    cbn in Ea. destruct (Z.eqb_spec k 0) as [E0|E0]; [lia|]. injection Ea as <- <-.
    specialize (IH (mkService (k - 1) t (statements_executed s) (backend s))). cbn in IH.
    specialize (IH ltac:(lia) ltac:(lia) Inc). lia.
  - assert (Im : increasing (rate_last_refill_ns s) times) by (eapply increasing_weaken; [|exact Inc]; lia).
    assert (Le : rate * (List.last times (rate_last_refill_ns s) - rate_last_refill_ns s) <= rate * (List.last times t - rate_last_refill_ns s)).
    { apply Z.mul_le_mono_nonneg_l; [lia|]. destruct times as [|u times]; [simpl; lia|]. rewrite !last_cons. lia. }
    destruct (Z.eqb_spec (rate_tokens s) 0) as [E0|E0]; injection Ea as <- <-.
    + specialize (IH s Ht Hl Im). lia.
    + specialize (IH (mkService (rate_tokens s - 1) (rate_last_refill_ns s) (statements_executed s) (backend s))). cbn in IH.
      specialize (IH ltac:(lia) Hl Im). lia.
Qed.

(** C30: the rate limit holds.  Of the statements of a session that come at different
    times, in nanoseconds of a clock that starts above zero, at most [rate] and
    [rate] more per second since the first are admitted, whatever their times
    (the product of time and rate may wrap around). *)
Theorem rate_limited {X} rate (x : X) t times :
  0 < rate < 2 ^ 32 -> 0 < t -> increasing t times ->
  1000000000 * admitted rate (t :: times) (new_service x) <= 1000000000 * rate + rate * (List.last times t - t).
Proof.
  intros Hr Ht Inc. cbn [admitted]. unfold take_token. rewrite (proj2 (Z.ltb_lt 0 rate)) by lia.
  unfold refill. cbn -[Z.mul]. rewrite (proj2 (Z.eqb_neq rate 0)) by lia.
  pose proof (bucket_bound rate times Hr (mkService (rate - 1) t 0 x) ltac:(cbn; lia) ltac:(cbn; lia) Inc) as H. cbn -[Z.mul] in H. lia.
Qed.

(** Three statements a second, five within a millisecond and one a second later. *)
Lemma rate_limited_witness :
  admitted 3 [1; 2; 3; 4; 1000000; 1000000001] (new_service tt) = 4 /\
  1000000000 * admitted 3 [1; 2; 3; 4; 1000000; 1000000001] (new_service tt) <= 1000000000 * 3 + 3 * (1000000001 - 1).
Proof. split; [vm_compute; reflexivity|]. apply (rate_limited 3 tt 1 [2; 3; 4; 1000000; 1000000001]); [lia|lia|cbn; lia]. Defined.

(** Statements at one and the same time fill the bucket again each time. *)
Lemma rate_instant_anomaly : admitted 1 [5; 5; 5; 5] (new_service tt) = 4.
Proof. vm_compute. reflexivity. Qed.

(** * The connection as a whole *)

(** C23: with one worker thread a connection carries the answers in order.  Whatever
    arrives, in whatever pieces, whatever the socket takes at a time and wherever
    the connection is closed: the statements executed are, in order, the first of
    the lines that arrived, and the bytes sent are a prefix of their answers, one
    after the other.  While the connection is open and nobody closes it, all lines
    can still be answered completely, each once and in order. *)
Theorem answers_in_order {X} rate process cleanup max_in max_out (x : X) q s :
  rtc (step rate process cleanup 1 q) (new_server max_in max_out x) s ->
  omap stmt_of (log s) `prefix_of` statements (received s) /\
  sent (conn s) `prefix_of` (play rate process cleanup (new_service x) (log s)).2 /\
  (alive s -> exists s', rtc (step rate process cleanup 1 q) s s' /\ received s' = received s /\ EClose ∉ log s' /\
     omap stmt_of (log s') = statements (received s) /\
     sent (conn s') = (play rate process cleanup (new_service x) (log s')).2).
Proof.
  intros R. pose proof (server_steps_ok rate process cleanup _ _ _ _ R (new_server_ok rate process cleanup max_in max_out x)) as Ok. split_and!.
  - etrans; [|apply (ok_taken _ _ _ _ _ Ok)]. unfold taken. by apply prefix_app_r.
  - etrans; [|apply (ok_out _ _ _ _ _ Ok)]. by apply prefix_app_r.
  - intros Al. destruct (all_answered rate process cleanup _ q s Ok Al) as (s' & R' & Er & [Hc _] & W).
    exists s'. pose proof (server_steps_ok rate process cleanup _ _ _ _ R' Ok) as Ok'. destruct (idle_state s' W) as (Ew & Et & El & Ef & Eu).
    destruct (ok_open _ _ _ _ _ Ok' ltac:(by rewrite Hc)) as (E1 & _). destruct (ok_connected _ _ _ _ _ Ok' Hc) as (E2 & _).
    split_and!; [done..|by apply (ok_log _ _ _ _ _ Ok'); rewrite Hc| |].
    + unfold taken in E1. rewrite Ew, Et in E1. cbn in E1. unfold statements in E1. rewrite El in E1. cbn in E1.
      rewrite !app_nil_r, Er in E1. by unfold statements.
    + unfold coming in E2. rewrite Ew, Ef, Eu in E2. cbn -[play] in E2. by rewrite !app_nil_r in E2.
Qed.

(** A backend that counts its statements and echoes them. *)
Definition echo (line : bytes) (n : Z) : Z * bytes := (n + 1, line ++ [nl]).
Definition ex_server : Server Z := new_server 1000 1000 0.
Definition ex_arrived : Server Z :=
  after id (handle_read (Got (str "a" ++ [nl] ++ str "b")) (conn ex_server)) (set_received (str "a" ++ [nl] ++ str "b") ex_server).

Lemma answers_in_order_witness :
  exists s', rtc (step 0 echo id 1 0) ex_arrived s' /\ omap stmt_of (log s') = [str "a"] /\
    sent (conn s') = (play 0 echo id (new_service 0) (log s')).2.
Proof.
  destruct (answers_in_order 0 echo id 1000 1000 0 0 ex_arrived) as (_ & _ & H).
  - apply rtc_once. apply (s_read 0 echo id 1 0 ex_server); reflexivity.
  - destruct H as (s' & R & Er & _ & El & Es).
    + split; [reflexivity|]. cbn. apply not_elem_of_nil.
    + exists s'. split; [exact R|]. split; [|exact Es]. rewrite El. vm_compute. reflexivity.
Defined.

(** * Executions the comments exclude *)

Ltac go rule := eapply rtc_l; [eapply rule; vm_compute; reflexivity|].

(** With two workers the second statement of a connection may run and answer before
    the first. *)
Lemma overtaking_anomaly : exists s,
  rtc (step 0 echo id 2 0) ex_server s /\ received s = str "a" ++ [nl] ++ str "b" ++ [nl] /\
  log s = [EStmt 0 (str "b"); EStmt 0 (str "a")] /\ sent (conn s) = str "b" ++ [nl] ++ str "a" ++ [nl].
Proof.
  eexists. split.
  - eapply rtc_l; [apply (s_read _ _ _ _ _ _ (str "a" ++ [nl] ++ str "b" ++ [nl])); vm_compute; reflexivity|].
    go @s_line. go @s_line. go @s_pick. go @s_pick.
    eapply rtc_l; [eapply (s_execute _ _ _ _ _ _ _ 0 1); vm_compute; reflexivity|].
    eapply rtc_l; [eapply (s_execute _ _ _ _ _ _ _ 0 0); vm_compute; reflexivity|].
    eapply rtc_l; [eapply (s_reply _ _ _ _ _ _ _ 1); vm_compute; reflexivity|].
    eapply rtc_l; [eapply (s_reply _ _ _ _ _ _ _ 0); vm_compute; reflexivity|].
    do 2 (eapply rtc_l; [eapply (s_functor _ _ _ _ _ _ _ _ (Wrote 2)); vm_compute; reflexivity|]).
    apply rtc_refl.
  - split_and!; vm_compute; reflexivity.
Qed.

(** A statement that waits in the queue runs after the close callback has rolled the
    transaction of the session back, and so outside of it. *)
Lemma late_statement_anomaly : exists s,
  rtc (step 0 echo id 1 0) ex_server s /\
  log s = [EStmt 0 (str "BEGIN"); EClose; EStmt 0 (str "DELETE FROM t")] /\ conn_state (conn s) = Disconnected.
Proof.
  eexists. split.
  - eapply rtc_l; [apply (s_read _ _ _ _ _ _ (str "BEGIN" ++ [nl] ++ str "DELETE FROM t" ++ [nl])); vm_compute; reflexivity|].
    go @s_line. go @s_line. go @s_pick.
    eapply rtc_l; [eapply (s_execute _ _ _ _ _ _ _ 0 0); vm_compute; reflexivity|].
    eapply rtc_l; [eapply (s_end _ _ _ _ _ _ Eof); [vm_compute; reflexivity..|by left]|].
    eapply rtc_l; [eapply (s_reply _ _ _ _ _ _ _ 0); vm_compute; reflexivity|]. go @s_pick.
    eapply rtc_l; [eapply (s_execute _ _ _ _ _ _ _ 0 0); vm_compute; reflexivity|]. apply rtc_refl.
  - split_and!; vm_compute; reflexivity.
Qed.

(** [shutdown] forgets an answer that a worker has already handed to the loop. *)
Lemma shutdown_anomaly : exists s,
  rtc (step 0 echo id 1 0) ex_server s /\ log s = [EStmt 0 (str "a")] /\ workers s = [] /\ pending_functors s = [] /\
  sent (conn s) = [] /\ unsent (conn s) = [] /\ write_shut (conn s) = true.
Proof.
  eexists. split.
  - eapply rtc_l; [apply (s_read _ _ _ _ _ _ (str "a" ++ [nl])); vm_compute; reflexivity|].
    go @s_line. go @s_pick. eapply rtc_l; [eapply (s_execute _ _ _ _ _ _ _ 0 0); vm_compute; reflexivity|].
    eapply rtc_l; [eapply (s_reply _ _ _ _ _ _ _ 0); vm_compute; reflexivity|].
    eapply rtc_l; [apply s_shutdown|].
    do 2 (eapply rtc_l; [eapply (s_functor _ _ _ _ _ _ _ _ (Wrote 2)); vm_compute; reflexivity|]).
    apply rtc_refl.
  - split_and!; vm_compute; reflexivity.
Qed.

(** A line that holds a semicolon only is not blank and gets no answer: the client
    waits for one until its time is up. *)
Lemma semicolon_unanswered execute : is_blank (str ";") = false /\ process_sql_line execute (str ";") = Ok [].
Proof. split; vm_compute; reflexivity. Qed.
